(* ===== verification/_CoqProject ===== *)
-Q . S2P
Prelude.v
LockOrder.v
SeqOverlap.v
RustStr.v
WriteBarrier.v
DeferredQueue.v
Pattern.v
PatternTheory.v
GlobSimple.v
PatternProps.v
PatternCache.v
ReservationIndex.v
ReservationIndexTheory.v
LeaseIndex.v
S3Fifo.v
S3FifoTheory.v
S3FifoProps.v
ErrorClass.v
CorruptionBreaker.v
CircuitBreaker.v
CircuitBreakerProps.v
Retry.v
Clock.v
Backpressure.v
MailboxVerdict.v
WriteRoute.v
RecoveryAdmission.v
RecoveryBreaker.v
RustText.v
MessageLimits.v
SearchPlanner.v
SearchPlannerProps.v
AgentNames.v
AgentNamesProps.v
Contacts.v
ContactsProps.v
Routing.v
Recipients.v
RoutingProps.v
Idempotency.v
IdempotencyProps.v
Leases.v
LeasesProps.v
LeaseEffects.v
ReservationPaths.v
LeaseReleases.v
AgentRegistry.v
SessionIdentity.v
AgentRegistryProps.v
AgentClaims.v
SessionActors.v
SessionActorsProps.v
SqlTable.v
Messages.v
MessageRetention.v
MessageSend.v
DeliveryCursor.v
MessagesProps.v
BulkReadProps.v
MailHistoryProps.v
DeliveryEventsProps.v
DeliveryCursorProps.v
MessageSendProps.v
Inbox.v
InboxWindow.v
InboxReads.v
InboxDirect.v
InboxProps.v
ProofGate.v
ProofGateProps.v
ArchiveBacklog.v
ArchiveBacklogProps.v
ArchiveQueue.v
ArchiveQueueProps.v
GuardScan.v
Guard.v
GuardProps.v
ReservationArtifact.v
ContactLinks.v
