(* ===== verification/Prelude.v ===== *)
(** * MCP Agent Mail: the verified core

    MCP Agent Mail gives coding agents that share a repository a mailbox and
    advisory locks on files.  A server ([server], [tools]) receives tool calls;
    the tools resolve projects and agents, enforce contact policies and file
    reservations, and write through a database layer ([db]) that caches, retries,
    breaks circuits, queues writes while the mailbox recovers, and guards the
    promotion of a recovered database.  [core] holds what they share: patterns,
    clocks, lock levels, names.  This library models the decisions of those
    layers as Rocq functions and step relations, translated from the Rust of the
    crates (paths below are relative to [src/crates/mcp-agent-mail-<crate>]), and
    proves what makes them correct.

    ** How a call travels through the model

    A reservation request is vetted and made relative to the project
    ([ReservationPaths]), checked against the live leases with the index of
    [ReservationIndex], whose patterns are those of [Pattern], and granted by a
    transaction on the tables of [Leases], which looks again with its own index
    ([LeaseIndex]) and records an idempotency key with its result
    ([Idempotency]).  A message is addressed ([Routing]), its recipients are
    resolved or registered ([Recipients], [AgentNames]), their policies enforced
    ([Contacts]) on the contacts they granted ([ContactLinks]), its identifiers and sizes checked ([MessageLimits]), and it is
    written once per key ([MessageSend], [Idempotency]) into the tables of
    [Messages], where its recipients find it ([Inbox]), read and acknowledge it, monitors follow its
    deliveries ([DeliveryCursor]) and retention takes it in the end
    ([MessageRetention]).  An agent joins through the registry
    ([AgentRegistry]), by a name of its own or a fresh one ([AgentClaims]); its
    later calls name it, or leave it to the session to say who acts
    ([SessionIdentity]), and the tools that act for it ask for its token, its
    session or an operator ([SessionActors]), and a proof signed by a trusted key
    when the operator wants one ([ProofGate]).  Writes pass the route of [WriteRoute],
    which defers them to [DeferredQueue] while [MailboxVerdict] is not healthy,
    and run inside [Retry] over [CircuitBreaker] and [CorruptionBreaker];
    [RecoveryAdmission], [RecoveryBreaker] and [WriteBarrier] decide when a
    recovery runs and when its result replaces the database.  What the archive is
    to record goes through [ArchiveQueue], and waits in [ArchiveBacklog] when the
    archive cannot be written.  There the reservations are files
    ([ReservationArtifact]), and the guard of a repository reads them: it lists the
    paths of a commit or a push ([GuardScan]) and stops those in the way ([Guard]).

    ** Files

    Groundwork: [Prelude] (tactics, machine integers, the result monad, labelled
    transition systems with reachability and inevitability, memoisation as a
    class, lists), [RustStr] and [RustText] (the standard library's [str]: UTF-8,
    byte order, trimming, splitting, numbers), [SeqOverlap] (the routine behind
    overlap of globs).

    Reservations:
    - [Pattern], [PatternTheory], [GlobSimple], [PatternProps], [PatternCache]:
      [core/src/pattern_overlap.rs].  Two simple patterns that reserve a common path
      are found to overlap, but for a directory and a glob that reaches below it (a
      finding); the overlap of segments is decided exactly; the cache
      of compiled patterns is transparent and evicts the least recently used.
    - [ReservationIndex], [ReservationIndexTheory]: [tools/src/reservation_index.rs];
      the index reports what an exhaustive comparison reports.
    - [LeaseIndex]: [ReservationConflictIndex] of
      [db/src/queries.rs]; exact for everything but the project root.
    - [Leases], [LeasesProps], [LeaseEffects], [LeaseReleases]: the tables
      [file_reservations] (a list of rows in the order of their ids) and
      [file_reservation_releases] (a map) of [db/src/queries.rs], one function per
      transaction.  In every history two live leases of different agents in one
      project, one of them exclusive, do not overlap; grants, renewals and
      releases change exactly the rows they should.
    - [ReservationPaths]: [tools/src/reservations.rs].
      Relative paths stay inside the project; a request grants the free paths and
      reports the others with the leases in their way; the read-only check never
      reports a blocked path clear.

    Messages:
    - [AgentNames(Props)]: [core/src/models.rs]; one canonical spelling per name.
    - [Routing(Props)], [Recipients], [Contacts(Props)],
      [MessageLimits]: [tools/src/messaging.rs] and
      [db/src/project_mailbox.rs].  A routed message lives in one project; an agent
      is a recipient once; unknown names are registered only when every guard
      allows; nobody is written to against their policy; the lazy gathering of
      evidence decides like the eager one.
    - [ContactLinks]: the table [agent_links] of [db/src/queries.rs] with the tools of
      [tools/src/contacts.rs] over it and the handshake of [tools/src/macros.rs].
      Every history refines the agreements of pairs of agents: contact is granted by
      the recipient alone, requests undo no answer, and the agreements decide what
      [Contacts] delivers; with the refusal that a handshake overrides when it comes
      between its two transactions (a finding).
    - [Idempotency(Props)]: keys and fingerprints of [db/src/idempotency.rs],
      [tools/src/idempotency.rs] and the keyed transactions of [db/src/queries.rs];
      retries apply nothing.
    - [SqlTable]: tables as maps, [UPDATE], [DELETE] and [INSERT OR IGNORE] on them,
      and the algebra of [ORDER BY .. LIMIT].
    - [Messages], [MessageSend], [MessageRetention]: the message store of
      [db/src/queries.rs], [db/src/project_mailbox.rs] and [db/src/sync.rs]: messages,
      deliveries by name and to the project, receipts, counts, delivery events, one
      function per transaction, and [MailOp], the histories of all of them.
    - [MessagesProps], [MailHistoryProps], [MessageSendProps], [BulkReadProps]: after
      every history the counts are those of a recount, ids are never given twice,
      what was stored stays, pruning takes only settled mail; a send stores what it
      was asked; a bulk read takes the oldest mail of both kinds; and a send that
      was cleaned up leaves its key and its delivery events behind (a finding).
    - [DeliveryCursor(Props)], [DeliveryEventsProps]: delivery events by cursor, [sync.rs];
      a monitor misses nothing while nothing is deleted, and what pruning does to
      cursors (findings).
    - [Inbox], [InboxWindow], [InboxReads], [InboxDirect], [InboxProps]: the inbox of
      [db/src/sync/inbox.rs] with its two query plans; both return the newest mail
      of both kinds, for every order the database and the hash maps choose (the
      class [InboxEngine]), and reading a listed message takes exactly it out.
    - [SearchPlanner(Props)]: [db/src/search_planner.rs]; the SQL holds no text of
      the query, its placeholders are bound one to one, hidden messages do not
      influence what a reader sees, cursors read back.

    Agents:
    - [AgentRegistry(Props)]: the agents table and the deregistration ledger of
      [db/src/queries.rs], one function per transaction.  The commit of a
      registration and the clean-up after a failed probe are transactions of their
      own, with others in between.  An agent keeps its id, project and name; only the
      clean-up of the registration that inserted it takes it out, and with it a
      registration that came in between (a finding); a deregistered one never comes
      back and gets no lease.
    - [AgentClaims]: fresh names of [tools/src/identity.rs]; a name is found
      while any is left, and never one that belongs to an agent.
    - [SessionIdentity]: [tools/src/session_identity.rs]; the store refines a
      plain table of bindings, and its critical sections serialise.
    - [SessionActors(Props)]: tokens, sender proof, registration and life cycle of
      [tools/src/identity.rs] and [tools/src/messaging.rs]; what each accepts as
      proof, that a session is taken only for agents its own commits inserted, and
      where an unreadable agent lends its identity (the findings).
    - [ProofGate(Props)]: [tools/src/proof_gate.rs] and its table of nonces in
      [db/src/queries.rs]; what a signature covers, what the gate lets through,
      that a nonce is accepted once while its record is kept (and the replay
      across the expiry, a finding), and that nobody is registered without a proof:
      by the tools above, as the requester of contacts ([tools/src/contacts.rs]) or
      as the recipient of a send ([Recipients]).

    The database layer:
    - [S3Fifo], [S3FifoTheory], [S3FifoProps]: [db/src/s3fifo.rs]; a bounded cache
      that agrees with the last writes.
    - [ErrorClass]: [db/src/error.rs].
    - [CircuitBreaker(Props)], [Retry]: [db/src/retry.rs]; one probe at a time.
    - [CorruptionBreaker]: [db/src/circuit_breaker.rs]; evidence sticks.
    - [DeferredQueue], [WriteRoute], [RecoveryAdmission]: [db/src/pool.rs].
      What is drained is what was accepted, in order; one recovery at a time.
    - [RecoveryBreaker]: [db/src/recovery_breaker.rs]; failing recoveries of
      a generation are spaced, across processes.
    - [MailboxVerdict]: [db/src/mailbox_verdict.rs].
    - [WriteBarrier]: [db/src/write_barrier.rs]; a promotion excludes writers.

    The archive ([storage/src/lib.rs]):
    - [ArchiveBacklog(Props)]: the retry backlog with its journal, as processes on
      one directory that crash and recover.  A write that was answered as queued
      reaches the archive or is kept in a file; a failing write does not hold up
      the others.
    - [ArchiveQueue(Props)]: the write-behind queue, its retries, groups and
      circuit breaker.  Producers, drain threads, restarts and shutdowns
      interleave; what was accepted is settled in order, an acknowledged flush is
      a barrier, a thread left alone empties the queue, unless a shutdown gave up
      on one, which also breaks the barrier (a finding).

    - [ReservationArtifact]: [core/src/reservation_artifact.rs]; names of the files
      of reservations read back, and finding many in one pass is finding each.

    The guard ([guard/src/lib.rs], and its command in [cli/src/lib.rs]):
    - [GuardScan], [Guard], [GuardProps]: what git printed read as a whole or as a
      stream, the bounded scan of a push, the reservations of the archive, the
      check.  The two parsers agree, a push is answered from
      listings that ended well, as far as they were read (a read that fails counts as
      the end, a finding), a commit is let
      through exactly when nothing is in the way, and what is in the way is what
      the reservations of [Pattern] would have refused; with a file name that the
      server takes and the guard does not look at (a finding).

    The process:
    - [Clock]: [core/src/timestamps.rs], its atomic steps interleaved; readings are
      unique and each thread sees them grow.
    - [Backpressure]: [core/src/backpressure.rs], [core/src/slo.rs].
    - [LockOrder]: [core/src/lock_order.rs]; with debug
      assertions the levels exclude deadlock; a release build does not check them.

    ** How the model stands for the code

    A struct is a [Record], an enum an [Inductive]; a function is a [Definition] or
    [Fixpoint] with the source's name, its guards in the source's order.  Each
    mapped definition names its file and lines in a comment [@src].  Machine
    integers are [Z] with saturation and wrapping written out; strings are lists
    of Unicode scalars.  [Result] is a sum, [?] its bind.  A [BTreeMap] is a list
    sorted by key where the order of its keys shows, any other map a [gmap].
    State under a mutex is a value that operations map to a value; where threads
    interleave inside an operation ([Clock], [RecoveryAdmission], [WriteBarrier],
    [LockOrder], [CorruptionBreaker], [Retry], [ArchiveBacklog], [ArchiveQueue]) the operation is split into the
    atomic steps or critical sections of the source, and theorems quantify over
    their interleavings.  Database transactions are functions on tables: the
    source opens them with [BEGIN IMMEDIATE], which makes writers take turns, or
    as concurrent transactions that the engine rolls back and the source retries
    when they conflict; histories put them in the order of their commits.

    Loops are structural where the source consumes a list or a budget.  Fuel
    appears in [chunks] and [release_chunks] ([Leases]; the length of the list,
    and three, the depth the chunk plan allows, by [release_chunks_spec]), in the
    splitting of text queries ([SearchPlanner]; the length of the text, by
    [like_conditions_terminates]), and in the retry loop ([Retry]; the attempts
    the source allows), and in the pages of the inbox ([Inbox]; one more than the
    messages or receipts there are, by [inbox_newest], which ends in a result), in
    the attempts at a git process ([GuardScan]; those the source allows), in
    the attempts of an archive write ([ArchiveQueue]; three, by
    [wbq_execute_op_attempts]), its groups (the length of the batch, by
    [batch_groups_concat]) and the rounds of the backlog ([ArchiveBacklog]; eight
    for each write, by [poisoned_writes_pass]).

    ** Parameters

    Third-party code is an argument: the glob engine ([GlobEngine], with its
    documented behaviour [GlobLaws], satisfied by the engine of [GlobSimple]),
    SHA-256, JSON, lower-casing outside ASCII.  So are the environment ([~], file
    metadata) and, for the tools above them, the queries ([AgentStore] in
    [Recipients], the queries of [Contacts], the lookup of projects in
    [Routing]).  The message store takes the registry and the slugs of projects that a
    transaction sees, the bytes of columns that hold JSON, the highest id found in
    the archive, and what the probe after a commit sees.  The gate in front of the
    tools is an argument of [SessionActors], which [ProofGateProps] supplies; the
    gate takes the JSON of proofs, base64 and Ed25519 ([SigningLib]).  The generator
    of tokens and names is a parameter.  The archive takes JSON ([OpJson]), whether
    an attempt to write succeeds, and how far writes to its journal get.
    The guard takes what git processes did and printed, [chrono], JSON, the
    listing of the directory, and the canonical roots.
    Times are arguments of every operation that reads a clock; a
    history of leases assumes that they do not go back, which [Clock] proves of
    one process.

    ** Not modelled

    The archive in git ([storage]): artefacts, commits and their coalescing, locks,
    reconciliation, which interleave decisions with file-system and git effects;
    SQL beyond the transactions above, whose
    meaning is the engine's; full-text search engines and floating-point scores
    ([search-core], the [atc_*] modules); the installation of the guard's hooks and the Python
    of the installed hook, export bundles, HTTP
    server, terminal interface and command line, which are effects and rendering;
    failing database statements inside a transaction (it is rolled back whole);
    the ledger of signal receipts and the functions of the store that only tests
    reach ([create_message], [add_recipients]); the notices and welcome messages of
    contact requests; the agents that the server's ACK worker
    ([insert_system_agent]) and the terminal interface insert for themselves,
    under names no agent has; databases without the tables of the
    shared mailbox;
    logging and metrics counters that nothing reads back; the read cache in front
    of the lookups of agents; archive profiles, pane files and the JSON of results.

    ** Plan

    Next: request coalescing ([db/src/coalesce.rs]), the life cycle of experiences
    ([core/src/experience.rs]), build slots ([tools/src/build_slots.rs]), search
    scopes ([db/src/search_scope.rs]), the diagnostics of [core/src/lock_order]. *)

From Stdlib Require Export ZArith NArith Lia Bool Ascii String.
From stdpp Require Export base decidable list sorting gmap sets numbers.
Export stdpp.list_basics.list stdpp.list_relations.list stdpp.list_monad.list
  stdpp.list_misc.list.
Import ListNotations.

#[global] Set Default Goal Selector "!".
#[global] Open Scope Z_scope.
(* stdpp seals no list operation we need to compute with; strings are only
   used for literals, so keep [++] on lists. *)
#[global] Open Scope list_scope.

Create HintDb agentmail.

(** ** Tactics *)

(** Destruct the scrutinee of some [match]/[if] in the goal. *)
Ltac case_goal :=
  match goal with
  | |- context [match ?x with _ => _ end] => destruct x eqn:?
  end.

(** Destruct the scrutinee of some [match]/[if] in a hypothesis. *)
Ltac case_hyp :=
  match goal with
  | H : context [match ?x with _ => _ end] |- _ => destruct x eqn:?
  end.

(** Turn boolean facts about integers and connectives into propositions. *)
Ltac breflect :=
  repeat match goal with
  | H : _ && _ = true |- _ => apply andb_true_iff in H; destruct H
  | H : _ && _ = false |- _ => apply andb_false_iff in H
  | H : _ || _ = false |- _ => apply orb_false_iff in H; destruct H
  | H : _ || _ = true |- _ => apply orb_true_iff in H
  | H : negb _ = true |- _ => apply negb_true_iff in H
  | H : negb _ = false |- _ => apply negb_false_iff in H
  | H : (_ <=? _) = true |- _ => apply Z.leb_le in H
  | H : (_ <=? _) = false |- _ => apply Z.leb_gt in H
  | H : (_ <? _) = true |- _ => apply Z.ltb_lt in H
  | H : (_ <? _) = false |- _ => apply Z.ltb_ge in H
  | H : (_ =? _) = true |- _ => apply Z.eqb_eq in H
  | H : (_ =? _) = false |- _ => apply Z.eqb_neq in H
  | H : (_ >? _) = _ |- _ => rewrite Z.gtb_ltb in H
  | H : (_ >=? _) = _ |- _ => rewrite Z.geb_leb in H
  | H : bool_decide _ = true |- _ => apply bool_decide_eq_true in H
  | H : bool_decide _ = false |- _ => apply bool_decide_eq_false in H
  end.

(** ** Machine integers

    A [u64]/[i64]/[usize] is a [Z]; the source's saturating, wrapping and
    checked operations are written out. *)

Definition u64_max : Z := 2 ^ 64 - 1.
Definition u32_max : Z := 2 ^ 32 - 1.
Definition i64_max : Z := 2 ^ 63 - 1.
Definition i64_min : Z := - 2 ^ 63.

Definition in_u64 (z : Z) : Prop := 0 <= z <= u64_max.
Definition in_i64 (z : Z) : Prop := i64_min <= z <= i64_max.

(** [u64::saturating_add], [saturating_sub], [saturating_mul]. *)
Definition usat_add (a b : Z) : Z := Z.min (a + b) u64_max.
Definition usat_sub (a b : Z) : Z := Z.max (a - b) 0.
Definition usat_mul (a b : Z) : Z := Z.min (a * b) u64_max.
Definition u32sat_add (a b : Z) : Z := Z.min (a + b) u32_max.

(** [i64::saturating_add] and [saturating_sub]. *)
Definition iclamp (z : Z) : Z := Z.max i64_min (Z.min z i64_max).
Definition isat_add (a b : Z) : Z := iclamp (a + b).
Definition isat_sub (a b : Z) : Z := iclamp (a - b).

(** Wrapping arithmetic on 64-bit words. *)
Definition u64_wrap (z : Z) : Z := z mod 2 ^ 64.

Lemma usat_add_range (a b : Z) : 0 <= a -> 0 <= b -> in_u64 (usat_add a b).
Proof. unfold in_u64, usat_add, u64_max. lia. Qed.

Lemma usat_sub_range (a b : Z) : in_u64 a -> 0 <= b -> in_u64 (usat_sub a b).
Proof. unfold in_u64, usat_sub, u64_max. lia. Qed.

Lemma usat_sub_le (a b : Z) : 0 <= a -> 0 <= b -> usat_sub a b <= a.
Proof. unfold usat_sub. lia. Qed.

Lemma isat_add_range (a b : Z) : in_i64 (isat_add a b).
Proof. unfold in_i64, isat_add, iclamp, i64_min, i64_max. lia. Qed.

Lemma isat_sub_range (a b : Z) : in_i64 (isat_sub a b).
Proof. unfold in_i64, isat_sub, iclamp, i64_min, i64_max. lia. Qed.

Lemma isat_add_exact (a b : Z) : in_i64 (a + b) -> isat_add a b = a + b.
Proof. unfold in_i64, isat_add, iclamp. lia. Qed.

Lemma isat_sub_exact (a b : Z) : in_i64 (a - b) -> isat_sub a b = a - b.
Proof. unfold in_i64, isat_sub, iclamp. lia. Qed.

#[export] Hint Resolve usat_add_range usat_sub_range isat_add_range isat_sub_range : agentmail.

(** ** Fallible code

    [Result<A, E>] is the sum [E + A]; its monad is the [?] operator. *)

#[export] Instance result_ret E : MRet (sum E) := fun _ a => inr a.
#[export] Instance result_bind E : MBind (sum E) := fun _ _ f m =>
  match m with inl e => inl e | inr a => f a end.

Lemma result_bind_inr {E A B} (m : E + A) (f : A -> E + B) b : (m ≫= f) = inr b <-> exists a, m = inr a /\ f a = inr b.
Proof.
  destruct m as [e|a]; simpl; (split; [intros H|intros (x & Hx & Hf)]); try discriminate; [by exists a|].
  by injection Hx as ->.
Qed.

(** ** State machines

    A component whose operations interleave is a labelled transition system;
    the class gathers the initial states and the step relation, and the
    lemmas below are the induction principles every component uses. *)

Class LTS (St Lab : Type) := {
  lts_init : St -> Prop;
  lts_step : St -> Lab -> St -> Prop;
}.

Section reachability.
  Context {St Lab : Type} `{!LTS St Lab}.

Inductive reachable : St -> Prop :=
  | reach_init s : lts_init s -> reachable s
  | reach_step s l s' : reachable s -> lts_step s l s' -> reachable s'.

Inductive steps : St -> list Lab -> St -> Prop :=
  | steps_nil s : steps s [] s
  | steps_cons s l s' ls s'' :
      lts_step s l s' -> steps s' ls s'' -> steps s (l :: ls) s''.

Definition inductive_invariant (I : St -> Prop) : Prop :=
    (forall s, lts_init s -> I s) /\ (forall s l s', I s -> lts_step s l s' -> I s').

Lemma invariant_reachable (I : St -> Prop) :
    inductive_invariant I -> forall s, reachable s -> I s.
  Proof. intros [Hi Hs] s Hr. induction Hr; eauto. Qed.

  (** Strengthen an invariant step with one already established. *)
Lemma invariant_reachable_with (J I : St -> Prop) :
    (forall s, reachable s -> J s) ->
    (forall s, lts_init s -> I s) ->
    (forall s l s', J s -> I s -> lts_step s l s' -> I s') ->
    forall s, reachable s -> I s.
  Proof. intros HJ Hi Hs s Hr. induction Hr; eauto. Qed.

Lemma reachable_steps s ls s' : reachable s -> steps s ls s' -> reachable s'.
  Proof. intros Hr Hs. induction Hs; eauto using reach_step. Qed.
Lemma steps_app (l1 : list Lab) : forall s l2 s',
  steps s (l1 ++ l2) s' -> exists s1, steps s l1 s1 /\ steps s1 l2 s'.
Proof.
  induction l1 as [|l l1 IH]; intros s l2 s' Hs; simpl in Hs.
  - exists s. split; [apply steps_nil|done].
  - inversion Hs as [|? ? s1 ? ? H1 H2]; subst. destruct (IH s1 l2 s' H2) as (s2 & Ha & Hb).
    exists s2. split; [by eapply steps_cons|done].
Qed.

Lemma steps_snoc ls : forall s s' l s'', steps s ls s' -> lts_step s' l s'' -> steps s (ls ++ [l]) s''.
Proof.
  induction ls as [|l0 ls IH]; intros s s' l s'' Hs Hl; inversion Hs; subst; simpl.
  - eapply steps_cons; [exact Hl|apply steps_nil].
  - eapply steps_cons; [done|]. by eapply IH.
Qed.

(** Whatever allowed steps are taken, in whatever order, [P] comes to hold, and
    until then an allowed step exists. *)
Inductive inevitable (allowed : Lab -> Prop) (P : St -> Prop) : St -> Prop :=
  | inev_now s : P s -> inevitable allowed P s
  | inev_later s :
      (exists l s', allowed l /\ lts_step s l s') ->
      (forall l s', allowed l -> lts_step s l s' -> inevitable allowed P s') ->
      inevitable allowed P s.

(** A measure that allowed steps decrease, and progress while [P] fails. *)
Lemma inevitable_by_measure (allowed : Lab -> Prop) (I P : St -> Prop) (m : St -> nat) :
  (forall s, I s -> P s \/
     (exists l s', allowed l /\ lts_step s l s') /\
     (forall l s', allowed l -> lts_step s l s' -> I s' /\ (m s' < m s)%nat)) ->
  forall s, I s -> inevitable allowed P s.
Proof.
  intros Hstep s. remember (m s) as n eqn:En. revert s En.
  induction (lt_wf n) as [n _ IH]. intros s -> Hi.
  destruct (Hstep s Hi) as [HP|[Hex Hall]]; [by apply inev_now|]. apply inev_later; [done|].
  intros l s' Hl Hs. destruct (Hall l s' Hl Hs) as [Hi' Hm]. by apply (IH (m s')).
Qed.
End reachability.

(** Deterministic components: an operation is a function on the state, a run
    is a left fold. *)
Section runs.
  Context {St Op : Type} (apply : St -> Op -> St).

Definition run (s : St) (ops : list Op) : St := foldl apply s ops.

Lemma run_app s xs ys : run s (xs ++ ys) = run (run s xs) ys.
  Proof. apply foldl_app. Qed.

Lemma run_invariant (I : St -> Prop) :
    (forall s o, I s -> I (apply s o)) -> forall ops s, I s -> I (run s ops).
  Proof. intros Hs ops. induction ops as [|o ops IH]; intros s H; simpl; auto. Qed.
End runs.

(** ** Memoisation

    What a lookup cache promises its clients: whatever it already holds, it
    answers like the function it memoises.  [PatternCache] and the agent-name
    normalisation cache are instances. *)
Class MemoCache (K V C : Type) := {
  memo_fun : K -> V;
  memo_ok : C -> Prop;
  memo_call : C -> K -> V * C;
  memo_call_transparent c k : memo_ok c -> fst (memo_call c k) = memo_fun k;
  memo_call_ok c k : memo_ok c -> memo_ok (snd (memo_call c k));
}.

Section memo.
  Context {K V C : Type} `{!MemoCache K V C}.

  (** Results of a whole sequence of lookups threaded through the cache. *)
Fixpoint memo_run (c : C) (ks : list K) : list V * C :=
    match ks with
    | [] => ([], c)
    | k :: ks =>
        let '(v, c') := memo_call c k in
        let '(vs, c'') := memo_run c' ks in (v :: vs, c'')
    end.

Lemma memo_run_transparent ks : forall c,
    memo_ok c -> fst (memo_run c ks) = map memo_fun ks /\ memo_ok (snd (memo_run c ks)).
  Proof.
    induction ks as [|k ks IH]; intros c Hc; simpl; [auto|].
    pose proof (memo_call_transparent c k Hc) as Ht.
    pose proof (memo_call_ok c k Hc) as Ho.
    destruct (memo_call c k) as [v c']; simpl in *.
    destruct (IH c' Ho) as [Hv Hok]. destruct (memo_run c' ks); simpl in *.
    split; congruence.
  Qed.
End memo.

(** ** Lists *)

Fixpoint take_while {A} (p : A -> bool) (l : list A) : list A :=
  match l with
  | [] => []
  | x :: l => if p x then x :: take_while p l else []
  end.

Fixpoint drop_while {A} (p : A -> bool) (l : list A) : list A :=
  match l with
  | [] => []
  | x :: l' => if p x then drop_while p l' else l
  end.

Lemma take_while_drop_while {A} (p : A -> bool) l :
  take_while p l ++ drop_while p l = l.
Proof. induction l as [|x l IH]; simpl; [done|]. destruct (p x); simpl; congruence. Qed.

Lemma drop_while_head {A} (p : A -> bool) l x r :
  drop_while p l = x :: r -> p x = false.
Proof. induction l as [|y l IH]; simpl; [done|]. destruct (p y) eqn:E; [auto|]. congruence. Qed.

Lemma drop_while_id {A} (p : A -> bool) l :
  (forall x r, l = x :: r -> p x = false) -> drop_while p l = l.
Proof. destruct l as [|x r]; simpl; [done|]. intros H. by rewrite (H x r eq_refl). Qed.

Lemma drop_while_suffix {A} (p : A -> bool) l : exists k, l = k ++ drop_while p l.
Proof. exists (take_while p l). by rewrite take_while_drop_while. Qed.

(** Index of the first element satisfying [p] ([iter().position(..)]). *)
Fixpoint position {A} (p : A -> bool) (l : list A) : option nat :=
  match l with
  | [] => None
  | x :: l => if p x then Some 0%nat else S <$> position p l
  end.

Lemma position_Some {A} (p : A -> bool) l i :
  position p l = Some i -> exists x, l !! i = Some x /\ p x = true.
Proof.
  revert i; induction l as [|y l IH]; intros i; simpl; [done|].
  destruct (p y) eqn:E.
  - intros [= <-]. eauto.
  - destruct (position p l) as [j|] eqn:Ej; simpl; [|done]. intros [= <-]. simpl. eauto.
Qed.

Lemma position_None {A} (p : A -> bool) l :
  position p l = None <-> forall x, x ∈ l -> p x = false.
Proof.
  induction l as [|y l IH]; simpl.
  - split; [|done]. intros _ x H. by apply elem_of_nil in H.
  - destruct (p y) eqn:E.
    + split; [done|]. intros H. rewrite (H y) in E; [done|]. left.
    + rewrite fmap_None, IH. split.
      * intros H x [->|Hx]%elem_of_cons; auto.
      * intros H x Hx. apply H. by right.
Qed.

(** Boolean filter lemmas the components share. *)
Lemma filter_flat_map {A B} (p : B -> bool) (f : A -> list B) l :
  List.filter p (flat_map f l) = flat_map (fun x => List.filter p (f x)) l.
Proof. induction l as [|x l IH]; simpl; [done|]. by rewrite List.filter_app, IH. Qed.

Lemma bfilter_ext_in {A} (p q : A -> bool) l :
  (forall x, In x l -> p x = q x) -> List.filter p l = List.filter q l.
Proof. apply List.filter_ext_in. Qed.

Lemma bfilter_Permutation {A} (p : A -> bool) l l' :
  l ≡ₚ l' -> List.filter p l ≡ₚ List.filter p l'.
Proof.
  induction 1 as [|x l l' Hp IH|x y l|l l1 l2 H1 IH1 H2 IH2]; simpl.
  - done.
  - destruct (p x); by rewrite ?IH.
  - destruct (p x), (p y); try done. apply perm_swap.
  - by rewrite IH1.
Qed.

Lemma bfilter_all_false {A} (p : A -> bool) l :
  (forall x, In x l -> p x = false) -> List.filter p l = [].
Proof.
  induction l as [|x l IH]; simpl; [done|]. intros H.
  rewrite (H x); [|by left]. apply IH. intros y Hy; apply H; by right.
Qed.

Lemma bfilter_all_true {A} (p : A -> bool) l :
  (forall x, In x l -> p x = true) -> List.filter p l = l.
Proof.
  induction l as [|x l IH]; simpl; [done|]. intros H.
  rewrite (H x); [|by left]. f_equal. apply IH. intros y Hy; apply H; by right.
Qed.

(** [iter().enumerate()], counting from [j]. *)
Fixpoint enumerate_from {A} (j : nat) (l : list A) : list (nat * A) :=
  match l with
  | [] => []
  | x :: l => (j, x) :: enumerate_from (S j) l
  end.
