(* ===== verification/LockOrder.v ===== *)
(** * The lock hierarchy ([core/src/lock_order.rs])

    The process-global locks carry a level; a build with debug assertions keeps,
    per thread, the levels it holds, and panics before an acquisition that does not
    climb; another build does neither ([debug_assertions]).  The
    state below is shared by all threads: what each one believes to hold, the
    guards that are alive, the threads blocked in [lock]/[read]/[write], and the
    statistics.  A step is a call up to its return or its blocking, the wake-up
    of a blocked call, or the drop of a guard.  The call sites kept for panic
    messages and the diagnostics of [lock_order/live.rs] are left out. *)

From S2P Require Import Prelude.

(** @src core/src/lock_order.rs:58-97 LockLevel *)
Inductive LockLevel :=
| DbPoolCache
| DbSqliteInitGates
| DbReadCacheProjectsBySlug
| DbReadCacheProjectsByHumanKey
| DbReadCacheAgentsByKey
| DbReadCacheAgentsById
| DbReadCacheInboxStats
| DbReadCacheDeferredTouches
| DbReadCacheLastTouchFlush
| DbQueryTrackerInner
| StorageArchiveLockMap
| StorageRepoCache
| StorageSignalDebounce
| StorageWbqDrainHandle
| StorageWbqStats
| StorageCommitQueue
| ToolsBridgedEnv
| ToolsToolMetrics
| ServerLiveDashboard.

#[export] Instance LockLevel_eq_dec : EqDecision LockLevel.
Proof. solve_decision. Defined.

(** @src core/src/lock_order.rs:99-124 LockLevel::ALL *)
Definition ALL_LEVELS : list LockLevel :=
  [DbPoolCache; DbSqliteInitGates; DbReadCacheProjectsBySlug; DbReadCacheProjectsByHumanKey;
   DbReadCacheAgentsByKey; DbReadCacheAgentsById; DbReadCacheInboxStats; DbReadCacheDeferredTouches;
   DbReadCacheLastTouchFlush; DbQueryTrackerInner; StorageArchiveLockMap; StorageRepoCache;
   StorageSignalDebounce; StorageWbqDrainHandle; StorageWbqStats; StorageCommitQueue;
   ToolsBridgedEnv; ToolsToolMetrics; ServerLiveDashboard].

(** @src core/src/lock_order.rs:126-150 LockLevel::ordinal *)
Definition ordinal (level : LockLevel) : nat :=
  match level with
  | DbPoolCache => 0 | DbSqliteInitGates => 1 | DbReadCacheProjectsBySlug => 2
  | DbReadCacheProjectsByHumanKey => 3 | DbReadCacheAgentsByKey => 4 | DbReadCacheAgentsById => 5
  | DbReadCacheInboxStats => 6 | DbReadCacheDeferredTouches => 7 | DbReadCacheLastTouchFlush => 8
  | DbQueryTrackerInner => 9 | StorageArchiveLockMap => 10 | StorageRepoCache => 11
  | StorageSignalDebounce => 12 | StorageWbqDrainHandle => 13 | StorageWbqStats => 14
  | StorageCommitQueue => 15 | ToolsBridgedEnv => 16 | ToolsToolMetrics => 17 | ServerLiveDashboard => 18
  end.

(** @src core/src/lock_order.rs:152-177 LockLevel::from_ordinal *)
Definition from_ordinal (ord : nat) : option LockLevel :=
  match ord with
  | 0 => Some DbPoolCache | 1 => Some DbSqliteInitGates | 2 => Some DbReadCacheProjectsBySlug
  | 3 => Some DbReadCacheProjectsByHumanKey | 4 => Some DbReadCacheAgentsByKey
  | 5 => Some DbReadCacheAgentsById | 6 => Some DbReadCacheInboxStats
  | 7 => Some DbReadCacheDeferredTouches | 8 => Some DbReadCacheLastTouchFlush
  | 9 => Some DbQueryTrackerInner | 10 => Some StorageArchiveLockMap | 11 => Some StorageRepoCache
  | 12 => Some StorageSignalDebounce | 13 => Some StorageWbqDrainHandle | 14 => Some StorageWbqStats
  | 15 => Some StorageCommitQueue | 16 => Some ToolsBridgedEnv | 17 => Some ToolsToolMetrics
  | 18 => Some ServerLiveDashboard
  | _ => None
  end%nat.

(** @src core/src/lock_order.rs:179-210 LockLevel::rank *)
Definition rank (level : LockLevel) : nat :=
  match level with
  | DbPoolCache => 10 | DbSqliteInitGates => 11 | DbReadCacheProjectsBySlug => 20
  | DbReadCacheProjectsByHumanKey => 21 | DbReadCacheAgentsByKey => 22 | DbReadCacheAgentsById => 23
  | DbReadCacheInboxStats => 24 | DbReadCacheDeferredTouches => 25 | DbReadCacheLastTouchFlush => 26
  | DbQueryTrackerInner => 30
  | StorageArchiveLockMap => 39 | StorageRepoCache => 40 | StorageSignalDebounce => 41
  | StorageWbqDrainHandle => 50 | StorageWbqStats => 51 | StorageCommitQueue => 60
  | ToolsBridgedEnv => 70 | ToolsToolMetrics => 80
  | ServerLiveDashboard => 90
  end%nat.

(** ** Statistics *)

(** @src core/src/lock_order.rs:223-243 LockStats, LockStats::new *)
Record LockStats := mkLockStats {
  acquire_count : Z;
  contended_count : Z;
  total_wait_ns : Z;
  total_hold_ns : Z;
  max_wait_ns : Z;
  max_hold_ns : Z;
}.
Definition lock_stats_new : LockStats := mkLockStats 0 0 0 0 0 0.

(** @src core/src/lock_order.rs:275-286 update_max
    -- the loop ends with the larger of the stored value and the candidate. *)
Definition update_max (current candidate : Z) : Z := if current <? candidate then candidate else current.

(** @src core/src/lock_order.rs:245-253 LockStats::record_acquire
    -- [fetch_add] wraps. *)
Definition record_acquire (contended : bool) (wait_ns : Z) (s : LockStats) : LockStats :=
  let s := mkLockStats (u64_wrap (acquire_count s + 1)) (contended_count s) (total_wait_ns s)
             (total_hold_ns s) (max_wait_ns s) (max_hold_ns s) in
  if contended then
    mkLockStats (acquire_count s) (u64_wrap (contended_count s + 1)) (u64_wrap (total_wait_ns s + wait_ns))
      (total_hold_ns s) (update_max (max_wait_ns s) wait_ns) (max_hold_ns s)
  else s.

(** @src core/src/lock_order.rs:255-263 LockStats::record_hold *)
Definition record_hold (hold_ns : Z) (s : LockStats) : LockStats :=
  let hold_ns := Z.max hold_ns 1 in
  mkLockStats (acquire_count s) (contended_count s) (total_wait_ns s) (u64_wrap (total_hold_ns s + hold_ns))
    (max_wait_ns s) (update_max (max_hold_ns s) hold_ns).

(** @src core/src/lock_order.rs:52-55 Duration::as_nanos_u64 *)
Definition as_nanos_u64 (nanos : Z) : Z := if nanos <=? u64_max then nanos else u64_max.

(** ** The bookkeeping of a thread

    [debug]: the build has debug assertions; without them the bodies are empty. *)

(** @src core/src/lock_order.rs:392-414 check_before_acquire
    -- [false] is the panic; [held] has its oldest lock first. *)
Definition check_before_acquire (debug : bool) (level : LockLevel) (held : list LockLevel) : bool :=
  if debug then
    match last held with
    | None => true
    | Some top => (rank top <? rank level)%nat
    end
  else true.

(** @src core/src/lock_order.rs:416-424 did_acquire *)
Definition did_acquire (debug : bool) (level : LockLevel) (held : list LockLevel) : list LockLevel :=
  if debug then held ++ [level] else held.

(** @src core/src/lock_order.rs:430-440 did_release
    -- remove the last occurrence, if there is one. *)
Fixpoint remove_last (level : LockLevel) (held : list LockLevel) : option (list LockLevel) :=
  match held with
  | [] => None
  | x :: rest =>
      match remove_last level rest with
      | Some rest' => Some (x :: rest')
      | None => if decide (x = level) then Some rest else None
      end
  end.

(** @src core/src/lock_order.rs:426-445 did_release
    -- [None] is the panic. *)
Definition did_release (debug : bool) (level : LockLevel) (held : list LockLevel) : option (list LockLevel) :=
  if debug then remove_last level held else Some held.

(** ** Locks and guards *)

(** @src core/src/lock_order/live.rs:25-32 LockAccess *)
Inductive LockAccess := AMutex | ARead | AWrite.
#[export] Instance LockAccess_eq_dec : EqDecision LockAccess.
Proof. solve_decision. Defined.

(** @src core/src/lock_order.rs:447-468 OrderedMutex
    -- and [OrderedRwLock]; the protected value plays no part. *)
Record OrderedLock := mkLock { lock_level : LockLevel; lock_rw : bool }.

(** @src core/src/lock_order.rs:558-564 OrderedMutexGuard
    -- and the guards of [OrderedRwLock]; no guard leaves its thread. *)
Record Guard := mkGuard { g_thread : nat; g_lock : nat; g_access : LockAccess }.

#[export] Instance Guard_eq_dec : EqDecision Guard.
Proof. solve_decision. Defined.

Record LockState := mkLockState {
  held_locks : gmap nat (list LockLevel);
  guards : list Guard;
  blocked : gmap nat (nat * LockAccess);
  poisoned : gset nat;
  stats : list LockStats;
}.

Definition lock_init : LockState := mkLockState ∅ [] ∅ ∅ (replicate 19 lock_stats_new).

Definition held_of (s : LockState) (t : nat) : list LockLevel := default [] (held_locks s !! t).

(** What [Mutex], [RwLock] grant: a writer excludes everyone, readers share. *)
Definition conflicts (a b : LockAccess) : bool :=
  match a, b with ARead, ARead => false | _, _ => true end.
Definition available (s : LockState) (l : nat) (a : LockAccess) : bool :=
  forallb (fun g => negb ((g_lock g =? l)%nat && conflicts a (g_access g))) (guards s).

Inductive CallResult := CallPanic | CallGuard | CallBlocked | CallRefused.

Section ops.
  Context (debug_assertions : bool) (locks : nat -> OrderedLock).

Definition level_of (l : nat) : LockLevel := lock_level (locks l).

Definition with_stats (l : nat) (f : LockStats -> LockStats) (s : LockState) : LockState :=
  mkLockState (held_locks s) (guards s) (blocked s) (poisoned s)
    (alter f (ordinal (level_of l)) (stats s)).

(** Hand out the guard: the statistics, the bookkeeping, the inner lock. *)
Definition grant (t l : nat) (a : LockAccess) (contended : bool) (wait_ns : Z) (s : LockState) : LockState :=
  let s := with_stats l (record_acquire contended wait_ns) s in
  mkLockState (<[t := did_acquire debug_assertions (level_of l) (held_of s t)]> (held_locks s)) (mkGuard t l a :: guards s)
    (delete t (blocked s)) (poisoned s) (stats s).

(** The three branches of an acquisition.  [busy]: the non-blocking attempt
    fails although no guard conflicts, which the inner lock is free to do. *)
Definition acquire_call (t l : nat) (a : LockAccess) (busy : bool) (s : LockState) : CallResult * LockState :=
  if check_before_acquire debug_assertions (level_of l) (held_of s t) then
    if available s l a && negb busy then (CallGuard, grant t l a false 0 s)
    else (CallBlocked, mkLockState (held_locks s) (guards s) (<[t := (l, a)]> (blocked s)) (poisoned s) (stats s))
  else (CallPanic, s).

(** @src core/src/lock_order.rs:470-533 OrderedMutex::lock
    -- a poisoned lock is taken like any other. *)
Definition mutex_lock (t l : nat) (busy : bool) (s : LockState) : CallResult * LockState :=
  acquire_call t l AMutex busy s.

(** @src core/src/lock_order.rs:614-675 OrderedRwLock::read *)
Definition rwlock_read (t l : nat) (busy : bool) (s : LockState) : CallResult * LockState :=
  acquire_call t l ARead busy s.

(** @src core/src/lock_order.rs:677-738 OrderedRwLock::write *)
Definition rwlock_write (t l : nat) (busy : bool) (s : LockState) : CallResult * LockState :=
  acquire_call t l AWrite busy s.

(** @src core/src/lock_order.rs:535-556 OrderedMutex::try_lock
    -- a poisoned lock is refused. *)
Definition mutex_try_lock (t l : nat) (busy : bool) (s : LockState) : CallResult * LockState :=
  if check_before_acquire debug_assertions (level_of l) (held_of s t) then
    if available s l AMutex && negb busy && negb (bool_decide (l ∈ poisoned s))
    then (CallGuard, grant t l AMutex false 0 s) else (CallRefused, s)
  else (CallPanic, s).

(** The blocked call of [t] obtains the inner lock and returns. *)
Definition wake (t : nat) (nanos : Z) (s : LockState) : option LockState :=
  match blocked s !! t with
  | Some (l, a) => if available s l a then Some (grant t l a true (as_nanos_u64 nanos) s) else None
  | None => None
  end.

(** @src core/src/lock_order.rs:566-575 OrderedMutexGuard::drop
    -- and the drops of the read and write guards; [None] is the panic of the
    bookkeeping.  A guard that unwinds poisons its lock unless it only read. *)
Definition guard_drop (i : nat) (nanos : Z) (unwinding : bool) (s : LockState) : option LockState :=
  match guards s !! i with
  | None => None
  | Some g =>
      let s := with_stats (g_lock g) (record_hold (as_nanos_u64 nanos)) s in
      match did_release debug_assertions (level_of (g_lock g)) (held_of s (g_thread g)) with
      | None => None
      | Some held =>
          Some (mkLockState (<[g_thread g := held]> (held_locks s)) (delete i (guards s)) (blocked s)
                  (if unwinding && negb (bool_decide (g_access g = ARead)) then {[g_lock g]} ∪ poisoned s
                   else poisoned s)
                  (stats s))
      end
  end.

(** @src core/src/lock_order.rs:374-380 lock_contention_reset
    -- with [LockStats::reset]. *)
Definition lock_contention_reset (s : LockState) : LockState :=
  mkLockState (held_locks s) (guards s) (blocked s) (poisoned s) (map (fun _ => lock_stats_new) (stats s)).

(** ** The machine *)

Inductive lock_label :=
  | LCall (t l : nat) (a : LockAccess) (r : CallResult)
  | LTry (t l : nat) (r : CallResult)
  | LWake (t : nat)
  | LDrop (g : Guard)
  | LReset.

(** A blocked thread does nothing until it wakes. *)
Inductive lock_step : LockState -> lock_label -> LockState -> Prop :=
  | ls_lock s t l busy r s' :
      blocked s !! t = None -> lock_rw (locks l) = false -> mutex_lock t l busy s = (r, s') ->
      lock_step s (LCall t l AMutex r) s'
  | ls_read s t l busy r s' :
      blocked s !! t = None -> lock_rw (locks l) = true -> rwlock_read t l busy s = (r, s') ->
      lock_step s (LCall t l ARead r) s'
  | ls_write s t l busy r s' :
      blocked s !! t = None -> lock_rw (locks l) = true -> rwlock_write t l busy s = (r, s') ->
      lock_step s (LCall t l AWrite r) s'
  | ls_try s t l busy r s' :
      blocked s !! t = None -> lock_rw (locks l) = false -> mutex_try_lock t l busy s = (r, s') ->
      lock_step s (LTry t l r) s'
  | ls_wake s t nanos s' : wake t nanos s = Some s' -> lock_step s (LWake t) s'
  | ls_drop s i g nanos unwinding s' :
      guards s !! i = Some g -> blocked s !! g_thread g = None ->
      guard_drop i nanos unwinding s = Some s' -> lock_step s (LDrop g) s'
  | ls_reset s : lock_step s LReset (lock_contention_reset s).

#[export] Instance lock_lts : LTS LockState lock_label :=
  { lts_init s := s = lock_init; lts_step := lock_step }.

End ops.

(** ** Properties of the lock hierarchy

    With debug assertions the bookkeeping of every thread mirrors its guards, and
    blocked threads are always served: there is no deadlock.  Without them there
    can be one. *)

Section props.
  Context (locks : nat -> OrderedLock).
  #[local] Existing Instance lock_lts.
  Implicit Types s : LockState.

#[local] Notation level_of := (level_of locks).
#[local] Notation reachable := (reachable (LTS0 := lock_lts true locks)).

Definition climbs (a b : LockLevel) : Prop := (rank a < rank b)%nat.

Definition guards_of (s : LockState) (t : nat) : list Guard := filter (fun g => g_thread g = t) (guards s).
Definition levels (gs : list Guard) : list LockLevel := map (fun g => level_of (g_lock g)) gs.

Record lock_inv s : Prop := {
  li_sorted t : StronglySorted climbs (held_of s t);
  li_guards t : held_of s t ≡ₚ levels (guards_of s t);
  li_blocked t l a : blocked s !! t = Some (l, a) -> Forall (fun x => climbs x (level_of l)) (held_of s t);
}.

(** ** Lists of levels *)

Lemma climbs_all held top level :
  StronglySorted climbs held -> last held = Some top -> climbs top level -> Forall (fun x => climbs x level) held.
Proof.
  induction held as [|x held IH]; intros Hs Hl Hc; [done|]. inversion Hs as [|? ? Hs' Hx]; subst.
  destruct held as [|y held]; [injection Hl as ->; by constructor|].
  specialize (IH Hs' Hl Hc). constructor; [|done]. inversion IH; inversion Hx; subst. unfold climbs in *. lia.
Qed.

Lemma check_spec level held :
  StronglySorted climbs held ->
  check_before_acquire true level held = true <-> Forall (fun x => climbs x level) held.
Proof.
  intros Hs. unfold check_before_acquire. destruct (last held) as [top|] eqn:El.
  - rewrite Nat.ltb_lt. split; [by apply climbs_all|]. intros Hf. apply last_Some in El as [l' ->].
    apply Forall_app in Hf as [_ Hf]. by inversion Hf.
  - apply last_None in El. by subst.
Qed.

Lemma sorted_snoc level held :
  StronglySorted climbs held -> Forall (fun x => climbs x level) held -> StronglySorted climbs (held ++ [level]).
Proof.
  induction 1 as [|x held Hs IH Hx]; intros Hf; simpl; [by repeat constructor|].
  inversion Hf; subst. constructor; [by apply IH|]. apply Forall_app. by split; [|constructor].
Qed.

Lemma did_release_perm level : forall held held',
  remove_last level held = Some held' -> held ≡ₚ level :: held' /\ sublist held' held.
Proof.
  induction held as [|x held IH]; intros held' He; simpl in He; [done|].
  destruct (remove_last level held) as [h|] eqn:Eh.
  - injection He as <-. destruct (IH h eq_refl) as [Hp Hsub]. split; [|by constructor].
    rewrite Hp. by constructor.
  - destruct (decide (x = level)) as [->|]; [|done]. injection He as <-. split; [done|]. by constructor.
Qed.

Lemma did_release_total level held : level ∈ held -> exists held', remove_last level held = Some held'.
Proof.
  induction held as [|x held IH]; intros Hin; [by apply not_elem_of_nil in Hin|]. simpl.
  destruct (remove_last level held) as [h|]; [by eexists|].
  apply elem_of_cons in Hin as [->|Hin]; [rewrite decide_True by done; by eexists|].
  by destruct (IH Hin).
Qed.

Lemma sorted_sublist held' held : sublist held' held -> StronglySorted climbs held -> StronglySorted climbs held'.
Proof.
  induction 1 as [|x l1 l2 Hsub IH|x l1 l2 Hsub IH]; intros Hs; [done| |]; inversion Hs; subst; [|by apply IH].
  constructor; [by apply IH|]. rewrite Forall_forall in *. intros y Hy. by eauto using elem_of_sublist.
Qed.

(** ** Guards *)

Lemma held_insert s t t' h g b p st :
  held_of (mkLockState (<[t := h]> (held_locks s)) g b p st) t' = if decide (t = t') then h else held_of s t'.
Proof.
  unfold held_of. simpl. destruct (decide (t = t')) as [->|Hne].
  - by rewrite lookup_insert_eq.
  - by rewrite lookup_insert_ne.
Qed.

Lemma guard_taken s i g :
  guards s !! i = Some g -> guards s ≡ₚ g :: delete i (guards s).
Proof. intros Hi. by rewrite <- (delete_Permutation _ _ _ Hi). Qed.

Lemma guard_held s g : lock_inv s -> g ∈ guards s -> level_of (g_lock g) ∈ held_of s (g_thread g).
Proof.
  intros Hi Hg. rewrite (li_guards _ Hi). unfold levels. apply list_elem_of_fmap. exists g. split; [done|].
  by apply list_elem_of_filter.
Qed.

(** ** The invariant *)

Lemma grant_inv s t l a c w :
  lock_inv s -> Forall (fun x => climbs x (level_of l)) (held_of s t) -> lock_inv (grant true locks t l a c w s).
Proof.
  intros Hi Hf. unfold grant. split.
  - intros t'. rewrite held_insert. destruct (decide (t = t')); [|apply (li_sorted _ Hi)].
    apply sorted_snoc; [apply (li_sorted _ Hi)|done].
  - intros t'. rewrite held_insert. unfold guards_of. simpl. rewrite filter_cons. simpl.
    destruct (decide (t = t')) as [<-|Hne]; [|apply (li_guards _ Hi)].
    unfold did_acquire. simpl. rewrite <- Permutation_cons_append. constructor. apply (li_guards _ Hi).
  - intros t' l' a' Hb. simpl in Hb. apply lookup_delete_Some in Hb as [Hne Hb].
    rewrite held_insert, decide_False by done. by apply (li_blocked _ Hi t' l' a').
Qed.

Lemma block_inv s t l a :
  lock_inv s -> Forall (fun x => climbs x (level_of l)) (held_of s t) ->
  lock_inv (mkLockState (held_locks s) (guards s) (<[t := (l, a)]> (blocked s)) (poisoned s) (stats s)).
Proof.
  intros Hi Hf. split; [apply (li_sorted _ Hi)|apply (li_guards _ Hi)|].
  intros t' l' a' Hb. simpl in Hb. apply lookup_insert_Some in Hb as [[<- [= <- <-]]|[Hne Hb]]; [done|].
  by apply (li_blocked _ Hi t' l' a').
Qed.

Lemma acquire_inv s t l a busy r s' :
  lock_inv s -> acquire_call true locks t l a busy s = (r, s') -> lock_inv s'.
Proof.
  intros Hi. unfold acquire_call. destruct (check_before_acquire _ _ _) eqn:Ec; [|by intros [= <- <-]].
  apply check_spec in Ec; [|apply (li_sorted _ Hi)].
  destruct (available s l a && negb busy); intros [= <- <-]; [by apply grant_inv|by apply block_inv].
Qed.

Lemma drop_inv s i g nanos unwinding s' :
  lock_inv s -> guards s !! i = Some g -> blocked s !! g_thread g = None ->
  guard_drop true locks i nanos unwinding s = Some s' -> lock_inv s'.
Proof.
  intros Hi Hg Hb. unfold guard_drop. rewrite Hg. cbv zeta. unfold held_of. cbn [with_stats held_locks].
  fold (held_of s (g_thread g)). destruct (did_release _ _ _) as [h|] eqn:Er; [|done]. intros [= <-].
  destruct (did_release_perm _ _ _ Er) as [Hp Hsub]. split.
  - intros t. rewrite held_insert. destruct (decide _); [|apply (li_sorted _ Hi)].
    eapply sorted_sublist; [done|apply (li_sorted _ Hi)].
  - intros t. rewrite held_insert. pose proof (li_guards _ Hi t) as Ht. unfold guards_of, levels in *.
    rewrite (guard_taken _ _ _ Hg) in Ht. rewrite filter_cons in Ht. simpl.
    destruct (decide (g_thread g = t)) as [<-|Hne]; [|done].
    apply (Permutation_cons_inv (a := level_of (g_lock g))). by rewrite <- Hp.
  - intros t l a Hbl. simpl in Hbl. rewrite held_insert, decide_False; [by apply (li_blocked _ Hi t l a)|].
    intros <-. congruence.
Qed.

Lemma wake_inv s t nanos s' : lock_inv s -> wake true locks t nanos s = Some s' -> lock_inv s'.
Proof.
  intros Hi. unfold wake. destruct (blocked s !! t) as [[l a]|] eqn:Eb; [|done].
  destruct (available s l a); [|done]. intros [= <-]. apply grant_inv; [done|]. by apply (li_blocked _ Hi t l a).
Qed.

Lemma lock_step_inv s lab s' : lock_inv s -> lock_step true locks s lab s' -> lock_inv s'.
Proof.
  intros Hi Hs. destruct Hs as [s t l busy r s' _ _ He|s t l busy r s' _ _ He|s t l busy r s' _ _ He
    |s t l busy r s' _ _ He|s t nanos s' He|s i g nanos unw s' Hg Hb He|s].
  - by eapply acquire_inv.
  - by eapply acquire_inv.
  - by eapply acquire_inv.
  - unfold mutex_try_lock in He. destruct (check_before_acquire _ _ _) eqn:Ec; [|by injection He as <- <-].
    apply check_spec in Ec; [|apply (li_sorted _ Hi)].
    destruct (_ && _); injection He as <- <-; [by apply grant_inv|done].
  - by eapply wake_inv.
  - by eapply drop_inv.
  - split; [apply (li_sorted _ Hi)|apply (li_guards _ Hi)|apply (li_blocked _ Hi)].
Qed.

Lemma lock_reachable s : reachable s -> lock_inv s.
Proof.
  apply invariant_reachable. split; [|intros s0 lab s1; apply lock_step_inv].
  intros s0 ->. split; [by constructor|done|done].
Qed.

(** ** Progress *)

Definition drains (lab : lock_label) : Prop :=
  match lab with LWake _ | LDrop _ => True | _ => False end.

Lemma unavailable s l a : available s l a = false -> exists i g, guards s !! i = Some g /\ g_lock g = l.
Proof.
  intros Ha. unfold available in Ha. assert (~ Forall (fun g => g_lock g <> l) (guards s)) as Hn.
  { intros Hf. assert (forallb (fun g => negb ((g_lock g =? l)%nat && conflicts a (g_access g))) (guards s) = true);
      [|congruence].
    apply forallb_forall. intros g Hg%list_elem_of_In. rewrite Forall_forall in Hf.
    by rewrite (proj2 (Nat.eqb_neq _ _) (Hf g Hg)). }
  apply not_Forall_Exists in Hn; [|intros g; apply _].
  apply Exists_exists in Hn as (g & Hg & Hl). apply list_elem_of_lookup in Hg as [i Hg].
  exists i, g. split; [done|]. by apply dec_stable.
Qed.

Lemma drop_total s i g nanos unwinding :
  lock_inv s -> guards s !! i = Some g -> exists s', guard_drop true locks i nanos unwinding s = Some s'.
Proof.
  intros Hi Hg. unfold guard_drop. rewrite Hg. cbv zeta. unfold held_of. cbn [with_stats held_locks].
  fold (held_of s (g_thread g)). unfold did_release.
  destruct (did_release_total (level_of (g_lock g)) (held_of s (g_thread g))) as [h ->]; [|by eexists].
  apply guard_held; [done|]. by eapply list_elem_of_lookup_2.
Qed.

Lemma rank_bound level : (rank level <= 90)%nat.
Proof. destruct level; simpl; lia. Qed.

(** Follow the chain of owners: ranks climb, so it ends at a thread that runs
    or at a call whose lock is free. *)
Lemma drain_enabled n : forall s t l a,
  lock_inv s -> blocked s !! t = Some (l, a) -> (90 - rank (level_of l) < n)%nat ->
  exists lab s', drains lab /\ lock_step true locks s lab s'.
Proof.
  induction n as [|n IH]; intros s t l a Hi Hb Hn; [lia|].
  destruct (available s l a) eqn:Ea.
  - exists (LWake t), (grant true locks t l a true (as_nanos_u64 0) s). split; [done|].
    apply (ls_wake _ _ _ _ 0). unfold wake. by rewrite Hb, Ea.
  - destruct (unavailable _ _ _ Ea) as (i & g & Hg & Hl).
    destruct (blocked s !! g_thread g) as [[l' a']|] eqn:Eb.
    + apply (IH s (g_thread g) l' a' Hi Eb).
      pose proof (li_blocked _ Hi _ _ _ Eb) as Hf. rewrite Forall_forall in Hf.
      assert (climbs (level_of l) (level_of l')) as Hc
        by (apply Hf; rewrite <- Hl; apply guard_held; [done|by eapply list_elem_of_lookup_2]).
      pose proof (rank_bound (level_of l')). unfold climbs in Hc. lia.
    + destruct (drop_total s i g 0 false Hi Hg) as [s' Hs']. exists (LDrop g), s'. split; [done|].
      by eapply ls_drop.
Qed.

Definition load (s : LockState) : nat := (2 * size (blocked s) + length (guards s))%nat.

Lemma size_delete_blocked s t w : blocked s !! t = Some w -> size (blocked s) = S (size (delete t (blocked s))).
Proof. intros Hb. rewrite <- (insert_delete_id _ _ _ Hb) at 1. apply map_size_insert_None, lookup_delete_eq. Qed.

(** A draining step takes load off, and serves [t] or leaves it blocked. *)
Lemma drain_step s lab s' t l a :
  lock_step true locks s lab s' -> drains lab -> blocked s !! t = Some (l, a) ->
  (load s' < load s)%nat /\ (blocked s' !! t = Some (l, a) \/ mkGuard t l a ∈ guards s').
Proof.
  intros Hs Hd Hb. destruct Hs as [| | | |s t' nanos s' He|s i g nanos unw s' Hg Hn He|]; try done.
  - unfold wake in He. destruct (blocked s !! t') as [[l' a']|] eqn:Eb; [|done].
    destruct (available s l' a'); [|done]. injection He as <-. unfold load. simpl. split.
    + rewrite (size_delete_blocked _ _ _ Eb). lia.
    + destruct (decide (t' = t)) as [->|Hne]; [|left; by rewrite lookup_delete_ne].
      right. assert (Some (l', a') = Some (l, a)) as [= -> ->] by congruence. apply list_elem_of_here.
  - unfold guard_drop in He. rewrite Hg in He. cbv zeta in He. destruct (did_release _ _ _); [|done].
    injection He as <-. unfold load. cbn [blocked guards with_stats]. split; [|by left].
    pose proof (lookup_lt_Some _ _ _ Hg). rewrite length_delete by done. lia.
Qed.

(** C39: no deadlock in a build with debug assertions, which refuses with a panic
    to break the order of the levels.  A call blocked in [lock], [read] or [write]
    is always served: if from now on the threads only finish (the blocked ones wake
    when their lock is free, the others drop their guards, in any order), the call
    returns with its guard, and until then some thread can move.  A release build
    checks nothing, and two threads that break the order deadlock (lemma
    [release_build_deadlocks]). *)
Theorem blocked_calls_are_served s t l a :
  reachable s -> blocked s !! t = Some (l, a) ->
  inevitable (LTS0 := lock_lts true locks) drains (fun s' => mkGuard t l a ∈ guards s') s.
Proof.
  intros Hr%lock_reachable Hb.
  apply (inevitable_by_measure (LTS0 := lock_lts true locks) drains
    (fun s => lock_inv s /\ (blocked s !! t = Some (l, a) \/ mkGuard t l a ∈ guards s)) _ load); [|auto].
  clear s Hr Hb. intros s [Hi [Hb|Hg]]; [|by left]. right. split; [by apply (drain_enabled _ s t l a Hi Hb (Nat.lt_succ_diag_r _))|].
  intros lab s' Hd Hs. destruct (drain_step s lab s' t l a Hs Hd Hb) as [Hm Hor].
  split; [split; [by eapply lock_step_inv|done]|done].
Qed.

(** The bookkeeping is exact.  In every reachable state a call
    panics exactly when the thread has a live guard of the same or a higher rank,
    whether or not the lock is free, and dropping any live guard finds its level among those the thread holds. *)
Theorem lock_order_checks_exact s t :
  reachable s ->
  (forall l busy call, In call [mutex_lock true locks; rwlock_read true locks; rwlock_write true locks; mutex_try_lock true locks] ->
     (fst (call t l busy s) = CallPanic <->
      exists g, g ∈ guards s /\ g_thread g = t /\ (rank (level_of l) <= rank (level_of (g_lock g)))%nat)) /\
  (forall i g nanos unwinding, guards s !! i = Some g -> is_Some (guard_drop true locks i nanos unwinding s)).
Proof.
  intros Hr%lock_reachable. split; [|intros i g nanos unw Hg; by apply (drop_total s i g)].
  intros l busy call Hc.
  assert (fst (call t l busy s) = CallPanic <-> check_before_acquire true (level_of l) (held_of s t) = false) as ->.
  { destruct Hc as [<-|[<-|[<-|[<-|[]]]]];
      unfold mutex_lock, rwlock_read, rwlock_write, acquire_call, mutex_try_lock;
destruct (check_before_acquire _ _ _); simpl; try (destruct (_ && _)); done. }
  rewrite <- not_true_iff_false, (check_spec _ _ (li_sorted _ Hr t)). split.
  - intros Hn. apply not_Forall_Exists in Hn; [|intros x; unfold climbs; apply _].
    apply Exists_exists in Hn as (x & Hx & Hc'). rewrite (li_guards _ Hr t) in Hx.
    apply list_elem_of_fmap in Hx as (g & -> & Hg). apply list_elem_of_filter in Hg as [Ht Hg].
    exists g. split_and!; [done|done|]. by apply Nat.nlt_ge in Hc'.
  - intros (g & Hg & <- & Hle) Hf. rewrite Forall_forall in Hf.
    pose proof (Hf _ (guard_held s g Hr Hg)) as Hc'. unfold climbs in Hc'. lia.
Qed.
End props.

(** Thread 1 holds a lock of the tools, thread 2 waits for it with a lock of the
    database in hand. *)
Definition two_locks (l : nat) : OrderedLock :=
  mkLock (if (l =? 0)%nat then DbPoolCache else ToolsToolMetrics) false.
Definition contended : LockState :=
  snd (mutex_lock true two_locks 2 1 false (snd (mutex_lock true two_locks 2 0 false
        (snd (mutex_lock true two_locks 1 1 false lock_init))))).

Lemma contended_reachable : @reachable _ _ (lock_lts true two_locks) contended.
Proof.
  do 3 (eapply reach_step; [|eapply ls_lock; [| |apply surjective_pairing]; vm_compute; reflexivity]).
  by apply reach_init.
Qed.

Lemma blocked_calls_are_served_witness :
  @inevitable _ _ (lock_lts true two_locks) drains (fun s' => mkGuard 2 1 AMutex ∈ guards s') contended.
Proof.
  apply (blocked_calls_are_served two_locks contended 2 1 AMutex contended_reachable).
  vm_compute. reflexivity.
Defined.

(** Thread 1 may not go back to the database. *)
Lemma lock_order_checks_exact_witness : fst (mutex_lock true two_locks 1 0 false contended) = CallPanic.
Proof.
  refine (proj2 (proj1 (lock_order_checks_exact two_locks contended 1 contended_reachable) 0%nat false
                   (mutex_lock true two_locks) (or_introl eq_refl)) _).
  exists (mkGuard 1 1 AMutex). split_and!; [|reflexivity|vm_compute; lia].
  apply (list_elem_of_lookup_2 _ 1). vm_compute. reflexivity.
Defined.

(** In a release build: thread 1 takes the lock of the tools and then asks for that
    of the database, thread 2 the other way round. *)
Definition inverted : LockState :=
  let lock t l s := snd (mutex_lock false two_locks t l false s) in
  lock 2%nat 1%nat (lock 1%nat 0%nat (lock 2%nat 0%nat (lock 1%nat 1%nat lock_init))).

Lemma release_build_deadlocks :
  @reachable _ _ (lock_lts false two_locks) inverted /\
  blocked inverted !! 1%nat = Some (0%nat, AMutex) /\ blocked inverted !! 2%nat = Some (1%nat, AMutex) /\
  forall lab s', drains lab -> ~ lock_step false two_locks inverted lab s'.
Proof.
  split; [|split; [vm_compute; reflexivity|split; [vm_compute; reflexivity|]]].
  - do 4 (eapply reach_step; [|eapply ls_lock; [| |apply surjective_pairing]; vm_compute; reflexivity]). by apply reach_init.
  - intros lab s' Hd Hs.
    assert (Forall (fun g => is_Some (blocked inverted !! g_thread g)) (guards inverted)) as Hall
      by (vm_compute; repeat constructor; eauto).
    inversion Hs as [| | | |s t nanos s1 Hw|s i g nanos unw s1 Hg Hb Hdr|]; subst; try done.
    + unfold wake in Hw. destruct (decide (t = 1%nat)) as [->|H1]; [vm_compute in Hw; discriminate|].
      destruct (decide (t = 2%nat)) as [->|H2]; [vm_compute in Hw; discriminate|].
      assert (blocked inverted !! t = None) as E; [|by rewrite E in Hw].
      change (blocked inverted) with (<[2%nat := (1%nat, AMutex)]> (<[1%nat := (0%nat, AMutex)]> (∅ : gmap nat (nat * LockAccess)))).
      by rewrite !lookup_insert_ne by congruence.
    + rewrite Forall_forall in Hall. destruct (Hall g (list_elem_of_lookup_2 _ _ _ Hg)) as [? E]. by rewrite Hb in E.
Qed.
