(* ===== verification/SeqOverlap.v ===== *)
(** * Intersection of sequence patterns

    The generic routine behind segment globs and path globs:
    [sequence_patterns_overlap] of [core/src/pattern_overlap.rs].  The
    executable definition follows the source (front strip, back strip, one
    mutable suffix row); the section proves it decides whether some sequence
    is matched by both patterns. *)

From S2P Require Import Prelude.

Section SeqOverlap.
  Context {T : Type} (is_repeat : T -> bool) (compatible : T -> T -> bool).

(** @src core/src/pattern_overlap.rs:174-193 sequence_patterns_overlap
    -- the two anchored loops: [None] is the early [return false].  The second
    loop ([split_last]) is the same loop on the reversed slices. *)
Fixpoint strip_anchored (l r : list T) : option (list T * list T) :=
  match l, r with
  | a :: rest_a, b :: rest_b =>
      if is_repeat a || is_repeat b then Some (l, r)
      else if negb (compatible a b) then None
      else strip_anchored rest_a rest_b
  | _, _ => Some (l, r)
  end.

(** @src core/src/pattern_overlap.rs:211-216 sequence_patterns_overlap
    -- [vec![false; end + 1]], its last cell set, then the reverse loop that
    fills the suffix row of the empty row pattern. *)
Definition init_row (columns : list T) : list bool :=
  foldr (fun '(j, item) row => <[j := is_repeat item && (row !!! S j)]> row)
        (<[length columns := true]> (replicate (S (length columns)) false))
        (enumerate_from 0 columns).

(** @src core/src/pattern_overlap.rs:221-231 sequence_patterns_overlap
    -- the body of the inner loop; the state is the row and [diagonal]. *)
Definition row_cell (a : T) (repeats : bool) (jb : nat * T) (st : list bool * bool)
    : list bool * bool :=
  let '(j, b) := jb in
  let '(row, diagonal) := st in
  let below := row !!! j in
  (<[j := if repeats || is_repeat b then below || (row !!! S j)
          else diagonal && compatible a b]> row, below).

(** @src core/src/pattern_overlap.rs:217-232 sequence_patterns_overlap
    -- one iteration of the outer loop. *)
Definition row_step (columns : list T) (a : T) (row : list bool) : list bool :=
  let repeats := is_repeat a in
  let diagonal := row !!! length columns in
  let row := <[length columns := repeats && diagonal]> row in
  fst (foldr (row_cell a repeats) (row, diagonal) (enumerate_from 0 columns)).

(** @src core/src/pattern_overlap.rs:204-233 sequence_patterns_overlap
    -- orient the residual patterns, run the row, read cell 0. *)
Definition row_overlap (l r : list T) : bool :=
  let '(rows, columns) := if (length r <=? length l)%nat then (l, r) else (r, l) in
  foldr (row_step columns) (init_row columns) rows !!! 0%nat.

(** @src core/src/pattern_overlap.rs:168-234 sequence_patterns_overlap *)
Definition sequence_patterns_overlap (l r : list T) : bool :=
  match strip_anchored l r with
  | None => false
  | Some (l, r) =>
      match strip_anchored (rev l) (rev r) with
      | None => false
      | Some (l', r') =>
          let l := rev l' in
          let r := rev r' in
          match l, r with
          | [], _ => forallb is_repeat r
          | _, [] => forallb is_repeat l
          | _, _ =>
              if forallb is_repeat l || forallb is_repeat r then true
              else row_overlap l r
          end
      end
  end.

(** ** The reference recurrence *)

(** The recurrence the source documents, without the row. *)
Fixpoint ovl (l : list T) : list T -> bool :=
  match l with
  | [] => forallb is_repeat
  | a :: l =>
      fix ovl_a (r0 : list T) : bool :=
        match r0 with
        | [] => is_repeat a && ovl l []
        | b :: r =>
            if is_repeat a || is_repeat b then ovl l r0 || ovl_a r
            else ovl l r && compatible a b
        end
  end.

Lemma ovl_nil_r l : ovl l [] = forallb is_repeat l.
Proof. induction l as [|a l IH]; simpl; congruence. Qed.

Lemma ovl_cons a l b r :
  ovl (a :: l) (b :: r) =
  if is_repeat a || is_repeat b then ovl l (b :: r) || ovl (a :: l) r
  else ovl l r && compatible a b.
Proof. done. Qed.

(** ** What a pattern matches *)

Section matches.
  Context {I : Type}.

(** Sequences of items a pattern accepts: a repeat token absorbs any number
    of arbitrary items, another token exactly one item it accepts. *)
Inductive matches (accepts : T -> I -> Prop) : list T -> list I -> Prop :=
| m_nil : matches accepts [] []
| m_item a x p w :
    is_repeat a = false -> accepts a x -> matches accepts p w ->
    matches accepts (a :: p) (x :: w)
| m_skip a p w : is_repeat a = true -> matches accepts p w -> matches accepts (a :: p) w
| m_more a x p w :
    is_repeat a = true -> matches accepts (a :: p) w -> matches accepts (a :: p) (x :: w).

  Hint Constructors matches : core.

Lemma matches_all_repeat acc p w : matches acc p w -> w = [] -> forallb is_repeat p = true.
  Proof.
    induction 1 as [| |a p w Ha H IH|]; intros E; simplify_eq/=; [done|]. rewrite Ha. auto.
  Qed.

Lemma all_repeat_matches acc p : forallb is_repeat p = true -> matches acc p [].
  Proof. induction p as [|a p IH]; simpl; [auto|]. intros [? ?]%andb_true_iff. auto. Qed.

Lemma matches_app acc p q v w :
    matches acc p v -> matches acc q w -> matches acc (p ++ q) (v ++ w).
  Proof. induction 1; simpl; auto. Qed.

Lemma matches_snoc_more acc p a x w :
    is_repeat a = true -> matches acc (p ++ [a]) w -> matches acc (p ++ [a]) (w ++ [x]).
  Proof.
    intros Ha. remember (p ++ [a]) as q eqn:Eq. intros H. revert p Eq.
    induction H as [|b y q w Hb Hacc H IH|b q w Hb H IH|b y q w Hb H IH]; intros p Eq.
    - by destruct p.
    - destruct p as [|c p]; simplify_eq/=; [congruence|]. constructor; eauto.
    - destruct p as [|c p]; simplify_eq/=; [|eauto].
      inversion H; subst; simpl. auto.
    - simpl. apply m_more; eauto.
  Qed.

Lemma matches_rev acc p w : matches acc p w -> matches acc (rev p) (rev w).
  Proof.
    induction 1 as [|a x p w Ha Hacc H IH|a p w Ha H IH|a x p w Ha H IH]; simpl in *; auto.
    - apply matches_app; auto.
    - rewrite <- (app_nil_r (rev w)). apply matches_app; auto.
    - by apply matches_snoc_more.
  Qed.

  (** No overlap is missed. *)
Lemma ovl_complete acc1 acc2 :
    (forall a b x, acc1 a x -> acc2 b x -> compatible a b = true) ->
    forall n l r w, (length l + length r + length w <= n)%nat ->
      matches acc1 l w -> matches acc2 r w -> ovl l r = true.
  Proof.
    intros Hc n. induction n as [|n IH]; intros l r w Hn Hl Hr.
    { destruct l, r, w; simpl in *; lia. }
    destruct l as [|a l].
    { inversion Hl; subst. simpl. eapply matches_all_repeat; eauto. }
    destruct r as [|b r].
    { inversion Hr; subst. rewrite ovl_nil_r. eapply matches_all_repeat; eauto. }
    rewrite ovl_cons.
    inversion Hl as [|? x ? w' Ha Hax Hl'|? ? ? Ha Hl'|? x ? w' Ha Hl']; subst.
    - inversion Hr as [|? y ? w2 Hb Hbx Hr'|? ? ? Hb Hr'|? y ? w2 Hb Hr']; subst; rewrite Ha, Hb; simpl.
      + rewrite (IH l r w'), (Hc a b x); auto. simpl in *; lia.
      + apply orb_true_iff; right. apply (IH (a :: l) r (x :: w')); simpl in *; auto; lia.
      + apply orb_true_iff; left. apply (IH l (b :: r) w'); simpl in *; auto; lia.
    - rewrite Ha; simpl. apply orb_true_iff; left. apply (IH l (b :: r) w); simpl in *; auto; lia.
    - rewrite Ha; simpl. apply orb_true_iff.
      inversion Hr as [|? y ? w2 Hb Hbx Hr'|? ? ? Hb Hr'|? y ? w2 Hb Hr']; subst.
      + right. apply (IH (a :: l) r w'); simpl in *; auto; lia.
      + right. apply (IH (a :: l) r (x :: w')); simpl in *; auto; lia.
      + pose proof (IH (a :: l) (b :: r) w') as H. rewrite ovl_cons, Ha in H. simpl in H.
        apply orb_true_iff, H; simpl in *; auto; lia.
  Qed.

  (** No overlap is invented. *)
Lemma ovl_sound acc1 acc2 :
    (forall a, is_repeat a = false -> exists x, acc1 a x) ->
    (forall a, is_repeat a = false -> exists x, acc2 a x) ->
    (forall a b, is_repeat a = false -> is_repeat b = false ->
       compatible a b = true -> exists x, acc1 a x /\ acc2 b x) ->
    forall l r, ovl l r = true -> exists w, matches acc1 l w /\ matches acc2 r w.
  Proof.
    intros H1 H2 H12. induction l as [|a l IHl].
    { intros r Hr. exists []. split; [auto|]. by apply all_repeat_matches. }
    induction r as [|b r IHr].
    { rewrite ovl_nil_r. intros Hr. exists []. split; [|auto]. by apply all_repeat_matches. }
    rewrite ovl_cons. destruct (is_repeat a) eqn:Ha; simpl.
    - intros [Ho|Ho]%orb_true_iff.
      + destruct (IHl _ Ho) as (w & Hw1 & Hw2). exists w; auto.
      + destruct (IHr Ho) as (w & Hw1 & Hw2). destruct (is_repeat b) eqn:Hb; [exists w; auto|].
        destruct (H2 b Hb) as [x Hx]. exists (x :: w); auto.
    - destruct (is_repeat b) eqn:Hb; simpl.
      + intros [Ho|Ho]%orb_true_iff.
        * destruct (IHl _ Ho) as (w & Hw1 & Hw2). destruct (H1 a Ha) as [x Hx].
          exists (x :: w); auto.
        * destruct (IHr Ho) as (w & Hw1 & Hw2). exists w; auto.
      + intros [Ho Hab]%andb_true_iff. destruct (IHl _ Ho) as (w & Hw1 & Hw2).
        destruct (H12 a b Ha Hb Hab) as (x & ? & ?). exists (x :: w); auto.
  Qed.
End matches.

(** ** Executable matching *)

Section matchesb.
  Context {I : Type} (acceptsb : T -> I -> bool).

Fixpoint matchesb (p : list T) : list I -> bool :=
  match p with
  | [] => fun w => match w with [] => true | _ => false end
  | a :: p =>
      fix matchesb_a (w : list I) : bool :=
        if is_repeat a then
          matchesb p w || match w with [] => false | _ :: w => matchesb_a w end
        else match w with [] => false | x :: w => acceptsb a x && matchesb p w end
  end.

Lemma matchesb_repeat a p w :
    is_repeat a = true ->
    matchesb (a :: p) w =
    matchesb p w || match w with [] => false | _ :: w => matchesb (a :: p) w end.
  Proof. intros Ha. destruct w; simpl; by rewrite Ha. Qed.

Lemma matchesb_item a p w :
    is_repeat a = false ->
    matchesb (a :: p) w =
    match w with [] => false | x :: w => acceptsb a x && matchesb p w end.
  Proof. intros Ha. destruct w; simpl; by rewrite Ha. Qed.

Lemma matchesb_matches p w :
    matchesb p w = true <-> matches (fun a x => acceptsb a x = true) p w.
  Proof.
    revert w; induction p as [|a p IHp]; intros w.
    { destruct w; simpl; split; intros H; try done; [constructor|inversion H]. }
    destruct (is_repeat a) eqn:Ha.
    - induction w as [|x w IHw]; rewrite matchesb_repeat, orb_true_iff, IHp by done.
      + split; [intros [H|H]; [by apply m_skip|done]|]. inversion 1; by auto.
      + rewrite IHw. split; [intros [H|H]; [by apply m_skip|by apply m_more]|].
        inversion 1; subst; [congruence|by left|by right].
    - rewrite matchesb_item by done. destruct w as [|x w].
      + split; [done|]. inversion 1; congruence.
      + rewrite andb_true_iff, IHp. split; [intros [? ?]; by apply m_item|].
        inversion 1; subst; [done|congruence|congruence].
  Qed.
End matchesb.

Lemma matches_impl {I} (acc acc' : T -> I -> Prop) p w :
  (forall a x, In x w -> acc a x -> acc' a x) -> matches acc p w -> matches acc' p w.
Proof.
  intros H. induction 1 as [|a x p w Ha Hacc Hm IH|a p w Ha Hm IH|a x p w Ha Hm IH].
  - constructor.
  - constructor; [done|apply H; [by left|done]|]. apply IH. intros; apply H; [by right|done].
  - constructor; auto.
  - apply m_more; [done|]. apply IH. intros; apply H; [by right|done].
Qed.

(** ** Reversal and symmetry of the recurrence

    Both follow from the two lemmas above, on the items "the left token met"
    and "the right token met". *)

Definition meetL (a : T) (x : option T * option T) : Prop :=
  x.1 = Some a /\ forall b, x.2 = Some b -> compatible a b = true.
Definition meetR (b : T) (x : option T * option T) : Prop :=
  x.2 = Some b /\ forall a, x.1 = Some a -> compatible a b = true.

Lemma ovl_meet l r : ovl l r = true <-> exists w, matches meetL l w /\ matches meetR r w.
Proof.
  split.
  - apply ovl_sound.
    + intros a _. exists (Some a, None). split; simpl; naive_solver.
    + intros a _. exists (None, Some a). split; simpl; naive_solver.
    + intros a b _ _ Hab. exists (Some a, Some b). unfold meetL, meetR; simpl; naive_solver.
  - intros (w & H1 & H2). eapply ovl_complete; [|done|done|done].
    intros a b [x1 x2] [Ha Hab] [Hb _]; simpl in *; subst. auto.
Qed.

Lemma ovl_rev l r : ovl (rev l) (rev r) = ovl l r.
Proof.
  assert (forall l r, ovl l r = true -> ovl (rev l) (rev r) = true) as H.
  { intros l' r'. rewrite !ovl_meet. intros (w & H1 & H2). exists (rev w).
    split; by apply matches_rev. }
  apply eq_true_iff_eq. split; [|apply H].
  intros Ho%H. by rewrite !rev_involutive in Ho.
Qed.

  Hypothesis compatible_sym : forall a b, compatible a b = compatible b a.

Lemma ovl_sym l r : ovl l r = ovl r l.
Proof.
  revert r; induction l as [|a l IHl]; intros r.
  { by rewrite ovl_nil_r. }
  induction r as [|b r IHr]; [by rewrite ovl_nil_r|].
  rewrite !ovl_cons, <- IHr, IHl, (orb_comm (is_repeat b)), (compatible_sym b).
  destruct (is_repeat a || is_repeat b); [apply orb_comm|]. by rewrite IHl.
Qed.

(** ** The row computes the recurrence *)

  #[local] Arguments ovl : simpl never.

Lemma strip_anchored_ovl l r :
  match strip_anchored l r with
  | None => ovl l r = false
  | Some (l', r') => ovl l r = ovl l' r'
  end.
Proof.
  revert r; induction l as [|a l IH]; intros [|b r]; try done. simpl strip_anchored.
  destruct (is_repeat a || is_repeat b) eqn:E; [done|].
  rewrite ovl_cons, E. destruct (compatible a b) eqn:Ec; simpl.
  - specialize (IH r). destruct (strip_anchored l r) as [[??]|]; by rewrite andb_true_r.
  - by rewrite andb_false_r.
Qed.

Lemma row_insert (row : list bool) j k v :
  (j < length row)%nat ->
  <[j := v]> row !!! k = if decide (j = k) then v else row !!! k.
Proof.
  intros Hj. destruct (decide (j = k)) as [->|Hne].
  - by rewrite list_lookup_total_insert_eq.
  - by rewrite list_lookup_total_insert_ne.
Qed.

(** [row] is the suffix row of the row pattern [p]. *)
Definition suffix_row (columns : list T) (p : list T) (row : list bool) : Prop :=
  length row = S (length columns) /\
  forall k, (k <= length columns)%nat -> row !!! k = ovl p (drop k columns).

Lemma drop_cons_next (columns : list T) j b suf :
  drop j columns = b :: suf -> drop (S j) columns = suf /\ (j < length columns)%nat.
Proof.
  intros H. split.
  - replace (S j) with (j + 1)%nat by lia. by rewrite <- drop_drop, H.
  - apply (f_equal length) in H. rewrite length_drop in H. simpl in H. lia.
Qed.

Lemma drop_nil_end (columns : list T) j :
  (j <= length columns)%nat -> drop j columns = [] -> j = length columns.
Proof. intros Hj H. apply (f_equal length) in H. rewrite length_drop in H. simpl in H. lia. Qed.

Lemma init_row_suffix columns : suffix_row columns [] (init_row columns).
Proof.
  unfold init_row. set (row0 := <[_ := true]> _).
  assert (length row0 = S (length columns)) as Hlen0
    by (unfold row0; by rewrite length_insert, length_replicate).
  assert (forall suf j, (j <= length columns)%nat -> drop j columns = suf ->
    let row := foldr (fun '(j, item) row => <[j := is_repeat item && (row !!! S j)]> row)
                 row0 (enumerate_from j suf) in
    length row = S (length columns) /\
    forall k, (j <= k <= length columns)%nat -> row !!! k = forallb is_repeat (drop k columns)) as H.
  { induction suf as [|b suf IH]; intros j Hj Hd; simpl.
    - apply drop_nil_end in Hd; [|done]. split; [done|]. intros k Hk.
      replace k with (length columns) by lia. rewrite drop_all. simpl.
      unfold row0. rewrite row_insert by (rewrite length_replicate; lia). by rewrite decide_True.
    - destruct (drop_cons_next _ _ _ _ Hd) as [Hd' Hlt].
      destruct (IH (S j)) as [Hl Hk]; [lia|done|]. split; [by rewrite length_insert|].
      intros k Hkb. rewrite row_insert by lia. destruct (decide (j = k)) as [<-|Hne].
      + rewrite Hk by lia. by rewrite Hd, Hd'.
      + apply Hk. lia. }
  destruct (H columns 0%nat) as [Hl Hk]; [lia|done|]. split; [done|].
  intros k Hkl. rewrite Hk by lia. done.
Qed.

Lemma row_step_suffix columns a p row :
  suffix_row columns p row -> suffix_row columns (a :: p) (row_step columns a row).
Proof.
  intros [Hlen Hrow]. unfold row_step. set (row1 := <[_ := _]> row).
  assert (forall suf j, (j <= length columns)%nat -> drop j columns = suf ->
    let '(row', diagonal) :=
      foldr (row_cell a (is_repeat a)) (row1, row !!! length columns) (enumerate_from j suf) in
    length row' = S (length columns) /\
    (forall k, (j <= k <= length columns)%nat -> row' !!! k = ovl (a :: p) (drop k columns)) /\
    (forall k, (k < j)%nat -> row' !!! k = row !!! k) /\
    diagonal = ovl p (drop j columns)) as H.
  { induction suf as [|b suf IH]; intros j Hj Hd; simpl.
    - pose proof (drop_nil_end _ _ Hj Hd) as ->. unfold row1.
      split_and!; [by rewrite length_insert|..].
      + intros k Hk. replace k with (length columns) by lia. rewrite row_insert by lia.
        rewrite decide_True by done. rewrite Hrow by lia. by rewrite drop_all.
      + intros k Hk. rewrite row_insert by lia. by rewrite decide_False by lia.
      + apply Hrow. lia.
    - destruct (drop_cons_next _ _ _ _ Hd) as [Hd' Hlt].
      specialize (IH (S j) ltac:(lia) Hd').
      destruct (foldr _ _ _) as [row' diagonal]. destruct IH as (Hl & Hnew & Hold & Hdiag).
      simpl. split_and!.
      + by rewrite length_insert.
      + intros k Hk. rewrite row_insert by lia. destruct (decide (j = k)) as [<-|Hne].
        * rewrite (Hold j), (Hnew (S j)), (Hrow j), Hdiag, Hd, Hd' by lia. by rewrite ovl_cons.
        * apply Hnew. lia.
      + intros k Hk. rewrite row_insert by lia. rewrite decide_False by lia. apply Hold. lia.
      + rewrite Hold by lia. apply Hrow. lia. }
  specialize (H columns 0%nat ltac:(lia) eq_refl).
  destruct (foldr _ _ _) as [row' diagonal]. destruct H as (Hl & Hnew & _). simpl.
  split; [done|]. intros k Hk. apply Hnew. lia.
Qed.

Lemma row_overlap_ovl l r : row_overlap l r = ovl l r.
Proof.
  assert (forall rows columns,
    suffix_row columns rows (foldr (row_step columns) (init_row columns) rows)) as H.
  { intros rows columns. induction rows as [|a rows IH]; simpl.
    - apply init_row_suffix.
    - by apply row_step_suffix. }
  unfold row_overlap. destruct (length r <=? length l)%nat.
  - destruct (H l r) as [_ ->]; [done|lia].
  - destruct (H r l) as [_ ->]; [|lia]. apply ovl_sym.
Qed.

Lemma ovl_all_repeat_l l r : l <> [] -> forallb is_repeat l = true -> ovl l r = true.
Proof.
  intros Hne Hl. induction r as [|b r IH].
  { by rewrite ovl_nil_r. }
  destruct l as [|a l]; [done|]. simpl in Hl. breflect. rewrite ovl_cons, H. simpl.
  rewrite IH. apply orb_true_r.
Qed.

Lemma sequence_patterns_overlap_ovl l r : sequence_patterns_overlap l r = ovl l r.
Proof.
  unfold sequence_patterns_overlap.
  pose proof (strip_anchored_ovl l r) as Hf.
  destruct (strip_anchored l r) as [[l1 r1]|]; [|done]. rewrite Hf.
  pose proof (strip_anchored_ovl (rev l1) (rev r1)) as Hb. rewrite ovl_rev in Hb.
  destruct (strip_anchored (rev l1) (rev r1)) as [[l2 r2]|]; [|done]. rewrite Hb.
  rewrite <- (ovl_rev l2 r2).
  destruct (rev l2) as [|a l3] eqn:El; [done|].
  destruct (rev r2) as [|b r3] eqn:Er; [by rewrite ovl_nil_r|].
  destruct (forallb is_repeat (a :: l3)) eqn:Ea.
  { by rewrite (ovl_all_repeat_l (a :: l3) _ ltac:(done) Ea). }
  destruct (forallb is_repeat (b :: r3)) eqn:Eb.
  { by rewrite ovl_sym, (ovl_all_repeat_l (b :: r3) _ ltac:(done) Eb). }
  apply row_overlap_ovl.
Qed.

Lemma sequence_patterns_overlap_sym l r :
  sequence_patterns_overlap l r = sequence_patterns_overlap r l.
Proof. rewrite !sequence_patterns_overlap_ovl. apply ovl_sym. Qed.
End SeqOverlap.
