(* ===== verification/RustStr.v ===== *)
(** * Rust strings

    A [str] is the list of its Unicode scalar values.  The operations of the
    standard library the components use are written out here, with the UTF-8
    encoding for the places where the source works on bytes ([as_bytes],
    [len], the byte order of [BTreeMap<String, _>] keys). *)

From stdpp Require Import pretty.
From S2P Require Import Prelude.

Definition ustr : Type := list N.

(** Literals: the scalar values of an ASCII string. *)
Definition u (s : string) : ustr := map N_of_ascii (list_ascii_of_string s).
Arguments u _%_string_scope.

Definition ch (a : ascii) : N := N_of_ascii a.
Arguments ch _%_char_scope.

#[export] Instance ustr_eq_dec : EqDecision ustr := _.

Definition ustr_eqb (s t : ustr) : bool := bool_decide (s = t).

Lemma ustr_eqb_eq s t : ustr_eqb s t = true <-> s = t.
Proof. unfold ustr_eqb. apply bool_decide_eq_true. Qed.

Lemma ustr_eqb_neq s t : ustr_eqb s t = false <-> s <> t.
Proof. unfold ustr_eqb. apply bool_decide_eq_false. Qed.

Lemma ustr_eqb_refl s : ustr_eqb s s = true.
Proof. by apply ustr_eqb_eq. Qed.

Lemma ustr_eqb_sym s t : ustr_eqb s t = ustr_eqb t s.
Proof. unfold ustr_eqb. by apply bool_decide_ext. Qed.

(** [Display] of an integer. *)
Definition dec (z : Z) : ustr := u (pretty z).

(** ** UTF-8 *)

Definition utf8_char (c : N) : list N :=
  if (c <? 128)%N then [c]
  else if (c <? 2048)%N then [192 + c / 64; 128 + c mod 64]%N
  else if (c <? 65536)%N then [224 + c / 4096; 128 + (c / 64) mod 64; 128 + c mod 64]%N
  else [240 + c / 262144; 128 + (c / 4096) mod 64; 128 + (c / 64) mod 64; 128 + c mod 64]%N.

(** [as_bytes]. *)
Definition utf8 (s : ustr) : list N := flat_map utf8_char s.

(** [str::len]: bytes, not scalars. *)
Definition utf8_len (s : ustr) : nat := length (utf8 s).

(** [lia] with the quotients and remainders by the powers of 64. *)
Ltac utf8_lia := zify; Z.to_euclidean_division_equations; lia.

Lemma utf8_char_inj (c d : N) x y :
  utf8_char c ++ x = utf8_char d ++ y -> c = d /\ x = y.
Proof.
  unfold utf8_char.
  destruct (N.ltb_spec c 128), (N.ltb_spec d 128); [naive_solver|..];
    destruct (N.ltb_spec c 2048), (N.ltb_spec d 2048); try lia;
    try destruct (N.ltb_spec c 65536); try destruct (N.ltb_spec d 65536); try lia;
    simpl; intros E; injection E; intros; try (exfalso; utf8_lia);
    (split; [|done]); utf8_lia.
Qed.

Lemma utf8_app s t : utf8 (s ++ t) = utf8 s ++ utf8 t.
Proof. apply flat_map_app. Qed.

Lemma utf8_char_nonempty c x : utf8_char c ++ x <> [].
Proof. unfold utf8_char. by repeat case_match. Qed.

Lemma utf8_prefix_app p s x : utf8 s = utf8 p ++ x -> exists r, s = p ++ r /\ x = utf8 r.
Proof.
  revert s; induction p as [|c p IH]; intros s; simpl.
  - intros <-. by exists s.
  - rewrite <- app_assoc. destruct s as [|d s]; simpl.
    + intros H. symmetry in H. by apply utf8_char_nonempty in H.
    + intros [-> H]%utf8_char_inj. destruct (IH s H) as (r & -> & ->). by exists r.
Qed.

Lemma utf8_inj s t : utf8 s = utf8 t -> s = t.
Proof.
  intros H. destruct (utf8_prefix_app t s []) as (r & -> & Hr); [by rewrite app_nil_r|].
  destruct r as [|c r]; [by rewrite app_nil_r|].
  symmetry in Hr. by apply utf8_char_nonempty in Hr.
Qed.

(** An ASCII byte occurs in the encoding exactly when it is a scalar. *)
Lemma utf8_ascii_byte s b : (b < 128)%N -> In b (utf8 s) <-> In b s.
Proof.
  intros Hb. unfold utf8. rewrite in_flat_map. split.
  - intros (c & Hc & Hin). unfold utf8_char in Hin.
    repeat case_match; simpl in Hin;
      repeat match goal with H : _ \/ _ |- _ => destruct H end; subst; try done; utf8_lia.
  - intros Hin. exists b. split; [done|]. unfold utf8_char.
    apply N.ltb_lt in Hb. rewrite Hb. by left.
Qed.

(** ** Character classes *)

(** [char::is_whitespace]: the Unicode [White_Space] property. *)
Definition is_whitespace (c : N) : bool :=
  ((9 <=? c) && (c <=? 13) || (c =? 32) || (c =? 133) || (c =? 160) || (c =? 5760)
   || ((8192 <=? c) && (c <=? 8202)) || (c =? 8232) || (c =? 8233) || (c =? 8239)
   || (c =? 8287) || (c =? 12288))%N.

Definition is_ascii_uppercase (c : N) : bool := ((65 <=? c) && (c <=? 90))%N.
Definition is_ascii_lowercase (c : N) : bool := ((97 <=? c) && (c <=? 122))%N.
Definition is_ascii_digit (c : N) : bool := ((48 <=? c) && (c <=? 57))%N.
Definition is_ascii_alphabetic (c : N) : bool := is_ascii_uppercase c || is_ascii_lowercase c.
Definition is_ascii_alphanumeric (c : N) : bool := is_ascii_alphabetic c || is_ascii_digit c.

Definition ascii_lower (c : N) : N := if is_ascii_uppercase c then (c + 32)%N else c.
Definition ascii_upper (c : N) : N := if is_ascii_lowercase c then (c - 32)%N else c.

Definition to_ascii_lowercase (s : ustr) : ustr := map ascii_lower s.
Definition eq_ignore_ascii_case (s t : ustr) : bool :=
  ustr_eqb (to_ascii_lowercase s) (to_ascii_lowercase t).

Lemma ascii_lower_idem c : ascii_lower (ascii_lower c) = ascii_lower c.
Proof.
  unfold ascii_lower, is_ascii_uppercase. destruct (65 <=? c)%N eqn:E1, (c <=? 90)%N eqn:E2; simpl;
    rewrite ?E1, ?E2; try done.
  destruct (65 <=? c + 32)%N eqn:E3, (c + 32 <=? 90)%N eqn:E4; simpl; try done.
  apply N.leb_le in E1, E2, E3, E4. lia.
Qed.

Lemma to_ascii_lowercase_idem s : to_ascii_lowercase (to_ascii_lowercase s) = to_ascii_lowercase s.
Proof. unfold to_ascii_lowercase. rewrite map_map. apply map_ext, ascii_lower_idem. Qed.

Lemma to_ascii_lowercase_length s : length (to_ascii_lowercase s) = length s.
Proof. apply length_map. Qed.

(** ** Trimming *)

Definition trim_start (s : ustr) : ustr := drop_while is_whitespace s.
Definition trim_end (s : ustr) : ustr := rev (drop_while is_whitespace (rev s)).
Definition trim (s : ustr) : ustr := trim_end (trim_start s).

Lemma trim_start_head s c r : trim_start s = c :: r -> is_whitespace c = false.
Proof. apply drop_while_head. Qed.

Lemma trim_end_last s c r : trim_end s = r ++ [c] -> is_whitespace c = false.
Proof.
  unfold trim_end. intros H. apply (f_equal (@rev N)) in H.
  rewrite rev_involutive, rev_app_distr in H. simpl in H. by apply drop_while_head in H.
Qed.

Lemma trim_end_prefix s : exists k, s = trim_end s ++ k.
Proof.
  unfold trim_end. destruct (drop_while_suffix is_whitespace (rev s)) as [k Hk].
  exists (rev k). by rewrite <- rev_app_distr, <- Hk, rev_involutive.
Qed.

Lemma trim_head s c r : trim s = c :: r -> is_whitespace c = false.
Proof.
  unfold trim. intros H. destruct (trim_end_prefix (trim_start s)) as [k Hk].
  rewrite H in Hk. by apply trim_start_head in Hk.
Qed.

(** A string with no white space at either end. *)
Definition trimmed (s : ustr) : Prop :=
  (forall c r, s = c :: r -> is_whitespace c = false) /\
  (forall c r, s = r ++ [c] -> is_whitespace c = false).

Lemma trimmed_trim s : trimmed (trim s).
Proof. split; [apply trim_head|]. intros c r. apply trim_end_last. Qed.

Lemma trim_trimmed s : trimmed s -> trim s = s.
Proof.
  intros [Hh Hl]. unfold trim, trim_end, trim_start.
  rewrite (drop_while_id _ s Hh), (drop_while_id _ (rev s)); [apply rev_involutive|].
  intros c r E. apply (Hl c (rev r)). by rewrite <- (rev_involutive s), E.
Qed.

Lemma trim_idem s : trim (trim s) = trim s.
Proof. apply trim_trimmed, trimmed_trim. Qed.

(** ** Splitting and joining *)

(** [s.split(|c| p c)]: always at least one piece. *)
Fixpoint split_on (p : N -> bool) (s : ustr) : list ustr :=
  match s with
  | [] => [[]]
  | c :: s =>
      if p c then [] :: split_on p s
      else match split_on p s with
           | [] => [[c]]
           | w :: ws => (c :: w) :: ws
           end
  end.

(** [parts.join(sep)]. *)
Fixpoint join (sep : ustr) (parts : list ustr) : ustr :=
  match parts with
  | [] => []
  | [w] => w
  | w :: ws => w ++ sep ++ join sep ws
  end.

Lemma join_cons sep w ws : ws <> [] -> join sep (w :: ws) = w ++ sep ++ join sep ws.
Proof. by destruct ws. Qed.

Lemma split_on_nonempty p s : split_on p s <> [].
Proof. destruct s as [|c s]; simpl; [done|]. destruct (p c), (split_on p s); done. Qed.

Lemma split_on_pieces p s w : In w (split_on p s) -> forallb (fun c => negb (p c)) w = true.
Proof.
  revert w; induction s as [|c s IH]; intros w; simpl.
  - by intros [<-|[]].
  - destruct (p c) eqn:E.
    + intros [<-|Hin]; auto.
    + destruct (split_on p s) as [|v vs]; simpl in *.
      * intros [<-|[]]. simpl. by rewrite E.
      * intros [<-|Hin]; [|auto]. simpl. rewrite E. simpl. auto.
Qed.

Lemma split_on_app_sep p c s t :
  p c = true -> forallb (fun c => negb (p c)) s = true ->
  split_on p (s ++ c :: t) = s :: split_on p t.
Proof.
  intros Hc. induction s as [|d s IH]; simpl; [by rewrite Hc|].
  intros [Hd Hs]%andb_true_iff. apply negb_true_iff in Hd. by rewrite Hd, IH.
Qed.

Lemma split_on_no_sep p s : forallb (fun c => negb (p c)) s = true -> split_on p s = [s].
Proof.
  induction s as [|d s IH]; simpl; [done|].
  intros [Hd Hs]%andb_true_iff. apply negb_true_iff in Hd. by rewrite Hd, IH.
Qed.

Lemma split_on_join p c parts :
  p c = true -> parts <> [] ->
  Forall (fun w => forallb (fun c => negb (p c)) w = true) parts ->
  split_on p (join [c] parts) = parts.
Proof.
  intros Hc Hne H. induction H as [|w ws Hw Hws IH]; [done|].
  destruct ws as [|v vs]; [by apply split_on_no_sep|].
  rewrite join_cons by done. cbn [app]. rewrite split_on_app_sep by done. by rewrite IH.
Qed.

Lemma join_split_on c s : join [c] (split_on (N.eqb c) s) = s.
Proof.
  induction s as [|d s IH]; simpl; [done|]. destruct (N.eqb_spec c d) as [<-|Hne].
  - rewrite join_cons by apply split_on_nonempty. simpl. by rewrite IH.
  - pose proof (split_on_nonempty (N.eqb c) s) as Hn.
    destruct (split_on (N.eqb c) s) as [|w ws]; [done|].
    destruct ws as [|v vs]; simpl in *; by rewrite IH.
Qed.

(** ** Searching *)

(** [t.starts_with(s)]. *)
Fixpoint starts_with (s t : ustr) : bool :=
  match s, t with
  | [], _ => true
  | c :: s, d :: t => (c =? d)%N && starts_with s t
  | _ :: _, [] => false
  end.

Lemma starts_with_app s t : starts_with s t = true <-> exists r, t = s ++ r.
Proof.
  revert t; induction s as [|c s IH]; intros t; simpl.
  { split; eauto. }
  destruct t as [|d t]; simpl.
  - split; [done|]. by intros [r ?].
  - rewrite andb_true_iff, N.eqb_eq, IH. split.
    + intros [-> [r ->]]. eauto.
    + intros [r [= -> ->]]. eauto.
Qed.

Lemma starts_with_refl s r : starts_with s (s ++ r) = true.
Proof. apply starts_with_app. eauto. Qed.

Definition ends_with (s t : ustr) : bool := starts_with (rev s) (rev t).

(** [strip_prefix]. *)
Definition strip_prefix (s t : ustr) : option ustr :=
  if starts_with s t then Some (drop (length s) t) else None.

Lemma strip_prefix_Some s t r : strip_prefix s t = Some r <-> t = s ++ r.
Proof.
  unfold strip_prefix. destruct (starts_with s t) eqn:E.
  - apply starts_with_app in E as [r' ->]. rewrite drop_app_length.
    split; [by intros [= ->]|]. intros ?%app_inv_head. by subst.
  - split; [done|]. intros ->. by rewrite starts_with_refl in E.
Qed.

(** [t.contains(s)] for a string needle. *)
Fixpoint contains (s t : ustr) : bool :=
  starts_with s t || match t with [] => false | _ :: t => contains s t end.

(** [s.contains(char)]. *)
Definition contains_char (c : N) (s : ustr) : bool := existsb (N.eqb c) s.

Definition is_empty (s : ustr) : bool := match s with [] => true | _ => false end.

(** The prefix before the first [c] and the rest after it ([split_once]). *)
Fixpoint split_once (c : N) (s : ustr) : option (ustr * ustr) :=
  match s with
  | [] => None
  | d :: s =>
      if (c =? d)%N then Some ([], s)
      else '(a, b) ← split_once c s; Some (d :: a, b)
  end.

(** ** Byte order of map keys *)

Fixpoint bytes_ltb (s t : list N) : bool :=
  match s, t with
  | _, [] => false
  | [], _ :: _ => true
  | a :: s, b :: t => (a <? b)%N || ((a =? b)%N && bytes_ltb s t)
  end.

(** [String: Ord] compares UTF-8 bytes lexicographically. *)
Definition str_ltb (s t : ustr) : bool := bytes_ltb (utf8 s) (utf8 t).

Lemma bytes_ltb_irrefl s : bytes_ltb s s = false.
Proof. induction s as [|a s IH]; simpl; [done|]. by rewrite N.ltb_irrefl, N.eqb_refl. Qed.

Lemma bytes_ltb_trans s t v : bytes_ltb s t = true -> bytes_ltb t v = true -> bytes_ltb s v = true.
Proof.
  revert t v; induction s as [|a s IH]; intros [|b t] [|c v]; simpl; try done.
  rewrite !orb_true_iff, !andb_true_iff, !N.ltb_lt, !N.eqb_eq.
  intros [?|[-> ?]] [?|[-> ?]]; [left; lia|by left|by left|right; eauto].
Qed.

Lemma bytes_ltb_total s t : bytes_ltb s t = false -> bytes_ltb t s = false -> s = t.
Proof.
  revert t; induction s as [|a s IH]; intros [|b t]; simpl; try done.
  intros [? H1]%orb_false_iff [? H2]%orb_false_iff.
  assert (a = b) as -> by (rewrite !N.ltb_ge in *; lia).
  rewrite N.eqb_refl in *. simpl in *. f_equal. auto.
Qed.

Lemma str_ltb_irrefl s : str_ltb s s = false.
Proof. apply bytes_ltb_irrefl. Qed.

Lemma str_ltb_trans s t v : str_ltb s t = true -> str_ltb t v = true -> str_ltb s v = true.
Proof. apply bytes_ltb_trans. Qed.

Lemma str_ltb_total s t : str_ltb s t = false -> str_ltb t s = false -> s = t.
Proof. intros. by apply utf8_inj, bytes_ltb_total. Qed.

(** Extensions of [p] are not below [p]. *)
Lemma bytes_ltb_ext p r : bytes_ltb (p ++ r) p = false.
Proof. induction p as [|a p IH]; simpl; [by destruct r|]. by rewrite N.ltb_irrefl, N.eqb_refl. Qed.

Lemma str_ltb_ext p r : str_ltb (p ++ r) p = false.
Proof. unfold str_ltb. rewrite utf8_app. apply bytes_ltb_ext. Qed.

(** Between [p] and an extension of [p] lie only extensions of [p]. *)
Lemma bytes_between_ext p r t :
  bytes_ltb t p = false -> bytes_ltb t (p ++ r) = true -> exists q, t = p ++ q.
Proof.
  revert t; induction p as [|a p IH]; intros t; simpl; [eauto|].
  destruct t as [|b t]; simpl; [done|].
  intros [H1 H2]%orb_false_iff [H3|[H3 H4]%andb_true_iff]%orb_true_iff.
  - rewrite N.ltb_ge in H1. rewrite N.ltb_lt in H3. lia.
  - apply N.eqb_eq in H3 as ->. rewrite N.eqb_refl in H2. simpl in H2.
    destruct (IH t) as [q ->]; eauto.
Qed.

Lemma str_between_ext p r t :
  str_ltb t p = false -> str_ltb t (p ++ r) = true -> exists q, t = p ++ q.
Proof.
  unfold str_ltb. rewrite utf8_app. intros H1 H2.
  destruct (bytes_between_ext _ _ _ H1 H2) as [q Hq].
  destruct (utf8_prefix_app p t q Hq) as (q' & -> & _). by exists q'.
Qed.

#[export] Hint Resolve ustr_eqb_refl trimmed_trim starts_with_refl split_on_nonempty : agentmail.

(** ** Numbers and bounded texts *)

Definition digits_value (s : ustr) : Z := foldl (fun acc c => 10 * acc + (Z.of_N c - 48)) 0 s.

(** [str::parse::<u64>]: an optional plus sign and digits, within range. *)
Definition parse_u64 (s : ustr) : option Z :=
  let s := match s with c :: r => if (c =? ch "+")%N then r else s | [] => s end in
  if is_empty s || negb (forallb is_ascii_digit s) then None
  else if u64_max <? digits_value s then None else Some (digits_value s).

(** [str::rsplit_once]. *)
Definition rsplit_once (c : N) (s : ustr) : option (ustr * ustr) :=
  '(a, b) ← split_once c (rev s); Some (rev b, rev a).

(** The longest prefix of whole characters within [limit] bytes. *)
Fixpoint truncate_bytes (limit : nat) (s : ustr) : ustr :=
  match s with
  | [] => []
  | c :: s =>
      let n := length (utf8_char c) in
      if (n <=? limit)%nat then c :: truncate_bytes (limit - n) s else []
  end.

(** A text cut at a character boundary, with an ellipsis when it was cut. *)
Definition bounded_text (limit : nat) (s : ustr) : ustr :=
  if (limit <? utf8_len s)%nat then truncate_bytes limit s ++ [8230%N] else s.

Lemma utf8_cons c s : utf8 (c :: s) = utf8_char c ++ utf8 s.
Proof. done. Qed.

Lemma truncate_bytes_len limit s : (utf8_len (truncate_bytes limit s) <= limit)%nat.
Proof.
  revert limit. induction s as [|c s IH]; intros limit; cbn [truncate_bytes]; [unfold utf8_len; simpl; lia|].
  destruct (Nat.leb_spec (length (utf8_char c)) limit); [|unfold utf8_len; simpl; lia].
  unfold utf8_len in *. rewrite utf8_cons, length_app. specialize (IH (limit - length (utf8_char c))%nat). lia.
Qed.

Lemma bounded_text_len limit s : (utf8_len (bounded_text limit s) <= limit + 3)%nat.
Proof.
  unfold bounded_text. destruct (Nat.ltb_spec limit (utf8_len s)); [|lia].
  unfold utf8_len in *. rewrite utf8_app, length_app. pose proof (truncate_bytes_len limit s). unfold utf8_len in *.
  change (length (utf8 [8230%N])) with 3%nat. lia.
Qed.
