(* ===== verification/WriteBarrier.v ===== *)
(** * The write barrier ([db/src/write_barrier.rs])

    Mutual exclusion between write activity and the promotion of a recovered
    database.  The state under the mutex is [BarrierState] of the source; the
    thread-local nesting depth, the threads waiting on the condition variables
    and the live write guards complete it.  A step is a critical section: a
    call up to its first wait or its return, or one wake-up of a waiter. *)

From S2P Require Import Prelude.
From S2P Require Import RustStr.

(** @src db/src/write_barrier.rs:56-69 DEFAULT_WRITER_DRAIN_TIMEOUT_SECS, DEFAULT_ARCHIVE_RECONCILE_MIN_INTERVAL_SECS, parse_positive_u64 *)
Definition DEFAULT_WRITER_DRAIN_TIMEOUT_SECS : Z := 10.
Definition DEFAULT_ARCHIVE_RECONCILE_MIN_INTERVAL_SECS : Z := 60.
Definition wb_parse_positive_u64 (raw : option ustr) (dflt : Z) : Z :=
  match raw ≫= (fun value => parse_u64 (trim value)) with
  | Some value => if 0 <? value then value else dflt
  | None => dflt
  end.

(** @src db/src/write_barrier.rs:71-97 writer_drain_timeout, archive_reconcile_min_interval
    -- in seconds, of the raw settings. *)
Definition writer_drain_timeout (raw : option ustr) : Z :=
  wb_parse_positive_u64 raw DEFAULT_WRITER_DRAIN_TIMEOUT_SECS.
Definition archive_reconcile_min_interval (raw : option ustr) : Z :=
  default DEFAULT_ARCHIVE_RECONCILE_MIN_INTERVAL_SECS (raw ≫= (fun value => parse_u64 (trim value))).

(** What a thread waits for: a promotion to end before it writes, its turn to
    own the barrier, or the writers to drain. *)
Inductive Wait :=
| WaitWrite
| WaitQueue (started timeout : Z)
| WaitDrain (started timeout : Z).

(** @src db/src/write_barrier.rs:99-137 BarrierState, Barrier, THREAD_BARRIER_DEPTH *)
Record BarrierState := mkBarrier {
  writers : Z;
  promotion_active : bool;
  promotion_ready : bool;
  depth : gmap nat nat;
  waiting : gmap nat Wait;
  live_guards : nat;
}.

Definition barrier_init : BarrierState := mkBarrier 0 false false ∅ ∅ 0.

(** @src db/src/write_barrier.rs:107-111 BarrierState::can_promote *)
Definition can_promote (s : BarrierState) : bool :=
  promotion_active s && promotion_ready s && (writers s =? 0).

Definition depth_of (s : BarrierState) (t : nat) : nat := default 0%nat (depth s !! t).

(** @src db/src/write_barrier.rs:140-142 current_thread_holds_barrier *)
Definition holds_barrier (s : BarrierState) (t : nat) : bool := (0 <? depth_of s t)%nat.

(** @src db/src/write_barrier.rs:144-160 current_thread_holds_promotion_barrier *)
Definition holds_promotion_barrier (s : BarrierState) (t : nat) : bool := holds_barrier s t && can_promote s.

(** Updates of one part. *)
Definition set_flags (active ready : bool) (s : BarrierState) : BarrierState :=
  mkBarrier (writers s) active ready (depth s) (waiting s) (live_guards s).
Definition set_wait (t : nat) (w : option Wait) (s : BarrierState) : BarrierState :=
  mkBarrier (writers s) (promotion_active s) (promotion_ready s) (depth s)
    (match w with Some w => <[t := w]> (waiting s) | None => delete t (waiting s) end) (live_guards s).
Definition set_depth (t : nat) (n : nat) (s : BarrierState) : BarrierState :=
  mkBarrier (writers s) (promotion_active s) (promotion_ready s) (<[t := n]> (depth s)) (waiting s)
    (live_guards s).

(** Count a writer and hand out its guard. *)
Definition admit_writer (s : BarrierState) : BarrierState :=
  mkBarrier (usat_add (writers s) 1) (promotion_active s) (promotion_ready s) (depth s) (waiting s)
    (S (live_guards s)).

(** @src db/src/write_barrier.rs:196-222 try_begin_write_activity
    -- [contended]: the mutex is held by another thread. *)
Definition try_begin_write_activity (contended : bool) (s : BarrierState) : bool * BarrierState :=
  if contended then (false, s)
  else if promotion_active s then (false, s)
  else if writers s =? u64_max then (false, s)
  else (true, admit_writer s).

(** @src db/src/write_barrier.rs:224-263 begin_write_activity_with
    -- a call up to its first wait, and a wake-up; the diagnostics run without
    the lock and change nothing. *)
Definition begin_write_activity (t : nat) (s : BarrierState) : BarrierState :=
  if negb (holds_barrier s t) && promotion_active s then set_wait t (Some WaitWrite) s
  else admit_writer s.
Definition writer_wake (t : nat) (s : BarrierState) : BarrierState :=
  if promotion_active s then s else admit_writer (set_wait t None s).

(** @src db/src/write_barrier.rs:265-273 WriteActivityGuard::drop *)
Definition end_write_activity (s : BarrierState) : BarrierState :=
  mkBarrier (usat_sub (writers s) 1) (promotion_active s) (promotion_ready s) (depth s) (waiting s)
    (live_guards s - 1).

(** @src db/src/write_barrier.rs:283-297 DrainOutcome *)
Inductive DrainOutcome := Idle | Drained (waited : Z) | TimedOut (remaining_writers : Z).

Definition timed_out (o : DrainOutcome) : bool := match o with TimedOut _ => true | _ => false end.

(** @src db/src/write_barrier.rs:315-331 PromotionBarrierGuard::new_held *)
Definition new_held (t : nat) (s : BarrierState) : BarrierState := set_depth t (S (depth_of s t)) s.

(** @src db/src/write_barrier.rs:333-355 PromotionBarrierGuard::drop
    -- of a participating guard; an inert one does nothing. *)
Definition drop_promotion (t : nat) (s : BarrierState) : BarrierState :=
  let remaining := (depth_of s t - 1)%nat in
  let s := set_depth t remaining s in
  if (remaining =? 0)%nat then set_flags false false s else s.

(** @src db/src/write_barrier.rs:357-378 try_acquire_promotion_barrier_if_idle *)
Definition try_acquire_if_idle (t : nat) (s : BarrierState) : bool * BarrierState :=
  if holds_barrier s t then
    if can_promote s then (true, new_held t s) else (false, s)
  else if promotion_active s || (0 <? writers s) then (false, s)
  else (true, new_held t (set_flags true true s)).

(** @src db/src/write_barrier.rs:380-395 drain_progress *)
Definition drain_progress (remaining_writers waited timeout : Z) : option DrainOutcome :=
  if timeout <=? waited then Some (TimedOut remaining_writers)
  else if remaining_writers =? 0 then Some (Drained waited)
  else None.

(** What a step of [acquire_promotion_barrier_draining] comes to: a guard that
    participates or not with its outcome, or a wait. *)
Inductive Acquired := Held (o : DrainOutcome) | Inert (o : DrainOutcome) | Waiting.

(** @src db/src/write_barrier.rs:476-479 acquire_promotion_barrier_draining
    -- the end of the drain: the flag records whether it succeeded. *)
Definition finish_drain (t : nat) (o : DrainOutcome) (s : BarrierState) : Acquired * BarrierState :=
  (Held o, new_held t (set_flags (promotion_active s) (negb (timed_out o)) (set_wait t None s))).

(** @src db/src/write_barrier.rs:455-475 acquire_promotion_barrier_draining
    -- ownership was free: take it, and drain. *)
Definition take_ownership (t : nat) (started timeout now : Z) (s : BarrierState) : Acquired * BarrierState :=
  let s := set_flags true false s in
  if writers s =? 0 then finish_drain t Idle s
  else
    match drain_progress (writers s) (usat_sub now started) timeout with
    | Some o => finish_drain t o s
    | None => (Waiting, set_wait t (Some (WaitDrain started timeout)) s)
    end.

(** @src db/src/write_barrier.rs:397-479 acquire_promotion_barrier_draining
    -- the call up to its first wait or its return; [queue_wake] and
    [drain_wake] are the wake-ups of its two loops. *)
Definition acquire_draining (t : nat) (timeout started now : Z) (s : BarrierState) : Acquired * BarrierState :=
  if holds_barrier s t then
    if can_promote s then (Held Idle, new_held t s) else (Inert (TimedOut (writers s)), s)
  else if promotion_active s then
    if timeout <=? usat_sub now started then (Inert (TimedOut (writers s)), s)
    else (Waiting, set_wait t (Some (WaitQueue started timeout)) s)
  else take_ownership t started timeout now s.

(** @src db/src/write_barrier.rs:431-454 acquire_promotion_barrier_draining *)
Definition queue_wake (t : nat) (started timeout now : Z) (s : BarrierState) : Acquired * BarrierState :=
  if timeout <=? usat_sub now started then (Inert (TimedOut (writers s)), set_wait t None s)
  else if promotion_active s then (Waiting, s)
  else take_ownership t started timeout now s.

(** @src db/src/write_barrier.rs:461-474 acquire_promotion_barrier_draining *)
Definition drain_wake (t : nat) (started timeout now : Z) (s : BarrierState) : Acquired * BarrierState :=
  match drain_progress (writers s) (usat_sub now started) timeout with
  | Some o => finish_drain t o s
  | None => (Waiting, s)
  end.

(** ** The machine *)

Inductive barrier_label :=
  | BTryBegin (t : nat) (ok : bool)
  | BBegin (t : nat)
  | BWriterWake (t : nat)
  | BEnd (t : nat)
  | BTryAcquire (t : nat) (ok : bool)
  | BAcquire (t : nat) (r : Acquired)
  | BQueueWake (t : nat) (r : Acquired)
  | BDrainWake (t : nat) (r : Acquired)
  | BDropPromotion (t : nat).

Definition label_thread (l : barrier_label) : nat :=
  match l with
  | BTryBegin t _ | BBegin t | BWriterWake t | BEnd t | BTryAcquire t _ | BAcquire t _
  | BQueueWake t _ | BDrainWake t _ | BDropPromotion t => t
  end.

(** A thread that waits does nothing else; write guards may be dropped by any
    thread.  The count of writers stays below the size of a word. *)
Inductive barrier_step : BarrierState -> barrier_label -> BarrierState -> Prop :=
  | bs_try_begin s t contended ok s' :
      waiting s !! t = None -> try_begin_write_activity contended s = (ok, s') ->
      barrier_step s (BTryBegin t ok) s'
  | bs_begin s t :
      waiting s !! t = None -> writers s < u64_max -> barrier_step s (BBegin t) (begin_write_activity t s)
  | bs_writer_wake s t :
      waiting s !! t = Some WaitWrite -> writers s < u64_max ->
      barrier_step s (BWriterWake t) (writer_wake t s)
  | bs_end s t :
      waiting s !! t = None -> (0 < live_guards s)%nat -> barrier_step s (BEnd t) (end_write_activity s)
  | bs_try_acquire s t ok s' :
      waiting s !! t = None -> try_acquire_if_idle t s = (ok, s') -> barrier_step s (BTryAcquire t ok) s'
  | bs_acquire s t timeout started now r s' :
      waiting s !! t = None -> acquire_draining t timeout started now s = (r, s') -> barrier_step s (BAcquire t r) s'
  | bs_queue_wake s t started timeout now r s' :
      waiting s !! t = Some (WaitQueue started timeout) -> queue_wake t started timeout now s = (r, s') ->
      barrier_step s (BQueueWake t r) s'
  | bs_drain_wake s t started timeout now r s' :
      waiting s !! t = Some (WaitDrain started timeout) -> drain_wake t started timeout now s = (r, s') ->
      barrier_step s (BDrainWake t r) s'
  | bs_drop s t :
      waiting s !! t = None -> holds_barrier s t = true -> barrier_step s (BDropPromotion t) (drop_promotion t s).

#[export] Instance barrier_lts : LTS BarrierState barrier_label :=
  { lts_init s := s = barrier_init; lts_step := barrier_step }.

(** ** Promotion recency *)

Definition MAX_PROMOTION_RECENCY_ENTRIES : nat := 64.

(** @src db/src/write_barrier.rs:485-526 PROMOTION_EPOCH, record_promotion
    -- the epoch and the instants by path; ties among the oldest entries are
    broken by the iteration order of the map. *)
Definition older (a b : ustr * Z) : Prop := snd a <= snd b.
#[export] Instance older_dec : RelDecision older.
Proof. intros a b. unfold older. apply _. Defined.

Definition record_promotion (path : ustr) (now : Z) (s : Z * gmap ustr Z) : Z * gmap ustr Z :=
  let m := <[path := now]> (snd s) in
  (u64_wrap (fst s + 1),
   if (MAX_PROMOTION_RECENCY_ENTRIES <? size m)%nat then
     foldl (fun m e => delete (fst e) m) m
       (take (size m - MAX_PROMOTION_RECENCY_ENTRIES) (merge_sort older (map_to_list m)))
   else m).

(** @src db/src/write_barrier.rs:528-535 time_since_last_promotion *)
Definition time_since_last_promotion (path : ustr) (now : Z) (s : Z * gmap ustr Z) : option Z :=
  usat_sub now <$> snd s !! path.

(** ** Properties of the write barrier

    Exclusive ownership, stability of the permission to promote, and timeouts
    that never turn into permission. *)

Definition draining (s : BarrierState) (t : nat) : Prop :=
  exists started timeout, waiting s !! t = Some (WaitDrain started timeout).

(** The thread that owns the exclusion, whether or not it may promote. *)
Definition owner (s : BarrierState) (t : nat) : Prop := holds_barrier s t = true \/ draining s t.

Record barrier_inv (s : BarrierState) : Prop := {
  bi_unique : forall t1 t2, owner s t1 -> owner s t2 -> t1 = t2;
  bi_active : promotion_active s = true <-> exists t, owner s t;
  bi_waiting : forall t w, waiting s !! t = Some w -> holds_barrier s t = false;
  bi_draining : forall t, draining s t -> promotion_ready s = false;
  bi_ready : promotion_ready s = true -> promotion_active s = true;
  bi_writers : writers s = Z.of_nat (live_guards s) /\ writers s <= u64_max;
}.

Lemma holds_set_depth s t n t' :
  holds_barrier (set_depth t n s) t' = if decide (t = t') then (0 <? n)%nat else holds_barrier s t'.
Proof.
  unfold holds_barrier, depth_of. simpl. destruct (decide (t = t')) as [->|Hne].
  - by rewrite lookup_insert_eq.
  - by rewrite lookup_insert_ne.
Qed.

(** Steps that touch neither ownership nor readiness. *)
Lemma inv_same_owner s s' :
  barrier_inv s -> depth s' = depth s ->
  (forall t, draining s' t <-> draining s t) ->
  (forall t w, waiting s' !! t = Some w -> holds_barrier s t = false) ->
  promotion_active s' = promotion_active s -> promotion_ready s' = promotion_ready s ->
  writers s' = Z.of_nat (live_guards s') /\ writers s' <= u64_max ->
  barrier_inv s'.
Proof.
  intros [Hu Ha Hw Hd Hr Hn] Ed Edr Ew Ea Er En.
  assert (forall t, holds_barrier s' t = holds_barrier s t) as Eh
    by (intros t; unfold holds_barrier, depth_of; by rewrite Ed).
  assert (forall t, owner s' t <-> owner s t) as Eo by (intros t; unfold owner; by rewrite Eh, Edr).
  split.
  - intros t1 t2. rewrite !Eo. apply Hu.
  - rewrite Ea. setoid_rewrite Eo. exact Ha.
  - intros t w Hl. rewrite Eh. by eapply Ew.
  - intros t. rewrite Edr, Er. apply Hd.
  - rewrite Ea, Er. exact Hr.
  - exact En.
Qed.

(** Steps that hand the exclusion to [t], which held nothing. *)
Lemma inv_new_owner s s' t :
  barrier_inv s -> (forall t', ~ owner s t') -> promotion_active s' = true ->
  (forall t', t' <> t -> holds_barrier s' t' = holds_barrier s t' /\ waiting s' !! t' = waiting s !! t') ->
  (holds_barrier s' t = true /\ waiting s' !! t = None \/
   holds_barrier s' t = false /\ draining s' t /\ promotion_ready s' = false) ->
  writers s' = writers s -> live_guards s' = live_guards s ->
  barrier_inv s'.
Proof.
  intros Hi Hno Ha Hother Ht Ew El.
  assert (forall t', owner s' t' -> t' = t) as Hone.
  { intros t' Ho. destruct (decide (t' = t)) as [|Hne]; [done|]. destruct (Hother t' Hne) as [Eh Edr].
    destruct (Hno t'). destruct Ho as [Ho|(a & b & Ho)]; [left; congruence|right; exists a, b; congruence]. }
  assert (owner s' t) as Howner by (destruct Ht as [[? _]|(_ & ? & _)]; [by left|by right]).
  split.
  - intros t1 t2 ->%Hone ->%Hone. done.
  - split; [by exists t|done].
  - intros t' w Hw. destruct (decide (t' = t)) as [->|Hne].
    + destruct Ht as [[_ Hn]|[? _]]; [congruence|done].
    + destruct (Hother t' Hne) as [-> Edr]. apply (bi_waiting _ Hi t' w). congruence.
  - intros t' Hdr. assert (t' = t) as -> by (apply Hone; by right). destruct Ht as [[_ Hn]|(_ & _ & ?)]; [|done].
    destruct Hdr as (a & b & Hdr). congruence.
  - done.
  - rewrite Ew, El. apply (bi_writers _ Hi).
Qed.

Lemma take_ownership_inv s t started timeout now r s' :
  barrier_inv s -> promotion_active s = false ->
  take_ownership t started timeout now s = (r, s') -> barrier_inv s'.
Proof.
  intros Hi Hact Htake.
  assert (forall t', ~ owner s t') as Hno.
  { intros t' Ho. assert (promotion_active s = true) by (apply (bi_active _ Hi); by exists t'). congruence. }
  assert (holds_barrier s t = false) as Hh
    by (destruct (holds_barrier s t) eqn:E; [by destruct (Hno t); left|done]).
  assert (forall o s0, (forall t', holds_barrier s0 t' = holds_barrier s t') ->
    (forall t', t' <> t -> waiting s0 !! t' = waiting s !! t') ->
    promotion_active s0 = true -> writers s0 = writers s -> live_guards s0 = live_guards s ->
    barrier_inv (snd (finish_drain t o s0))) as Hfin.
  { intros o s0 Eh Ew Ea En El. apply (inv_new_owner s _ t); try done.
    - intros t' Hne. unfold finish_drain, new_held. cbn [snd]. rewrite holds_set_depth, decide_False by done.
      split; [apply Eh|]. simpl. rewrite lookup_delete_ne by done. by apply Ew.
    - left. unfold finish_drain, new_held. cbn [snd]. rewrite holds_set_depth, decide_True by done.
      split; [done|apply lookup_delete_eq]. }
  assert (s' = snd (take_ownership t started timeout now s)) as -> by (by rewrite Htake).
  unfold take_ownership. cbv zeta. destruct (_ =? 0); [by apply Hfin|].
  destruct (drain_progress _ _ _) as [o|]; [by apply Hfin|].
  apply (inv_new_owner s _ t); try done.
  - intros t' Hne. split; [done|]. simpl. by rewrite lookup_insert_ne.
  - right. split_and!; [exact Hh| |done]. exists started, timeout. apply lookup_insert_eq.
Qed.

(** A waiter that does not own: how its state may change. *)
Lemma inv_set_wait s t w :
  barrier_inv s -> holds_barrier s t = false -> ~ draining s t ->
  (forall a b, w <> Some (WaitDrain a b)) -> barrier_inv (set_wait t w s).
Proof.
  intros Hi Hh Hnd Hw. apply (inv_same_owner s); try done; [| |apply (bi_writers _ Hi)].
  - intros t'. unfold draining. simpl. destruct (decide (t = t')) as [<-|Hne].
    + split; [|done]. intros (a & b & Hl). exfalso. destruct w as [w|].
      * rewrite lookup_insert_eq in Hl. injection Hl as ->. by apply (Hw a b).
      * by rewrite lookup_delete_eq in Hl.
    + destruct w; [rewrite lookup_insert_ne by done|rewrite lookup_delete_ne by done]; done.
  - intros t' w' Hl. simpl in Hl. destruct (decide (t = t')) as [<-|Hne]; [done|].
    destruct w; [rewrite lookup_insert_ne in Hl by done|rewrite lookup_delete_ne in Hl by done];
      by apply (bi_waiting _ Hi t' w').
Qed.

Lemma inv_admit_writer s : barrier_inv s -> writers s < u64_max -> barrier_inv (admit_writer s).
Proof.
  intros Hi Hn. apply (inv_same_owner s); try done; [apply (bi_waiting _ Hi)|].
  destruct (bi_writers _ Hi). unfold admit_writer, usat_add. simpl. lia.
Qed.

(** Nested acquisitions and releases by the owner. *)
Lemma inv_new_held s t : barrier_inv s -> holds_barrier s t = true -> barrier_inv (new_held t s).
Proof.
  intros Hi Hh. unfold new_held.
  assert (forall t', holds_barrier (set_depth t (S (depth_of s t)) s) t' = holds_barrier s t') as Eh.
  { intros t'. rewrite holds_set_depth. by destruct (decide (t = t')) as [<-|]. }
  assert (forall t', owner (set_depth t (S (depth_of s t)) s) t' <-> owner s t') as Eo
    by (intros t'; unfold owner, draining; by rewrite Eh).
  destruct Hi as [Hu Ha Hw Hd Hr Hn]. split; try done.
  - intros t1 t2. rewrite !Eo. apply Hu.
  - setoid_rewrite Eo. exact Ha.
  - intros t' w Hl. rewrite Eh. by apply (Hw t' w).
Qed.

Lemma inv_drop s t :
  barrier_inv s -> holds_barrier s t = true -> waiting s !! t = None -> barrier_inv (drop_promotion t s).
Proof.
  intros Hi Hh Hw. unfold drop_promotion.
  assert (forall n t', owner (set_depth t n s) t' -> t' = t).
  { intros n t' [Ho|Ho]; [|symmetry; apply (bi_unique _ Hi); [by left|by right]].
    rewrite holds_set_depth in Ho. destruct (decide (t = t')) as [|Hne]; [done|].
    symmetry; apply (bi_unique _ Hi); by left. }
  destruct (Nat.eqb_spec (depth_of s t - 1) 0) as [E|E].
  - assert (forall t', ~ owner (set_flags false false (set_depth t (depth_of s t - 1) s)) t') as Hno.
    { intros t' Ho. assert (t' = t) as -> by exact (H (depth_of s t - 1)%nat t' Ho). rewrite E in Ho.
      destruct Ho as [Ho|(a & b & Ho)]; [|simpl in Ho; congruence].
      unfold holds_barrier, depth_of in Ho. simpl in Ho. by rewrite lookup_insert_eq in Ho. }
    split; simpl; try done.
    + intros t1 t2 H1. by destruct (Hno t1).
    + split; [done|]. intros [t' Ho]. by destruct (Hno t').
    + intros t' w Hl. destruct (holds_barrier _ t') eqn:Eh; [|done]. by destruct (Hno t'); left.
    + apply (bi_writers _ Hi).
  - assert (forall t', holds_barrier (set_depth t (depth_of s t - 1) s) t' = holds_barrier s t') as Eh.
    { intros t'. rewrite holds_set_depth. destruct (decide (t = t')) as [<-|]; [|done].
      rewrite Hh. apply Nat.ltb_lt. lia. }
    assert (forall t', owner (set_depth t (depth_of s t - 1) s) t' <-> owner s t') as Eo
      by (intros t'; unfold owner, draining; by rewrite Eh).
    destruct Hi as [Hu Ha Hwt Hd Hr Hn]. split; try done.
    + intros t1 t2. rewrite !Eo. apply Hu.
    + setoid_rewrite Eo. exact Ha.
    + intros t' w Hl. rewrite Eh. by apply (Hwt t' w).
Qed.

(** The drain ends: the waiting owner becomes a holder. *)
Lemma inv_finish_drain s t o :
  barrier_inv s -> draining s t -> barrier_inv (snd (finish_drain t o s)).
Proof.
  intros Hi Hd. unfold finish_drain, new_held. cbn [snd]. set (s1 := set_flags _ _ _).
  assert (forall t' n, owner (set_depth t (S n) s1) t' <-> t' = t) as Ho.
  { intros t' n. split.
    - intros [Ho|(a & b & Ho)].
      + rewrite holds_set_depth in Ho. destruct (decide (t = t')); [done|].
        apply (bi_unique _ Hi); [by left|by right].
      + simpl in Ho. apply lookup_delete_Some in Ho as [? Ho].
        apply (bi_unique _ Hi); [right; by exists a, b|by right].
    - intros ->. left. by rewrite holds_set_depth, decide_True. }
  assert (promotion_active s = true) as Ha by (apply (bi_active _ Hi); exists t; by right).
  split.
  - intros t1 t2 ->%Ho ->%Ho. done.
  - split; [intros _; exists t; by apply Ho|done].
  - intros t' w Hl. simpl in Hl. apply lookup_delete_Some in Hl as [Hne Hl].
    rewrite holds_set_depth, decide_False by done. by apply (bi_waiting _ Hi t' w).
  - intros t' Hd'. assert (t' = t) as -> by (eapply Ho; by right). destruct Hd' as (a & b & Hl).
    simpl in Hl. by rewrite lookup_delete_eq in Hl.
  - done.
  - apply (bi_writers _ Hi).
Qed.

Lemma barrier_step_inv s l s' : barrier_inv s -> lts_step s l s' -> barrier_inv s'.
Proof.
  intros Hi Hs.
  assert (forall t w, waiting s !! t = Some w -> (forall a b, w <> WaitDrain a b) ->
    holds_barrier s t = false /\ ~ draining s t) as Hnot.
  { intros t w Hl Hw. split; [by apply (bi_waiting _ Hi t w)|]. intros (a & b & Hd). apply (Hw a b). congruence. }
  assert (forall t, waiting s !! t = None -> ~ draining s t) as Hnone
    by (intros t Hl (a & b & Hd); congruence).
  destruct Hs as [s t c ok s' Hw He|s t Hw Hn|s t Hw Hn|s t Hw Hl|s t ok s' Hw He
                 |s t timeout st now r s' Hw He|s t st timeout now r s' Hw He|s t st timeout now r s' Hw He|s t Hw Hh].
  - unfold try_begin_write_activity in He. destruct c; [by injection He as <- <-|].
    destruct (promotion_active s); [by injection He as <- <-|].
    destruct (Z.eqb_spec (writers s) u64_max); injection He as <- <-; [done|].
    apply inv_admit_writer; [done|]. destruct (bi_writers _ Hi). lia.
  - unfold begin_write_activity. destruct (holds_barrier s t) eqn:Eh; simpl; [by apply inv_admit_writer|].
    destruct (promotion_active s); [|by apply inv_admit_writer]. apply inv_set_wait; auto.
  - unfold writer_wake. destruct (promotion_active s); [done|]. destruct (Hnot t WaitWrite Hw) as [? ?]; [done|].
    apply inv_admit_writer; [by apply inv_set_wait|done].
  - apply (inv_same_owner s); try done; [apply (bi_waiting _ Hi)|].
    destruct (bi_writers _ Hi). unfold end_write_activity, usat_sub. simpl. lia.
  - unfold try_acquire_if_idle in He. destruct (holds_barrier s t) eqn:Eh.
    { destruct (can_promote s); injection He as <- <-; [by apply inv_new_held|done]. }
    destruct (promotion_active s) eqn:Ea; simpl in He; [by injection He as <- <-|].
    destruct (0 <? writers s); injection He as <- <-; [done|].
    apply (inv_new_owner s _ t); try done.
    + intros t' Ho. assert (promotion_active s = true) by (apply (bi_active _ Hi); by exists t'). congruence.
    + intros t' Hne. unfold new_held. rewrite holds_set_depth, decide_False by done. done.
    + left. unfold new_held. by rewrite holds_set_depth, decide_True.
  - unfold acquire_draining in He. destruct (holds_barrier s t) eqn:Eh.
    { destruct (can_promote s); injection He as <- <-; [by apply inv_new_held|done]. }
    destruct (promotion_active s) eqn:Ea; [|by eapply take_ownership_inv].
    destruct (timeout <=? usat_sub now st); injection He as <- <-; [done|]. apply inv_set_wait; auto.
  - unfold queue_wake in He. destruct (Hnot t _ Hw) as [? ?]; [done|].
    destruct (timeout <=? usat_sub now st); [injection He as <- <-; by apply inv_set_wait|].
    destruct (promotion_active s) eqn:Ea; [by injection He as <- <-|by eapply take_ownership_inv].
  - unfold drain_wake in He. destruct (drain_progress _ _ _) as [o|]; [|by injection He as <- <-].
    assert (s' = snd (finish_drain t o s)) as -> by (by rewrite He).
    apply inv_finish_drain; [done|by exists st, timeout].
  - by apply inv_drop.
Qed.

Lemma barrier_reachable s : reachable s -> barrier_inv s.
Proof.
  apply invariant_reachable. split; [|intros s0 l s1; apply barrier_step_inv].
  intros s0 ->. assert (forall t, ~ owner barrier_init t) as Hno by (intros t [Ho|(a & b & Ho)]; done).
  split; simpl; try done.
  - intros t1 t2 H1. by destruct (Hno t1).
  - split; [done|]. intros [t Ho]. by destruct (Hno t).
Qed.

(** ** Permission *)

Lemma owner_other s t t' : barrier_inv s -> owner s t -> t' <> t -> ~ owner s t'.
Proof. intros Hi Ho Hne Ho'. by apply Hne, (bi_unique _ Hi). Qed.

(** While [t] owns the exclusion, the steps of others leave its flags. *)
Lemma others_keep s l s' t :
  barrier_inv s -> owner s t -> promotion_active s = true -> lts_step s l s' -> label_thread l <> t ->
  promotion_active s' = true /\ promotion_ready s' = promotion_ready s /\ depth s' = depth s /\
  waiting s' !! t = waiting s !! t /\
  (holds_barrier s (label_thread l) = false -> (live_guards s' <= live_guards s)%nat /\ writers s' <= writers s).
Proof.
  intros Hi Ho Ha Hs Hne. pose proof (owner_other s t (label_thread l) Hi Ho Hne) as Hno.
  destruct (bi_writers _ Hi) as [Hw1 Hw2].
  destruct Hs as [s t' c ok s' Hw He|s t' Hw Hn|s t' Hw Hn|s t' Hw Hl|s t' ok s' Hw He
                 |s t' timeout st now r s' Hw He|s t' st timeout now r s' Hw He|s t' st timeout now r s' Hw He|s t' Hw Hh];
    simpl in *.
  - unfold try_begin_write_activity in He. rewrite Ha in He. destruct c; by injection He as <- <-.
  - unfold begin_write_activity. destruct (holds_barrier s t') eqn:Eh; [by destruct Hno; left|].
    rewrite Ha. simpl. by rewrite lookup_insert_ne.
  - unfold writer_wake. by rewrite Ha.
  - unfold usat_sub. split_and!; try done; lia.
  - unfold try_acquire_if_idle in He. destruct (holds_barrier s t') eqn:Eh; [by destruct Hno; left|].
    rewrite Ha in He. by injection He as <- <-.
  - unfold acquire_draining in He. destruct (holds_barrier s t') eqn:Eh; [by destruct Hno; left|].
    rewrite Ha in He. destruct (timeout <=? usat_sub now st); injection He as <- <-; [done|].
    simpl. by rewrite lookup_insert_ne.
  - unfold queue_wake in He. rewrite Ha in He.
    destruct (timeout <=? usat_sub now st); injection He as <- <-; [|done]. simpl. by rewrite lookup_delete_ne.
  - destruct Hno. right. by exists st, timeout.
  - by destruct Hno; left.
Qed.

(** C35: nothing is written under a promotion.  A thread that may promote is
    alone: no write guard is alive and nobody else holds the barrier; and it
    stays so through every step of the other threads: none of them can begin a
    write or take the barrier until this thread acts. *)
Theorem promotion_excludes_writers s t :
  reachable s -> holds_promotion_barrier s t = true ->
  live_guards s = 0%nat /\
  (forall t', t' <> t -> holds_barrier s t' = false) /\
  (forall l s', lts_step s l s' -> label_thread l <> t ->
     holds_promotion_barrier s' t = true /\ live_guards s' = 0%nat).
Proof.
  intros Hr%barrier_reachable Hp. unfold holds_promotion_barrier, can_promote in Hp. breflect.
  rename H into Hh, H0 into Ha, H2 into Hrd, H1 into Hw. destruct (bi_writers _ Hr) as [Hwl _].
  assert (live_guards s = 0%nat) as Hl by lia. split; [done|]. split.
  - intros t' Hne. destruct (holds_barrier s t') eqn:E; [|done].
    destruct Hne. apply (bi_unique _ Hr); by left.
  - intros l s' Hs Hne. destruct (others_keep s l s' t Hr ltac:(by left) Ha Hs Hne) as (Ea & Er & Ed & _ & Hlive).
    assert (holds_barrier s (label_thread l) = false) as Ho.
    { destruct (holds_barrier s (label_thread l)) eqn:E; [|done]. destruct Hne. apply (bi_unique _ Hr); by left. }
    specialize (Hlive Ho). pose proof (barrier_step_inv _ _ _ Hr Hs) as Hi'.
    destruct (bi_writers _ Hi') as [Hwl' _].
    unfold holds_promotion_barrier, can_promote, holds_barrier, depth_of in *.
    rewrite Ed, Ea, Er, Hh, Hrd. split; [|lia]. simpl. apply Z.eqb_eq. lia.
Qed.

(** [t] holds the exclusion of an attempt whose drain timed out. *)
Definition failed_hold (s : BarrierState) (t : nat) : Prop :=
  depth_of s t = 1%nat /\ waiting s !! t = None /\ promotion_active s = true /\ promotion_ready s = false.

Lemma failed_hold_step s l s' t :
  barrier_inv s -> failed_hold s t -> lts_step s l s' -> l <> BDropPromotion t -> failed_hold s' t.
Proof.
  intros Hi (Hd & Hw & Ha & Hr) Hs Hl.
  assert (holds_barrier s t = true) as Hh by (unfold holds_barrier; by rewrite Hd).
  destruct (decide (label_thread l = t)) as [Ht|Hne].
  - assert (can_promote s = false) as Hcp by (unfold can_promote; by rewrite Ha, Hr).
    destruct Hs as [s t' c ok s' Hw' He|s t' Hw' Hn|s t' Hw' Hn|s t' Hw' Hlv|s t' ok s' Hw' He
                   |s t' timeout st now r s' Hw' He|s t' st timeout now r s' Hw' He|s t' st timeout now r s' Hw' He
                   |s t' Hw' Hh'];
      simpl in Ht; subst t'; try congruence.
    + unfold try_begin_write_activity in He. rewrite Ha in He. destruct c; by injection He as <- <-.
    + unfold begin_write_activity. by rewrite Hh.
    + done.
    + unfold try_acquire_if_idle in He. rewrite Hh, Hcp in He. by injection He as <- <-.
    + unfold acquire_draining in He. rewrite Hh, Hcp in He. by injection He as <- <-.
  - destruct (others_keep s l s' t Hi ltac:(by left) Ha Hs Hne) as (Ea & Er & Ed & Ew & _).
    unfold failed_hold, depth_of in *. by rewrite Ea, Er, Ed, Ew.
Qed.

Lemma finish_timeout_holds s t o r s' :
  barrier_inv s -> holds_barrier s t = false -> timed_out o = true -> promotion_active s = true ->
  finish_drain t o s = (r, s') -> failed_hold s' t.
Proof.
  intros Hi Hh Ho Ha [= <- <-]. unfold failed_hold, new_held, depth_of. simpl. rewrite Ho, lookup_insert_eq.
  split_and!; try done; [|by apply lookup_delete_eq].
  unfold holds_barrier, depth_of in Hh. simpl. apply Nat.ltb_ge in Hh. lia.
Qed.

Lemma take_timeout_holds s t started timeout now n s' :
  barrier_inv s -> holds_barrier s t = false ->
  take_ownership t started timeout now s = (Held (TimedOut n), s') -> failed_hold s' t.
Proof.
  intros Hi Hh. unfold take_ownership. cbv zeta.
  destruct (_ =? 0); [unfold finish_drain; by intros [=]|].
  destruct (drain_progress _ _ _) as [o|] eqn:Eo; [|done]. intros He.
  assert (o = TimedOut n) as -> by (unfold finish_drain in He; congruence).
  unfold finish_drain in He. injection He as <-. unfold failed_hold, new_held, depth_of. simpl.
  rewrite lookup_insert_eq. split_and!; try done; [|apply lookup_delete_eq].
  unfold holds_barrier, depth_of in Hh. simpl. apply Nat.ltb_ge in Hh. lia.
Qed.

(** The steps that return a guard. *)
Definition returns_guard (l : barrier_label) (t : nat) (o : DrainOutcome) : Prop :=
  l = BAcquire t (Held o) \/ l = BQueueWake t (Held o) \/ l = BDrainWake t (Held o).

Lemma timed_out_guard s l s' t n :
  barrier_inv s -> lts_step s l s' -> returns_guard l t (TimedOut n) -> failed_hold s' t.
Proof.
  intros Hi Hs Hret.
  destruct Hs as [s t' c ok s' Hw He|s t' Hw Hn|s t' Hw Hn|s t' Hw Hl|s t' ok s' Hw He
                 |s t' timeout st now r s' Hw He|s t' st timeout now r s' Hw He|s t' st timeout now r s' Hw He|s t' Hw Hh];
    destruct Hret as [E|[E|E]]; try discriminate E; injection E as -> ->.
  - unfold acquire_draining in He. destruct (holds_barrier s t) eqn:Eh.
    { destruct (can_promote s); discriminate He. }
    destruct (promotion_active s); [destruct (timeout <=? _); discriminate He|]. by eapply take_timeout_holds.
  - unfold queue_wake in He. pose proof (bi_waiting _ Hi _ _ Hw) as Hh.
    destruct (timeout <=? _); [discriminate He|]. destruct (promotion_active s); [by injection He|].
    by eapply take_timeout_holds.
  - unfold drain_wake in He. pose proof (bi_waiting _ Hi _ _ Hw) as Hh.
    destruct (drain_progress _ _ _) as [o|] eqn:Eo; [|discriminate He].
    assert (o = TimedOut n) as -> by (unfold finish_drain in He; congruence).
    apply (finish_timeout_holds s t (TimedOut n) (Held (TimedOut n)) s' Hi Hh eq_refl); [|exact He].
    apply (bi_active _ Hi). exists t. right. by exists st, timeout.
Qed.

(** A timeout never becomes a permission.  When a draining acquisition
    returns a participating guard with [TimedOut], then for as long as that
    guard is not dropped, whatever happens and even after the last writer
    finished, the thread may not promote, and the exclusion of new writers and
    of other promotions stays in force. *)
Theorem timed_out_never_promotes s l s1 t n ls s2 :
  reachable s -> lts_step s l s1 -> returns_guard l t (TimedOut n) ->
  steps s1 ls s2 -> Forall (fun l => l <> BDropPromotion t) ls ->
  holds_promotion_barrier s2 t = false /\ promotion_active s2 = true /\
  (forall t', t' <> t -> holds_barrier s2 t' = false).
Proof.
  intros Hr%barrier_reachable Hs Hret Hsteps Hall.
  pose proof (timed_out_guard _ _ _ _ _ Hr Hs Hret) as Hf.
  pose proof (barrier_step_inv _ _ _ Hr Hs) as Hi. clear Hr Hs Hret.
  assert (barrier_inv s2 /\ failed_hold s2 t) as [Hi2 (Hd & Hw & Ha & Hrd)].
  { induction Hsteps as [s1|s1 l1 s3 ls s2 Hl Hs IH]; [done|]. inversion Hall; subst.
    apply IH; [done|by eapply failed_hold_step|by eapply barrier_step_inv]. }
  split_and!; [|done|].
  - unfold holds_promotion_barrier, can_promote. by rewrite Ha, Hrd, andb_false_r.
  - intros t' Hne. destruct (holds_barrier s2 t') eqn:E; [|done]. destruct Hne.
    apply (bi_unique _ Hi2); left; [done|]. unfold holds_barrier. by rewrite Hd.
Qed.

(** A promotion that found the database idle. *)
Lemma promotion_excludes_writers_witness :
  exists s, lts_step barrier_init (BTryAcquire 1 true) s /\ live_guards s = 0%nat.
Proof.
  assert (lts_step barrier_init (BTryAcquire 1 true) (new_held 1 (set_flags true true barrier_init))) as Hs
    by (apply bs_try_acquire; reflexivity).
  eexists. split; [exact Hs|].
  refine (proj1 (promotion_excludes_writers _ 1 _ _)); [|vm_compute; reflexivity].
  eapply reach_step; [|exact Hs]. by apply reach_init.
Defined.

(** A writer is active, the drain times out at once, and then the writer ends. *)
Lemma timed_out_never_promotes_witness :
  let s0 := admit_writer barrier_init in
  let s1 := snd (acquire_draining 1 0 5 5 s0) in
  writers (end_write_activity s1) = 0 /\ holds_barrier (end_write_activity s1) 1 = true /\
  holds_promotion_barrier (end_write_activity s1) 1 = false.
Proof.
  intros s0 s1. split; [vm_compute; reflexivity|]. split; [vm_compute; reflexivity|].
  refine (proj1 (timed_out_never_promotes s0 (BAcquire 1 (Held (TimedOut 1))) s1 1 1 [BEnd 2] _ _ _ _ _ _)).
  - eapply reach_step; [by apply reach_init|]. apply (bs_begin barrier_init 2); vm_compute; reflexivity.
  - apply (bs_acquire s0 1 0 5 5); vm_compute; reflexivity.
  - by left.
  - eapply steps_cons; [|apply steps_nil]. apply bs_end; vm_compute; [reflexivity|lia].
  - repeat constructor; discriminate.
Defined.
