(* ===== verification/DeferredQueue.v ===== *)
(** * The deferred write queue ([db/src/pool.rs])

    Writes that arrive while the mailbox recovers are kept in a bounded FIFO
    and replayed afterwards.  Every operation runs under one mutex, so a
    history is a sequence of operations on [DeferredQueue]. *)

From S2P Require Import Prelude.
From S2P Require Import RustStr.

Definition usize_max : Z := u64_max.

(** The bound parameters of a statement ([sqlmodel]'s [Value]): the cases the
    source tells apart, with what it reads of them. *)
Inductive SqlValue :=
| VNull | VBool (b : bool) | VInt (n : Z) | VBigInt (n : Z) | VFloat | VDouble
| VText (s : ustr) | VBytes (b : list N) | VOther.

(** @src db/src/pool.rs:1841-1857 DeferredWrite *)
Record DeferredWrite := mkWrite {
  dw_seq : Z;
  dw_sql : ustr;
  dw_params : list SqlValue;
  deferred_at_us : Z;
  dw_operation : ustr;
}.

(** @src db/src/pool.rs:1859-1886 DeferralOutcome *)
Inductive DeferralOutcome :=
| Queued (pos : Z)
| BackpressureFull (capacity : Z)
| NotRecovering
| Sealed
| HardStopAge (oldest_age_secs max_age_secs : Z)
| HardStopBytes (estimated_bytes max_bytes : Z)
| FairnessLimitReached (operation : ustr) (count limit : Z).

(** @src db/src/pool.rs:1888-1904 OverloadPolicy *)
Record OverloadPolicy := mkOverload {
  max_entries : Z;
  max_age_secs : Z;
  max_bytes : Z;
  fairness_limit_pct : Z;
}.

(** @src db/src/pool.rs:2101-2131 DEFAULT_DEFERRED_WRITE_CAPACITY and the other defaults *)
Definition DEFAULT_DEFERRED_WRITE_CAPACITY : Z := 1024.
Definition DEFAULT_DEFERRED_WRITE_MAX_AGE_SECS : Z := 300.
Definition DEFAULT_DEFERRED_WRITE_MAX_BYTES : Z := 64 * 1024 * 1024.
Definition DEFAULT_DEFERRED_WRITE_FAIRNESS_LIMIT_PCT : Z := 60.
Definition DEFERRED_WRITE_WARN_THRESHOLD_PCT : Z := 75.

(** @src db/src/pool.rs:1906-1915 OverloadPolicy::default *)
Definition overload_default : OverloadPolicy :=
  {| max_entries := DEFAULT_DEFERRED_WRITE_CAPACITY;
     max_age_secs := DEFAULT_DEFERRED_WRITE_MAX_AGE_SECS;
     max_bytes := DEFAULT_DEFERRED_WRITE_MAX_BYTES;
     fairness_limit_pct := DEFAULT_DEFERRED_WRITE_FAIRNESS_LIMIT_PCT |}.

(** @src db/src/pool.rs:1918-1924 OverloadPolicy::fairness_limit
    -- the product of the [u64]s wraps in a release build. *)
Definition fairness_limit (p : OverloadPolicy) : Z :=
  if (fairness_limit_pct p =? 0) || (100 <? fairness_limit_pct p) then max_entries p
  else Z.max (u64_wrap (max_entries p * fairness_limit_pct p) / 100) 1.

(** @src db/src/pool.rs:1927-1946 BacklogPressure *)
Inductive BacklogPressure := Normal | Elevated | Critical | HardStop.

#[export] Instance BacklogPressure_eq_dec : EqDecision BacklogPressure.
Proof. solve_decision. Defined.

(** @src db/src/pool.rs:2081-2099 DeferredWriteQueueInner *)
Record DeferredQueue := mkQueue {
  q_active : bool;
  q_sealed : bool;
  next_seq : Z;
  entries : list DeferredWrite;
  q_policy : OverloadPolicy;
  per_operation_counts : gmap ustr Z;
  estimated_bytes : Z;
  shed_count : Z;
}.

(** @src db/src/pool.rs:2143-2158 DeferredWriteQueue::with_policy *)
Definition with_policy (p : OverloadPolicy) : DeferredQueue :=
  mkQueue false false 0 [] p ∅ 0 0.

(** @src db/src/pool.rs:2134-2141 DeferredWriteQueue::new *)
Definition queue_new (capacity : Z) : DeferredQueue :=
  with_policy {| max_entries := capacity; max_age_secs := max_age_secs overload_default;
                 max_bytes := max_bytes overload_default;
                 fairness_limit_pct := fairness_limit_pct overload_default |}.

(** @src db/src/pool.rs:2166-2177 DeferredWriteQueue::activate *)
Definition activate (q : DeferredQueue) : DeferredQueue :=
  mkQueue true false (next_seq q) (entries q) (q_policy q) (per_operation_counts q)
    (estimated_bytes q) (shed_count q).

(** @src db/src/pool.rs:2179-2203 is_active, len, is_empty *)
Definition is_active (q : DeferredQueue) : bool := q_active q && negb (q_sealed q).

(** @src db/src/pool.rs:2425-2441 estimate_deferred_write_bytes *)
Definition estimate_deferred_write_bytes (sql : ustr) (params : list SqlValue) : Z :=
  foldl (fun bytes p => bytes +
    match p with
    | VNull => 0
    | VBool _ => 1
    | VInt _ | VBigInt _ => 8
    | VFloat | VDouble => 8
    | VText s => Z.of_nat (utf8_len s)
    | VBytes b => Z.of_nat (length b)
    | VOther => 16
    end) (Z.of_nat (utf8_len sql)) params + 128.

(** Count one shed write. *)
Definition shed (q : DeferredQueue) : DeferredQueue :=
  mkQueue (q_active q) (q_sealed q) (next_seq q) (entries q) (q_policy q) (per_operation_counts q)
    (estimated_bytes q) (usat_add (shed_count q) 1).

(** The age check of [enqueue]: what it answers when the oldest entry is too old. *)
Definition too_old (q : DeferredQueue) (now_us : Z) : option DeferralOutcome :=
  match entries q with
  | [] => None
  | oldest :: _ =>
      let age_us := Z.max (isat_sub now_us (deferred_at_us oldest)) 0 in
      if usat_mul (max_age_secs (q_policy q)) 1000000 <? age_us
      then Some (HardStopAge (age_us / 1000000) (max_age_secs (q_policy q)))
      else None
  end.

(** The fairness check of [enqueue]. *)
Definition unfair (q : DeferredQueue) (operation : ustr) : option DeferralOutcome :=
  let pct := fairness_limit_pct (q_policy q) in
  if negb (pct =? 0) && (pct <=? 100) then
    let limit := fairness_limit (q_policy q) in
    let op_count := default 0 (per_operation_counts q !! operation) in
    if limit <=? op_count then Some (FairnessLimitReached operation op_count limit) else None
  else None.

(** @src db/src/pool.rs:2205-2298 DeferredWriteQueue::enqueue *)
Definition enqueue (sql : ustr) (params : list SqlValue) (operation : ustr) (now_us : Z)
    (q : DeferredQueue) : DeferralOutcome * DeferredQueue :=
  let entry_bytes := estimate_deferred_write_bytes sql params in
  if q_sealed q then (Sealed, q)
  else if negb (q_active q) then (NotRecovering, q)
  else
    match too_old q now_us with
    | Some outcome => (outcome, shed q)
    | None =>
        let total := Z.min (estimated_bytes q + entry_bytes) usize_max in
        if max_bytes (q_policy q) <? total
        then (HardStopBytes total (max_bytes (q_policy q)), shed q)
        else
          match unfair q operation with
          | Some outcome => (outcome, shed q)
          | None =>
              if max_entries (q_policy q) <=? Z.of_nat (length (entries q))
              then (BackpressureFull (max_entries (q_policy q)), shed q)
              else
                let seq := next_seq q in
                (Queued seq,
                 mkQueue (q_active q) (q_sealed q) (u64_wrap (seq + 1))
                   (entries q ++ [mkWrite seq sql params now_us operation]) (q_policy q)
                   (<[operation := default 0 (per_operation_counts q !! operation) + 1]>
                      (per_operation_counts q))
                   total (shed_count q))
          end
    end.

(** [sort_by_key(|e| e.seq)]: an insertion sort that keeps the order of equal
    keys, as the stable sort of the standard library does. *)
Fixpoint insert_by_seq (w : DeferredWrite) (l : list DeferredWrite) : list DeferredWrite :=
  match l with
  | [] => [w]
  | x :: l' => if dw_seq x <=? dw_seq w then x :: insert_by_seq w l' else w :: l
  end.
Definition sort_by_seq (l : list DeferredWrite) : list DeferredWrite :=
  foldl (fun acc w => insert_by_seq w acc) [] l.

(** @src db/src/pool.rs:2300-2321 DeferredWriteQueue::seal_and_drain *)
Definition seal_and_drain (q : DeferredQueue) : list DeferredWrite * DeferredQueue :=
  (sort_by_seq (entries q),
   mkQueue false true (next_seq q) [] (q_policy q) ∅ 0 (shed_count q)).

(** @src db/src/pool.rs:2323-2339 DeferredWriteQueue::reset *)
Definition queue_reset (q : DeferredQueue) : DeferredQueue :=
  mkQueue false false 0 [] (q_policy q) ∅ 0 (shed_count q).

(** @src db/src/pool.rs:2443-2453 oldest_entry_age_secs *)
Definition oldest_entry_age_secs (q : DeferredQueue) (now_us : Z) : Z :=
  match entries q with
  | oldest :: _ => Z.max (isat_sub now_us (deferred_at_us oldest)) 0 / 1000000
  | [] => 0
  end.

(** @src db/src/pool.rs:2455-2487 compute_backlog_pressure *)
Definition compute_backlog_pressure (q : DeferredQueue) (now_us : Z) : BacklogPressure :=
  let p := q_policy q in
  let age_secs := oldest_entry_age_secs q now_us in
  if max_age_secs p <? age_secs then HardStop
  else if max_bytes p <? estimated_bytes q then HardStop
  else if max_entries p <=? Z.of_nat (length (entries q)) then Critical
  else if (0 <? max_age_secs p) && (u64_wrap (max_age_secs p * 9) / 10 <? age_secs) then Critical
  else if u64_wrap (max_entries p * DEFERRED_WRITE_WARN_THRESHOLD_PCT) / 100
            <=? Z.of_nat (length (entries q)) then Elevated
  else Normal.

(** @src db/src/pool.rs:2341-2363 DeferredWriteQueue::pressure *)
Definition pressure (q : DeferredQueue) (now_us : Z) : BacklogPressure :=
  if negb (q_active q) && negb (q_sealed q) then Normal
  else if q_sealed q then HardStop
  else compute_backlog_pressure q now_us.

(** @src db/src/pool.rs:2489-2505 DeferredWriteQueueStatus *)
Record QueueStatus := mkStatus {
  st_active : bool;
  st_sealed : bool;
  st_queued : Z;
  st_capacity : Z;
  st_next_seq : Z;
  st_estimated_bytes : Z;
  st_oldest_age_secs : Z;
  st_pressure : BacklogPressure;
  st_shed_count : Z;
}.

(** @src db/src/pool.rs:2395-2422 DeferredWriteQueue::status *)
Definition queue_status (q : DeferredQueue) (now_us : Z) : QueueStatus :=
  {| st_active := q_active q; st_sealed := q_sealed q;
     st_queued := Z.of_nat (length (entries q)); st_capacity := max_entries (q_policy q);
     st_next_seq := next_seq q; st_estimated_bytes := estimated_bytes q;
     st_oldest_age_secs := oldest_entry_age_secs q now_us;
     st_pressure := pressure q now_us; st_shed_count := shed_count q |}.

(** @src db/src/pool.rs:1959-1989 ReplayCompensationRecord *)
Record CompensationRecord := mkCompensation {
  rc_seq : Z; rc_sql : ustr; rc_operation : ustr; rc_error : ustr;
  rc_deferred_at_us : Z; rc_failed_at_us : Z;
}.

(** @src db/src/pool.rs:1999-2047 ReplayCompensationLog::record, drain
    -- the log is the list of its records. *)
Definition log_record (r : CompensationRecord) (log : list CompensationRecord) : list CompensationRecord :=
  log ++ [r].
Definition log_drain (log : list CompensationRecord) : list CompensationRecord * list CompensationRecord :=
  (log, []).

(** The operations of a history. *)
Inductive queue_op :=
  | QActivate
  | QEnqueue (sql : ustr) (params : list SqlValue) (operation : ustr) (now_us : Z)
  | QDrain
  | QReset.

Definition queue_apply (q : DeferredQueue) (o : queue_op) : DeferredQueue :=
  match o with
  | QActivate => activate q
  | QEnqueue sql params op now => snd (enqueue sql params op now q)
  | QDrain => snd (seal_and_drain q)
  | QReset => queue_reset q
  end.

(** ** Properties of the deferred write queue

    The budgets hold in every history, what is drained is what was accepted in
    order, and the reported pressure agrees with what [enqueue] does. *)

(** A policy as [usize] and [u64] fields hold it, its byte budget not the whole
    address space (a sum that saturates there would be accepted). *)
Definition policy_ok (p : OverloadPolicy) : Prop :=
  in_u64 (max_entries p) /\ in_u64 (max_age_secs p) /\ 0 <= max_bytes p < u64_max /\
  0 <= fairness_limit_pct p <= 255.

Definition write_bytes (w : DeferredWrite) : Z := estimate_deferred_write_bytes (dw_sql w) (dw_params w).

Definition total_bytes (l : list DeferredWrite) : Z := foldr (fun w n => write_bytes w + n) 0 l.

Definition count_op (op : ustr) (l : list DeferredWrite) : Z :=
  Z.of_nat (length (List.filter (fun w => ustr_eqb (dw_operation w) op) l)).

(** The share of the queue one operation may hold. *)
Definition op_budget (p : OverloadPolicy) : Z :=
  if negb (fairness_limit_pct p =? 0) && (fairness_limit_pct p <=? 100) then fairness_limit p
  else max_entries p.

Record queue_inv (n : nat) (p : OverloadPolicy) (q : DeferredQueue) : Prop := {
  qi_policy : q_policy q = p;
  qi_len : Z.of_nat (length (entries q)) <= max_entries p;
  qi_bytes : estimated_bytes q = total_bytes (entries q);
  qi_max : estimated_bytes q <= max_bytes p;
  qi_counts : forall op, default 0 (per_operation_counts q !! op) = count_op op (entries q);
  qi_fair : forall op, count_op op (entries q) <= op_budget p;
  qi_sorted : StronglySorted Z.lt (map dw_seq (entries q));
  qi_seq : Forall (fun w => 0 <= dw_seq w < next_seq q) (entries q);
  qi_next : 0 <= next_seq q <= Z.of_nat n;
}.

Lemma estimate_nonneg sql params : 0 <= estimate_deferred_write_bytes sql params.
Proof.
  unfold estimate_deferred_write_bytes.
  assert (forall l acc, 0 <= acc -> 0 <= foldl (fun bytes p => bytes +
    match p with
    | VNull => 0 | VBool _ => 1 | VInt _ | VBigInt _ => 8 | VFloat | VDouble => 8
    | VText s => Z.of_nat (utf8_len s) | VBytes b => Z.of_nat (length b) | VOther => 16
    end) acc l) as Hf.
  { induction l as [|p l IH]; intros acc Ha; simpl; [done|]. apply IH. destruct p; lia. }
  specialize (Hf params (Z.of_nat (utf8_len sql))). lia.
Qed.

Lemma total_bytes_nonneg l : 0 <= total_bytes l.
Proof. induction l as [|w l IH]; simpl; [done|]. pose proof (estimate_nonneg (dw_sql w) (dw_params w)). unfold write_bytes. lia. Qed.

Lemma total_bytes_snoc l w : total_bytes (l ++ [w]) = total_bytes l + write_bytes w.
Proof. induction l as [|x l IH]; simpl; [lia|]. rewrite IH. lia. Qed.

Lemma count_op_snoc op l w :
  count_op op (l ++ [w]) = count_op op l + (if ustr_eqb (dw_operation w) op then 1 else 0).
Proof.
  unfold count_op. rewrite List.filter_app, length_app. simpl.
  destruct (ustr_eqb (dw_operation w) op); simpl; lia.
Qed.

Lemma count_op_le op l : count_op op l <= Z.of_nat (length l).
Proof. unfold count_op. pose proof (List.filter_length_le (fun w => ustr_eqb (dw_operation w) op) l). lia. Qed.

(** What a successful [enqueue] has checked, and what the others leave. *)
Lemma enqueue_cases sql params op now q :
  max_bytes (q_policy q) < u64_max ->
  match enqueue sql params op now q with
  | (Queued pos, q') =>
      q_active q = true /\ q_sealed q = false /\ too_old q now = None /\
      estimated_bytes q + estimate_deferred_write_bytes sql params <= max_bytes (q_policy q) /\
      unfair q op = None /\ Z.of_nat (length (entries q)) < max_entries (q_policy q) /\
      pos = next_seq q /\
      q' = mkQueue true false (u64_wrap (next_seq q + 1))
             (entries q ++ [mkWrite (next_seq q) sql params now op]) (q_policy q)
             (<[op := default 0 (per_operation_counts q !! op) + 1]> (per_operation_counts q))
             (estimated_bytes q + estimate_deferred_write_bytes sql params) (shed_count q)
  | (_, q') => q' = (if is_active q then shed q else q)
  end.
Proof.
  intros Hm. unfold enqueue, is_active, usize_max.
  destruct (q_sealed q) eqn:Es; [by rewrite andb_false_r|]. destruct (q_active q) eqn:Ea; [|done]. cbn [negb andb].
  destruct (too_old q now) as [o|] eqn:Eo.
  { unfold too_old in Eo. destruct (entries q); [done|]. by case_match; [injection Eo as <-|]. }
  destruct (Z.ltb_spec (max_bytes (q_policy q))
    (Z.min (estimated_bytes q + estimate_deferred_write_bytes sql params) u64_max)) as [|Hle]; [done|].
  rewrite Z.min_l in * by lia.
  destruct (unfair q op) as [o|] eqn:Ef.
  { unfold unfair in Ef. destruct (negb _ && _); [|done]. by case_match; [injection Ef as <-|]. }
  destruct (Z.leb_spec (max_entries (q_policy q)) (Z.of_nat (length (entries q)))); [done|].
  by split_and!.
Qed.

(** The invariant only depends on the contents, not on the flags and the shed
    counter. *)
Lemma queue_inv_flags n n' p q q' :
  queue_inv n p q -> (n <= n')%nat ->
  q_policy q' = q_policy q -> entries q' = entries q ->
  per_operation_counts q' = per_operation_counts q -> estimated_bytes q' = estimated_bytes q ->
  next_seq q' = next_seq q -> queue_inv n' p q'.
Proof.
  intros [] Hn E1 E2 E3 E4 E5. split; rewrite ?E1, ?E2, ?E3, ?E4, ?E5; try done. lia.
Qed.

Lemma queue_inv_empty n p a s next sh :
  policy_ok p -> 0 <= next <= Z.of_nat n -> queue_inv n p (mkQueue a s next [] p ∅ 0 sh).
Proof.
  intros ((? & ?) & ? & ? & ?) Hn. split; simpl; try done; try lia.
  - intros op. unfold count_op, op_budget, fairness_limit. simpl.
    destruct (negb _ && _); [|lia]. destruct (_ || _); lia.
  - constructor.
Qed.

Lemma unfair_budget q op n p :
  queue_inv n p q -> unfair q op = None -> Z.of_nat (length (entries q)) < max_entries p ->
  count_op op (entries q) + 1 <= op_budget p.
Proof.
  intros Hi Hu Hl. unfold unfair, op_budget in *. rewrite (qi_policy _ _ _ Hi), (qi_counts _ _ _ Hi) in Hu.
  pose proof (count_op_le op (entries q)). destruct (negb _ && _); [|lia].
  destruct (Z.leb_spec (fairness_limit p) (count_op op (entries q))); [done|lia].
Qed.

Lemma StronglySorted_snoc {A} (R : A -> A -> Prop) l x :
  StronglySorted R l -> Forall (fun y => R y x) l -> StronglySorted R (l ++ [x]).
Proof.
  induction 1 as [|y l Hl IH Hy]; intros Hf; simpl; [repeat constructor|].
  inversion Hf; subst. constructor; [by apply IH|]. apply Forall_app. by split; [|constructor].
Qed.

Lemma enqueue_inv n p q sql params op now :
  policy_ok p -> queue_inv n p q -> Z.of_nat (S n) <= u64_max ->
  queue_inv (S n) p (snd (enqueue sql params op now q)).
Proof.
  intros Hp Hi Hn. pose proof (enqueue_cases sql params op now q) as Hc.
  rewrite (qi_policy _ _ _ Hi) in Hc. specialize (Hc ltac:(apply Hp)).
  assert (queue_inv (S n) p (if is_active q then shed q else q)) as Hkeep
    by (destruct (is_active q); by apply (queue_inv_flags n _ p q); [| lia|..]).
  destruct (enqueue sql params op now q) as [[] q']; simpl; subst; try done.
  destruct Hc as (_ & _ & _ & Hb & Hu & Hl & -> & ->).
  pose proof (unfair_budget q op n p Hi Hu Hl) as Hf.
  assert (u64_wrap (next_seq q + 1) = next_seq q + 1) as ->.
  { pose proof (qi_next _ _ _ Hi). unfold u64_wrap, u64_max in *. rewrite Z.mod_small; lia. }
  destruct Hi as [Hpo Hlen Hby Hmx Hct Hfa Hso Hse Hnx]. split; simpl; try done; try lia.
  - rewrite length_app. simpl. lia.
  - rewrite total_bytes_snoc, Hby. unfold write_bytes. simpl. lia.
  - intros o. rewrite count_op_snoc. simpl. destruct (decide (op = o)) as [->|Hne].
    + rewrite lookup_insert_eq, ustr_eqb_refl. simpl. by rewrite Hct.
    + rewrite lookup_insert_ne by done. apply ustr_eqb_neq in Hne. rewrite Hne, Hct. lia.
  - intros o. rewrite count_op_snoc. simpl. destruct (ustr_eqb op o) eqn:E; [apply ustr_eqb_eq in E; by subst|].
    specialize (Hfa o). lia.
  - rewrite map_app. apply StronglySorted_snoc; [done|]. apply List.Forall_map.
    eapply List.Forall_impl; [|exact Hse]. simpl. lia.
  - apply List.Forall_app. split; [|by repeat constructor; simpl; lia].
    eapply List.Forall_impl; [|exact Hse]. simpl. lia.
Qed.

Lemma queue_apply_inv n p q o :
  policy_ok p -> queue_inv n p q -> Z.of_nat (S n) <= u64_max -> queue_inv (S n) p (queue_apply q o).
Proof.
  intros Hp Hi Hn. destruct o; simpl.
  - by apply (queue_inv_flags n _ p q); [|lia|..].
  - by apply enqueue_inv.
  - rewrite (qi_policy _ _ _ Hi). apply queue_inv_empty; [done|]. pose proof (qi_next _ _ _ Hi). lia.
  - unfold queue_reset. rewrite (qi_policy _ _ _ Hi). apply queue_inv_empty; [done|lia].
Qed.

Lemma queue_run_inv p ops : forall n q,
  policy_ok p -> queue_inv n p q -> Z.of_nat (n + length ops) <= u64_max ->
  queue_inv (n + length ops) p (run queue_apply q ops).
Proof.
  induction ops as [|o ops IH]; intros n q Hp Hi Hn; simpl in *; [by rewrite Nat.add_0_r|].
  replace (n + S (length ops))%nat with (S n + length ops)%nat in * by lia.
  apply IH; [done| |done]. apply queue_apply_inv; [done|done|lia].
Qed.

Lemma queue_reachable_inv p ops :
  policy_ok p -> Z.of_nat (length ops) <= u64_max ->
  queue_inv (length ops) p (run queue_apply (with_policy p) ops).
Proof. intros Hp Hn. apply (queue_run_inv p ops 0); [done| |done]. by apply queue_inv_empty. Qed.

(** The queue keeps its budgets.  After any history of operations the
    entries fit the capacity, their real byte estimate equals the running one
    and fits the byte budget, and no operation holds more than its share, the
    per-operation counters being exact. *)
Theorem deferred_queue_bounded p ops :
  policy_ok p -> Z.of_nat (length ops) <= u64_max ->
  let q := run queue_apply (with_policy p) ops in
  Z.of_nat (length (entries q)) <= max_entries p /\
  estimated_bytes q = total_bytes (entries q) /\ total_bytes (entries q) <= max_bytes p /\
  (forall op, default 0 (per_operation_counts q !! op) = count_op op (entries q) /\
              count_op op (entries q) <= op_budget p).
Proof.
  intros Hp Hn q. destruct (queue_reachable_inv p ops Hp Hn) as [? ? Hb ? ? ? ? ? ?]. fold q in Hb.
  split_and!; [done|done|by rewrite <- Hb|done].
Qed.

(** ** Replay order *)

Lemma insert_by_seq_end w l :
  Forall (fun x => dw_seq x <= dw_seq w) l -> insert_by_seq w l = l ++ [w].
Proof.
  induction 1 as [|x l Hx Hl IH]; simpl; [done|].
  destruct (Z.leb_spec (dw_seq x) (dw_seq w)); [by rewrite IH|lia].
Qed.

Lemma sort_by_seq_sorted l : StronglySorted Z.lt (map dw_seq l) -> sort_by_seq l = l.
Proof.
  unfold sort_by_seq. intros Hs.
  assert (forall l acc, StronglySorted Z.lt (map dw_seq (acc ++ l)) ->
    foldl (fun acc w => insert_by_seq w acc) acc l = acc ++ l) as Hf; [|by apply (Hf l [])].
  clear. induction l as [|w l IH]; intros acc Hs; simpl; [by rewrite app_nil_r|].
  rewrite insert_by_seq_end.
  - rewrite IH; rewrite <- app_assoc; done.
  - rewrite map_app in Hs. apply List.Forall_forall. intros x Hx.
    assert (dw_seq x < dw_seq w); [|lia].
    eapply (StronglySorted_app_1_elem_of Z.lt); [exact Hs| |]; [by apply list_elem_of_In, in_map|by left].
Qed.

(** The writes accepted and not yet drained, as a client that looks at the
    outcomes alone records them. *)
Definition accept (log : list DeferredWrite) (o : queue_op) (outcome : option DeferralOutcome)
    : list DeferredWrite :=
  match o, outcome with
  | QEnqueue sql params op now, Some (Queued pos) => log ++ [mkWrite pos sql params now op]
  | QDrain, _ | QReset, _ => []
  | _, _ => log
  end.

Definition outcome_of (q : DeferredQueue) (o : queue_op) : option DeferralOutcome :=
  match o with
  | QEnqueue sql params op now => Some (fst (enqueue sql params op now q))
  | _ => None
  end.

Fixpoint accepted (q : DeferredQueue) (log : list DeferredWrite) (ops : list queue_op) : list DeferredWrite :=
  match ops with
  | [] => log
  | o :: ops => accepted (queue_apply q o) (accept log o (outcome_of q o)) ops
  end.

Lemma accepted_entries p ops : forall n q,
  policy_ok p -> queue_inv n p q -> Z.of_nat (n + length ops) <= u64_max ->
  entries (run queue_apply q ops) = accepted q (entries q) ops.
Proof.
  induction ops as [|o ops IH]; intros n q Hp Hi Hn; simpl in *; [done|].
  replace (n + S (length ops))%nat with (S n + length ops)%nat in * by lia.
  rewrite (IH (S n)); [|done|apply queue_apply_inv; [done|done|lia]|done].
  f_equal. destruct o as [|sql params op now| |]; simpl; try done.
  pose proof (enqueue_cases sql params op now q) as Hc.
  rewrite (qi_policy _ _ _ Hi) in Hc. specialize (Hc ltac:(apply Hp)).
  assert (entries (if is_active q then shed q else q) = entries q) by (by destruct (is_active q)).
  destruct (enqueue sql params op now q) as [[] q']; simpl; subst; try done.
  by destruct Hc as (_ & _ & _ & _ & _ & _ & -> & ->).
Qed.

(** No accepted write is lost, duplicated or reordered.  Draining returns
    exactly the writes whose [enqueue] answered [Queued] since the last drain
    or reset, in the order in which they were accepted, each with the sequence
    number it was given; the numbers strictly increase, and the queue is then
    sealed and empty. *)
Theorem deferred_queue_fifo_replay p ops :
  policy_ok p -> Z.of_nat (length ops) <= u64_max ->
  let q := run queue_apply (with_policy p) ops in
  fst (seal_and_drain q) = accepted (with_policy p) [] ops /\
  StronglySorted Z.lt (map dw_seq (fst (seal_and_drain q))) /\
  entries (snd (seal_and_drain q)) = [] /\
  (forall sql params op now, fst (enqueue sql params op now (snd (seal_and_drain q))) = Sealed).
Proof.
  intros Hp Hn q. pose proof (queue_reachable_inv p ops Hp Hn) as Hi. fold q in Hi.
  pose proof (qi_sorted _ _ _ Hi) as Hs. simpl. rewrite (sort_by_seq_sorted _ Hs).
  split_and!; try done. unfold q.
  rewrite (accepted_entries p ops 0 (with_policy p)); [done|done|by apply queue_inv_empty|done].
Qed.

(** ** Pressure *)

(** The reported pressure is honest.  While [pressure] says [HardStop] no
    write is accepted and the queue keeps its contents, and [Critical] because
    of capacity refuses as well; a queue that reports no pressure because it is
    idle refuses with [NotRecovering]. *)
Theorem hard_stop_refuses_writes q now sql params op :
  policy_ok (q_policy q) ->
  pressure q now = HardStop \/
  max_entries (q_policy q) <= Z.of_nat (length (entries q)) \/ is_active q = false ->
  (forall pos, fst (enqueue sql params op now q) <> Queued pos) /\
  entries (snd (enqueue sql params op now q)) = entries q.
Proof.
  intros (? & [? ?] & [? Hm] & _) Hcase. pose proof (enqueue_cases sql params op now q Hm) as Hc.
  assert (entries (if is_active q then shed q else q) = entries q) as Hk by (by destruct (is_active q)).
  destruct (enqueue sql params op now q) as [[] q']; simpl; subst; try done.
  exfalso. destruct Hc as (Ha & Hs & Ho & Hb & _ & Hl & _).
  unfold is_active, pressure in Hcase. rewrite Ha, Hs in Hcase. cbn in Hcase.
  destruct Hcase as [Hcase|[?|?]]; [|lia|done].
  unfold compute_backlog_pressure, oldest_entry_age_secs in Hcase. unfold too_old in Ho.
  pose proof (estimate_nonneg sql params).
  assert (estimated_bytes q <= max_bytes (q_policy q)) as Hbq by lia.
  destruct (Z.ltb_spec (max_bytes (q_policy q)) (estimated_bytes q)); [lia|].
  destruct (entries q) as [|w l].
  - destruct (Z.ltb_spec (max_age_secs (q_policy q)) 0); [lia|]. repeat (case_match; try done).
  - set (age := Z.max (isat_sub now (deferred_at_us w)) 0) in *.
    destruct (Z.ltb_spec (usat_mul (max_age_secs (q_policy q)) 1000000) age) as [|Hage]; [done|].
    assert (age / 1000000 <= max_age_secs (q_policy q)).
    { unfold usat_mul in Hage. apply Z.div_le_upper_bound; lia. }
    destruct (Z.ltb_spec (max_age_secs (q_policy q)) (age / 1000000)); [lia|].
    repeat (case_match; try done).
Qed.

(** ** Witnesses *)

Definition small_policy : OverloadPolicy :=
  {| max_entries := 3; max_age_secs := 300; max_bytes := 1000; fairness_limit_pct := 67 |}.

(** Three operations compete for three places; the fourth write is shed. *)
Definition sample_history : list queue_op :=
  [QEnqueue (u "early") [] (u "send") 5; QActivate;
   QEnqueue (u "INSERT a") [VText (u "x")] (u "send") 10;
   QEnqueue (u "INSERT b") [VInt 1] (u "ack") 11;
   QEnqueue (u "INSERT c") [] (u "send") 12;
   QEnqueue (u "INSERT d") [] (u "register") 13].

Lemma small_policy_ok : policy_ok small_policy.
Proof. unfold policy_ok, in_u64, u64_max; simpl; lia. Qed.

Lemma deferred_queue_bounded_witness :
  let q := run queue_apply (with_policy small_policy) sample_history in
  Z.of_nat (length (entries q)) = 3 /\ Z.of_nat (length (entries q)) <= max_entries small_policy /\
  shed_count q = 1 /\ count_op (u "send") (entries q) <= 2.
Proof.
  destruct (deferred_queue_bounded small_policy sample_history) as (Hl & _ & _ & Hop);
    [apply small_policy_ok|unfold u64_max; simpl; lia|].
  split; [vm_compute; reflexivity|]. split; [exact Hl|]. split; [vm_compute; reflexivity|].
  exact (proj2 (Hop (u "send"))).
Defined.

Lemma deferred_queue_fifo_replay_witness :
  let q := run queue_apply (with_policy small_policy) sample_history in
  map dw_sql (fst (seal_and_drain q)) = [u "INSERT a"; u "INSERT b"; u "INSERT c"] /\
  fst (seal_and_drain q) = accepted (with_policy small_policy) [] sample_history.
Proof.
  intros q. split; [vm_compute; reflexivity|].
  refine (proj1 (deferred_queue_fifo_replay small_policy sample_history _ _)).
  - apply small_policy_ok.
  - unfold u64_max; simpl; lia.
Defined.

Lemma hard_stop_refuses_writes_witness :
  let q := run queue_apply (with_policy small_policy) sample_history in
  pressure q 400000000 = HardStop /\
  fst (enqueue (u "INSERT e") [] (u "ack") 400000000 q) = HardStopAge 399 300 /\
  forall pos, fst (enqueue (u "INSERT e") [] (u "ack") 400000000 q) <> Queued pos.
Proof.
  intros q. split; [vm_compute; reflexivity|]. split; [vm_compute; reflexivity|].
  refine (proj1 (hard_stop_refuses_writes q 400000000 (u "INSERT e") [] (u "ack") _ _)).
  - apply small_policy_ok.
  - left. vm_compute; reflexivity.
Defined.
