(* ===== verification/Pattern.v ===== *)
(** * File-reservation patterns ([core/src/pattern_overlap.rs])

    Normalisation, compilation and overlap of reservation patterns, and the
    thread-local cache of compiled patterns.  The target is Linux, so every
    [cfg!(any(target_os = "macos", target_os = "windows"))] is [false].

    [globset] is third-party code: its builder and matcher are the class
    [GlobEngine], and what the overlap test relies on is [GlobLaws]. *)

From S2P Require Import Prelude.
From S2P Require Import RustStr.
From S2P Require Import SeqOverlap.

Definition slash : N := 47.
Definition backslash : N := 92.
Definition is_slash (c : N) : bool := (c =? slash)%N.
Definition is_separator (c : N) : bool := (c =? slash)%N || (c =? backslash)%N.

(** ** Normalisation *)

(** @src core/src/pattern_overlap.rs:57-67 normalize_pattern
    -- one iteration of the component loop on [parts] (kept in order). *)
Definition push_component (parts : list ustr) (component : ustr) : list ustr :=
  if ustr_eqb component [] || ustr_eqb component (u ".") then parts
  else if ustr_eqb component (u "..") then removelast parts
  else parts ++ [component].

(** @src core/src/pattern_overlap.rs:54-69 normalize_pattern *)
Definition normalize_parts (pattern : ustr) : list ustr :=
  foldl push_component [] (split_on is_separator (trim pattern)).

(** @src core/src/pattern_overlap.rs:54-69 normalize_pattern *)
Definition normalize_pattern (pattern : ustr) : ustr := join [slash] (normalize_parts pattern).

(** A component of a normalised pattern. *)
Definition good_component (w : ustr) : Prop :=
  w <> [] /\ w <> u "." /\ w <> u ".." /\ forallb (fun c => negb (is_separator c)) w = true.

Lemma removelast_Forall {A} (P : A -> Prop) l : Forall P l -> Forall P (removelast l).
Proof.
  induction 1 as [|x l Hx Hl IH]; simpl; [constructor|]. destruct l; [constructor|]. by constructor.
Qed.

Lemma push_component_good parts w :
  forallb (fun c => negb (is_separator c)) w = true ->
  Forall good_component parts -> Forall good_component (push_component parts w).
Proof.
  intros Hw Hp. unfold push_component.
  destruct (ustr_eqb w []) eqn:E1; simpl; [done|].
  destruct (ustr_eqb w (u ".")) eqn:E2; simpl; [done|].
  destruct (ustr_eqb w (u "..")) eqn:E3; [by apply removelast_Forall|].
  apply ustr_eqb_neq in E1, E2, E3.
  apply Forall_app. split; [done|]. constructor; [done|constructor].
Qed.

Lemma normalize_parts_good pattern : Forall good_component (normalize_parts pattern).
Proof.
  unfold normalize_parts.
  assert (forall ws parts, (forall w, In w ws -> forallb (fun c => negb (is_separator c)) w = true) ->
    Forall good_component parts -> Forall good_component (foldl push_component parts ws)) as H.
  { induction ws as [|w ws IH]; intros parts Hws Hp; simpl; [done|].
    apply IH; [intros; apply Hws; by right|]. apply push_component_good; [|done]. apply Hws. by left. }
  apply H; [|constructor]. intros w. apply split_on_pieces.
Qed.

Lemma good_no_slash w : good_component w -> forallb (fun c => negb (is_slash c)) w = true.
Proof.
  intros (_ & _ & _ & H). revert H. induction w as [|c w IH]; simpl; [done|].
  unfold is_separator, is_slash in *. destruct (c =? slash)%N; simpl; [done|].
  intros [_ ?]%andb_true_iff. auto.
Qed.

(** The segments of a string, as [norm.split('/')]. *)
Definition segs (s : ustr) : list ustr := split_on is_slash s.

Lemma segs_normalize pattern :
  segs (normalize_pattern pattern) =
  match normalize_parts pattern with [] => [[]] | ps => ps end.
Proof.
  unfold normalize_pattern, segs. pose proof (normalize_parts_good pattern) as Hg.
  destruct (normalize_parts pattern) as [|p ps]; [done|].
  apply split_on_join; [done|done|]. by eapply List.Forall_impl; [apply good_no_slash|].
Qed.

Lemma segs_inj s t : segs s = segs t -> s = t.
Proof.
  assert (forall s, segs s = split_on (N.eqb slash) s) as Hs.
  { intros s'. unfold segs. induction s' as [|c s' IH]; simpl; [done|].
    rewrite IH. change (is_slash c) with (c =? slash)%N. by rewrite N.eqb_sym. }
  rewrite !Hs. intros H. by rewrite <- (join_split_on slash s), H, join_split_on.
Qed.

Lemma foldl_push_good ws : forall parts,
  Forall good_component ws -> foldl push_component parts ws = parts ++ ws.
Proof.
  induction ws as [|w ws IH]; intros parts Hg; simpl; [by rewrite app_nil_r|].
  inversion Hg as [|? ? (H1 & H2 & H3 & _) Hws]; subst.
  unfold push_component.
  rewrite (proj2 (ustr_eqb_neq _ _) H1), (proj2 (ustr_eqb_neq _ _) H2),
    (proj2 (ustr_eqb_neq _ _) H3). simpl. rewrite IH by done. by rewrite <- app_assoc.
Qed.

(** Normalising the join of good components gives it back, when the whole
    string carries no outer white space. *)
Lemma normalize_pattern_fixed ps :
  Forall good_component ps -> trimmed (join [slash] ps) ->
  normalize_pattern (join [slash] ps) = join [slash] ps.
Proof.
  intros Hg Ht. unfold normalize_pattern, normalize_parts. rewrite trim_trimmed by done.
  destruct ps as [|p ps]; [done|].
  rewrite split_on_join; [by rewrite foldl_push_good|done|done|].
  eapply List.Forall_impl; [|exact Hg]. by intros w (_ & _ & _ & ?).
Qed.

(** ** The glob engine *)

Class GlobEngine := {
  GlobMatcher : Type;
  (** [GlobBuilder::new(p).literal_separator(true).case_insensitive(false)
      .build().ok().map(|g| g.compile_matcher())] *)
  glob_compile : ustr -> option GlobMatcher;
  is_match : GlobMatcher -> ustr -> bool;
}.

(** ** Segment globs *)

(** @src core/src/pattern_overlap.rs:128-133 SimpleGlobToken *)
Inductive SimpleGlobToken :=
| TokLiteral (c : N)
| AnyChar
| AnyString.

#[export] Instance SimpleGlobToken_eq_dec : EqDecision SimpleGlobToken.
Proof. solve_decision. Defined.

(** @src core/src/pattern_overlap.rs:135-141 fold_ascii_case *)
Definition fold_ascii_case (c : N) : N := c.

(** @src core/src/pattern_overlap.rs:145-156 parse_simple_glob_tokens
    -- the body of the character loop. *)
Definition push_token (tokens : list SimpleGlobToken) (c : N) : option (list SimpleGlobToken) :=
  if (c =? ch "*")%N then
    Some (if bool_decide (last tokens = Some AnyString) then tokens else tokens ++ [AnyString])
  else if (c =? ch "?")%N then Some (tokens ++ [AnyChar])
  else if (c =? ch "[")%N || (c =? ch "]")%N || (c =? ch "{")%N || (c =? ch "}")%N then None
  else Some (tokens ++ [TokLiteral (fold_ascii_case c)]).

(** @src core/src/pattern_overlap.rs:143-158 parse_simple_glob_tokens *)
Fixpoint parse_tokens_from (tokens : list SimpleGlobToken) (segment : ustr)
    : option (list SimpleGlobToken) :=
  match segment with
  | [] => Some tokens
  | c :: segment => tokens' ← push_token tokens c; parse_tokens_from tokens' segment
  end.

(** @src core/src/pattern_overlap.rs:143-158 parse_simple_glob_tokens *)
Definition parse_simple_glob_tokens (segment : ustr) : option (list SimpleGlobToken) :=
  parse_tokens_from [] segment.

Definition tok_is_repeat (t : SimpleGlobToken) : bool := bool_decide (t = AnyString).

Definition tok_compatible (a b : SimpleGlobToken) : bool :=
  match a, b with
  | TokLiteral a, TokLiteral b => (a =? b)%N
  | _, _ => true
  end.

(** @src core/src/pattern_overlap.rs:236-246 simple_glob_tokens_overlap *)
Definition simple_glob_tokens_overlap (l r : list SimpleGlobToken) : bool :=
  sequence_patterns_overlap tok_is_repeat tok_compatible l r.

(** @src core/src/pattern_overlap.rs:248-252 simple_glob_patterns_overlap *)
Definition simple_glob_patterns_overlap (l r : ustr) : option bool :=
  l_tokens ← parse_simple_glob_tokens l;
  r_tokens ← parse_simple_glob_tokens r;
  Some (simple_glob_tokens_overlap l_tokens r_tokens).

Definition is_glob_meta_byte (b : N) : bool :=
  (b =? ch "*")%N || (b =? ch "?")%N || (b =? ch "[")%N || (b =? ch "{")%N.

(** @src core/src/pattern_overlap.rs:254-258 has_glob_meta *)
Definition has_glob_meta (s : ustr) : bool := existsb is_glob_meta_byte (utf8 s).

(** @src core/src/pattern_overlap.rs:260-268 first_literal_segment_end
    -- the index counts scalars instead of bytes; it is only used to slice. *)
Definition first_literal_segment_end (norm : ustr) : option nat :=
  let seg_end := default (length norm) (position is_slash norm) in
  let seg := take seg_end norm in
  if is_empty seg || has_glob_meta seg then None else Some seg_end.

(** @src core/src/pattern_overlap.rs:270-289 is_directory_prefix
    -- on bytes, as in the source. *)
Definition is_directory_prefix (prefix full : ustr) : bool :=
  if is_empty prefix then true
  else
    let n := utf8_len prefix in
    if (utf8_len full <? n)%nat then false
    else bool_decide (take n (utf8 full) = utf8 prefix)
         && match utf8 full !! n with Some b => (b =? slash)%N | None => false end.

Section Compiled.
  Context {GE : GlobEngine}.

(** ** Compiled patterns *)

(** @src core/src/pattern_overlap.rs:80-85 PatternSegment *)
Inductive PatternSegment :=
| SegLiteral (l : ustr)
| SegGlob (raw : ustr) (matcher : GlobMatcher)
| SegRecursive.

(** @src core/src/pattern_overlap.rs:71-78 CompiledPattern *)
Record CompiledPattern := mkCompiled {
  cp_norm : ustr;
  cp_matcher : option GlobMatcher;
  cp_is_glob : bool;
  cp_first_literal_segment_end : option nat;
  cp_segments : list PatternSegment;
}.

(** @src core/src/pattern_overlap.rs:102-125 PatternSegment::overlaps *)
Definition segment_overlaps (s t : PatternSegment) : bool :=
  match s, t with
  | SegLiteral l1, SegLiteral l2 => ustr_eqb l1 l2
  | SegGlob _ m, SegLiteral l => is_match m l
  | SegLiteral l, SegGlob _ m => is_match m l
  | SegGlob raw1 _, SegGlob raw2 _ => default true (simple_glob_patterns_overlap raw1 raw2)
  | SegRecursive, _ | _, SegRecursive => true
  end.

(** @src core/src/pattern_overlap.rs:317-333 CompiledPattern::new
    -- the closure mapping one [/]-separated piece to a segment. *)
Definition compile_segment (s : ustr) : PatternSegment :=
  if ustr_eqb s (u "**") then SegRecursive
  else if has_glob_meta s then
    match glob_compile s with
    | None => SegLiteral s
    | Some m => SegGlob s m
    end
  else SegLiteral s.

(** @src core/src/pattern_overlap.rs:293-345 CompiledPattern::new *)
Definition compiled_new (raw : ustr) : CompiledPattern :=
  let norm := normalize_pattern raw in
  let is_glob := has_glob_meta norm in
  {| cp_norm := norm;
     cp_matcher := if is_glob then glob_compile norm else None;
     cp_is_glob := is_glob;
     cp_first_literal_segment_end := first_literal_segment_end norm;
     cp_segments := map compile_segment (split_on is_slash norm) |}.

(** @src core/src/pattern_overlap.rs:365-372 CompiledPattern::is_matchable *)
Definition is_matchable (p : CompiledPattern) : bool :=
  negb (cp_is_glob p) || bool_decide (is_Some (cp_matcher p)).

(** @src core/src/pattern_overlap.rs:374-380 CompiledPattern::first_literal_segment *)
Definition first_literal_segment (p : CompiledPattern) : option ustr :=
  e ← cp_first_literal_segment_end p; Some (take e (cp_norm p)).

(** @src core/src/pattern_overlap.rs:382-389 CompiledPattern::matches *)
Definition cp_matches (p : CompiledPattern) (path : ustr) : bool :=
  match cp_matcher p with Some m => is_match m path | None => false end
  || (negb (cp_is_glob p) && ustr_eqb (cp_norm p) path).

Definition is_recursive (s : PatternSegment) : bool :=
  match s with SegRecursive => true | _ => false end.

(** @src core/src/pattern_overlap.rs:467-474 segments_overlap *)
Definition segments_overlap (s1 s2 : list PatternSegment) : bool :=
  sequence_patterns_overlap is_recursive segment_overlaps s1 s2.

(** @src core/src/pattern_overlap.rs:421-430 CompiledPattern::overlaps
    -- "[a]'s matcher matches the other pattern's own string". *)
Definition matcher_covers (a other : CompiledPattern) : bool :=
  match cp_matcher a with
  | Some m =>
      (negb (cp_is_glob other) || bool_decide (is_Some (cp_matcher other)))
      && is_match m (cp_norm other)
  | None => false
  end.

(** @src core/src/pattern_overlap.rs:397-458 CompiledPattern::overlaps *)
Definition overlaps (self other : CompiledPattern) : bool :=
  if ustr_eqb (cp_norm self) (cp_norm other) then true
  else if negb (cp_is_glob self) && is_directory_prefix (cp_norm self) (cp_norm other) then true
  else if negb (cp_is_glob other) && is_directory_prefix (cp_norm other) (cp_norm self) then true
  else if matcher_covers self other then true
  else if matcher_covers other self then true
  else if (cp_is_glob self && negb (bool_decide (is_Some (cp_matcher self))))
          || (cp_is_glob other && negb (bool_decide (is_Some (cp_matcher other)))) then false
  else
    let mismatch :=
      match cp_first_literal_segment_end self, cp_first_literal_segment_end other with
      | Some e1, Some e2 => negb (ustr_eqb (take e1 (cp_norm self)) (take e2 (cp_norm other)))
      | _, _ => false
      end in
    if mismatch then false
    else segments_overlap (cp_segments self) (cp_segments other).
End Compiled.
