(* ===== verification/PatternTheory.v ===== *)
(** * Facts about reservation patterns

    The lemmas the pattern properties and the reservation index use: the
    byte-level tests read on scalars, the first segment of a compiled pattern,
    symmetry of the overlap test, what the glob engine must guarantee, and a
    concrete engine for the witnesses. *)

From S2P Require Import Prelude.
From S2P Require Import RustStr.
From S2P Require Import SeqOverlap.
From S2P Require Import Pattern.

(** ** Byte tests on scalars *)

Lemma has_glob_meta_scalars s : has_glob_meta s = existsb is_glob_meta_byte s.
Proof.
  assert (forall b, is_glob_meta_byte b = true -> (b < 128)%N) as Hb.
  { intros b. unfold is_glob_meta_byte, ch. simpl.
    repeat (intros [H|H]%orb_true_iff; [revert H|apply N.eqb_eq in H; lia]).
    intros H%N.eqb_eq. lia. }
  apply eq_true_iff_eq. unfold has_glob_meta. rewrite !existsb_exists.
  split; intros (b & Hin & Hm); exists b; (split; [|done]);
    apply (utf8_ascii_byte s b (Hb b Hm)); done.
Qed.

Lemma has_glob_meta_app s t : has_glob_meta (s ++ t) = has_glob_meta s || has_glob_meta t.
Proof. rewrite !has_glob_meta_scalars. apply existsb_app. Qed.

(** The byte slice comparison is "[full] extends [prefix] by a slash". *)
Lemma is_directory_prefix_spec prefix full :
  is_directory_prefix prefix full = true <->
  prefix = [] \/ exists rest, full = prefix ++ slash :: rest.
Proof.
  unfold is_directory_prefix. destruct prefix as [|c p]; simpl is_empty; cbn iota.
  { split; auto. }
  set (pre := c :: p). unfold utf8_len.
  destruct (length (utf8 full) <? length (utf8 pre))%nat eqn:El.
  - apply Nat.ltb_lt in El. split; [done|]. intros [?|(rest & ->)]; [done|].
    rewrite utf8_app, length_app in El. lia.
  - apply Nat.ltb_ge in El. rewrite andb_true_iff, bool_decide_eq_true. split.
    + intros [Ht Hb]. right. destruct (utf8 full !! length (utf8 pre)) as [b|] eqn:Eb; [|done].
      apply N.eqb_eq in Hb as ->.
      assert (utf8 full = utf8 pre ++ drop (length (utf8 pre)) (utf8 full)) as E
        by (rewrite <- Ht at 1; by rewrite take_drop).
      destruct (utf8_prefix_app _ _ _ E) as (r & -> & Hr).
      rewrite utf8_app, lookup_app_r, Nat.sub_diag in Eb by lia.
      destruct r as [|d r]; [done|]. exists r. do 2 f_equal.
      destruct (utf8_char_inj d slash (utf8 r) (drop 1 (utf8 (d :: r)))) as [-> _]; [|done].
      change (utf8_char slash) with [slash]. simpl in *.
      destruct (utf8_char d ++ utf8 r); simpl in *; [done|]. by inversion Eb.
    + intros [?|(rest & ->)]; [done|]. rewrite utf8_app, take_app_length. split; [done|].
      rewrite lookup_app_r, Nat.sub_diag by lia. done.
Qed.

(** ** First segments *)

Definition first_seg (s : ustr) : ustr := take_while (fun c => negb (is_slash c)) s.

Lemma take_position s : take (default (length s) (position is_slash s)) s = first_seg s.
Proof.
  unfold first_seg. induction s as [|c s IH]; simpl; [done|].
  destruct (is_slash c); simpl; [done|].
  destruct (position is_slash s); simpl in *; by rewrite IH.
Qed.

Lemma segs_head s : exists ws, segs s = first_seg s :: ws.
Proof.
  unfold segs, first_seg. induction s as [|c s [ws IH]]; simpl; [by exists []|].
  destruct (is_slash c); simpl; [eauto|]. rewrite IH. eauto.
Qed.

Lemma first_seg_app_slash s r : first_seg (s ++ slash :: r) = first_seg s.
Proof.
  unfold first_seg. induction s as [|c s IH]; simpl; [done|].
  destruct (is_slash c); simpl; congruence.
Qed.

Lemma first_seg_split s : s = first_seg s \/ exists r, s = first_seg s ++ slash :: r.
Proof.
  unfold first_seg. induction s as [|c s IH]; simpl; [by left|].
  destruct (is_slash c) eqn:E; simpl.
  - right. exists s. unfold is_slash in E. apply N.eqb_eq in E as ->. done.
  - destruct IH as [IH|[r IH]]; [left|right; exists r]; congruence.
Qed.

Section facts.
  Context {GE : GlobEngine}.

Lemma first_literal_segment_new raw seg :
  first_literal_segment (compiled_new raw) = Some seg <->
  seg = first_seg (cp_norm (compiled_new raw)) /\ seg <> [] /\ has_glob_meta seg = false.
Proof.
  unfold first_literal_segment, compiled_new, first_literal_segment_end. simpl.
  rewrite take_position. set (s := first_seg _).
  destruct (is_empty s) eqn:E1; simpl.
  { split; [done|]. intros (-> & Hne & _). by destruct s. }
  destruct (has_glob_meta s) eqn:E2; simpl.
  { split; [done|]. intros (-> & _ & Hg). congruence. }
  rewrite take_position. fold s. split.
  - intros [= <-]. split; [done|]. split; [|done]. intros ->. done.
  - intros (-> & _). done.
Qed.

Lemma first_literal_segment_end_new raw :
  cp_first_literal_segment_end (compiled_new raw) = None <->
  first_literal_segment (compiled_new raw) = None.
Proof. unfold first_literal_segment. destruct (cp_first_literal_segment_end _); by simpl. Qed.

(** ** Symmetry *)

Lemma simple_glob_patterns_overlap_sym l r :
  simple_glob_patterns_overlap l r = simple_glob_patterns_overlap r l.
Proof.
  unfold simple_glob_patterns_overlap.
  destruct (parse_simple_glob_tokens l), (parse_simple_glob_tokens r); simpl; try done.
  f_equal. apply sequence_patterns_overlap_sym.
  intros [] []; simpl; try done. apply N.eqb_sym.
Qed.

Lemma segment_overlaps_sym s t : segment_overlaps s t = segment_overlaps t s.
Proof.
  destruct s, t; simpl; try done; [apply ustr_eqb_sym|].
  by rewrite simple_glob_patterns_overlap_sym.
Qed.

Lemma overlaps_spec (a b : CompiledPattern) :
  overlaps a b =
  ustr_eqb (cp_norm a) (cp_norm b)
  || (negb (cp_is_glob a) && is_directory_prefix (cp_norm a) (cp_norm b))
  || (negb (cp_is_glob b) && is_directory_prefix (cp_norm b) (cp_norm a))
  || matcher_covers a b || matcher_covers b a
  || (is_matchable a && is_matchable b
      && match first_literal_segment a, first_literal_segment b with
         | Some s, Some t => ustr_eqb s t
         | _, _ => true
         end
      && segments_overlap (cp_segments a) (cp_segments b)).
Proof.
  unfold overlaps.
  destruct (ustr_eqb _ _); [done|]. cbn [orb].
  destruct (negb (cp_is_glob a) && _); [done|]. cbn [orb].
  destruct (negb (cp_is_glob b) && _); [done|]. cbn [orb].
  destruct (matcher_covers a b); [done|]. destruct (matcher_covers b a); [done|]. cbn [orb].
  unfold is_matchable, first_literal_segment.
  destruct (cp_is_glob a), (cp_is_glob b), (bool_decide (is_Some (cp_matcher a))),
    (bool_decide (is_Some (cp_matcher b))); simpl; try done;
  destruct (cp_first_literal_segment_end a), (cp_first_literal_segment_end b); simpl; try done;
  by destruct (ustr_eqb _ _).
Qed.

Lemma overlaps_comm a b : overlaps a b = overlaps b a.
Proof.
  rewrite !overlaps_spec. unfold segments_overlap.
  rewrite (sequence_patterns_overlap_sym _ _ segment_overlaps_sym (cp_segments a)).
  rewrite (ustr_eqb_sym (cp_norm a)).
  assert (match first_literal_segment a, first_literal_segment b with
          | Some s, Some t => ustr_eqb s t | _, _ => true end =
          match first_literal_segment b, first_literal_segment a with
          | Some s, Some t => ustr_eqb s t | _, _ => true end) as ->.
  { destruct (first_literal_segment a), (first_literal_segment b); try done. apply ustr_eqb_sym. }
  rewrite (andb_comm (is_matchable a)).
  set (d1 := negb (cp_is_glob a) && _). set (d2 := negb (cp_is_glob b) && _).
  destruct (ustr_eqb _ _), d1, d2, (matcher_covers a b), (matcher_covers b a); done.
Qed.

(** ** What the engine guarantees *)

Definition simple_char (c : N) : bool :=
  negb ((c =? ch "[")%N || (c =? ch "]")%N || (c =? ch "{")%N || (c =? ch "}")%N
        || (c =? backslash)%N).

(** Only [*], [**] and [?] are special in the pattern. *)
Definition simple (p : ustr) : bool := forallb simple_char p.

Definition ascii_path (p : ustr) : Prop := Forall (fun c => (c < 128)%N) p.

(** What one simple segment accepts, by its tokens. *)
Definition tok_accepts (t : SimpleGlobToken) (c : N) : bool :=
  match t with TokLiteral d => (c =? d)%N | _ => true end.

Definition seg_accepts (w x : ustr) : bool :=
  match parse_simple_glob_tokens w with
  | Some tokens => matchesb tok_is_repeat tok_accepts tokens x
  | None => false
  end.

Definition seg_is_repeat (w : ustr) : bool := ustr_eqb w (u "**").

(** The documented matching of a simple glob: segment by segment, [**]
    absorbing any number of segments. *)
Definition simple_match (p path : ustr) : bool :=
  matchesb seg_is_repeat seg_accepts (segs p) (segs path).

Class GlobLaws := {
  (** A glob without escapes whose first segment is literal only matches
      paths whose first segment is that literal. *)
  glob_first_segment p m path :
    forallb (fun c => negb (c =? backslash)%N) p = true ->
    glob_compile p = Some m -> is_match m path = true ->
    first_seg p <> [] -> has_glob_meta (first_seg p) = false ->
    first_seg path = first_seg p;
  (** A simple glob matches an ASCII path only if it does so segment by
      segment. *)
  glob_simple_sound p m path :
    simple p = true -> ascii_path path ->
    glob_compile p = Some m -> is_match m path = true -> simple_match p path = true;
  (** A simple glob of one segment compiles, and matches whatever its tokens
      match. *)
  glob_simple_segment w x :
    simple w = true -> forallb (fun c => negb (is_slash c)) w = true -> ascii_path x ->
    forallb (fun c => negb (is_slash c)) x = true ->
    exists m, glob_compile w = Some m /\ (seg_accepts w x = true -> is_match m x = true);
}.
End facts.
