(* ===== verification/GlobSimple.v ===== *)
(** * A concrete glob engine

    An engine for patterns whose only metacharacters are [*], [**] and [?],
    on which the laws of [GlobLaws] hold.  It instantiates the parameter in
    the witnesses and shows that the laws are satisfiable. *)

From S2P Require Import Prelude.
From S2P Require Import RustStr.
From S2P Require Import SeqOverlap.
From S2P Require Import Pattern.
From S2P Require Import PatternTheory.

#[local] Instance simple_engine : GlobEngine := {
  GlobMatcher := ustr;
  glob_compile p := if simple p then Some p else None;
  is_match p path := simple_match p path;
}.

Lemma parse_tokens_from_literal w : forall tokens,
  simple w = true -> existsb is_glob_meta_byte w = false ->
  parse_tokens_from tokens w = Some (tokens ++ map TokLiteral w).
Proof.
  induction w as [|c w IH]; intros tokens; simpl; [by rewrite app_nil_r|].
  intros [Hc Hw]%andb_true_iff [Hm Hm']%orb_false_iff.
  unfold push_token, simple_char, is_glob_meta_byte in *.
  apply negb_true_iff in Hc. apply orb_false_iff in Hc as [Hc _].
  apply orb_false_iff in Hm as [Hm _], Hm as [Hm _].
  apply orb_false_iff in Hm as [H1 H2].
  rewrite H1, H2, Hc. simpl. rewrite IH by done. by rewrite <- app_assoc.
Qed.

Lemma matchesb_literal w x :
  matchesb tok_is_repeat tok_accepts (map TokLiteral w) x = true -> x = w.
Proof.
  revert x; induction w as [|c w IH]; intros [|d x]; simpl; try done.
  intros [->%N.eqb_eq Hx]%andb_true_iff. f_equal. auto.
Qed.

Lemma seg_accepts_literal w x :
  simple w = true -> has_glob_meta w = false -> seg_accepts w x = true -> x = w.
Proof.
  intros Hs Hm. unfold seg_accepts, parse_simple_glob_tokens.
  rewrite has_glob_meta_scalars in Hm. rewrite parse_tokens_from_literal by done.
  apply matchesb_literal.
Qed.

Lemma simple_first_seg p : simple p = true -> simple (first_seg p) = true.
Proof.
  unfold first_seg, simple. induction p as [|c p IH]; simpl; [done|].
  intros [Hc Hp]%andb_true_iff. destruct (is_slash c); simpl; [done|]. by rewrite Hc, IH.
Qed.

Lemma simple_match_first_seg p path :
  simple p = true -> first_seg p <> [] -> has_glob_meta (first_seg p) = false ->
  simple_match p path = true -> first_seg path = first_seg p.
Proof.
  intros Hs Hne Hm. unfold simple_match.
  destruct (segs_head p) as [ws ->], (segs_head path) as [xs ->].
  rewrite matchesb_item.
  - intros [Ha _]%andb_true_iff. apply seg_accepts_literal; [|done|done]. by apply simple_first_seg.
  - apply ustr_eqb_neq. intros E. rewrite E in Hm. done.
Qed.

Lemma simple_match_one w x :
  forallb (fun c => negb (is_slash c)) w = true ->
  forallb (fun c => negb (is_slash c)) x = true ->
  seg_accepts w x = true -> simple_match w x = true.
Proof.
  intros Hw Hx Ha. unfold simple_match, segs. rewrite !split_on_no_sep by done.
  destruct (seg_is_repeat w) eqn:E.
  - by rewrite !matchesb_repeat.
  - rewrite matchesb_item by done. by rewrite Ha.
Qed.

#[local] Instance simple_laws : GlobLaws.
Proof.
  split.
  - simpl. intros p m path _ Hc Hm. destruct (simple p) eqn:Hs; [|done]. simplify_eq.
    intros. by apply simple_match_first_seg.
  - simpl. intros p m path Hs _. rewrite Hs. by intros [= <-].
  - simpl. intros w x Hs Hw _ Hx. rewrite Hs. eexists. split; [done|]. by apply simple_match_one.
Qed.
