(* ===== verification/PatternProps.v ===== *)
(** * Properties of reservation patterns *)

From S2P Require Import Prelude.
From S2P Require Import RustStr.
From S2P Require Import SeqOverlap.
From S2P Require Import Pattern.
From S2P Require Import PatternTheory.
From S2P Require Import GlobSimple.

Lemma ascii_slice p q : ascii_path (p ++ q) -> ascii_path p /\ ascii_path q.
Proof. apply Forall_app. Qed.

Lemma segs_ascii s x : ascii_path s -> In x (segs s) -> ascii_path x.
Proof.
  revert x; induction s as [|c s IH]; intros x Hs; unfold segs in *; simpl.
  - intros [<-|[]]. constructor.
  - inversion Hs as [|? ? Hc Hs']; subst. destruct (is_slash c).
    + intros [<-|Hin]; [constructor|auto].
    + destruct (split_on is_slash s) as [|w ws]; simpl in *.
      * intros [<-|[]]. by repeat constructor.
      * intros [<-|Hin]; [|by apply IH; [|right]]. constructor; [done|]. by apply IH; [|left].
Qed.

Lemma segs_simple s w : simple s = true -> In w (segs s) -> simple w = true.
Proof.
  revert w; induction s as [|c s IH]; intros w; unfold segs, simple in *; simpl.
  - by intros _ [<-|[]].
  - intros [Hc Hs]%andb_true_iff. destruct (is_slash c).
    + intros [<-|Hin]; auto.
    + destruct (split_on is_slash s) as [|v vs]; simpl in *.
      * intros [<-|[]]. simpl. by rewrite Hc.
      * intros [<-|Hin]; [|auto]. simpl. rewrite Hc. simpl. auto.
Qed.

Section props.
  Context {GE : GlobEngine} {GL : GlobLaws}.

  (** A path covered by a pattern, as enforcement reads it. *)
Definition covers (p : CompiledPattern) (path : ustr) : Prop := cp_matches p path = true.

  (** What a compiled segment accepts, on a path segment of a fixed path. *)
Definition compiled_accepts (s : PatternSegment) (x : ustr) : Prop :=
    ascii_path x /\ forallb (fun c => negb (is_slash c)) x = true /\
    match s with
    | SegLiteral l => x = l
    | SegGlob raw m =>
        glob_compile raw = Some m /\ simple raw = true /\
        forallb (fun c => negb (is_slash c)) raw = true /\ seg_accepts raw x = true
    | SegRecursive => False
    end.

Lemma tok_compatible_common a b c :
    tok_accepts a c = true -> tok_accepts b c = true -> tok_compatible a b = true.
  Proof.
    destruct a, b; simpl; try done. intros ->%N.eqb_eq ->%N.eqb_eq. apply N.eqb_refl.
  Qed.

Lemma segment_overlaps_common s t x :
    compiled_accepts s x -> compiled_accepts t x -> segment_overlaps s t = true.
  Proof.
    intros (Hx & Hs & H1) (_ & _ & H2). destruct s as [l1|r1 m1|], t as [l2|r2 m2|]; try done; simpl.
    - subst. apply ustr_eqb_refl.
    - subst. destruct H2 as (Hc & Hsi & Hsl & Ha).
      destruct (glob_simple_segment r2 l1) as (m & Hm & Hmatch); auto. simplify_eq. auto.
    - subst. destruct H1 as (Hc & Hsi & Hsl & Ha).
      destruct (glob_simple_segment r1 l2) as (m & Hm & Hmatch); auto. simplify_eq. auto.
    - destruct H1 as (_ & _ & _ & Ha1), H2 as (_ & _ & _ & Ha2).
      unfold seg_accepts in *. unfold simple_glob_patterns_overlap.
      destruct (parse_simple_glob_tokens r1) as [t1|]; [|done].
      destruct (parse_simple_glob_tokens r2) as [t2|]; [|done]. simpl.
      unfold simple_glob_tokens_overlap. rewrite sequence_patterns_overlap_ovl.
      + eapply ovl_complete; [apply tok_compatible_common|done|by apply matchesb_matches..].
      + intros [] []; simpl; try done. apply N.eqb_sym.
  Qed.

  (** A segment-wise match of the pattern's text is one of its compiled
      segments. *)
Lemma compiled_matches ws xs :
    (forall w, In w ws -> simple w = true /\ forallb (fun c => negb (is_slash c)) w = true) ->
    (forall x, In x xs -> ascii_path x /\ forallb (fun c => negb (is_slash c)) x = true) ->
    matches seg_is_repeat (fun w x => seg_accepts w x = true) ws xs ->
    matches is_recursive compiled_accepts (map compile_segment ws) xs.
  Proof.
    intros Hws Hxs Hm.
    induction Hm as [|w x ws xs Hr Ha Hm IH|w ws xs Hr Hm IH|w x ws xs Hr Hm IH]; simpl.
    - constructor.
    - destruct (Hws w) as [Hsw Hnw]; [by left|]. destruct (Hxs x) as [Hax Hnx]; [by left|].
      unfold compile_segment, seg_is_repeat in *. rewrite Hr.
      assert (compiled_accepts (if has_glob_meta w then
         match glob_compile w with None => SegLiteral w | Some m => SegGlob w m end
         else SegLiteral w) x) as Hacc.
      { destruct (has_glob_meta w) eqn:Eg; [|split_and!; [done..|by apply seg_accepts_literal]].
        destruct (glob_simple_segment w x) as (m & Hc & _); [done..|]. rewrite Hc.
        unfold compiled_accepts. split_and!; done. }
      apply m_item; [|done|].
      + destruct (has_glob_meta w); [|done]. by destruct (glob_compile w).
      + apply IH; intros; [apply Hws|apply Hxs]; by right.
    - unfold compile_segment, seg_is_repeat in *. rewrite Hr. apply m_skip; [done|].
      apply IH; intros; [apply Hws; by right|by apply Hxs].
    - unfold seg_is_repeat in *. simpl in IH. unfold compile_segment in IH at 1. rewrite Hr in IH.
      unfold compile_segment at 1. rewrite Hr. apply m_more; [done|].
      apply IH; intros; [by apply Hws|apply Hxs; by right].
  Qed.

Lemma simple_match_compiled raw path :
    simple (normalize_pattern raw) = true -> ascii_path path ->
    simple_match (normalize_pattern raw) path = true ->
    matches is_recursive compiled_accepts (cp_segments (compiled_new raw)) (segs path).
  Proof.
    intros Hs Ha Hm. apply compiled_matches.
    - intros w Hin. split; [by eapply segs_simple|]. by eapply split_on_pieces.
    - intros x Hin. split; [by eapply segs_ascii|]. by eapply split_on_pieces.
    - by apply matchesb_matches.
  Qed.

Lemma simple_no_backslash p :
    simple p = true -> forallb (fun c => negb (c =? backslash)%N) p = true.
  Proof.
    unfold simple, simple_char. rewrite !forallb_forall. intros Hall c Hc.
    specialize (Hall c Hc). apply negb_true_iff in Hall. apply orb_false_iff in Hall as [_ ->]. done.
  Qed.

  (** The first literal segments of two patterns covering one path agree. *)
Lemma covers_first_literal raw path seg :
    simple (normalize_pattern raw) = true ->
    covers (compiled_new raw) path ->
    first_literal_segment (compiled_new raw) = Some seg -> first_seg path = seg.
  Proof.
    intros Hs Hc (-> & Hne & Hg)%first_literal_segment_new.
    unfold covers, cp_matches in Hc. apply orb_true_iff in Hc as [Hc|Hc].
    - destruct (cp_matcher (compiled_new raw)) as [m|] eqn:Em; [|done]. simpl in *.
      destruct (has_glob_meta (normalize_pattern raw)); [|done].
      eapply glob_first_segment; eauto. by apply simple_no_backslash.
    - apply andb_true_iff in Hc as [_ Hc%ustr_eqb_eq]. by rewrite Hc.
  Qed.

  (** The matching of one pattern's own string by a covering glob. *)
Lemma covers_matchable raw path : covers (compiled_new raw) path -> is_matchable (compiled_new raw) = true.
  Proof.
    unfold covers, cp_matches, is_matchable. simpl.
    destruct (has_glob_meta (normalize_pattern raw)); simpl; [|done].
    by destruct (glob_compile _).
  Qed.

Lemma covers_exact raw path :
    covers (compiled_new raw) path -> cp_is_glob (compiled_new raw) = false ->
    normalize_pattern raw = path.
  Proof.
    unfold covers, cp_matches. simpl. intros Hc E. rewrite E in Hc. simpl in Hc. by apply ustr_eqb_eq.
  Qed.

Lemma covers_glob raw path :
    covers (compiled_new raw) path -> cp_is_glob (compiled_new raw) = true ->
    exists m, cp_matcher (compiled_new raw) = Some m /\ is_match m path = true.
  Proof.
    unfold covers, cp_matches. simpl. intros Hc E. rewrite E in *. simpl in Hc.
    rewrite orb_false_r in Hc. destruct (glob_compile _) as [m|]; [by exists m|done].
  Qed.

Lemma glob_covers_exact raw1 raw2 path :
    covers (compiled_new raw1) path -> cp_is_glob (compiled_new raw1) = true ->
    covers (compiled_new raw2) path -> cp_is_glob (compiled_new raw2) = false ->
    matcher_covers (compiled_new raw1) (compiled_new raw2) = true.
  Proof.
    intros H1 E1 H2 E2. destruct (covers_glob _ _ H1 E1) as (m & Hm & Hmatch).
    unfold matcher_covers. rewrite Hm, E2. simpl. by rewrite (covers_exact raw2 path).
  Qed.

(** Two globs, or two patterns that match one path themselves. *)
Lemma simple_covers_overlap raw1 raw2 path :
  simple (normalize_pattern raw1) = true -> simple (normalize_pattern raw2) = true ->
  ascii_path path ->
  covers (compiled_new raw1) path -> covers (compiled_new raw2) path ->
  overlaps (compiled_new raw1) (compiled_new raw2) = true.
Proof.
  intros Hs1 Hs2 Ha H1 H2. rewrite overlaps_spec.
  destruct (cp_is_glob (compiled_new raw1)) eqn:E1, (cp_is_glob (compiled_new raw2)) eqn:E2.
  - apply orb_true_iff; right.
    rewrite (covers_matchable _ _ H1), (covers_matchable _ _ H2). simpl andb.
    apply andb_true_iff; split.
    + destruct (first_literal_segment (compiled_new raw1)) as [s|] eqn:F1; [|done].
      destruct (first_literal_segment (compiled_new raw2)) as [t|] eqn:F2; [|done].
      apply ustr_eqb_eq. rewrite <- (covers_first_literal _ _ _ Hs1 H1 F1).
      by apply covers_first_literal with raw2.
    + destruct (covers_glob _ _ H1 E1) as (m1 & Hm1 & Hp1).
      destruct (covers_glob _ _ H2 E2) as (m2 & Hm2 & Hp2).
      simpl in *. rewrite E1 in Hm1. rewrite E2 in Hm2.
      unfold segments_overlap. rewrite (sequence_patterns_overlap_ovl _ _ segment_overlaps_sym).
      eapply ovl_complete; [apply segment_overlaps_common|done|..];
        apply simple_match_compiled; eauto using glob_simple_sound.
  - by rewrite (glob_covers_exact raw1 raw2 path), !orb_true_r.
  - rewrite (glob_covers_exact raw2 raw1 path), orb_true_r by done. done.
  - simpl. by rewrite (covers_exact _ _ H1 E1), (covers_exact _ _ H2 E2), ustr_eqb_refl.
Qed.

(** What a pattern reserves: the paths it matches, and everything below a literal
    directory. *)
Definition reserves (p : CompiledPattern) (path : ustr) : Prop :=
  covers p path \/ (cp_is_glob p = false /\ is_directory_prefix (cp_norm p) path = true).

Lemma directory_prefix_bytes p full : is_directory_prefix p full = true ->
  p = [] \/ exists r, utf8 full = utf8 p ++ slash :: r.
Proof.
  unfold is_directory_prefix. destruct (is_empty p) eqn:Ee; [by left; destruct p|]. cbv zeta.
  destruct (utf8_len full <? utf8_len p)%nat; [done|]. intros [Hp Hs]%andb_prop. right.
  apply bool_decide_eq_true in Hp. destruct (utf8 full !! utf8_len p) as [b|] eqn:Eb; [|done]. apply N.eqb_eq in Hs as ->.
  exists (drop (S (utf8_len p)) (utf8 full)). by rewrite <- Hp at 1; rewrite take_drop_middle.
Qed.

Lemma bytes_directory_prefix p full r : utf8 full = utf8 p ++ slash :: r -> is_directory_prefix p full = true.
Proof.
  intros E. unfold is_directory_prefix, utf8_len. destruct (is_empty p); [done|]. cbv zeta. rewrite E, length_app. cbn [length].
  replace (_ <? _)%nat with false by (symmetry; apply Nat.ltb_ge; lia).
  rewrite take_app_length, lookup_app_r, Nat.sub_diag by done. cbn. by rewrite bool_decide_true.
Qed.

(** Of two literal paths at or above one path, one is at or above the other. *)
Lemma literals_above p q path :
  p = path \/ is_directory_prefix p path = true -> q = path \/ is_directory_prefix q path = true ->
  p = q \/ is_directory_prefix p q = true \/ is_directory_prefix q p = true.
Proof.
  intros [->|Hp] [->|Hq]; [by left|by right; right|by right; left|].
  destruct (directory_prefix_bytes _ _ Hp) as [->|[r1 E1]]; [by right; left|].
  destruct (directory_prefix_bytes _ _ Hq) as [->|[r2 E2]]; [by right; right|].
  rewrite E1 in E2. apply app_eq_app in E2 as (l & [[Ep El]|[Ep El]]).
  - destruct l as [|b l]; [left; apply utf8_inj; by rewrite Ep, app_nil_r|].
    right. right. injection El as <- ->. by apply (bytes_directory_prefix q p l).
  - destruct l as [|b l]; [left; apply utf8_inj; by rewrite Ep, app_nil_r|].
    right. left. injection El as <- ->. by apply (bytes_directory_prefix p q l).
Qed.

(** C9: simple patterns that reserve a common path overlap, but for a directory
    and a glob.  Take two reservation patterns written with [*], [?] and [**] only
    that both reserve some ASCII path, a literal pattern by being it or a directory
    above it, a glob by matching it.  If both are literal, or both are globs, or
    each matches the path itself, [overlaps] answers [true] on their compiled
    forms, whatever glob engine with the documented behaviour compiled them.  The
    remaining case, a literal directory strictly above a path that the other, a
    glob, matches, is out of the claim: there it may answer [false]
    ([directory_and_glob_missed]). *)
Theorem simple_patterns_overlap raw1 raw2 path :
  let p1 := compiled_new raw1 in let p2 := compiled_new raw2 in
  simple (normalize_pattern raw1) = true -> simple (normalize_pattern raw2) = true ->
  ascii_path path -> reserves p1 path -> reserves p2 path ->
  cp_is_glob p1 = cp_is_glob p2 \/ (covers p1 path /\ covers p2 path) ->
  overlaps p1 p2 = true.
Proof.
  intros p1 p2 Hs1 Hs2 Ha H1 H2 Hcase.
  assert (covers p1 path /\ covers p2 path \/ cp_is_glob p1 = false /\ cp_is_glob p2 = false) as [[C1 C2]|[E1 E2]].
  { destruct Hcase as [He|Hc]; [|by left]. destruct (cp_is_glob p1) eqn:E; [left|by right].
    destruct H1 as [C1|[? _]]; [|congruence]. destruct H2 as [C2|[? _]]; [done|congruence]. }
  - by apply (simple_covers_overlap raw1 raw2 path).
  - assert (forall raw, cp_is_glob (compiled_new raw) = false -> reserves (compiled_new raw) path ->
      normalize_pattern raw = path \/ is_directory_prefix (normalize_pattern raw) path = true) as Hlit.
    { intros raw E [C|[_ ?]]; [left; by apply covers_exact|by right]. }
    rewrite overlaps_spec. fold p1 p2. rewrite E1, E2.
    destruct (literals_above (normalize_pattern raw1) (normalize_pattern raw2) path) as [Eq|[Ed|Ed]];
      [by apply Hlit|by apply Hlit| | |]; cbn; rewrite ?Eq, ?ustr_eqb_refl, ?Ed, ?orb_true_r; done.
Qed.

(** The overlap test is symmetric: reservation and request can be swapped. *)
Theorem overlaps_symmetric raw1 raw2 :
  overlaps (compiled_new raw1) (compiled_new raw2) =
  overlaps (compiled_new raw2) (compiled_new raw1).
Proof. apply overlaps_comm. Qed.
End props.

#[local] Existing Instance simple_engine.
#[local] Existing Instance simple_laws.

Lemma simple_patterns_overlap_witness :
  covers (compiled_new (u "src/*.rs")) (u "src/main.rs") /\
  overlaps (compiled_new (u "src/*.rs")) (compiled_new (u "./src/../src/ma?n.*")) = true /\
  overlaps (compiled_new (u "src/api")) (compiled_new (u "src")) = true.
Proof.
  split; [vm_compute; reflexivity|]. split.
  - apply (simple_patterns_overlap _ _ (u "src/main.rs")).
    + vm_compute; reflexivity.
    + vm_compute; reflexivity.
    + unfold ascii_path. repeat constructor.
    + left. vm_compute; reflexivity.
    + left. vm_compute; reflexivity.
    + left. vm_compute; reflexivity.
  - apply (simple_patterns_overlap _ _ (u "src/api/foo.rs")).
    + vm_compute; reflexivity.
    + vm_compute; reflexivity.
    + unfold ascii_path. repeat constructor.
    + right. split; vm_compute; reflexivity.
    + right. split; vm_compute; reflexivity.
    + left. vm_compute; reflexivity.
Defined.

(** A directory and a glob that reserve one path, reported disjoint. *)
Example directory_and_glob_missed :
  reserves (compiled_new (u "src/api")) (u "src/api/foo.rs") /\
  reserves (compiled_new (u "src/*/foo.rs")) (u "src/api/foo.rs") /\
  overlaps (compiled_new (u "src/api")) (compiled_new (u "src/*/foo.rs")) = false.
Proof. split; [right; split; vm_compute; reflexivity|]. split; [left; vm_compute; reflexivity|vm_compute; reflexivity]. Qed.

(** The suffix-row routine decides intersection: two token sequences
    overlap exactly when some string is matched by both, [*] absorbing any
    run of characters and [?] exactly one. *)
Theorem simple_glob_tokens_overlap_decides l r :
  simple_glob_tokens_overlap l r = true <->
  exists x, matchesb tok_is_repeat tok_accepts l x = true /\
            matchesb tok_is_repeat tok_accepts r x = true.
Proof.
  unfold simple_glob_tokens_overlap. rewrite sequence_patterns_overlap_ovl.
  2:{ intros [] []; simpl; try done. apply N.eqb_sym. }
  split.
  - intros Ho.
    destruct (ovl_sound tok_is_repeat tok_compatible
                (fun a x => tok_accepts a x = true) (fun a x => tok_accepts a x = true))
      with l r as (w & H1 & H2); [..|exists w; by rewrite !matchesb_matches].
    + intros [d| |] _; [exists d; apply N.eqb_refl|by exists 0%N..].
    + intros [d| |] _; [exists d; apply N.eqb_refl|by exists 0%N..].
    + intros [d| |] [e| |] _ _; simpl; try (intros; by exists 0%N).
      * intros ->%N.eqb_eq. exists e. by rewrite N.eqb_refl.
      * intros _. exists d. by rewrite N.eqb_refl.
      * intros _. exists d. by rewrite N.eqb_refl.
      * intros _. exists e. by rewrite N.eqb_refl.
      * intros _. exists e. by rewrite N.eqb_refl.
    + exact Ho.
  - intros (w & H1%matchesb_matches & H2%matchesb_matches).
    eapply ovl_complete; [apply tok_compatible_common|done|done|done].
Qed.

(** Normalisation is canonical: the normalised pattern is the root (empty)
    or its segments are non-empty, contain no separator, and are neither [.]
    nor [..]; normalising it again changes nothing when it carries no outer
    white space. *)
Theorem normalize_pattern_canonical pattern :
  (normalize_pattern pattern = [] \/ Forall good_component (segs (normalize_pattern pattern))) /\
  (trim (normalize_pattern pattern) = normalize_pattern pattern ->
   normalize_pattern (normalize_pattern pattern) = normalize_pattern pattern).
Proof.
  pose proof (normalize_parts_good pattern) as Hg. split.
  - rewrite segs_normalize. unfold normalize_pattern.
    destruct (normalize_parts pattern); [by left|by right].
  - intros Ht. apply normalize_pattern_fixed; [done|]. fold (normalize_pattern pattern).
    rewrite <- Ht. apply trimmed_trim.
Qed.

Lemma normalize_pattern_canonical_witness :
  normalize_pattern (u "./src//api/../a.rs") = u "src/a.rs" /\
  normalize_pattern (normalize_pattern (u "./src//api/../a.rs")) = u "src/a.rs".
Proof.
  split; [reflexivity|].
  destruct (normalize_pattern_canonical (u "./src//api/../a.rs")) as [_ H].
  rewrite H; reflexivity.
Defined.
