(* ===== verification/PatternCache.v ===== *)
(** * The compiled-pattern cache ([core/src/pattern_overlap.rs], [PatternCache])

    A thread-local LRU map from raw patterns to compiled patterns.  The map is
    a [gmap], the [VecDeque] a list with its front first.  The abstract
    specification is the list of the most recently requested distinct
    patterns, truncated to the capacity. *)

From S2P Require Import Prelude.
From S2P Require Import RustStr.
From S2P Require Import Pattern.
From S2P Require Import PatternTheory.
From S2P Require Import GlobSimple.

Section cache.
  Context {GE : GlobEngine}.

(** @src core/src/pattern_overlap.rs:14-19 PatternCache *)
Record PatternCache := mkPatternCache {
  pc_capacity : nat;
  pc_entries : gmap ustr CompiledPattern;
  pc_order : list ustr;
}.

(** @src core/src/pattern_overlap.rs:22-28 PatternCache::new *)
Definition pattern_cache_new (capacity : nat) : PatternCache :=
  {| pc_capacity := capacity; pc_entries := ∅; pc_order := [] |}.

(** @src core/src/pattern_overlap.rs:8-8 PATTERN_CACHE_CAPACITY *)
Definition PATTERN_CACHE_CAPACITY : nat := Z.to_nat 4096.

(** @src core/src/pattern_overlap.rs:32-37 PatternCache::get_or_insert
    -- [position], [remove(pos)], [push_back]. *)
Definition move_to_back (raw : ustr) (order : list ustr) : list ustr :=
  match position (ustr_eqb raw) order with
  | Some pos =>
      match order !! pos with
      | Some val => delete pos order ++ [val]
      | None => order
      end
  | None => order
  end.

(** @src core/src/pattern_overlap.rs:30-51 PatternCache::get_or_insert *)
Definition get_or_insert (c : PatternCache) (raw : ustr) : CompiledPattern * PatternCache :=
  match pc_entries c !! raw with
  | Some compiled =>
      (compiled, {| pc_capacity := pc_capacity c; pc_entries := pc_entries c;
                    pc_order := move_to_back raw (pc_order c) |})
  | None =>
      let compiled := compiled_new raw in
      let '(entries, order) :=
        if (pc_capacity c <=? size (pc_entries c))%nat then
          match pc_order c with
          | oldest :: order => (delete oldest (pc_entries c), order)
          | [] => (pc_entries c, [])
          end
        else (pc_entries c, pc_order c) in
      (compiled, {| pc_capacity := pc_capacity c;
                    pc_entries := <[raw := compiled]> entries;
                    pc_order := order ++ [raw] |})
  end.

(** @src core/src/pattern_overlap.rs:347-351 CompiledPattern::cached *)
Definition cached (c : PatternCache) (raw : ustr) : CompiledPattern * PatternCache :=
  get_or_insert c raw.

(** @src core/src/pattern_overlap.rs:476-485 patterns_overlap *)
Definition patterns_overlap (c : PatternCache) (l r : ustr) : bool * PatternCache :=
  let '(lc, c) := get_or_insert c l in
  let '(rc, c) := get_or_insert c r in
  (overlaps lc rc, c).

(** ** Abstract specification: the recently used patterns, newest first. *)

Definition touch (cap : nat) (raw : ustr) (recent : list ustr) : list ustr :=
  take cap (raw :: List.filter (fun x => negb (ustr_eqb raw x)) recent).

(** [recent] describes [c]. *)
Record cache_rep (c : PatternCache) (recent : list ustr) : Prop := {
  cr_order : rev (pc_order c) = recent;
  cr_nodup : NoDup (pc_order c);
  cr_dom : forall k, k ∈ pc_order c <-> is_Some (pc_entries c !! k);
  cr_entries : forall k v, pc_entries c !! k = Some v -> v = compiled_new k;
  cr_bound : (length (pc_order c) <= pc_capacity c)%nat;
  cr_cap : (0 < pc_capacity c)%nat;
}.

Lemma cache_rep_size c recent : cache_rep c recent -> size (pc_entries c) = length (pc_order c).
Proof.
  intros H. rewrite <- size_dom. rewrite <- (size_list_to_set (C := gset ustr) (pc_order c)).
  - f_equal. apply set_eq. intros k. rewrite elem_of_dom, elem_of_list_to_set. symmetry. apply H.
  - apply H.
Qed.

Lemma filter_other_id raw l :
  raw ∉ l -> List.filter (fun x => negb (ustr_eqb raw x)) l = l.
Proof.
  intros H. apply bfilter_all_true. intros x Hx%list_elem_of_In. apply negb_true_iff, ustr_eqb_neq.
  intros ->. done.
Qed.

Lemma filter_rev {A} (p : A -> bool) l : List.filter p (rev l) = rev (List.filter p l).
Proof.
  induction l as [|x l IH]; simpl; [done|]. rewrite List.filter_app, IH. simpl.
  destruct (p x); simpl; [done|]. by rewrite app_nil_r.
Qed.

Lemma move_to_back_filter raw l :
  NoDup l -> raw ∈ l ->
  move_to_back raw l = List.filter (fun x => negb (ustr_eqb raw x)) l ++ [raw].
Proof.
  intros Hnd Hin. unfold move_to_back.
  destruct (position (ustr_eqb raw) l) as [pos|] eqn:Ep.
  - pose proof (position_Some _ _ _ Ep) as (x & Hl & Hx). apply ustr_eqb_eq in Hx as <-.
    rewrite Hl. f_equal.
    rewrite <- (take_drop_middle l pos raw Hl) in Hnd |- *.
    apply NoDup_app in Hnd as (_ & Hd & Hr). apply NoDup_cons in Hr as [Hr _].
    assert (raw ∉ take pos l) as Ht by (intros ?; apply (Hd raw); [done|left]).
    assert (pos = length (take pos l)) as Hpos.
    { rewrite length_take_le; [done|]. apply lookup_lt_Some in Hl. lia. }
    rewrite List.filter_app. simpl. rewrite ustr_eqb_refl. simpl.
    rewrite !filter_other_id by done.
    rewrite Hpos at 1. by rewrite delete_middle.
  - rewrite position_None in Ep. specialize (Ep raw Hin). by rewrite ustr_eqb_refl in Ep.
Qed.

Lemma NoDup_filter_other raw (l : list ustr) :
  NoDup l -> NoDup (List.filter (fun x => negb (ustr_eqb raw x)) l ++ [raw]).
Proof.
  intros H. apply NoDup_app. split; [|split].
  - apply NoDup_ListNoDup, List.NoDup_filter. by apply NoDup_ListNoDup.
  - intros x Hx%list_elem_of_In%filter_In ->%list_elem_of_singleton.
    destruct Hx as [_ Hx]. by rewrite ustr_eqb_refl in Hx.
  - apply NoDup_singleton.
Qed.
Lemma touch_hit_length raw l :
  NoDup l -> raw ∈ l ->
  length (List.filter (fun x => negb (ustr_eqb raw x)) l ++ [raw]) = length l.
Proof.
  intros Hnd Hin. rewrite length_app. simpl.
  induction Hnd as [|x l Hx Hnd IH]; [by apply elem_of_nil in Hin|]. simpl.
  apply elem_of_cons in Hin as [->|Hin].
  - rewrite ustr_eqb_refl. simpl. by rewrite filter_other_id, Nat.add_1_r.
  - assert (raw <> x) as Hne%ustr_eqb_neq by (by intros ->). rewrite Hne. simpl. by rewrite IH.
Qed.

Lemma take_snoc_full {A} (l : list A) x n : length l = n -> take n (l ++ [x]) = l.
Proof. intros <-. by rewrite take_app_length. Qed.

(** A hit only moves the pattern to the young end. *)
Lemma hit_rep c recent raw :
  cache_rep c recent -> raw ∈ pc_order c ->
  cache_rep {| pc_capacity := pc_capacity c; pc_entries := pc_entries c;
               pc_order := move_to_back raw (pc_order c) |} (touch (pc_capacity c) raw recent).
Proof.
  intros [Ho Hnd Hdom Hval Hb Hcap] Hin.
  pose proof (touch_hit_length raw _ Hnd Hin) as Hlen.
  split; simpl; rewrite ?move_to_back_filter by done; [| |..].
  - rewrite rev_app_distr, <- filter_rev, Ho. simpl. unfold touch.
    rewrite take_ge; [done|]. simpl. subst recent. rewrite filter_rev, length_rev.
    rewrite length_app in Hlen. simpl in Hlen. lia.
  - by apply NoDup_filter_other.
  - intros k. rewrite <- Hdom, elem_of_app, list_elem_of_singleton, list_elem_of_In, filter_In,
      <- list_elem_of_In, negb_true_iff, ustr_eqb_neq.
    destruct (decide (raw = k)) as [->|]; naive_solver.
  - done.
  - by rewrite Hlen.
  - done.
Qed.

(** Inserting an absent pattern where there is room. *)
Lemma insert_rep cap entries order raw :
  cache_rep {| pc_capacity := cap; pc_entries := entries; pc_order := order |} (rev order) ->
  raw ∉ order -> (length order < cap)%nat ->
  cache_rep {| pc_capacity := cap; pc_entries := <[raw := compiled_new raw]> entries;
               pc_order := order ++ [raw] |} (rev (order ++ [raw])).
Proof.
  intros [_ Hnd Hdom Hval _ Hcap] Hnin Hroom. simpl in *. split; simpl.
  - done.
  - apply NoDup_app. split; [done|]. split; [set_solver|apply NoDup_singleton].
  - intros k. specialize (Hdom k). rewrite elem_of_app, list_elem_of_singleton.
    destruct (decide (k = raw)) as [->|Hne]; [rewrite lookup_insert_eq; naive_solver|].
    rewrite lookup_insert_ne by done. set_solver.
  - intros k v. destruct (decide (k = raw)) as [->|Hne].
    { rewrite lookup_insert_eq. by intros [= <-]. }
    rewrite lookup_insert_ne by done. by apply Hval.
  - rewrite length_app. simpl. lia.
  - done.
Qed.

(** Evicting the front of the queue. *)
Lemma evict_rep cap entries oldest order :
  cache_rep {| pc_capacity := cap; pc_entries := entries; pc_order := oldest :: order |}
            (rev (oldest :: order)) ->
  cache_rep {| pc_capacity := cap; pc_entries := delete oldest entries; pc_order := order |}
            (rev order).
Proof.
  intros [_ Hnd Hdom Hval Hb Hcap]. simpl in *. apply NoDup_cons in Hnd as [Hold Hnd].
  split; simpl; [done|done| | |lia|done].
  - intros k. specialize (Hdom k). rewrite elem_of_cons in Hdom.
    destruct (decide (k = oldest)) as [->|Hne].
    { rewrite lookup_delete_eq. split; [done|by intros [? ?]]. }
    rewrite lookup_delete_ne by done. naive_solver.
  - intros k v [_ Hk]%lookup_delete_Some. by apply Hval.
Qed.

Lemma touch_miss cap raw l :
  raw ∉ l -> (length l < cap)%nat -> touch cap raw (rev l) = rev (l ++ [raw]).
Proof.
  intros Hnin Hl. unfold touch. rewrite rev_app_distr.
  rewrite filter_other_id by (rewrite list_elem_of_In, <- in_rev, <- list_elem_of_In; done).
  rewrite take_ge; [done|]. simpl. rewrite length_rev. lia.
Qed.

Lemma touch_miss_full raw x l :
  raw ∉ x :: l -> touch (S (length l)) raw (rev (x :: l)) = rev (l ++ [raw]).
Proof.
  intros Hnin. unfold touch. rewrite rev_app_distr.
  rewrite filter_other_id by (rewrite list_elem_of_In, <- in_rev, <- list_elem_of_In; done).
  simpl. rewrite take_snoc_full; [done|]. apply length_rev.
Qed.

(** One lookup refines [touch]. *)
Lemma get_or_insert_rep c recent raw :
  cache_rep c recent ->
  fst (get_or_insert c raw) = compiled_new raw /\
  cache_rep (snd (get_or_insert c raw)) (touch (pc_capacity c) raw recent) /\
  pc_capacity (snd (get_or_insert c raw)) = pc_capacity c.
Proof.
  intros Hc. pose proof (cache_rep_size _ _ Hc) as Hsize.
  pose proof (cr_order _ _ Hc) as <-. pose proof (cr_bound _ _ Hc) as Hb.
  pose proof (cr_dom _ _ Hc raw) as Hdom. pose proof (cr_cap _ _ Hc) as Hcap.
  unfold get_or_insert. destruct (pc_entries c !! raw) as [v|] eqn:E.
  { split; [by eapply cr_entries|]. split; [|done]. apply hit_rep; [done|]. apply Hdom; eauto. }
  assert (raw ∉ pc_order c) as Hnin by (rewrite Hdom; by intros [? ?]).
  destruct c as [cap entries order]; simpl in *.
  destruct (cap <=? size entries)%nat eqn:Ef.
  - apply Nat.leb_le in Ef. destruct order as [|oldest order]; [simpl in *; lia|]. simpl fst.
    split; [done|]. split; [|done]. simpl snd.
    replace cap with (S (length order)) in * by (simpl in *; lia).
    rewrite touch_miss_full by done. apply insert_rep; [by apply evict_rep in Hc|set_solver|lia].
  - apply Nat.leb_gt in Ef. split; [done|]. split; [|done]. simpl snd.
    rewrite touch_miss by (done || lia). apply insert_rep; [done..|lia].
Qed.

(** The cache is a transparent memo of [compiled_new]. *)
#[export] Program Instance pattern_cache_memo : MemoCache ustr CompiledPattern PatternCache := {
  memo_fun := compiled_new;
  memo_ok c := exists recent, cache_rep c recent;
  memo_call := get_or_insert;
}.
Next Obligation. intros c k [recent Hr]. exact (proj1 (get_or_insert_rep c recent k Hr)). Qed.
Next Obligation.
  intros c k [recent Hr]. exists (touch (pc_capacity c) k recent).
  exact (proj1 (proj2 (get_or_insert_rep c recent k Hr))).
Qed.

Lemma pattern_cache_new_rep cap : (0 < cap)%nat -> cache_rep (pattern_cache_new cap) [].
Proof.
  intros Hc. split; simpl; try done; try lia.
  - constructor.
  - intros k. rewrite lookup_empty. split; [by intros ?%elem_of_nil|by intros [? ?]].
Qed.

(** The compiled-pattern cache is invisible and bounded.  Starting empty
    with a positive capacity, any sequence of lookups returns exactly the
    freshly compiled patterns, and the cache then holds the [cap] most
    recently requested distinct patterns and nothing else. *)
Theorem pattern_cache_transparent_lru cap ks :
  (0 < cap)%nat ->
  let '(vs, c) := memo_run (pattern_cache_new cap) ks in
  vs = map compiled_new ks /\
  rev (pc_order c) = foldl (fun recent k => touch cap k recent) [] ks /\
  (size (pc_entries c) <= cap)%nat.
Proof.
  intros Hcap.
  assert (forall ks c recent, cache_rep c recent -> pc_capacity c = cap ->
    let '(vs, c') := memo_run c ks in
    vs = map compiled_new ks /\
    cache_rep c' (foldl (fun recent k => touch cap k recent) recent ks) /\
    pc_capacity c' = cap) as H.
  { clear ks. induction ks as [|k ks IH]; intros c recent Hr Hcc; simpl; [done|].
    destruct (get_or_insert_rep c recent k Hr) as (Hv & Hr' & Hc').
    destruct (get_or_insert c k) as [v c']; simpl in *. rewrite Hcc in *.
    specialize (IH c' _ Hr' Hc'). destruct (memo_run c' ks) as [vs c''].
    destruct IH as (-> & ? & ?). by subst. }
  specialize (H ks _ _ (pattern_cache_new_rep cap Hcap) eq_refl).
  destruct (memo_run _ _) as [vs c]. destruct H as (Hv & Hr & Hc).
  split_and!; [done|apply Hr|]. rewrite (cache_rep_size _ _ Hr), <- Hc. apply Hr.
Qed.
End cache.

Lemma pattern_cache_transparent_lru_witness :
  let ks := [u "a"; u "b"; u "a"; u "c"] in
  let '(vs, c) := memo_run (K := ustr) (MemoCache0 := @pattern_cache_memo simple_engine)
                    (pattern_cache_new 2) ks in
  vs = map (@compiled_new simple_engine) ks /\
  rev (pc_order c) = [u "c"; u "a"] /\ (size (pc_entries c) <= 2)%nat.
Proof.
  exact (@pattern_cache_transparent_lru simple_engine 2 [u "a"; u "b"; u "a"; u "c"] ltac:(lia)).
Defined.
