(* ===== verification/ReservationIndex.v ===== *)
(** * The reservation conflict index ([tools/src/reservation_index.rs])

    Active reservations partitioned by exact path ([BTreeMap]), by first
    literal segment of a glob ([HashMap]) and root globs.  The [BTreeMap] is a
    list sorted by the byte order of its keys, the [HashMap] a [gmap]; the
    statistics threaded for tests ([COUNT_STATS]) are not modelled. *)

From S2P Require Import Prelude.
From S2P Require Import RustStr.
From S2P Require Import Pattern.
From S2P Require Import PatternTheory.

(** ** [BTreeMap<String, V>] *)

Section btree.
  Context {V : Type}.

Definition btree : Type := list (ustr * V).

Fixpoint bt_get (k : ustr) (m : btree) : option V :=
  match m with
  | [] => None
  | (k', v) :: m => if ustr_eqb k k' then Some v else bt_get k m
  end.

(** [entry(k).or_insert(d)] followed by an update in place. *)
Fixpoint bt_upsert (d : V) (f : V -> V) (k : ustr) (m : btree) : btree :=
  match m with
  | [] => [(k, f d)]
  | (k', v) :: m' =>
      if ustr_eqb k k' then (k', f v) :: m'
      else if str_ltb k k' then (k, f d) :: m
      else (k', v) :: bt_upsert d f k m'
  end.

(** [range(k..)]. *)
Definition bt_range_from (k : ustr) (m : btree) : btree :=
  drop_while (fun e => str_ltb (fst e) k) m.

Inductive bt_sorted : btree -> Prop :=
| bt_sorted_nil : bt_sorted []
| bt_sorted_cons k v m :
    (forall k' v', In (k', v') m -> str_ltb k k' = true) -> bt_sorted m -> bt_sorted ((k, v) :: m).

Lemma bt_upsert_in d f k m k' v' :
  In (k', v') (bt_upsert d f k m) -> k' = k \/ exists v, In (k', v) m.
Proof.
  induction m as [|[k1 v1] m IH]; simpl.
  - intros [[= <- <-]|[]]. by left.
  - destruct (ustr_eqb k k1) eqn:E.
    + apply ustr_eqb_eq in E as ->. intros [[= <- <-]|Hin]; [by left|right; eauto].
    + destruct (str_ltb k k1).
      * intros [[= <- <-]|Hin]; [by left|right; destruct Hin as [Hin|Hin]; simplify_eq; eauto].
      * intros [[= <- <-]|Hin]; [right; eauto|]. destruct (IH Hin) as [->|[v Hv]]; eauto.
Qed.

Lemma bt_upsert_sorted d f k m : bt_sorted m -> bt_sorted (bt_upsert d f k m).
Proof.
  induction 1 as [|k1 v1 m Hlt Hs IH]; simpl.
  - constructor; [done|constructor].
  - destruct (ustr_eqb k k1) eqn:E; [by constructor|].
    destruct (str_ltb k k1) eqn:El.
    + constructor; [|by constructor]. intros k' v' [Hin|Hin]; simplify_eq; [done|].
      eapply str_ltb_trans; eauto.
    + constructor; [|done]. intros k' v' Hin. apply bt_upsert_in in Hin as [->|[v Hv]]; [|eauto].
      destruct (str_ltb k1 k) eqn:E2; [done|].
      rewrite (str_ltb_total _ _ El E2), ustr_eqb_refl in E. done.
Qed.

Lemma bt_sorted_get m k v : bt_sorted m -> In (k, v) m -> bt_get k m = Some v.
Proof.
  induction 1 as [|k1 v1 m Hlt Hs IH]; simpl; [done|]. intros [Hin|Hin].
  - simplify_eq. by rewrite ustr_eqb_refl.
  - destruct (ustr_eqb k k1) eqn:E; [|auto]. apply ustr_eqb_eq in E as ->.
    apply Hlt in Hin. by rewrite str_ltb_irrefl in Hin.
Qed.

Lemma bt_get_in m k v : bt_get k m = Some v -> In (k, v) m.
Proof.
  induction m as [|[k1 v1] m IH]; simpl; [done|]. destruct (ustr_eqb k k1) eqn:E.
  - apply ustr_eqb_eq in E as ->. intros [= ->]. by left.
  - right. auto.
Qed.

(** The prefix scan ([range(p..)] with a [break]) visits exactly the keys
    that start with [p]. *)
Lemma bt_prefix_scan p m :
  bt_sorted m ->
  take_while (fun e => starts_with p (fst e)) (bt_range_from p m) =
  List.filter (fun e => starts_with p (fst e)) m.
Proof.
  unfold bt_range_from. induction 1 as [|k v m Hlt Hs IH]; simpl; [done|].
  destruct (str_ltb k p) eqn:El.
  - destruct (starts_with p k) eqn:Ep; [|done].
    apply starts_with_app in Ep as [r ->]. by rewrite str_ltb_ext in El.
  - destruct (starts_with p k) eqn:Ep; simpl; rewrite Ep.
    + f_equal. rewrite <- IH. f_equal.
      symmetry. apply drop_while_id. intros [k' v'] r ->. simpl.
      destruct (str_ltb k' p) eqn:E; [|done].
      pose proof (str_ltb_trans _ _ _ (Hlt k' v' ltac:(by left)) E). congruence.
    + symmetry. apply bfilter_all_false. intros [k' v'] Hin. simpl.
      destruct (starts_with p k') eqn:Ep'; [|done]. apply starts_with_app in Ep' as [r ->].
      destruct (str_between_ext p r k El (Hlt _ _ Hin)) as [q ->].
      by rewrite starts_with_refl in Ep.
Qed.
End btree.
Arguments btree : clear implicits.

(** ** The index *)

Section index.
  Context {GE : GlobEngine}.

(** @src tools/src/reservation_index.rs:36-43 ReservationRef *)
Record ReservationRef := mkRef {
  agent_id : Z;
  path_pattern : ustr;
  exclusive : bool;
  expires_ts : Z;
}.

Definition entry : Type := CompiledPattern * ReservationRef.

(** @src tools/src/reservation_index.rs:45-57 ReservationIndex *)
Record ReservationIndex := mkIndex {
  exact_by_path : btree (list entry);
  globs_by_prefix : gmap ustr (list entry);
  root_globs : list entry;
}.

(** @src tools/src/reservation_index.rs:28-34 routing_key *)
Definition routing_key (s : ustr) : ustr := s.

(** @src tools/src/reservation_index.rs:357-363 descendant_prefix *)
Definition descendant_prefix (norm : ustr) : option ustr :=
  if is_empty norm then None else Some (norm ++ [slash]).

Definition push_entry (e : entry) (es : list entry) : list entry := es ++ [e].

(** @src tools/src/reservation_index.rs:75-93 ReservationIndex::build
    -- the body of the loop; [CompiledPattern::cached] is [compiled_new] by
    the transparency of the cache. *)
Definition index_add (ix : ReservationIndex) (item : ustr * ReservationRef) : ReservationIndex :=
  let '(raw_pattern, rref) := item in
  let compiled := compiled_new raw_pattern in
  if negb (cp_is_glob compiled) then
    {| exact_by_path := bt_upsert [] (push_entry (compiled, rref))
                          (routing_key (cp_norm compiled)) (exact_by_path ix);
       globs_by_prefix := globs_by_prefix ix; root_globs := root_globs ix |}
  else
    match first_literal_segment compiled with
    | Some prefix =>
        {| exact_by_path := exact_by_path ix;
           globs_by_prefix := partial_alter
             (fun o => Some (push_entry (compiled, rref) (default [] o)))
             (routing_key prefix) (globs_by_prefix ix);
           root_globs := root_globs ix |}
    | None =>
        {| exact_by_path := exact_by_path ix; globs_by_prefix := globs_by_prefix ix;
           root_globs := root_globs ix ++ [(compiled, rref)] |}
    end.

(** @src tools/src/reservation_index.rs:67-100 ReservationIndex::build *)
Definition index_build (reservations : list (ustr * ReservationRef)) : ReservationIndex :=
  foldl index_add {| exact_by_path := []; globs_by_prefix := ∅; root_globs := [] |} reservations.

(** The prefixes [&s[..idx]] for the slash indices of [s], in order. *)
Fixpoint slash_prefixes (s : ustr) : list ustr :=
  match s with
  | [] => []
  | c :: s =>
      if is_slash c then [] :: map (cons c) (slash_prefixes s)
      else map (cons c) (slash_prefixes s)
  end.

Definition bucket {A} (o : option (list A)) : list A := default [] o.

(** The descendant scan shared by both request kinds. *)
Definition descendants (route : ustr) (m : btree (list entry)) : list entry :=
  match descendant_prefix route with
  | None => []
  | Some p => flat_map snd (take_while (fun e => starts_with p (fst e)) (bt_range_from p m))
  end.

(** @src tools/src/reservation_index.rs:213-232 scan_exact_request
    -- the glob groups of an exact request. *)
Definition scan_globs (ix : ReservationIndex) (request_pat : CompiledPattern)
    (req_prefix : option ustr) : list entry :=
  let groups :=
    match req_prefix with
    | Some prefix => bucket (globs_by_prefix ix !! routing_key prefix)
    | None => flat_map snd (map_to_list (globs_by_prefix ix))
    end in
  List.filter (fun e => overlaps (fst e) request_pat) groups.

(** @src tools/src/reservation_index.rs:162-233 scan_exact_request *)
Definition scan_exact_request (ix : ReservationIndex) (request_pat : CompiledPattern)
    (req_norm : ustr) (req_prefix : option ustr) : list entry :=
  let route_norm := routing_key req_norm in
  bucket (bt_get route_norm (exact_by_path ix))
  ++ (if is_empty req_norm then [] else bucket (bt_get (routing_key []) (exact_by_path ix)))
  ++ flat_map (fun ancestor => bucket (bt_get (routing_key ancestor) (exact_by_path ix)))
       (slash_prefixes req_norm)
  ++ descendants route_norm (exact_by_path ix)
  ++ scan_globs ix request_pat req_prefix.

(** The test of an exact reservation against a glob request. *)
Definition exact_hit (request_pat : CompiledPattern) (e : entry) : bool :=
  cp_matches request_pat (cp_norm (fst e)) || overlaps (fst e) request_pat.

(** @src tools/src/reservation_index.rs:235-336 scan_glob_request *)
Definition scan_glob_request (ix : ReservationIndex) (request_pat : CompiledPattern)
    (req_prefix : option ustr) : list entry :=
  match req_prefix with
  | Some prefix =>
      let route_prefix := routing_key prefix in
      List.filter (exact_hit request_pat) (bucket (bt_get route_prefix (exact_by_path ix)))
      ++ List.filter (exact_hit request_pat) (bucket (bt_get (routing_key []) (exact_by_path ix)))
      ++ flat_map (fun ancestor => List.filter (exact_hit request_pat)
           (bucket (bt_get (routing_key ancestor) (exact_by_path ix)))) (slash_prefixes prefix)
      ++ List.filter (exact_hit request_pat) (descendants route_prefix (exact_by_path ix))
      ++ List.filter (fun e => overlaps (fst e) request_pat)
           (bucket (globs_by_prefix ix !! route_prefix))
  | None =>
      List.filter (exact_hit request_pat) (flat_map snd (exact_by_path ix))
      ++ List.filter (fun e => overlaps (fst e) request_pat)
           (flat_map snd (map_to_list (globs_by_prefix ix)))
  end.

(** @src tools/src/reservation_index.rs:124-160 find_conflicts_inner *)
Definition find_conflict_entries (ix : ReservationIndex) (request_pat : CompiledPattern)
    : list entry :=
  let req_norm := cp_norm request_pat in
  let req_prefix := first_literal_segment request_pat in
  (if cp_is_glob request_pat || is_empty req_norm
   then scan_glob_request ix request_pat req_prefix
   else scan_exact_request ix request_pat req_norm req_prefix)
  ++ List.filter (fun e => overlaps (fst e) request_pat) (root_globs ix).

(** @src tools/src/reservation_index.rs:102-111 ReservationIndex::find_conflicts *)
Definition find_conflicts (ix : ReservationIndex) (request_pat : CompiledPattern)
    : list ReservationRef :=
  map snd (find_conflict_entries ix request_pat).

(** The reference: every reservation tested against the request. *)
Definition brute_force (reservations : list (ustr * ReservationRef))
    (request_pat : CompiledPattern) : list ReservationRef :=
  map snd (List.filter (fun '(raw, _) => overlaps (compiled_new raw) request_pat) reservations).
End index.
