(* ===== verification/ReservationIndexTheory.v ===== *)
(** * The reservation index agrees with the exhaustive check *)

From S2P Require Import Prelude.
From S2P Require Import RustStr.
From S2P Require Import SeqOverlap.
From S2P Require Import Pattern.
From S2P Require Import PatternTheory.
From S2P Require Import GlobSimple.
From S2P Require Import ReservationIndex.

(** ** Lists and maps of buckets *)

Lemma filter_split {A} (p q : A -> bool) l :
  (forall x, In x l -> p x = true -> q x = false) ->
  List.filter (fun x => p x || q x) l ≡ₚ List.filter p l ++ List.filter q l.
Proof.
  induction l as [|x l IH]; simpl; [done|]. intros Hd.
  assert (List.filter (fun x => p x || q x) l ≡ₚ List.filter p l ++ List.filter q l) as IH'.
  { apply IH. intros; apply Hd; [by right|done]. }
  specialize (Hd x (or_introl eq_refl)).
  destruct (p x) eqn:Ep, (q x) eqn:Eq; simpl.
  - by specialize (Hd eq_refl).
  - by rewrite IH'.
  - rewrite IH'. apply Permutation_middle.
  - done.
Qed.

Lemma filter_partition {A} (p : A -> bool) l :
  l ≡ₚ List.filter p l ++ List.filter (fun x => negb (p x)) l.
Proof.
  induction l as [|x l IH]; simpl; [done|]. destruct (p x); simpl.
  - by rewrite <- IH.
  - rewrite <- Permutation_middle. by rewrite <- IH.
Qed.

Lemma flat_map_Permutation {A B} (f : A -> list B) l l' :
  l ≡ₚ l' -> flat_map f l ≡ₚ flat_map f l'.
Proof. apply Permutation_flat_map. Qed.

Lemma in_default {A} (x : A) o : In x (default [] o) -> exists l, o = Some l /\ In x l.
Proof. destruct o; simpl; [eauto|done]. Qed.

Section buckets.
  Context {E : Type}.
  Implicit Types m : btree (list E).

Lemma bt_upsert_flat e k m :
  flat_map snd (bt_upsert [] (fun es => es ++ [e]) k m) ≡ₚ flat_map snd m ++ [e].
Proof.
  induction m as [|[k1 v1] m IH]; simpl; [done|].
  destruct (ustr_eqb k k1); simpl.
  - rewrite <- !app_assoc. apply Permutation_app_head, Permutation_app_comm.
  - destruct (str_ltb k k1); simpl.
    + apply Permutation_cons_append.
    + rewrite IH. by rewrite app_assoc.
Qed.

Lemma bt_get_filter k m :
  bt_sorted m ->
  flat_map snd (List.filter (fun e => ustr_eqb k (fst e)) m) = bucket (bt_get k m).
Proof.
  induction 1 as [|k1 v1 m Hlt Hs IH]; simpl; [done|].
  destruct (ustr_eqb k k1) eqn:Ek; simpl; [|done].
  apply ustr_eqb_eq in Ek as <-.
  rewrite bfilter_all_false; [by rewrite app_nil_r|].
  intros [k' v'] Hin. apply ustr_eqb_neq. intros ->. simpl in Hlt.
  apply Hlt in Hin. by rewrite str_ltb_irrefl in Hin.
Qed.

Definition key_in (ks : list ustr) (k : ustr) : bool := existsb (fun k' => ustr_eqb k' k) ks.

Lemma key_in_elem ks k : key_in ks k = true <-> In k ks.
Proof.
  unfold key_in. rewrite existsb_exists. split.
  - intros (x & Hx & ->%ustr_eqb_eq). done.
  - intros Hin. exists k. split; [done|]. apply ustr_eqb_refl.
Qed.

Lemma bt_get_keys ks m :
  bt_sorted m -> NoDup ks ->
  flat_map (fun k => bucket (bt_get k m)) ks ≡ₚ
  flat_map snd (List.filter (fun e => key_in ks (fst e)) m).
Proof.
  intros Hs. induction 1 as [|k ks Hk Hnd IH]; simpl.
  - by rewrite bfilter_all_false.
  - rewrite (filter_split (fun e : ustr * list E => ustr_eqb k (fst e))
                          (fun e => key_in ks (fst e))).
    + rewrite flat_map_app, bt_get_filter, IH by done. done.
    + intros [k' v'] _ ->%ustr_eqb_eq. simpl.
      destruct (key_in ks k') eqn:Ek; [|done]. apply key_in_elem, list_elem_of_In in Ek. done.
Qed.

(** A scan of some exact keys and of the subtree under a prefix. *)
Lemma keyed_scan (c : E -> bool) ks p m :
  bt_sorted m -> NoDup ks -> (forall k, In k ks -> starts_with p k = false) ->
  (forall k es e, In (k, es) m -> In e es -> c e = true ->
     key_in ks k || starts_with p k = true) ->
  List.filter c (flat_map (fun k => bucket (bt_get k m)) ks)
  ++ List.filter c (flat_map snd (take_while (fun e => starts_with p (fst e)) (bt_range_from p m)))
  ≡ₚ List.filter c (flat_map snd m).
Proof.
  intros Hs Hnd Hd Hc. rewrite bt_prefix_scan by done.
  rewrite (bfilter_Permutation c _ _ (bt_get_keys ks m Hs Hnd)).
  rewrite <- List.filter_app, <- flat_map_app.
  pose proof (filter_split (fun e : ustr * list E => key_in ks (fst e))
    (fun e => starts_with p (fst e)) m) as Hf.
  rewrite <- (bfilter_Permutation c _ _ (flat_map_Permutation snd _ _ (Hf
    ltac:(intros [k es] _ Hk%key_in_elem; simpl in *; auto)))).
  clear Hs Hf. induction m as [|[k es] m IH]; simpl; [done|].
  assert (List.filter c (flat_map snd (List.filter
     (fun x : ustr * list E => key_in ks (fst x) || starts_with p (fst x)) m)) ≡ₚ
     List.filter c (flat_map snd m)) as IH'.
  { apply IH. intros k' es' e' Hin. apply Hc. by right. }
  destruct (key_in ks k || starts_with p k) eqn:Ek; simpl; rewrite !List.filter_app, ?IH'; [done|].
  rewrite (bfilter_all_false c es); [done|]. intros e He.
  destruct (c e) eqn:Ece; [|done]. rewrite (Hc k es e) in Ek; [done|by left|done|done].
Qed.

Lemma gmap_push_flat (m : gmap ustr (list E)) k e :
  flat_map snd (map_to_list (partial_alter (fun o => Some (default [] o ++ [e])) k m)) ≡ₚ
  flat_map snd (map_to_list m) ++ [e].
Proof.
  replace (partial_alter _ k m) with (<[k := default [] (m !! k) ++ [e]]> m).
  2:{ apply map_eq. intros i. destruct (decide (i = k)) as [->|].
      - by rewrite lookup_insert_eq, lookup_partial_alter_eq.
      - by rewrite lookup_insert_ne, lookup_partial_alter_ne. }
  destruct (m !! k) as [es|] eqn:Ek; simpl.
  - rewrite <- insert_delete_eq.
    rewrite (map_to_list_insert (delete k m) k (es ++ [e]) (lookup_delete_eq m k)).
    rewrite <- (insert_delete_id m k es Ek) at 2.
    rewrite (map_to_list_insert (delete k m) k es (lookup_delete_eq m k)). simpl.
    rewrite <- !app_assoc. apply Permutation_app_head, Permutation_app_comm.
  - rewrite (map_to_list_insert m k [e] Ek). simpl. apply Permutation_cons_append.
Qed.

(** Only the bucket of [k] can satisfy [c]. *)
Lemma gmap_scan (c : E -> bool) (m : gmap ustr (list E)) k :
  (forall k' es e, m !! k' = Some es -> In e es -> c e = true -> k' = k) ->
  List.filter c (bucket (m !! k)) ≡ₚ List.filter c (flat_map snd (map_to_list m)).
Proof.
  intros Hc.
  assert (forall l : list (ustr * list E), (forall k' es e, In (k', es) l -> In e es -> c e = true -> False) ->
            List.filter c (flat_map snd l) = []) as Hnil.
  { intros l Hl. apply bfilter_all_false. intros e He.
    apply in_flat_map in He as ([k' es] & Hin & He). destruct (c e) eqn:Ee; [|done].
    exfalso. eauto. }
  destruct (m !! k) as [es|] eqn:Ek; simpl.
  - rewrite <- (insert_delete_id m k es Ek).
    rewrite (bfilter_Permutation c _ _ (flat_map_Permutation snd _ _
      (map_to_list_insert (delete k m) k es (lookup_delete_eq m k)))). simpl.
    rewrite List.filter_app, Hnil; [by rewrite app_nil_r|].
    intros k' es' e Hin%list_elem_of_In%elem_of_map_to_list He Hce.
    apply lookup_delete_Some in Hin as [Hne Hin]. by apply Hne; symmetry; eauto.
  - rewrite Hnil; [done|].
    intros k' es' e Hin%list_elem_of_In%elem_of_map_to_list He Hce.
    assert (k' = k) as -> by eauto. congruence.
Qed.
End buckets.

(** ** Slash prefixes *)

Lemma slash_prefixes_spec s x : In x (slash_prefixes s) <-> exists r, s = x ++ slash :: r.
Proof.
  revert x; induction s as [|c s IH]; intros x; simpl.
  { split; [done|]. intros [r H]. by destruct x. }
  assert (In x (map (cons c) (slash_prefixes s)) <-> exists y r, x = c :: y /\ s = y ++ slash :: r) as Hm.
  { rewrite in_map_iff. split.
    - intros (y & <- & [r Hr]%IH). eauto.
    - intros (y & r & -> & Hr). exists y. split; [done|]. apply IH. eauto. }
  destruct (is_slash c) eqn:Ec; simpl; rewrite Hm; clear Hm.
  - apply N.eqb_eq in Ec as ->. split.
    + intros [<-|(y & r & -> & ->)]; [by exists s|by exists r].
    + intros [r Hr]. destruct x as [|d x]; [by left|]. simplify_eq/=. right. eauto.
  - split.
    + intros (y & r & -> & ->). by exists r.
    + intros [r Hr]. destruct x as [|d x]; simplify_eq/=; eauto.
Qed.

Lemma slash_prefixes_nodup s : NoDup (slash_prefixes s).
Proof.
  induction s as [|c s IH]; simpl; [constructor|].
  assert (NoDup (map (cons c) (slash_prefixes s))) as Hm.
  { by apply (NoDup_fmap_2 (cons c)). }
  destruct (is_slash c); [|done]. constructor; [|done].
  rewrite list_elem_of_In, in_map_iff. by intros (y & ? & _).
Qed.

Section theory.
  Context {GE : GlobEngine} {GL : GlobLaws}.

(** ** Normalised strings *)

Lemma norm_good raw :
  normalize_pattern raw = [] \/ first_seg (normalize_pattern raw) <> [].
Proof.
  pose proof (normalize_parts_good raw) as Hg.
  destruct (segs_head (normalize_pattern raw)) as [ws Hs].
  rewrite segs_normalize in Hs. unfold normalize_pattern in *.
  destruct (normalize_parts raw) as [|p ps]; [by left|right].
  inversion Hg as [|? ? [Hne _]]; subst. injection Hs as Hs _. intros E. apply Hne. rewrite Hs. exact E.
Qed.

Lemma norm_no_backslash raw :
  forallb (fun c => negb (c =? backslash)%N) (normalize_pattern raw) = true.
Proof.
  pose proof (normalize_parts_good raw) as Hg. unfold normalize_pattern.
  induction Hg as [|w ws (_ & _ & _ & Hw) Hws IH]; [done|].
  assert (forallb (fun c => negb (c =? backslash)%N) w = true) as Hw'.
  { revert Hw. rewrite !forallb_forall. intros Hall c Hc. specialize (Hall c Hc).
    unfold is_separator in Hall. destruct (c =? backslash)%N; [|done]. by rewrite orb_true_r in Hall. }
  destruct ws as [|v vs]; [done|]. rewrite join_cons, !forallb_app by done. by rewrite Hw', IH.
Qed.

(** ** Routing is sound *)

(** Patterns with different literal first segments never overlap. *)
Lemma overlaps_first_literal raw1 raw2 s t :
  first_literal_segment (compiled_new raw1) = Some s ->
  first_literal_segment (compiled_new raw2) = Some t ->
  overlaps (compiled_new raw1) (compiled_new raw2) = true -> s = t.
Proof.
  intros H1 H2 Ho. pose proof H1 as H1'. pose proof H2 as H2'.
  apply first_literal_segment_new in H1' as (E1 & Hne1 & Hm1).
  apply first_literal_segment_new in H2' as (E2 & Hne2 & Hm2). simpl in E1, E2.
  assert (forall raw raw', first_seg (normalize_pattern raw) <> [] ->
    has_glob_meta (first_seg (normalize_pattern raw)) = false ->
    matcher_covers (compiled_new raw) (compiled_new raw') = true ->
    first_seg (normalize_pattern raw') = first_seg (normalize_pattern raw)) as Hcov.
  { intros raw raw' Hne Hm Hc. unfold matcher_covers in Hc. simpl in Hc.
    destruct (has_glob_meta (normalize_pattern raw)); [|done].
    destruct (glob_compile (normalize_pattern raw)) as [m|] eqn:Em; [|done].
    apply andb_true_iff in Hc as [_ Hc].
    eapply glob_first_segment; eauto using norm_no_backslash. }
  assert (forall raw raw', first_seg (normalize_pattern raw) <> [] ->
    is_directory_prefix (normalize_pattern raw) (normalize_pattern raw') = true ->
    first_seg (normalize_pattern raw') = first_seg (normalize_pattern raw)) as Hdir.
  { intros raw raw' Hne [E|[r ->]]%is_directory_prefix_spec; [by rewrite E in Hne|apply first_seg_app_slash]. }
  rewrite overlaps_spec, H1, H2 in Ho. simpl in Ho. subst s t.
  repeat rewrite orb_true_iff in Ho. rewrite !andb_true_iff in Ho.
  destruct Ho as [[[[[Ho|[_ Ho]]|[_ Ho]]|Ho]|Ho]|[[_ Ho] _]].
  - apply ustr_eqb_eq in Ho. by rewrite Ho.
  - symmetry. auto.
  - auto.
  - symmetry. auto.
  - auto.
  - by apply ustr_eqb_eq in Ho.
Qed.

Lemma ovl_literals ws ws' :
  ovl is_recursive segment_overlaps (map SegLiteral ws) (map SegLiteral ws') = true -> ws = ws'.
Proof.
  revert ws'; induction ws as [|w ws IH]; intros [|w' ws']; simpl; try done.
  intros [Ho ->%ustr_eqb_eq]%andb_true_iff. f_equal. auto.
Qed.

Lemma exact_segments raw :
  cp_is_glob (compiled_new raw) = false ->
  cp_segments (compiled_new raw) = map SegLiteral (segs (normalize_pattern raw)).
Proof.
  simpl. intros Hg. apply map_ext_in. intros w Hw.
  assert (has_glob_meta w = false) as Hm.
  { rewrite has_glob_meta_scalars in *. destruct (existsb is_glob_meta_byte w) eqn:E; [|done].
    apply existsb_exists in E as (c & Hc & Hb).
    assert (In c (normalize_pattern raw)) as Hin.
    { revert Hw Hc. generalize (normalize_pattern raw) as s. clear.
      induction s as [|d s IH] in w |- *; unfold segs; simpl.
      - by intros [<-|[]].
      - fold (segs s) in *. destruct (is_slash d).
        + intros [<-|Hin]; [done|]. intros. right. eauto.
        + destruct (segs s) as [|v vs]; simpl in *.
          * intros [<-|[]] [<-|[]]. by left.
          * intros [<-|Hin]; simpl; [intros [<-|Hc]; [by left|right; eauto]|].
            intros. right. eauto. }
    assert (existsb is_glob_meta_byte (normalize_pattern raw) = true) by (apply existsb_exists; eauto).
    congruence. }
  unfold compile_segment. rewrite Hm.
  destruct (ustr_eqb w (u "**")) eqn:E; [|done]. by apply ustr_eqb_eq in E as ->.
Qed.

(** Two exact paths overlap when they are equal or one contains the other. *)
Lemma overlaps_exact raw1 raw2 :
  cp_is_glob (compiled_new raw1) = false -> cp_is_glob (compiled_new raw2) = false ->
  overlaps (compiled_new raw1) (compiled_new raw2) = true <->
  normalize_pattern raw1 = normalize_pattern raw2 \/
  is_directory_prefix (normalize_pattern raw1) (normalize_pattern raw2) = true \/
  is_directory_prefix (normalize_pattern raw2) (normalize_pattern raw1) = true.
Proof.
  intros G1 G2. rewrite overlaps_spec, G1, G2.
  unfold segments_overlap. rewrite !exact_segments by done.
  rewrite (sequence_patterns_overlap_ovl _ _ segment_overlaps_sym).
  unfold matcher_covers. simpl in *. rewrite G1, G2. simpl. rewrite !orb_false_r.
  rewrite !orb_true_iff, !andb_true_iff, ustr_eqb_eq. split.
  - intros [[[?|?]|?]|[_ ?%ovl_literals%segs_inj]]; auto.
  - intros [?|[?|?]]; auto.
Qed.
(** An exact reservation the request matches overlaps it. *)
Lemma exact_match_overlaps raw raw' :
  cp_is_glob (compiled_new raw') = false ->
  cp_matches (compiled_new raw) (cp_norm (compiled_new raw')) || overlaps (compiled_new raw') (compiled_new raw) =
  overlaps (compiled_new raw') (compiled_new raw).
Proof.
  intros Hg. set (req := compiled_new raw). destruct (cp_matches req _) eqn:Em; [|done]. simpl orb.
  rewrite overlaps_spec. unfold cp_matches in Em. apply orb_true_iff in Em as [Em|Em].
  - destruct (cp_matcher req) as [m|] eqn:Ec; [|done].
    assert (matcher_covers req (compiled_new raw') = true) as ->.
    { unfold matcher_covers. by rewrite Ec, Hg. }
    by rewrite orb_true_r.
  - apply andb_true_iff in Em as [_ Em%ustr_eqb_eq]. rewrite Em. by rewrite ustr_eqb_refl.
Qed.

(** ** What the index holds *)

Definition is_exact (e : entry) : bool := negb (cp_is_glob (fst e)).
Definition has_prefix (e : entry) : bool :=
  match first_literal_segment (fst e) with Some _ => true | None => false end.
Definition is_prefixed (e : entry) : bool := negb (is_exact e) && has_prefix e.
Definition is_root (e : entry) : bool := negb (is_exact e) && negb (has_prefix e).

Record index_rep (ix : ReservationIndex) (es : list entry) : Prop := {
  ir_sorted : bt_sorted (exact_by_path ix);
  ir_exact : flat_map snd (exact_by_path ix) ≡ₚ List.filter is_exact es;
  ir_exact_key k b e : In (k, b) (exact_by_path ix) -> In e b ->
    exists raw, fst e = compiled_new raw /\ cp_is_glob (fst e) = false /\ k = normalize_pattern raw;
  ir_glob : flat_map snd (map_to_list (globs_by_prefix ix)) ≡ₚ List.filter is_prefixed es;
  ir_glob_key k b e : globs_by_prefix ix !! k = Some b -> In e b ->
    exists raw, fst e = compiled_new raw /\ first_literal_segment (compiled_new raw) = Some k;
  ir_root : root_globs ix = List.filter is_root es;
}.

Lemma bt_upsert_bucket (e e' : entry) k m k' b :
  In (k', b) (bt_upsert [] (push_entry e) k m) -> In e' b ->
  (k' = k /\ e' = e) \/ exists b0, In (k', b0) m /\ In e' b0.
Proof.
  induction m as [|[k1 v1] m IH]; simpl.
  - intros [[= <- <-]|[]] [<-|[]]. auto.
  - destruct (ustr_eqb k k1) eqn:Ek.
    + apply ustr_eqb_eq in Ek as <-. intros [[= <- <-]|Hin] He; [|eauto].
      apply in_app_iff in He as [He|[<-|[]]]; eauto.
    + destruct (str_ltb k k1).
      * intros [[= <- <-]|Hin] He; [destruct He as [<-|[]]; auto|eauto].
      * intros [[= <- <-]|Hin] He; [eauto|]. destruct (IH Hin He) as [?|(b0 & ? & ?)]; eauto.
Qed.

Lemma index_add_rep ix es raw rref :
  index_rep ix es -> index_rep (index_add ix (raw, rref)) (es ++ [(compiled_new raw, rref)]).
Proof.
  intros [Hs He Hk Hg Hgk Hr]. unfold index_add.
  destruct (cp_is_glob (compiled_new raw)) eqn:Eg; simpl negb; cbv iota;
    [destruct (first_literal_segment (compiled_new raw)) as [p|] eqn:Ep|];
    split; cbn [exact_by_path globs_by_prefix root_globs]; rewrite ?List.filter_app; cbn [List.filter];
    unfold is_prefixed, is_root, is_exact, has_prefix; cbn [fst]; rewrite ?Eg, ?Ep;
    cbn [negb andb]; rewrite ?app_nil_r; try done.
  - unfold push_entry. rewrite gmap_push_flat. by apply Permutation_app_tail.
  - intros k b e Hb Hin. destruct (decide (k = p)) as [->|Hne].
    + rewrite lookup_partial_alter_eq in Hb. simplify_eq.
      apply in_app_iff in Hin as [Hin|[<-|[]]]; [|eauto].
      apply in_default in Hin as (b0 & E0 & Hin). eauto.
    + rewrite lookup_partial_alter_ne in Hb by done. eauto.
  - by rewrite Hr.
  - by apply bt_upsert_sorted.
  - unfold push_entry. rewrite bt_upsert_flat. by apply Permutation_app_tail.
  - intros k b e Hb Hin. destruct (bt_upsert_bucket _ _ _ _ _ _ Hb Hin) as [[-> ->]|(b0 & ? & ?)];
      eauto.
Qed.

Definition compile_item (item : ustr * ReservationRef) : entry :=
  (compiled_new (fst item), snd item).

Lemma index_build_rep rs : index_rep (index_build rs) (map compile_item rs).
Proof.
  unfold index_build.
  assert (forall rs ix es, index_rep ix es ->
    index_rep (foldl index_add ix rs) (es ++ map compile_item rs)) as H.
  { clear rs. induction rs as [|[raw rref] rs IH]; intros ix es Hr; cbn [foldl map]; [by rewrite app_nil_r|].
    rewrite (cons_middle _ es), app_assoc. apply IH. by apply index_add_rep. }
  apply (H rs _ []). split; simpl; try done. constructor.
Qed.

(** ** The scans *)

Section request.
Context (ix : ReservationIndex) (es : list entry) (raw : ustr).
Context (Hix : index_rep ix es).
Let req := compiled_new raw.
Let hit (e : entry) : bool := overlaps (fst e) req.

Lemma exact_hit_overlaps k b e :
  In (k, b) (exact_by_path ix) -> In e b -> exact_hit req e = hit e.
Proof.
  intros Hb Hin. destruct (ir_exact_key _ _ Hix _ _ _ Hb Hin) as (raw' & He & Hg & _).
  unfold exact_hit, hit, req. rewrite He in *. by apply exact_match_overlaps.
Qed.

Lemma filter_exact_hit l :
  (forall e, In e l -> exists k b, In (k, b) (exact_by_path ix) /\ In e b) ->
  List.filter (exact_hit req) l = List.filter hit l.
Proof.
  intros H. apply bfilter_ext_in. intros e He. destruct (H e He) as (k & b & ? & ?).
  by eapply exact_hit_overlaps.
Qed.

Lemma first_literal_exact raw' :
  cp_is_glob (compiled_new raw') = false -> normalize_pattern raw' <> [] ->
  first_literal_segment (compiled_new raw') = Some (first_seg (normalize_pattern raw')).
Proof.
  intros Hg Hne. apply first_literal_segment_new. simpl in *. split; [done|].
  destruct (norm_good raw') as [?|Hf]; [done|]. split; [done|].
  destruct (first_seg_split (normalize_pattern raw')) as [<-|[r Hr]]; [done|].
  rewrite Hr, has_glob_meta_app in Hg. by apply orb_false_iff in Hg as [-> _].
Qed.

(** An exact reservation hit through the literal prefix [p] is at [p], at the
    root, or below [p]. *)
Lemma exact_hit_route p k b e :
  first_literal_segment req = Some p -> In (k, b) (exact_by_path ix) -> In e b -> hit e = true ->
  k = [] \/ k = p \/ starts_with (p ++ [slash]) k = true.
Proof.
  intros Hp Hb Hin Hh. destruct (ir_exact_key _ _ Hix _ _ _ Hb Hin) as (raw' & He & Hg & ->).
  unfold hit in Hh. rewrite He in *.
  destruct (decide (normalize_pattern raw' = [])) as [?|Hne]; [by left|right].
  rewrite <- (overlaps_first_literal _ _ _ _ (first_literal_exact _ Hg Hne) Hp Hh).
  destruct (first_seg_split (normalize_pattern raw')) as [<-|[r Hr]]; [by left|right].
  apply starts_with_app. exists r. rewrite Hr at 1. by rewrite <- app_assoc.
Qed.

(** The glob groups: only the request's own prefix can hit. *)
Lemma scan_globs_hits :
  scan_globs ix req (first_literal_segment req) ≡ₚ List.filter hit (List.filter is_prefixed es).
Proof.
  unfold scan_globs. rewrite <- (bfilter_Permutation hit _ _ (ir_glob _ _ Hix)).
  destruct (first_literal_segment req) as [p|] eqn:Ep; [|done].
  apply (gmap_scan hit). intros k b e Hb Hin Hh.
  destruct (ir_glob_key _ _ Hix _ _ _ Hb Hin) as (raw' & He & Hk).
  unfold hit in Hh. rewrite He in Hh. by eapply overlaps_first_literal.
Qed.

(** ** Exact requests *)

Let n := normalize_pattern raw.
Let exact_keys : list ustr := n :: [] :: slash_prefixes n.

Lemma slash_prefixes_below (s x : ustr) : In x (slash_prefixes s) -> (length x < length s)%nat.
Proof. intros [r ->]%slash_prefixes_spec. rewrite length_app. simpl. lia. Qed.

Lemma exact_keys_nodup : n <> [] -> NoDup exact_keys.
Proof.
  intros Hne. unfold exact_keys. constructor; [|constructor; [|apply slash_prefixes_nodup]].
  - rewrite elem_of_cons, list_elem_of_In. intros [?|Hin%slash_prefixes_below]; [done|lia].
  - rewrite list_elem_of_In, slash_prefixes_spec. intros [r Hr].
    destruct (norm_good raw) as [?|Hf]; [done|]. fold n in Hf. by rewrite Hr in Hf.
Qed.

Lemma exact_keys_above k : In k exact_keys -> starts_with (n ++ [slash]) k = false.
Proof.
  intros Hin. destruct (starts_with (n ++ [slash]) k) eqn:E; [|done].
  apply starts_with_app in E as [r ->]. exfalso.
  destruct Hin as [H|[H|Hin%slash_prefixes_below]].
  - apply (f_equal length) in H. rewrite !length_app in H. simpl in H. lia.
  - by destruct n.
  - rewrite !length_app in Hin. lia.
Qed.

Lemma exact_hit_iff k b e :
  cp_is_glob req = false -> n <> [] -> In (k, b) (exact_by_path ix) -> In e b ->
  hit e = key_in exact_keys k || starts_with (n ++ [slash]) k.
Proof.
  intros Hg Hne Hb Hin. destruct (ir_exact_key _ _ Hix _ _ _ Hb Hin) as (raw' & He & Hg' & ->).
  unfold hit. rewrite He in *. apply eq_true_iff_eq. unfold req.
  rewrite (overlaps_exact raw' raw Hg' Hg), !is_directory_prefix_spec, orb_true_iff, key_in_elem.
  rewrite starts_with_app. fold n. unfold exact_keys. simpl. rewrite slash_prefixes_spec.
  assert ((exists r, normalize_pattern raw' = (n ++ [slash]) ++ r) <->
          (exists r, normalize_pattern raw' = n ++ slash :: r)) as ->.
  { split; intros [r Hr]; exists r; rewrite Hr; by rewrite <- app_assoc. }
  naive_solver.
Qed.

Lemma in_bucket_get k e : In e (bucket (bt_get k (exact_by_path ix))) ->
  exists b, In (k, b) (exact_by_path ix) /\ In e b.
Proof. intros (b & Hb%bt_get_in & Hin)%in_default. eauto. Qed.

Lemma in_descendants r e : In e (descendants r (exact_by_path ix)) ->
  exists k b, In (k, b) (exact_by_path ix) /\ In e b /\ starts_with (r ++ [slash]) k = true.
Proof.
  unfold descendants, descendant_prefix. destruct (is_empty r); [done|].
  rewrite bt_prefix_scan by apply Hix.
  intros ([k b] & [Hkb Hk]%filter_In & Hin)%in_flat_map. eauto.
Qed.

Lemma scan_exact_hits :
  cp_is_glob req = false -> n <> [] ->
  scan_exact_request ix req n (first_literal_segment req) ≡ₚ
  List.filter hit (List.filter is_exact es) ++ List.filter hit (List.filter is_prefixed es).
Proof.
  intros Hg Hne. unfold scan_exact_request, routing_key.
  replace (is_empty n) with false by (by destruct n). rewrite scan_globs_hits.
  rewrite !app_assoc. apply Permutation_app_tail.
  rewrite <- (bfilter_Permutation hit _ _ (ir_exact _ _ Hix)).
  rewrite <- (keyed_scan hit exact_keys (n ++ [slash])).
  - unfold descendants, descendant_prefix. replace (is_empty n) with false by (by destruct n).
    rewrite (bfilter_all_true hit (flat_map _ exact_keys)).
    + rewrite (bfilter_all_true hit); [simpl; by rewrite <- !app_assoc|].
      intros e Hin. destruct (in_descendants n e) as (k & b & Hb & He & Hk).
      { unfold descendants, descendant_prefix. by destruct (is_empty n) eqn:E; [destruct n|]. }
      rewrite (exact_hit_iff k b e) by done. by rewrite Hk, orb_true_r.
    + intros e (k & Hk & (b & Hb & He)%in_bucket_get)%in_flat_map.
      rewrite (exact_hit_iff k b e) by done. apply orb_true_iff. left. by apply key_in_elem.
  - apply Hix.
  - by apply exact_keys_nodup.
  - apply exact_keys_above.
  - intros k b e Hb He Hh. by rewrite <- (exact_hit_iff k b e).
Qed.

(** ** Glob requests and the root *)

Lemma first_literal_no_slash p : first_literal_segment req = Some p ->
  p <> [] /\ slash_prefixes p = [].
Proof.
  intros (-> & Hne & _)%first_literal_segment_new. split; [done|].
  clear Hne. unfold first_seg. induction (cp_norm _) as [|c s IH]; simpl; [done|].
  destruct (is_slash c) eqn:E; simpl; [done|]. by rewrite E, IH.
Qed.

Lemma in_exact_flat e : In e (flat_map snd (exact_by_path ix)) ->
  exists k b, In (k, b) (exact_by_path ix) /\ In e b.
Proof. intros ([k b] & ? & ?)%in_flat_map. eauto. Qed.

Lemma scan_glob_hits :
  scan_glob_request ix req (first_literal_segment req) ≡ₚ
  List.filter hit (List.filter is_exact es) ++ List.filter hit (List.filter is_prefixed es).
Proof.
  pose proof scan_globs_hits as Hglobs. unfold scan_globs in Hglobs.
  rewrite <- (bfilter_Permutation hit _ _ (ir_exact _ _ Hix)). unfold scan_glob_request, routing_key in *.
  destruct (first_literal_segment req) as [p|] eqn:Ep; simpl in Hglobs.
  - destruct (first_literal_no_slash p Ep) as [Hne Hsl]. rewrite Hsl. simpl.
    rewrite <- (keyed_scan hit [p; []] (p ++ [slash])).
    + rewrite !filter_exact_hit, Hglobs.
      * simpl. rewrite app_nil_r, List.filter_app, !app_assoc.
        unfold descendants, descendant_prefix. by destruct p.
      * intros e (k & b & ? & ? & _)%in_descendants. eauto.
      * intros e (b & ? & ?)%in_bucket_get. eauto.
      * intros e (b & ? & ?)%in_bucket_get. eauto.
    + apply Hix.
    + constructor; [set_solver|apply NoDup_singleton].
    + intros k [<-|[<-|[]]]; [|by destruct p].
      destruct (starts_with _ p) eqn:E; [|done]. apply starts_with_app in E as [r Hr].
      apply (f_equal length) in Hr. rewrite !length_app in Hr. simpl in Hr. lia.
    + intros k b e Hb He Hh. destruct (exact_hit_route p k b e Ep Hb He Hh) as [->|[->|H]].
      * simpl. by rewrite orb_true_r.
      * simpl. by rewrite ustr_eqb_refl.
      * by rewrite H, orb_true_r.
  - rewrite filter_exact_hit by apply in_exact_flat. by rewrite Hglobs.
Qed.

Lemma find_conflicts_hits : find_conflict_entries ix req ≡ₚ List.filter hit es.
Proof.
  unfold find_conflict_entries.
  rewrite (bfilter_Permutation hit _ _ (filter_partition is_exact es)), List.filter_app.
  assert (List.filter (fun e => negb (is_exact e)) es ≡ₚ
          List.filter is_prefixed es ++ List.filter is_root es) as Hsplit.
  { rewrite <- filter_split.
    - apply Permutation_refl', bfilter_ext_in. intros e _. unfold is_prefixed, is_root.
      destruct (is_exact e), (has_prefix e); done.
    - intros e _. unfold is_prefixed, is_root. destruct (is_exact e), (has_prefix e); done. }
  rewrite (bfilter_Permutation hit _ _ Hsplit), List.filter_app, app_assoc.
  rewrite (ir_root _ _ Hix). apply Permutation_app_tail.
  destruct (cp_is_glob req) eqn:Hg; cbn [orb]; [apply scan_glob_hits|].
  change (cp_norm req) with n.
  destruct (is_empty n) eqn:En; [apply scan_glob_hits|].
  apply scan_exact_hits; [done|]. intros E. by rewrite E in En.
Qed.
End request.

(** C14: the index is equivalent to the exhaustive check.  For every list of
    active reservations and every request, [find_conflicts] on the built index
    reports exactly the reservations whose pattern overlaps the request, each
    as often as it occurs, whatever glob engine with the documented behaviour
    compiled the patterns. *)
Theorem find_conflicts_brute_force rs raw :
  find_conflicts (index_build rs) (compiled_new raw) ≡ₚ brute_force rs (compiled_new raw).
Proof.
  unfold find_conflicts, brute_force.
  rewrite (find_conflicts_hits _ _ raw (index_build_rep rs)).
  induction rs as [|[r rref] rs IH]; simpl; [done|].
  destruct (overlaps _ _); simpl; [by apply Permutation_cons|done].
Qed.
End theory.

Lemma find_conflicts_brute_force_witness :
  let ref a p := mkRef a p true 100%Z in
  let rs := [(u "src/*.rs", ref 1%Z (u "src/*.rs")); (u "docs", ref 2%Z (u "docs"));
             (u "src", ref 3%Z (u "src")); (u "**", ref 4%Z (u "**"))] in
  map agent_id (find_conflicts (GE := simple_engine) (index_build rs)
                  (compiled_new (u "src/main.rs"))) = [3; 1; 4]%Z /\
  find_conflicts (GE := simple_engine) (index_build rs) (compiled_new (u "src/main.rs")) ≡ₚ
  brute_force (GE := simple_engine) rs (compiled_new (u "src/main.rs")).
Proof.
  split; [vm_compute; reflexivity|].
  apply (find_conflicts_brute_force (GE := simple_engine) (GL := simple_laws)).
Defined.
