(* ===== verification/LeaseIndex.v ===== *)
(** * The conflict index of the lease transaction ([db/src/queries.rs])

    The write transaction of a reservation builds its own index over the leases
    of the other agents.  It keeps patterns only, answers with the first one
    that overlaps a request, and stops at the first hit.  Shown here: a hit is a
    real overlap, and away from the project root no overlap is missed. *)

From S2P Require Import Prelude.
From S2P Require Import RustStr.
From S2P Require Import SeqOverlap.
From S2P Require Import Pattern.
From S2P Require Import PatternTheory.
From S2P Require Import GlobSimple.
From S2P Require Import ReservationIndex.
From S2P Require Import ReservationIndexTheory.

(** [Option::or_else] and [Iterator::find_map]. *)
Definition or_else {A} (o1 o2 : option A) : option A := match o1 with Some a => Some a | None => o2 end.
Fixpoint find_map {A B} (f : A -> option B) (l : list A) : option B :=
  match l with [] => None | x :: l => or_else (f x) (find_map f l) end.

Lemma or_else_Some {A} (o1 o2 : option A) a : or_else o1 o2 = Some a -> o1 = Some a \/ o2 = Some a.
Proof. destruct o1; simpl; auto. Qed.

Lemma or_else_None {A} (o1 o2 : option A) : or_else o1 o2 = None <-> o1 = None /\ o2 = None.
Proof. destruct o1; simpl; naive_solver. Qed.

Lemma find_map_Some {A B} (f : A -> option B) l b : find_map f l = Some b -> exists x, In x l /\ f x = Some b.
Proof.
  induction l as [|x l IH]; simpl; [done|].
  intros [H|H]%or_else_Some; [by eauto|]. destruct (IH H) as (y & ? & ?). eauto.
Qed.

Lemma find_map_None {A B} (f : A -> option B) l : find_map f l = None <-> forall x, In x l -> f x = None.
Proof.
  induction l as [|x l IH]; simpl; [naive_solver|]. rewrite or_else_None, IH. naive_solver.
Qed.

Lemma head_In {A} (l : list A) x : head l = Some x -> In x l.
Proof. destruct l; simpl; naive_solver. Qed.

Section lease_index.
  Context {GE : GlobEngine}.

(** @src db/src/queries.rs:14702-14706 ReservationConflictIndex *)
Record ReservationConflictIndex := mkConflictIndex {
  lx_exact_by_path : btree (list CompiledPattern);
  lx_globs_by_prefix : btree (list CompiledPattern);
  lx_root_globs : list CompiledPattern;
}.

(** [entry(k).or_insert_with(Vec::new).push(p)]. *)
Definition bt_push (k : ustr) (p : CompiledPattern) (m : btree (list CompiledPattern)) : btree (list CompiledPattern) :=
  bt_upsert [] (fun ps => ps ++ [p]) k m.

(** @src db/src/queries.rs:14714-14729 ReservationConflictIndex::build
    -- the body of the loop. *)
Definition conflict_index_add (ix : ReservationConflictIndex) (raw_pattern : ustr) : ReservationConflictIndex :=
  let compiled := compiled_new raw_pattern in
  if negb (cp_is_glob compiled) then
    mkConflictIndex (bt_push (cp_norm compiled) compiled (lx_exact_by_path ix))
      (lx_globs_by_prefix ix) (lx_root_globs ix)
  else
    match first_literal_segment compiled with
    | Some prefix =>
        mkConflictIndex (lx_exact_by_path ix) (bt_push prefix compiled (lx_globs_by_prefix ix)) (lx_root_globs ix)
    | None => mkConflictIndex (lx_exact_by_path ix) (lx_globs_by_prefix ix) (lx_root_globs ix ++ [compiled])
    end.

(** @src db/src/queries.rs:14709-14736 ReservationConflictIndex::build *)
Definition conflict_index_build (patterns : list ustr) : ReservationConflictIndex :=
  foldl conflict_index_add (mkConflictIndex [] [] []) patterns.

(** @src db/src/queries.rs:14861-14867 reservation_descendant_prefix *)
Definition reservation_descendant_prefix (norm : ustr) : option ustr :=
  if is_empty norm then None else Some (norm ++ [slash]).

(** @src db/src/queries.rs:14781-14790 first_exact_request_conflict
    -- the buckets below a path: [range(p..)] up to the first key outside. *)
Definition below (norm : ustr) (m : btree (list CompiledPattern)) : list (list CompiledPattern) :=
  match reservation_descendant_prefix norm with
  | None => []
  | Some p => map snd (take_while (fun e => starts_with p (fst e)) (bt_range_from p m))
  end.

(** @src db/src/queries.rs:14792-14804 first_exact_request_conflict
    -- the first glob that overlaps the request: of its prefix, or of all. *)
Definition first_glob (ix : ReservationConflictIndex) (request_pat : CompiledPattern) (req_prefix : option ustr) :
    option CompiledPattern :=
  let overlapping := List.find (fun pat => overlaps pat request_pat) in
  match req_prefix with
  | Some prefix => ps ← bt_get prefix (lx_globs_by_prefix ix); overlapping ps
  | None => overlapping (flat_map snd (lx_globs_by_prefix ix))
  end.

(** @src db/src/queries.rs:14756-14805 first_exact_request_conflict *)
Definition first_exact_request_conflict (ix : ReservationConflictIndex) (request_pat : CompiledPattern)
    (req_norm : ustr) (req_prefix : option ustr) : option CompiledPattern :=
  let exact_at path := ps ← bt_get path (lx_exact_by_path ix); head ps in
  or_else (exact_at req_norm)
    (or_else (find_map exact_at (slash_prefixes req_norm))
       (or_else (find_map head (below req_norm (lx_exact_by_path ix)))
          (first_glob ix request_pat req_prefix))).

(** @src db/src/queries.rs:14807-14858 first_glob_request_conflict *)
Definition first_glob_request_conflict (ix : ReservationConflictIndex) (request_pat : CompiledPattern)
    (req_prefix : option ustr) : option CompiledPattern :=
  let hit := List.find (fun exact_pat =>
               cp_matches request_pat (cp_norm exact_pat) || overlaps exact_pat request_pat) in
  match req_prefix with
  | Some prefix =>
      or_else (ps ← bt_get prefix (lx_exact_by_path ix); hit ps)
        (or_else (find_map hit (below prefix (lx_exact_by_path ix))) (first_glob ix request_pat req_prefix))
  | None => or_else (hit (flat_map snd (lx_exact_by_path ix))) (first_glob ix request_pat req_prefix)
  end.

(** @src db/src/queries.rs:14738-14754 first_conflict *)
Definition first_conflict (ix : ReservationConflictIndex) (request_pat : CompiledPattern) : option CompiledPattern :=
  let req_prefix := first_literal_segment request_pat in
  or_else
    (if cp_is_glob request_pat then first_glob_request_conflict ix request_pat req_prefix
     else first_exact_request_conflict ix request_pat (cp_norm request_pat) req_prefix)
    (List.find (fun res_pat => overlaps res_pat request_pat) (lx_root_globs ix)).
End lease_index.

(** ** The lease transaction's index finds every overlap below the root *)

Section theory.
  Context {GE : GlobEngine} {GL : GlobLaws}.
  Implicit Types (m : btree (list CompiledPattern)) (p q : CompiledPattern).

(** ** What is filed where *)

Definition filed m (k : ustr) p : Prop := exists b, In (k, b) m /\ In p b.

Lemma filed_cons k1 b m k p : filed ((k1, b) :: m) k p <-> (k = k1 /\ In p b) \/ filed m k p.
Proof.
  unfold filed. simpl. split.
  - intros (b' & [[= <- <-]|Hin] & Hp); eauto.
  - intros [[-> Hp]|(b' & ? & ?)]; eauto.
Qed.

Lemma filed_nil k p : filed [] k p <-> False.
Proof. unfold filed. naive_solver. Qed.

Lemma filed_push k p m k' q : filed (bt_push k p m) k' q <-> (k' = k /\ q = p) \/ filed m k' q.
Proof.
  unfold bt_push. induction m as [|[k1 b1] m IH]; simpl.
  - rewrite filed_cons. simpl. naive_solver.
  - destruct (ustr_eqb k k1) eqn:Ek; [apply ustr_eqb_eq in Ek as <-|destruct (str_ltb k k1)];
      rewrite !filed_cons, ?in_app_iff; rewrite ?IH; simpl; naive_solver.
Qed.

Lemma filed_flat m p : In p (flat_map snd m) <-> exists k, filed m k p.
Proof.
  rewrite in_flat_map. unfold filed. split.
  - intros ([k b] & ? & ?). eauto.
  - intros (k & b & ? & ?). by exists (k, b).
Qed.

Lemma filed_get m k p : bt_sorted m -> filed m k p <-> exists b, bt_get k m = Some b /\ In p b.
Proof.
  intros Hs. unfold filed. split; intros (b & Hb & Hp); exists b; eauto using bt_sorted_get, bt_get_in.
Qed.

Lemma filed_below m n b : bt_sorted m -> In b (below n m) <->
  n <> [] /\ exists k, In (k, b) m /\ starts_with (n ++ [slash]) k = true.
Proof.
  intros Hs. unfold below, reservation_descendant_prefix. destruct n as [|c n]; simpl is_empty; cbv iota.
  { naive_solver. }
  rewrite bt_prefix_scan, in_map_iff by done. split.
  - intros ([k b'] & <- & [Hin Hk]%filter_In). eauto.
  - intros (_ & k & Hin & Hk). exists (k, b). split; [done|]. by apply filter_In.
Qed.

Record conflict_rep (ix : ReservationConflictIndex) (raws : list ustr) : Prop := {
  cr_sorted : bt_sorted (lx_exact_by_path ix) /\ bt_sorted (lx_globs_by_prefix ix);
  cr_exact k p : filed (lx_exact_by_path ix) k p <->
    exists raw, In raw raws /\ p = compiled_new raw /\ cp_is_glob p = false /\ k = normalize_pattern raw;
  cr_glob k p : filed (lx_globs_by_prefix ix) k p <->
    exists raw, In raw raws /\ p = compiled_new raw /\ cp_is_glob p = true /\ first_literal_segment p = Some k;
  cr_root p : In p (lx_root_globs ix) <->
    exists raw, In raw raws /\ p = compiled_new raw /\ cp_is_glob p = true /\ first_literal_segment p = None;
}.

(** Adding an element to the list adds one alternative. *)
Lemma snoc_exists (raws : list ustr) raw (P : ustr -> Prop) :
  (exists r, In r (raws ++ [raw]) /\ P r) <-> P raw \/ exists r, In r raws /\ P r.
Proof.
  split.
  - intros (r & [Hr|[<-|[]]]%in_app_iff & HP); eauto.
  - intros [HP|(r & Hr & HP)]; eexists; (split; [apply in_app_iff|done]); [right; by left|by left].
Qed.

Lemma conflict_index_add_rep ix raws raw :
  conflict_rep ix raws -> conflict_rep (conflict_index_add ix raw) (raws ++ [raw]).
Proof.
  intros [[Hse Hsg] He Hg Hr]. unfold conflict_index_add. set (c := compiled_new raw).
  destruct (cp_is_glob c) eqn:Eg; simpl negb; cbv iota; [destruct (first_literal_segment c) as [pre|] eqn:Ep|];
    constructor; intros; cbn [lx_exact_by_path lx_globs_by_prefix lx_root_globs];
    rewrite ?snoc_exists, ?filed_push, ?in_app_iff; rewrite ?He, ?Hg, ?Hr; fold c;
    try (split; eauto using bt_upsert_sorted; fail); cbn [In];
    (split; [intros H; naive_solver|intros [(-> & ? & ?)|?]; [|by auto]; simplify_eq; try congruence; auto]).
Qed.

Lemma conflict_index_build_rep raws : conflict_rep (conflict_index_build raws) raws.
Proof.
  unfold conflict_index_build.
  assert (forall raws ix done_, conflict_rep ix done_ -> conflict_rep (foldl conflict_index_add ix raws) (done_ ++ raws)) as H.
  { clear raws. induction raws as [|raw raws IH]; intros ix d Hr; cbn [foldl]; [by rewrite app_nil_r|].
    rewrite cons_middle, app_assoc. apply IH. by apply conflict_index_add_rep. }
  apply (H raws _ []). constructor; cbn; intros; rewrite ?filed_nil; [split; constructor| | |]; naive_solver.
Qed.

(** ** One request *)

Section request.
Context (ix : ReservationConflictIndex) (raws : list ustr) (raw : ustr).
Context (Hix : conflict_rep ix raws).
Let req := compiled_new raw.
Let n := normalize_pattern raw.

(** [p] is one of the stored patterns and overlaps the request. *)
Definition real_conflict p : Prop := exists raw', In raw' raws /\ p = compiled_new raw' /\ overlaps p req = true.

Lemma exact_at_filed k p : (ps ← bt_get k (lx_exact_by_path ix); head ps) = Some p -> filed (lx_exact_by_path ix) k p.
Proof. intros (b & Hb%bt_get_in & Hp%head_In)%bind_Some. by exists b. Qed.

Lemma filed_exact_conflict k p : filed (lx_exact_by_path ix) k p ->
  cp_is_glob req = false -> k = n \/ In k (slash_prefixes n) \/ starts_with (n ++ [slash]) k = true -> real_conflict p.
Proof.
  intros (raw' & Hin & -> & Hg & ->)%(cr_exact _ _ Hix) Hreq Hk. exists raw'. split_and!; [done|done|].
  unfold req in *. rewrite overlaps_exact, !is_directory_prefix_spec by done. fold n.
  destruct Hk as [Hk|[[r Hk]%slash_prefixes_spec|[r Hk]%starts_with_app]]; [by left|right..].
  - left. right. by exists r.
  - right. right. exists r. by rewrite Hk, <- app_assoc.
Qed.

Lemma exact_match_conflict k p : filed (lx_exact_by_path ix) k p ->
  cp_matches req (cp_norm p) || overlaps p req = true -> real_conflict p.
Proof.
  intros (raw' & Hin & -> & Hg & ->)%(cr_exact _ _ Hix) Hm. exists raw'. split_and!; [done|done|].
  unfold req in *. by rewrite exact_match_overlaps in Hm.
Qed.

Lemma first_glob_conflict pre p : first_glob ix req pre = Some p -> real_conflict p.
Proof.
  intros H. assert (exists k, filed (lx_globs_by_prefix ix) k p) as [k Hk].
  { destruct pre as [k|]; simpl in H.
    - apply bind_Some in H as (b & Hb%bt_get_in & [Hp _]%find_some). exists k. by exists b.
    - apply find_some in H as [Hp _]. by apply filed_flat. }
  apply (cr_glob _ _ Hix) in Hk as (raw' & Hin & -> & _). exists raw'. split_and!; [done|done|].
  destruct pre; simpl in H; [apply bind_Some in H as (b & _ & H)|]; by apply find_some in H as [_ H].
Qed.

Lemma below_filed k b p : In b (below k (lx_exact_by_path ix)) -> In p b ->
  exists k', filed (lx_exact_by_path ix) k' p /\ starts_with (k ++ [slash]) k' = true.
Proof.
  intros (_ & k' & Hk & Hs)%filed_below Hp; [|apply Hix]. exists k'. split; [by exists b|done].
Qed.

Lemma first_exact_sound p : cp_is_glob req = false ->
  first_exact_request_conflict ix req n (first_literal_segment req) = Some p -> real_conflict p.
Proof.
  intros Hg [H|[H|[H|H]%or_else_Some]%or_else_Some]%or_else_Some.
  - apply exact_at_filed in H. eapply filed_exact_conflict; eauto.
  - apply find_map_Some in H as (k & Hk & H%exact_at_filed). eapply filed_exact_conflict; eauto.
  - apply find_map_Some in H as (b & Hb & H%head_In). destruct (below_filed _ _ _ Hb H) as (k & ? & ?).
    eapply filed_exact_conflict; eauto.
  - by eapply first_glob_conflict.
Qed.

Lemma first_glob_request_sound p :
  first_glob_request_conflict ix req (first_literal_segment req) = Some p -> real_conflict p.
Proof.
  unfold first_glob_request_conflict. destruct (first_literal_segment req) as [pre|].
  - intros [H|[H|H]%or_else_Some]%or_else_Some; [| |by eapply first_glob_conflict].
    + apply bind_Some in H as (b & Hb%bt_get_in & [Hp Hm]%find_some).
      apply (exact_match_conflict pre); [by exists b|done].
    + apply find_map_Some in H as (b & Hb & [Hp Hm]%find_some).
      destruct (below_filed _ _ _ Hb Hp) as (k & ? & _). by eapply exact_match_conflict.
  - intros [[Hp Hm]%find_some|H]%or_else_Some; [|by eapply first_glob_conflict].
    apply filed_flat in Hp as [k Hk]. by eapply exact_match_conflict.
Qed.

Lemma first_conflict_sound p : first_conflict ix req = Some p -> real_conflict p.
Proof.
  intros [H|[Hp Ho]%find_some]%or_else_Some.
  - destruct (cp_is_glob req) eqn:Hg; [by apply first_glob_request_sound|by apply first_exact_sound].
  - apply (cr_root _ _ Hix) in Hp as (raw' & ? & -> & _). by exists raw'.
Qed.

(** Conversely, a conflict makes the search answer. *)

Lemma find_hit {A} (f : A -> bool) l x : In x l -> f x = true -> List.find f l <> None.
Proof. intros Hin Hf Hn. by rewrite (find_none _ _ Hn x Hin) in Hf. Qed.

Lemma or_else_hit {A} (o1 o2 : option A) : o1 <> None \/ o2 <> None -> or_else o1 o2 <> None.
Proof. rewrite or_else_None. naive_solver. Qed.

Lemma find_map_hit {A B} (f : A -> option B) l x : In x l -> f x <> None -> find_map f l <> None.
Proof. rewrite find_map_None. intros Hin Hx H. by apply Hx, H. Qed.

Lemma filed_exact_at k p : filed (lx_exact_by_path ix) k p ->
  (ps ← bt_get k (lx_exact_by_path ix); head ps) <> None.
Proof.
  intros (b & Hb & Hp)%filed_get; [|apply Hix]. rewrite Hb. simpl. by destruct b.
Qed.

Lemma filed_below_bucket k k' p : k <> [] -> filed (lx_exact_by_path ix) k' p ->
  starts_with (k ++ [slash]) k' = true -> exists b, In b (below k (lx_exact_by_path ix)) /\ In p b.
Proof.
  intros Hk (b & Hb & Hp) Hs. exists b. split; [|done]. apply filed_below; [apply Hix|]. eauto.
Qed.

Lemma first_glob_complete raw' k : In raw' raws -> cp_is_glob (compiled_new raw') = true ->
  first_literal_segment (compiled_new raw') = Some k -> overlaps (compiled_new raw') req = true ->
  first_glob ix req (first_literal_segment req) <> None.
Proof.
  intros Hin Hg Hk Ho.
  assert (filed (lx_globs_by_prefix ix) k (compiled_new raw')) as Hf by (apply (cr_glob _ _ Hix); eauto).
  unfold first_glob. destruct (first_literal_segment req) as [p|] eqn:Ep.
  - rewrite <- (overlaps_first_literal _ _ _ _ Hk Ep Ho).
    apply filed_get in Hf as (b & Hb & Hp); [|apply Hix]. rewrite Hb. simpl. by eapply find_hit.
  - eapply find_hit; [|done]. apply filed_flat. eauto.
Qed.

Lemma first_exact_complete raw' : cp_is_glob req = false -> n <> [] -> In raw' raws ->
  cp_is_glob (compiled_new raw') = false -> normalize_pattern raw' <> [] ->
  overlaps (compiled_new raw') req = true ->
  first_exact_request_conflict ix req n (first_literal_segment req) <> None.
Proof.
  intros Hreq Hn Hin Hg Hn' Ho.
  assert (filed (lx_exact_by_path ix) (normalize_pattern raw') (compiled_new raw')) as Hf
    by (apply (cr_exact _ _ Hix); eauto).
  unfold req in Ho. rewrite overlaps_exact, !is_directory_prefix_spec in Ho by done. fold n in Ho.
  unfold first_exact_request_conflict. apply or_else_hit.
  destruct Ho as [Ho|[[?|[r Ho]]|[?|[r Ho]]]]; [left|done| |done|].
  - rewrite <- Ho. by eapply filed_exact_at.
  - right. apply or_else_hit. left. apply (find_map_hit _ _ (normalize_pattern raw')).
    + apply slash_prefixes_spec. by exists r.
    + by eapply filed_exact_at.
  - right. apply or_else_hit. right. apply or_else_hit. left.
    destruct (filed_below_bucket n _ _ Hn Hf) as (b & Hb & Hp).
    { apply starts_with_app. exists r. by rewrite <- app_assoc. }
    eapply find_map_hit; [done|]. by destruct b.
Qed.

Lemma first_glob_request_complete raw' : In raw' raws ->
  cp_is_glob (compiled_new raw') = false -> normalize_pattern raw' <> [] ->
  overlaps (compiled_new raw') req = true ->
  first_glob_request_conflict ix req (first_literal_segment req) <> None.
Proof.
  intros Hin Hg Hn' Ho.
  assert (filed (lx_exact_by_path ix) (normalize_pattern raw') (compiled_new raw')) as Hf
    by (apply (cr_exact _ _ Hix); eauto).
  assert (forall b, In (compiled_new raw') b -> List.find (fun exact_pat =>
     cp_matches req (cp_norm exact_pat) || overlaps exact_pat req) b <> None) as Hfind.
  { intros b Hb. eapply find_hit; [done|]. by rewrite Ho, orb_true_r. }
  unfold first_glob_request_conflict. pose proof (first_literal_exact _ Hg Hn') as Hl.
  destruct (first_literal_segment req) as [p|] eqn:Ep; apply or_else_hit.
  - pose proof (overlaps_first_literal _ _ _ _ Hl Ep Ho) as E.
    destruct (first_seg_split (normalize_pattern raw')) as [E'|[r Hr]].
    + left. rewrite E', E in Hf. apply filed_get in Hf as (b & Hb & Hp); [|apply Hix]. rewrite Hb. by apply Hfind.
    + right. apply or_else_hit. left. rewrite E in Hr.
      destruct (filed_below_bucket p _ _ (proj1 (first_literal_no_slash _ _ Ep)) Hf) as (b & Hb & Hp).
      { apply starts_with_app. exists r. by rewrite <- app_assoc. }
      eapply find_map_hit; [done|]. by apply Hfind.
  - left. apply Hfind, filed_flat. eauto.
Qed.

Lemma first_conflict_complete raw' : n <> [] -> In raw' raws -> normalize_pattern raw' <> [] ->
  overlaps (compiled_new raw') req = true -> first_conflict ix req <> None.
Proof.
  intros Hn Hin Hn' Ho. unfold first_conflict. apply or_else_hit.
  destruct (cp_is_glob (compiled_new raw')) eqn:Hg.
  - destruct (first_literal_segment (compiled_new raw')) as [k|] eqn:Hk; [left|right].
    + pose proof (first_glob_complete _ _ Hin Hg Hk Ho) as H.
      destruct (cp_is_glob req); unfold first_glob_request_conflict, first_exact_request_conflict.
      * destruct (first_literal_segment req); repeat (apply or_else_hit; right); done.
      * repeat (apply or_else_hit; right); done.
    + eapply find_hit; [|exact Ho]. apply (cr_root _ _ Hix). eauto.
  - left. destruct (cp_is_glob req) eqn:Hreq;
      [by eapply first_glob_request_complete|by eapply first_exact_complete].
Qed.
End request.

(** The check inside the write transaction is exact below the project root.
    Over any set of stored patterns none of which is the root itself, a request
    that is not the root is refused exactly when some stored pattern overlaps
    it, and the pattern named in the refusal is one of those. *)
Theorem lease_conflict_check_exact raws raw :
  normalize_pattern raw <> [] -> Forall (fun r => normalize_pattern r <> []) raws ->
  match first_conflict (conflict_index_build raws) (compiled_new raw) with
  | Some p => exists r, In r raws /\ p = compiled_new r /\ overlaps p (compiled_new raw) = true
  | None => forall r, In r raws -> overlaps (compiled_new r) (compiled_new raw) = false
  end.
Proof.
  intros Hn Hraws. pose proof (conflict_index_build_rep raws) as Hix.
  destruct (first_conflict _ _) as [p|] eqn:E; [by eapply first_conflict_sound|].
  intros r Hr. apply not_true_iff_false. intros Ho. revert E.
  apply (first_conflict_complete _ _ _ Hix r); [done..| |done].
  rewrite Forall_forall in Hraws. by apply Hraws, list_elem_of_In.
Qed.
End theory.

Lemma lease_conflict_check_exact_witness :
  let raws := [u "src/*.rs"; u "docs/guide.md"; u "*.toml"] in
  (exists r, In r raws /\ overlaps (GE := simple_engine) (compiled_new r) (compiled_new (u "docs")) = true) /\
  (forall r, In r raws -> overlaps (GE := simple_engine) (compiled_new r) (compiled_new (u "tests/a.rs")) = false).
Proof.
  pose proof (lease_conflict_check_exact (GE := simple_engine) (GL := simple_laws)
    [u "src/*.rs"; u "docs/guide.md"; u "*.toml"]) as H.
  assert (Forall (fun r => normalize_pattern r <> []) [u "src/*.rs"; u "docs/guide.md"; u "*.toml"]) as Hf.
  { repeat constructor; vm_compute; discriminate. }
  split.
  - specialize (H (u "docs") ltac:(vm_compute; discriminate) Hf).
    destruct (first_conflict _ _) as [p|] eqn:E; [|vm_compute in E; discriminate].
    destruct H as (r & Hr & -> & Ho). eauto.
  - specialize (H (u "tests/a.rs") ltac:(vm_compute; discriminate) Hf).
    destruct (first_conflict _ _) as [p|] eqn:E; [vm_compute in E; discriminate|done].
Defined.

(** The root is the exception: a lease on the whole project directory is not
    found by a request inside it, although the two overlap. *)
Lemma root_lease_missed :
  first_conflict (GE := simple_engine) (conflict_index_build [u "."]) (compiled_new (u "src/main.rs")) = None /\
  overlaps (GE := simple_engine) (compiled_new (u ".")) (compiled_new (u "src/main.rs")) = true.
Proof. vm_compute. by split. Qed.
