(* ===== verification/S3Fifo.v ===== *)
(** * The S3-FIFO cache ([db/src/s3fifo.rs])

    Three FIFO queues of [(key, seq)] pairs and an index of nodes; entries of
    a queue whose node is gone or has another [seq] are tombstones.  Counters
    and sequence numbers are integers ([usize]/[u64]; the theorems show that
    the counters never go below zero, and [seq_gen] grows by at most a few
    units per operation).  Every loop is structural: the small and ghost loops
    on the queue they pop, the main loop on the budget of the source. *)

From S2P Require Import Prelude.

Section S3Fifo.
  Context {K : Type} `{Countable K} {V : Type}.

(** @src db/src/s3fifo.rs:21-27 Node *)
Inductive Node :=
| Small (value : V) (freq : Z) (seq : Z)
| Main (value : V) (freq : Z) (seq : Z)
| Ghost (seq : Z).

(** @src db/src/s3fifo.rs:45-60 S3FifoCache *)
Record S3FifoCache := mkS3 {
  small : list (K * Z);
  main : list (K * Z);
  ghost : list (K * Z);
  index : gmap K Node;
  small_capacity : Z;
  main_capacity : Z;
  ghost_capacity : Z;
  seq_gen : Z;
  small_live_count : Z;
  main_live_count : Z;
  ghost_live_count : Z;
}.

(** Which queue a node belongs to. *)
Inductive kind := KSmall | KMain | KGhost.

Definition node_kind (n : Node) : kind :=
  match n with Small _ _ _ => KSmall | Main _ _ _ => KMain | Ghost _ => KGhost end.
Definition node_seq (n : Node) : Z :=
  match n with Small _ _ s => s | Main _ _ s => s | Ghost s => s end.
Definition node_value (n : Node) : option V :=
  match n with Small v _ _ => Some v | Main v _ _ => Some v | Ghost _ => None end.

Definition kind_eqb (a b : kind) : bool :=
  match a, b with KSmall, KSmall | KMain, KMain | KGhost, KGhost => true | _, _ => false end.

Definition queue (k : kind) (c : S3FifoCache) : list (K * Z) :=
  match k with KSmall => small c | KMain => main c | KGhost => ghost c end.
Definition live (k : kind) (c : S3FifoCache) : Z :=
  match k with
  | KSmall => small_live_count c | KMain => main_live_count c | KGhost => ghost_live_count c
  end.
Definition cap (k : kind) (c : S3FifoCache) : Z :=
  match k with
  | KSmall => small_capacity c | KMain => main_capacity c | KGhost => ghost_capacity c
  end.

(** Assignments to one field. *)
Definition set_queue (k : kind) (q : list (K * Z)) (c : S3FifoCache) : S3FifoCache :=
  {| small := if kind_eqb k KSmall then q else small c;
     main := if kind_eqb k KMain then q else main c;
     ghost := if kind_eqb k KGhost then q else ghost c;
     index := index c; small_capacity := small_capacity c; main_capacity := main_capacity c;
     ghost_capacity := ghost_capacity c; seq_gen := seq_gen c;
     small_live_count := small_live_count c; main_live_count := main_live_count c;
     ghost_live_count := ghost_live_count c |}.
Definition set_index (m : gmap K Node) (c : S3FifoCache) : S3FifoCache :=
  {| small := small c; main := main c; ghost := ghost c;
     index := m; small_capacity := small_capacity c; main_capacity := main_capacity c;
     ghost_capacity := ghost_capacity c; seq_gen := seq_gen c;
     small_live_count := small_live_count c; main_live_count := main_live_count c;
     ghost_live_count := ghost_live_count c |}.
Definition set_seq (s : Z) (c : S3FifoCache) : S3FifoCache :=
  {| small := small c; main := main c; ghost := ghost c;
     index := index c; small_capacity := small_capacity c; main_capacity := main_capacity c;
     ghost_capacity := ghost_capacity c; seq_gen := s;
     small_live_count := small_live_count c; main_live_count := main_live_count c;
     ghost_live_count := ghost_live_count c |}.
Definition add_live (k : kind) (d : Z) (c : S3FifoCache) : S3FifoCache :=
  {| small := small c; main := main c; ghost := ghost c;
     index := index c; small_capacity := small_capacity c; main_capacity := main_capacity c;
     ghost_capacity := ghost_capacity c; seq_gen := seq_gen c;
     small_live_count := if kind_eqb k KSmall then small_live_count c + d else small_live_count c;
     main_live_count := if kind_eqb k KMain then main_live_count c + d else main_live_count c;
     ghost_live_count := if kind_eqb k KGhost then ghost_live_count c + d else ghost_live_count c |}.

(** @src db/src/s3fifo.rs:76-93 S3FifoCache::new
    -- for a positive capacity (the source panics on 0). *)
Definition s3_new (capacity : Z) : S3FifoCache :=
  let small_cap := Z.max (capacity / 10) 1 in
  {| small := []; main := []; ghost := []; index := ∅;
     small_capacity := small_cap; main_capacity := capacity - small_cap;
     ghost_capacity := capacity; seq_gen := 0;
     small_live_count := 0; main_live_count := 0; ghost_live_count := 0 |}.

(** [*freq = ( *freq + 1).min(3)] *)
Definition bump (freq : Z) : Z := Z.min (freq + 1) 3.

(** @src db/src/s3fifo.rs:129-145 S3FifoCache::get_mut
    -- the caller's write through the reference is [f]. *)
Definition s3_get_mut (key : K) (f : V -> V) (c : S3FifoCache) : option V * S3FifoCache :=
  match index c !! key with
  | Some (Small value freq seq) =>
      (Some value, set_index (<[key := Small (f value) (bump freq) seq]> (index c)) c)
  | Some (Main value freq seq) =>
      (Some value, set_index (<[key := Main (f value) (bump freq) seq]> (index c)) c)
  | _ => (None, c)
  end.

(** @src db/src/s3fifo.rs:95-111 S3FifoCache::get *)
Definition s3_get (key : K) (c : S3FifoCache) : option V * S3FifoCache :=
  match index c !! key with
  | Some (Small value freq seq) =>
      (Some value, set_index (<[key := Small value (bump freq) seq]> (index c)) c)
  | Some (Main value freq seq) =>
      (Some value, set_index (<[key := Main value (bump freq) seq]> (index c)) c)
  | _ => (None, c)
  end.

(** @src db/src/s3fifo.rs:113-127 S3FifoCache::peek *)
Definition s3_peek (key : K) (c : S3FifoCache) : option V :=
  match index c !! key with
  | Some (Small value _ _) => Some value
  | Some (Main value _ _) => Some value
  | _ => None
  end.

(** @src db/src/s3fifo.rs:147-158 S3FifoCache::contains_key *)
Definition s3_contains_key (key : K) (c : S3FifoCache) : bool :=
  match index c !! key with
  | Some (Small _ _ _) | Some (Main _ _ _) => true
  | _ => false
  end.

(** Does the index still hold the node this queue entry stands for? *)
Definition entry_live (k : kind) (m : gmap K Node) (e : K * Z) : bool :=
  match m !! fst e with
  | Some n => kind_eqb (node_kind n) k && (node_seq n =? snd e)
  | None => false
  end.

(** The retain of the compaction blocks (291-303, 369-381, 444-453), run when
    the queue exceeds [capacity.saturating_mul(4).max(4)]. *)
Definition compact (k : kind) (c : S3FifoCache) : S3FifoCache :=
  if Z.max (usat_mul (cap k c) 4) 4 <? Z.of_nat (length (queue k c))
  then set_queue k (List.filter (entry_live k (index c)) (queue k c)) c
  else c.

(** [index.remove(&key)] with its live counter decremented. *)
Definition take_out (k : kind) (key : K) (c : S3FifoCache) : S3FifoCache :=
  add_live k (-1) (set_index (delete key (index c)) c).

(** [queue.push_back((key, seq))], [index.insert(key, node)], counter + 1. *)
Definition push_node (key : K) (n : Node) (c : S3FifoCache) : S3FifoCache :=
  add_live (node_kind n) 1
    (set_index (<[key := n]> (index c))
      (set_queue (node_kind n) (queue (node_kind n) c ++ [(key, node_seq n)]) c)).

(** @src db/src/s3fifo.rs:455-466 evict_ghost_if_full
    -- the loop; [q] is the queue being popped. *)
Fixpoint evict_ghost_loop (q : list (K * Z)) (c : S3FifoCache) : S3FifoCache :=
  if ghost_capacity c <=? ghost_live_count c then
    match q with
    | [] => set_queue KGhost [] c
    | (key, expected_seq) :: q =>
        evict_ghost_loop q
          (match index c !! key with
           | Some (Ghost current_seq) =>
               if current_seq =? expected_seq then take_out KGhost key c else c
           | _ => c
           end)
    end
  else set_queue KGhost q c.

(** @src db/src/s3fifo.rs:441-467 evict_ghost_if_full *)
Definition evict_ghost_if_full (c : S3FifoCache) : S3FifoCache :=
  let c := compact KGhost c in evict_ghost_loop (ghost c) c.

(** @src db/src/s3fifo.rs:384-394 evict_main_if_full
    -- the drain for a zero main capacity. *)
Fixpoint drain_main_loop (q : list (K * Z)) (c : S3FifoCache) : S3FifoCache :=
  match q with
  | [] => set_queue KMain [] c
  | (key, expected_seq) :: q =>
      drain_main_loop q
        (match index c !! key with
         | Some (Main _ _ current_seq) =>
             if current_seq =? expected_seq then take_out KMain key c else c
         | _ => c
         end)
  end.

(** @src db/src/s3fifo.rs:400-437 evict_main_if_full
    -- one iteration on the popped entry, [main] already holding the rest. *)
Definition evict_main_step (key : K) (expected_seq : Z) (c : S3FifoCache) : S3FifoCache :=
  match index c !! key with
  | Some (Main value freq current_seq) =>
      if negb (current_seq =? expected_seq) then c
      else
        let c := take_out KMain key c in
        if 1 <=? freq then
          let c := set_seq (seq_gen c + 1) c in
          push_node key (Main value (freq - 1) (seq_gen c)) c
        else c
  | _ => c
  end.

(** @src db/src/s3fifo.rs:397-438 evict_main_if_full
    -- the budgeted loop. *)
Fixpoint evict_main_loop (budget : nat) (c : S3FifoCache) : S3FifoCache :=
  match budget with
  | O => c
  | S budget =>
      if main_capacity c <=? main_live_count c then
        match main c with
        | [] => c
        | (key, expected_seq) :: q =>
            evict_main_loop budget (evict_main_step key expected_seq (set_queue KMain q c))
        end
      else c
  end.

(** @src db/src/s3fifo.rs:363-439 evict_main_if_full *)
Definition evict_main_if_full (c : S3FifoCache) : S3FifoCache :=
  let c := compact KMain c in
  if main_capacity c =? 0 then drain_main_loop (main c) c
  else evict_main_loop (length (main c) * 4 + 1) c.

(** @src db/src/s3fifo.rs:323-359 evict_small_if_full
    -- the body once the popped entry is known to be live. *)
Definition evict_small_node (key : K) (value : V) (freq : Z) (c : S3FifoCache) : S3FifoCache :=
  let c := take_out KSmall key c in
  let c := set_seq (seq_gen c + 1) c in
  let new_seq := seq_gen c in
  if 1 <=? freq then
    if main_capacity c =? 0 then
      push_node key (Ghost new_seq) (evict_ghost_if_full c)
    else push_node key (Main value 0 new_seq) (evict_main_if_full c)
  else push_node key (Ghost new_seq) (evict_ghost_if_full c).

(** @src db/src/s3fifo.rs:305-360 evict_small_if_full
    -- the loop; nothing pushes to [small] while it runs. *)
Fixpoint evict_small_loop (q : list (K * Z)) (c : S3FifoCache) : S3FifoCache :=
  if small_capacity c <=? small_live_count c then
    match q with
    | [] => set_queue KSmall [] c
    | (key, expected_seq) :: q =>
        evict_small_loop q
          (match index c !! key with
           | Some (Small value freq current_seq) =>
               if negb (current_seq =? expected_seq) then c
               else evict_small_node key value freq (set_queue KSmall q c)
           | _ => c
           end)
    end
  else set_queue KSmall q c.

(** @src db/src/s3fifo.rs:284-361 evict_small_if_full *)
Definition evict_small_if_full (c : S3FifoCache) : S3FifoCache :=
  let c := compact KSmall c in evict_small_loop (small c) c.

(** @src db/src/s3fifo.rs:160-237 S3FifoCache::insert *)
Definition s3_insert (key : K) (value : V) (c : S3FifoCache) : S3FifoCache :=
  let c := set_seq (seq_gen c + 1) c in
  let seq := seq_gen c in
  match index c !! key with
  | Some (Small _ freq n_seq) =>
      set_index (<[key := Small value (bump freq) n_seq]> (index c)) c
  | Some (Main _ freq n_seq) =>
      set_index (<[key := Main value (bump freq) n_seq]> (index c)) c
  | Some (Ghost _) =>
      let c := add_live KGhost (-1) c in
      if main_capacity c =? 0 then
        push_node key (Small value 0 seq) (evict_small_if_full c)
      else push_node key (Main value 0 seq) (evict_main_if_full c)
  | None => push_node key (Small value 0 seq) (evict_small_if_full c)
  end.

(** @src db/src/s3fifo.rs:257-282 S3FifoCache::remove *)
Definition s3_remove (key : K) (c : S3FifoCache) : option V * S3FifoCache :=
  match index c !! key with
  | Some (Small value _ _) => (Some value, take_out KSmall key c)
  | Some (Main value _ _) => (Some value, take_out KMain key c)
  | Some (Ghost _) => (None, take_out KGhost key c)
  | None => (None, c)
  end.

(** @src db/src/s3fifo.rs:469-478 S3FifoCache::clear *)
Definition s3_clear (c : S3FifoCache) : S3FifoCache :=
  {| small := []; main := []; ghost := []; index := ∅;
     small_capacity := small_capacity c; main_capacity := main_capacity c;
     ghost_capacity := ghost_capacity c; seq_gen := seq_gen c;
     small_live_count := 0; main_live_count := 0; ghost_live_count := 0 |}.

(** @src db/src/s3fifo.rs:239-243 S3FifoCache::len *)
Definition s3_len (c : S3FifoCache) : Z := small_live_count c + main_live_count c.

(** @src db/src/s3fifo.rs:245-249 S3FifoCache::is_empty *)
Definition s3_is_empty (c : S3FifoCache) : bool := s3_len c =? 0.

(** @src db/src/s3fifo.rs:251-255 S3FifoCache::capacity *)
Definition s3_capacity (c : S3FifoCache) : Z := small_capacity c + main_capacity c.

(** @src db/src/s3fifo.rs:480-496 ghost_len, small_len, main_len *)
Definition s3_lens (c : S3FifoCache) : Z * Z * Z :=
  (small_live_count c, main_live_count c, ghost_live_count c).

(** @src db/src/s3fifo.rs:498-504 S3FifoCache::keys *)
Definition s3_keys (c : S3FifoCache) : list K :=
  omap (fun '(k, n) => match n with Ghost _ => None | _ => Some k end) (map_to_list (index c)).

(** ** Operation sequences *)

Inductive s3_op :=
| OpInsert (key : K) (value : V)
| OpGet (key : K)
| OpGetMut (key : K) (f : V -> V)
| OpRemove (key : K)
| OpClear.

Definition s3_apply (c : S3FifoCache) (o : s3_op) : S3FifoCache :=
  match o with
  | OpInsert key value => s3_insert key value c
  | OpGet key => snd (s3_get key c)
  | OpGetMut key f => snd (s3_get_mut key f c)
  | OpRemove key => snd (s3_remove key c)
  | OpClear => s3_clear c
  end.

(** The map of last writes the cache approximates. *)
Definition last_writes (m : gmap K V) (o : s3_op) (c : S3FifoCache) : gmap K V :=
  match o with
  | OpInsert key value => <[key := value]> m
  | OpGet _ => m
  | OpGetMut key f => if s3_contains_key key c then alter f key m else m
  | OpRemove key => delete key m
  | OpClear => ∅
  end.
End S3Fifo.
Arguments Node : clear implicits.
Arguments S3FifoCache K {_ _} V.
Arguments s3_op : clear implicits.
