(* ===== verification/S3FifoTheory.v ===== *)
(** * Invariants of the S3-FIFO cache *)

From S2P Require Import Prelude.
From S2P Require Import S3Fifo.

#[export] Instance kind_eq_dec : EqDecision kind.
Proof. solve_decision. Defined.

Lemma kind_eqb_eq a b : kind_eqb a b = true <-> a = b.
Proof. by destruct a, b. Qed.

Section theory.
  Context {K : Type} `{Countable K} {V : Type}.
  Implicit Types c : S3FifoCache K V.

(** ** Counting nodes *)

Definition cnt (k : kind) (m : gmap K (Node V)) : Z :=
  Z.of_nat (size (filter (fun kv => node_kind (snd kv) = k) m)).

Lemma cnt_nonneg k m : 0 <= cnt k m.
Proof. unfold cnt. lia. Qed.

Lemma cnt_insert k m key n :
  m !! key = None -> cnt k (<[key := n]> m) = cnt k m + (if decide (node_kind n = k) then 1 else 0).
Proof.
  intros Hn. unfold cnt. destruct (decide (node_kind n = k)) as [E|E].
  - rewrite map_filter_insert_True by done. rewrite map_size_insert_None; [lia|].
    apply map_lookup_filter_None. by left.
  - rewrite map_filter_insert_False by done. rewrite delete_id by done. lia.
Qed.

Lemma cnt_delete k m key n :
  m !! key = Some n -> cnt k (delete key m) = cnt k m - (if decide (node_kind n = k) then 1 else 0).
Proof.
  intros Hn. rewrite <- (insert_delete_id m key n Hn) at 2.
  rewrite cnt_insert by apply lookup_delete_eq. lia.
Qed.

Lemma cnt_zero k m : (forall key n, m !! key = Some n -> node_kind n <> k) -> cnt k m = 0.
Proof.
  intros Hm. unfold cnt. replace (filter _ m) with (∅ : gmap K (Node V)); [done|].
  symmetry. apply map_empty. intros key. apply map_lookup_filter_None. right. intros n Hn. simpl. eauto.
Qed.

(** ** Projections of the assignments *)

Lemma queue_set_queue k k' q c :
  queue k (set_queue k' q c) = if decide (k = k') then q else queue k c.
Proof. by destruct k, k'. Qed.
Lemma live_add_live k k' d c :
  live k (add_live k' d c) = live k c + (if decide (k = k') then d else 0).
Proof. destruct k, k'; simpl; lia. Qed.
Lemma set_queue_same k c : set_queue k (queue k c) c = c.
Proof. by destruct c, k. Qed.
Lemma queue_take_out k k' key c : queue k (take_out k' key c) = queue k c.
Proof. by destruct k. Qed.
Lemma queue_push_node k key n c :
  queue k (push_node key n c) =
  if decide (k = node_kind n) then queue k c ++ [(key, node_seq n)] else queue k c.
Proof. by destruct k, n. Qed.
Lemma live_set_queue k k' q c : live k (set_queue k' q c) = live k c.
Proof. by destruct k. Qed.
Lemma live_take_out k k' key c :
  live k (take_out k' key c) = live k c - (if decide (k = k') then 1 else 0).
Proof. destruct k, k'; simpl; lia. Qed.
Lemma live_push_node k key n c :
  live k (push_node key n c) = live k c + (if decide (k = node_kind n) then 1 else 0).
Proof. destruct k, n; simpl; lia. Qed.

(** ** The invariant

    [x] is a key being moved out of the ghost queue by [insert]: its ghost
    node is still in the index while the ghost counter already excludes it. *)

Definition vis (x : option K) (c : S3FifoCache K V) : gmap K (Node V) :=
  match x with Some k => delete k (index c) | None => index c end.

Definition node_freq (n : Node V) : Z :=
  match n with Small _ f _ => f | Main _ f _ => f | Ghost _ => 0 end.

Record inv (x : option K) (c : S3FifoCache K V) : Prop := {
  i_live k : live k c = cnt k (vis x c);
  i_queue k key n : vis x c !! key = Some n -> node_kind n = k -> (key, node_seq n) ∈ queue k c;
  i_fresh k e : e ∈ queue k c -> snd e <= seq_gen c;
  i_nodup k : NoDup (queue k c);
  i_freq key n : vis x c !! key = Some n -> 0 <= node_freq n <= 3;
  i_caps : ghost_capacity c = small_capacity c + main_capacity c /\
           small_capacity c = Z.max (ghost_capacity c / 10) 1 /\
           0 <= main_capacity c /\ ghost_capacity c <= i64_max;
  i_x k : x = Some k -> exists s, index c !! k = Some (Ghost s);
}.

(** What evictions may change. *)
Record evolves (c c' : S3FifoCache K V) : Prop := {
  e_caps k : cap k c' = cap k c;
  e_seq : seq_gen c <= seq_gen c';
  e_queue k e : e ∈ queue k c' -> e ∈ queue k c \/ seq_gen c < snd e;
  e_none key : index c !! key = None -> index c' !! key = None;
  e_peek key v : s3_peek key c' = Some v -> s3_peek key c = Some v;
}.

#[export] Instance evolves_preorder : PreOrder evolves.
Proof.
  split.
  - intros c. split; auto. lia.
  - intros c1 c2 c3 H1 H2. split.
    + intros k. rewrite (e_caps _ _ H2). apply H1.
    + pose proof (e_seq _ _ H1). pose proof (e_seq _ _ H2). lia.
    + intros k e He. pose proof (e_seq _ _ H1).
      destruct (e_queue _ _ H2 k e He) as [He'|?]; [by apply H1|right; lia].
    + intros key Hk. by apply H2, H1.
    + intros key v Hk. by apply H1, H2.
Qed.

Lemma vis_lookup x c key n : vis x c !! key = Some n -> index c !! key = Some n /\ x <> Some key.
Proof.
  unfold vis. destruct x as [k|]; [|done].
  intros [Hne ?]%lookup_delete_Some. split; [done|]. intros [= ->]. done.
Qed.

Lemma vis_lookup_ne x c key : x <> Some key -> vis x c !! key = index c !! key.
Proof. unfold vis. destruct x as [k|]; [|done]. intros Hx. apply lookup_delete_ne. congruence. Qed.

(** An indexed node other than a ghost is never the excluded key. *)
Lemma inv_not_x x c key n :
  inv x c -> index c !! key = Some n -> node_kind n <> KGhost -> x <> Some key.
Proof.
  intros Hi Hn Hk ->. destruct (i_x _ _ Hi key eq_refl) as [s Hs]. rewrite Hn in Hs. by simplify_eq.
Qed.

(** Replacing a queue by some of its entries, keeping those of live nodes. *)
Lemma set_queue_inv x c k q :
  inv x c -> (forall e, e ∈ q -> e ∈ queue k c) -> NoDup q ->
  (forall key n, vis x c !! key = Some n -> node_kind n = k -> (key, node_seq n) ∈ q) ->
  inv x (set_queue k q c).
Proof.
  intros Hi Hsub Hnd Hq. destruct Hi as [Hl Hqu Hf Hn Hfr Hc Hx].
  assert (vis x (set_queue k q c) = vis x c) as Hv by done.
  split; try done.
  - intros k' key n. rewrite Hv, queue_set_queue. destruct (decide (k' = k)) as [->|]; auto.
  - intros k' e. rewrite queue_set_queue. destruct (decide (k' = k)) as [->|]; [|by apply Hf].
    intros He. by apply (Hf k), Hsub.
  - intros k'. rewrite queue_set_queue. by destruct (decide (k' = k)).
Qed.

Lemma pop_dead x c k key s q :
  inv x c -> queue k c = (key, s) :: q ->
  (forall n, vis x c !! key = Some n -> node_kind n = k -> node_seq n <> s) ->
  inv x (set_queue k q c).
Proof.
  intros Hi Hq Hd. pose proof (i_nodup _ _ Hi k) as Hnd. rewrite Hq in Hnd.
  apply NoDup_cons in Hnd as [_ Hnd]. apply set_queue_inv; [done| |done|].
  - intros e He. rewrite Hq. by right.
  - intros key' n Hn Hk. pose proof (i_queue _ _ Hi k key' n Hn Hk) as Hin. rewrite Hq in Hin.
    apply elem_of_cons in Hin as [[= -> E]|?]; [|done]. by destruct (Hd n Hn Hk).
Qed.

Lemma pop_take x c k key n q :
  inv x c -> queue k c = (key, node_seq n) :: q -> x <> Some key ->
  index c !! key = Some n -> node_kind n = k -> inv x (take_out k key (set_queue k q c)).
Proof.
  intros Hi Hq Hne Hn Hk. pose proof (i_nodup _ _ Hi k) as Hnd. rewrite Hq in Hnd.
  apply NoDup_cons in Hnd as [_ Hnd].
  assert (vis x (take_out k key (set_queue k q c)) = delete key (vis x c)) as Hv.
  { unfold vis. destruct x; simpl; [apply delete_delete|done]. }
  destruct Hi as [Hl Hqu Hf Hn' Hfr Hc Hx]. split; try done.
  - intros k'. rewrite Hv, live_take_out, live_set_queue, (cnt_delete k' _ key n), Hl.
    + destruct (decide (k' = k)), (decide (node_kind n = k')); congruence || lia.
    + by rewrite vis_lookup_ne.
  - intros k' key' n'. rewrite Hv, queue_take_out, queue_set_queue.
    intros [Hne' Hn2]%lookup_delete_Some Hk'. pose proof (Hqu k' key' n' Hn2 Hk') as Hin.
    destruct (decide (k' = k)) as [E|]; [|done]. rewrite E, Hq in Hin.
    apply elem_of_cons in Hin as [?|?]; [|done]. congruence.
  - intros k' e. rewrite queue_take_out, queue_set_queue.
    destruct (decide (k' = k)) as [E|]; [|by apply Hf]. intros He. apply (Hf k). rewrite Hq. by right.
  - intros k'. rewrite queue_take_out, queue_set_queue. by destruct (decide (k' = k)).
  - intros key' n'. rewrite Hv. intros [_ ?]%lookup_delete_Some. by eapply Hfr.
  - intros k0 Hk0. destruct (Hx k0 Hk0) as [s Hs]. exists s. simpl.
    rewrite lookup_delete_ne; [done|]. congruence.
Qed.

Lemma set_seq_inv x c s : inv x c -> seq_gen c <= s -> inv x (set_seq s c).
Proof.
  intros [Hl Hqu Hf Hn' Hfr Hc Hx] Hs. split; try done.
  intros k e He. simpl. specialize (Hf k e). destruct k; simpl in *; specialize (Hf He); lia.
Qed.

Lemma set_seq_evolves c s : seq_gen c <= s -> evolves c (set_seq s c).
Proof. intros Hs. split; auto. Qed.

Lemma take_out_evolves c k key : evolves c (take_out k key c).
Proof.
  split; simpl; [by destruct k|lia| | |].
  - intros k' e. rewrite queue_take_out. auto.
  - intros key' Hn. destruct (decide (key' = key)) as [->|]; [by rewrite lookup_delete_eq|].
    by rewrite lookup_delete_ne.
  - intros key' v. unfold s3_peek. simpl. destruct (decide (key' = key)) as [->|].
    + by rewrite lookup_delete_eq.
    + by rewrite lookup_delete_ne.
Qed.

Lemma set_queue_evolves c k q : (forall e, e ∈ q -> e ∈ queue k c) -> evolves c (set_queue k q c).
Proof.
  intros Hsub. split; simpl; auto; [lia|]. intros k' e. rewrite queue_set_queue.
  destruct (decide (k' = k)) as [->|]; auto.
Qed.

Lemma push_node_inv x x' c key n :
  inv x c -> vis x' (push_node key n c) = <[key := n]> (vis x c) -> vis x c !! key = None ->
  (key, node_seq n) ∉ queue (node_kind n) c -> node_seq n <= seq_gen c ->
  0 <= node_freq n <= 3 ->
  (forall k, x' = Some k -> exists s, index (push_node key n c) !! k = Some (Ghost s)) ->
  inv x' (push_node key n c).
Proof.
  intros [Hl Hqu Hf Hnd Hfr Hc Hx] Hv Hnone Hnew Hs Hfq Hx'. split; try done.
  - intros k. rewrite Hv, live_push_node, cnt_insert, Hl by done.
    destruct (decide (k = node_kind n)), (decide (node_kind n = k)); congruence || lia.
  - intros k key' n'. rewrite Hv, queue_push_node.
    intros [[-> ->]|[Hne Hn']]%lookup_insert_Some Hk.
    + rewrite decide_True by done. apply elem_of_app. right. by apply list_elem_of_singleton.
    + pose proof (Hqu k key' n' Hn' Hk). destruct (decide _); [apply elem_of_app; by left|done].
  - intros k e. rewrite queue_push_node. simpl. destruct (decide (k = node_kind n)) as [->|]; [|by apply Hf].
    intros [He| ->%list_elem_of_singleton]%elem_of_app; [by eapply Hf|done].
  - intros k. rewrite queue_push_node. destruct (decide (k = node_kind n)) as [->|]; [|done].
    apply NoDup_app. split; [done|]. split; [|apply NoDup_singleton].
    intros e He ->%list_elem_of_singleton. done.
  - intros key' n'. rewrite Hv. intros [[-> ->]|[Hne Hn']]%lookup_insert_Some; [done|]. by eapply Hfr.
Qed.

Lemma push_node_evolves c0 c key n :
  evolves c0 c -> index c0 !! key <> None -> seq_gen c0 < node_seq n ->
  (forall v, node_value n = Some v -> s3_peek key c0 = Some v) ->
  evolves c0 (push_node key n c).
Proof.
  intros [Hc Hs Hq Hn Hp] Hk Hseq Hv. split.
  - intros k. rewrite <- (Hc k). by destruct k.
  - simpl. done.
  - intros k e. rewrite queue_push_node. destruct (decide _); [|auto].
    intros [He| ->%list_elem_of_singleton]%elem_of_app; [auto|]. by right.
  - intros key' Hnone. simpl. rewrite lookup_insert_ne; [auto|]. congruence.
  - intros key' v. unfold s3_peek. simpl. destruct (decide (key' = key)) as [->|].
    + rewrite lookup_insert_eq. intros Hv'. apply Hv. by destruct n.
    + rewrite lookup_insert_ne by done. apply Hp.
Qed.

(** Pushing a key that is absent from the index. *)
Lemma push_absent x c key n :
  inv x c -> index c !! key = None -> (key, node_seq n) ∉ queue (node_kind n) c ->
  node_seq n <= seq_gen c -> 0 <= node_freq n <= 3 -> inv x (push_node key n c).
Proof.
  intros Hi Hn Hnew Hs Hf.
  assert (x <> Some key) as Hx.
  { intros ->. destruct (i_x _ _ Hi key eq_refl) as [s Hs']. congruence. }
  apply push_node_inv with x; try done.
  - unfold vis. destruct x as [k|]; [|done]. simpl. rewrite delete_insert_ne; [done|]. congruence.
  - by rewrite vis_lookup_ne.
  - intros k ->. destruct (i_x _ _ Hi k eq_refl) as [s Hs']. exists s. simpl.
    rewrite lookup_insert_ne; [done|]. congruence.
Qed.

(** Pushing the excluded key ends the exclusion. *)
Lemma push_excluded c key n :
  inv (Some key) c -> (key, node_seq n) ∉ queue (node_kind n) c ->
  node_seq n <= seq_gen c -> 0 <= node_freq n <= 3 -> inv None (push_node key n c).
Proof.
  intros Hi Hnew Hs Hf. apply push_node_inv with (Some key); try done.
  - simpl. by rewrite insert_delete_eq.
  - simpl. apply lookup_delete_eq.
Qed.
(** ** Compaction *)

Lemma entry_live_spec k (m : gmap K (Node V)) key s :
  entry_live k m (key, s) = true <-> exists n, m !! key = Some n /\ node_kind n = k /\ node_seq n = s.
Proof.
  unfold entry_live. simpl. destruct (m !! key) as [n|].
  - rewrite andb_true_iff, kind_eqb_eq, Z.eqb_eq. naive_solver.
  - naive_solver.
Qed.

Lemma bfilter_NoDup {A} (p : A -> bool) (l : list A) : NoDup l -> NoDup (List.filter p l).
Proof. intros Hl. apply NoDup_ListNoDup, List.NoDup_filter. by apply NoDup_ListNoDup. Qed.

Lemma compact_evolves k c : evolves c (compact k c).
Proof.
  unfold compact. destruct (_ <? _); [|done]. apply set_queue_evolves.
  intros e He. rewrite list_elem_of_In in *. by apply filter_In in He as [? _].
Qed.

Lemma compact_inv x k c : inv x c -> inv x (compact k c).
Proof.
  intros Hi. unfold compact. destruct (_ <? _); [|done]. apply set_queue_inv; [done|..].
  - intros e He. rewrite list_elem_of_In in *. by apply filter_In in He as [? _].
  - apply bfilter_NoDup, Hi.
  - intros key n Hn Hk. rewrite list_elem_of_In, filter_In, <- list_elem_of_In.
    split; [by apply (i_queue _ _ Hi)|]. apply entry_live_spec.
    apply vis_lookup in Hn as [? _]. eauto.
Qed.

Lemma compact_other k k' c : k' <> k -> queue k' (compact k c) = queue k' c.
Proof.
  intros Hne. unfold compact. destruct (_ <? _); [|done]. by rewrite queue_set_queue, decide_False.
Qed.

Lemma compact_live k k' c : live k' (compact k c) = live k' c.
Proof. unfold compact. destruct (_ <? _); [|done]. apply live_set_queue. Qed.

(** ** The ghost loop *)

Lemma cap_ghost_pos x c : inv x c -> 1 <= ghost_capacity c /\ 1 <= small_capacity c.
Proof. intros Hi. destruct (i_caps _ _ Hi) as (? & ? & ? & ?). lia. Qed.

Lemma live_queue_nil x k c : inv x c -> queue k c = [] -> live k c = 0.
Proof.
  intros Hi Hq. rewrite (i_live _ _ Hi). apply cnt_zero. intros key n Hn Hk.
  pose proof (i_queue _ _ Hi k key n Hn Hk) as Hin. rewrite Hq in Hin. by apply elem_of_nil in Hin.
Qed.

Lemma evict_ghost_loop_spec x q : forall c,
  inv x (set_queue KGhost q c) -> (x = None \/ live KGhost c < cap KGhost c) ->
  let c' := evict_ghost_loop q c in
  inv x c' /\ evolves (set_queue KGhost q c) c' /\ live KGhost c' < cap KGhost c' /\
  (forall k, k <> KGhost -> queue k c' = queue k c /\ live k c' = live k c) /\
  (length (queue KGhost c') <= length q)%nat /\ live KGhost c' <= live KGhost c.
Proof.
  induction q as [|[key s] q IH]; intros c Hi Hx; simpl.
  - assert (live KGhost c = 0) as Hl
      by (rewrite <- (live_set_queue KGhost KGhost []); by eapply live_queue_nil).
    pose proof (cap_ghost_pos _ _ Hi) as [Hc _]. simpl in *.
    replace (if ghost_capacity c <=? ghost_live_count c then _ else _) with (set_queue KGhost [] c)
      by (by destruct (_ <=? _)).
    split_and!; [done|reflexivity|simpl; lia| |done|simpl; lia]. intros [] ?; done.
  - destruct (ghost_capacity c <=? ghost_live_count c) eqn:El; breflect.
    2:{ split_and!; [done|reflexivity|simpl; lia| |done|simpl; lia]. intros [] ?; done. }
    destruct Hx as [->|Hx]; [|simpl in Hx; lia].
    assert (forall c0, inv None (set_queue KGhost q c0) ->
      evolves (set_queue KGhost ((key, s) :: q) c) (set_queue KGhost q c0) ->
      (forall k, k <> KGhost -> queue k c0 = queue k c /\ live k c0 = live k c) ->
      live KGhost c0 <= live KGhost c ->
      let c' := evict_ghost_loop q c0 in
      inv None c' /\ evolves (set_queue KGhost ((key, s) :: q) c) c' /\
      live KGhost c' < cap KGhost c' /\
      (forall k, k <> KGhost -> queue k c' = queue k c /\ live k c' = live k c) /\
      (length (queue KGhost c') <= S (length q))%nat /\ live KGhost c' <= live KGhost c) as Hgo.
    { intros c0 Hi0 He0 Ho0 Hl0. destruct (IH c0 Hi0 (or_introl eq_refl)) as (H1 & H2 & H3 & H4 & H5 & H6).
      split_and!; [done|by etransitivity|done| |simpl in *; lia|simpl in *; lia].
      intros k Hk. destruct (H4 k Hk), (Ho0 k Hk). split; congruence. }
    assert ((forall n, index c !! key = Some n -> node_kind n = KGhost -> node_seq n <> s) ->
      inv None (set_queue KGhost q c) /\
      evolves (set_queue KGhost ((key, s) :: q) c) (set_queue KGhost q c)) as Hdead.
    { intros Hd. split.
      - apply (pop_dead None _ KGhost key s q Hi); [done|]. simpl. intros n Hn. by apply Hd.
      - apply (set_queue_evolves (set_queue KGhost ((key, s) :: q) c) KGhost q).
        intros e He. simpl. by right. }
    destruct (index c !! key) as [[v f n|v f n|n]|] eqn:En; try (apply Hgo; [apply Hdead; naive_solver..|done|done]).
    destruct (Z.eqb_spec n s) as [->|Hne]; [|apply Hgo; [apply Hdead; naive_solver..|done|done]].
    apply Hgo.
    + apply (pop_take None _ KGhost key (Ghost s) q Hi); done.
    + etransitivity; [apply (set_queue_evolves _ KGhost q); intros e He; simpl; by right|].
      apply (take_out_evolves (set_queue KGhost q c) KGhost key).
    + intros [] Hk; done.
    + simpl. lia.
Qed.

Lemma evict_ghost_spec x c :
  inv x c -> (x = None \/ live KGhost c < cap KGhost c) ->
  let c' := evict_ghost_if_full c in
  inv x c' /\ evolves c c' /\ live KGhost c' < cap KGhost c' /\
  (forall k, k <> KGhost -> queue k c' = queue k c /\ live k c' = live k c) /\
  (length (queue KGhost c') <= length (queue KGhost (compact KGhost c)))%nat /\
  live KGhost c' <= live KGhost c.
Proof.
  intros Hi Hx. unfold evict_ghost_if_full.
  pose proof (compact_evolves KGhost c) as Hev. pose proof (compact_inv x KGhost c Hi) as Hi'.
  set (c1 := compact KGhost c) in *. change (ghost c1) with (queue KGhost c1).
  destruct (evict_ghost_loop_spec x (queue KGhost c1) c1) as (H1 & H2 & H3 & H4 & H5 & H6).
  - by rewrite set_queue_same.
  - destruct Hx as [?|Hx]; [by left|right].
    unfold c1 at 1. rewrite compact_live, (e_caps _ _ Hev). done.
  - rewrite set_queue_same in H2. split_and!; [done|by etransitivity|done| |done|].
    2:{ by rewrite <- (compact_live KGhost KGhost c). }
    intros k Hk. destruct (H4 k Hk) as [-> ->]. unfold c1.
    by rewrite compact_other, compact_live.
Qed.
(** ** The main loop and its budget *)

(** Iterations a main-queue entry can still cost: a tombstone one, a node of
    frequency [f] its [f] second chances and its removal. *)
Definition weight (m : gmap K (Node V)) (e : K * Z) : Z :=
  match m !! fst e with
  | Some (Main _ f s) => if s =? snd e then f + 1 else 1
  | _ => 1
  end.

Definition potential (m : gmap K (Node V)) (q : list (K * Z)) : Z :=
  foldr (fun e acc => weight m e + acc) 0 q.

Lemma potential_app m q q' : potential m (q ++ q') = potential m q + potential m q'.
Proof. induction q as [|e q IH]; simpl; lia. Qed.

Lemma potential_le m m' q :
  (forall e, e ∈ q -> weight m e <= weight m' e) -> potential m q <= potential m' q.
Proof.
  induction q as [|e q IH]; simpl; [lia|]. intros Hw.
  pose proof (Hw e ltac:(left)). specialize (IH (fun e He => Hw e ltac:(by right))). lia.
Qed.

Lemma weight_bounds x c e : inv x c -> 1 <= weight (index c) e <= 4.
Proof.
  intros Hi. unfold weight. destruct (index c !! fst e) as [[v f s|v f s|s]|] eqn:En; try lia.
  destruct (s =? snd e); [|lia].
  pose proof (i_freq _ _ Hi (fst e) (Main v f s)) as Hf. simpl in Hf.
  assert (0 <= f <= 3); [|lia]. apply Hf. rewrite vis_lookup_ne; [done|].
  by eapply inv_not_x.
Qed.

Lemma potential_bounds x c q :
  inv x c -> Z.of_nat (length q) <= potential (index c) q <= 4 * Z.of_nat (length q).
Proof.
  intros Hi. induction q as [|e q IH]; simpl; [lia|].
  pose proof (weight_bounds x c e Hi). lia.
Qed.

Lemma weight_insert_self m key v f s : weight (<[key := Main v f s]> m) (key, s) = f + 1.
Proof. unfold weight. simpl. by rewrite lookup_insert_eq, Z.eqb_refl. Qed.

(** Re-inserting the popped key under a fresh number makes no other entry
    heavier. *)
Lemma weight_reinsert x c key n e :
  inv x c -> node_seq n <> snd e ->
  weight (<[key := n]> (delete key (index c))) e <= weight (index c) e.
Proof.
  intros Hi Hs. unfold weight at 1. pose proof (weight_bounds x c e Hi).
  destruct (decide (fst e = key)) as [->|Hne].
  - rewrite lookup_insert_eq. destruct n as [v f s|v f s|s]; try lia. simpl in Hs.
    destruct (Z.eqb_spec s (snd e)); [done|lia].
  - rewrite lookup_insert_ne, lookup_delete_ne by done. fold (weight (index c) e). lia.
Qed.

Lemma weight_delete x c key e :
  inv x c -> weight (delete key (index c)) e <= weight (index c) e.
Proof.
  intros Hi. unfold weight at 1. pose proof (weight_bounds x c e Hi).
  destruct (decide (fst e = key)) as [->|Hne]; [rewrite lookup_delete_eq; lia|].
  rewrite lookup_delete_ne by done. fold (weight (index c) e). lia.
Qed.

Lemma evict_main_step_spec x c key s q :
  inv x c -> main c = (key, s) :: q ->
  let c' := evict_main_step key s (set_queue KMain q c) in
  inv x c' /\ evolves c c' /\ potential (index c') (main c') + 1 <= potential (index c) (main c) /\
  (length (main c') <= length (main c))%nat /\ live KMain c' <= live KMain c /\
  (forall k, k <> KMain -> queue k c' = queue k c /\ live k c' = live k c).
Proof.
  intros Hi Hq. change (main c) with (queue KMain c) in Hq.
  assert (evolves c (set_queue KMain q c)) as Hev0.
  { apply set_queue_evolves. intros e He. rewrite Hq. by right. }
  pose proof (weight_bounds x c (key, s) Hi) as Hw0.
  assert (forall c', c' = set_queue KMain q c ->
    (forall n, vis x c !! key = Some n -> node_kind n = KMain -> node_seq n <> s) ->
    inv x c' /\ evolves c c' /\ potential (index c') (main c') + 1 <= potential (index c) (main c) /\
    (length (main c') <= length (main c))%nat /\ live KMain c' <= live KMain c /\
    (forall k, k <> KMain -> queue k c' = queue k c /\ live k c' = live k c)) as Hdead.
  { intros c' -> Hd. split_and!; [by eapply pop_dead|done|..].
    - simpl in *. rewrite Hq. simpl. lia.
    - simpl in *. rewrite Hq. simpl. lia.
    - simpl. lia.
    - intros [] Hk; done. }
  unfold evict_main_step. cbn [index set_queue].
  destruct (index c !! key) as [[v f n|v f n|n]|] eqn:En;
    try (apply Hdead; [done|]; intros n' [Hn' _]%vis_lookup; naive_solver).
  destruct (Z.eqb_spec n s) as [->|Hne]; simpl negb; cbv iota;
    [|apply Hdead; [done|]; intros n' [Hn' _]%vis_lookup; naive_solver].
  assert (x <> Some key) as Hx by (by eapply inv_not_x).
  pose proof (pop_take x c KMain key (Main v f s) q Hi Hq Hx En eq_refl) as Hi1.
  pose proof (take_out_evolves (set_queue KMain q c) KMain key) as Hev1.
  set (c1 := take_out KMain key (set_queue KMain q c)) in *.
  assert (weight (index c) (key, s) = f + 1) as Hw1.
  { unfold weight. simpl. by rewrite En, Z.eqb_refl. }
  destruct (1 <=? f) eqn:Ef; breflect.
  - assert (inv x (set_seq (seq_gen c1 + 1) c1)) as Hi2 by (apply set_seq_inv; [done|lia]).
    assert (forall e, e ∈ q -> snd e <> seq_gen c + 1) as Hfresh.
    { intros e He. pose proof (i_fresh _ _ Hi KMain e) as Hs. rewrite Hq in Hs.
      specialize (Hs ltac:(by right)). lia. }
    pose proof (i_freq _ _ Hi key (Main v f s)) as Hf. simpl in Hf.
    specialize (Hf ltac:(by rewrite vis_lookup_ne)).
    split_and!.
    + apply push_absent; [done|apply lookup_delete_eq| |simpl; lia|simpl; lia].
      intros Hin. by apply (Hfresh (key, seq_gen c + 1)).
    + apply push_node_evolves; [|by rewrite En|simpl; lia|].
      * etransitivity; [exact Hev0|]. etransitivity; [exact Hev1|]. apply set_seq_evolves. lia.
      * intros v' [= ->]. unfold s3_peek. by rewrite En.
    + simpl in *. rewrite Hq, potential_app. cbn [potential foldr].
      fold (potential (index c) q). rewrite Hw1, weight_insert_self.
      pose proof (potential_le (<[key:=Main v (f - 1) (seq_gen c + 1)]> (delete key (index c)))
        (index c) q) as Hp.
      specialize (Hp ltac:(intros e He; apply (weight_reinsert x); [done|];
        intros E; by apply (Hfresh e He))). lia.
    + simpl in *. rewrite Hq, length_app. simpl. lia.
    + simpl. lia.
    + intros [] Hk; done.
  - split_and!; [done|by etransitivity|..].
    + simpl in *. rewrite Hq. cbn [potential foldr]. rewrite Hw1.
      pose proof (potential_le _ _ q (fun e _ => weight_delete x c key e Hi)). fold (potential (index c) q).
      pose proof (i_freq _ _ Hi key (Main v f s) ltac:(by rewrite vis_lookup_ne)) as Hf.
      simpl in Hf. lia.
    + simpl in *. rewrite Hq. simpl. lia.
    + simpl. lia.
    + intros [] Hk; done.
Qed.

(** The budget of the source suffices: the loop stops below capacity. *)
Lemma evict_main_loop_spec x budget : forall c,
  inv x c -> 0 < main_capacity c -> potential (index c) (main c) < Z.of_nat budget ->
  let c' := evict_main_loop budget c in
  inv x c' /\ evolves c c' /\ live KMain c' < cap KMain c' /\
  (length (main c') <= length (main c))%nat /\
  (forall k, k <> KMain -> queue k c' = queue k c /\ live k c' = live k c).
Proof.
  induction budget as [|budget IH]; intros c Hi Hcap Hpot.
  { pose proof (potential_bounds x c (main c) Hi). lia. }
  simpl. destruct (main_capacity c <=? main_live_count c) eqn:El; breflect.
  2:{ split_and!; [done|done|simpl; lia|done|done]. }
  destruct (main c) as [|[key s] q] eqn:Eq.
  - pose proof (live_queue_nil x KMain c Hi Eq) as Hl. simpl in Hl. lia.
  - destruct (evict_main_step_spec x c key s q Hi Eq) as (H1 & H2 & H3 & H4 & H5 & H6).
    rewrite Eq in *. pose proof (e_caps _ _ H2 KMain) as Hc. simpl in Hc.
    destruct (IH _ H1) as (I1 & I2 & I3 & I4 & I5).
    + simpl in *. lia.
    + lia.
    + split_and!; [done|by etransitivity|done|lia|].
      intros k Hk. destruct (I5 k Hk) as [-> ->]. by apply H6.
Qed.

Lemma evict_main_spec x c :
  inv x c -> 0 < main_capacity c ->
  let c' := evict_main_if_full c in
  inv x c' /\ evolves c c' /\ live KMain c' < cap KMain c' /\
  (length (main c') <= length (queue KMain (compact KMain c)))%nat /\
  (forall k, k <> KMain -> queue k c' = queue k c /\ live k c' = live k c).
Proof.
  intros Hi Hcap. unfold evict_main_if_full.
  pose proof (compact_evolves KMain c) as Hev. pose proof (compact_inv x KMain c Hi) as Hi'.
  pose proof (e_caps _ _ Hev KMain) as Hc. simpl in Hc.
  destruct (Z.eqb_spec (main_capacity (compact KMain c)) 0); [lia|].
  destruct (evict_main_loop_spec x (length (main (compact KMain c)) * 4 + 1) _ Hi')
    as (H1 & H2 & H3 & H4 & H5).
  - lia.
  - pose proof (potential_bounds x _ (main (compact KMain c)) Hi'). lia.
  - split_and!; [done|by etransitivity|done|done|].
    intros k Hk. destruct (H5 k Hk) as [-> ->]. by rewrite compact_other, compact_live.
Qed.
(** ** Queue lengths *)

(** The compaction threshold of a queue. *)
Definition qmax (k : kind) (c : S3FifoCache K V) : Z := Z.max (usat_mul (cap k c) 4) 4.

Lemma live_entries_length k (m : gmap K (Node V)) q :
  NoDup q -> Z.of_nat (length (List.filter (entry_live k m) q)) <= cnt k m.
Proof.
  intros Hnd. unfold cnt. set (l := List.filter _ q).
  assert (NoDup (map fst l)) as Hnd'.
  { assert (NoDup l) as Hl by (by apply bfilter_NoDup).
    assert (forall e, e ∈ l -> entry_live k m e = true) as Hlive
      by (intros e He; rewrite list_elem_of_In in He; by apply filter_In in He as [_ ?]).
    clearbody l. induction Hl as [|[key s] l Hn Hl IH]; simpl; [constructor|].
    constructor; [|apply IH; intros e He; apply Hlive; by right].
    intros ([key' s'] & E & He)%list_elem_of_fmap. simpl in E. subst key'.
    pose proof (Hlive (key, s) ltac:(left)) as H1. pose proof (Hlive (key, s') ltac:(by right)) as H2.
    apply entry_live_spec in H1 as (n1 & ? & _ & <-). apply entry_live_spec in H2 as (n2 & ? & _ & <-).
    simplify_eq. done. }
  rewrite <- (length_map fst l), <- (size_list_to_set (C := gset K) _ Hnd'), <- size_dom.
  apply inj_le, subseteq_size. intros key. rewrite elem_of_list_to_set.
  intros ([key' s'] & -> & He)%list_elem_of_fmap. simpl.
  rewrite list_elem_of_In in He. apply filter_In in He as [_ He].
  apply entry_live_spec in He as (n & Hn & Hk & _). apply elem_of_dom. exists n.
  by apply map_lookup_filter_Some.
Qed.

Lemma cnt_vis x c k : inv x c -> cnt k (index c) <= live k c + 1.
Proof.
  intros Hi. rewrite (i_live _ _ Hi). unfold vis. destruct x as [key|]; [|lia].
  destruct (i_x _ _ Hi key eq_refl) as [s Hs]. rewrite (cnt_delete k _ _ _ Hs).
  destruct (decide _); lia.
Qed.

Lemma cap_bounds x c k : inv x c -> 0 <= cap k c <= i64_max.
Proof. intros Hi. destruct (i_caps _ _ Hi) as (? & ? & ? & ?). destruct k; simpl; lia. Qed.

Lemma compact_length x k c :
  inv x c -> live k c <= cap k c -> Z.of_nat (length (queue k (compact k c))) <= qmax k c.
Proof.
  intros Hi Hl. unfold compact. destruct (_ <? _) eqn:E; breflect; [|done].
  rewrite queue_set_queue, decide_True by done.
  pose proof (live_entries_length k (index c) (queue k c) (i_nodup _ _ Hi k)).
  pose proof (cnt_vis x c k Hi). pose proof (cap_bounds x c k Hi).
  unfold qmax, usat_mul, u64_max, i64_max in *. lia.
Qed.

(** ** The small loop *)

(** What the small loop maintains besides the invariant. *)
Record within (c : S3FifoCache K V) : Prop := {
  w_main : live KMain c <= cap KMain c;
  w_ghost : live KGhost c <= cap KGhost c;
  w_qmain : Z.of_nat (length (queue KMain c)) <= qmax KMain c + 1;
  w_qghost : Z.of_nat (length (queue KGhost c)) <= qmax KGhost c + 1;
}.

Lemma qmax_evolves k c c' : evolves c c' -> qmax k c' = qmax k c.
Proof. intros He. unfold qmax. by rewrite (e_caps _ _ He). Qed.

(** Moving the popped key [key] of [c0] elsewhere: [c1] lacks it, a number is
    drawn, evictions lead to [c3], the key is pushed again. *)
Lemma push_after x c0 c1 c3 key n :
  inv x c1 -> index c1 !! key = None -> evolves c0 c1 -> index c0 !! key <> None ->
  inv x c3 -> evolves (set_seq (seq_gen c1 + 1) c1) c3 -> node_seq n = seq_gen c1 + 1 ->
  0 <= node_freq n <= 3 -> (forall v, node_value n = Some v -> s3_peek key c0 = Some v) ->
  inv x (push_node key n c3) /\ evolves c0 (push_node key n c3).
Proof.
  intros Hi1 Hn1 He1 Hk Hi3 He3 Hs Hf Hv. pose proof (e_seq _ _ He3) as Hs3. simpl in Hs3. split.
  - apply push_absent; [done| | |lia|done].
    + by apply (e_none _ _ He3).
    + intros Hin. apply (e_queue _ _ He3) in Hin as [Hin|Hin]; [|simpl in *; lia].
      assert ((key, node_seq n) ∈ queue (node_kind n) c1) as Hin' by (by destruct n).
      apply (i_fresh _ _ Hi1) in Hin'. simpl in Hin'. lia.
  - pose proof (e_seq _ _ He1). apply push_node_evolves; [|done|lia|done].
    etransitivity; [exact He1|]. etransitivity; [apply set_seq_evolves|exact He3]. lia.
Qed.

Definition movable (x : option K) (c : S3FifoCache K V) : Prop :=
  x = None \/ (main_capacity c = 0 /\ live KGhost c + live KSmall c <= cap KGhost c).

Section moving.
Context (x : option K) (c : S3FifoCache K V) (key : K) (v : V) (f s : Z) (q : list (K * Z)).
Context (Hi : inv x c) (Hw : within c) (Hm : movable x c).
Context (Hq : queue KSmall c = (key, s) :: q) (Hn : index c !! key = Some (Small v f s)).

Let c1 := take_out KSmall key (set_queue KSmall q c).
Let c2 := set_seq (seq_gen c1 + 1) c1.

Definition moved (c' : S3FifoCache K V) : Prop :=
  inv x c' /\ within c' /\ movable x c' /\ evolves c c' /\
  queue KSmall c' = q /\ live KSmall c' = live KSmall c - 1.

Lemma moving_c1 : inv x c1 /\ evolves c c1 /\ index c1 !! key = None /\ inv x c2.
Proof.
  assert (inv x c1) as Hi1.
  { apply (pop_take x c KSmall key (Small v f s) q Hi Hq); [by eapply inv_not_x|done|done]. }
  split_and!; [done| |apply lookup_delete_eq|by apply set_seq_inv; [|lia]].
  etransitivity; [|apply take_out_evolves]. apply set_queue_evolves. intros e He. rewrite Hq. by right.
Qed.

Lemma moved_to_ghost : moved (push_node key (Ghost (seq_gen c2)) (evict_ghost_if_full c2)).
Proof.
  destruct moving_c1 as (Hi1 & Hev1 & Hn1 & Hi2). destruct Hw as [W1 W2 W3 W4].
  assert (0 <= live KSmall c2) as Hs0 by (rewrite (i_live _ _ Hi2); apply cnt_nonneg).
  destruct (evict_ghost_spec x c2 Hi2) as (G1 & G2 & G3 & G4 & G5 & G6).
  { destruct Hm as [?|[? ?]]; [by left|right]. unfold c2, c1 in *. simpl in *. lia. }
  destruct (push_after x c c1 _ key (Ghost (seq_gen c2)) Hi1 Hn1 Hev1 ltac:(by rewrite Hn) G1 G2)
    as [P1 P2]; [done|simpl; lia|done|].
  pose proof (compact_length x KGhost c2 Hi2 W2) as Hcl.
  destruct (G4 KMain ltac:(done)) as [Gm1 Gm2]. destruct (G4 KSmall ltac:(done)) as [Gs1 Gs2].
  pose proof (e_caps _ _ P2) as C.
  assert (forall k, cap k c2 = cap k c) as C2 by (by intros []).
  pose proof (e_caps _ _ G2 KGhost) as C3. rewrite C2 in C3.
  split; [done|]. split; [|split; [|split; [done|split; [by rewrite queue_push_node|]]]].
  - split; unfold qmax in *; rewrite ?C, ?live_push_node, ?queue_push_node; simpl decide.
    + rewrite decide_False, Gm2 by done. etransitivity; [|exact W1]. simpl. lia.
    + rewrite decide_True by done. lia.
    + rewrite decide_False by done. rewrite Gm1. exact W3.
    + rewrite decide_True by done. rewrite length_app. simpl length. rewrite C2 in Hcl. cbn [queue node_kind] in *. lia.
  - destruct Hm as [?|[Hm1 Hm2]]; [by left|right]. split; [by rewrite <- Hm1; apply (C KMain)|].
    rewrite C, !live_push_node, Gs2. simpl decide. rewrite decide_True, decide_False by done.
    simpl in *. lia.
  - rewrite live_push_node, Gs2, decide_False by done. simpl. lia.
Qed.

Lemma moved_to_main :
  0 < main_capacity c -> moved (push_node key (Main v 0 (seq_gen c2)) (evict_main_if_full c2)).
Proof.
  intros Hcap. destruct moving_c1 as (Hi1 & Hev1 & Hn1 & Hi2). destruct Hw as [W1 W2 W3 W4].
  destruct (evict_main_spec x c2 Hi2) as (M1 & M2 & M3 & M4 & M5); [done|].
  destruct (push_after x c c1 _ key (Main v 0 (seq_gen c2)) Hi1 Hn1 Hev1 ltac:(by rewrite Hn) M1 M2)
    as [P1 P2]; [done|simpl; lia| |].
  { intros v' [= <-]. unfold s3_peek. by rewrite Hn. }
  pose proof (compact_length x KMain c2 Hi2 W1) as Hcl.
  destruct (M5 KGhost ltac:(done)) as [Gm1 Gm2]. destruct (M5 KSmall ltac:(done)) as [Gs1 Gs2].
  pose proof (e_caps _ _ P2) as C.
  assert (forall k, cap k c2 = cap k c) as C2 by (by intros []).
  pose proof (e_caps _ _ M2 KMain) as C3. rewrite C2 in C3.
  split; [done|]. split; [|split; [|split; [done|split; [by rewrite queue_push_node|]]]].
  - split; unfold qmax in *; rewrite ?C, ?live_push_node, ?queue_push_node; simpl decide.
    + rewrite decide_True by done. lia.
    + rewrite decide_False, Gm2 by done. etransitivity; [|exact W2]. simpl. lia.
    + rewrite decide_True by done. rewrite length_app. simpl length. rewrite C2 in Hcl. cbn [queue node_kind] in *. lia.
    + rewrite decide_False by done. rewrite Gm1. exact W4.
  - destruct Hm as [?|[Hm1 _]]; [by left|lia].
  - rewrite live_push_node, Gs2, decide_False by done. simpl. lia.
Qed.

Lemma evict_small_node_moved : moved (evict_small_node key v f (set_queue KSmall q c)).
Proof.
  unfold evict_small_node. fold c1. cbv zeta. fold c2. destruct (i_caps _ _ Hi) as (_ & _ & Hc & _).
  destruct (1 <=? f); [|apply moved_to_ghost].
  destruct (Z.eqb_spec (main_capacity c2) 0) as [Hz|Hz]; [apply moved_to_ghost|].
  apply moved_to_main. simpl in Hz. lia.
Qed.
End moving.
Lemma evict_small_loop_spec x q : forall c,
  let c0 := set_queue KSmall q c in
  inv x c0 -> within c0 -> movable x c0 ->
  let c' := evict_small_loop q c in
  inv x c' /\ within c' /\ evolves c0 c' /\ live KSmall c' < cap KSmall c' /\
  (length (queue KSmall c') <= length q)%nat.
Proof.
  induction q as [|[key s] q IH]; intros c c0 Hi Hw Hm; simpl.
  - assert (live KSmall c = 0) as Hl
      by (rewrite <- (live_set_queue KSmall KSmall []); by eapply live_queue_nil).
    pose proof (cap_ghost_pos _ _ Hi) as [_ Hc].
    replace (if small_capacity c <=? small_live_count c then _ else _) with c0 by (by destruct (_ <=? _)).
    simpl in *. split_and!; [done|done|done|lia|done].
  - destruct (small_capacity c <=? small_live_count c) eqn:El; breflect.
    2:{ simpl. split_and!; [done|done|done|lia|done]. }
    assert (queue KSmall c0 = (key, s) :: q) as Hq by done.
    assert (evolves c0 (set_queue KSmall q c)) as Hev0.
    { apply (set_queue_evolves c0 KSmall q). intros e He. rewrite Hq. by right. }
    assert ((forall n, index c !! key = Some n -> node_kind n = KSmall -> node_seq n <> s) ->
      let c' := evict_small_loop q c in
      inv x c' /\ within c' /\ evolves c0 c' /\ live KSmall c' < cap KSmall c' /\
      (length (queue KSmall c') <= S (length q))%nat) as Hdead.
    { intros Hd. destruct (IH c) as (H1 & H2 & H3 & H4 & H5).
      - apply (pop_dead x c0 KSmall key s q Hi Hq). intros n [Hn _]%vis_lookup. by apply Hd.
      - by destruct Hw; split.
      - done.
      - split_and!; [done|done|by etransitivity|done|lia]. }
    destruct (index c !! key) as [[v f n|v f n|n]|] eqn:En; try (apply Hdead; naive_solver).
    destruct (Z.eqb_spec n s) as [->|Hne]; simpl negb; cbv iota; [|apply Hdead; naive_solver].
    destruct (evict_small_node_moved x c0 key v f s q Hi Hw Hm Hq En) as (M1 & M2 & M3 & M4 & M5 & M6).
    change (set_queue KSmall q c0) with (set_queue KSmall q c) in *.
    set (c1 := evict_small_node _ _ _ _) in *.
    assert (set_queue KSmall q c1 = c1) as E by (rewrite <- M5; apply set_queue_same).
    destruct (IH c1) as (H1 & H2 & H3 & H4 & H5); rewrite ?E in *; [done..|].
    split_and!; [done|done|by etransitivity|done|simpl in *; lia].
Qed.

Lemma evict_small_spec x c :
  inv x c -> within c -> movable x c -> live KSmall c <= cap KSmall c ->
  let c' := evict_small_if_full c in
  inv x c' /\ within c' /\ evolves c c' /\ live KSmall c' < cap KSmall c' /\
  Z.of_nat (length (queue KSmall c')) <= qmax KSmall c'.
Proof.
  intros Hi Hw Hm Hl. unfold evict_small_if_full.
  pose proof (compact_evolves KSmall c) as Hev. pose proof (compact_inv x KSmall c Hi) as Hi'.
  pose proof (compact_length x KSmall c Hi Hl) as Hcl.
  assert (forall k, live k (compact KSmall c) = live k c) as Hlv by (intros; apply compact_live).
  assert (forall k, k <> KSmall -> queue k (compact KSmall c) = queue k c) as Hqu
    by (intros; by apply compact_other).
  set (c1 := compact KSmall c) in *. change (small c1) with (queue KSmall c1).
  destruct (evict_small_loop_spec x (queue KSmall c1) c1) as (H1 & H2 & H3 & H4 & H5);
    rewrite ?set_queue_same in *; [done| | |].
  - destruct Hw. split; rewrite ?(qmax_evolves _ _ _ Hev), ?(e_caps _ _ Hev), ?Hlv, ?Hqu; done.
  - destruct Hm as [?|[Hm1 Hm2]]; [by left|right]. rewrite !Hlv, (e_caps _ _ Hev). split; [|done].
    rewrite <- Hm1. apply (e_caps _ _ Hev KMain).
  - split_and!; [done|done|by etransitivity|done|].
    rewrite (qmax_evolves _ _ _ H3), (qmax_evolves _ _ _ Hev). lia.
Qed.

(** ** The invariant of the public operations *)

Record wf (c : S3FifoCache K V) : Prop := {
  wf_inv : inv None c;
  wf_within : within c;
  wf_small : live KSmall c <= cap KSmall c;
  wf_qsmall : Z.of_nat (length (queue KSmall c)) <= qmax KSmall c + 1;
}.

(** Overwriting a node in place. *)
Lemma update_wf c key n n' :
  wf c -> index c !! key = Some n -> node_kind n' = node_kind n -> node_seq n' = node_seq n ->
  0 <= node_freq n' <= 3 -> wf (set_index (<[key := n']> (index c)) c).
Proof.
  intros [Hi [W1 W2 W3 W4] Hs Hq] Hn Hk Hse Hf.
  assert (forall k, cnt k (<[key := n']> (index c)) = cnt k (index c)) as Hcnt.
  { intros k. rewrite <- insert_delete_eq, cnt_insert by apply lookup_delete_eq.
    rewrite (cnt_delete _ _ _ _ Hn), Hk. lia. }
  destruct Hi as [Hl Hqu Hfr Hnd Hfq Hc Hx]. split; [|by split|done|done]. split; try done.
  - intros k. simpl. rewrite Hcnt. apply Hl.
  - intros k key' m. simpl. intros [[<- <-]|[_ Hm]]%lookup_insert_Some Hkm; [|by apply (Hqu k)].
    rewrite Hse. apply (Hqu k key n Hn). congruence.
  - intros key' m. simpl. intros [[<- <-]|[_ Hm]]%lookup_insert_Some; [done|by eapply Hfq].
Qed.

Lemma bump_range f : 0 <= f <= 3 -> 0 <= bump f <= 3.
Proof. unfold bump. lia. Qed.

Lemma wf_freq c key n : wf c -> index c !! key = Some n -> 0 <= node_freq n <= 3.
Proof. intros Hw Hn. by eapply (i_freq None c (wf_inv _ Hw)). Qed.

Lemma set_seq_wf c s : wf c -> seq_gen c <= s -> wf (set_seq s c).
Proof. intros [Hi [W1 W2 W3 W4] Hs Hq] Hle. split; [by apply set_seq_inv|by split|done|done]. Qed.

(** Pushing the inserted key after the evictions. *)
Lemma insert_push_fresh x c c3 (key : K) (n : Node V) k :
  inv x c -> evolves (set_seq (seq_gen c + 1) c) c3 -> node_seq n = seq_gen c + 1 ->
  (key, node_seq n) ∉ queue k c3 /\ node_seq n <= seq_gen c3.
Proof.
  intros Hi He Hs. pose proof (e_seq _ _ He) as Hle. simpl in Hle. split; [|lia].
  intros [Hin|Hin]%(e_queue _ _ He); simpl in *; [|lia].
  assert ((key, node_seq n) ∈ queue k c) as Hin' by (by destruct k).
  apply (i_fresh _ _ Hi) in Hin'. simpl in Hin'. lia.
Qed.

Lemma exclude_inv c key s :
  inv None c -> index c !! key = Some (Ghost s) -> inv (Some key) (add_live KGhost (-1) c).
Proof.
  intros [Hl Hqu Hfr Hnd Hfq Hc Hx] Hn. split; simpl; try done.
  - intros k. rewrite (cnt_delete k _ _ _ Hn), live_add_live, Hl. simpl.
    destruct k; simpl; repeat case_decide; try done; lia.
  - intros k key' n [Hne Hn']%lookup_delete_Some Hk. specialize (Hqu k key' n Hn' Hk). by destruct k.
  - intros key' n [_ ?]%lookup_delete_Some. by eapply Hfq.
  - intros k [= <-]. eauto.
Qed.

(** The three ways a new node enters. *)
Lemma push_small_wf c key n :
  inv None (push_node key n c) -> node_kind n = KSmall -> within c ->
  live KSmall c < cap KSmall c -> Z.of_nat (length (queue KSmall c)) <= qmax KSmall c ->
  wf (push_node key n c).
Proof.
  intros Hi Hk [W1 W2 W3 W4] Hl Hq. destruct n as [v f s|v f s|s]; try done.
  split; [done|by split|simpl in *; lia|].
  simpl in *. rewrite length_app. simpl. unfold qmax in *. simpl in *. lia.
Qed.
End theory.
