(* ===== verification/S3FifoProps.v ===== *)
(** * Properties of the S3-FIFO cache *)

From S2P Require Import Prelude.
From S2P Require Import S3Fifo.
From S2P Require Import S3FifoTheory.

Section props.
  Context {K : Type} `{Countable K} {V : Type}.
  Implicit Types c : S3FifoCache K V.

Lemma s3_new_wf capacity : 0 < capacity <= i64_max -> wf (s3_new (K := K) (V := V) capacity).
Proof.
  intros Hc. assert (0 <= capacity / 10 <= capacity) as Hd
    by (split; [by apply Z.div_pos; lia|apply Z.div_le_upper_bound; lia]).
  assert (1 <= Z.max (capacity / 10) 1 <= capacity) as Hs by lia.
  split.
  - split; simpl; try done.
    + intros k. unfold cnt. by destruct k.
    + intros k e. destruct k; simpl; by intros ?%elem_of_nil.
    + intros k. destruct k; constructor.
    + lia.
  - split; unfold qmax; simpl; lia.
  - simpl. lia.
  - unfold qmax. simpl. lia.
Qed.

Lemma add_live_evolves k d c : evolves c (add_live k d c).
Proof.
  split; try done. intros k' e; destruct k'; auto.
Qed.

(** ** Insertion *)

(** What an insertion achieves. *)
Record insert_ok (key : K) (value : V) (c c' : S3FifoCache K V) : Prop := {
  io_wf : wf c';
  io_caps k : cap k c' = cap k c;
  io_value : s3_peek key c' = Some value;
  io_other key' v : key' <> key -> s3_peek key' c' = Some v -> s3_peek key' c = Some v;
}.

Lemma push_insert_ok key value n c c0 c' :
  wf (push_node key n c') -> (forall k, cap k c0 = cap k c) ->
  (forall key' v, s3_peek key' c0 = Some v -> s3_peek key' c = Some v) ->
  evolves c0 c' -> node_value n = Some value -> insert_ok key value c (push_node key n c').
Proof.
  intros Hw Hc Hp He Hn. split; [done| | |].
  - intros k. rewrite <- Hc, <- (e_caps _ _ He k). by destruct k.
  - unfold s3_peek. simpl. rewrite lookup_insert_eq. by destruct n.
  - intros key' v Hne. unfold s3_peek at 1. simpl. rewrite lookup_insert_ne by done.
    intros Hv. by apply Hp, (e_peek _ _ He).
Qed.

Lemma update_insert_ok key value n n' c c0 :
  wf c0 -> index c0 = index c -> (forall k, cap k c0 = cap k c) -> index c !! key = Some n ->
  node_kind n' = node_kind n -> node_seq n' = node_seq n -> 0 <= node_freq n' <= 3 ->
  node_value n' = Some value ->
  insert_ok key value c (set_index (<[key := n']> (index c0)) c0).
Proof.
  intros Hw Hi Hc Hn Hk Hs Hf Hv. split.
  - eapply update_wf; try done. by rewrite Hi.
  - intros k. rewrite <- Hc. by destruct k.
  - unfold s3_peek. simpl. rewrite lookup_insert_eq. by destruct n'.
  - intros key' v Hne. unfold s3_peek. simpl. by rewrite lookup_insert_ne, Hi by done.
Qed.

Lemma insert_new_ok c key value :
  wf c -> index c !! key = None -> insert_ok key value c (s3_insert key value c).
Proof.
  intros Hw Hn. unfold s3_insert. cbv zeta. simpl index. rewrite Hn.
  set (c0 := set_seq (seq_gen c + 1) c).
  assert (wf c0) as [Hi0 Hw0 Hs0 Hq0] by (apply set_seq_wf; [done|lia]).
  destruct (evict_small_spec None c0 Hi0 Hw0 (or_introl eq_refl) Hs0) as (E1 & E2 & E3 & E4 & E5).
  destruct (insert_push_fresh None c _ key (Small value 0 (seq_gen c0)) KSmall (wf_inv _ Hw) E3 eq_refl)
    as [F1 F2].
  apply push_insert_ok with c0; try done.
  apply push_small_wf; try done. apply push_absent; try done. by apply E3.
Qed.

Lemma insert_ghost_small_ok c key value s :
  wf c -> index c !! key = Some (Ghost s) -> main_capacity c = 0 ->
  insert_ok key value c (s3_insert key value c).
Proof.
  intros Hw Hn Hz. unfold s3_insert. cbv zeta. simpl index. rewrite Hn. simpl main_capacity.
  rewrite Hz, Z.eqb_refl. set (c0 := set_seq (seq_gen c + 1) c).
  assert (wf c0) as [Hi0 Hw0 Hs0 Hq0] by (apply set_seq_wf; [done|lia]).
  assert (inv (Some key) (add_live KGhost (-1) c0)) as Hi1 by (by eapply exclude_inv).
  destruct (i_caps _ _ Hi0) as (C1 & C2 & C3 & C4). simpl in C1, C2, C3.
  assert (ghost_capacity c <= 1) as Hc1.
  { pose proof (Z.mul_div_le (ghost_capacity c) 10). lia. }
  assert (live KGhost (add_live KGhost (-1) c0) = live KGhost c - 1) as Hg by (simpl; lia).
  destruct (evict_small_spec (Some key) (add_live KGhost (-1) c0) Hi1) as (E1 & E2 & E3 & E4 & E5).
  - destruct Hw0 as [W1 W2 W3 W4]. split; unfold qmax in *; simpl in *; try done; lia.
  - right. simpl. split; [done|]. destruct Hw0 as [W1 W2 W3 W4]. simpl in *. lia.
  - simpl in *. lia.
  - destruct (insert_push_fresh None c _ key (Small value 0 (seq_gen c0)) KSmall (wf_inv _ Hw)
      (transitivity (R := evolves) (reflexivity c0) (transitivity (R := evolves)
        (add_live_evolves KGhost (-1) c0) E3)) eq_refl) as [F1 F2].
    apply push_insert_ok with (add_live KGhost (-1) c0); try done.
    apply push_small_wf; try done. by apply push_excluded.
Qed.
Lemma insert_ghost_main_ok c key value s :
  wf c -> index c !! key = Some (Ghost s) -> main_capacity c <> 0 ->
  insert_ok key value c (s3_insert key value c).
Proof.
  intros Hw Hn Hz. unfold s3_insert. cbv zeta. simpl index. rewrite Hn. simpl main_capacity.
  apply Z.eqb_neq in Hz as Hz'. rewrite Hz'. set (c0 := set_seq (seq_gen c + 1) c).
  assert (wf c0) as [Hi0 [W1 W2 W3 W4] Hs0 Hq0] by (apply set_seq_wf; [done|lia]).
  set (c1 := add_live KGhost (-1) c0).
  assert (inv (Some key) c1) as Hi1 by (by eapply exclude_inv).
  destruct (i_caps _ _ Hi0) as (C1 & C2 & C3 & C4). simpl in C3.
  destruct (evict_main_spec (Some key) c1 Hi1) as (E1 & E2 & E3 & E4 & E5); [simpl; lia|].
  pose proof (compact_length (Some key) KMain c1 Hi1 W1) as Hcl.
  destruct (insert_push_fresh None c _ key (Main value 0 (seq_gen c0)) KMain (wf_inv _ Hw)
    (transitivity (R := evolves) (add_live_evolves KGhost (-1) c0) E2) eq_refl) as [F1 F2].
  destruct (E5 KGhost ltac:(done)) as [G1 G2]. destruct (E5 KSmall ltac:(done)) as [S1 S2].
  pose proof (e_caps _ _ E2) as C.
  pose proof (C KMain) as Cm. pose proof (C KGhost) as Cg. pose proof (C KSmall) as Cs.
  apply push_insert_ok with c1; [|by intros []|done|done|done].
  unfold qmax in *. simpl in Cm, Cg, Cs, G1, G2, S1, S2, Hcl, E3, E4.
  simpl in W1, W2, W3, W4, Hs0, Hq0.
  split; [by apply push_excluded| |simpl; lia|unfold qmax; simpl; by rewrite S1, Cs].
  split; unfold qmax; simpl.
  - lia.
  - lia.
  - rewrite length_app. simpl. rewrite Cm. lia.
  - by rewrite G1, Cg.
Qed.

Lemma insert_spec c key value : wf c -> insert_ok key value c (s3_insert key value c).
Proof.
  intros Hw. assert (wf (set_seq (seq_gen c + 1) c)) as Hw0 by (apply set_seq_wf; [done|lia]).
  destruct (index c !! key) as [[v f s|v f s|s]|] eqn:En.
  1-2: unfold s3_insert; cbv zeta; simpl index; rewrite En;
    eapply (update_insert_ok _ _ _ _ c (set_seq (seq_gen c + 1) c)); [exact Hw0|done|by intros []|exact En|done|done| |done];
    apply bump_range; apply (wf_freq _ _ _ Hw En).
  - destruct (decide (main_capacity c = 0)).
    + by eapply insert_ghost_small_ok.
    + by eapply insert_ghost_main_ok.
  - by apply insert_new_ok.
Qed.

(** ** The other operations *)

Lemma get_mut_wf c key f : wf c -> wf (snd (s3_get_mut key f c)).
Proof.
  intros Hw. unfold s3_get_mut. destruct (index c !! key) as [[v q s|v q s|s]|] eqn:En; try done; simpl.
  all: pose proof (wf_freq _ _ _ Hw En) as Hf; simpl in Hf.
  all: eapply update_wf; [done|exact En|done|done|simpl; by apply bump_range].
Qed.

Lemma get_as_get_mut c key : s3_get key c = s3_get_mut key id c.
Proof. done. Qed.

Lemma take_out_wf c key n :
  wf c -> index c !! key = Some n -> wf (take_out (node_kind n) key c).
Proof.
  intros Hw Hn. destruct Hw as [[Hl Hqu Hfr Hnd Hfq Hc Hx] [W1 W2 W3 W4] Hs Hq].
  assert (forall k, live k (take_out (node_kind n) key c) <= live k c) as Hle
    by (intros k; rewrite live_take_out; case_decide; lia).
  split.
  - split; try done.
    + intros k. rewrite live_take_out, Hl. simpl. rewrite (cnt_delete k _ _ _ Hn).
      repeat case_decide; congruence || lia.
    + intros k key' n'. simpl. intros [_ Hn']%lookup_delete_Some Hk. rewrite queue_take_out.
      by apply Hqu.
    + intros key' n'. simpl. intros [_ ?]%lookup_delete_Some. by eapply Hfq.
  - split; [etransitivity; [apply Hle|done]|etransitivity; [apply Hle|done]|done|done].
  - etransitivity; [apply Hle|done].
  - done.
Qed.

Lemma remove_wf c key : wf c -> wf (snd (s3_remove key c)).
Proof.
  intros Hw. unfold s3_remove.
  destruct (index c !! key) as [[v f s|v f s|s]|] eqn:En; try done; by apply (take_out_wf c key _ Hw En).
Qed.

Lemma clear_wf c : wf c -> wf (s3_clear c).
Proof.
  intros [Hi Hw Hs Hq]. destruct (i_caps _ _ Hi) as (C1 & C2 & C3 & C4).
  split.
  - split; simpl; try done.
    + intros k. unfold cnt. by destruct k.
    + intros k e. destruct k; simpl; by intros ?%elem_of_nil.
    + intros k. destruct k; constructor.
  - split; unfold qmax; simpl; lia.
  - simpl. lia.
  - unfold qmax. simpl. lia.
Qed.

Lemma apply_wf c o : wf c -> wf (s3_apply c o) /\ (forall k, cap k (s3_apply c o) = cap k c).
Proof.
  intros Hw. destruct o as [key value|key|key f|key|]; simpl.
  - destruct (insert_spec c key value Hw). done.
  - rewrite get_as_get_mut. split; [by apply get_mut_wf|]. unfold s3_get_mut.
    destruct (index c !! key) as [[]|]; by intros [].
  - split; [by apply get_mut_wf|]. unfold s3_get_mut. destruct (index c !! key) as [[]|]; by intros [].
  - split; [by apply remove_wf|]. unfold s3_remove. destruct (index c !! key) as [[]|]; by intros [].
  - split; [by apply clear_wf|]. by intros [].
Qed.

(** C38: capacity and counters.  After any sequence of operations on a new
    cache of positive capacity, the live counters are the numbers of Small,
    Main and Ghost nodes of the index (so no decrement ever underflowed), each
    is within its queue's capacity, the cache holds at most [capacity] live
    entries, every node still has its queue entry, and no queue exceeds its
    compaction threshold by more than one entry. *)
Theorem s3fifo_bounded capacity (ops : list (s3_op K V)) :
  0 < capacity <= i64_max ->
  let c := run s3_apply (s3_new capacity) ops in
  (forall k, live k c = cnt k (index c) /\ 0 <= live k c <= cap k c) /\
  s3_len c <= capacity /\
  (forall k key n, index c !! key = Some n -> node_kind n = k -> (key, node_seq n) ∈ queue k c) /\
  (forall k, Z.of_nat (length (queue k c)) <= Z.max (usat_mul (cap k c) 4) 4 + 1).
Proof.
  intros Hc c.
  assert (wf c /\ s3_capacity c = capacity) as [Hw Hcap].
  { apply (run_invariant s3_apply (fun c => wf c /\ s3_capacity c = capacity)).
    - intros c' o [Hw' Hc']. destruct (apply_wf c' o Hw') as [Hw2 Hc2]. split; [done|].
      pose proof (Hc2 KSmall). pose proof (Hc2 KMain). unfold s3_capacity in *. simpl in *. lia.
    - split; [by apply s3_new_wf|]. unfold s3_capacity. simpl. lia. }
  destruct Hw as [Hi [W1 W2 W3 W4] Hs Hq].
  split_and!.
  - intros k. split; [apply Hi|]. split; [rewrite (i_live _ _ Hi); apply cnt_nonneg|].
    destruct k; done.
  - unfold s3_len. rewrite <- Hcap. unfold s3_capacity. simpl in *. lia.
  - apply Hi.
  - intros []; done.
Qed.
(** ** Values *)

(** The cache never answers anything but the last write. *)
Definition agrees (m : gmap K V) c : Prop := forall key v, s3_peek key c = Some v -> m !! key = Some v.

Lemma get_mut_peek key f c key' :
  s3_peek key' (snd (s3_get_mut key f c)) = if decide (key' = key) then f <$> s3_peek key c else s3_peek key' c.
Proof.
  unfold s3_get_mut, s3_peek. destruct (index c !! key) as [[v q s|v q s|s]|] eqn:En; simpl;
    case_decide as E; subst; rewrite ?lookup_insert_eq, ?lookup_insert_ne, ?En by done; done.
Qed.

Lemma remove_peek key c key' :
  s3_peek key' (snd (s3_remove key c)) = if decide (key' = key) then None else s3_peek key' c.
Proof.
  unfold s3_remove, s3_peek. destruct (index c !! key) as [[v q s|v q s|s]|] eqn:En; simpl;
    case_decide as E; subst; rewrite ?lookup_delete_eq, ?lookup_delete_ne, ?En by done; done.
Qed.

Lemma contains_key_peek key c : s3_contains_key key c = bool_decide (is_Some (s3_peek key c)).
Proof. unfold s3_contains_key, s3_peek. by destruct (index c !! key) as [[]|]. Qed.

Lemma agrees_step m c o : wf c -> agrees m c -> agrees (last_writes m o c) (s3_apply c o).
Proof.
  intros Hw Ha key' v. destruct o as [key value|key|key f|key|]; simpl.
  - destruct (insert_spec c key value Hw) as [_ _ Hv Ho].
    destruct (decide (key' = key)) as [->|Hne].
    + rewrite Hv, lookup_insert_eq. done.
    + intros Hp. rewrite lookup_insert_ne by done. by apply Ha, Ho.
  - rewrite get_as_get_mut, get_mut_peek. case_decide as E; [subst key'|apply Ha].
    destruct (s3_peek key c) as [w|] eqn:Ep; simpl; [|done]. intros [= <-]. by apply Ha.
  - rewrite get_mut_peek, contains_key_peek. case_decide as E.
    + subst key'. destruct (s3_peek key c) as [w|] eqn:Ep; simpl; [|done].
      intros [= <-]. rewrite lookup_alter_eq. by rewrite (Ha key w Ep).
    + intros Hp. case_bool_decide; [rewrite lookup_alter_ne by done|]; by apply Ha.
  - rewrite remove_peek. case_decide as E; [done|]. intros Hp. rewrite lookup_delete_ne by done. by apply Ha.
  - unfold s3_peek. simpl. by rewrite lookup_empty.
Qed.

(** A run of the cache next to the map of last writes. *)
Definition run_both (s : S3FifoCache K V * gmap K V) (o : s3_op K V) : S3FifoCache K V * gmap K V :=
  (s3_apply (fst s) o, last_writes (snd s) o (fst s)).

(** C33: the cache refines the map of last writes.  After any sequence of
    operations on a new cache, a lookup ([get], [get_mut], [peek], [remove])
    returns nothing or the value last written under the key and not removed
    since - what the caller writes through the reference of [get_mut] counts as a
    write -, whatever was evicted, promoted or turned into a ghost meanwhile. *)
Theorem s3fifo_refines_last_writes capacity (ops : list (s3_op K V)) key f v :
  0 < capacity <= i64_max ->
  let '(c, m) := run run_both (s3_new capacity, ∅) ops in
  fst (s3_get key c) = Some v \/ fst (s3_get_mut key f c) = Some v \/ s3_peek key c = Some v \/ fst (s3_remove key c) = Some v ->
  m !! key = Some v.
Proof.
  intros Hc. destruct (run run_both (s3_new capacity, ∅) ops) as [c m] eqn:Er.
  assert (wf c /\ agrees m c) as [Hw Ha].
  { pose proof (run_invariant run_both (fun s => wf (fst s) /\ agrees (snd s) (fst s))) as Hinv.
    specialize (Hinv ltac:(intros [c' m'] o [H1 H2]; split; [by apply apply_wf|by apply agrees_step])
      ops (s3_new capacity, ∅)). rewrite Er in Hinv. apply Hinv.
    split; [by apply s3_new_wf|]. intros key' v'. unfold s3_peek. simpl. by rewrite lookup_empty. }
  intros Hv. apply Ha. unfold s3_get, s3_get_mut, s3_remove, s3_peek in *.
  destruct (index c !! key) as [[]|]; naive_solver.
Qed.

(** An inserted value is readable: right after [insert key v], [get],
    [peek] and [contains_key] see [v], and no other key changed its value. *)
Theorem s3fifo_insert_get capacity (ops : list (s3_op K V)) key v :
  0 < capacity <= i64_max ->
  let c := run s3_apply (s3_new capacity) ops in
  let c' := s3_insert key v c in
  fst (s3_get key c') = Some v /\ s3_contains_key key c' = true /\
  (forall key' w, key' <> key -> s3_peek key' c' = Some w -> s3_peek key' c = Some w).
Proof.
  intros Hc c c'.
  assert (wf c) as Hw.
  { apply (run_invariant s3_apply wf); [intros; by apply apply_wf|by apply s3_new_wf]. }
  destruct (insert_spec c key v Hw) as [_ _ Hv Ho]. fold c' in Hv, Ho.
  split_and!; [|by rewrite contains_key_peek, Hv|done].
  unfold s3_get, s3_peek in *. by destruct (index c' !! key) as [[]|].
Qed.
End props.

Definition sample_ops : list (s3_op nat Z) :=
  [OpInsert 1%nat 10; OpGet 1%nat; OpInsert 2%nat 20; OpInsert 3%nat 30; OpInsert 2%nat 21].

Lemma s3fifo_bounded_witness :
  let c := run s3_apply (s3_new 2) sample_ops in
  s3_lens c = (1, 1, 0) /\ s3_len c <= 2.
Proof.
  split; [vm_compute; reflexivity|].
  exact (proj1 (proj2 (s3fifo_bounded 2 sample_ops ltac:(unfold i64_max; lia)))).
Defined.

Lemma s3fifo_refines_last_writes_witness :
  let '(c, m) := run run_both (s3_new 2, ∅) sample_ops in
  s3_peek 2%nat c = Some 21 /\ m !! 2%nat = Some 21.
Proof.
  pose proof (s3fifo_refines_last_writes 2 sample_ops 2%nat id 21 ltac:(unfold i64_max; lia)) as Hr.
  vm_compute in Hr |- *. split; [reflexivity|]. apply Hr. by right; right; left.
Defined.

Lemma s3fifo_insert_get_witness :
  fst (s3_get 4%nat (s3_insert 4%nat 40 (run s3_apply (s3_new 2) sample_ops))) = Some 40.
Proof.
  exact (proj1 (s3fifo_insert_get 2 sample_ops 4%nat 40 ltac:(unfold i64_max; lia))).
Defined.
