(* ===== verification/ErrorClass.v ===== *)
(** * Database error classification ([db/src/error.rs])

    Typed classes of database failures, the policy attached to each class, the
    message-based classifier and the error predicates the retry loop and the
    circuit breakers consult.  [str::to_lowercase] and [char::is_alphanumeric]
    are given by the Unicode tables of the standard library: they are context
    parameters, with their documented value on ASCII as a hypothesis where a
    theorem needs it. *)

From S2P Require Import Prelude.
From S2P Require Import RustStr.

(** @src db/src/error.rs:112-143 DbErrorClass *)
Inductive DbErrorClass :=
| MainDbBtreeCorruption
| WalSidecarCorruption
| SchemaDriftOrMissingTables
| EngineProbeLimitation
| ForeignKeyInconsistency
| FtsIndexCorruption
| ConnectionOrConfigError
| RequestSemanticError
| BusyRetryable
| FdExhaustion
| PoolExhaustion
| LiveOwnerNoActivityLock
| HostPressure.

#[export] Instance DbErrorClass_eq_dec : EqDecision DbErrorClass.
Proof. solve_decision. Defined.

(** @src db/src/error.rs:145-165 DbErrorClass::as_str *)
Definition class_as_str (c : DbErrorClass) : ustr :=
  match c with
  | MainDbBtreeCorruption => u "main_db_btree_corruption"
  | WalSidecarCorruption => u "wal_sidecar_corruption"
  | SchemaDriftOrMissingTables => u "schema_drift_or_missing_tables"
  | EngineProbeLimitation => u "engine_probe_limitation"
  | ForeignKeyInconsistency => u "foreign_key_inconsistency"
  | FtsIndexCorruption => u "fts_index_corruption"
  | ConnectionOrConfigError => u "connection_or_config_error"
  | RequestSemanticError => u "request_semantic_error"
  | BusyRetryable => u "busy_retryable"
  | FdExhaustion => u "fd_exhaustion"
  | PoolExhaustion => u "pool_exhaustion"
  | LiveOwnerNoActivityLock => u "live_owner_no_activity_lock"
  | HostPressure => u "host_pressure"
  end.

(** @src db/src/error.rs:167-178 DbErrorSeverity *)
Inductive DbErrorSeverity := P0 | P1 | P2 | P3.

(** @src db/src/error.rs:193-207 DbErrorClassification *)
Record DbErrorClassification := mkClassification {
  class : DbErrorClass;
  severity : DbErrorSeverity;
  repairable : bool;
  safe_to_retry : bool;
  safe_to_continue_read_only : bool;
  blocks_edits : bool;
  recommended_command : ustr;
}.

(** @src db/src/error.rs:209-339 DbErrorClassification::for_class *)
Definition for_class (c : DbErrorClass) : DbErrorClassification :=
  let policy (s : DbErrorSeverity) (rep retry ro blocks : bool) (cmd : string) :=
    {| class := c; severity := s; repairable := rep; safe_to_retry := retry;
       safe_to_continue_read_only := ro; blocks_edits := blocks;
       recommended_command := u cmd |} in
  match c with
  | MainDbBtreeCorruption => policy P0 true false false true
      "am doctor check --json"%string
  | WalSidecarCorruption => policy P1 true false true true
      "am doctor health"%string
  | SchemaDriftOrMissingTables => policy P1 true false false true
      "am doctor check --json"%string
  | EngineProbeLimitation => policy P2 false false true false
      "am doctor health"%string
  | ForeignKeyInconsistency => policy P0 true false true true
      "am doctor check --json"%string
  | FtsIndexCorruption => policy P1 true false true false
      "am doctor fix --list --json"%string
  | ConnectionOrConfigError => policy P3 false false false true
      "am doctor health"%string
  | RequestSemanticError => policy P3 false false true false
      "correct the request arguments; no database remediation is needed"%string
  | BusyRetryable => policy P2 false true true true
      "am doctor locks"%string
  | FdExhaustion => policy P1 false true true true
      "am doctor health"%string
  | PoolExhaustion => policy P2 false true true true
      "am doctor health"%string
  | LiveOwnerNoActivityLock => policy P1 false true true true
      "route the write through the running Agent Mail server"%string
  | HostPressure => policy P1 false true true true
      "am doctor health"%string
  end.

(** @src db/src/error.rs:343-367 DbFailurePolicy *)
Record DbFailurePolicy := mkPolicy {
  fp_repairable : bool;
  fp_safe_to_retry : bool;
  fp_safe_to_continue_read_only : bool;
  fp_blocks_edits : bool;
  fp_recommended_command : ustr;
}.

(** @src db/src/error.rs:357-367 DbFailurePolicy::from *)
Definition policy_of (c : DbErrorClassification) : DbFailurePolicy :=
  {| fp_repairable := repairable c; fp_safe_to_retry := safe_to_retry c;
     fp_safe_to_continue_read_only := safe_to_continue_read_only c;
     fp_blocks_edits := blocks_edits c; fp_recommended_command := recommended_command c |}.

(** @src db/src/error.rs:10-107 DbError
    -- [f64] fields are kept as integers of microseconds. *)
Inductive DbError :=
| Sqlite (msg : ustr)
| Pool (msg : ustr)
| PoolExhausted (message : ustr) (pool_size max_overflow : Z)
| ResourceBusy (message : ustr)
| CircuitBreakerOpen (message : ustr) (failures : Z) (reset_after_us : Z)
| NotFound (entity identifier : ustr)
| Duplicate (entity identifier : ustr)
| InvalidArgument (field message : ustr)
| Schema (msg : ustr)
| Serialization (msg : ustr)
| IntegrityCorruption (message : ustr) (details : list ustr)
| RetryBudgetExhausted (operation : ustr) (attempts budget elapsed_ms : Z) (inner : DbError)
| Internal (msg : ustr).

(** ** String helpers *)

(** [s.split(pat)] for a non-empty string pattern. *)
Fixpoint split_str_from (pat : ustr) (skip : nat) (s : ustr) : list ustr :=
  match s with
  | [] => [[]]
  | c :: s' =>
      match skip with
      | S skip => split_str_from pat skip s'
      | O =>
          if starts_with pat s then [] :: split_str_from pat (length pat - 1) s'
          else match split_str_from pat 0 s' with
               | [] => [[c]]
               | w :: ws => (c :: w) :: ws
               end
      end
  end.
Definition split_str (pat s : ustr) : list ustr := split_str_from pat 0 s.

(** [s.split_once(pat)] for a string pattern. *)
Fixpoint split_once_str (pat s : ustr) : option (ustr * ustr) :=
  if starts_with pat s then Some ([], drop (length pat) s)
  else match s with
       | [] => None
       | c :: s => '(a, b) ← split_once_str pat s; Some (c :: a, b)
       end.

Definition strip_suffix (suf s : ustr) : option ustr :=
  if ends_with suf s then Some (take (length s - length suf) s) else None.

(** [str::parse::<u32>] on a string of ASCII digits. *)
Definition parse_digits_u32 (s : ustr) : option Z :=
  if is_empty s then None
  else if u32_max <? digits_value s then None else Some (digits_value s).

Definition has (s : ustr) (needle : string) : bool := contains (u needle) s.
Definition has_any (s : ustr) (needles : list string) : bool := existsb (has s) needles.
Arguments has s needle%_string_scope.
Arguments has_any s needles%_string_scope.

Section classify.
  Context (to_lowercase : ustr -> ustr) (is_alphanumeric : N -> bool).

(** @src db/src/error.rs:1072-1099 is_mailbox_ownership_contention *)
Definition is_mailbox_ownership_contention (msg : ustr) : bool :=
  has_any (to_lowercase msg)
    ["mailbox mutation refused"; "owns this mailbox"; "owns the mailbox"; "already owns the mailbox"; "hold the mailbox lock"; "holds the mailbox lock"; "competing processes hold locks"; "mailbox activity lock"; "route writes through that process"; "wait for the active owner"]%string.

(** @src db/src/error.rs:1183-1195 contains_lock_or_busy *)
Definition contains_lock_or_busy (msg : ustr) : bool :=
  has_any (to_lowercase msg)
    ["database is locked"; "database table is locked"; "database schema is locked"; "database is busy"; "write coordinator service start timed out while another launcher remained in starting state"; "resource temporarily busy"; "sqlite_busy"; "locked by another process"; "unable to open database"; "disk i/o error"]%string.

(** @src db/src/error.rs:1197-1204 contains_mvcc_conflict *)
Definition contains_mvcc_conflict (msg : ustr) : bool :=
  has_any (to_lowercase msg)
    ["write conflict on page"; "snapshot conflict on pages"; "serialization failure"; "busy_snapshot"; "snapshot too old"]%string.

(** @src db/src/error.rs:1239-1262 is_cursor_type_mismatch_detail *)
Definition is_cursor_type_mismatch_detail (detail : ustr) : bool :=
  let tail (rest : ustr) (page_types : list ustr) : bool :=
    match split_once_str (u ", page ") rest with
    | None => false
    | Some (page_type, location) =>
        match strip_suffix (u "): cursor is_table flag likely incorrect") location with
        | None => false
        | Some location =>
            match split_once_str (u ", root ") location with
            | None => false
            | Some (n1, n2) =>
                existsb (ustr_eqb page_type) page_types
                && forallb (fun number => forallb is_ascii_digit number
                     && match parse_digits_u32 number with
                        | Some value => 0 <? value
                        | None => false
                        end) [n1; n2]
            end
        end
    end in
  match strip_prefix (u ": table_seek called on index page (type ") detail with
  | Some rest => tail rest [u "leafindex"; u "interiorindex"]
  | None =>
      match strip_prefix (u ": index_seek called on table page (type ") detail with
      | Some rest => tail rest [u "leaftable"; u "interiortable"]
      | None => false
      end
  end.

(** @src db/src/error.rs:1206-1237 contains_main_db_corruption *)
Definition contains_main_db_corruption (msg : ustr) : bool :=
  let lower := to_lowercase msg in
  existsb (fun detail => negb (is_cursor_type_mismatch_detail (trim detail)))
    (tail (split_str (u "database disk image is malformed") lower))
  || has_any lower
       ["file is not a database"; "database file too small for header"; "truncated sqlite database header"; "invalid database header"; "invalid database header magic"; "invalid page size"; "malformed page"; "page checksum mismatch"; "header checksum mismatch"; "referenced multiple times"; "2nd reference to page"; "freelist mismatch"; "freelist header claims"; "invalid freelist"; "invalid page link"; "invalid page-link"]%string
  || (has lower "freelist trunk page" && has lower "is malformed").

(** @src db/src/error.rs:1264-1278 contains_wal_sidecar_corruption *)
Definition contains_wal_sidecar_corruption (msg : ustr) : bool :=
  let lower := to_lowercase msg in
  existsb (fun word => ustr_eqb word (u "wal") || ustr_eqb word (u "shm"))
    (split_on (fun c => negb (is_alphanumeric c)) lower)
  && has_any lower ["too small"; "malformed"; "invalid"; "checksum"; "sidecar"; "header"]%string.

(** @src db/src/error.rs:1280-1290 contains_schema_drift *)
Definition contains_schema_drift (msg : ustr) : bool :=
  has_any (to_lowercase msg)
    ["no such table"; "no such column"; "missing table"; "missing column"; "malformed database schema"; "database schema is corrupt"; "schema version mismatch"; "schema drift"]%string.

(** @src db/src/error.rs:1292-1300 contains_engine_probe_limitation *)
Definition contains_engine_probe_limitation (msg : ustr) : bool :=
  let lower := to_lowercase msg in
  has_any lower
    ["out of memory"; "cursor stack is empty"; "cursor is_table flag likely incorrect"; "called `option::unwrap()` on a `none` value"; "cursor must be on a leaf"]%string
  || (has lower "internal error" && negb (contains_main_db_corruption msg)).

(** @src db/src/error.rs:1302-1311 contains_foreign_key_inconsistency *)
Definition contains_foreign_key_inconsistency (msg : ustr) : bool :=
  has_any (to_lowercase msg)
    ["foreign key check"; "foreign_key_check"; "foreign key mismatch"; "foreign key inconsistency"; "orphan foreign key"; "orphaned foreign key"; "orphaned recipient"]%string.

(** @src db/src/error.rs:1313-1321 contains_fts_index_corruption *)
Definition contains_fts_index_corruption (msg : ustr) : bool :=
  let lower := to_lowercase msg in
  (has lower "fts" || has lower "search index")
  && has_any lower ["corrupt"; "malformed"; "integrity"; "checksum"; "missing"]%string.

(** @src db/src/error.rs:1323-1331 contains_pool_exhaustion *)
Definition contains_pool_exhaustion (msg : ustr) : bool :=
  let lower := trim (to_lowercase msg) in
  (has lower "pool" && (has lower "timeout" || has lower "exhausted"))
  || has lower "queuepool"
  || ustr_eqb lower (u "timeout")
  || has lower "timed out waiting for connection"
  || has lower "timeout waiting for connection".

(** @src db/src/error.rs:1333-1355 contains_fd_exhaustion *)
Definition contains_fd_exhaustion (msg : ustr) : bool :=
  let lower := to_lowercase msg in
  let canonical_open_file_limit := has_any lower ["too many open files"; "emfile"; "os error 24"]%string in
  let descriptor_limit := has lower "file descriptor"
    && has_any lower ["limit"; "exhaust"; "out of"; "too many"; "table full"]%string in
  let explicit_open_file_limit :=
    has_any lower ["open file limit"; "open-file limit"; "open files limit"]%string in
  let open_file_limit := explicit_open_file_limit
    || (has lower "open files"
        && has_any lower ["limit"; "exhaust"; "maximum"; "exceeded"; "out of"]%string) in
  canonical_open_file_limit || descriptor_limit || open_file_limit.

(** @src db/src/error.rs:1357-1365 contains_host_pressure *)
Definition contains_host_pressure (msg : ustr) : bool :=
  has_any (to_lowercase msg)
    ["no space left on device"; "disk full"; "database or disk is full"; "readonly database"; "read-only file system"; "input/output error"]%string.

(** @src db/src/error.rs:1138-1181 classify_db_error_message_class *)
Definition classify_db_error_message_class (msg : ustr) : DbErrorClass :=
  if is_mailbox_ownership_contention msg then LiveOwnerNoActivityLock
  else if contains_fd_exhaustion msg then FdExhaustion
  else if contains_pool_exhaustion msg then PoolExhaustion
  else if contains_host_pressure msg then HostPressure
  else if contains_mvcc_conflict msg || contains_lock_or_busy msg then BusyRetryable
  else if contains_wal_sidecar_corruption msg then WalSidecarCorruption
  else if contains_fts_index_corruption msg then FtsIndexCorruption
  else if contains_main_db_corruption msg then MainDbBtreeCorruption
  else if contains_schema_drift msg then SchemaDriftOrMissingTables
  else if contains_engine_probe_limitation msg then EngineProbeLimitation
  else if contains_foreign_key_inconsistency msg then ForeignKeyInconsistency
  else ConnectionOrConfigError.

(** @src db/src/error.rs:1131-1136 classify_db_error_message *)
Definition classify_db_error_message (msg : ustr) : DbErrorClassification :=
  for_class (classify_db_error_message_class msg).

(** @src db/src/error.rs:1063-1070 is_lock_error *)
Definition is_lock_error (msg : ustr) : bool :=
  match class (classify_db_error_message msg) with
  | BusyRetryable | LiveOwnerNoActivityLock => true
  | _ => false
  end.

(** @src db/src/error.rs:1108-1117 is_corruption_error *)
Definition is_corruption_error (msg : ustr) : bool :=
  match class (classify_db_error_message msg) with MainDbBtreeCorruption => true | _ => false end.

(** @src db/src/error.rs:1119-1129 is_pool_exhausted_error, is_fd_exhaustion_error *)
Definition has_class (c : DbErrorClass) (msg : ustr) : bool :=
  bool_decide (class (classify_db_error_message msg) = c).

(** @src db/src/error.rs:582-598 DbError::is_retryable *)
Fixpoint is_retryable (e : DbError) : bool :=
  match e with
  | Sqlite msg | Pool msg | Schema msg | Internal msg => safe_to_retry (classify_db_error_message msg)
  | ResourceBusy _ | PoolExhausted _ _ _ => true
  | RetryBudgetExhausted _ _ _ _ inner => is_retryable inner
  | _ => false
  end.

(** @src db/src/error.rs:600-610 DbError::is_corruption *)
Fixpoint is_corruption (e : DbError) : bool :=
  match e with
  | Sqlite msg | Pool msg | Schema msg => is_corruption_error msg
  | IntegrityCorruption _ _ => true
  | RetryBudgetExhausted _ _ _ _ inner => is_corruption inner
  | _ => false
  end.

(** @src db/src/error.rs:629-686 DbError::classification_from_error *)
Fixpoint classification_from_error (e : DbError) : DbErrorClassification :=
  match e with
  | PoolExhausted _ _ _ => for_class PoolExhaustion
  | ResourceBusy message | CircuitBreakerOpen message _ _ =>
      for_class (if is_mailbox_ownership_contention message
                 then LiveOwnerNoActivityLock else BusyRetryable)
  | IntegrityCorruption message details =>
      let joined_details := join [10%N] details in
      for_class
        (if contains_fts_index_corruption message || contains_fts_index_corruption joined_details
         then FtsIndexCorruption
         else if contains_main_db_corruption message || contains_main_db_corruption joined_details
         then MainDbBtreeCorruption
         else if contains_foreign_key_inconsistency message
                 || contains_foreign_key_inconsistency joined_details
         then ForeignKeyInconsistency
         else MainDbBtreeCorruption)
  | Pool message =>
      let classification := classify_db_error_message message in
      if bool_decide (class classification = ConnectionOrConfigError)
         && eq_ignore_ascii_case (trim message) (u "timeout")
      then for_class PoolExhaustion
      else classification
  | Sqlite message | Schema message => classify_db_error_message message
  | Internal message => classify_db_error_message message
  | RetryBudgetExhausted _ _ _ _ inner => classification_from_error inner
  | NotFound _ _ | Duplicate _ _ | InvalidArgument _ _ => for_class RequestSemanticError
  | Serialization _ => for_class ConnectionOrConfigError
  end.

(** @src db/src/error.rs:970-981 can_mask_fd_exhaustion *)
Definition can_mask_fd_exhaustion (c : DbErrorClass) : bool :=
  match c with
  | BusyRetryable | ConnectionOrConfigError | EngineProbeLimitation | PoolExhaustion => true
  | _ => false
  end.

(** @src db/src/error.rs:964-968 FD_CEILING_HEADROOM *)
Definition FD_CEILING_HEADROOM : Z := 16.

(** @src db/src/error.rs:983-986 fd_count_at_ceiling *)
Definition fd_count_at_ceiling (open soft_limit : Z) : bool :=
  usat_sub soft_limit open <=? FD_CEILING_HEADROOM.

(** @src db/src/error.rs:612-627 DbError::classification
    -- [at_ceiling] is the answer of the [/proc] probe. *)
Definition classification (at_ceiling : bool) (e : DbError) : DbErrorClassification :=
  let c := classification_from_error e in
  if can_mask_fd_exhaustion (class c) && at_ceiling then for_class FdExhaustion else c.

(** @src db/src/error.rs:694-711 DbError::error_code *)
Fixpoint error_code (e : DbError) : ustr :=
  match e with
  | PoolExhausted _ _ _ => u "DATABASE_POOL_EXHAUSTED"
  | ResourceBusy _ | CircuitBreakerOpen _ _ _ => u "RESOURCE_BUSY"
  | NotFound _ _ => u "NOT_FOUND"
  | Duplicate _ _ => u "DUPLICATE"
  | InvalidArgument _ _ => u "INVALID_ARGUMENT"
  | IntegrityCorruption _ _ => u "INTEGRITY_CORRUPTION"
  | RetryBudgetExhausted _ _ _ _ inner => error_code inner
  | _ => u "INTERNAL_ERROR"
  end.

(** @src db/src/error.rs:713-724 DbError::is_recoverable *)
Fixpoint is_recoverable (e : DbError) : bool :=
  match e with
  | PoolExhausted _ _ _ | ResourceBusy _ | CircuitBreakerOpen _ _ _ | Pool _ => true
  | RetryBudgetExhausted _ _ _ _ inner => is_recoverable inner
  | _ => false
  end.

(** ** Properties *)

Lemma for_class_class c : class (for_class c) = c.
Proof. by destruct c. Qed.

Lemma repairable_not_retryable c : repairable (for_class c) = true -> safe_to_retry (for_class c) = false.
Proof. by destruct c. Qed.

#[local] Arguments for_class : simpl never.

Lemma message_retryable msg :
  safe_to_retry (classify_db_error_message msg) = true ->
  is_corruption_error msg = false /\ (exists c, classify_db_error_message msg = for_class c).
Proof.
  unfold is_corruption_error, classify_db_error_message. rewrite for_class_class.
  intros Hr. split; [|eauto]. by destruct (classify_db_error_message_class msg).
Qed.

Lemma retryable_base e :
  is_retryable e = true ->
  safe_to_retry (classification_from_error e) = true /\
  (exists c, classification_from_error e = for_class c) /\ is_corruption e = false.
Proof.
  induction e; simpl; try done; intros Hr;
    try (destruct (message_retryable _ Hr) as [? ?]); try case_match; split_and!; try done; eauto.
Qed.

(** Errors the retry loop repeats are advertised as retryable.  Whenever
    [is_retryable] holds, the policy published for the error says
    [safe_to_retry], it is not a repairable (corruption or drift) class, and
    descriptor-exhaustion masking does not change that. *)
Theorem retryable_errors_have_retry_policy at_ceiling e :
  is_retryable e = true ->
  safe_to_retry (classification_from_error e) = true /\
  safe_to_retry (classification at_ceiling e) = true /\
  repairable (classification at_ceiling e) = false /\
  is_corruption e = false.
Proof.
  intros Hr. destruct (retryable_base e Hr) as (H1 & [c Hc] & H2). split; [done|].
  unfold classification. rewrite Hc, for_class_class in *.
  destruct (can_mask_fd_exhaustion c && at_ceiling); split_and!; try done.
  by destruct c.
Qed.
End classify.

(** Lower-casing and alphanumerics on ASCII, for evaluation. *)
Lemma retryable_errors_have_retry_policy_witness :
  let e := RetryBudgetExhausted (u "create_message") 8 8 12 (Sqlite (u "Database is LOCKED")) in
  is_retryable to_ascii_lowercase is_ascii_alphanumeric e = true /\
  repairable (classification to_ascii_lowercase is_ascii_alphanumeric true e) = false.
Proof.
  split; [vm_compute; reflexivity|].
  apply (retryable_errors_have_retry_policy to_ascii_lowercase is_ascii_alphanumeric true
    (RetryBudgetExhausted (u "create_message") 8 8 12 (Sqlite (u "Database is LOCKED")))).
  vm_compute; reflexivity.
Defined.
