(* ===== verification/CorruptionBreaker.v ===== *)
(** * The corruption circuit breaker ([db/src/circuit_breaker.rs])

    A sticky breaker: evidence of corruption is kept under a mutex together
    with a lifetime count, and published in an atomic flag that the write path
    reads without the lock.  The model keeps the flag apart from the evidence,
    so that a reader can run between the change and its publication. *)

From S2P Require Import Prelude.
From S2P Require Import RustStr.
From S2P Require Import ErrorClass.

(** @src db/src/circuit_breaker.rs:41-47 TripDetail *)
Record TripDetail := mkTripDetail {
  td_class : DbErrorClass;
  td_message : ustr;
  tripped_at_us : Z;
}.

(** @src db/src/circuit_breaker.rs:49-64 BreakerState, CorruptionCircuitBreaker
    -- [publishing] is the store to the flag that the holder of the lock still
    has to make, [checks] the recovery tokens not yet consumed (their observed
    count), [readers] the refusal checks past the flag. *)
Record CorruptionBreaker := mkCorruption {
  trip_count : Z;
  detail : option TripDetail;
  tripped : bool;
  publishing : option bool;
  checks : gmap nat Z;
  next_check : nat;
  readers : gset nat;
}.

Definition corruption_init : CorruptionBreaker := mkCorruption 0 None false None ∅ 0 ∅.

(** Updates of one part. *)
Definition set_evidence (count : Z) (d : option TripDetail) (store : option bool)
    (s : CorruptionBreaker) : CorruptionBreaker :=
  mkCorruption count d (tripped s) store (checks s) (next_check s) (readers s).
Definition set_checks (m : gmap nat Z) (n : nat) (s : CorruptionBreaker) : CorruptionBreaker :=
  mkCorruption (trip_count s) (detail s) (tripped s) (publishing s) m n (readers s).
Definition set_readers (r : gset nat) (s : CorruptionBreaker) : CorruptionBreaker :=
  mkCorruption (trip_count s) (detail s) (tripped s) (publishing s) (checks s) (next_check s) r.

(** The store to the flag, made before the lock is released. *)
Definition publish (s : CorruptionBreaker) : CorruptionBreaker :=
  mkCorruption (trip_count s) (detail s) (default (tripped s) (publishing s)) None
    (checks s) (next_check s) (readers s).

(** [trip] up to the store. *)
Definition trip_locked (c : DbErrorClass) (message : ustr) (now_us : Z) (s : CorruptionBreaker)
    : CorruptionBreaker :=
  let count := usat_add (trip_count s) 1 in
  match detail s with
  | None => set_evidence count (Some (mkTripDetail c message now_us)) (Some true) s
  | Some d => set_evidence count (Some d) None s
  end.

(** @src db/src/circuit_breaker.rs:78-107 CorruptionCircuitBreaker::trip *)
Definition trip (c : DbErrorClass) (message : ustr) (now_us : Z) (s : CorruptionBreaker) : CorruptionBreaker :=
  publish (trip_locked c message now_us s).

(** @src db/src/circuit_breaker.rs:127-136 is_tripped, trip_count *)
Definition is_tripped (s : CorruptionBreaker) : bool := tripped s.

(** [reset] up to the store. *)
Definition reset_locked (s : CorruptionBreaker) : CorruptionBreaker :=
  set_evidence (trip_count s) None (Some false) s.

(** @src db/src/circuit_breaker.rs:175-184 CorruptionCircuitBreaker::reset *)
Definition creset (s : CorruptionBreaker) : CorruptionBreaker := publish (reset_locked s).

(** @src db/src/circuit_breaker.rs:161-173 begin_recovery_check
    -- the token is its number. *)
Definition begin_recovery_check (s : CorruptionBreaker) : nat * CorruptionBreaker :=
  (next_check s, set_checks (<[next_check s := trip_count s]> (checks s)) (S (next_check s)) s).

(** [reset_if_unchanged] up to the store; the token is consumed either way. *)
Definition complete_locked (token : nat) (observed : Z) (s : CorruptionBreaker) : bool * CorruptionBreaker :=
  let s' := set_checks (delete token (checks s)) (next_check s) s in
  if (trip_count s =? u64_max) || negb (trip_count s =? observed) then (false, s')
  else (true, reset_locked s').

(** @src db/src/circuit_breaker.rs:211-231 CorruptionRecoveryCheck::reset_if_unchanged *)
Definition reset_if_unchanged (token : nat) (observed : Z) (s : CorruptionBreaker) : bool * CorruptionBreaker :=
  let '(ok, s') := complete_locked token observed s in (ok, publish s').

Definition refusal_prefix : ustr :=
  u "corruption circuit breaker open: refusing this write to avoid worsening damage to a corrupt database. Reads remain available; run `am doctor repair` or `am doctor reconstruct` to recover, then a clean integrity check (or a restart) clears the breaker. Triggering error: ".

(** The part of [refusal_error] under the lock. *)
Definition refusal_locked (s : CorruptionBreaker) : option DbError :=
  d ← detail s; Some (Sqlite (refusal_prefix ++ td_message d)).

(** @src db/src/circuit_breaker.rs:138-159 refusal_error *)
Definition refusal_error (s : CorruptionBreaker) : option DbError :=
  if is_tripped s then refusal_locked s else None.

(** @src db/src/circuit_breaker.rs:233-241 CorruptionBreakerSnapshot *)
Record CorruptionSnapshot := mkCSnapshot {
  cs_tripped : bool;
  cs_trip_count : Z;
  cs_tripped_at_us : Z;
  cs_class : option ustr;
}.

(** @src db/src/circuit_breaker.rs:186-196 CorruptionCircuitBreaker::snapshot *)
Definition csnapshot (s : CorruptionBreaker) : CorruptionSnapshot :=
  {| cs_tripped := match detail s with Some _ => true | None => false end;
     cs_trip_count := trip_count s;
     cs_tripped_at_us := match detail s with Some d => tripped_at_us d | None => 0 end;
     cs_class := class_as_str ∘ td_class <$> detail s |}.

(** @src db/src/error.rs:10-107 DbError::fmt
    -- the [#[error]] attributes. *)
Fixpoint db_error_display (e : DbError) : ustr :=
  match e with
  | Sqlite m => u "SQLite error: " ++ m
  | Pool m => u "Pool error: " ++ m
  | PoolExhausted m _ _ => u "Database connection pool exhausted: " ++ m
  | ResourceBusy m => u "Resource temporarily busy: " ++ m
  | CircuitBreakerOpen m _ _ => u "Circuit breaker open: " ++ m
  | NotFound entity identifier => entity ++ u " not found: " ++ identifier
  | Duplicate entity identifier => entity ++ u " already exists: " ++ identifier
  | InvalidArgument field m => u "Invalid " ++ field ++ u ": " ++ m
  | Schema m => u "Schema error: " ++ m
  | Serialization m => u "Serialization error: " ++ m
  | IntegrityCorruption m _ => u "Integrity check failed: " ++ m
  | RetryBudgetExhausted operation attempts budget elapsed_ms inner =>
      operation ++ u ": retry budget exhausted (" ++ dec attempts ++ u "/" ++ dec budget
      ++ u " attempts, " ++ dec elapsed_ms ++ u " ms elapsed): " ++ db_error_display inner
  | Internal m => u "Internal error: " ++ m
  end.

Section observe.
  Context (to_lowercase : ustr -> ustr) (is_alphanumeric : N -> bool).

(** @src db/src/circuit_breaker.rs:109-123 CorruptionCircuitBreaker::observe_error *)
Definition observe_error (at_ceiling : bool) (now_us : Z) (e : DbError) (s : CorruptionBreaker)
    : bool * CorruptionBreaker :=
  if negb (is_corruption to_lowercase is_alphanumeric e) then (false, s)
  else
    let c := classification to_lowercase is_alphanumeric at_ceiling e in
    if blocks_edits c then (true, trip (class c) (db_error_display e) now_us s)
    else (false, s).
End observe.

(** ** Interleavings *)

Inductive corruption_label :=
  | CTrip (c : DbErrorClass) (message : ustr) (now_us : Z)
  | CPublish
  | CReset
  | CBegin (token : nat)
  | CComplete (token : nat) (ok : bool)
  | CFlag (reader : nat) (open : bool)
  | CRefuse (reader : nat) (refusal : option DbError).

(** The steps of callers of the breaker.  A step under the lock needs the
    previous holder to have published. *)
Inductive corruption_step : CorruptionBreaker -> corruption_label -> CorruptionBreaker -> Prop :=
  | cs_trip s c m now :
      publishing s = None -> corruption_step s (CTrip c m now) (trip_locked c m now s)
  | cs_publish s b : publishing s = Some b -> corruption_step s CPublish (publish s)
  | cs_reset s : publishing s = None -> corruption_step s CReset (reset_locked s)
  | cs_begin s token s' :
      publishing s = None -> begin_recovery_check s = (token, s') -> corruption_step s (CBegin token) s'
  | cs_complete s token observed ok s' :
      publishing s = None -> checks s !! token = Some observed ->
      complete_locked token observed s = (ok, s') -> corruption_step s (CComplete token ok) s'
  | cs_flag s r :
      r ∉ readers s ->
      corruption_step s (CFlag r (is_tripped s))
        (if is_tripped s then set_readers ({[r]} ∪ readers s) s else s)
  | cs_refuse s r :
      publishing s = None -> r ∈ readers s ->
      corruption_step s (CRefuse r (refusal_locked s)) (set_readers (readers s ∖ {[r]}) s).

#[export] Instance corruption_lts : LTS CorruptionBreaker corruption_label :=
  { lts_init s := s = corruption_init; lts_step := corruption_step }.

(** The labels that close the breaker. *)
Definition closes (l : corruption_label) : bool :=
  match l with CReset | CComplete _ true => true | _ => false end.

Definition is_trip (l : corruption_label) : bool := match l with CTrip _ _ _ => true | _ => false end.

(** ** Properties of the corruption circuit breaker

    Evidence sticks until an operator reset or a recovery check that no newer
    observation invalidates, and refused writes carry the original cause. *)

Definition open_evidence (s : CorruptionBreaker) : bool :=
  match detail s with Some _ => true | None => false end.

Record corruption_inv (s : CorruptionBreaker) : Prop := {
  co_count : in_u64 (trip_count s);
  co_flag : default (tripped s) (publishing s) = open_evidence s;
  co_checks : forall t n, checks s !! t = Some n -> (t < next_check s)%nat /\ n <= trip_count s;
}.

Lemma usat_succ n : in_u64 n -> in_u64 (usat_add n 1) /\ n <= usat_add n 1 /\
  (n < u64_max -> usat_add n 1 = n + 1).
Proof. unfold in_u64, usat_add, u64_max. lia. Qed.

Lemma corruption_step_inv s l s' : corruption_inv s -> lts_step s l s' -> corruption_inv s'.
Proof.
  intros [Hc Hf Hk] Hs.
  destruct Hs as [s c m now Hp|s b Hp|s Hp|s t s' Hp Hb|s t o ok s' Hp Ho Hr|s r Hr|s r Hp Hr].
  - destruct (usat_succ _ Hc) as (? & ? & _). unfold trip_locked, open_evidence in *.
    assert (forall t n, checks s !! t = Some n -> (t < next_check s)%nat /\ n <= usat_add (trip_count s) 1)
      by (intros t n Hl; apply Hk in Hl; split; lia).
    rewrite Hp in Hf. by destruct (detail s); split.
  - unfold publish. split; simpl; try done.
  - split; simpl; done.
  - injection Hb as <- <-. split; simpl; [done|by rewrite Hf|].
    intros t n [[<- <-]|[_ Hl]]%lookup_insert_Some; [split; [lia|done]|]. apply Hk in Hl. split; lia.
  - unfold complete_locked in Hr.
    assert (forall x n, delete t (checks s) !! x = Some n -> (x < next_check s)%nat /\ n <= trip_count s)
      by (intros x n [_ Hl]%lookup_delete_Some; eauto).
    destruct ((trip_count s =? u64_max) || negb (trip_count s =? o)); injection Hr as <- <-;
      split; simpl; try done.
  - destruct (is_tripped s); split; simpl; try done.
  - split; simpl; try done.
Qed.

Lemma corruption_reachable s ls : steps corruption_init ls s -> corruption_inv s.
Proof.
  intros Hs. assert (reachable s) as Hr by (eapply reachable_steps; [by apply reach_init|exact Hs]).
  clear ls Hs. revert s Hr. apply invariant_reachable. split.
  - intros s ->. split; simpl; [unfold in_u64, u64_max; lia|done|done].
  - intros s l s' Hi Hs. by eapply corruption_step_inv.
Qed.

(** ** Stickiness *)

(** What a reader sees of an open, published breaker. *)
Definition sees_open (d : TripDetail) (l : corruption_label) : Prop :=
  match l with
  | CFlag _ b => b = true
  | CRefuse _ x => x = Some (Sqlite (refusal_prefix ++ td_message d))
  | _ => True
  end.

Definition stuck_open (d : TripDetail) (s : CorruptionBreaker) : Prop :=
  detail s = Some d /\ tripped s = true /\ publishing s = None.

Lemma stuck_open_step d s l s' :
  stuck_open d s -> lts_step s l s' -> closes l = false -> stuck_open d s' /\ sees_open d l.
Proof.
  intros (Hd & Ht & Hp) Hs Hl. unfold stuck_open.
  destruct Hs as [s c m now _|s b Hp'|s _|s t s' _ Hb|s t o ok s' _ Ho Hr|s r Hr|s r _ Hr];
    simpl; try done.
  - unfold trip_locked. by rewrite Hd.
  - congruence.
  - by injection Hb as <- <-.
  - unfold complete_locked in Hr.
    destruct ((trip_count s =? u64_max) || negb (trip_count s =? o)); by injection Hr as <- <-.
  - unfold is_tripped. by rewrite Ht.
  - unfold refusal_locked. by rewrite Hd.
Qed.

Lemma stuck_open_steps d s ls s' :
  steps s ls s' -> stuck_open d s -> Forall (fun l => closes l = false) ls ->
  stuck_open d s' /\ Forall (sees_open d) ls.
Proof.
  induction 1 as [s|s l s1 ls s' Hl Hs IH]; intros Hd Hn; [done|].
  inversion Hn; subst. destruct (stuck_open_step d s l s1) as [Hd1 Hl1]; [done..|].
  destruct (IH Hd1) as [? ?]; [done|]. split; [done|by constructor].
Qed.

(** Corruption sticks.  Once the breaker has opened, and until an operator
    reset or a successful recovery check closes it, the original cause is
    kept whatever else is observed, every write that asks is refused with a
    message naming that cause, and no reader sees the breaker closed, in
    whatever way the callers interleave. *)
Theorem corruption_breaker_sticky l1 s1 d l2 s2 :
  steps corruption_init l1 s1 -> publishing s1 = None -> detail s1 = Some d ->
  steps s1 l2 s2 -> Forall (fun l => closes l = false) l2 ->
  detail s2 = Some d /\ is_tripped s2 = true /\
  refusal_error s2 = Some (Sqlite (refusal_prefix ++ td_message d)) /\
  Forall (sees_open d) l2.
Proof.
  intros H1 Hp Hd H2 Hn. pose proof (co_flag _ (corruption_reachable _ _ H1)) as Hf.
  rewrite Hp in Hf. unfold open_evidence in Hf. rewrite Hd in Hf. simpl in Hf.
  destruct (stuck_open_steps d s1 l2 s2) as [(Ed & Et & Ep) Hs]; [done..|].
  split_and!; try done. unfold refusal_error, is_tripped, refusal_locked. by rewrite Et, Ed.
Qed.

(** ** Recovery checks *)

Definition no_trip (ls : list corruption_label) : Prop := Forall (fun l => is_trip l = false) ls.

(** A token in circulation, and the count it has to meet. *)
Lemma check_step t s l s' n :
  lts_step s l s' -> corruption_inv s -> checks s !! t = Some n ->
  trip_count s' = (if is_trip l then usat_add (trip_count s) 1 else trip_count s) /\
  ((exists ok, l = CComplete t ok) /\ checks s' !! t = None \/ checks s' !! t = Some n).
Proof.
  intros Hs Hi Hn. destruct Hs as [s c m now _|s b Hp'|s _|s t' s' _ Hb|s t' o ok s' _ Ho Hr|s r Hr|s r _ Hr];
    simpl.
  - unfold trip_locked. destruct (detail s); simpl; auto.
  - auto.
  - auto.
  - injection Hb as <- <-. simpl. split; [done|right].
    rewrite lookup_insert_ne; [done|]. apply (co_checks _ Hi) in Hn as [? _]. lia.
  - unfold complete_locked in Hr.
    assert (trip_count s' = trip_count s /\ checks s' = delete t' (checks s)) as [-> ->]
      by (destruct ((trip_count s =? u64_max) || negb (trip_count s =? o)); by injection Hr as <- <-).
    split; [done|]. destruct (decide (t' = t)) as [->|Hne].
    + left. split; [eauto|apply lookup_delete_eq].
    + right. by rewrite lookup_delete_ne.
  - destruct (is_tripped s); auto.
  - auto.
Qed.

Lemma next_check_mono s l s' : lts_step s l s' -> (next_check s <= next_check s')%nat.
Proof.
  intros Hs. destruct Hs as [s c m now _|s b Hp'|s _|s t' s1 _ Hb|s t' o ok s1 _ Ho Hr|s r Hr|s r _ Hr]; simpl; try done.
  - unfold trip_locked. by destruct (detail s).
  - injection Hb as <- <-. simpl. lia.
  - unfold complete_locked in Hr.
    destruct ((trip_count s =? u64_max) || negb (trip_count s =? o)); by injection Hr as <- <-.
  - by destruct (is_tripped s).
Qed.

(** A consumed token never comes back. *)
Lemma consumed_steps t s ls s' :
  steps s ls s' -> checks s !! t = None -> (t < next_check s)%nat -> checks s' !! t = None.
Proof.
  induction 1 as [s|s l s1 ls s' Hl Hs IH]; intros Hn Hlt; [done|]. apply IH; clear IH Hs.
  - destruct Hl as [s c m now _|s b Hp'|s _|s t' s1 _ Hb|s t' o ok s1 _ Ho Hr|s r Hr|s r _ Hr]; simpl.
    + unfold trip_locked. by destruct (detail s).
    + done.
    + done.
    + injection Hb as <- <-. simpl. rewrite lookup_insert_ne; [done|lia].
    + unfold complete_locked in Hr.
      destruct ((trip_count s =? u64_max) || negb (trip_count s =? o)); injection Hr as <- <-; simpl;
        apply lookup_delete_None; auto.
    + by destruct (is_tripped s).
    + done.
  - apply next_check_mono in Hl. lia.
Qed.

Lemma counted_trips t s ls s' n :
  steps s ls s' -> corruption_inv s -> checks s !! t = Some n -> checks s' !! t <> None ->
  corruption_inv s' /\ checks s' !! t = Some n /\ trip_count s <= trip_count s' /\
  (existsb is_trip ls = false -> trip_count s' = trip_count s) /\
  (existsb is_trip ls = true -> trip_count s < trip_count s' \/ trip_count s' = u64_max).
Proof.
  induction 1 as [s|s l s1 ls s' Hl Hs IH]; intros Hi Hn He.
  { split_and!; try done. }
  pose proof (corruption_step_inv _ _ _ Hi Hl) as Hi1.
  destruct (check_step t s l s1 n Hl Hi Hn) as [Hc [[_ Hg]|Hk]].
  { destruct He. apply (consumed_steps t s1 ls s' Hs Hg).
    apply (co_checks _ Hi) in Hn as [? _].
    enough (next_check s <= next_check s1)%nat by lia. by eapply next_check_mono. }
  destruct (IH Hi1 Hk He) as (Hi' & Hk' & Hle & Hf & Ht).
  pose proof (co_count _ Hi). pose proof (co_count _ Hi'). unfold in_u64 in *.
  destruct (usat_succ (trip_count s)) as (? & ? & ?); [done|]. unfold in_u64 in *.
  split_and!; try done; simpl; destruct (is_trip l); simpl; try done; intros; try lia.
  - rewrite Hf by done. lia.
  - destruct (Ht ltac:(done)); lia.
Qed.

(** A recovery check never closes the breaker over newer evidence.  If
    [reset_if_unchanged] answers [true], no corruption was observed between the
    issue of its token and its completion, and the evidence is cleared; it
    answers [false] only when there was such an observation, or when the
    lifetime count is saturated, and then it changes nothing but the token. *)
Theorem recovery_check_sees_no_trip l1 token l2 ok s0 s :
  steps corruption_init (l1 ++ CBegin token :: l2) s0 ->
  lts_step s0 (CComplete token ok) s ->
  (ok = true <-> existsb is_trip l2 = false /\ trip_count s0 < u64_max) /\
  detail s = (if ok then None else detail s0) /\ trip_count s = trip_count s0.
Proof.
  intros Hs Hc. apply steps_app in Hs as (sa & Ha & Hs).
  inversion Hs as [|? ? sb ? ? Hb Hs2]; subst.
  assert (steps corruption_init (l1 ++ [CBegin token]) sb) as Hab.
  { eapply steps_snoc; eauto. }
  pose proof (corruption_reachable _ _ Hab) as Hib.
  inversion Hb as [| | |? ? ? Hp Hbeg| | |]; subst. injection Hbeg as <- <-.
  inversion Hc as [| | | |? ? n ? ? Hp0 Hn Hcl| |]; subst.
  destruct (counted_trips (next_check sa) _ l2 s0 (trip_count sa) Hs2 Hib)
    as (Hi0 & Hn' & Hle & Hf & Ht); [apply lookup_insert_eq|congruence|].
  rewrite Hn in Hn'. injection Hn' as ->. simpl in *. unfold complete_locked in Hcl.
  pose proof (co_count _ Hi0). unfold in_u64 in *.
  destruct (Z.eqb_spec (trip_count s0) u64_max), (Z.eqb_spec (trip_count s0) (trip_count sa));
    simpl in Hcl; injection Hcl as <- <-; (split; [|done]).
  - split; [done|lia].
  - split; [done|lia].
  - split; [|done]. intros _. split; [|lia].
    destruct (existsb is_trip l2); [|done]. destruct (Ht eq_refl); lia.
  - split; [done|]. intros [Hno _]. specialize (Hf Hno). lia.
Qed.

(** The refusal keeps the words of the cause, but not always its class: a cause
    that mentions the full-text tables without any of the full-text damage words
    is main-database corruption, and the word [corrupt] of the refusal itself
    turns it into a full-text index failure. *)
Lemma refusal_can_change_class :
  let e := Sqlite (u "invalid page size in fts_messages") in
  let s := snd (observe_error to_ascii_lowercase is_ascii_alphanumeric false 1 e corruption_init) in
  is_corruption to_ascii_lowercase is_ascii_alphanumeric e = true /\
  is_corruption to_ascii_lowercase is_ascii_alphanumeric <$> refusal_error s = Some false.
Proof. vm_compute. split; reflexivity. Qed.

(** ** Witnesses *)

Definition sample_trip : corruption_label := CTrip MainDbBtreeCorruption (u "malformed page") 7.
Definition tripped_state : CorruptionBreaker :=
  publish (trip_locked MainDbBtreeCorruption (u "malformed page") 7 corruption_init).

Lemma tripped_state_steps : steps corruption_init [sample_trip; CPublish] tripped_state.
Proof.
  eapply steps_cons; [by apply cs_trip|]. eapply steps_cons; [|apply steps_nil].
  by apply (cs_publish _ true).
Qed.

Lemma corruption_breaker_sticky_witness :
  let s2 := publish (trip_locked WalSidecarCorruption (u "wal header") 9 tripped_state) in
  refusal_error s2 = Some (Sqlite (refusal_prefix ++ u "malformed page")).
Proof.
  refine (proj1 (proj2 (proj2 (corruption_breaker_sticky [sample_trip; CPublish] tripped_state
    (mkTripDetail MainDbBtreeCorruption (u "malformed page") 7)
    [CTrip WalSidecarCorruption (u "wal header") 9]
    (trip_locked WalSidecarCorruption (u "wal header") 9 tripped_state) _ _ _ _ _)))).
  - apply tripped_state_steps.
  - reflexivity.
  - reflexivity.
  - eapply steps_cons; [by apply cs_trip|apply steps_nil].
  - by repeat constructor.
Defined.

Lemma recovery_check_sees_no_trip_witness :
  let check := snd (begin_recovery_check tripped_state) in
  let seen := trip_locked MainDbBtreeCorruption (u "malformed page") 8 check in
  fst (complete_locked 0 1 check) = true /\ fst (complete_locked 0 1 seen) = false /\
  detail (snd (complete_locked 0 1 seen)) <> None.
Proof.
  intros check seen. split; [vm_compute; reflexivity|].
  assert (steps corruption_init ([sample_trip; CPublish] ++ CBegin 0 ::
    [CTrip MainDbBtreeCorruption (u "malformed page") 8]) seen) as Hs.
  { apply (steps_snoc ([sample_trip; CPublish] ++ [CBegin 0]) _ check).
    - eapply steps_snoc; [exact tripped_state_steps|by apply cs_begin].
    - by apply cs_trip. }
  assert (lts_step seen (CComplete 0 (fst (complete_locked 0 1 seen))) (snd (complete_locked 0 1 seen))) as Hc.
  { apply (cs_complete seen 0 1); [reflexivity|reflexivity|by destruct (complete_locked 0 1 seen)]. }
  destruct (recovery_check_sees_no_trip [sample_trip; CPublish] 0
    [CTrip MainDbBtreeCorruption (u "malformed page") 8] _ seen _ Hs Hc) as (Hok & Hd & _).
  destruct (fst (complete_locked 0 1 seen)) eqn:E.
  - destruct Hok as [Hok _]. destruct (Hok eq_refl) as [Hno _]. discriminate Hno.
  - split; [reflexivity|]. rewrite Hd. discriminate.
Defined.
