(* ===== verification/CircuitBreaker.v ===== *)
(** * Per-subsystem circuit breakers ([db/src/retry.rs])

    One breaker with the attempts it has admitted and not yet heard from.  The
    identities the source gets from [Arc] allocations ([generation], probe
    slots) are numbers drawn from [next_id]; every operation takes the value of
    the breaker's clock it read, in no particular order, because the source
    reads the clock before it takes the lock.  Floating-point seconds are kept
    as microseconds and their rendering is a parameter. *)

From S2P Require Import Prelude.
From S2P Require Import RustStr.
From S2P Require Import ErrorClass.

(** @src db/src/retry.rs:42-58 Subsystem *)
Inductive Subsystem := SubDb | SubGit | SubSignal | SubLlm.

(** @src db/src/retry.rs:60-69 Subsystem::fmt *)
Definition subsystem_name (s : Subsystem) : ustr :=
  match s with
  | SubDb => u "db" | SubGit => u "git" | SubSignal => u "signal" | SubLlm => u "llm"
  end.

(** @src db/src/retry.rs:75-94 CircuitState *)
Inductive CircuitState := Closed | Open | HalfOpen.

#[export] Instance CircuitState_eq_dec : EqDecision CircuitState.
Proof. solve_decision. Defined.

(** @src db/src/retry.rs:96-100 HALF_OPEN_PROBE_INTERVAL, HALF_OPEN_SUCCESS_THRESHOLD *)
Definition HALF_OPEN_PROBE_INTERVAL_US : Z := 5 * 1000000.
Definition HALF_OPEN_SUCCESS_THRESHOLD : Z := 3.

(** @src db/src/retry.rs:549-558 micros_from_duration *)
Definition micros_from_duration (us : Z) : Z := if u64_max <? us then u64_max else us.

(** @src db/src/retry.rs:112-123 CircuitData *)
Record CircuitData := mkData {
  failures : Z;
  half_open_successes : Z;
  open_until_us : option Z;
  last_probe_us : option Z;
  generation : nat;
  active_probe : option nat;
}.

(** @src db/src/retry.rs:126-132 CircuitData::state *)
Definition data_state (d : CircuitData) (now_us : Z) : CircuitState :=
  match open_until_us d with
  | None => Closed
  | Some until => if now_us <? until then Open else HalfOpen
  end.

(** @src db/src/retry.rs:134-136 CircuitData::clear
    -- the default value, with a fresh generation. *)
Definition data_clear (fresh : nat) : CircuitData :=
  {| failures := 0; half_open_successes := 0; open_until_us := None; last_probe_us := None;
     generation := fresh; active_probe := None |}.

(** @src db/src/retry.rs:138-151 CircuitData::record_success *)
Definition data_record_success (fresh : nat) (now_us : Z) (d : CircuitData) : CircuitData :=
  match data_state d now_us with
  | Closed => {| failures := 0; half_open_successes := half_open_successes d;
                 open_until_us := open_until_us d; last_probe_us := last_probe_us d;
                 generation := generation d; active_probe := active_probe d |}
  | HalfOpen =>
      let successes := u32sat_add (half_open_successes d) 1 in
      if HALF_OPEN_SUCCESS_THRESHOLD <=? successes then data_clear fresh
      else {| failures := failures d; half_open_successes := successes;
              open_until_us := open_until_us d; last_probe_us := last_probe_us d;
              generation := generation d; active_probe := active_probe d |}
  | Open => d
  end.

(** @src db/src/retry.rs:153-164 CircuitData::record_failure *)
Definition data_record_failure (fresh : nat) (now_us threshold reset_us : Z) (d : CircuitData)
    : CircuitData :=
  let failures' := u32sat_add (failures d) 1 in
  if threshold <=? failures' then
    let until := usat_add now_us (micros_from_duration reset_us) in
    {| failures := failures'; half_open_successes := 0;
       open_until_us := Some (match open_until_us d with None => until | Some old => Z.max old until end);
       last_probe_us := last_probe_us d; generation := fresh; active_probe := None |}
  else {| failures := failures'; half_open_successes := 0; open_until_us := open_until_us d;
          last_probe_us := last_probe_us d; generation := generation d;
          active_probe := active_probe d |}.

(** @src db/src/retry.rs:167-173 CircuitRefusal *)
Record CircuitRefusal := mkRefusal {
  cr_failures : Z;
  cr_remaining_us : Z;
  cr_half_open : bool;
  cr_probe_in_flight : bool;
}.

(** @src db/src/retry.rs:175-203 CircuitRefusal::into_error *)
Definition refusal_into_error (fmt_secs : Z -> ustr) (subsystem : ustr) (r : CircuitRefusal)
    : DbError :=
  let head := u "[" ++ subsystem ++ u "] Circuit breaker " in
  let message :=
    if cr_probe_in_flight r then
      head ++ u "half-open, recovery probe already in flight. Retry after that probe completes; its completion time is unknown."
    else if cr_half_open r then
      head ++ u "half-open, probe rate-limited. Next probe in " ++ fmt_secs (cr_remaining_us r) ++ u "s."
    else
      head ++ u "open after " ++ dec (cr_failures r) ++ u " consecutive failures. Resets in "
        ++ fmt_secs (cr_remaining_us r) ++ u "s." in
  CircuitBreakerOpen message (cr_failures r) (cr_remaining_us r).

(** @src db/src/retry.rs:323-358 CircuitBreaker::admit_state *)
Definition admit_state (d : CircuitData) (now_us : Z) : (CircuitRefusal + CircuitState) * CircuitData :=
  let state := data_state d now_us in
  let interval_us := micros_from_duration HALF_OPEN_PROBE_INTERVAL_US in
  match state with
  | Closed => (inr state, d)
  | Open =>
      (inl {| cr_failures := failures d;
              cr_remaining_us := usat_sub (default now_us (open_until_us d)) now_us;
              cr_half_open := false; cr_probe_in_flight := false |}, d)
  | HalfOpen =>
      let admission :=
        (inr state,
         {| failures := failures d; half_open_successes := half_open_successes d;
            open_until_us := open_until_us d; last_probe_us := Some now_us;
            generation := generation d; active_probe := active_probe d |}) in
      match active_probe d with
      | Some _ =>
          (inl {| cr_failures := failures d; cr_remaining_us := interval_us;
                  cr_half_open := true; cr_probe_in_flight := true |}, d)
      | None =>
          match last_probe_us d with
          | Some last =>
              let elapsed := usat_sub now_us last in
              if elapsed <? interval_us then
                (inl {| cr_failures := failures d; cr_remaining_us := interval_us - elapsed;
                        cr_half_open := true; cr_probe_in_flight := false |}, d)
              else admission
          | None => admission
          end
      end
  end.

(** @src db/src/retry.rs:489-501 CircuitAttempt
    -- [completed] is membership in the breaker's outstanding attempts. *)
Record CircuitAttempt := mkAttempt {
  at_generation : nat;
  at_probe : option nat;
  at_admitted_state : CircuitState;
}.

(** @src db/src/retry.rs:503-508 CircuitAttempt::is_half_open_probe *)
Definition is_half_open_probe (a : CircuitAttempt) : bool :=
  bool_decide (at_admitted_state a = HalfOpen).

(** @src db/src/retry.rs:482-487 AttemptResult *)
Inductive AttemptResult := Success | Failure | Abandoned.

(** @src db/src/retry.rs:205-222 CircuitBreaker
    -- with the allocator of identities and the outstanding attempts. *)
Record CircuitBreaker := mkBreaker {
  data : CircuitData;
  threshold : Z;
  reset_duration_us : Z;
  next_id : nat;
  attempts : gmap nat CircuitAttempt;
}.

(** @src db/src/retry.rs:240-254 CircuitBreaker::with_subsystem *)
Definition with_subsystem (threshold reset_us : Z) : CircuitBreaker :=
  {| data := data_clear 0; threshold := Z.max threshold 1; reset_duration_us := reset_us;
     next_id := 1; attempts := ∅ |}.

(** @src db/src/retry.rs:586-645 circuit_for
    -- the configured defaults. *)
Definition circuit_for (s : Subsystem) : CircuitBreaker :=
  match s with
  | SubDb => with_subsystem 5 (30 * 1000000)
  | SubGit => with_subsystem 8 (45 * 1000000)
  | SubSignal => with_subsystem 5 (30 * 1000000)
  | SubLlm => with_subsystem 3 (60 * 1000000)
  end.

Definition set_data (d : CircuitData) (b : CircuitBreaker) : CircuitBreaker :=
  {| data := d; threshold := threshold b; reset_duration_us := reset_duration_us b;
     next_id := next_id b; attempts := attempts b |}.

(** Every operation consumes the identities it may have allocated. *)
Definition tick (b : CircuitBreaker) : CircuitBreaker :=
  {| data := data b; threshold := threshold b; reset_duration_us := reset_duration_us b;
     next_id := S (next_id b); attempts := attempts b |}.

Definition set_attempts (m : gmap nat CircuitAttempt) (b : CircuitBreaker) : CircuitBreaker :=
  {| data := data b; threshold := threshold b; reset_duration_us := reset_duration_us b;
     next_id := next_id b; attempts := m |}.

(** @src db/src/retry.rs:102-110 CircuitSnapshot *)
Record CircuitSnapshot := mkSnapshot {
  sn_state : CircuitState;
  sn_failures : Z;
  sn_half_open_successes : Z;
  sn_remaining_open_us : Z;
  sn_probe_in_flight : bool;
}.

(** @src db/src/retry.rs:280-297 CircuitBreaker::snapshot *)
Definition snapshot (b : CircuitBreaker) (now_us : Z) : CircuitSnapshot :=
  {| sn_state := data_state (data b) now_us;
     sn_failures := failures (data b);
     sn_half_open_successes := half_open_successes (data b);
     sn_remaining_open_us :=
       match open_until_us (data b) with None => 0 | Some until => usat_sub until now_us end;
     sn_probe_in_flight := bool_decide (is_Some (active_probe (data b))) |}.

(** @src db/src/retry.rs:365-373 CircuitBreaker::check *)
Definition check (b : CircuitBreaker) (now_us : Z) : option CircuitRefusal * CircuitBreaker :=
  let '(r, d) := admit_state (data b) now_us in
  (match r with inl refusal => Some refusal | inr _ => None end, set_data d b).

(** @src db/src/retry.rs:378-398 CircuitBreaker::begin_attempt
    -- the token is the number under which the attempt is outstanding. *)
Definition begin_attempt (b : CircuitBreaker) (now_us : Z)
    : (CircuitRefusal + nat * CircuitAttempt) * CircuitBreaker :=
  let '(r, d) := admit_state (data b) now_us in
  match r with
  | inl refusal => (inl refusal, set_data d b)
  | inr admitted_state =>
      let token := next_id b in
      let probe := if decide (admitted_state = HalfOpen) then Some token else None in
      let d := {| failures := failures d; half_open_successes := half_open_successes d;
                  open_until_us := open_until_us d; last_probe_us := last_probe_us d;
                  generation := generation d; active_probe := probe |} in
      let attempt := {| at_generation := generation d; at_probe := probe;
                        at_admitted_state := admitted_state |} in
      (inr (token, attempt),
       set_attempts (<[token := attempt]> (attempts b)) (tick (set_data d b)))
  end.

(** @src db/src/retry.rs:400-414 CircuitBreaker::record_success *)
Definition record_success (b : CircuitBreaker) (now_us : Z) : CircuitBreaker :=
  match active_probe (data b) with
  | None => tick (set_data (data_record_success (next_id b) now_us (data b)) b)
  | Some _ => b
  end.

(** @src db/src/retry.rs:416-429 CircuitBreaker::record_failure *)
Definition record_failure (b : CircuitBreaker) (now_us : Z) : CircuitBreaker :=
  tick (set_data (data_record_failure (next_id b) now_us (threshold b) (reset_duration_us b) (data b)) b).

(** @src db/src/retry.rs:431-464 CircuitBreaker::finish_attempt *)
Definition finish_attempt (b : CircuitBreaker) (attempt : CircuitAttempt) (result : AttemptResult)
    (now_us : Z) : CircuitBreaker :=
  if negb (at_generation attempt =? generation (data b))%nat then b
  else
    let go d :=
      tick (set_data
        match result with
        | Success => data_record_success (next_id b) now_us d
        | Failure => data_record_failure (next_id b) now_us (threshold b) (reset_duration_us b) d
        | Abandoned =>
            match at_probe attempt with
            | Some _ => {| failures := failures d; half_open_successes := 0;
                           open_until_us := open_until_us d; last_probe_us := last_probe_us d;
                           generation := generation d; active_probe := active_probe d |}
            | None => d
            end
        end b) in
    match at_probe attempt with
    | Some probe =>
        if negb (bool_decide (active_probe (data b) = Some probe)) then b
        else go {| failures := failures (data b); half_open_successes := half_open_successes (data b);
                   open_until_us := open_until_us (data b); last_probe_us := last_probe_us (data b);
                   generation := generation (data b); active_probe := None |}
    | None => go (data b)
    end.

(** The token leaves the outstanding attempts. *)
Definition retire (token : nat) (b : CircuitBreaker) : CircuitBreaker :=
  set_attempts (delete token (attempts b)) b.

(** @src db/src/retry.rs:510-527 CircuitAttempt::finish *)
Definition finish (b : CircuitBreaker) (token : nat) (result : AttemptResult) (now_us : Z)
    : CircuitBreaker :=
  match attempts b !! token with
  | Some attempt => retire token (finish_attempt b attempt result now_us)
  | None => b
  end.

(** @src db/src/retry.rs:530-537 CircuitAttempt::drop *)
Definition drop_attempt (b : CircuitBreaker) (token : nat) (now_us : Z) : CircuitBreaker :=
  match attempts b !! token with
  | Some attempt =>
      match at_probe attempt with
      | Some _ => retire token (finish_attempt b attempt Abandoned now_us)
      | None => retire token b
      end
  | None => b
  end.

(** @src db/src/retry.rs:472-475 CircuitBreaker::reset *)
Definition reset (b : CircuitBreaker) : CircuitBreaker := tick (set_data (data_clear (next_id b)) b).

(** ** Interleavings *)

Inductive cb_op :=
| OpBegin (now : Z)
| OpCheck (now : Z)
| OpFinish (token : nat) (result : AttemptResult) (now : Z)
| OpDrop (token : nat) (now : Z)
| OpSuccess (now : Z)
| OpFailure (now : Z)
| OpReset.

Definition cb_apply (b : CircuitBreaker) (o : cb_op) : CircuitBreaker :=
  match o with
  | OpBegin now => snd (begin_attempt b now)
  | OpCheck now => snd (check b now)
  | OpFinish token result now => finish b token result now
  | OpDrop token now => drop_attempt b token now
  | OpSuccess now => record_success b now
  | OpFailure now => record_failure b now
  | OpReset => reset b
  end.

(** The clock reads [u64] microseconds. *)
Definition op_time_ok (o : cb_op) : Prop :=
  match o with
  | OpBegin now | OpCheck now | OpFinish _ _ now | OpDrop _ now | OpSuccess now | OpFailure now =>
      in_u64 now
  | OpReset => True
  end.

#[export] Instance cb_lts : LTS CircuitBreaker cb_op := {
  lts_init b := exists threshold reset_us, 0 <= threshold <= u32_max /\ 0 <= reset_us /\
    b = with_subsystem threshold reset_us;
  lts_step b o b' := op_time_ok o /\ b' = cb_apply b o;
}.
