(* ===== verification/CircuitBreakerProps.v ===== *)
(** * Properties of the circuit breakers *)

From S2P Require Import Prelude.
From S2P Require Import RustStr.
From S2P Require Import ErrorClass.
From S2P Require Import CircuitBreaker.

(** Facts about the data alone. *)
Record data_inv (threshold : Z) (next : nat) (d : CircuitData) : Prop := {
  di_gen : (generation d < next)%nat;
  di_probe p : active_probe d = Some p -> (p < next)%nat;
  di_hos : 0 <= half_open_successes d < HALF_OPEN_SUCCESS_THRESHOLD;
  di_failures : 0 <= failures d <= u32_max;
  di_closed : open_until_us d = None ->
    active_probe d = None /\ half_open_successes d = 0 /\ last_probe_us d = None;
  di_open : is_Some (open_until_us d) -> threshold <= failures d;
}.

Record cb_inv (b : CircuitBreaker) : Prop := {
  ci_threshold : 1 <= threshold b <= u32_max;
  ci_reset : 0 <= reset_duration_us b;
  ci_data : data_inv (threshold b) (next_id b) (data b);
  ci_token t a : attempts b !! t = Some a -> (t < next_id b)%nat /\ (at_generation a < next_id b)%nat;
  ci_own t a p : attempts b !! t = Some a -> at_probe a = Some p ->
    p = t /\ at_admitted_state a = HalfOpen;
  ci_current t a p : attempts b !! t = Some a -> at_probe a = Some p ->
    at_generation a = generation (data b) -> active_probe (data b) = Some p;
  ci_holder p : active_probe (data b) = Some p ->
    exists a, attempts b !! p = Some a /\ at_probe a = Some p /\ at_generation a = generation (data b);
}.

(** A data update either stays in its epoch or opens a new one. *)
Definition same_epoch (d d' : CircuitData) : Prop :=
  generation d' = generation d /\ active_probe d' = active_probe d /\
  (is_Some (open_until_us d') <-> is_Some (open_until_us d)) /\
  last_probe_us d' = last_probe_us d.
Definition new_epoch (fresh : nat) (d' : CircuitData) : Prop :=
  generation d' = fresh /\ active_probe d' = None.

Lemma record_success_epoch fresh now d :
  same_epoch d (data_record_success fresh now d) \/
  data_record_success fresh now d = data_clear fresh /\ half_open_successes d + 1 >= 3 /\
    is_Some (open_until_us d).
Proof.
  unfold data_record_success, data_state. destruct (open_until_us d) as [until|] eqn:Eo.
  - destruct (now <? until); [by left|].
    destruct (HALF_OPEN_SUCCESS_THRESHOLD <=? u32sat_add (half_open_successes d) 1) eqn:E.
    + right. split_and!; [done| |eauto]. breflect. unfold u32sat_add, HALF_OPEN_SUCCESS_THRESHOLD in *. lia.
    + left. unfold same_epoch. simpl. by rewrite Eo.
  - left. unfold same_epoch. simpl. by rewrite Eo.
Qed.

Lemma record_failure_epoch fresh now thr reset d :
  same_epoch d (data_record_failure fresh now thr reset d) \/
  new_epoch fresh (data_record_failure fresh now thr reset d).
Proof. unfold data_record_failure. destruct (thr <=? _); [by right|by left]. Qed.

Lemma data_inv_clear thr next : 1 <= thr -> data_inv thr (S next) (data_clear next).
Proof. intros Ht. split; simpl; try done; lia. Qed.

Lemma data_inv_next thr next next' d :
  data_inv thr next d -> (next <= next')%nat -> data_inv thr next' d.
Proof.
  intros [H1 H2 H3 H4 H5 H6] Hle. split; try done; [lia|]. intros p Hp. specialize (H2 p Hp). lia.
Qed.

(** Close the routine fields of a [data_inv]. *)
Ltac di_solve :=
  simpl; try done;
  try (unfold HALF_OPEN_SUCCESS_THRESHOLD, u32sat_add, u32_max in *; lia);
  try (let p := fresh "p" in let Hp := fresh "Hp" in intros p Hp;
       match goal with H : forall p, active_probe _ = Some p -> _ |- _ => specialize (H p Hp) end; lia).

Lemma data_inv_success thr next now d :
  1 <= thr -> data_inv thr next d -> data_inv thr (S next) (data_record_success next now d).
Proof.
  intros Ht Hd. pose proof Hd as [H1 H2 H3 H4 H5 H6]. unfold data_record_success.
  destruct (data_state d now) eqn:Es; unfold data_state in Es.
  - destruct (open_until_us d) as [until|] eqn:Eo; [by destruct (now <? until)|].
    split; di_solve.
  - by apply data_inv_next with next; [|lia].
  - destruct (HALF_OPEN_SUCCESS_THRESHOLD <=? _) eqn:E; [by apply data_inv_clear|].
    breflect. split; di_solve. intros Ho. by rewrite Ho in Es.
Qed.

Lemma data_inv_failure thr next now reset d :
  data_inv thr next d -> data_inv thr (S next) (data_record_failure next now thr reset d).
Proof.
  intros [H1 H2 H3 H4 H5 H6]. unfold data_record_failure.
  destruct (thr <=? u32sat_add (failures d) 1) eqn:E; breflect; split; di_solve.
  - intros Ho. by destruct (H5 Ho) as (? & ? & ?).
  - intros Ho. specialize (H6 Ho). di_solve.
Qed.

(** Replacing the data of a breaker and drawing an identity. *)
Lemma tick_same_inv b d :
  cb_inv b -> data_inv (threshold b) (S (next_id b)) d -> same_epoch (data b) d ->
  cb_inv (tick (set_data d b)).
Proof.
  intros [T R D A O C Ho] Hd (Hg & Hp & _ & _).
  split; simpl; try done; try lia; rewrite ?Hg, ?Hp; try done.
  intros t a Ha. destruct (A t a Ha). lia.
Qed.

Lemma tick_new_inv b d :
  cb_inv b -> data_inv (threshold b) (S (next_id b)) d -> new_epoch (next_id b) d ->
  cb_inv (tick (set_data d b)).
Proof.
  intros [T R D A O C Ho] Hd (Hg & Hp). split; simpl; try done; rewrite ?Hg, ?Hp; try done.
  - intros t a Ha. destruct (A t a Ha). lia.
  - intros t a p Ha _ Hga. destruct (A t a Ha). lia.
Qed.

(** Releasing the probe slot together with its attempt. *)
Lemma retire_other_inv b t :
  cb_inv b -> active_probe (data b) <> Some t -> cb_inv (retire t b).
Proof.
  intros [T R D A O C Ho] Hne. split; simpl; try done.
  - intros t' a [_ Ha]%lookup_delete_Some. by apply A.
  - intros t' a p [_ Ha]%lookup_delete_Some. by apply O.
  - intros t' a p [_ Ha]%lookup_delete_Some. by apply (C t').
  - intros p Hp. destruct (Ho p Hp) as (a & Ha & ?). exists a.
    rewrite lookup_delete_ne; [done|]. congruence.
Qed.

Lemma admit_state_data d now :
  snd (admit_state d now) = d \/
  (snd (admit_state d now) =
     {| failures := failures d; half_open_successes := half_open_successes d;
        open_until_us := open_until_us d; last_probe_us := Some now;
        generation := generation d; active_probe := active_probe d |} /\
   data_state d now = HalfOpen /\ active_probe d = None /\ fst (admit_state d now) = inr HalfOpen /\
   (forall last, last_probe_us d = Some last -> HALF_OPEN_PROBE_INTERVAL_US <= usat_sub now last)).
Proof.
  unfold admit_state. destruct (data_state d now) eqn:Es; try by left.
  destruct (active_probe d); [by left|].
  destruct (last_probe_us d) as [last|].
  - destruct (usat_sub now last <? _) eqn:E; [by left|]. right. breflect.
    split_and!; try done. intros ? [= <-]. exact E.
  - right. by split_and!.
Qed.

Lemma halfopen_open d now : data_state d now = HalfOpen -> is_Some (open_until_us d).
Proof. unfold data_state. by destruct (open_until_us d). Qed.

Lemma admit_inv b now :
  cb_inv b -> cb_inv (set_data (snd (admit_state (data b) now)) b).
Proof.
  intros [T R D A O C Ho].
  destruct (admit_state_data (data b) now) as [->|(-> & Hs & Hp & _)].
  - destruct b; by split.
  - apply halfopen_open in Hs as [until Hu]. destruct D as [H1 H2 H3 H4 H5 H6].
    split; try done. split; try done. simpl. rewrite Hu. done.
Qed.

(** ** Every operation preserves the invariant *)

Lemma begin_inv b now : cb_inv b -> cb_inv (snd (begin_attempt b now)).
Proof.
  intros Hb. pose proof (admit_inv b now Hb) as Hadm. unfold begin_attempt.
  destruct (admit_state (data b) now) as [[refusal|st] d] eqn:Ea; [exact Hadm|]. simpl in Hadm.
  assert (active_probe d = None /\ generation d = generation (data b) /\
          (st = HalfOpen -> is_Some (open_until_us d))) as (Hnone & Hgen & Hst).
  { pose proof (di_closed _ _ _ (ci_data _ Hb)) as Hcl. unfold admit_state in Ea.
    destruct (data_state (data b) now) eqn:Es.
    - simplify_eq. unfold data_state in Es.
      destruct (open_until_us (data b)) eqn:Eo; [by destruct (now <? z)|]. by destruct (Hcl eq_refl).
    - done.
    - pose proof (halfopen_open _ _ Es). destruct (active_probe (data b)) eqn:Ep; [done|].
      destruct (last_probe_us (data b)); [|by simplify_eq].
      destruct (_ <? _); by simplify_eq. }
  destruct Hadm as [T R D A O C Ho]. destruct D as [D1 D2 D3 D4 D5 D6]. simpl in *.
  split; simpl; try done.
  - split; simpl; try done; [lia| |].
    + intros p. destruct (decide (st = HalfOpen)); [intros [= <-]; lia|done].
    + intros Ho'. destruct (D5 Ho') as (? & ? & ?). split; [|done].
      destruct (decide (st = HalfOpen)) as [E|]; [|done]. destruct (Hst E) as [? ?]. congruence.
  - intros t a [[<- <-]|[_ Ha]]%lookup_insert_Some; simpl; [lia|]. destruct (A t a Ha). lia.
  - intros t a p [[<- <-]|[_ Ha]]%lookup_insert_Some; simpl; [|by apply O].
    destruct (decide (st = HalfOpen)); [by intros [= <-]|done].
  - intros t a p [[<- <-]|[_ Ha]]%lookup_insert_Some; simpl; [by intros ->|].
    intros Hp Hg. specialize (C t a p Ha Hp Hg). congruence.
  - intros p. destruct (decide (st = HalfOpen)) as [->|]; [|done]. intros [= <-].
    eexists. rewrite lookup_insert_eq. split; [reflexivity|]. by simpl.
Qed.

(** The feedback of an attempt on the data of a breaker that no longer lists it. *)
Definition result_data (b : CircuitBreaker) (probed : option nat) (result : AttemptResult) (now : Z)
    (d : CircuitData) : CircuitData :=
  match result with
  | Success => data_record_success (next_id b) now d
  | Failure => data_record_failure (next_id b) now (threshold b) (reset_duration_us b) d
  | Abandoned =>
      match probed with
      | Some _ => {| failures := failures d; half_open_successes := 0;
                     open_until_us := open_until_us d; last_probe_us := last_probe_us d;
                     generation := generation d; active_probe := active_probe d |}
      | None => d
      end
  end.

Lemma tick_success_inv b now :
  cb_inv b -> cb_inv (tick (set_data (data_record_success (next_id b) now (data b)) b)).
Proof.
  intros Hb. pose proof (data_inv_success _ _ now _ (proj1 (ci_threshold _ Hb)) (ci_data _ Hb)) as Hd.
  destruct (record_success_epoch (next_id b) now (data b)) as [Hs|(E & _)].
  - by apply tick_same_inv.
  - apply tick_new_inv; [done|done|]. by rewrite E.
Qed.

Lemma tick_failure_inv b now :
  cb_inv b -> cb_inv (tick (set_data
    (data_record_failure (next_id b) now (threshold b) (reset_duration_us b) (data b)) b)).
Proof.
  intros Hb. pose proof (data_inv_failure _ _ now (reset_duration_us b) _ (ci_data _ Hb)) as Hd.
  destruct (record_failure_epoch (next_id b) now (threshold b) (reset_duration_us b) (data b)).
  - by apply tick_same_inv.
  - by apply tick_new_inv.
Qed.

Lemma result_inv b probed result now :
  cb_inv b -> cb_inv (tick (set_data (result_data b probed result now (data b)) b)).
Proof.
  intros Hb. destruct result; simpl; [by apply tick_success_inv|by apply tick_failure_inv|].
  destruct (ci_data _ Hb) as [D1 D2 D3 D4 D5 D6].
  destruct probed; (apply tick_same_inv; [done| |done]); split; di_solve.
  intros Ho. by destruct (D5 Ho) as (? & ? & ?).
Qed.

Definition release_data (d : CircuitData) : CircuitData :=
  {| failures := failures d; half_open_successes := half_open_successes d;
     open_until_us := open_until_us d; last_probe_us := last_probe_us d;
     generation := generation d; active_probe := None |}.

Lemma release_inv b t :
  cb_inv b -> active_probe (data b) = Some t -> cb_inv (retire t (set_data (release_data (data b)) b)).
Proof.
  intros [T R D A O C Ho] Ht. destruct D as [D1 D2 D3 D4 D5 D6]. split; simpl; try done.
  - split; di_solve. intros Hu. by destruct (D5 Hu) as (? & ? & ?).
  - intros t' a [_ Ha]%lookup_delete_Some. by apply A.
  - intros t' a p [_ Ha]%lookup_delete_Some. by apply O.
  - intros t' a p [Hne Ha]%lookup_delete_Some Hp Hg.
    pose proof (C t' a p Ha Hp Hg). destruct (O t' a p Ha Hp) as [-> _]. congruence.
Qed.

(** The three outcomes of [finish_attempt] on an outstanding attempt. *)
Lemma finish_cases b t a result now :
  cb_inv b -> attempts b !! t = Some a ->
  (at_generation a <> generation (data b) /\ finish_attempt b a result now = b /\
   active_probe (data b) <> Some t) \/
  (at_generation a = generation (data b) /\ at_probe a = Some t /\ active_probe (data b) = Some t /\
   finish_attempt b a result now =
     tick (set_data (result_data b (at_probe a) result now (release_data (data b))) b)) \/
  (at_generation a = generation (data b) /\ at_probe a = None /\ active_probe (data b) <> Some t /\
   finish_attempt b a result now =
     tick (set_data (result_data b (at_probe a) result now (data b)) b)).
Proof.
  intros Hb Ha. unfold finish_attempt.
  destruct (Nat.eqb_spec (at_generation a) (generation (data b))) as [Hg|Hg]; simpl.
  - right. destruct (at_probe a) as [p|] eqn:Ep.
    + left. destruct (ci_own _ Hb t a p Ha Ep) as [-> _].
      pose proof (ci_current _ Hb t a t Ha Ep Hg) as Hact. rewrite Hact.
      rewrite bool_decide_eq_true_2 by done. done.
    + right. split_and!; try done. intros Hact.
      destruct (ci_holder _ Hb t Hact) as (a' & Ha' & Hp' & _). congruence.
  - left. split_and!; try done. intros Hact.
    destruct (ci_holder _ Hb t Hact) as (a' & Ha' & _ & Hg'). congruence.
Qed.

Lemma finish_token_inv b t a result now :
  cb_inv b -> attempts b !! t = Some a -> cb_inv (retire t (finish_attempt b a result now)).
Proof.
  intros Hb Ha.
  destruct (finish_cases b t a result now Hb Ha) as [(_ & -> & Hne)|[(_ & _ & Hact & ->)|(_ & _ & Hne & ->)]].
  - by apply retire_other_inv.
  - apply (result_inv (retire t (set_data (release_data (data b)) b)) (at_probe a) result now).
    by apply release_inv.
  - apply (result_inv (retire t b) (at_probe a) result now). by apply retire_other_inv.
Qed.

Lemma cb_apply_inv b o : cb_inv b -> cb_inv (cb_apply b o).
Proof.
  intros Hb. destruct o as [now|now|t result now|t now|now|now|]; simpl.
  - by apply begin_inv.
  - unfold check. pose proof (admit_inv b now Hb). by destruct (admit_state (data b) now).
  - unfold finish. destruct (attempts b !! t) as [a|] eqn:Ha; [|done]. by apply finish_token_inv.
  - unfold drop_attempt. destruct (attempts b !! t) as [a|] eqn:Ha; [|done].
    destruct (at_probe a) eqn:Ep; [by apply finish_token_inv|]. apply retire_other_inv; [done|].
    intros Hact. destruct (ci_holder _ Hb t Hact) as (a' & Ha' & Hp' & _). congruence.
  - unfold record_success. destruct (active_probe (data b)); [done|]. by apply tick_success_inv.
  - by apply tick_failure_inv.
  - apply tick_new_inv; [done| |done]. apply data_inv_clear, Hb.
Qed.

Lemma cb_reachable_inv b : reachable b -> cb_inv b.
Proof.
  apply invariant_reachable. split.
  - intros s (thr & reset & Ht & Hr & ->). split; simpl; try done.
    + unfold u32_max in *. lia.
    + apply data_inv_clear. lia.
  - intros s o s' Hs [_ ->]. by apply cb_apply_inv.
Qed.

(** Recovery probes are single-flight and their slot is never leaked.  In
    every reachable state, under any interleaving, the probe slot names
    exactly the one outstanding half-open attempt of the current epoch: two
    outstanding probes of the epoch are the same attempt, and an occupied slot
    always has an outstanding owner that can release it. *)
Theorem half_open_probe_single_flight b :
  reachable b ->
  (forall t1 a1 t2 a2, attempts b !! t1 = Some a1 -> attempts b !! t2 = Some a2 ->
     is_half_open_probe a1 = true -> is_half_open_probe a2 = true ->
     is_Some (at_probe a1) -> is_Some (at_probe a2) ->
     at_generation a1 = generation (data b) -> at_generation a2 = generation (data b) -> t1 = t2) /\
  (forall p, active_probe (data b) = Some p -> exists a,
     attempts b !! p = Some a /\ is_half_open_probe a = true /\ at_generation a = generation (data b)).
Proof.
  intros Hb%cb_reachable_inv. split.
  - intros t1 a1 t2 a2 H1 H2 _ _ [p1 E1] [p2 E2] G1 G2.
    pose proof (ci_current _ Hb _ _ _ H1 E1 G1). pose proof (ci_current _ Hb _ _ _ H2 E2 G2).
    destruct (ci_own _ Hb _ _ _ H1 E1) as [-> _], (ci_own _ Hb _ _ _ H2 E2) as [-> _]. congruence.
  - intros p Hp. destruct (ci_holder _ Hb p Hp) as (a & Ha & Hap & Hg). exists a.
    split_and!; [done| |done]. destruct (ci_own _ Hb _ _ _ Ha Hap) as [_ Hst].
    unfold is_half_open_probe. by apply bool_decide_eq_true_2.
Qed.

(** ** Epochs *)

Lemma cb_apply_generation b o :
  cb_inv b -> generation (data (cb_apply b o)) = generation (data b) \/
              generation (data (cb_apply b o)) = next_id b.
Proof.
  intros Hb.
  assert (forall probed result now d, generation d = generation (data b) ->
    generation (result_data b probed result now d) = generation (data b) \/
    generation (result_data b probed result now d) = next_id b) as Hres.
  { intros probed result now d Hd. destruct result; simpl.
    - destruct (record_success_epoch (next_id b) now d) as [(-> & _)|(-> & _)]; auto.
    - destruct (record_failure_epoch (next_id b) now (threshold b) (reset_duration_us b) d)
        as [(-> & _)|(-> & _)]; auto.
    - destruct probed; auto. }
  assert (forall t a result now, attempts b !! t = Some a ->
    generation (data (finish_attempt b a result now)) = generation (data b) \/
    generation (data (finish_attempt b a result now)) = next_id b) as Hfin.
  { intros t a result now Ha.
    destruct (finish_cases b t a result now Hb Ha) as [(_ & -> & _)|[(_ & _ & _ & ->)|(_ & _ & _ & ->)]];
      simpl; auto. }
  assert (forall now, generation (snd (admit_state (data b) now)) = generation (data b)) as Hadm.
  { intros now. by destruct (admit_state_data (data b) now) as [->|(-> & _)]. }
  destruct o as [now|now|t result now|t now|now|now|]; simpl.
  - left. specialize (Hadm now). unfold begin_attempt. by destruct (admit_state (data b) now) as [[]].
  - left. specialize (Hadm now). unfold check. by destruct (admit_state (data b) now).
  - unfold finish. destruct (attempts b !! t) as [a|] eqn:Ha; [|by left]. apply (Hfin t a result now Ha).
  - unfold drop_attempt. destruct (attempts b !! t) as [a|] eqn:Ha; [|by left].
    destruct (at_probe a); [apply (Hfin t a Abandoned now Ha)|by left].
  - unfold record_success. destruct (active_probe (data b)); [by left|]. apply (Hres None Success); auto.
  - apply (Hres None Failure); auto.
  - by right.
Qed.

Lemma finish_attempt_next b a result now : (next_id b <= next_id (finish_attempt b a result now))%nat.
Proof.
  unfold finish_attempt. destruct (negb _); [done|].
  destruct (at_probe a); [destruct (negb _); [done|]|]; simpl; lia.
Qed.

Lemma cb_apply_next b o : (next_id b <= next_id (cb_apply b o))%nat.
Proof.
  destruct o as [now|now|t result now|t now|now|now|]; simpl; try lia.
  - unfold begin_attempt. destruct (admit_state _ _) as [[] ?]; simpl; lia.
  - unfold check. destruct (admit_state _ _) as [[] ?]; simpl; lia.
  - unfold finish. destruct (attempts b !! t); [|done]. simpl. apply finish_attempt_next.
  - unfold drop_attempt. destruct (attempts b !! t) as [a|]; [|done].
    destruct (at_probe a); [simpl; apply finish_attempt_next|done].
  - unfold record_success. destruct (active_probe _); simpl; lia.
Qed.

(** An epoch left behind never comes back. *)
Lemma epoch_gone b ls b' g :
  reachable b -> steps b ls b' -> (g < next_id b)%nat -> generation (data b) <> g ->
  generation (data b') <> g /\ reachable b'.
Proof.
  intros Hr Hs. induction Hs as [b|b l b1 ls b2 Hl Hs IH]; intros Hlt Hne; [done|].
  assert (reachable b1) as Hr1 by (by eapply reach_step). destruct Hl as [_ ->].
  pose proof (cb_apply_next b l). apply IH; [done|lia|].
  destruct (cb_apply_generation b l (cb_reachable_inv b Hr)) as [->| ->]; [done|lia].
Qed.

(** Stale feedback is ignored.  Once a step has opened a new epoch (a
    trip, a recovery, a reset), an attempt admitted before it can never again
    change the breaker: whatever happens in between, finishing it with any
    result, or dropping it, leaves the circuit data as they are. *)
Theorem stale_attempt_ignored b o b1 ls b2 t a result now :
  reachable b -> lts_step b o b1 -> attempts b !! t = Some a ->
  generation (data b1) <> generation (data b) -> at_generation a = generation (data b) ->
  steps b1 ls b2 -> attempts b2 !! t = Some a ->
  data (finish b2 t result now) = data b2 /\ data (drop_attempt b2 t now) = data b2.
Proof.
  intros Hr Ho Ha Hg Hga Hs Ha2. pose proof (cb_reachable_inv b Hr) as Hb.
  assert (reachable b1) as Hr1 by (by eapply reach_step).
  pose proof (ci_token _ Hb t a Ha) as [_ Hlt].
  assert (next_id b <= next_id b1)%nat by (destruct Ho as [_ ->]; apply cb_apply_next).
  destruct (epoch_gone b1 ls b2 (at_generation a) Hr1 Hs) as [Hne Hr2]; [lia|congruence|].
  assert (forall r, finish_attempt b2 a r now = b2) as Hf.
  { intros r. unfold finish_attempt. by destruct (Nat.eqb_spec (at_generation a) (generation (data b2))). }
  unfold finish, drop_attempt. rewrite Ha2, !Hf. by destruct (at_probe a).
Qed.

(** ** Leaving the open state *)

Definition is_success (o : cb_op) : Z :=
  match o with OpFinish _ Success _ | OpSuccess _ => 1 | _ => 0 end.
Definition successes (os : list cb_op) : Z := foldr (fun o n => is_success o + n) 0 os.

Lemma successes_nonneg os : 0 <= successes os.
Proof. induction os as [|o os IH]; simpl; [lia|]. destruct o as [| |? []| | | |]; simpl; lia. Qed.

(** One update of open data: it stays open with at most one more recovery
    success, or it is the third success. *)
Definition open_progress (s : Z) (d d' : CircuitData) : Prop :=
  (is_Some (open_until_us d') /\ half_open_successes d' <= half_open_successes d + s) \/
  (s = 1 /\ 3 <= half_open_successes d + 1).

Lemma success_progress fresh now d :
  0 <= half_open_successes d -> is_Some (open_until_us d) ->
  open_progress 1 d (data_record_success fresh now d).
Proof.
  intros Hh [until Hu]. unfold data_record_success, data_state, open_progress. rewrite Hu.
  destruct (now <? until); [left; split; [eauto|lia]|].
  destruct (HALF_OPEN_SUCCESS_THRESHOLD <=? u32sat_add (half_open_successes d) 1) eqn:E; breflect;
    unfold HALF_OPEN_SUCCESS_THRESHOLD, u32sat_add in *.
  - right. lia.
  - left. simpl. split; [eauto|lia].
Qed.

Lemma failure_progress fresh now thr reset d :
  0 <= half_open_successes d -> is_Some (open_until_us d) ->
  open_progress 0 d (data_record_failure fresh now thr reset d).
Proof.
  intros Hh Hu. left. unfold data_record_failure. destruct (thr <=? _); simpl; split; eauto; lia.
Qed.

Lemma result_progress b probed result now d :
  0 <= half_open_successes d -> is_Some (open_until_us d) ->
  open_progress (match result with Success => 1 | _ => 0 end) d (result_data b probed result now d).
Proof.
  intros Hh Hu. destruct result; simpl.
  - by apply success_progress.
  - by apply failure_progress.
  - destruct probed; left; simpl; (split; [done|lia]).
Qed.

Lemma finish_progress b t a result now :
  cb_inv b -> attempts b !! t = Some a -> is_Some (open_until_us (data b)) ->
  open_progress (match result with Success => 1 | _ => 0 end) (data b)
    (data (finish_attempt b a result now)).
Proof.
  intros Hb Ha Hu. pose proof (di_hos _ _ _ (ci_data _ Hb)) as Hh.
  destruct (finish_cases b t a result now Hb Ha) as [(_ & -> & _)|[(_ & _ & _ & ->)|(_ & _ & _ & ->)]].
  - left. split; [done|destruct result; lia].
  - apply (result_progress b (at_probe a) result now (release_data (data b))); [simpl; lia|done].
  - apply result_progress; [lia|done].
Qed.

Lemma apply_progress b o :
  cb_inv b -> o <> OpReset -> is_Some (open_until_us (data b)) ->
  open_progress (is_success o) (data b) (data (cb_apply b o)).
Proof.
  intros Hb Hne Hu. pose proof (di_hos _ _ _ (ci_data _ Hb)) as Hh.
  assert (forall now s, 0 <= s -> open_progress s (data b) (snd (admit_state (data b) now))) as Hadm.
  { intros now s Hs. left. destruct (admit_state_data (data b) now) as [->|(-> & _)]; simpl; split; done || lia. }
  destruct o as [now|now|t result now|t now|now|now|]; simpl.
  - specialize (Hadm now 0 ltac:(lia)). unfold begin_attempt. by destruct (admit_state (data b) now) as [[]].
  - specialize (Hadm now 0 ltac:(lia)). unfold check. by destruct (admit_state (data b) now).
  - unfold finish. destruct (attempts b !! t) as [a|] eqn:Ha; [by apply (finish_progress b t)|].
    left. split; [done|destruct result; lia].
  - unfold drop_attempt. destruct (attempts b !! t) as [a|] eqn:Ha; [|left; split; [done|lia]].
    destruct (at_probe a); [by apply (finish_progress b t a Abandoned)|left; split; [done|simpl; lia]].
  - unfold record_success. destruct (active_probe (data b)); [left; split; [done|lia]|].
    simpl. apply success_progress; [lia|done].
  - simpl. apply failure_progress; [lia|done].
  - done.
Qed.

(** An open circuit only closes on three successes.  In any interleaving
    without a manual reset, a breaker that starts open with no recovery success
    and ends closed has received at least three success reports in between. *)
Theorem closing_needs_three_successes b os b' :
  reachable b -> is_Some (open_until_us (data b)) -> half_open_successes (data b) = 0 ->
  Forall (fun o => o <> OpReset) os -> steps b os b' -> open_until_us (data b') = None ->
  3 <= successes os.
Proof.
  intros Hr Hu Hh Hno Hs Hc.
  assert (forall b os b', steps b os b' -> reachable b -> Forall (fun o => o <> OpReset) os ->
    is_Some (open_until_us (data b)) -> open_until_us (data b') = None ->
    3 <= half_open_successes (data b) + successes os) as H; [|by specialize (H b os b'); rewrite Hh in H; auto].
  clear. intros b os b' Hs. induction Hs as [b|b o b1 os b2 Ho Hs IH]; intros Hr Hno Hu Hc.
  { rewrite Hc in Hu. by destruct Hu. }
  inversion Hno as [|? ? Hne Hno']; subst. assert (reachable b1) as Hr1 by (by eapply reach_step).
  destruct Ho as [_ ->]. pose proof (successes_nonneg os). simpl.
  destruct (apply_progress b o (cb_reachable_inv b Hr) Hne Hu) as [[Hu1 Hle]|[E Hle]].
  - specialize (IH Hr1 Hno' Hu1 Hc). lia.
  - lia.
Qed.

(** ** Rate limit of the probes *)

(** Runs during which the circuit never closes. *)
Inductive open_steps : CircuitBreaker -> list cb_op -> CircuitBreaker -> Prop :=
| os_nil b : open_steps b [] b
| os_cons b o os b' :
    op_time_ok o -> is_Some (open_until_us (data (cb_apply b o))) ->
    open_steps (cb_apply b o) os b' -> open_steps b (o :: os) b'.

Definition probe_after (t : Z) (d : CircuitData) : Prop :=
  exists l, last_probe_us d = Some l /\ t <= l.

Lemma result_last b probed result now d :
  is_Some (open_until_us (result_data b probed result now d)) ->
  last_probe_us (result_data b probed result now d) = last_probe_us d.
Proof.
  intros [until Hu]. destruct result; simpl in *.
  - by destruct (record_success_epoch (next_id b) now d) as [(_ & _ & _ & ->)|(E & _)]; [|rewrite E in Hu].
  - unfold data_record_failure. by destruct (threshold b <=? _).
  - by destruct probed.
Qed.

Lemma apply_probe_after t b o :
  cb_inv b -> is_Some (open_until_us (data (cb_apply b o))) ->
  probe_after t (data b) -> probe_after t (data (cb_apply b o)).
Proof.
  intros Hb Hu (l & Hl & Hle).
  assert (forall now, probe_after t (snd (admit_state (data b) now))) as Hadm.
  { intros now. destruct (admit_state_data (data b) now) as [->|(-> & _ & _ & _ & Hr)]; [by exists l|].
    exists now. split; [done|]. specialize (Hr l Hl).
    unfold HALF_OPEN_PROBE_INTERVAL_US, usat_sub in Hr. lia. }
  assert (forall tok a result now, attempts b !! tok = Some a ->
    is_Some (open_until_us (data (finish_attempt b a result now))) ->
    last_probe_us (data (finish_attempt b a result now)) = last_probe_us (data b)) as Hfin.
  { intros tok a result now Ha.
    destruct (finish_cases b tok a result now Hb Ha) as [(_ & -> & _)|[(_ & _ & _ & ->)|(_ & _ & _ & ->)]];
      intros Hu'; [done|by apply result_last in Hu'|by apply result_last in Hu']. }
  destruct o as [now|now|tok result now|tok now|now|now|]; simpl in *.
  - specialize (Hadm now). unfold begin_attempt. by destruct (admit_state (data b) now) as [[]].
  - specialize (Hadm now). unfold check. by destruct (admit_state (data b) now).
  - unfold finish in *. destruct (attempts b !! tok) as [a|] eqn:Ha; [|by exists l].
    exists l. simpl in *. by rewrite (Hfin tok a result now Ha Hu).
  - unfold drop_attempt in *. destruct (attempts b !! tok) as [a|] eqn:Ha; [|by exists l].
    destruct (at_probe a); [|by exists l]. exists l. simpl in *. by rewrite (Hfin tok a Abandoned now Ha Hu).
  - unfold record_success in *. destruct (active_probe (data b)); [by exists l|].
    exists l. split; [|done]. rewrite <- Hl. by apply (result_last b None Success now (data b)).
  - exists l. split; [|done]. rewrite <- Hl. by apply (result_last b None Failure now (data b)).
  - by destruct Hu.
Qed.

(** The admission of a probe. *)
Definition admits_probe (b : CircuitBreaker) (now : Z) : Prop :=
  exists t a, fst (begin_attempt b now) = inr (t, a) /\ is_half_open_probe a = true.

Lemma admits_probe_data b now :
  admits_probe b now ->
  last_probe_us (data (snd (begin_attempt b now))) = Some now /\
  (forall last, last_probe_us (data b) = Some last -> last + HALF_OPEN_PROBE_INTERVAL_US <= now).
Proof.
  intros (t & a & Hf & Hp). unfold begin_attempt in *. unfold is_half_open_probe in Hp.
  pose proof (admit_state_data (data b) now) as Hd. unfold admit_state in *.
  destruct (data_state (data b) now) eqn:Es; simpl in *; simplify_eq/=; try done.
  destruct (active_probe (data b)); [done|].
  destruct (last_probe_us (data b)) as [l|] eqn:El; [|done].
  destruct (usat_sub now l <? _) eqn:E; [done|]. breflect. split; [done|]. intros ? [= <-].
  unfold micros_from_duration, HALF_OPEN_PROBE_INTERVAL_US, usat_sub, u64_max in *. simpl in E. lia.
Qed.

(** At most one recovery probe per five seconds.  If a half-open probe is
    admitted at clock reading [t1] and, with the circuit not closed in
    between, another is admitted at [t2], then [t2] is at least five seconds
    after [t1], whatever the other threads did and read. *)
Theorem probe_rate_limit b0 t1 os b2 t2 :
  reachable b0 -> in_u64 t1 -> admits_probe b0 t1 ->
  open_steps (snd (begin_attempt b0 t1)) os b2 -> admits_probe b2 t2 ->
  t1 + 5 * 1000000 <= t2.
Proof.
  intros Hr Ht1 Hp1 Hs Hp2. destruct (admits_probe_data b0 t1 Hp1) as [Hl _].
  assert (cb_inv (snd (begin_attempt b0 t1))) as Hb by (by apply begin_inv, cb_reachable_inv).
  assert (probe_after t1 (data (snd (begin_attempt b0 t1)))) as Ha by (by exists t1).
  revert Hb Ha. generalize dependent (snd (begin_attempt b0 t1)). clear b0 Hr Hp1.
  intros b1 Hs _ Hb Ha. induction Hs as [b|b o os b' Ho Hu Hs IH].
  - destruct Ha as (l & Hl & Hle). destruct (admits_probe_data b t2 Hp2) as [_ Hlast].
    specialize (Hlast l Hl). unfold HALF_OPEN_PROBE_INTERVAL_US in Hlast. lia.
  - apply IH; [done|by apply cb_apply_inv|by apply apply_probe_after].
Qed.

(** ** Witnesses *)

Definition us (s : Z) : Z := s * 1000000.

(** A breaker of threshold 1 that was tripped at 0 s for 10 s. *)
Definition tripped : CircuitBreaker := cb_apply (with_subsystem 1 (us 10)) (OpFailure 0).

Lemma with_subsystem_reachable : reachable (with_subsystem 1 (us 10)).
Proof. apply reach_init. exists 1, (us 10). unfold u32_max, us. split_and!; done || lia. Qed.

Lemma op_step b o : op_time_ok o -> lts_step (LTS := cb_lts) b o (cb_apply b o).
Proof. done. Qed.

Lemma tripped_reachable : reachable tripped.
Proof.
  eapply reach_step; [apply with_subsystem_reachable|apply op_step].
  split; unfold u64_max; lia.
Qed.

Lemma half_open_probe_single_flight_witness :
  exists a, attempts (cb_apply tripped (OpBegin (us 11))) !! 2%nat = Some a /\ is_half_open_probe a = true.
Proof.
  destruct (proj2 (half_open_probe_single_flight (cb_apply tripped (OpBegin (us 11)))
    (reach_step _ _ _ tripped_reachable
      (op_step _ (OpBegin (us 11)) ltac:(split; unfold u64_max, us; lia)))) 2%nat ltac:(vm_compute; reflexivity))
    as (a & Ha & Hp & _).
  exists a. done.
Defined.

Lemma stale_attempt_ignored_witness :
  let b := cb_apply (with_subsystem 1 (us 10)) (OpBegin 0) in
  let b1 := cb_apply b OpReset in
  data (finish b1 1%nat Failure 5) = data b1.
Proof.
  set (b := cb_apply (with_subsystem 1 (us 10)) (OpBegin 0)).
  apply (stale_attempt_ignored b OpReset (cb_apply b OpReset) [] (cb_apply b OpReset) 1%nat
    {| at_generation := 0; at_probe := None; at_admitted_state := Closed |} Failure 5).
  - eapply reach_step; [apply with_subsystem_reachable|apply op_step]. split; unfold u64_max; lia.
  - apply op_step. exact I.
  - vm_compute; reflexivity.
  - vm_compute. lia.
  - vm_compute; reflexivity.
  - apply steps_nil.
  - vm_compute; reflexivity.
Defined.

Lemma closing_needs_three_successes_witness :
  let os := [OpSuccess (us 11); OpSuccess (us 12); OpSuccess (us 13)] in
  open_until_us (data (foldl cb_apply tripped os)) = None /\ 3 <= successes os.
Proof.
  split; [vm_compute; reflexivity|].
  apply (closing_needs_three_successes tripped _ (foldl cb_apply tripped
    [OpSuccess (us 11); OpSuccess (us 12); OpSuccess (us 13)])).
  - apply tripped_reachable.
  - vm_compute. by eexists.
  - vm_compute; reflexivity.
  - by repeat constructor.
  - repeat (eapply steps_cons; [apply op_step; split; unfold u64_max, us; lia|]). apply steps_nil.
  - vm_compute; reflexivity.
Defined.

Lemma probe_rate_limit_witness :
  let b1 := snd (begin_attempt tripped (us 11)) in
  let b2 := cb_apply b1 (OpDrop 2%nat (us 12)) in
  admits_probe b2 (us 16) /\ us 11 + 5 * 1000000 <= us 16.
Proof.
  set (b1 := snd (begin_attempt tripped (us 11))).
  set (b2 := cb_apply b1 (OpDrop 2%nat (us 12))).
  assert (admits_probe b2 (us 16)) as H2 by (do 2 eexists; split; vm_compute; reflexivity).
  split; [exact H2|].
  apply (probe_rate_limit tripped (us 11) [OpDrop 2%nat (us 12)] b2 (us 16)).
  - apply tripped_reachable.
  - split; unfold u64_max, us; lia.
  - do 2 eexists; split; vm_compute; reflexivity.
  - apply os_cons; [split; unfold u64_max, us; lia|vm_compute; by eexists|apply os_nil].
  - exact H2.
Defined.
