(* ===== verification/Retry.v ===== *)
(** * The synchronous retry loop ([db/src/retry.rs])

    [retry_sync_with_breaker] as a function of the outcomes of the operation,
    of the clock, and of what other threads do to the shared breaker between
    two actions of the loop.  Sleeping has no effect on this state; the jittered
    floating-point delay is not modelled. *)

From S2P Require Import Prelude.
From S2P Require Import RustStr.
From S2P Require Import ErrorClass.
From S2P Require Import CircuitBreaker.

(** @src db/src/retry.rs:651-667 RetryConfig
    -- delays in milliseconds. *)
Record RetryConfig := mkRetryConfig {
  max_retries : nat;
  base_delay_ms : Z;
  max_delay_ms : Z;
  use_circuit_breaker : bool;
  rc_subsystem : Subsystem;
  rc_operation : ustr;
}.

(** @src db/src/retry.rs:669-680 RetryConfig::default *)
Definition retry_config_default : RetryConfig :=
  {| max_retries := 7; base_delay_ms := 50; max_delay_ms := 8000; use_circuit_breaker := true;
     rc_subsystem := SubDb; rc_operation := u "db_operation" |}.

Section retry.
  Context {T : Type}.
  Context (to_lowercase : ustr -> ustr) (is_alphanumeric : N -> bool).
  Context (fmt_secs : Z -> ustr).
  (** The [k]-th call of the operation. *)
  Context (op : nat -> T + DbError).
  (** The clock of the breaker at the [k]-th action of the loop, and the steps
      of other threads just before it. *)
  Context (clock : nat -> Z) (others : nat -> list cb_op).
  Context (elapsed_ms : Z).

#[local] Notation retryable := (is_retryable to_lowercase is_alphanumeric).

Record RetryOutcome := mkOutcome {
  ro_result : T + DbError;
  ro_breaker : CircuitBreaker;
  ro_calls : nat;
  ro_feedback : list AttemptResult;
}.

(** Report to the breaker through an admission, when there is one. *)
Definition report (admission : option (nat * CircuitAttempt)) (r : AttemptResult) (k : nat)
    (b : CircuitBreaker) : CircuitBreaker * list AttemptResult :=
  match admission with
  | Some (token, _) => (finish b token r (clock k), [r])
  | None => (b, [])
  end.

(** Drop the admission: only a probe tells the breaker. *)
Definition drop_admission (admission : option (nat * CircuitAttempt)) (k : nat) (b : CircuitBreaker)
    : CircuitBreaker * list AttemptResult :=
  match admission with
  | Some (token, a) =>
      (drop_attempt b token (clock k), match at_probe a with Some _ => [Abandoned] | None => [] end)
  | None => (b, [])
  end.

(** @src db/src/retry.rs:788-842 retry_sync_with_breaker
    -- the loop from [attempt] with [n] iterations left; the breaker is
    consulted when [use_cb]. *)
Fixpoint retry_loop (config : RetryConfig) (use_cb : bool) (n attempt : nat)
    (last_err : option DbError) (b : CircuitBreaker) : RetryOutcome :=
  match n with
  | O => {| ro_result := inr (default (Internal (u "retry loop exhausted")) last_err);
            ro_breaker := b; ro_calls := attempt; ro_feedback := [] |}
  | S n =>
      let b := run cb_apply b (others (2 * attempt)) in
      let admitted : (CircuitRefusal + option (nat * CircuitAttempt)) * CircuitBreaker :=
        if use_cb then
          let '(r, b) := begin_attempt b (clock (2 * attempt)) in
          (match r with inl refusal => inl refusal | inr a => inr (Some a) end, b)
        else (inr None, b) in
      match admitted with
      | (inl refusal, b) =>
          {| ro_result := inr (refusal_into_error fmt_secs
                                 (subsystem_name (rc_subsystem config)) refusal);
             ro_breaker := b; ro_calls := attempt; ro_feedback := [] |}
      | (inr admission, b) =>
          let k := S (2 * attempt) in
          let b := run cb_apply b (others k) in
          match op attempt with
          | inl val =>
              let '(b, fb) := report admission Success k b in
              {| ro_result := inl val; ro_breaker := b; ro_calls := S attempt; ro_feedback := fb |}
          | inr e =>
              let probe := match admission with Some (_, a) => is_half_open_probe a | None => false end in
              if retryable e && probe then
                let '(b, fb) := report admission Failure k b in
                {| ro_result := inr e; ro_breaker := b; ro_calls := S attempt; ro_feedback := fb |}
              else if negb (retryable e) || (attempt =? max_retries config)%nat then
                let '(b, fb) := if retryable e then report admission Failure k b
                                else drop_admission admission k b in
                {| ro_result := inr
                     (if retryable e && (0 <? max_retries config)%nat then
                        RetryBudgetExhausted (rc_operation config) (u32sat_add (Z.of_nat attempt) 1)
                          (u32sat_add (Z.of_nat (max_retries config)) 1) elapsed_ms e
                      else e);
                   ro_breaker := b; ro_calls := S attempt; ro_feedback := fb |}
              else
                let '(b, fb) := drop_admission admission k b in
                let rest := retry_loop config use_cb n (S attempt) (Some e) b in
                {| ro_result := ro_result rest; ro_breaker := ro_breaker rest;
                   ro_calls := ro_calls rest; ro_feedback := fb ++ ro_feedback rest |}
          end
      end
  end.

(** @src db/src/retry.rs:751-845 retry_sync *)
Definition retry_sync (config : RetryConfig) (b : CircuitBreaker) : RetryOutcome :=
  retry_loop config (use_circuit_breaker config) (S (max_retries config)) 0 None b.

(** ** Properties *)

(** What a finished run of the loop means. *)
Definition retry_ok (config : RetryConfig) (use_cb : bool) (o : RetryOutcome) : Prop :=
  let fb r := if use_cb then [r] else [] in
  (ro_calls o <= S (max_retries config))%nat /\
  match ro_result o with
  | inl v => exists k, ro_calls o = S k /\ op k = inl v /\ ro_feedback o = fb Success
  | inr e =>
      (use_cb = true /\ ro_feedback o = [] /\
       exists r, e = refusal_into_error fmt_secs (subsystem_name (rc_subsystem config)) r) \/
      exists k e0, ro_calls o = S k /\ op k = inr e0 /\
        ((retryable e0 = false /\ e = e0 /\
          (ro_feedback o = [] \/ ro_feedback o = [Abandoned] /\ use_cb = true)) \/
         (retryable e0 = true /\ ro_feedback o = fb Failure /\
          ((e = e0 /\ (max_retries config = 0%nat \/ use_cb = true)) \/
           (k = max_retries config /\
            e = RetryBudgetExhausted (rc_operation config) (u32sat_add (Z.of_nat k) 1)
                  (u32sat_add (Z.of_nat (max_retries config)) 1) elapsed_ms e0))))
  end.

(** Every call but the last failed with a retryable error. *)
Definition earlier_retryable (from : nat) (o : RetryOutcome) : Prop :=
  forall i, (from <= i)%nat -> (S i < ro_calls o)%nat -> exists e, op i = inr e /\ retryable e = true.

Lemma begin_probe_shape b now t a :
  fst (begin_attempt b now) = inr (t, a) -> is_half_open_probe a = false -> at_probe a = None.
Proof.
  unfold begin_attempt. destruct (admit_state _ _) as [[?|st] d]; simpl; [done|].
  intros [= <- <-]. unfold is_half_open_probe. simpl. destruct (decide (st = HalfOpen)); [|done].
  intros Hf. apply bool_decide_eq_false in Hf. done.
Qed.

Lemma retry_loop_spec config use_cb n : forall attempt last_err b,
  (n + attempt = S (max_retries config))%nat -> (0 < n)%nat ->
  let o := retry_loop config use_cb n attempt last_err b in
  retry_ok config use_cb o /\ earlier_retryable attempt o.
Proof.
  induction n as [|n IH]; intros attempt last_err b Hn Hpos; [lia|]. cbn [retry_loop]. cbv zeta.
  set (b0 := run cb_apply b (others (2 * attempt))).
  set (adm := if use_cb then _ else _).
  assert (match adm with
          | (inl _, _) => use_cb = true
          | (inr None, _) => use_cb = false
          | (inr (Some (t, a)), _) =>
              use_cb = true /\ (is_half_open_probe a = false -> at_probe a = None)
          end) as Hadm.
  { unfold adm. destruct use_cb; [|done].
    pose proof (begin_probe_shape b0 (clock (2 * attempt))) as Hs.
    destruct (begin_attempt b0 (clock (2 * attempt))) as [[r|[t a]] b1]; [done|]. split; [done|].
    by apply (Hs t a). }
  destruct adm as [[refusal|admission] b1].
  { split; [|intros i; simpl; lia]. split; simpl; [lia|]. left. eauto. }
  set (b2 := run cb_apply b1 (others (S (2 * attempt)))).
  assert (forall r, snd (report admission r (S (2 * attempt)) b2) = (if use_cb then [r] else [])) as Hrep.
  { intros r. by destruct admission as [[t a]|]; simpl; [destruct Hadm as [-> _]|rewrite Hadm]. }
  assert (forall o, ro_calls o = S attempt -> earlier_retryable attempt o) as Hearly
    by (intros o Ho i; rewrite Ho; lia).
  destruct (op attempt) as [v|e] eqn:Eop.
  { specialize (Hrep Success). destruct (report admission Success _ b2) as [b3 fb]. simpl in Hrep. subst fb.
    split; [|by apply Hearly]. split; simpl; [lia|]. by exists attempt. }
  destruct (retryable e) eqn:Er; cbn [andb negb orb].
  - pose proof (Hrep Failure) as HrepF.
    destruct (match admission with Some (_, a) => is_half_open_probe a | None => false end) eqn:Ep.
    + destruct (report admission Failure _ b2) as [b3 fb]. simpl in HrepF. subst fb.
      split; [|by apply Hearly]. split; simpl; [lia|]. right. exists attempt, e.
      split_and!; [done|done|]. right. split_and!; [done|done|]. left. split; [done|right].
      by destruct admission as [[t a]|]; [destruct Hadm|].
    + destruct (Nat.eqb_spec attempt (max_retries config)) as [Em|Em].
      * destruct (report admission Failure _ b2) as [b3 fb]. simpl in HrepF. subst fb.
        split; [|by apply Hearly]. split; simpl; [lia|]. right. exists attempt, e.
        split_and!; [done|done|]. right. split_and!; [done|done|].
        destruct (Nat.ltb_spec 0 (max_retries config)); [by right; rewrite <- Em|left].
        split; [done|left; lia].
      * assert (snd (drop_admission admission (S (2 * attempt)) b2) = []) as Hdrop.
        { destruct admission as [[t a]|]; [|done]. simpl. destruct Hadm as [_ Hp]. by rewrite Hp. }
        destruct (drop_admission admission _ b2) as [b3 fb]. simpl in Hdrop. subst fb.
        destruct (IH (S attempt) (Some e) b3) as [Hok He]; [lia|lia|].
        split; [exact Hok|]. intros i Hi Hc. simpl in Hc.
        destruct (decide (i = attempt)) as [->|]; [by exists e|]. apply He; [lia|exact Hc].
  - assert (snd (drop_admission admission (S (2 * attempt)) b2) = [] \/
            snd (drop_admission admission (S (2 * attempt)) b2) = [Abandoned] /\ use_cb = true) as Hdrop.
    { destruct admission as [[t a]|]; [|by left]. simpl. destruct Hadm as [-> _].
      destruct (at_probe a); auto. }
    destruct (drop_admission admission _ b2) as [b3 fb]. simpl in Hdrop.
    split; [|by apply Hearly]. split; simpl; [lia|]. right. exists attempt, e. split_and!; try done. by left.
Qed.

(** The retry contract.  Whatever the operation answers, the clock reads
    and other threads do to the breaker: the operation is called at most
    [max_retries + 1] times and only again after a retryable error; a success
    is returned at once; a non-retryable error is returned as it is and never
    charged; an exhausted budget wraps the last error with the attempts made;
    and the whole logical operation reports to the breaker at most once, a
    failure being charged only for a retryable error that ends it. *)
Theorem retry_sync_contract config b :
  let o := retry_sync config b in
  retry_ok config (use_circuit_breaker config) o /\
  (forall i, (S i < ro_calls o)%nat -> exists e, op i = inr e /\ retryable e = true) /\
  (length (ro_feedback o) <= 1)%nat.
Proof.
  destruct (retry_loop_spec config (use_circuit_breaker config) (S (max_retries config)) 0 None b)
    as [Hok He]; [lia|lia|].
  split; [exact Hok|]. split; [intros i Hi; apply He; [lia|exact Hi]|].
  fold (retry_sync config b) in *. destruct Hok as [_ Hr]. destruct (ro_result (retry_sync config b)) as [v|e].
  - destruct Hr as (k & _ & _ & ->). destruct (use_circuit_breaker config); simpl; lia.
  - destruct Hr as [(_ & -> & _)|(k & e0 & _ & _ & [(_ & _ & [->|[-> _]])|(_ & -> & _)])]; simpl; try lia.
    destruct (use_circuit_breaker config); simpl; lia.
Qed.
End retry.
