(* ===== verification/Clock.v ===== *)
(** * The monotonic clock ([core/src/timestamps.rs])

    [now_micros] is two or three atomic read-modify-writes on shared counters;
    the threads that run it interleave between them.  A thread in the middle of
    a call is a frame of the state, and the model's steps are the atomic
    operations. *)

From S2P Require Import Prelude.

(** @src core/src/timestamps.rs:18-29 MICROS_PER_SECOND, BACKWARD_JUMP_THRESHOLD_US, FORWARD_JUMP_THRESHOLD_US *)
Definition BACKWARD_JUMP_THRESHOLD_US : Z := 1000000.
Definition FORWARD_JUMP_THRESHOLD_US : Z := 300000000.

(** [i64] two's-complement wrap-around, what [fetch_add] does at the top. *)
Definition i64_wrap (z : Z) : Z := (z + 2 ^ 63) mod 2 ^ 64 - 2 ^ 63.

(** The local variables of a call after its [fetch_max]. *)
Record now_frame := mkFrame { nf_current : Z; nf_prev : Z; nf_counted : bool }.

(** The static counters, and the calls in progress by thread. *)
Record ClockState := mkClock {
  last_system_time_us : Z;
  skew_backward : Z;
  skew_forward : Z;
  frames : gmap nat now_frame;
}.

Definition clock_init : ClockState := mkClock 0 0 0 ∅.

(** @src core/src/timestamps.rs:73-77 now_micros
    -- the [fetch_max] of a call whose wall-clock reading is [current]. *)
Definition fetch_max_step (tid : nat) (current : Z) (s : ClockState) : ClockState :=
  {| last_system_time_us := Z.max (last_system_time_us s) current;
     skew_backward := skew_backward s; skew_forward := skew_forward s;
     frames := <[tid := mkFrame current (last_system_time_us s) false]> (frames s) |}.

(** @src core/src/timestamps.rs:79-87 now_micros
    -- the skew counters: at most one of the two is bumped, since the thresholds
    exclude each other. *)
Definition count_step (tid : nat) (f : now_frame) (s : ClockState) : ClockState :=
  let delta := nf_current f - nf_prev f in
  let back := negb (nf_prev f =? 0) && (delta <? - BACKWARD_JUMP_THRESHOLD_US) in
  let fwd := negb (nf_prev f =? 0) && (FORWARD_JUMP_THRESHOLD_US <? delta) in
  {| last_system_time_us := last_system_time_us s;
     skew_backward := if back then i64_wrap (skew_backward s + 1) else skew_backward s;
     skew_forward := if fwd then i64_wrap (skew_forward s + 1) else skew_forward s;
     frames := <[tid := mkFrame (nf_current f) (nf_prev f) true]> (frames s) |}.

(** @src core/src/timestamps.rs:89-101 now_micros
    -- the end of the call: its own reading when it advanced the mark, one more
    [fetch_add] otherwise. *)
Definition finish_step (tid : nat) (f : now_frame) (s : ClockState) : Z * ClockState :=
  if nf_prev f <? nf_current f then
    (nf_current f,
     mkClock (last_system_time_us s) (skew_backward s) (skew_forward s) (delete tid (frames s)))
  else
    let last := i64_wrap (last_system_time_us s + 1) in
    (last, mkClock last (skew_backward s) (skew_forward s) (delete tid (frames s))).

(** @src core/src/timestamps.rs:62-101 now_micros
    -- a whole call, nothing in between. *)
Definition now_micros (tid : nat) (current : Z) (s : ClockState) : Z * ClockState :=
  let s1 := fetch_max_step tid current s in
  let f := mkFrame current (last_system_time_us s) false in
  finish_step tid (mkFrame current (last_system_time_us s) true) (count_step tid f s1).

(** @src core/src/timestamps.rs:117-139 ClockSkewMetrics, clock_skew_metrics *)
Record ClockSkewMetrics := mkMetrics {
  backward_jumps : Z;
  forward_jumps : Z;
  metrics_last_system_time_us : Z;
}.

Definition clock_skew_metrics (s : ClockState) : ClockSkewMetrics :=
  mkMetrics (skew_backward s) (skew_forward s) (last_system_time_us s).

(** @src core/src/timestamps.rs:141-147 clock_skew_reset
    -- only tests call it, so it is no step of the machine below. *)
Definition clock_skew_reset (s : ClockState) : ClockState := mkClock 0 0 0 (frames s).

(** The atomic steps. *)
Inductive clock_label :=
  | LFetch (tid : nat) (current : Z)
  | LCount (tid : nat)
  | LReturn (tid : nat) (value : Z).

Inductive clock_step : ClockState -> clock_label -> ClockState -> Prop :=
  | step_fetch s tid current :
      in_i64 current -> frames s !! tid = None ->
      clock_step s (LFetch tid current) (fetch_max_step tid current s)
  | step_count s tid f :
      frames s !! tid = Some f -> nf_counted f = false ->
      clock_step s (LCount tid) (count_step tid f s)
  | step_return s tid f v s' :
      frames s !! tid = Some f -> nf_counted f = true -> finish_step tid f s = (v, s') ->
      clock_step s (LReturn tid v) s'.

#[export] Instance clock_lts : LTS ClockState clock_label :=
  { lts_init s := s = clock_init; lts_step := clock_step }.

(** The values the calls of a trace returned. *)
Fixpoint returned (ls : list clock_label) : list Z :=
  match ls with
  | [] => []
  | LReturn _ v :: ls => v :: returned ls
  | _ :: ls => returned ls
  end.

(** A call that nothing interleaves with is its three atomic steps. *)
Lemma now_micros_steps tid current s v s' :
  in_i64 current -> frames s !! tid = None -> now_micros tid current s = (v, s') ->
  steps s [LFetch tid current; LCount tid; LReturn tid v] s'.
Proof.
  intros Hc Hn Hv. eapply steps_cons; [by apply step_fetch|].
  eapply steps_cons; [apply step_count; [apply lookup_insert_eq|done]|].
  eapply steps_cons; [|apply steps_nil].
  eapply step_return; [apply lookup_insert_eq|done|exact Hv].
Qed.

(** ** Invariant *)

Lemma i64_wrap_id z : in_i64 z -> i64_wrap z = z.
Proof. unfold in_i64, i64_wrap, i64_min, i64_max. intros. rewrite Z.mod_small; lia. Qed.

(** The values that are spoken for: returned, or about to be. *)
Definition claimed (s : ClockState) (seen : list Z) (v : Z) : Prop :=
  v ∈ seen \/ exists tid f, frames s !! tid = Some f /\ nf_prev f < nf_current f /\ nf_current f = v.

Record clock_inv (s : ClockState) (seen : list Z) : Prop := {
  ki_nodup : NoDup seen;
  ki_high : forall v, claimed s seen v -> v <= last_system_time_us s;
  ki_fresh : forall tid f, frames s !! tid = Some f -> nf_prev f < nf_current f ->
    nf_current f ∉ seen;
  ki_apart : forall t1 t2 f1 f2, frames s !! t1 = Some f1 -> frames s !! t2 = Some f2 ->
    nf_prev f1 < nf_current f1 -> nf_prev f2 < nf_current f2 ->
    nf_current f1 = nf_current f2 -> t1 = t2;
}.

Lemma clock_step_mono s l s' :
  lts_step s l s' -> 0 <= last_system_time_us s < i64_max -> last_system_time_us s <= last_system_time_us s'.
Proof.
  intros Hs Hr. destruct Hs as [s tid c Hc Hn|s tid f Hf Hn|s tid f v s' Hf Hn Hv]; simpl; [lia|lia|].
  unfold finish_step in Hv. destruct (nf_prev f <? nf_current f); injection Hv as <- <-; simpl; [lia|].
  rewrite i64_wrap_id; unfold in_i64, i64_min, i64_max in *; lia.
Qed.

(** The mark stays below [bound] plus the number of steps taken. *)
Lemma clock_step_bound bound s l s' :
  lts_step s l s' -> 0 <= last_system_time_us s < i64_max ->
  (forall tid c, l = LFetch tid c -> c <= bound) -> last_system_time_us s <= bound ->
  last_system_time_us s' <= bound + 1.
Proof.
  intros Hs Hr Hc Hb. destruct Hs as [s tid c Hi Hn|s tid f Hf Hn|s tid f v s' Hf Hn Hv]; simpl.
  - specialize (Hc tid c eq_refl). lia.
  - lia.
  - unfold finish_step in Hv. destruct (nf_prev f <? nf_current f); injection Hv as <- <-; simpl; [lia|].
    rewrite i64_wrap_id; unfold in_i64, i64_min, i64_max in *; lia.
Qed.

Lemma lookup_insert_or {V} (m : gmap nat V) i j (x y : V) :
  <[i:=x]> m !! j = Some y -> (i = j /\ x = y) \/ (i <> j /\ m !! j = Some y).
Proof. intros [[-> ->]|[]]%lookup_insert_Some; auto. Qed.

Lemma fetch_inv s seen tid c :
  clock_inv s seen -> frames s !! tid = None -> clock_inv (fetch_max_step tid c s) seen.
Proof.
  intros Hi Hn. destruct Hi as [Hnd Hh Hf Ha].
  assert (forall t f, frames s !! t = Some f -> nf_prev f < nf_current f -> nf_current f <= last_system_time_us s)
    as Hle by (intros t f ? ?; apply Hh; right; eauto).
  split; simpl.
  - done.
  - intros v [Hv|(t & f & Hl & Hlt & <-)]; [specialize (Hh v (or_introl Hv)); simpl; lia|].
    apply lookup_insert_or in Hl as [[<- <-]|[_ Hl]]; simpl in *; [lia|]. specialize (Hle t f Hl Hlt). lia.
  - intros t f Hl Hlt. apply lookup_insert_or in Hl as [[<- <-]|[_ Hl]]; simpl in *; [|eauto].
    intros Hin. specialize (Hh c (or_introl Hin)). lia.
  - intros t1 t2 f1 f2 H1 H2 L1 L2 E.
    apply lookup_insert_or in H1 as [[<- <-]|[N1 H1]]; apply lookup_insert_or in H2 as [[<- <-]|[N2 H2]];
      simpl in *; [done| | |by apply (Ha t1 t2 f1 f2)].
    + specialize (Hle t2 f2 H2 L2). lia.
    + specialize (Hle t1 f1 H1 L1). lia.
Qed.

Lemma count_inv s seen tid f :
  clock_inv s seen -> frames s !! tid = Some f -> clock_inv (count_step tid f s) seen.
Proof.
  intros [Hnd Hh Hf Ha] Hfr. split; simpl.
  - done.
  - intros v [Hv|(t & g & Hl & Hlt & <-)]; [by apply Hh; left|].
    apply Hh; right. apply lookup_insert_or in Hl as [[<- <-]|[_ Hl]]; [by exists tid, f|by exists t, g].
  - intros t g Hl Hlt. apply lookup_insert_or in Hl as [[<- <-]|[_ Hl]]; [by apply (Hf tid f)|by apply (Hf t g)].
  - intros t1 t2 f1 f2 H1 H2 L1 L2 E.
    apply lookup_insert_or in H1 as [[<- <-]|[N1 H1]]; apply lookup_insert_or in H2 as [[<- <-]|[N2 H2]];
      simpl in *; [done| | |by apply (Ha t1 t2 f1 f2)].
    + by apply (Ha tid t2 f f2).
    + by apply (Ha t1 tid f1 f).
Qed.

Lemma return_inv s seen tid f v s' :
  clock_inv s seen -> 0 <= last_system_time_us s < i64_max ->
  frames s !! tid = Some f -> finish_step tid f s = (v, s') ->
  clock_inv s' (seen ++ [v]).
Proof.
  intros [Hnd Hh Hf Ha] Hr Hfr Hv.
  assert (forall t g, delete tid (frames s) !! t = Some g -> t <> tid /\ frames s !! t = Some g) as Hdel.
  { intros t g [? ?]%lookup_delete_Some. auto. }
  assert (v ∉ seen /\ v <= last_system_time_us s' /\ last_system_time_us s <= last_system_time_us s' /\
          frames s' = delete tid (frames s) /\
          forall t g, t <> tid -> frames s !! t = Some g -> nf_prev g < nf_current g -> nf_current g <> v)
    as (Hns & Hvl & Hll & Hfs & Hap).
  { unfold finish_step in Hv. destruct (Z.ltb_spec (nf_prev f) (nf_current f)) as [L|L];
      injection Hv as <- <-; simpl.
    - split_and!; [by apply (Hf tid f)|apply Hh; right; by exists tid, f|lia|done|].
      intros t g Ht Hg Lg E. apply Ht. by apply (Ha t tid g f).
    - rewrite i64_wrap_id; [|unfold in_i64, i64_min, i64_max in *; lia].
      split_and!; [intros Hin; specialize (Hh _ (or_introl Hin)); lia|lia|lia|done|].
      intros t g _ Hg Lg E.
      assert (nf_current g <= last_system_time_us s) by (apply Hh; right; by exists t, g). lia. }
  split; simpl; rewrite ?Hfs.
  - apply NoDup_app. split_and!; [done| |apply NoDup_singleton].
    intros x Hx ->%list_elem_of_singleton. done.
  - intros w [[Hw| ->%list_elem_of_singleton]%elem_of_app|(t & g & Hl & Lg & <-)]; [|done|].
    + specialize (Hh w (or_introl Hw)). lia.
    + rewrite Hfs in Hl. apply Hdel in Hl as [_ Hl].
      assert (nf_current g <= last_system_time_us s) by (apply Hh; right; by exists t, g). lia.
  - intros t g Hl Lg [Hin|Hin%list_elem_of_singleton]%elem_of_app; apply Hdel in Hl as [Ht Hl].
    + by apply (Hf t g).
    + by apply (Hap t g).
  - intros t1 t2 f1 f2 [_ H1]%Hdel [_ H2]%Hdel. by apply Ha.
Qed.

Lemma clock_step_inv s l s' seen :
  lts_step s l s' -> clock_inv s seen -> 0 <= last_system_time_us s < i64_max ->
  clock_inv s' (seen ++ returned [l]).
Proof.
  intros Hs Hi Hr. destruct Hs as [s tid c Hc Hn|s tid f Hf Hn|s tid f v s' Hf Hn Hv];
    simpl; rewrite ?app_nil_r.
  - by apply fetch_inv.
  - by apply count_inv.
  - by eapply return_inv.
Qed.

(** Every wall-clock reading of a trace is at most [bound]. *)
Definition readings_below (bound : Z) (ls : list clock_label) : Prop :=
  Forall (fun l => match l with LFetch _ c => c <= bound | _ => True end) ls.

Lemma clock_run s ls s' : steps s ls s' -> forall bound seen,
  clock_inv s seen -> readings_below bound ls ->
  0 <= last_system_time_us s <= bound -> bound + Z.of_nat (length ls) <= i64_max ->
  clock_inv s' (seen ++ returned ls) /\
  last_system_time_us s <= last_system_time_us s' <= bound + Z.of_nat (length ls).
Proof.
  induction 1 as [s|s l s1 ls s' Hl Hs IH]; intros bound seen Hi Hb Hr Hroom; simpl in *.
  { rewrite app_nil_r. split; [done|lia]. }
  inversion Hb as [|? ? Hbl Hb']; subst.
  pose proof (clock_step_mono s l s1 Hl ltac:(lia)).
  pose proof (clock_step_bound bound s l s1 Hl ltac:(lia)
    ltac:(intros t c ->; exact Hbl) ltac:(lia)).
  destruct (IH (bound + 1) (seen ++ returned [l])) as [Hi' Hm].
  - eapply clock_step_inv; eauto; lia.
  - eapply List.Forall_impl; [|exact Hb']. intros []; simpl; lia.
  - lia.
  - lia.
  - split; [|lia]. rewrite <- app_assoc in Hi'. by destruct l.
Qed.

Lemma clock_init_inv : clock_inv clock_init [].
Proof.
  split; simpl.
  - constructor.
  - intros v [Hv|(t & f & Hf & _)]; [by apply elem_of_nil in Hv|done].
  - intros t f Hf. done.
  - intros t1 t2 f1 f2 H1. done.
Qed.

(** ** Real-time order *)

Definition not_return (tid : nat) (l : clock_label) : Prop := forall v, l <> LReturn tid v.

(** A call in progress whose value can only be above [w]. *)
Definition running_above (w : Z) (tid : nat) (s : ClockState) : Prop :=
  w <= last_system_time_us s /\
  exists f, frames s !! tid = Some f /\ (nf_prev f < nf_current f -> w < nf_current f).

Lemma running_above_step w tid s l s' :
  lts_step s l s' -> not_return tid l -> 0 <= last_system_time_us s < i64_max ->
  running_above w tid s -> running_above w tid s'.
Proof.
  intros Hs Hnr Hr [Hw (f & Hf & Hlt)]. split; [pose proof (clock_step_mono _ _ _ Hs Hr); lia|].
  destruct Hs as [s t c Hc Hn|s t g Hg Hn|s t g v s' Hg Hn Hv]; simpl.
  - exists f. split; [|done]. rewrite lookup_insert_ne; [done|congruence].
  - destruct (decide (t = tid)) as [->|Hne].
    + rewrite Hf in Hg. injection Hg as <-. eexists. split; [apply lookup_insert_eq|done].
    + exists f. by rewrite lookup_insert_ne.
  - assert (t <> tid) as Hne by (intros ->; by apply (Hnr v)).
    exists f. split; [|done]. unfold finish_step in Hv.
    destruct (nf_prev g <? nf_current g); injection Hv as <- <-; simpl; by rewrite lookup_delete_ne.
Qed.

Lemma running_above_steps w tid s ls s' : steps s ls s' -> forall bound,
  Forall (not_return tid) ls -> readings_below bound ls ->
  0 <= last_system_time_us s <= bound -> bound + Z.of_nat (length ls) <= i64_max ->
  running_above w tid s -> running_above w tid s'.
Proof.
  induction 1 as [s|s l s1 ls s' Hl Hs IH]; intros bound Hnr Hb Hr Hroom Hra; [done|].
  inversion Hnr; subst. inversion Hb as [|? ? Hbl Hb']; subst. simpl in Hroom.
  pose proof (clock_step_mono s l s1 Hl ltac:(lia)).
  pose proof (clock_step_bound bound s l s1 Hl ltac:(lia)
    ltac:(intros t c ->; exact Hbl) ltac:(lia)).
  apply (IH (bound + 1)); [done| |lia|lia|].
  - eapply List.Forall_impl; [|exact Hb']. intros []; simpl; lia.
  - eapply running_above_step; eauto; lia.
Qed.

(** The mark only, without the invariant on values. *)
Lemma steps_mono_last s ls s' : steps s ls s' -> forall bound,
  readings_below bound ls -> 0 <= last_system_time_us s <= bound ->
  bound + Z.of_nat (length ls) <= i64_max ->
  last_system_time_us s <= last_system_time_us s' <= bound + Z.of_nat (length ls).
Proof.
  induction 1 as [s|s l s1 ls s' Hl Hs IH]; intros bound Hb Hr Hroom; simpl in *; [lia|].
  inversion Hb as [|? ? Hbl Hb']; subst.
  pose proof (clock_step_mono s l s1 Hl ltac:(lia)).
  pose proof (clock_step_bound bound s l s1 Hl ltac:(lia)
    ltac:(intros t c ->; exact Hbl) ltac:(lia)).
  assert (readings_below (bound + 1) ls) as Hb1
    by (eapply List.Forall_impl; [|exact Hb']; intros []; simpl; lia).
  specialize (IH (bound + 1) Hb1 ltac:(lia) ltac:(lia)). lia.
Qed.

Lemma return_values t w s s' seen :
  lts_step s (LReturn t w) s' -> clock_inv s seen -> 0 <= last_system_time_us s < i64_max ->
  clock_inv s' (seen ++ [w]) /\ w <= last_system_time_us s'.
Proof.
  intros Hs Hi Hr. pose proof (clock_step_inv _ _ _ _ Hs Hi Hr) as Hi'. split; [exact Hi'|].
  apply (ki_high _ _ Hi'). left. apply elem_of_app. right. by apply list_elem_of_singleton.
Qed.

Lemma fetch_running w t c s s' :
  lts_step s (LFetch t c) s' -> w <= last_system_time_us s -> running_above w t s'.
Proof.
  intros Hs Hw. inversion Hs; subst. split; simpl; [lia|].
  eexists. split; [apply lookup_insert_eq|simpl; lia].
Qed.

Lemma return_above w t s v s' :
  lts_step s (LReturn t v) s' -> running_above w t s -> 0 <= last_system_time_us s < i64_max -> w < v.
Proof.
  intros Hs [Hw (f & Hf & Hlt)] Hr. inversion Hs as [| |? ? g ? ? Hg Hn Hv]; subst.
  rewrite Hf in Hg. injection Hg as <-. unfold finish_step in Hv.
  destruct (Z.ltb_spec (nf_prev f) (nf_current f)); injection Hv as <- <-; [by apply Hlt|].
  rewrite i64_wrap_id; unfold in_i64, i64_min, i64_max in *; lia.
Qed.

(** C37: [now_micros] never gives the same timestamp twice, whatever the wall
    clock does (stand still, jump back) and however the atomic operations of
    concurrent calls interleave, and it is monotonic in real time: a call that
    starts after another one returned gets a larger value.  The readings and
    the number of steps stay below the top of the [i64] range. *)
Theorem now_micros_unique_monotonic bound ls s :
  steps clock_init ls s -> readings_below bound ls ->
  0 <= bound -> bound + Z.of_nat (length ls) <= i64_max ->
  NoDup (returned ls) /\
  (forall l1 t1 w l2 t2 c l3 v l4,
     ls = l1 ++ LReturn t1 w :: l2 ++ LFetch t2 c :: l3 ++ LReturn t2 v :: l4 ->
     Forall (not_return t2) l3 -> w < v).
Proof.
  intros Hs Hb H0 Hroom. split.
  { destruct (clock_run _ _ _ Hs bound [] clock_init_inv Hb) as [[Hnd _ _ _] _]; simpl; [lia|lia|exact Hnd]. }
  intros l1 t1 w l2 t2 c l3 v l4 -> Hnr.
  assert (forall xs ys, readings_below bound (xs ++ ys) -> readings_below bound xs /\ readings_below bound ys)
    as Hsplit by (intros xs ys; apply List.Forall_app).
  apply steps_app in Hs as (sa & Hs1 & Hs). apply Hsplit in Hb as [Hb1 Hb].
  inversion Hs as [|? ? sb ? ? Hret Hs']; subst. inversion Hb as [|? ? _ Hb']; subst.
  apply steps_app in Hs' as (sc & Hs2 & Hs'). apply Hsplit in Hb' as [Hb2 Hb'].
  inversion Hs' as [|? ? sd ? ? Hfetch Hs'']; subst. inversion Hb' as [|? ? Hc Hb'']; subst.
  apply steps_app in Hs'' as (se & Hs3 & Hs''). apply Hsplit in Hb'' as [Hb3 Hb''].
  inversion Hs'' as [|? ? sf ? ? Hret2 _]; subst.
  rewrite ?length_app in Hroom. simpl in Hroom. rewrite ?length_app in Hroom. simpl in Hroom.
  rewrite ?length_app in Hroom. simpl in Hroom.
  destruct (clock_run _ _ _ Hs1 bound [] clock_init_inv Hb1) as [Hia Hma]; simpl; [lia|lia|].
  simpl in Hma, Hia. set (na := Z.of_nat (length l1)) in *.
  destruct (return_values _ _ _ _ _ Hret Hia) as [Hib Hwb]; [lia|].
  pose proof (clock_step_bound (bound + na) _ _ _ Hret ltac:(lia) ltac:(done) ltac:(lia)) as Hbb.
  pose proof (clock_step_mono _ _ _ Hret ltac:(lia)) as Hmb.
  destruct (clock_run _ _ _ Hs2 (bound + na + 1) _ Hib) as [_ Hmc];
    [eapply List.Forall_impl; [|exact Hb2]; intros []; simpl; lia|lia|lia|].
  assert (running_above w t2 sd) as Hra by (eapply fetch_running; [exact Hfetch|lia]).
  pose proof (clock_step_bound (bound + na + 1 + Z.of_nat (length l2)) _ _ _ Hfetch ltac:(lia)
    ltac:(intros ? ? [= <- <-]; lia) ltac:(lia)) as Hbd.
  pose proof (clock_step_mono _ _ _ Hfetch ltac:(lia)) as Hmd.
  apply (return_above w t2 se v sf Hret2).
  - apply (running_above_steps w t2 sd l3 se Hs3 (bound + na + 2 + Z.of_nat (length l2)));
      [done| |lia|lia|done].
    eapply List.Forall_impl; [|exact Hb3]. intros []; simpl; lia.
  - pose proof (steps_mono_last _ _ _ Hs3 (bound + na + 2 + Z.of_nat (length l2))) as Hm. 
    destruct Hm as [? ?]; [eapply List.Forall_impl; [|exact Hb3]; intros []; simpl; lia|lia|lia|lia].
Qed.

(** Two threads, the second reading a clock that jumped back. *)
Definition sample_trace : list clock_label :=
  [LFetch 1 100; LCount 1; LReturn 1 100; LFetch 2 40; LFetch 1 40; LCount 2; LCount 1;
   LReturn 1 101; LReturn 2 102].

Lemma now_micros_unique_monotonic_witness :
  NoDup (returned sample_trace) /\ returned sample_trace = [100; 101; 102] /\ 100 < 102.
Proof.
  assert (exists s, steps clock_init sample_trace s) as [s Hs].
  { eexists. unfold sample_trace.
    repeat (eapply steps_cons;
      [first [apply step_fetch; [unfold in_i64, i64_min, i64_max; lia|reflexivity]
             |eapply step_count; reflexivity
             |eapply step_return; reflexivity]|cbn]).
    apply steps_nil. }
  destruct (now_micros_unique_monotonic 100 sample_trace s Hs) as [Hnd Hmono].
  - repeat constructor; lia.
  - lia.
  - unfold sample_trace, i64_max; simpl; lia.
  - split; [exact Hnd|]. split; [reflexivity|].
    apply (Hmono [LFetch 1 100; LCount 1] 1%nat 100 [] 2%nat 40
             [LFetch 1 40; LCount 2; LCount 1; LReturn 1 101] 102 []); [reflexivity|].
    repeat constructor; intros v; discriminate.
Defined.
