(* ===== verification/Backpressure.v ===== *)
(** * Backpressure ([core/src/backpressure.rs], [core/src/slo.rs])

    The health level is computed from a metrics snapshot; the dispatch layer
    sheds deferrable tools when the cached level is red and shedding is on.
    Metrics are [u64]. *)

From S2P Require Import Prelude.
From S2P Require Import RustStr.

(** @src core/src/slo.rs:36-69 POOL_ACQUIRE_YELLOW_US and the other latency budgets *)
Definition TOOL_P95_US : Z := 100000.
Definition TOOL_P99_US : Z := 250000.
Definition READ_P95_US : Z := 50000.
Definition READ_P99_US : Z := 150000.
Definition SEND_P95_US : Z := 150000.
Definition SEND_P99_US : Z := 400000.
Definition SEND_ATTACH_P95_US : Z := 500000.
Definition SEND_ATTACH_P99_US : Z := 1500000.
Definition POOL_ACQUIRE_GREEN_US : Z := 10000.
Definition POOL_ACQUIRE_YELLOW_US : Z := 50000.
Definition POOL_ACQUIRE_RED_US : Z := 200000.

(** @src core/src/backpressure.rs:23-35 HealthLevel *)
Inductive HealthLevel := Green | Yellow | Red.

#[export] Instance HealthLevel_eq_dec : EqDecision HealthLevel.
Proof. solve_decision. Defined.

(** The discriminants, and the derived order. *)
Definition level_u8 (l : HealthLevel) : Z := match l with Green => 0 | Yellow => 1 | Red => 2 end.

(** @src core/src/backpressure.rs:38-46 HealthLevel::from_u8 *)
Definition level_from_u8 (v : Z) : HealthLevel :=
  if v =? 0 then Green else if v =? 1 then Yellow else Red.

(** @src core/src/backpressure.rs:58-65 HealthLevel::should_shed *)
Definition level_should_shed (l : HealthLevel) (tool_is_shedable : bool) : bool :=
  match l with Red => tool_is_shedable | _ => false end.

(** The thresholds of one level. *)
Record Thresholds := mkThresholds {
  POOL_ACQUIRE_P95_US : Z;
  WBQ_DEPTH_PCT : Z;
  COMMIT_DEPTH_PCT : Z;
  QUEUE_WAIT_P95_US : Z;
  RESOURCE_PRESSURE_LEVEL : Z;
  POOL_UTIL_PCT : Z;
  OVER_80_DURATION_S : Z;
}.

(** @src core/src/backpressure.rs:78-100 yellow *)
Definition yellow : Thresholds :=
  {| POOL_ACQUIRE_P95_US := POOL_ACQUIRE_YELLOW_US; WBQ_DEPTH_PCT := 50; COMMIT_DEPTH_PCT := 50;
     QUEUE_WAIT_P95_US := READ_P95_US; RESOURCE_PRESSURE_LEVEL := 1; POOL_UTIL_PCT := 70;
     OVER_80_DURATION_S := 30 |}.

(** @src core/src/backpressure.rs:102-124 red *)
Definition red : Thresholds :=
  {| POOL_ACQUIRE_P95_US := POOL_ACQUIRE_RED_US; WBQ_DEPTH_PCT := 80; COMMIT_DEPTH_PCT := 80;
     QUEUE_WAIT_P95_US := TOOL_P99_US; RESOURCE_PRESSURE_LEVEL := 2; POOL_UTIL_PCT := 90;
     OVER_80_DURATION_S := 300 |}.

(** The fields of [GlobalMetricsSnapshot] this module reads. *)
Record MetricsSnapshot := mkSnap {
  pool_over_80_since_us : Z;
  pool_active_connections : Z;
  pool_pending_requests : Z;
  pool_acquire_latency_p95 : Z;
  snap_pool_utilization_pct : Z;
  wbq_over_80_since_us : Z;
  wbq_depth : Z;
  wbq_capacity : Z;
  wbq_enqueued_total : Z;
  wbq_drained_total : Z;
  wbq_queue_latency_recent_p95 : Z;
  commit_over_80_since_us : Z;
  commit_pending_requests : Z;
  commit_soft_cap : Z;
  commit_queue_latency_recent_p95 : Z;
  snap_disk_pressure_level : Z;
  disk_last_sample_us : Z;
  snap_memory_pressure_level : Z;
  memory_last_sample_us : Z;
}.

(** @src core/src/backpressure.rs:141-160 HealthSignals *)
Record HealthSignals := mkSignals {
  pool_acquire_p95_us : Z;
  pool_utilization_pct : Z;
  pool_over_80_for_s : Z;
  wbq_depth_pct : Z;
  wbq_queue_p95_us : Z;
  wbq_over_80_for_s : Z;
  commit_depth_pct : Z;
  commit_queue_p95_us : Z;
  commit_over_80_for_s : Z;
  disk_pressure_level : Z;
  disk_pressure_stale : bool;
  memory_pressure_level : Z;
  memory_pressure_stale : bool;
}.

(** @src core/src/backpressure.rs:697-705 duration_since_s *)
Definition duration_since_s (since_us now_us : Z) : Z :=
  if since_us =? 0 then 0 else usat_sub now_us since_us / 1000000.

(** @src core/src/backpressure.rs:707-720 pct
    -- in 128 bits, which the product of two 64-bit values fits. *)
Definition pct (value total : Z) : Z :=
  if total =? 0 then 0
  else let p := value * 100 / total in if 100 <? p then 100 else p.

Definition RESOURCE_PRESSURE_STALE_AFTER_S : Z := 180.

(** @src core/src/backpressure.rs:722-738 fresh_pressure_level *)
Definition fresh_pressure_level (level last_sample_us now_us : Z) : Z * bool :=
  let bounded_level := if level <=? 3 then level else 0 in
  if bounded_level =? 0 then (0, false)
  else if last_sample_us =? 0 then (0, true)
  else if RESOURCE_PRESSURE_STALE_AFTER_S <? duration_since_s last_sample_us now_us then (0, true)
  else (bounded_level, false).

(** @src core/src/backpressure.rs:163-247 HealthSignals::from_snapshot *)
Definition from_snapshot (snap : MetricsSnapshot) (now_us : Z) : HealthSignals :=
  let pool_is_idle := (pool_active_connections snap =? 0) && (pool_pending_requests snap =? 0) in
  let wbq_backlog := usat_sub (wbq_enqueued_total snap) (wbq_drained_total snap) in
  let wbq_effective_depth := if wbq_depth snap <? wbq_backlog then wbq_depth snap else wbq_backlog in
  let disk := fresh_pressure_level (snap_disk_pressure_level snap) (disk_last_sample_us snap) now_us in
  let memory := fresh_pressure_level (snap_memory_pressure_level snap) (memory_last_sample_us snap) now_us in
  {| pool_acquire_p95_us := if pool_is_idle then 0 else pool_acquire_latency_p95 snap;
     pool_utilization_pct := snap_pool_utilization_pct snap;
     pool_over_80_for_s := duration_since_s (pool_over_80_since_us snap) now_us;
     wbq_depth_pct := pct (wbq_depth snap) (wbq_capacity snap);
     wbq_queue_p95_us := if wbq_effective_depth =? 0 then 0 else wbq_queue_latency_recent_p95 snap;
     wbq_over_80_for_s := duration_since_s (wbq_over_80_since_us snap) now_us;
     commit_depth_pct := pct (commit_pending_requests snap) (commit_soft_cap snap);
     commit_queue_p95_us := if commit_pending_requests snap =? 0 then 0
                            else commit_queue_latency_recent_p95 snap;
     commit_over_80_for_s := duration_since_s (commit_over_80_since_us snap) now_us;
     disk_pressure_level := fst disk; disk_pressure_stale := snd disk;
     memory_pressure_level := fst memory; memory_pressure_stale := snd memory |}.

(** The disjunction of [classify] for one level. *)
Definition breaches (t : Thresholds) (s : HealthSignals) : bool :=
  (POOL_ACQUIRE_P95_US t <=? pool_acquire_p95_us s)
  || (POOL_UTIL_PCT t <=? pool_utilization_pct s)
  || (OVER_80_DURATION_S t <=? pool_over_80_for_s s)
  || (WBQ_DEPTH_PCT t <=? wbq_depth_pct s)
  || (QUEUE_WAIT_P95_US t <=? wbq_queue_p95_us s)
  || (OVER_80_DURATION_S t <=? wbq_over_80_for_s s)
  || (COMMIT_DEPTH_PCT t <=? commit_depth_pct s)
  || (QUEUE_WAIT_P95_US t <=? commit_queue_p95_us s)
  || (OVER_80_DURATION_S t <=? commit_over_80_for_s s)
  || (RESOURCE_PRESSURE_LEVEL t <=? disk_pressure_level s)
  || (RESOURCE_PRESSURE_LEVEL t <=? memory_pressure_level s).

(** @src core/src/backpressure.rs:249-285 HealthSignals::classify *)
Definition classify (s : HealthSignals) : HealthLevel :=
  if breaches red s then Red else if breaches yellow s then Yellow else Green.

(** @src core/src/backpressure.rs:346-427 HealthSignals::queue_pressure_details *)
Definition queue_pressure_details (s : HealthSignals) : list ustr :=
  let signals : list (ustr * Z * ustr * Z * Z) :=
    [(u "pool acquire p95", pool_acquire_p95_us s, u "us", POOL_ACQUIRE_P95_US yellow, POOL_ACQUIRE_P95_US red);
     (u "pool utilization", pool_utilization_pct s, u "%", POOL_UTIL_PCT yellow, POOL_UTIL_PCT red);
     (u "pool utilization above 80% for", pool_over_80_for_s s, u "s", OVER_80_DURATION_S yellow, OVER_80_DURATION_S red);
     (u "write-behind queue depth", wbq_depth_pct s, u "%", WBQ_DEPTH_PCT yellow, WBQ_DEPTH_PCT red);
     (u "write-behind queue wait p95", wbq_queue_p95_us s, u "us", QUEUE_WAIT_P95_US yellow, QUEUE_WAIT_P95_US red);
     (u "write-behind queue above 80% for", wbq_over_80_for_s s, u "s", OVER_80_DURATION_S yellow, OVER_80_DURATION_S red);
     (u "commit queue depth", commit_depth_pct s, u "%", COMMIT_DEPTH_PCT yellow, COMMIT_DEPTH_PCT red);
     (u "commit queue wait p95", commit_queue_p95_us s, u "us", QUEUE_WAIT_P95_US yellow, QUEUE_WAIT_P95_US red);
     (u "commit queue above 80% for", commit_over_80_for_s s, u "s", OVER_80_DURATION_S yellow, OVER_80_DURATION_S red)] in
  omap (fun '(name, observed, unit, warning, critical) =>
    let detail (level : ustr) (threshold : Z) :=
      name ++ u "=" ++ dec observed ++ unit ++ u " >= " ++ level ++ u " threshold=" ++ dec threshold ++ unit in
    if critical <=? observed then Some (detail (u "red") critical)
    else if warning <=? observed then Some (detail (u "yellow") warning)
    else None) signals.

(** What [pressure_detail] reads of the system metrics and of the configuration. *)
Record ResourceView := mkResource {
  memory_rss_bytes : Z;
  disk_effective_free_bytes : Z;
  memory_thresholds_mb : Z * Z * Z;
  disk_thresholds_mb : Z * Z * Z;
}.

(** One row of the resource table of [pressure_detail]. *)
Definition resource_detail (name measurement : ustr) (bytes level : Z) (stale : bool)
    (thresholds : Z * Z * Z) : list ustr :=
  if stale then [name ++ u " pressure sample stale or unavailable; excluded from classification"]
  else if 0 <? level then
    let '(warning, critical, fatal) := thresholds in
    let '(label, threshold) :=
      if level =? 1 then (u "warning", warning)
      else if level =? 2 then (u "critical", critical) else (u "fatal", fatal) in
    [name ++ u " " ++ measurement ++ u "=" ++ dec bytes ++ u " bytes (" ++ dec (bytes / (1024 * 1024))
       ++ u " MiB), pressure=" ++ label ++ u ", configured " ++ label ++ u " threshold="
       ++ dec threshold ++ u " MiB"]
  else [].

(** The details [pressure_detail] joins. *)
Definition pressure_details (s : HealthSignals) (r : ResourceView) : list ustr :=
  queue_pressure_details s
  ++ resource_detail (u "memory") (u "rss") (memory_rss_bytes r) (memory_pressure_level s)
       (memory_pressure_stale s) (memory_thresholds_mb r)
  ++ resource_detail (u "disk") (u "free") (disk_effective_free_bytes r) (disk_pressure_level s)
       (disk_pressure_stale s) (disk_thresholds_mb r).

(** @src core/src/backpressure.rs:287-344 HealthSignals::pressure_detail *)
Definition pressure_detail (s : HealthSignals) (r : ResourceView) : ustr :=
  match pressure_details s r with
  | [] => u "no active pressure thresholds breached"
  | details => join (u "; ") details
  end.

(** @src core/src/backpressure.rs:434-446 CapacityAction *)
Inductive CapacityAction := Accept | Defer | Downgrade | Shed.

(** @src core/src/backpressure.rs:467-485 CapacityGovernorDecision, should_shed *)
Record CapacityDecision := mkDecision {
  cd_action : CapacityAction;
  cd_health_level : HealthLevel;
  cd_tool_is_shedable : bool;
  cd_shedding_enabled : bool;
  cd_enforced : bool;
  cd_reason : ustr;
  cd_signals : HealthSignals;
}.
Definition decision_should_shed (d : CapacityDecision) : bool :=
  match cd_action d with Shed => cd_enforced d | _ => false end.

(** @src core/src/backpressure.rs:740-772 capacity_action_for *)
Definition capacity_action_for (level : HealthLevel) (tool_is_shedable shedding_enabled : bool)
    : CapacityAction * bool * ustr :=
  if negb tool_is_shedable then
    (Accept, false, u "coordination-critical tool protected from shedding")
  else
    match level with
    | Green => (Accept, false, u "capacity healthy")
    | Yellow => (Defer, false, u "elevated load; shedable read should retry later if possible")
    | Red =>
        if shedding_enabled then
          (Shed, true, u "red health and shedding gate enabled for shedable read")
        else (Downgrade, false, u "red health observed in shadow mode; shedding gate disabled")
    end.

(** @src core/src/backpressure.rs:642-664 SHEDABLE_TOOLS *)
Definition SHEDABLE_TOOLS : list ustr :=
  [u "search_messages"; u "summarize_thread"; u "summarize_recent"; u "fetch_summary"; u "whois";
   u "list_window_identities"; u "list_contacts"; u "search_messages_product";
   u "summarize_thread_product"; u "fetch_inbox_product"].

(** @src core/src/backpressure.rs:666-675 is_shedable_tool *)
Definition is_shedable_tool (tool_name : ustr) : bool := existsb (ustr_eqb tool_name) SHEDABLE_TOOLS.

(** @src core/src/backpressure.rs:514-535 capacity_governor_decision_from_parts *)
Definition capacity_governor_decision_from_parts (tool_name : ustr) (level : HealthLevel)
    (signals : HealthSignals) (shedding_enabled : bool) : CapacityDecision :=
  let shedable := is_shedable_tool tool_name in
  let '(action, enforced, reason) := capacity_action_for level shedable shedding_enabled in
  mkDecision action level shedable shedding_enabled enforced reason signals.

(** The process-wide cells: [CURRENT_LEVEL], [LEVEL_TRANSITIONS] and
    [SHEDDING_ENABLED]. *)
Record PressureCells := mkCells {
  current_level : Z;
  level_transitions : Z;
  shedding_enabled : bool;
}.

Definition cells_init : PressureCells := mkCells 0 0 false.

(** @src core/src/backpressure.rs:571-578 cached_health_level *)
Definition cached_health_level (c : PressureCells) : HealthLevel := level_from_u8 (current_level c).

(** @src core/src/backpressure.rs:590-608 refresh_health_level_from_snapshot *)
Definition refresh_health_level_from_snapshot (snap : MetricsSnapshot) (now_us : Z) (c : PressureCells)
    : HealthLevel * bool * PressureCells :=
  let new := classify (from_snapshot snap now_us) in
  let changed := negb (current_level c =? level_u8 new) in
  (new, changed,
   mkCells (level_u8 new)
     (if changed then Z.min (level_transitions c + 1) 255 else level_transitions c)
     (shedding_enabled c)).

(** @src core/src/backpressure.rs:622-636 shedding_enabled, set_shedding_enabled *)
Definition set_shedding_enabled (enabled : bool) (c : PressureCells) : PressureCells :=
  mkCells (current_level c) (level_transitions c) enabled.

(** @src core/src/backpressure.rs:677-691 should_shed_tool *)
Definition should_shed_tool (tool_name : ustr) (c : PressureCells) : bool :=
  let '(action, enforced, _) :=
    capacity_action_for (cached_health_level c) (is_shedable_tool tool_name) (shedding_enabled c) in
  match action with Shed => enforced | _ => false end.

(** @src core/src/slo.rs:96-119 PoolHealth, PoolHealth::classify *)
Definition pool_health (latency_us : Z) : HealthLevel :=
  if latency_us <=? POOL_ACQUIRE_GREEN_US then Green
  else if latency_us <=? POOL_ACQUIRE_YELLOW_US then Yellow else Red.

(** @src core/src/slo.rs:131-155 OpClass, OpClass::budget_us *)
Inductive OpClass := OpTool | OpRead | OpSend | OpSendAttach.
Definition budget_us (c : OpClass) : Z * Z :=
  match c with
  | OpTool => (TOOL_P95_US, TOOL_P99_US)
  | OpRead => (READ_P95_US, READ_P99_US)
  | OpSend => (SEND_P95_US, SEND_P99_US)
  | OpSendAttach => (SEND_ATTACH_P95_US, SEND_ATTACH_P99_US)
  end.

(** ** Properties *)

(** Every signal with its two thresholds. *)
Definition signal_rows (s : HealthSignals) : list (Z * Z * Z) :=
  [(pool_acquire_p95_us s, POOL_ACQUIRE_P95_US yellow, POOL_ACQUIRE_P95_US red);
   (pool_utilization_pct s, POOL_UTIL_PCT yellow, POOL_UTIL_PCT red);
   (pool_over_80_for_s s, OVER_80_DURATION_S yellow, OVER_80_DURATION_S red);
   (wbq_depth_pct s, WBQ_DEPTH_PCT yellow, WBQ_DEPTH_PCT red);
   (wbq_queue_p95_us s, QUEUE_WAIT_P95_US yellow, QUEUE_WAIT_P95_US red);
   (wbq_over_80_for_s s, OVER_80_DURATION_S yellow, OVER_80_DURATION_S red);
   (commit_depth_pct s, COMMIT_DEPTH_PCT yellow, COMMIT_DEPTH_PCT red);
   (commit_queue_p95_us s, QUEUE_WAIT_P95_US yellow, QUEUE_WAIT_P95_US red);
   (commit_over_80_for_s s, OVER_80_DURATION_S yellow, OVER_80_DURATION_S red);
   (disk_pressure_level s, RESOURCE_PRESSURE_LEVEL yellow, RESOURCE_PRESSURE_LEVEL red);
   (memory_pressure_level s, RESOURCE_PRESSURE_LEVEL yellow, RESOURCE_PRESSURE_LEVEL red)].

Definition row_level (row : Z * Z * Z) : Z :=
  let '(observed, warning, critical) := row in
  if critical <=? observed then 2 else if warning <=? observed then 1 else 0.

Definition worst (rows : list (Z * Z * Z)) : Z := foldr (fun r n => Z.max (row_level r) n) 0 rows.

Lemma row_level_range r : 0 <= row_level r <= 2.
Proof. destruct r as [[o w] c]. simpl. repeat case_match; lia. Qed.

Lemma worst_range rows : 0 <= worst rows <= 2.
Proof. induction rows as [|r rows IH]; simpl; [lia|]. pose proof (row_level_range r). lia. Qed.

Lemma classify_rows rows :
  Forall (fun '(_, w, c) => w < c) rows ->
  (if existsb (fun '(o, _, c) => c <=? o) rows then 2
   else if existsb (fun '(o, w, _) => w <=? o) rows then 1 else 0) = worst rows.
Proof.
  induction 1 as [|[[o w] c] rows Hr Hrows IH]; simpl; [done|]. rewrite <- IH.
  destruct (Z.leb_spec c o), (Z.leb_spec w o); simpl; try lia;
    destruct (existsb (fun '(o, _, c) => c <=? o) rows), (existsb (fun '(o, w, _) => w <=? o) rows); done.
Qed.

Lemma classify_worst s : level_u8 (classify s) = worst (signal_rows s).
Proof.
  rewrite <- classify_rows; [|by repeat constructor].
  assert (existsb (fun '(o, _, c) => c <=? o) (signal_rows s) = breaches red s) as ->
    by (unfold breaches; simpl; by rewrite orb_false_r, !orb_assoc).
  assert (existsb (fun '(o, w, _) => w <=? o) (signal_rows s) = breaches yellow s) as ->
    by (unfold breaches; simpl; by rewrite orb_false_r, !orb_assoc).
  unfold classify. by destruct (breaches red s), (breaches yellow s).
Qed.

Lemma row_level_mono o o' w c : o <= o' -> row_level (o, w, c) <= row_level (o', w, c).
Proof.
  simpl. intros Ho. destruct (Z.leb_spec c o), (Z.leb_spec c o'), (Z.leb_spec w o), (Z.leb_spec w o'); lia.
Qed.

Lemma worst_mono rows rows' :
  Forall2 (fun '(o, w, c) '(o', w', c') => o <= o' /\ w = w' /\ c = c') rows rows' ->
  worst rows <= worst rows'.
Proof.
  induction 1 as [|[[o w] c] [[o' w'] c'] rows rows' (Ho & -> & ->) Hrows IH]; simpl; [lia|].
  pose proof (row_level_mono o o' w' c' Ho). simpl in *. lia.
Qed.

(** Signal by signal, [s] is at most [s']. *)
Definition signals_le (s s' : HealthSignals) : Prop :=
  Forall2 (fun '(o, _, _) '(o', _, _) => o <= o') (signal_rows s) (signal_rows s').

(** The health level is the worst level of any single signal against its
    own pair of thresholds, so no signal masks another, and raising signals
    never improves it. *)
Theorem classify_worst_signal s s' :
  signals_le s s' ->
  level_u8 (classify s) = worst (signal_rows s) /\
  level_u8 (classify s) <= level_u8 (classify s').
Proof.
  intros Hle. rewrite !classify_worst. split; [done|]. apply worst_mono.
  unfold signals_le, signal_rows in *.
  repeat (apply Forall2_cons in Hle as [? Hle]; constructor; [by split_and!|]). constructor.
Qed.

Lemma level_roundtrip l : level_from_u8 (level_u8 l) = l.
Proof. by destruct l. Qed.

(** A call is shed only when shedding is enabled, the level cached from the
    last refresh is red and the tool is one of the deferrable reads; the
    decision record shown to operators says the same as the dispatch check. *)
Theorem shed_exactly_when tool snap now c signals :
  let '(level, _, c') := refresh_health_level_from_snapshot snap now c in
  level = classify (from_snapshot snap now) /\ cached_health_level c' = level /\
  (should_shed_tool tool c' = true <->
     shedding_enabled c = true /\ level = Red /\ In tool SHEDABLE_TOOLS) /\
  decision_should_shed (capacity_governor_decision_from_parts tool level signals (shedding_enabled c))
    = should_shed_tool tool c'.
Proof.
  unfold refresh_health_level_from_snapshot, should_shed_tool, cached_health_level,
    capacity_governor_decision_from_parts, decision_should_shed.
  cbn [current_level shedding_enabled]. rewrite level_roundtrip.
  assert (is_shedable_tool tool = true <-> In tool SHEDABLE_TOOLS) as Hin.
  { unfold is_shedable_tool. rewrite existsb_exists. split.
    - intros (x & Hx & ->%ustr_eqb_eq). done.
    - intros Ht. exists tool. by rewrite ustr_eqb_refl. }
  rewrite <- Hin. generalize (is_shedable_tool tool) (classify (from_snapshot snap now)) (shedding_enabled c).
  intros [] [] []; simpl; split_and!; try done; split; try done; by intros (? & ? & ?).
Qed.

(** ** Explanations *)

Lemma omap_nil {A B} (f : A -> option B) l : omap f l = [] <-> Forall (fun x => f x = None) l.
Proof.
  induction l as [|x l IH]; simpl; [split; [constructor|done]|].
  rewrite Forall_cons, <- IH. destruct (f x); split; try done; by intros [? ?].
Qed.

Lemma resource_detail_nil name m bytes level stale t :
  resource_detail name m bytes level stale t = [] <-> stale = false /\ level <= 0.
Proof.
  unfold resource_detail. destruct stale; [split; [done|by intros [? _]]|].
  destruct (Z.ltb_spec 0 level); [|split; [done|done]].
  split; [|lia]. destruct t as [[? ?] ?]. by repeat case_match.
Qed.

Lemma Forall_fst9 {A} (P : A -> Prop) a b c d e f g h i :
  Forall P [a; b; c; d; e; f; g; h; i] <->
  P a /\ P b /\ P c /\ P d /\ P e /\ P f /\ P g /\ P h /\ P i.
Proof. rewrite !Forall_cons, Forall_nil. tauto. Qed.

(** The explanation shown to operators is complete.  [pressure_detail]
    reports no pressure exactly when the classification of the same signals is
    green and no resource sample was excluded as stale. *)
Theorem pressure_detail_explains s r :
  pressure_details s r = [] <->
  classify s = Green /\ memory_pressure_stale s = false /\ disk_pressure_stale s = false.
Proof.
  assert (classify s = Green <-> worst (signal_rows s) <= 0) as Hg.
  { rewrite <- classify_worst. destruct (classify s); simpl; split; try done; lia. }
  assert (forall o w c, w < c -> row_level (o, w, c) <= 0 <-> o < w) as Hrow.
  { intros o w c Hwc. simpl. destruct (Z.leb_spec c o), (Z.leb_spec w o); lia. }
  assert (forall rows, worst rows <= 0 <-> Forall (fun r => row_level r <= 0) rows) as Hw.
  { induction rows as [|x rows IH]; simpl; [split; [constructor|lia]|].
    rewrite Forall_cons, <- IH. lia. }
  unfold pressure_details. rewrite Hg, Hw, !app_nil, !resource_detail_nil.
  unfold queue_pressure_details. rewrite omap_nil, Forall_fst9.
  unfold signal_rows. rewrite !Forall_cons, Forall_nil, !Hrow by (simpl; unfold POOL_ACQUIRE_YELLOW_US,
    POOL_ACQUIRE_RED_US, READ_P95_US, TOOL_P99_US; lia).
  assert (forall (o w c : Z) (x y : ustr), w < c ->
    (if c <=? o then Some x else if w <=? o then Some y else None) = None <-> o < w) as Ho.
  { intros o w c x y Hwc. destruct (Z.leb_spec c o), (Z.leb_spec w o); split; try done; lia. }
  rewrite !Ho by (simpl; unfold POOL_ACQUIRE_YELLOW_US, POOL_ACQUIRE_RED_US, READ_P95_US, TOOL_P99_US; lia).
  simpl. intuition lia.
Qed.

(** ** Idle systems *)

(** Nothing is queued or in flight now, whatever the histograms remember, and
    the resource samples are fine or too old to count. *)
Definition idle_snapshot (snap : MetricsSnapshot) (now_us : Z) : Prop :=
  pool_active_connections snap = 0 /\ pool_pending_requests snap = 0 /\
  snap_pool_utilization_pct snap = 0 /\ pool_over_80_since_us snap = 0 /\
  (wbq_depth snap = 0 \/ wbq_enqueued_total snap <= wbq_drained_total snap) /\
  0 <= wbq_depth snap * 100 < 50 * wbq_capacity snap /\ wbq_over_80_since_us snap = 0 /\
  commit_pending_requests snap = 0 /\ commit_over_80_since_us snap = 0 /\
  Forall (fun '(level, sample) => level = 0 \/ 3 < level \/ sample = 0 \/ 181 * 1000000 <= now_us - sample)
    [(snap_disk_pressure_level snap, disk_last_sample_us snap);
     (snap_memory_pressure_level snap, memory_last_sample_us snap)].

Lemma fresh_old level sample now :
  level = 0 \/ 3 < level \/ sample = 0 \/ 181 * 1000000 <= now - sample ->
  fst (fresh_pressure_level level sample now) = 0.
Proof.
  intros Hc. unfold fresh_pressure_level, RESOURCE_PRESSURE_STALE_AFTER_S, duration_since_s, usat_sub.
  destruct (Z.leb_spec level 3).
  - destruct (Z.eqb_spec level 0); [done|]. destruct (Z.eqb_spec sample 0); [done|].
    destruct (Z.ltb_spec 180 (Z.max (now - sample) 0 / 1000000)) as [|Hlt]; [done|]. exfalso.
    assert (181 <= Z.max (now - sample) 0 / 1000000) by (apply Z.div_le_lower_bound; lia). lia.
  - done.
Qed.

(** Past pressure does not pin the health level.  A snapshot with an idle
    pool and drained queues is green whatever its latency histograms say, and
    so is one whose queue-depth gauge is stranded below half its capacity while
    the counters show that everything was drained; resource samples older than
    three minutes do not count. *)
Theorem idle_system_is_green snap now :
  idle_snapshot snap now -> classify (from_snapshot snap now) = Green.
Proof.
  intros (Ha & Hp & Hu & Ho & Hd & Hcap & Hwo & Hc & Hco & Hres).
  rewrite !Forall_cons in Hres. destruct Hres as (Hdisk & Hmem & _).
  assert (level_u8 (classify (from_snapshot snap now)) = 0) as Hl;
    [|by destruct (classify (from_snapshot snap now))].
  rewrite classify_worst. unfold signal_rows, from_snapshot, duration_since_s.
  cbn [pool_acquire_p95_us pool_utilization_pct pool_over_80_for_s wbq_depth_pct wbq_queue_p95_us
       wbq_over_80_for_s commit_depth_pct commit_queue_p95_us commit_over_80_for_s disk_pressure_level
       memory_pressure_level].
  rewrite (fresh_old _ _ _ Hdisk), (fresh_old _ _ _ Hmem), Ha, Hp, Hu, Ho, Hwo, Hc, Hco. simpl.
  assert ((if wbq_depth snap <? usat_sub (wbq_enqueued_total snap) (wbq_drained_total snap)
    then wbq_depth snap else usat_sub (wbq_enqueued_total snap) (wbq_drained_total snap)) = 0) as ->.
  { unfold usat_sub. destruct (Z.ltb_spec (wbq_depth snap)
      (Z.max (wbq_enqueued_total snap - wbq_drained_total snap) 0)); lia. }
  assert (pct 0 (commit_soft_cap snap) = 0) as -> by (unfold pct; by destruct (commit_soft_cap snap)).
  assert (0 <= pct (wbq_depth snap) (wbq_capacity snap) < 50) as Hpct.
  { unfold pct. destruct (Z.eqb_spec (wbq_capacity snap) 0); [lia|].
    assert (wbq_depth snap * 100 / wbq_capacity snap < 50) by (apply Z.div_lt_upper_bound; lia).
    assert (0 <= wbq_depth snap * 100 / wbq_capacity snap) by (apply Z.div_pos; lia).
    destruct (Z.ltb_spec 100 (wbq_depth snap * 100 / wbq_capacity snap)); lia. }
  destruct (Z.leb_spec 80 (pct (wbq_depth snap) (wbq_capacity snap))); [lia|].
  destruct (Z.leb_spec 50 (pct (wbq_depth snap) (wbq_capacity snap))); [lia|]. done.
Qed.

(** ** Witnesses *)

Definition calm : HealthSignals := mkSignals 0 0 0 0 0 0 0 0 0 0 false 0 false.
Definition busy : HealthSignals := mkSignals 0 70 0 0 0 0 0 250000 0 1 false 0 false.

Lemma classify_worst_signal_witness :
  classify calm = Green /\ classify busy = Red /\ level_u8 (classify calm) <= level_u8 (classify busy).
Proof.
  split; [vm_compute; reflexivity|]. split; [vm_compute; reflexivity|].
  refine (proj2 (classify_worst_signal calm busy _)).
  unfold signals_le, signal_rows. repeat constructor; simpl; lia.
Defined.

Definition spiky_snapshot : MetricsSnapshot :=
  mkSnap 0 0 0 900000 0 0 40 100 7 7 800000 0 0 10 700000 3 1000000 2 1000000.

Lemma idle_system_is_green_witness :
  pool_acquire_latency_p95 spiky_snapshot = 900000 /\ wbq_depth spiky_snapshot = 40 /\
  classify (from_snapshot spiky_snapshot 500000000) = Green.
Proof.
  split; [reflexivity|]. split; [reflexivity|]. apply (idle_system_is_green spiky_snapshot 500000000).
  unfold idle_snapshot; simpl. split_and!; try lia. repeat constructor; lia.
Defined.
