(* ===== verification/MailboxVerdict.v ===== *)
(** * Mailbox durability ([db/src/mailbox_verdict.rs], parts of [db/src/pool.rs])

    Probes are folded into a diagnostic state, which is collapsed into the
    four-state machine that gates reads and writes at run time. *)

From S2P Require Import Prelude.
From S2P Require Import RustStr.
From S2P Require Import Backpressure.

(** @src db/src/mailbox_verdict.rs:46-67 MailboxState *)
Inductive MailboxState :=
| MHealthy | MStale | MSuspect | MBroken | MRecovering | MDegradedReadOnly | MEscalate.

#[export] Instance MailboxState_eq_dec : EqDecision MailboxState.
Proof. solve_decision. Defined.

(** @src db/src/mailbox_verdict.rs:70-77 MailboxState::allows_reads *)
Definition m_allows_reads (s : MailboxState) : bool :=
  match s with MHealthy | MStale | MSuspect | MDegradedReadOnly => true | _ => false end.

(** @src db/src/mailbox_verdict.rs:79-83 MailboxState::allows_writes *)
Definition m_allows_writes (s : MailboxState) : bool :=
  match s with MHealthy => true | _ => false end.

(** @src db/src/mailbox_verdict.rs:85-89 MailboxState::allows_recovery_start *)
Definition m_allows_recovery_start (s : MailboxState) : bool :=
  match s with MBroken | MDegradedReadOnly | MSuspect => true | _ => false end.

(** @src db/src/mailbox_verdict.rs:91-103 MailboxState::severity *)
Definition m_severity (s : MailboxState) : Z :=
  match s with
  | MHealthy => 0 | MDegradedReadOnly => 1 | MStale => 2 | MSuspect => 3
  | MRecovering => 4 | MBroken => 5 | MEscalate => 6
  end.

(** @src db/src/mailbox_verdict.rs:105-113 MailboxState::max_severity *)
Definition m_max_severity (s other : MailboxState) : MailboxState :=
  if m_severity other <=? m_severity s then s else other.

(** @src db/src/mailbox_verdict.rs:140-193 DurabilityState *)
Inductive DurabilityState := DHealthy | DDegradedReadOnly | DRecovering | DCorrupt.

#[export] Instance DurabilityState_eq_dec : EqDecision DurabilityState.
Proof. solve_decision. Defined.

(** @src db/src/mailbox_verdict.rs:195-257 DURABILITY_TRANSITIONS *)
Definition DURABILITY_TRANSITIONS : list (DurabilityState * DurabilityState * ustr) :=
  [(DHealthy, DDegradedReadOnly, u "drift_or_suspicion_detected");
   (DHealthy, DCorrupt, u "decisive_failure");
   (DDegradedReadOnly, DHealthy, u "verified_promotion");
   (DDegradedReadOnly, DRecovering, u "supervisor_started_repair");
   (DDegradedReadOnly, DCorrupt, u "read_path_failed");
   (DRecovering, DHealthy, u "candidate_promoted");
   (DRecovering, DDegradedReadOnly, u "candidate_failed_snapshots_remain");
   (DRecovering, DCorrupt, u "recovery_aborted_no_reads");
   (DCorrupt, DRecovering, u "recovery_attempt_started")].

(** @src db/src/mailbox_verdict.rs:260-264 DurabilityState::allows_reads *)
Definition d_allows_reads (s : DurabilityState) : bool :=
  match s with DHealthy | DDegradedReadOnly => true | _ => false end.

(** @src db/src/mailbox_verdict.rs:266-270 DurabilityState::allows_writes *)
Definition d_allows_writes (s : DurabilityState) : bool := match s with DHealthy => true | _ => false end.

(** @src db/src/mailbox_verdict.rs:272-276 DurabilityState::allows_recovery_start *)
Definition d_allows_recovery_start (s : DurabilityState) : bool :=
  match s with DDegradedReadOnly | DCorrupt => true | _ => false end.

(** @src db/src/mailbox_verdict.rs:278-282 DurabilityState::is_degraded *)
Definition is_degraded (s : DurabilityState) : bool := match s with DHealthy => false | _ => true end.

(** @src db/src/mailbox_verdict.rs:284-293 DurabilityState::severity *)
Definition d_severity (s : DurabilityState) : Z :=
  match s with DHealthy => 0 | DDegradedReadOnly => 1 | DRecovering => 2 | DCorrupt => 3 end.

(** @src db/src/mailbox_verdict.rs:295-304 DurabilityState::as_str *)
Definition durability_as_str (s : DurabilityState) : ustr :=
  match s with
  | DHealthy => u "healthy" | DDegradedReadOnly => u "degraded_read_only"
  | DRecovering => u "recovering" | DCorrupt => u "corrupt"
  end.

(** @src db/src/mailbox_verdict.rs:306-318 DurabilityState::from_mailbox_state *)
Definition from_mailbox_state (s : MailboxState) : DurabilityState :=
  match s with
  | MHealthy => DHealthy
  | MStale | MSuspect | MDegradedReadOnly => DDegradedReadOnly
  | MRecovering => DRecovering
  | MBroken | MEscalate => DCorrupt
  end.

(** @src db/src/mailbox_verdict.rs:320-337 DurabilityState::floor_from_health_level *)
Definition floor_from_health_level (l : HealthLevel) : DurabilityState :=
  match l with Green | Yellow => DHealthy | Red => DDegradedReadOnly end.

(** @src db/src/mailbox_verdict.rs:339-347 DurabilityState::max_severity *)
Definition d_max_severity (s other : DurabilityState) : DurabilityState :=
  if d_severity other <=? d_severity s then s else other.

(** @src db/src/mailbox_verdict.rs:356-373 validate_durability_transition *)
Definition validate_durability_transition (from to : DurabilityState) : ustr + ustr :=
  if bool_decide (from = to) then inl (u "idempotent")
  else
    match List.find (fun '(f, t, _) => bool_decide (f = from) && bool_decide (t = to)) DURABILITY_TRANSITIONS with
    | Some (_, _, trigger) => inl trigger
    | None => inr (u "invalid durability state transition")
    end.

(** @src db/src/mailbox_verdict.rs:379-391 ProbeSeverity *)
Inductive ProbeSeverity := Info | Warning | Error | Fatal.

#[export] Instance ProbeSeverity_eq_dec : EqDecision ProbeSeverity.
Proof. solve_decision. Defined.

(** @src db/src/mailbox_verdict.rs:393-409 ProbeResult
    -- without the measured duration. *)
Record ProbeResult := mkProbe {
  probe_name : ustr;
  passed : bool;
  probe_detail : ustr;
  probe_severity : ProbeSeverity;
  impact_state : MailboxState;
}.

(** @src db/src/mailbox_verdict.rs:411-482 ProbeResult::ok, warn, warn_state, error, error_state, fatal *)
Definition probe_ok (name detail : ustr) : ProbeResult := mkProbe name true detail Info MHealthy.
Definition probe_warn_state (name detail : ustr) (impact : MailboxState) : ProbeResult :=
  mkProbe name false detail Warning impact.
Definition probe_warn (name detail : ustr) : ProbeResult := probe_warn_state name detail MSuspect.
Definition probe_error_state (name detail : ustr) (impact : MailboxState) : ProbeResult :=
  mkProbe name false detail Error impact.
Definition probe_error (name detail : ustr) : ProbeResult := probe_error_state name detail MBroken.
Definition probe_fatal (name detail : ustr) : ProbeResult := mkProbe name false detail Fatal MEscalate.

(** @src db/src/mailbox_verdict.rs:705-722 compute_state_from_probes *)
Definition compute_state_from_probes (probes : list ProbeResult) (recovery_lock_held : bool) : MailboxState :=
  let state := foldl (fun state probe =>
    if passed probe then state else m_max_severity state (impact_state probe)) MHealthy probes in
  if recovery_lock_held && (m_severity state <? m_severity MBroken) then MRecovering else state.

(** @src db/src/mailbox_verdict.rs:630-652 failure_count, warning_count, error_count *)
Definition failure_count (probes : list ProbeResult) : nat :=
  length (List.filter (fun p => negb (passed p)) probes).
Definition failed_with (sev : ProbeSeverity) (probes : list ProbeResult) : nat :=
  length (List.filter (fun p => negb (passed p) && bool_decide (probe_severity p = sev)) probes).

(** @src db/src/mailbox_verdict.rs:537-545 MailboxArchiveDriftState *)
Inductive ArchiveDrift := DriftSkipped | DriftUnknown | Aligned | ArchiveAhead | DbAhead.

#[export] Instance ArchiveDrift_eq_dec : EqDecision ArchiveDrift.
Proof. solve_decision. Defined.

(** @src db/src/mailbox_verdict.rs:655-678 verdict_prefers_archive_snapshot_reads
    -- of the verdict: its state, its probes and its drift state. *)
Definition verdict_prefers_archive_snapshot_reads (state : MailboxState) (probes : list ProbeResult)
    (drift : ArchiveDrift) : bool :=
  let durability := from_mailbox_state state in
  if negb (d_allows_reads durability) then true
  else if negb (is_degraded durability) then false
  else
    let only_archive_parity_failures :=
      forallb (fun p => ustr_eqb (probe_name p) (u "archive_db_parity"))
        (List.filter (fun p => negb (passed p)) probes) in
    negb (only_archive_parity_failures && bool_decide (drift = DbAhead)).

(** @src db/src/mailbox_verdict.rs:680-703 verdict_prefers_archive_snapshot_reads_for_primary_read_surface
    -- [primary_healthy] is the answer of the live read check. *)
Definition verdict_prefers_archive_snapshot_reads_for_primary (state : MailboxState)
    (probes : list ProbeResult) (drift : ArchiveDrift) (primary_healthy : bool) : bool :=
  if negb (verdict_prefers_archive_snapshot_reads state probes drift) then false
  else
    let only_db_sanity_failures :=
      forallb (fun p => ustr_eqb (probe_name p) (u "db_sanity"))
        (List.filter (fun p => negb (passed p)) probes) in
    negb (only_db_sanity_failures && primary_healthy).

(** @src db/src/pool.rs:84-91 MailboxRecoveryLockState *)
Record RecoveryLockState := mkRecoveryLock {
  rl_exists : bool;
  rl_active : bool;
  rl_pid : option Z;
  rl_detail : ustr;
}.

(** @src db/src/pool.rs:93-101 MailboxOwnershipDisposition *)
Inductive OwnershipDisposition :=
| Unowned | ActiveOtherOwner | StaleLiveProcess | DeletedExecutable | SplitBrain.

(** @src db/src/pool.rs:121-138 MailboxOwnershipState
    -- the processes by pid. *)
Record OwnershipState := mkOwnership {
  disposition : OwnershipDisposition;
  process_pids : list Z;
  competing_pids : list Z;
  own_detail : ustr;
}.

(** @src db/src/pool.rs:140-145 MailboxOwnershipState::blocks_mutation *)
Definition blocks_mutation (o : OwnershipState) : bool :=
  match disposition o with Unowned => false | _ => true end.

(** @src db/src/mailbox_verdict.rs:1175-1188 probe_recovery_lock *)
Definition probe_recovery_lock (l : RecoveryLockState) : ProbeResult :=
  if rl_active l then probe_warn_state (u "recovery_lock") (rl_detail l) MRecovering
  else if rl_exists l then probe_warn (u "recovery_lock") (rl_detail l)
  else probe_ok (u "recovery_lock") (rl_detail l).

(** @src db/src/mailbox_verdict.rs:1190-1206 probe_mailbox_ownership *)
Definition probe_mailbox_ownership (o : OwnershipState) : ProbeResult :=
  match disposition o with
  | Unowned => probe_ok (u "mailbox_ownership") (own_detail o)
  | ActiveOtherOwner => probe_warn_state (u "mailbox_ownership") (own_detail o) MSuspect
  | StaleLiveProcess | DeletedExecutable | SplitBrain =>
      probe_fatal (u "mailbox_ownership") (own_detail o)
  end.

(** ** Properties *)

Lemma m_severity_inj a b : m_severity a = m_severity b -> a = b.
Proof. destruct a, b; simpl; try done; lia. Qed.

Lemma m_max_spec a b : m_severity (m_max_severity a b) = Z.max (m_severity a) (m_severity b).
Proof. unfold m_max_severity. destruct (Z.leb_spec (m_severity b) (m_severity a)); lia. Qed.

(** The worst impact among the failed probes, 0 when there is none. *)
Definition worst_impact (probes : list ProbeResult) : Z :=
  foldr (fun p n => Z.max (if passed p then 0 else m_severity (impact_state p)) n) 0 probes.

Lemma m_severity_nonneg s : 0 <= m_severity s <= 6.
Proof. destruct s; simpl; lia. Qed.

Lemma worst_impact_nonneg probes : 0 <= worst_impact probes.
Proof. induction probes; simpl; lia. Qed.

Lemma fold_probes_worst probes : forall s,
  m_severity (foldl (fun state probe =>
    if passed probe then state else m_max_severity state (impact_state probe)) s probes)
  = Z.max (m_severity s) (worst_impact probes).
Proof.
  induction probes as [|p probes IH]; intros s; simpl.
  - pose proof (m_severity_nonneg s). lia.
  - rewrite IH. pose proof (m_severity_nonneg s). destruct (passed p); rewrite ?m_max_spec; lia.
Qed.

Lemma worst_impact_zero probes :
  worst_impact probes = 0 <-> Forall (fun p => passed p = true \/ impact_state p = MHealthy) probes.
Proof.
  induction probes as [|p probes IH]; simpl; [split; [constructor|done]|].
  rewrite Forall_cons, <- IH. pose proof (worst_impact_nonneg probes).
  pose proof (m_severity_nonneg (impact_state p)).
  destruct (passed p); [split; [intros ?; split; [by left|lia]|intros [_ ?]; lia]|].
  assert (m_severity (impact_state p) = 0 <-> impact_state p = MHealthy) as Hz by (by destruct (impact_state p)).
  split; [intros ?; split; [right; apply Hz|]; lia|intros [[?|?%Hz] ?]; [done|lia]].
Qed.

Lemma worst_impact_perm probes probes' :
  probes ≡ₚ probes' -> worst_impact probes = worst_impact probes'.
Proof. induction 1; simpl; lia. Qed.

(** The verdict gates writes and reads on the evidence.  Writes are allowed
    exactly when every probe passed (or reported no impact) and nobody holds
    the recovery lock; the verdict does not depend on the order of the probes;
    an active recovery is reported as such unless the evidence is worse; and
    collapsing to the runtime states changes neither gate and never lowers the
    severity order. *)
Theorem mailbox_verdict_gates probes probes' lock :
  probes ≡ₚ probes' ->
  let s := compute_state_from_probes probes lock in
  s = compute_state_from_probes probes' lock /\
  (m_allows_writes s = true <->
     lock = false /\ Forall (fun p => passed p = true \/ impact_state p = MHealthy) probes) /\
  (lock = true -> s = MRecovering \/ m_severity MBroken <= m_severity s) /\
  d_allows_writes (from_mailbox_state s) = m_allows_writes s /\
  d_allows_reads (from_mailbox_state s) = m_allows_reads s /\
  (forall t, m_severity s <= m_severity t ->
     d_severity (from_mailbox_state s) <= d_severity (from_mailbox_state t)).
Proof.
  intros Hp s.
  pose proof (worst_impact_perm _ _ Hp) as Hw.
  set (f := foldl (fun state probe =>
    if passed probe then state else m_max_severity state (impact_state probe)) MHealthy).
  assert (forall l, m_severity (f l) = worst_impact l) as Hf.
  { intros l. unfold f. rewrite fold_probes_worst. pose proof (worst_impact_nonneg l). simpl. lia. }
  assert (f probes = f probes') as Hff by (apply m_severity_inj; by rewrite !Hf).
  split_and!.
  - unfold s, compute_state_from_probes. fold f. by rewrite Hff.
  - rewrite <- worst_impact_zero, <- Hf. unfold s, compute_state_from_probes. fold f.
    destruct (f probes), lock; simpl; split; try done; intros [? ?]; done.
  - intros ->. unfold s, compute_state_from_probes. fold f. destruct (f probes); simpl; auto; right; lia.
  - by destruct s.
  - by destruct s.
  - intros t. by destruct s, t.
Qed.

(** A run of the runtime machine, every step validated. *)
Definition valid_path (path : list DurabilityState) : Prop :=
  forall i a b, path !! i = Some a -> path !! S i = Some b ->
    exists trigger, validate_durability_transition a b = inl trigger.

Definition valid_step (a b : DurabilityState) : bool :=
  match validate_durability_transition a b with inl _ => true | inr _ => false end.

Lemma recovering_before a path : forall j,
  a = DCorrupt -> valid_path (a :: path) ->
  (exists b, (a :: path) !! j = Some b /\ d_allows_reads b = true) ->
  exists k, (0 < k < j)%nat /\ (a :: path) !! k = Some DRecovering.
Proof.
  revert a. induction path as [|b path IH]; intros a j -> Hv (r & Hj & Hr).
  { destruct j as [|[|j]]; simpl in Hj; [by injection Hj as <-|done|done]. }
  destruct j as [|j]; [by injection Hj as <-|].
  destruct (Hv 0%nat DCorrupt b eq_refl eq_refl) as [t Ht].
  assert (valid_path (b :: path)) as Hv' by (intros i x y Hx Hy; by apply (Hv (S i))).
  destruct b; vm_compute in Ht; try discriminate Ht.
  - exists 1%nat. split; [|done]. destruct j; [simpl in Hj; by injection Hj as <-|lia].
  - destruct (IH DCorrupt j eq_refl Hv') as (k & Hk & Hl); [by exists r|]. exists (S k). split; [lia|done].
Qed.

(** A corrupt mailbox comes back only through recovery.  Along any run of
    validated transitions, whenever reads are allowed again after the corrupt
    state, the recovering state lies strictly in between; recovery is entered
    exactly from the states that allow it to start; and writes are reached only
    from a degraded or a recovering state. *)
Theorem corrupt_exits_through_recovery path i j b :
  valid_path path -> path !! i = Some DCorrupt -> path !! j = Some b -> (i <= j)%nat ->
  d_allows_reads b = true ->
  (exists k, (i < k < j)%nat /\ path !! k = Some DRecovering) /\
  (forall a, a <> DRecovering -> valid_step a DRecovering = d_allows_recovery_start a) /\
  (forall a, a <> DHealthy -> valid_step a DHealthy = true -> a = DDegradedReadOnly \/ a = DRecovering).
Proof.
  intros Hv Hi Hj Hij Hb. split_and!; [|by intros []|intros []; try done; auto].
  assert (drop i path = DCorrupt :: drop (S i) path) as Hd by (by apply drop_S).
  assert (valid_path (DCorrupt :: drop (S i) path)) as Hv'.
  { rewrite <- Hd. intros k x y. rewrite !lookup_drop. replace (i + S k)%nat with (S (i + k)) by lia. apply Hv. }
  destruct (recovering_before DCorrupt (drop (S i) path) (j - i) eq_refl Hv') as (k & Hk & Hl).
  { exists b. split; [|done]. rewrite <- Hd, lookup_drop. by replace (i + (j - i))%nat with j by lia. }
  rewrite <- Hd, lookup_drop in Hl. exists (i + k)%nat. split; [lia|done].
Qed.

(** ** Witnesses *)

Lemma mailbox_verdict_gates_witness :
  let probes := [probe_ok (u "schema") []; probe_warn (u "sidecar") []; probe_error (u "integrity") []] in
  compute_state_from_probes probes true = MBroken /\
  d_allows_reads (from_mailbox_state (compute_state_from_probes probes true)) = false.
Proof.
  intros probes. split; [vm_compute; reflexivity|].
  destruct (mailbox_verdict_gates probes probes true (Permutation_refl _)) as (_ & _ & _ & _ & Hr & _).
  rewrite Hr. vm_compute; reflexivity.
Defined.

Lemma corrupt_exits_through_recovery_witness :
  exists k, (1 < k < 3)%nat /\ [DHealthy; DCorrupt; DRecovering; DHealthy] !! k = Some DRecovering.
Proof.
  refine (proj1 (corrupt_exits_through_recovery [DHealthy; DCorrupt; DRecovering; DHealthy] 1 3 DHealthy _ _ _ _ _)).
  - intros i a b Ha Hb. destruct i as [|[|[|i]]]; simpl in Ha, Hb; try discriminate;
      injection Ha as <-; injection Hb as <-; eexists; vm_compute; reflexivity.
  - reflexivity.
  - reflexivity.
  - lia.
  - reflexivity.
Defined.
