(* ===== verification/WriteRoute.v ===== *)
(** * Write routing and recovery approval ([db/src/pool.rs])

    Every mutating surface asks [evaluate_write_route] before it writes: the
    durability state, the ownership of the mailbox and the recovery lock decide
    whether the write proceeds, is deferred to the queue, or is refused. *)

From S2P Require Import Prelude.
From S2P Require Import RustStr.
From S2P Require Import DeferredQueue.
From S2P Require Import MailboxVerdict.

(** @src db/src/pool.rs:2522-2542 MutatingSurface *)
Inductive MutatingSurface := McpServer | Cli | Robot | Supervisor | Migration | TestHarness.

(** @src db/src/pool.rs:2545-2556 MutatingSurface::label *)
Definition surface_label (s : MutatingSurface) : ustr :=
  match s with
  | McpServer => u "mcp_server" | Cli => u "cli" | Robot => u "robot"
  | Supervisor => u "supervisor" | Migration => u "migration" | TestHarness => u "test"
  end.

(** @src db/src/pool.rs:2558-2566 MutatingSurface::is_authority *)
Definition is_authority (s : MutatingSurface) : bool :=
  match s with Supervisor | Migration => true | _ => false end.

(** @src db/src/pool.rs:2575-2598 WriteRouteDisposition *)
Inductive WriteRoute := Permitted | Deferred | Refused (reason : ustr).

(** @src db/src/pool.rs:2600-2618 is_permitted, is_deferred, is_refused *)
Definition is_permitted (r : WriteRoute) : bool := match r with Permitted => true | _ => false end.
Definition is_deferred (r : WriteRoute) : bool := match r with Deferred => true | _ => false end.
Definition is_refused (r : WriteRoute) : bool := match r with Refused _ => true | _ => false end.

(** The room test on a status of the queue, made in two places. *)
Definition queue_has_room (st : QueueStatus) : bool :=
  st_active st && negb (st_sealed st) && (st_queued st <? st_capacity st).

(** @src db/src/pool.rs:2620-2721 evaluate_write_route
    -- [st] is the status of the process-wide queue when it is read. *)
Definition evaluate_write_route (surface : MutatingSurface) (ownership : OwnershipState)
    (durability : DurabilityState) (recovery_lock : RecoveryLockState) (st : QueueStatus) : WriteRoute :=
  let authority := is_authority surface in
  if negb (d_allows_writes durability) then
    if authority then Permitted
    else if queue_has_room st then Deferred
    else Refused (u "Mailbox is " ++ durability_as_str durability
           ++ u " and writes are not permitted. Run `am doctor repair` to attempt recovery.")
  else if blocks_mutation ownership && negb authority then
    match disposition ownership with
    | ActiveOtherOwner =>
        Refused (u "Another active process owns this mailbox (pid "
          ++ join (u ", ") (map dec (process_pids ownership))
          ++ u "). Route writes through that process or stop it first.")
    | SplitBrain =>
        Refused (u "Split-brain detected: " ++ dec (Z.of_nat (length (competing_pids ownership)))
          ++ u " competing processes hold locks. Stop all competing processes and run `am doctor repair`.")
    | StaleLiveProcess =>
        Refused (u "A stale process appears to hold the mailbox lock. Run `am doctor repair` to clean up stale locks.")
    | DeletedExecutable =>
        Refused (u "A process with a deleted executable holds the mailbox lock. Kill the orphan process or run `am doctor repair`.")
    | Unowned => Permitted
    end
  else if rl_active recovery_lock && negb authority then
    if queue_has_room st then Deferred
    else
      let holder := match rl_pid recovery_lock with
                    | Some pid => u "pid " ++ dec pid
                    | None => u "unknown"
                    end in
      Refused (u "Recovery lock held by " ++ holder ++ u "; writes are blocked until recovery completes.")
  else Permitted.

(** @src db/src/pool.rs:151-171 RecoveryApproval *)
Inductive RecoveryApproval := SilentSelfHeal | ExplicitEscalation.

(** @src db/src/pool.rs:173-254 RecoveryAction *)
Inductive RecoveryAction :=
| WalCheckpointPassive | WalCheckpointTruncate | StaleLockCleanup | EmptyWalSidecarCleanup
| ConnectionPoolRefresh | IndexRebuild | InboxStatsRebuild | RestoreFromProactiveBackup
| CreateProactiveBackup
| ReconstructFromArchive | DeleteCorruptDb | ForceUnlockContested | SchemaMigration
| PromoteReconstructedCandidate | ReinitializeBlank.

#[export] Instance RecoveryAction_eq_dec : EqDecision RecoveryAction.
Proof. solve_decision. Defined.

(** @src db/src/pool.rs:257-280 RecoveryAction::approval *)
Definition approval (a : RecoveryAction) : RecoveryApproval :=
  match a with
  | WalCheckpointPassive | WalCheckpointTruncate | StaleLockCleanup | EmptyWalSidecarCleanup
  | ConnectionPoolRefresh | IndexRebuild | InboxStatsRebuild | RestoreFromProactiveBackup
  | CreateProactiveBackup => SilentSelfHeal
  | ReconstructFromArchive | DeleteCorruptDb | ForceUnlockContested | SchemaMigration
  | PromoteReconstructedCandidate | ReinitializeBlank => ExplicitEscalation
  end.

(** @src db/src/pool.rs:282-292 is_silent, requires_escalation *)
Definition is_silent (a : RecoveryAction) : bool :=
  match approval a with SilentSelfHeal => true | _ => false end.
Definition requires_escalation (a : RecoveryAction) : bool :=
  match approval a with ExplicitEscalation => true | _ => false end.

(** @src db/src/pool.rs:294-314 RecoveryAction::label *)
Definition action_label (a : RecoveryAction) : ustr :=
  match a with
  | WalCheckpointPassive => u "wal_checkpoint_passive"
  | WalCheckpointTruncate => u "wal_checkpoint_truncate"
  | StaleLockCleanup => u "stale_lock_cleanup"
  | EmptyWalSidecarCleanup => u "empty_wal_sidecar_cleanup"
  | ConnectionPoolRefresh => u "connection_pool_refresh"
  | IndexRebuild => u "index_rebuild"
  | InboxStatsRebuild => u "inbox_stats_rebuild"
  | RestoreFromProactiveBackup => u "restore_from_proactive_backup"
  | CreateProactiveBackup => u "create_proactive_backup"
  | ReconstructFromArchive => u "reconstruct_from_archive"
  | DeleteCorruptDb => u "delete_corrupt_db"
  | ForceUnlockContested => u "force_unlock_contested"
  | SchemaMigration => u "schema_migration"
  | PromoteReconstructedCandidate => u "promote_reconstructed_candidate"
  | ReinitializeBlank => u "reinitialize_blank"
  end.

(** @src db/src/pool.rs:367-408 ALL, SILENT, ESCALATED *)
Definition actions_all : list RecoveryAction :=
  [WalCheckpointPassive; WalCheckpointTruncate; StaleLockCleanup; EmptyWalSidecarCleanup;
   ConnectionPoolRefresh; IndexRebuild; InboxStatsRebuild; RestoreFromProactiveBackup;
   CreateProactiveBackup; ReconstructFromArchive; DeleteCorruptDb; ForceUnlockContested;
   SchemaMigration; PromoteReconstructedCandidate; ReinitializeBlank].
Definition actions_silent : list RecoveryAction :=
  [WalCheckpointPassive; WalCheckpointTruncate; StaleLockCleanup; EmptyWalSidecarCleanup;
   ConnectionPoolRefresh; IndexRebuild; InboxStatsRebuild; RestoreFromProactiveBackup;
   CreateProactiveBackup].
Definition actions_escalated : list RecoveryAction :=
  [ReconstructFromArchive; DeleteCorruptDb; ForceUnlockContested; SchemaMigration;
   PromoteReconstructedCandidate; ReinitializeBlank].

(** ** Properties *)

(** The published lists agree with the classification: they partition all the
    actions. *)
Lemma actions_partition :
  actions_silent = List.filter is_silent actions_all /\
  actions_escalated = List.filter requires_escalation actions_all /\
  (forall a, In a actions_all) /\ NoDup actions_all /\
  (forall a, is_silent a = negb (requires_escalation a)).
Proof.
  split_and!; [reflexivity|reflexivity|intros []; simpl; tauto| |by intros []].
  apply (bool_decide_unpack _). vm_compute. exact I.
Qed.

(** A write may go straight to the database. *)
Definition route_clear (o : OwnershipState) (d : DurabilityState) (l : RecoveryLockState) : Prop :=
  d = DHealthy /\ disposition o = Unowned /\ rl_active l = false.

Lemma room_enqueue q now sql params op :
  queue_has_room (queue_status q now) = true ->
  is_active q = true /\ Z.of_nat (length (entries q)) < max_entries (q_policy q) /\
  (too_old q now = None -> unfair q op = None ->
   estimated_bytes q + estimate_deferred_write_bytes sql params <= max_bytes (q_policy q) ->
   fst (enqueue sql params op now q) = Queued (next_seq q)).
Proof.
  unfold queue_has_room. simpl. intros Hr. breflect. split_and!; [|done|].
  - unfold is_active. by rewrite H, H1.
  - intros Ho Hu Hb. unfold enqueue. rewrite H, H1, Ho, Hu. cbn [negb].
    destruct (Z.ltb_spec (max_bytes (q_policy q))
      (Z.min (estimated_bytes q + estimate_deferred_write_bytes sql params) usize_max)); [lia|].
    destruct (Z.leb_spec (max_entries (q_policy q)) (Z.of_nat (length (entries q)))); [lia|done].
Qed.

(** No ordinary write slips past recovery.  A surface that is not an
    authority is permitted exactly when the mailbox is healthy, unowned by
    others and not under recovery; the supervisor and the migration are always
    permitted; a write is deferred only while the queue is open with room, so
    that an immediate [enqueue] within the age, byte and fairness budgets takes
    it, and never because of an ownership conflict. *)
Theorem write_route_gate surface o d l q now sql params op :
  let r := evaluate_write_route surface o d l (queue_status q now) in
  (is_authority surface = true -> r = Permitted) /\
  (is_authority surface = false -> (r = Permitted <-> route_clear o d l)) /\
  (r = Deferred ->
     is_authority surface = false /\
     (d <> DHealthy \/ (disposition o = Unowned /\ rl_active l = true)) /\
     is_active q = true /\ Z.of_nat (length (entries q)) < max_entries (q_policy q) /\
     (too_old q now = None -> unfair q op = None ->
      estimated_bytes q + estimate_deferred_write_bytes sql params <= max_bytes (q_policy q) ->
      fst (enqueue sql params op now q) = Queued (next_seq q))).
Proof.
  intros r. pose proof (room_enqueue q now sql params op) as Hroom.
  unfold r, evaluate_write_route, blocks_mutation, route_clear.
  destruct (queue_has_room (queue_status q now)), (is_authority surface), d, (disposition o), (rl_active l);
    cbn [negb andb d_allows_writes];
    (split_and!; [done|intros ?; split; [done|intros (? & ? & ?); done]|intros Hd; try discriminate Hd]);
    (split; [done|]); (split; [|by apply Hroom]); auto; by left.
Qed.

(** A recovery in progress on a healthy database: the write is deferred and the
    queue takes it. *)
Lemma write_route_gate_witness :
  let q := activate (queue_new 10) in
  let lock := mkRecoveryLock true true (Some 42) [] in
  evaluate_write_route Cli (mkOwnership Unowned [] [] []) DHealthy lock (queue_status q 5) = Deferred /\
  fst (enqueue (u "INSERT") [] (u "send") 5 q) = Queued 0 /\
  evaluate_write_route Supervisor (mkOwnership SplitBrain [] [] []) DCorrupt lock (queue_status q 5) = Permitted.
Proof.
  intros q lock.
  destruct (write_route_gate Cli (mkOwnership Unowned [] [] []) DHealthy lock q 5 (u "INSERT") [] (u "send"))
    as (_ & _ & Hd).
  assert (evaluate_write_route Cli (mkOwnership Unowned [] [] []) DHealthy lock (queue_status q 5) = Deferred) as E
    by (vm_compute; reflexivity).
  split; [exact E|]. destruct (Hd E) as (_ & _ & _ & _ & Hq).
  split; [apply Hq; [reflexivity|vm_compute; reflexivity|vm_compute; discriminate]|].
  destruct (write_route_gate Supervisor (mkOwnership SplitBrain [] [] []) DCorrupt lock q 5 [] [] [])
    as (Hs & _). apply Hs. reflexivity.
Defined.
