(* ===== verification/RecoveryAdmission.v ===== *)
(** * Recovery admission ([db/src/pool.rs])

    The process-wide controller of automatic recoveries: one at a time, with
    exponential backoff after failures and a suppression window when attempts
    keep failing or keep succeeding without converging.  Instants and durations
    are nanoseconds of the monotonic clock; paths are strings. *)

From S2P Require Import Prelude.
From S2P Require Import RustStr.

Definition ms (n : Z) : Z := n * 1000000.
Definition secs (n : Z) : Z := n * 1000000000.

(** @src db/src/pool.rs:500-532 MAX_ATTEMPTS_IN_WINDOW, SUPPRESSION_WINDOW, MAX_SUCCESSFUL_RECONSTRUCTS_IN_WINDOW, BACKOFF_BASE, BACKOFF_CAP *)
Definition MAX_ATTEMPTS_IN_WINDOW : nat := 5.
Definition SUPPRESSION_WINDOW : Z := secs 300.
Definition MAX_SUCCESSFUL_RECONSTRUCTS_IN_WINDOW : nat := 5.
Definition BACKOFF_BASE : Z := secs 2.
Definition BACKOFF_CAP : Z := secs 120.

(** @src db/src/pool.rs:430-496 RecoveryAdmissionController, RecoveryAdmissionState *)
Record Admission := mkAdmission {
  in_progress : bool;
  failure_path : option ustr;
  consecutive_failures : Z;
  last_failure_reason : option ustr;
  last_attempt : option Z;
  window_attempts : list Z;
  success_path : option ustr;
  recent_successes : list Z;
  suppressed_until : option Z;
}.

(** @src db/src/pool.rs:534-550 RecoveryAdmissionController::new *)
Definition admission_new : Admission := mkAdmission false None 0 None None [] None [] None.

(** @src db/src/pool.rs:752-770 RecoveryAdmissionController::backoff_delay *)
Definition backoff_delay (failures : Z) : Z :=
  if failures =? 0 then 0
  else
    let exponent := Z.min (failures - 1) 30 in
    let delay := ms (BACKOFF_BASE / 1000000 * Z.shiftl 1 exponent) in
    if BACKOFF_CAP <? delay then BACKOFF_CAP else delay.

(** @src db/src/pool.rs:788-797 RecoveryAdmissionController::prune_window *)
Fixpoint prune_window (window : list Z) (now : Z) : list Z :=
  match window with
  | front :: rest =>
      if SUPPRESSION_WINDOW <? usat_sub now front then prune_window rest now else window
  | [] => []
  end.

(** The first critical section of [try_acquire]: may this path try now? *)
Definition admission_check (s : Admission) (primary_path : ustr) (now : Z) : bool :=
  let same_failure_path := bool_decide (failure_path s = Some primary_path) in
  negb (same_failure_path
        && match suppressed_until s with Some until => now <? until | None => false end)
  && negb (same_failure_path && (0 <? consecutive_failures s)
           && match last_attempt s with
              | Some last => usat_sub now last <? backoff_delay (consecutive_failures s)
              | None => false
              end).

(** Its compare-and-exchange. *)
Definition set_in_progress (b : bool) (s : Admission) : Admission :=
  mkAdmission b (failure_path s) (consecutive_failures s) (last_failure_reason s) (last_attempt s)
    (window_attempts s) (success_path s) (recent_successes s) (suppressed_until s).

(** Its second critical section: another path forgets this one's failures. *)
Definition rotate_path (primary_path : ustr) (s : Admission) : Admission :=
  match failure_path s with
  | Some path =>
      if bool_decide (path = primary_path) then s
      else mkAdmission (in_progress s) None 0 None None [] (success_path s) (recent_successes s) None
  | None => s
  end.

(** @src db/src/pool.rs:552-638 RecoveryAdmissionController::try_acquire
    -- a whole call with nothing in between: whether the guard is returned. *)
Definition try_acquire (primary_path : ustr) (now : Z) (s : Admission) : bool * Admission :=
  if negb (admission_check s primary_path now) then (false, s)
  else if in_progress s then (false, s)
  else (true, rotate_path primary_path (set_in_progress true s)).

(** @src db/src/pool.rs:640-704 RecoveryAdmissionController::report_success *)
Definition report_success (primary_path : ustr) (now : Z) (s : Admission) : Admission :=
  let recent := if bool_decide (success_path s = Some primary_path) then recent_successes s else [] in
  let recent := prune_window recent now ++ [now] in
  if (MAX_SUCCESSFUL_RECONSTRUCTS_IN_WINDOW <=? length recent)%nat then
    mkAdmission (in_progress s) (Some primary_path) 0 None (Some now) [] (Some primary_path) recent
      (Some (now + SUPPRESSION_WINDOW))
  else
    mkAdmission (in_progress s) None 0 None (Some now) [] (Some primary_path) recent None.

(** @src db/src/pool.rs:706-750 RecoveryAdmissionController::report_failure *)
Definition report_failure (primary_path reason : ustr) (now : Z) (s : Admission) : Admission :=
  let s := if bool_decide (failure_path s = Some primary_path) then s
           else mkAdmission (in_progress s) (Some primary_path) 0 (last_failure_reason s) None []
                  (success_path s) (recent_successes s) None in
  let window := prune_window (window_attempts s) now ++ [now] in
  mkAdmission (in_progress s) (failure_path s) (u32sat_add (consecutive_failures s) 1)
    (Some (bounded_text 600 (trim reason))) (Some now) window (success_path s) (recent_successes s)
    (if (MAX_ATTEMPTS_IN_WINDOW <=? length window)%nat
     then Some (now + SUPPRESSION_WINDOW) else suppressed_until s).

(** @src db/src/pool.rs:826-832 RecoveryGuard::drop *)
Definition guard_drop (s : Admission) : Admission := set_in_progress false s.

(** @src db/src/pool.rs:799-812 RecoveryAdmissionController::reset *)
Definition admission_reset (s : Admission) : Admission :=
  mkAdmission false None 0 None None [] None [] None.

(** @src db/src/pool.rs:834-853 RecoveryAdmissionStatus *)
Record AdmissionStatus := mkAdmStatus {
  as_in_progress : bool;
  as_consecutive_failures : Z;
  as_last_failure_reason : option ustr;
  as_attempts_in_window : nat;
  as_successes_in_window : nat;
  as_suppressed : bool;
  as_current_backoff : Z;
}.

(** @src db/src/pool.rs:772-786 RecoveryAdmissionController::status *)
Definition admission_status (now : Z) (s : Admission) : AdmissionStatus :=
  {| as_in_progress := in_progress s; as_consecutive_failures := consecutive_failures s;
     as_last_failure_reason := last_failure_reason s;
     as_attempts_in_window := length (window_attempts s);
     as_successes_in_window := length (recent_successes s);
     as_suppressed := match suppressed_until s with Some until => now <? until | None => false end;
     as_current_backoff := backoff_delay (consecutive_failures s) |}.

(** ** Interleavings

    A thread between two of its atomic sections is in [callers]; a thread that
    holds the guard is in [holders]. *)

Inductive caller_phase := Checked (path : ustr) | Won (path : ustr).

Record AdmissionWorld := mkWorld {
  adm : Admission;
  callers : gmap nat caller_phase;
  holders : gset nat;
}.

Inductive admission_label :=
  | ACheck (tid : nat) (path : ustr) (now : Z)
  | ACas (tid : nat) (won : bool)
  | ARotate (tid : nat)
  | ASuccess (tid : nat) (path : ustr) (now : Z)
  | AFailure (tid : nat) (path reason : ustr) (now : Z)
  | ADrop (tid : nat).

Inductive admission_step : AdmissionWorld -> admission_label -> AdmissionWorld -> Prop :=
  | as_check w tid path now :
      callers w !! tid = None -> tid ∉ holders w ->
      admission_step w (ACheck tid path now)
        (if admission_check (adm w) path now
         then mkWorld (adm w) (<[tid := Checked path]> (callers w)) (holders w) else w)
  | as_cas_won w tid path :
      callers w !! tid = Some (Checked path) -> in_progress (adm w) = false ->
      admission_step w (ACas tid true)
        (mkWorld (set_in_progress true (adm w)) (<[tid := Won path]> (callers w)) (holders w))
  | as_cas_lost w tid path :
      callers w !! tid = Some (Checked path) -> in_progress (adm w) = true ->
      admission_step w (ACas tid false) (mkWorld (adm w) (delete tid (callers w)) (holders w))
  | as_rotate w tid path :
      callers w !! tid = Some (Won path) ->
      admission_step w (ARotate tid)
        (mkWorld (rotate_path path (adm w)) (delete tid (callers w)) ({[tid]} ∪ holders w))
  | as_success w tid path now :
      tid ∈ holders w ->
      admission_step w (ASuccess tid path now)
        (mkWorld (report_success path now (adm w)) (callers w) (holders w))
  | as_failure w tid path reason now :
      tid ∈ holders w ->
      admission_step w (AFailure tid path reason now)
        (mkWorld (report_failure path reason now (adm w)) (callers w) (holders w))
  | as_drop w tid :
      tid ∈ holders w ->
      admission_step w (ADrop tid) (mkWorld (guard_drop (adm w)) (callers w) (holders w ∖ {[tid]})).

#[export] Instance admission_lts : LTS AdmissionWorld admission_label :=
  { lts_init w := w = mkWorld admission_new ∅ ∅; lts_step := admission_step }.

(** A thread that passed the compare-and-exchange and has not dropped the guard. *)
Definition in_flight (w : AdmissionWorld) (tid : nat) : Prop :=
  tid ∈ holders w \/ exists path, callers w !! tid = Some (Won path).

(** ** Single flight *)

Definition flight_inv (w : AdmissionWorld) : Prop :=
  (forall t1 t2, in_flight w t1 -> in_flight w t2 -> t1 = t2) /\
  (in_progress (adm w) = true <-> exists t, in_flight w t) /\
  (forall t, t ∈ holders w -> callers w !! t = None).

Lemma report_keeps_progress path now s : in_progress (report_success path now s) = in_progress s.
Proof. unfold report_success. by destruct (_ <=? _)%nat. Qed.

Lemma failure_keeps_progress path reason now s : in_progress (report_failure path reason now s) = in_progress s.
Proof. unfold report_failure. by destruct (bool_decide _). Qed.

Lemma rotate_keeps_progress path s : in_progress (rotate_path path s) = in_progress s.
Proof. unfold rotate_path. destruct (failure_path s); [|done]. by destruct (bool_decide _). Qed.

Lemma in_flight_insert_checked w tid path t :
  callers w !! tid = None ->
  in_flight (mkWorld (adm w) (<[tid := Checked path]> (callers w)) (holders w)) t <-> in_flight w t.
Proof.
  intros Hn. unfold in_flight. simpl. split; (intros [Hh|[p Hp]]; [by left|right]).
  - apply lookup_insert_Some in Hp as [[_ ?]|[_ Hp]]; [done|by exists p].
  - exists p. rewrite lookup_insert_ne; [done|congruence].
Qed.

Lemma flight_step w l w' : flight_inv w -> lts_step w l w' -> flight_inv w'.
Proof.
  intros (Hu & Hp & Hd) Hs.
  destruct Hs as [w tid path now Hn Hh|w tid path Hc Hi|w tid path Hc Hi|w tid path Hc
                 |w tid path now Hh|w tid path reason now Hh|w tid Hh].
  - destruct (admission_check (adm w) path now); [|done]. unfold flight_inv.
    setoid_rewrite (in_flight_insert_checked w tid path _ Hn). split_and!; [done|done|].
    simpl. intros t Ht. rewrite lookup_insert_ne; [by apply Hd|intros ->; done].
  - assert (forall t, ~ in_flight w t) as Hno.
    { intros t Ht. assert (in_progress (adm w) = true) by (apply Hp; by exists t). congruence. }
    assert (forall t, in_flight (mkWorld (set_in_progress true (adm w))
      (<[tid:=Won path]> (callers w)) (holders w)) t -> t = tid) as Hone.
    { intros t [Ht|[p Ht]]; simpl in *; [by destruct (Hno t); left|].
      apply lookup_insert_Some in Ht as [[? _]|[_ Ht]]; [done|]. destruct (Hno t). right. by exists p. }
    split_and!.
    + intros t1 t2 ->%Hone ->%Hone. done.
    + simpl. split; [|done]. intros _. exists tid. right. exists path. apply lookup_insert_eq.
    + simpl. intros t Ht. destruct (Hno t). by left.
  - assert (forall t, in_flight (mkWorld (adm w) (delete tid (callers w)) (holders w)) t <-> in_flight w t) as He.
    { intros t. unfold in_flight. simpl. split; (intros [Ht|[p Ht]]; [by left|right]).
      - apply lookup_delete_Some in Ht as [_ Ht]. by exists p.
      - exists p. rewrite lookup_delete_ne; [done|congruence]. }
    unfold flight_inv. setoid_rewrite He. split_and!; [done|done|].
    simpl. intros t Ht. apply lookup_delete_None. right. by apply Hd.
  - assert (forall t, in_flight (mkWorld (rotate_path path (adm w)) (delete tid (callers w))
      ({[tid]} ∪ holders w)) t <-> in_flight w t) as He.
    { intros t. unfold in_flight. simpl. rewrite elem_of_union, elem_of_singleton. split.
      - intros [[->|Ht]|[p Ht]]; [right; by exists path|by left|].
        apply lookup_delete_Some in Ht as [_ Ht]. right. by exists p.
      - intros [Ht|[p Ht]]; [left; by right|]. destruct (decide (tid = t)) as [->|Hne]; [left; by left|].
        right. exists p. by rewrite lookup_delete_ne. }
    unfold flight_inv. setoid_rewrite He. simpl. rewrite rotate_keeps_progress. split_and!; [done|done|].
    intros t. rewrite elem_of_union, elem_of_singleton. intros [->|Ht]; [apply lookup_delete_eq|].
    apply lookup_delete_None. right. by apply Hd.
  - unfold flight_inv. cbn [adm callers holders]. by rewrite report_keeps_progress.
  - unfold flight_inv. cbn [adm callers holders]. by rewrite failure_keeps_progress.
  - assert (forall t, ~ in_flight (mkWorld (guard_drop (adm w)) (callers w) (holders w ∖ {[tid]})) t) as Hno.
    { intros t [Ht|[p Ht]]; simpl in *.
      - apply elem_of_difference in Ht as [Ht Hne]. destruct Hne. apply elem_of_singleton. apply Hu; by left.
      - assert (t = tid) as -> by (apply Hu; [right; by exists p|by left]). by rewrite (Hd tid Hh) in Ht. }
    split_and!.
    + intros t1 t2 H1. by destruct (Hno t1).
    + simpl. split; [done|]. intros [t Ht]. by destruct (Hno t).
    + simpl. intros t Ht. apply elem_of_difference in Ht as [Ht _]. by apply Hd.
Qed.

Lemma flight_reachable w : reachable w -> flight_inv w.
Proof.
  apply invariant_reachable. split; [|intros w0 l w1; apply flight_step].
  intros w0 ->. unfold flight_inv, in_flight. simpl. split_and!.
  - intros t1 t2 [Ht|[p Ht]]; [set_solver|done].
  - split; [done|]. intros [t [Ht|[p Ht]]]; [set_solver|done].
  - set_solver.
Qed.

(** One recovery at a time.  In every interleaving of the atomic sections
    of concurrent callers, whatever they report, at most one of them is past
    the admission and still holds its guard, and the flag others test says
    exactly whether there is one. *)
Theorem recovery_single_flight w :
  reachable w ->
  (forall t1 t2, in_flight w t1 -> in_flight w t2 -> t1 = t2) /\
  (in_progress (adm w) = true <-> exists t, in_flight w t).
Proof. intros Hr. destruct (flight_reachable w Hr) as (Hu & Hp & _). by split. Qed.

(** The check and the compare-and-exchange are separate: a caller that checked
    before a failure was reported is admitted right after it, inside the
    backoff that a new check would enforce. *)
Lemma backoff_can_be_raced :
  exists w w', reachable w /\ lts_step w (ACas 2 true) w' /\
    admission_check (adm w) (u "db") (secs 1) = false.
Proof.
  eexists _, _. split.
  - eapply (reachable_steps _ [ACheck 1 (u "db") 0; ACheck 2 (u "db") 0; ACas 1 true; ARotate 1;
      AFailure 1 (u "db") (u "boom") (secs 1); ADrop 1]); [by apply reach_init|].
    eapply steps_cons; [by apply as_check|].
    eapply steps_cons; [by apply as_check; [vm_compute|set_solver]|].
    eapply steps_cons; [by eapply (as_cas_won _ 1 (u "db")); vm_compute|].
    eapply steps_cons; [by eapply (as_rotate _ 1 (u "db")); vm_compute|].
    eapply steps_cons; [by apply as_failure; set_solver|].
    eapply steps_cons; [by apply as_drop; set_solver|]. apply steps_nil.
  - split; [eapply (as_cas_won _ 2 (u "db")); vm_compute; reflexivity|vm_compute; reflexivity].
Qed.

(** ** Backoff and suppression *)

Definition fail_at (p : ustr) (s : Admission) (f : Z * ustr) : Admission := report_failure p (snd f) (fst f) s.

Lemma backoff_delay_spec k :
  1 <= k -> backoff_delay k = Z.min (secs (2 ^ Z.min k 31)) (secs 120).
Proof.
  intros Hk. unfold backoff_delay, BACKOFF_CAP, BACKOFF_BASE, secs, ms.
  destruct (Z.eqb_spec k 0); [lia|]. rewrite Z.shiftl_mul_pow2 by lia.
  replace (Z.min k 31) with (Z.succ (Z.min (k - 1) 30)) by lia. rewrite Z.pow_succ_r by lia.
  set (x := 2 ^ Z.min (k - 1) 30). change (2 * 1000000000 / 1000000) with 2000.
  destruct (Z.ltb_spec (120 * 1000000000) (2000 * (1 * x) * 1000000)); lia.
Qed.

Lemma backoff_delay_mono j k : 1 <= j <= k -> backoff_delay j <= backoff_delay k.
Proof.
  intros Hj. rewrite !backoff_delay_spec by lia. unfold secs.
  assert (2 ^ Z.min j 31 <= 2 ^ Z.min k 31) by (apply Z.pow_le_mono_r; lia). lia.
Qed.

Lemma prune_window_keeps x y now :
  Forall (fun t => usat_sub now t <= SUPPRESSION_WINDOW) y ->
  exists x', prune_window (x ++ y) now = x' ++ y.
Proof.
  intros Hy. induction x as [|t x [x' IH]]; simpl.
  - exists []. destruct y as [|t y]; simpl; [done|]. inversion Hy; subst.
    destruct (Z.ltb_spec SUPPRESSION_WINDOW (usat_sub now t)); [lia|done].
  - destruct (SUPPRESSION_WINDOW <? usat_sub now t); [by exists x'|by exists (t :: x)].
Qed.

(** What a sequence of failures of one path leaves. *)
Lemma failures_state p fs : forall s,
  0 <= consecutive_failures s -> Z.of_nat (length fs) <= u32_max -> fs <> [] ->
  let s' := foldl (fail_at p) s fs in
  failure_path s' = Some p /\
  last_attempt s' = last (map fst fs) /\
  Z.of_nat (length fs) <= consecutive_failures s'.
Proof.
  induction fs as [|f fs IH] using rev_ind; intros s Hc Hl Hne; [done|].
  rewrite foldl_snoc, map_app, length_app. rewrite length_app in Hl. simpl in Hl |- *. rewrite last_snoc.
  assert (0 <= consecutive_failures (foldl (fail_at p) s fs) /\
          (fs = [] \/ failure_path (foldl (fail_at p) s fs) = Some p /\
           Z.of_nat (length fs) <= consecutive_failures (foldl (fail_at p) s fs))) as [H0 Hk].
  { destruct (decide (fs = [])) as [->|Hfs]; [split; [exact Hc|by left]|].
    destruct (IH s Hc ltac:(lia) Hfs) as (H1 & _ & H3). split; [lia|by right]. }
  set (r := foldl (fail_at p) s fs) in *. clearbody r. unfold fail_at, report_failure.
  destruct (bool_decide (failure_path r = Some p)) eqn:Eb; simpl.
  - apply bool_decide_eq_true in Eb. split_and!; [done|done|]. unfold u32sat_add.
    destruct Hk as [->|[_ Hk]]; simpl; lia.
  - apply bool_decide_eq_false in Eb. split_and!; [done|done|]. unfold u32sat_add.
    destruct Hk as [->|[Hk _]]; [simpl; lia|done].
Qed.

(** Each of the listed instants is still in the window at the later ones. *)
Definition recent_chain (ts : list Z) : Prop :=
  StronglySorted (fun a b => usat_sub b a <= SUPPRESSION_WINDOW) ts.

Lemma chain_snoc ts t :
  recent_chain (ts ++ [t]) -> recent_chain ts /\ Forall (fun a => usat_sub t a <= SUPPRESSION_WINDOW) ts.
Proof.
  unfold recent_chain. induction ts as [|a ts IH]; simpl; intros Hs; [split; constructor|].
  inversion Hs as [|? ? Hs' Ha]; subst. destruct (IH Hs') as [? ?].
  apply Forall_app in Ha as [? Ht]. inversion Ht; subst. split; by constructor.
Qed.

Lemma failures_window p fs : forall s,
  recent_chain (map fst fs) ->
  (fs = [] \/ failure_path (foldl (fail_at p) s fs) = Some p) /\
  exists x, window_attempts (foldl (fail_at p) s fs) = x ++ map fst fs.
Proof.
  induction fs as [|f fs IH] using rev_ind; intros s Hc.
  { split; [by left|]. exists (window_attempts s). by rewrite app_nil_r. }
  rewrite map_app in Hc. apply chain_snoc in Hc as [Hc Ht].
  destruct (IH s Hc) as [Hp [x Hx]]. rewrite foldl_snoc, map_app.
  set (r := foldl (fail_at p) s fs) in *. clearbody r. unfold fail_at, report_failure.
  destruct (bool_decide (failure_path r = Some p)) eqn:Eb; simpl.
  - apply bool_decide_eq_true in Eb. split; [by right|].
    destruct (prune_window_keeps x (map fst fs) (fst f) Ht) as [x' Hx'].
    exists x'. by rewrite Hx, Hx', app_assoc.
  - apply bool_decide_eq_false in Eb. split; [by right|].
    destruct Hp as [->|Hp]; [|done]. by exists [].
Qed.

Lemma fifth_failure_suppresses p f s :
  (4 <= length (prune_window (if bool_decide (failure_path s = Some p) then window_attempts s else [])
                  (fst f)))%nat ->
  suppressed_until (fail_at p s f) = Some (fst f + SUPPRESSION_WINDOW).
Proof.
  intros Hl. unfold fail_at, report_failure, MAX_ATTEMPTS_IN_WINDOW.
  destruct (bool_decide (failure_path s = Some p)); cbn [window_attempts suppressed_until];
    rewrite length_app; simpl length; (destruct (Nat.leb_spec 5 (length (prune_window (window_attempts s) (fst f)) + 1))
    || destruct (Nat.leb_spec 5 (length (prune_window [] (fst f)) + 1))); try done; simpl in *; lia.
Qed.

(** Failed recoveries are spaced out.  After a run of failures of one
    mailbox, from whatever state, its next recovery is admitted no earlier than
    [min(2^k s, 2 min)] after the last of the [k] failures, and if five of them
    fell within five minutes not before five minutes have passed; another
    mailbox is not held back by them. *)
Theorem recovery_backoff_spacing p fs s now :
  0 <= consecutive_failures s -> fs <> [] -> Z.of_nat (length fs) <= 31 ->
  let s' := foldl (fail_at p) s fs in
  (fst (try_acquire p now s') = true ->
     forall t, last (map fst fs) = Some t ->
       t + Z.min (secs (2 ^ Z.of_nat (length fs))) (secs 120) <= now /\
       ((5 <= length fs)%nat -> recent_chain (map fst fs) -> t + secs 300 <= now)) /\
  (forall p', p' <> p -> fst (try_acquire p' now s') = negb (in_progress s)).
Proof.
  intros Hc Hne Hl s'. destruct (failures_state p fs s Hc ltac:(unfold u32_max; lia) Hne) as (Hp & Hla & Hk).
  fold s' in Hp, Hla, Hk. split.
  - intros Ha t Ht. unfold try_acquire in Ha.
    destruct (admission_check s' p now) eqn:Ec; [|done]. clear Ha.
    unfold admission_check in Ec. rewrite Hp, Hla, Ht, bool_decide_true in Ec by done. simpl in Ec.
    apply andb_true_iff in Ec as [Es Eb]. apply negb_true_iff in Es, Eb.
    destruct fs as [|f fs] using rev_ind; [done|]. clear IHfs.
    rewrite map_app in Ht. cbn [map] in Ht. rewrite last_snoc in Ht. injection Ht as <-.
    rewrite length_app in Hl, Hk |- *. change (length [f]) with 1%nat in *.
    split.
    + destruct (Z.ltb_spec 0 (consecutive_failures s')); [|lia]. simpl in Eb.
      apply Z.ltb_ge in Eb. unfold usat_sub in Eb.
      pose proof (backoff_delay_mono (Z.of_nat (length fs + 1)) (consecutive_failures s')) as Hm.
      rewrite (backoff_delay_spec (Z.of_nat (length fs + 1))) in Hm by lia.
      replace (Z.min (Z.of_nat (length fs + 1)) 31) with (Z.of_nat (length fs + 1)) in Hm by lia.
      specialize (Hm ltac:(lia)).
      assert (0 < secs (2 ^ Z.of_nat (length fs + 1))) by (unfold secs; lia). unfold secs in *. lia.
    + intros H5 Hch. rewrite map_app in Hch. pose proof (chain_snoc _ _ Hch) as [Hch' Hall].
      destruct (failures_window p fs s Hch') as [Hp' [x Hx]].
      unfold s' in Es. rewrite foldl_snoc in Es. rewrite fifth_failure_suppresses in Es.
      { apply Z.ltb_ge in Es. exact Es. }
      destruct Hp' as [->|Hp']; [simpl in H5; lia|]. rewrite bool_decide_true by done. rewrite Hx.
      destruct (prune_window_keeps x (map fst fs) (fst f) Hall) as [x' ->].
      rewrite length_app, length_map. simpl in H5. lia.
  - intros p' Hp'. unfold try_acquire, admission_check. rewrite Hp, bool_decide_false by congruence. simpl.
    assert (in_progress s' = in_progress s) as ->; [|by destruct (in_progress s)].
    unfold s'. clear. revert s. induction fs as [|f fs IH]; intros s; simpl; [done|].
    rewrite IH. apply failure_keeps_progress.
Qed.

Lemma recovery_backoff_spacing_witness :
  let fs := [(secs 1, u "io"); (secs 5, u "io"); (secs 12, u "io")] in
  let s' := foldl (fail_at (u "db")) admission_new fs in
  fst (try_acquire (u "db") (secs 19) s') = false /\ fst (try_acquire (u "db") (secs 20) s') = true /\
  secs 12 + secs 8 <= secs 20.
Proof.
  split; [vm_compute; reflexivity|]. split; [vm_compute; reflexivity|].
  destruct (recovery_backoff_spacing (u "db") [(secs 1, u "io"); (secs 5, u "io"); (secs 12, u "io")]
    admission_new (secs 20)) as [Ha _]; [simpl; lia|done|simpl; lia|].
  refine (proj1 (Ha _ (secs 12) _)); vm_compute; reflexivity.
Defined.

Lemma recovery_single_flight_witness :
  exists w, reachable w /\ in_progress (adm w) = true /\ exists t, in_flight w t.
Proof.
  assert (exists w, reachable w /\ in_progress (adm w) = true) as (w & Hr & Hp).
  { eexists. split.
    - eapply (reachable_steps _ [ACheck 1 (u "db") 0; ACas 1 true]); [by apply reach_init|].
      eapply steps_cons; [by apply as_check|].
      eapply steps_cons; [by eapply (as_cas_won _ 1 (u "db")); vm_compute|apply steps_nil].
    - vm_compute; reflexivity. }
  exists w. split; [exact Hr|]. split; [exact Hp|].
  destruct (recovery_single_flight w Hr) as [_ Hiff]. by apply Hiff.
Defined.
