(* ===== verification/RecoveryBreaker.v ===== *)
(** * The recovery breaker ([db/src/recovery_breaker.rs], [db/src/pool.rs])

    A durable record beside the database counts automatic recoveries of the
    same generation that failed or died, and refuses further ones until a
    cooldown has passed.  [run_attempt] is the envelope that runs a recovery:
    it consults the record twice, arms it before the operation and settles it
    afterwards. *)

From S2P Require Import Prelude.
From S2P Require Import RustStr.
From S2P Require Import RecoveryAdmission.

(** @src db/src/recovery_breaker.rs:36-48 DEFAULT_MAX_CONSECUTIVE_FAILURES, DEFAULT_COOLDOWN_SECS, MAX_REASON_BYTES *)
Definition DEFAULT_MAX_CONSECUTIVE_FAILURES : Z := 3.
Definition DEFAULT_COOLDOWN_SECS : Z := 21600.
Definition MAX_REASON_BYTES : nat := 512.

(** @src db/src/recovery_breaker.rs:50-54 RecoveryBreakerConfig *)
Record BreakerConfig := mkBreakerConfig { max_consecutive_failures : Z; cooldown_secs : Z }.

(** @src db/src/recovery_breaker.rs:56-62 parse_positive_u64 *)
Definition parse_positive_u64 (raw : option ustr) (dflt : Z) : Z :=
  match raw ≫= (fun raw => parse_u64 (trim raw)) with
  | Some value => if 0 <? value then value else dflt
  | None => dflt
  end.

(** @src db/src/recovery_breaker.rs:64-86 config_from_env
    -- the two settings as the environment gives them. *)
Definition config_from_env (raw_failures raw_cooldown : option ustr) : BreakerConfig :=
  let max_failures := parse_positive_u64 raw_failures DEFAULT_MAX_CONSECUTIVE_FAILURES in
  {| max_consecutive_failures :=
       if max_failures <=? u32_max then max_failures else DEFAULT_MAX_CONSECUTIVE_FAILURES;
     cooldown_secs := parse_positive_u64 raw_cooldown DEFAULT_COOLDOWN_SECS |}.

(** @src db/src/recovery_breaker.rs:88-105 RecoveryBreakerState *)
Record BreakerRecord := mkRecord {
  schema : Z;
  db_fingerprint : ustr;
  br_failures : Z;
  last_failure_unix : Z;
  br_reason : ustr;
  br_tripped : bool;
  attempt_in_progress : bool;
}.

(** @src db/src/recovery_breaker.rs:919-924 canonical_fingerprint_hash *)
Definition canonical_fingerprint_hash (hash : ustr) : bool :=
  (utf8_len hash =? 64)%nat
  && forallb (fun b => is_ascii_digit b || ((ch "a" <=? b) && (b <=? ch "f"))%N) (utf8 hash).

(** @src db/src/recovery_breaker.rs:926-933 scalar_fingerprint_valid *)
Definition scalar_fingerprint_valid (fingerprint : ustr) : bool :=
  ustr_eqb fingerprint (u "missing") || ustr_eqb fingerprint (u "unreadable")
  || match split_once (ch ":") fingerprint with
     | Some (len, hash) =>
         match parse_u64 len with Some parsed => ustr_eqb (dec parsed) len | None => false end
         && canonical_fingerprint_hash hash
     | None => false
     end.

(** @src db/src/recovery_breaker.rs:935-941 family_fingerprint_parts *)
Definition family_fingerprint_parts (fingerprint : ustr) : option (ustr * ustr) :=
  rest ← strip_prefix (u "family1:") fingerprint;
  '(main, family_hash) ← rsplit_once (ch ":") rest;
  if negb (ustr_eqb main (u "unreadable")) && scalar_fingerprint_valid main
     && canonical_fingerprint_hash family_hash
  then Some (main, family_hash) else None.

(** [.split_once(':').is_some_and(|(_, hash)| hash.starts_with("fdc10ce1"))],
    which is @src db/src/pool.rs:1160-1165 breaker_fingerprint_is_lock_neutral *)
Definition lock_neutral (fingerprint : ustr) : bool :=
  match split_once (ch ":") fingerprint with
  | Some (_, hash) => starts_with (u "fdc10ce1") hash
  | None => false
  end.

(** @src db/src/recovery_breaker.rs:108-134 RecoveryBreakerState::applies_to *)
Definition applies_to (s : BreakerRecord) (fingerprint : ustr) : bool :=
  attempt_in_progress s
  || ustr_eqb (db_fingerprint s) fingerprint
  || ustr_eqb fingerprint (u "unreadable")
  || ustr_eqb (db_fingerprint s) (u "unreadable")
  || match family_fingerprint_parts fingerprint with
     | Some (main, _) => ustr_eqb (db_fingerprint s) main || lock_neutral (db_fingerprint s)
     | None => false
     end
  || (lock_neutral fingerprint
      && match family_fingerprint_parts (db_fingerprint s) with Some _ => true | None => false end).

(** @src db/src/recovery_breaker.rs:137-150 BreakerVerdict *)
Inductive BreakerVerdict :=
| Allow
| AllowHalfOpen
| Refuse (failures retry_after_secs : Z) (reason : ustr).

(** @src db/src/recovery_breaker.rs:152-184 evaluate *)
Definition evaluate (state : option BreakerRecord) (fingerprint : ustr) (config : BreakerConfig)
    (now_unix : Z) : BreakerVerdict :=
  match state with
  | None => Allow
  | Some s =>
      if negb (applies_to s fingerprint) then Allow
      else if negb (br_tripped s) && (br_failures s <? max_consecutive_failures config) then Allow
      else
        let elapsed := Z.max (isat_sub now_unix (last_failure_unix s)) 0 in
        let cooldown := Z.min (cooldown_secs config) i64_max in
        if cooldown <=? elapsed then AllowHalfOpen
        else Refuse (br_failures s) (Z.max (isat_sub cooldown elapsed) 0) (br_reason s)
  end.

(** @src db/src/recovery_breaker.rs:186-218 record_failure *)
Definition record_failure (prev : option BreakerRecord) (fingerprint reason : ustr)
    (config : BreakerConfig) (now_unix : Z) : BreakerRecord :=
  let failures :=
    match prev with
    | Some prev => if applies_to prev fingerprint then u32sat_add (br_failures prev) 1 else 1
    | None => 1
    end in
  {| schema := 1; db_fingerprint := fingerprint; br_failures := failures;
     last_failure_unix := now_unix; br_reason := bounded_text MAX_REASON_BYTES reason;
     br_tripped := max_consecutive_failures config <=? failures; attempt_in_progress := false |}.

Definition with_attempt (b : bool) (s : BreakerRecord) : BreakerRecord :=
  mkRecord (schema s) (db_fingerprint s) (br_failures s) (last_failure_unix s) (br_reason s)
    (br_tripped s) b.
Definition with_fingerprint (f : ustr) (s : BreakerRecord) : BreakerRecord :=
  mkRecord (schema s) f (br_failures s) (last_failure_unix s) (br_reason s) (br_tripped s)
    (attempt_in_progress s).
Definition with_failure_time (t : Z) (s : BreakerRecord) : BreakerRecord :=
  mkRecord (schema s) (db_fingerprint s) (br_failures s) t (br_reason s) (br_tripped s)
    (attempt_in_progress s).

(** @src db/src/recovery_breaker.rs:220-238 record_attempt *)
Definition record_attempt (prev : option BreakerRecord) (fingerprint : ustr) (config : BreakerConfig)
    (now_unix : Z) : BreakerRecord :=
  with_attempt true
    (record_failure prev fingerprint (u "automatic recovery attempt did not complete") config now_unix).

(** @src db/src/recovery_breaker.rs:240-253 cleared_state *)
Definition cleared_state (fingerprint : ustr) : BreakerRecord :=
  mkRecord 1 fingerprint 0 0 [] false false.

(** @src db/src/recovery_breaker.rs:943-952 recovery_breaker_state_is_semantically_valid *)
Definition semantically_valid (s : BreakerRecord) : bool :=
  (schema s =? 1)
  && (scalar_fingerprint_valid (db_fingerprint s)
      || match family_fingerprint_parts (db_fingerprint s) with Some _ => true | None => false end)
  && (0 <=? last_failure_unix s)
  && (utf8_len (br_reason s) <=? MAX_REASON_BYTES + 3)%nat
  && (negb (br_tripped s) || (0 <? br_failures s))
  && (negb (attempt_in_progress s) || (0 <? br_failures s)).

(** ** The sidecar *)

(** The control file: absent, unreadable or not a record, or a record. *)
Inductive Sidecar := Absent | Unreadable | Stored (r : BreakerRecord).

(** @src db/src/recovery_breaker.rs:883-917 load *)
Definition load (f : Sidecar) : option (option BreakerRecord) :=
  match f with
  | Absent => Some None
  | Unreadable => None
  | Stored r => if semantically_valid r then Some (Some r) else None
  end.

(** @src db/src/recovery_breaker.rs:954-1030 store
    -- atomic: the new record is there or the old file is; [io_ok] says whether
    every file operation succeeded. *)
Definition store (io_ok : bool) (r : BreakerRecord) (f : Sidecar) : bool * Sidecar :=
  if semantically_valid r && io_ok then (true, Stored r) else (false, f).

(** @src db/src/recovery_breaker.rs:1032-1058 RecoveryBreakerBypassGuard
    -- the depth of nested guards of a thread ([u32]). *)
Definition bypass_enter (depth : Z) : Z := u32sat_add depth 1.
Definition bypass_is_active (depth : Z) : bool := 0 <? depth.
Definition bypass_drop (depth : Z) : Z := Z.max (depth - 1) 0.

(** @src db/src/pool.rs:1381-1413 recovery_breaker_fingerprint
    -- [requires_neutral], [raw] and [neutral] are what the file probes answer. *)
Definition recovery_breaker_fingerprint (requires_neutral : bool) (raw neutral : ustr)
    (prior : option BreakerRecord) : ustr :=
  if negb requires_neutral then raw
  else
    match prior with
    | Some p =>
        if (br_tripped p || (0 <? br_failures p)) && negb (lock_neutral (db_fingerprint p))
        then db_fingerprint p else neutral
    | None => neutral
    end.

(** ** The recovery envelope *)

(** How the recovery operation ends; [OpDied] is the death of the process. *)
Inductive Outcome := OpOk | OpErr (text : ustr) | OpPanicked | OpDied.

(** @src db/src/pool.rs:958-982 AutomaticRecoveryAdmissionFailureKind, AutomaticRecoveryRunError
    -- the result of a run; messages are not kept. *)
Inductive RunResult :=
| RunOk
| CircuitOpen
| AdmissionOther
| OperationFailed (text : ustr)
| RunPanicked
| ProcessDied.

(** What one call meets: its flags, the clocks, the files and the operation. *)
Record AttemptEnv := mkEnv {
  path_checks_ok : bool;
  nested : option bool;               (* inside another recovery: of this path? *)
  bypass : bool;                      (* RecoveryBreakerBypassGuard::is_active() *)
  records_outcome : bool;             (* RecordRecoveryOutcome, not GuardMutationOnly *)
  preflight_sidecar : Sidecar;        (* the file at the unlocked preflight *)
  fingerprint_of : option BreakerRecord -> ustr;
  terminal_fingerprint : ustr;
  anchor_ok : nat -> bool;            (* the checks of the parent directory, in order *)
  file_lock_ok : bool;
  started_unix : Z;
  finished_unix : Z;
  acquire_instant : Z;
  report_instant : Z;
  store_ok : nat -> bool;             (* the writes of the sidecar, in order *)
  outcome : Outcome;
}.

(** @src core/src/disk.rs:774-787 is_host_storage_exhaustion_message *)
Definition is_host_storage_exhaustion_message (text : ustr) : bool :=
  existsb (fun signature => contains signature (to_ascii_lowercase text))
    [u "no space left on device"; u "quota exceeded"; u "read-only file system";
     u "not enough space on the disk"; u "(os error 28)"; u "(os error 30)"; u "(os error 122)"].

Section envelope.
  Context (path : ustr) (config : BreakerConfig).

(** @src db/src/pool.rs:1521-1645 with_automatic_recovery_admission_using_clock
    -- the admission of a run: the two reads of the record and the checks around
    them, up to the in-process guard. *)
Definition admit_run (env : AttemptEnv) (f : Sidecar) (a : Admission)
    : RunResult + (option BreakerRecord * ustr * Admission) :=
  let preflight :=
    if bypass env then None
    else
      match load (preflight_sidecar env) with
      | None => Some AdmissionOther
      | Some prior =>
          match evaluate prior (fingerprint_of env prior) config (started_unix env) with
          | Refuse _ _ _ => Some CircuitOpen
          | _ => None
          end
      end in
  match preflight with
  | Some refusal => inl refusal
  | None =>
      if negb (anchor_ok env 0 && file_lock_ok env && anchor_ok env 1) then inl AdmissionOther
      else
        match load f, bypass env with
        | None, false => inl AdmissionOther
        | loaded, _ =>
            let prior := default None loaded in
            let fingerprint := fingerprint_of env prior in
            match evaluate prior fingerprint config (started_unix env), bypass env with
            | Refuse _ _ _, false => inl CircuitOpen
            | _, _ =>
                let '(acquired, a) := try_acquire path (acquire_instant env) a in
                if acquired then inr (prior, fingerprint, a) else inl AdmissionOther
            end
        end
  end.

(** @src db/src/pool.rs:1752-1835 with_automatic_recovery_admission_using_clock
    -- what is left to do when the operation failed with [text]. *)
Definition settle_failure (env : AttemptEnv) (prior : option BreakerRecord) (fingerprint text : ustr)
    (k : nat) (f : Sidecar) : RunResult * Sidecar :=
  let terminal := terminal_fingerprint env in
  let lineage := match prior with
                 | Some p => if applies_to p fingerprint then Some (with_fingerprint terminal p) else None
                 | None => None
                 end in
  if negb (bypass env) && is_host_storage_exhaustion_message text then
    let restored := match lineage with
                    | Some p => with_attempt false p
                    | None => cleared_state terminal
                    end in
    (OperationFailed text, snd (store (store_ok env k) restored f))
  else
    let failed := record_failure lineage terminal text config (finished_unix env) in
    let '(stored, f) := store (store_ok env k) failed f in
    (if stored || bypass env then OperationFailed text else AdmissionOther, f).

(** @src db/src/pool.rs:1678-1751 with_automatic_recovery_admission_using_clock
    -- the operation of an admitted run and the settlement of its outcome; [armed]
    is the record written before it, [k] the number of writes made. *)
Definition run_operation (env : AttemptEnv) (prior : option BreakerRecord) (fingerprint : ustr)
    (armed : option BreakerRecord) (k : nat) (f : Sidecar) (a : Admission)
    : RunResult * Sidecar * Admission :=
  match outcome env with
  | OpDied => (ProcessDied, f, admission_new)
  | OpPanicked =>
      let f :=
        match armed with
        | Some armed =>
            if anchor_ok env 3 then
              snd (store (store_ok env k)
                     (with_failure_time (finished_unix env)
                        (with_fingerprint (terminal_fingerprint env) armed)) f)
            else f
        | None => f
        end in
      (RunPanicked, f, guard_drop a)
  | OpOk =>
      if negb (records_outcome env) then (RunOk, f, guard_drop a)
      else if negb (anchor_ok env 3) then (AdmissionOther, f, guard_drop a)
      else
        let a := report_success path (report_instant env) a in
        let '(stored, f) := store (store_ok env k) (cleared_state (terminal_fingerprint env)) f in
        (if stored || bypass env then RunOk else AdmissionOther, f, guard_drop a)
  | OpErr text =>
      if negb (records_outcome env) then (OperationFailed text, f, guard_drop a)
      else if negb (anchor_ok env 3) then (AdmissionOther, f, guard_drop a)
      else
        let a := report_failure path text (report_instant env) a in
        let '(result, f) := settle_failure env prior fingerprint text k f in
        (result, f, guard_drop a)
  end.

(** @src db/src/pool.rs:1473-1520 with_automatic_recovery_admission_using_clock
    -- the result, whether the operation was run, the sidecar and the admission
    state; the rest of the function is [admit_run] (lines 1521 to 1645), the
    arming of lines 1646 to 1677, [run_operation] and [settle_failure]. *)
Definition run_attempt (env : AttemptEnv) (f : Sidecar) (a : Admission)
    : RunResult * bool * Sidecar * Admission :=
  let plain := match outcome env with
               | OpOk => RunOk
               | OpErr text => OperationFailed text
               | OpPanicked => RunPanicked
               | OpDied => ProcessDied
               end in
  if negb (path_checks_ok env) then (AdmissionOther, false, f, a)
  else
    match nested env with
    | Some true =>
        if anchor_ok env 0
        then (plain, true, f, match outcome env with OpDied => admission_new | _ => a end)
        else (AdmissionOther, false, f, a)
    | Some false => (AdmissionOther, false, f, a)
    | None =>
        match admit_run env f a with
        | inl refusal => (refusal, false, f, a)
        | inr (prior, fingerprint, a) =>
            if negb (bypass env) && records_outcome env then
              let armed := record_attempt prior fingerprint config (started_unix env) in
              if negb (anchor_ok env 2) then (AdmissionOther, false, f, guard_drop a)
              else
                let '(stored, f) := store (store_ok env 0) armed f in
                if negb stored then (AdmissionOther, false, f, guard_drop a)
                else
                  let '(r, f, a) := run_operation env prior fingerprint (Some armed) 1 f a in
                  (r, true, f, a)
            else
              let '(r, f, a) := run_operation env prior fingerprint None 0 f a in
              (r, true, f, a)
        end
    end.
End envelope.

(** ** Properties of the recovery breaker

    Failing recoveries of one database generation stop being retried: however
    the attempts end, whatever processes make them, from the threshold on two
    runs start at least a cooldown apart. *)

(** An attempt of the daemon, outside any other recovery. *)
Definition automatic (env : AttemptEnv) : Prop :=
  bypass env = false /\ records_outcome env = true /\ nested env = None.

(** It does not succeed, and the host's storage is not to blame. *)
Definition unsuccessful (env : AttemptEnv) : Prop :=
  match outcome env with
  | OpOk => False
  | OpErr text => is_host_storage_exhaustion_message text = false
  | _ => True
  end.

Lemma applies_in_progress r f : attempt_in_progress r = true -> applies_to r f = true.
Proof. unfold applies_to. by intros ->. Qed.

Lemma applies_same r f : db_fingerprint r = f -> applies_to r f = true.
Proof. unfold applies_to. intros ->. rewrite ustr_eqb_refl. by rewrite orb_true_r. Qed.

Lemma store_cases b r f f' s :
  store b r f = (s, f') -> (s = true /\ f' = Stored r /\ semantically_valid r = true) \/ (s = false /\ f' = f).
Proof. unfold store. destruct (semantically_valid r), b; simpl; intros [= <- <-]; auto. Qed.

(** The count a failed attempt leaves. *)
Definition next_count (prior : option BreakerRecord) (fingerprint : ustr) : Z :=
  match prior with
  | Some p => if applies_to p fingerprint then u32sat_add (br_failures p) 1 else 1
  | None => 1
  end.

(** A record that accounts for a run that started at [env]. *)
Definition accounts (config : BreakerConfig) (env : AttemptEnv) (count : Z) (r : BreakerRecord) : Prop :=
  semantically_valid r = true /\ br_failures r = count /\
  (last_failure_unix r = started_unix env \/ last_failure_unix r = finished_unix env) /\
  br_tripped r = (max_consecutive_failures config <=? br_failures r).

Lemma lineage_count prior fingerprint terminal text config now :
  br_failures (record_failure
    match prior with
    | Some p => if applies_to p fingerprint then Some (with_fingerprint terminal p) else None
    | None => None
    end terminal text config now) = next_count prior fingerprint.
Proof.
  unfold record_failure, next_count. simpl. destruct prior as [p|]; [|done].
  destruct (applies_to p fingerprint); [|done]. by rewrite applies_same.
Qed.

(** Whatever happens to an admitted run, the armed record or its settlement
    stays in the sidecar. *)
Lemma run_operation_accounts path config env prior fingerprint a k f' r a' :
  automatic env -> unsuccessful env ->
  let armed := record_attempt prior fingerprint config (started_unix env) in
  semantically_valid armed = true ->
  run_operation path config env prior fingerprint (Some armed) k (Stored armed) a = (r, f', a') ->
  exists rec, f' = Stored rec /\ accounts config env (next_count prior fingerprint) rec.
Proof.
  intros (Hb & Hr & _) Hu armed Hv Hrun.
  assert (accounts config env (next_count prior fingerprint) armed) as Harm
    by (split_and!; [done|done|by left|done]).
  unfold run_operation in Hrun. unfold unsuccessful in Hu. rewrite Hr in Hrun.
  destruct (outcome env) as [|text| |]; [done| | |].
  - destruct (anchor_ok env 3); simpl in Hrun; [|injection Hrun as <- <- <-; by exists armed].
    unfold settle_failure in Hrun. rewrite Hb, Hu in Hrun. simpl in Hrun.
    match type of Hrun with context [store ?b ?x ?y] => destruct (store b x y) as [s f1] eqn:Es end.
    injection Hrun as <- <- <-. apply store_cases in Es as [(-> & -> & Hv')|[-> ->]]; [|by exists armed].
    eexists. split; [done|]. split_and!; [done|apply lineage_count|by right|done].
  - destruct (anchor_ok env 3); simpl in Hrun; [|injection Hrun as <- <- <-; by exists armed].
    match type of Hrun with context [store ?b ?x ?y] => destruct (store b x y) as [s f1] eqn:Es end.
    injection Hrun as <- <- <-. apply store_cases in Es as [(-> & -> & Hv')|[-> ->]]; [|by exists armed].
    eexists. split; [done|]. split_and!; [done|done|by right|done].
  - injection Hrun as <- <- <-. by exists armed.
Qed.

Lemma load_stored f r : load f = Some (Some r) -> f = Stored r.
Proof. destruct f as [| |p]; simpl; try done. destruct (semantically_valid p); [|done]. by intros [= ->]. Qed.

(** What was read when an automatic run was admitted. *)
Lemma admit_run_automatic path config env f a prior fingerprint a' :
  bypass env = false ->
  admit_run path config env f a = inr (prior, fingerprint, a') ->
  load f = Some prior /\ fingerprint = fingerprint_of env prior /\
  forall n w x, evaluate prior fingerprint config (started_unix env) <> Refuse n w x.
Proof.
  intros Hb. unfold admit_run. rewrite Hb.
  destruct (load (preflight_sidecar env)) as [p0|]; [|done].
  destruct (evaluate p0 _ config _); try done;
    (destruct (negb _); [done|]); (destruct (load f) as [p|]; [|done]); simpl;
    (destruct (evaluate p (fingerprint_of env p) config (started_unix env)) eqn:Ee; try done);
    destruct (try_acquire _ _ _) as [[] ?]; try done; intros [= <- <- <-]; split_and!; try done;
    by rewrite Ee.
Qed.

(** One automatic, unsuccessful attempt. *)
Lemma run_attempt_step path config env f a r ran f' a' :
  automatic env -> unsuccessful env ->
  run_attempt path config env f a = (r, ran, f', a') ->
  if ran then
    exists prior rec, load f = Some prior /\
      (forall n w x, evaluate prior (fingerprint_of env prior) config (started_unix env) <> Refuse n w x) /\
      f' = Stored rec /\ accounts config env (next_count prior (fingerprint_of env prior)) rec
  else f' = f.
Proof.
  intros Ha Hu. pose proof Ha as (Hb & Hr & Hn). unfold run_attempt. rewrite Hn, Hb, Hr. simpl.
  destruct (negb (path_checks_ok env)); [by intros [= <- <- <- <-]|].
  destruct (admit_run path config env f a) as [refusal|[[prior fingerprint] a1]] eqn:Ead;
    [by intros [= <- <- <- <-]|].
  apply admit_run_automatic in Ead as (Hl & -> & He); [|done].
  destruct (negb (anchor_ok env 2)); [by intros [= <- <- <- <-]|].
  destruct (store _ _ _) as [s f1] eqn:Es.
  apply store_cases in Es as [(-> & -> & Hv)|[-> ->]]; simpl; [|by intros [= <- <- <- <-]].
  destruct (run_operation _ _ _ _ _ _ _ _ _) as [[r1 f2] a2] eqn:Eo. intros [= <- <- <- <-].
  destruct (run_operation_accounts _ _ _ _ _ _ _ _ _ _ Ha Hu Hv Eo) as (rec & -> & Hacc).
  by exists prior, rec.
Qed.

(** ** Sequences of attempts

    Each attempt comes with the admission state of the process that makes it,
    so restarts between attempts are included. *)

Section spacing.
  Context (path : ustr) (config : BreakerConfig).

(** The start times of the attempts whose operation was run. *)
Fixpoint run_starts (envs : list (AttemptEnv * Admission)) (f : Sidecar) : list Z :=
  match envs with
  | [] => []
  | (env, a) :: envs =>
      let '(_, ran, f', _) := run_attempt path config env f a in
      if ran then started_unix env :: run_starts envs f' else run_starts envs f'
  end.

(** Nobody else changes the database or the sidecar: each attempt sees the
    generation the last record describes, unless that record is unfinished. *)
Fixpoint undisturbed (envs : list (AttemptEnv * Admission)) (f : Sidecar) : Prop :=
  match envs with
  | [] => True
  | (env, a) :: envs =>
      (forall r, f = Stored r ->
         attempt_in_progress r = true \/ db_fingerprint r = fingerprint_of env (Some r)) /\
      undisturbed envs (snd (fst (run_attempt path config env f a)))
  end.

Definition failing (p : AttemptEnv * Admission) : Prop :=
  automatic (fst p) /\ unsuccessful (fst p) /\ started_unix (fst p) <= finished_unix (fst p).

Definition cooldown : Z := Z.min (cooldown_secs config) i64_max.

(** The sidecar after [n] runs, the last of which started at [t]. *)
Definition records_runs (f : Sidecar) (n : nat) (t : Z) : Prop :=
  n = 0%nat /\ (forall r, f = Stored r -> 0 <= br_failures r) \/
  exists r, f = Stored r /\ Z.of_nat n <= br_failures r /\ t <= last_failure_unix r /\
    semantically_valid r = true.

Lemma not_refused_after_cooldown r fingerprint now :
  applies_to r fingerprint = true -> max_consecutive_failures config <= br_failures r ->
  0 < cooldown ->
  (forall n w x, evaluate (Some r) fingerprint config now <> Refuse n w x) ->
  last_failure_unix r + cooldown <= now.
Proof.
  intros Ha Hm Hc He. unfold evaluate in He. rewrite Ha in He. simpl in He.
  destruct (Z.ltb_spec (br_failures r) (max_consecutive_failures config)); [lia|].
  rewrite andb_false_r in He. fold cooldown in He.
  destruct (Z.leb_spec cooldown (Z.max (isat_sub now (last_failure_unix r)) 0)); [|by destruct (He _ _ _ eq_refl)].
  unfold isat_sub, iclamp in *. unfold cooldown in *. unfold i64_min in *. lia.
Qed.

Lemma spaced_from envs : forall f n t,
  Forall failing envs -> undisturbed envs f -> 0 < cooldown ->
  Z.of_nat (n + length envs) <= u32_max -> records_runs f n t ->
  (forall y, max_consecutive_failures config <= Z.of_nat n -> (0 < n)%nat ->
     run_starts envs f !! 0%nat = Some y -> t + cooldown <= y) /\
  (forall i x y, run_starts envs f !! i = Some x -> run_starts envs f !! S i = Some y ->
     max_consecutive_failures config <= Z.of_nat (n + S i) -> x + cooldown <= y).
Proof.
  induction envs as [|[env a] envs IH]; intros f n t Hf Hu Hc Hn Hr; [by split|].
  inversion Hf as [|? ? (Ha & Hun & Ht) Hf']; subst. simpl in Hu, Hn, Ha, Hun, Ht. destruct Hu as [Hsame Hu].
  simpl run_starts. destruct (run_attempt path config env f a) as [[[res ran] f'] a'] eqn:Er. simpl in Hu.
  pose proof (run_attempt_step _ _ _ _ _ _ _ _ _ Ha Hun Er) as Hstep.
  destruct ran; [|subst f'; apply (IH f n t); [done|done|done|lia|done]].
  destruct Hstep as (prior & rec & Hl & He & -> & (Hv & Hcount & Htime & _)).
  assert ((0 < n)%nat -> exists r, prior = Some r /\ Z.of_nat n <= br_failures r /\ t <= last_failure_unix r /\
    applies_to r (fingerprint_of env prior) = true) as Hprior.
  { intros Hpos. destruct Hr as [[-> _]|(r & -> & Hb & Htr & Hvr)]; [lia|]. exists r.
    simpl in Hl. rewrite Hvr in Hl. injection Hl as <-. split_and!; [done|done|done|].
    destruct (Hsame r eq_refl); [by apply applies_in_progress|by apply applies_same]. }
  assert (records_runs (Stored rec) (S n) (started_unix env)) as Hr'.
  { right. exists rec. split_and!; [done| |destruct Htime; lia|done]. rewrite Hcount.
    destruct (decide (n = 0%nat)) as [->|].
    - unfold next_count. destruct prior as [p|]; [|done]. destruct (applies_to p _); [|done].
      apply load_stored in Hl as ->. unfold u32sat_add, u32_max.
      destruct Hr as [[_ H0]|(r & Er0 & Hb & _)]; [specialize (H0 p eq_refl); lia|injection Er0 as ->; lia].
    - destruct (Hprior ltac:(lia)) as (r & -> & Hb & _ & Hap). unfold next_count. rewrite Hap.
      unfold u32sat_add, u32_max in *. lia. }
  destruct (IH (Stored rec) (S n) (started_unix env) Hf' Hu Hc ltac:(lia) Hr') as [IHa IHb]. split.
  - intros y Hm Hpos [= <-]. destruct (Hprior Hpos) as (r & -> & Hb & Htr & Hap).
    pose proof (not_refused_after_cooldown r _ _ Hap ltac:(lia) Hc He). lia.
  - intros [|i] x y Hx Hy Hm; simpl in Hx, Hy.
    + injection Hx as <-. apply IHa; [lia|lia|done].
    + apply (IHb i); [done|done|lia].
Qed.

(** Recoveries that do not converge are parked.  Take any sequence of
    automatic attempts on an undisturbed database, made by whatever processes,
    each ending in an error, a panic or the death of the process, with any of
    its writes failing.  From the threshold on, two attempts whose operation is
    really run start at least a cooldown apart, so a broken mailbox sees at
    most the threshold plus one run per cooldown. *)
Theorem recovery_attempts_spaced envs f i x y :
  Forall failing envs -> undisturbed envs f -> 0 < cooldown ->
  (forall r, f = Stored r -> 0 <= br_failures r) ->
  Z.of_nat (length envs) <= u32_max ->
  run_starts envs f !! i = Some x -> run_starts envs f !! S i = Some y ->
  max_consecutive_failures config <= Z.of_nat (S i) ->
  x + cooldown <= y.
Proof.
  intros Hf Hu Hc H0 Hn Hx Hy Hm.
  destruct (spaced_from envs f 0 0 Hf Hu Hc Hn ltac:(by left)) as [_ Hs]. by apply (Hs i).
Qed.
End spacing.

(** ** Settlement *)

Definition fingerprint_valid (f : ustr) : bool :=
  scalar_fingerprint_valid f || match family_fingerprint_parts f with Some _ => true | None => false end.

Lemma valid_retarget p t :
  semantically_valid p = true -> fingerprint_valid t = true ->
  semantically_valid (with_attempt false (with_fingerprint t p)) = true.
Proof.
  unfold semantically_valid, fingerprint_valid. simpl. rewrite !andb_true_iff. intros (((((? & _) & ?) & ?) & ?) & _) Ht.
  by split_and!.
Qed.

Lemma valid_cleared t : fingerprint_valid t = true -> semantically_valid (cleared_state t) = true.
Proof. unfold semantically_valid, fingerprint_valid. simpl. intros ->. done. Qed.

(** The history a host fault leaves: the one the attempt started from. *)
Definition kept_count (prior : option BreakerRecord) (fingerprint : ustr) : Z :=
  match prior with
  | Some p => if applies_to p fingerprint then br_failures p else 0
  | None => 0
  end.

Lemma admit_bypass path config env f a : bypass env = true -> admit_run path config env f a <> inl CircuitOpen.
Proof. intros Hb. unfold admit_run. rewrite Hb. repeat (case_match; try done). Qed.

Lemma run_operation_not_open path config env prior fp armed k f a :
  fst (fst (run_operation path config env prior fp armed k f a)) <> CircuitOpen.
Proof.
  unfold run_operation. destruct (outcome env) as [|t| |]; try done.
  - destruct (negb (records_outcome env)); [done|]. destruct (negb (anchor_ok env 3)); [done|].
    destruct (store _ _ _) as [s ?]. by destruct (s || bypass env).
  - destruct (negb (records_outcome env)); [done|]. destruct (negb (anchor_ok env 3)); [done|].
    unfold settle_failure. destruct (negb (bypass env) && _); [done|].
    destruct (store _ _ _) as [s ?]. simpl. by destruct (s || bypass env).
Qed.

Lemma run_operation_releases path config env prior fp armed k f a :
  in_progress (snd (run_operation path config env prior fp armed k f a)) = false.
Proof.
  unfold run_operation. destruct (outcome env) as [|t| |]; try done.
  - destruct (negb (records_outcome env)); [done|]. destruct (negb (anchor_ok env 3)); [done|].
    by destruct (store _ _ _).
  - destruct (negb (records_outcome env)); [done|]. destruct (negb (anchor_ok env 3)); [done|].
    by destruct (settle_failure _ _ _ _ _ _ _).
Qed.

Lemma admit_run_free path config env f a x : admit_run path config env f a = inr x -> in_progress a = false.
Proof.
  unfold admit_run, try_acquire. destruct (in_progress a); [|done].
  repeat (case_match; simplify_eq; try done).
Qed.

Lemma admit_not_ok path config env f a : admit_run path config env f a <> inl RunOk.
Proof. unfold admit_run. repeat (case_match; simplify_eq; try done). Qed.

(** The three ways out of [run_attempt] outside another recovery. *)
Lemma run_attempt_cases path config env f a r ran f' a' :
  nested env = None -> run_attempt path config env f a = (r, ran, f', a') ->
  (r = AdmissionOther /\ ran = false /\ f' = f /\ (a' = a \/ in_progress a' = false)) \/
  (exists refusal, admit_run path config env f a = inl refusal /\
     r = refusal /\ ran = false /\ f' = f /\ a' = a) \/
  (exists prior fp a1 armed k f1, admit_run path config env f a = inr (prior, fp, a1) /\ ran = true /\
     run_operation path config env prior fp armed k f1 a1 = (r, f', a') /\
     (automatic env -> k = 1%nat /\ armed = Some (record_attempt prior fp config (started_unix env)) /\
        f1 = Stored (record_attempt prior fp config (started_unix env)))).
Proof.
  intros Hn. unfold run_attempt. rewrite Hn.
  destruct (negb (path_checks_ok env)); [intros [= <- <- <- <-]; left; by split_and!; try left|].
  destruct (admit_run path config env f a) as [refusal|[[prior fp] a1]] eqn:Ead;
    [intros [= <- <- <- <-]; right; left; by exists refusal|].
  destruct (negb (bypass env) && records_outcome env) eqn:Eauto.
  - destruct (negb (anchor_ok env 2)); [intros [= <- <- <- <-]; left; by split_and!; try right|].
    destruct (store _ _ _) as [st f1] eqn:Es. apply store_cases in Es as [(-> & -> & Hv)|[-> ->]]; simpl;
      [|intros [= <- <- <- <-]; left; by split_and!; try right].
    destruct (run_operation _ _ _ _ _ _ _ _ _) as [[r1 f2] a2] eqn:Eo. intros [= <- <- <- <-].
    right; right. eexists prior, fp, a1, _, _, _. split_and!; [done|done|exact Eo|done].
  - destruct (run_operation _ _ _ _ _ _ _ _ _) as [[r1 f2] a2] eqn:Eo. intros [= <- <- <- <-].
    right; right. eexists prior, fp, a1, _, _, _. split_and!; [done|done|exact Eo|].
    intros (Hb & Hr & _). by rewrite Hb, Hr in Eauto.
Qed.

Lemma success_clears path config env prior fp armed k f a r f' a' :
  automatic env -> run_operation path config env prior fp armed k f a = (r, f', a') -> r = RunOk ->
  f' = Stored (cleared_state (terminal_fingerprint env)).
Proof.
  intros (Hb & Hr & _) Hrun ->. unfold run_operation in Hrun. rewrite Hr, Hb in Hrun.
  destruct (outcome env) as [|t| |]; simpl in Hrun; try done.
  - destruct (anchor_ok env 3); [|done]. simpl in Hrun.
    destruct (store _ _ _) as [s f1] eqn:Es. injection Hrun as Hs <- _.
    apply store_cases in Es as [(-> & -> & _)|[-> _]]; [done|by rewrite orb_false_r in Hs].
  - destruct (anchor_ok env 3); [|done]. simpl in Hrun. unfold settle_failure in Hrun. rewrite Hb in Hrun.
    destruct (is_host_storage_exhaustion_message t); simpl in Hrun; [done|].
    destruct (store _ _ _) as [s f1]. simpl in Hrun. rewrite orb_false_r in Hrun. by destruct s.
Qed.

Lemma host_fault_not_charged path config env prior fp armed f a r f' a' text :
  automatic env -> outcome env = OpErr text -> is_host_storage_exhaustion_message text = true ->
  anchor_ok env 3 = true -> store_ok env 1 = true ->
  fingerprint_valid (terminal_fingerprint env) = true ->
  (forall p, prior = Some p -> semantically_valid p = true) ->
  run_operation path config env prior fp armed 1 f a = (r, f', a') ->
  exists rec, f' = Stored rec /\ attempt_in_progress rec = false /\ br_failures rec = kept_count prior fp.
Proof.
  intros (Hb & Hr & _) Ho Hh Ha Hs Hv Hp Hrun. unfold run_operation in Hrun.
  rewrite Ho, Hr, Ha in Hrun. simpl in Hrun. unfold settle_failure in Hrun. rewrite Hb, Hh, Hs in Hrun.
  unfold store, kept_count in *. simpl in Hrun.
  destruct prior as [p|]; [destruct (applies_to p fp)|].
  - rewrite (valid_retarget p _ (Hp p eq_refl) Hv) in Hrun. injection Hrun as <- <- <-. by eexists.
  - rewrite (valid_cleared _ Hv) in Hrun. injection Hrun as <- <- <-. by eexists.
  - rewrite (valid_cleared _ Hv) in Hrun. injection Hrun as <- <- <-. by eexists.
Qed.

Lemma loaded_valid f p : load f = Some (Some p) -> semantically_valid p = true.
Proof. destruct f as [| |q]; simpl; try done. destruct (semantically_valid q) eqn:E; [|done]. by intros [= <-]. Qed.

Lemma untrusted_refuses path config env f a x :
  bypass env = false -> load f = None -> admit_run path config env f a <> inr x.
Proof. intros Hb Hl. unfold admit_run. rewrite Hb, Hl. repeat (case_match; try done). Qed.

(** The envelope settles every outcome.  The operator bypass is never
    refused by the breaker; without it an untrusted record refuses the run; a
    refused run leaves the record alone; the in-process guard is released
    whatever happens; a recorded success clears the history, so that the next
    attempt is allowed at any time; and a fault of the host's storage is not
    charged to the database. *)
Theorem recovery_settlement path config env f a r ran f' a' :
  nested env = None -> in_progress a = false ->
  run_attempt path config env f a = (r, ran, f', a') ->
  (bypass env = true -> r <> CircuitOpen) /\
  (bypass env = false -> load f = None -> ran = false) /\
  (ran = false -> f' = f) /\
  in_progress a' = false /\
  (automatic env -> r = RunOk -> f' = Stored (cleared_state (terminal_fingerprint env)) /\
     (0 < max_consecutive_failures config ->
      forall fp now, evaluate (default None (load f')) fp config now = Allow)) /\
  (forall text, automatic env -> outcome env = OpErr text ->
     is_host_storage_exhaustion_message text = true -> ran = true ->
     anchor_ok env 3 = true -> store_ok env 1 = true ->
     fingerprint_valid (terminal_fingerprint env) = true ->
     exists prior rec, load f = Some prior /\ f' = Stored rec /\ attempt_in_progress rec = false /\
       br_failures rec = kept_count prior (fingerprint_of env prior)).
Proof.
  intros Hn Hfree Hrun.
  destruct (run_attempt_cases _ _ _ _ _ _ _ _ _ Hn Hrun)
    as [(-> & -> & -> & Ha)|[(refusal & Had & -> & -> & -> & ->)|(prior & fp & a1 & armed & k & f1 & Had & -> & Ho & Hauto)]].
  - split_and!; try done. by destruct Ha as [->|].
  - split_and!; try done.
    + intros Hb ->. by apply (admit_bypass path config env f a Hb).
    + intros _ ->. exfalso. by apply (admit_not_ok path config env f a).
  - split_and!; try done.
    + intros _ ->. pose proof (run_operation_not_open path config env prior fp armed k f1 a1) as Hno.
      rewrite Ho in Hno. done.
    + intros Hb Hl. by destruct (untrusted_refuses path config env f a (prior, fp, a1) Hb Hl).
    + pose proof (run_operation_releases path config env prior fp armed k f1 a1) as Hrel. by rewrite Ho in Hrel.
    + intros Hau Hok. rewrite (success_clears _ _ _ _ _ _ _ _ _ _ _ _ Hau Ho Hok). split; [done|].
      intros Hm fp0 now. simpl. destruct (semantically_valid _); simpl; [|done].
      destruct (applies_to _ fp0); simpl; [|done]. destruct (Z.ltb_spec 0 (max_consecutive_failures config)); [done|lia].
    + intros text Hau Hout Hh _ Hanc Hst Hv. destruct (Hauto Hau) as (-> & _ & _).
      destruct Hau as (Hb & Hau). destruct (admit_run_automatic _ _ _ _ _ _ _ _ Hb Had) as (Hl & -> & _).
      destruct (host_fault_not_charged path config env prior (fingerprint_of env prior) armed f1 a1 r f' a' text)
        as (rec & ? & ? & ?); try done; [intros p ->; by apply loaded_valid in Hl|].
      by exists prior, rec.
Qed.

(** ** Witnesses *)

Definition sample_config : BreakerConfig := mkBreakerConfig 2 100.

(** An attempt of a fresh process at [t] that ends with [o]. *)
Definition sample_env (t : Z) (o : Outcome) : AttemptEnv :=
  {| path_checks_ok := true; nested := None; bypass := false; records_outcome := true;
     preflight_sidecar := Absent; fingerprint_of := fun _ => u "missing";
     terminal_fingerprint := u "missing"; anchor_ok := fun _ => true; file_lock_ok := true;
     started_unix := t; finished_unix := t + 1; acquire_instant := secs t; report_instant := secs (t + 1);
     store_ok := fun _ => true; outcome := o |}.

(** A failure, a crash, two refused attempts, and the half-open probe. *)
Definition sample_attempts : list (AttemptEnv * Admission) :=
  [(sample_env 10 (OpErr (u "boom")), admission_new); (sample_env 20 OpDied, admission_new);
   (sample_env 60 (OpErr (u "boom")), admission_new); (sample_env 119 OpPanicked, admission_new);
   (sample_env 120 (OpErr (u "boom")), admission_new)].

Lemma recovery_attempts_spaced_witness :
  run_starts (u "db") sample_config sample_attempts Absent = [10; 20; 120] /\ 20 + 100 <= 120.
Proof.
  assert (run_starts (u "db") sample_config sample_attempts Absent = [10; 20; 120]) as E
    by (vm_compute; reflexivity).
  split; [exact E|].
  apply (recovery_attempts_spaced (u "db") sample_config sample_attempts Absent 1 20 120).
  - repeat constructor; simpl; lia.
  - vm_compute. repeat split; intros r Hr; try discriminate Hr; injection Hr as <-; right; reflexivity.
  - vm_compute; reflexivity.
  - intros r Hr. discriminate Hr.
  - vm_compute; discriminate.
  - by rewrite E.
  - by rewrite E.
  - simpl; lia.
Defined.

(** A full disk in the middle of a history of one failure. *)
Lemma recovery_settlement_witness :
  let f := Stored (record_failure None (u "missing") (u "boom") sample_config 5) in
  let env := sample_env 10 (OpErr (u "No space left on device")) in
  let '(_, ran, f', a') := run_attempt (u "db") sample_config env f admission_new in
  ran = true /\ in_progress a' = false /\
  exists prior rec, load f = Some prior /\ f' = Stored rec /\ attempt_in_progress rec = false /\
    br_failures rec = kept_count prior (u "missing").
Proof.
  intros f env.
  destruct (run_attempt (u "db") sample_config env f admission_new) as [[[r ran] f'] a'] eqn:E.
  assert (ran = true) as -> by (revert E; vm_compute; intros [= <- <- <- <-]; reflexivity).
  destruct (recovery_settlement (u "db") sample_config env f admission_new r true f' a' eq_refl eq_refl E)
    as (_ & _ & _ & Hrel & _ & Hhost).
  split; [reflexivity|]. split; [exact Hrel|].
  apply (Hhost (u "No space left on device")); try reflexivity; vm_compute; repeat split; reflexivity.
Defined.
