(* ===== verification/RustText.v ===== *)
(** * Rust text: numbers, patterns and counting

    More of the standard library's [str]: decimal and hexadecimal numbers both
    ways, splitting at a string, trimming and replacing characters, and the
    number of occurrences of a character. *)

From stdpp Require Import pretty.
From S2P Require Import Prelude.
From S2P Require Import RustStr.

(** ** Numbers *)

(** [str::parse::<i64>]: an optional sign and digits, within range. *)
Definition parse_i64 (s : ustr) : option Z :=
  let '(neg, r) :=
    match s with
    | c :: r => if (c =? ch "-")%N then (true, r) else if (c =? ch "+")%N then (false, r) else (false, s)
    | [] => (false, [])
    end in
  if is_empty r || negb (forallb is_ascii_digit r) then None
  else
    let v := if neg : bool then - digits_value r else digits_value r in
    if (i64_min <=? v) && (v <=? i64_max) then Some v else None.

(** Lower-case hexadecimal digits, [n] of them, zero padded ([{:016x}]). *)
Definition hex_char (d : Z) : N := Z.to_N (if d <? 10 then 48 + d else 87 + d).
Fixpoint hex_fixed (n : nat) (z : Z) : ustr :=
  match n with O => [] | S n => hex_fixed n (z / 16) ++ [hex_char (z mod 16)] end.

(** [char::to_digit(16)]. *)
Definition hex_digit (c : N) : option Z :=
  if is_ascii_digit c then Some (Z.of_N c - 48)
  else if ((97 <=? c) && (c <=? 102))%N then Some (Z.of_N c - 87)
  else if ((65 <=? c) && (c <=? 70))%N then Some (Z.of_N c - 55)
  else None.

Fixpoint hex_value (acc : Z) (s : ustr) : option Z :=
  match s with [] => Some acc | c :: s => d ← hex_digit c; hex_value (16 * acc + d) s end.

(** [u64::from_str_radix(_, 16)]. *)
Definition parse_hex_u64 (s : ustr) : option Z :=
  let s := match s with c :: r => if (c =? ch "+")%N then r else s | [] => s end in
  if is_empty s then None else v ← hex_value 0 s; if v <=? u64_max then Some v else None.

Lemma digits_value_snoc s c : digits_value (s ++ [c]) = 10 * digits_value s + (Z.of_N c - 48).
Proof. unfold digits_value. by rewrite foldl_snoc. Qed.

Lemma digits_value_app s t : digits_value (s ++ t) = digits_value s * 10 ^ Z.of_nat (length t) + digits_value t.
Proof.
  induction t as [|c t IH] using rev_ind; [rewrite app_nil_r; unfold digits_value at 3; simpl; lia|].
  rewrite app_assoc, !digits_value_snoc, IH, length_app, Nat2Z.inj_add, Z.pow_add_r by lia. simpl. lia.
Qed.

Lemma digits_value_cons c s : digits_value (c :: s) = (Z.of_N c - 48) * 10 ^ Z.of_nat (length s) + digits_value s.
Proof. apply (digits_value_app [c] s). Qed.

(** Decimal rendering of naturals, read back. *)
Definition pretty_digits (x : N) (s : string) : Prop :=
  forallb is_ascii_digit (u s) = true /\ digits_value (u s) = Z.of_N x.

Lemma u_cons a s : u (String a s) = ch a :: u s.
Proof. done. Qed.

Lemma pretty_N_char_digit x : (x < 10)%N -> ch (pretty_N_char x) = (48 + x)%N.
Proof.
  intros Hx. assert (x = 0 \/ x = 1 \/ x = 2 \/ x = 3 \/ x = 4 \/ x = 5 \/ x = 6 \/ x = 7 \/ x = 8 \/ x = 9)%N as Hc
    by lia.
  by repeat destruct Hc as [->|Hc]; [..|subst].
Qed.

Lemma pretty_N_go_spec x : forall s,
  forallb is_ascii_digit (u s) = true ->
  forallb is_ascii_digit (u (pretty_N_go x s)) = true /\
  digits_value (u (pretty_N_go x s)) = Z.of_N x * 10 ^ Z.of_nat (length (u s)) + digits_value (u s).
Proof.
  induction (N.lt_wf_0 x) as [x _ IH]. intros s Hs. destruct (N.eq_dec x 0%N) as [->|Hx].
  - rewrite pretty_N_go_0. split; [done|]. simpl. lia.
  - assert (x mod 10 < 10)%N as Hm by (apply N.mod_lt; lia).
    rewrite pretty_N_go_step by lia. destruct (IH (x / 10)%N) with (s := String (pretty_N_char (x mod 10)) s)
      as [Hd Hv]; [apply N.div_lt; lia| |].
    { rewrite u_cons, pretty_N_char_digit by done. simpl. rewrite Hs, andb_true_r. unfold is_ascii_digit.
      clear IH. revert Hm. generalize (x mod 10)%N. intros m Hm.
      apply andb_true_intro. split; apply N.leb_le; lia. }
    split; [done|]. rewrite Hv, u_cons, pretty_N_char_digit, digits_value_cons by done. simpl length.
    rewrite Nat2Z.inj_succ, Z.pow_succ_r by lia. pose proof (N.div_mod x 10 ltac:(lia)). nia.
Qed.

Lemma pretty_N_spec (x : N) : pretty_digits x (pretty x) /\ is_empty (u (pretty x)) = false.
Proof.
  unfold pretty_digits, pretty, pretty_N. destruct (decide (x = 0)%N) as [->|Hx]; [done|].
  destruct (pretty_N_go_spec x EmptyString eq_refl) as [Hd Hv]. split; [split; [done|]|].
  - rewrite Hv. unfold digits_value at 1. simpl. lia.
  - destruct (u (pretty_N_go x EmptyString)); [|done]. unfold digits_value in Hv. simpl in Hv. lia.
Qed.

Lemma digit_not_sign c : is_ascii_digit c = true -> (c =? ch "-")%N = false /\ (c =? ch "+")%N = false.
Proof. unfold is_ascii_digit. intros H. breflect. split; apply N.eqb_neq; intros ->; by vm_compute in H, H0. Qed.

(** A character that ends a field, and does not occur in it, ends it where it stands. *)
Lemma terminated_inj (e : N) a b x y : ~ In e a -> ~ In e b -> a ++ e :: x = b ++ e :: y -> a = b /\ x = y.
Proof.
  revert b. induction a as [|c a IH]; intros [|d b] Ha Hb E; simpl in *.
  - by injection E as ->.
  - injection E as <- _. tauto.
  - injection E as -> _. tauto.
  - injection E as -> E. destruct (IH b) as [-> ->]; tauto.
Qed.

#[export] Instance u_inj : Inj (=) (=) u.
Proof.
  intros s t. unfold u. revert t. induction s as [|a s IH]; intros [|b t]; simpl; try done. intros [= Ha Hs].
  f_equal; [|by apply IH]. by rewrite <- (ascii_N_embedding a), Ha, ascii_N_embedding.
Qed.

#[export] Instance dec_inj : Inj (=) (=) dec.
Proof. intros x y. unfold dec. intros E%(inj u). by apply (inj pretty). Qed.

Lemma dec_chars z c : In c (dec z) -> c = ch "-" \/ is_ascii_digit c = true.
Proof.
  unfold dec, pretty, pretty_Z. intros Hc. destruct z as [|p|p].
  - destruct Hc as [<-|[]]. by right.
  - right. destruct (pretty_N_spec (Npos p)) as [[Hd _] _]. by apply (forallb_forall is_ascii_digit (u (pretty (N.pos p)))).
  - change (u ("-" ++ pretty p)) with (ch "-" :: u (pretty (N.pos p))) in Hc. destruct Hc as [<-|Hc]; [by left|right].
    destruct (pretty_N_spec (Npos p)) as [[Hd _] _]. by apply (forallb_forall is_ascii_digit (u (pretty (N.pos p)))).
Qed.

Lemma parse_dec (z : Z) : in_i64 z -> parse_i64 (dec z) = Some z.
Proof.
  intros Hz. unfold dec, pretty, pretty_Z.
  assert (forall b v, in_i64 v -> (if (i64_min <=? v) && (v <=? i64_max) then Some v else b) = Some v) as Hr.
  { intros b v [H1 H2]. apply Z.leb_le in H1, H2. by rewrite H1, H2. }
  destruct z as [|p|p]; [done| |].
  - destruct (pretty_N_spec (Npos p)) as [[Hd Hv] He]. change (pretty p) with (pretty (Npos p)).
    unfold parse_i64. destruct (u (pretty (N.pos p))) as [|c r] eqn:Eu; [done|].
    pose proof Hd as Hd'. simpl in Hd'. apply andb_prop in Hd' as [Hc _].
    destruct (digit_not_sign _ Hc) as [-> ->]. rewrite Hd, Hv. simpl orb. cbv zeta iota. by apply Hr.
  - destruct (pretty_N_spec (Npos p)) as [[Hd Hv] He].
    change (u ("-" ++ pretty p)) with (ch "-" :: u (pretty (N.pos p))). unfold parse_i64.
    change (ch "-" =? ch "-")%N with true. cbv iota. rewrite He, Hd, Hv. simpl orb. cbv zeta iota.
    by apply Hr.
Qed.

Lemma parse_i64_range s z : parse_i64 s = Some z -> in_i64 z.
Proof.
  unfold parse_i64. destruct (match s with [] => _ | _ => _ end) as [neg r].
  destruct (is_empty r || negb (forallb is_ascii_digit r)); [discriminate|]. cbv zeta.
  destruct (_ && _) eqn:Eb; [|discriminate]. intros [= <-]. apply andb_prop in Eb as [H1 H2].
  split; by apply Z.leb_le.
Qed.

(** Hexadecimal, read back. *)
Lemma hex_char_digit d : 0 <= d < 16 -> hex_digit (hex_char d) = Some d.
Proof.
  intros Hd. assert (In d [0; 1; 2; 3; 4; 5; 6; 7; 8; 9; 10; 11; 12; 13; 14; 15]) as Hin by (simpl; lia).
  simpl in Hin. by repeat destruct Hin as [<-|Hin].
Qed.

Lemma hex_value_app s t : forall acc, hex_value acc (s ++ t) = v ← hex_value acc s; hex_value v t.
Proof. induction s as [|c s IH]; intros acc; simpl; [done|]. destruct (hex_digit c); simpl; [apply IH|done]. Qed.

Lemma hex_fixed_value n : forall z, 0 <= z < 16 ^ Z.of_nat n -> hex_value 0 (hex_fixed n z) = Some z.
Proof.
  induction n as [|n IH]; intros z Hz; simpl hex_fixed.
  - simpl in *. f_equal. lia.
  - rewrite Nat2Z.inj_succ, Z.pow_succ_r in Hz by lia.
    rewrite hex_value_app, IH by (split; [apply Z.div_pos; lia|apply Z.div_lt_upper_bound; lia]).
    simpl. rewrite hex_char_digit by (apply Z.mod_pos_bound; lia). simpl. f_equal.
    pose proof (Z.div_mod z 16). lia.
Qed.

Lemma hex_char_range d : 0 <= d < 16 -> (48 <= hex_char d < 58 \/ 97 <= hex_char d < 103)%N.
Proof. intros Hd. unfold hex_char. destruct (Z.ltb_spec d 10); lia. Qed.

Lemma hex_fixed_chars n : forall z, 0 <= z -> Forall (fun c => 48 <= c < 58 \/ 97 <= c < 103)%N (hex_fixed n z).
Proof.
  induction n as [|n IH]; intros z Hz; simpl; [done|]. apply Forall_app. split.
  - apply IH, Z.div_pos; lia.
  - constructor; [|done]. apply hex_char_range, Z.mod_pos_bound. lia.
Qed.

Lemma hex_fixed_length n : forall z, length (hex_fixed n z) = n.
Proof. induction n as [|n IH]; intros z; simpl; [done|]. rewrite length_app, IH. simpl. lia. Qed.

Lemma parse_hex_fixed z : in_u64 z -> parse_hex_u64 (hex_fixed 16 z) = Some z.
Proof.
  intros [Hz1 Hz2]. unfold parse_hex_u64.
  pose proof (hex_fixed_length 16 z) as Hl. pose proof (hex_fixed_chars 16 z Hz1) as Hc.
  pose proof (hex_fixed_value 16 z) as Hv. destruct (hex_fixed 16 z) as [|c r]; [done|].
  inversion Hc as [|? ? H1 _]; subst.
  assert ((c =? ch "+")%N = false) as -> by (apply N.eqb_neq; intros ->; by destruct H1 as [[? _]|[? _]]).
  simpl is_empty. cbv iota. rewrite Hv by (unfold u64_max in *; simpl; lia). simpl.
  by rewrite (proj2 (Z.leb_le _ _) Hz2).
Qed.

(** ** Patterns *)

(** [str::split_once] at a string. *)
Fixpoint split_once_str (pat s : ustr) : option (ustr * ustr) :=
  match strip_prefix pat s with
  | Some r => Some ([], r)
  | None => match s with [] => None | c :: s => '(a, b) ← split_once_str pat s; Some (c :: a, b) end
  end.

Lemma split_once_str_step pat s :
  split_once_str pat s =
  match strip_prefix pat s with
  | Some r => Some ([], r)
  | None => match s with [] => None | c :: s => '(a, b) ← split_once_str pat s; Some (c :: a, b) end
  end.
Proof. by destruct s. Qed.

Lemma split_once_str_app p pat a b :
  Forall (fun c => c <> p) a -> split_once_str (p :: pat) (a ++ (p :: pat) ++ b) = Some (a, b).
Proof.
  induction 1 as [|c a Hc Ha IH]; rewrite split_once_str_step.
  - assert (strip_prefix (p :: pat) ([] ++ (p :: pat) ++ b) = Some b) as -> by (by apply strip_prefix_Some). done.
  - destruct (strip_prefix _ _) eqn:E; [apply strip_prefix_Some in E; by injection E|].
    change ((c :: a) ++ (p :: pat) ++ b) with (c :: (a ++ (p :: pat) ++ b)). cbv iota. by rewrite IH.
Qed.

(** [str::replace] of one character. *)
Definition replace_char (c : N) (by_ : ustr) (s : ustr) : ustr :=
  flat_map (fun x => if (x =? c)%N then by_ else [x]) s.

(** [str::split_whitespace], [trim_matches] and [trim_end_matches] of one character. *)
Definition split_whitespace (s : ustr) : list ustr :=
  List.filter (fun w => negb (is_empty w)) (split_on is_whitespace s).
Definition trim_end_matches (c : N) (s : ustr) : ustr := rev (drop_while (N.eqb c) (rev s)).
Definition trim_matches (c : N) (s : ustr) : ustr := trim_end_matches c (drop_while (N.eqb c) s).

(** ** Counting a character *)

Fixpoint count_char (c : N) (s : ustr) : nat :=
  match s with [] => 0 | x :: s => (if (x =? c)%N then 1 else 0) + count_char c s end%nat.

Lemma count_char_app c s t : count_char c (s ++ t) = (count_char c s + count_char c t)%nat.
Proof. induction s as [|x s IH]; simpl; [done|]. rewrite IH. lia. Qed.

Lemma count_char_join c sep ws :
  count_char c (join sep ws) = (list_sum (map (count_char c) ws) + (length ws - 1) * count_char c sep)%nat.
Proof.
  induction ws as [|w ws IH]; [done|]. destruct ws as [|w' ws]; [simpl; lia|].
  rewrite join_cons, !count_char_app, IH by done. simpl. lia.
Qed.
