(* ===== verification/MessageLimits.v ===== *)
(** * Identifiers and limits of messages ([tools/src/messaging.rs])

    Thread identifiers and topics, which become file names and keys of the
    archive, the early validation of a send, and the size limits.  Resolving and
    inspecting attachment paths, and reading a thread, are parameters. *)

From S2P Require Import Prelude.
From S2P Require Import RustStr.
From S2P Require Import RustText.

(** ** Threads *)

(** The bytes of an identifier after its first character. *)
Definition ident_byte (b : N) : bool :=
  is_ascii_alphanumeric b || (b =? ch ".")%N || (b =? ch "_")%N || (b =? ch "-")%N.

(** @src tools/src/messaging.rs:1508-1520 is_valid_thread_id *)
Definition is_valid_thread_id (tid : ustr) : bool :=
  if is_empty tid || (128 <? utf8_len tid)%nat then false
  else
    match tid with
    | [] => false
    | first :: _ => if negb (is_ascii_alphanumeric first) then false else forallb ident_byte (utf8 tid)
    end.

(** @src tools/src/messaging.rs:1522-1524 is_bare_numeric_thread_id *)
Definition is_bare_numeric_thread_id (tid : ustr) : bool := negb (is_empty tid) && forallb is_ascii_digit (utf8 tid).

Inductive ThreadError := ThreadFormat | ThreadReserved | ThreadStoreFailed.

(** @src tools/src/messaging.rs:1542-1580 validate_explicit_thread_id_for_send
    -- [list_thread_messages]: the thread of one message of that thread, if any;
    [None] when the query fails. *)
Definition validate_explicit_thread_id_for_send (list_thread_messages : ustr -> option (list (option ustr)))
    (thread_id : ustr) : ThreadError + unit :=
  if negb (is_valid_thread_id thread_id) then inl ThreadFormat
  else if negb (is_bare_numeric_thread_id thread_id) then inr tt
  else
    match list_thread_messages thread_id with
    | None => inl ThreadStoreFailed
    | Some existing =>
        if existsb (fun row => bool_decide (row = Some thread_id)) existing then inr tt else inl ThreadReserved
    end.

(** @src tools/src/messaging.rs:1586-1601 sanitize_thread_id *)
Definition sanitize_thread_id (raw fallback : ustr) : ustr :=
  let sanitized := take 128 (List.filter ident_byte raw) in
  match sanitized with
  | [] => fallback
  | c :: _ => if is_ascii_alphanumeric c then sanitized else fallback
  end.

(** ** Topics *)

(** @src tools/src/messaging.rs:1764-1786 normalize_topic_value
    -- [inl] carries the trimmed text. *)
Definition normalize_topic_value (raw_topic : ustr) : ustr + ustr :=
  let topic := trim raw_topic in
  let valid :=
    (1 <=? utf8_len topic)%nat && (utf8_len topic <=? 64)%nat &&
    match topic with
    | [] => false
    | c :: chars => is_ascii_alphanumeric c && forallb ident_byte chars
    end in
  if valid then inr topic else inl topic.

(** @src tools/src/messaging.rs:1788-1792 normalize_topic_argument *)
Definition normalize_topic_argument (topic : option ustr) : ustr + option ustr :=
  match topic with
  | None => mret None
  | Some topic => topic ← normalize_topic_value topic; mret (Some topic)
  end.

(** @src tools/src/messaging.rs:1794-1807 normalize_topic_filter *)
Definition normalize_topic_filter (topic : option ustr) : ustr + option ustr :=
  match topic with
  | None => mret None
  | Some topic =>
      let topic := trim topic in
      if is_empty topic then mret None else topic ← normalize_topic_value topic; mret (Some topic)
  end.

(** ** The start of a send *)

(** @src tools/src/messaging.rs:1822-1824 has_any_recipients *)
Definition has_any_recipients (to cc bcc : list ustr) : bool :=
  negb (bool_decide (to = []) && bool_decide (cc = []) && bool_decide (bcc = [])).

(** @src tools/src/messaging.rs:3197-3202 send_message_routed
    -- the subject, cut at 200 characters. *)
Definition truncate_subject (subject : ustr) : ustr := take 200 subject.

(** @src tools/src/messaging.rs:3205-3220 send_message_routed
    -- [inl] carries the value refused. *)
Definition importance_val (importance : option ustr) : ustr + ustr :=
  let val := match importance with None => u "normal" | Some s => to_ascii_lowercase s end in
  if existsb (ustr_eqb val) [u "low"; u "normal"; u "high"; u "urgent"] then inr val else inl val.

(** @src tools/src/messaging.rs:3223-3225 send_message_routed *)
Definition normalize_thread_id (thread_id : option ustr) : option ustr :=
  t ← thread_id; if is_empty (trim t) then None else Some (trim t).

(** ** Sizes *)

(** The limits of [Config], in bytes; zero is no limit. *)
Record SizeLimits := mkLimits {
  max_subject_bytes : Z; max_message_body_bytes : Z; max_attachment_bytes : Z; max_total_message_bytes : Z;
}.

Inductive SizeError :=
  | SubjectTooLong (size limit : Z)
  | BodyTooLong (size limit : Z)
  | AttachmentNotFile (path : ustr)
  | AttachmentTooLong (path : ustr) (size limit : Z)
  | TotalTooLong (size limit : Z).

Definition over (limit size : Z) : bool := (0 <? limit) && (limit <? size).

Section sizes.
  (** A canonical base directory and a resolved path. *)
  Context {Base : Type}.
  (** [resolve_attachment_source_path_from_canonical_base]. *)
  Context (resolve_attachment : Base -> ustr -> option ustr).
  (** [std::fs::metadata]: whether the path is a file, and its length. *)
  Context (metadata : ustr -> option (bool * Z)).

(** @src tools/src/messaging.rs:1657-1674 validate_message_size_limits
    -- the metadata of an attachment; [None] is left to later checks. *)
Definition attachment_metadata (base : option (option Base)) (path : ustr) : option (bool * Z) :=
  match base with
  | Some (Some base_dir) => resolved ← resolve_attachment base_dir path; metadata resolved
  | Some None => None
  | None => metadata path
  end.

(** @src tools/src/messaging.rs:1675-1708 validate_message_size_limits
    -- the loop over the attachments. *)
Fixpoint attachments_size (limits : SizeLimits) (base : option (option Base)) (paths : list ustr) (total_size : Z) :
    SizeError + Z :=
  match paths with
  | [] => inr total_size
  | path :: paths =>
      match attachment_metadata base path with
      | None => attachments_size limits base paths total_size
      | Some (is_file, file_size) =>
          if negb is_file then inl (AttachmentNotFile path)
          else if over (max_attachment_bytes limits) file_size then
            inl (AttachmentTooLong path file_size (max_attachment_bytes limits))
          else attachments_size limits base paths (usat_add total_size file_size)
      end
  end.

(** @src tools/src/messaging.rs:1608-1729 validate_message_size_limits *)
Definition validate_message_size_limits (limits : SizeLimits) (subject body_md : ustr)
    (attachment_paths : option (list ustr)) (attachment_base_dir : option (option Base)) : SizeError + unit :=
  let subject_len := Z.of_nat (utf8_len subject) in
  let body_len := Z.of_nat (utf8_len body_md) in
  if over (max_subject_bytes limits) subject_len then inl (SubjectTooLong subject_len (max_subject_bytes limits))
  else if over (max_message_body_bytes limits) body_len then
    inl (BodyTooLong body_len (max_message_body_bytes limits))
  else
    total_size ← attachments_size limits attachment_base_dir (default [] attachment_paths) (usat_add subject_len body_len);
    if over (max_total_message_bytes limits) total_size then
      inl (TotalTooLong total_size (max_total_message_bytes limits))
    else inr tt.

(** @src tools/src/messaging.rs:1743-1762 validate_reply_body_limit *)
Definition validate_reply_body_limit (limits : SizeLimits) (body_md : ustr) : SizeError + unit :=
  let body_len := Z.of_nat (utf8_len body_md) in
  if over (max_message_body_bytes limits) body_len then inl (BodyTooLong body_len (max_message_body_bytes limits))
  else inr tt.
End sizes.

(** ** Properties of the identifiers and limits of messages

    Identifiers that reach the archive are safe and already in normal form, and
    the size limits refuse exactly what exceeds them. *)

(** ** Identifiers *)

Lemma ident_byte_cases c :
  ident_byte c = true <-> is_ascii_alphanumeric c = true \/ c = ch "." \/ c = ch "_" \/ c = ch "-".
Proof. unfold ident_byte. rewrite !orb_true_iff, !N.eqb_eq. tauto. Qed.

Lemma alphanumeric_range c :
  is_ascii_alphanumeric c = true <-> (48 <= c <= 57 \/ 65 <= c <= 90 \/ 97 <= c <= 122)%N.
Proof.
  unfold is_ascii_alphanumeric, is_ascii_alphabetic, is_ascii_uppercase, is_ascii_lowercase, is_ascii_digit.
  rewrite !orb_true_iff, !andb_true_iff, !N.leb_le. lia.
Qed.

Lemma ident_byte_ascii c : ident_byte c = true -> (c < 128)%N.
Proof.
  rewrite ident_byte_cases, alphanumeric_range. intros [?|[->|[->| ->]]]; [lia|reflexivity..].
Qed.

Lemma alphanumeric_ident c : is_ascii_alphanumeric c = true -> ident_byte c = true.
Proof. rewrite ident_byte_cases. tauto. Qed.

(** A text whose bytes are all ASCII is its own encoding. *)
Lemma utf8_all_ascii s : (forall b, In b (utf8 s) -> (b < 128)%N) -> utf8 s = s.
Proof.
  induction s as [|c s IH]; intros H; [done|]. rewrite utf8_cons in *.
  destruct (N.ltb_spec c 128) as [Hc|Hc].
  - unfold utf8_char in *. rewrite (proj2 (N.ltb_lt _ _) Hc) in *. cbn [app]. f_equal. apply IH.
    intros b Hb. apply H. by right.
  - exfalso. assert (exists d, In d (utf8_char c) /\ (128 <= d)%N) as (d & Hd & Hge).
    { unfold utf8_char. rewrite (proj2 (N.ltb_ge _ _) Hc).
      repeat case_match; eexists; (split; [by left|utf8_lia]). }
    specialize (H d ltac:(apply in_or_app; by left)). lia.
Qed.

Lemma utf8_ascii s : forallb (fun c => (c <? 128)%N) s = true -> utf8 s = s.
Proof.
  rewrite forallb_forall. intros H. apply utf8_all_ascii. induction s as [|c s IH]; intros b; [done|].
  rewrite utf8_cons. intros [Hb|Hb]%in_app_or.
  - pose proof (H c (or_introl eq_refl)) as Hc. unfold utf8_char in Hb. rewrite Hc in Hb. destruct Hb as [<-|[]].
    by apply N.ltb_lt.
  - apply IH; [|done]. intros x Hx. apply H. by right.
Qed.

Lemma ident_utf8 s : forallb ident_byte s = true -> utf8 s = s.
Proof.
  intros H. apply utf8_ascii. rewrite forallb_forall in *. intros x Hx. by apply N.ltb_lt, ident_byte_ascii, H.
Qed.

Lemma ident_bytes s : forallb ident_byte (utf8 s) = forallb ident_byte s.
Proof.
  destruct (forallb ident_byte (utf8 s)) eqn:E.
  - rewrite utf8_all_ascii in E; [done|]. rewrite forallb_forall in E. intros b Hb. by apply ident_byte_ascii, E.
  - symmetry. apply not_true_iff_false. intros H. rewrite (ident_utf8 s H) in E. congruence.
Qed.

(** The form of identifiers: at most [n] characters of the safe set, the first
    one a letter or a digit. *)
Definition safe_ident (n : nat) (s : ustr) : Prop :=
  (exists c r, s = c :: r /\ is_ascii_alphanumeric c = true) /\ forallb ident_byte s = true /\ (length s <= n)%nat.

Lemma valid_thread_id_iff tid : is_valid_thread_id tid = true <-> safe_ident 128 tid.
Proof.
  unfold is_valid_thread_id, safe_ident. destruct tid as [|c r]; [split; [done|by intros ((? & ? & ? & _) & _)]|].
  cbn [is_empty orb]. rewrite ident_bytes. split.
  - intros H. destruct (128 <? utf8_len (c :: r))%nat eqn:El; [done|].
    destruct (is_ascii_alphanumeric c) eqn:Ec; [|done]. cbn [negb] in H. split; [by exists c, r|split; [done|]].
    apply Nat.ltb_ge in El. unfold utf8_len in El. by rewrite (ident_utf8 _ H) in El.
  - intros ((c' & r' & [= <- <-] & Hc) & Hf & Hl). unfold utf8_len. rewrite (ident_utf8 _ Hf).
    rewrite (proj2 (Nat.ltb_ge 128 (length (c :: r)))) by done. by rewrite Hc.
Qed.

Lemma forallb_take (f : N -> bool) n s : forallb f s = true -> forallb f (take n s) = true.
Proof.
  revert n. induction s as [|c s IH]; intros [|n] H; [done..|]. cbn [take forallb] in *.
  apply andb_prop in H as [-> H]. by apply IH.
Qed.

Lemma forallb_filter (f : N -> bool) s : forallb f (List.filter f s) = true.
Proof. apply forallb_forall. by intros x [_ Hx]%filter_In. Qed.

Lemma filter_forallb (f : N -> bool) s : forallb f s = true -> List.filter f s = s.
Proof.
  induction s as [|c s IH]; [done|]. cbn [forallb List.filter]. intros [-> H]%andb_prop. by rewrite IH.
Qed.

Lemma sanitize_valid raw fallback :
  sanitize_thread_id raw fallback = fallback \/ safe_ident 128 (sanitize_thread_id raw fallback).
Proof.
  unfold sanitize_thread_id. cbv zeta. destruct (take 128 (List.filter ident_byte raw)) as [|c r] eqn:E; [by left|].
  destruct (is_ascii_alphanumeric c) eqn:Ec; [|by left]. right. split; [by exists c, r|].
  rewrite <- E. split; [by apply forallb_take, forallb_filter|]. rewrite length_take. lia.
Qed.

Lemma sanitize_fixed raw fallback : safe_ident 128 raw -> sanitize_thread_id raw fallback = raw.
Proof.
  intros ((c & r & -> & Hc) & Hf & Hl). unfold sanitize_thread_id. rewrite (filter_forallb _ _ Hf).
  rewrite take_ge by done. by rewrite Hc.
Qed.

Lemma topic_iff raw t : normalize_topic_value raw = inr t <-> t = trim raw /\ safe_ident 64 t.
Proof.
  unfold normalize_topic_value, safe_ident. cbv zeta. destruct (trim raw) as [|c r].
  - rewrite andb_false_r. split; [done|]. by intros (-> & (? & ? & ? & _) & _).
  - split.
    + intros H. case_hyp; [|done]. injection H as <-. split; [done|].
      apply andb_prop in Heqb as [Hl Hb]. apply andb_prop in Hl as [_ Hl]. apply andb_prop in Hb as [Hc Hr].
      assert (forallb ident_byte (c :: r) = true) as Hf by (cbn [forallb]; by rewrite (alphanumeric_ident c Hc), Hr).
      split; [by exists c, r|split; [done|]]. apply Nat.leb_le in Hl. unfold utf8_len in Hl.
      by rewrite (ident_utf8 _ Hf) in Hl.
    + intros (-> & (c' & r' & [= <- <-] & Hc) & Hf & Hl). unfold utf8_len. rewrite (ident_utf8 _ Hf).
      cbn [forallb] in Hf. apply andb_prop in Hf as [_ Hr]. rewrite Hc, Hr.
      rewrite (proj2 (Nat.leb_le _ 64)) by done. done.
Qed.

Lemma safe_trimmed n s : safe_ident n s -> trim s = s.
Proof.
  intros (_ & Hf & _). rewrite forallb_forall in Hf. apply trim_trimmed.
  assert (forall x, In x s -> is_whitespace x = false) as Hw.
  { intros x Hx. specialize (Hf x Hx). rewrite ident_byte_cases, alphanumeric_range in Hf.
    destruct Hf as [Hf|[->|[->| ->]]]; [|reflexivity..]. unfold is_whitespace. apply not_true_iff_false.
    repeat (rewrite orb_true_iff || rewrite andb_true_iff || rewrite N.leb_le || rewrite N.eqb_eq). lia. }
  split; intros c r ->; apply Hw; [by left|apply in_or_app; right; by left].
Qed.

(** Identifiers are safe and canonical.  A thread identifier is valid
    exactly when it is made of at most 128 letters, digits, dots, underscores and
    dashes and starts with a letter or digit, so it is never a relative path nor
    contains a separator; a sanitised identifier is valid unless it is the
    fallback, and sanitising changes no valid one; a topic is accepted exactly
    when, trimmed, it has that form in at most 64 characters, and is its own
    normal form; and a send may name exactly the valid threads, of the bare
    numbers only those that exist. *)
Theorem identifiers_safe :
  (forall tid, is_valid_thread_id tid = true <-> safe_ident 128 tid) /\
  (forall raw fallback,
     sanitize_thread_id raw fallback = fallback \/ is_valid_thread_id (sanitize_thread_id raw fallback) = true) /\
  (forall tid fallback, is_valid_thread_id tid = true -> sanitize_thread_id tid fallback = tid) /\
  (forall raw t, normalize_topic_value raw = inr t <-> t = trim raw /\ safe_ident 64 t) /\
  (forall raw t, normalize_topic_value raw = inr t ->
     normalize_topic_value t = inr t /\ normalize_topic_filter (Some t) = inr (Some t) /\ is_valid_thread_id t = true) /\
  (forall rows tid, validate_explicit_thread_id_for_send rows tid = inr tt <->
     is_valid_thread_id tid = true /\
     (is_bare_numeric_thread_id tid = true -> exists existing, rows tid = Some existing /\ In (Some tid) existing)).
Proof.
  assert (forall raw t, normalize_topic_value raw = inr t -> normalize_topic_value t = inr t /\ safe_ident 64 t) as Ht.
  { intros raw t [_ Hs]%topic_iff. split; [|done]. apply topic_iff. split; [by rewrite (safe_trimmed 64)|done]. }
  split; [apply valid_thread_id_iff|split; [|split; [|split; [apply topic_iff|split]]]].
  - intros raw fb. destruct (sanitize_valid raw fb); [by left|right]. by apply valid_thread_id_iff.
  - intros tid fb. rewrite valid_thread_id_iff. apply sanitize_fixed.
  - intros raw t H. destruct (Ht raw t H) as [H1 H2]. split; [done|split].
    + unfold normalize_topic_filter. cbv zeta. rewrite (safe_trimmed 64) by done.
      destruct H2 as ((c & r & -> & _) & _). cbn [is_empty]. by rewrite H1.
    + apply valid_thread_id_iff. destruct H2 as (H2 & H3 & H4). split; [done|split; [done|lia]].
  - intros rows tid. unfold validate_explicit_thread_id_for_send.
    destruct (is_valid_thread_id tid); cbn [negb]; [|split; [done|by intros [? _]]].
    destruct (is_bare_numeric_thread_id tid); cbn [negb]; [|by split].
    assert (forall l, existsb (fun row => bool_decide (row = Some tid)) l = true <-> In (Some tid) l) as Hex.
    { intros l. rewrite existsb_exists. setoid_rewrite bool_decide_eq_true. split; [by intros (? & ? & ->)|by eexists]. }
    destruct (rows tid) as [existing|]; [|split; [done|intros [_ H]; by destruct (H eq_refl) as (? & ? & _)]].
    destruct (existsb _ existing) eqn:E; (split; [intros H|intros [_ H]]); try done.
    + split; [done|]. intros _. exists existing. split; [done|by apply Hex].
    + destruct (H eq_refl) as (l & [= <-] & Hin). apply Hex in Hin. congruence.
Qed.

(** ** Sizes *)

Section sizes.
  Context {Base : Type}.
  Context (resolve_attachment : Base -> ustr -> option ustr).
  Context (metadata : ustr -> option (bool * Z)).
#[local] Notation considered base paths := (omap (attachment_metadata resolve_attachment metadata base) paths).

Definition sum_sizes (files : list (bool * Z)) : Z := foldr (fun f acc => snd f + acc) 0 files.

Definition file_ok (limits : SizeLimits) (f : bool * Z) : Prop :=
  fst f = true /\ over (max_attachment_bytes limits) (snd f) = false.

Lemma usat_add_min a b c : 0 <= b -> 0 <= c -> usat_add (Z.min a u64_max) b = Z.min (a + b) u64_max.
Proof. unfold usat_add. lia. Qed.

Lemma sum_sizes_nonneg files : Forall (fun f => 0 <= snd f) files -> 0 <= sum_sizes files.
Proof. induction 1 as [|f files Hf _ IH]; cbn [sum_sizes foldr]; [lia|]. fold (sum_sizes files). lia. Qed.

Lemma attachments_size_spec limits base paths : forall start r,
  Forall (fun f => 0 <= snd f) (considered base paths) -> 0 <= start ->
  attachments_size resolve_attachment metadata limits base paths (Z.min start u64_max) = inr r <->
  Forall (file_ok limits) (considered base paths) /\ r = Z.min (start + sum_sizes (considered base paths)) u64_max.
Proof.
  induction paths as [|path paths IH]; intros start r Hn Hs; cbn [attachments_size omap list_omap] in *.
  { cbn [sum_sizes foldr]. rewrite Z.add_0_r. split; [by intros [= <-]|by intros [_ ->]]. }
  change (list_omap _ _ _ ?x) with (considered base x) in *.
  destruct (attachment_metadata resolve_attachment metadata base path) as [[is_file size]|]; [|by apply IH].
  cbn [sum_sizes foldr snd]. fold (sum_sizes (considered base paths)). apply Forall_cons in Hn as [Hsz Hn]. cbn [snd] in Hsz.
  rewrite Forall_cons. unfold file_ok at 1. cbn [fst snd].
  destruct is_file; cbn [negb]; [|split; [done|by intros [[[? _] _] _]]].
  destruct (over (max_attachment_bytes limits) size); [split; [done|by intros [[[_ ?] _] _]]|].
  rewrite (usat_add_min start size 0) by lia. rewrite (IH (start + size) r) by (done || lia).
  rewrite Z.add_assoc. tauto.
Qed.

Lemma over_min limit size : limit <= u64_max -> over limit (Z.min size u64_max) = (limit <? u64_max) && over limit size.
Proof.
  unfold over. intros H. destruct (Z.ltb_spec limit u64_max), (Z.ltb_spec 0 limit); cbn [andb]; try done; try lia.
Qed.

(** The size limits are exact.  A message passes exactly when the subject
    and the body are within their limits, every attachment that can be inspected
    is a file within the limit of attachments, and all sizes together, added
    without overflow, are within the total; a limit of zero is none.  The check
    before the attachments are known refuses nothing the full check accepts, and
    a reply is checked by the limit of the body alone. *)
Theorem size_limits_exact limits subject body paths base :
  max_total_message_bytes limits <= u64_max -> (forall path f n, metadata path = Some (f, n) -> 0 <= n) ->
  let subject_len := Z.of_nat (utf8_len subject) in
  let body_len := Z.of_nat (utf8_len body) in
  let files := considered base (default [] paths) in
  let check := validate_message_size_limits resolve_attachment metadata limits subject body in
  (check paths base = inr tt <->
     over (max_subject_bytes limits) subject_len = false /\ over (max_message_body_bytes limits) body_len = false /\
     Forall (file_ok limits) files /\
     (max_total_message_bytes limits = u64_max \/
      over (max_total_message_bytes limits) (subject_len + body_len + sum_sizes files) = false)) /\
  (check paths base = inr tt -> check None None = inr tt) /\
  (validate_reply_body_limit limits body = inr tt <-> over (max_message_body_bytes limits) body_len = false).
Proof.
  intros Hmax Hmeta subject_len body_len files check.
  assert (forall ps b, Forall (fun f => 0 <= snd f) (considered b ps)) as Hn.
  { intros ps b. apply List.Forall_forall. intros [f n] Hin. apply list_elem_of_In, list_elem_of_omap in Hin.
    destruct Hin as (p & _ & Hp). unfold attachment_metadata in Hp. destruct b as [[b|]|]; [|done|by apply (Hmeta p f)].
    apply bind_Some in Hp as (q & _ & Hq). by apply (Hmeta q f). }
  assert (0 <= subject_len + body_len) as Hlen by (unfold subject_len, body_len; lia).
  assert (forall ps b, check ps b = inr tt <->
     over (max_subject_bytes limits) subject_len = false /\ over (max_message_body_bytes limits) body_len = false /\
     Forall (file_ok limits) (considered b (default [] ps)) /\
     (max_total_message_bytes limits = u64_max \/
      over (max_total_message_bytes limits) (subject_len + body_len + sum_sizes (considered b (default [] ps))) = false)) as Hiff.
  { intros ps b. unfold check, validate_message_size_limits. cbv zeta. fold subject_len body_len.
    destruct (over (max_subject_bytes limits) subject_len); [split; [done|by intros [? _]]|].
    destruct (over (max_message_body_bytes limits) body_len); [split; [done|by intros (_ & ? & _)]|].
    unfold usat_add. rewrite result_bind_inr. setoid_rewrite (attachments_size_spec limits b (default [] ps) _ _ (Hn _ _) Hlen).
    assert (forall n, (if over (max_total_message_bytes limits) n then
        inl (TotalTooLong n (max_total_message_bytes limits)) else inr tt : SizeError + unit) = inr tt <->
        over (max_total_message_bytes limits) n = false) as Hif by (intros n; by destruct (over _ n)).
    setoid_rewrite Hif.
    transitivity (Forall (file_ok limits) (considered b (default [] ps)) /\
      over (max_total_message_bytes limits)
        (Z.min (subject_len + body_len + sum_sizes (considered b (default [] ps))) u64_max) = false).
    { split; [by intros (n & [H1 ->] & H2)|]. intros [H1 H2]. eexists. split; [split; [exact H1|reflexivity]|exact H2]. }
    rewrite over_min by done. destruct (Z.ltb_spec (max_total_message_bytes limits) u64_max); cbn [andb].
    - split; [tauto|]. intros (_ & _ & H1 & [H2|H2]); [lia|tauto].
    - split; [|tauto]. intros [H1 _]. split; [done|split; [done|split; [done|left; lia]]]. }
  split; [apply Hiff|split].
  - rewrite !Hiff. cbn [default omap list_omap sum_sizes foldr]. intros (H1 & H2 & _ & H3).
    split; [done|split; [done|split; [constructor|]]]. destruct H3 as [H3|H3]; [by left|right].
    pose proof (sum_sizes_nonneg _ (Hn (default [] paths) base)) as Hsum. revert H3. unfold over.
    destruct (0 <? max_total_message_bytes limits); cbn [andb]; [|done]. rewrite !Z.ltb_ge. fold files in Hsum |- *. lia.
  - unfold validate_reply_body_limit. cbv zeta. fold body_len. by destruct (over _ body_len).
Qed.
End sizes.

(** A message with one attachment of 40 bytes and one that cannot be read. *)
Definition ex_metadata (path : ustr) : option (bool * Z) := if ustr_eqb path (u "a.png") then Some (true, 40) else None.

Lemma size_limits_exact_witness :
  validate_message_size_limits (Base := unit) (fun _ p => Some p) ex_metadata (mkLimits 0 10 64 48) (u "hi") (u "there")
    (Some [u "a.png"; u "b.png"]) (Some (Some tt)) = inr tt.
Proof.
  apply (proj1 (size_limits_exact (Base := unit) (fun _ p => Some p) ex_metadata (mkLimits 0 10 64 48) (u "hi") (u "there")
    (Some [u "a.png"; u "b.png"]) (Some (Some tt)) ltac:(vm_compute; discriminate)
    (fun p f n H => ltac:(unfold ex_metadata in H; destruct (ustr_eqb p _); [injection H as <- <-; lia | discriminate])))).
  split; [reflexivity|split; [reflexivity|split]].
  - vm_compute. repeat constructor.
  - right. vm_compute. reflexivity.
Defined.
