(* ===== verification/SearchPlanner.v ===== *)
(** * The search planner ([db/src/search_planner.rs])

    A structured query becomes SQL text with positional parameters; results are
    filtered and redacted for their reader; a page ends with an opaque cursor.
    An [f64] is its 64 bits.  [serde_json::to_string] of a string, which is
    third-party code, is a parameter. *)

From S2P Require Import Prelude.
From S2P Require Import RustStr.
From S2P Require Import RustText.

(** @src db/src/search_planner.rs:21-30 DocKind *)
Inductive DocKind := KMessage | KAgent | KProject | KThread.
#[export] Instance DocKind_eq_dec : EqDecision DocKind.
Proof. solve_decision. Defined.

(** @src db/src/search_planner.rs:44-63 Importance, Importance::as_str *)
Inductive Importance := ILow | INormal | IHigh | IUrgent.
Definition importance_str (i : Importance) : ustr :=
  match i with ILow => u "low" | INormal => u "normal" | IHigh => u "high" | IUrgent => u "urgent" end.

(** @src db/src/search_planner.rs:65-75 Importance::parse *)
Definition importance_parse (s : ustr) : option Importance :=
  let l := to_ascii_lowercase s in
  if ustr_eqb l (u "low") then Some ILow
  else if ustr_eqb l (u "normal") then Some INormal
  else if ustr_eqb l (u "high") then Some IHigh
  else if ustr_eqb l (u "urgent") then Some IUrgent
  else None.

(** @src db/src/search_planner.rs:78-98 Direction, TimeRange, TimeRange::is_empty *)
Inductive Direction := Inbox | Outbox.
#[export] Instance Direction_eq_dec : EqDecision Direction.
Proof. solve_decision. Defined.
Record TimeRange := mkTimeRange { min_ts : option Z; max_ts : option Z }.
Definition time_range_is_empty (r : TimeRange) : bool :=
  match min_ts r, max_ts r with None, None => true | _, _ => false end.

(** @src db/src/search_planner.rs:100-111 RankingMode *)
Inductive RankingMode := Relevance | Recency | Oldest.

(** @src db/src/search_planner.rs:117-148 ScopePolicy, ScopePolicy::is_restricted *)
Inductive ScopePolicy :=
| Unrestricted
| CallerScoped (caller_agent : ustr)
| ProjectSet (allowed_project_ids : list Z).
Definition is_restricted (p : ScopePolicy) : bool := match p with Unrestricted => false | _ => true end.

(** @src db/src/search_planner.rs:150-172 RedactionConfig, RedactionConfig::default *)
Record RedactionConfig := mkRedaction {
  redact_body : bool;
  redact_agent_names : bool;
  redact_thread_ids : bool;
  placeholder : ustr;
}.
Definition redaction_default : RedactionConfig := mkRedaction false false false (u "[redacted]").

(** @src db/src/search_planner.rs:175-201 RedactionConfig::contact_blocked, strict, is_active *)
Definition contact_blocked : RedactionConfig :=
  mkRedaction true false true (u "[content hidden " ++ [8212%N] ++ u " contact policy]").
Definition redaction_strict : RedactionConfig := mkRedaction true true true (u "[redacted]").
Definition redaction_active (c : RedactionConfig) : bool :=
  redact_body c || redact_agent_names c || redact_thread_ids c.

(** @src db/src/search_planner.rs:204-239 SearchAuditEntry, AuditAction *)
Inductive AuditAction := Denied | Redacted.
Record SearchAuditEntry := mkAudit {
  au_action : AuditAction;
  au_doc_kind : DocKind;
  au_doc_id : Z;
  au_project_id : option Z;
  au_reason : ustr;
  au_policy : ustr;
}.

(** @src db/src/search_planner.rs:245-262 SEARCH_QUERY_LIMIT_MAX, TextFieldScope *)
Definition SEARCH_QUERY_LIMIT_MAX : Z := 5000.
Inductive TextFieldScope := SubjectAndBody | SubjectOnly | BodyOnly.

(** @src db/src/search_planner.rs:264-330 SearchQuery *)
Record SearchQuery := mkQuery {
  q_text : ustr;
  q_text_fields : TextFieldScope;
  q_doc_kind : DocKind;
  q_project_id : option Z;
  q_product_id : option Z;
  q_importance : list Importance;
  q_direction : option Direction;
  q_agent_name : option ustr;
  q_thread_id : option ustr;
  q_ack_required : option bool;
  q_time_range : TimeRange;
  q_ranking : RankingMode;
  q_limit : option Z;
  q_cursor : option ustr;
  q_explain : bool;
  q_scope : ScopePolicy;
  q_redaction : option RedactionConfig;
}.

(** @src db/src/search_planner.rs:332-374 SearchQuery::messages, product_messages, agents, projects *)
Definition query_of (text : ustr) (kind : DocKind) (project product : option Z) : SearchQuery :=
  mkQuery text SubjectAndBody kind project product [] None None None None (mkTimeRange None None) Relevance None
    None false Unrestricted None.
Definition query_messages (text : ustr) (project_id : Z) : SearchQuery := query_of text KMessage (Some project_id) None.
Definition query_product_messages (text : ustr) (product_id : Z) : SearchQuery :=
  query_of text KMessage None (Some product_id).
Definition query_agents (text : ustr) (project_id : Z) : SearchQuery := query_of text KAgent (Some project_id) None.
Definition query_projects (text : ustr) : SearchQuery := query_of text KProject None None.

(** @src db/src/search_planner.rs:376-381 SearchQuery::effective_limit *)
Definition effective_limit (q : SearchQuery) : Z :=
  Z.min (Z.max (default 50 (q_limit q)) 1) SEARCH_QUERY_LIMIT_MAX.

(** @src core/src/search_types.rs:124-174 DateRange, ImportanceFilter, SearchFilter
    -- the variants of [ImportanceFilter] this conversion produces. *)
Record SearchFilter := mkFilter {
  f_sender : option ustr;
  f_agent : option ustr;
  f_project_id : option Z;
  f_date_range : option (option Z * option Z);
  f_importance : option Importance;
  f_thread_id : option ustr;
  f_doc_kind : option DocKind;
}.

(** @src db/src/search_planner.rs:383-431 SearchQuery::to_search_filter *)
Definition to_search_filter (q : SearchQuery) : SearchFilter :=
  let importance := head (q_importance q) in
  let date_range :=
    if time_range_is_empty (q_time_range q) then None
    else Some (min_ts (q_time_range q), max_ts (q_time_range q)) in
  let outbox := bool_decide (q_direction q = Some Outbox) in
  mkFilter
    (if outbox then q_agent_name q else None)
    (if outbox then None else q_agent_name q)
    (q_project_id q) date_range importance (q_thread_id q) None.

(** ** Cursors *)

(** @src db/src/search_planner.rs:438-446 SearchCursor *)
Record SearchCursor := mkCursor { c_score : Z; c_id : Z }.

(** [f64::is_finite] on the bits: the exponent is not all ones. *)
Definition f64_is_finite (bits : Z) : bool := negb (Z.land (Z.shiftr bits 52) 2047 =? 2047).

(** @src db/src/search_planner.rs:449-454 SearchCursor::encode *)
Definition cursor_encode (c : SearchCursor) : ustr :=
  u "s" ++ hex_fixed 16 (c_score c) ++ u ":i" ++ dec (c_id c).

(** @src db/src/search_planner.rs:456-470 SearchCursor::decode *)
Definition cursor_decode (token : ustr) : option SearchCursor :=
  '(score_part, id_part) ← split_once_str (u ":i") token;
  hex ← strip_prefix (u "s") score_part;
  bits ← parse_hex_u64 hex;
  if f64_is_finite bits then id ← parse_i64 id_part; Some (mkCursor bits id) else None.

(** ** Search results *)

(** @src db/src/search_planner.rs:477-561 SearchResult, ScoreFactorSummary *)
Record ScoreFactorSummary := mkFactor { sf_key : ustr; sf_contribution : Z; sf_summary : ustr }.
Record SearchResult := mkResult {
  r_doc_kind : DocKind;
  r_id : Z;
  r_project_id : option Z;
  r_title : ustr;
  r_body : ustr;
  r_score : option Z;
  r_importance : option ustr;
  r_ack_required : option bool;
  r_created_ts : option Z;
  r_thread_id : option ustr;
  r_topic : option ustr;
  r_from_agent : option ustr;
  r_from_agent_id : option Z;
  r_to : option (list ustr);
  r_cc : option (list ustr);
  r_bcc : option (list ustr);
  r_reason_codes : list ustr;
  r_score_factors : list ScoreFactorSummary;
  r_redacted : bool;
  r_redaction_reason : option ustr;
}.

(** ** Plans *)

(** @src db/src/search_planner.rs:662-692 PlanParam, PlanMethod, PlanMethod::as_str *)
Inductive PlanParam := PInt (z : Z) | PText (s : ustr) | PFloat (bits : Z).
Inductive PlanMethod := MTextMatch | MLike | MFilterOnly | MEmpty.
#[export] Instance PlanMethod_eq_dec : EqDecision PlanMethod.
Proof. solve_decision. Defined.
Definition plan_method_str (m : PlanMethod) : ustr :=
  match m with
  | MTextMatch => u "text_match" | MLike => u "like_fallback" | MFilterOnly => u "filter_only" | MEmpty => u "empty"
  end.

(** @src db/src/search_planner.rs:648-660 SearchPlan *)
Record SearchPlan := mkPlan {
  p_sql : ustr;
  p_params : list PlanParam;
  p_method : PlanMethod;
  p_normalized_query : option ustr;
  p_facets : list ustr;
  p_scope_enforced : bool;
  p_scope_label : ustr;
}.

(** @src db/src/search_planner.rs:1308-1319 SearchPlan::empty *)
Definition plan_empty (scope_label : ustr) : SearchPlan := mkPlan [] [] MEmpty None [] false scope_label.

(** @src db/src/search_planner.rs:613-638 QueryExplain *)
Record QueryExplain := mkExplain {
  e_method : ustr;
  e_normalized_query : option ustr;
  e_used_like_fallback : bool;
  e_facet_count : nat;
  e_facets_applied : list ustr;
  e_sql : ustr;
  e_scope_policy : ustr;
  e_denied_count : Z;
  e_redacted_count : Z;
}.

(** @src db/src/search_planner.rs:1292-1306 SearchPlan::explain *)
Definition plan_explain (p : SearchPlan) : QueryExplain :=
  mkExplain (plan_method_str (p_method p)) (p_normalized_query p) (bool_decide (p_method p = MLike))
    (length (p_facets p)) (p_facets p) (p_sql p) (p_scope_label p) 0 0.

(** @src db/src/search_planner.rs:1428-1441 scope_policy_label *)
Definition scope_policy_label (p : ScopePolicy) : ustr :=
  match p with
  | Unrestricted => u "unrestricted"
  | CallerScoped caller_agent => u "caller_scoped:" ++ caller_agent
  | ProjectSet ids => u "project_set:" ++ dec (Z.of_nat (length ids))
  end.

(** @src db/src/queries.rs:12154-12178 extract_like_terms *)
Definition is_term_char (c : N) : bool :=
  is_ascii_alphanumeric c || (c =? ch ".")%N || (c =? ch "_")%N || (c =? ch "/")%N || (c =? ch "-")%N.
Definition STOPWORDS : list ustr := [u "AND"; u "OR"; u "NOT"; u "NEAR"].
Fixpoint like_terms_loop (max_terms : nat) (tokens terms : list ustr) : list ustr :=
  match tokens with
  | [] => terms
  | token :: tokens =>
      if (utf8_len token <? 2)%nat then like_terms_loop max_terms tokens terms
      else if existsb (fun sw => eq_ignore_ascii_case sw token) STOPWORDS then like_terms_loop max_terms tokens terms
      else
        let terms := if existsb (fun t => eq_ignore_ascii_case t token) terms then terms else terms ++ [token] in
        if (max_terms <=? length terms)%nat then terms else like_terms_loop max_terms tokens terms
  end.
Definition extract_like_terms (query : ustr) (max_terms : nat) : list ustr :=
  like_terms_loop max_terms (split_on (fun c => negb (is_term_char c)) query) [].

(** @src db/src/search_planner.rs:700-712 SUBJECT_COLUMN, BODY_COLUMN, SUBJECT_AND_BODY_COLUMNS, LikeCondition *)
Definition SUBJECT_COLUMN : list ustr := [u "m.subject"].
Definition BODY_COLUMN : list ustr := [u "m.body_md"].
Definition SUBJECT_AND_BODY_COLUMNS : list ustr := [u "m.subject"; u "m.body_md"].
Record LikeCondition := mkLike { needle : ustr; columns : list ustr; negated : bool }.

Definition quote : N := 34.

(** One word of the query, quoted spaces included, and the rest. *)
Fixpoint take_raw (in_quotes : bool) (s : ustr) : ustr * ustr :=
  match s with
  | [] => ([], [])
  | c :: r =>
      if is_whitespace c && negb in_quotes then ([], s)
      else
        let '(raw, rest) := take_raw (if (c =? quote)%N then negb in_quotes else in_quotes) r in
        (c :: raw, rest)
  end.

(** The column prefix of a word, its needles, and their addition. *)
Definition like_field (default_columns : list ustr) (raw : ustr) : list ustr * ustr :=
  match split_once (ch ":") raw with
  | Some (field, value) =>
      if eq_ignore_ascii_case field (u "subject") then (SUBJECT_COLUMN, value)
      else if eq_ignore_ascii_case field (u "body") || eq_ignore_ascii_case field (u "body_md")
      then (BODY_COLUMN, value)
      else (default_columns, raw)
  | None => (default_columns, raw)
  end.
Definition like_needles (max_terms : nat) (value : ustr) : list ustr :=
  if starts_with [quote] value then [join (u " ") (split_whitespace (trim_matches quote value))]
  else extract_like_terms (trim_end_matches (ch "*") value) max_terms.
Definition same_condition (a b : LikeCondition) : bool :=
  eq_ignore_ascii_case (needle a) (needle b) && bool_decide (columns a = columns b) &&
  Bool.eqb (negated a) (negated b).
Definition push_condition (max_terms : nat) (cols : list ustr) (neg : bool) (conditions : list LikeCondition)
    (n : ustr) : list LikeCondition :=
  if (length n <? 2)%nat || (max_terms <=? length conditions)%nat then conditions
  else
    let condition := mkLike n cols neg in
    if existsb (fun seen => same_condition seen condition) conditions then conditions
    else conditions ++ [condition].

Definition is_operator (raw : ustr) : bool :=
  existsb (ustr_eqb raw) [u "AND"; u "OR"; u "NEAR"; u "&&"; u "||"].

(** @src db/src/search_planner.rs:714-800 like_conditions
    -- the loop with its iterations bounded by [fuel]. *)
Fixpoint like_loop (fuel max_terms : nat) (default_columns : list ustr) (conditions : list LikeCondition)
    (negate_next : bool) (chars : ustr) : list LikeCondition :=
  match fuel with
  | O => conditions
  | S fuel =>
      if (max_terms <=? length conditions)%nat then conditions
      else
        match drop_while is_whitespace chars with
        | [] => conditions
        | c :: rest =>
            if (c =? ch "-")%N then like_loop fuel max_terms default_columns conditions true rest
            else
              let '(raw, rest) := take_raw false (c :: rest) in
              if ustr_eqb raw (u "NOT") then like_loop fuel max_terms default_columns conditions true rest
              else if is_operator raw then like_loop fuel max_terms default_columns conditions negate_next rest
              else
                let '(cols, value) := like_field default_columns raw in
                let conditions :=
                  foldl (push_condition max_terms cols negate_next) conditions (like_needles max_terms value) in
                like_loop fuel max_terms default_columns conditions false rest
        end
  end.
Definition like_conditions (text : ustr) (default_columns : list ustr) (max_terms : nat) : list LikeCondition :=
  like_loop (S (length text)) max_terms default_columns [] false text.

(** @src db/src/search_planner.rs:1279-1289 has_any_message_facet *)
Definition has_any_message_facet (q : SearchQuery) : bool :=
  negb (bool_decide (q_importance q = [] )) || bool_decide (is_Some (q_direction q))
  || bool_decide (is_Some (q_agent_name q)) || bool_decide (is_Some (q_thread_id q))
  || bool_decide (is_Some (q_ack_required q)) || negb (time_range_is_empty (q_time_range q))
  || bool_decide (is_Some (q_project_id q)) || bool_decide (is_Some (q_product_id q)).

(** ** SQL assembly

    The accumulators of a planner: the parameters, the conditions, the facets,
    the joins after the main tables, and whether the scope is in the SQL. *)
Record Acc := mkAcc {
  a_params : list PlanParam;
  a_where : list ustr;
  a_facets : list ustr;
  a_joins : ustr;
  a_scope : bool;
}.
Definition acc_init : Acc := mkAcc [] [] [] [] false.

Definition add_where (w : ustr) (ps : list PlanParam) (a : Acc) : Acc :=
  mkAcc (a_params a ++ ps) (a_where a ++ [w]) (a_facets a) (a_joins a) (a_scope a).
Definition add_facet (f : string) (a : Acc) : Acc :=
  mkAcc (a_params a) (a_where a) (a_facets a ++ [u f]) (a_joins a) (a_scope a).
Definition add_join (j : ustr) (a : Acc) : Acc :=
  mkAcc (a_params a) (a_where a) (a_facets a) (a_joins a ++ j) (a_scope a).
Definition scope_on (a : Acc) : Acc := mkAcc (a_params a) (a_where a) (a_facets a) (a_joins a) true.

(** [WHERE column IN (?, ..., ?)]. *)
Definition in_clause {A} (column : ustr) (l : list A) : ustr :=
  column ++ u " IN (" ++ join (u ", ") (map (fun _ => u "?") l) ++ u ")".

(** [needle] as a LIKE pattern, its wildcards escaped. *)
Definition like_pattern (n : ustr) : ustr :=
  let escaped :=
    replace_char (ch "_") (u "\_") (replace_char (ch "%") (u "\%") (replace_char (ch "\") (u "\\") n)) in
  u "%" ++ escaped ++ u "%".

(** @src db/src/search_planner.rs:921-944 plan_message_search
    -- the conditions of the text. *)
Definition like_part (c : LikeCondition) : ustr :=
  let any_column := u "(" ++ join (u " OR ") (map (fun col => col ++ u " LIKE ? ESCAPE '\'") (columns c)) ++ u ")" in
  if negated c then u "NOT " ++ any_column else any_column.
Definition like_params (c : LikeCondition) : list PlanParam :=
  map (fun _ => PText (like_pattern (needle c))) (columns c).
Definition default_columns (s : TextFieldScope) : list ustr :=
  match s with SubjectAndBody => SUBJECT_AND_BODY_COLUMNS | SubjectOnly => SUBJECT_COLUMN | BodyOnly => BODY_COLUMN end.
Definition text_block (q : SearchQuery) (a : Acc) : Acc :=
  let conditions := like_conditions (q_text q) (default_columns (q_text_fields q)) 5 in
  match conditions with
  | [] => a
  | _ => add_where (join (u " AND ") (map like_part conditions)) (flat_map like_params conditions) a
  end.

(** @src db/src/search_planner.rs:968-978 plan_message_search
    -- the project or product of the query. *)
Definition project_block (q : SearchQuery) (a : Acc) : Acc :=
  match q_project_id q with
  | Some pid => add_facet "project_id" (add_where (u "m.project_id = ?") [PInt pid] a)
  | None =>
      match q_product_id q with
      | Some prod_id =>
          add_facet "product_id"
            (add_where (u "ppl.product_id = ?") [PInt prod_id]
               (add_join (u " JOIN product_project_links ppl ON ppl.project_id = m.project_id") a))
      | None => a
      end
  end.

(** @src db/src/search_planner.rs:980-994 plan_message_search
    -- the scope of the caller; [plan_agent_search] and [plan_project_search]
    do the same on their own column. *)
Definition scope_block (column : ustr) (q : SearchQuery) (a : Acc) : Acc :=
  match q_scope q with
  | ProjectSet (id :: ids) =>
      scope_on (add_facet "scope_project_set" (add_where (in_clause column (id :: ids)) (map PInt (id :: ids)) a))
  | _ => a
  end.

(** @src db/src/search_planner.rs:996-1035 plan_message_search
    -- importance, thread, acknowledgement and time. *)
Definition importance_block (q : SearchQuery) (a : Acc) : Acc :=
  match q_importance q with
  | [] => a
  | l => add_facet "importance"
           (add_where (in_clause (u "m.importance") l) (map (fun i => PText (importance_str i)) l) a)
  end.
Definition thread_block (q : SearchQuery) (a : Acc) : Acc :=
  match q_thread_id q with
  | None => a
  | Some thread =>
      add_facet "thread_id"
        match parse_i64 thread with
        | Some root_id => add_where (u "(m.thread_id = ? OR m.id = ?)") [PText thread; PInt root_id] a
        | None => add_where (u "m.thread_id = ?") [PText thread] a
        end
  end.
Definition ack_block (q : SearchQuery) (a : Acc) : Acc :=
  match q_ack_required q with
  | Some ack => add_facet "ack_required" (add_where (u "m.ack_required = ?") [PInt (if ack : bool then 1 else 0)] a)
  | None => a
  end.
Definition time_block (q : SearchQuery) (a : Acc) : Acc :=
  let a :=
    match min_ts (q_time_range q) with
    | Some min => add_facet "time_range_min" (add_where (u "m.created_ts >= ?") [PInt min] a)
    | None => a
    end in
  match max_ts (q_time_range q) with
  | Some max => add_facet "time_range_max" (add_where (u "m.created_ts <= ?") [PInt max] a)
  | None => a
  end.

(** @src db/src/search_planner.rs:1070-1096 plan_message_search
    -- the position after the cursor, when it decodes. *)
Definition time_cursor_expr (r : RankingMode) : option ustr :=
  match r with
  | Recency => Some (u "-CAST(COALESCE(m.created_ts, 0) AS REAL)")
  | Oldest => Some (u "CAST(COALESCE(m.created_ts, 0) AS REAL)")
  | Relevance => None
  end.
Definition cursor_block (q : SearchQuery) (a : Acc) : Acc :=
  match q_cursor q ≫= cursor_decode with
  | None => a
  | Some cursor =>
      add_facet "cursor"
        match time_cursor_expr (q_ranking q) with
        | Some e =>
            add_where (u "(" ++ e ++ u " > ? OR (" ++ e ++ u " = ? AND m.id > ?))")
              [PFloat (c_score cursor); PFloat (c_score cursor); PInt (c_id cursor)] a
        | None => add_where (u "m.id > ?") [PInt (c_id cursor)] a
        end
  end.

(** @src db/src/search_planner.rs:1098-1112 plan_message_search
    -- the assembly the three planners share. *)
Definition where_str (ws : list ustr) : ustr :=
  match ws with [] => [] | _ => u " WHERE " ++ join (u " AND ") ws end.
Definition assemble (select_cols from_clause order_clause : ustr) (m : PlanMethod) (q : SearchQuery) (a : Acc) :
    SearchPlan :=
  mkPlan
    (u "SELECT " ++ select_cols ++ u " FROM " ++ (from_clause ++ a_joins a) ++ where_str (a_where a) ++ u " " ++
     order_clause ++ u " LIMIT ?")
    (a_params a ++ [PInt (effective_limit q)]) m None (a_facets a) (a_scope a) (scope_policy_label (q_scope q)).

Definition message_select : ustr :=
  u "m.id, m.subject, m.importance, m.ack_required, m.created_ts, " ++
  u "m.thread_id, COALESCE(a.name, '[unknown sender]') AS from_name, " ++
  u "a.id AS from_agent_id, m.body_md, m.project_id, 0.0 AS score, m.topic".
Definition message_order (r : RankingMode) : ustr :=
  match r with
  | Recency => u "ORDER BY COALESCE(m.created_ts, 0) DESC, m.id ASC"
  | Oldest => u "ORDER BY COALESCE(m.created_ts, 0) ASC, m.id ASC"
  | Relevance => u "ORDER BY score ASC, m.id ASC"
  end.

(** @src db/src/search_planner.rs:878-900 plan_message_search
    -- the choice of method. *)
Definition message_method (q : SearchQuery) : PlanMethod :=
  if negb (is_empty (q_text q)) then
    match extract_like_terms (q_text q) 5 with [] => MEmpty | _ => MLike end
  else if has_any_message_facet q then MFilterOnly
  else MEmpty.

(** One condition per term on two columns of agents or projects. *)
Definition term_block (part : string) (terms : list ustr) (a : Acc) : Acc :=
  add_where (join (u " AND ") (map (fun _ => u part) terms))
    (flat_map (fun t => [PText (like_pattern t); PText (like_pattern t)]) terms) a.

Definition term_method (q : SearchQuery) : PlanMethod :=
  if is_empty (q_text q) then MEmpty
  else match extract_like_terms (q_text q) 5 with [] => MEmpty | _ => MLike end.

(** @src db/src/search_planner.rs:1114-1198 plan_agent_search *)
Definition plan_agent_search (q : SearchQuery) : SearchPlan :=
  match term_method q with
  | MEmpty => plan_empty (scope_policy_label (q_scope q))
  | m =>
      let a :=
        term_block "(a.name LIKE ? ESCAPE '\' OR a.task_description LIKE ? ESCAPE '\')"
          (extract_like_terms (q_text q) 5) acc_init in
      let a :=
        match q_project_id q with
        | Some pid => add_facet "project_id" (add_where (u "a.project_id = ?") [PInt pid] a)
        | None => a
        end in
      assemble (u "a.id, a.name, a.task_description, a.project_id, 0.0 AS score") (u "agents a")
        (u "ORDER BY a.id ASC") m q (scope_block (u "a.project_id") q a)
  end.

(** @src db/src/search_planner.rs:1200-1277 plan_project_search *)
Definition plan_project_search (q : SearchQuery) : SearchPlan :=
  match term_method q with
  | MEmpty => plan_empty (scope_policy_label (q_scope q))
  | m =>
      let a :=
        term_block "(p.slug LIKE ? ESCAPE '\' OR p.human_key LIKE ? ESCAPE '\')"
          (extract_like_terms (q_text q) 5) acc_init in
      assemble (u "p.id, p.slug, p.human_key, 0.0 AS score") (u "projects p") (u "ORDER BY p.id ASC") m q
        (scope_block (u "p.id") q a)
  end.

(** @src db/src/search_planner.rs:835-871 empty_plan_sql *)
Definition empty_plan_sql (kind : DocKind) : ustr :=
  match kind with
  | KMessage | KThread =>
      u "SELECT 0 AS id, '' AS subject, '' AS importance, 0 AS ack_required, 0 AS created_ts, " ++
      u "'' AS thread_id, '' AS from_name, 0 AS from_agent_id, '' AS body_md, 0 AS project_id, " ++
      u "0.0 AS score, NULL AS topic WHERE 0"
  | KAgent =>
      u "SELECT 0 AS id, '' AS name, '' AS task_description, 0 AS project_id, 0.0 AS score WHERE 0"
  | KProject => u "SELECT 0 AS id, '' AS slug, '' AS human_key, 0.0 AS score WHERE 0"
  end.

Section planner.
  Context (json_string : ustr -> ustr).

(** @src db/src/search_planner.rs:1037-1068 plan_message_search
    -- the direction or the agent. *)
Definition direction_block (q : SearchQuery) (a : Acc) : Acc :=
  match q_direction q, q_agent_name q with
  | Some Outbox, Some agent =>
      add_facet "direction" (add_where (u "a.name = ? COLLATE NOCASE") [PText agent] a)
  | Some Inbox, Some agent =>
      add_facet "direction"
        (add_where (u "instr(lower(COALESCE(m.recipients_json, '')), lower(?)) > 0") [PText (json_string agent)] a)
  | None, Some agent =>
      add_facet "agent_name"
        (add_where
           (u "(a.name = ? COLLATE NOCASE OR instr(lower(COALESCE(m.recipients_json, '')), lower(?)) > 0)")
           [PText agent; PText (json_string agent)] a)
  | _, None => a
  end.

(** The conditions after those of the text, in the order of the source. *)
Definition message_blocks (q : SearchQuery) (a : Acc) : Acc :=
  let a := scope_block (u "m.project_id") q (project_block q a) in
  let a := ack_block q (thread_block q (importance_block q a)) in
  cursor_block q (direction_block q (time_block q a)).

(** @src db/src/search_planner.rs:873-967 plan_message_search
    -- the method and the tables, then the blocks in their order. *)
Definition plan_message_search (q : SearchQuery) : SearchPlan :=
  let assemble_with m a :=
    assemble message_select (u "messages m LEFT JOIN agents a ON a.id = m.sender_id") (message_order (q_ranking q)) m q
      (message_blocks q a) in
  match message_method q with
  | MLike => assemble_with MLike (text_block q acc_init)
  | MFilterOnly => assemble_with MFilterOnly acc_init
  | _ => plan_empty (scope_policy_label (q_scope q))
  end.

(** @src db/src/search_planner.rs:802-833 plan_search *)
Definition plan_search (q : SearchQuery) : SearchPlan :=
  let plan :=
    match q_doc_kind q with
    | KMessage | KThread => plan_message_search q
    | KAgent => plan_agent_search q
    | KProject => plan_project_search q
    end in
  if bool_decide (p_method plan = MEmpty) && is_empty (p_sql plan) then
    if negb (is_empty (q_text q)) || has_any_message_facet q then
      mkPlan (empty_plan_sql (q_doc_kind q)) (p_params plan) (p_method plan) (p_normalized_query plan)
        (p_facets plan) (p_scope_enforced plan) (p_scope_label plan)
    else plan
  else plan.
End planner.

(** ** Visibility *)

(** @src db/src/search_planner.rs:1326-1339 VisibilityContext *)
Record VisibilityContext := mkVisibility {
  caller_project_ids : list Z;
  approved_contact_ids : list Z;
  v_policy : ScopePolicy;
  v_redaction : RedactionConfig;
}.

(** @src db/src/search_planner.rs:1342-1352 VisibilityContext::can_see_project *)
Definition can_see_project (ctx : VisibilityContext) (project_id : Z) : bool :=
  match v_policy ctx with
  | Unrestricted => true
  | CallerScoped _ => existsb (Z.eqb project_id) (caller_project_ids ctx)
  | ProjectSet allowed => existsb (Z.eqb project_id) allowed
  end.

(** @src db/src/search_planner.rs:1409-1426 redact_result *)
Definition redact_result (r : SearchResult) (config : RedactionConfig) : SearchResult :=
  mkResult (r_doc_kind r) (r_id r) (r_project_id r)
    (if redact_body config then placeholder config else r_title r)
    (if redact_body config then placeholder config else r_body r)
    (r_score r) (r_importance r) (r_ack_required r) (r_created_ts r)
    (if redact_thread_ids config then None else r_thread_id r) (r_topic r)
    (if redact_agent_names config then Some (placeholder config) else r_from_agent r)
    (r_from_agent_id r) (r_to r) (r_cc r) (r_bcc r) (r_reason_codes r) (r_score_factors r) true
    (Some (placeholder config)).

(** One iteration of the loop of [apply_visibility]. *)
Definition visibility_step (ctx : VisibilityContext) (out : list SearchResult * list SearchAuditEntry)
    (result : SearchResult) : list SearchResult * list SearchAuditEntry :=
  let '(visible, audit) := out in
  if can_see_project ctx (default 0 (r_project_id result)) then (visible ++ [result], audit)
  else if redaction_active (v_redaction ctx) then
    (visible ++ [redact_result result (v_redaction ctx)],
     audit ++ [mkAudit Redacted (r_doc_kind result) (r_id result) (r_project_id result)
                 (placeholder (v_redaction ctx)) (scope_policy_label (v_policy ctx))])
  else
    (visible,
     audit ++ [mkAudit Denied (r_doc_kind result) (r_id result) (r_project_id result)
                 (u "project not visible to caller") (scope_policy_label (v_policy ctx))]).

(** @src db/src/search_planner.rs:1355-1407 apply_visibility *)
Definition apply_visibility (results : list SearchResult) (ctx : VisibilityContext) :
    list SearchResult * list SearchAuditEntry :=
  if negb (is_restricted (v_policy ctx)) then (results, [])
  else foldl (visibility_step ctx) ([], []) results.
