(* ===== verification/SearchPlannerProps.v ===== *)
(** * Properties of the search planner

    Cursors survive their encoding, the parser of a text query ends within its
    bounds, every plan carries exactly the parameters its SQL asks for and none
    of the text of the query, and a reader learns nothing of what is hidden. *)

From S2P Require Import Prelude.
From S2P Require Import RustStr.
From S2P Require Import RustText.
From S2P Require Import SearchPlanner.

(** ** Cursors *)

(** Cursors survive their encoding.  A cursor with a finite score decodes
    from its token to itself, and whatever token decodes, even a crafted one,
    gives a finite score and an identifier within [i64]. *)
Theorem cursor_roundtrip :
  (forall c, in_u64 (c_score c) -> f64_is_finite (c_score c) = true -> in_i64 (c_id c) ->
     cursor_decode (cursor_encode c) = Some c) /\
  (forall token c, cursor_decode token = Some c -> f64_is_finite (c_score c) = true /\ in_i64 (c_id c)).
Proof.
  split.
  - intros [score id] Hs Hf Hi. unfold cursor_decode, cursor_encode. cbn [c_score c_id] in *.
    change (u ":i") with (ch ":" :: u "i"). rewrite app_assoc, split_once_str_app.
    + cbn [mbind option_bind]. rewrite (proj2 (strip_prefix_Some (u "s") _ _) eq_refl).
      cbn [mbind option_bind]. rewrite parse_hex_fixed by done. cbn [mbind option_bind].
      rewrite Hf, parse_dec by done. done.
    + apply Forall_app. split; [by repeat constructor|].
      eapply Forall_impl; [apply hex_fixed_chars; apply Hs|]. intros c Hc ->. change (ch ":") with 58%N in Hc. lia.
  - intros token c H. unfold cursor_decode in H.
    destruct (split_once_str _ _) as [[a b]|]; cbn [mbind option_bind] in H; [|discriminate H].
    destruct (strip_prefix _ a) as [h|]; cbn [mbind option_bind] in H; [|discriminate H].
    destruct (parse_hex_u64 h) as [bits|]; cbn [mbind option_bind] in H; [|discriminate H].
    destruct (f64_is_finite bits) eqn:Ef; [|discriminate H].
    destruct (parse_i64 b) as [id|] eqn:Ei; cbn [mbind option_bind] in H; [|discriminate H].
    injection H as <-. split; [exact Ef|]. by apply parse_i64_range in Ei.
Qed.

(** ** The text of a query *)

Lemma drop_while_length {A} (p : A -> bool) l : (length (drop_while p l) <= length l)%nat.
Proof. induction l as [|x l IH]; simpl; [done|]. destruct (p x); simpl; lia. Qed.


Lemma take_raw_length q s raw rest : take_raw q s = (raw, rest) -> length s = (length raw + length rest)%nat.
Proof.
  revert q raw rest. induction s as [|c s IH]; intros q raw rest; simpl; [by intros [= <- <-]|].
  destruct (is_whitespace c && negb q); [by intros [= <- <-]|].
  destruct (take_raw _ s) as [raw' rest'] eqn:E. intros [= <- <-]. simpl. by rewrite (IH _ _ _ E).
Qed.

(** Words are not empty, so every iteration shortens the text. *)
Lemma take_raw_progress c s raw rest :
  is_whitespace c = false -> take_raw false (c :: s) = (raw, rest) -> (length rest < length (c :: s))%nat.
Proof.
  intros Hc Ht. pose proof (take_raw_length _ _ _ _ Ht) as Hl. simpl in Ht. rewrite Hc in Ht.
  cbn [andb] in Ht. destruct (take_raw _ s) as [raw' rest'] eqn:E. injection Ht as <- <-. simpl in *. lia.
Qed.

Lemma like_loop_fuel max cols : forall f1 f2 conds neg s,
  (length s < f1)%nat -> (length s < f2)%nat ->
  like_loop f1 max cols conds neg s = like_loop f2 max cols conds neg s.
Proof.
  induction f1 as [|f1 IH]; intros f2 conds neg s H1 H2; [lia|]. destruct f2 as [|f2]; [lia|]. cbn [like_loop].
  destruct (max <=? length conds)%nat; [done|]. pose proof (drop_while_length is_whitespace s) as Hd.
  destruct (drop_while is_whitespace s) as [|c rest] eqn:Ed; [done|].
  pose proof (drop_while_head _ _ _ _ Ed) as Hc. simpl in Hd.
  destruct (c =? ch "-")%N; [apply IH; lia|]. destruct (take_raw false (c :: rest)) as [raw rest'] eqn:Et.
  pose proof (take_raw_progress _ _ _ _ Hc Et) as Hp. simpl in Hp.
  destruct (ustr_eqb raw (u "NOT")); [apply IH; lia|]. destruct (is_operator raw); [apply IH; lia|].
  destruct (like_field cols raw) as [cs v]. apply IH; lia.
Qed.

(** What the loop maintains of its conditions. *)
Record conds_ok (max : nat) (cols : list ustr) (l : list LikeCondition) : Prop := {
  co_len : (length l <= max)%nat;
  co_cols : Forall (fun c => columns c = cols \/ columns c = SUBJECT_COLUMN \/ columns c = BODY_COLUMN) l;
  co_needle : Forall (fun c => 2 <= length (needle c))%nat l;
  co_distinct : forall i j a b, l !! i = Some a -> l !! j = Some b -> (i < j)%nat -> same_condition a b = false;
}.

Lemma push_ok max cols cs neg l n :
  cs = cols \/ cs = SUBJECT_COLUMN \/ cs = BODY_COLUMN ->
  conds_ok max cols l -> conds_ok max cols (push_condition max cs neg l n).
Proof.
  intros Hcs Hok. unfold push_condition. destruct (_ || _) eqn:E; [done|]. cbv zeta.
  destruct (existsb _ l) eqn:Ex; [done|].
  apply orb_false_iff in E as [En%Nat.ltb_ge Em%Nat.leb_gt]. destruct Hok as [Hl Hc Hn Hd]. split.
  - rewrite length_app. simpl. lia.
  - apply Forall_app. split; [done|]. by constructor.
  - apply Forall_app. split; [done|]. constructor; [simpl; lia|done].
  - intros i j a b Ha Hb Hij. apply lookup_app_Some in Hb as [Hb|[Hlen Hb]].
    + rewrite lookup_app_l in Ha by (apply lookup_lt_Some in Hb; lia). by eapply Hd.
    + apply list_lookup_singleton_Some in Hb as [Hj <-].
      rewrite lookup_app_l in Ha by lia. apply list_elem_of_lookup_2 in Ha.
      destruct (same_condition a _) eqn:Es; [|done].
      assert (existsb (fun seen => same_condition seen (mkLike n cs neg)) l = true); [|congruence].
      apply existsb_exists. exists a. split; [by apply list_elem_of_In|done].
Qed.

Lemma like_field_cols cols raw cs v :
  like_field cols raw = (cs, v) -> cs = cols \/ cs = SUBJECT_COLUMN \/ cs = BODY_COLUMN.
Proof.
  unfold like_field. destruct (split_once _ raw) as [[f v']|]; [|intros [= <- _]; auto].
  destruct (eq_ignore_ascii_case f _); [intros [= <- _]; auto|].
  destruct (_ || _); intros [= <- _]; auto.
Qed.

Lemma like_loop_ok max cols : forall f conds neg s,
  conds_ok max cols conds -> conds_ok max cols (like_loop f max cols conds neg s).
Proof.
  induction f as [|f IH]; intros conds neg s Hok; cbn [like_loop]; [done|].
  destruct (max <=? length conds)%nat; [done|]. destruct (drop_while is_whitespace s) as [|c rest]; [done|].
  destruct (c =? ch "-")%N; [by apply IH|]. destruct (take_raw false (c :: rest)) as [raw rest'].
  destruct (ustr_eqb raw (u "NOT")); [by apply IH|]. destruct (is_operator raw); [by apply IH|].
  destruct (like_field cols raw) as [cs v] eqn:Ef. apply like_field_cols in Ef. apply IH.
  generalize (like_needles max v). intros ns. revert conds Hok.
  induction ns as [|n ns IHn]; intros conds Hok; [done|]. simpl. by apply IHn, push_ok.
Qed.

Lemma conds_ok_nil max cols : conds_ok max cols [].
Proof. split; [simpl; lia|done|done|done]. Qed.

(** The parser of a text query ends, and within its bounds.  With as many
    iterations as the text has characters, plus one, the loop has finished: more
    change nothing.  There are at most [max_terms] conditions, each of at least
    two characters, and no two say the same. *)
Theorem like_conditions_terminates text cols max_terms :
  (forall fuel, (length text < fuel)%nat ->
     like_loop fuel max_terms cols [] false text = like_conditions text cols max_terms) /\
  (length (like_conditions text cols max_terms) <= max_terms)%nat /\
  Forall (fun c => 2 <= length (needle c))%nat (like_conditions text cols max_terms) /\
  (forall i j a b, like_conditions text cols max_terms !! i = Some a ->
     like_conditions text cols max_terms !! j = Some b -> (i < j)%nat -> same_condition a b = false).
Proof.
  split; [intros fuel Hf; apply like_loop_fuel; lia|].
  destruct (like_loop_ok max_terms cols (S (length text)) [] false text (conds_ok_nil _ _)) as [Hl _ Hn Hd].
  by split_and!.
Qed.

(** ** Placeholders *)

Definition qmark : N := 63.
Notation marks := (count_char qmark).

Definition clean (s : ustr) : Prop := marks s = 0%nat.

(** The conditions ask for the parameters pushed so far, the joins for none. *)
Definition balanced (a : Acc) : Prop :=
  list_sum (map (count_char qmark) (a_where a)) = length (a_params a) /\ clean (a_joins a).

Lemma marks_commas {A} (l : list A) : marks (join (u ", ") (map (fun _ => u "?") l)) = length l.
Proof.
  rewrite count_char_join, map_map. change (marks (u ", ")) with 0%nat. rewrite Nat.mul_0_r, Nat.add_0_r.
  induction l as [|x l IH]; [done|]. simpl in *. by rewrite IH.
Qed.

Lemma marks_in {A} column (l : list A) : clean column -> marks (in_clause column l) = length l.
Proof.
  unfold in_clause. intros Hc. rewrite !count_char_app, marks_commas, Hc.
  change (marks (u " IN (")) with 0%nat. change (marks (u ")")) with 0%nat. lia.
Qed.

Lemma balanced_where w ps a : marks w = length ps -> balanced a -> balanced (add_where w ps a).
Proof.
  intros Hw [Hs Hj]. split; [|done]. simpl. rewrite map_app, list_sum_app, length_app, Hs. simpl. lia.
Qed.

Lemma balanced_facet f a : balanced a -> balanced (add_facet f a).
Proof. done. Qed.

Lemma balanced_join j a : clean j -> balanced a -> balanced (add_join j a).
Proof. intros Hj [Hs Ha]. split; [done|]. unfold clean in *. simpl. rewrite count_char_app. lia. Qed.

#[local] Hint Resolve balanced_where balanced_facet balanced_join : agentmail.

Lemma scope_block_balanced column q a : clean column -> balanced a -> balanced (scope_block column q a).
Proof.
  intros Hc Ha. unfold scope_block. destruct (q_scope q) as [|c|[|id ids]]; try done.
  apply (balanced_where _ _ _ (eq_trans (marks_in column (id :: ids) Hc) (eq_sym (length_map PInt (id :: ids)))) Ha).
Qed.

Lemma project_block_balanced q a : balanced a -> balanced (project_block q a).
Proof.
  intros Ha. unfold project_block. destruct (q_project_id q); [by apply balanced_facet, balanced_where|].
  destruct (q_product_id q); [|done]. by apply balanced_facet, balanced_where, balanced_join.
Qed.

Lemma importance_block_balanced q a : balanced a -> balanced (importance_block q a).
Proof.
  intros Ha. unfold importance_block. destruct (q_importance q) as [|i l]; [done|].
  apply balanced_facet, balanced_where; [|done]. by rewrite marks_in, length_map.
Qed.

Lemma thread_block_balanced q a : balanced a -> balanced (thread_block q a).
Proof.
  intros Ha. unfold thread_block. destruct (q_thread_id q) as [t|]; [|done].
  apply balanced_facet. destruct (parse_i64 t); by apply balanced_where.
Qed.

Lemma ack_block_balanced q a : balanced a -> balanced (ack_block q a).
Proof. intros Ha. unfold ack_block. destruct (q_ack_required q); [by apply balanced_facet, balanced_where|done]. Qed.

Lemma time_block_balanced q a : balanced a -> balanced (time_block q a).
Proof.
  intros Ha. unfold time_block. cbv zeta. destruct (min_ts (q_time_range q)), (max_ts (q_time_range q));
    repeat first [apply balanced_facet | apply balanced_where; [done|]]; done.
Qed.

Lemma direction_block_balanced js q a : balanced a -> balanced (direction_block js q a).
Proof.
  intros Ha. unfold direction_block.
  destruct (q_direction q) as [[]|], (q_agent_name q); try done; by apply balanced_facet, balanced_where.
Qed.

Lemma cursor_block_balanced q a : balanced a -> balanced (cursor_block q a).
Proof.
  intros Ha. unfold cursor_block. destruct (q_cursor q ≫= cursor_decode); [|done].
  apply balanced_facet. destruct (q_ranking q); by apply balanced_where.
Qed.

Lemma message_blocks_balanced js q a : balanced a -> balanced (message_blocks js q a).
Proof.
  intros Ha. unfold message_blocks. cbv zeta.
  apply cursor_block_balanced, direction_block_balanced, time_block_balanced, ack_block_balanced,
    thread_block_balanced, importance_block_balanced, scope_block_balanced, project_block_balanced; done.
Qed.

Lemma like_part_marks c : Forall clean (columns c) -> marks (like_part c) = length (like_params c).
Proof.
  intros Hc. unfold like_params. rewrite length_map.
  assert (marks (u "(" ++ join (u " OR ") (map (fun col => col ++ u " LIKE ? ESCAPE '\'") (columns c)) ++ u ")") =
          length (columns c)) as E.
  { rewrite !count_char_app, count_char_join, map_map. change (marks (u " OR ")) with 0%nat.
    change (marks (u "(")) with 0%nat. change (marks (u ")")) with 0%nat. rewrite Nat.mul_0_r.
    enough (list_sum (map (fun x => marks (x ++ u " LIKE ? ESCAPE '\'")) (columns c)) = length (columns c)) by lia.
    induction Hc as [|col l Hcol Hl IH]; [done|]. simpl map. simpl list_sum. rewrite count_char_app, Hcol, IH.
    change (marks (u " LIKE ? ESCAPE '\'")) with 1%nat. simpl. lia. }
  unfold like_part. cbv zeta. destruct (negated c); [|exact E].
  rewrite count_char_app, E. by change (marks (u "NOT ")) with 0%nat.
Qed.

Lemma text_block_balanced q a : balanced a -> balanced (text_block q a).
Proof.
  intros Ha. unfold text_block. cbv zeta. set (cols := default_columns _).
  destruct (like_loop_ok 5 cols (S (length (q_text q))) [] false (q_text q) (conds_ok_nil _ _)) as [_ Hcols _ _].
  change (like_loop _ _ _ _ _ _) with (like_conditions (q_text q) cols 5) in Hcols.
  revert Hcols. generalize (like_conditions (q_text q) cols 5). intros [|c l] Hcols; [done|].
  apply balanced_where; [|done]. rewrite count_char_join, map_map.
  change (marks (u " AND ")) with 0%nat. rewrite Nat.mul_0_r, Nat.add_0_r.
  assert (Forall clean cols) as Hclean by (unfold cols; destruct (q_text_fields q); by repeat constructor).
  induction Hcols as [|x xs Hx Hxs IH]; [done|]. simpl. rewrite length_app, IH. f_equal. apply like_part_marks.
  destruct Hx as [->|[->| ->]]; [done|by repeat constructor|by repeat constructor].
Qed.

Lemma term_block_balanced part terms a :
  marks (u part) = 2%nat -> balanced a -> balanced (term_block part terms a).
Proof.
  intros Hp Ha. unfold term_block. apply balanced_where; [|done].
  rewrite count_char_join, map_map. change (marks (u " AND ")) with 0%nat. rewrite Nat.mul_0_r, Nat.add_0_r.
  rewrite Hp. induction terms as [|t ts IH]; [done|]. simpl in *. by rewrite IH.
Qed.

Definition well_formed (q : SearchQuery) (p : SearchPlan) : Prop :=
  marks (p_sql p) = length (p_params p) /\
  (p_method p <> MEmpty -> last (p_params p) = Some (PInt (effective_limit q))).

Lemma assemble_well_formed select from order m q a :
  clean select -> clean from -> clean order -> balanced a -> well_formed q (assemble select from order m q a).
Proof.
  intros Hs Hf Ho [Hb Hj]. unfold clean in *. split; [|intros _; apply last_snoc].
  unfold assemble. cbn [p_sql p_params]. rewrite !count_char_app, Hs, Hf, Ho, Hj, length_app.
  change (marks (u "SELECT ")) with 0%nat. change (marks (u " FROM ")) with 0%nat.
  change (marks (u " ")) with 0%nat. change (marks (u " LIMIT ?")) with 1%nat.
  enough (marks (where_str (a_where a)) = length (a_params a)) by (simpl; lia). rewrite <- Hb. unfold where_str.
  destruct (a_where a) as [|w ws]; [done|]. rewrite count_char_app, count_char_join.
  change (marks (u " WHERE ")) with 0%nat. change (marks (u " AND ")) with 0%nat. simpl. lia.
Qed.

Lemma empty_well_formed q label : well_formed q (plan_empty label).
Proof. split; [done|]. by intros []. Qed.

Lemma message_plan_wf js q : well_formed q (plan_message_search js q).
Proof.
  unfold plan_message_search. cbv zeta.
  destruct (message_method q); try apply empty_well_formed; apply assemble_well_formed;
    try (by destruct (q_ranking q)); try done; apply message_blocks_balanced; [|done].
  by apply text_block_balanced.
Qed.

Lemma agent_plan_wf q : well_formed q (plan_agent_search q).
Proof.
  unfold plan_agent_search. destruct (term_method q); try apply empty_well_formed; cbv zeta;
    apply assemble_well_formed; try done; apply scope_block_balanced; try done;
    (destruct (q_project_id q); [apply balanced_facet, balanced_where; [done|]|]); by apply term_block_balanced.
Qed.

Lemma project_plan_wf q : well_formed q (plan_project_search q).
Proof.
  unfold plan_project_search. destruct (term_method q); try apply empty_well_formed; cbv zeta;
    apply assemble_well_formed; try done; apply scope_block_balanced; try done; by apply term_block_balanced.
Qed.

(** Plans are well formed.  In every plan the SQL has exactly as many
    placeholders as the plan has parameters, however the text, the facets, the
    scope and the cursor are combined, and a plan that is not empty ends with a
    limit between one and the maximum. *)
Theorem search_plan_well_formed js q :
  let p := plan_search js q in
  count_char (ch "?") (p_sql p) = length (p_params p) /\
  (p_method p <> MEmpty ->
     exists limit, last (p_params p) = Some (PInt limit) /\ 1 <= limit <= SEARCH_QUERY_LIMIT_MAX).
Proof.
  cbv zeta. enough (well_formed q (plan_search js q)) as [H1 H2].
  { split; [exact H1|]. intros Hm. exists (effective_limit q). split; [by apply H2|].
    unfold effective_limit, SEARCH_QUERY_LIMIT_MAX. lia. }
  unfold plan_search. cbv zeta. set (p := match q_doc_kind q with KMessage => _ | _ => _ end).
  assert (well_formed q p) as Hp by (unfold p; destruct (q_doc_kind q);
    [apply message_plan_wf|apply agent_plan_wf|apply project_plan_wf|apply message_plan_wf]).
  clearbody p. destruct (bool_decide (p_method p = MEmpty) && is_empty (p_sql p)) eqn:E; [|done].
  destruct (_ || _); [|done]. destruct Hp as [Hm _]. apply andb_prop in E as [Em Es]. split; [|by breflect].
  cbn [p_sql p_params]. destruct (p_sql p); [|done]. simpl in Hm. rewrite <- Hm. by destruct (q_doc_kind q).
Qed.

(** ** The text of a query stays out of the SQL *)

Definition given {A} (o : option A) : bool := match o with Some _ => true | None => false end.

(** The columns a text condition looks at, from a fixed vocabulary. *)
Inductive TextColumns := SubjectColumn | BodyColumn | BothColumns | OtherColumns.
Definition text_columns (cols : list ustr) : TextColumns :=
  if bool_decide (cols = [u "m.subject"]) then SubjectColumn
  else if bool_decide (cols = [u "m.body_md"]) then BodyColumn
  else if bool_decide (cols = [u "m.subject"; u "m.body_md"]) then BothColumns
  else OtherColumns.

(** What of a query may show in the SQL: which facets are present and how many
    values they have, how many terms its text has, which of the two columns each
    text condition looks at and whether it is negated, and whether a thread is a
    number and the cursor decodes.  No string and no number of the query: a shape
    has no text in it. *)
Record QueryShape := mkShape {
  sh_kind : DocKind;
  sh_empty : bool;
  sh_terms : nat;
  sh_conditions : list (TextColumns * bool);
  sh_project : bool;
  sh_product : bool;
  sh_scope : nat;
  sh_importance : nat;
  sh_thread : option bool;
  sh_ack : bool;
  sh_min : bool;
  sh_max : bool;
  sh_direction : option Direction;
  sh_agent : bool;
  sh_cursor : bool;
  sh_ranking : RankingMode;
}.

Definition shape (q : SearchQuery) : QueryShape :=
  mkShape (q_doc_kind q) (is_empty (q_text q)) (length (extract_like_terms (q_text q) 5))
    (map (fun c => (text_columns (columns c), negated c)) (like_conditions (q_text q) (default_columns (q_text_fields q)) 5))
    (given (q_project_id q)) (given (q_product_id q))
    (match q_scope q with ProjectSet ids => length ids | _ => 0 end)%nat
    (length (q_importance q)) (option_map (fun t => given (parse_i64 t)) (q_thread_id q)) (given (q_ack_required q))
    (given (min_ts (q_time_range q))) (given (max_ts (q_time_range q))) (q_direction q) (given (q_agent_name q))
    (given (q_cursor q ≫= cursor_decode)) (q_ranking q).

(** Accumulators that lead to the same SQL. *)
Definition same_sql (a b : Acc) : Prop := a_where a = a_where b /\ a_joins a = a_joins b.

Lemma same_where w ps ps' a b : same_sql a b -> same_sql (add_where w ps a) (add_where w ps' b).
Proof. intros [Hw Hj]. split; simpl; congruence. Qed.

Lemma same_facet f a b : same_sql a b -> same_sql (add_facet f a) (add_facet f b).
Proof. done. Qed.

Lemma same_join j a b : same_sql a b -> same_sql (add_join j a) (add_join j b).
Proof. intros [Hw Hj]. split; simpl; congruence. Qed.

Lemma map_replicate {A B} (c : B) (l : list A) : map (fun _ => c) l = replicate (length l) c.
Proof. induction l as [|x l IH]; simpl; [done|]. by rewrite IH. Qed.

Lemma in_clause_length {A B} column (l : list A) (l' : list B) :
  length l = length l' -> in_clause column l = in_clause column l'.
Proof.
  intros Hl. unfold in_clause. by rewrite (map_replicate _ l), (map_replicate _ l'), Hl.
Qed.

Lemma text_columns_inj cols cols' :
  text_columns cols <> OtherColumns -> text_columns cols = text_columns cols' -> cols = cols'.
Proof.
  unfold text_columns. repeat (case_bool_decide; [repeat (case_bool_decide; [congruence|]); try done|]); done.
Qed.

(** Whatever the text says, its conditions look at columns of the vocabulary. *)
Lemma vocabulary_only q :
  Forall (fun c => text_columns (columns c) <> OtherColumns)
    (like_conditions (q_text q) (default_columns (q_text_fields q)) 5).
Proof.
  destruct (like_loop_ok 5 (default_columns (q_text_fields q)) (S (length (q_text q))) [] false (q_text q) (conds_ok_nil _ _))
    as [_ Hc _ _].
  eapply Forall_impl; [exact Hc|]. intros c [->|[->| ->]]; [destruct (q_text_fields q)|..]; by vm_compute.
Qed.

(** Equal shapes, one facet at a time. *)
Ltac by_shape :=
  repeat match goal with
  | H : given ?x = given ?y |- _ => destruct x, y; try discriminate H; clear H
  end;
  repeat first [done | apply same_facet | apply same_where | apply same_join].

Section same_shape.
  Context (q q' : SearchQuery) (Hshape : shape q = shape q').

Lemma project_block_same a b : same_sql a b -> same_sql (project_block q a) (project_block q' b).
Proof.
  intros Hab. pose proof (f_equal sh_project Hshape) as H1. pose proof (f_equal sh_product Hshape) as H2.
  unfold project_block. simpl in *. by_shape.
Qed.

Lemma scope_block_same column a b : same_sql a b -> same_sql (scope_block column q a) (scope_block column q' b).
Proof.
  intros Hab. pose proof (f_equal sh_scope Hshape) as H1. unfold scope_block. simpl in H1.
  destruct (q_scope q) as [|c|[|id ids]], (q_scope q') as [|c'|[|id' ids']]; try discriminate H1; try done.
  simpl in H1. rewrite (in_clause_length column (id :: ids) (id' :: ids')) by (simpl; lia). by apply same_where.
Qed.

Lemma importance_block_same a b : same_sql a b -> same_sql (importance_block q a) (importance_block q' b).
Proof.
  intros Hab. pose proof (f_equal sh_importance Hshape) as H1. unfold importance_block. simpl in H1.
  destruct (q_importance q) as [|i l], (q_importance q') as [|i' l']; try discriminate H1; [done|].
  rewrite (in_clause_length _ (i :: l) (i' :: l')) by done. by apply same_facet, same_where.
Qed.

Lemma thread_block_same a b : same_sql a b -> same_sql (thread_block q a) (thread_block q' b).
Proof.
  intros Hab. pose proof (f_equal sh_thread Hshape) as H1. unfold thread_block. simpl in H1.
  destruct (q_thread_id q), (q_thread_id q'); try discriminate H1; [|done].
  injection H1 as H1. by_shape.
Qed.

Lemma ack_block_same a b : same_sql a b -> same_sql (ack_block q a) (ack_block q' b).
Proof. intros Hab. pose proof (f_equal sh_ack Hshape) as H1. unfold ack_block. simpl in H1. by_shape. Qed.

Lemma time_block_same a b : same_sql a b -> same_sql (time_block q a) (time_block q' b).
Proof.
  intros Hab. pose proof (f_equal sh_min Hshape) as H1. pose proof (f_equal sh_max Hshape) as H2.
  unfold time_block. simpl in *. by_shape.
Qed.

Lemma direction_block_same js a b : same_sql a b -> same_sql (direction_block js q a) (direction_block js q' b).
Proof.
  intros Hab. pose proof (f_equal sh_direction Hshape) as H1. pose proof (f_equal sh_agent Hshape) as H2.
  unfold direction_block. simpl in *. rewrite <- H1. clear H1. by destruct (q_direction q) as [[]|]; by_shape.
Qed.

Lemma cursor_block_same a b : same_sql a b -> same_sql (cursor_block q a) (cursor_block q' b).
Proof.
  intros Hab. pose proof (f_equal sh_cursor Hshape) as H1. pose proof (f_equal sh_ranking Hshape) as H2.
  unfold cursor_block. simpl in *. rewrite <- H2. clear H2. by_shape; by destruct (time_cursor_expr _); by_shape.
Qed.

Lemma text_block_same a b : same_sql a b -> same_sql (text_block q a) (text_block q' b).
Proof.
  intros Hab. pose proof (f_equal sh_conditions Hshape) as H1. unfold text_block. cbv zeta. cbn [shape sh_conditions] in H1.
  revert H1. pose proof (vocabulary_only q) as Hv. pose proof (vocabulary_only q') as Hv'. revert Hv Hv'.
  generalize (like_conditions (q_text q) (default_columns (q_text_fields q)) 5).
  generalize (like_conditions (q_text q') (default_columns (q_text_fields q')) 5). intros l' l Hv Hv' H1.
  assert (map like_part l = map like_part l') as Hp.
  { revert l' Hv' H1. induction Hv as [|c l Hc Hl IH]; intros [|c' l'] Hv' H1; try discriminate H1; [done|].
    apply Forall_cons in Hv' as [_ Hv']. injection H1 as Hcols Hn Hrest. simpl. f_equal; [|by apply IH]. unfold like_part.
    by rewrite (text_columns_inj _ _ Hc Hcols), Hn. }
  destruct l as [|c l], l' as [|c' l']; try discriminate H1; [done|]. rewrite Hp. by apply same_where.
Qed.

Lemma term_block_same part a b :
  same_sql a b ->
  same_sql (term_block part (extract_like_terms (q_text q) 5) a) (term_block part (extract_like_terms (q_text q') 5) b).
Proof.
  intros Hab. pose proof (f_equal sh_terms Hshape) as H1. unfold term_block. cbn [shape sh_terms] in H1.
  rewrite (map_replicate _ (extract_like_terms (q_text q) 5)), H1, <- map_replicate. by apply same_where.
Qed.

Lemma facets_same : has_any_message_facet q = has_any_message_facet q'.
Proof.
  pose proof (f_equal sh_project Hshape) as H1. pose proof (f_equal sh_product Hshape) as H2.
  pose proof (f_equal sh_importance Hshape) as H3. pose proof (f_equal sh_thread Hshape) as H4.
  pose proof (f_equal sh_ack Hshape) as H5. pose proof (f_equal sh_min Hshape) as H6.
  pose proof (f_equal sh_max Hshape) as H7. pose proof (f_equal sh_direction Hshape) as H8.
  pose proof (f_equal sh_agent Hshape) as H9. clear Hshape. simpl in *.
  assert (forall A (o o' : option A), given o = given o' -> bool_decide (is_Some o) = bool_decide (is_Some o')) as Hg.
  { intros A o o' Ho. apply bool_decide_ext. destruct o, o'; try discriminate Ho; split; eauto; by intros [? ?]. }
  assert (given (q_thread_id q) = given (q_thread_id q')) as H4' by (destruct (q_thread_id q), (q_thread_id q'); done).
  assert (bool_decide (q_importance q = []) = bool_decide (q_importance q' = [])) as H3'
    by (apply bool_decide_ext; destruct (q_importance q), (q_importance q'); done).
  assert (time_range_is_empty (q_time_range q) = time_range_is_empty (q_time_range q')) as H6'.
  { unfold time_range_is_empty. destruct (min_ts (q_time_range q)), (min_ts (q_time_range q')); try discriminate H6;
      destruct (max_ts (q_time_range q)), (max_ts (q_time_range q')); done. }
  unfold has_any_message_facet.
  by rewrite (Hg _ _ _ H1), (Hg _ _ _ H2), (Hg _ _ _ H4'), (Hg _ _ _ H5), (Hg _ _ _ H9), H8, H3', H6'.
Qed.
End same_shape.

Lemma assemble_same select from order m q q' a b :
  same_sql a b -> p_sql (assemble select from order m q a) = p_sql (assemble select from order m q' b).
Proof. intros [Hw Hj]. unfold assemble. cbn [p_sql]. by rewrite Hw, Hj. Qed.

Lemma message_blocks_same q q' js a b :
  shape q = shape q' -> same_sql a b -> same_sql (message_blocks js q a) (message_blocks js q' b).
Proof.
  intros Hs Hab. unfold message_blocks. cbv zeta.
  by apply (cursor_block_same _ _ Hs), (direction_block_same _ _ Hs), (time_block_same _ _ Hs), (ack_block_same _ _ Hs),
    (thread_block_same _ _ Hs), (importance_block_same _ _ Hs), (scope_block_same _ _ Hs), (project_block_same _ _ Hs).
Qed.

Lemma methods_same q q' :
  shape q = shape q' -> message_method q = message_method q' /\ term_method q = term_method q'.
Proof.
  intros Hs. pose proof (f_equal sh_empty Hs) as H1. pose proof (f_equal sh_terms Hs) as H2.
  unfold message_method, term_method. rewrite (facets_same _ _ Hs). clear Hs. cbn [shape sh_empty sh_terms] in *.
  rewrite H1. by destruct (extract_like_terms (q_text q) 5), (extract_like_terms (q_text q') 5).
Qed.

(** The plan before [plan_search] completes an empty one. *)
Definition kind_plan (js : ustr -> ustr) (q : SearchQuery) : SearchPlan :=
  match q_doc_kind q with
  | KMessage | KThread => plan_message_search js q
  | KAgent => plan_agent_search q
  | KProject => plan_project_search q
  end.

Lemma kind_plan_same js q q' :
  shape q = shape q' ->
  p_sql (kind_plan js q) = p_sql (kind_plan js q') /\ p_method (kind_plan js q) = p_method (kind_plan js q').
Proof.
  intros Hs. destruct (methods_same _ _ Hs) as [Hm Ht]. pose proof (f_equal sh_kind Hs) as Hk.
  pose proof (f_equal sh_ranking Hs) as Hr. cbn [shape sh_kind sh_ranking] in *.
  assert (p_sql (plan_message_search js q) = p_sql (plan_message_search js q') /\
          p_method (plan_message_search js q) = p_method (plan_message_search js q')) as Hmsg.
  { unfold plan_message_search. cbv zeta. rewrite Hm, Hr.
    destruct (message_method q'); split; try done; apply assemble_same, message_blocks_same; try done.
    by apply text_block_same. }
  unfold kind_plan. rewrite Hk. destruct (q_doc_kind q'); [exact Hmsg| | |exact Hmsg].
  - unfold plan_agent_search. rewrite Ht. destruct (term_method q'); split; try done; cbv zeta; apply assemble_same,
      scope_block_same; try done; pose proof (f_equal sh_project Hs) as Hp; cbn [shape sh_project] in Hp; by_shape;
      by apply term_block_same.
  - unfold plan_project_search. rewrite Ht. destruct (term_method q'); split; try done; cbv zeta; apply assemble_same,
      scope_block_same; try done; by apply term_block_same.
Qed.

(** C36: nothing of the query is spliced into the SQL.  The SQL text is determined
    by the shape of the query, in which there is no string and no number of it: the
    kind of document, the ranking and the direction; whether the text is empty, how
    many terms it has (at most five), and for each of its conditions whether it is
    negated and which of subject, body or both it looks at - columns of a fixed
    vocabulary, whatever prefix the text names; which of project, product, agent,
    acknowledgement and time bounds are given; how many projects the scope and how
    many values the importance has; whether the thread identifier is a number, and
    whether the cursor decodes.  Two queries that agree on this get the same SQL,
    whatever their text, names, identifiers, cursors and numbers: those only travel
    as parameters. *)
Theorem search_sql_injection_free js q q' :
  shape q = shape q' -> p_sql (plan_search js q) = p_sql (plan_search js q').
Proof.
  intros Hs. destruct (kind_plan_same js q q' Hs) as [Hsql Hm].
  pose proof (facets_same _ _ Hs) as Hf. pose proof (f_equal sh_empty Hs) as He. pose proof (f_equal sh_kind Hs) as Hk.
  unfold plan_search. cbv zeta. fold (kind_plan js q) (kind_plan js q'). cbn [shape sh_empty sh_kind] in *.
  rewrite Hsql, Hm, Hf, He, Hk. destruct (_ && _); [|done]. by destruct (_ || _).
Qed.

(** ** Visibility *)

Definition hidden (ctx : VisibilityContext) (r : SearchResult) : bool :=
  negb (can_see_project ctx (default 0 (r_project_id r))).

(** Results a reader must not tell apart: equal when visible; when hidden, equal
    in what identifies them and, if they are shown redacted, in every field the
    redaction leaves. *)
Record alike (ctx : VisibilityContext) (r1 r2 : SearchResult) : Prop := {
  al_visible : hidden ctx r1 = false -> r1 = r2;
  al_id : r_doc_kind r1 = r_doc_kind r2 /\ r_id r1 = r_id r2 /\ r_project_id r1 = r_project_id r2;
  al_text : redact_body (v_redaction ctx) = false -> r_title r1 = r_title r2 /\ r_body r1 = r_body r2;
  al_sender : redact_agent_names (v_redaction ctx) = false -> r_from_agent r1 = r_from_agent r2;
  al_thread : redact_thread_ids (v_redaction ctx) = false -> r_thread_id r1 = r_thread_id r2;
  al_rest : redaction_active (v_redaction ctx) = true ->
    r_score r1 = r_score r2 /\ r_importance r1 = r_importance r2 /\ r_ack_required r1 = r_ack_required r2 /\
    r_created_ts r1 = r_created_ts r2 /\ r_topic r1 = r_topic r2 /\ r_from_agent_id r1 = r_from_agent_id r2 /\
    r_to r1 = r_to r2 /\ r_cc r1 = r_cc r2 /\ r_bcc r1 = r_bcc r2 /\
    r_reason_codes r1 = r_reason_codes r2 /\ r_score_factors r1 = r_score_factors r2;
}.

Lemma redact_alike ctx r1 r2 :
  alike ctx r1 r2 -> redaction_active (v_redaction ctx) = true ->
  redact_result r1 (v_redaction ctx) = redact_result r2 (v_redaction ctx).
Proof.
  intros [_ (E1 & E2 & E3) Ht Hs Hth Hr] Ha. destruct (Hr Ha) as (? & ? & ? & ? & ? & ? & ? & ? & ? & ? & ?).
  unfold redact_result. f_equal; try done.
  - destruct (redact_body _); [done|]. by apply Ht.
  - destruct (redact_body _); [done|]. by apply Ht.
  - destruct (redact_thread_ids _); [done|]. by apply Hth.
  - destruct (redact_agent_names _); [done|]. by apply Hs.
Qed.

Lemma visibility_step_alike ctx out r1 r2 :
  alike ctx r1 r2 -> visibility_step ctx out r1 = visibility_step ctx out r2.
Proof.
  intros Ha. pose proof Ha as [Hv (E1 & E2 & E3) _ _ _ _]. destruct out as [vis audit].
  unfold visibility_step, hidden in *. rewrite <- E3.
  destruct (can_see_project _ _); [by rewrite (Hv eq_refl)|].
  destruct (redaction_active _) eqn:Er; [by rewrite (redact_alike _ _ _ Ha Er), E1, E2|by rewrite E1, E2].
Qed.

Lemma visibility_step_audit ctx rs : forall vis audit,
  map au_doc_id (snd (foldl (visibility_step ctx) (vis, audit) rs)) =
  map au_doc_id audit ++ map r_id (List.filter (hidden ctx) rs).
Proof.
  induction rs as [|r rs IH]; intros vis audit; [by rewrite app_nil_r|].
  cbn [foldl List.filter]. unfold visibility_step at 2, hidden at 1.
  destruct (can_see_project _ _); [by rewrite IH|].
  destruct (redaction_active _); rewrite IH, map_app, <- app_assoc; done.
Qed.

(** Hidden results are hidden.  Under a restricted policy the response does
    not depend on what the redaction removes from the results of projects the
    reader cannot see: replacing those parts by anything else gives the same
    results and the same audit, and the audit has exactly one entry per hidden
    result, in order. *)
Theorem visibility_noninterference ctx rs1 rs2 :
  is_restricted (v_policy ctx) = true -> Forall2 (alike ctx) rs1 rs2 ->
  apply_visibility rs1 ctx = apply_visibility rs2 ctx /\
  map au_doc_id (snd (apply_visibility rs1 ctx)) = map r_id (List.filter (hidden ctx) rs1).
Proof.
  intros Hr Hf. unfold apply_visibility. rewrite Hr. cbn [negb]. split; [|apply visibility_step_audit].
  generalize (([], []) : list SearchResult * list SearchAuditEntry). induction Hf as [|r1 r2 l1 l2 Ha _ IH];
    intros out; [done|]. simpl. by rewrite (visibility_step_alike _ _ _ _ Ha), IH.
Qed.

(** The redaction of agent names leaves the recipients. *)
Lemma redaction_keeps_recipients r config :
  r_to (redact_result r config) = r_to r /\ r_cc (redact_result r config) = r_cc r /\
  r_bcc (redact_result r config) = r_bcc r.
Proof. done. Qed.

(** A field prefix without a word leaves the search without a text condition. *)
Lemma bare_prefix_unfiltered js :
  let q := query_messages (u "subject:") 1 in
  p_method (plan_search js q) = MLike /\ p_params (plan_search js q) = [PInt 1; PInt 50].
Proof. split; vm_compute; reflexivity. Qed.

(** ** Instances *)

Lemma cursor_roundtrip_witness :
  cursor_decode (cursor_encode (mkCursor 4607182418800017408 (-7))) = Some (mkCursor 4607182418800017408 (-7)).
Proof.
  apply (proj1 cursor_roundtrip); vm_compute; [split; intros E; discriminate E|reflexivity|].
  split; intros E; discriminate E.
Defined.

(** Two searches by the same user, one of them hostile. *)
Lemma search_sql_injection_free_witness :
  let js := fun s => [quote] ++ s ++ [quote] in
  p_sql (plan_search js (query_messages (u "budget") 7)) = p_sql (plan_search js (query_messages (u "x'/**/--") 8)).
Proof. intros js. apply (search_sql_injection_free js). vm_compute. reflexivity. Defined.

Definition sample_result (project : Z) (body : string) : SearchResult :=
  mkResult KMessage 5 (Some project) (u body) (u body) None None None None None None None None None None None [] []
    false None.
Definition sample_reader : VisibilityContext := mkVisibility [1] [] (CallerScoped (u "BlueLake")) contact_blocked.

Lemma visibility_noninterference_witness :
  apply_visibility [sample_result 1 "mine"; sample_result 2 "plans"] sample_reader =
  apply_visibility [sample_result 1 "mine"; sample_result 2 "other"] sample_reader.
Proof.
  refine (proj1 (visibility_noninterference sample_reader _ _ eq_refl _)).
  constructor; [|constructor; [|constructor]]; split; try (vm_compute; intros E; discriminate E); repeat split.
Defined.
