(* ===== verification/AgentNames.v ===== *)
(** * Agent names ([core/src/models.rs])

    Agents are named by an adjective and a noun of fixed vocabularies.  Names are
    read in any case and normalised to a canonical spelling, behind a
    thread-local cache; other strings are matched against common mistakes. *)

From S2P Require Import Prelude.
From S2P Require Import RustStr.
From S2P Require Import RustText.

(** @src core/src/models.rs:328-407 VALID_ADJECTIVES *)
Definition VALID_ADJECTIVES : list ustr :=
  map u ["red"; "orange"; "yellow"; "pink"; "black"; "purple"; "blue"; "brown"; "white"; "green"; "chartreuse"; "lilac";
    "fuchsia"; "azure"; "amber"; "coral"; "crimson"; "cyan"; "gold"; "golden"; "gray"; "indigo"; "ivory"; "jade";
    "lavender"; "magenta"; "maroon"; "navy"; "olive"; "pearl"; "rose"; "ruby"; "sage"; "scarlet"; "silver"; "teal";
    "topaz"; "violet"; "cobalt"; "copper"; "bronze"; "emerald"; "sapphire"; "turquoise"; "beige"; "tan"; "cream";
    "peach"; "plum"; "sunny"; "misty"; "foggy"; "stormy"; "windy"; "frosty"; "dusty"; "hazy"; "cloudy"; "rainy";
    "snowy"; "icy"; "mossy"; "sandy"; "swift"; "quiet"; "bold"; "calm"; "bright"; "dark"; "wild"; "silent";
    "gentle"; "rustic"; "noble"; "proud"]%string.

(** @src core/src/models.rs:409-551 VALID_NOUNS *)
Definition VALID_NOUNS : list ustr :=
  map u ["stone"; "lake"; "creek"; "pond"; "mountain"; "hill"; "snow"; "castle"; "river"; "forest"; "valley"; "canyon";
    "meadow"; "prairie"; "desert"; "island"; "cliff"; "cave"; "glacier"; "waterfall"; "spring"; "stream"; "reef";
    "dune"; "ridge"; "peak"; "gorge"; "marsh"; "brook"; "glen"; "grove"; "fern"; "hollow"; "basin"; "cove"; "bay";
    "harbor"; "coast"; "shore"; "bluff"; "knoll"; "summit"; "plateau"; "dog"; "cat"; "bear"; "fox"; "wolf"; "deer";
    "elk"; "moose"; "otter"; "beaver"; "badger"; "lynx"; "puma"; "squirrel"; "rabbit"; "hare"; "mouse"; "mink";
    "seal"; "horse"; "lion"; "tiger"; "panther"; "leopard"; "jaguar"; "coyote"; "bison"; "ox"; "hawk"; "eagle";
    "owl"; "falcon"; "raven"; "heron"; "crane"; "finch"; "robin"; "sparrow"; "duck"; "goose"; "swan"; "dove";
    "wren"; "jay"; "lark"; "kite"; "condor"; "osprey"; "pelican"; "gull"; "tern"; "stork"; "ibis"; "cardinal";
    "oriole"; "thrush"; "trout"; "salmon"; "bass"; "pike"; "carp"; "turtle"; "frog"; "pine"; "oak"; "maple";
    "birch"; "cedar"; "willow"; "aspen"; "elm"; "orchid"; "lotus"; "ivy"; "tower"; "bridge"; "forge"; "mill";
    "barn"; "gate"; "anchor"; "lantern"; "beacon"; "compass"; "horizon"; "spire"; "chapel"; "citadel"; "fortress"]%string.

(** [sort_unstable] on strings. *)
Definition str_le (a b : ustr) : Prop := str_ltb b a = false.
#[export] Instance str_le_dec : RelDecision str_le.
Proof. intros a b. unfold str_le. apply _. Defined.

(** The order of strings. *)
#[export] Instance str_le_total : Total str_le.
Proof.
  intros a b. unfold str_le. destruct (str_ltb b a) eqn:E; [|by left]. right. apply not_true_iff_false. intros E'.
  pose proof (str_ltb_trans _ _ _ E E') as Hf. by rewrite str_ltb_irrefl in Hf.
Qed.

#[export] Instance str_le_antisymm : AntiSymm (=) str_le.
Proof. intros a b Hab Hba. by apply str_ltb_total. Qed.

#[export] Instance str_le_trans : Transitive str_le.
Proof.
  intros a b c Hab Hbc. unfold str_le in *. apply not_true_iff_false. intros Hca.
  destruct (str_ltb a b) eqn:E; [|by rewrite (str_ltb_total _ _ E Hab), Hbc in Hca].
  by rewrite (str_ltb_trans _ _ _ Hca E) in Hbc.
Qed.

(** @src core/src/models.rs:553-576 VALID_ADJECTIVE_LOOKUP, VALID_NOUN_LOOKUP, VALID_ADJECTIVE_LENGTHS_DESC *)
Definition VALID_ADJECTIVE_LOOKUP : list ustr := Eval vm_compute in merge_sort str_le VALID_ADJECTIVES.
Definition VALID_NOUN_LOOKUP : list ustr := Eval vm_compute in merge_sort str_le VALID_NOUNS.
Definition VALID_ADJECTIVE_LENGTHS_DESC : list nat :=
  Eval vm_compute in rev (remove_dups (merge_sort Nat.le (map utf8_len VALID_ADJECTIVES))).
Definition MIN_VALID_AGENT_NAME_LEN : nat := 5.

(** [binary_search] on a sorted slice of distinct strings. *)
Definition binary_search (l : list ustr) (w : ustr) : option ustr := List.find (ustr_eqb w) l.

Definition is_ascii (s : ustr) : bool := forallb (fun c => (c <? 128)%N) s.

(** @src core/src/models.rs:921-937 pascal_case_agent_name, push_pascal_case_word
    -- the words of the vocabularies are ASCII. *)
Definition push_pascal_case_word (word : ustr) : ustr :=
  match word with [] => [] | c :: r => ascii_upper c :: r end.
Definition pascal_case_agent_name (adjective noun : ustr) : ustr :=
  push_pascal_case_word adjective ++ push_pascal_case_word noun.

(** @src core/src/models.rs:886-919 split_valid_agent_name
    -- [split_lengths] is its loop. *)
Fixpoint split_lengths (lengths : list nat) (lower_name : ustr) : option (ustr * ustr) :=
  match lengths with
  | [] => None
  | n :: lengths =>
      if (utf8_len lower_name <=? n)%nat then split_lengths lengths lower_name
      else
        match binary_search VALID_ADJECTIVE_LOOKUP (take n lower_name) with
        | None => split_lengths lengths lower_name
        | Some adjective =>
            match binary_search VALID_NOUN_LOOKUP (drop n lower_name) with
            | None => split_lengths lengths lower_name
            | Some noun => Some (adjective, noun)
            end
        end
  end.
Definition split_valid_agent_name (name : ustr) : option (ustr * ustr) :=
  if negb (is_ascii name) || (utf8_len name <? MIN_VALID_AGENT_NAME_LEN)%nat then None
  else split_lengths VALID_ADJECTIVE_LENGTHS_DESC (to_ascii_lowercase name).

Notation NormCache := (gmap ustr ustr).
(** @src core/src/models.rs:578-582 NORM_CACHE
    -- the bound is the literal of [normalize_agent_name]. *)
Definition NORM_CACHE_LIMIT : nat := 8192.

(** @src core/src/models.rs:584-618 normalize_agent_name *)
Definition normalize_agent_name (name : ustr) (cache : NormCache) : option ustr * NormCache :=
  let name := trim name in
  if negb (is_ascii name) || (utf8_len name <? MIN_VALID_AGENT_NAME_LEN)%nat then (None, cache)
  else
    let lower := to_ascii_lowercase name in
    match cache !! lower with
    | Some cached => (Some cached, cache)
    | None =>
        match split_valid_agent_name lower with
        | None => (None, cache)
        | Some (adjective, noun) =>
            let normalized := pascal_case_agent_name adjective noun in
            (Some normalized, <[lower := normalized]> (if (NORM_CACHE_LIMIT <=? size cache)%nat then ∅ else cache))
        end
    end.

(** @src core/src/models.rs:620-637 is_valid_agent_name *)
Definition is_valid_agent_name (name : ustr) (cache : NormCache) : bool :=
  match fst (normalize_agent_name name cache) with Some _ => true | None => false end.

(** @src core/src/models.rs:939-961 generate_agent_name
    -- [hash]: the eight random bytes as a word. *)
Definition generate_agent_name (hash : Z) : ustr :=
  let adj_idx := Z.to_nat (hash mod Z.of_nat (length VALID_ADJECTIVES)) in
  let noun_idx := Z.to_nat (Z.shiftr hash 32 mod Z.of_nat (length VALID_NOUNS)) in
  pascal_case_agent_name (default [] (VALID_ADJECTIVES !! adj_idx)) (default [] (VALID_NOUNS !! noun_idx)).

(** ** Mistakes *)

(** @src core/src/models.rs:652-662 RESERVED_OPERATOR_AGENT_NAMES, is_reserved_operator_agent_name *)
Definition RESERVED_OPERATOR_AGENT_NAMES : list ustr :=
  map u ["HumanOverseer"; "AirTrafficControl"]%string.
Definition is_reserved_operator_agent_name (name : ustr) : bool :=
  existsb (fun reserved => eq_ignore_ascii_case reserved (trim name)) RESERVED_OPERATOR_AGENT_NAMES.

(** @src core/src/models.rs:668-697 KNOWN_PROGRAM_NAMES *)
Definition KNOWN_PROGRAM_NAMES : list ustr :=
  map u ["claude-code"; "claude"; "codex-cli"; "codex"; "cursor"; "windsurf"; "cline"; "aider"; "copilot";
    "github-copilot"; "gemini-cli"; "gemini"; "antigravity"; "agy"; "omp"; "oh-my-pi"; "opencode"; "vscode";
    "neovim"; "vim"; "emacs"; "zed"; "continue"]%string.

(** @src core/src/models.rs:699-734 MODEL_NAME_PATTERNS, BROADCAST_TOKENS, DESCRIPTIVE_NAME_KEYWORDS *)
Definition MODEL_NAME_PATTERNS : list ustr :=
  map u ["gpt-"; "gpt4"; "gpt3"; "claude-"; "opus"; "sonnet"; "haiku"; "gemini-"; "llama"; "mistral"; "codestral";
    "o1-"; "o3-"]%string.
Definition BROADCAST_TOKENS : list ustr :=
  map u ["all"; "everyone"; "broadcast"; "*"]%string.
Definition DESCRIPTIVE_NAME_KEYWORDS : list ustr :=
  map u ["dev"; "developer"; "agent"; "worker"; "assistant"; "helper"; "bot"; "user"; "manager"; "lead"; "engineer"]%string.

(** @src core/src/models.rs:736-759 lowercase_non_empty, looks_like_program_name, looks_like_model_name *)
Definition lowercase_non_empty (value : ustr) : option ustr :=
  let value := trim value in if is_empty value then None else Some (to_ascii_lowercase value).
Definition looks_like_program_name (value : ustr) : bool :=
  match lowercase_non_empty value with None => false | Some lower => existsb (ustr_eqb lower) KNOWN_PROGRAM_NAMES end.
Definition looks_like_model_name (value : ustr) : bool :=
  match lowercase_non_empty value with
  | None => false
  | Some lower => existsb (fun pattern => contains pattern lower) MODEL_NAME_PATTERNS
  end.

(** @src core/src/models.rs:761-776 looks_like_email *)
Definition looks_like_email (value : ustr) : bool :=
  match rsplit_once (ch "@") value with
  | None => false
  | Some (local, domain) =>
      if is_empty local then false
      else
        match rsplit_once (ch ".") domain with
        | Some (domain_part, tld_part) => negb (is_empty domain_part) && negb (is_empty tld_part)
        | None => false
        end
  end.

(** @src core/src/models.rs:778-796 looks_like_broadcast, looks_like_descriptive_name *)
Definition looks_like_broadcast (value : ustr) : bool :=
  match lowercase_non_empty value with None => false | Some lower => existsb (ustr_eqb lower) BROADCAST_TOKENS end.
Definition looks_like_descriptive_name (value : ustr) : bool :=
  match lowercase_non_empty value with
  | None => false
  | Some lower => existsb (fun keyword => contains keyword lower) DESCRIPTIVE_NAME_KEYWORDS
  end.

(** @src core/src/models.rs:798-815 looks_like_unix_username *)
Definition looks_like_unix_username (value : ustr) : bool :=
  let value := trim value in
  if is_empty value || negb ((2 <=? utf8_len value)%nat && (utf8_len value <=? 16)%nat)
     || negb (forallb (fun c => is_ascii_lowercase c || is_ascii_digit c) value)
  then false
  else negb (existsb (ustr_eqb value) VALID_ADJECTIVE_LOOKUP) && negb (existsb (ustr_eqb value) VALID_NOUN_LOOKUP).

(** @src core/src/models.rs:817-884 detect_agent_name_mistake
    -- the kind of mistake; the message only explains it. *)
Definition detect_agent_name_mistake (value : ustr) : option ustr :=
  if looks_like_program_name value then Some (u "PROGRAM_NAME_AS_AGENT")
  else if looks_like_model_name value then Some (u "MODEL_NAME_AS_AGENT")
  else if looks_like_email value then Some (u "EMAIL_AS_AGENT")
  else if looks_like_broadcast value then Some (u "BROADCAST_ATTEMPT")
  else if looks_like_descriptive_name value then Some (u "DESCRIPTIVE_NAME")
  else if looks_like_unix_username value then Some (u "UNIX_USERNAME_AS_AGENT")
  else None.
