(* ===== verification/AgentNamesProps.v ===== *)
(** * Properties of agent names

    Names have one canonical spelling, which every reading of them reaches, and
    the cache never shows. *)

From S2P Require Import Prelude.
From S2P Require Import RustStr.
From S2P Require Import RustText.
From S2P Require Import AgentNames.

(** Without the cache. *)
Definition normalize_uncached (name : ustr) : option ustr := fst (normalize_agent_name name ∅).

(** ** The vocabularies, checked word by word *)

Definition pair_ok (a n : ustr) : bool :=
  bool_decide (split_lengths VALID_ADJECTIVE_LENGTHS_DESC (a ++ n) = Some (a, n)) &&
  is_ascii (a ++ n) && (MIN_VALID_AGENT_NAME_LEN <=? length (a ++ n))%nat &&
  ustr_eqb (trim (pascal_case_agent_name a n)) (pascal_case_agent_name a n) &&
  ustr_eqb (to_ascii_lowercase (pascal_case_agent_name a n)) (a ++ n).

Lemma pairs_ok : forallb (fun a => forallb (pair_ok a) VALID_NOUNS) VALID_ADJECTIVES = true.
Proof. vm_compute. reflexivity. Qed.

Lemma lookups_complete :
  forallb (fun w => existsb (ustr_eqb w) VALID_ADJECTIVES) VALID_ADJECTIVE_LOOKUP &&
  forallb (fun w => existsb (ustr_eqb w) VALID_NOUNS) VALID_NOUN_LOOKUP = true.
Proof. vm_compute. reflexivity. Qed.

Record valid_pair (a n : ustr) : Prop := {
  vp_split : split_lengths VALID_ADJECTIVE_LENGTHS_DESC (a ++ n) = Some (a, n);
  vp_ascii : is_ascii (a ++ n) = true;
  vp_len : (MIN_VALID_AGENT_NAME_LEN <= length (a ++ n))%nat;
  vp_trim : trim (pascal_case_agent_name a n) = pascal_case_agent_name a n;
  vp_lower : to_ascii_lowercase (pascal_case_agent_name a n) = a ++ n;
}.

Lemma pair_valid a n : In a VALID_ADJECTIVES -> In n VALID_NOUNS -> valid_pair a n.
Proof.
  intros Ha Hn. pose proof pairs_ok as H. rewrite forallb_forall in H. specialize (H a Ha).
  rewrite forallb_forall in H. specialize (H n Hn). unfold pair_ok in H.
  apply andb_prop in H as [H H5]. apply andb_prop in H as [H H4]. apply andb_prop in H as [H H3].
  apply andb_prop in H as [H1 H2]. split.
  - by apply bool_decide_eq_true in H1.
  - done.
  - by apply Nat.leb_le.
  - by apply ustr_eqb_eq.
  - by apply ustr_eqb_eq.
Qed.

Lemma existsb_In w l : existsb (ustr_eqb w) l = true -> In w l.
Proof. intros (x & Hx & He)%existsb_exists. apply ustr_eqb_eq in He. by subst. Qed.

Lemma binary_search_In l w x : binary_search l w = Some x -> x = w /\ In w l.
Proof. intros [Hx He]%find_some. apply ustr_eqb_eq in He. by subst. Qed.

Lemma split_lengths_sound lengths s a n :
  split_lengths lengths s = Some (a, n) -> s = a ++ n /\ In a VALID_ADJECTIVES /\ In n VALID_NOUNS.
Proof.
  pose proof lookups_complete as H. apply andb_prop in H as [H1 H2]. rewrite forallb_forall in H1, H2.
  induction lengths as [|k lengths IH]; [done|]. cbn [split_lengths].
  destruct (_ <=? k)%nat; [done|]. destruct (binary_search VALID_ADJECTIVE_LOOKUP _) as [a'|] eqn:Ea; [|done].
  destruct (binary_search VALID_NOUN_LOOKUP _) as [n'|] eqn:En; [|done]. intros [= -> ->].
  apply binary_search_In in Ea as [-> Ha], En as [-> Hn]. split; [by rewrite take_drop|].
  split; apply existsb_In; auto.
Qed.

(** ** ASCII *)

Lemma utf8_len_ascii s : is_ascii s = true -> utf8_len s = length s.
Proof.
  unfold utf8_len, is_ascii. induction s as [|c s IH]; [done|]. simpl. intros [Hc Hs]%andb_prop.
  rewrite length_app, IH by done. unfold utf8_char. by rewrite Hc.
Qed.

Lemma is_ascii_lower s : is_ascii (to_ascii_lowercase s) = is_ascii s.
Proof.
  unfold is_ascii, to_ascii_lowercase. induction s as [|c s IH]; [done|]. simpl. rewrite IH. f_equal.
  unfold ascii_lower, is_ascii_uppercase. destruct ((65 <=? c) && (c <=? 90))%N eqn:E; [|done].
  apply andb_prop in E as [E1%N.leb_le E2%N.leb_le]. rewrite !(proj2 (N.ltb_lt _ _)) by lia. done.
Qed.

(** The guard of both functions. *)
Definition too_odd (s : ustr) : bool := negb (is_ascii s) || (utf8_len s <? MIN_VALID_AGENT_NAME_LEN)%nat.

Lemma pair_guard s a n : valid_pair a n -> to_ascii_lowercase s = a ++ n -> too_odd s = false.
Proof.
  intros Hv Hs. assert (is_ascii s = true) as Ha by (rewrite <- is_ascii_lower, Hs; apply Hv).
  unfold too_odd. rewrite Ha, utf8_len_ascii by done. simpl. apply Nat.ltb_ge.
  rewrite <- (to_ascii_lowercase_length s), Hs. apply Hv.
Qed.

Lemma split_valid_sound s a n :
  split_valid_agent_name s = Some (a, n) ->
  to_ascii_lowercase s = a ++ n /\ In a VALID_ADJECTIVES /\ In n VALID_NOUNS.
Proof. unfold split_valid_agent_name. destruct (_ || _); [done|]. apply split_lengths_sound. Qed.

Lemma split_valid_complete s a n :
  In a VALID_ADJECTIVES -> In n VALID_NOUNS -> to_ascii_lowercase s = a ++ n ->
  split_valid_agent_name s = Some (a, n).
Proof.
  intros Ha Hn Hs. pose proof (pair_valid a n Ha Hn) as Hv. unfold split_valid_agent_name.
  fold (too_odd s). rewrite (pair_guard s a n Hv Hs), Hs. apply Hv.
Qed.

(** ** Normalisation *)

Lemma normalize_uncached_eq name :
  normalize_uncached name =
  (if too_odd (trim name) then None
   else '(a, n) ← split_valid_agent_name (to_ascii_lowercase (trim name)); Some (pascal_case_agent_name a n)).
Proof.
  unfold normalize_uncached, normalize_agent_name. cbv zeta. fold (too_odd (trim name)).
  destruct (too_odd (trim name)); [done|]. rewrite lookup_empty.
  by destruct (split_valid_agent_name _) as [[a n]|].
Qed.

Lemma normalize_complete name a n :
  In a VALID_ADJECTIVES -> In n VALID_NOUNS -> to_ascii_lowercase (trim name) = a ++ n ->
  normalize_uncached name = Some (pascal_case_agent_name a n).
Proof.
  intros Ha Hn Hs. rewrite normalize_uncached_eq, (pair_guard _ a n (pair_valid a n Ha Hn) Hs).
  by rewrite (split_valid_complete _ a n Ha Hn) by (by rewrite to_ascii_lowercase_idem).
Qed.

Lemma normalize_sound name r :
  normalize_uncached name = Some r ->
  exists a n, In a VALID_ADJECTIVES /\ In n VALID_NOUNS /\ to_ascii_lowercase (trim name) = a ++ n /\
    r = pascal_case_agent_name a n.
Proof.
  rewrite normalize_uncached_eq. destruct (too_odd _); [done|].
  destruct (split_valid_agent_name _) as [[a n]|] eqn:E; [|done]. intros [= <-].
  apply split_valid_sound in E as (Hs & Ha & Hn). rewrite to_ascii_lowercase_idem in Hs. by exists a, n.
Qed.

Lemma pascal_normal a n :
  In a VALID_ADJECTIVES -> In n VALID_NOUNS ->
  normalize_uncached (pascal_case_agent_name a n) = Some (pascal_case_agent_name a n).
Proof.
  intros Ha Hn. pose proof (pair_valid a n Ha Hn) as Hv. apply normalize_complete; [done|done|].
  by rewrite (vp_trim _ _ Hv), (vp_lower _ _ Hv).
Qed.

(** Agent names are canonical.  A string normalises exactly when, trimmed
    and in lower case, it is an adjective followed by a noun of the vocabularies,
    and then to that pair in Pascal case; the pair is unique; a normalised name
    normalises to itself; and generated names are normalised names. *)
Theorem agent_names_canonical :
  (forall name a n, In a VALID_ADJECTIVES -> In n VALID_NOUNS -> to_ascii_lowercase (trim name) = a ++ n ->
     fst (normalize_agent_name name ∅) = Some (pascal_case_agent_name a n)) /\
  (forall name r, fst (normalize_agent_name name ∅) = Some r ->
     (exists a n, In a VALID_ADJECTIVES /\ In n VALID_NOUNS /\ to_ascii_lowercase (trim name) = a ++ n /\
        r = pascal_case_agent_name a n) /\
     fst (normalize_agent_name r ∅) = Some r) /\
  (forall a n a' n', In a VALID_ADJECTIVES -> In n VALID_NOUNS -> In a' VALID_ADJECTIVES -> In n' VALID_NOUNS ->
     a ++ n = a' ++ n' -> a = a' /\ n = n') /\
  (forall hash, in_u64 hash ->
     fst (normalize_agent_name (generate_agent_name hash) ∅) = Some (generate_agent_name hash)).
Proof.
  split_and!.
  - apply normalize_complete.
  - intros name r Hr. split; [by apply normalize_sound|].
    destruct (normalize_sound name r Hr) as (a & n & Ha & Hn & _ & ->). by apply pascal_normal.
  - intros a n a' n' Ha Hn Ha' Hn' He. pose proof (vp_split _ _ (pair_valid a n Ha Hn)) as H1.
    pose proof (vp_split _ _ (pair_valid a' n' Ha' Hn')) as H2. rewrite He, H2 in H1. by injection H1 as -> ->.
  - intros hash [H1 H2]. unfold generate_agent_name. cbv zeta.
    assert (forall (l : list ustr) z, (0 < length l)%nat -> In (default [] (l !! Z.to_nat (z mod Z.of_nat (length l)))) l)
      as Hin.
    { intros l z Hl. pose proof (Z.mod_pos_bound z (Z.of_nat (length l)) ltac:(lia)) as Hb.
      destruct (l !! Z.to_nat (z mod Z.of_nat (length l))) as [w|] eqn:Hw.
      - apply list_elem_of_In. by eapply list_elem_of_lookup_2.
      - apply lookup_ge_None in Hw. unfold ustr in *. lia. }
    apply pascal_normal; apply Hin; vm_compute; lia.
Qed.

(** ** The cache *)

Definition cache_ok (c : NormCache) : Prop :=
  (forall k v, c !! k = Some v ->
     exists a n, In a VALID_ADJECTIVES /\ In n VALID_NOUNS /\ k = a ++ n /\ v = pascal_case_agent_name a n) /\
  (size c <= NORM_CACHE_LIMIT)%nat.

Lemma normalize_cached name c :
  cache_ok c ->
  fst (normalize_agent_name name c) = normalize_uncached name /\ cache_ok (snd (normalize_agent_name name c)).
Proof.
  intros [Hc Hs]. rewrite normalize_uncached_eq. unfold normalize_agent_name. cbv zeta. fold (too_odd (trim name)).
  destruct (too_odd (trim name)) eqn:Eo; [done|]. destruct (c !! to_ascii_lowercase (trim name)) as [v|] eqn:Ec.
  - destruct (Hc _ _ Ec) as (a & n & Ha & Hn & Hk & ->).
    by rewrite (split_valid_complete _ a n Ha Hn) by (by rewrite to_ascii_lowercase_idem).
  - destruct (split_valid_agent_name _) as [[a n]|] eqn:Es; [|done]. split; [done|].
    apply split_valid_sound in Es as (Hk & Ha & Hn). rewrite to_ascii_lowercase_idem in Hk. cbn [snd]. split.
    + intros k v. intros [[<- <-]|[_ Hl]]%lookup_insert_Some; [by exists a, n|].
      destruct (_ <=? size c)%nat; [by rewrite lookup_empty in Hl|by apply Hc].
    + destruct (Nat.leb_spec NORM_CACHE_LIMIT (size c)).
      * rewrite map_size_insert_None by apply lookup_empty. rewrite map_size_empty. by apply Nat.leb_le.
      * rewrite map_size_insert_None by done. lia.
Qed.

(** The results of a history of calls on one thread. *)
Fixpoint normalize_all (names : list ustr) (c : NormCache) : list (option ustr) * NormCache :=
  match names with
  | [] => ([], c)
  | name :: names =>
      let '(r, c) := normalize_agent_name name c in
      let '(rs, c) := normalize_all names c in (r :: rs, c)
  end.

(** The cache of agent names is transparent and bounded.  In any history of
    calls on a thread every result is what the call would give with an empty
    cache, and the cache never exceeds its limit. *)
Theorem name_cache_transparent names :
  let '(results, cache) := normalize_all names ∅ in
  results = map (fun name => fst (normalize_agent_name name ∅)) names /\ (size cache <= NORM_CACHE_LIMIT)%nat.
Proof.
  assert (cache_ok ∅) as Hok by (split; [by intros k v Hl|rewrite map_size_empty; lia]).
  revert Hok. generalize (∅ : NormCache) at 1 2. induction names as [|name names IH]; intros c Hok; [by destruct Hok|].
  cbn [normalize_all map]. destruct (normalize_cached name c Hok) as [Hr Hc].
  destruct (normalize_agent_name name c) as [r c1]. cbn [fst snd] in *. specialize (IH c1 Hc).
  destruct (normalize_all names c1) as [rs c2]. destruct IH as [-> Hs]. by rewrite Hr.
Qed.

Lemma agent_names_canonical_witness : fst (normalize_agent_name (u "  blueLAKE ") ∅) = Some (u "BlueLake").
Proof.
  apply (proj1 agent_names_canonical (u "  blueLAKE ") (u "blue") (u "lake")).
  - apply existsb_In. vm_compute. reflexivity.
  - apply existsb_In. vm_compute. reflexivity.
  - vm_compute. reflexivity.
Defined.
