(* ===== verification/Contacts.v ===== *)
(** * Contact enforcement ([tools/src/messaging.rs])

    Who may be written to: the policy of each recipient, the evidence of earlier
    contact that a policy accepts, the handshakes attempted for the others, and
    sends that cross projects.  The queries on the database are parameters: an
    answer is [None] when the query fails.  Full lower-casing is a parameter
    too. *)

From S2P Require Import Prelude.
From S2P Require Import RustStr.
From S2P Require Import RustText.
From S2P Require Import Pattern.
From S2P Require Import AgentNames.

(** The columns of [AgentRow] this code reads. *)
Record AgentRow := mkAgent { ag_id : option Z; ag_name : ustr; ag_policy : ustr; ag_retired_at : option Z }.

(** @src tools/src/messaging.rs:564-569 ContactPolicyDecision *)
Inductive ContactPolicyDecision := Allow | RequireApproval | BlockAll.
#[export] Instance ContactPolicyDecision_eq_dec : EqDecision ContactPolicyDecision.
Proof. solve_decision. Defined.

(** The four strings [normalized_contact_policy] returns. *)
Inductive Policy := POpen | PContactsOnly | PBlockAll | PAuto.
#[export] Instance Policy_eq_dec : EqDecision Policy.
Proof. solve_decision. Defined.

Inductive ContactError := ContactBlocked | ContactRequired (names attempted : list ustr).

(** What a send knows of one lookup: the answer, whether it failed open. *)
Inductive Lookup := LApproved | LRecent | LParticipants | LReservations.

(** @src tools/src/messaging.rs:667-676 ContactEvidence
    -- with the lookups made, and how many of them failed. *)
Record ContactEvidence := mkEvidence {
  auto_ok_names : gset ustr;
  recent_ids : gset Z;
  approved_ids : gset Z;
  ev_lookups : list Lookup;
  ev_bypasses : nat;
}.
Definition evidence_default : ContactEvidence := mkEvidence ∅ ∅ ∅ [] 0.

(** The answers of the store during one send: approved and recent contacts among
    the identifiers asked, the participants of the thread, the active
    reservations of the project. *)
Record ContactDb := mkContactDb {
  list_approved_contact_ids : list Z -> option (list Z);
  list_recent_contact_agent_ids : list Z -> option (list Z);
  list_thread_participant_names : option (list ustr);
  get_active_reservations : option (list (Z * ustr));
}.

(** @src tools/src/messaging.rs:619-641 contact_ids_or_fail_open *)
Definition contact_ids_or_fail_open (lookup : option (list Z)) (candidate_ids : list Z) : gset Z * nat :=
  match lookup with
  | None => (list_to_set candidate_ids, 1%nat)
  | Some ids => (list_to_set ids, 0%nat)
  end.

Section contacts.
  Context {GE : GlobEngine}.
  Context (to_lowercase : ustr -> ustr).

(** @src tools/src/messaging.rs:571-580 normalized_contact_policy *)
Definition normalized_contact_policy (policy_raw : ustr) : Policy :=
  let l := to_lowercase policy_raw in
  if ustr_eqb l (u "open") then POpen
  else if ustr_eqb l (u "contacts_only") then PContactsOnly
  else if ustr_eqb l (u "block_all") then PBlockAll
  else PAuto.

(** @src tools/src/messaging.rs:582-617 contact_policy_decision *)
Definition contact_policy_decision (sender_name recipient_name policy_raw : ustr) (recent_ok approved : bool) :
    ContactPolicyDecision :=
  if ustr_eqb recipient_name sender_name then Allow
  else
    let policy := normalized_contact_policy policy_raw in
    if bool_decide (policy = PBlockAll) then BlockAll
    else if bool_decide (policy = POpen) then Allow
    else if bool_decide (policy = PAuto) && recent_ok then Allow
    else if approved then Allow
    else RequireApproval.

(** @src tools/src/messaging.rs:643-665 reservations_prove_shared_scope_for_contact *)
Definition reservations_prove_shared_scope_for_contact (sender_patterns recipient_patterns : list CompiledPattern) :
    bool :=
  existsb (fun s =>
    existsb (fun r =>
      if ustr_eqb (cp_norm s) (cp_norm r) then is_matchable s && is_matchable r
      else if cp_is_glob s && cp_is_glob r then false
      else overlaps s r) recipient_patterns) sender_patterns.

(** The identifiers of [agents], but the sender's, sorted and without repeats. *)
Definition ids_of (sender_id : Z) (agents : list AgentRow) : list Z :=
  remove_dups (merge_sort Z.le (List.filter (fun id => negb (id =? sender_id)) (omap ag_id agents))).

Definition id_in (a : AgentRow) (ids : gset Z) : bool :=
  match ag_id a with Some id => bool_decide (id ∈ ids) | None => false end.

(** [patterns_by_agent]: the patterns of each holder, in the order of the rows. *)
Definition patterns_of (reservations : list (Z * ustr)) (agent_id : Z) : list CompiledPattern :=
  map (fun r => compiled_new (snd r)) (List.filter (fun r => fst r =? agent_id) reservations).

(** The recipients that share an overlapping reservation with the sender. *)
Definition shared_scope (reservations : list (Z * ustr)) (sender_id : Z) (a : AgentRow) : bool :=
  match ag_id a with
  | None => false
  | Some rec_id => reservations_prove_shared_scope_for_contact (patterns_of reservations sender_id)
                     (patterns_of reservations rec_id)
  end.

(** What a failed list lookup contributes: nothing, and a bypass counted. *)
Definition rows_or_bypass {A} (lookup : option (list A)) : list A * nat :=
  match lookup with Some l => (l, 0%nat) | None => ([], 1%nat) end.

(** @src tools/src/messaging.rs:773-803 gather_contact_evidence
    -- participants of the thread, for the recipients still waiting. *)
Definition gather_participants (db : ContactDb) (thread_id : ustr) (auto_waiting : list AgentRow)
    (e : ContactEvidence) : list AgentRow * ContactEvidence :=
  if negb (bool_decide (auto_waiting = [])) && negb (is_empty thread_id) then
    let '(participants, failed) := rows_or_bypass (list_thread_participant_names db) in
    let names := auto_ok_names e ∪ list_to_set participants in
    (List.filter (fun a => negb (bool_decide (ag_name a ∈ names))) auto_waiting,
     mkEvidence names (recent_ids e) (approved_ids e) (ev_lookups e ++ [LParticipants]) (ev_bypasses e + failed))
  else (auto_waiting, e).

(** @src tools/src/messaging.rs:805-835 gather_contact_evidence
    -- shared reservations, for the recipients still waiting. *)
Definition gather_reservations (db : ContactDb) (sender_id : Z) (auto_waiting : list AgentRow)
    (e : ContactEvidence) : ContactEvidence :=
  if negb (bool_decide (auto_waiting = [])) then
    let '(reservations, failed) := rows_or_bypass (get_active_reservations db) in
    let shared := map ag_name (List.filter (shared_scope reservations sender_id) auto_waiting) in
    mkEvidence (auto_ok_names e ∪ list_to_set shared) (recent_ids e) (approved_ids e)
      (ev_lookups e ++ [LReservations]) (ev_bypasses e + failed)
  else e.

#[export] Instance AgentRow_eq_dec : EqDecision AgentRow.
Proof. solve_decision. Defined.

(** The recipients whose decision evidence can change. *)
Definition waiting_for_evidence (sender_name : ustr) (recipients : list AgentRow) : list AgentRow :=
  List.filter (fun a =>
    negb (ustr_eqb (ag_name a) sender_name) &&
    bool_decide (normalized_contact_policy (ag_policy a) = PAuto \/
                 normalized_contact_policy (ag_policy a) = PContactsOnly)) recipients.

(** @src tools/src/messaging.rs:690-772 gather_contact_evidence
    -- approvals and recent contacts, cheapest first, then the two above. *)
Definition gather_contact_evidence (db : ContactDb) (sender_id : Z) (sender_name : ustr)
    (recipients : list AgentRow) (thread_id : ustr) : ContactEvidence :=
  let waiting := waiting_for_evidence sender_name recipients in
  let candidate_ids := ids_of sender_id waiting in
  match candidate_ids with
  | [] => evidence_default
  | _ =>
      let '(approved, failed1) := contact_ids_or_fail_open (list_approved_contact_ids db candidate_ids) candidate_ids in
      let auto_waiting :=
        List.filter (fun a => bool_decide (normalized_contact_policy (ag_policy a) = PAuto) && negb (id_in a approved))
          waiting in
      let auto_ids := ids_of sender_id auto_waiting in
      match auto_ids with
      | [] => mkEvidence ∅ ∅ approved [LApproved] failed1
      | _ =>
          let '(recent, failed2) :=
            contact_ids_or_fail_open (list_recent_contact_agent_ids db auto_ids) auto_ids in
          let auto_waiting := List.filter (fun a => negb (id_in a recent)) auto_waiting in
          let e := mkEvidence ∅ recent approved [LApproved; LRecent] (failed1 + failed2) in
          let '(auto_waiting, e) := gather_participants db thread_id auto_waiting e in
          gather_reservations db sender_id auto_waiting e
      end
  end.

(** The reference: every lookup, for every recipient. *)
Definition eager_evidence (db : ContactDb) (sender_id : Z) (recipients : list AgentRow) (thread_id : ustr) :
    ContactEvidence :=
  let ids := ids_of sender_id recipients in
  let '(approved, f1) := contact_ids_or_fail_open (list_approved_contact_ids db ids) ids in
  let '(recent, f2) := contact_ids_or_fail_open (list_recent_contact_agent_ids db ids) ids in
  let '(participants, f3) := if is_empty thread_id then ([], 0%nat) else rows_or_bypass (list_thread_participant_names db) in
  let '(reservations, f4) := rows_or_bypass (get_active_reservations db) in
  mkEvidence
    (list_to_set participants ∪ list_to_set (map ag_name (List.filter (shared_scope reservations sender_id) recipients)))
    recent approved [LApproved; LRecent; LParticipants; LReservations] (f1 + f2 + f3 + f4).

(** The decision a send makes for one recipient on its evidence. *)
Definition decide_recipient (sender_name : ustr) (e : ContactEvidence) (a : AgentRow) : ContactPolicyDecision :=
  let rec_id := default 0 (ag_id a) in
  let recent_ok := bool_decide (ag_name a ∈ auto_ok_names e) || bool_decide (rec_id ∈ recent_ids e) in
  contact_policy_decision sender_name (ag_name a) (ag_policy a) recent_ok (bool_decide (rec_id ∈ approved_ids e)).

(** @src tools/src/messaging.rs:3615-3657 send_message
    -- the check of every resolved name, and the same loop of [reply_message]. *)
Fixpoint check_policies (sender_name : ustr) (e : ContactEvidence) (recipient_map : gmap ustr AgentRow)
    (names : list ustr) : ContactError + list ustr :=
  match names with
  | [] => inr []
  | name :: names =>
      match recipient_map !! to_lowercase name with
      | None => check_policies sender_name e recipient_map names
      | Some agent =>
          match decide_recipient sender_name e agent with
          | Allow => check_policies sender_name e recipient_map names
          | BlockAll => inl ContactBlocked
          | RequireApproval =>
              match check_policies sender_name e recipient_map names with
              | inl err => inl err
              | inr blocked => inr (ag_name agent :: blocked)
              end
          end
      end
  end.

(** @src tools/src/messaging.rs:389-404 handshake_error_is_transient *)
Definition handshake_error_is_transient (message : ustr) : bool :=
  let lower := to_ascii_lowercase message in
  existsb (fun w => contains w lower)
    [u "database is busy"; u "database is locked"; u "recovery in progress"; u "connection validation failed";
     u "resource is temporarily busy"; u "retry budget"; u "initialization in progress"].

(** @src tools/src/messaging.rs:3664-3711 send_message
    -- the handshakes: [shake name attempt] is the error of one, if any. *)
Definition handshake (shake : ustr -> nat -> option ustr) (name : ustr) : bool :=
  match shake name 0%nat with
  | None => true
  | Some message =>
      if handshake_error_is_transient message then match shake name 1%nat with None => true | Some _ => false end
      else false
  end.
Definition attempt_handshakes (shake : ustr -> nat -> option ustr) (blocked : list ustr) : list ustr :=
  List.filter (handshake shake) blocked.

(** Whether a recipient is still refused once [approved] was read again. *)
Definition still_blocked (recipient_map : gmap ustr AgentRow) (approved : gset Z) (name : ustr) : bool :=
  match recipient_map !! to_lowercase name with
  | None => true
  | Some agent =>
      match normalized_contact_policy (ag_policy agent) with
      | POpen => false
      | PAuto | PContactsOnly => negb (bool_decide (default 0 (ag_id agent) ∈ approved))
      | PBlockAll => true
      end
  end.

(** What the handshakes leave: approvals are read again, through [recheck]. *)
Definition after_handshakes (recipient_map : gmap ustr AgentRow) (recheck : list Z -> option (list Z))
    (candidate_ids : list Z) (blocked : list ustr) : list ustr :=
  List.filter (still_blocked recipient_map (fst (contact_ids_or_fail_open (recheck candidate_ids) candidate_ids)))
    blocked.

(** The end of both: nothing is stored while somebody is refused. *)
Definition require_nobody (blocked attempted : list ustr) : ContactError + unit :=
  match blocked with [] => inr tt | _ => inl (ContactRequired blocked attempted) end.

(** @src tools/src/messaging.rs:3585-3772 send_message
    -- contact enforcement of a send within a project. *)
Definition enforce_send (db : ContactDb) (recheck : list Z -> option (list Z)) (shake : ustr -> nat -> option ustr)
    (auto_contact : bool) (sender_id : Z) (sender_name thread_id : ustr) (recipient_map : gmap ustr AgentRow)
    (to cc bcc : list ustr) : ContactError + unit :=
  let recipients := map snd (map_to_list recipient_map) in
  let candidate_ids := ids_of sender_id recipients in
  let e := gather_contact_evidence db sender_id sender_name recipients thread_id in
  match check_policies sender_name e recipient_map (to ++ cc ++ bcc) with
  | inl err => inl err
  | inr [] => inr tt
  | inr blocked =>
      if auto_contact then
        require_nobody (after_handshakes recipient_map recheck candidate_ids blocked) (attempt_handshakes shake blocked)
      else require_nobody blocked []
  end.

(** @src tools/src/messaging.rs:4642-4787 reply_message
    -- the same for a reply, which reads the approvals again only after a
    handshake. *)
Definition enforce_reply (db : ContactDb) (recheck : list Z -> option (list Z)) (shake : ustr -> nat -> option ustr)
    (auto_contact : bool) (sender_id : Z) (sender_name thread_id : ustr) (recipient_map : gmap ustr AgentRow)
    (to cc bcc : list ustr) : ContactError + unit :=
  let recipients := map snd (map_to_list recipient_map) in
  let candidate_ids := ids_of sender_id recipients in
  let e := gather_contact_evidence db sender_id sender_name recipients thread_id in
  match check_policies sender_name e recipient_map (to ++ cc ++ bcc) with
  | inl err => inl err
  | inr blocked =>
      let attempted := if auto_contact then attempt_handshakes shake blocked else [] in
      require_nobody
        (match attempted with
         | [] => blocked
         | _ => after_handshakes recipient_map recheck candidate_ids blocked
         end) attempted
  end.
End contacts.

(** ** Across projects *)

(** The columns of [AgentLinkRow] this code reads. *)
Record AgentLink := mkLink {
  a_project_id : Z; a_agent_id : Z; b_project_id : Z; b_agent_id : Z;
  link_status : ustr; link_expires : option Z;
}.

Definition links_with (outgoing incoming : list AgentLink) (project agent : Z) : list AgentLink :=
  List.filter (fun l => (b_project_id l =? project) && (b_agent_id l =? agent)) outgoing ++
  List.filter (fun l => (a_project_id l =? project) && (a_agent_id l =? agent)) incoming.

Definition link_approved (now : Z) (l : AgentLink) : bool :=
  eq_ignore_ascii_case (link_status l) (u "approved") &&
  match link_expires l with None => true | Some expires => now <? expires end.

(** The inner loop: [None] is a blocked link. *)
Fixpoint scan_links (now : Z) (links : list AgentLink) (approved : bool) : option bool :=
  match links with
  | [] => Some approved
  | l :: links =>
      if eq_ignore_ascii_case (link_status l) (u "blocked") then None
      else scan_links now links (approved || link_approved now l)
  end.

(** The recipients by name. *)
Definition agent_le (a b : AgentRow) : Prop := str_ltb (ag_name b) (ag_name a) = false.
#[export] Instance agent_le_dec : RelDecision agent_le.
Proof. intros a b. unfold agent_le. apply _. Defined.

Fixpoint cross_loop (now : Z) (outgoing incoming : list AgentLink) (project : Z) (agents : list AgentRow)
    (unapproved : list ustr) : ContactError + list ustr :=
  match agents with
  | [] => inr unapproved
  | agent :: agents =>
      if eq_ignore_ascii_case (ag_policy agent) (u "block_all") then inl ContactBlocked
      else
        match scan_links now (links_with outgoing incoming project (default 0 (ag_id agent))) false with
        | None => inl ContactBlocked
        | Some true => cross_loop now outgoing incoming project agents unapproved
        | Some false => cross_loop now outgoing incoming project agents (unapproved ++ [ag_name agent])
        end
  end.

(** @src tools/src/messaging.rs:1275-1357 enforce_cross_project_contacts
    -- on the links of the sender and the recipients of the other project. *)
Definition enforce_cross_project_contacts (now : Z) (outgoing incoming : list AgentLink) (recipient_project_id : Z)
    (recipients : list AgentRow) : ContactError + unit :=
  match cross_loop now outgoing incoming recipient_project_id (merge_sort agent_le recipients) [] with
  | inl err => inl err
  | inr [] => inr tt
  | inr unapproved => inl (ContactRequired unapproved [])
  end.
