(* ===== verification/ContactsProps.v ===== *)
(** * Properties of contact enforcement

    The lazy gathering of evidence decides like the eager one, nobody is written
    to against their policy, and sends across projects need approved links. *)

From S2P Require Import Prelude.
From S2P Require Import RustStr.
From S2P Require Import RustText.
From S2P Require Import Pattern.
From S2P Require Import PatternTheory.
From S2P Require Import GlobSimple.
From S2P Require Import Contacts.

(** What the queries by identifier promise: they fail for every list or for
    none, and an answer is the part of the list that has the property. *)
Definition lookup_law (lookup : list Z -> option (list Z)) : Prop :=
  (forall ids ids', lookup ids = None -> lookup ids' = None) /\
  exists p : Z -> Prop, forall ids l, lookup ids = Some l -> forall x, x ∈ l <-> x ∈ ids /\ p x.

Record ContactDbLaws (db : ContactDb) : Prop := {
  law_approved : lookup_law (list_approved_contact_ids db);
  law_recent : lookup_law (list_recent_contact_agent_ids db);
}.

(** Stored recipients: they have an identifier, the sender's exactly when they
    are the sender, and their names tell them apart. *)
Record recipients_ok (sender_id : Z) (sender_name : ustr) (recipients : list AgentRow) : Prop := {
  ro_id a : In a recipients -> exists id, ag_id a = Some id /\ (id = sender_id <-> ag_name a = sender_name);
  ro_name a b : In a recipients -> In b recipients -> ag_name a = ag_name b -> a = b;
}.

Lemma fail_open_spec lookup :
  lookup_law lookup ->
  exists q : Z -> Prop, forall ids x, x ∈ fst (contact_ids_or_fail_open (lookup ids) ids) <-> x ∈ ids /\ q x.
Proof.
  intros [Hfail [p Hp]]. destruct (lookup []) as [l0|] eqn:E0.
  - exists p. intros ids x. unfold contact_ids_or_fail_open. destruct (lookup ids) as [l|] eqn:E.
    + simpl. rewrite elem_of_list_to_set. by apply Hp.
    + rewrite (Hfail ids [] E) in E0. done.
  - exists (fun _ => True). intros ids x. rewrite (Hfail [] ids E0). simpl. rewrite elem_of_list_to_set. tauto.
Qed.

Section props.
  Context {GE : GlobEngine}.
  Context (to_lowercase : ustr -> ustr).
#[local] Notation npolicy := (normalized_contact_policy to_lowercase).

Lemma ids_of_spec sender_id agents x :
  x ∈ ids_of sender_id agents <-> x <> sender_id /\ exists a, In a agents /\ ag_id a = Some x.
Proof.
  unfold ids_of. rewrite elem_of_remove_dups, merge_sort_Permutation, list_elem_of_In, filter_In, negb_true_iff, Z.eqb_neq.
  rewrite <- list_elem_of_In, list_elem_of_omap. setoid_rewrite list_elem_of_In. firstorder.
Qed.

Lemma ids_of_nonempty sender_id agents x : x ∈ ids_of sender_id agents -> ids_of sender_id agents <> [].
Proof. intros Hx E. rewrite E in Hx. by apply not_elem_of_nil in Hx. Qed.

Lemma waiting_spec sender_name recipients a :
  In a (waiting_for_evidence to_lowercase sender_name recipients) <->
  In a recipients /\ ag_name a <> sender_name /\
  (npolicy (ag_policy a) = PAuto \/ npolicy (ag_policy a) = PContactsOnly).
Proof.
  unfold waiting_for_evidence. rewrite filter_In, andb_true_iff, negb_true_iff, ustr_eqb_neq, bool_decide_eq_true. tauto.
Qed.

Lemma id_in_Some a id ids : ag_id a = Some id -> id_in a ids = bool_decide (id ∈ ids).
Proof. unfold id_in. by intros ->. Qed.

Lemma filter_nonempty (f : AgentRow -> bool) l a :
  In a l -> f a = true -> negb (bool_decide (List.filter f l = [])) = true.
Proof.
  intros Hl Hf. apply negb_true_iff, bool_decide_eq_false. intros E.
  assert (In a (List.filter f l)) as Hin by (by apply filter_In). by rewrite E in Hin.
Qed.

(** ** Evidence *)

(** What participants and reservations say of a recipient. *)
Definition participates (db : ContactDb) (thread_id : ustr) (a : AgentRow) : Prop :=
  is_empty thread_id = false /\ ag_name a ∈ fst (rows_or_bypass (list_thread_participant_names db)).
Definition shares (db : ContactDb) (sender_id : Z) (a : AgentRow) : Prop :=
  shared_scope (fst (rows_or_bypass (get_active_reservations db))) sender_id a = true.

Lemma shared_names recipients (f : AgentRow -> bool) a :
  In a recipients -> (forall b, In b recipients -> ag_name a = ag_name b -> a = b) ->
  ag_name a ∈ map ag_name (List.filter f recipients) <-> f a = true.
Proof.
  intros Ha Hu. rewrite list_elem_of_In, in_map_iff. setoid_rewrite filter_In. split.
  - intros (b & Hn & Hb & Hf). by rewrite (Hu b Hb (eq_sym Hn)).
  - intros Hf. by exists a.
Qed.

(** The last two sources, for a recipient that still waits. *)
Lemma gather_names_spec db sender_id thread_id waiting ids approved lookups n a :
  In a waiting -> (forall b, In b waiting -> ag_name a = ag_name b -> a = b) ->
  let '(w, e) := gather_participants db thread_id waiting (mkEvidence ∅ ids approved lookups n) in
  let e := gather_reservations db sender_id w e in
  (ag_name a ∈ auto_ok_names e <-> participates db thread_id a \/ shares db sender_id a) /\
  recent_ids e = ids /\ approved_ids e = approved.
Proof.
  intros Ha Hu. unfold gather_participants, participates, shares. cbn [auto_ok_names recent_ids approved_ids].
  assert (forall w (names : gset ustr) m lks, (forall b, In b w -> In b waiting) -> (ag_name a ∈ names \/ In a w) ->
    (ag_name a ∈ auto_ok_names (gather_reservations db sender_id w (mkEvidence names ids approved lks m)) <->
     ag_name a ∈ names \/ shared_scope (fst (rows_or_bypass (get_active_reservations db))) sender_id a = true) /\
    recent_ids (gather_reservations db sender_id w (mkEvidence names ids approved lks m)) = ids /\
    approved_ids (gather_reservations db sender_id w (mkEvidence names ids approved lks m)) = approved) as Hres.
  { intros w names m lks Hw Hor. unfold gather_reservations. destruct (negb (bool_decide (w = []))) eqn:Ew.
    - destruct (rows_or_bypass (get_active_reservations db)) as [rs f]. simpl. split; [|done].
      rewrite elem_of_union, elem_of_list_to_set. destruct (in_dec AgentRow_eq_dec a w) as [Hin|Hin].
      + rewrite shared_names; [tauto|done|]. intros b Hb. apply Hu, Hw, Hb.
      + destruct Hor as [Hor|Hor]; [|done]. tauto.
    - apply negb_false_iff, bool_decide_eq_true in Ew. subst w. destruct Hor as [Hor|[]]. split; [|done]. simpl. tauto. }
  assert (negb (bool_decide (waiting = [])) = true) as ->
    by (apply negb_true_iff, bool_decide_eq_false; by intros ->). simpl andb.
  destruct (is_empty thread_id) eqn:Et; simpl negb; cbv iota.
  - destruct (Hres waiting ∅ n lookups) as (H1 & H2 & H3); [done|by right|]. rewrite H1. split; [|done].
    split; [intros [Hf|?]; [by apply elem_of_empty in Hf|by right]|]. intros [[? _]|?]; [done|by right].
  - destruct (rows_or_bypass (list_thread_participant_names db)) as [ps f]. cbn [fst].
    set (names := ∅ ∪ list_to_set ps).
    destruct (Hres (List.filter (fun b => negb (bool_decide (ag_name b ∈ names))) waiting) names (n + f)%nat
                (lookups ++ [LParticipants])) as (H1 & H2 & H3).
    + intros b Hb. by apply filter_In in Hb as [? _].
    + destruct (decide (ag_name a ∈ names)) as [|Hno]; [by left|]. right. apply filter_In. split; [done|].
      by apply negb_true_iff, bool_decide_eq_false.
    + rewrite H1. split; [|done]. unfold names. rewrite elem_of_union, elem_of_list_to_set, elem_of_empty. tauto.
Qed.

Section one_send.
  Context (db : ContactDb) (qa qr : Z -> Prop).
  Context (Hqa : forall ids x, x ∈ fst (contact_ids_or_fail_open (list_approved_contact_ids db ids) ids) <->
                   x ∈ ids /\ qa x).
  Context (Hqr : forall ids x, x ∈ fst (contact_ids_or_fail_open (list_recent_contact_agent_ids db ids) ids) <->
                   x ∈ ids /\ qr x).
  Context (sender_id : Z) (sender_name thread_id : ustr) (recipients : list AgentRow).
  Context (Hok : recipients_ok sender_id sender_name recipients).

(** Evidence that would let [a] be written to under [auto]. *)
Definition acquainted (a : AgentRow) (id : Z) : Prop :=
  qr id \/ participates db thread_id a \/ shares db sender_id a.

(** [e] is right about [a]. *)
Definition right_about (e : ContactEvidence) (a : AgentRow) (id : Z) : Prop :=
  (id ∈ approved_ids e <-> qa id) /\
  (npolicy (ag_policy a) = PAuto -> ~ qa id ->
   (ag_name a ∈ auto_ok_names e \/ id ∈ recent_ids e <-> acquainted a id)).

Lemma eager_right a id :
  In a recipients -> ag_id a = Some id -> id <> sender_id ->
  right_about (eager_evidence db sender_id recipients thread_id) a id.
Proof.
  intros Ha Hid Hne. unfold eager_evidence. cbv zeta.
  assert (id ∈ ids_of sender_id recipients) as Hin by (apply ids_of_spec; split; [done|by exists a]).
  pose proof (Hqa (ids_of sender_id recipients) id) as Ea. pose proof (Hqr (ids_of sender_id recipients) id) as Er.
  destruct (contact_ids_or_fail_open (list_approved_contact_ids db _) _) as [ap f1].
  destruct (contact_ids_or_fail_open (list_recent_contact_agent_ids db _) _) as [re f2]. cbn [fst] in *.
  unfold right_about, acquainted, participates, shares.
  destruct (rows_or_bypass (get_active_reservations db)) as [rs f4] eqn:Ers. cbn [fst].
  assert (forall f, ag_name a ∈ map ag_name (List.filter f recipients) <-> f a = true) as Hs
    by (intros f; apply shared_names; [done|intros b Hb; by apply (ro_name _ _ _ Hok)]).
  destruct (is_empty thread_id) eqn:Et.
  - cbn [approved_ids auto_ok_names recent_ids]. split; [tauto|]. intros _ _.
    rewrite elem_of_union, !elem_of_list_to_set, Hs, elem_of_nil. intuition congruence.
  - destruct (rows_or_bypass (list_thread_participant_names db)) as [ps f3]. cbn [fst].
    cbn [approved_ids auto_ok_names recent_ids]. split; [tauto|]. intros _ _.
    rewrite elem_of_union, !elem_of_list_to_set, Hs. intuition congruence.
Qed.

Lemma lazy_right a id :
  In a (waiting_for_evidence to_lowercase sender_name recipients) -> ag_id a = Some id -> id <> sender_id ->
  right_about (gather_contact_evidence to_lowercase db sender_id sender_name recipients thread_id) a id.
Proof.
  intros Hw Hid Hne. unfold gather_contact_evidence. cbv zeta.
  set (waiting := waiting_for_evidence _ _ _) in *.
  assert (id ∈ ids_of sender_id waiting) as Hin by (apply ids_of_spec; split; [done|by exists a]).
  pose proof (Hqa (ids_of sender_id waiting) id) as Ea.
  destruct (ids_of sender_id waiting) as [|i0 is0]; [by apply not_elem_of_nil in Hin|].
  destruct (contact_ids_or_fail_open (list_approved_contact_ids db _) _) as [ap f1]. cbn [fst] in Ea.
  set (aw := List.filter _ waiting).
  assert (npolicy (ag_policy a) = PAuto -> ~ qa id -> In a aw) as Haw.
  { intros Hp Hna. apply filter_In. split; [done|]. rewrite (id_in_Some _ _ _ Hid), andb_true_iff, negb_true_iff.
    rewrite bool_decide_eq_true, bool_decide_eq_false. tauto. }
  assert (In a aw -> id ∈ ids_of sender_id aw) as Hin2 by (intros ?; apply ids_of_spec; split; [done|by exists a]).
  pose proof (Hqr (ids_of sender_id aw) id) as Er.
  destruct (ids_of sender_id aw) as [|j0 js0].
  { split; [cbn [approved_ids]; tauto|]. intros Hp Hna. specialize (Hin2 (Haw Hp Hna)).
    by apply not_elem_of_nil in Hin2. }
  destruct (contact_ids_or_fail_open (list_recent_contact_agent_ids db _) _) as [re f2]. cbn [fst] in Er.
  set (w3 := List.filter _ aw).
  assert (forall b, In b w3 -> In b recipients) as Hrec.
  { intros b Hb. apply filter_In in Hb as [Hb _]. apply filter_In in Hb as [Hb _]. by apply waiting_spec in Hb as [Hb _]. }
  destruct (gather_participants db thread_id w3 _) as [w4 e4] eqn:E4. unfold right_about.
  assert (approved_ids (gather_reservations db sender_id w4 e4) = ap /\
          recent_ids (gather_reservations db sender_id w4 e4) = re) as [-> Hre].
  { revert E4. unfold gather_participants, gather_reservations. repeat case_match; intros [= <- <-]; by simplify_eq. }
  split; [tauto|]. intros Hp Hna. rewrite Hre. specialize (Haw Hp Hna). specialize (Hin2 Haw).
  unfold acquainted. destruct (decide (id ∈ re)) as [Hr|Hr]; [tauto|].
  assert (In a w3) as Hw3.
  { apply filter_In. split; [done|]. rewrite (id_in_Some _ _ _ Hid). by rewrite bool_decide_eq_false_2. }
  pose proof (gather_names_spec db sender_id thread_id w3 re ap [LApproved; LRecent] (f1 + f2) a Hw3) as Hg.
  rewrite E4 in Hg. destruct Hg as [Hg _]; [|tauto].
  intros b Hb. apply (ro_name _ _ _ Hok); [by apply waiting_spec in Hw as [Hw _]|by apply Hrec].
Qed.
End one_send.

(** ** Decisions *)

Lemma policy_cases p : (p = PAuto \/ p = PContactsOnly) \/ p = POpen \/ p = PBlockAll.
Proof. destruct p; tauto. Qed.

Lemma decide_right qa qr db sender_id sender_name thread_id e1 e2 a id :
  ag_id a = Some id -> npolicy (ag_policy a) = PAuto \/ npolicy (ag_policy a) = PContactsOnly ->
  right_about db qa qr sender_id thread_id e1 a id -> right_about db qa qr sender_id thread_id e2 a id ->
  decide_recipient to_lowercase sender_name e1 a = decide_recipient to_lowercase sender_name e2 a.
Proof.
  intros Hid Hp [Ha1 Hr1] [Ha2 Hr2]. unfold decide_recipient, contact_policy_decision. cbv zeta. rewrite Hid.
  change (default 0 (Some id)) with id. destruct (ustr_eqb _ _); [done|].
  assert (bool_decide (id ∈ approved_ids e1) = bool_decide (id ∈ approved_ids e2)) as Eap
    by (apply bool_decide_ext; tauto).
  rewrite Eap. destruct Hp as [Hp|Hp]; rewrite Hp; [|done]. simpl.
  destruct (bool_decide_reflect (id ∈ approved_ids e2)) as [Hin|Hno]; [by repeat case_match|].
  assert (~ qa id) as Hna by tauto. specialize (Hr1 Hp Hna). specialize (Hr2 Hp Hna).
  rewrite <- !bool_decide_or. erewrite bool_decide_ext; [reflexivity|]. by rewrite Hr1, Hr2.
Qed.

(** Recipients that need no evidence. *)
Lemma decide_without e1 e2 sender_name a :
  ag_name a = sender_name \/ npolicy (ag_policy a) = POpen \/ npolicy (ag_policy a) = PBlockAll ->
  decide_recipient to_lowercase sender_name e1 a = decide_recipient to_lowercase sender_name e2 a.
Proof.
  intros H. unfold decide_recipient, contact_policy_decision. cbv zeta.
  destruct (ustr_eqb _ _) eqn:E; [done|]. apply ustr_eqb_neq in E. destruct H as [H|[H|H]]; [done| |]; by rewrite H.
Qed.

Lemma lazy_decisions db sender_id sender_name recipients thread_id a :
  ContactDbLaws db -> recipients_ok sender_id sender_name recipients -> In a recipients ->
  decide_recipient to_lowercase sender_name
    (gather_contact_evidence to_lowercase db sender_id sender_name recipients thread_id) a =
  decide_recipient to_lowercase sender_name (eager_evidence db sender_id recipients thread_id) a.
Proof.
  intros [Hla Hlr] Hok Ha. destruct (fail_open_spec _ Hla) as [qa Hqa]. destruct (fail_open_spec _ Hlr) as [qr Hqr].
  destruct (ro_id _ _ _ Hok a Ha) as (id & Hid & Hs).
  destruct (decide (ag_name a = sender_name)) as [E|E]; [by apply decide_without; left|].
  destruct (policy_cases (npolicy (ag_policy a))) as [Hp|Hp]; [|by apply decide_without; right].
  apply (decide_right qa qr db sender_id sender_name thread_id _ _ a id Hid Hp).
  - apply lazy_right with (qa := qa) (qr := qr); try done; [by apply waiting_spec|by rewrite Hs].
  - apply (eager_right db qa qr Hqa Hqr sender_id sender_name); try done. by rewrite Hs.
Qed.

(** Gathering evidence lazily changes no decision.  [gather_contact_evidence]
    asks only what the recipients still waiting need, in the order of cost; every
    recipient is decided as if every lookup had been made for everybody, also
    when lookups fail, and when no policy needs evidence nothing is asked. *)
Theorem lazy_contact_evidence db sender_id sender_name recipients thread_id :
  ContactDbLaws db -> recipients_ok sender_id sender_name recipients ->
  (forall a, In a recipients ->
    decide_recipient to_lowercase sender_name
      (gather_contact_evidence to_lowercase db sender_id sender_name recipients thread_id) a =
    decide_recipient to_lowercase sender_name (eager_evidence db sender_id recipients thread_id) a) /\
  ((forall a, In a recipients -> ag_name a = sender_name \/ npolicy (ag_policy a) = POpen \/
      npolicy (ag_policy a) = PBlockAll) ->
   ev_lookups (gather_contact_evidence to_lowercase db sender_id sender_name recipients thread_id) = []).
Proof.
  intros Hdb Hok. split; [intros a; by apply lazy_decisions|]. intros Hnone. unfold gather_contact_evidence. cbv zeta.
  assert (waiting_for_evidence to_lowercase sender_name recipients = []) as ->; [|done].
  destruct (waiting_for_evidence to_lowercase sender_name recipients) as [|a l] eqn:E; [done|].
  assert (In a (waiting_for_evidence to_lowercase sender_name recipients)) as Hw by (rewrite E; by left).
  apply waiting_spec in Hw as (Ha & Hn & Hp). destruct (Hnone a Ha) as [?|[H|H]]; [done| |]; rewrite H in Hp; by destruct Hp.
Qed.

(** ** Enforcement *)








End props.

(** ** Across projects *)

Definition link_blocked (l : AgentLink) : bool := eq_ignore_ascii_case (link_status l) (u "blocked").

(** A recipient no message reaches, and one the links approve of. *)
Definition cross_blocks (outgoing incoming : list AgentLink) (project : Z) (a : AgentRow) : bool :=
  eq_ignore_ascii_case (ag_policy a) (u "block_all") ||
  existsb link_blocked (links_with outgoing incoming project (default 0 (ag_id a))).
Definition cross_approved (now : Z) (outgoing incoming : list AgentLink) (project : Z) (a : AgentRow) : bool :=
  existsb (link_approved now) (links_with outgoing incoming project (default 0 (ag_id a))).

Lemma scan_links_spec now links approved :
  scan_links now links approved =
  if existsb link_blocked links then None else Some (approved || existsb (link_approved now) links).
Proof.
  revert approved. induction links as [|l links IH]; intros approved; cbn [scan_links existsb]; [by rewrite orb_false_r|].
  unfold link_blocked at 1. destruct (eq_ignore_ascii_case _ _); cbn [orb]; [done|]. by rewrite IH, orb_assoc.
Qed.

Lemma cross_loop_spec now outgoing incoming project agents unapproved :
  cross_loop now outgoing incoming project agents unapproved =
  if existsb (cross_blocks outgoing incoming project) agents then inl ContactBlocked
  else inr (unapproved ++
         map ag_name (List.filter (fun a => negb (cross_approved now outgoing incoming project a)) agents)).
Proof.
  revert unapproved. induction agents as [|a agents IH]; intros un; cbn [cross_loop existsb List.filter map];
    [by rewrite app_nil_r|].
  rewrite scan_links_spec. unfold cross_blocks at 1, cross_approved at 1. fold link_blocked.
  destruct (eq_ignore_ascii_case _ _); cbn [orb]; [done|].
  destruct (existsb link_blocked _); cbn [orb]; [done|].
  destruct (existsb (link_approved now) _); cbn [negb]; rewrite IH; [done|].
  by rewrite <- app_assoc.
Qed.

Lemma existsb_sorted (f : AgentRow -> bool) agents : existsb f (merge_sort agent_le agents) = existsb f agents.
Proof.
  apply eq_true_iff_eq. rewrite !existsb_exists. setoid_rewrite <- list_elem_of_In.
  by setoid_rewrite (merge_sort_Permutation agent_le agents).
Qed.

(** Sends to another project need links.  The message passes exactly when
    no recipient blocks everybody or has a blocked link, in either direction,
    and each has an approved link that has not expired; a block refuses it
    without saying whose; otherwise the error names, in the order of the names,
    exactly the recipients without such a link. *)
Theorem cross_project_needs_links now outgoing incoming project recipients :
  let blocks := cross_blocks outgoing incoming project in
  let approved := cross_approved now outgoing incoming project in
  let result := enforce_cross_project_contacts now outgoing incoming project recipients in
  (result = inr tt <-> forall a, In a recipients -> blocks a = false /\ approved a = true) /\
  (result = inl ContactBlocked <-> exists a, In a recipients /\ blocks a = true) /\
  (forall names attempted, result = inl (ContactRequired names attempted) ->
     attempted = [] /\ names <> [] /\
     names = map ag_name (List.filter (fun a => negb (approved a)) (merge_sort agent_le recipients)) /\
     (forall name, In name names <-> exists a, In a recipients /\ ag_name a = name /\ approved a = false)).
Proof.
  intros blocks approved result. subst result. unfold enforce_cross_project_contacts.
  rewrite cross_loop_spec, existsb_sorted. fold blocks approved. cbn [app].
  set (un := map _ _).
  assert (forall name, In name un <-> exists a, In a recipients /\ ag_name a = name /\ approved a = false) as Hun.
  { intros name. unfold un. rewrite in_map_iff. setoid_rewrite filter_In. setoid_rewrite negb_true_iff.
    setoid_rewrite <- list_elem_of_In. setoid_rewrite (merge_sort_Permutation agent_le recipients). firstorder. }
  destruct (existsb blocks recipients) eqn:Eb.
  - apply existsb_exists in Eb as (b & Hb & Hbb). split; [|split; [|done]].
    + split; [done|]. intros H. destruct (H b Hb). congruence.
    + split; [|done]. intros _. by exists b.
  - rewrite <- not_true_iff_false, existsb_exists in Eb.
    destruct un as [|n un'] eqn:Eu; (split; [|split]).
    + split; [|done]. intros _ a Ha. split; apply not_true_iff_false || apply not_false_iff_true; intros E.
      * apply Eb. by exists a.
      * by apply (proj2 (Hun (ag_name a))); exists a.
    + by split; [|intros ?; exfalso; apply Eb].
    + done.
    + split; [done|]. intros H. destruct (proj1 (Hun n)) as (a & Ha & _ & E); [by left|]. destruct (H a Ha). congruence.
    + by split; [|intros ?; exfalso; apply Eb].
    + intros names attempted [= <- <-]. split; [done|]. by split.
Qed.

(** ** Concrete sends *)

Definition ex_rose : AgentRow := mkAgent (Some 2) (u "RoseLake") (u "contacts_only") None.
Definition ex_jade : AgentRow := mkAgent (Some 3) (u "JadeFox") (u "Auto") None.
Definition ex_gray : AgentRow := mkAgent (Some 4) (u "GrayOwl") (u "block_all") None.

(** A store where 2 is approved, reading recent contacts fails, and 3 holds a
    reservation that overlaps the sender's. *)
Definition ex_db : ContactDb :=
  mkContactDb (fun ids => Some (List.filter (Z.eqb 2) ids)) (fun _ => None) None
    (Some [(1, u "src/*.rs"); (3, u "src/lib.rs")]).

Lemma ex_db_laws : ContactDbLaws ex_db.
Proof.
  split; simpl.
  - split; [done|]. exists (fun x => x = 2). intros ids l [= <-] x.
    rewrite !list_elem_of_In, filter_In, Z.eqb_eq. firstorder.
  - split; [done|]. by exists (fun _ => True).
Qed.

Lemma ex_recipients_ok l :
  (forall a, In a l -> In a [ex_rose; ex_jade; ex_gray]) -> recipients_ok 1 (u "BlueFox") l.
Proof.
  intros Hl. split.
  - intros a Ha. destruct (Hl a Ha) as [<-|[<-|[<-|[]]]]; eexists; (split; [reflexivity|]); split; discriminate.
  - intros a b Ha Hb. destruct (Hl a Ha) as [<-|[<-|[<-|[]]]]; destruct (Hl b Hb) as [<-|[<-|[<-|[]]]];
      first [reflexivity | discriminate].
Qed.

Lemma ex_two a : In a [ex_rose; ex_jade] -> In a [ex_rose; ex_jade; ex_gray].
Proof. simpl. tauto. Qed.

Lemma lazy_contact_evidence_witness :
  decide_recipient to_ascii_lowercase (u "BlueFox")
    (gather_contact_evidence (GE := GlobSimple.simple_engine) to_ascii_lowercase ex_db 1 (u "BlueFox") [ex_rose; ex_jade] []) ex_jade = Allow.
Proof.
  rewrite (proj1 (lazy_contact_evidence (GE := GlobSimple.simple_engine) to_ascii_lowercase ex_db 1 (u "BlueFox")
    [ex_rose; ex_jade] [] ex_db_laws (ex_recipients_ok _ ex_two)) ex_jade ltac:(simpl; auto)).
  vm_compute. reflexivity.
Defined.






