(* ===== verification/Routing.v ===== *)
(** * Recipient addresses and routing ([tools/src/messaging.rs], [db/src/project_mailbox.rs])

    How the strings a caller writes in [to], [cc] and [bcc] name agents of this
    project, agents of another project, or the shared mailbox of the project,
    and the one project a message goes to.  Finding a project by identifier is a
    parameter. *)

From S2P Require Import Prelude.
From S2P Require Import RustStr.
From S2P Require Import RustText.
From S2P Require Import AgentNames.

(** The columns of [ProjectRow] this code reads. *)
Record ProjectRow := mkProject { pr_id : option Z; pr_slug : ustr; pr_human_key : ustr }.

(** The slots of a message. *)
Inductive Slot := STo | SCc | SBcc.
#[export] Instance Slot_eq_dec : EqDecision Slot.
Proof. solve_decision. Defined.

(** What refuses a send, with what the message of the error names. *)
Inductive RouteError :=
  | InvalidRecipient (raw : ustr)
  | MailboxInBcc (raw : ustr)
  | MailboxEmpty (slot : Slot) (raw : ustr)
  | MailboxElsewhere (slot : Slot) (raw : ustr)
  | ProjectNotFound (ident name : ustr)
  | ProjectFailed (code : Z)
  | MixedProjects (projects local : list ustr).

(** The answer of [resolve_existing_project]: the row, [NOT_FOUND], or another
    error. *)
Inductive ResolveError := ResolveNotFound | ResolveFailed (code : Z).

(** @src tools/src/messaging.rs:205-207 normalize_agent_name_or_original
    -- the cache of the normal forms never changes an answer. *)
Definition normalize_agent_name_or_original (name : ustr) : ustr :=
  default name (fst (normalize_agent_name name ∅)).

(** ** Addresses *)

Definition PROJECT_PREFIX : ustr := u "project:".

(** @src tools/src/messaging.rs:914-944 split_qualified_recipient *)
Definition split_qualified_recipient (raw : ustr) : RouteError + option (ustr * ustr) :=
  let raw := trim raw in
  let at_parts := split_once (ch "@") raw in
  let parts :=
    match strip_prefix PROJECT_PREFIX raw with
    | Some rest =>
        if contains_char (ch "#") rest then
          match rsplit_once (ch "#") rest with Some (project, name) => Some (name, project) | None => None end
        else at_parts
    | None => at_parts
    end in
  match parts with
  | None => mret None
  | Some (name, project) =>
      let name := trim name in
      let project := trim project in
      if is_empty name || is_empty project then inl (InvalidRecipient raw)
      else mret (Some (normalize_agent_name_or_original name, project))
  end.

(** @src tools/src/messaging.rs:1074-1079 any_qualified_recipient *)
Definition any_qualified_recipient (names : list ustr) : bool :=
  existsb (fun name => match split_qualified_recipient name with inr None => false | _ => true end) names.

(** @src db/src/project_mailbox.rs:92-95 parse_project_mailbox_address *)
Definition parse_project_mailbox_address (raw : ustr) : option ustr :=
  rest ← strip_prefix PROJECT_PREFIX (trim raw);
  if contains_char (ch "#") rest then None else Some (trim rest).

(** @src db/src/project_mailbox.rs:99-101 project_mailbox_address *)
Definition project_mailbox_address (project_slug : ustr) : ustr := PROJECT_PREFIX ++ project_slug.

(** ** Routing *)

Section routing.
  Context (resolve : ustr -> ResolveError + ProjectRow).
  Context (sender_project : ProjectRow).

(** @src tools/src/messaging.rs:1003-1008 take_project_mailbox_recipient
    -- an identifier names the project of the sender. *)
Definition names_sender_project (ident : ustr) : bool :=
  ustr_eqb ident (pr_slug sender_project) || ustr_eqb ident (pr_human_key sender_project) ||
  match resolve ident with inr project => bool_decide (pr_id project = pr_id sender_project) | inl _ => false end.

(** @src tools/src/messaging.rs:986-1037 take_project_mailbox_recipient
    -- one slot: the names kept, and whether an address was taken out. *)
Fixpoint take_slot (slot : Slot) (names : list ustr) : RouteError + (list ustr * bool) :=
  match names with
  | [] => mret ([], false)
  | raw :: names =>
      match parse_project_mailbox_address raw with
      | None => '(kept, taken) ← take_slot slot names; mret (raw :: kept, taken)
      | Some ident =>
          if is_empty ident then inl (MailboxEmpty slot (trim raw))
          else if negb (names_sender_project ident) then inl (MailboxElsewhere slot (trim raw))
          else '(kept, _) ← take_slot slot names; mret (kept, true)
      end
  end.

(** @src tools/src/messaging.rs:970-1043 take_project_mailbox_recipient
    -- with the slot of the address, if there is one: [to] wins. *)
Definition take_project_mailbox_recipient (to cc bcc : list ustr) :
    RouteError + (list ustr * list ustr * option (Slot * ustr)) :=
  match List.find (fun name => bool_decide (is_Some (parse_project_mailbox_address name))) bcc with
  | Some raw => inl (MailboxInBcc (trim raw))
  | None =>
      '(to, in_to) ← take_slot STo to;
      '(cc, in_cc) ← take_slot SCc cc;
      let kind := if in_to : bool then Some STo else if in_cc : bool then Some SCc else None in
      mret (to, cc, (fun kind => (kind, project_mailbox_address (pr_slug sender_project))) <$> kind)
  end.

(** @src tools/src/messaging.rs:1057-1072 with_project_mailbox_address *)
Definition with_project_mailbox_address (to cc : list ustr) (mailbox : option (Slot * ustr)) : list ustr * list ustr :=
  match mailbox with
  | None => (to, cc)
  | Some (kind, address) => if bool_decide (kind = SCc) then (to, cc ++ [address]) else (to ++ [address], cc)
  end.

(** The locals of [route_qualified_recipients]: the projects found so far, the
    foreign project with the identifier written for it, the local recipients. *)
Record RouteState := mkRoute {
  rt_projects : gmap ustr ProjectRow;
  rt_foreign : option (ProjectRow * ustr);
  rt_local : list ustr;
}.

(** @src tools/src/messaging.rs:1127-1160 route_qualified_recipients
    -- the project of an identifier, found once. *)
Definition find_project (st : RouteState) (ident name : ustr) : RouteError + (ProjectRow * RouteState) :=
  match rt_projects st !! ident with
  | Some project => mret (project, st)
  | None =>
      match resolve ident with
      | inl ResolveNotFound => inl (ProjectNotFound ident name)
      | inl (ResolveFailed code) => inl (ProjectFailed code)
      | inr project => mret (project, mkRoute (<[ident := project]> (rt_projects st)) (rt_foreign st) (rt_local st))
      end
  end.

(** @src tools/src/messaging.rs:1161-1172 route_qualified_recipients
    -- a qualified name, in the project found for it. *)
Definition place_recipient (st : RouteState) (project : ProjectRow) (name ident : ustr) : RouteError + RouteState :=
  if bool_decide (pr_id project = pr_id sender_project) then
    mret (mkRoute (rt_projects st) (rt_foreign st) (rt_local st ++ [name]))
  else
    match rt_foreign st with
    | Some (existing, existing_ident) =>
        if bool_decide (pr_id existing = pr_id project) then mret st
        else inl (MixedProjects [existing_ident; ident] [])
    | None => mret (mkRoute (rt_projects st) (Some (project, ident)) (rt_local st))
    end.

(** @src tools/src/messaging.rs:1122-1174 route_qualified_recipients
    -- one recipient: the name it is sent to. *)
Definition route_one (st : RouteState) (raw : ustr) : RouteError + (RouteState * ustr) :=
  split ← split_qualified_recipient raw;
  match split with
  | None => mret (mkRoute (rt_projects st) (rt_foreign st) (rt_local st ++ [raw]), raw)
  | Some (name, ident) =>
      '(project, st) ← find_project st ident name;
      st ← place_recipient st project name ident;
      mret (st, name)
  end.

(** @src tools/src/messaging.rs:1120-1121 route_qualified_recipients
    -- one slot. *)
Fixpoint route_slot (st : RouteState) (names : list ustr) : RouteError + (RouteState * list ustr) :=
  match names with
  | [] => mret (st, [])
  | raw :: names =>
      '(st, name) ← route_one st raw;
      '(st, routed) ← route_slot st names;
      mret (st, name :: routed)
  end.

(** @src tools/src/messaging.rs:1081-1088 RoutedRecipients *)
Record RoutedRecipients := mkRouted {
  foreign_project : option ProjectRow;
  r_to : list ustr;
  r_cc : list ustr;
  r_bcc : list ustr;
}.

(** @src tools/src/messaging.rs:1095-1190 route_qualified_recipients *)
Definition route_qualified_recipients (to cc bcc : list ustr) : RouteError + RoutedRecipients :=
  if negb (any_qualified_recipient (to ++ cc ++ bcc)) then mret (mkRouted None to cc bcc)
  else
    '(st, to) ← route_slot (mkRoute ∅ None []) to;
    '(st, cc) ← route_slot st cc;
    '(st, bcc) ← route_slot st bcc;
    match rt_foreign st, rt_local st with
    | Some (_, ident), _ :: _ => inl (MixedProjects [pr_human_key sender_project; ident] (rt_local st))
    | foreign, _ => mret (mkRouted (fst <$> foreign) to cc bcc)
    end.

(** @src tools/src/messaging.rs:3384-3391 send_message
    -- where a send goes: the shared mailbox is taken out, the others are
    routed, and a mailbox never travels with another project. *)
Definition route_send (to cc bcc : list ustr) : RouteError + (option (Slot * ustr) * RoutedRecipients) :=
  '(to, cc, mailbox) ← take_project_mailbox_recipient to cc bcc;
  routed ← route_qualified_recipients to cc bcc;
  match mailbox, foreign_project routed with
  | Some (_, address), Some foreign =>
      inl (MixedProjects [pr_human_key sender_project; pr_human_key foreign] [address])
  | _, _ => mret (mailbox, routed)
  end.
End routing.
