(* ===== verification/Recipients.v ===== *)
(** * Resolving the recipients of a send ([tools/src/messaging.rs])

    Names become rows of the store: looked up, or registered when the
    configuration lets an unknown name be minted; each agent is recorded once, in
    the first slot that names it.  The queries are an interface, [AgentStore],
    over a state of the store that registration changes. *)

From S2P Require Import Prelude.
From S2P Require Import RustStr.
From S2P Require Import RustText.
From S2P Require Import AgentNames.
From S2P Require Import Contacts.
From S2P Require Import Routing.
From S2P Require Import AgentNamesProps.

(** The outcomes of the queries. *)
Inductive Fetch := Fetched (a : AgentRow) | FetchNotFound | FetchFailed.
Inductive Register := Registered | RegisterSqlite (message : ustr) | RegisterFailed.

(** The queries of [db/src/queries.rs] a send makes; [None] is a failure. *)
Class AgentStore (St : Type) := {
  get_agent : St -> Z -> ustr -> Fetch;
  get_agent_by_id : St -> Z -> option AgentRow;
  get_agent_deregistered_at : St -> Z -> option (option Z);
  list_contacts : St -> Z -> Z -> option (list AgentLink * list AgentLink);
  find_agent_in_product_peer_projects : St -> Z -> ustr -> option (option (ustr * ustr));
  register_agent : St -> Z -> ustr -> Register * St;
}.

(** The configuration of a send. *)
Record SendConfig := mkSendConfig {
  messaging_auto_register_recipients : bool;
  messaging_fail_closed_send_profile : bool;
  proof_gate_enabled : bool;
}.

Inductive SendError :=
  | SNotFound
  | SRecipientNotFound (names : list ustr)
  | SCrossProject (peer_name : ustr)
  | SProofRequired
  | SDeregistered
  | SRetired
  | SMissingId
  | SFailed
  | SContact (e : ContactError).

(** @src tools/src/messaging.rs:280-295 is_agent_unique_constraint_error *)
Definition is_agent_unique_constraint_error (message : ustr) : bool :=
  match split_once (ch ":") (to_ascii_lowercase message) with
  | None => false
  | Some (prefix, columns) =>
      if negb (contains (u "unique constraint failed") prefix) then false
      else
        let columns := map (fun column => default column (last (split_on (N.eqb (ch ".")) (trim column))))
                         (split_on (N.eqb (ch ",")) columns) in
        existsb (ustr_eqb (u "project_id")) columns && existsb (ustr_eqb (u "name")) columns
  end.

Section recipients.
  Context {St : Type} `{!AgentStore St}.
  Context (to_lowercase : ustr -> ustr).
  Context (cfg : SendConfig).

(** @src tools/src/messaging.rs:368-387 ensure_agent_accepts_new_messages *)
Definition ensure_agent_accepts_new_messages (s : St) (agent : AgentRow) : SendError + unit :=
  match ag_id agent with
  | None => inl SMissingId
  | Some agent_id =>
      match get_agent_deregistered_at s agent_id with
      | None => inl SFailed
      | Some (Some _) => inl SDeregistered
      | Some None => match ag_retired_at agent with Some _ => inl SRetired | None => inr tt end
      end
  end.

(** @src tools/src/messaging.rs:864-875 cross_project_contact_named
    -- the loop. *)
Fixpoint scan_peers (s : St) (project_id : Z) (agent_name_norm : ustr) (peers : list (Z * Z * ustr)) :
    option (Z * ustr) :=
  match peers with
  | [] => None
  | (peer_project_id, peer_agent_id, status) :: peers =>
      if (peer_project_id =? project_id) || eq_ignore_ascii_case status (u "blocked") then
        scan_peers s project_id agent_name_norm peers
      else
        match get_agent_by_id s peer_agent_id with
        | Some peer =>
            if eq_ignore_ascii_case (ag_name peer) agent_name_norm then Some (peer_project_id, ag_name peer)
            else scan_peers s project_id agent_name_norm peers
        | None => scan_peers s project_id agent_name_norm peers
        end
  end.

(** @src tools/src/messaging.rs:846-863 cross_project_contact_named *)
Definition cross_project_contact_named (s : St) (project_id sender_id : Z) (agent_name_norm : ustr) :
    SendError + option (Z * ustr) :=
  match list_contacts s project_id sender_id with
  | None => inl SFailed
  | Some (outgoing, incoming) =>
      inr (scan_peers s project_id agent_name_norm
             (map (fun l => (b_project_id l, b_agent_id l, link_status l)) outgoing ++
              map (fun l => (a_project_id l, a_agent_id l, link_status l)) incoming))
  end.

(** @src tools/src/proof_gate.rs:528-544 reject_auto_registration_with_gate
    -- [refusal]: the error of the caller. *)
Definition reject_auto_registration_with_gate {E} (refusal : E) (gate_enabled : bool) : E + unit :=
  if negb gate_enabled then inr tt else inl refusal.

(** Whether an unknown name may be minted at all. *)
Definition auto_registration : bool :=
  messaging_auto_register_recipients cfg && negb (messaging_fail_closed_send_profile cfg).

(** @src tools/src/messaging.rs:1387-1436 resolve_or_register_agent
    -- the three guards of auto-registration. *)
Definition may_register (s : St) (project_id : Z) (sender_id : option Z) (agent_name_norm : ustr) : SendError + unit :=
  contact ← match sender_id with
            | Some sender_id => cross_project_contact_named s project_id sender_id agent_name_norm
            | None => mret None
            end;
  match contact with
  | Some (_, peer_name) => inl (SCrossProject peer_name)
  | None =>
      match find_agent_in_product_peer_projects s project_id agent_name_norm with
      | None => inl SFailed
      | Some (Some (_, peer_name)) => inl (SCrossProject peer_name)
      | Some None => reject_auto_registration_with_gate SProofRequired (proof_gate_enabled cfg)
      end
  end.

(** What a lookup means to the caller. *)
Definition fetch_result (f : Fetch) : SendError + AgentRow :=
  match f with Fetched a => inr a | FetchNotFound => inl SNotFound | FetchFailed => inl SFailed end.

(** @src tools/src/messaging.rs:1359-1501 resolve_or_register_agent *)
Definition resolve_or_register_agent (s : St) (project_id : Z) (agent_name : ustr) (sender_id : option Z) :
    St * (SendError + AgentRow) :=
  let agent_name_norm := normalize_agent_name_or_original (trim agent_name) in
  match get_agent s project_id agent_name_norm with
  | Fetched agent => (s, inr agent)
  | FetchNotFound =>
      if auto_registration then
        match may_register s project_id sender_id agent_name_norm with
        | inl e => (s, inl e)
        | inr tt =>
            let '(outcome, s) := register_agent s project_id agent_name_norm in
            match outcome with
            | Registered => (s, fetch_result (get_agent s project_id agent_name_norm))
            | RegisterSqlite message =>
                if is_agent_unique_constraint_error message then
                  (s, fetch_result (get_agent s project_id agent_name_norm))
                else (s, inl SFailed)
            | RegisterFailed => (s, inl SFailed)
            end
        end
      else (s, inl SNotFound)
  | FetchFailed => (s, inl SFailed)
  end.

(** ** The lists of a send *)

(** [recipient_map], [all_recipients], and the resolved names of the slots. *)
Record Resolved := mkResolved {
  recipient_map : gmap ustr AgentRow;
  all_recipients : list (Z * Slot);
  resolved_to : list ustr;
  resolved_cc : list ustr;
  resolved_bcc : list ustr;
}.

(** [SmallVec::push] on the list of a slot. *)
Definition push_name (slot : Slot) (name : ustr) (r : Resolved) (all : list (Z * Slot)) : Resolved :=
  match slot with
  | STo => mkResolved (recipient_map r) all (resolved_to r ++ [name]) (resolved_cc r) (resolved_bcc r)
  | SCc => mkResolved (recipient_map r) all (resolved_to r) (resolved_cc r ++ [name]) (resolved_bcc r)
  | SBcc => mkResolved (recipient_map r) all (resolved_to r) (resolved_cc r) (resolved_bcc r ++ [name])
  end.

(** @src tools/src/messaging.rs:2105-2116 push_recipient
    -- an agent is recorded once; the same lines end [push_foreign_recipient]. *)
Definition record_agent (slot : Slot) (agent : AgentRow) (r : Resolved) : Resolved :=
  let agent_id := default 0 (ag_id agent) in
  if existsb (fun p => fst p =? agent_id) (all_recipients r) then r
  else push_name slot (ag_name agent) r (all_recipients r ++ [(agent_id, slot)]).

Definition file_agent (agent : AgentRow) (r : Resolved) : Resolved :=
  mkResolved (<[to_lowercase (ag_name agent) := agent]> (recipient_map r)) (all_recipients r)
    (resolved_to r) (resolved_cc r) (resolved_bcc r).

(** @src tools/src/messaging.rs:2048-2104 push_recipient *)
Definition push_recipient (s : St) (project_id : Z) (name : ustr) (slot : Slot) (sender_id : option Z) (r : Resolved) :
    St * (SendError + Resolved) :=
  let name := trim name in
  match recipient_map r !! to_lowercase name with
  | Some existing => (s, inr (record_agent slot existing r))
  | None =>
      match resolve_or_register_agent s project_id name sender_id with
      | (s, inl SNotFound) => (s, inl (SRecipientNotFound [name]))
      | (s, inl e) => (s, inl e)
      | (s, inr agent) =>
          match ensure_agent_accepts_new_messages s agent with
          | inl e => (s, inl e)
          | inr tt => (s, inr (record_agent slot agent (file_agent agent r)))
          end
      end
  end.

(** @src tools/src/messaging.rs:3411-3494 send_message
    -- the loops over the three slots: unknown names are
    collected, any other error ends the send. *)
Fixpoint push_all (s : St) (project_id : Z) (sender_id : option Z) (names : list (Slot * ustr)) (r : Resolved)
    (missing_local : list ustr) : St * (SendError + (Resolved * list ustr)) :=
  match names with
  | [] => (s, inr (r, missing_local))
  | (slot, name) :: names =>
      match push_recipient s project_id name slot sender_id r with
      | (s, inr r) => push_all s project_id sender_id names r missing_local
      | (s, inl (SRecipientNotFound [])) => push_all s project_id sender_id names r (missing_local ++ [name])
      | (s, inl (SRecipientNotFound found)) => push_all s project_id sender_id names r (missing_local ++ found)
      | (s, inl e) => (s, inl e)
      end
  end.

(** @src tools/src/messaging.rs:1210-1246 push_foreign_recipient
    -- nothing is ever registered: the store is only read. *)
Definition push_foreign_recipient (s : St) (project_id : Z) (name : ustr) (slot : Slot) (r : Resolved)
    (missing : list ustr) : SendError + (Resolved * list ustr) :=
  match recipient_map r !! to_lowercase name with
  | Some existing => inr (record_agent slot existing r, missing)
  | None =>
      match get_agent s project_id name with
      | Fetched agent =>
          match ensure_agent_accepts_new_messages s agent with
          | inl e => inl e
          | inr tt => inr (record_agent slot agent (file_agent agent r), missing)
          end
      | FetchNotFound => inr (r, missing ++ [name])
      | FetchFailed => inl SFailed
      end
  end.

Fixpoint push_foreign_all (s : St) (project_id : Z) (names : list (Slot * ustr)) (r : Resolved) (missing : list ustr) :
    SendError + (Resolved * list ustr) :=
  match names with
  | [] => inr (r, missing)
  | (slot, name) :: names =>
      '(r, missing) ← push_foreign_recipient s project_id name slot r missing;
      push_foreign_all s project_id names r missing
  end.

(** The names of a routed send with their slots, in the order of the loops. *)
Definition slotted (routed : RoutedRecipients) : list (Slot * ustr) :=
  map (pair STo) (r_to routed) ++ map (pair SCc) (r_cc routed) ++ map (pair SBcc) (r_bcc routed).

Definition resolved_default : Resolved := mkResolved ∅ [] [] [] [].

(** @src tools/src/messaging.rs:3496-3524 send_message
    -- the recipients of a routed send, with the end of the local case (3534-3570):
    unknown names refuse it. *)
Definition resolve_recipients (s : St) (project_id : Z) (sender_id : option Z) (now : Z) (routed : RoutedRecipients) : St * (SendError + Resolved) :=
  match foreign_project routed with
  | Some foreign =>
      let foreign_id := default 0 (pr_id foreign) in
      (s,
       '(r, missing) ← push_foreign_all s foreign_id (slotted routed) resolved_default [];
       match missing with
       | _ :: _ => inl (SRecipientNotFound missing)
       | [] =>
           match list_contacts s project_id (default 0 sender_id) with
           | None => inl SFailed
           | Some (outgoing, incoming) =>
               match enforce_cross_project_contacts now outgoing incoming foreign_id
                       (map snd (map_to_list (recipient_map r))) with
               | inl e => inl (SContact e)
               | inr tt => mret r
               end
           end
       end)
  | None =>
      match push_all s project_id sender_id (slotted routed) resolved_default [] with
      | (s, inl e) => (s, inl e)
      | (s, inr (r, [])) => (s, inr r)
      | (s, inr (_, missing_local)) => (s, inl (SRecipientNotFound missing_local))
      end
  end.
End recipients.

(** ** Properties of recipient resolution

    Every agent is recorded once, under the slot of its first mention, and names
    are only registered when every guard allows it. *)

(** A recipient of a send: the slot of the mention and the agent. *)
Notation pick := (Slot * AgentRow)%type.
Definition id_of (p : pick) : Z := default 0 (ag_id (snd p)).

(** The first mention of every agent, in order. *)
Fixpoint firsts (picks : list pick) : list pick :=
  match picks with
  | [] => []
  | p :: picks => p :: List.filter (fun q => negb (id_of q =? id_of p)) (firsts picks)
  end.

Definition names_in (slot : Slot) (picks : list pick) : list ustr :=
  map (fun p => ag_name (snd p)) (List.filter (fun p => bool_decide (fst p = slot)) picks).

Lemma existsb_filter {A} (f g : A -> bool) l : existsb f (List.filter g l) = existsb (fun x => g x && f x) l.
Proof. induction l as [|x l IH]; [done|]. cbn [List.filter existsb]. by destruct (g x); cbn [existsb andb]; rewrite IH. Qed.

Lemma firsts_snoc picks p :
  firsts (picks ++ [p]) =
  if existsb (fun q => id_of q =? id_of p) (firsts picks) then firsts picks else firsts picks ++ [p].
Proof.
  induction picks as [|q picks IH]; [done|]. cbn [app firsts existsb]. rewrite IH, existsb_filter.
  destruct (Z.eqb_spec (id_of q) (id_of p)) as [E|E]; cbn [orb].
  - destruct (existsb _ (firsts picks)); [done|]. rewrite List.filter_app. cbn [List.filter].
    rewrite E, Z.eqb_refl. cbn [negb]. by rewrite app_nil_r.
  - assert (existsb (fun x => negb (id_of x =? id_of q) && (id_of x =? id_of p)) (firsts picks) =
            existsb (fun x => id_of x =? id_of p) (firsts picks)) as ->.
    { clear IH. induction (firsts picks) as [|x l IHl]; [done|]. cbn [existsb]. rewrite IHl. f_equal.
      destruct (Z.eqb_spec (id_of x) (id_of p)) as [Ex|Ex]; [|by rewrite andb_false_r].
      rewrite (proj2 (Z.eqb_neq _ _)) by congruence. done. }
    destruct (existsb _ (firsts picks)); [done|]. rewrite List.filter_app. cbn [List.filter].
    rewrite (proj2 (Z.eqb_neq (id_of p) (id_of q))) by congruence. done.
Qed.

Lemma firsts_In picks p : In p (firsts picks) -> In p picks.
Proof.
  revert p. induction picks as [|q picks IH]; intros p; [done|]. cbn [firsts In].
  intros [->|H]; [by left|]. apply filter_In in H as [H _]. right. by apply IH.
Qed.

Lemma firsts_NoDup picks : NoDup (map id_of (firsts picks)).
Proof.
  induction picks as [|p picks IH]; cbn [firsts map]; [constructor|]. constructor.
  - rewrite list_elem_of_In, in_map_iff. intros (q & Hq & Hin). apply filter_In in Hin as [_ Hn].
    rewrite Hq, Z.eqb_refl in Hn. done.
  - apply base.NoDup_ListNoDup in IH. apply base.NoDup_ListNoDup. revert IH. generalize (firsts picks) as l.
    induction l as [|q l IHl]; cbn [map List.filter]; intros H; [done|]. apply List.NoDup_cons_iff in H as [H1 H2].
    destruct (negb _); [|by apply IHl]. cbn [map]. apply List.NoDup_cons; [|by apply IHl].
    rewrite in_map_iff in *. intros (x & Hx & Hin). apply filter_In in Hin as [Hin _]. apply H1. by exists x.
Qed.

Lemma names_in_snoc slot picks p :
  names_in slot (picks ++ [p]) = names_in slot picks ++ (if bool_decide (fst p = slot) then [ag_name (snd p)] else []).
Proof.
  unfold names_in. rewrite List.filter_app, map_app. cbn [List.filter]. by destruct (bool_decide (fst p = slot)).
Qed.

(** What the queries promise: an agent is found under its name, in any case,
    and registering an agent deregisters nobody. *)
Record AgentStoreLaws (St : Type) `{!AgentStore St} (to_lowercase : ustr -> ustr) : Prop := {
  law_get_name s p n a : get_agent s p n = Fetched a -> to_lowercase (ag_name a) = to_lowercase n;
  law_register_keeps s p n id :
    get_agent_deregistered_at (snd (register_agent s p n)) id = get_agent_deregistered_at s id;
  law_lowercase n m : to_ascii_lowercase n = to_ascii_lowercase m -> to_lowercase n = to_lowercase m;
}.

Section props.
  Context {St : Type} `{!AgentStore St}.
  Context (to_lowercase : ustr -> ustr) (cfg : SendConfig).
  Context (Hlaws : AgentStoreLaws St to_lowercase).
#[local] Notation accepts s a := (ensure_agent_accepts_new_messages s a = inr tt).

(** The recipients [done], looked up under [key], are recorded in [r]. *)
Record resolved_inv (key : ustr -> ustr) (s : St) (done : list (Slot * ustr)) (r : Resolved) (picks : list pick) :
    Prop := {
  rv_map k a : recipient_map r !! k = Some a -> k = to_lowercase (ag_name a) /\ accepts s a;
  rv_picks : Forall2 (fun sn p => fst p = fst sn /\
    recipient_map r !! to_lowercase (key (snd sn)) = Some (snd p)) done picks;
  rv_all : all_recipients r = map (fun p => (id_of p, fst p)) (firsts picks);
  rv_to : resolved_to r = names_in STo (firsts picks);
  rv_cc : resolved_cc r = names_in SCc (firsts picks);
  rv_bcc : resolved_bcc r = names_in SBcc (firsts picks);
}.

Lemma resolved_inv_init key s : resolved_inv key s [] resolved_default [].
Proof. by split. Qed.

Lemma record_agent_map slot a r : recipient_map (record_agent slot a r) = recipient_map r.
Proof. unfold record_agent. destruct (existsb _ _); [done|]. by destruct slot. Qed.

Lemma map_In {A B} (f : A -> B) l y : In y (map f l) -> exists x, y = f x /\ In x l.
Proof. intros (x & <- & Hx)%in_map_iff. by exists x. Qed.

(** One more mention of a filed agent. *)
Lemma resolved_inv_record key s done r picks slot name a :
  resolved_inv key s done r picks -> recipient_map r !! to_lowercase (key name) = Some a ->
  resolved_inv key s (done ++ [(slot, name)]) (record_agent slot a r) (picks ++ [(slot, a)]).
Proof.
  intros [Hm Hp Ha Ht Hc Hb] Hl.
  assert (existsb (fun p => fst p =? default 0 (ag_id a)) (all_recipients r) =
          existsb (fun q => id_of q =? id_of (slot, a)) (firsts picks)) as Hex.
  { rewrite Ha. generalize (firsts picks) as l. induction l as [|q l IH]; [done|]. cbn [map existsb fst].
    by rewrite IH. }
  pose proof (firsts_snoc picks (slot, a)) as Hf.
  split; try rewrite record_agent_map; try done.
  - apply Forall2_app; [done|]. by repeat constructor.
  - unfold record_agent. rewrite Hex, Hf. destruct (existsb _ (firsts picks)); [done|].
    rewrite map_app, <- Ha. by destruct slot.
  - unfold record_agent. rewrite Hex, Hf. destruct (existsb _ (firsts picks)); [done|].
    rewrite names_in_snoc, <- Ht. destruct slot; cbn; by rewrite ?app_nil_r.
  - unfold record_agent. rewrite Hex, Hf. destruct (existsb _ (firsts picks)); [done|].
    rewrite names_in_snoc, <- Hc. destruct slot; cbn; by rewrite ?app_nil_r.
  - unfold record_agent. rewrite Hex, Hf. destruct (existsb _ (firsts picks)); [done|].
    rewrite names_in_snoc, <- Hb. destruct slot; cbn; by rewrite ?app_nil_r.
Qed.

(** An agent is filed for the first time. *)
Lemma resolved_inv_file key s done r picks a :
  resolved_inv key s done r picks -> recipient_map r !! to_lowercase (ag_name a) = None -> accepts s a ->
  resolved_inv key s done (file_agent to_lowercase a r) picks.
Proof.
  intros [Hm Hp Ha Ht Hc Hb] Hn Hacc. split; try done; cbn [file_agent recipient_map].
  - intros k b Hk. apply lookup_insert_Some in Hk as [[<- <-]|[_ Hk]]; [done|by apply Hm].
  - eapply Forall2_impl; [exact Hp|]. intros sn p [H1 H2]. split; [done|].
    rewrite lookup_insert_ne; [done|]. intros E. rewrite <- E, Hn in H2. done.
Qed.

Lemma normal_lower name : to_lowercase (normalize_agent_name_or_original (trim name)) = to_lowercase (trim name).
Proof.
  apply (law_lowercase _ _ Hlaws). unfold normalize_agent_name_or_original.
  destruct (fst (normalize_agent_name (trim name) ∅)) as [r|] eqn:E; [|done]. simpl.
  destruct (normalize_sound (trim name) r E) as (a & n & Ha & Hn & Hs & ->). rewrite trim_idem in Hs.
  rewrite Hs. by destruct (pair_valid a n Ha Hn).
Qed.

Lemma accepts_register s p n a : accepts s a -> accepts (snd (register_agent s p n)) a.
Proof.
  unfold ensure_agent_accepts_new_messages. destruct (ag_id a); [|done].
  by rewrite (law_register_keeps _ _ Hlaws).
Qed.

(** What resolving one name can do to the store, and what it finds. *)
Lemma resolve_or_register_spec s project_id name sender_id :
  let result := resolve_or_register_agent cfg s project_id name sender_id in
  let norm := normalize_agent_name_or_original (trim name) in
  (fst result = s \/
   fst result = snd (register_agent s project_id norm) /\ get_agent s project_id norm = FetchNotFound /\
   auto_registration cfg = true /\ may_register cfg s project_id sender_id norm = inr tt) /\
  (forall a, snd result = inr a -> to_lowercase (ag_name a) = to_lowercase (trim name)).
Proof.
  intros result norm. subst result. unfold resolve_or_register_agent. cbv zeta. fold norm.
  assert (forall s' a, fetch_result (get_agent s' project_id norm) = inr a ->
    to_lowercase (ag_name a) = to_lowercase (trim name)) as Hfetch.
  { intros s' a. destruct (get_agent s' project_id norm) as [b| |] eqn:E; [|done|done]. intros [= <-].
    rewrite (law_get_name _ _ Hlaws _ _ _ _ E). apply normal_lower. }
  destruct (get_agent s project_id norm) as [b| |] eqn:E.
  - split; [by left|]. intros a [= <-]. apply (Hfetch s). by rewrite E.
  - destruct (auto_registration cfg) eqn:Ea; [|by split; [left|]].
    destruct (may_register cfg s project_id sender_id norm) as [e|[]] eqn:Em; [by split; [left|]|].
    destruct (register_agent s project_id norm) as [outcome s'] eqn:Er.
    assert (forall x : SendError + AgentRow, fst (s', x) = s \/
      fst (s', x) = snd (outcome, s') /\ FetchNotFound = FetchNotFound /\ true = true /\ (inr tt : SendError + unit) = inr tt)
      as Hst by (intros x; by right).
    destruct outcome as [|message|]; [split; [apply Hst|apply Hfetch]| |by split; [apply Hst|]].
    destruct (is_agent_unique_constraint_error message); [split; [apply Hst|apply Hfetch]|by split; [apply Hst|]].
  - by split; [left|].
Qed.

Lemma resolved_inv_store key s s' done r picks :
  (forall a, accepts s a -> accepts s' a) -> resolved_inv key s done r picks -> resolved_inv key s' done r picks.
Proof.
  intros Hacc [Hm Hp Ha Ht Hc Hb]. split; try done. intros k a Hk. destruct (Hm k a Hk) as [H1 H2]. auto.
Qed.

(** A new agent, found under the key, is filed and recorded. *)
Lemma resolved_inv_new key s done r picks slot name a :
  resolved_inv key s done r picks -> recipient_map r !! to_lowercase (key name) = None ->
  to_lowercase (ag_name a) = to_lowercase (key name) -> accepts s a ->
  resolved_inv key s (done ++ [(slot, name)]) (record_agent slot a (file_agent to_lowercase a r)) (picks ++ [(slot, a)]).
Proof.
  intros Hi Hn Hname Hacc. apply resolved_inv_record.
  - apply resolved_inv_file; [done|by rewrite Hname|done].
  - cbn [file_agent recipient_map]. rewrite Hname. apply lookup_insert_eq.
Qed.

Lemma push_recipient_spec s done r picks project_id name slot sender_id s' r' :
  resolved_inv trim s done r picks ->
  push_recipient to_lowercase cfg s project_id name slot sender_id r = (s', inr r') ->
  exists a, resolved_inv trim s' (done ++ [(slot, name)]) r' (picks ++ [(slot, a)]).
Proof.
  intros Hi. unfold push_recipient. cbv zeta. destruct (recipient_map r !! to_lowercase (trim name)) as [b|] eqn:El.
  { intros [= <- <-]. exists b. by apply resolved_inv_record. }
  destruct (resolve_or_register_spec s project_id (trim name) sender_id) as [Hs Hn].
  destruct (resolve_or_register_agent cfg s project_id (trim name) sender_id) as [s1 [e|a]]; [by destruct e|].
  cbn [fst snd] in *. rewrite trim_idem in *.
  destruct (ensure_agent_accepts_new_messages s1 a) as [e|[]] eqn:Eacc; [done|]. intros [= <- <-]. exists a.
  apply resolved_inv_new; [|done|by apply Hn|done]. apply resolved_inv_store with s; [|done].
  intros b Hb. destruct Hs as [->|[-> _]]; [done|by apply accepts_register].
Qed.

Lemma push_all_missing names : forall s project_id sender_id r missing s' r' missing',
  missing <> [] -> push_all to_lowercase cfg s project_id sender_id names r missing = (s', inr (r', missing')) ->
  missing' <> [].
Proof.
  induction names as [|[slot name] names IH]; intros s pid sid r missing s' r' missing' Hne; cbn [push_all].
  - by intros [= <- <- <-].
  - destruct (push_recipient _ _ _ _ _ _ _ _) as [s1 [e|r1]]; [|by apply IH].
    destruct e as [|[|x l]| | | | | | |]; try done; apply IH; by destruct missing.
Qed.

Lemma push_all_spec names : forall s project_id sender_id done r picks s' r',
  resolved_inv trim s done r picks ->
  push_all to_lowercase cfg s project_id sender_id names r [] = (s', inr (r', [])) ->
  exists picks', resolved_inv trim s' (done ++ names) r' picks'.
Proof.
  induction names as [|[slot name] names IH]; intros s pid sid dn r picks s' r' Hi; cbn [push_all].
  - intros [= <- <-]. exists picks. by rewrite app_nil_r.
  - destruct (push_recipient _ _ _ _ _ _ _ _) as [s1 [e|r1]] eqn:Ep.
    + destruct e as [|[|x l]| | | | | | |]; try done; intros H; by apply push_all_missing in H.
    + intros H. destruct (push_recipient_spec _ _ _ _ _ _ _ _ _ _ Hi Ep) as [a Ha].
      destruct (IH _ _ _ _ _ _ _ _ Ha H) as [picks' Hp]. exists picks'. by rewrite <- app_assoc in Hp.
Qed.

Lemma push_foreign_missing names : forall s project_id r missing r' missing',
  push_foreign_all to_lowercase s project_id names r missing = inr (r', missing') -> missing <> [] -> missing' <> [].
Proof.
  induction names as [|[slot name] names IH]; intros s pid r missing r' missing'; cbn [push_foreign_all].
  - by intros [= <- <-].
  - intros ([r1 m1] & Hp & H)%result_bind_inr Hne. apply (IH _ _ _ _ _ _ H).
    revert Hp. unfold push_foreign_recipient. destruct (recipient_map r !! _); [by intros [= <- <-]|].
    destruct (get_agent s pid name); [|intros [= <- <-]; by destruct missing|done].
    destruct (ensure_agent_accepts_new_messages s a) as [|[]]; [done|by intros [= <- <-]].
Qed.

Lemma push_foreign_all_spec names : forall s project_id done r picks r',
  resolved_inv id s done r picks ->
  push_foreign_all to_lowercase s project_id names r [] = inr (r', []) ->
  exists picks', resolved_inv id s (done ++ names) r' picks'.
Proof.
  induction names as [|[slot name] names IH]; intros s pid dn r picks r' Hi; cbn [push_foreign_all].
  - intros [= <-]. exists picks. by rewrite app_nil_r.
  - intros ([r1 m1] & Hp & H)%result_bind_inr. change (dn ++ (slot, name) :: names) with (dn ++ [(slot, name)] ++ names).
    rewrite app_assoc.
    assert (m1 = []) as -> by (destruct m1; [done|exfalso; by apply (push_foreign_missing _ _ _ _ _ _ _ H)]).
    assert (exists a, resolved_inv id s (dn ++ [(slot, name)]) r1 (picks ++ [(slot, a)])) as [a Ha];
      [|by apply (IH _ _ _ _ _ _ Ha H)].
    revert Hp. unfold push_foreign_recipient. destruct (recipient_map r !! to_lowercase name) as [b|] eqn:El.
    { intros [= <-]. exists b. by apply resolved_inv_record. }
    destruct (get_agent s pid name) as [a| |] eqn:Eg; [|done|done].
    destruct (ensure_agent_accepts_new_messages s a) as [|[]] eqn:Eacc; [done|]. intros [= <-]. exists a.
    apply resolved_inv_new; [done|done|by apply (law_get_name _ _ Hlaws _ _ _ _ Eg)|done].
Qed.

(** The key a name is looked up under: names of another project were trimmed
    when they were routed. *)
Definition key_of (routed : RoutedRecipients) : ustr -> ustr :=
  match foreign_project routed with Some _ => id | None => trim end.

Lemma resolve_recipients_inv s project_id sender_id now routed s' r :
  resolve_recipients to_lowercase cfg s project_id sender_id now routed = (s', inr r) ->
  exists picks, resolved_inv (key_of routed) s' (slotted routed) r picks.
Proof.
  unfold resolve_recipients, key_of. destruct (foreign_project routed) as [foreign|].
  - intros H. injection H as <- H. apply result_bind_inr in H as ([r1 missing] & Hp & H).
    destruct missing; [|done]. destruct (list_contacts _ _ _) as [[outgoing incoming]|]; [|done].
    destruct (enforce_cross_project_contacts _ _ _ _ _) as [|[]]; [done|]. injection H as <-.
    exact (push_foreign_all_spec _ _ _ _ _ _ _ (resolved_inv_init id s) Hp).
  - destruct (push_all _ _ _ _ _ _ _ _) as [s1 [e|[r1 [|x l]]]] eqn:Ep; try done. intros [= <- <-].
    exact (push_all_spec _ _ _ _ _ _ _ _ _ (resolved_inv_init trim s) Ep).
Qed.

(** Recipients are recorded once.  When the recipients of a routed send are
    resolved, every name, in the order to, cc, bcc, is found in the map of the
    recipients as an agent that accepts messages; the recipients stored are
    exactly the first mentions of the agents, each identifier once and under the
    slot of its first mention, and the lists of names of the slots are those of
    the stored recipients. *)
Theorem recipients_recorded_once s project_id sender_id now routed s' r :
  resolve_recipients to_lowercase cfg s project_id sender_id now routed = (s', inr r) ->
  exists picks,
    Forall2 (fun sn p => fst p = fst sn /\ accepts s' (snd p) /\
      recipient_map r !! to_lowercase (key_of routed (snd sn)) = Some (snd p)) (slotted routed) picks /\
    all_recipients r = map (fun p => (id_of p, fst p)) (firsts picks) /\ NoDup (map fst (all_recipients r)) /\
    (resolved_to r, resolved_cc r, resolved_bcc r) =
      (names_in STo (firsts picks), names_in SCc (firsts picks), names_in SBcc (firsts picks)).
Proof.
  intros H. destruct (resolve_recipients_inv _ _ _ _ _ _ _ H) as [picks [Hm Hp Ha Ht Hc Hb]]. exists picks.
  split; [|split; [done|split; [|by rewrite Ht, Hc, Hb]]].
  - eapply Forall2_impl; [exact Hp|]. intros sn p [H1 H2]. split; [done|]. split; [|done]. by apply (Hm _ _ H2).
  - rewrite Ha, map_map. apply firsts_NoDup.
Qed.

(** ** Registration *)

Lemma push_recipient_store s project_id name slot sender_id r :
  let norm := normalize_agent_name_or_original (trim name) in
  let s' := fst (push_recipient to_lowercase cfg s project_id name slot sender_id r) in
  s' = s \/ s' = snd (register_agent s project_id norm) /\ get_agent s project_id norm = FetchNotFound /\
    auto_registration cfg = true /\ may_register cfg s project_id sender_id norm = inr tt.
Proof.
  intros norm s'. subst s'. unfold push_recipient. cbv zeta. destruct (recipient_map r !! _); [by left|].
  destruct (resolve_or_register_spec s project_id (trim name) sender_id) as [Hs _].
  destruct (resolve_or_register_agent cfg s project_id (trim name) sender_id) as [s1 [e|a]]; cbn [fst] in Hs;
    rewrite trim_idem in Hs; [by destruct e|]. by destruct (ensure_agent_accepts_new_messages s1 a) as [|[]].
Qed.

(** The guards a registration passed. *)
Lemma may_register_guards s project_id sender_id norm :
  may_register cfg s project_id sender_id norm = inr tt ->
  proof_gate_enabled cfg = false /\ find_agent_in_product_peer_projects s project_id norm = Some None /\
  forall id, sender_id = Some id -> cross_project_contact_named s project_id id norm = inr None.
Proof.
  unfold may_register. intros (contact & Hc & H)%result_bind_inr. destruct contact as [[pp pn]|]; [done|].
  destruct (find_agent_in_product_peer_projects s project_id norm) as [[[pp pn]|]|]; [done| |done].
  unfold reject_auto_registration_with_gate in H. destruct (proof_gate_enabled cfg); [done|].
  split; [done|split; [done|]]. by intros id ->.
Qed.

Lemma push_all_store (P : St -> Prop) names : forall s project_id sender_id r missing,
  P s ->
  (forall s n, P s -> get_agent s project_id n = FetchNotFound -> auto_registration cfg = true ->
     may_register cfg s project_id sender_id n = inr tt -> P (snd (register_agent s project_id n))) ->
  P (fst (push_all to_lowercase cfg s project_id sender_id names r missing)).
Proof.
  induction names as [|[slot name] names IH]; intros s pid sid r missing Hs Hstep; cbn [push_all]; [done|].
  destruct (push_recipient_store s pid name slot sid r) as [E|(E & H1 & H2 & H3)];
    destruct (push_recipient _ _ _ _ _ _ _ _) as [s1 [e|r1]]; cbn [fst] in E; subst s1.
  - destruct e as [|[|x l]| | | | | | |]; try done; by apply IH.
  - by apply IH.
  - specialize (Hstep s _ Hs H1 H2 H3) as Hs'. destruct e as [|[|x l]| | | | | | |]; try done; by apply IH.
  - apply IH; [by apply Hstep|done].
Qed.

(** Only unknown names of this project are minted.  Whatever a send
    resolves and however it ends, the store is changed only by registering names
    it does not know, in the project of the sender, while auto-registration is on
    and the fail-closed profile and the proof gate are off, and when the name
    belongs neither to a contact of the sender in another project nor to an agent
    of a project of the same product.  A send to another project changes
    nothing. *)
Theorem only_unknown_names_registered (P : St -> Prop) s project_id sender_id now routed :
  P s ->
  (forall s n, P s -> foreign_project routed = None -> get_agent s project_id n = FetchNotFound ->
     messaging_auto_register_recipients cfg = true -> messaging_fail_closed_send_profile cfg = false ->
     proof_gate_enabled cfg = false -> find_agent_in_product_peer_projects s project_id n = Some None ->
     (forall id, sender_id = Some id -> cross_project_contact_named s project_id id n = inr None) ->
     P (snd (register_agent s project_id n))) ->
  P (fst (resolve_recipients to_lowercase cfg s project_id sender_id now routed)).
Proof.
  intros Hs Hstep. unfold resolve_recipients. destruct (foreign_project routed) as [foreign|] eqn:Ef; [done|].
  pose proof (push_all_store P (slotted routed) s project_id sender_id resolved_default [] Hs) as H.
  destruct (push_all _ _ _ _ _ _ _ _) as [s1 [e|[r [|x l]]]]; apply H; intros s2 n Hp H1 H2 H3;
    destruct (may_register_guards _ _ _ _ H3) as (H4 & H5 & H6); unfold auto_registration in H2;
    apply andb_prop in H2 as [H2 H2']; apply negb_true_iff in H2'; by apply Hstep.
Qed.
End props.

(** With the proof gate on, resolving registers nobody. *)
Section gated.
  Context {St : Type} `{!AgentStore St} (to_lowercase : ustr -> ustr) (cfg : SendConfig).
  Context (Hgate : proof_gate_enabled cfg = true).

Lemma gated_resolve s project_id name sender_id : fst (resolve_or_register_agent cfg s project_id name sender_id) = s.
Proof.
  unfold resolve_or_register_agent. cbv zeta. destruct (get_agent _ _ _); [done| |done]. destruct (auto_registration cfg); [|done].
  destruct (may_register _ _ _ _ _) as [e|[]] eqn:Hm; [done|]. apply may_register_guards in Hm as [Hg _]. congruence.
Qed.

Lemma gated_push s project_id name slot sender_id r :
  fst (push_recipient to_lowercase cfg s project_id name slot sender_id r) = s.
Proof.
  unfold push_recipient. cbv zeta. destruct (recipient_map r !! _); [done|].
  pose proof (gated_resolve s project_id (trim name) sender_id) as H.
  destruct (resolve_or_register_agent _ _ _ _ _) as [s1 [e|a]]; cbn [fst] in H; subst s1; [by destruct e|].
  by destruct (ensure_agent_accepts_new_messages s a) as [|[]].
Qed.

Lemma gated_recipients s project_id sender_id now routed :
  fst (resolve_recipients to_lowercase cfg s project_id sender_id now routed) = s.
Proof.
  unfold resolve_recipients. destruct (foreign_project routed); [done|].
  assert (forall names r missing, fst (push_all to_lowercase cfg s project_id sender_id names r missing) = s) as H.
  { induction names as [|[slot name] names IH]; intros r missing; [done|]. cbn [push_all].
    pose proof (gated_push s project_id name slot sender_id r) as Hp.
    destruct (push_recipient _ _ _ _ _ _ _ _) as [s1 [e|r1]]; cbn [fst] in Hp; subst s1; [|apply IH].
    destruct e as [|[|x l]| | | | | | |]; try done; apply IH. }
  specialize (H (slotted routed) resolved_default []).
  by destruct (push_all _ _ _ _ _ _ _ _) as [s1 [e|[r [|x l]]]].
Qed.
End gated.

(** ** A concrete store: the agents of one project *)

#[local] Instance ex_store : AgentStore (list AgentRow) := {
  get_agent s _ n :=
    match List.find (fun a => eq_ignore_ascii_case (ag_name a) n) s with Some a => Fetched a | None => FetchNotFound end;
  get_agent_by_id s id := List.find (fun a => bool_decide (ag_id a = Some id)) s;
  get_agent_deregistered_at _ _ := Some None;
  list_contacts _ _ _ := Some ([], []);
  find_agent_in_product_peer_projects _ _ _ := Some None;
  register_agent s _ n := (Registered, s ++ [mkAgent (Some (Z.of_nat (length s) + 1)) n (u "auto") None]);
}.

Lemma ex_store_laws : AgentStoreLaws (list AgentRow) to_ascii_lowercase.
Proof.
  split; [|done|done]. intros s p n a. cbn [get_agent ex_store].
  destruct (List.find _ s) as [b|] eqn:E; [|done]. intros [= <-]. apply find_some in E as [_ E].
  unfold eq_ignore_ascii_case in E. by apply ustr_eqb_eq.
Qed.

Definition ex_agents : list AgentRow :=
  [mkAgent (Some 1) (u "BlueLake") (u "auto") None; mkAgent (Some 2) (u "RedFox") (u "open") None].
Definition ex_cfg : SendConfig := mkSendConfig true false false.
Definition ex_routed : RoutedRecipients := mkRouted None [u "BlueLake"] [u "bluelake"; u "GreenOwl"] [u "RedFox"].

Definition ex_resolved : Resolved :=
  match snd (resolve_recipients to_ascii_lowercase ex_cfg ex_agents 7 (Some 2) 0 ex_routed) with
  | inr r => r
  | inl _ => resolved_default
  end.

Lemma ex_send :
  resolve_recipients to_ascii_lowercase ex_cfg ex_agents 7 (Some 2) 0 ex_routed =
  (ex_agents ++ [mkAgent (Some 3) (u "GreenOwl") (u "auto") None], inr ex_resolved).
Proof. vm_compute. reflexivity. Qed.

Lemma recipients_recorded_once_witness :
  all_recipients ex_resolved = [(1, STo); (3, SCc); (2, SBcc)] /\ NoDup (map fst (all_recipients ex_resolved)).
Proof.
  split; [vm_compute; reflexivity|].
  destruct (recipients_recorded_once to_ascii_lowercase ex_cfg ex_store_laws _ _ _ _ _ _ _ ex_send)
    as (picks & _ & _ & H & _). exact H.
Defined.

Lemma only_unknown_names_registered_witness :
  Forall (fun a => ag_retired_at a = None)
    (fst (resolve_recipients to_ascii_lowercase ex_cfg ex_agents 7 (Some 2) 0 ex_routed)).
Proof.
  apply (only_unknown_names_registered to_ascii_lowercase ex_cfg ex_store_laws
    (Forall (fun a => ag_retired_at a = None))).
  - by repeat constructor.
  - intros s n Hs _ _ _ _ _ _ _. apply Forall_app. split; [exact Hs|by repeat constructor].
Defined.
