(* ===== verification/RoutingProps.v ===== *)
(** * Properties of recipient addresses and routing

    What is written as an address reads back, a routed message lives in one
    project, and a shared mailbox is never mixed with agents elsewhere. *)

From S2P Require Import Prelude.
From S2P Require Import RustStr.
From S2P Require Import RustText.
From S2P Require Import AgentNames.
From S2P Require Import AgentNamesProps.
From S2P Require Import Routing.

Section props.
  Context (resolve : ustr -> ResolveError + ProjectRow).
  Context (sender_project : ProjectRow).
#[local] Notation sender_id := (pr_id sender_project).

(** The project a recipient lives in, and the name it has there. *)
Definition home (raw : ustr) : option (option Z) :=
  match split_qualified_recipient raw with
  | inl _ => None
  | inr None => Some sender_id
  | inr (Some (_, ident)) => match resolve ident with inr project => Some (pr_id project) | inl _ => None end
  end.
Definition plain (raw : ustr) : ustr :=
  match split_qualified_recipient raw with inr (Some (name, _)) => name | _ => raw end.

(** What is known once the recipients [seen] were routed. *)
Record route_inv (st : RouteState) (seen : list ustr) : Prop := {
  ri_cache i p : rt_projects st !! i = Some p -> resolve i = inr p;
  ri_seen raw : In raw seen -> home raw = Some sender_id /\ rt_local st <> [] \/
    exists p i, rt_foreign st = Some (p, i) /\ home raw = Some (pr_id p);
  ri_local : rt_local st <> [] -> exists raw, In raw seen /\ home raw = Some sender_id;
  ri_foreign p i : rt_foreign st = Some (p, i) ->
    pr_id p <> sender_id /\ resolve i = inr p /\ exists raw, In raw seen /\ home raw = Some (pr_id p);
}.

Lemma route_inv_init : route_inv (mkRoute ∅ None []) [].
Proof. by split. Qed.

(** A local recipient is recorded. *)
Lemma route_inv_local st seen raw cache name :
  route_inv st seen -> (forall i p, cache !! i = Some p -> resolve i = inr p) -> home raw = Some sender_id ->
  route_inv (mkRoute cache (rt_foreign st) (rt_local st ++ [name])) (seen ++ [raw]).
Proof.
  intros [Hc Hs Hl Hf] Hcache Hh. split; simpl.
  - done.
  - intros x Hx. apply in_app_or in Hx as [Hx|[<-|[]]].
    + destruct (Hs x Hx) as [[H _]|H]; [left; split; [done|by destruct (rt_local st)]|by right].
    + left. split; [done|by destruct (rt_local st)].
  - intros _. exists raw. split; [apply in_or_app; right; by left|done].
  - intros p i E. destruct (Hf p i E) as (H1 & H2 & x & Hx & H3). split; [done|split; [done|]].
    exists x. split; [apply in_or_app; by left|done].
Qed.

(** A recipient of another project is recorded. *)
Lemma route_inv_foreign st seen raw cache p i :
  route_inv st seen -> (forall i p, cache !! i = Some p -> resolve i = inr p) ->
  home raw = Some (pr_id p) -> pr_id p <> sender_id -> resolve i = inr p ->
  (forall q j, rt_foreign st = Some (q, j) -> (q, j) = (p, i)) ->
  route_inv (mkRoute cache (Some (p, i)) (rt_local st)) (seen ++ [raw]).
Proof.
  intros [Hc Hs Hl Hf] Hcache Hh Hne Hr Hsame. split; simpl.
  - done.
  - intros x Hx. apply in_app_or in Hx as [Hx|[<-|[]]]; [|right; by exists p, i].
    destruct (Hs x Hx) as [H|(q & j & Hq & H)]; [by left|right]. exists p, i. split; [done|].
    by injection (Hsame q j Hq) as -> ->.
  - intros H. destruct (Hl H) as (x & Hx & Hx'). exists x. split; [apply in_or_app; by left|done].
  - intros q j [= <- <-]. split; [done|split; [done|]]. exists raw. split; [apply in_or_app; right; by left|done].
Qed.

Lemma find_project_spec st ident name :
  (forall i p, rt_projects st !! i = Some p -> resolve i = inr p) ->
  match find_project resolve st ident name with
  | inl _ => exists e, resolve ident = inl e
  | inr (p, st') => resolve ident = inr p /\ rt_foreign st' = rt_foreign st /\ rt_local st' = rt_local st /\
      forall i p, rt_projects st' !! i = Some p -> resolve i = inr p
  end.
Proof.
  intros Hc. unfold find_project. destruct (rt_projects st !! ident) as [p|] eqn:E; [simpl; by auto|].
  destruct (resolve ident) as [[]|p] eqn:Er; simpl; [by eexists|by eexists|].
  split; [done|split; [done|split; [done|]]]. intros i q H.
  apply lookup_insert_Some in H as [[<- <-]|[_ H]]; [done|by apply Hc].
Qed.

(** One recipient: refused only when it has no home or one that differs from an
    earlier foreign one. *)
Lemma route_one_spec st seen raw :
  route_inv st seen ->
  match route_one resolve sender_project st raw with
  | inl _ => home raw = None \/
      exists h x hx, home raw = Some h /\ h <> sender_id /\ In x seen /\ home x = Some hx /\ hx <> h
  | inr (st', name) => name = plain raw /\ route_inv st' (seen ++ [raw])
  end.
Proof.
  intros Hi. unfold route_one, home, plain. destruct (split_qualified_recipient raw) as [e|[[name ident]|]] eqn:Es.
  - by left.
  - simpl. pose proof (find_project_spec st ident name (ri_cache _ _ Hi)) as Hf.
    destruct (find_project resolve st ident name) as [e|[p st1]].
    { simpl. left. by destruct Hf as [? ->]. }
    destruct Hf as (Hr & Hf1 & Hl1 & Hc1). simpl. rewrite Hr.
    assert (home raw = Some (pr_id p)) as Hh by (unfold home; by rewrite Es, Hr).
    unfold place_recipient. rewrite Hf1, Hl1. case_bool_decide as Hid; simpl.
    { split; [done|]. apply route_inv_local; [done|done|]. by rewrite Hh, Hid. }
    destruct (rt_foreign st) as [[q j]|] eqn:Eq; simpl.
    + destruct (ri_foreign _ _ Hi q j Eq) as (Hq1 & Hq2 & x & Hx & Hq3).
      case_bool_decide as Hsame; simpl.
      * split; [done|]. destruct st1 as [c1 f1 l1]. simpl in *. subst f1 l1.
        apply route_inv_foreign; [done|done| |done|done|].
        -- by rewrite Hh, Hsame.
        -- intros q' j' E. congruence.
      * right. exists (pr_id p), x, (pr_id q). repeat split; [done|done|exact Hq3|done].
    + split; [done|]. apply route_inv_foreign; [done|done|done|done|done|]. intros q j E. by rewrite Eq in E.
  - simpl. split; [done|]. apply route_inv_local; [done|apply (ri_cache _ _ Hi)|]. unfold home. by rewrite Es.
Qed.

Lemma route_slot_spec names : forall st seen,
  route_inv st seen ->
  match route_slot resolve sender_project st names with
  | inl _ => exists raw, In raw (seen ++ names) /\
      (home raw = None \/ exists x, In x (seen ++ names) /\ home x <> home raw)
  | inr (st', routed) => routed = map plain names /\ route_inv st' (seen ++ names)
  end.
Proof.
  induction names as [|raw names IH]; intros st seen Hi; simpl; [by rewrite app_nil_r|].
  pose proof (route_one_spec st seen raw Hi) as H1.
  destruct (route_one resolve sender_project st raw) as [e|[st1 name]]; simpl.
  { exists raw. split; [apply in_or_app; right; by left|].
    destruct H1 as [H1|(h & x & hx & Hh & _ & Hx & Hhx & Hd)]; [by left|right].
    exists x. split; [apply in_or_app; by left|]. rewrite Hh, Hhx. congruence. }
  destruct H1 as [-> Hi1]. specialize (IH st1 (seen ++ [raw]) Hi1). rewrite <- app_assoc in IH. simpl in IH.
  destruct (route_slot resolve sender_project st1 names) as [e|[st2 routed]]; simpl; [done|].
  destruct IH as [-> IH]. done.
Qed.

Lemma unqualified_home names :
  any_qualified_recipient names = false -> Forall (fun raw => home raw = Some sender_id /\ plain raw = raw) names.
Proof.
  unfold any_qualified_recipient. intros H. apply List.Forall_forall. intros raw Hr.
  assert (split_qualified_recipient raw = inr None) as E.
  { destruct (split_qualified_recipient raw) as [e|[x|]] eqn:E; [| |done]; exfalso; apply not_true_iff_false in H;
      apply H, existsb_exists; exists raw; by rewrite E. }
  unfold home, plain. by rewrite E.
Qed.

Lemma map_plain names : Forall (fun raw => home raw = Some sender_id /\ plain raw = raw) names -> map plain names = names.
Proof. induction 1 as [|raw names [_ Hp] _ IH]; [done|]. simpl. by rewrite Hp, IH. Qed.

(** The three slots together. *)
Lemma route_slots_spec to cc bcc :
  match '(st, to) ← route_slot resolve sender_project (mkRoute ∅ None []) to;
        '(st, cc) ← route_slot resolve sender_project st cc;
        '(st, bcc) ← route_slot resolve sender_project st bcc; mret (st, (to, cc, bcc)) : RouteError + _ with
  | inl _ => exists raw, In raw (to ++ cc ++ bcc) /\
      (home raw = None \/ exists x, In x (to ++ cc ++ bcc) /\ home x <> home raw)
  | inr (st, routed) => routed = (map plain to, map plain cc, map plain bcc) /\ route_inv st (to ++ cc ++ bcc)
  end.
Proof.
  pose proof (route_slot_spec to _ _ route_inv_init) as H1. simpl in H1.
  destruct (route_slot _ _ _ to) as [e|[st1 to']]; simpl.
  { destruct H1 as (raw & Hr & H1). exists raw. split; [apply in_or_app; by left|].
    destruct H1 as [|(x & Hx & H1)]; [by left|right; exists x; split; [apply in_or_app; by left|done]]. }
  destruct H1 as [-> H1]. pose proof (route_slot_spec cc _ _ H1) as H2.
  destruct (route_slot _ _ _ cc) as [e|[st2 cc']]; simpl.
  { rewrite app_assoc. destruct H2 as (raw & Hr & H2). exists raw. split; [apply in_or_app; by left|].
    destruct H2 as [|(x & Hx & H2)]; [by left|right; exists x; split; [apply in_or_app; by left|done]]. }
  destruct H2 as [-> H2]. pose proof (route_slot_spec bcc _ _ H2) as H3. rewrite <- app_assoc in H3.
  destruct (route_slot _ _ _ bcc) as [e|[st3 bcc']]; simpl; [done|]. by destruct H3 as [-> H3].
Qed.

(** All recipients live in the project [h]. *)
Definition all_in (h : option Z) (names : list ustr) : Prop := forall raw, In raw names -> home raw = Some h.

(** What a routed send looks like. *)
Definition routed_ok (to cc bcc : list ustr) (r : RoutedRecipients) : Prop :=
  r_to r = map plain to /\ r_cc r = map plain cc /\ r_bcc r = map plain bcc /\
  match foreign_project r with
  | None => all_in sender_id (to ++ cc ++ bcc)
  | Some p => all_in (pr_id p) (to ++ cc ++ bcc) /\ pr_id p <> sender_id /\ to ++ cc ++ bcc <> []
  end.

Lemma route_sound to cc bcc r :
  route_qualified_recipients resolve sender_project to cc bcc = inr r -> routed_ok to cc bcc r.
Proof.
  unfold route_qualified_recipients. destruct (any_qualified_recipient _) eqn:Eq; simpl.
  - pose proof (route_slots_spec to cc bcc) as H.
    destruct (route_slot _ _ _ to) as [e|[st1 to']]; simpl in *; [done|].
    destruct (route_slot _ _ _ cc) as [e|[st2 cc']]; simpl in *; [done|].
    destruct (route_slot _ _ _ bcc) as [e|[st bcc']]; simpl in *; [done|].
    destruct H as [[= -> -> ->] Hi].
    destruct (rt_foreign st) as [[p i]|] eqn:Ef.
    + destruct (rt_local st) eqn:El; [|done]. intros [= <-]. unfold routed_ok. cbn [foreign_project r_to r_cc r_bcc fmap option_fmap option_map fst].
      destruct (ri_foreign _ _ Hi p i Ef) as (Hne & _ & x & Hx & _).
      repeat split; try done; [|by intros E; rewrite E in Hx].
      intros raw Hr. destruct (ri_seen _ _ Hi raw Hr) as [[_ H]|(q & j & Hq & H)]; [by rewrite El in H|].
      rewrite Ef in Hq. by injection Hq as <- <-.
    + intros H. assert (r = mkRouted None (map plain to) (map plain cc) (map plain bcc)) as ->
        by (destruct (rt_local st); by injection H as <-).
      repeat split; try done. cbn [foreign_project]. intros raw Hr.
      destruct (ri_seen _ _ Hi raw Hr) as [[H1 _]|(q & j & Hq & _)]; [done|congruence].
  - intros [= <-]. apply unqualified_home in Eq. pose proof Eq as Eq'.
    apply Forall_app in Eq' as [Ht Eq']. apply Forall_app in Eq' as [Hc Hb].
    split; [|split; [|split]]; cbn [r_to r_cc r_bcc foreign_project]; try (symmetry; by apply map_plain).
    intros raw Hr. rewrite List.Forall_forall in Eq. by apply Eq.
Qed.

Lemma route_complete to cc bcc h :
  all_in h (to ++ cc ++ bcc) -> exists r, route_qualified_recipients resolve sender_project to cc bcc = inr r.
Proof.
  intros Hh. unfold route_qualified_recipients. destruct (any_qualified_recipient _); simpl; [|by eexists].
  pose proof (route_slots_spec to cc bcc) as H.
  assert ((exists raw, In raw (to ++ cc ++ bcc) /\
      (home raw = None \/ exists x, In x (to ++ cc ++ bcc) /\ home x <> home raw)) -> False) as Hno.
  { intros (raw & Hr & [H'|(x & Hx & H')]); [by rewrite (Hh raw Hr) in H'|]. by rewrite (Hh raw Hr), (Hh x Hx) in H'. }
  destruct (route_slot _ _ _ to) as [e|[st1 to']]; simpl in *; [done|].
  destruct (route_slot _ _ _ cc) as [e|[st2 cc']]; simpl in *; [done|].
  destruct (route_slot _ _ _ bcc) as [e|[st bcc']]; simpl in *; [done|].
  destruct H as [_ Hi]. destruct (rt_foreign st) as [[p i]|] eqn:Ef; [|destruct (rt_local st); by eexists].
  destruct (rt_local st) eqn:El; [by eexists|]. exfalso.
  destruct (ri_foreign _ _ Hi p i Ef) as (Hne & _ & x & Hx & Hpx).
  destruct (ri_local _ _ Hi) as (y & Hy & Hsy); [by rewrite El|]. rewrite (Hh x Hx) in Hpx. rewrite (Hh y Hy) in Hsy.
  congruence.
Qed.

(** ** The shared mailbox *)

Definition is_mailbox (raw : ustr) : bool := bool_decide (is_Some (parse_project_mailbox_address raw)).

(** The address names this project. *)
Definition ours (raw : ustr) : Prop :=
  forall ident, parse_project_mailbox_address raw = Some ident ->
    is_empty ident = false /\ names_sender_project resolve sender_project ident = true.

Definition agents (names : list ustr) : list ustr := List.filter (fun raw => negb (is_mailbox raw)) names.

Lemma take_slot_spec slot names :
  match take_slot resolve sender_project slot names with
  | inl _ => exists raw, In raw names /\ ~ ours raw
  | inr (kept, taken) => kept = agents names /\ taken = existsb is_mailbox names /\ forall raw, In raw names -> ours raw
  end.
Proof.
  induction names as [|raw names IH]; [by simpl|]. cbn [take_slot existsb agents List.filter]. unfold is_mailbox.
  destruct (parse_project_mailbox_address raw) as [ident|] eqn:Ep; cbn [is_Some].
  - rewrite bool_decide_eq_true_2 by eauto. cbn [negb orb].
    assert (is_empty ident = true \/ names_sender_project resolve sender_project ident = false -> ~ ours raw) as Hno
      by (intros Hor Ho; destruct (Ho ident Ep); destruct Hor; congruence).
    destruct (is_empty ident) eqn:Ee; [exists raw; split; [by left|auto]|].
    destruct (names_sender_project resolve sender_project ident) eqn:En; cbn [negb]; [|exists raw; split; [by left|auto]].
    destruct (take_slot resolve sender_project slot names) as [e|[kept taken]]; simpl.
    + destruct IH as (x & Hx & Hox). exists x. split; [by right|done].
    + destruct IH as (-> & _ & Hall). split; [done|split; [done|]]. intros x [<-|Hx]; [|by apply Hall].
      intros i Hi. rewrite Ep in Hi. by injection Hi as <-.
  - rewrite bool_decide_eq_false_2 by (by intros [? ?]). cbn [negb orb].
    destruct (take_slot resolve sender_project slot names) as [e|[kept taken]]; simpl.
    + destruct IH as (x & Hx & Hox). exists x. split; [by right|done].
    + destruct IH as (-> & -> & Hall). split; [done|split; [done|]]. intros x [<-|Hx]; [|by apply Hall].
      intros i Hi. by rewrite Ep in Hi.
Qed.

(** The mailbox a send addresses. *)
Definition mailbox_of (to cc : list ustr) : option (Slot * ustr) :=
  (fun kind => (kind, project_mailbox_address (pr_slug sender_project))) <$>
  (if existsb is_mailbox to then Some STo else if existsb is_mailbox cc then Some SCc else None).

Lemma take_spec to cc bcc :
  match take_project_mailbox_recipient resolve sender_project to cc bcc with
  | inl _ => ~ ((forall raw, In raw bcc -> is_mailbox raw = false) /\ forall raw, In raw (to ++ cc) -> ours raw)
  | inr res => res = (agents to, agents cc, mailbox_of to cc) /\
      (forall raw, In raw bcc -> is_mailbox raw = false) /\ forall raw, In raw (to ++ cc) -> ours raw
  end.
Proof.
  unfold take_project_mailbox_recipient. destruct (List.find _ bcc) as [raw|] eqn:Ef.
  { intros [Hb _]. apply find_some in Ef as [Hin Hm]. specialize (Hb raw Hin). unfold is_mailbox in Hb. congruence. }
  assert (forall raw, In raw bcc -> is_mailbox raw = false) as Hb by (intros x Hx; by apply (find_none _ _ Ef)).
  pose proof (take_slot_spec STo to) as H1. pose proof (take_slot_spec SCc cc) as H2.
  destruct (take_slot _ _ STo to) as [e|[to' in_to]]; simpl.
  { intros [_ Ho]. destruct H1 as (x & Hx & H1). apply H1, Ho, in_or_app. by left. }
  destruct (take_slot _ _ SCc cc) as [e|[cc' in_cc]]; simpl.
  { intros [_ Ho]. destruct H2 as (x & Hx & H2). apply H2, Ho, in_or_app. by right. }
  destruct H1 as (-> & -> & H1), H2 as (-> & -> & H2). split; [done|split; [done|]].
  intros raw Hr. apply in_app_or in Hr as [Hr|Hr]; auto.
Qed.

(** C24: a message lives in one project.  A send is routed exactly when no blind
    copy goes to a mailbox, every mailbox address names the project of the
    sender, and the agents all live in one project, which is the sender's if a
    mailbox is addressed too.  Then every agent is sent to under its own name, in
    its slot and in order; the project of the message is the one the agents live
    in; and the addresses of the mailbox are gone, reported once. *)
Theorem routed_send_one_project to cc bcc :
  let route := route_send resolve sender_project to cc bcc in
  let names := agents to ++ agents cc ++ bcc in
  ((exists sent, route = inr sent) <->
     (forall raw, In raw bcc -> is_mailbox raw = false) /\ (forall raw, In raw (to ++ cc) -> ours raw) /\
     exists h, all_in h names /\ (existsb is_mailbox (to ++ cc) = true -> names = [] \/ h = sender_id)) /\
  (forall mailbox r, route = inr (mailbox, r) -> routed_ok (agents to) (agents cc) bcc r /\ mailbox = mailbox_of to cc).
Proof.
  intros route names. subst route names. unfold route_send. pose proof (take_spec to cc bcc) as Ht.
  destruct (take_project_mailbox_recipient _ _ _ _ _) as [e|res]; simpl.
  { split; [|done]. split; [by intros [? ?]|]. intros (H1 & H2 & _). by destruct Ht. }
  destruct Ht as (-> & Hb & Ho).
  assert (existsb is_mailbox (to ++ cc) = true <-> mailbox_of to cc <> None) as Hm.
  { unfold mailbox_of. rewrite existsb_app. by destruct (existsb is_mailbox to), (existsb is_mailbox cc). }
  destruct (route_qualified_recipients _ _ (agents to) (agents cc) bcc) as [e|r] eqn:Er; simpl.
  { split; [|done]. split; [by intros [? ?]|]. intros (_ & _ & h & Hh & _).
    destruct (route_complete _ _ _ h Hh) as [r Hr]. by rewrite Hr in Er. }
  pose proof (route_sound _ _ _ _ Er) as Hok. pose proof Hok as (_ & _ & _ & Hhome). split.
  - split.
    + intros [sent Hs]. split; [done|split; [done|]]. destruct (foreign_project r) as [p|] eqn:Ef.
      * destruct Hhome as (H1 & _). exists (pr_id p). split; [done|]. intros Hx. apply Hm in Hx.
        by destruct (mailbox_of to cc) as [[? ?]|].
      * exists sender_id. split; [done|by right].
    + intros (_ & _ & h & Hh & Hmb). destruct (mailbox_of to cc) as [[k a]|]; [|by eexists].
      destruct (foreign_project r) as [p|]; [|by eexists]. exfalso. destruct Hhome as (H1 & Hne & Hnil).
      destruct (Hmb ltac:(by apply Hm)) as [|Hh']; [done|]. destruct (agents to ++ agents cc ++ bcc) as [|x l]; [done|].
      pose proof (Hh x (or_introl eq_refl)) as E1. pose proof (H1 x (or_introl eq_refl)) as E2. congruence.
  - intros mailbox r' H. destruct (mailbox_of to cc) as [[k a]|]; [destruct (foreign_project r); [done|]|];
      by injection H as <- <-.
Qed.
End props.

(** ** Addresses read back *)

Lemma contains_char_false c s : contains_char c s = false <-> forall d, In d s -> d <> c.
Proof.
  unfold contains_char. rewrite <- not_true_iff_false, existsb_exists. setoid_rewrite N.eqb_eq. firstorder congruence.
Qed.

Lemma split_once_app c a b : contains_char c a = false -> split_once c (a ++ c :: b) = Some (a, b).
Proof.
  rewrite contains_char_false. induction a as [|d a IH]; intros Ha; simpl; [by rewrite N.eqb_refl|].
  rewrite (proj2 (N.eqb_neq c d)) by (intros ->; by apply (Ha d); [left|]).
  rewrite IH by (intros e He; apply Ha; by right). done.
Qed.

Lemma split_once_none c s : contains_char c s = false -> split_once c s = None.
Proof.
  rewrite contains_char_false. induction s as [|d s IH]; intros Hs; simpl; [done|].
  rewrite (proj2 (N.eqb_neq c d)) by (intros ->; by apply (Hs d); [left|]).
  rewrite IH by (intros e He; apply Hs; by right). done.
Qed.

Lemma rsplit_once_app c a b : contains_char c b = false -> rsplit_once c (a ++ c :: b) = Some (a, b).
Proof.
  intros Hb. unfold rsplit_once. rewrite rev_app_distr. simpl. rewrite <- app_assoc. simpl.
  rewrite split_once_app; simpl; [by rewrite !rev_involutive|].
  apply contains_char_false. intros d Hd%in_rev. by apply (proj1 (contains_char_false c b) Hb).
Qed.

Lemma trimmed_around a m b : a <> [] -> b <> [] -> trimmed a -> trimmed b -> trimmed (a ++ m ++ b).
Proof.
  intros Ha Hb [Hha _] [_ Hlb]. split; intros c r E.
  - destruct a as [|d a]; [done|]. injection E as -> _. by apply (Hha c a).
  - destruct b as [|d b] using rev_ind; [done|]. rewrite !app_assoc in E. apply app_inj_tail in E as [_ ->].
    by apply (Hlb c b).
Qed.

(** A trimmed text that is not empty. *)
Definition ident_ok (s : ustr) : Prop := trimmed s /\ s <> [].

(** A name written alone: letters, the first one not that of [project:]. *)
Record name_ok (name : ustr) : Prop := {
  nm_ident : ident_ok name;
  nm_at : contains_char (ch "@") name = false;
  nm_hash : contains_char (ch "#") name = false;
  nm_head : starts_with [ch "p"] name = false;
  nm_normal : normalize_agent_name_or_original name = name;
}.

Lemma letter_plain c : is_ascii_alphabetic c = true -> is_whitespace c = false /\ c <> ch "@" /\ c <> ch "#".
Proof.
  unfold is_ascii_alphabetic, is_ascii_uppercase, is_ascii_lowercase. intros H.
  assert ((65 <= c <= 90 \/ 97 <= c <= 122)%N) as Hr.
  { apply orb_prop in H as [H|H]; apply andb_prop in H as [H1%N.leb_le H2%N.leb_le]; lia. }
  unfold is_whitespace. change (ch "@") with 64%N. change (ch "#") with 35%N. split; [|lia].
  apply not_true_iff_false. intros Hw. revert Hw. clear H.
  repeat (rewrite orb_true_iff || rewrite andb_true_iff || rewrite N.leb_le || rewrite N.eqb_eq). lia.
Qed.

Definition word_ok (w : ustr) : bool := forallb is_ascii_lowercase w && negb (is_empty w).
Lemma words_ok : forallb word_ok (VALID_ADJECTIVES ++ VALID_NOUNS) = true.
Proof. vm_compute. reflexivity. Qed.

Lemma pascal_word w : word_ok w = true ->
  exists c r, push_pascal_case_word w = c :: r /\ is_ascii_uppercase c = true /\ forallb is_ascii_alphabetic (c :: r) = true.
Proof.
  unfold word_ok. intros [Hw Hn]%andb_prop. destruct w as [|c r]; [done|]. simpl in Hw. apply andb_prop in Hw as [Hc Hr].
  exists (ascii_upper c), r. split; [done|]. unfold ascii_upper. rewrite Hc.
  assert (is_ascii_uppercase (c - 32) = true) as Hu.
  { revert Hc. unfold is_ascii_uppercase, is_ascii_lowercase. intros [H1%N.leb_le H2%N.leb_le]%andb_prop.
    apply andb_true_intro. split; apply N.leb_le; lia. }
  split; [done|]. cbn [forallb]. apply andb_true_intro. split; [unfold is_ascii_alphabetic; by rewrite Hu|].
  rewrite forallb_forall in Hr |- *. intros x Hx. unfold is_ascii_alphabetic. rewrite (Hr x Hx). apply orb_true_r.
Qed.

Lemma pascal_name_ok a n : In a VALID_ADJECTIVES -> In n VALID_NOUNS -> name_ok (pascal_case_agent_name a n).
Proof.
  intros Ha Hn. pose proof words_ok as Hw. rewrite forallb_forall in Hw.
  pose proof (AgentNamesProps.pascal_normal a n Ha Hn) as Hnorm.
  destruct (pascal_word a (Hw a ltac:(apply in_or_app; by left))) as (c & r & Ea & Hc & Hla).
  destruct (pascal_word n (Hw n ltac:(apply in_or_app; by right))) as (d & t & En & _ & Hln).
  assert (forall x, In x (pascal_case_agent_name a n) -> is_ascii_alphabetic x = true) as Hall.
  { unfold pascal_case_agent_name. rewrite Ea, En. intros x [Hx|Hx]%in_app_or.
    - by apply (proj1 (forallb_forall _ _) Hla).
    - by apply (proj1 (forallb_forall _ _) Hln). }
  split.
  - split; [|unfold pascal_case_agent_name; by rewrite Ea].
    split; intros x s E; apply letter_plain, Hall; rewrite E; [by left|apply in_or_app; right; by left].
  - apply contains_char_false. intros x Hx. by apply letter_plain, Hall.
  - apply contains_char_false. intros x Hx. by apply letter_plain, Hall.
  - unfold pascal_case_agent_name. rewrite Ea. cbn [app starts_with]. rewrite (proj2 (N.eqb_neq _ _)); [done|].
    change (ch "p") with 112%N. revert Hc. unfold is_ascii_uppercase. intros [_ H%N.leb_le]%andb_prop. lia.
  - unfold normalize_agent_name_or_original. unfold AgentNamesProps.normalize_uncached in Hnorm. by rewrite Hnorm.
Qed.

Lemma strip_prefix_None s t : starts_with s t = false -> strip_prefix s t = None.
Proof. unfold strip_prefix. by intros ->. Qed.

Lemma starts_with_name name r : name_ok name -> starts_with PROJECT_PREFIX (name ++ r) = false.
Proof.
  intros Hn. pose proof (nm_head _ Hn) as Hh. destruct (nm_ident _ Hn) as [_ Hne]. destruct name as [|c name]; [done|].
  unfold PROJECT_PREFIX. rewrite u_cons. cbn [app starts_with] in *. rewrite andb_true_r in Hh. by rewrite Hh.
Qed.

Lemma ident_not_empty s : ident_ok s -> is_empty s = false.
Proof. intros [_ H]. by destruct s. Qed.

Lemma ident_trim s : ident_ok s -> trim s = s.
Proof. intros [H _]. by apply trim_trimmed. Qed.

Lemma prefix_ident : ident_ok PROJECT_PREFIX.
Proof.
  split; [|discriminate]. split; intros c r E.
  - injection E as <- _. reflexivity.
  - change PROJECT_PREFIX with (u "project" ++ [ch ":"]) in E. apply app_inj_tail in E as [_ <-]. reflexivity.
Qed.

(** Every way of writing an address is read as what was written. *)
Lemma split_parts name project :
  name_ok name -> ident_ok project ->
  (if is_empty (trim name) || is_empty (trim project) then inl (InvalidRecipient name)
   else mret (Some (normalize_agent_name_or_original (trim name), trim project))) =
  (inr (Some (name, project)) : RouteError + option (ustr * ustr)).
Proof.
  intros Hn Hp. pose proof (nm_ident _ Hn) as Hi.
  by rewrite (ident_trim _ Hi), (ident_trim _ Hp), (ident_not_empty _ Hi), (ident_not_empty _ Hp), (nm_normal _ Hn).
Qed.

Lemma plain_name_reads name :
  name_ok name -> split_qualified_recipient name = inr None /\ parse_project_mailbox_address name = None.
Proof.
  intros Hn. pose proof (starts_with_name name [] Hn) as Hs. rewrite app_nil_r in Hs.
  unfold split_qualified_recipient, parse_project_mailbox_address. cbv zeta.
  rewrite (ident_trim _ (nm_ident _ Hn)), (strip_prefix_None _ _ Hs), (split_once_none _ _ (nm_at _ Hn)). done.
Qed.

Lemma at_address_reads name project :
  name_ok name -> ident_ok project ->
  split_qualified_recipient (name ++ ch "@" :: project) = inr (Some (name, project)) /\
  parse_project_mailbox_address (name ++ ch "@" :: project) = None.
Proof.
  intros Hn Hp. pose proof (starts_with_name name (ch "@" :: project) Hn) as Hs.
  assert (trim (name ++ ch "@" :: project) = name ++ ch "@" :: project) as Ht.
  { apply trim_trimmed. apply (trimmed_around name [ch "@"] project); apply Hp || apply (nm_ident _ Hn). }
  unfold split_qualified_recipient, parse_project_mailbox_address. cbv zeta.
  rewrite Ht, (strip_prefix_None _ _ Hs), (split_once_app _ _ _ (nm_at _ Hn)). split; [|done].
  pose proof (split_parts name project Hn Hp) as E. revert E. by destruct (_ || _).
Qed.

Lemma hash_address_reads name project :
  name_ok name -> ident_ok project ->
  split_qualified_recipient (PROJECT_PREFIX ++ project ++ ch "#" :: name) = inr (Some (name, project)) /\
  parse_project_mailbox_address (PROJECT_PREFIX ++ project ++ ch "#" :: name) = None.
Proof.
  intros Hn Hp. set (raw := PROJECT_PREFIX ++ project ++ ch "#" :: name).
  assert (trim raw = raw) as Ht.
  { apply trim_trimmed. unfold raw. change (ch "#" :: name) with ([ch "#"] ++ name). rewrite (app_assoc project).
    apply trimmed_around; apply prefix_ident || apply (nm_ident _ Hn). }
  assert (strip_prefix PROJECT_PREFIX raw = Some (project ++ ch "#" :: name)) as Hs by (by apply strip_prefix_Some).
  assert (contains_char (ch "#") (project ++ ch "#" :: name) = true) as Hc.
  { apply existsb_exists. exists (ch "#"). split; [apply in_or_app; right; by left|apply N.eqb_refl]. }
  unfold split_qualified_recipient, parse_project_mailbox_address. cbv zeta. rewrite Ht, Hs, Hc.
  rewrite (rsplit_once_app _ _ _ (nm_hash _ Hn)). split; [|cbn [mbind option_bind]; by rewrite Hc].
  pose proof (split_parts name project Hn Hp) as E. revert E. by destruct (_ || _).
Qed.

Lemma mailbox_address_reads slug :
  ident_ok slug -> contains_char (ch "#") slug = false ->
  parse_project_mailbox_address (project_mailbox_address slug) = Some slug.
Proof.
  intros Hp Hc. unfold parse_project_mailbox_address, project_mailbox_address.
  assert (trim (PROJECT_PREFIX ++ slug) = PROJECT_PREFIX ++ slug) as ->.
  { apply trim_trimmed. apply (trimmed_around PROJECT_PREFIX [] slug); apply Hp || apply prefix_ident. }
  rewrite (proj2 (strip_prefix_Some PROJECT_PREFIX (PROJECT_PREFIX ++ slug) slug) eq_refl). cbn [mbind option_bind]. rewrite Hc.
  by rewrite (ident_trim _ Hp).
Qed.

(** C40: addresses read back.  For every name of the vocabularies and every
    identifier of a project that is trimmed and not empty: the bare name is a
    plain recipient; [name@project] and [project:project#name] are both read as
    that name in that project, even if the identifier contains either separator;
    none of them is taken for a mailbox; and the address of the mailbox of a
    project whose slug has no [#] reads back as the slug. *)
Theorem recipient_addresses_roundtrip a n project :
  In a VALID_ADJECTIVES -> In n VALID_NOUNS -> ident_ok project ->
  let name := pascal_case_agent_name a n in
  split_qualified_recipient name = inr None /\
  split_qualified_recipient (name ++ u "@" ++ project) = inr (Some (name, project)) /\
  split_qualified_recipient (u "project:" ++ project ++ u "#" ++ name) = inr (Some (name, project)) /\
  Forall (fun raw => parse_project_mailbox_address raw = None)
    [name; name ++ u "@" ++ project; u "project:" ++ project ++ u "#" ++ name] /\
  (contains_char (ch "#") project = false ->
   parse_project_mailbox_address (project_mailbox_address project) = Some project).
Proof.
  intros Ha Hn Hp name. pose proof (pascal_name_ok a n Ha Hn) as Hok. fold name in Hok.
  destruct (plain_name_reads name Hok) as [H1 H2]. destruct (at_address_reads name project Hok Hp) as [H3 H4].
  destruct (hash_address_reads name project Hok Hp) as [H5 H6].
  repeat split; [exact H1|exact H3|exact H5| |by apply mailbox_address_reads].
  repeat constructor; [exact H2|exact H4|exact H6].
Qed.

Lemma recipient_addresses_roundtrip_witness :
  split_qualified_recipient (u "BlueLake@/data/work#1") = inr (Some (u "BlueLake", u "/data/work#1")).
Proof.
  apply (recipient_addresses_roundtrip (u "blue") (u "lake") (u "/data/work#1")).
  - apply existsb_In. vm_compute. reflexivity.
  - apply existsb_In. vm_compute. reflexivity.
  - split; [|discriminate]. rewrite <- (eq_refl : trim (u "/data/work#1") = u "/data/work#1"). apply trimmed_trim.
Defined.
