(* ===== verification/Idempotency.v ===== *)
(** * Idempotency keys ([db/src/idempotency.rs], [db/src/queries.rs], [tools/src/idempotency.rs])

    A call with a key records the key, a fingerprint of its arguments and its
    result in the transaction of its write; a retry finds them and replays the
    result.  Parameters: the write a transaction guards, the serialisation of its
    result, and SHA-256. *)

From S2P Require Import Prelude.
From S2P Require Import RustStr.
From S2P Require Import RustText.
From S2P Require Import AgentNames.

(** ** Keys and fingerprints *)

(** @src tools/src/idempotency.rs:31-31 MAX_IDEMPOTENCY_KEY_LEN *)
Definition MAX_IDEMPOTENCY_KEY_LEN : nat := 255.

(** @src tools/src/idempotency.rs:45-66 normalize_idempotency_key
    -- the error carries the number of characters. *)
Definition normalize_idempotency_key (raw : option ustr) : nat + option ustr :=
  match raw with
  | None => mret None
  | Some raw =>
      let trimmed := trim raw in
      if is_empty trimmed then mret None
      else if (MAX_IDEMPOTENCY_KEY_LEN <? length trimmed)%nat then inl (length trimmed)
      else mret (Some trimmed)
  end.

(** [u64::to_le_bytes], over [k] bytes. *)
Fixpoint le_bytes (k : nat) (n : N) : list N :=
  match k with O => [] | S k => (n mod 256)%N :: le_bytes k (n / 256)%N end.

(** A text with its length in front. *)
Definition prefixed (s : ustr) : list N := le_bytes 8 (N.of_nat (utf8_len s)) ++ utf8 s.

(** The names of the fields are sorted. *)
Definition field_le (a b : ustr * ustr) : Prop := str_ltb (fst b) (fst a) = false.
#[export] Instance field_le_dec : RelDecision field_le.
Proof. intros a b. unfold field_le. apply _. Defined.

(** @src tools/src/idempotency.rs:77-91 compute_fingerprint
    -- the bytes given to the hash. *)
Definition fingerprint_bytes (tool : ustr) (fields : list (ustr * ustr)) : list N :=
  utf8 tool ++ [0%N] ++
  List.concat (map (fun f => prefixed (fst f) ++ prefixed (snd f)) (merge_sort field_le fields)).

(** @src tools/src/idempotency.rs:95-102 hex_lower *)
Definition hex_lower (bytes : list N) : ustr :=
  List.concat (map (fun b => hex_fixed 2 (Z.of_N b)) bytes).

(** @src tools/src/idempotency.rs:92-93 compute_fingerprint *)
Definition compute_fingerprint (sha256 : list N -> list N) (tool : ustr) (fields : list (ustr * ustr)) : ustr :=
  hex_lower (sha256 (fingerprint_bytes tool fields)).

(** The arguments of a send that are fingerprinted. *)
Record SendRequest := mkSendRequest {
  sq_sender : ustr; sq_to : list ustr; sq_cc : option (list ustr); sq_bcc : option (list ustr);
  sq_subject : ustr; sq_body : ustr; sq_importance : option ustr; sq_ack : option bool;
  sq_thread : option ustr; sq_topic : option ustr; sq_attachments : option (list ustr); sq_convert : option bool;
}.

(** The closure [sorted]: a list in order, its items joined by U+001F. *)
Definition sorted_join (v : list ustr) : ustr := join [31%N] (merge_sort str_le v).
Definition bool_str (b : bool) : ustr := if b then u "true" else u "false".

(** @src tools/src/messaging.rs:3083-3108 send_message_fingerprint *)
Definition send_message_fields (r : SendRequest) : list (ustr * ustr) :=
  [(u "sender", sq_sender r);
   (u "to", sorted_join (sq_to r));
   (u "cc", sorted_join (default [] (sq_cc r)));
   (u "bcc", sorted_join (default [] (sq_bcc r)));
   (u "subject", sq_subject r);
   (u "body_md", sq_body r);
   (u "importance", default [] (sq_importance r));
   (u "ack_required", bool_str (default false (sq_ack r)));
   (u "thread_id", default [] (sq_thread r));
   (u "topic", default [] (sq_topic r));
   (u "attachments", sorted_join (default [] (sq_attachments r)));
   (u "convert_images", match sq_convert r with Some b => bool_str b | None => [] end)].
Definition send_message_fingerprint (sha256 : list N -> list N) (r : SendRequest) : ustr :=
  compute_fingerprint sha256 (u "send_message") (send_message_fields r).

(** ** Retention *)

(** @src db/src/idempotency.rs:49-49 DEFAULT_IDEMPOTENCY_RETENTION_SECS *)
Definition DEFAULT_IDEMPOTENCY_RETENTION_SECS : Z := 24 * 60 * 60.

(** @src db/src/idempotency.rs:75-79 parse_retention_secs *)
Definition parse_retention_secs (raw : option ustr) : Z :=
  match (value ← raw; parse_i64 (trim value)) with
  | Some secs => if 0 <? secs then secs else DEFAULT_IDEMPOTENCY_RETENTION_SECS
  | None => DEFAULT_IDEMPOTENCY_RETENTION_SECS
  end.

(** @src db/src/queries.rs:13977-13979 acknowledge_message_impl
    -- the same expression in the other keyed writes. *)
Definition idempotency_expires_ts (now retention_secs : Z) : Z :=
  isat_add now (iclamp (retention_secs * 1000000)).

(** ** The table of keys *)

(** A row of [idempotency_keys]; its primary key is the project, the tool and
    the client's key. *)
Record KeyRow := mkKeyRow { payload_fingerprint : ustr; result_json : ustr; created_ts : Z; expires_ts : Z }.
Notation KeyTable := (gmap (Z * ustr * ustr) KeyRow).

(** @src db/src/idempotency.rs:88-97 IdempotencyClaim *)
Record IdempotencyClaim := mkClaim { claim_project : Z; claim_tool : ustr; claim_key : ustr; claim_fingerprint : ustr }.
Definition claim_scope (c : IdempotencyClaim) : Z * ustr * ustr := (claim_project c, claim_tool c, claim_key c).

(** @src db/src/idempotency.rs:102-113 IdempotencyConflict *)
Record IdempotencyConflict := mkConflict {
  cf_tool : ustr; cf_key : ustr; original_fingerprint : ustr; attempted_fingerprint : ustr; original_created_ts : Z;
}.

(** @src db/src/idempotency.rs:122-132 IdempotentOutcome *)
Inductive IdempotentOutcome (R : Type) := Fresh (r : R) | Replayed (r : R) | Conflict (c : IdempotencyConflict).
Arguments Fresh {R} r.
Arguments Replayed {R} r.
Arguments Conflict {R} c.

(** @src db/src/idempotency.rs:162-169 IdempotencyCheck *)
Inductive IdempotencyCheck := Proceed | Replay (json : ustr) | CheckConflict (c : IdempotencyConflict).

(** @src db/src/queries.rs:10003-10025 decode_idempotency_check *)
Definition decode_idempotency_check (row : option KeyRow) (claim : IdempotencyClaim) : IdempotencyCheck :=
  match row with
  | None => Proceed
  | Some row =>
      if ustr_eqb (payload_fingerprint row) (claim_fingerprint claim) then Replay (result_json row)
      else CheckConflict (mkConflict (claim_tool claim) (claim_key claim) (payload_fingerprint row)
             (claim_fingerprint claim) (created_ts row))
  end.

(** @src db/src/queries.rs:9954-10001 idempotency_check_in_tx
    -- with the table it leaves: expired rows are deleted first. *)
Definition idempotency_check_in_tx (claim : IdempotencyClaim) (now : Z) (t : KeyTable) : IdempotencyCheck * KeyTable :=
  let t := filter (fun kv => ~ expires_ts kv.2 < now) t in
  (decode_idempotency_check (t !! claim_scope claim) claim, t).

(** @src db/src/queries.rs:10035-10068 idempotency_record_in_tx
    -- [ON CONFLICT DO NOTHING]. *)
Definition idempotency_record_in_tx (claim : IdempotencyClaim) (json : ustr) (now expires : Z) (t : KeyTable) : KeyTable :=
  match t !! claim_scope claim with
  | Some _ => t
  | None => <[claim_scope claim := mkKeyRow (claim_fingerprint claim) json now expires]> t
  end.

(** ** Keyed writes *)

Section keyed.
  Context {St R : Type}.
  Context (to_json : R -> option ustr) (from_json : ustr -> option R).

(** @src db/src/queries.rs:9876-9944 lookup_idempotency_result
    -- the answer without a write: [None] is a failure. *)
Definition lookup_idempotency_result (claim : IdempotencyClaim) (now : Z) (t : KeyTable) :
    option (option (IdempotencyConflict + R)) :=
  let row := match t !! claim_scope claim with
             | Some row => if now <=? expires_ts row then Some row else None
             | None => None
             end in
  match decode_idempotency_check row claim with
  | Proceed => Some None
  | Replay json => r ← from_json json; Some (Some (inr r))
  | CheckConflict c => Some (Some (inl c))
  end.

(** The outcome of a transaction: [None] when it failed and was rolled back. *)
Notation tx_result := (option (IdempotentOutcome R) * (KeyTable * St))%type.

(** @src db/src/queries.rs:14120-14149 acknowledge_message_impl
    -- the write was applied: its result is recorded and committed with it. *)
Definition commit_keyed (retention now : Z) (claim : option IdempotencyClaim) (before : KeyTable * St) (t : KeyTable)
    (r : R) (s : St) : tx_result :=
  match claim with
  | None => (Some (Fresh r), (t, s))
  | Some claim =>
      match to_json r with
      | None => (None, before)
      | Some json =>
          (Some (Fresh r), (idempotency_record_in_tx claim json now (idempotency_expires_ts now retention) t, s))
      end
  end.

(** @src db/src/queries.rs:13976-14025 acknowledge_message_impl
    -- a write guarded by a claim; the creation of messages and the grant of
    reservations check and record in the same way.  [write] is the body of the
    transaction; a failure of any statement rolls everything back. *)
Definition keyed_write (retention now : Z) (claim : option IdempotencyClaim) (write : Z -> St -> option (R * St))
    (db : KeyTable * St) : tx_result :=
  let '(t, s) := db in
  let '(check, t') := match claim with
                      | Some claim => idempotency_check_in_tx claim now t
                      | None => (Proceed, t)
                      end in
  match check with
  | Proceed =>
      match write now s with
      | None => (None, db)
      | Some (r, s') => commit_keyed retention now claim db t' r s'
      end
  | Replay json => (Replayed <$> from_json json, db)
  | CheckConflict c => (Some (Conflict c), db)
  end.

(** A sequence of writes at their times. *)
Record Call := mkCall {
  call_retention : Z; call_now : Z; call_claim : option IdempotencyClaim; call_write : Z -> St -> option (R * St);
}.
Fixpoint run_calls (calls : list Call) (db : KeyTable * St) :
    list (option (IdempotentOutcome R)) * (KeyTable * St) :=
  match calls with
  | [] => ([], db)
  | c :: calls =>
      let '(out, db) := keyed_write (call_retention c) (call_now c) (call_claim c) (call_write c) db in
      let '(outs, db) := run_calls calls db in
      (out :: outs, db)
  end.
End keyed.
