(* ===== verification/IdempotencyProps.v ===== *)
(** * Properties of idempotency keys

    Within the window of its key a write is applied at most once and retries
    replay its result; fingerprints of different requests differ unless SHA-256
    itself collides. *)

From S2P Require Import Prelude.
From S2P Require Import RustStr.
From S2P Require Import RustText.
From S2P Require Import AgentNames.
From S2P Require Import Idempotency.

(** ** Keyed writes *)

Section keyed.
  Context {St R : Type}.
  Context (to_json : R -> option ustr) (from_json : ustr -> option R).
#[local] Notation keyed_write := (keyed_write (St := St) to_json from_json).
#[local] Notation run_calls := (run_calls (St := St) to_json from_json).

Lemma prune_keeps (t : KeyTable) now k row :
  t !! k = Some row -> now <= expires_ts row ->
  filter (fun kv => ~ expires_ts kv.2 < now) t !! k = Some row.
Proof. intros Hk Hle. apply map_lookup_filter_Some. split; [done|]. simpl. lia. Qed.

Lemma prune_drops (t : KeyTable) now k row :
  t !! k = Some row -> expires_ts row < now -> filter (fun kv => ~ expires_ts kv.2 < now) t !! k = None.
Proof.
  intros Hk Hlt. apply map_lookup_filter_None. right. intros r Hr H. simpl in H. rewrite Hk in Hr. injection Hr as <-. lia.
Qed.

Lemma record_keeps (claim : IdempotencyClaim) (json : ustr) (now expires : Z) (t : KeyTable) (k : Z * ustr * ustr) (row : KeyRow) :
  t !! k = Some row -> idempotency_record_in_tx claim json now expires t !! k = Some row.
Proof.
  intros Hk. unfold idempotency_record_in_tx. destruct (t !! claim_scope claim) eqn:E; [done|].
  rewrite lookup_insert_ne; [done|]. intros Ek. rewrite Ek, Hk in E. done.
Qed.

(** A recorded key survives every write before it expires. *)
Lemma keyed_write_keeps retention now claim write t s k row :
  t !! k = Some row -> now <= expires_ts row ->
  fst (snd (keyed_write retention now claim write (t, s))) !! k = Some row.
Proof.
  intros Hk Hle. unfold Idempotency.keyed_write. destruct claim as [c|]; unfold idempotency_check_in_tx.
  - cbv zeta. destruct (decode_idempotency_check _ c); [|done|done].
    destruct (write now s) as [[r s']|]; [|done]. unfold commit_keyed. destruct (to_json r); [|done].
    cbn [fst snd]. by apply record_keeps, prune_keeps.
  - destruct (write now s) as [[r s']|]; done.
Qed.

Lemma run_calls_keeps calls : forall t s k row,
  t !! k = Some row -> Forall (fun c => call_now c <= expires_ts row) calls ->
  fst (snd (run_calls calls (t, s))) !! k = Some row.
Proof.
  induction calls as [|c calls IH]; intros t s k row Hk Hall; [done|]. cbn [Idempotency.run_calls].
  apply Forall_cons in Hall as [Hc Hall].
  pose proof (keyed_write_keeps (call_retention c) (call_now c) (call_claim c) (call_write c) t s k row Hk Hc) as H1.
  destruct (Idempotency.keyed_write _ _ _ _ _ _ _) as [out [t1 s1]]. cbn [fst snd] in H1.
  specialize (IH t1 s1 k row H1 Hall). destruct (Idempotency.run_calls _ _ calls (t1, s1)) as [outs [t2 s2]]. done.
Qed.

(** What a first write leaves under its key. *)
Lemma fresh_records retention now claim write t s r t1 s1 :
  keyed_write retention now (Some claim) write (t, s) = (Some (Fresh r), (t1, s1)) ->
  exists json, to_json r = Some json /\
    t1 !! claim_scope claim =
      Some (mkKeyRow (claim_fingerprint claim) json now (idempotency_expires_ts now retention)).
Proof.
  unfold Idempotency.keyed_write, idempotency_check_in_tx. cbv zeta.
  destruct (filter _ t !! claim_scope claim) as [row|] eqn:Ef.
  - unfold decode_idempotency_check. destruct (ustr_eqb _ _); [|done]. by destruct (from_json (result_json row)).
  - cbn [decode_idempotency_check]. destruct (write now s) as [[r' s']|]; [|done].
    unfold commit_keyed. destruct (to_json r') as [json|] eqn:Ej; [|done]. intros [= <- <- <-].
    exists json. split; [done|]. unfold idempotency_record_in_tx. rewrite Ef. apply lookup_insert_eq.
Qed.

(** C23: retries apply nothing.  Once a write with a key was applied, and until
    its record expires, whatever other calls run in between: a call with the same
    key and fingerprint replays the recorded result and leaves the store as it
    is; with another fingerprint it reports the conflict, with the fingerprint
    and time of the first; and the read-only lookup answers the same.  Every call
    that is not applied leaves the store as it was, and a call with an expired
    record is decided by its write alone. *)
Theorem retries_apply_nothing retention now claim write t s r t1 s1 calls now' claim' :
  (forall r json, to_json r = Some json -> from_json json = Some r) ->
  keyed_write retention now (Some claim) write (t, s) = (Some (Fresh r), (t1, s1)) ->
  claim_scope claim' = claim_scope claim ->
  Forall (fun c => call_now c <= now') calls -> now' <= idempotency_expires_ts now retention ->
  let db := snd (run_calls calls (t1, s1)) in
  let conflict := mkConflict (claim_tool claim) (claim_key claim) (claim_fingerprint claim) (claim_fingerprint claim') now in
  let same := ustr_eqb (claim_fingerprint claim) (claim_fingerprint claim') in
  (forall retention' write',
     keyed_write retention' now' (Some claim') write' db = (Some (if same then Replayed r else Conflict conflict), db)) /\
  lookup_idempotency_result from_json claim' now' (fst db) = Some (Some (if same then inr r else inl conflict)) /\
  (forall retention' now'' claim'' write', let '(out, db') := keyed_write retention' now'' claim'' write' db in
     db' = db \/ exists r', out = Some (Fresh r')) /\
  (forall retention' now'' write', idempotency_expires_ts now retention < now'' ->
     fst (keyed_write retention' now'' (Some claim') write' db) =
     '(r', _) ← write' now'' (snd db); _ ← to_json r'; Some (Fresh r')).
Proof.
  intros Hjson Hfresh Hscope Hcalls Hnow db conflict same.
  destruct (fresh_records _ _ _ _ _ _ _ _ _ Hfresh) as (json & Hj & Hrow).
  assert (fst db !! claim_scope claim' =
    Some (mkKeyRow (claim_fingerprint claim) json now (idempotency_expires_ts now retention))) as Hk.
  { rewrite Hscope. apply run_calls_keeps; [done|]. eapply Forall_impl; [exact Hcalls|]. simpl. lia. }
  assert (claim_tool claim' = claim_tool claim /\ claim_key claim' = claim_key claim) as [Etool Ekey]
    by (unfold claim_scope in Hscope; by injection Hscope).
  destruct db as [t2 s2]. cbn [fst snd] in Hk |- *. split; [|split; [|split]].
  - intros retention' write'. unfold Idempotency.keyed_write, idempotency_check_in_tx. cbv zeta.
    rewrite (prune_keeps _ _ _ _ Hk) by done. unfold decode_idempotency_check. cbn [payload_fingerprint result_json created_ts].
    subst same conflict. rewrite Etool, Ekey. destruct (ustr_eqb _ _); [|done]. by rewrite (Hjson _ _ Hj).
  - unfold lookup_idempotency_result. rewrite Hk. cbn [expires_ts]. rewrite (proj2 (Z.leb_le _ _)) by done.
    unfold decode_idempotency_check. cbn [payload_fingerprint result_json created_ts]. subst same conflict.
    rewrite Etool, Ekey. destruct (ustr_eqb _ _); [|done]. by rewrite (Hjson _ _ Hj).
  - intros retention' now'' claim'' write'. unfold Idempotency.keyed_write.
    destruct claim'' as [c|]; unfold idempotency_check_in_tx; cbv zeta.
    + destruct (decode_idempotency_check _ c); [|by left|by left]. destruct (write' now'' s2) as [[r' s']|]; [|by left].
      unfold commit_keyed. destruct (to_json r'); [right; by eexists|by left].
    + destruct (write' now'' s2) as [[r' s']|]; [right; by eexists|by left].
  - intros retention' now'' write' Hexp. unfold Idempotency.keyed_write, idempotency_check_in_tx. cbv zeta.
    rewrite (prune_drops _ _ _ _ Hk) by done. cbn [decode_idempotency_check].
    destruct (write' now'' s2) as [[r' s']|]; [|done]. simpl. unfold commit_keyed. by destruct (to_json r').
Qed.
End keyed.

(** ** Fingerprints *)

Lemma le_bytes_length k : forall n, length (le_bytes k n) = k.
Proof. induction k as [|k IH]; intros n; simpl; [done|by rewrite IH]. Qed.

Lemma le_bytes_inj k : forall n m, (n < 256 ^ N.of_nat k)%N -> (m < 256 ^ N.of_nat k)%N ->
  le_bytes k n = le_bytes k m -> n = m.
Proof.
  induction k as [|k IH]; intros n m Hn Hm; [change (256 ^ N.of_nat 0)%N with 1%N in *; lia|].
  rewrite Nat2N.inj_succ, N.pow_succ_r' in Hn, Hm. cbn [le_bytes]. intros [= Hmod Hdiv].
  assert (n / 256 = m / 256)%N as Hq by (apply IH; [apply N.Div0.div_lt_upper_bound; lia..|done]).
  rewrite (N.div_mod n 256), (N.div_mod m 256) by lia. congruence.
Qed.

(** A Rust string is at most [isize::MAX] bytes long. *)
Definition text_ok (s : ustr) : Prop := (N.of_nat (utf8_len s) < 2 ^ 63)%N.

Lemma prefixed_inj s t x y : text_ok s -> text_ok t -> prefixed s ++ x = prefixed t ++ y -> s = t /\ x = y.
Proof.
  unfold prefixed, text_ok. intros Hs Ht E. rewrite <- !app_assoc in E.
  apply app_inj_1 in E as [El E]; [|by rewrite !le_bytes_length].
  apply le_bytes_inj in El; [|change (256 ^ N.of_nat 8)%N with (2 ^ 64)%N; lia..].
  apply Nat2N.inj in El. apply app_inj_1 in E as [Eu E]; [|exact El]. split; [by apply utf8_inj|done].
Qed.

Definition encode_field (f : ustr * ustr) : list N := prefixed (fst f) ++ prefixed (snd f).

Lemma encode_field_inj f g x y :
  text_ok (fst f) -> text_ok (snd f) -> text_ok (fst g) -> text_ok (snd g) ->
  encode_field f ++ x = encode_field g ++ y -> f = g /\ x = y.
Proof.
  unfold encode_field. intros H1 H2 H3 H4 E. rewrite <- !app_assoc in E.
  apply prefixed_inj in E as [E1 E]; [|done..]. apply prefixed_inj in E as [E2 E]; [|done..].
  destruct f, g. simpl in *. by subst.
Qed.

Definition fields_ok (l : list (ustr * ustr)) : Prop := Forall (fun f => text_ok (fst f) /\ text_ok (snd f)) l.

Lemma encode_field_nonempty f x : encode_field f ++ x <> [].
Proof. unfold encode_field, prefixed. cbn [le_bytes app]. discriminate. Qed.

Lemma encode_fields_inj l : forall l', fields_ok l -> fields_ok l' ->
  List.concat (map encode_field l) = List.concat (map encode_field l') -> l = l'.
Proof.
  induction l as [|f l IH]; intros [|g l'] Hl Hl' E; cbn [map List.concat] in E; [done| | |].
  - by symmetry in E; apply encode_field_nonempty in E.
  - by apply encode_field_nonempty in E.
  - apply Forall_cons in Hl as [[Hf1 Hf2] Hl]. apply Forall_cons in Hl' as [[Hg1 Hg2] Hl'].
    apply encode_field_inj in E as [-> E]; [|done..]. by rewrite (IH l').
Qed.

(** The bytes that are hashed determine the tool and the sorted fields. *)
Lemma fingerprint_bytes_inj tool tool' l l' :
  ~ In 0%N tool -> ~ In 0%N tool' -> fields_ok l -> fields_ok l' ->
  fingerprint_bytes tool l = fingerprint_bytes tool' l' ->
  tool = tool' /\ merge_sort field_le l = merge_sort field_le l'.
Proof.
  unfold fingerprint_bytes. intros Ht Ht' Hl Hl' E. cbn [app] in E.
  apply terminated_inj in E as [Eu E]; [|by rewrite utf8_ascii_byte..]. split; [by apply utf8_inj|].
  apply encode_fields_inj; [| |exact E].
  - unfold fields_ok. by rewrite merge_sort_Permutation.
  - unfold fields_ok. by rewrite merge_sort_Permutation.
Qed.

Lemma hex_lower_inj a : forall b, Forall (fun x => x < 256)%N a -> Forall (fun x => x < 256)%N b ->
  hex_lower a = hex_lower b -> a = b.
Proof.
  unfold hex_lower. induction a as [|c a IH]; intros [|d b] Ha Hb E; cbn [map List.concat] in E; [done| | |].
  - apply (f_equal length) in E. rewrite length_app, hex_fixed_length in E. simpl in E. lia.
  - apply (f_equal length) in E. rewrite length_app, hex_fixed_length in E. simpl in E. lia.
  - apply Forall_cons in Ha as [Hc Ha]. apply Forall_cons in Hb as [Hd Hb].
    apply app_inj_1 in E as [Eh E]; [|by rewrite !hex_fixed_length]. rewrite (IH b Ha Hb E). f_equal.
    apply (f_equal (hex_value 0)) in Eh.
    rewrite !hex_fixed_value in Eh by (change (16 ^ Z.of_nat 2) with 256; lia). injection Eh as Eh. lia.
Qed.

Lemma merge_sort_perm l l' : merge_sort str_le l = merge_sort str_le l' <-> l ≡ₚ l'.
Proof.
  split; intros H.
  - rewrite <- (merge_sort_Permutation str_le l), H. apply merge_sort_Permutation.
  - apply (Sorted_unique str_le); [apply Sorted_merge_sort; apply _..|]. by rewrite !merge_sort_Permutation.
Qed.

(** The items of a list: not empty, without the separator. *)
Definition items_ok (l : list ustr) : Prop := Forall (fun w => w <> [] /\ ~ In 31%N w) l.

Lemma join_nonempty l : l <> [] -> items_ok l -> join [31%N] l <> [].
Proof.
  intros Hl Hok. destruct l as [|w ws]; [done|]. apply Forall_cons in Hok as [[Hw _] _]. destruct w as [|c w]; [done|].
  by destruct ws.
Qed.

Lemma join_inj l l' : items_ok l -> items_ok l' -> join [31%N] l = join [31%N] l' -> l = l'.
Proof.
  assert (forall v, items_ok v -> v <> [] -> split_on (N.eqb 31) (join [31%N] v) = v) as Hs.
  { intros v Hv Hne. apply split_on_join; [done|done|]. eapply Forall_impl; [exact Hv|]. intros w [_ Hw].
    apply forallb_forall. intros x Hx. apply negb_true_iff, N.eqb_neq. by intros <-. }
  intros Hl Hl' E. destruct (decide (l = [])) as [->|Hn], (decide (l' = [])) as [->|Hn']; [done| | |].
  - by destruct (join_nonempty l' Hn' Hl').
  - by destruct (join_nonempty l Hn Hl).
  - by rewrite <- (Hs l Hl Hn), <- (Hs l' Hl' Hn'), E.
Qed.

Lemma sorted_join_perm l l' : items_ok l -> items_ok l' -> sorted_join l = sorted_join l' <-> l ≡ₚ l'.
Proof.
  intros Hl Hl'. rewrite <- merge_sort_perm. unfold sorted_join. split; [|by intros ->].
  apply join_inj; unfold items_ok; by rewrite merge_sort_Permutation.
Qed.

(** Fields with the same distinct names are equal when they are sorted alike. *)
Lemma fields_sorted_eq l l' :
  map fst l = map fst l' -> NoDup (map fst l) -> merge_sort field_le l = merge_sort field_le l' -> l = l'.
Proof.
  intros Hn Hnd Hs. assert (l ≡ₚ l') as Hp.
  { rewrite <- (merge_sort_Permutation field_le l), Hs. apply merge_sort_Permutation. }
  clear Hs. revert l' Hn Hp. induction l as [|[n v] l IH]; intros [|[n' v'] l'] Hn Hp; [done|done|done|].
  cbn [map fst] in Hn, Hnd. injection Hn as <- Hn. apply NoDup_cons in Hnd as [Hni Hnd].
  assert (v = v') as <-.
  { assert (In (n, v) ((n, v') :: l')) as Hin by (rewrite <- list_elem_of_In, <- Hp; left).
    destruct Hin as [[= ->]|Hin]; [done|]. exfalso. apply Hni. rewrite Hn. apply list_elem_of_In, in_map_iff.
    by exists (n, v). }
  f_equal. apply IH; [done|done|]. by apply Permutation_cons_inv in Hp.
Qed.

(** Requests that mean the same: lists up to order, absent optional arguments
    like empty ones. *)
Definition same_request (r r' : SendRequest) : Prop :=
  sq_sender r = sq_sender r' /\ sq_to r ≡ₚ sq_to r' /\
  default [] (sq_cc r) ≡ₚ default [] (sq_cc r') /\ default [] (sq_bcc r) ≡ₚ default [] (sq_bcc r') /\
  sq_subject r = sq_subject r' /\ sq_body r = sq_body r' /\
  default [] (sq_importance r) = default [] (sq_importance r') /\
  default false (sq_ack r) = default false (sq_ack r') /\
  default [] (sq_thread r) = default [] (sq_thread r') /\ default [] (sq_topic r) = default [] (sq_topic r') /\
  default [] (sq_attachments r) ≡ₚ default [] (sq_attachments r') /\ sq_convert r = sq_convert r'.

Record request_ok (r : SendRequest) : Prop := {
  rq_fields : fields_ok (send_message_fields r);
  rq_to : items_ok (sq_to r);
  rq_cc : items_ok (default [] (sq_cc r));
  rq_bcc : items_ok (default [] (sq_bcc r));
  rq_attachments : items_ok (default [] (sq_attachments r));
}.

Lemma bool_str_inj a b : bool_str a = bool_str b -> a = b.
Proof. by destruct a, b. Qed.

Lemma send_fields_same r r' :
  request_ok r -> request_ok r' -> send_message_fields r = send_message_fields r' <-> same_request r r'.
Proof.
  intros Hr Hr'. unfold same_request.
  rewrite <- (sorted_join_perm _ _ (rq_to _ Hr) (rq_to _ Hr')), <- (sorted_join_perm _ _ (rq_cc _ Hr) (rq_cc _ Hr')).
  rewrite <- (sorted_join_perm _ _ (rq_bcc _ Hr) (rq_bcc _ Hr')).
  rewrite <- (sorted_join_perm _ _ (rq_attachments _ Hr) (rq_attachments _ Hr')). unfold send_message_fields.
  split.
  - intros [= H1 H2 H3 H4 H5 H6 H7 H8%bool_str_inj H9 H10 H11 H12]. repeat (split; [done|]).
    destruct (sq_convert r) as [[]|], (sq_convert r') as [[]|]; done.
  - intros (-> & -> & -> & -> & -> & -> & -> & -> & -> & -> & -> & ->). done.
Qed.

Lemma send_names r r' :
  map fst (send_message_fields r) = map fst (send_message_fields r') /\ NoDup (map fst (send_message_fields r)).
Proof. split; [done|]. cbn [send_message_fields map fst]. apply (bool_decide_unpack _). vm_compute. exact I. Qed.

(** Fingerprints tell requests apart.  The bytes hashed for two sends are
    equal exactly when the requests mean the same: equal texts, recipient and
    attachment lists with the same items in any order, absent options like their
    defaults.  So two fingerprints are equal exactly when the requests mean the
    same or the hash itself collides on their bytes; and no two calls of
    different tools share their bytes. *)
Theorem fingerprints_tell_requests_apart sha256 r r' :
  (forall bytes, Forall (fun b => b < 256)%N (sha256 bytes)) -> request_ok r -> request_ok r' ->
  let bytes r := fingerprint_bytes (u "send_message") (send_message_fields r) in
  (bytes r = bytes r' <-> same_request r r') /\
  (send_message_fingerprint sha256 r = send_message_fingerprint sha256 r' <->
     same_request r r' \/ bytes r <> bytes r' /\ sha256 (bytes r) = sha256 (bytes r')) /\
  (forall tool fields, ~ In 0%N tool -> fields_ok fields -> tool <> u "send_message" ->
     fingerprint_bytes tool fields <> bytes r).
Proof.
  intros Hsha Hr Hr' bytes.
  assert (~ In 0%N (u "send_message")) as Hz by (vm_compute; intuition discriminate).
  assert (bytes r = bytes r' <-> same_request r r') as Hb.
  { rewrite <- (send_fields_same r r' Hr Hr'). subst bytes. cbv beta. split; [|by intros ->]. intros E.
    apply fingerprint_bytes_inj in E as [_ E]; [|done|done|apply Hr|apply Hr'].
    destruct (send_names r r') as [Hn Hnd]. by apply fields_sorted_eq. }
  split; [exact Hb|split].
  - unfold send_message_fingerprint, compute_fingerprint. rewrite <- Hb. split.
    + intros E. apply hex_lower_inj in E; [|apply Hsha..]. change (sha256 (bytes r) = sha256 (bytes r')) in E.
      destruct (decide (bytes r = bytes r')) as [|Hne]; [by left|by right].
    + intros [E|[_ E]]; [unfold bytes in E; by rewrite E|unfold bytes in E; by rewrite E].
  - intros tool fields Ht Hf Hne E. apply fingerprint_bytes_inj in E as [E _]; [done|done|done|done|apply Hr].
Qed.

(** ** Concrete calls *)

Definition ex_to_json (r : Z) : option ustr := if (i64_min <=? r) && (r <=? i64_max) then Some (dec r) else None.
Lemma ex_json r json : ex_to_json r = Some json -> parse_i64 json = Some r.
Proof. unfold ex_to_json. intros H. case_hyp; [|done]. injection H as <-. apply parse_dec. breflect. split; lia. Qed.

(** A message is appended; its index is the result. *)
Definition ex_write (now : Z) (s : list Z) : option (Z * list Z) := Some (Z.of_nat (length s), s ++ [now]).
Definition ex_claim (fp : ustr) : IdempotencyClaim := mkClaim 7 (u "send_message") (u "k1") fp.
Definition ex_other : Call (St := list Z) (R := Z) := mkCall 60 2000 None ex_write.
Definition ex_first := keyed_write ex_to_json parse_i64 60 1000 (Some (ex_claim (u "f1"))) ex_write (∅, [5]).

Lemma ex_first_fresh : ex_first = (Some (Fresh 1), (fst (snd ex_first), snd (snd ex_first))).
Proof.
  assert (fst ex_first = Some (Fresh 1)) as E by (vm_compute; reflexivity).
  rewrite <- E. by destruct ex_first as [out [t s]].
Qed.
Lemma ex_before : Forall (fun c => call_now c <= 3000) [ex_other].
Proof. apply Forall_cons. split; [|constructor]. cbn [ex_other call_now]. lia. Qed.
Lemma ex_in_window : 3000 <= idempotency_expires_ts 1000 60.
Proof. vm_compute. discriminate. Qed.

Lemma retries_apply_nothing_witness :
  exists db, keyed_write ex_to_json parse_i64 60 3000 (Some (ex_claim (u "f1"))) ex_write db = (Some (Replayed 1), db).
Proof.
  pose proof (retries_apply_nothing ex_to_json parse_i64 60 1000 (ex_claim (u "f1")) ex_write ∅ [5] 1
    (fst (snd ex_first)) (snd (snd ex_first)) [ex_other] 3000 (ex_claim (u "f1")) ex_json
    ex_first_fresh eq_refl ex_before ex_in_window) as [H _].
  eexists. etransitivity; [exact (H 60 ex_write)|]. cbn [ex_claim claim_fingerprint]. rewrite ustr_eqb_refl. reflexivity.
Defined.

Definition ex_request (to : list ustr) : SendRequest :=
  mkSendRequest (u "BlueLake") to None (Some []) (u "plan") (u "body") None (Some false) None None None None.
Definition ex_sha (bytes : list N) : list N := map (fun b => b mod 256)%N bytes.

Lemma ex_request_ok to : items_ok to -> text_ok (sorted_join to) -> request_ok (ex_request to).
Proof.
  intros Hto Hj. split; [|done|constructor|constructor|constructor].
  unfold ex_request, send_message_fields. repeat (apply Forall_cons; split; [split; [vm_compute; reflexivity|]|]);
    [..|by constructor]; first [exact Hj | vm_compute; reflexivity].
Qed.

Lemma ex_sha_bytes bytes : Forall (fun b => b < 256)%N (ex_sha bytes).
Proof. apply Forall_map, Forall_true. intros b. apply N.mod_lt. discriminate. Qed.

Definition ex_to : list ustr := [u "RedFox"; u "JadeOwl"].
Definition ex_to' : list ustr := [u "JadeOwl"; u "RedFox"].
Lemma ex_to_ok : request_ok (ex_request ex_to).
Proof. apply ex_request_ok; [repeat constructor; vm_compute; intuition discriminate|vm_compute; reflexivity]. Qed.
Lemma ex_to_ok' : request_ok (ex_request ex_to').
Proof. apply ex_request_ok; [repeat constructor; vm_compute; intuition discriminate|vm_compute; reflexivity]. Qed.

Lemma fingerprints_tell_requests_apart_witness :
  send_message_fingerprint ex_sha (ex_request ex_to) = send_message_fingerprint ex_sha (ex_request ex_to').
Proof.
  apply (proj1 (proj2 (fingerprints_tell_requests_apart ex_sha (ex_request ex_to) (ex_request ex_to')
    ex_sha_bytes ex_to_ok ex_to_ok'))).
  left. unfold same_request. cbn [ex_request sq_sender sq_to sq_cc sq_bcc sq_subject sq_body sq_importance sq_ack
    sq_thread sq_topic sq_attachments sq_convert default]. repeat split; try reflexivity. apply Permutation_swap.
Defined.
