(* ===== verification/Leases.v ===== *)
(** * File reservation leases ([db/src/queries.rs])

    The lease table with its release ledger, and the transactions that grant,
    renew, release, expire and prune leases.  A transaction is a function of the
    clock value it reads and of the tables it finds; [BEGIN IMMEDIATE] makes
    writers take turns, so a history is a sequence of such functions.  The
    agents table is an argument.  The textual [released_ts] values of databases
    older than the schema's integer column are not modelled, and neither is a
    failing statement, which rolls its transaction back. *)

From S2P Require Import Prelude.
From S2P Require Import RustStr.
From S2P Require Import Pattern.
From S2P Require Import LeaseIndex.
From S2P Require Import Idempotency.

(** ** The tables *)

(** @src db/src/models.rs:359-381 FileReservationRow *)
Record FileReservationRow := mkLease {
  fr_id : Z; fr_project : Z; fr_agent : Z; fr_path : ustr; fr_exclusive : Z; fr_reason : ustr;
  fr_created : Z; fr_expires : Z; fr_released : option Z;
}.

Definition set_terms (expires exclusive : Z) (reason : ustr) (r : FileReservationRow) : FileReservationRow :=
  mkLease (fr_id r) (fr_project r) (fr_agent r) (fr_path r) exclusive reason (fr_created r) expires (fr_released r).
Definition set_expires (expires : Z) (r : FileReservationRow) : FileReservationRow :=
  set_terms expires (fr_exclusive r) (fr_reason r) r.
Definition set_released (ts : option Z) (r : FileReservationRow) : FileReservationRow :=
  mkLease (fr_id r) (fr_project r) (fr_agent r) (fr_path r) (fr_exclusive r) (fr_reason r) (fr_created r)
    (fr_expires r) ts.

(** [file_reservations] in the order of its ids, [file_reservation_releases], and
    the next id of the AUTOINCREMENT column. *)
Record LeaseDb := mkLeaseDb { lease_rows : list FileReservationRow; releases : gmap Z Z; next_id : Z }.
Definition set_rows (rows : list FileReservationRow) (db : LeaseDb) : LeaseDb := mkLeaseDb rows (releases db) (next_id db).

(** [UPDATE file_reservations SET .. WHERE id = ?]. *)
Definition update_row (id : Z) (f : FileReservationRow -> FileReservationRow) (db : LeaseDb) : LeaseDb :=
  set_rows (map (fun r => if fr_id r =? id then f r else r) (lease_rows db)) db.

(** @src db/src/queries.rs:902-913 ACTIVE_RESERVATION_LEGACY_PREDICATE
    -- [released_ts] is unset, or a legacy sentinel. *)
Definition not_released (r : FileReservationRow) : bool :=
  match fr_released r with None => true | Some ts => ts <=? 0 end.

(** @src db/src/queries.rs:914-930 ACTIVE_RESERVATION_PREDICATE *)
Definition is_active (db : LeaseDb) (r : FileReservationRow) : bool :=
  not_released r && bool_decide (releases db !! fr_id r = None).

(** @src db/src/queries.rs:15307-15312 create_file_reservations_impl
    -- what every reader adds: the lease has not run out. *)
Definition live (db : LeaseDb) (now : Z) (r : FileReservationRow) : bool := is_active db r && (now <? fr_expires r).

Definition select_rows (p : FileReservationRow -> bool) (db : LeaseDb) : list FileReservationRow :=
  List.filter p (lease_rows db).

(** A row of [agents], with its deregistration. *)
Record AgentState := mkAgentState {
  as_project : Z; as_name : ustr; as_retired_at : option Z; as_deregistered_at : option Z;
}.

Inductive LeaseError :=
  | AgentNotFound (agent : Z)
  | AgentDeregistered (name : ustr) (at_ : Z)
  | AgentRetired (name : ustr) (at_ : Z)
  | ResourceBusy (path held : ustr)
  | RenewalNotStored (id : Z).

(** @src db/src/queries.rs:9437-9457 ensure_agents_active_in_tx
    -- the loop; an agent named twice has been taken out the second time. *)
Fixpoint ensure_states (states : gmap Z AgentState) (agent_ids : list Z) : LeaseError + unit :=
  match agent_ids with
  | [] => mret tt
  | id :: agent_ids =>
      match states !! id with
      | None => inl (AgentNotFound id)
      | Some a =>
          match as_deregistered_at a, as_retired_at a with
          | Some ts, _ => inl (AgentDeregistered (as_name a) ts)
          | None, Some ts => inl (AgentRetired (as_name a) ts)
          | None, None => ensure_states (delete id states) agent_ids
          end
      end
  end.

(** @src db/src/queries.rs:9389-9460 ensure_agents_active_in_tx *)
Definition ensure_agents_active (agents : gmap Z AgentState) (agent_ids : list Z) (project_id : option Z) :
    LeaseError + unit :=
  ensure_states (filter (fun kv => kv.1 ∈ agent_ids /\
                           default (as_project kv.2) project_id = as_project kv.2) agents) agent_ids.

(** ** Granting *)

Section grant.
  Context {GE : GlobEngine}.

(** What one request asks for. *)
Record LeaseRequest := mkLeaseRequest {
  lr_project : Z; lr_agent : Z; lr_paths : list ustr; lr_ttl_seconds : Z; lr_exclusive : bool; lr_reason : ustr;
}.

(** @src db/src/queries.rs:15227-15227 create_file_reservations_impl *)
Definition lease_extension (ttl_seconds : Z) : Z := iclamp (ttl_seconds * 1000000).

(** @src db/src/queries.rs:15299-15322 create_file_reservations_impl
    -- the leases a request has to respect. *)
Definition conflict_candidate (db : LeaseDb) (now : Z) (q : LeaseRequest) (r : FileReservationRow) : bool :=
  (fr_project r =? lr_project q) && negb (fr_agent r =? lr_agent q) && live db now r &&
  (lr_exclusive q || (fr_exclusive r =? 1)).

(** @src db/src/queries.rs:15323-15339 create_file_reservations_impl
    -- the first path that overlaps such a lease, with its pattern. *)
Definition find_busy (ix : ReservationConflictIndex) (paths : list ustr) : option (ustr * ustr) :=
  find_map (fun path => p ← first_conflict ix (compiled_new path); Some (path, cp_norm p)) paths.

(** @src db/src/queries.rs:15350-15364 create_file_reservations_impl
    -- the agent's own leases on exactly this path. *)
Definition own_lease (db : LeaseDb) (now : Z) (q : LeaseRequest) (path : ustr) (r : FileReservationRow) : bool :=
  (fr_project r =? lr_project q) && (fr_agent r =? lr_agent q) && ustr_eqb (fr_path r) path && live db now r.

Definition bool_int (b : bool) : Z := if b then 1 else 0.

(** @src db/src/queries.rs:15384-15394 create_file_reservations_impl
    -- the later of the two ends, never their sum. *)
Definition regrant (now : Z) (q : LeaseRequest) (r : FileReservationRow) : FileReservationRow :=
  set_terms (Z.max (fr_expires r) (isat_add now (lease_extension (lr_ttl_seconds q))))
    (bool_int (lr_exclusive q)) (lr_reason q) r.

(** @src db/src/queries.rs:15420-15430 create_file_reservations_impl *)
Definition new_lease (db : LeaseDb) (now : Z) (q : LeaseRequest) (path : ustr) : FileReservationRow :=
  mkLease (next_id db) (lr_project q) (lr_agent q) path (bool_int (lr_exclusive q)) (lr_reason q) now
    (isat_add now (lease_extension (lr_ttl_seconds q))) None.

(** @src db/src/queries.rs:15342-15481 create_file_reservations_impl
    -- one path: leases held on it are renewed, else one is inserted. *)
Definition grant_path (now : Z) (q : LeaseRequest) (acc : list FileReservationRow * LeaseDb) (path : ustr) :
    list FileReservationRow * LeaseDb :=
  let '(out, db) := acc in
  match select_rows (own_lease db now q path) db with
  | [] =>
      let row := new_lease db now q path in
      (out ++ [row], mkLeaseDb (lease_rows db ++ [row]) (releases db) (next_id db + 1))
  | existing =>
      (out ++ map (regrant now q) existing,
       foldl (fun db r => let row := regrant now q r in
                update_row (fr_id r) (set_terms (fr_expires row) (fr_exclusive row) (fr_reason row)) db) db existing)
  end.

(** @src db/src/queries.rs:15290-15481 create_file_reservations_impl
    -- the body of the transaction. *)
Definition create_lease_tx (agents : gmap Z AgentState) (q : LeaseRequest) (now : Z) (db : LeaseDb) :
    LeaseError + (list FileReservationRow * LeaseDb) :=
  match ensure_agents_active agents [lr_agent q] (Some (lr_project q)) with
  | inl e => inl e
  | inr _ =>
      let active_index := conflict_index_build (map fr_path (select_rows (conflict_candidate db now q) db)) in
      match find_busy active_index (lr_paths q) with
      | Some (path, held) => inl (ResourceBusy path held)
      | None => inr (foldl (grant_path now q) ([], db) (lr_paths q))
      end
  end.

(** @src db/src/queries.rs:15215-15513 create_file_reservations_impl
    -- with its idempotency claim: [create_lease_tx] is the keyed write. *)
Definition create_file_reservations_impl (to_json : list FileReservationRow -> option ustr)
    (from_json : ustr -> option (list FileReservationRow)) (retention now : Z) (agents : gmap Z AgentState)
    (q : LeaseRequest) (claim : option IdempotencyClaim) (db : _ * LeaseDb) :=
  keyed_write to_json from_json retention now claim
    (fun now db => match create_lease_tx agents q now db with inl _ => None | inr x => Some x end) db.
End grant.

(** ** Renewing *)

(** @src db/src/queries.rs:15840-15877 append_release_reservation_filters
    -- ids and exact paths; renewals build the same conditions. *)
Definition lease_filter (ids : option (list Z)) (paths : option (list ustr)) (r : FileReservationRow) : bool :=
  match ids with None => true | Some ids => bool_decide (fr_id r ∈ ids) end &&
  match paths with None => true | Some paths => existsb (ustr_eqb (fr_path r)) paths end.

(** @src db/src/queries.rs:16568-16619 renew_reservations
    -- one row: a guarded update, then a read of what was stored. *)
Definition renew_row (project agent extend now : Z) (acc : LeaseError + (list FileReservationRow * LeaseDb))
    (r : FileReservationRow) : LeaseError + (list FileReservationRow * LeaseDb) :=
  match acc with
  | inl e => inl e
  | inr (out, db) =>
      let new := isat_add (Z.max (fr_expires r) now) extend in
      let mine r' := (fr_id r' =? fr_id r) && (fr_project r' =? project) && (fr_agent r' =? agent) && is_active db r' in
      let db' := set_rows (map (fun r' => if mine r' && (fr_expires r' =? fr_expires r) && (now <? fr_expires r')
                                          then set_expires new r' else r') (lease_rows db)) db in
      match List.find mine (lease_rows db') with
      | Some r' => if fr_expires r' =? new then inr (out ++ [set_expires new r], db') else inl (RenewalNotStored (fr_id r))
      | None => inl (RenewalNotStored (fr_id r))
      end
  end.

(** @src db/src/queries.rs:16458-16626 renew_reservations *)
Definition renew_reservations (agents : gmap Z AgentState) (project agent extend_seconds : Z)
    (paths : option (list ustr)) (ids : option (list Z)) (now : Z) (db : LeaseDb) :
    LeaseError + (list FileReservationRow * LeaseDb) :=
  match ensure_agents_active agents [agent] (Some project) with
  | inl e => inl e
  | inr _ =>
      foldl (renew_row project agent (lease_extension extend_seconds) now) (inr ([], db))
        (select_rows (fun r => (fr_project r =? project) && (fr_agent r =? agent) && live db now r &&
                               lease_filter ids paths r) db)
  end.

(** ** Releasing *)

(** @src db/src/queries.rs:15776-15781 ReleaseReservationExpiryConstraint *)
Inductive ExpiryConstraint := AnyExpiry | OnOrBefore (cutoff : Z) | ExactExpiry (ts : Z).

(** @src db/src/queries.rs:16187-16195 release_reservations_by_ids_with_constraints *)
Definition expiry_allows (c : ExpiryConstraint) (r : FileReservationRow) : bool :=
  match c with
  | AnyExpiry => true
  | OnOrBefore cutoff => fr_expires r <=? cutoff
  | ExactExpiry ts => fr_expires r =? ts
  end.

(** @src db/src/queries.rs:15783-15788 ReleaseReservationScope *)
Record ReleaseScope := mkScope { rs_project : Z; rs_agent : Z; rs_created_at_or_before : option Z }.

(** @src db/src/queries.rs:16196-16201 release_reservations_by_ids_with_constraints *)
Definition scope_allows (s : ReleaseScope) (r : FileReservationRow) : bool :=
  (fr_project r =? rs_project s) && (fr_agent r =? rs_agent s) &&
  match rs_created_at_or_before s with None => true | Some cutoff => fr_created r <=? cutoff end.

(** @src db/src/queries.rs:15790-15800 StaleReservationCandidate *)
Record StaleCandidate := mkStale { sc_row : FileReservationRow; sc_last_active : Z; sc_last_mail : option Z }.

(** @src db/src/queries.rs:15802-15807 StaleReservationReleaseGuard *)
Record StaleGuard := mkGuard {
  sg_candidates : gmap Z StaleCandidate; sg_observed_at : Z; sg_inactivity_us : Z; sg_grace_us : Z;
}.

(** What the transaction reads of an agent's activity: its row (project, last
    heartbeat, exemption) and its last send, read or acknowledgement. *)
Record Activity := mkActivity { act_agent : Z -> option (Z * Z * Z); act_mail : Z -> Z -> option Z }.

(** @src db/src/queries.rs:16317-16386 stale_reservation_activity_still_matches *)
Definition stale_activity_still_matches (act : Activity) (g : StaleGuard) (c : StaleCandidate) : bool :=
  match act_agent act (fr_agent (sc_row c)) with
  | None => false
  | Some (project, last_active, reaper_exempt) =>
      if negb (project =? fr_project (sc_row c)) || negb (reaper_exempt =? 0) ||
         negb (last_active =? sc_last_active c) ||
         (isat_sub (sg_observed_at g) last_active <=? sg_inactivity_us g)
      then false
      else
        let last_mail := act_mail act (fr_agent (sc_row c)) project in
        bool_decide (last_mail = sc_last_mail c) &&
        match last_mail with None => true | Some ts => sg_grace_us g <? isat_sub (sg_observed_at g) ts end
  end.

(** @src db/src/queries.rs:16202-16207 release_reservations_by_ids_with_constraints
    -- the row is still the one that was observed. *)
Definition same_lease (o r : FileReservationRow) : bool :=
  (fr_project r =? fr_project o) && (fr_agent r =? fr_agent o) && ustr_eqb (fr_path r) (fr_path o) &&
  (fr_exclusive r =? fr_exclusive o) && ustr_eqb (fr_reason r) (fr_reason o) &&
  (fr_created r =? fr_created o) && (fr_expires r =? fr_expires o).

Section release.
  Context (act : Activity) (constraint : ExpiryConstraint) (scope : option ReleaseScope) (guard : option StaleGuard).

(** @src db/src/queries.rs:16183-16262 release_reservations_by_ids_with_constraints
    -- the check query for [id], and for a stale release the evidence; the
    activity is read once per holder, which one project makes harmless. *)
Definition release_eligible (db : LeaseDb) (id : Z) : bool :=
  let check extra := existsb (fun r => (fr_id r =? id) && is_active db r && expiry_allows constraint r &&
                        match scope with None => true | Some s => scope_allows s r end && extra r) (lease_rows db) in
  match guard with
  | None => check (fun _ => true)
  | Some g =>
      match sg_candidates g !! id with
      | None => false
      | Some c => check (same_lease (sc_row c)) && stale_activity_still_matches act g c
      end
  end.

(** @src db/src/queries.rs:16215-16216 release_reservations_by_ids_with_constraints *)
Definition insert_release (id ts : Z) (db : LeaseDb) : LeaseDb :=
  mkLeaseDb (lease_rows db) (match releases db !! id with Some _ => releases db | None => <[id := ts]> (releases db) end)
    (next_id db).

(** The markers given out, the next marker and the tables. *)
Definition release_acc : Type := list (Z * Z) * (Z * LeaseDb).

(** @src db/src/queries.rs:16218-16305 release_reservations_by_ids_with_constraints
    -- the body of the loop. *)
Definition release_one (acc : release_acc) (id : Z) : release_acc :=
  let '(released, (marker, db)) := acc in
  if release_eligible db id then
    (released ++ [(id, marker)],
     (isat_add marker 1, insert_release id marker (update_row id (set_released (Some marker)) db)))
  else acc.

(** @src db/src/queries.rs:16144-16310 release_reservations_by_ids_with_constraints
    -- one transaction. *)
Definition release_by_ids (ids : list Z) (now : Z) (db : LeaseDb) : list (Z * Z) * LeaseDb :=
  let '(released, (_, db)) := foldl release_one ([], (now, db)) ids in (released, db).
End release.

(** No activity is read without a guard. *)
Definition no_activity : Activity := mkActivity (fun _ => None) (fun _ _ => None).

(** @src db/src/queries.rs:16129-16142 release_reservations_by_ids_matching_expiry *)
Definition release_by_ids_matching_expiry (ids : list Z) (expires_at_or_before : option Z) (now : Z) (db : LeaseDb) :
    list (Z * Z) * LeaseDb :=
  release_by_ids no_activity (match expires_at_or_before with None => AnyExpiry | Some c => OnOrBefore c end)
    None None ids now db.

(** @src db/src/queries.rs:15879-15902 apply_release_markers *)
Definition apply_release_markers (reservations : list FileReservationRow) (markers : list (Z * Z)) :
    list FileReservationRow :=
  let released_ts_by_id : gmap Z Z := foldl (fun m mk => <[fst mk := snd mk]> m) ∅ markers in
  map (fun r => set_released (released_ts_by_id !! fr_id r) r)
    (List.filter (fun r => bool_decide (is_Some (released_ts_by_id !! fr_id r))) reservations).

(** @src db/src/queries.rs:16024-16047 release_reservations_with_created_cutoff
    -- the selection of a request that needs no chunking. *)
Definition release_selection (s : ReleaseScope) (paths : option (list ustr)) (ids : option (list Z)) (db : LeaseDb) :
    list FileReservationRow :=
  select_rows (fun r => is_active db r && scope_allows s r && lease_filter ids paths r) db.

(** @src db/src/queries.rs:16008-16126 release_reservations_with_created_cutoff
    -- selection, then release by id, rechecking the scope.  The selection is a
    transaction of its own, so [sel] is the state it saw. *)
Definition release_reservations_unchunked (s : ReleaseScope) (paths : option (list ustr)) (ids : option (list Z))
    (now : Z) (sel db : LeaseDb) : list FileReservationRow * LeaseDb :=
  let reservations := release_selection s paths ids sel in
  let '(markers, db') := release_by_ids no_activity AnyExpiry (Some s) None (map fr_id reservations) now db in
  (apply_release_markers reservations markers, db').

(** @src db/src/queries.rs:1097-1097 SQLITE_MAX_BIND_PARAMS *)
Definition SQLITE_MAX_BIND_PARAMS : nat := 999.
(** @src db/src/queries.rs:1102-1102 MAX_RELEASE_RESERVATION_CHUNK_ITEMS *)
Definition MAX_RELEASE_RESERVATION_CHUNK_ITEMS : nat := 128.
(** @src db/src/queries.rs:1106-1108 MAX_RELEASE_RESERVATION_FILTER_ITEMS *)
Definition MAX_RELEASE_RESERVATION_FILTER_ITEMS : nat := SQLITE_MAX_BIND_PARAMS - 3.

(** @src db/src/queries.rs:15764-15768 ReleaseReservationChunkTarget *)
Inductive ChunkTarget := ChunkIds | ChunkPaths.

(** @src db/src/queries.rs:15809-15838 release_reservation_chunk_plan *)
Definition release_reservation_chunk_plan (path_count reservation_id_count : nat) : option (ChunkTarget * nat) :=
  let limit other := Nat.min MAX_RELEASE_RESERVATION_CHUNK_ITEMS
                       (Nat.max (MAX_RELEASE_RESERVATION_FILTER_ITEMS - other) 1) in
  let ids_limit := limit path_count in
  let paths_limit := limit reservation_id_count in
  match (ids_limit <? reservation_id_count)%nat, (paths_limit <? path_count)%nat with
  | false, false => None
  | true, false => Some (ChunkIds, ids_limit)
  | false, true => Some (ChunkPaths, paths_limit)
  | true, true =>
      if (path_count <=? reservation_id_count)%nat then Some (ChunkIds, ids_limit) else Some (ChunkPaths, paths_limit)
  end.

(** [slice::chunks(k)]. *)
Fixpoint chunks_fuel {A} (fuel k : nat) (l : list A) : list (list A) :=
  match fuel, l with
  | O, _ | _, [] => []
  | S fuel, l => take k l :: chunks_fuel fuel k (drop k l)
  end.
Definition chunks {A} (k : nat) (l : list A) : list (list A) := chunks_fuel (length l) k l.

Definition filter_count {A} (o : option (list A)) : nat := match o with None => O | Some l => length l end.

(** @src db/src/queries.rs:15946-16005 release_reservations_with_created_cutoff
    -- the requests a large filter is split into; the recursion has depth three. *)
Fixpoint release_chunks (fuel : nat) (paths : option (list ustr)) (ids : option (list Z)) :
    list (option (list ustr) * option (list Z)) :=
  match fuel, release_reservation_chunk_plan (filter_count paths) (filter_count ids) with
  | O, _ => []
  | S _, None => [(paths, ids)]
  | S fuel, Some (ChunkIds, size) =>
      match ids with
      | Some ids => flat_map (fun chunk => release_chunks fuel paths (Some chunk)) (chunks size ids)
      | None => []
      end
  | S fuel, Some (ChunkPaths, size) =>
      match paths with
      | Some paths => flat_map (fun chunk => release_chunks fuel (Some chunk) ids) (chunks size paths)
      | None => []
      end
  end.

(** @src db/src/queries.rs:15934-16127 release_reservations_with_created_cutoff
    -- the chunks one after the other, each a release of its own at its own
    time. *)
Fixpoint release_each (s : ReleaseScope) (reqs : list (option (list ustr) * option (list Z))) (clock : nat -> Z)
    (db : LeaseDb) : list FileReservationRow * LeaseDb :=
  match reqs with
  | [] => ([], db)
  | (paths, ids) :: reqs =>
      let '(rows, db) := release_reservations_unchunked s paths ids (clock O) db db in
      let '(more, db) := release_each s reqs (fun n => clock (S n)) db in
      (rows ++ more, db)
  end.
Definition release_reservations (s : ReleaseScope) (paths : option (list ustr)) (ids : option (list Z))
    (clock : nat -> Z) (db : LeaseDb) : list FileReservationRow * LeaseDb :=
  release_each s (release_chunks 3 paths ids) clock db.

(** @src db/src/queries.rs:16406-16440 release_stale_reservations
    -- the candidates are checked and filed; [None] refuses them. *)
Fixpoint stale_guard_of (project observed_at : Z) (candidates : list StaleCandidate) (filed : gmap Z StaleCandidate) :
    option (gmap Z StaleCandidate) :=
  match candidates with
  | [] => Some filed
  | c :: candidates =>
      let o := sc_row c in
      if negb (fr_project o =? project) || negb (not_released o) || (fr_expires o <=? observed_at) ||
         bool_decide (is_Some (filed !! fr_id o))
      then None
      else stale_guard_of project observed_at candidates (<[fr_id o := c]> filed)
  end.

(** @src db/src/queries.rs:16397-16456 release_stale_reservations *)
Definition release_stale_reservations (act : Activity) (project : Z) (candidates : list StaleCandidate)
    (observed_at inactivity_us grace_us now : Z) (db : LeaseDb) : option (list Z * LeaseDb) :=
  if (inactivity_us <? 0) || (grace_us <? 0) then None
  else
    filed ← stale_guard_of project observed_at candidates ∅;
    let '(markers, db) := release_by_ids act AnyExpiry None (Some (mkGuard filed observed_at inactivity_us grace_us))
                            (map (fun c => fr_id (sc_row c)) candidates) now db in
    Some (map fst markers, db).

(** @src db/src/queries.rs:17854-17885 force_release_reservation *)
Definition force_release_reservation (id : Z) (expected_expires_ts : option Z) (now : Z) (db : LeaseDb) : nat * LeaseDb :=
  let '(markers, db) := release_by_ids no_activity
      (match expected_expires_ts with None => AnyExpiry | Some ts => ExactExpiry ts end) None None [id] now db in
  (length markers, db).

(** @src db/src/queries.rs:18131-18180 release_expired_reservations
    -- [sel] is the state the selection saw. *)
Definition release_expired_reservations (project now later : Z) (sel db : LeaseDb) : list Z * LeaseDb :=
  let ids := map fr_id (select_rows (fun r => (fr_project r =? project) && is_active sel r && (fr_expires r <=? now)) sel) in
  let '(markers, db) := release_by_ids_matching_expiry ids (Some now) later db in
  (map fst markers, db).

(** ** Pruning *)

(** [DELETE] of rows, with the trigger that removes their release entries. *)
Definition delete_rows (p : FileReservationRow -> bool) (db : LeaseDb) : LeaseDb :=
  let ids := map fr_id (select_rows p db) in
  mkLeaseDb (select_rows (fun r => negb (p r)) db) (filter (fun kv => kv.1 ∉ ids) (releases db)) (next_id db).

(** @src db/src/queries.rs:18234-18261 prune_released_file_reservations
    -- released, and settled long enough. *)
Definition prunable (project : option Z) (older_than_us : Z) (db : LeaseDb) (r : FileReservationRow) : bool :=
  negb (is_active db r) &&
  (Z.max (Z.max (default 0 (releases db !! fr_id r)) (default 0 (fr_released r))) (fr_expires r) <=? older_than_us) &&
  match project with None => true | Some p => fr_project r =? p end.

(** @src db/src/queries.rs:18208-18292 prune_released_file_reservations *)
Definition prune_released (project : option Z) (older_than_us : Z) (db : LeaseDb) : nat * LeaseDb :=
  (length (select_rows (prunable project older_than_us db) db), delete_rows (prunable project older_than_us db) db).

(** @src db/src/schema.rs:2380-2412 migrations
    -- the triggers v23: the removal of an agent takes its leases along. *)
Definition delete_agent_leases (agent : Z) (db : LeaseDb) : LeaseDb := delete_rows (fun r => fr_agent r =? agent) db.

(** ** Readers *)

(** @src db/src/queries.rs:15536-15631 get_active_reservations_once
    -- candidates by their own column, then the ledger subtracted. *)
Definition get_active_reservations (project now : Z) (db : LeaseDb) : list FileReservationRow :=
  let candidates := select_rows (fun r => (fr_project r =? project) && not_released r && (now <? fr_expires r)) db in
  List.filter (fun r => negb (bool_decide (is_Some (releases db !! fr_id r)))) candidates.

(** @src db/src/queries.rs:15656-15762 list_released_unexpired_reservations_once *)
Definition list_released_unexpired (project now : Z) (db : LeaseDb) : list FileReservationRow :=
  let candidates := select_rows (fun r => (fr_project r =? project) && (now <? fr_expires r)) db in
  let merged := map (fun r => if not_released r
                              then match releases db !! fr_id r with Some ts => set_released (Some ts) r | None => r end
                              else r) candidates in
  List.filter (fun r => negb (not_released r)) merged.

(** ** Histories *)

(** The transactions that write the lease tables. *)
Inductive LeaseOp :=
  | Grant (agents : gmap Z AgentState) (q : LeaseRequest)
  | Renew (agents : gmap Z AgentState) (project agent extend_seconds : Z) (paths : option (list ustr)) (ids : option (list Z))
  | Release (act : Activity) (c : ExpiryConstraint) (s : option ReleaseScope) (g : option StaleGuard) (ids : list Z)
  | Prune (project : option Z) (older_than_us : Z)
  | DeleteAgent (agent : Z).

Definition lease_apply `{GlobEngine} (op : LeaseOp) (now : Z) (db : LeaseDb) : LeaseDb :=
  let or_same (x : LeaseError + (list FileReservationRow * LeaseDb)) := match x with inl _ => db | inr (_, db) => db end in
  match op with
  | Grant agents q => or_same (create_lease_tx agents q now db)
  | Renew agents project agent extend paths ids => or_same (renew_reservations agents project agent extend paths ids now db)
  | Release act c s g ids => snd (release_by_ids act c s g ids now db)
  | Prune project older => snd (prune_released project older db)
  | DeleteAgent agent => delete_agent_leases agent db
  end.

(** The tool layer never asks for the project directory itself. *)
Definition op_below_root (op : LeaseOp) : Prop :=
  match op with Grant _ q => Forall (fun p => normalize_pattern p <> []) (lr_paths q) | _ => True end.

(** The tables with the time of the last transaction: time does not go back. *)
#[export] Instance lease_lts `{GlobEngine} : LTS (LeaseDb * Z) (Z * LeaseOp) := {
  lts_init s := s.1 = mkLeaseDb [] ∅ 1;
  lts_step s l s' := s.2 <= l.1 /\ op_below_root l.2 /\ s' = (lease_apply l.2 l.1 s.1, l.1);
}.
