(* ===== verification/LeasesProps.v ===== *)
(** * Leases exclude one another

    Well-formedness of the lease tables, what each transaction can make live,
    and from them the exclusion of conflicting leases in every history. *)

From S2P Require Import Prelude.
From S2P Require Import RustStr.
From S2P Require Import Pattern.
From S2P Require Import PatternTheory.
From S2P Require Import GlobSimple.
From S2P Require Import LeaseIndex.
From S2P Require Import Leases.

(** ** Rows *)

(** What a conflict looks at. *)
Definition same_scope (r r' : FileReservationRow) : Prop :=
  fr_project r' = fr_project r /\ fr_agent r' = fr_agent r /\ fr_path r' = fr_path r /\ fr_exclusive r' = fr_exclusive r.

Lemma same_scope_refl r : same_scope r r.
Proof. by unfold same_scope. Qed.

Lemma same_scope_trans r1 r2 r3 : same_scope r1 r2 -> same_scope r2 r3 -> same_scope r1 r3.
Proof. unfold same_scope. intros (? & ? & ? & ?) (? & ? & ? & ?). split_and!; congruence. Qed.

Lemma live_spec db now r : live db now r = true <->
  not_released r = true /\ releases db !! fr_id r = None /\ now < fr_expires r.
Proof.
  unfold live, is_active. rewrite !andb_true_iff, bool_decide_eq_true, Z.ltb_lt. naive_solver.
Qed.

Lemma live_later db t t' r : t <= t' -> live db t' r = true -> live db t r = true.
Proof. rewrite !live_spec. intros ? (? & ? & ?). split_and!; [done|done|lia]. Qed.

Lemma live_set_rows rows db now r : live (set_rows rows db) now r = live db now r.
Proof. done. Qed.

(** ** Well-formed tables *)

Record lease_wf (db : LeaseDb) : Prop := {
  lw_ids : NoDup (map fr_id (lease_rows db));
  lw_row r : In r (lease_rows db) ->
    fr_id r < next_id db /\ normalize_pattern (fr_path r) <> [] /\ (fr_exclusive r = 0 \/ fr_exclusive r = 1);
  lw_ledger id : is_Some (releases db !! id) -> id < next_id db;
}.

Lemma lease_wf_init : lease_wf (mkLeaseDb [] ∅ 1).
Proof. constructor; cbn; [constructor|done|]. intros id [x Hx]. by rewrite lookup_empty in Hx. Qed.

(** The id is a key. *)
Lemma lease_key db r r' : lease_wf db -> In r (lease_rows db) -> In r' (lease_rows db) -> fr_id r = fr_id r' -> r = r'.
Proof.
  intros [Hnd _ _]. induction (lease_rows db) as [|x rows IH]; simpl in *; [done|].
  apply NoDup_cons in Hnd as [Hx Hnd]. rewrite list_elem_of_In, in_map_iff in Hx.
  intros [<-|Hr] [<-|Hr'] E; [done| | |by apply IH]; exfalso; apply Hx; eauto.
Qed.

(** An update that keeps the ids and the paths keeps the tables well formed. *)
Lemma lease_wf_map db g : lease_wf db ->
  (forall r, In r (lease_rows db) -> fr_id (g r) = fr_id r /\ fr_path (g r) = fr_path r /\
     (fr_exclusive (g r) = fr_exclusive r \/ fr_exclusive (g r) = 0 \/ fr_exclusive (g r) = 1)) ->
  lease_wf (set_rows (map g (lease_rows db)) db).
Proof.
  intros [Hnd Hrow Hl] Hg. constructor; cbn [lease_rows set_rows releases next_id]; [| |done].
  - rewrite map_map. erewrite map_ext_in; [exact Hnd|]. intros r Hr. by apply Hg.
  - intros r' (r & <- & Hr)%in_map_iff. destruct (Hg r Hr) as (-> & -> & He), (Hrow r Hr) as (? & ? & ?).
    split_and!; [done|done|]. destruct He as [->|?]; auto.
Qed.

Lemma lease_wf_sub db p rel : lease_wf db -> (forall id, is_Some (rel !! id) -> is_Some (releases db !! id)) ->
  lease_wf (mkLeaseDb (List.filter p (lease_rows db)) rel (next_id db)).
Proof.
  intros [Hnd Hrow Hl] Hrel. constructor; cbn [lease_rows releases next_id]; [| |eauto].
  - clear -Hnd. induction (lease_rows db) as [|x rows IH]; simpl in *; [constructor|].
    apply NoDup_cons in Hnd as [Hx Hnd]. destruct (p x); simpl; [|auto]. constructor; [|auto].
    contradict Hx. rewrite list_elem_of_In, in_map_iff in *. destruct Hx as (y & ? & [? _]%filter_In). eauto.
  - intros r [Hr _]%filter_In. auto.
Qed.

(** ** What a transaction can make live *)

(** Every lease live after was live before with the same scope, or is one of [P]. *)
Definition becomes (P : FileReservationRow -> Prop) (now : Z) (db db' : LeaseDb) : Prop :=
  forall r', In r' (lease_rows db') -> live db' now r' = true ->
    (exists r, In r (lease_rows db) /\ live db now r = true /\ same_scope r r') \/ P r'.

Notation shrinks := (becomes (fun _ => False)).

Lemma becomes_refl P now db : becomes P now db db.
Proof. intros r Hr Hl. left. eauto using same_scope_refl. Qed.

Lemma becomes_trans P now db1 db2 db3 : (forall r r', same_scope r r' -> P r -> P r') ->
  becomes P now db1 db2 -> becomes P now db2 db3 -> becomes P now db1 db3.
Proof.
  intros HP H12 H23 r3 Hr3 Hl3. destruct (H23 r3 Hr3 Hl3) as [(r2 & Hr2 & Hl2 & Hs2)|]; [|by right].
  destruct (H12 r2 Hr2 Hl2) as [(r1 & Hr1 & Hl1 & Hs1)|]; [left|right; eauto].
  exists r1. split_and!; [done..|]. by eapply same_scope_trans.
Qed.

Lemma becomes_foldl {A} P now (f : LeaseDb -> A -> LeaseDb) (I : LeaseDb -> Prop) l :
  (forall r r', same_scope r r' -> P r -> P r') ->
  (forall db a, I db -> In a l -> I (f db a) /\ becomes P now db (f db a)) ->
  forall db, I db -> I (foldl f db l) /\ becomes P now db (foldl f db l).
Proof.
  intros HP. induction l as [|a l IH]; intros Hf db Hdb; cbn [foldl]; [by split; [|apply becomes_refl]|].
  destruct (Hf db a Hdb (or_introl eq_refl)) as [Ha Hb].
  destruct (IH (fun db a Hdb Ha => Hf db a Hdb (or_intror Ha)) _ Ha) as [? ?].
  split; [done|]. by eapply becomes_trans.
Qed.

(** A row update that touches only the end of live rows. *)
Lemma becomes_map P now db g :
  (forall r, In r (lease_rows db) -> live db now (g r) = true ->
     (live db now r = true /\ same_scope r (g r)) \/ P (g r)) ->
  becomes P now db (set_rows (map g (lease_rows db)) db).
Proof.
  intros Hg r' (r & <- & Hr)%in_map_iff Hl. rewrite live_set_rows in Hl.
  destruct (Hg r Hr Hl) as [[? ?]|]; [left; eauto|by right].
Qed.

(** ** Releases, pruning and renewals create no lease *)

Definition preserves (P : FileReservationRow -> Prop) (now : Z) (db db' : LeaseDb) : Prop :=
  lease_wf db' /\ becomes P now db db'.

Lemma in_update_row id f db r' : In r' (lease_rows (update_row id f db)) <->
  exists r, In r (lease_rows db) /\ r' = (if fr_id r =? id then f r else r).
Proof. cbn. rewrite in_map_iff. naive_solver. Qed.

Lemma releases_insert id ts db i : releases (insert_release id ts db) !! i = None <->
  i <> id /\ releases db !! i = None.
Proof.
  unfold insert_release. cbn [releases]. destruct (releases db !! id) as [x|] eqn:E.
  - split; [|tauto]. intros Hi. split; [congruence|done].
  - rewrite lookup_insert_None. naive_solver.
Qed.

Lemma release_one_shrinks act c s g now acc id : lease_wf (snd (snd acc)) ->
  preserves (fun _ => False) now (snd (snd acc)) (snd (snd (release_one act c s g acc id))).
Proof.
  destruct acc as [out [marker db]]. cbn [snd]. intros Hwf. unfold release_one.
  destruct (release_eligible act c s g db id) eqn:Hel; cbn [snd]; [|split; [done|apply becomes_refl]].
  assert (id < next_id db) as Hid.
  { unfold release_eligible in Hel. destruct g as [g|]; [destruct (sg_candidates g !! id); [|done];
      apply andb_true_iff in Hel as [Hel _]|];
      apply existsb_exists in Hel as (r & Hr & Hc); apply (lw_row _ Hwf) in Hr as [Hr _]; breflect; lia. }
  split.
  - destruct (lease_wf_map db (fun r => if fr_id r =? id then set_released (Some marker) r else r) Hwf) as [H1 H2 H3].
    { intros r _. destruct (fr_id r =? id); cbn; auto. }
    constructor; [done|done|]. intros i. change (next_id _) with (next_id db).
    destruct (decide (i = id)) as [->|Hi]; [done|]. intros Hs. apply (lw_ledger _ Hwf).
    apply not_eq_None_Some in Hs. apply not_eq_None_Some. contradict Hs. apply releases_insert. done.
  - intros r' (r & Hr & ->)%in_update_row (Hnr & Hrel & He)%live_spec. left.
    apply releases_insert in Hrel as [Hne Hrel]. destruct (fr_id r =? id) eqn:E; [breflect; done|].
    exists r. split_and!; [done| |apply same_scope_refl]. apply live_spec. done.
Qed.

Lemma release_by_ids_shrinks act c s g ids now db : lease_wf db ->
  preserves (fun _ => False) now db (snd (release_by_ids act c s g ids now db)).
Proof.
  intros Hwf. unfold release_by_ids.
  assert (forall acc, lease_wf (snd (snd acc)) ->
    preserves (fun _ => False) now (snd (snd acc)) (snd (snd (foldl (release_one act c s g) acc ids)))) as H.
  { clear db Hwf. induction ids as [|id ids IH]; intros acc Hacc; cbn [foldl]; [by split; [|apply becomes_refl]|].
    destruct (release_one_shrinks act c s g now acc id Hacc) as [H1 H2]. destruct (IH _ H1) as [H3 H4].
    split; [done|]. eapply becomes_trans; [done|exact H2|exact H4]. }
  specialize (H ([], (now, db)) Hwf). by destruct (foldl _ _ ids) as [out [m db']].
Qed.

Lemma delete_rows_shrinks p now db : lease_wf db -> preserves (fun _ => False) now db (delete_rows p db).
Proof.
  intros Hwf. unfold delete_rows, select_rows. split.
  - apply lease_wf_sub; [done|]. intros id [x [Hx _]%map_lookup_filter_Some]. eauto.
  - intros r [Hr Hp]%filter_In (Hnr & Hrel & He)%live_spec. left. exists r. split_and!; [done| |apply same_scope_refl].
    apply live_spec. split_and!; [done| |done].
    destruct (releases db !! fr_id r) as [ts|] eqn:E; [|done]. exfalso.
    apply eq_None_not_Some in Hrel. apply Hrel. exists ts. apply map_lookup_filter_Some. split; [done|]. cbn [fst].
    rewrite list_elem_of_In, in_map_iff. intros (r' & Hid & [Hr' Hp']%filter_In).
    rewrite (lease_key db r' r Hwf Hr' Hr Hid) in Hp'. by rewrite Hp' in Hp.
Qed.

(** The guarded update of a renewal. *)
Definition renew_update (project agent now new : Z) (db : LeaseDb) (r r' : FileReservationRow) : FileReservationRow :=
  if ((fr_id r' =? fr_id r) && (fr_project r' =? project) && (fr_agent r' =? agent) && is_active db r') &&
     (fr_expires r' =? fr_expires r) && (now <? fr_expires r')
  then set_expires new r' else r'.

Lemma renew_update_shrinks project agent now new db r : lease_wf db ->
  preserves (fun _ => False) now db (set_rows (map (renew_update project agent now new db r) (lease_rows db)) db).
Proof.
  intros Hwf. split.
  - apply lease_wf_map; [done|]. intros r' _. unfold renew_update. by destruct (_ && _); cbn; auto.
  - apply becomes_map. intros r' Hr' Hl. left. unfold renew_update in *. destruct (_ && _) eqn:E; [|done || (split; [done|apply same_scope_refl])].
    split; [|by unfold same_scope]. breflect. unfold live. apply andb_true_iff. split; [done|by apply Z.ltb_lt].
Qed.

Lemma renew_shrinks agents project agent extend paths ids now db out db' : lease_wf db ->
  renew_reservations agents project agent extend paths ids now db = inr (out, db') ->
  preserves (fun _ => False) now db db'.
Proof.
  intros Hwf. unfold renew_reservations. destruct (ensure_agents_active _ _ _); [done|].
  generalize (select_rows (fun r => (fr_project r =? project) && (fr_agent r =? agent) && live db now r &&
                               lease_filter ids paths r) db) as rows.
  assert (forall rows out0 db0, lease_wf db0 ->
    foldl (renew_row project agent (lease_extension extend) now) (inr (out0, db0)) rows = inr (out, db') ->
    preserves (fun _ => False) now db0 db') as H; [|by intros rows; apply H].
  induction rows as [|r rows IH]; intros out0 db0 Hdb0; cbn [foldl].
  { intros [= _ <-]. split; [done|apply becomes_refl]. }
  assert (forall e, foldl (renew_row project agent (lease_extension extend) now) (inl e) rows = inl e) as Herr.
  { clear. induction rows as [|r rows IH]; intros e; cbn [foldl renew_row]; [done|apply IH]. }
  unfold renew_row at 2. fold (renew_update project agent now (isat_add (Z.max (fr_expires r) now) (lease_extension extend)) db0 r).
  match goal with |- context [List.find ?m ?l] => destruct (List.find m l) as [r'|] end; [|by rewrite Herr].
  match goal with |- context [if ?b then _ else _] => destruct b end; [|by rewrite Herr].
  pose proof (renew_update_shrinks project agent now (isat_add (Z.max (fr_expires r) now) (lease_extension extend)) db0 r Hdb0) as [H1 H2].
  intros Hf. destruct (IH _ _ H1 Hf) as [H3 H4]. split; [done|]. by eapply becomes_trans.
Qed.

(** ** Grants *)

Section grants.
  Context {GE : GlobEngine} {GL : GlobLaws}.
  Context (now : Z) (q : LeaseRequest).

Lemma bool_int_01 b : bool_int b = 0 \/ bool_int b = 1.
Proof. destruct b; auto. Qed.

(** Renewing the leases held on a path row by row is one update of the table. *)
Lemma regrant_fold sel : forall db,
  NoDup (map fr_id sel) -> (forall r, In r sel -> In r (lease_rows db)) -> lease_wf db ->
  foldl (fun db r => let row := regrant now q r in
           update_row (fr_id r) (set_terms (fr_expires row) (fr_exclusive row) (fr_reason row)) db) db sel =
  set_rows (map (fun r => if existsb (fun s => fr_id s =? fr_id r) sel then regrant now q r else r) (lease_rows db)) db.
Proof.
  induction sel as [|s sel IH]; intros db Hnd Hsel Hwf; cbn [foldl existsb].
  { cbn. rewrite map_id. by destruct db. }
  rewrite map_cons in Hnd. apply NoDup_cons in Hnd as [Hs Hnd].
  rewrite list_elem_of_In in Hs. rewrite in_map_iff in Hs.
  set (upd := fun r => if fr_id r =? fr_id s then
    set_terms (fr_expires (regrant now q s)) (fr_exclusive (regrant now q s)) (fr_reason (regrant now q s)) r else r).
  assert (forall r, In r (lease_rows db) -> upd r = if fr_id s =? fr_id r then regrant now q r else r) as Hupd.
  { intros r Hr. unfold upd. rewrite Z.eqb_sym. destruct (fr_id s =? fr_id r) eqn:E; [|done]. breflect.
    by rewrite (lease_key db s r Hwf (Hsel s (or_introl eq_refl)) Hr E). }
  change (update_row (fr_id s) _ db) with (set_rows (map upd (lease_rows db)) db).
  rewrite IH; [|done| |].
  - unfold set_rows. cbn [lease_rows releases next_id]. f_equal. rewrite map_map. apply map_ext_in. intros r Hr. rewrite Hupd by done.
    destruct (fr_id s =? fr_id r) eqn:E; cbn [orb]; [|done]. breflect.
    replace (existsb _ sel) with false; [done|]. symmetry. apply not_true_iff_false. rewrite existsb_exists.
    intros (x & Hx & Hxe). apply Hs. exists x. split; [|done]. cbn in Hxe. breflect. congruence.
  - intros r Hr. cbn [lease_rows set_rows]. apply in_map_iff. exists r.
    assert (In r (lease_rows db)) as Hrd by (apply Hsel; by right). split; [|done]. rewrite Hupd by done.
    destruct (fr_id s =? fr_id r) eqn:E; [|done]. breflect. exfalso. apply Hs. exists r. auto.
  - apply lease_wf_map; [done|]. intros r Hr. rewrite Hupd by done.
    destruct (_ =? _); cbn; auto using bool_int_01.
Qed.

Lemma own_lease_spec db path r : own_lease db now q path r = true <->
  fr_project r = lr_project q /\ fr_agent r = lr_agent q /\ fr_path r = path /\ live db now r = true.
Proof. unfold own_lease. rewrite !andb_true_iff, !Z.eqb_eq, ustr_eqb_eq. tauto. Qed.

(** What one grant does to the tables. *)
Lemma grant_path_db out db path : lease_wf db ->
  snd (grant_path now q (out, db) path) =
  match select_rows (own_lease db now q path) db with
  | [] => mkLeaseDb (lease_rows db ++ [new_lease db now q path]) (releases db) (next_id db + 1)
  | _ => set_rows (map (fun r => if own_lease db now q path r then regrant now q r else r) (lease_rows db)) db
  end.
Proof.
  intros Hwf. unfold grant_path. remember (select_rows (own_lease db now q path) db) as sel eqn:Es.
  destruct sel as [|s sel]; [done|]. cbn [snd]. rewrite regrant_fold; [|rewrite Es..|done].
  - f_equal. apply map_ext_in. intros r Hr.
    replace (existsb _ (s :: sel)) with (own_lease db now q path r); [done|].
    apply eq_true_iff_eq. rewrite existsb_exists, Es. split.
    + intros Ho. exists r. split; [by apply filter_In|apply Z.eqb_refl].
    + intros (r' & [Hr' Ho]%filter_In & E). breflect. by rewrite (lease_key db r r').
  - apply (lease_wf_sub db (own_lease db now q path) (releases db) Hwf). auto.
  - intros r [Hr _]%filter_In. done.
Qed.

(** The leases of the request. *)
Definition requested (paths : list ustr) (r : FileReservationRow) : Prop :=
  fr_project r = lr_project q /\ fr_agent r = lr_agent q /\ In (fr_path r) paths /\
  fr_exclusive r = bool_int (lr_exclusive q).

Lemma requested_scope paths r r' : same_scope r r' -> requested paths r -> requested paths r'.
Proof. unfold same_scope, requested. intros (-> & -> & -> & ->). done. Qed.

Lemma grant_path_becomes paths out db path : lease_wf db -> In path paths -> normalize_pattern path <> [] ->
  preserves (requested paths) now db (snd (grant_path now q (out, db) path)).
Proof.
  intros Hwf Hp Hn. rewrite grant_path_db by done.
  destruct (select_rows (own_lease db now q path) db) as [|s sel].
  - split.
    + destruct Hwf as [Hnd Hrow Hl]. constructor; cbn [lease_rows releases next_id].
      * rewrite map_app. apply NoDup_app. split_and!; [done| |apply NoDup_singleton].
        intros id (r & <- & Hr)%list_elem_of_In%in_map_iff. cbn. rewrite list_elem_of_singleton.
        apply Hrow in Hr as [? _]. lia.
      * intros r [Hr|[<-|[]]]%in_app_iff; [apply Hrow in Hr as (? & ? & ?); split_and!; [lia|done|done]|].
        cbn. split_and!; [lia|done|apply bool_int_01].
      * intros id Hid. apply Hl in Hid. lia.
    + intros r [Hr|[<-|[]]]%in_app_iff Hl; [left; eauto using same_scope_refl|right].
      unfold requested. by cbn.
  - split.
    + apply lease_wf_map; [done|]. intros r _. destruct (own_lease _ _ _ _ r); cbn; auto using bool_int_01.
    + apply becomes_map. intros r _. destruct (own_lease db now q path r) eqn:Eo; [|left; auto using same_scope_refl].
      apply own_lease_spec in Eo as (? & ? & <- & ?). right. unfold requested. by cbn.
Qed.

Lemma grant_all_becomes paths : forall acc, lease_wf (snd acc) ->
  Forall (fun p => normalize_pattern p <> []) paths ->
  preserves (requested paths) now (snd acc) (snd (foldl (grant_path now q) acc paths)).
Proof.
  assert (forall ps acc, lease_wf (snd acc) -> Forall (fun p => normalize_pattern p <> []) ps ->
    (forall p, In p ps -> In p paths) ->
    preserves (requested paths) now (snd acc) (snd (foldl (grant_path now q) acc ps))) as H.
  { induction ps as [|p ps IH]; intros acc Hacc Hps Hin; cbn [foldl]; [by split; [|apply becomes_refl]|].
    apply Forall_cons in Hps as [Hp Hps]. destruct acc as [out db]. cbn [snd] in *.
    destruct (grant_path_becomes paths out db p Hacc (Hin p (or_introl eq_refl)) Hp) as [H1 H2].
    destruct (IH _ H1 Hps (fun x Hx => Hin x (or_intror Hx))) as [H3 H4].
    split; [done|]. eapply becomes_trans; [apply requested_scope|exact H2|exact H4]. }
  intros acc Hacc Hps. by apply H.
Qed.

(** ** The conflict check *)

Definition clear (db : LeaseDb) (path : ustr) : Prop :=
  forall r, In r (lease_rows db) -> conflict_candidate db now q r = true ->
    overlaps (compiled_new (fr_path r)) (compiled_new path) = false.

Lemma find_busy_spec db paths : lease_wf db -> Forall (fun p => normalize_pattern p <> []) paths ->
  match find_busy (conflict_index_build (map fr_path (select_rows (conflict_candidate db now q) db))) paths with
  | Some (path, held) => In path paths /\ exists r, In r (lease_rows db) /\ conflict_candidate db now q r = true /\
      held = normalize_pattern (fr_path r) /\ overlaps (compiled_new (fr_path r)) (compiled_new path) = true
  | None => forall path, In path paths -> clear db path
  end.
Proof.
  intros Hwf Hps. pose proof (conflict_index_build_rep (map fr_path (select_rows (conflict_candidate db now q) db))) as Hix.
  destruct (find_busy _ paths) as [[path held]|] eqn:E; unfold find_busy in E.
  - apply find_map_Some in E as (p & Hp & (c & Hc & [= <- <-])%bind_Some). split; [done|].
    apply (first_conflict_sound _ _ _ Hix) in Hc as (raw & (r & <- & [Hr Hc]%filter_In)%in_map_iff & -> & Ho).
    exists r. by cbn.
  - intros path Hp r Hr Hc. rewrite find_map_None in E. specialize (E path Hp).
    apply not_true_iff_false. intros Ho. rewrite Forall_forall in Hps.
    apply (first_conflict_complete _ _ _ Hix (fr_path r)) in Ho.
    + destruct (first_conflict _ _); done.
    + apply Hps. by apply list_elem_of_In.
    + apply in_map. by apply filter_In.
    + by apply (lw_row _ Hwf).
Qed.
End grants.

(** ** Exclusion *)

Section exclusion.
  Context {GE : GlobEngine} {GL : GlobLaws}.

(** No two live leases of different agents conflict. *)
Definition exclusive_leases (db : LeaseDb) (now : Z) : Prop :=
  forall r1 r2, In r1 (lease_rows db) -> In r2 (lease_rows db) ->
    live db now r1 = true -> live db now r2 = true ->
    fr_project r1 = fr_project r2 -> fr_agent r1 <> fr_agent r2 -> fr_exclusive r1 = 1 \/ fr_exclusive r2 = 1 ->
    overlaps (compiled_new (fr_path r1)) (compiled_new (fr_path r2)) = false.

Lemma exclusive_later db t t' : t <= t' -> exclusive_leases db t -> exclusive_leases db t'.
Proof. intros Ht H r1 r2 Hr1 Hr2 Hl1 Hl2. apply H; eauto using live_later. Qed.

Lemma exclusive_shrinks now db db' : shrinks now db db' -> exclusive_leases db now -> exclusive_leases db' now.
Proof.
  intros Hs H r1' r2' Hr1 Hr2 Hl1 Hl2.
  destruct (Hs _ Hr1 Hl1) as [(r1 & Hi1 & Ha1 & -> & -> & -> & ->)|[]].
  destruct (Hs _ Hr2 Hl2) as [(r2 & Hi2 & Ha2 & -> & -> & -> & ->)|[]]. by apply H.
Qed.

(** A live lease of another agent against one of the request. *)
Lemma clear_requested now q db paths r1 r2 :
  (forall p, In p paths -> clear now q db p) -> In r1 (lease_rows db) -> live db now r1 = true ->
  requested q paths r2 -> fr_project r1 = fr_project r2 -> fr_agent r1 <> fr_agent r2 ->
  fr_exclusive r1 = 1 \/ fr_exclusive r2 = 1 ->
  overlaps (compiled_new (fr_path r1)) (compiled_new (fr_path r2)) = false.
Proof.
  intros Hc Hr Hl (Hp & Ha & Hin & He) Hproj Hag Hex. apply (Hc _ Hin r1 Hr).
  unfold conflict_candidate. rewrite Hl, !andb_true_iff, negb_true_iff, orb_true_iff, Z.eqb_neq, !Z.eqb_eq.
  split_and!; [congruence|congruence|done|]. rewrite He in Hex. destruct (lr_exclusive q); [by left|].
  destruct Hex as [?|[=]]. by right.
Qed.

Lemma exclusive_grant now q db db' paths :
  (forall p, In p paths -> clear now q db p) -> becomes (requested q paths) now db db' ->
  exclusive_leases db now -> exclusive_leases db' now.
Proof.
  intros Hc Hb H r1' r2' Hr1 Hr2 Hl1 Hl2 Hp Ha He.
  destruct (Hb _ Hr1 Hl1) as [(r1 & Hi1 & Ha1 & S1)|R1], (Hb _ Hr2 Hl2) as [(r2 & Hi2 & Ha2 & S2)|R2].
  - destruct S1 as (E1 & E2 & E3 & E4), S2 as (F1 & F2 & F3 & F4).
    rewrite E1, E2, E3, E4, F1, F2, F3, F4 in *. by apply H.
  - destruct S1 as (E1 & E2 & E3 & E4). rewrite E1, E2, E3, E4 in *. by eapply clear_requested.
  - destruct S2 as (E1 & E2 & E3 & E4). rewrite E1, E2, E3, E4 in *. rewrite overlaps_comm.
    apply (clear_requested now q db paths r2 r1'); auto. by destruct He; auto.
  - destruct R1 as (_ & E1 & _), R2 as (_ & E2 & _). congruence.
Qed.

Definition lease_inv (s : LeaseDb * Z) : Prop := lease_wf s.1 /\ exclusive_leases s.1 s.2.

Lemma lease_inv_step s l s' : lease_inv s -> lts_step s l s' -> lease_inv s'.
Proof.
  destruct s as [db t], l as [now op]. intros [Hwf Hex] (Ht & Hop & ->). cbn [fst snd] in *.
  apply (exclusive_later _ _ _ Ht) in Hex. unfold lease_inv. cbn [fst snd].
  assert (forall db', preserves (fun _ => False) now db db' -> lease_wf db' /\ exclusive_leases db' now) as Hshrink.
  { intros db' [H1 H2]. split; [done|]. by eapply exclusive_shrinks. }
  destruct op as [agents q|agents project agent extend paths ids|act c s g ids|project older|agent]; cbn [lease_apply].
  - unfold create_lease_tx. destruct (ensure_agents_active _ _ _); [done|].
    pose proof (find_busy_spec now q db (lr_paths q) Hwf Hop) as Hb.
    destruct (find_busy _ _) as [[path held]|]; [done|].
    pose proof (grant_all_becomes now q (lr_paths q) ([], db) Hwf Hop) as [H1 H2]. cbn [snd] in *.
    destruct (foldl (grant_path now q) ([], db) (lr_paths q)) as [out db']. split; [done|]. by eapply exclusive_grant.
  - destruct (renew_reservations _ _ _ _ _ _ _ _) as [e|[out db']] eqn:E; [done|].
    apply Hshrink. by eapply renew_shrinks.
  - by apply Hshrink, release_by_ids_shrinks.
  - by apply Hshrink, delete_rows_shrinks.
  - by apply Hshrink, delete_rows_shrinks.
Qed.

Lemma lease_inv_reachable s : reachable s -> lease_inv s.
Proof.
  apply invariant_reachable. split; [|apply lease_inv_step].
  intros [db t] Hi. cbn in Hi. subst db. split; [apply lease_wf_init|]. by intros r1 r2 [].
Qed.

Lemma apply_reachable db t op now : reachable (db, t) -> t <= now -> op_below_root op ->
  reachable (lease_apply op now db, now).
Proof. intros Hr Ht Hop. apply (reach_step (db, t) (now, op)); [done|]. by split_and!. Qed.

(** C1: leases exclude one another.  After any history of grants, renewals,
    releases (forced, stale, expired or scoped), prunings and removals of agents,
    in which time does not go back and no grant asks for the project directory
    itself, two leases of different agents in one project that are live at the same
    time, and of which one is exclusive, have patterns that do not overlap. *)
Theorem live_leases_exclude s now r1 r2 :
  reachable s -> s.2 <= now -> In r1 (lease_rows s.1) -> In r2 (lease_rows s.1) ->
  live s.1 now r1 = true -> live s.1 now r2 = true ->
  fr_project r1 = fr_project r2 -> fr_agent r1 <> fr_agent r2 -> fr_exclusive r1 = 1 \/ fr_exclusive r2 = 1 ->
  overlaps (compiled_new (fr_path r1)) (compiled_new (fr_path r2)) = false.
Proof.
  intros [_ Hex]%lease_inv_reachable Ht. by apply (exclusive_later _ _ _ Ht Hex).
Qed.
End exclusion.

Definition witness_agents : gmap Z AgentState :=
  <[1 := mkAgentState 7 (u "BlueLake") None None]> (<[2 := mkAgentState 7 (u "RedStone") None None]> ∅).
Definition witness_grant (agent : Z) (path : ustr) : LeaseRequest := mkLeaseRequest 7 agent [path] 3600 true (u "edit").
Definition witness_db : LeaseDb :=
  lease_apply (H := simple_engine) (Grant witness_agents (witness_grant 2 (u "docs/a.md"))) 200
    (lease_apply (H := simple_engine) (Grant witness_agents (witness_grant 1 (u "src/*.rs"))) 100 (mkLeaseDb [] ∅ 1)).

Lemma witness_reachable : @reachable _ _ (lease_lts (H := simple_engine)) (witness_db, 200).
Proof.
  unfold witness_db.
  apply (apply_reachable (GE := simple_engine) _ 100); [|lia|repeat constructor; vm_compute; discriminate].
  apply (apply_reachable (GE := simple_engine) _ 0); [by apply reach_init|lia|repeat constructor; vm_compute; discriminate].
Qed.

Lemma live_leases_exclude_witness :
  let r1 := mkLease 1 7 1 (u "src/*.rs") 1 (u "edit") 100 3600000100 None in
  let r2 := mkLease 2 7 2 (u "docs/a.md") 1 (u "edit") 200 3600000200 None in
  lease_rows witness_db = [r1; r2] /\
  overlaps (GE := simple_engine) (compiled_new (fr_path r1)) (compiled_new (fr_path r2)) = false.
Proof.
  cbv zeta. assert (lease_rows witness_db = [mkLease 1 7 1 (u "src/*.rs") 1 (u "edit") 100 3600000100 None;
    mkLease 2 7 2 (u "docs/a.md") 1 (u "edit") 200 3600000200 None]) as Hrows by (vm_compute; reflexivity).
  split; [exact Hrows|].
  apply (live_leases_exclude (GE := simple_engine) (GL := simple_laws) (witness_db, 200) 300);
    cbn [fst snd fr_project fr_agent fr_exclusive]; [|lia|rewrite Hrows; by left|rewrite Hrows; by right; left|
      vm_compute; reflexivity|vm_compute; reflexivity|lia|lia|by left].
  exact witness_reachable.
Defined.
