(* ===== verification/LeaseEffects.v ===== *)
(** * What the lease transactions change

    The exact effect of granting, renewing and releasing: which rows change,
    how, and that all others stay as they are. *)

From S2P Require Import Prelude.
From S2P Require Import RustStr.
From S2P Require Import Pattern.
From S2P Require Import PatternTheory.
From S2P Require Import GlobSimple.
From S2P Require Import LeaseIndex.
From S2P Require Import Leases.
From S2P Require Import LeasesProps.

(** ** Grants *)

Section grants.
  Context {GE : GlobEngine} {GL : GlobLaws}.
  Context (now : Z) (q : LeaseRequest).

(** A lease of the requester on [path] that carries the requested terms. *)
Definition granted (db : LeaseDb) (path : ustr) : Prop :=
  exists r, In r (lease_rows db) /\ is_active db r = true /\
    fr_project r = lr_project q /\ fr_agent r = lr_agent q /\ fr_path r = path /\
    fr_exclusive r = bool_int (lr_exclusive q) /\ fr_reason r = lr_reason q /\
    isat_add now (lease_extension (lr_ttl_seconds q)) <= fr_expires r.

(** Leases of somebody else, or in another project. *)
Definition foreign (r : FileReservationRow) : bool := negb ((fr_project r =? lr_project q) && (fr_agent r =? lr_agent q)).

Lemma grant_path_grants out db path : lease_wf db -> granted (snd (grant_path now q (out, db) path)) path.
Proof.
  intros Hwf. rewrite grant_path_db by done.
  destruct (select_rows (own_lease db now q path) db) as [|r sel] eqn:Es.
  - exists (new_lease db now q path). cbn. split_and!; try done.
    + apply in_app_iff. right. by left.
    + unfold is_active. cbn. apply bool_decide_eq_true. apply eq_None_not_Some. intros Hl.
      apply (lw_ledger _ Hwf) in Hl. lia.
  - assert (In r (lease_rows db) /\ own_lease db now q path r = true) as [Hr Ho].
    { apply filter_In. unfold select_rows in Es. rewrite Es. by left. }
    exists (regrant now q r). apply own_lease_spec in Ho as Ho'. destruct Ho' as (? & ? & ? & Hl).
    split_and!; try done; [|by apply andb_true_iff in Hl as [? _]|cbn; lia].
    cbn. apply in_map_iff. exists r. by rewrite Ho.
Qed.

Lemma grant_path_keeps out db p path : lease_wf db -> granted db path -> granted (snd (grant_path now q (out, db) p)) path.
Proof.
  intros Hwf (r & Hr & Ha & Hp & Hg & Hpath & Hx & Hrs & He). rewrite grant_path_db by done.
  destruct (select_rows (own_lease db now q p) db) as [|s sel].
  - exists r. cbn. split_and!; try done. apply in_app_iff. by left.
  - destruct (own_lease db now q p r) eqn:Eo.
    + exists (regrant now q r). cbn. split_and!; try done; [|lia]. apply in_map_iff. exists r. by rewrite Eo.
    + exists r. split_and!; try done. cbn. apply in_map_iff. exists r. by rewrite Eo.
Qed.

Lemma filter_map_fixed {A} (p : A -> bool) (g : A -> A) l :
  (forall x, p (g x) = p x) -> (forall x, p x = true -> g x = x) -> List.filter p (map g l) = List.filter p l.
Proof.
  intros Hp Hg. induction l as [|x l IH]; simpl; [done|]. rewrite Hp, IH.
  destruct (p x) eqn:E; [by rewrite Hg|done].
Qed.

Lemma grant_path_foreign out db p : lease_wf db ->
  select_rows foreign (snd (grant_path now q (out, db) p)) = select_rows foreign db /\
  releases (snd (grant_path now q (out, db) p)) = releases db.
Proof.
  intros Hwf. rewrite grant_path_db by done. unfold select_rows.
  destruct (List.filter (own_lease db now q p) _) as [|s sel]; cbn [lease_rows set_rows releases]; split; try done.
  - rewrite List.filter_app. unfold foreign at 2. cbn. by rewrite !Z.eqb_refl, app_nil_r.
  - apply filter_map_fixed; intros r; [by destruct (own_lease _ _ _ _ _)|].
    intros Hf. destruct (own_lease db now q p r) eqn:Eo; [|done]. exfalso.
    apply own_lease_spec in Eo as (Hp & Ha & _). unfold foreign in Hf. by rewrite Hp, Ha, !Z.eqb_refl in Hf.
Qed.

Lemma grant_all_granted paths : forall acc, lease_wf (snd acc) -> Forall (fun p => normalize_pattern p <> []) paths ->
  let db' := snd (foldl (grant_path now q) acc paths) in
  (forall p, In p paths \/ granted (snd acc) p -> granted db' p) /\
  select_rows foreign db' = select_rows foreign (snd acc) /\ releases db' = releases (snd acc).
Proof.
  induction paths as [|p paths IH]; intros [out db] Hwf Hps; cbn [foldl snd] in *.
  { split; [|done]. intros p [[]|?]. done. }
  apply Forall_cons in Hps as [Hp Hps].
  destruct (grant_path_becomes now q (p :: paths) out db p Hwf (or_introl eq_refl) Hp) as [Hwf' _].
  destruct (IH _ Hwf' Hps) as (H1 & -> & ->). destruct (grant_path_foreign out db p Hwf) as [-> ->].
  split; [|done]. intros x [[<-|Hx]|Hx]; apply H1; auto using grant_path_grants, grant_path_keeps.
Qed.

Lemma regrant_twice r : regrant now q (regrant now q r) = regrant now q r.
Proof. unfold regrant. destruct r. unfold set_terms. cbn. f_equal. lia. Qed.
Lemma regrant_new db path : regrant now q (new_lease db now q path) = new_lease db now q path.
Proof. unfold regrant, new_lease, set_terms. cbn. f_equal. lia. Qed.

(** Whether a row is a live lease of the requester on one of the paths. *)
Definition held (db : LeaseDb) (paths : list ustr) (r : FileReservationRow) : bool :=
  existsb (fun path => own_lease db now q path r) paths.

Lemma own_lease_releases db db' path r : releases db' = releases db -> own_lease db' now q path r = own_lease db now q path r.
Proof. intros E. unfold own_lease, live, is_active. by rewrite E. Qed.

Lemma own_lease_regrant db path path' r : own_lease db now q path r = true ->
  own_lease db now q path' (regrant now q r) = own_lease db now q path' r.
Proof.
  intros (_ & _ & _ & Hl)%own_lease_spec. unfold own_lease, live, is_active, not_released in *. cbn.
  apply andb_true_iff in Hl as [Ha Hl]. rewrite Hl, Ha. f_equal. f_equal. apply Z.ltb_lt. apply Z.ltb_lt in Hl. lia.
Qed.

(** A lease the grant inserted for one of the paths, on which the requester held none. *)
Definition inserted_for (db : LeaseDb) (paths : list ustr) (r : FileReservationRow) : Prop :=
  exists d path, r = new_lease d now q path /\ next_id db <= next_id d /\ In path paths /\
    forall s, In s (lease_rows db) -> own_lease db now q path s = false.

Lemma held_releases db db' paths r : releases db' = releases db -> held db' paths r = held db paths r.
Proof. intros E. unfold held. induction paths as [|p l IH]; cbn; [done|]. by rewrite (own_lease_releases db db'), IH. Qed.

Lemma inserted_later db db' p paths r : releases db' = releases db -> next_id db <= next_id db' ->
  (forall s, In s (lease_rows db) -> exists s', In s' (lease_rows db') /\
     forall path, own_lease db now q path s' = own_lease db now q path s) ->
  inserted_for db' paths r -> inserted_for db (p :: paths) r.
Proof.
  intros Hrel Hid Hrows (d & path & -> & Hd & Hp & Hno). exists d, path. split; [done|]. split; [lia|]. split; [by right|].
  intros x Hx. destruct (Hrows x Hx) as (x' & Hx' & <-). rewrite <- (own_lease_releases db db') by done. by apply Hno.
Qed.

(** The whole table after a grant. *)
Lemma grant_all_rows paths : forall out db, lease_wf db -> Forall (fun p => normalize_pattern p <> []) paths ->
  exists news, Forall (inserted_for db paths) news /\
    lease_rows (snd (foldl (grant_path now q) (out, db) paths)) =
      map (fun r => if held db paths r then regrant now q r else r) (lease_rows db) ++ news.
Proof.
  induction paths as [|p paths IH]; intros out db Hwf Hps; cbn [foldl].
  { exists []. rewrite app_nil_r. split; [done|]. symmetry. apply map_id. }
  apply Forall_cons in Hps as [Hp Hps].
  destruct (grant_path_becomes now q (p :: paths) out db p Hwf (or_introl eq_refl) Hp) as [Hwf' _].
  destruct (grant_path_foreign out db p Hwf) as [_ Hrel]. pose proof (grant_path_db now q out db p Hwf) as Hdb.
  destruct (grant_path now q (out, db) p) as [out1 db1]. cbn [snd] in *.
  destruct (IH out1 db1 Hwf' Hps) as (news & Hnews & ->).
  destruct (select_rows (own_lease db now q p) db) as [|s sel] eqn:Es.
  - assert (forall r, In r (lease_rows db) -> own_lease db now q p r = false) as Hno.
    { intros r Hr. destruct (own_lease db now q p r) eqn:Eo; [|done].
      assert (In r (select_rows (own_lease db now q p) db)) as Hin by (by apply filter_In). by rewrite Es in Hin. }
    exists (new_lease db now q p :: news). split.
    + constructor; [exists db, p; split_and!; [done|lia|by left|done]|]. eapply Forall_impl; [exact Hnews|].
      intros r. apply inserted_later; [done|subst db1; cbn; lia|]. intros x Hx. exists x. split; [|done].
      subst db1. apply in_app_iff. by left.
    + subst db1. cbn [lease_rows]. rewrite map_app, <- app_assoc. cbn [map app]. f_equal.
      * apply map_ext_in. intros r Hr. rewrite (held_releases db) by done. unfold held. cbn [existsb]. by rewrite Hno.
      * by destruct (held _ _ _); rewrite ?regrant_new.
  - exists news. split.
    + eapply Forall_impl; [exact Hnews|]. intros r. apply inserted_later; [done|subst db1; cbn; lia|].
      intros x Hx. destruct (own_lease db now q p x) eqn:Eo.
      * exists (regrant now q x). split; [|intros path; by apply (own_lease_regrant db p)].
        subst db1. cbn. apply in_map_iff. exists x. by rewrite Eo.
      * exists x. split; [|done]. subst db1. cbn. apply in_map_iff. exists x. by rewrite Eo.
    + f_equal. subst db1. cbn [lease_rows set_rows]. rewrite map_map. apply map_ext. intros r.
      rewrite (held_releases db) by done. unfold held at 2. cbn [existsb].
      destruct (own_lease db now q p r); cbn [orb]; [|done]. by destruct (held _ _ _); rewrite ?regrant_twice.
Qed.

(** C10: a grant is decided exactly, and changes nothing else.  Take a request of
    an active agent none of whose paths is the project root (the root is not
    found against other patterns, [root_lease_missed]).  It is refused only
    because one of its paths overlaps a live lease of another agent that it has to
    respect, without a change.  Otherwise every path of the request is free of such
    leases and ends up with an active lease of the requester in the requested mode
    that runs for the requested time at least; and the table is exactly the old one
    with the live leases the requester held on these paths renewed in place, and
    new leases behind it for paths on which it held none: every other row, of the
    requester too, and the release ledger are untouched. *)
Theorem lease_grant_exact agents db :
  lease_wf db -> Forall (fun p => normalize_pattern p <> []) (lr_paths q) ->
  ensure_agents_active agents [lr_agent q] (Some (lr_project q)) = inr tt ->
  match create_lease_tx agents q now db with
  | inl e => exists path r, e = ResourceBusy path (normalize_pattern (fr_path r)) /\ In path (lr_paths q) /\
      In r (lease_rows db) /\ conflict_candidate db now q r = true /\
      overlaps (compiled_new (fr_path r)) (compiled_new path) = true
  | inr (_, db') =>
      (forall path, In path (lr_paths q) -> clear now q db path /\ granted db' path) /\
      releases db' = releases db /\
      exists news, Forall (inserted_for db (lr_paths q)) news /\
        lease_rows db' = map (fun r => if held db (lr_paths q) r then regrant now q r else r) (lease_rows db) ++ news
  end.
Proof.
  intros Hwf Hps Hag. unfold create_lease_tx. rewrite Hag.
  pose proof (find_busy_spec now q db (lr_paths q) Hwf Hps) as Hb.
  destruct (find_busy _ _) as [[path held0]|].
  - destruct Hb as (Hp & r & Hr & Hc & -> & Ho). eauto 10.
  - pose proof (grant_all_granted (lr_paths q) ([], db) Hwf Hps) as (H1 & _ & H3).
    pose proof (grant_all_rows (lr_paths q) [] db Hwf Hps) as H4. cbn [snd] in *.
    destruct (foldl (grant_path now q) ([], db) (lr_paths q)) as [out db']. split; [|done].
    intros path Hp. split; [by apply Hb|]. apply H1. by left.
Qed.
End grants.

Lemma lease_grant_exact_witness :
  (exists path r, @create_lease_tx simple_engine witness_agents (witness_grant 1 (u "docs")) 300 witness_db =
      inl (ResourceBusy path (normalize_pattern (fr_path r)))) /\
  (exists out db', @create_lease_tx simple_engine witness_agents (witness_grant 1 (u "src")) 300 witness_db = inr (out, db') /\
      granted 300 (witness_grant 1 (u "src")) db' (u "src")).
Proof.
  destruct (lease_inv_reachable (GL := simple_laws) _ witness_reachable) as [Hwf _].
  assert (forall p, normalize_pattern p <> [] -> Forall (fun p => normalize_pattern p <> []) [p]) as Hps
    by (intros; by repeat constructor).
  assert (ensure_agents_active witness_agents [1] (Some 7) = inr tt) as Hag by (vm_compute; reflexivity).
  pose proof (lease_grant_exact (GE := simple_engine) (GL := simple_laws) 300 (witness_grant 1 (u "docs"))
    witness_agents witness_db Hwf (Hps (u "docs") ltac:(vm_compute; discriminate)) Hag) as Hbusy.
  pose proof (lease_grant_exact (GE := simple_engine) (GL := simple_laws) 300 (witness_grant 1 (u "src"))
    witness_agents witness_db Hwf (Hps (u "src") ltac:(vm_compute; discriminate)) Hag) as Hfree.
  split.
  - clear Hfree. destruct (create_lease_tx _ _ _ _) as [e|[out db']] eqn:E; [|vm_compute in E; discriminate].
    destruct Hbusy as (path & r & -> & _). by exists path, r.
  - clear Hbusy. destruct (create_lease_tx _ _ _ _) as [e|[out db']] eqn:E; [vm_compute in E; discriminate|].
    destruct Hfree as (H & _). exists out, db'. split; [done|]. apply H. by left.
Defined.

(** ** Renewals *)

Section renewals.
  Context (project agent extend now : Z).

Definition renewed (r : FileReservationRow) : FileReservationRow :=
  set_expires (isat_add (Z.max (fr_expires r) now) extend) r.

Definition renewable (db : LeaseDb) (r : FileReservationRow) : bool :=
  (fr_project r =? project) && (fr_agent r =? agent) && live db now r.

Lemma renewable_spec db r : renewable db r = true <->
  fr_project r = project /\ fr_agent r = agent /\ is_active db r = true /\ now < fr_expires r.
Proof. unfold renewable, live. rewrite !andb_true_iff, !Z.eqb_eq, Z.ltb_lt. tauto. Qed.

(** One step of the renewal stores what it reports. *)
Lemma renew_row_stores out db r : lease_wf db -> In r (lease_rows db) -> renewable db r = true ->
  renew_row project agent extend now (inr (out, db)) r =
  inr (out ++ [renewed r], set_rows (map (fun r' => if fr_id r' =? fr_id r then renewed r' else r') (lease_rows db)) db).
Proof.
  intros Hwf Hr (Hp & Ha & Hact & He)%renewable_spec. unfold renew_row, renewed.
  set (new := isat_add (Z.max (fr_expires r) now) extend).
  assert (map (fun r' => if ((fr_id r' =? fr_id r) && (fr_project r' =? project) && (fr_agent r' =? agent) &&
      is_active db r') && (fr_expires r' =? fr_expires r) && (now <? fr_expires r') then set_expires new r' else r') (lease_rows db) =
    map (fun r' => if fr_id r' =? fr_id r then set_expires (isat_add (Z.max (fr_expires r') now) extend) r' else r')
      (lease_rows db)) as Hmap.
  { apply map_ext_in. intros r' Hr'. destruct (fr_id r' =? fr_id r) eqn:E; [|done]. breflect.
    rewrite (lease_key db r' r Hwf Hr' Hr E). rewrite Hp, Ha, Hact, !Z.eqb_refl. cbn [andb].
    by replace (now <? fr_expires r) with true by (symmetry; by apply Z.ltb_lt). }
  rewrite Hmap. cbn [lease_rows set_rows].
  destruct (List.find _ _) as [r'|] eqn:Ef.
  - apply find_some in Ef as [(r0 & E0 & Hr0)%in_map_iff Hm]. breflect.
    assert (fr_id r0 = fr_id r) as Hid by (subst r'; destruct (fr_id r0 =? fr_id r); cbn in *; congruence).
    rewrite (lease_key db r0 r Hwf Hr0 Hr Hid), Z.eqb_refl in E0. subst r'. cbn [fr_expires set_expires set_terms].
    by rewrite Z.eqb_refl.
  - exfalso. assert (In (set_expires new r) (map (fun r' => if fr_id r' =? fr_id r
      then set_expires (isat_add (Z.max (fr_expires r') now) extend) r' else r') (lease_rows db))) as Hin.
    { apply in_map_iff. exists r. by rewrite Z.eqb_refl. }
    eapply find_none in Ef; [|exact Hin]. cbn in Ef. unfold is_active in *. cbn in *.
    rewrite Hp, Ha, !Z.eqb_refl in Ef. unfold not_released in *. cbn in *. by rewrite Hact in Ef.
Qed.

Lemma renew_all_stores sel : forall out db, lease_wf db -> NoDup (map fr_id sel) ->
  (forall r, In r sel -> In r (lease_rows db) /\ renewable db r = true) ->
  foldl (renew_row project agent extend now) (inr (out, db)) sel =
  inr (out ++ map renewed sel,
       set_rows (map (fun r => if existsb (fun s => fr_id s =? fr_id r) sel then renewed r else r) (lease_rows db)) db).
Proof.
  induction sel as [|s sel IH]; intros out db Hwf Hnd Hsel; cbn [foldl existsb].
  { cbn. rewrite map_id, app_nil_r. by destruct db. }
  rewrite map_cons in Hnd. apply NoDup_cons in Hnd as [Hs Hnd]. rewrite list_elem_of_In in Hs. rewrite in_map_iff in Hs.
  destruct (Hsel s (or_introl eq_refl)) as [Hsr Hsa]. rewrite renew_row_stores by done. rewrite IH; [|by apply lease_wf_map; [|intros r _; destruct (_ =? _); cbn; auto]|done|].
  - rewrite <- app_assoc. cbn [app map]. do 2 f_equal. unfold set_rows. cbn [lease_rows releases next_id]. f_equal.
    rewrite map_map. apply map_ext_in. intros r Hr. rewrite (Z.eqb_sym (fr_id s)).
    destruct (fr_id r =? fr_id s) eqn:E; cbn [orb]; [|done]. breflect.
    replace (existsb _ sel) with false; [done|]. symmetry. apply not_true_iff_false. rewrite existsb_exists.
    intros (x & Hx & Hxe). apply Hs. exists x. split; [|done]. cbn in Hxe. breflect. congruence.
  - intros r Hr. destruct (Hsel r (or_intror Hr)) as [Hrr Hra]. split; [|done]. cbn [lease_rows set_rows].
    apply in_map_iff. exists r. split; [|done]. destruct (fr_id r =? fr_id s) eqn:E; [|done].
    breflect. exfalso. apply Hs. eauto.
Qed.
End renewals.

Lemma max_live_expires now r : now < fr_expires r -> Z.max (fr_expires r) now = fr_expires r.
Proof. lia. Qed.

(** A renewal extends exactly the caller's live leases that it names.  For an
    active agent it always succeeds (the check of the stored expiry never fires);
    each live lease of the agent in the project that passes the id and path
    filters gets its own end plus the extension, saturating; every other row, and
    the release ledger, stays as it is; and the rows returned are the extended
    ones. *)
Theorem renewal_exact agents project agent extend_seconds paths ids now db :
  lease_wf db -> ensure_agents_active agents [agent] (Some project) = inr tt ->
  let chosen r := renewable project agent now db r && lease_filter ids paths r in
  let extend r := set_expires (isat_add (fr_expires r) (lease_extension extend_seconds)) r in
  exists db', renew_reservations agents project agent extend_seconds paths ids now db =
      inr (map extend (List.filter chosen (lease_rows db)), db') /\
    lease_rows db' = map (fun r => if chosen r then extend r else r) (lease_rows db) /\
    releases db' = releases db /\ next_id db' = next_id db.
Proof.
  intros Hwf Hag chosen extend. unfold renew_reservations. rewrite Hag.
  change (select_rows _ db) with (List.filter chosen (lease_rows db)).
  assert (forall r, chosen r = true -> renewed (lease_extension extend_seconds) now r = extend r) as Hext.
  { intros r [(_ & _ & _ & He)%renewable_spec _]%andb_true_iff. unfold renewed, extend. by rewrite max_live_expires. }
  rewrite renew_all_stores; [|done|apply (lease_wf_sub db chosen (releases db) Hwf); auto|].
  - eexists. split; [do 2 f_equal|split; [|done]]; cbn [app lease_rows set_rows]; apply map_ext_in.
    + intros r [_ Hc]%filter_In. by apply Hext.
    + intros r Hr. replace (existsb _ _) with (chosen r).
      { destruct (chosen r) eqn:E; [by apply Hext|done]. }
      apply eq_true_iff_eq. rewrite existsb_exists. split.
      * intros Hc. exists r. split; [by apply filter_In|apply Z.eqb_refl].
      * intros (r' & [Hr' Hc]%filter_In & E). breflect. by rewrite (lease_key db r r').
  - intros r [Hr Hc]%filter_In. split; [done|]. by apply andb_true_iff in Hc as [? _].
Qed.

Lemma renewal_exact_witness :
  exists db', renew_reservations witness_agents 7 1 60 None None 300 witness_db =
      inr ([mkLease 1 7 1 (u "src/*.rs") 1 (u "edit") 100 3660000100 None], db') /\
    map fr_expires (lease_rows db') = [3660000100; 3600000200].
Proof.
  destruct (lease_inv_reachable (GL := simple_laws) _ witness_reachable) as [Hwf _].
  destruct (renewal_exact witness_agents 7 1 60 None None 300 witness_db Hwf ltac:(vm_compute; reflexivity))
    as (db' & E & Hrows & _).
  exists db'. split; [rewrite E; vm_compute; reflexivity|]. rewrite Hrows. vm_compute. reflexivity.
Defined.
