(* ===== verification/ReservationPaths.v ===== *)
(** * Reservation requests ([tools/src/reservations.rs])

    What the tools do around the lease transactions: requested paths are made
    relative to the project and vetted, the live leases of other agents are
    searched for conflicts, and filters of releases and renewals are resolved to
    ids.  Parameters: the expansion of [~] (the environment), the glob engine. *)

From S2P Require Import Prelude.
From S2P Require Import RustStr.
From S2P Require Import Pattern.
From S2P Require Import ReservationIndex.
From S2P Require Import Leases.
From S2P Require Import PatternTheory.
From S2P Require Import GlobSimple.
From S2P Require Import ReservationIndexTheory.
From S2P Require Import LeaseIndex.
From S2P Require Import LeasesProps.
From S2P Require Import LeaseEffects.

(** ** Paths *)

(** @src tools/src/reservations.rs:924-937 path_looks_absolute
    -- [Path::is_absolute] is a leading slash on Unix. *)
Definition path_looks_absolute (input : ustr) : bool :=
  if starts_with (u "//") input then false
  else if starts_with (u "/") input || starts_with (u "~/") input || ustr_eqb input (u "~") then true
  else match input with
       | a :: b :: c :: _ => is_ascii_alphabetic a && (b =? ch ":")%N && is_separator c
       | _ => false
       end.

(** @src tools/src/reservations.rs:943-950 relativize_path
    -- one component; [parts.pop()?] fails above the top. *)
Definition push_part (parts : option (list ustr)) (piece : ustr) : option (list ustr) :=
  parts ← parts;
  if ustr_eqb piece [] || ustr_eqb piece (u ".") then Some parts
  else if ustr_eqb piece (u "..") then match parts with [] => None | _ => Some (removelast parts) end
  else Some (parts ++ [piece]).

(** @src tools/src/reservations.rs:940-953 relativize_path *)
Definition path_parts (input : ustr) : option (list ustr) :=
  foldl push_part (Some []) (split_on is_separator input).

Fixpoint strip_parts (root parts : list ustr) : option (list ustr) :=
  match root, parts with
  | [], _ => Some parts
  | r :: root, p :: parts => if ustr_eqb p r then strip_parts root parts else None
  | _ :: _, [] => None
  end.

Section paths.
  Context (expand_tilde : ustr -> ustr).

(** @src tools/src/reservations.rs:939-979 relativize_path *)
Definition relativize_path (project_root path : ustr) : option ustr :=
  let expanded_path := expand_tilde path in
  let expanded_root := expand_tilde project_root in
  parts ← path_parts expanded_path;
  if path_looks_absolute expanded_path then
    root_parts ← path_parts expanded_root;
    rest ← strip_parts root_parts parts;
    Some (join [slash] rest)
  else Some (join [slash] parts).

Section vetting.
  Context {GE : GlobEngine}.

Inductive SuspiciousReason := EmptyPattern | AbsolutePattern | TooBroad (norm : ustr) | VeryShort.

(** @src tools/src/reservations.rs:161-188 detect_suspicious_file_reservation *)
Definition detect_suspicious_file_reservation (pattern : ustr) : option SuspiciousReason :=
  let norm := normalize_pattern pattern in
  if is_empty (trim pattern) then Some EmptyPattern
  else if path_looks_absolute pattern then Some AbsolutePattern
  else if existsb (ustr_eqb norm) [u "*"; u "**"; u "**/*"; u "**/**"; []] then Some (TooBroad norm)
  else if (utf8_len pattern <=? 2)%nat && contains (u "*") pattern then Some VeryShort
  else None.

Inductive InvalidReason := ParentTraversal | BadGlob.

(** @src tools/src/reservations.rs:190-201 invalid_file_reservation_pattern *)
Definition invalid_file_reservation_pattern (pattern : ustr) : option InvalidReason :=
  if contains (u "..") pattern then Some ParentTraversal
  else
    let compiled := compiled_new pattern in
    if cp_is_glob compiled && negb (is_matchable compiled) then Some BadGlob else None.

Inductive PathError :=
  | Suspicious (r : SuspiciousReason)
  | TargetsProjectRoot
  | InvalidPattern (r : InvalidReason)
  | OutsideProject.

(** @src tools/src/reservations.rs:2029-2059 file_reservation_paths
    -- one path; [normalize_filter_paths] treats its paths alike. *)
Definition normalize_path (project_root path : ustr) : PathError + ustr :=
  match relativize_path project_root path with
  | None => inl OutsideProject
  | Some rel =>
      if is_empty rel then inl TargetsProjectRoot
      else match invalid_file_reservation_pattern rel with
           | Some r => inl (InvalidPattern r)
           | None => inr rel
           end
  end.

(** The loop over a list of paths stops at the first error. *)
Fixpoint try_map {E A B} (f : A -> E + B) (l : list A) : E + list B :=
  match l with
  | [] => inr []
  | x :: l => y ← f x; ys ← try_map f l; inr (y :: ys)
  end.

(** @src tools/src/reservations.rs:981-1023 normalize_filter_paths *)
Definition normalize_filter_paths (project_root : ustr) (paths : option (list ustr)) : PathError + option (list ustr) :=
  match paths with
  | None => inr None
  | Some paths => ps ← try_map (normalize_path project_root) paths; inr (Some ps)
  end.

Definition not_suspicious (path : ustr) : PathError + unit :=
  match detect_suspicious_file_reservation path with Some r => inl (Suspicious r) | None => inr tt end.

(** @src tools/src/reservations.rs:2011-2059 file_reservation_paths
    -- every path is vetted as given, then all are normalised. *)
Definition request_paths (project_root : ustr) (paths : list ustr) : PathError + list ustr :=
  _ ← try_map not_suspicious paths;
  try_map (normalize_path project_root) paths.

(** @src tools/src/reservations.rs:1967-1967 file_reservation_paths *)
Definition clamp_ttl (ttl_seconds : option Z) : Z :=
  match ttl_seconds with None => 3600 | Some t => Z.max 60 (Z.min t 31536000) end.

(** @src tools/src/reservations.rs:2968-2968 renew_file_reservations *)
Definition clamp_extend (extend_seconds : option Z) : Z :=
  match extend_seconds with None => 1800 | Some t => Z.max 60 (Z.min t 31536000) end.

(** ** The conflict check before a grant *)

(** @src tools/src/reservations.rs:2186-2198 file_reservation_paths
    -- the leases in the way: the others', and of these the shared ones only for
    an exclusive request. *)
Definition in_the_way (agent : Z) (is_exclusive : bool) (r : FileReservationRow) : bool :=
  if fr_agent r =? agent then false
  else if is_exclusive then true else negb (fr_exclusive r =? 0).

(** @src tools/src/reservations.rs:2199-2210 file_reservation_paths *)
Definition reservation_ref (r : FileReservationRow) : ustr * ReservationRef :=
  (fr_path r, mkRef (fr_agent r) (fr_path r) (negb (fr_exclusive r =? 0)) (fr_expires r)).

(** @src tools/src/reservations.rs:2182-2211 file_reservation_paths *)
Definition request_index (agent : Z) (is_exclusive : bool) (active : list FileReservationRow) : ReservationIndex :=
  index_build (map reservation_ref (List.filter (in_the_way agent is_exclusive) active)).

(** [seen_paths.insert]: later copies are skipped. *)
Fixpoint first_occurrences (seen l : list ustr) : list ustr :=
  match l with
  | [] => []
  | x :: l => if existsb (ustr_eqb x) seen then first_occurrences seen l else x :: first_occurrences (x :: seen) l
  end.

(** @src tools/src/reservations.rs:2221-2257 file_reservation_paths
    -- the paths to grant, and the conflicts of the others; the tool also sorts
    the holders of a path. *)
Fixpoint split_paths (ix : ReservationIndex) (paths : list ustr) : list ustr * list (ustr * list ReservationRef) :=
  match paths with
  | [] => ([], [])
  | path :: paths =>
      let '(grants, conflicts) := split_paths ix paths in
      match find_conflicts ix (compiled_new path) with
      | [] => (path :: grants, conflicts)
      | refs => (grants, (path, refs) :: conflicts)
      end
  end.
(** @src tools/src/reservations.rs:2182-2257 file_reservation_paths *)
Definition plan_request (agent : Z) (is_exclusive : bool) (active : list FileReservationRow) (normalized : list ustr) :
    list ustr * list (ustr * list ReservationRef) :=
  split_paths (request_index agent is_exclusive active) (first_occurrences [] normalized).

(** @src tools/src/reservations.rs:1940-1949 file_reservation_paths
    -- a call of the tool, without a key. *)
Record ReserveCall := mkReserveCall {
  rc_project : Z; rc_root : ustr; rc_agent : Z; rc_paths : list ustr;
  rc_ttl : option Z; rc_exclusive : option bool; rc_reason : option ustr;
}.

Inductive ReserveError := NoPaths | TooManyPaths | BadPath (e : PathError) | GrantFailed (e : LeaseError).

(** @src tools/src/reservations.rs:1998-1998 MAX_PATHS_PER_CALL *)
Definition MAX_PATHS_PER_CALL : nat := 200.

Definition call_request (c : ReserveCall) (paths : list ustr) : LeaseRequest :=
  mkLeaseRequest (rc_project c) (rc_agent c) paths (clamp_ttl (rc_ttl c)) (default true (rc_exclusive c))
    (default [] (rc_reason c)).

(** @src tools/src/reservations.rs:2370-2453 file_reservation_paths
    -- the transaction found a lease the check had not seen: the paths are checked
    again against fresh leases, and nothing is granted. *)
Definition conflicts_after_busy (c : ReserveCall) (fresh : list FileReservationRow) (paths : list ustr) :
    list (ustr * list ReservationRef) :=
  let ix := request_index (rc_agent c) (default true (rc_exclusive c)) fresh in
  omap (fun path => match find_conflicts ix (compiled_new path) with [] => None | refs => Some (path, refs) end) paths.

(** @src tools/src/reservations.rs:1940-2517 file_reservation_paths
    -- of a caller resolved and authorised, without a key.  [seen] and [t] are the
    tables and the time of the check, [db] and [now] those of the transaction,
    [fresh] and [t'] those of the second look. *)
Definition file_reservation_paths (agents : gmap Z AgentState) (c : ReserveCall) (t : Z) (seen : LeaseDb)
    (now : Z) (db : LeaseDb) (t' : Z) (fresh : LeaseDb) :
    ReserveError + (list FileReservationRow * list (ustr * list ReservationRef) * LeaseDb) :=
  if bool_decide (rc_paths c = []) then inl NoPaths
  else if (MAX_PATHS_PER_CALL <? length (rc_paths c))%nat then inl TooManyPaths
  else match request_paths (rc_root c) (rc_paths c) with
  | inl e => inl (BadPath e)
  | inr normalized =>
      let active := get_active_reservations (rc_project c) t seen in
      let '(to_grant, conflicts) := plan_request (rc_agent c) (default true (rc_exclusive c)) active normalized in
      if bool_decide (to_grant = []) then inr ([], conflicts, db)
      else match create_lease_tx agents (call_request c to_grant) now db with
           | inr (rows, db') => inr (rows, conflicts, db')
           | inl (ResourceBusy _ _) =>
               inr ([], conflicts ++ conflicts_after_busy c (get_active_reservations (rc_project c) t' fresh) to_grant, db)
           | inl e => inl (GrantFailed e)
           end
  end.

(** ** The read-only conflict check *)

(** @src tools/src/reservations.rs:203-208 MAX_CONFLICT_CHECK_PATHS *)
Definition MAX_CONFLICT_CHECK_PATHS : nat := 200.
Definition MAX_CONFLICT_CHECK_PATH_BYTES : nat := 4096.
Definition MAX_CONFLICT_CHECK_PAYLOAD_BYTES : nat := 65536.
Definition MAX_CONFLICT_CHECK_SNAPSHOT_ROWS : nat := 10000.
Definition MAX_CONFLICT_HOLDERS_PER_PATH : nat := 50.
Definition MAX_CONFLICT_HOLDERS_TOTAL : nat := 1000.

Inductive CheckError :=
  | CheckEmptyPaths | CheckTooManyPaths | CheckPathTooLong | CheckNulByte | CheckPayloadTooLarge
  | SnapshotTooLarge | CheckOutsideProject | MalformedPath (path : ustr)
  | UnresolvedHolder (id : Z) | MalformedReservation (id : Z).

(** @src tools/src/reservations.rs:236-257 validate_conflict_check_paths
    -- the loop, with the bytes so far. *)
Fixpoint check_path_bytes (payload : nat) (paths : list ustr) : CheckError + nat :=
  match paths with
  | [] => inr payload
  | path :: paths =>
      if (MAX_CONFLICT_CHECK_PATH_BYTES <? utf8_len path)%nat then inl CheckPathTooLong
      else if contains_char 0 path then inl CheckNulByte
      else check_path_bytes (payload + utf8_len path) paths
  end.

(** @src tools/src/reservations.rs:210-274 validate_conflict_check_paths *)
Definition validate_conflict_check_paths (paths : list ustr) : CheckError + unit :=
  if bool_decide (paths = []) then inl CheckEmptyPaths
  else if (MAX_CONFLICT_CHECK_PATHS <? length paths)%nat then inl CheckTooManyPaths
  else
    payload ← check_path_bytes 0 paths;
    if (MAX_CONFLICT_CHECK_PAYLOAD_BYTES <? payload)%nat then inl CheckPayloadTooLarge else inr tt.

(** @src db/src/queries.rs:15000-15036 get_reservation_conflict_snapshot
    -- the rows of one snapshot, or [None] beyond the cap. *)
Definition reservation_snapshot (project captured_ts : Z) (max : nat) (db : LeaseDb) : option (list FileReservationRow) :=
  let rows := take (max + 1) (select_rows (fun r => (fr_project r =? project) && live db captured_ts r) db) in
  if (max <? length rows)%nat then None else Some rows.

(** @src tools/src/reservations.rs:1750-1776 check_file_reservation_conflicts *)
Definition check_one_path (root path : ustr) : CheckError + ustr :=
  match relativize_path root path with
  | None => inl CheckOutsideProject
  | Some normalized =>
      if is_empty normalized || bool_decide (is_Some (invalid_file_reservation_pattern normalized)) ||
         negb (is_matchable (compiled_new normalized))
      then inl (MalformedPath path) else inr normalized
  end.

(** @src tools/src/reservations.rs:1778-1842 check_file_reservation_conflicts
    -- the exclusive leases of the others, indexed; one that cannot be judged
    refuses the whole check. *)
Fixpoint index_others (caller : Z) (holder : Z -> option ustr) (rows : list FileReservationRow) :
    CheckError + list (ustr * ReservationRef) :=
  match rows with
  | [] => inr []
  | r :: rows =>
      if (fr_agent r =? caller) || (fr_exclusive r =? 0) then index_others caller holder rows
      else match holder (fr_agent r) with
           | None => inl (UnresolvedHolder (fr_id r))
           | Some _ =>
               if is_empty (fr_path r) || (MAX_CONFLICT_CHECK_PATH_BYTES <? utf8_len (fr_path r))%nat ||
                  contains_char 0 (fr_path r) || bool_decide (is_Some (invalid_file_reservation_pattern (fr_path r))) ||
                  negb (is_matchable (compiled_new (fr_path r)))
               then inl (MalformedReservation (fr_id r))
               else rest ← index_others caller holder rows;
                    inr ((fr_path r, mkRef (fr_agent r) (fr_path r) true (fr_expires r)) :: rest)
           end
  end.

(** @src tools/src/reservations.rs:1855-1862 check_file_reservation_conflicts
    -- [sort_unstable_by] on pattern and agent, and [dedup_by] on the same keys. *)
Definition ref_le (a b : ReservationRef) : Prop :=
  str_ltb (path_pattern a) (path_pattern b) = true \/ (path_pattern a = path_pattern b /\ agent_id a <= agent_id b).
#[export] Instance ref_le_dec : RelDecision ref_le.
Proof. intros a b. unfold ref_le. apply _. Defined.
(** @src tools/src/reservations.rs:1860-1862 check_file_reservation_conflicts *)
Fixpoint dedup_refs (l : list ReservationRef) : list ReservationRef :=
  match l with
  | a :: (b :: _) as l' =>
      if (agent_id a =? agent_id b) && ustr_eqb (path_pattern a) (path_pattern b)
      then match dedup_refs l' with [] => [a] | _ :: r => a :: r end
      else a :: dedup_refs l'
  | l => l
  end.

(** @src tools/src/reservations.rs:1898-1911 check_file_reservation_conflicts
    -- what the check answers: the conflicts with their holders, the clear paths,
    the number of conflicting leases, and whether holders were left out. *)
Record CheckReport := mkReport {
  cr_conflicts : list (ustr * list ReservationRef); cr_clear : list ustr; cr_total : nat; cr_emitted : nat; cr_truncated : bool;
}.

(** @src tools/src/reservations.rs:1844-1897 check_file_reservation_conflicts
    -- the loop over the paths. *)
Definition check_path (ix : ReservationIndex) (rep : CheckReport) (path : ustr) : CheckReport :=
  let found := find_conflicts ix (compiled_new path) in
  let refs := dedup_refs (merge_sort ref_le found) in
  let total := (cr_total rep + length found)%nat in
  match refs with
  | [] => mkReport (cr_conflicts rep) (cr_clear rep ++ [path]) total (cr_emitted rep) (cr_truncated rep)
  | _ =>
      let emit := Nat.min (Nat.min (length refs) MAX_CONFLICT_HOLDERS_PER_PATH)
                    (MAX_CONFLICT_HOLDERS_TOTAL - cr_emitted rep) in
      mkReport (cr_conflicts rep ++ [(path, take emit refs)]) (cr_clear rep) total (cr_emitted rep + emit)
        (cr_truncated rep || (emit <? length refs)%nat)
  end.

(** @src tools/src/reservations.rs:1689-1925 check_file_reservation_conflicts
    -- of a project and a caller resolved in the snapshot of [db]. *)
Definition check_file_reservation_conflicts (project : Z) (root : ustr) (caller : Z) (holder : Z -> option ustr)
    (paths : list ustr) (captured_ts : Z) (db : LeaseDb) : CheckError + CheckReport :=
  _ ← validate_conflict_check_paths paths;
  match reservation_snapshot project captured_ts MAX_CONFLICT_CHECK_SNAPSHOT_ROWS db with
  | None => inl SnapshotTooLarge
  | Some rows =>
      normalized ← try_map (check_one_path root) paths;
      indexed ← index_others caller holder rows;
      inr (foldl (check_path (index_build indexed)) (mkReport [] [] 0 0 false) (first_occurrences [] normalized))
  end.

(** ** Filters of releases and renewals *)

(** @src tools/src/reservations.rs:1440-1490 renewal_filter_matches *)
Definition renewal_filter_matches (agent : Z) (paths : option (list ustr)) (ids : option (list Z))
    (row : FileReservationRow) : bool :=
  not_released row && (fr_agent row =? agent) &&
  match ids with None => true | Some ids => bool_decide (fr_id row ∈ ids) end &&
  match paths with
  | None => true
  | Some patterns => existsb (fun pat => ustr_eqb (fr_path row) pat ||
                                overlaps (compiled_new pat) (compiled_new (fr_path row))) patterns
  end.

(** @src tools/src/reservations.rs:1492-1503 collect_previous_expiries *)
Definition collect_previous_expiries (rows : list FileReservationRow) (agent : Z) (paths : option (list ustr))
    (ids : option (list Z)) : gmap Z Z :=
  list_to_map (map (fun r => (fr_id r, fr_expires r)) (List.filter (renewal_filter_matches agent paths ids) rows)).

(** @src tools/src/reservations.rs:2764-2833 release_file_reservations
    -- the ids to release; [None] releases all.  Paths are not narrowed by ids, and
    an id selects all leases on its path. *)
Definition release_ids (existing : list FileReservationRow) (agent : Z) (paths : option (list ustr))
    (ids : option (list Z)) : option (list Z) :=
  match paths, ids with
  | None, None => None
  | _, _ =>
      let selected := List.filter (renewal_filter_matches agent paths (match paths with None => ids | Some _ => None end)) existing in
      let chosen := match ids with
                    | None => selected
                    | Some _ => List.filter (fun r => renewal_filter_matches agent None None r &&
                                  existsb (fun s => ustr_eqb (fr_path s) (fr_path r)) selected) existing
                    end in
      Some (merge_sort Z.le (elements (list_to_set (map fr_id chosen) : gset Z)))
  end.
End vetting.
End paths.

(** ** Reservation requests: paths stay in the project, checks agree *)

(** ** Relative paths *)

Lemma push_part_None pieces : foldl push_part None pieces = None.
Proof. by induction pieces. Qed.

Lemma push_part_good parts piece parts' : forallb (fun c => negb (is_separator c)) piece = true ->
  Forall good_component parts -> push_part (Some parts) piece = Some parts' -> Forall good_component parts'.
Proof.
  intros Hw Hg. unfold push_part. cbn [mbind option_bind].
  destruct (ustr_eqb piece [] || _) eqn:E1; [by intros [= <-]|].
  destruct (ustr_eqb piece (u "..")) eqn:E2.
  - destruct parts as [|p parts]; [done|]. intros H. injection H as <-. by apply (removelast_Forall _ (p :: parts)).
  - intros [= <-]. apply orb_false_iff in E1 as [E1 E3]. apply ustr_eqb_neq in E1, E2, E3.
    apply Forall_app. split; [done|]. constructor; [done|constructor].
Qed.

Lemma path_parts_good input parts : path_parts input = Some parts -> Forall good_component parts.
Proof.
  unfold path_parts.
  assert (forall ws ps, (forall w, In w ws -> forallb (fun c => negb (is_separator c)) w = true) ->
    Forall good_component ps -> foldl push_part (Some ps) ws = Some parts -> Forall good_component parts) as H.
  { induction ws as [|w ws IH]; intros ps Hws Hps; cbn [foldl]; [by intros [= <-]|].
    destruct (push_part (Some ps) w) as [ps'|] eqn:E; [|by rewrite push_part_None].
    apply IH; [intros; apply Hws; by right|]. eapply push_part_good; [|done|done]. apply Hws. by left. }
  apply H; [|constructor]. intros w. apply split_on_pieces.
Qed.

(** What a path does below the top, it does below any directory. *)
Lemma push_part_under rp ws : forall ps parts,
  foldl push_part (Some ps) ws = Some parts -> foldl push_part (Some (rp ++ ps)) ws = Some (rp ++ parts).
Proof.
  induction ws as [|w ws IH]; intros ps parts; cbn [foldl]; [by intros [= <-]|].
  destruct (push_part (Some ps) w) as [ps'|] eqn:E; [|by rewrite push_part_None]. intros H.
  apply IH in H. rewrite <- H. f_equal. unfold push_part in *. cbn [mbind option_bind] in *.
  destruct (_ || _); [congruence|]. destruct (ustr_eqb w (u "..")).
  - destruct ps as [|p ps]; [done|]. injection E as <-. destruct (rp ++ p :: ps) eqn:Er; [by destruct rp|].
    rewrite <- Er. rewrite removelast_app by done. done.
  - injection E as <-. by rewrite app_assoc.
Qed.

Lemma split_on_sep p c s t : p c = true -> split_on p (s ++ c :: t) = split_on p s ++ split_on p t.
Proof.
  intros Hc. induction s as [|d s IH]; cbn [app split_on]; [by rewrite Hc|].
  destruct (p d); rewrite IH; [done|]. destruct (split_on p s) eqn:E; [by destruct (split_on_nonempty p s)|done].
Qed.

Lemma strip_parts_spec root : forall parts rest, strip_parts root parts = Some rest <-> parts = root ++ rest.
Proof.
  induction root as [|r root IH]; intros [|p parts] rest; cbn [strip_parts app]; try (split; congruence).
  destruct (ustr_eqb p r) eqn:E; [apply ustr_eqb_eq in E as ->; rewrite IH; split; congruence|].
  apply ustr_eqb_neq in E. split; congruence.
Qed.

(** A relativised path names the same file, inside the project.  Whatever is
    requested (absolute or relative, with [.] and [..] components, either kind of
    slash, [~]), if it is accepted then reading it from the project directory
    leads to the project directory followed by the components of the result, and
    these are plain names: none is empty, [.] or [..], or holds a separator. *)
Theorem relativize_path_contained expand_tilde project_root path rel root_parts :
  relativize_path expand_tilde project_root path = Some rel ->
  path_parts (expand_tilde project_root) = Some root_parts ->
  let target := if path_looks_absolute (expand_tilde path) then expand_tilde path
                else expand_tilde project_root ++ [slash] ++ expand_tilde path in
  exists parts, rel = join [slash] parts /\ Forall good_component parts /\
    path_parts target = Some (root_parts ++ parts).
Proof.
  unfold relativize_path. intros Hrel Hroot. apply bind_Some in Hrel as (parts & Hp & Hrel).
  pose proof (path_parts_good _ _ Hp) as Hg. cbv zeta. destruct (path_looks_absolute (expand_tilde path)).
  - rewrite Hroot in Hrel. cbn [mbind option_bind] in Hrel. apply bind_Some in Hrel as (rest & Hs & [= <-]).
    apply strip_parts_spec in Hs as ->. exists rest. split_and!; [done| |done]. by apply Forall_app in Hg as [_ ?].
  - injection Hrel as <-. exists parts. split_and!; [done|done|]. unfold path_parts in *. cbn [app].
    rewrite split_on_sep, foldl_app, Hroot by done. rewrite <- (app_nil_r root_parts) at 1. by apply push_part_under.
Qed.

Lemma relativize_path_contained_witness :
  relativize_path id (u "/srv/app") (u "src/./lib/../main.rs") = Some (u "src/main.rs") /\
  (exists parts, u "src/main.rs" = join [slash] parts /\
     path_parts (u "/srv/app/src/./lib/../main.rs") = Some ([u "srv"; u "app"] ++ parts)) /\
  relativize_path id (u "/srv/app") (u "src/../../etc/passwd") = None.
Proof.
  assert (relativize_path id (u "/srv/app") (u "src/./lib/../main.rs") = Some (u "src/main.rs")) as E by (vm_compute; reflexivity).
  split_and!; [exact E| |vm_compute; reflexivity].
  destruct (relativize_path_contained id (u "/srv/app") (u "src/./lib/../main.rs") (u "src/main.rs") [u "srv"; u "app"] E
    ltac:(vm_compute; reflexivity)) as (parts & Hr & _ & Ht).
  exists parts. split; [exact Hr|]. exact Ht.
Defined.

(** A relative path without outer white space is its own normal form; in
    particular it is not the project root. *)
Lemma relativized_below_root expand_tilde root path rel :
  relativize_path expand_tilde root path = Some rel -> rel <> [] -> trimmed rel ->
  normalize_pattern rel = rel.
Proof.
  unfold relativize_path. intros (parts & Hp%path_parts_good & Hrel)%bind_Some _ Ht.
  destruct (path_looks_absolute _).
  - apply bind_Some in Hrel as (rp & _ & (rest & Hs%strip_parts_spec & [= <-])%bind_Some).
    apply normalize_pattern_fixed; [|done]. subst parts. by apply Forall_app in Hp as [_ ?].
  - injection Hrel as <-. by apply normalize_pattern_fixed.
Qed.

(** White space is the exception: this request passes every check of the tool,
    and the pattern stored for it is the whole project. *)
Lemma blank_component_reserves_root :
  detect_suspicious_file_reservation (u "./ /.") = None /\
  normalize_path (GE := simple_engine) id (u "/srv/app") (u "./ /.") = inr (u " ") /\
  normalize_pattern (u " ") = [].
Proof. vm_compute. done. Qed.

(** ** Lists *)

Lemma try_map_inr {E A B} (f : A -> E + B) l : forall ys, try_map f l = inr ys -> Forall2 (fun x y => f x = inr y) l ys.
Proof.
  induction l as [|x l IH]; intros ys; cbn [try_map]; [intros [= <-]; constructor|].
  intros (y & Hy & (ys' & Hys & [= <-])%result_bind_inr)%result_bind_inr. constructor; auto.
Qed.

Lemma first_occurrences_In l : forall seen x, In x (first_occurrences seen l) <-> In x l /\ ~ In x seen.
Proof.
  induction l as [|y l IH]; intros seen x; cbn [first_occurrences In]; [tauto|].
  destruct (existsb (ustr_eqb y) seen) eqn:E.
  - apply existsb_exists in E as (z & Hz & <-%ustr_eqb_eq). rewrite IH. split; [tauto|].
    intros [[->|?] ?]; [done|done].
  - assert (~ In y seen) as Hy.
    { intros Hin. apply not_true_iff_false in E. apply E, existsb_exists. exists y. split; [done|apply ustr_eqb_refl]. }
    cbn [In]. rewrite IH. cbn [In]. destruct (decide (y = x)) as [->|]; naive_solver.
Qed.

(** ** Conflicts found by the index *)

Section conflicts.
  Context {GE : GlobEngine} {GL : GlobLaws}.

Lemma find_conflicts_In rs raw ref : In ref (find_conflicts (index_build rs) (compiled_new raw)) <->
  exists raw', In (raw', ref) rs /\ overlaps (compiled_new raw') (compiled_new raw) = true.
Proof.
  unfold find_conflicts. rewrite in_map_iff. split.
  - intros ([cp r] & <- & Hin). rewrite (find_conflicts_hits _ _ raw (index_build_rep rs)) in Hin.
    apply filter_In in Hin as [Hin Ho]. apply in_map_iff in Hin as ([raw' r'] & [= <- <-] & Hin). eauto.
  - intros (raw' & Hin & Ho). exists (compiled_new raw', ref). split; [done|].
    rewrite (find_conflicts_hits _ _ raw (index_build_rep rs)). apply filter_In. split; [|done].
    apply in_map_iff. by exists (raw', ref).
Qed.

Lemma find_conflicts_nil rs raw : find_conflicts (index_build rs) (compiled_new raw) = [] <->
  forall raw' ref, In (raw', ref) rs -> overlaps (compiled_new raw') (compiled_new raw) = false.
Proof.
  split.
  - intros Hn raw' ref Hin. apply not_true_iff_false. intros Ho.
    assert (In ref (find_conflicts (index_build rs) (compiled_new raw))) as H by (apply find_conflicts_In; eauto).
    by rewrite Hn in H.
  - intros H. destruct (find_conflicts _ _) as [|ref refs] eqn:E; [done|].
    assert (In ref (find_conflicts (index_build rs) (compiled_new raw))) as Hin by (rewrite E; by left).
    apply find_conflicts_In in Hin as (raw' & Hin & Ho). by rewrite (H _ _ Hin) in Ho.
Qed.

(** [r] conflicts with a request for [path]. *)
Definition blocks (agent : Z) (is_exclusive : bool) (path : ustr) (r : FileReservationRow) : bool :=
  in_the_way agent is_exclusive r && overlaps (compiled_new (fr_path r)) (compiled_new path).

Lemma request_index_In agent ex active path ref :
  In ref (find_conflicts (request_index agent ex active) (compiled_new path)) <->
  exists r, In r active /\ blocks agent ex path r = true /\ ref = snd (reservation_ref r).
Proof.
  unfold request_index. rewrite find_conflicts_In. unfold blocks. split.
  - intros (raw' & (r & [= <- <-] & [Hr Hw]%filter_In)%in_map_iff & Ho). exists r. by rewrite Hw, Ho.
  - intros (r & Hr & [Hw Ho]%andb_true_iff & ->). exists (fr_path r). split; [|done].
    apply in_map_iff. exists r. split; [done|]. by apply filter_In.
Qed.

Lemma request_index_nil agent ex active path :
  find_conflicts (request_index agent ex active) (compiled_new path) = [] <->
  forall r, In r active -> blocks agent ex path r = false.
Proof.
  split.
  - intros Hn r Hr. apply not_true_iff_false. intros Hb.
    assert (In (snd (reservation_ref r)) []) as []. rewrite <- Hn. apply request_index_In. eauto.
  - intros H. destruct (find_conflicts _ _) as [|ref refs] eqn:E; [done|].
    assert (In ref (find_conflicts (request_index agent ex active) (compiled_new path))) as Hin by (rewrite E; by left).
    apply request_index_In in Hin as (r & Hr & Hb & _). by rewrite H in Hb.
Qed.

Lemma split_paths_spec ix paths :
  (forall p, In p (fst (split_paths ix paths)) <-> In p paths /\ find_conflicts ix (compiled_new p) = []) /\
  (forall p refs, In (p, refs) (snd (split_paths ix paths)) <->
     In p paths /\ refs = find_conflicts ix (compiled_new p) /\ refs <> []).
Proof.
  induction paths as [|path paths [IH1 IH2]]; cbn [split_paths]; [cbn; tauto|].
  destruct (split_paths ix paths) as [grants conflicts]. cbn [fst snd] in *.
  destruct (find_conflicts ix (compiled_new path)) as [|ref refs] eqn:E; cbn [fst snd In].
  - split; [intros p; rewrite IH1; naive_solver|]. intros p rs. rewrite IH2. naive_solver congruence.
  - split; [intros p; rewrite IH1; naive_solver congruence|]. intros p rs. rewrite IH2.
    split; [intros [[= <- <-]|?]; [by rewrite E; auto|naive_solver]|].
    intros ([<-|?] & Hrs & Hne); [left; congruence|right; auto].
Qed.

Lemma active_In project now db r : In r (get_active_reservations project now db) <->
  In r (lease_rows db) /\ fr_project r = project /\ live db now r = true.
Proof.
  unfold get_active_reservations, select_rows. rewrite !filter_In, !andb_true_iff, negb_true_iff, live_spec, Z.eqb_eq, Z.ltb_lt.
  rewrite bool_decide_eq_false, <- eq_None_not_Some. tauto.
Qed.

(** ** Requests *)

(** The check of the tool and that of the transaction look for the same leases. *)
Lemma blocks_candidate db now c paths path r : lease_wf db -> In r (lease_rows db) ->
  fr_project r = rc_project c -> live db now r = true ->
  conflict_candidate db now (call_request c paths) r && overlaps (compiled_new (fr_path r)) (compiled_new path) =
  blocks (rc_agent c) (default true (rc_exclusive c)) path r.
Proof.
  intros Hwf Hr Hp Hl. unfold conflict_candidate, blocks, in_the_way, call_request. cbn [lr_project lr_agent lr_exclusive].
  rewrite Hp, Hl, Z.eqb_refl, andb_true_r. cbn [andb].
  destruct (fr_agent r =? rc_agent c); cbn [negb andb]; [done|]. destruct (default true (rc_exclusive c)); [done|].
  cbn [orb]. by destruct (lw_row _ Hwf r Hr) as (_ & _ & [->| ->]).
Qed.

Lemma plan_clear agents c seen_at now db normalized : lease_wf db -> seen_at <= now ->
  Forall (fun p => normalize_pattern p <> []) normalized ->
  ensure_agents_active agents [rc_agent c] (Some (rc_project c)) = inr tt ->
  let to_grant := fst (plan_request (rc_agent c) (default true (rc_exclusive c))
                         (get_active_reservations (rc_project c) seen_at db) normalized) in
  exists rows db', create_lease_tx agents (call_request c to_grant) now db = inr (rows, db') /\
    (forall path, In path to_grant -> granted now (call_request c normalized) db' path) /\
    select_rows (foreign (call_request c normalized)) db' = select_rows (foreign (call_request c normalized)) db /\
    releases db' = releases db.
Proof.
  intros Hwf Ht Hn Hag to_grant.
  assert (forall p, In p to_grant -> In p normalized /\ forall r, In r (get_active_reservations (rc_project c) seen_at db) ->
            blocks (rc_agent c) (default true (rc_exclusive c)) p r = false) as Hto.
  { intros p Hp. apply (split_paths_spec _ _) in Hp as [Hin%first_occurrences_In Hnil].
    split; [tauto|]. by apply request_index_nil. }
  assert (Forall (fun p => normalize_pattern p <> []) to_grant) as Hn'.
  { apply List.Forall_forall. intros p Hp. rewrite List.Forall_forall in Hn. by apply Hn, Hto. }
  unfold create_lease_tx. change (lr_agent (call_request c to_grant)) with (rc_agent c).
  change (lr_project (call_request c to_grant)) with (rc_project c). rewrite Hag.
  pose proof (find_busy_spec now (call_request c to_grant) db to_grant Hwf Hn') as Hb.
  change (lr_paths (call_request c to_grant)) with to_grant. destruct (find_busy _ to_grant) as [[path held]|].
  - exfalso. destruct Hb as (Hp & r & Hr & Hc & _ & Ho). apply Hto in Hp as [_ Hno].
    pose proof Hc as Hc'. unfold conflict_candidate in Hc'. apply andb_true_iff in Hc' as [Hc' _]. breflect.
    assert (In r (get_active_reservations (rc_project c) seen_at db)) as Hact.
    { apply active_In. split_and!; try done. unfold live in *. apply andb_true_iff.
      match goal with H : is_active db r && (now <? fr_expires r) = true |- _ => apply andb_true_iff in H as [Hac Hex] end.
      breflect. split; [done|apply Z.ltb_lt; lia]. }
    specialize (Hno r Hact). rewrite <- (blocks_candidate db now c to_grant) in Hno by done.
    by rewrite Hc, Ho in Hno.
  - pose proof (grant_all_granted now (call_request c to_grant) to_grant ([], db) Hwf Hn') as (H1 & H2 & H3).
    cbn [snd] in *. destruct (foldl _ ([], db) to_grant) as [rows db']. exists rows, db'.
    split_and!; [done| |exact H2|exact H3]. intros path Hp. apply H1. by left.
Qed.

(** C20: a reservation request grants exactly the free paths.  When no other
    transaction comes between the check and the grant, and the clock does not go
    back between the two, a well-formed request of an active agent, none of whose
    paths is the project root, succeeds, and for each of its (normalised) paths: if
    no lease of another agent that is live at the check overlaps it, the caller ends
    up holding an active lease on it with the requested mode, reason and (clamped)
    time counted from the grant, and no conflict is reported for it; otherwise the
    conflict is reported with exactly the leases that block it at the check.  Rows
    of other agents and the release ledger do not change. *)
Theorem reserve_grants_free_paths expand_tilde agents c seen_at now db t' fresh normalized :
  lease_wf db -> seen_at <= now -> ensure_agents_active agents [rc_agent c] (Some (rc_project c)) = inr tt ->
  rc_paths c <> [] -> (length (rc_paths c) <= MAX_PATHS_PER_CALL)%nat ->
  request_paths expand_tilde (rc_root c) (rc_paths c) = inr normalized ->
  Forall (fun p => normalize_pattern p <> []) normalized ->
  let blocking path r := In r (lease_rows db) /\ fr_project r = rc_project c /\ live db seen_at r = true /\
                         blocks (rc_agent c) (default true (rc_exclusive c)) path r = true in
  exists rows conflicts db',
    file_reservation_paths expand_tilde agents c seen_at db now db t' fresh = inr (rows, conflicts, db') /\
    (forall path, In path normalized ->
       (forall r, ~ blocking path r) /\ granted now (call_request c normalized) db' path /\
         (forall refs, ~ In (path, refs) conflicts) \/
       (exists r, blocking path r) /\
         exists refs, In (path, refs) conflicts /\
           (forall ref, In ref refs <-> exists r, blocking path r /\ ref = snd (reservation_ref r))) /\
    select_rows (foreign (call_request c normalized)) db' = select_rows (foreign (call_request c normalized)) db /\
    releases db' = releases db.
Proof.
  intros Hwf Hle Hag Hne Hlen Hreq Hn blocking. unfold file_reservation_paths.
  rewrite bool_decide_eq_false_2 by done. replace (_ <? _)%nat with false by (symmetry; by apply Nat.ltb_ge).
  rewrite Hreq. destruct (plan_clear agents c seen_at now db normalized Hwf Hle Hn Hag) as (rows & db' & Hc & Hg & Hf & Hr).
  set (active := get_active_reservations (rc_project c) seen_at db) in *.
  set (ex := default true (rc_exclusive c)) in *.
  assert (forall path r, blocking path r <-> In r active /\ blocks (rc_agent c) ex path r = true) as Hbl.
  { intros path r. unfold blocking, active. rewrite active_In. tauto. }
  pose proof (split_paths_spec (request_index (rc_agent c) ex active) (first_occurrences [] normalized)) as [S1 S2].
  change (split_paths _ _) with (plan_request (rc_agent c) ex active normalized) in S1, S2.
  destruct (plan_request (rc_agent c) ex active normalized) as [to_grant conflicts] eqn:Eplan. cbn [fst snd] in *.
  assert (forall path, In path normalized ->
    (In path to_grant /\ (forall r, ~ blocking path r) /\ (forall refs, ~ In (path, refs) conflicts)) \/
    ((exists r, blocking path r) /\ exists refs, In (path, refs) conflicts /\
       (forall ref, In ref refs <-> exists r, blocking path r /\ ref = snd (reservation_ref r)))) as Hsplit.
  { intros path Hp. destruct (find_conflicts (request_index (rc_agent c) ex active) (compiled_new path)) as [|ref refs] eqn:E.
    - left. split_and!; [apply S1; rewrite first_occurrences_In; auto| |].
      + intros r [Hin Hb]%Hbl. rewrite (proj1 (request_index_nil _ _ _ _) E r Hin) in Hb. done.
      + intros refs (_ & -> & Hnn)%S2. by rewrite E in Hnn.
    - right. assert (In ref (find_conflicts (request_index (rc_agent c) ex active) (compiled_new path))) as Hin
        by (rewrite E; by left).
      apply request_index_In in Hin as (r & Hin & Hb & _). split; [exists r; by apply Hbl|].
      exists (find_conflicts (request_index (rc_agent c) ex active) (compiled_new path)). split.
      + apply S2. rewrite first_occurrences_In. split_and!; [done|by intros []|done|by rewrite E].
      + intros ref'. rewrite request_index_In.
        split; [intros (r' & ? & ? & ?)|intros (r' & [? ?]%Hbl & ?)]; exists r'; [by rewrite Hbl|done]. }
  destruct (bool_decide (to_grant = [])) eqn:Et.
  - apply bool_decide_eq_true in Et as ->. exists [], conflicts, db. split_and!; try done.
    intros path Hp. destruct (Hsplit path Hp) as [[[] _]|?]. by right.
  - rewrite Hc. exists rows, conflicts, db'. split_and!; [done| |done|done].
    intros path Hp. destruct (Hsplit path Hp) as [(Ht & Hno & Hnc)|?]; [left|by right]. auto.
Qed.

(** ** The read-only check *)

Lemma reservation_snapshot_all project now max db rows : reservation_snapshot project now max db = Some rows ->
  forall r, In r rows <-> In r (lease_rows db) /\ fr_project r = project /\ live db now r = true.
Proof.
  unfold reservation_snapshot. destruct (max <? _)%nat eqn:E; [done|]. intros [= <-]. apply Nat.ltb_ge in E.
  rewrite length_take in E. intros r. rewrite take_ge by lia. unfold select_rows.
  by rewrite filter_In, andb_true_iff, Z.eqb_eq.
Qed.

Lemma index_others_In caller holder rows : forall indexed, index_others caller holder rows = inr indexed ->
  forall raw ref, In (raw, ref) indexed <->
    exists r, In r rows /\ in_the_way caller false r = true /\ (raw, ref) = reservation_ref r.
Proof.
  induction rows as [|r rows IH]; intros indexed; cbn [index_others].
  { intros [= <-] raw ref. cbn. naive_solver. }
  unfold in_the_way in *. destruct (fr_agent r =? caller) eqn:Ea; cbn [orb];
    [|destruct (fr_exclusive r =? 0) eqn:Ex].
  1-2: intros H raw ref; rewrite (IH _ H); split; [naive_solver|];
       intros (r' & [<-|Hr] & Hw & E); [rewrite ?Ea, ?Ex in Hw; done|eauto].
  destruct (holder (fr_agent r)); [|done].
  match goal with |- context [if ?b then _ else _] => destruct b; [done|] end.
  intros (rest & Hrest & [= <-])%result_bind_inr raw ref. cbn [In]. rewrite (IH _ Hrest). unfold reservation_ref. split.
  - intros [[= <- <-]|(r' & ? & ? & ?)]; [exists r|exists r'; auto]. rewrite Ea, Ex. auto.
  - intros (r' & [<-|Hr] & Hw & E); [left; by rewrite E, Ex|right; eauto].
Qed.

Lemma dedup_refs_In x l : In x (dedup_refs l) -> In x l.
Proof.
  induction l as [|a l IH]; [done|]. destruct l as [|b l]; [done|]. cbn [dedup_refs] in *.
  destruct (_ && _).
  - destruct (dedup_refs (b :: l)) as [|y r] eqn:E; cbn [dedup_refs] in E, IH; rewrite E in *.
    + intros [<-|[]]. by left.
    + intros [<-|Hx]; [by left|]. right. apply IH. by right.
  - intros [<-|Hx]; [by left|]. right. auto.
Qed.

Lemma dedup_refs_nil l : dedup_refs l = [] <-> l = [].
Proof.
  destruct l as [|a [|b l]]; cbn [dedup_refs]; [done|done|]. destruct (_ && _); [|done].
  destruct (dedup_refs (b :: l)) eqn:E; cbn [dedup_refs] in E; by rewrite E.
Qed.

Lemma sorted_refs_nil l : dedup_refs (merge_sort ref_le l) = [] <-> l = [].
Proof.
  rewrite dedup_refs_nil. pose proof (merge_sort_Permutation ref_le l) as Hp. split.
  - intros E. rewrite E in Hp. by apply Permutation_nil_l in Hp.
  - intros ->. by apply Permutation_nil_r in Hp.
Qed.

Lemma sorted_refs_In x l : In x (dedup_refs (merge_sort ref_le l)) -> In x l.
Proof. intros H%dedup_refs_In. by rewrite (merge_sort_Permutation ref_le l) in H. Qed.

Lemma check_paths_spec ix paths : forall rep,
  let rep' := foldl (check_path ix) rep paths in
  (forall p, In p (cr_clear rep') <-> In p (cr_clear rep) \/ (In p paths /\ find_conflicts ix (compiled_new p) = [])) /\
  (forall p, In p (map fst (cr_conflicts rep')) <->
     In p (map fst (cr_conflicts rep)) \/ (In p paths /\ find_conflicts ix (compiled_new p) <> [])) /\
  (forall p refs, In (p, refs) (cr_conflicts rep') -> In (p, refs) (cr_conflicts rep) \/
     forall ref, In ref refs -> In ref (find_conflicts ix (compiled_new p))).
Proof.
  induction paths as [|path paths IH]; intros rep; cbn [foldl In].
  { split_and!; [tauto..|]. intros p refs H. by left. }
  destruct (IH (check_path ix rep path)) as (H1 & H2 & H3). clear IH.
  remember (check_path ix rep path) as rep1 eqn:Er in *. unfold check_path in Er.
  destruct (dedup_refs _) as [|ref refs] eqn:E.
  - apply (proj1 (sorted_refs_nil _)) in E. subst rep1. cbn [cr_clear cr_conflicts] in *. split_and!; [| |exact H3].
    + intros p. rewrite H1, in_app_iff. cbn [In].
      split; [intros [[?|[<-|[]]]|[? ?]]|intros [?|[[<-|?] ?]]]; auto.
    + intros p. rewrite H2. split; [intros [?|[? ?]]; auto|]. intros [?|[[<-|?] ?]]; [by left|done|by right].
  - assert (find_conflicts ix (compiled_new path) <> []) as Hne by (intros E'; apply (proj2 (sorted_refs_nil _)) in E'; congruence).
    assert (forall x, In x (ref :: refs) -> In x (find_conflicts ix (compiled_new path))) as Hsub
      by (intros x Hx; apply sorted_refs_In; by rewrite E).
    subst rep1. cbn [cr_clear cr_conflicts] in *. split_and!.
    + intros p. rewrite H1. split; [intros [?|[? ?]]; auto|]. intros [?|[[<-|?] ?]]; [by left|done|by right].
    + intros p. rewrite H2, map_app, in_app_iff. cbn [In map fst].
      split; [intros [[?|[<-|[]]]|[? ?]]|intros [?|[[<-|?] ?]]]; auto.
    + intros p rs Hp. destruct (H3 p rs Hp) as [[Hin|[[= <- <-]|[]]]%in_app_iff|Hin]; [by left|right|by right].
      intros x Hx. apply Hsub. rewrite <- (take_drop (Nat.min (Nat.min (length (ref :: refs)) MAX_CONFLICT_HOLDERS_PER_PATH)
                    (MAX_CONFLICT_HOLDERS_TOTAL - cr_emitted rep)) (ref :: refs)). apply in_app_iff. by left.
Qed.

(** The read-only check is exact, or it refuses.  When the conflict check
    answers at all, each requested path has been made relative to the project;
    it is reported clear exactly when no live exclusive lease of another agent in
    the project overlaps it at the time of the snapshot, and as a conflict exactly
    when one does; and every holder shown is such a lease.  The caps on rows and
    holders never turn a conflict into a clear path. *)
Theorem conflict_check_exact expand_tilde project root caller holder paths now db rep :
  check_file_reservation_conflicts expand_tilde project root caller holder paths now db = inr rep ->
  exists normalized,
    Forall2 (fun path rel => relativize_path expand_tilde root path = Some rel) paths normalized /\
    forall p, In p normalized ->
      let blocking r := In r (lease_rows db) /\ fr_project r = project /\ live db now r = true /\
                        fr_agent r <> caller /\ fr_exclusive r <> 0 /\
                        overlaps (compiled_new (fr_path r)) (compiled_new p) = true in
      (In p (cr_clear rep) <-> forall r, ~ blocking r) /\
      (In p (map fst (cr_conflicts rep)) <-> exists r, blocking r) /\
      (forall refs ref, In (p, refs) (cr_conflicts rep) -> In ref refs ->
         exists r, blocking r /\ ref = snd (reservation_ref r)).
Proof.
  unfold check_file_reservation_conflicts. intros ([] & _ & H)%result_bind_inr.
  destruct (reservation_snapshot _ _ _ _) as [rows|] eqn:Es; [|done].
  apply result_bind_inr in H as (normalized & Hn & (indexed & Hi & [= <-])%result_bind_inr).
  exists normalized. split.
  { apply try_map_inr in Hn. eapply Forall2_impl; [exact Hn|]. intros path rel. unfold check_one_path.
    destruct (relativize_path expand_tilde root path) as [r|]; [|done]. by destruct (_ || _); [|intros [= <-]]. }
  intros p Hp. set (blocking := fun r : FileReservationRow => In r (lease_rows db) /\ fr_project r = project /\
    live db now r = true /\ fr_agent r <> caller /\ fr_exclusive r <> 0 /\
    overlaps (compiled_new (fr_path r)) (compiled_new p) = true).
  pose proof (reservation_snapshot_all _ _ _ _ _ Es) as Hrows.
  pose proof (index_others_In _ _ _ _ Hi) as Hin.
  destruct (check_paths_spec (index_build indexed) (first_occurrences [] normalized) (mkReport [] [] 0 0 false)) as (H1 & H2 & H3).
  assert (forall ref, In ref (find_conflicts (index_build indexed) (compiled_new p)) <->
            exists r, blocking r /\ ref = snd (reservation_ref r)) as Hfound.
  { intros ref. rewrite find_conflicts_In. split.
    - intros (raw' & (r & Hr%Hrows & Hw & E)%Hin & Ho). exists r. unfold reservation_ref in E. injection E as -> ->.
      split; [|done]. unfold in_the_way in Hw. destruct (fr_agent r =? caller) eqn:Ea; [done|]. breflect.
      unfold blocking. naive_solver.
    - intros (r & (Hr & Hpr & Hl & Ha & Hx & Ho) & ->). exists (fr_path r). split; [|done]. apply Hin. exists r.
      split_and!; [by apply Hrows| |done]. unfold in_the_way.
      replace (fr_agent r =? caller) with false by (symmetry; by apply Z.eqb_neq).
      apply negb_true_iff. by apply Z.eqb_neq. }
  assert (In p (first_occurrences [] normalized)) as Hp' by (rewrite first_occurrences_In; cbn; tauto).
  cbn [cr_clear cr_conflicts map In] in *.
  assert (find_conflicts (index_build indexed) (compiled_new p) = [] <-> forall r, ~ blocking r) as Hnil.
  { split.
    - intros E r Hb. assert (In (snd (reservation_ref r)) []) as []. rewrite <- E. apply Hfound. eauto.
    - intros Hno. destruct (find_conflicts _ _) as [|ref refs]; [done|].
      destruct (proj1 (Hfound ref) (or_introl eq_refl)) as (r & Hb & _). by destruct (Hno r). }
  split_and!.
  - transitivity (find_conflicts (index_build indexed) (compiled_new p) = []); [rewrite H1; tauto|exact Hnil].
  - rewrite H2. split.
    + intros [[]|[_ Hne]]. destruct (find_conflicts _ _) as [|ref refs]; [done|].
      destruct (proj1 (Hfound ref) (or_introl eq_refl)) as (r & Hb & _). by exists r.
    + intros [r Hb]. right. split; [done|]. intros E. by apply (proj1 Hnil E r).
  - intros refs ref Hr Href. destruct (H3 p refs Hr) as [[]|H]. by apply Hfound, H.
Qed.
End conflicts.

Definition witness_call : ReserveCall :=
  mkReserveCall 7 (u "/srv/app") 1 [u "docs/b.md"; u "docs/*.md"] (Some 5) None None.

Lemma reserve_grants_free_paths_witness :
  exists rows conflicts db',
    file_reservation_paths (GE := simple_engine) id witness_agents witness_call 300 witness_db 301 witness_db 302 witness_db =
      inr (rows, conflicts, db') /\
    granted 301 (call_request witness_call []) db' (u "docs/b.md") /\
    exists refs, In (u "docs/*.md", refs) conflicts.
Proof.
  destruct (lease_inv_reachable (GL := simple_laws) _ witness_reachable) as [Hwf _].
  destruct (reserve_grants_free_paths (GE := simple_engine) (GL := simple_laws) id witness_agents witness_call 300 301 witness_db 302 witness_db
    [u "docs/b.md"; u "docs/*.md"] Hwf ltac:(lia) ltac:(vm_compute; reflexivity) ltac:(discriminate) ltac:(vm_compute; lia)
    ltac:(vm_compute; reflexivity)) as (rows & conflicts & db' & Hc & Hpaths & _).
  { constructor; [vm_compute; discriminate|constructor; [vm_compute; discriminate|constructor]]. }
  assert (lease_rows witness_db = [mkLease 1 7 1 (u "src/*.rs") 1 (u "edit") 100 3600000100 None;
    mkLease 2 7 2 (u "docs/a.md") 1 (u "edit") 200 3600000200 None]) as Hrows by (vm_compute; reflexivity).
  exists rows, conflicts, db'. split_and!; [exact Hc| |].
  - destruct (Hpaths (u "docs/b.md") (or_introl eq_refl)) as [(_ & Hg & _)|[(r & Hr & _ & _ & Hb) _]]; [exact Hg|].
    exfalso. rewrite Hrows in Hr. destruct Hr as [<-|[<-|[]]]; vm_compute in Hb; discriminate.
  - destruct (Hpaths (u "docs/*.md") (or_intror (or_introl eq_refl))) as [(Hno & _)|[_ (refs & Hin & _)]]; [|by exists refs].
    exfalso. apply (Hno (mkLease 2 7 2 (u "docs/a.md") 1 (u "edit") 200 3600000200 None)).
    split_and!; [rewrite Hrows; right; by left|reflexivity|vm_compute; reflexivity|vm_compute; reflexivity].
Defined.

Lemma conflict_check_exact_witness :
  exists rep, check_file_reservation_conflicts (GE := simple_engine) id 7 (u "/srv/app") 1
      (fun _ => Some (u "RedStone")) [u "docs/b.md"; u "docs"] 300 witness_db = inr rep /\
    In (u "docs") (map fst (cr_conflicts rep)).
Proof.
  destruct (check_file_reservation_conflicts (GE := simple_engine) id 7 (u "/srv/app") 1
    (fun _ => Some (u "RedStone")) [u "docs/b.md"; u "docs"] 300 witness_db) as [e|rep] eqn:E; [vm_compute in E; discriminate|].
  exists rep. split; [done|].
  destruct (conflict_check_exact (GE := simple_engine) (GL := simple_laws) _ _ _ _ _ _ _ _ _ E) as (normalized & Hn & Hp).
  apply Forall2_cons_inv_l in Hn as (p1 & n1 & _ & Hn & ->).
  apply Forall2_cons_inv_l in Hn as (p2 & n2 & H2 & Hn & ->).
  assert (p2 = u "docs") as -> by (vm_compute in H2; injection H2 as <-; vm_compute; reflexivity).
  apply (Hp (u "docs")); [right; by left|].
  exists (mkLease 2 7 2 (u "docs/a.md") 1 (u "edit") 200 3600000200 None).
  assert (lease_rows witness_db = [mkLease 1 7 1 (u "src/*.rs") 1 (u "edit") 100 3600000100 None;
    mkLease 2 7 2 (u "docs/a.md") 1 (u "edit") 200 3600000200 None]) as Hrows by (vm_compute; reflexivity).
  split_and!; [rewrite Hrows; right; by left|reflexivity|vm_compute; reflexivity|cbn; lia|cbn; lia|vm_compute; reflexivity].
Defined.
