(* ===== verification/LeaseReleases.v ===== *)
(** * What a release changes

    The release primitive touches exactly the active leases its constraints
    allow; large filters are split without losing or adding a lease. *)

From S2P Require Import Prelude.
From S2P Require Import RustStr.
From S2P Require Import Pattern.
From S2P Require Import GlobSimple.
From S2P Require Import Leases.
From S2P Require Import LeasesProps.

(** ** The release primitive *)

Section release.
  Context (act : Activity) (c : ExpiryConstraint) (s : option ReleaseScope) (g : option StaleGuard).

(** What the constraints say of one row. *)
Definition release_allowed (r : FileReservationRow) : bool :=
  expiry_allows c r && match s with None => true | Some s => scope_allows s r end &&
  match g with
  | None => true
  | Some g => match sg_candidates g !! fr_id r with
              | None => false
              | Some cand => same_lease (sc_row cand) r && stale_activity_still_matches act g cand
              end
  end.

Lemma release_eligible_row db r : lease_wf db -> In r (lease_rows db) ->
  release_eligible act c s g db (fr_id r) = is_active db r && release_allowed r.
Proof.
  intros Hwf Hr.
  assert (forall f, existsb (fun r' => (fr_id r' =? fr_id r) && f r') (lease_rows db) = f r) as Hone.
  { intros f. apply eq_true_iff_eq. rewrite existsb_exists. split.
    - intros (r' & Hr' & H). breflect. by rewrite <- (lease_key db r' r).
    - intros Hf. exists r. by rewrite Z.eqb_refl. }
  unfold release_eligible, release_allowed. cbv zeta.
  assert (forall extra, existsb (fun r' => (fr_id r' =? fr_id r) && is_active db r' && expiry_allows c r' &&
      match s with None => true | Some s => scope_allows s r' end && extra r') (lease_rows db) =
    is_active db r && expiry_allows c r && match s with None => true | Some s => scope_allows s r end && extra r) as Hcheck.
  { intros extra. rewrite <- (Hone (fun r => is_active db r && expiry_allows c r &&
      match s with None => true | Some s => scope_allows s r end && extra r)).
    apply eq_true_iff_eq. rewrite !existsb_exists. setoid_rewrite andb_true_iff. setoid_rewrite andb_true_iff.
    setoid_rewrite andb_true_iff. setoid_rewrite andb_true_iff. naive_solver. }
  destruct g as [g'|]; [|rewrite Hcheck, !andb_true_r; by rewrite !andb_assoc].
  destruct (sg_candidates g' !! fr_id r) as [cand|]; [|by rewrite !andb_false_r].
  rewrite Hcheck. by rewrite !andb_assoc.
Qed.

(** A row one step of the loop leaves alone. *)
Lemma release_one_keeps acc id r : In r (lease_rows (snd (snd acc))) ->
  fr_id r <> id \/ release_eligible act c s g (snd (snd acc)) id = false ->
  In r (lease_rows (snd (snd (release_one act c s g acc id)))) /\
  is_active (snd (snd (release_one act c s g acc id))) r = is_active (snd (snd acc)) r.
Proof.
  destruct acc as [out [m db]]. cbn [snd]. intros Hr Hid. unfold release_one.
  destruct (release_eligible act c s g db id) eqn:E; [|done]. destruct Hid as [Hid|]; [|done]. cbn [snd]. split.
  - unfold insert_release. cbn [lease_rows]. apply in_update_row. exists r. split; [done|].
    by replace (fr_id r =? id) with false by (symmetry; by apply Z.eqb_neq).
  - unfold is_active. f_equal. apply bool_decide_ext. rewrite releases_insert. tauto.
Qed.

Lemma release_one_wf acc id : lease_wf (snd (snd acc)) -> lease_wf (snd (snd (release_one act c s g acc id))).
Proof. intros H. by apply (release_one_shrinks act c s g 0 acc id). Qed.

(** Rows the constraints protect, and rows that are not active, are untouched. *)
Lemma release_fold_keeps ids : forall acc r, lease_wf (snd (snd acc)) -> In r (lease_rows (snd (snd acc))) ->
  is_active (snd (snd acc)) r && release_allowed r && bool_decide (fr_id r ∈ ids) = false ->
  let db' := snd (snd (foldl (release_one act c s g) acc ids)) in
  In r (lease_rows db') /\ is_active db' r = is_active (snd (snd acc)) r.
Proof.
  induction ids as [|id ids IH]; intros acc r Hwf Hr Hno; cbn [foldl]; [done|].
  destruct (release_one_keeps acc id r Hr) as [Hr' Ha'].
  { destruct (decide (fr_id r = id)) as [<-|]; [right|by left]. rewrite release_eligible_row by done.
    apply andb_false_iff in Hno as [Hno|Hno]; [done|]. apply bool_decide_eq_false in Hno. set_solver. }
  destruct (IH (release_one act c s g acc id) r (release_one_wf _ _ Hwf) Hr') as [H1 H2].
  { rewrite Ha'. apply andb_false_iff in Hno as [Hno|Hno]; [by rewrite Hno|]. apply bool_decide_eq_false in Hno.
    apply andb_false_iff. right. apply bool_decide_eq_false. set_solver. }
  by rewrite <- Ha'.
Qed.

(** [r] has been released by the transaction. *)
Definition settled (acc : release_acc) (r : FileReservationRow) : Prop :=
  exists ts, In (set_released (Some ts) r) (lease_rows (snd (snd acc))) /\
    releases (snd (snd acc)) !! fr_id r = Some ts /\ In (fr_id r) (map fst (fst acc)).

Lemma release_one_settles acc r : lease_wf (snd (snd acc)) -> In r (lease_rows (snd (snd acc))) ->
  is_active (snd (snd acc)) r = true -> release_allowed r = true ->
  settled (release_one act c s g acc (fr_id r)) r.
Proof.
  destruct acc as [out [m db]]. cbn [snd]. intros Hwf Hr Ha Hal. unfold release_one.
  rewrite release_eligible_row, Ha, Hal by done. cbn [andb]. exists m. cbn [fst snd]. split_and!.
  - unfold insert_release. cbn [lease_rows]. apply in_update_row. exists r. by rewrite Z.eqb_refl.
  - unfold insert_release. cbn [releases update_row set_rows]. unfold is_active in Ha.
    apply andb_true_iff in Ha as [_ Ha%bool_decide_eq_true]. rewrite Ha. apply lookup_insert_eq.
  - rewrite map_app. apply in_app_iff. right. by left.
Qed.

Lemma release_one_settled acc id r : lease_wf (snd (snd acc)) -> settled acc r -> settled (release_one act c s g acc id) r.
Proof.
  intros Hwf (ts & Hr & Hl & Hin). exists ts.
  destruct (release_one_keeps acc id _ Hr) as [Hr' _].
  { destruct (decide (fr_id r = id)) as [<-|]; [right|by left].
    change (fr_id r) with (fr_id (set_released (Some ts) r)). rewrite release_eligible_row by done.
    unfold is_active. change (fr_id (set_released (Some ts) r)) with (fr_id r). rewrite Hl. by rewrite andb_false_r. }
  destruct acc as [out [m db]]. unfold release_one in *. destruct (release_eligible act c s g db id); [|done].
  cbn [fst snd] in *. split_and!; [done| |rewrite map_app; apply in_app_iff; by left].
  unfold insert_release. cbn [releases update_row set_rows].
  destruct (releases db !! id) eqn:E; [done|]. rewrite lookup_insert_ne; [done|congruence].
Qed.

Lemma release_fold_settles ids : forall acc r, lease_wf (snd (snd acc)) ->
  settled acc r \/ (In r (lease_rows (snd (snd acc))) /\ is_active (snd (snd acc)) r = true /\
    release_allowed r = true /\ In (fr_id r) ids) ->
  settled (foldl (release_one act c s g) acc ids) r.
Proof.
  induction ids as [|id ids IH]; intros acc r Hwf Hr; cbn [foldl]; [by destruct Hr as [?|(_ & _ & _ & [])]|].
  apply IH; [by apply release_one_wf|]. destruct Hr as [Hr|(Hr & Ha & Hal & Hin)].
  - left. by apply release_one_settled.
  - destruct (decide (fr_id r = id)) as [<-|Hne]; [left; by apply release_one_settles|right].
    destruct (release_one_keeps acc id r Hr (or_introl Hne)) as [? ->]. destruct Hin as [->|]; done.
Qed.
End release.

(** A release takes exactly what its constraints allow.  In one release
    transaction, whatever its expiry constraint, scope and stale evidence, each
    active lease named by id that satisfies them is marked released in its row and
    in the ledger and is reported; every other row of the tables, named or not, is
    unchanged and is as active as before.  So a lease renewed, re-acquired or
    handed over since it was selected survives the sweep that selected it. *)
Theorem release_exact act c s g ids now db r :
  lease_wf db -> In r (lease_rows db) ->
  let '(markers, db') := release_by_ids act c s g ids now db in
  if is_active db r && release_allowed act c s g r && bool_decide (fr_id r ∈ ids)
  then exists ts, In (set_released (Some ts) r) (lease_rows db') /\ releases db' !! fr_id r = Some ts /\
    In (fr_id r) (map fst markers)
  else In r (lease_rows db') /\ is_active db' r = is_active db r.
Proof.
  intros Hwf Hr. unfold release_by_ids.
  pose proof (release_fold_settles act c s g ids ([], (now, db)) r Hwf) as Hs.
  pose proof (release_fold_keeps act c s g ids ([], (now, db)) r Hwf Hr) as Hk. unfold settled in Hs. cbn [snd fst] in *.
  destruct (foldl _ _ ids) as [markers [m db']]. cbn [snd fst] in *.
  destruct (is_active db r && _ && _) eqn:E; [|by apply Hk].
  breflect. apply Hs. right. split_and!; [done|done|done|]. by apply list_elem_of_In.
Qed.

Lemma release_exact_witness :
  let '(markers, db') := release_by_ids no_activity (OnOrBefore 3600000100) None None [1; 2] 3600000150 witness_db in
  is_active db' (mkLease 2 7 2 (u "docs/a.md") 1 (u "edit") 200 3600000200 None) = true /\ In 1 (map fst markers).
Proof.
  destruct (lease_inv_reachable (GL := simple_laws) _ witness_reachable) as [Hwf _].
  assert (lease_rows witness_db = [mkLease 1 7 1 (u "src/*.rs") 1 (u "edit") 100 3600000100 None;
    mkLease 2 7 2 (u "docs/a.md") 1 (u "edit") 200 3600000200 None]) as Hrows by (vm_compute; reflexivity).
  pose proof (release_exact no_activity (OnOrBefore 3600000100) None None [1; 2] 3600000150 witness_db
    (mkLease 1 7 1 (u "src/*.rs") 1 (u "edit") 100 3600000100 None) Hwf ltac:(rewrite Hrows; by left)) as H1.
  pose proof (release_exact no_activity (OnOrBefore 3600000100) None None [1; 2] 3600000150 witness_db
    (mkLease 2 7 2 (u "docs/a.md") 1 (u "edit") 200 3600000200 None) Hwf ltac:(rewrite Hrows; right; by left)) as H2.
  destruct (release_by_ids _ _ _ _ _ _ _) as [markers db'].
  destruct (is_active _ _ && _ && _) eqn:E1 in H1; [|vm_compute in E1; discriminate].
  destruct (is_active _ _ && _ && _) eqn:E2 in H2; [vm_compute in E2; discriminate|].
  destruct H1 as (ts & _ & _ & Hin), H2 as [_ ->]. split; [vm_compute; reflexivity|exact Hin].
Defined.

(** ** Splitting a large filter *)

Section chunks.
  Context {A : Type}.
  Implicit Types (l c : list A) (k : nat).

Lemma chunks_fuel_spec k fuel : forall l, (0 < k)%nat -> (length l <= fuel)%nat ->
  (forall c, In c (chunks_fuel fuel k l) -> (length c <= k)%nat /\ (length c <= length l)%nat) /\
  (forall x, In x l <-> exists c, In c (chunks_fuel fuel k l) /\ In x c).
Proof.
  induction fuel as [|fuel IH]; intros l Hk Hl; destruct l as [|a l]; simpl in Hl; try lia; cbn [chunks_fuel].
  - split; [done|]. naive_solver.
  - split; [done|]. naive_solver.
  - assert (length (drop k (a :: l)) <= fuel)%nat as Hd by (rewrite length_drop; cbn [length]; lia).
    destruct (IH _ Hk Hd) as [IH1 IH2]. rewrite length_drop in IH1. split.
    + intros c [<-|Hc]; [rewrite length_take; lia|]. destruct (IH1 c Hc). lia.
    + intros x. rewrite <- (take_drop k (a :: l)) at 1. rewrite in_app_iff, IH2. cbn [In]. split.
      * intros [Hx|(c & ? & ?)]; eauto.
      * intros (c & [<-|?] & ?); eauto.
Qed.

Lemma chunks_spec k l : (0 < k)%nat ->
  (forall c, In c (chunks k l) -> (length c <= k)%nat /\ (length c <= length l)%nat) /\
  (forall x, In x l <-> exists c, In c (chunks k l) /\ In x c).
Proof. intros Hk. by apply chunks_fuel_spec. Qed.
End chunks.

Definition chunk_limit (other : nat) : nat :=
  Nat.min MAX_RELEASE_RESERVATION_CHUNK_ITEMS (Nat.max (MAX_RELEASE_RESERVATION_FILTER_ITEMS - other) 1).

Lemma chunk_limit_pos n : (0 < chunk_limit n)%nat.
Proof. unfold chunk_limit, MAX_RELEASE_RESERVATION_CHUNK_ITEMS. lia. Qed.

Lemma chunk_limit_anti m n : (m <= n)%nat -> (chunk_limit n <= chunk_limit m)%nat.
Proof. unfold chunk_limit. lia. Qed.

(** How many of the two filters are too long. *)
Definition chunk_rank (paths ids : nat) : nat :=
  (Nat.b2n (chunk_limit paths <? ids)%nat + Nat.b2n (chunk_limit ids <? paths)%nat)%nat.

Definition fits (req : option (list ustr) * option (list Z)) : Prop :=
  (filter_count (snd req) <= MAX_RELEASE_RESERVATION_CHUNK_ITEMS)%nat /\
  (filter_count (fst req) <= MAX_RELEASE_RESERVATION_CHUNK_ITEMS)%nat /\
  (filter_count (fst req) + filter_count (snd req) + 3 <= SQLITE_MAX_BIND_PARAMS)%nat.

Lemma chunk_rank_drop big small n : (small <= chunk_limit n)%nat -> (small <= big)%nat -> (chunk_limit n < big)%nat ->
  (chunk_rank n small < chunk_rank n big)%nat /\ (chunk_rank small n < chunk_rank big n)%nat.
Proof.
  intros Hs Hb Hn. pose proof (chunk_limit_anti _ _ Hb) as Hanti. unfold chunk_rank.
  replace (chunk_limit n <? small)%nat with false by (symmetry; apply Nat.ltb_ge; lia).
  replace (chunk_limit n <? big)%nat with true by (symmetry; apply Nat.ltb_lt; lia).
  destruct (chunk_limit small <? n)%nat eqn:E1, (chunk_limit big <? n)%nat eqn:E2; cbn; try lia;
    apply Nat.ltb_lt in E1; apply Nat.ltb_ge in E2; lia.
Qed.

Lemma chunk_plan_spec paths ids :
  match release_reservation_chunk_plan paths ids with
  | None => (ids <= chunk_limit paths)%nat /\ (paths <= chunk_limit ids)%nat
  | Some (ChunkIds, k) => k = chunk_limit paths /\ (chunk_limit paths < ids)%nat
  | Some (ChunkPaths, k) => k = chunk_limit ids /\ (chunk_limit ids < paths)%nat
  end.
Proof.
  unfold release_reservation_chunk_plan. fold (chunk_limit paths). fold (chunk_limit ids).
  destruct (chunk_limit paths <? ids)%nat eqn:E1, (chunk_limit ids <? paths)%nat eqn:E2;
    rewrite ?Nat.ltb_lt, ?Nat.ltb_ge in *; [destruct (paths <=? ids)%nat|..]; done.
Qed.

Lemma lease_filter_ids ids paths r : lease_filter (Some ids) paths r = true <->
  In (fr_id r) ids /\ lease_filter None paths r = true.
Proof. unfold lease_filter. rewrite andb_true_iff, bool_decide_eq_true, list_elem_of_In. cbn [andb]. tauto. Qed.

Lemma lease_filter_paths ids paths r : lease_filter ids (Some paths) r = true <->
  In (fr_path r) paths /\ lease_filter ids None r = true.
Proof.
  unfold lease_filter. rewrite andb_true_r, andb_true_iff, existsb_exists.
  assert ((exists x, In x paths /\ ustr_eqb (fr_path r) x = true) <-> In (fr_path r) paths) as ->; [|tauto].
  split; [intros (x & ? & ->%ustr_eqb_eq); done|intros ?; exists (fr_path r); by rewrite ustr_eqb_refl].
Qed.

Lemma release_chunks_spec fuel : forall paths ids, (chunk_rank (filter_count paths) (filter_count ids) < fuel)%nat ->
  (forall req, In req (release_chunks fuel paths ids) -> fits req) /\
  (forall r, lease_filter ids paths r = true <->
     exists req, In req (release_chunks fuel paths ids) /\ lease_filter (snd req) (fst req) r = true).
Proof.
  induction fuel as [|fuel IH]; intros paths ids Hrank; [lia|]. cbn [release_chunks].
  pose proof (chunk_plan_spec (filter_count paths) (filter_count ids)) as Hplan.
  destruct (release_reservation_chunk_plan _ _) as [[[] k]|].
  - destruct Hplan as [-> Hbig]. destruct ids as [ids|]; [|cbn in Hbig; lia]. cbn [filter_count] in *.
    destruct (chunks_spec (chunk_limit (filter_count paths)) ids (chunk_limit_pos _)) as [Hlen Hcov].
    assert (forall c, In c (chunks (chunk_limit (filter_count paths)) ids) ->
      (chunk_rank (filter_count paths) (filter_count (Some c)) < fuel)%nat) as Hr.
    { intros c Hc. destruct (Hlen c Hc). destruct (chunk_rank_drop (length ids) (length c) (filter_count paths)); try done.
      cbn [filter_count]. lia. }
    split.
    + intros req (c & Hc & Hreq)%in_flat_map. by apply (IH paths (Some c) (Hr c Hc)).
    + intros r. rewrite lease_filter_ids, Hcov. split.
      * intros [(c & Hc & Hin) Hp]. destruct (proj1 (proj2 (IH paths (Some c) (Hr c Hc)) r)) as (req & ? & ?);
          [by apply lease_filter_ids|]. exists req. split; [apply in_flat_map; eauto|done].
      * intros (req & (c & Hc & Hreq)%in_flat_map & Hf).
        assert (lease_filter (Some c) paths r = true) as [? ?]%lease_filter_ids; [|eauto].
        apply (IH paths (Some c) (Hr c Hc)). eauto.
  - destruct Hplan as [-> Hbig]. destruct paths as [paths|]; [|cbn in Hbig; lia]. cbn [filter_count] in *.
    destruct (chunks_spec (chunk_limit (filter_count ids)) paths (chunk_limit_pos _)) as [Hlen Hcov].
    assert (forall c, In c (chunks (chunk_limit (filter_count ids)) paths) ->
      (chunk_rank (filter_count (Some c)) (filter_count ids) < fuel)%nat) as Hr.
    { intros c Hc. destruct (Hlen c Hc). destruct (chunk_rank_drop (length paths) (length c) (filter_count ids)); try done.
      cbn [filter_count]. lia. }
    split.
    + intros req (c & Hc & Hreq)%in_flat_map. by apply (IH (Some c) ids (Hr c Hc)).
    + intros r. rewrite lease_filter_paths, Hcov. split.
      * intros [(c & Hc & Hin) Hp]. destruct (proj1 (proj2 (IH (Some c) ids (Hr c Hc)) r)) as (req & ? & ?);
          [by apply lease_filter_paths|]. exists req. split; [apply in_flat_map; eauto|done].
      * intros (req & (c & Hc & Hreq)%in_flat_map & Hf).
        assert (lease_filter ids (Some c) r = true) as [? ?]%lease_filter_paths; [|eauto].
        apply (IH (Some c) ids (Hr c Hc)). eauto.
  - destruct Hplan as [Hi Hp]. split.
    + intros req [<-|[]]. unfold fits, chunk_limit, MAX_RELEASE_RESERVATION_CHUNK_ITEMS, SQLITE_MAX_BIND_PARAMS in *.
      cbn [fst snd]. lia.
    + intros r. split; [intros H; exists (paths, ids); cbn; auto|]. intros (req & [<-|[]] & H). done.
Qed.

Lemma chunk_rank_bound paths ids : (chunk_rank paths ids < 3)%nat.
Proof. unfold chunk_rank. destruct (_ <? _)%nat, (_ <? _)%nat; cbn; lia. Qed.

(** Splitting a release filter is complete and keeps within the limits.  The
    recursion stops at depth three; every request it issues binds at most 128 ids,
    128 paths and 999 parameters in all; and a lease passes the original filter
    exactly when it passes the filter of one of the requests. *)
Theorem release_chunks_complete paths ids :
  Forall fits (release_chunks 3 paths ids) /\
  (forall r, lease_filter ids paths r = existsb (fun req => lease_filter (snd req) (fst req) r) (release_chunks 3 paths ids)).
Proof.
  destruct (release_chunks_spec 3 paths ids (chunk_rank_bound _ _)) as [Hfit Hcov].
  split; [apply List.Forall_forall; exact Hfit|].
  intros r. apply eq_true_iff_eq. by rewrite existsb_exists, Hcov.
Qed.

(** ** The release of an owner's leases *)

Lemma markers_lookup (markers : list (Z * Z)) id : forall m : gmap Z Z,
  In id (map fst markers) \/ is_Some (m !! id) ->
  is_Some (foldl (fun (m : gmap Z Z) mk => <[fst mk := snd mk]> m) m markers !! id).
Proof.
  induction markers as [|[i t] markers IH]; intros m Hm; cbn [foldl map] in *; [by destruct Hm as [[]|]|].
  apply IH. destruct Hm as [[<-|Hin]|Hs]; cbn [fst snd]; [right|by left|right].
  - rewrite lookup_insert_eq. eauto.
  - destruct (decide (i = id)) as [->|]; [rewrite lookup_insert_eq; eauto|by rewrite lookup_insert_ne].
Qed.

(** What one or more releases have done to a row: [chosen] tells whether it was to go. *)
Definition released_if (chosen : bool) (db : LeaseDb) (rows : list FileReservationRow) (db' : LeaseDb) (r : FileReservationRow) : Prop :=
  if is_active db r && chosen
  then exists ts, In (set_released (Some ts) r) (lease_rows db') /\ releases db' !! fr_id r = Some ts /\
         In (fr_id r) (map fr_id rows)
  else In r (lease_rows db') /\ is_active db' r = is_active db r.

Lemma unchunked_row s paths ids now db r : lease_wf db -> In r (lease_rows db) ->
  let res := release_reservations_unchunked s paths ids now db db in
  lease_wf (snd res) /\ released_if (scope_allows s r && lease_filter ids paths r) db (fst res) (snd res) r.
Proof.
  intros Hwf Hr. unfold release_reservations_unchunked. set (sel := release_selection s paths ids db).
  pose proof (release_by_ids_shrinks no_activity AnyExpiry (Some s) None (map fr_id sel) now db Hwf) as [Hwf' _].
  pose proof (release_fold_settles no_activity AnyExpiry (Some s) None (map fr_id sel) ([], (now, db)) r Hwf) as Hs.
  pose proof (release_fold_keeps no_activity AnyExpiry (Some s) None (map fr_id sel) ([], (now, db)) r Hwf Hr) as Hk.
  assert (In (fr_id r) (map fr_id sel) <-> is_active db r && scope_allows s r && lease_filter ids paths r = true) as Hin.
  { rewrite in_map_iff. unfold sel, release_selection, select_rows. split.
    - intros (r' & E & [Hr' Hc]%filter_In). by rewrite <- (lease_key db r' r).
    - intros Hc. exists r. split; [done|]. by apply filter_In. }
  unfold release_by_ids in *. unfold settled in Hs. cbn [fst snd] in Hs, Hk.
  destruct (foldl _ _ (map fr_id sel)) as [markers [m db']]. cbn [fst snd] in *. split; [done|].
  unfold released_if. unfold release_allowed in *. cbn [expiry_allows andb] in *. rewrite andb_true_r in *.
  destruct (is_active db r && (scope_allows s r && lease_filter ids paths r)) eqn:E.
  - rewrite andb_assoc in E. apply Hin in E as Hid. breflect. destruct Hs as (ts & ? & ? & Hm); [by right|].
    exists ts. split_and!; [done|done|]. unfold apply_release_markers. rewrite map_map. cbn [fr_id set_released].
    apply in_map_iff. exists r. split; [done|]. apply filter_In. split.
    + apply filter_In. split; [done|]. rewrite andb_true_iff in *. split; [apply andb_true_iff|]; done.
    + apply bool_decide_eq_true, markers_lookup. by left.
  - apply Hk. destruct (is_active db r && scope_allows s r) eqn:E2; [|done]. cbn [andb].
    apply bool_decide_eq_false. rewrite list_elem_of_In, Hin, <- E2, <- andb_assoc. congruence.
Qed.

Lemma released_if_weaken b db rows more db' r : released_if b db rows db' r -> released_if b db (rows ++ more) db' r.
Proof.
  unfold released_if. destruct (is_active db r && b); [|done]. intros (ts & ? & ? & ?). exists ts.
  split_and!; [done..|]. rewrite map_app. apply in_app_iff. by left.
Qed.

(** The ledger only grows. *)
Lemma release_by_ids_ledger act c s g ids now db i ts : releases db !! i = Some ts ->
  releases (snd (release_by_ids act c s g ids now db)) !! i = Some ts.
Proof.
  unfold release_by_ids. intros Hi.
  assert (forall acc : release_acc, releases (snd (snd acc)) !! i = Some ts ->
    releases (snd (snd (foldl (release_one act c s g) acc ids))) !! i = Some ts) as H.
  { clear db Hi. induction ids as [|id ids IH]; intros [out [m db]] Hi; cbn [foldl]; [done|]. apply IH.
    unfold release_one. destruct (release_eligible act c s g db id); [|done]. cbn [fst snd] in *.
    unfold insert_release. cbn [releases update_row set_rows]. destruct (releases db !! id) eqn:E; [done|].
    rewrite lookup_insert_ne; [done|congruence]. }
  specialize (H ([], (now, db)) Hi). by destruct (foldl _ _ ids) as [out [m db']].
Qed.

Lemma release_each_ledger s reqs : forall clock db i ts, releases db !! i = Some ts ->
  releases (snd (release_each s reqs clock db)) !! i = Some ts.
Proof.
  induction reqs as [|[paths ids] reqs IH]; intros clock db i ts Hi; cbn [release_each]; [done|].
  unfold release_reservations_unchunked.
  pose proof (release_by_ids_ledger no_activity AnyExpiry (Some s) None
    (map fr_id (release_selection s paths ids db)) (clock O) db i ts Hi) as H.
  destruct (release_by_ids _ _ _ _ _ _ _) as [markers db1]. cbn [snd] in H.
  specialize (IH (fun n => clock (S n)) db1 i ts H). by destruct (release_each _ _ _ _).
Qed.

Lemma release_each_row s reqs : forall clock db r, lease_wf db -> In r (lease_rows db) ->
  let res := release_each s reqs clock db in
  released_if (scope_allows s r && existsb (fun req => lease_filter (snd req) (fst req) r) reqs) db (fst res) (snd res) r.
Proof.
  induction reqs as [|[paths ids] reqs IH]; intros clock db r Hwf Hr; cbn [release_each existsb].
  { unfold released_if. by rewrite !andb_false_r. }
  destruct (unchunked_row s paths ids (clock O) db r Hwf Hr) as [Hwf1 H1].
  destruct (release_reservations_unchunked s paths ids (clock O) db db) as [rows db1]. cbn [fst snd] in *.
  destruct (release_each s reqs (fun n => clock (S n)) db1) as [more db2] eqn:E2. cbn [fst snd].
  unfold released_if in H1. destruct (is_active db r && (scope_allows s r && lease_filter ids paths r)) eqn:Ec.
  - destruct H1 as (ts & Hr1 & Hl & Hin). pose proof (IH (fun n => clock (S n)) db1 _ Hwf1 Hr1) as H2.
    rewrite E2 in H2. cbn [fst snd] in H2. unfold released_if in H2 at 1.
    assert (is_active db1 (set_released (Some ts) r) = false) as Hina.
    { unfold is_active. cbn [fr_id set_released]. rewrite Hl. by rewrite andb_false_r. }
    rewrite Hina in H2. cbn [andb] in H2. destruct H2 as [Hr2 Ha2].
    unfold released_if. destruct (is_active db r); [|done]. destruct (scope_allows s r); [|done].
    cbn [andb] in Ec. rewrite Ec. cbn [andb orb]. exists ts. split_and!; [done| |rewrite map_app; apply in_app_iff; by left].
    pose proof (release_each_ledger s reqs (fun n => clock (S n)) db1) as Hg. rewrite E2 in Hg. by apply Hg.
  - destruct H1 as [Hr1 Ha1]. pose proof (IH (fun n => clock (S n)) db1 _ Hwf1 Hr1) as H2.
    rewrite E2 in H2. cbn [fst snd] in H2. unfold released_if in *. rewrite Ha1 in H2.
    destruct (is_active db r); cbn [andb] in *; [|done]. destruct (scope_allows s r); cbn [andb] in *; [|done].
    rewrite Ec. cbn [orb]. destruct (existsb _ reqs); [|done].
    destruct H2 as (ts & ? & ? & ?). exists ts. split_and!; [done..|]. rewrite map_app. apply in_app_iff. by right.
Qed.

(** A release request takes exactly the owner's matching leases.  However the
    filters have to be split and whenever the pieces run, an active lease of the
    agent in the project, created by the cutoff and passing the id and path
    filters, ends up released in its row and in the ledger and is returned to the
    caller; every other row is unchanged and as active as before. *)
Theorem release_request_exact s paths ids clock db r :
  lease_wf db -> In r (lease_rows db) ->
  let '(rows, db') := release_reservations s paths ids clock db in
  if is_active db r && (scope_allows s r && lease_filter ids paths r)
  then exists ts, In (set_released (Some ts) r) (lease_rows db') /\ releases db' !! fr_id r = Some ts /\
         In (fr_id r) (map fr_id rows)
  else In r (lease_rows db') /\ is_active db' r = is_active db r.
Proof.
  intros Hwf Hr. unfold release_reservations.
  pose proof (release_each_row s (release_chunks 3 paths ids) clock db r Hwf Hr) as H.
  destruct (release_each _ _ _ _) as [rows db']. cbn [fst snd] in H. unfold released_if in H.
  destruct (release_chunks_spec 3 paths ids (chunk_rank_bound _ _)) as [_ Hcov].
  replace (lease_filter ids paths r) with
    (existsb (fun req => lease_filter (snd req) (fst req) r) (release_chunks 3 paths ids)); [exact H|].
  apply eq_true_iff_eq. by rewrite existsb_exists, Hcov.
Qed.

Lemma release_request_exact_witness :
  let '(rows, db') := release_reservations (mkScope 7 1 None) (Some [u "src/*.rs"]) None (fun _ => 400) witness_db in
  In 1 (map fr_id rows) /\ is_active db' (mkLease 2 7 2 (u "docs/a.md") 1 (u "edit") 200 3600000200 None) = true.
Proof.
  destruct (lease_inv_reachable (GL := simple_laws) _ witness_reachable) as [Hwf _].
  assert (lease_rows witness_db = [mkLease 1 7 1 (u "src/*.rs") 1 (u "edit") 100 3600000100 None;
    mkLease 2 7 2 (u "docs/a.md") 1 (u "edit") 200 3600000200 None]) as Hrows by (vm_compute; reflexivity).
  pose proof (release_request_exact (mkScope 7 1 None) (Some [u "src/*.rs"]) None (fun _ => 400) witness_db
    (mkLease 1 7 1 (u "src/*.rs") 1 (u "edit") 100 3600000100 None) Hwf ltac:(rewrite Hrows; by left)) as H1.
  pose proof (release_request_exact (mkScope 7 1 None) (Some [u "src/*.rs"]) None (fun _ => 400) witness_db
    (mkLease 2 7 2 (u "docs/a.md") 1 (u "edit") 200 3600000200 None) Hwf ltac:(rewrite Hrows; right; by left)) as H2.
  destruct (release_reservations _ _ _ _ _) as [rows db'].
  destruct (is_active _ _ && _) eqn:E1 in H1; [|vm_compute in E1; discriminate].
  destruct (is_active _ _ && _) eqn:E2 in H2; [vm_compute in E2; discriminate|].
  destruct H1 as (ts & _ & _ & Hin), H2 as [_ ->]. split; [exact Hin|vm_compute; reflexivity].
Defined.
