(* ===== verification/AgentRegistry.v ===== *)
(** * The agent registry ([db/src/queries.rs])

    The [agents] table with the ledger of deregistrations, and the transactions
    that register, create, clean up, retire, sweep and deregister agents.  A
    transaction is a function of the tables it finds; a conflict between concurrent ones rolls back and is
    retried, so a history is a sequence of such functions.  A failing statement
    rolls its transaction back and is left out.  Lookups go to the table: the
    read cache in front of them is not part of this file. *)

From S2P Require Import Prelude.
From S2P Require Import RustStr.
From S2P Require Import AgentNames.
From S2P Require Import Leases.

(** ** The tables *)

(** @src db/src/models.rs:118-155 AgentRow
    -- a row of the table has its id. *)
Record AgentRow := mkAgentRow {
  ar_id : Z; ar_project : Z; ar_name : ustr; ar_program : ustr; ar_model : ustr; ar_task : ustr;
  ar_inception : Z; ar_last_active : Z; ar_attachments : ustr; ar_contact : ustr; ar_reaper_exempt : Z;
  ar_token : option ustr; ar_retired_at : option Z;
}.

(** The columns an upsert sets. *)
Record AgentProfile := mkProfile {
  pr_program : ustr; pr_model : ustr; pr_task : option ustr; pr_attachments : option ustr; pr_reaper_exempt : option bool;
}.

Definition set_profile (now : Z) (p : AgentProfile) (a : AgentRow) : AgentRow :=
  mkAgentRow (ar_id a) (ar_project a) (ar_name a) (pr_program p) (pr_model p) (default [] (pr_task p))
    (ar_inception a) now (default (ar_attachments a) (pr_attachments p)) (ar_contact a)
    (from_option bool_int (ar_reaper_exempt a) (pr_reaper_exempt p)) (ar_token a) (ar_retired_at a).
Definition set_token (token : ustr) (a : AgentRow) : AgentRow :=
  mkAgentRow (ar_id a) (ar_project a) (ar_name a) (ar_program a) (ar_model a) (ar_task a) (ar_inception a)
    (ar_last_active a) (ar_attachments a) (ar_contact a) (ar_reaper_exempt a) (Some token) (ar_retired_at a).
Definition set_retired (at_ : option Z) (a : AgentRow) : AgentRow :=
  mkAgentRow (ar_id a) (ar_project a) (ar_name a) (ar_program a) (ar_model a) (ar_task a) (ar_inception a)
    (ar_last_active a) (ar_attachments a) (ar_contact a) (ar_reaper_exempt a) (ar_token a) at_.
Definition set_contact (policy task : ustr) (last_active : Z) (a : AgentRow) : AgentRow :=
  mkAgentRow (ar_id a) (ar_project a) (ar_name a) (ar_program a) (ar_model a) task (ar_inception a)
    last_active (ar_attachments a) policy (ar_reaper_exempt a) (ar_token a) (ar_retired_at a).

(** [agents] in the order of its ids, [agent_deregistrations], and the next id of
    the AUTOINCREMENT column. *)
Record AgentDb := mkAgentDb { agent_rows : list AgentRow; deregistrations : gmap Z Z; next_agent : Z }.
Definition set_agents (rows : list AgentRow) (db : AgentDb) : AgentDb :=
  mkAgentDb rows (deregistrations db) (next_agent db).

(** [UPDATE agents SET .. WHERE id = ?]. *)
Definition update_agent (id : Z) (f : AgentRow -> AgentRow) (db : AgentDb) : AgentDb :=
  set_agents (map (fun a => if ar_id a =? id then f a else a) (agent_rows db)) db.

(** [name = ? COLLATE NOCASE] within a project. *)
Definition names (project_id : Z) (name : ustr) (a : AgentRow) : bool :=
  (ar_project a =? project_id) && eq_ignore_ascii_case (ar_name a) name.

(** @src db/src/queries.rs:6390-6445 get_agent
    -- [ORDER BY id ASC LIMIT 1] on the table. *)
Definition get_agent (db : AgentDb) (project_id : Z) (name : ustr) : option AgentRow :=
  List.find (names project_id name) (agent_rows db).

(** @src db/src/queries.rs:6447-6483 get_agent_by_id *)
Definition get_agent_by_id (db : AgentDb) (id : Z) : option AgentRow :=
  List.find (fun a => ar_id a =? id) (agent_rows db).

(** @src db/src/queries.rs:7336-7382 get_agent_deregistered_at_in_tx, get_agent_deregistered_at *)
Definition get_agent_deregistered_at (db : AgentDb) (id : Z) : option Z := deregistrations db !! id.

Inductive AgentDbError :=
  | InvalidName (name : ustr)
  | ReservedDescription
  | Deregistered (name : ustr)
  | Duplicate (name : ustr)
  | NotFound
  | NotVisible.

(** @src db/src/models.rs:223-230 DEREGISTERED_TASK_PREFIX, task_description_uses_reserved_deregistered_prefix *)
Definition DEREGISTERED_TASK_PREFIX : ustr := u "[DEREGISTERED ".
Definition task_description_uses_reserved_deregistered_prefix (description : ustr) : bool :=
  starts_with DEREGISTERED_TASK_PREFIX description.

(** @src db/src/queries.rs:5985-5999 register_agent
    -- and the same checks of [create_agent]; the name cache is transparent. *)
Definition check_new_agent (name : ustr) (task_description : option ustr) : AgentDbError + unit :=
  if negb (is_valid_agent_name name ∅) then inl (InvalidName name)
  else if match task_description with
          | Some t => task_description_uses_reserved_deregistered_prefix t
          | None => false
          end then inl ReservedDescription
  else mret tt.

(** ** Registration *)

(** @src db/src/queries.rs:6078-6100 register_agent
    -- the row the INSERT adds; so does that of [create_agent]. *)
Definition fresh_row (db : AgentDb) (now project_id : Z) (name : ustr) (p : AgentProfile) : AgentRow :=
  mkAgentRow (next_agent db) project_id name (pr_program p) (pr_model p) (default [] (pr_task p)) now now
    (default (u "auto") (pr_attachments p)) (u "auto") (from_option bool_int 0 (pr_reaper_exempt p)) None None.

Definition insert_agent (row : AgentRow) (db : AgentDb) : AgentDb :=
  mkAgentDb (agent_rows db ++ [row]) (deregistrations db) (next_agent db + 1).

(** @src db/src/queries.rs:6060-6105 register_agent
    -- [ON CONFLICT(project_id, name) DO UPDATE]: the constraint compares bytes. *)
Definition upsert_agent (db : AgentDb) (now project_id : Z) (name : ustr) (p : AgentProfile) : AgentDb :=
  let same a := (ar_project a =? project_id) && ustr_eqb (ar_name a) name in
  if existsb same (agent_rows db)
  then set_agents (map (fun a => if same a then set_profile now p a else a) (agent_rows db)) db
  else insert_agent (fresh_row db now project_id name p) db.

(** @src db/src/queries.rs:6003-6134 register_agent
    -- the transaction: the row as committed, and whether it is new. *)
Definition register_tx (db : AgentDb) (now project_id : Z) (name : ustr) (p : AgentProfile) :
    (AgentDbError + AgentRow * bool) * AgentDb :=
  let existing := get_agent db project_id name in
  if match existing with
     | Some e => bool_decide (is_Some (get_agent_deregistered_at db (ar_id e)))
     | None => false
     end then (inl (Deregistered name), db)
  else
    let upsert_name := match existing with Some e => ar_name e | None => name end in
    let db' := upsert_agent db now project_id upsert_name p in
    match get_agent db' project_id name with
    | None => (inl NotVisible, db)
    | Some provisional => (inr (provisional, match existing with None => true | Some _ => false end), db')
    end.

(** @src db/src/queries.rs:5985-6134 register_agent
    -- up to its commit. *)
Definition commit_registration (db : AgentDb) (now project_id : Z) (name : ustr) (p : AgentProfile) :
    (AgentDbError + AgentRow * bool) * AgentDb :=
  match check_new_agent name (pr_task p) with
  | inl e => (inl e, db)
  | inr _ => register_tx db now project_id name p
  end.

(** @src db/src/queries.rs:6196-6322 create_agent
    -- up to its commit: the row it inserted. *)
Definition commit_creation (db : AgentDb) (now project_id : Z) (name : ustr) (p : AgentProfile) :
    (AgentDbError + AgentRow) * AgentDb :=
  match check_new_agent name (pr_task p) with
  | inl e => (inl e, db)
  | inr _ =>
      match get_agent db project_id name with
      | Some _ => (inl (Duplicate name), db)
      | None =>
          let row := fresh_row db now project_id name (mkProfile (pr_program p) (pr_model p) (pr_task p) (pr_attachments p) None) in
          let db' := insert_agent row db in
          match get_agent db' project_id name with
          | None => (inl NotVisible, db)
          | Some provisional => (inr provisional, db')
          end
      end
  end.

(** @src db/src/queries.rs:4004-4042 cleanup_committed_agent_after_consistency_failure
    -- a transaction of its own. *)
Definition cleanup_agent (project_id agent_id : Z) (db : AgentDb) : AgentDb :=
  set_agents (List.filter (fun a => negb ((ar_id a =? agent_id) && (ar_project a =? project_id))) (agent_rows db)) db.

(** @src db/src/queries.rs:6169-6190 update_agent_registration_token *)
Definition update_agent_registration_token (agent_id : Z) (token : ustr) (db : AgentDb) : AgentDb :=
  update_agent agent_id (set_token token) db.

(** ** Lifecycle *)

(** @src db/src/queries.rs:7411-7514 set_agent_retired_at
    -- retiring keeps the first timestamp, clearing is unconditional. *)
Definition set_agent_retired_at (agent_id : Z) (retired_at : option Z) (db : AgentDb) :
    (AgentDbError + AgentRow) * AgentDb :=
  match get_agent_deregistered_at db agent_id with
  | Some _ => (inl (Deregistered []), db)
  | None =>
      let db' := update_agent agent_id (fun a =>
                   set_retired (match retired_at with
                                | None => None
                                | Some ts => Some (default ts (ar_retired_at a))
                                end) a) db in
      match get_agent_by_id db' agent_id with
      | None => (inl NotFound, db)
      | Some agent => (inr agent, db')
      end
  end.

(** @src db/src/queries.rs:7531-7560 sweep_stale_agents
    -- [protected]: the owners of leases in force, when they count. *)
Definition sweep_candidate (db : AgentDb) (project_id exclude_agent_id cutoff_ts : Z) (protected : gset Z)
    (a : AgentRow) : bool :=
  (ar_project a =? project_id) && negb (ar_id a =? exclude_agent_id) && bool_decide (ar_retired_at a = None) &&
  (ar_reaper_exempt a =? 0) && (ar_last_active a <? cutoff_ts) &&
  bool_decide (deregistrations db !! ar_id a = None) && bool_decide (ar_id a ∉ protected).

(** @src db/src/queries.rs:7516-7608 sweep_stale_agents *)
Definition sweep_stale_agents (project_id exclude_agent_id cutoff_ts retired_at : Z) (protected : gset Z) (db : AgentDb) :
    list AgentRow * AgentDb :=
  let agents := List.filter (sweep_candidate db project_id exclude_agent_id cutoff_ts protected) (agent_rows db) in
  (map (set_retired (Some retired_at)) agents,
   foldl (fun db a => update_agent (ar_id a) (fun a =>
            match ar_retired_at a with None => set_retired (Some retired_at) a | Some _ => a end) db) db agents).

Section tombstones.
  Context (micros_to_iso : Z -> ustr).

(** @src db/src/queries.rs:7610-7723 deregister_agent
    -- the first timestamp stays; the row is closed to contacts and marked. *)
Definition deregister_agent (agent_id deregistered_at : Z) (db : AgentDb) : (AgentDbError + AgentRow) * AgentDb :=
  match get_agent_by_id db agent_id with
  | None => (inl NotFound, db)
  | Some current =>
      match get_agent_deregistered_at db agent_id with
      | Some _ => (inr current, db)
      | None =>
          let tombstone := DEREGISTERED_TASK_PREFIX ++ micros_to_iso deregistered_at ++ u "] " in
          let db' := update_agent agent_id
                       (fun a => set_contact (u "block_all") (tombstone ++ ar_task a) (ar_last_active a) a)
                       (mkAgentDb (agent_rows db) (<[agent_id := deregistered_at]> (deregistrations db)) (next_agent db)) in
          match get_agent_by_id db' agent_id with
          | None => (inl NotFound, db)
          | Some agent => (inr agent, db')
          end
      end
  end.

(** @src db/src/queries.rs:7260-7334 set_agent_contact_policy *)
Definition set_agent_contact_policy (now agent_id : Z) (policy : ustr) (db : AgentDb) :
    (AgentDbError + AgentRow) * AgentDb :=
  match get_agent_deregistered_at db agent_id with
  | Some _ => (inl (Deregistered []), db)
  | None =>
      let db' := update_agent agent_id (fun a => set_contact policy (ar_task a) now a) db in
      match get_agent_by_id db' agent_id with
      | None => (inl NotFound, db)
      | Some agent => (inr agent, db')
      end
  end.

(** @src db/src/queries.rs:7725-7833 set_agent_contact_policy_by_name *)
Definition set_agent_contact_policy_by_name (now project_id : Z) (name policy : ustr) (db : AgentDb) :
    (AgentDbError + AgentRow) * AgentDb :=
  let normalized_name := trim name in
  if is_empty normalized_name then (inl (InvalidName name), db)
  else
    match get_agent db project_id normalized_name with
    | None => (inl NotFound, db)
    | Some current => set_agent_contact_policy now (ar_id current) policy db
    end.

(** @src db/src/queries.rs:6902-6914 AGENT_TOUCH_MIN_INTERVAL_MICROS, AGENT_TOUCH_THROTTLE_PRUNE_AT *)
Definition AGENT_TOUCH_MIN_INTERVAL_MICROS : Z := 60 * 1000000.
Definition AGENT_TOUCH_THROTTLE_PRUNE_AT : nat := 4096.

(** @src db/src/queries.rs:6941-6945 agent_touch_elapsed *)
Definition agent_touch_elapsed (last now : Z) : bool :=
  (now <? last) || (AGENT_TOUCH_MIN_INTERVAL_MICROS <=? now - last).

(** Last activity write per database and agent. *)
Definition TouchThrottle : Type := gmap (ustr * Z) Z.

(** @src db/src/queries.rs:6971-6986 touch_agent
    -- claim a write, or stay inside the interval. *)
Definition claim_touch (throttle : TouchThrottle) (key : ustr * Z) (now : Z) : bool * TouchThrottle :=
  if match throttle !! key with Some last => negb (agent_touch_elapsed last now) | None => false end
  then (false, throttle)
  else
    let throttle := if (AGENT_TOUCH_THROTTLE_PRUNE_AT <=? size throttle)%nat
                    then filter (fun kv => agent_touch_elapsed kv.2 now = false) throttle else throttle in
    (true, <[key := now]> throttle).

(** @src db/src/queries.rs:6989-7014 touch_agent
    -- the write, when the throttle lets it happen. *)
Definition touch_write (now agent_id : Z) (db : AgentDb) : AgentDb :=
  update_agent agent_id (fun a => set_contact (ar_contact a) (ar_task a) (Z.max (ar_last_active a) now) a) db.

(** ** Histories *)

(** A committed transaction on the registry: of a registration and of a creation
    the insert or upsert and, later, the clean-up are transactions of their own. *)
Inductive AgentOp :=
  | OpRegister (now project_id : Z) (name : ustr) (p : AgentProfile)
  | OpCreate (now project_id : Z) (name : ustr) (p : AgentProfile)
  | OpCleanup (project_id agent_id : Z)
  | OpToken (agent_id : Z) (token : ustr)
  | OpRetire (agent_id : Z) (retired_at : option Z)
  | OpSweep (project_id exclude cutoff retired_at : Z) (protected : gset Z)
  | OpDeregister (agent_id at_ : Z)
  | OpContactPolicy (now agent_id : Z) (policy : ustr)
  | OpContactPolicyByName (now project_id : Z) (name policy : ustr)
  | OpTouch (now agent_id : Z).

Definition apply_agent_op (db : AgentDb) (o : AgentOp) : AgentDb :=
  match o with
  | OpRegister now p name prof => snd (commit_registration db now p name prof)
  | OpCreate now p name prof => snd (commit_creation db now p name prof)
  | OpCleanup p id => cleanup_agent p id db
  | OpToken id token => update_agent_registration_token id token db
  | OpRetire id at_ => snd (set_agent_retired_at id at_ db)
  | OpSweep p exclude cutoff at_ protected => snd (sweep_stale_agents p exclude cutoff at_ protected db)
  | OpDeregister id at_ => snd (deregister_agent id at_ db)
  | OpContactPolicy now id policy => snd (set_agent_contact_policy now id policy db)
  | OpContactPolicyByName now p name policy => snd (set_agent_contact_policy_by_name now p name policy db)
  | OpTouch now id => touch_write now id db
  end.

(** ** Registration, to its answer *)

(** What follows a commit: the transactions of others until the probe, whether
    the probe answers, and whether the transaction of a clean-up commits. *)
Record Aftermath := mkAftermath { am_between : list AgentOp; am_answers : bool; am_cleans : bool }.

(** The probe reads the row it looks for, or fails. *)
Definition verify_agent_visible_after_commit (db : AgentDb) (project_id : Z) (name : ustr) (answers : bool) :
    option AgentRow := if answers then get_agent db project_id name else None.

(** @src db/src/queries.rs:3853-3883 cleanup_created_agent_after_post_commit_probe_failure
    -- [commits]: the transaction does; the answer is an error in every case. *)
Definition cleanup_created_agent_after_post_commit_probe_failure (db : AgentDb) (project_id agent_id : Z) (commits : bool) :
    AgentDbError * AgentDb :=
  (NotVisible, if commits then cleanup_agent project_id agent_id db else db).

(** @src db/src/queries.rs:3885-3970 finalize_register_agent_post_commit_probe
    -- [probe]: what the fresh handle sees after the commit, if it answers. *)
Definition finalize_register_agent_post_commit_probe (db : AgentDb) (project_id : Z) (provisional : AgentRow)
    (inserted_new : bool) (probe : option AgentRow) (commits : bool) : (AgentDbError + option AgentRow) * AgentDb :=
  match probe with
  | Some agent => (inr (Some agent), db)
  | None =>
      if inserted_new then
        let '(e, db) := cleanup_created_agent_after_post_commit_probe_failure db project_id (ar_id provisional) commits in
        (inl e, db)
      else (inr None, db)
  end.

(** @src db/src/queries.rs:5973-6167 register_agent *)
Definition register_agent (db : AgentDb) (now project_id : Z) (name : ustr) (p : AgentProfile) (m : Aftermath) :
    (AgentDbError + AgentRow) * AgentDb :=
  match commit_registration db now project_id name p with
  | (inl e, db) => (inl e, db)
  | (inr (provisional, inserted_new), db) =>
      let db := run apply_agent_op db (am_between m) in
      match finalize_register_agent_post_commit_probe db project_id provisional inserted_new
              (verify_agent_visible_after_commit db project_id name (am_answers m)) (am_cleans m) with
      | (inl e, db) => (inl e, db)
      | (inr durable, db) => (inr (default provisional durable), db)
      end
  end.

(** @src db/src/queries.rs:6196-6388 create_agent *)
Definition create_agent (db : AgentDb) (now project_id : Z) (name : ustr) (p : AgentProfile) (m : Aftermath) :
    (AgentDbError + AgentRow) * AgentDb :=
  match commit_creation db now project_id name p with
  | (inl e, db) => (inl e, db)
  | (inr provisional, db) =>
      let db := run apply_agent_op db (am_between m) in
      match verify_agent_visible_after_commit db project_id name (am_answers m) with
      | Some durable => (inr durable, db)
      | None =>
          let '(e, db) := cleanup_created_agent_after_post_commit_probe_failure db project_id (ar_id provisional) (am_cleans m) in
          (inl e, db)
      end
  end.
End tombstones.

(** Nobody commits in between, and the probe answers. *)
Definition promptly : Aftermath := mkAftermath [] true true.

Definition empty_registry : AgentDb := mkAgentDb [] ∅ 1.

(** What the lease transactions see of the registry. *)
Definition agent_states (db : AgentDb) : gmap Z AgentState :=
  list_to_map (map (fun a => (ar_id a, mkAgentState (ar_project a) (ar_name a) (ar_retired_at a)
                                         (get_agent_deregistered_at db (ar_id a)))) (agent_rows db)).

(** ** Rosters *)

(** @src db/src/queries.rs:6554-6568 list_agent_roster
    -- the first row of a name owns it, deregistered or not. *)
Fixpoint canonical_rows (db : AgentDb) (seen_names : gset ustr) (rows : list AgentRow) : list AgentRow :=
  match rows with
  | [] => []
  | a :: rows =>
      let lower := to_ascii_lowercase (ar_name a) in
      let rest := canonical_rows db ({[lower]} ∪ seen_names) rows in
      if bool_decide (lower ∈ seen_names) || bool_decide (is_Some (get_agent_deregistered_at db (ar_id a)))
      then rest else a :: rest
  end.

(** @src db/src/queries.rs:6569-6574 list_agent_roster *)
Definition roster_le (l r : AgentRow) : Prop :=
  ar_last_active r < ar_last_active l \/ (ar_last_active r = ar_last_active l /\ ar_id r <= ar_id l).
#[export] Instance roster_le_dec : RelDecision roster_le.
Proof. intros l r. unfold roster_le. apply _. Defined.

(** @src db/src/queries.rs:6534-6580 list_agent_roster *)
Definition list_agent_roster (db : AgentDb) (project_id : Z) : list AgentRow :=
  merge_sort roster_le
    (canonical_rows db ∅ (List.filter (fun a => ar_project a =? project_id) (agent_rows db))).
