(* ===== verification/SessionIdentity.v ===== *)
(** * Identities held by a session ([tools/src/session_identity.rs])

    A session remembers the agents it established, at most a bounded number of
    them, and the projects whose last identity it lost without being asked to.
    Actors are authorised against that state.  What a request reads from its
    context, its liveness and the session value, is an argument; the session
    value itself is read, changed and stored under one lock. *)

From S2P Require Import Prelude.
From S2P Require Import RustStr.
From S2P Require Import AgentRegistry.

(** ** State *)

(** @src tools/src/session_identity.rs:62-64 MAX_SESSION_BINDINGS, MAX_EVICTED_PROJECTS *)
Definition MAX_SESSION_BINDINGS : nat := 32.
Definition MAX_EVICTED_PROJECTS : nat := 32.

(** @src tools/src/session_identity.rs:74-80 SessionBinding *)
Record SessionBinding := mkBinding { sb_project : Z; sb_agent : Z; sb_name : ustr; sb_bound_at : Z }.

(** @src tools/src/session_identity.rs:83-94 SessionBinding::matches_agent *)
Definition matches_agent (b : SessionBinding) (agent : AgentRow) : bool :=
  (0 <? sb_project b) && (0 <? sb_agent b) && negb (is_empty (sb_name b)) && (ar_project agent =? sb_project b) &&
  (ar_id agent =? sb_agent b) && ustr_eqb (ar_name agent) (sb_name b).

(** @src tools/src/session_identity.rs:97-104 SessionIdentityState *)
Record SessionIdentityState := mkSession {
  held : list SessionBinding; evicted_projects : list Z; eviction_history_saturated : bool;
}.
Definition empty_session : SessionIdentityState := mkSession [] [] false.
Definition set_held (h : list SessionBinding) (s : SessionIdentityState) : SessionIdentityState :=
  mkSession h (evicted_projects s) (eviction_history_saturated s).

Definition in_project (project_id : Z) (b : SessionBinding) : bool := sb_project b =? project_id.
Definition is_agent (agent_id : Z) (b : SessionBinding) : bool := sb_agent b =? agent_id.

(** @src tools/src/session_identity.rs:107-119 restrict_evicted_project *)
Definition restrict_evicted_project (s : SessionIdentityState) (project_id : Z) : SessionIdentityState :=
  if eviction_history_saturated s || bool_decide (project_id ∈ evicted_projects s) then s
  else if (MAX_EVICTED_PROJECTS <=? length (evicted_projects s))%nat
  then mkSession (held s) [] true
  else mkSession (held s) (evicted_projects s ++ [project_id]) false.

(** What both removals do: the project of a binding that is gone stays
    restricted unless another of its bindings is held. *)
Definition restrict_unless_held (s : SessionIdentityState) (project_id : Z) : SessionIdentityState :=
  if existsb (in_project project_id) (held s) then s else restrict_evicted_project s project_id.

(** @src tools/src/session_identity.rs:121-132 enforce_capacity
    -- [h] is what [held] still contains. *)
Fixpoint enforce_capacity (h : list SessionBinding) (s : SessionIdentityState) : SessionIdentityState :=
  if (length h <=? MAX_SESSION_BINDINGS)%nat then set_held h s
  else
    match h with
    | [] => set_held [] s
    | evicted :: h => enforce_capacity h (restrict_unless_held (set_held h s) (sb_project evicted))
    end.

(** @src tools/src/session_identity.rs:134-136 eviction_restricts *)
Definition eviction_restricts (s : SessionIdentityState) (project_id : Z) : bool :=
  eviction_history_saturated s || bool_decide (project_id ∈ evicted_projects s).

(** @src tools/src/session_identity.rs:138-148 permits_unresolved_actor *)
Definition permits_unresolved_actor (s : SessionIdentityState) (project_id : option Z) : bool :=
  let is_it id := match project_id with None => true | Some p => id =? p end in
  negb (eviction_history_saturated s) && negb (existsb is_it (evicted_projects s)) &&
  negb (existsb (fun b => is_it (sb_project b)) (held s)).

(** ** Updates *)

(** @src tools/src/session_identity.rs:206-243 bind
    -- the update of the state: the slot of the agent id is replaced. *)
Definition bind_update (project_id agent_id : Z) (agent_name : ustr) (now : Z) (s : SessionIdentityState) :
    SessionIdentityState :=
  let displaced_projects := map sb_project
        (List.filter (fun b => is_agent agent_id b && negb (in_project project_id b)) (held s)) in
  let s := set_held (List.filter (fun b => negb (is_agent agent_id b)) (held s) ++
                       [mkBinding project_id agent_id agent_name now]) s in
  let s := foldl restrict_unless_held s displaced_projects in
  enforce_capacity (held s) s.

(** @src tools/src/session_identity.rs:197-205 bind
    -- calls that establish nothing. *)
Definition binds (enabled has_session_state : bool) (project_id agent_id : Z) (agent_name : ustr) : bool :=
  enabled && has_session_state && (0 <? agent_id) && (0 <? project_id) && negb (is_empty (trim agent_name)).

(** @src tools/src/session_identity.rs:246-255 unbind
    -- the update, and whether it changed anything. *)
Definition unbind_update (agent_id : Z) (s : SessionIdentityState) : bool * SessionIdentityState :=
  let h := List.filter (fun b => negb (is_agent agent_id b)) (held s) in
  (negb (length h =? length (held s))%nat, set_held h s).

(** An update of the session value. *)
Inductive SessionOp :=
  | SBind (project_id agent_id : Z) (agent_name : ustr) (now : Z)
  | SUnbind (agent_id : Z).

(** @src tools/src/session_identity.rs:162-183 update_bindings
    -- the closure: whether to store, and what. *)
Definition update (o : SessionOp) (s : SessionIdentityState) : bool * SessionIdentityState :=
  match o with
  | SBind p id name now => (true, bind_update p id name now s)
  | SUnbind id => unbind_update id s
  end.

Definition apply_session_op (s : SessionIdentityState) (o : SessionOp) : SessionIdentityState :=
  match o with
  | SBind p id name now =>
      if binds true true p id name then bind_update p id name now s else s
  | SUnbind id => snd (unbind_update id s)
  end.

(** The updates that reach the lock. *)
Definition proceeds (o : SessionOp) : bool :=
  match o with SBind p id name _ => binds true true p id name | SUnbind _ => true end.

(** ** Authorisation *)

(** What a request reads of its context, in the order it does: [ensure_live],
    [get_state], [ensure_live]. *)
Record CtxReads := mkReads { live_before : bool; state_read : option SessionIdentityState; live_after : bool }.

Inductive AuthError :=
  | Cancelled
  | EvictionHistorySaturated (agent action : ustr)
  | BindingEvicted (agent action : ustr)
  | BoundToOtherAgent (names : list ustr) (agent action : ustr).

Section feature.
  Context (enabled : bool).

(** @src tools/src/session_identity.rs:157-160 identity_state *)
Definition identity_state (read : option SessionIdentityState) : SessionIdentityState := default empty_session read.

(** @src tools/src/session_identity.rs:185-193 session_bindings *)
Definition session_bindings (read : option SessionIdentityState) : list SessionBinding :=
  if enabled then held (identity_state read) else [].

(** @src tools/src/session_identity.rs:282-294 ActorAuthorizationSnapshot::capture *)
Definition capture (r : CtxReads) : AuthError + SessionIdentityState :=
  if negb (live_before r) then inl Cancelled
  else
    let state := if enabled then identity_state (state_read r) else empty_session in
    if negb (live_after r) then inl Cancelled else inr state.

(** @src tools/src/session_identity.rs:257-272 holds
    -- [live]: the last [ensure_live]. *)
Definition holds (r : CtxReads) (live : bool) (agent_id : option Z) : bool :=
  match capture r with
  | inl _ => false
  | inr s => match agent_id with Some id => existsb (is_agent id) (held s) | None => false end && live
  end.

(** @src tools/src/session_identity.rs:333-384 authorize_actor_from_state *)
Definition authorize_actor_from_state (s : SessionIdentityState) (agent : AgentRow) (action : ustr) : AuthError + unit :=
  let h := List.filter (in_project (ar_project agent)) (held s) in
  if (match h with [] => true | _ => false end && negb (eviction_restricts s (ar_project agent))) ||
     existsb (fun b => matches_agent b agent) h then inr tt
  else
    let names := map sb_name h in
    if eviction_history_saturated s then inl (EvictionHistorySaturated (ar_name agent) action)
    else match names with
         | [] => inl (BindingEvicted (ar_name agent) action)
         | _ => inl (BoundToOtherAgent names (ar_name agent) action)
         end.

(** @src tools/src/session_identity.rs:301-309 ActorAuthorizationSnapshot::authorize *)
Definition authorize (snapshot : SessionIdentityState) (live : bool) (agent : AgentRow) (action : ustr) :
    AuthError + unit :=
  if negb live then inl Cancelled else authorize_actor_from_state snapshot agent action.

(** @src tools/src/session_identity.rs:312-331 authorize_actor
    -- [live]: the first [ensure_live], [live']: the last. *)
Definition authorize_actor (live : bool) (r : CtxReads) (live' : bool) (agent : AgentRow) (token_verified : bool)
    (action : ustr) : AuthError + unit :=
  if negb live then inl Cancelled
  else if token_verified then inr tt
  else s ← capture r; authorize s live' agent action.

End feature.

(** ** Interleaving

    [BINDINGS_UPDATE_LOCK]: a request takes the lock, reads the session value,
    applies its update and stores the result, or stores nothing when the update
    says so; other requests read in between. *)

Record Updater := mkUpdater { up_thread : Z; up_op : SessionOp; up_read : option SessionIdentityState; up_done : bool }.
Record SharedSession := mkShared { stored : SessionIdentityState; lock_holder : option Updater; committed : list SessionOp }.

Inductive SessionLabel :=
  | LLock (thread : Z) (o : SessionOp)
  | LRead (thread : Z)
  | LStore (thread : Z)
  | LUnlock (thread : Z).

(** @src tools/src/session_identity.rs:162-183 update_bindings
    -- its steps; [committed] records the updates in the order of the lock. *)
Inductive session_step : SharedSession -> SessionLabel -> SharedSession -> Prop :=
  | step_lock st ops t o :
      proceeds o = true ->
      session_step (mkShared st None ops) (LLock t o) (mkShared st (Some (mkUpdater t o None false)) ops)
  | step_read st ops t o :
      session_step (mkShared st (Some (mkUpdater t o None false)) ops) (LRead t)
        (mkShared st (Some (mkUpdater t o (Some st) false)) ops)
  | step_store st ops t o s :
      session_step (mkShared st (Some (mkUpdater t o (Some s) false)) ops) (LStore t)
        (mkShared (if fst (update o s) then snd (update o s) else st) (Some (mkUpdater t o (Some s) true)) (ops ++ [o]))
  | step_unlock st ops t o s :
      session_step (mkShared st (Some (mkUpdater t o (Some s) true)) ops) (LUnlock t) (mkShared st None ops).

#[export] Instance session_lts : LTS SharedSession SessionLabel := {
  lts_init s := s = mkShared empty_session None [];
  lts_step := session_step;
}.

(** ** What a session may act as

    The bounded state of a session decides like one that never forgets: an actor
    passes when the session holds exactly that identity, or when the session is
    not concerned with the project at all.  A project concerns it while it holds
    an identity there, and for good once an identity was taken from it there
    without a request to. *)

Definition session (ops : list SessionOp) : SessionIdentityState := run apply_session_op empty_session ops.

Definition projects (h : list SessionBinding) : gset Z := list_to_set (map sb_project h).

(** ** The unbounded record *)

(** The projects an update took the last identity of, unless it was asked to. *)
Definition taken (s : SessionIdentityState) (o : SessionOp) : gset Z :=
  match o with
  | SBind _ _ _ _ => projects (held s) ∖ projects (held (apply_session_op s o))
  | SUnbind _ => ∅
  end.

Definition record_taken (acc : SessionIdentityState * gset Z) (o : SessionOp) : SessionIdentityState * gset Z :=
  (apply_session_op acc.1 o, acc.2 ∪ taken acc.1 o).

Definition lost_projects (ops : list SessionOp) : gset Z := snd (foldl record_taken (empty_session, ∅) ops).

Lemma record_fst ops : forall acc, fst (foldl record_taken acc ops) = run apply_session_op (fst acc) ops.
Proof. induction ops as [|o ops IH]; intros acc; [done|]. cbn [foldl run]. by rewrite IH. Qed.

Lemma session_snoc ops o : session (ops ++ [o]) = apply_session_op (session ops) o.
Proof. unfold session. by rewrite run_app. Qed.

Lemma lost_snoc ops o : lost_projects (ops ++ [o]) = lost_projects ops ∪ taken (session ops) o.
Proof.
  unfold lost_projects. rewrite foldl_app. cbn [foldl record_taken snd]. rewrite record_fst. done.
Qed.

Lemma elem_projects p h : p ∈ projects h <-> exists b, In b h /\ sb_project b = p.
Proof.
  unfold projects. rewrite elem_of_list_to_set, list_elem_of_In, in_map_iff. split; intros (b & H1 & H2); by exists b.
Qed.

Lemma existsb_projects p h : existsb (in_project p) h = bool_decide (p ∈ projects h).
Proof.
  apply eq_bool_prop_intro. rewrite bool_decide_spec, elem_projects, Is_true_true, existsb_exists. unfold in_project.
  split; intros (b & H1 & H2); exists b; (split; [done|]); [by apply Z.eqb_eq|by apply Z.eqb_eq].
Qed.

(** The state remembers [lost], or that it is too large. *)
Definition remembers (s : SessionIdentityState) (lost : gset Z) : Prop :=
  if eviction_history_saturated s then evicted_projects s = [] /\ (MAX_EVICTED_PROJECTS < size lost)%nat
  else NoDup (evicted_projects s) /\ list_to_set (evicted_projects s) = lost /\
       (length (evicted_projects s) <= MAX_EVICTED_PROJECTS)%nat.

Lemma remembers_empty : remembers empty_session ∅.
Proof. split; [apply NoDup_nil_2|]. split; [done|]. simpl. lia. Qed.

Lemma remembers_held h s lost : remembers (set_held h s) lost <-> remembers s lost.
Proof. done. Qed.

Lemma restrict_held s p : held (restrict_evicted_project s p) = held s.
Proof. unfold restrict_evicted_project. destruct (_ || _); [done|]. by destruct (_ <=? _)%nat. Qed.

Lemma restrict_remembers s lost p : remembers s lost -> remembers (restrict_evicted_project s p) (lost ∪ {[p]}).
Proof.
  unfold restrict_evicted_project, remembers. intros H. destruct (eviction_history_saturated s) eqn:Es; cbn [orb].
  - rewrite Es. destruct H as [He Hl]. split; [done|]. eapply Nat.lt_le_trans; [exact Hl|]. apply subseteq_size. set_solver.
  - destruct H as (Hn & Hs & Hl). destruct (bool_decide _) eqn:Ep.
    + apply bool_decide_eq_true in Ep. rewrite Es. split; [done|]. split; [set_solver|done].
    + apply bool_decide_eq_false in Ep. destruct (_ <=? _)%nat eqn:Em; cbn [eviction_history_saturated evicted_projects].
      * split; [done|]. apply Nat.leb_le in Em. rewrite size_union by set_solver.
        rewrite <- Hs, size_list_to_set, size_singleton by done. lia.
      * apply Nat.leb_gt in Em. split; [apply NoDup_app; split; [done|]; split; [set_solver|apply NoDup_singleton]|].
        split; [set_solver|]. rewrite length_app. simpl. lia.
Qed.

Lemma restrict_unless_remembers s lost p :
  remembers s lost ->
  held (restrict_unless_held s p) = held s /\
  remembers (restrict_unless_held s p) (lost ∪ ({[p]} ∖ projects (held s))).
Proof.
  intros H. unfold restrict_unless_held. rewrite existsb_projects. case_bool_decide as Hp.
  - split; [done|]. replace (lost ∪ _) with lost by set_solver. done.
  - split; [apply restrict_held|]. replace ({[p]} ∖ projects (held s)) with ({[p]} : gset Z) by set_solver.
    by apply restrict_remembers.
Qed.

Lemma restrict_all_remembers ps : forall s lost,
  remembers s lost ->
  held (foldl restrict_unless_held s ps) = held s /\
  remembers (foldl restrict_unless_held s ps) (lost ∪ (list_to_set ps ∖ projects (held s))).
Proof.
  induction ps as [|p ps IH]; intros s lost H.
  - split; [done|]. replace (lost ∪ _) with lost by set_solver. done.
  - cbn [foldl list_to_set]. destruct (restrict_unless_remembers s lost p H) as [Hh Hr].
    destruct (IH _ _ Hr) as [Hh' Hr']. split; [congruence|]. rewrite Hh in Hr'.
    replace (lost ∪ _) with (lost ∪ {[p]} ∖ projects (held s) ∪ list_to_set ps ∖ projects (held s)) by set_solver. done.
Qed.

(** ** One update *)

Lemma enforce_fits h s : (length h <= MAX_SESSION_BINDINGS)%nat -> enforce_capacity h s = set_held h s.
Proof. intros H. destruct h; [done|]. cbn [enforce_capacity]. by rewrite (proj2 (Nat.leb_le _ _) H). Qed.

Lemma enforce_one e h s :
  length h = MAX_SESSION_BINDINGS ->
  enforce_capacity (e :: h) s = set_held h (restrict_unless_held (set_held h s) (sb_project e)).
Proof.
  intros H. cbn [enforce_capacity]. rewrite (proj2 (Nat.leb_gt _ _)) by (cbn [length]; lia).
  apply enforce_fits. lia.
Qed.

(** What a bind leaves before the capacity is enforced, and after. *)
Definition rebound (p id : Z) (name : ustr) (now : Z) (h : list SessionBinding) : list SessionBinding :=
  List.filter (fun b => negb (is_agent id b)) h ++ [mkBinding p id name now].
Definition trimmed_held (h : list SessionBinding) : list SessionBinding :=
  if (length h <=? MAX_SESSION_BINDINGS)%nat then h else tail h.

Lemma rebound_length p id name now h :
  (length h <= MAX_SESSION_BINDINGS)%nat -> (length (rebound p id name now h) <= S MAX_SESSION_BINDINGS)%nat.
Proof.
  intros H. unfold rebound. rewrite length_app. cbn [length].
  pose proof (filter_length_le (fun b => negb (is_agent id b)) h). lia.
Qed.

Lemma capacity_step h s lost :
  (length h <= S MAX_SESSION_BINDINGS)%nat -> remembers s lost ->
  held (enforce_capacity h s) = trimmed_held h /\
  remembers (enforce_capacity h s) (lost ∪ (projects h ∖ projects (trimmed_held h))).
Proof.
  intros Hl Hr. unfold trimmed_held. destruct (length h <=? MAX_SESSION_BINDINGS)%nat eqn:E.
  - apply Nat.leb_le in E. rewrite enforce_fits by done. split; [done|].
    replace (lost ∪ _) with lost by set_solver. done.
  - apply Nat.leb_gt in E. destruct h as [|e h]; [cbn [length] in E; lia|]. cbn [length tail] in *.
    rewrite enforce_one by lia. split; [done|].
    replace (lost ∪ _) with (lost ∪ {[sb_project e]} ∖ projects (held (set_held h s))).
    + apply remembers_held. by apply restrict_unless_remembers.
    + unfold projects. cbn [map list_to_set set_held held]. set_solver.
Qed.

Lemma bind_held p id name now s :
  (length (held s) <= MAX_SESSION_BINDINGS)%nat ->
  held (bind_update p id name now s) = trimmed_held (rebound p id name now (held s)).
Proof.
  intros Hl. unfold bind_update. cbv zeta. fold (rebound p id name now (held s)).
  assert (forall ps s', held (foldl restrict_unless_held s' ps) = held s') as Hf.
  { induction ps as [|q ps IH]; intros s'; [done|]. cbn [foldl]. rewrite IH. unfold restrict_unless_held.
    destruct (existsb _ _); [done|apply restrict_held]. }
  rewrite Hf. cbn [set_held held]. pose proof (rebound_length p id name now _ Hl) as Hr. unfold trimmed_held.
  destruct (_ <=? _)%nat eqn:E; [by rewrite enforce_fits by by apply Nat.leb_le|].
  apply Nat.leb_gt in E. destruct (rebound p id name now (held s)) as [|e h]; [cbn [length] in E; lia|].
  cbn [length] in *. by rewrite enforce_one by lia.
Qed.

Lemma trimmed_incl h b : In b (trimmed_held h) -> In b h.
Proof. unfold trimmed_held. destruct (_ <=? _)%nat; [done|]. destruct h; [done|]. by right. Qed.

Lemma trimmed_length h :
  (length h <= S MAX_SESSION_BINDINGS)%nat -> (length (trimmed_held h) <= MAX_SESSION_BINDINGS)%nat.
Proof.
  intros H. unfold trimmed_held. destruct (_ <=? _)%nat eqn:E; [by apply Nat.leb_le|]. destruct h; simpl in *; lia.
Qed.

(** The binding just made is held. *)
Lemma trimmed_last h b :
  (length h <= MAX_SESSION_BINDINGS)%nat -> In b (trimmed_held (h ++ [b])).
Proof.
  intros H. unfold trimmed_held. destruct (_ <=? _)%nat eqn:E; [apply in_or_app; right; by left|].
  apply Nat.leb_gt in E. rewrite length_app in E. cbn [length] in E. destruct h as [|a h]; [cbn [length] in E; unfold MAX_SESSION_BINDINGS in E; lia|].
  cbn [app tail]. apply in_or_app. right. by left.
Qed.

Lemma taken_split (L S G H T : gset Z) p :
  T ⊆ H -> p ∈ T -> G ⊆ S -> S ⊆ G ∪ H ∪ {[p]} -> H ⊆ S ∪ {[p]} -> L ∪ S ∖ T = L ∪ G ∖ H ∪ H ∖ T.
Proof.
  intros HT Hp HG HS HH. apply set_eq. intros q. specialize (HT q). specialize (HG q). specialize (HS q). specialize (HH q).
  destruct (decide (q = p)) as [->|Hq]; [set_solver|].
  destruct (decide (q ∈ T)), (decide (q ∈ H)), (decide (q ∈ G)), (decide (q ∈ S)); set_solver.
Qed.

Lemma bind_remembers p id name now s lost :
  (length (held s) <= MAX_SESSION_BINDINGS)%nat -> remembers s lost ->
  remembers (bind_update p id name now s)
    (lost ∪ (projects (held s) ∖ projects (trimmed_held (rebound p id name now (held s))))).
Proof.
  intros Hl Hr. unfold bind_update. cbv zeta. fold (rebound p id name now (held s)).
  remember (List.filter (fun b => is_agent id b && negb (in_project p b)) (held s)) as gone eqn:Eg.
  remember (rebound p id name now (held s)) as h eqn:Eh.
  destruct (restrict_all_remembers (map sb_project gone) (set_held h s) lost Hr) as [Hh Hr1]. rewrite Hh.
  cbn [held set_held] in Hr1 |- *.
  assert (length h <= S MAX_SESSION_BINDINGS)%nat as Hlen by (subst h; by apply rebound_length).
  destruct (capacity_step h _ _ Hlen Hr1) as [_ Hr2].
  replace (lost ∪ _) with (lost ∪ list_to_set (map sb_project gone) ∖ projects h ∪ projects h ∖ projects (trimmed_held h));
    [exact Hr2|]. fold (projects gone). clear Hr Hr1 Hr2 Hh.
  assert (projects (trimmed_held h) ⊆ projects h) as Hsub.
  { intros q (b & Hb & Hq)%elem_projects. apply elem_projects. exists b. split; [by apply trimmed_incl|done]. }
  assert (p ∈ projects (trimmed_held h)) as Hp.
  { apply elem_projects. exists (mkBinding p id name now). split; [|done]. subst h. apply trimmed_last.
    pose proof (filter_length_le (fun b => negb (is_agent id b)) (held s)). lia. }
  symmetry. apply taken_split with p; [done|done| | |]; subst gone h; intros q (b & Hb & <-)%elem_projects.
  - apply filter_In in Hb as [Hb _]. apply elem_projects. by exists b.
  - rewrite !elem_of_union, !elem_projects, elem_of_singleton. destruct (is_agent id b) eqn:Ei.
    + destruct (in_project p b) eqn:Ep; [right; by apply Z.eqb_eq|]. left; left. exists b. split; [|done].
      apply filter_In. by rewrite Ei, Ep.
    + left; right. exists b. split; [|done]. apply in_or_app. left. apply filter_In. by rewrite Ei.
  - rewrite elem_of_union, elem_projects, elem_of_singleton.
    apply in_app_or in Hb as [[Hb _]%filter_In|[<-|[]]]; [left; by exists b|by right].
Qed.

(** ** All histories *)

Definition session_inv (s : SessionIdentityState) (lost : gset Z) : Prop :=
  (length (held s) <= MAX_SESSION_BINDINGS)%nat /\ remembers s lost.

Lemma session_inv_step s lost o :
  session_inv s lost -> session_inv (apply_session_op s o) (lost ∪ taken s o).
Proof.
  intros [Hl Hr]. destruct o as [p id name now|id]; cbn [taken apply_session_op].
  - destruct (binds true true p id name).
    + rewrite bind_held by done. split; [|by apply bind_remembers].
      rewrite bind_held by done. apply trimmed_length, rebound_length. done.
    + split; [done|]. replace (lost ∪ _) with lost by set_solver. done.
  - split; [|replace (lost ∪ ∅) with lost by set_solver; exact Hr].
    cbn [unbind_update snd set_held held]. etransitivity; [apply filter_length_le|done].
Qed.

Lemma session_inv_history ops : session_inv (session ops) (lost_projects ops).
Proof.
  induction ops as [|o ops IH] using rev_ind; [split; [apply Nat.le_0_l|apply remembers_empty]|].
  rewrite session_snoc, lost_snoc. by apply session_inv_step.
Qed.

Lemma remembers_restricts s lost p :
  remembers s lost -> eviction_restricts s p = bool_decide (p ∈ lost \/ (MAX_EVICTED_PROJECTS < size lost)%nat).
Proof.
  unfold remembers, eviction_restricts. destruct (eviction_history_saturated s); cbn [orb].
  - intros [_ H]. rewrite bool_decide_eq_true_2 by (by right). done.
  - intros (Hn & <- & Hl). apply bool_decide_ext. rewrite elem_of_list_to_set, size_list_to_set by done.
    split; [by left|]. intros [H|H]; [done|lia].
Qed.

Lemma matches_project b a : matches_agent b a = true -> sb_project b = ar_project a.
Proof. unfold matches_agent. rewrite !andb_true_iff, !Z.eqb_eq. intros H. symmetry. tauto. Qed.

Lemma authorize_iff s a action :
  authorize_actor_from_state s a action = inr tt <->
  existsb (fun b => matches_agent b a) (held s) = true \/
  (ar_project a ∉ projects (held s) /\ eviction_restricts s (ar_project a) = false).
Proof.
  unfold authorize_actor_from_state. cbv zeta. remember (List.filter (in_project (ar_project a)) (held s)) as h eqn:Eh.
  assert (existsb (fun b => matches_agent b a) h = existsb (fun b => matches_agent b a) (held s)) as ->.
  { apply eq_bool_prop_intro. rewrite !Is_true_true, !existsb_exists. subst h. split; intros (b & Hb & Hm); exists b.
    - by apply filter_In in Hb as [Hb _].
    - split; [|done]. apply filter_In. split; [done|]. by apply Z.eqb_eq, matches_project. }
  assert (match h with [] => true | _ => false end = bool_decide (ar_project a ∉ projects (held s))) as ->.
  { apply eq_bool_prop_intro. rewrite bool_decide_spec, elem_projects, Is_true_true. subst h. split.
    - intros Hn (b & Hb & Hp). destruct (List.filter _ _) as [|x l] eqn:E; [|done].
      assert (In b []) as []. rewrite <- E. apply filter_In. split; [done|]. by apply Z.eqb_eq.
    - intros Hn. destruct (List.filter _ _) as [|x l] eqn:E; [done|]. destruct Hn.
      assert (In x (List.filter (in_project (ar_project a)) (held s))) as Hx by (rewrite E; by left).
      apply filter_In in Hx as [Hx Hp%Z.eqb_eq]. by exists x. }
  clear Eh. destruct (existsb _ (held s)); [rewrite orb_true_r; by split; [left|]|]. rewrite orb_false_r.
  case_bool_decide as Hb; destruct (eviction_restricts s (ar_project a)); cbn [andb negb].
  2: { split; [by right|done]. }
  all: split; [destruct (eviction_history_saturated s), (map sb_name h); done|intros [?|[? ?]]; done].
Qed.

(** C32: The bounded state of a session decides like a record that never forgets.
    Let [lost] be every project whose last held identity an automatic removal took
    away, over the whole life of the session.  Then an actor is authorised without
    a token exactly when the session holds that very identity - project, id and
    spelling - or holds nothing in the project, never lost it, and has lost at most
    thirty-two projects in all; past that bound only held identities pass.  No
    history makes the state hold more than thirty-two bindings or markers. *)
Theorem session_authority_exact ops a action :
  let s := session ops in
  let lost := lost_projects ops in
  (authorize_actor_from_state s a action = inr tt <->
     existsb (fun b => matches_agent b a) (held s) = true \/
     (ar_project a ∉ projects (held s) /\ ar_project a ∉ lost /\ (size lost <= MAX_EVICTED_PROJECTS)%nat)) /\
  (length (held s) <= MAX_SESSION_BINDINGS)%nat /\ (length (evicted_projects s) <= MAX_EVICTED_PROJECTS)%nat.
Proof.
  cbv zeta. destruct (session_inv_history ops) as [Hl Hr]. split; [|split; [done|]].
  - rewrite authorize_iff, (remembers_restricts _ _ _ Hr), bool_decide_eq_false.
    assert (forall n : nat, ~ (MAX_EVICTED_PROJECTS < n)%nat <-> (n <= MAX_EVICTED_PROJECTS)%nat) as Hn by (intros; lia).
    rewrite <- Hn. tauto.
  - unfold remembers in Hr. destruct (eviction_history_saturated _); [destruct Hr as [-> _]; apply Nat.le_0_l|tauto].
Qed.

(** What [lost_projects] says, without the fold. *)
Lemma lost_projects_spec ops p :
  p ∈ lost_projects ops <->
  exists before o after, ops = before ++ o :: after /\ p ∈ taken (session before) o.
Proof.
  induction ops as [|o ops IH] using rev_ind.
  - split; [done|]. intros (before & o & after & H & _). by destruct before.
  - rewrite lost_snoc, elem_of_union, IH. split.
    + intros [(before & o' & after & -> & H)|H]; [exists before, o', (after ++ [o]); by rewrite <- app_assoc|].
      by exists ops, o, [].
    + intros (before & o' & after & He & H). destruct after as [|x after _] using rev_ind.
      * apply app_inj_tail in He as [-> ->]. by right.
      * left. exists before, o', after. split; [|done]. rewrite app_comm_cons, app_assoc in He.
        by apply app_inj_tail in He as [-> _].
Qed.

(** ** Where identities come from *)

(** The update speaks of this agent id. *)
Definition mentions (id : Z) (o : SessionOp) : Prop :=
  proceeds o = true /\ match o with SBind _ i _ _ | SUnbind i => i = id end.

Lemma held_step s o b :
  (length (held s) <= MAX_SESSION_BINDINGS)%nat -> In b (held (apply_session_op s o)) ->
  (In b (held s) /\ ~ mentions (sb_agent b) o) \/
  (proceeds o = true /\ o = SBind (sb_project b) (sb_agent b) (sb_name b) (sb_bound_at b)).
Proof.
  intros Hl. destruct o as [p id name now|id]; cbn [apply_session_op].
  - destruct (binds true true p id name) eqn:Eb.
    + rewrite bind_held by done. intros [[Hb Hi]%filter_In|[<-|[]]]%trimmed_incl%in_app_or; [left|by right].
      split; [done|]. intros [_ ->]. unfold is_agent in Hi. by rewrite Z.eqb_refl in Hi.
    + intros Hb. left. split; [done|]. intros [Hp _]. cbn [proceeds] in Hp. congruence.
  - cbn [unbind_update snd set_held held]. intros [Hb Hi]%filter_In. left. split; [done|]. intros [_ ->].
    unfold is_agent in Hi. by rewrite Z.eqb_refl in Hi.
Qed.

(** Every identity a session holds was established by a bind of that session
    with exactly its project, id, spelling and time, all three of them proper, and
    no bind or unbind of the same id came after: nothing resurrects an identity. *)
Theorem held_identity_was_bound ops b :
  In b (held (session ops)) ->
  exists before after,
    ops = before ++ SBind (sb_project b) (sb_agent b) (sb_name b) (sb_bound_at b) :: after /\
    0 < sb_project b /\ 0 < sb_agent b /\ is_empty (trim (sb_name b)) = false /\
    Forall (fun o => ~ mentions (sb_agent b) o) after.
Proof.
  induction ops as [|o ops IH] using rev_ind; [done|]. rewrite session_snoc. intros Hb.
  destruct (held_step _ _ _ (proj1 (session_inv_history ops)) Hb) as [[Hold Hm]|[Hp ->]].
  - destruct (IH Hold) as (before & after & -> & H1 & H2 & H3 & Hf). exists before, (after ++ [o]).
    rewrite <- app_assoc. repeat split; [done|done|done|]. apply Forall_app. split; [done|]. by apply Forall_singleton.
  - exists ops, []. cbn [proceeds] in Hp. unfold binds in Hp. rewrite !andb_true_iff, !Z.ltb_lt, negb_true_iff in Hp.
    split; [done|]. split_and!; [tauto|tauto|tauto|by apply Forall_nil].
Qed.

(** ** Deferred actors *)

Definition unmatched_agent (p : Z) : AgentRow := mkAgentRow 0 p [] [] [] [] 0 0 [] [] 0 None None.

Lemma unmatched_agent_no b p : matches_agent b (unmatched_agent p) = false.
Proof.
  apply not_true_iff_false. unfold matches_agent. rewrite !andb_true_iff, Z.ltb_lt, !Z.eqb_eq. cbn [ar_id unmatched_agent]. lia.
Qed.

Lemma permits_iff s q :
  permits_unresolved_actor s q = true <->
  eviction_history_saturated s = false /\
  forall p, (match q with None => True | Some q => p = q end) -> p ∉ evicted_projects s /\ p ∉ projects (held s).
Proof.
  unfold permits_unresolved_actor. rewrite !andb_true_iff, !negb_true_iff, Init.Logic.and_assoc.
  apply and_iff_compat_l.
  assert (forall p, (match q with None => true | Some q => p =? q end) = true <-> match q with None => True | Some q => p = q end)
    as Hq by (intros p; destruct q; [apply Z.eqb_eq|done]).
  split.
  - intros [He Hh] p Hp. split.
    + intros Hin. apply not_true_iff_false in He. apply He, existsb_exists. exists p. split; [by apply list_elem_of_In|by apply Hq].
    + intros (b & Hb & Hbp)%elem_projects. apply not_true_iff_false in Hh. apply Hh, existsb_exists. exists b.
      split; [done|]. rewrite Hbp. by apply Hq.
  - intros H. split; apply not_true_iff_false; intros (x & Hx & Hp)%existsb_exists.
    + destruct (H x) as [Hn _]; [by apply Hq|]. apply Hn. by apply list_elem_of_In.
    + destruct (H (sb_project x)) as [_ Hn]; [by apply Hq|]. apply Hn, elem_projects. by exists x.
Qed.

(** A snapshot admits an actor it could not resolve exactly when it would
    authorise every actor it might turn out to be: all actors of the project, or
    all actors anywhere when the project is unknown too.  So an outage never turns
    a refused actor into an accepted one. *)
Theorem unresolved_actor_exact s q action :
  permits_unresolved_actor s q = true <->
  forall a, (match q with None => True | Some p => ar_project a = p end) ->
    authorize_actor_from_state s a action = inr tt.
Proof.
  rewrite permits_iff. split.
  - intros [Hs Hp] a Ha. apply authorize_iff. right. destruct (Hp (ar_project a) Ha) as [He Hh]. split; [done|].
    unfold eviction_restricts. by rewrite Hs, bool_decide_eq_false_2.
  - intros H. assert (forall p, (match q with None => True | Some q => p = q end) ->
       p ∉ projects (held s) /\ eviction_restricts s p = false) as Hall.
    { intros p Hp. destruct (proj1 (authorize_iff s (unmatched_agent p) action) (H (unmatched_agent p) Hp)) as [He|He]; [|done].
      apply existsb_exists in He as (b & _ & Hb). by rewrite unmatched_agent_no in Hb. }
    split.
    + destruct (Hall (default 0 q)) as [_ Hr]; [by destruct q|]. by apply orb_false_iff in Hr as [Hs _].
    + intros p Hp. destruct (Hall p Hp) as [Hh Hr]. split; [|done]. apply orb_false_iff in Hr as [_ Hr].
      by apply bool_decide_eq_false in Hr.
Qed.

(** ** Interleaving *)

Lemma update_apply o s :
  proceeds o = true -> (if fst (update o s) then snd (update o s) else s) = apply_session_op s o.
Proof.
  destruct o as [p id name now|id]; cbn [update apply_session_op proceeds fst snd]; [by intros ->|]. intros _.
  unfold unbind_update. cbn [fst snd]. destruct (_ =? _)%nat eqn:E; [|done]. cbn [negb]. apply Nat.eqb_eq in E.
  apply filter_length_forallb in E. rewrite forallb_forall in E. destruct s as [h ev sat]. unfold set_held. cbn [held evicted_projects eviction_history_saturated] in *.
  by rewrite bfilter_all_true.
Qed.

(** However requests interleave their reads, stores and the lock, whenever
    the lock is free the stored session is the one their updates make when run one
    after the other in the order the lock was granted, and while a request holds
    the lock nobody else has stored anything since it read: no update is lost, and
    what authorisation reads in between is always the result of whole updates. *)
Theorem session_updates_serialize st :
  reachable st ->
  stored st = session (committed st) /\
  match lock_holder st with
  | Some (mkUpdater _ _ (Some s) false) => s = stored st
  | _ => True
  end.
Proof.
  intros Hr. pose (I := fun st => stored st = session (committed st) /\
    match lock_holder st with
    | Some (mkUpdater _ o r d) => proceeds o = true /\ (d = false -> forall s, r = Some s -> s = stored st)
    | None => True
    end).
  assert (I st) as [H1 H2].
  { revert st Hr. apply invariant_reachable. split; [by intros st ->|]. intros s l s' [Hs Hh] Hstep.
    destruct Hstep; cbn [stored committed lock_holder] in *; (split; [|cbn [lock_holder]]).
    - done.
    - by split.
    - done.
    - destruct Hh as [Hp _]. split; [done|]. by intros _ s [= ->].
    - destruct Hh as [Hp Hh]. cbn [stored committed]. rewrite session_snoc, <- Hs, <- update_apply by done.
      by rewrite (Hh eq_refl s eq_refl).
    - destruct Hh as [Hp _]. by split.
    - done.
    - done. }
  split; [done|]. destruct (lock_holder st) as [[t o [s|] []]|]; [done| |done|done|done]. by apply H2.
Qed.

Definition witness_binds : list SessionOp :=
  [SBind 10 1 (u "BlueLake") 5; SBind 20 2 (u "RedStone") 6; SUnbind 2; SBind 10 3 (u "GreenCastle") 7].

Lemma held_identity_was_bound_witness :
  exists before after, witness_binds = before ++ SBind 10 1 (u "BlueLake") 5 :: after /\
    Forall (fun o => ~ mentions 1 o) after.
Proof.
  destruct (held_identity_was_bound witness_binds (mkBinding 10 1 (u "BlueLake") 5)) as (before & after & H & _ & _ & _ & Hf).
  - vm_compute. left. reflexivity.
  - exists before, after. exact (conj H Hf).
Defined.

Lemma session_updates_serialize_witness :
  exists st, reachable st /\ lock_holder st = None /\ stored st = session [SBind 10 1 (u "BlueLake") 5].
Proof.
  remember (SBind 10 1 (u "BlueLake") 5) as o eqn:Eo.
  assert (proceeds o = true) as Hp by (subst o; vm_compute; reflexivity).
  assert (reachable (mkShared empty_session None [])) as H0 by (apply reach_init; reflexivity).
  pose proof (reach_step _ _ _ H0 (step_lock empty_session [] 1 o Hp)) as H1.
  pose proof (reach_step _ _ _ H1 (step_read empty_session [] 1 o)) as H2.
  pose proof (reach_step _ _ _ H2 (step_store empty_session [] 1 o empty_session)) as H3.
  pose proof (reach_step _ _ _ H3 (step_unlock _ _ 1 o empty_session)) as H4.
  eexists. split; [exact H4|]. split; [reflexivity|]. exact (proj1 (session_updates_serialize _ H4)).
Defined.
