(* ===== verification/AgentRegistryProps.v ===== *)
(** * Identities of the agent registry

    Every transaction keeps the rows it finds, in place and under their ids and
    names, and adds at most one row whose name nobody holds - but the clean-up of
    a registration whose probe failed, which takes one row out.  From this follow
    the uniqueness of names, the permanence of identities and the finality of
    deregistration. *)

From S2P Require Import Prelude.
From S2P Require Import RustStr.
From S2P Require Import Pattern.
From S2P Require Import AgentNames.
From S2P Require Import Leases.
From S2P Require Import AgentRegistry.

(** What never changes in a row. *)
Definition identity (a : AgentRow) : Z * Z * ustr * Z := (ar_id a, ar_project a, ar_name a, ar_inception a).

(** Two spellings of one name in one project. *)
Definition same_name (p q : Z) (n m : ustr) : Prop := p = q /\ to_ascii_lowercase n = to_ascii_lowercase m.

Record registry_ok (db : AgentDb) : Prop := {
  rok_ids : NoDup (map ar_id (agent_rows db));
  rok_next : forall a, In a (agent_rows db) -> ar_id a < next_agent db;
  rok_names : forall a b, In a (agent_rows db) -> In b (agent_rows db) ->
    same_name (ar_project a) (ar_project b) (ar_name a) (ar_name b) -> a = b;
  rok_deregs : forall id ts, deregistrations db !! id = Some ts -> id < next_agent db;
}.

Lemma empty_registry_ok : registry_ok empty_registry.
Proof. split; try done. apply NoDup_nil_2. Qed.

(** ** Lookups *)

Lemma names_spec p n a : names p n a = true <-> same_name (ar_project a) p (ar_name a) n.
Proof.
  unfold names, same_name, eq_ignore_ascii_case. rewrite andb_true_iff, Z.eqb_eq. fold (ustr_eqb).
  by rewrite ustr_eqb_eq.
Qed.

Lemma get_agent_Some db p n a :
  get_agent db p n = Some a -> In a (agent_rows db) /\ same_name (ar_project a) p (ar_name a) n.
Proof. intros [H1 H2]%find_some. by rewrite names_spec in H2. Qed.

Lemma get_agent_None db p n a :
  get_agent db p n = None -> In a (agent_rows db) -> ~ same_name (ar_project a) p (ar_name a) n.
Proof. intros H Ha. rewrite <- names_spec. by rewrite (find_none _ _ H a Ha). Qed.

Lemma get_agent_In db p n a :
  registry_ok db -> In a (agent_rows db) -> same_name (ar_project a) p (ar_name a) n -> get_agent db p n = Some a.
Proof.
  intros Hok Ha [H1 H2]. destruct (get_agent db p n) as [b|] eqn:E.
  - apply get_agent_Some in E as [Hb [H3 H4]]. f_equal. apply (rok_names _ Hok); [done|done|]. split; congruence.
  - destruct (get_agent_None _ _ _ a E Ha). by split.
Qed.

Lemma get_by_id_Some db id a : get_agent_by_id db id = Some a -> In a (agent_rows db) /\ ar_id a = id.
Proof. intros [H1 H2%Z.eqb_eq]%find_some. done. Qed.

Lemma get_by_id_In db a : registry_ok db -> In a (agent_rows db) -> get_agent_by_id db (ar_id a) = Some a.
Proof.
  intros Hok. pose proof (rok_ids _ Hok) as Hnd. unfold get_agent_by_id. induction (agent_rows db) as [|b l IH]; [done|].
  cbn [map] in Hnd. apply NoDup_cons in Hnd as [Hb Hnd]. cbn [List.find]. intros [->|Ha].
  - by rewrite Z.eqb_refl.
  - destruct (Z.eqb_spec (ar_id b) (ar_id a)) as [He|He]; [|by apply IH].
    destruct Hb. rewrite He. by apply list_elem_of_In, in_map.
Qed.

(** ** What a transaction does to the rows *)

(** What deregistration freezes: all but the token and the activity. *)
Definition frozen (a : AgentRow) :=
  (ar_program a, ar_model a, ar_task a, ar_attachments a, ar_contact a, ar_reaper_exempt a, ar_retired_at a).

Definition kept (db : AgentDb) (a a' : AgentRow) : Prop :=
  identity a' = identity a /\ (is_Some (deregistrations db !! ar_id a) -> frozen a' = frozen a).

Inductive extends (db : AgentDb) : list AgentRow -> Z -> Prop :=
  | extends_none next : next_agent db <= next -> extends db [] next
  | extends_row r next :
      ar_id r = next_agent db -> next_agent db < next -> get_agent db (ar_project r) (ar_name r) = None ->
      extends db [r] next.

Record evolves (db db' : AgentDb) : Prop := {
  ev_rows : exists g extra, agent_rows db' = map g (agent_rows db) ++ extra /\
    (forall a, In a (agent_rows db) -> kept db a (g a)) /\ extends db extra (next_agent db');
  ev_deregs : forall id ts, deregistrations db !! id = Some ts -> deregistrations db' !! id = Some ts;
  ev_new : forall id, is_Some (deregistrations db' !! id) ->
    is_Some (deregistrations db !! id) \/ In id (map ar_id (agent_rows db));
}.

Lemma identity_eq a b :
  identity a = identity b <->
  ar_id a = ar_id b /\ ar_project a = ar_project b /\ ar_name a = ar_name b /\ ar_inception a = ar_inception b.
Proof. unfold identity. split; [by intros [= -> -> -> ->]|by intros (-> & -> & -> & ->)]. Qed.

Lemma kept_id db a a' : kept db a a' -> ar_id a' = ar_id a.
Proof. intros [(-> & _)%identity_eq _]. done. Qed.

Lemma kept_refl db a : kept db a a.
Proof. by split. Qed.

(** Rows updated in place. *)
Lemma update_evolves db id f deregs :
  (forall a, In a (agent_rows db) -> ar_id a = id -> kept db a (f a)) ->
  (forall i ts, deregistrations db !! i = Some ts -> deregs !! i = Some ts) ->
  (forall i, is_Some (deregs !! i) -> is_Some (deregistrations db !! i) \/ In i (map ar_id (agent_rows db))) ->
  evolves db (update_agent id f (mkAgentDb (agent_rows db) deregs (next_agent db))).
Proof.
  intros Hf Hd Hn. split; [|done|done].
  exists (fun a => if ar_id a =? id then f a else a), []. rewrite app_nil_r. split; [done|]. split; [|by constructor].
  intros a Ha. destruct (Z.eqb_spec (ar_id a) id); [by apply Hf|apply kept_refl].
Qed.

Lemma evolves_refl db : evolves db db.
Proof.
  split; [|done|auto]. exists id, []. rewrite app_nil_r, map_id. split; [done|].
  split; [intros; apply kept_refl|by constructor].
Qed.

(** A new row for a free name. *)
Lemma insert_evolves db r :
  ar_id r = next_agent db -> get_agent db (ar_project r) (ar_name r) = None -> evolves db (insert_agent r db).
Proof.
  intros Hi Hg. split; [|done|auto]. exists id, [r]. rewrite map_id. split; [done|].
  split; [intros; apply kept_refl|]. constructor; [done|simpl; lia|done].
Qed.

(** Uniqueness survives. *)
Lemma evolves_ok db db' : registry_ok db -> evolves db db' -> registry_ok db'.
Proof.
  intros Hok [(g & extra & Hrows & Hg & Hx) Hd Hn].
  assert (map ar_id (map g (agent_rows db)) = map ar_id (agent_rows db)) as Hids.
  { rewrite map_map. apply map_ext_in. intros a Ha. apply (kept_id db), Hg, Ha. }
  assert (forall a', In a' (map g (agent_rows db)) -> exists a, In a (agent_rows db) /\ a' = g a /\ kept db a (g a)) as Hold.
  { intros a' (a & <- & Ha)%in_map_iff. exists a. auto. }
  assert (next_agent db <= next_agent db') as Hle by (destruct Hx; lia).
  assert (forall a b, In a (agent_rows db) -> In b (agent_rows db) ->
     same_name (ar_project (g a)) (ar_project (g b)) (ar_name (g a)) (ar_name (g b)) -> a = b) as Hinj.
  { intros a b Ha Hb. destruct (Hg a Ha) as [(_ & -> & -> & _)%identity_eq _].
    destruct (Hg b Hb) as [(_ & -> & -> & _)%identity_eq _]. by apply (rok_names _ Hok). }
  split.
  - rewrite Hrows, map_app, Hids. destruct Hx as [|r next Hr _ _]; [rewrite app_nil_r; apply Hok|].
    apply NoDup_app. split; [apply Hok|]. split; [|apply NoDup_singleton].
    intros i (a & <- & Ha)%list_elem_of_In%in_map_iff [Hi|Hi]%list_elem_of_In; [|done].
    pose proof (rok_next _ Hok a Ha). lia.
  - intros a'. rewrite Hrows. intros [Ha|Ha]%in_app_or.
    + destruct (Hold _ Ha) as (a & Hin & -> & Hk). rewrite (kept_id db _ _ Hk).
      pose proof (rok_next _ Hok a Hin). lia.
    + destruct Hx as [|r next Hr Hlt _]; [done|]. destruct Ha as [<-|[]]. lia.
  - intros a' b'. rewrite Hrows. intros [Ha|Ha]%in_app_or [Hb|Hb]%in_app_or Hs.
    + destruct (Hold _ Ha) as (a & Hina & -> & _). destruct (Hold _ Hb) as (b & Hinb & -> & _).
      f_equal. by apply Hinj.
    + destruct (Hold _ Ha) as (a & Hina & -> & [(_ & Hp & Hnm & _)%identity_eq _]).
      destruct Hx as [|r next _ _ Hr]; [done|]. destruct Hb as [<-|[]]. rewrite Hp, Hnm in Hs.
      by destruct (get_agent_None _ _ _ _ Hr Hina).
    + destruct (Hold _ Hb) as (b & Hinb & -> & [(_ & Hp & Hnm & _)%identity_eq _]).
      destruct Hx as [|r next _ _ Hr]; [done|]. destruct Ha as [<-|[]]. rewrite Hp, Hnm in Hs. destruct Hs as [H1 H2].
      by destruct (get_agent_None _ _ _ _ Hr Hinb).
    + destruct Hx as [|r next _ _ _]; [done|]. destruct Ha as [<-|[]], Hb as [<-|[]]. done.
  - intros i ts Hi. destruct (Hn i) as [[ts' Hi']|(a & <- & Ha)%in_map_iff]; [by exists ts| |].
    + pose proof (rok_deregs _ Hok i ts' Hi'). lia.
    + pose proof (rok_next _ Hok a Ha). lia.
Qed.

(** ** Each transaction *)

Lemma get_agent_insert db r p n :
  get_agent (insert_agent r db) p n =
  match get_agent db p n with Some a => Some a | None => if names p n r then Some r else None end.
Proof.
  unfold get_agent, insert_agent. cbn [agent_rows]. induction (agent_rows db) as [|a l IH]; cbn [app List.find]; [done|].
  by destruct (names p n a).
Qed.

Lemma fresh_identity db now p n prof :
  ar_id (fresh_row db now p n prof) = next_agent db /\ ar_project (fresh_row db now p n prof) = p /\
  ar_name (fresh_row db now p n prof) = n.
Proof. done. Qed.

Lemma names_self p n r : ar_project r = p -> ar_name r = n -> names p n r = true.
Proof. intros <- <-. by apply names_spec. Qed.

(** An upsert under a free name inserts; one under a held name updates its row. *)
Lemma upsert_free db now p n prof :
  get_agent db p n = None -> upsert_agent db now p n prof = insert_agent (fresh_row db now p n prof) db.
Proof.
  intros Hg. unfold upsert_agent. destruct (existsb _ _) eqn:E; [|done].
  apply existsb_exists in E as (a & Ha & [Hp%Z.eqb_eq Hn%ustr_eqb_eq]%andb_prop).
  destruct (get_agent_None _ _ _ a Hg Ha). by rewrite Hp, Hn.
Qed.

Lemma upsert_held db now e prof :
  registry_ok db -> In e (agent_rows db) ->
  upsert_agent db now (ar_project e) (ar_name e) prof = update_agent (ar_id e) (set_profile now prof) db.
Proof.
  intros Hok He. unfold upsert_agent.
  rewrite (proj2 (existsb_exists _ _)) by (exists e; split; [done|]; by rewrite Z.eqb_refl, ustr_eqb_refl).
  unfold update_agent, set_agents. f_equal. apply map_ext_in. intros a Ha.
  destruct ((ar_project a =? ar_project e) && ustr_eqb (ar_name a) (ar_name e)) eqn:E.
  - apply andb_prop in E as [Hp%Z.eqb_eq Hn%ustr_eqb_eq].
    rewrite (rok_names _ Hok a e Ha He) by (by rewrite Hp, Hn). by rewrite Z.eqb_refl.
  - destruct (Z.eqb_spec (ar_id a) (ar_id e)) as [Hi|]; [|done]. exfalso.
    pose proof (get_by_id_In db a Hok Ha) as H1. pose proof (get_by_id_In db e Hok He) as H2.
    rewrite Hi, H2 in H1. injection H1 as ->. by rewrite Z.eqb_refl, ustr_eqb_refl in E.
Qed.

Lemma get_by_id_update db id f a :
  registry_ok db -> In a (agent_rows db) -> ar_id a = id -> ar_id (f a) = id ->
  get_agent_by_id (update_agent id f db) id = Some (f a).
Proof.
  intros Hok Ha <- Hf. pose proof (get_by_id_In db a Hok Ha) as Hg. unfold get_agent_by_id, update_agent in *.
  cbn [agent_rows set_agents]. clear Ha. induction (agent_rows db) as [|b l IH]; [done|]. cbn [map List.find] in *.
  destruct (Z.eqb_spec (ar_id b) (ar_id a)) as [Hb|Hb].
  - injection Hg as ->. by rewrite Hf, Z.eqb_refl.
  - rewrite (proj2 (Z.eqb_neq _ _)) by done. by apply IH.
Qed.

(** Looking a name up among rows whose identities stay. *)
Lemma get_agent_map db db' g p n :
  agent_rows db' = map g (agent_rows db) -> (forall a, In a (agent_rows db) -> identity (g a) = identity a) ->
  get_agent db' p n = g <$> get_agent db p n.
Proof.
  intros Hr Hg. unfold get_agent. rewrite Hr. clear Hr. induction (agent_rows db) as [|a l IH]; [done|]. cbn [map List.find].
  assert (names p n (g a) = names p n a) as ->.
  { destruct (proj1 (identity_eq _ _) (Hg a (or_introl eq_refl))) as (_ & Hp & Hn & _). unfold names. by rewrite Hp, Hn. }
  destruct (names p n a); [done|]. apply IH. intros b Hb. apply Hg. by right.
Qed.

Lemma get_agent_update db id f p n :
  (forall a, identity (f a) = identity a) ->
  get_agent (update_agent id f db) p n = (fun a => if ar_id a =? id then f a else a) <$> get_agent db p n.
Proof. intros Hf. apply get_agent_map; [done|]. intros a _. by destruct (_ =? _). Qed.

Lemma set_profile_identity now prof a : identity (set_profile now prof a) = identity a.
Proof. done. Qed.

(** The commit of a name nobody holds. *)
Lemma registration_new db now p n prof :
  check_new_agent n (pr_task prof) = inr tt -> get_agent db p n = None ->
  let row := fresh_row db now p n prof in
  commit_registration db now p n prof = (inr (row, true), insert_agent row db).
Proof.
  intros Hc Hg. cbv zeta. unfold commit_registration, register_tx. rewrite Hc, Hg. cbv zeta. rewrite (upsert_free _ _ _ _ _ Hg).
  by rewrite get_agent_insert, Hg, names_self.
Qed.

(** The commit of a name somebody holds, in whatever case it is spelt. *)
Lemma registration_held db now p n prof e :
  registry_ok db -> check_new_agent n (pr_task prof) = inr tt -> get_agent db p n = Some e ->
  get_agent_deregistered_at db (ar_id e) = None ->
  commit_registration db now p n prof =
  (inr (set_profile now prof e, false), update_agent (ar_id e) (set_profile now prof) db).
Proof.
  intros Hok Hc Hg Hd. destruct (get_agent_Some _ _ _ _ Hg) as [He [Hp _]]. unfold commit_registration, register_tx.
  rewrite Hc, Hg, Hd. rewrite bool_decide_eq_false_2 by (by intros [? ?]). cbv zeta.
  assert (upsert_agent db now p (ar_name e) prof = update_agent (ar_id e) (set_profile now prof) db) as Hu
    by (rewrite <- Hp; by apply upsert_held).
  rewrite Hu, get_agent_update by apply set_profile_identity.
  rewrite Hg. cbn [fmap option_fmap option_map]. by rewrite Z.eqb_refl.
Qed.

Lemma registration_deregistered db now p n prof e ts :
  check_new_agent n (pr_task prof) = inr tt -> get_agent db p n = Some e ->
  get_agent_deregistered_at db (ar_id e) = Some ts ->
  commit_registration db now p n prof = (inl (Deregistered n), db).
Proof.
  intros Hc Hg Hd. unfold commit_registration, register_tx. rewrite Hc, Hg, Hd. by rewrite bool_decide_eq_true_2.
Qed.

(** The commit of a registration, in full. *)
Lemma registration_cases db now p n prof : registry_ok db ->
  commit_registration db now p n prof =
  match check_new_agent n (pr_task prof) with
  | inl e => (inl e, db)
  | inr _ =>
      match get_agent db p n with
      | None => let row := fresh_row db now p n prof in (inr (row, true), insert_agent row db)
      | Some e =>
          if get_agent_deregistered_at db (ar_id e) is Some _ then (inl (Deregistered n), db)
          else (inr (set_profile now prof e, false), update_agent (ar_id e) (set_profile now prof) db)
      end
  end.
Proof.
  intros Hok. destruct (check_new_agent n (pr_task prof)) as [e|[]] eqn:Hc; [unfold commit_registration; by rewrite Hc|].
  destruct (get_agent db p n) as [e|] eqn:Hg; [|by apply registration_new].
  destruct (get_agent_deregistered_at db (ar_id e)) as [ts|] eqn:Hd.
  - by apply registration_deregistered with e ts.
  - by apply registration_held.
Qed.

Definition without_exemption (prof : AgentProfile) : AgentProfile :=
  mkProfile (pr_program prof) (pr_model prof) (pr_task prof) (pr_attachments prof) None.

(** The commit of a creation, in full. *)
Lemma creation_cases db now p n prof :
  commit_creation db now p n prof =
  match check_new_agent n (pr_task prof) with
  | inl e => (inl e, db)
  | inr _ =>
      match get_agent db p n with
      | Some _ => (inl (Duplicate n), db)
      | None => let row := fresh_row db now p n (without_exemption prof) in (inr row, insert_agent row db)
      end
  end.
Proof.
  unfold commit_creation. destruct (check_new_agent n (pr_task prof)); [done|].
  destruct (get_agent db p n) eqn:Hg; [done|]. cbv zeta. fold (without_exemption prof).
  by rewrite get_agent_insert, Hg, names_self.
Qed.

(** Updates in place, one after the other. *)
Definition in_place (db db' : AgentDb) : Prop :=
  (exists g, agent_rows db' = map g (agent_rows db) /\ forall a, In a (agent_rows db) -> kept db a (g a)) /\
  deregistrations db' = deregistrations db /\ next_agent db' = next_agent db.

Lemma in_place_evolves db db' : in_place db db' -> evolves db db'.
Proof.
  intros ((g & Hr & Hg) & Hd & Hn). split.
  - exists g, []. rewrite app_nil_r, Hn. split; [done|]. split; [done|]. constructor. lia.
  - by rewrite Hd.
  - rewrite Hd. auto.
Qed.

Lemma in_place_refl db : in_place db db.
Proof. split; [|done]. exists id. rewrite map_id. split; [done|]. intros; apply kept_refl. Qed.

Lemma in_place_update db id f :
  (forall a, In a (agent_rows db) -> ar_id a = id -> kept db a (f a)) -> in_place db (update_agent id f db).
Proof.
  intros Hf. split; [|done]. eexists. split; [done|]. intros a Ha. cbv beta.
  destruct (Z.eqb_spec (ar_id a) id); [by apply Hf|apply kept_refl].
Qed.

Lemma in_place_trans db1 db2 db3 : in_place db1 db2 -> in_place db2 db3 -> in_place db1 db3.
Proof.
  intros ((g & Hr & Hg) & Hd & Hn) ((h & Hr' & Hh) & Hd' & Hn'). split; [|split; congruence].
  exists (fun a => h (g a)). rewrite Hr', Hr, map_map. split; [done|]. intros a Ha.
  destruct (Hg a Ha) as [Hi Hf]. assert (In (g a) (agent_rows db2)) as Hga by (rewrite Hr; by apply in_map).
  destruct (Hh _ Hga) as [Hi' Hf']. split; [congruence|]. intros Hs. rewrite Hf'; [by apply Hf|].
  rewrite Hd. assert (ar_id (g a) = ar_id a) as -> by (by apply (kept_id db1), Hg). done.
Qed.

Lemma kept_undisturbed db a a' : deregistrations db !! ar_id a = None -> identity a' = identity a -> kept db a a'.
Proof. intros Hd Hi. split; [done|]. rewrite Hd. by intros [? ?]. Qed.

Lemma foldl_in_place {A} (step : AgentDb -> A -> AgentDb) (P : AgentDb -> A -> Prop) l : forall db,
  (forall db x, P db x -> in_place db (step db x)) ->
  (forall db db' x, in_place db db' -> P db x -> P db' x) ->
  (forall x, In x l -> P db x) -> in_place db (foldl step db l).
Proof.
  induction l as [|x l IH]; intros db Hs Hp Hl.
  - apply in_place_refl.
  - apply in_place_trans with (step db x); [apply Hs, Hl; by left|]. apply IH; [done|done|].
    intros y Hy. apply (Hp db); [apply Hs, Hl; by left|apply Hl; by right].
Qed.

Lemma sweep_in_place p exclude cutoff at_ protected db :
  in_place db (snd (sweep_stale_agents p exclude cutoff at_ protected db)).
Proof.
  unfold sweep_stale_agents. cbn [snd].
  apply foldl_in_place with (P := fun db a => deregistrations db !! ar_id a = None).
  - intros db1 a Hd. apply in_place_update. intros b _ Hb. apply kept_undisturbed; [by rewrite Hb|].
    by destruct (ar_retired_at b).
  - intros db1 db2 a (_ & Hd & _) Ha. by rewrite Hd.
  - intros a [_ Ha]%filter_In. unfold sweep_candidate in Ha. rewrite !andb_true_iff, !bool_decide_eq_true in Ha. tauto.
Qed.

Lemma retire_in_place id at_ db : in_place db (snd (set_agent_retired_at id at_ db)).
Proof.
  unfold set_agent_retired_at. destruct (get_agent_deregistered_at db id) eqn:Hd.
  - apply in_place_refl.
  - remember (update_agent id _ db) as db' eqn:E. assert (in_place db db') as Hin.
    { subst db'. apply in_place_update. intros a _ Ha. apply kept_undisturbed; [by rewrite Ha|done]. }
    destruct (get_agent_by_id db' id); [done|apply in_place_refl].
Qed.

Lemma contact_in_place now id policy db : in_place db (snd (set_agent_contact_policy now id policy db)).
Proof.
  unfold set_agent_contact_policy. destruct (get_agent_deregistered_at db id) eqn:Hd.
  - apply in_place_refl.
  - remember (update_agent id _ db) as db' eqn:E. assert (in_place db db') as Hin.
    { subst db'. apply in_place_update. intros a _ Ha. apply kept_undisturbed; [by rewrite Ha|done]. }
    destruct (get_agent_by_id db' id); [done|apply in_place_refl].
Qed.

Section histories.
  Context (micros_to_iso : Z -> ustr).

Lemma deregister_evolves id at_ db : registry_ok db -> evolves db (snd (deregister_agent micros_to_iso id at_ db)).
Proof.
  intros Hok. unfold deregister_agent. destruct (get_agent_by_id db id) as [cur|] eqn:Hc; [|apply evolves_refl].
  destruct (get_by_id_Some _ _ _ Hc) as [Hin Hid].
  destruct (get_agent_deregistered_at db id) eqn:Hd; [apply evolves_refl|]. cbv zeta.
  destruct (get_agent_by_id (update_agent _ _ _) id) as [ag|]; [|apply evolves_refl]. cbn [snd]. apply update_evolves.
  - intros a _ Ha. apply kept_undisturbed; [by rewrite Ha|done].
  - intros i ts Hi. rewrite lookup_insert_ne; [done|]. intros <-. unfold get_agent_deregistered_at in Hd. congruence.
  - intros i [ts Hi]. destruct (decide (i = id)) as [->|Hne].
    + right. rewrite <- Hid. by apply in_map.
    + left. rewrite lookup_insert_ne in Hi by done. by exists ts.
Qed.

Lemma registration_evolves db now p n prof :
  registry_ok db -> evolves db (snd (commit_registration db now p n prof)).
Proof.
  intros Hok. rewrite (registration_cases _ _ _ _ _ Hok). destruct (check_new_agent n (pr_task prof)); [apply evolves_refl|].
  destruct (get_agent db p n) as [e|] eqn:Hg; [|by apply insert_evolves].
  destruct (get_agent_deregistered_at db (ar_id e)) eqn:Hd; [apply evolves_refl|]. apply in_place_evolves, in_place_update.
  intros a _ Ha. apply kept_undisturbed; [by rewrite Ha|done].
Qed.

Lemma creation_evolves db now p n prof : evolves db (snd (commit_creation db now p n prof)).
Proof.
  rewrite creation_cases. destruct (check_new_agent n (pr_task prof)); [apply evolves_refl|].
  destruct (get_agent db p n) eqn:Hg; [apply evolves_refl|by apply insert_evolves].
Qed.

(** A clean-up takes out the row of one id, if it is of the project. *)
Lemma cleanup_rows p id db a :
  In a (agent_rows (cleanup_agent p id db)) <-> In a (agent_rows db) /\ ~ (ar_id a = id /\ ar_project a = p).
Proof.
  unfold cleanup_agent, set_agents. cbn [agent_rows]. rewrite filter_In, negb_true_iff, andb_false_iff, !Z.eqb_neq.
  destruct (decide (ar_id a = id)), (decide (ar_project a = p)); intuition.
Qed.

Lemma cleanup_agent_ok p id db : registry_ok db -> registry_ok (cleanup_agent p id db).
Proof.
  intros Hok. split; cbn [next_agent deregistrations cleanup_agent set_agents].
  - unfold cleanup_agent, set_agents. cbn [agent_rows]. pose proof (rok_ids _ Hok) as H.
    induction (agent_rows db) as [|a l IH]; [apply NoDup_nil_2|].
    cbn [map List.filter] in *. apply NoDup_cons in H as [Ha Hl]. destruct (negb _); [|by apply IH]. cbn [map].
    apply NoDup_cons. split; [|by apply IH]. rewrite list_elem_of_In in Ha |- *.
    intros (b & Hb & [Hin _]%filter_In)%in_map_iff. apply Ha, in_map_iff. by exists b.
  - intros a [Ha _]%cleanup_rows. by apply (rok_next _ Hok).
  - intros a b [Ha _]%cleanup_rows [Hb _]%cleanup_rows. by apply (rok_names _ Hok).
  - apply (rok_deregs _ Hok).
Qed.

Lemma op_evolves db o :
  registry_ok db -> (forall p id, o <> OpCleanup p id) -> evolves db (apply_agent_op micros_to_iso db o).
Proof.
  intros Hok Hne. destruct o; cbn [apply_agent_op].
  - by apply registration_evolves.
  - apply creation_evolves.
  - by destruct (Hne project_id agent_id).
  - apply in_place_evolves, in_place_update. done.
  - apply in_place_evolves, retire_in_place.
  - apply in_place_evolves, sweep_in_place.
  - by apply deregister_evolves.
  - apply in_place_evolves, contact_in_place.
  - unfold set_agent_contact_policy_by_name. destruct (is_empty _); [apply evolves_refl|].
    destruct (get_agent db _ _); [apply in_place_evolves, contact_in_place|apply evolves_refl].
  - apply in_place_evolves, in_place_update. done.
Qed.

Lemma cleanup_or_not (o : AgentOp) : (exists p id, o = OpCleanup p id) \/ (forall p id, o <> OpCleanup p id).
Proof. destruct o; try (by right). left. eauto. Qed.

Lemma op_ok db o : registry_ok db -> registry_ok (apply_agent_op micros_to_iso db o).
Proof.
  intros Hok. destruct (cleanup_or_not o) as [(p & id & ->)|Hne]; [by apply cleanup_agent_ok|].
  eapply evolves_ok, op_evolves; done.
Qed.

(** No transaction of a list cleans the row of [id] up. *)
Definition spares (ops : list AgentOp) (id : Z) : Prop := forall p, ~ In (OpCleanup p id) ops.

Lemma spares_app ops ops' id : spares (ops ++ ops') id <-> spares ops id /\ spares ops' id.
Proof. unfold spares. setoid_rewrite in_app_iff. naive_solver. Qed.

Lemma spares_nil id : spares [] id.
Proof. by intros p []. Qed.

Lemma spares_own o id : (forall p i, o <> OpCleanup p i) -> spares [o] id.
Proof. intros Ho p [Hp|[]]. exact (Ho _ _ Hp). Qed.

(** The rows of the [safe] ids survive a history, and what they are frozen to
    stays; so does the ledger. *)
Definition survives (safe : Z -> Prop) (db db' : AgentDb) : Prop :=
  (forall a, In a (agent_rows db) -> safe (ar_id a) -> exists a', In a' (agent_rows db') /\ kept db a a') /\
  (forall id ts, deregistrations db !! id = Some ts -> deregistrations db' !! id = Some ts) /\
  next_agent db <= next_agent db'.

Lemma survives_refl safe db : survives safe db db.
Proof. split; [|done]. intros a Ha _. exists a. split; [done|apply kept_refl]. Qed.

Lemma survives_trans safe db1 db2 db3 : survives safe db1 db2 -> survives safe db2 db3 -> survives safe db1 db3.
Proof.
  intros (Hr & Hd & Hn) (Hr' & Hd' & Hn'). split; [|split; [auto|lia]]. intros a Ha Hsafe.
  destruct (Hr a Ha Hsafe) as (b & Hb & Hi & Hf).
  assert (ar_id b = ar_id a) as Hid by (by apply (kept_id db1)).
  destruct (Hr' b Hb) as (c & Hc & Hi' & Hf'); [by rewrite Hid|]. exists c. split; [done|]. split; [congruence|].
  intros [ts Hs]. rewrite Hf'; [apply Hf; by exists ts|]. exists ts. apply Hd. by rewrite Hid.
Qed.

Lemma op_survives safe db o :
  registry_ok db -> (forall id, safe id -> spares [o] id) -> survives safe db (apply_agent_op micros_to_iso db o).
Proof.
  intros Hok Hs. destruct (cleanup_or_not o) as [(p & id & ->)|Hne].
  - split; [|done]. intros a Ha Hsafe. exists a. split; [|apply kept_refl]. apply cleanup_rows. split; [done|].
    intros [Hi _]. apply (Hs _ Hsafe p). rewrite Hi. by left.
  - destruct (op_evolves db o Hok Hne) as [(g & extra & Hr & Hg & Hx) Hd _].
    split; [|split; [done|destruct Hx; lia]].
    intros a Ha _. exists (g a). split; [rewrite Hr; apply in_or_app; left; by apply in_map|by apply Hg].
Qed.

Lemma run_survives safe ops : forall db, registry_ok db -> (forall id, safe id -> spares ops id) ->
  registry_ok (run (apply_agent_op micros_to_iso) db ops) /\ survives safe db (run (apply_agent_op micros_to_iso) db ops).
Proof.
  induction ops as [|o ops IH]; intros db Hok Hs; [split; [done|apply survives_refl]|].
  cbn [run foldl]. fold (run (apply_agent_op micros_to_iso) (apply_agent_op micros_to_iso db o) ops).
  destruct (IH _ (op_ok db o Hok)) as [H1 H2].
  { intros id Hid p Hp. by apply (Hs id Hid p); right. }
  split; [done|]. refine (survives_trans _ _ _ _ _ H2). apply op_survives; [done|].
  intros id Hid p [Hp|[]]. apply (Hs id Hid p). by left.
Qed.

Lemma run_ok ops db : registry_ok db -> registry_ok (run (apply_agent_op micros_to_iso) db ops).
Proof. intros Hok. by apply (run_survives (fun _ => False) ops db Hok). Qed.

(** What a registration or a creation commits: [o] first, and with it in place
    what others commit until the probe; if the probe fails, at the end maybe the
    clean-up of a row that [o] inserted, and the answer is then an error. *)
Definition carried_out {A} (db : AgentDb) (o : AgentOp) (project_id : Z) (m : Aftermath) (r : AgentDbError + A)
    (db' : AgentDb) : Prop :=
  exists rest, db' = run (apply_agent_op micros_to_iso) db (o :: rest) /\
    ((rest = [] /\ exists e, r = inl e) \/ rest = am_between m \/
     exists id, rest = am_between m ++ [OpCleanup project_id id] /\ (exists e, r = inl e) /\
       ~ In id (map ar_id (agent_rows db)) /\ In id (map ar_id (agent_rows (apply_agent_op micros_to_iso db o)))).

Lemma next_unused db : registry_ok db -> ~ In (next_agent db) (map ar_id (agent_rows db)).
Proof. intros Hok (a & He & Ha)%in_map_iff. pose proof (rok_next _ Hok a Ha). lia. Qed.

Lemma inserted_id db r : In (ar_id r) (map ar_id (agent_rows (insert_agent r db))).
Proof. apply in_map, in_or_app. right. by left. Qed.

Lemma register_carried_out db now p n prof m :
  registry_ok db ->
  let '(r, db') := register_agent micros_to_iso db now p n prof m in carried_out db (OpRegister now p n prof) p m r db'.
Proof.
  intros Hok. unfold register_agent, carried_out. cbn [run foldl apply_agent_op]. rewrite (registration_cases _ _ _ _ _ Hok).
  destruct (check_new_agent n (pr_task prof)) as [e|[]]; [exists []; split; [done|left; eauto]|].
  destruct (get_agent db p n) as [e|]; cbv beta iota zeta.
  - destruct (get_agent_deregistered_at db (ar_id e)); cbv beta iota; [exists []; split; [done|left; eauto]|].
    destruct (verify_agent_visible_after_commit _ _ _ _); exists (am_between m); (split; [done|tauto]).
  - destruct (verify_agent_visible_after_commit _ _ _ _); [exists (am_between m); (split; [done|tauto])|].
    cbn [finalize_register_agent_post_commit_probe cleanup_created_agent_after_post_commit_probe_failure].
    destruct (am_cleans m); [|exists (am_between m); (split; [done|tauto])].
    eexists (am_between m ++ [OpCleanup p _]). rewrite foldl_app. split; [done|]. right. right.
    eexists. split; [done|]. split; [eauto|]. split; [by apply next_unused|apply inserted_id].
Qed.

Lemma create_carried_out db now p n prof m :
  registry_ok db ->
  let '(r, db') := create_agent micros_to_iso db now p n prof m in carried_out db (OpCreate now p n prof) p m r db'.
Proof.
  intros Hok. unfold create_agent, carried_out. cbn [run foldl apply_agent_op]. rewrite creation_cases.
  destruct (check_new_agent n (pr_task prof)) as [e|[]]; [exists []; split; [done|left; eauto]|].
  destruct (get_agent db p n) as [e|]; cbv beta iota zeta; [exists []; split; [done|left; eauto]|].
  destruct (verify_agent_visible_after_commit _ _ _ _); [exists (am_between m); (split; [done|tauto])|].
  cbn [cleanup_created_agent_after_post_commit_probe_failure].
  destruct (am_cleans m); [|exists (am_between m); (split; [done|tauto])].
  eexists (am_between m ++ [OpCleanup p _]). rewrite foldl_app. split; [done|]. right. right.
  eexists. split; [done|]. split; [eauto|]. split; [by apply next_unused|apply inserted_id].
Qed.
(** From one well-formed registry to another. *)
Definition moves (safe : Z -> Prop) (db db' : AgentDb) : Prop := registry_ok db' /\ survives safe db db'.

Lemma moves_refl safe db : registry_ok db -> moves safe db db.
Proof. intros Hok. split; [done|apply survives_refl]. Qed.

Lemma moves_trans safe db1 db2 db3 : moves safe db1 db2 -> moves safe db2 db3 -> moves safe db1 db3.
Proof. intros [_ H1] [H2 H3]. split; [done|by eapply survives_trans]. Qed.

Lemma moves_weaken (safe safe' : Z -> Prop) db db' :
  (forall id, In id (map ar_id (agent_rows db)) -> safe' id -> safe id) -> moves safe db db' -> moves safe' db db'.
Proof.
  intros Hs (Hok & Hr & Hd). split; [done|]. split; [|done]. intros a Ha Hsafe. apply (Hr a Ha), Hs; [by apply in_map|done].
Qed.

Lemma run_moves ops db : registry_ok db -> moves (spares ops) db (run (apply_agent_op micros_to_iso) db ops).
Proof. intros Hok. by apply run_survives. Qed.

Lemma op_moves safe db o :
  registry_ok db -> (forall p id, o <> OpCleanup p id) -> moves safe db (apply_agent_op micros_to_iso db o).
Proof.
  intros Hok Ho. split; [by apply op_ok|]. apply op_survives; [done|]. intros id _. by apply spares_own.
Qed.

Lemma carried_out_moves {A} db o p m (r : AgentDbError + A) db' :
  registry_ok db -> (forall q id, o <> OpCleanup q id) -> carried_out db o p m r db' -> moves (spares (am_between m)) db db'.
Proof.
  intros Hok Ho (rest & -> & Hrest). pose proof (run_moves (o :: rest) db Hok) as H. refine (moves_weaken _ _ _ _ _ H).
  intros id Hid Hs q [Hq|Hq]; [exact (Ho _ _ Hq)|]. destruct Hrest as [[-> _]|[->|(id' & -> & _ & Hn & _)]]; [done|by apply (Hs q)|].
  apply in_app_or in Hq as [Hq|[Hq|[]]]; [by apply (Hs q)|]. injection Hq as _ ->. done.
Qed.

Lemma register_moves db now p n prof m :
  registry_ok db -> moves (spares (am_between m)) db (snd (register_agent micros_to_iso db now p n prof m)).
Proof.
  intros Hok. pose proof (register_carried_out db now p n prof m Hok) as H.
  destruct (register_agent micros_to_iso db now p n prof m) as [r db']. refine (carried_out_moves _ _ _ _ _ _ Hok _ H). done.
Qed.

Lemma create_moves db now p n prof m :
  registry_ok db -> moves (spares (am_between m)) db (snd (create_agent micros_to_iso db now p n prof m)).
Proof.
  intros Hok. pose proof (create_carried_out db now p n prof m Hok) as H.
  destruct (create_agent micros_to_iso db now p n prof m) as [r db']. refine (carried_out_moves _ _ _ _ _ _ Hok _ H). done.
Qed.

(** The ids a transaction adds. *)
Definition ids (db : AgentDb) : gset Z := list_to_set (map ar_id (agent_rows db)).
Definition new_ids (db : AgentDb) (o : AgentOp) : gset Z := ids (apply_agent_op micros_to_iso db o) ∖ ids db.

Lemma ids_In db id : id ∈ ids db <-> In id (map ar_id (agent_rows db)).
Proof. unfold ids. by rewrite elem_of_list_to_set, list_elem_of_In. Qed.

(** A row that was inserted, some transactions later. *)
Lemma inserted_row_later db row ops p n found :
  registry_ok db -> ar_id row = next_agent db -> get_agent db (ar_project row) (ar_name row) = None ->
  same_name (ar_project row) p (ar_name row) n -> spares ops (ar_id row) ->
  get_agent (run (apply_agent_op micros_to_iso) (insert_agent row db) ops) p n = Some found -> identity found = identity row.
Proof.
  intros Hok Hid Hfree Hn Hs Hg. pose proof (evolves_ok _ _ Hok (insert_evolves _ _ Hid Hfree)) as Hok1.
  destruct (run_survives _ ops _ Hok1 (fun id H => H)) as [Hok2 [Hr _]].
  destruct (Hr row) as (a & Ha & [Hi _]); [apply in_or_app; right; by left|done|].
  pose proof Hi as (_ & Hp & Hnm & _)%identity_eq. rewrite <- Hi. f_equal.
  pose proof (get_agent_In _ p n a Hok2 Ha) as Hga. rewrite Hp, Hnm, Hg in Hga. by injection (Hga Hn) as ->.
Qed.

(** What an answer says: the row has the name asked for; it is in the registry
    unless somebody cleaned it up; if the name was free and nobody cleaned up
    the row the commit inserted, it is that one; and if the name was held, and
    nobody cleaned that row up, it is that one. *)
Definition registered (db : AgentDb) (o : AgentOp) (p : Z) (n : ustr) (m : Aftermath) (row : AgentRow) (db' : AgentDb) : Prop :=
  same_name (ar_project row) p (ar_name row) n /\
  (spares (am_between m) (ar_id row) -> exists a, In a (agent_rows db') /\ identity a = identity row) /\
  (get_agent db p n = None -> (forall id, id ∈ new_ids db o -> spares (am_between m) id) -> ar_id row ∈ new_ids db o) /\
  (forall e, get_agent db p n = Some e -> spares (am_between m) (ar_id e) -> ar_id row = ar_id e).

(** The probe after an insert. *)
Lemma insert_registered db o row0 p n m row :
  registry_ok db -> get_agent db p n = None -> ar_id row0 = next_agent db -> ar_project row0 = p -> ar_name row0 = n ->
  apply_agent_op micros_to_iso db o = insert_agent row0 db ->
  verify_agent_visible_after_commit (run (apply_agent_op micros_to_iso) (insert_agent row0 db) (am_between m)) p n (am_answers m)
    = Some row ->
  registered db o p n m row (run (apply_agent_op micros_to_iso) (insert_agent row0 db) (am_between m)).
Proof.
  intros Hok Hg Hid <- <- Ho Hv. unfold verify_agent_visible_after_commit in Hv. destruct (am_answers m); [|done].
  destruct (get_agent_Some _ _ _ _ Hv) as [Hin Hsame]. split; [done|]. split; [by exists row|]. split; [|by rewrite Hg]. intros _ Hs.
  assert (ar_id row0 ∈ new_ids db o) as Hnew.
  { unfold new_ids. rewrite Ho, elem_of_difference, !ids_In. split; [apply inserted_id|]. rewrite Hid. by apply next_unused. }
  assert (identity row = identity row0) as (-> & _)%identity_eq; [|done].
  eapply inserted_row_later; [done|done|done|done|by apply Hs|exact Hv].
Qed.

Lemma register_registered db now p n prof m row db' :
  registry_ok db -> register_agent micros_to_iso db now p n prof m = (inr row, db') ->
  registered db (OpRegister now p n prof) p n m row db'.
Proof.
  intros Hok. unfold register_agent. rewrite (registration_cases _ _ _ _ _ Hok).
  destruct (check_new_agent n (pr_task prof)) as [e|[]] eqn:Hc; [done|]. destruct (get_agent db p n) as [e|] eqn:Hg.
  - destruct (get_agent_deregistered_at db (ar_id e)) eqn:Hd; cbv beta iota zeta; [done|].
    destruct (get_agent_Some _ _ _ _ Hg) as [He Hsame].
    assert (moves (spares (am_between m)) db (run (apply_agent_op micros_to_iso)
              (update_agent (ar_id e) (set_profile now prof) db) (am_between m))) as (Hok2 & Hr & _).
    { pose proof (op_moves (spares (am_between m)) db (OpRegister now p n prof) Hok) as H1. cbn [apply_agent_op] in H1.
      rewrite (registration_held _ _ _ _ _ e Hok Hc Hg Hd) in H1. specialize (H1 ltac:(done)).
      eapply moves_trans; [exact H1|]. by apply run_moves, H1. }
    destruct (verify_agent_visible_after_commit _ _ _ _) as [found|] eqn:Hv; cbn; intros [= <- <-].
    + unfold verify_agent_visible_after_commit in Hv. destruct (am_answers m); [|done].
      destruct (get_agent_Some _ _ _ _ Hv) as [Hin Hsame']. split; [done|]. split; [by exists found|]. split; [by rewrite Hg|].
      rewrite Hg. intros ? [= <-] Hs. destruct (Hr e He Hs) as (a & Ha & [Hi _]). pose proof Hi as (Hid & Hp & Hn & _)%identity_eq.
      rewrite (get_agent_In _ p n a Hok2 Ha) in Hv by (by rewrite Hp, Hn). injection Hv as <-. done.
    + split; [done|]. split; [|by rewrite Hg; split; [|intros ? [= <-]]]. intros Hs.
      destruct (Hr e He Hs) as (a & Ha & [Hi _]). by exists a.
  - cbv beta iota zeta. destruct (verify_agent_visible_after_commit _ _ _ _) as [found|] eqn:Hv; cbn; [|done].
    intros [= <- <-]. apply insert_registered; try done. cbn [apply_agent_op]. by rewrite registration_new.
Qed.

Lemma create_registered db now p n prof m row db' :
  registry_ok db -> create_agent micros_to_iso db now p n prof m = (inr row, db') ->
  get_agent db p n = None /\ registered db (OpCreate now p n prof) p n m row db'.
Proof.
  intros Hok. unfold create_agent. rewrite creation_cases. destruct (check_new_agent n (pr_task prof)) as [e|[]] eqn:Hc; [done|].
  destruct (get_agent db p n) as [e|] eqn:Hg; cbv beta iota zeta; [done|].
  destruct (verify_agent_visible_after_commit _ _ _ _) as [found|] eqn:Hv; cbn; [|done].
  intros [= <- <-]. split; [done|]. apply insert_registered; try done.
  cbn [apply_agent_op]. by rewrite creation_cases, Hc, Hg.
Qed.

(** Left alone, a creation of a free name answers the row it inserts. *)
Lemma create_promptly db now p n prof :
  check_new_agent n (pr_task prof) = inr tt ->
  create_agent micros_to_iso db now p n prof promptly =
  match get_agent db p n with
  | Some _ => (inl (Duplicate n), db)
  | None => let row := fresh_row db now p n (without_exemption prof) in (inr row, insert_agent row db)
  end.
Proof.
  intros Hc. unfold create_agent. rewrite creation_cases, Hc. destruct (get_agent db p n) eqn:Hg; [done|].
  cbn [run foldl promptly am_between am_answers verify_agent_visible_after_commit]. cbv zeta beta iota.
  by rewrite get_agent_insert, Hg, names_self.
Qed.
End histories.

(** ** What the registry promises *)

Definition history (micros_to_iso : Z -> ustr) (ops : list AgentOp) : AgentDb :=
  run (apply_agent_op micros_to_iso) empty_registry ops.

Lemma history_ok iso ops : registry_ok (history iso ops).
Proof. exact (run_ok iso ops _ empty_registry_ok). Qed.

Lemma history_later iso before after :
  survives (spares after) (history iso before) (history iso (before ++ after)).
Proof. unfold history. rewrite run_app. by apply (run_survives iso _ after _ (history_ok iso before)). Qed.

(** C30: A name, in whatever case it is spelt, belongs to the agent that first
    took it: after any further registrations, creations, clean-ups of other rows,
    token rotations, retirements, sweeps, deregistrations, policy changes and
    touches the lookup by name and the lookup by id give one row, with the id,
    project, spelling and inception it had; and no two rows of a project ever share
    a name.  What can take the row out again is the clean-up of a registration or
    creation whose probe after the commit failed - a transaction of its own, so
    others may have come in between: such a call cleans up only the row its own
    commit inserted, and answers an error. *)
Theorem agent_identity_permanent iso before after p n a :
  get_agent (history iso before) p n = Some a ->
  let db := history iso (before ++ after) in
  (spares after (ar_id a) ->
     exists a', get_agent db p n = Some a' /\ get_agent_by_id db (ar_id a) = Some a' /\ identity a' = identity a) /\
  (forall b c, In b (agent_rows db) -> In c (agent_rows db) ->
     same_name (ar_project b) (ar_project c) (ar_name b) (ar_name c) -> b = c) /\
  (forall now q m prof af,
     (let '(r, db') := register_agent iso db now q m prof af in carried_out iso db (OpRegister now q m prof) q af r db') /\
     (let '(r, db') := create_agent iso db now q m prof af in carried_out iso db (OpCreate now q m prof) q af r db')).
Proof.
  intros Hg. cbv zeta. pose proof (history_ok iso (before ++ after)) as Hok. split; [|split; [by apply rok_names|]].
  - intros Hsp. destruct (get_agent_Some _ _ _ _ Hg) as [Ha Hs]. destruct (history_later iso before after) as [Hr _].
    destruct (Hr a Ha Hsp) as (a' & Ha' & Hk). pose proof Hk as [Hi _]. pose proof Hi as (Hid & Hp & Hn & _)%identity_eq.
    exists a'. split; [|split; [|done]].
    + apply get_agent_In; [done|done|]. by rewrite Hp, Hn.
    + rewrite <- Hid. by apply get_by_id_In.
  - intros now q m prof af. split; [by apply register_carried_out|by apply create_carried_out].
Qed.

Lemma agent_states_lookup db a :
  registry_ok db -> In a (agent_rows db) ->
  agent_states db !! ar_id a =
  Some (mkAgentState (ar_project a) (ar_name a) (ar_retired_at a) (deregistrations db !! ar_id a)).
Proof.
  intros Hok Ha. unfold agent_states. apply elem_of_list_to_map_1.
  - rewrite <- list_fmap_compose. exact (rok_ids _ Hok).
  - apply list_elem_of_fmap. exists a. split; [done|by apply list_elem_of_In].
Qed.

(** A deregistered agent is not active, for any lease transaction. *)
Lemma deregistered_inactive db a ts :
  registry_ok db -> In a (agent_rows db) -> get_agent_deregistered_at db (ar_id a) = Some ts ->
  ensure_agents_active (agent_states db) [ar_id a] (Some (ar_project a)) = inl (AgentDeregistered (ar_name a) ts).
Proof.
  intros Hok Ha Hd. unfold ensure_agents_active. cbn [ensure_states].
  pose proof (agent_states_lookup db a Hok Ha) as Hl. unfold get_agent_deregistered_at in Hd.
  rewrite Hd in Hl. generalize (agent_states db) Hl. clear. intros m Hl.
  match goal with |- match ?x with _ => _ end = _ => assert (x = m !! ar_id a) as -> end; [|by rewrite Hl].
  rewrite Hl. apply map_lookup_filter_Some. split; [done|]. split; [apply list_elem_of_here|done].
Qed.

(** C31: Deregistration is final.  Whatever happens after it - short of the
    clean-up of the row itself by a registration still waiting for its probe - the
    ledger keeps the first timestamp; program, model, task, attachment and contact
    policy, exemption and retirement of the row stay; registering its name in any
    spelling is refused as deregistered and creating it as a duplicate, without a
    change (a call that fails the checks of the arguments is refused before that);
    and every request for leases in its name, to grant or to renew, is refused
    whatever the lease tables hold. *)
Theorem deregistration_final iso before after a ts :
  In a (agent_rows (history iso before)) ->
  get_agent_deregistered_at (history iso before) (ar_id a) = Some ts ->
  spares after (ar_id a) ->
  let db := history iso (before ++ after) in
  get_agent_deregistered_at db (ar_id a) = Some ts /\
  (exists a', get_agent_by_id db (ar_id a) = Some a' /\ identity a' = identity a /\ frozen a' = frozen a) /\
  (forall now n prof m, to_ascii_lowercase n = to_ascii_lowercase (ar_name a) ->
     check_new_agent n (pr_task prof) = inr tt ->
     register_agent iso db now (ar_project a) n prof m = (inl (Deregistered n), db) /\
     create_agent iso db now (ar_project a) n prof m = (inl (Duplicate n), db)) /\
  (forall (GE : GlobEngine) q now leases, lr_agent q = ar_id a -> lr_project q = ar_project a ->
     create_lease_tx (agent_states db) q now leases = inl (AgentDeregistered (ar_name a) ts)) /\
  (forall extend paths ids now leases,
     renew_reservations (agent_states db) (ar_project a) (ar_id a) extend paths ids now leases =
     inl (AgentDeregistered (ar_name a) ts)).
Proof.
  intros Ha Hd Hsp. cbv zeta. destruct (history_later iso before after) as (Hr & Hdd & _).
  remember (history iso (before ++ after)) as db eqn:Edb.
  assert (registry_ok db) as Hok by (subst db; apply history_ok). clear Edb.
  destruct (Hr a Ha Hsp) as (a' & Ha' & Hk). pose proof Hk as [Hi Hf]. pose proof Hi as (Hid & Hp & Hn & _)%identity_eq.
  pose proof (Hdd _ _ Hd) as Hd'. fold (get_agent_deregistered_at db (ar_id a)) in Hd'.
  assert (ensure_agents_active (agent_states db) [ar_id a] (Some (ar_project a)) = inl (AgentDeregistered (ar_name a) ts)) as He.
  { rewrite <- Hid, <- Hp, <- Hn. apply deregistered_inactive; [done|done|]. by rewrite Hid. }
  split; [done|]. split; [|split; [|split]].
  - exists a'. rewrite <- Hid. split; [by apply get_by_id_In|]. split; [done|]. apply Hf. by exists ts.
  - intros now n prof m Hlow Hc.
    assert (get_agent db (ar_project a) n = Some a') as Hg.
    { apply get_agent_In; [done|done|]. rewrite Hp, Hn. by split. }
    unfold register_agent, create_agent.
    rewrite creation_cases, (registration_deregistered _ _ _ _ _ a' ts), Hc, Hg by (done || by rewrite Hid). done.
  - intros GE q now leases Hq Hqp. unfold create_lease_tx. by rewrite Hq, Hqp, He.
  - intros extend paths ids now leases. unfold renew_reservations. by rewrite He.
Qed.

Definition witness_profile : AgentProfile := mkProfile (u "codex-cli") (u "gpt-5") (Some (u "fix the parser")) None None.
Definition witness_before : list AgentOp :=
  [OpRegister 10 7 (u "BlueLake") witness_profile; OpDeregister 1 20].
Definition witness_after : list AgentOp :=
  [OpRegister 30 7 (u "bluelake") witness_profile; OpContactPolicy 31 1 (u "open"); OpRetire 1 (Some 32);
   OpToken 1 (u "t0"); OpCreate 33 7 (u "RedDog") witness_profile; OpCleanup 7 2; OpCreate 34 7 (u "RedDog") witness_profile].
Definition witness_row : AgentRow :=
  mkAgentRow 1 7 (u "BlueLake") (u "codex-cli") (u "gpt-5") (u "[DEREGISTERED at] fix the parser") 10 10 (u "auto")
    (u "block_all") 0 None None.
Definition witness_iso (_ : Z) : ustr := u "at".

Lemma witness_spared : spares witness_after 1.
Proof. intros p Hp. unfold witness_after in Hp. cbn [In] in Hp. intuition congruence. Qed.

Lemma agent_identity_permanent_witness :
  let db := history witness_iso (witness_before ++ witness_after) in
  (exists a', get_agent db 7 (u "BLUELAKE") = Some a' /\ get_agent_by_id db 1 = Some a' /\
     identity a' = identity witness_row) /\ map ar_id (agent_rows db) = [1; 3].
Proof.
  cbv zeta. split; [|vm_compute; reflexivity].
  apply (agent_identity_permanent witness_iso witness_before witness_after 7 (u "BLUELAKE") witness_row);
    [vm_compute; reflexivity|exact witness_spared].
Defined.

Lemma deregistration_final_witness :
  let db := history witness_iso (witness_before ++ witness_after) in
  get_agent_deregistered_at db 1 = Some 20 /\
  (forall extend now leases, renew_reservations (agent_states db) 7 1 extend None None now leases =
                             inl (AgentDeregistered (u "BlueLake") 20)).
Proof.
  cbv zeta.
  assert (In witness_row (agent_rows (history witness_iso witness_before))) as Hin by (left; vm_compute; reflexivity).
  assert (get_agent_deregistered_at (history witness_iso witness_before) 1 = Some 20) as Hd by (vm_compute; reflexivity).
  pose proof (deregistration_final witness_iso witness_before witness_after witness_row 20 Hin Hd witness_spared) as H.
  split; [exact (proj1 H)|]. intros extend now leases. exact (proj2 (proj2 (proj2 (proj2 H))) extend None None now leases).
Defined.

(** Two registrations of one new name: the first commits, the second finds its row,
    commits its profile and is answered; then the probe of the first fails, and its
    clean-up deletes the row the second was told it owns. *)
Lemma cleanup_takes_a_registered_agent :
  let second := register_agent witness_iso (history witness_iso [OpRegister 10 7 (u "BlueLake") witness_profile]) 11 7
                  (u "BlueLake") witness_profile promptly in
  let first := register_agent witness_iso empty_registry 10 7 (u "BlueLake") witness_profile
                 (mkAftermath [OpRegister 11 7 (u "BlueLake") witness_profile] false true) in
  (exists row, fst second = inr row /\ ar_id row = 1) /\ fst first = inl NotVisible /\ agent_rows (snd first) = [].
Proof. cbv zeta. split; [eexists|]; vm_compute; done. Qed.
