(* ===== verification/AgentClaims.v ===== *)
(** * Fresh agent names ([tools/src/identity.rs])

    A registration without a name draws one, and another when the draw is taken.
    After sixteen draws it reads the roster and goes through the names nobody
    holds.  Between its attempts other requests commit transactions: [others n]
    are those before attempt [n], and [after_commit n] has those between its commit
    and its probe.  The proof gate, the drawn names and the
    moments at which the store gives up are arguments. *)

From S2P Require Import Prelude.
From S2P Require Import RustStr.
From S2P Require Import AgentNames.
From S2P Require Import AgentRegistry.
From S2P Require Import AgentNamesProps.
From S2P Require Import AgentRegistryProps.

(** @src tools/src/identity.rs:179-188 AUTO_NAME_MAX_DRAWS *)
Definition AUTO_NAME_MAX_DRAWS : nat := 16.

Inductive ClaimError :=
  | ProofRefused
  | StoreFailed
  | ClaimDb (e : AgentDbError)
  | AllNamesTaken
  | NamesTakenConcurrently.

(** What surrounds the attempts of one registration. *)
Record ClaimEnv := mkClaimEnv {
  others : nat -> list AgentOp; clock : nat -> Z; store_fails : nat -> bool; after_commit : nat -> Aftermath;
  gate_accepts : ustr -> bool;
}.

Section claims.
  Context (micros_to_iso : Z -> ustr) (env : ClaimEnv) (project_id : Z) (p : AgentProfile).

(** @src tools/src/identity.rs:356-423 try_name
    -- attempt [n]; a held name is the signal to draw again. *)
Definition try_name (n : nat) (candidate : ustr) (db : AgentDb) : (ClaimError + option AgentRow) * AgentDb :=
  let db := run (apply_agent_op micros_to_iso) db (others env n) in
  if negb (gate_accepts env candidate) then (inl ProofRefused, db)
  else if store_fails env n then (inl StoreFailed, db)
  else
    match create_agent micros_to_iso db (clock env n) project_id candidate p (after_commit env n) with
    | (inr row, db) => (inr (Some row), db)
    | (inl (Duplicate _), db) => (inr None, db)
    | (inl e, db) => (inl (ClaimDb e), db)
    end.

(** @src tools/src/identity.rs:252-260 claim_fresh_auto_named_agent
    -- the redraw, which skips names that collided; [draw] is the generator and
    [i] its position. *)
Fixpoint redraw (draw : nat -> ustr) (fuel : nat) (tried : gset ustr) (next : ustr) (i : nat) : ustr * nat :=
  match fuel with
  | O => (next, i)
  | S fuel => if bool_decide (next ∉ tried) then (next, i) else redraw draw fuel tried (draw i) (S i)
  end.

(** @src tools/src/identity.rs:239-261 claim_fresh_auto_named_agent
    -- the draws; [None] when all of them collided. *)
Fixpoint claim_draws (draw : nat -> ustr) (draws n : nat) (tried : gset ustr) (candidate : ustr) (i : nat) (db : AgentDb) :
    (ClaimError + option AgentRow) * nat * AgentDb :=
  match draws with
  | O => (inr None, n, db)
  | S draws =>
      match try_name n candidate db with
      | (inr None, db) =>
          let tried := {[candidate]} ∪ tried in
          let '(candidate, i) := redraw draw 32 tried (draw i) (S i) in
          claim_draws draw draws (S n) tried candidate i db
      | (r, db) => (r, S n, db)
      end
  end.

(** @src tools/src/identity.rs:317-341 unused_agent_names *)
Definition unused_agent_names (db : AgentDb) : list ustr :=
  let taken := map (fun a => to_ascii_lowercase (ar_name a))
                 (List.filter (fun a => ar_project a =? project_id) (agent_rows db)) in
  omap (fun raw => fst (normalize_agent_name raw ∅))
    (List.filter (fun raw => negb (existsb (ustr_eqb (to_ascii_lowercase raw)) taken))
       (flat_map (fun adjective => map (fun noun => adjective ++ noun) VALID_NOUNS) VALID_ADJECTIVES)).

(** @src tools/src/identity.rs:291-295 claim_fresh_auto_named_agent
    -- [cycle().skip(start).take(scan_len)]. *)
Definition scan_order (unused : list ustr) (start : nat) : list ustr :=
  omap (fun k => unused !! ((start + k) mod length unused)%nat)
    (seq 0 (Nat.min (length unused) AUTO_NAME_MAX_DRAWS)).

(** @src tools/src/identity.rs:295-299 claim_fresh_auto_named_agent
    -- the scan. *)
Fixpoint claim_scan (n : nat) (candidates : list ustr) (db : AgentDb) : (ClaimError + option AgentRow) * AgentDb :=
  match candidates with
  | [] => (inr None, db)
  | candidate :: candidates =>
      match try_name n candidate db with
      | (inr None, db) => claim_scan (S n) candidates db
      | (r, db) => (r, db)
      end
  end.

(** @src tools/src/identity.rs:190-315 claim_fresh_auto_named_agent
    -- [entropy]: the nanoseconds that spread concurrent scans. *)
Definition claim_fresh_auto_named_agent (first_candidate : ustr) (draw : nat -> ustr) (entropy : nat) (db : AgentDb) :
    (ClaimError + AgentRow) * AgentDb :=
  match claim_draws draw AUTO_NAME_MAX_DRAWS 0 ∅ first_candidate 0 db with
  | (inr (Some row), _, db) => (inr row, db)
  | (inl e, _, db) => (inl e, db)
  | (inr None, n, db) =>
      let unused := unused_agent_names db in
      match unused with
      | [] => (inl AllNamesTaken, db)
      | _ =>
        match claim_scan n (scan_order unused (entropy mod length unused)%nat) db with
        | (inr (Some row), db) => (inr row, db)
        | (inl e, db) => (inl e, db)
        | (inr None, db) => (inl NamesTakenConcurrently, db)
        end
      end
  end.

End claims.

(** ** Claiming a fresh name

    A claim only ever inserts rows, whatever else happens meanwhile, and left
    alone it succeeds as long as one name of the vocabulary is free. *)

(** ** Names of the vocabulary *)

Definition vocabulary_name (s : ustr) : Prop :=
  exists a n, In a VALID_ADJECTIVES /\ In n VALID_NOUNS /\ s = pascal_case_agent_name a n.

Lemma raw_names_trimmed :
  forallb (fun a => forallb (fun n => ustr_eqb (trim (a ++ n)) (a ++ n)) VALID_NOUNS) VALID_ADJECTIVES = true.
Proof. vm_compute. reflexivity. Qed.

Lemma raw_trim a n : In a VALID_ADJECTIVES -> In n VALID_NOUNS -> trim (a ++ n) = a ++ n.
Proof.
  intros Ha Hn. pose proof raw_names_trimmed as H. rewrite forallb_forall in H. specialize (H a Ha).
  rewrite forallb_forall in H. by apply ustr_eqb_eq, H.
Qed.

Lemma raw_lower a n : In a VALID_ADJECTIVES -> In n VALID_NOUNS -> to_ascii_lowercase (a ++ n) = a ++ n.
Proof. intros Ha Hn. rewrite <- (vp_lower _ _ (pair_valid a n Ha Hn)). apply to_ascii_lowercase_idem. Qed.

Definition plain_task (p : AgentProfile) : Prop :=
  from_option task_description_uses_reserved_deregistered_prefix false (pr_task p) = false.

Lemma check_vocabulary s p : vocabulary_name s -> plain_task p -> check_new_agent s (pr_task p) = inr tt.
Proof.
  intros (a & n & Ha & Hn & ->) Hp. unfold check_new_agent, is_valid_agent_name.
  pose proof (pascal_normal a n Ha Hn) as Hc. unfold normalize_uncached in Hc. rewrite Hc. cbn [negb].
  unfold plain_task in Hp. destruct (pr_task p); [|done]. cbn [from_option] in Hp. by rewrite Hp.
Qed.

Section unused.
  Context (project_id : Z).

Lemma taken_spec db low :
  existsb (ustr_eqb low) (map (fun a => to_ascii_lowercase (ar_name a))
     (List.filter (fun a => ar_project a =? project_id) (agent_rows db))) = true <->
  exists a, In a (agent_rows db) /\ ar_project a = project_id /\ to_ascii_lowercase (ar_name a) = low.
Proof.
  rewrite existsb_exists. split.
  - intros (x & (a & <- & [Ha Hp%Z.eqb_eq]%filter_In)%in_map_iff & Hx%ustr_eqb_eq). by exists a.
  - intros (a & Ha & Hp & Hl). exists low. split; [|apply ustr_eqb_refl]. apply in_map_iff. exists a. split; [done|].
    apply filter_In. split; [done|]. by apply Z.eqb_eq.
Qed.

Lemma unused_spec db s :
  In s (unused_agent_names project_id db) <-> vocabulary_name s /\ get_agent db project_id s = None.
Proof.
  unfold unused_agent_names. cbv zeta. rewrite <- list_elem_of_In, list_elem_of_omap. split.
  - intros (raw & Hraw & Hs). apply list_elem_of_In, filter_In in Hraw as [Hraw Ht].
    apply in_flat_map in Hraw as (a & Ha & (n & <- & Hn)%in_map_iff).
    pose proof (normalize_complete (a ++ n) a n Ha Hn) as Hc. rewrite raw_trim, raw_lower in Hc by done.
    rewrite (Hc eq_refl : fst _ = _) in Hs. injection Hs as <-. split; [by exists a, n|].
    apply negb_true_iff, not_true_iff_false in Ht. destruct (get_agent _ _ _) as [e|] eqn:Eg; [|done]. destruct Ht.
    apply taken_spec. apply get_agent_Some in Eg as [He [Hp Hl]]. exists e. split; [done|]. split; [done|].
    rewrite Hl, (vp_lower _ _ (pair_valid a n Ha Hn)). symmetry. by apply raw_lower.
  - intros [(a & n & Ha & Hn & ->) Hg]. exists (a ++ n). split.
    + apply list_elem_of_In, filter_In. split; [apply in_flat_map; exists a; split; [done|by apply in_map]|].
      apply negb_true_iff, not_true_iff_false. intros (e & He & Hp & Hl)%taken_spec.
      apply (get_agent_None _ _ _ e Hg He). split; [done|]. rewrite Hl, (vp_lower _ _ (pair_valid a n Ha Hn)).
      by apply raw_lower.
    + pose proof (normalize_complete (a ++ n) a n Ha Hn) as Hc. rewrite raw_trim, raw_lower in Hc by done. exact (Hc eq_refl).
Qed.
End unused.

(** ** A claim left alone *)

Definition undisturbed (env : ClaimEnv) : Prop :=
  (forall n, others env n = []) /\ (forall n, store_fails env n = false) /\ (forall n, after_commit env n = promptly) /\
  forall s, gate_accepts env s = true.

Section alone.
  Context (micros_to_iso : Z -> ustr) (env : ClaimEnv) (project_id : Z) (p : AgentProfile).
  Context (Halone : undisturbed env) (Htask : plain_task p).

Lemma try_alone n s db :
  registry_ok db -> vocabulary_name s ->
  try_name micros_to_iso env project_id p n s db =
  match get_agent db project_id s with
  | Some _ => (inr None, db)
  | None => let row := fresh_row db (clock env n) project_id s (without_exemption p) in
            (inr (Some row), insert_agent row db)
  end.
Proof.
  destruct Halone as (Ho & Hf & Hp & Hg). intros Hok Hs. unfold try_name. rewrite Ho, Hg, Hf, Hp.
  cbn [run foldl negb]. rewrite create_promptly by by apply check_vocabulary. by destruct (get_agent db project_id s).
Qed.

(** A fresh row under a free name, or nothing. *)
Definition inserted (db : AgentDb) (row : AgentRow) (db' : AgentDb) : Prop :=
  get_agent db project_id (ar_name row) = None /\ vocabulary_name (ar_name row) /\
  ar_project row = project_id /\ ar_id row = next_agent db /\ ar_retired_at row = None /\ db' = insert_agent row db.

Lemma try_inserted n s db r :
  registry_ok db -> vocabulary_name s -> try_name micros_to_iso env project_id p n s db = r ->
  (get_agent db project_id s <> None /\ r = (inr None, db)) \/ (exists row, inserted db row (snd r) /\ fst r = inr (Some row)).
Proof.
  intros Hok Hs <-. rewrite try_alone by done. destruct (get_agent db project_id s) eqn:Eg; [by left|right]. cbv zeta.
  eexists. split; [|done]. by split_and!.
Qed.

Lemma redraw_vocabulary draw fuel tried : forall next i,
  (forall j, vocabulary_name (draw j)) -> vocabulary_name next -> vocabulary_name (fst (redraw draw fuel tried next i)).
Proof.
  induction fuel as [|fuel IH]; intros next i Hd Hn; [done|]. cbn [redraw]. destruct (bool_decide _); [done|]. by apply IH.
Qed.

Lemma draws_alone draw draws : forall n tried s i db,
  registry_ok db -> (forall j, vocabulary_name (draw j)) -> vocabulary_name s ->
  let '(r, _, db') := claim_draws micros_to_iso env project_id p draw draws n tried s i db in
  (r = inr None /\ db' = db) \/ exists row, r = inr (Some row) /\ inserted db row db'.
Proof.
  induction draws as [|draws IH]; intros n tried s i db Hok Hd Hs; [by left|]. cbn [claim_draws].
  destruct (try_name micros_to_iso env project_id p n s db) as [r db1] eqn:Et.
  destruct (try_inserted _ _ _ _ Hok Hs Et) as [[_ [= -> ->]]|(row & Hi & Hr)].
  - destruct (redraw draw 32 ({[s]} ∪ tried) (draw i) (S i)) as [s' i'] eqn:Er.
    pose proof (redraw_vocabulary draw 32 ({[s]} ∪ tried) (draw i) (S i) Hd (Hd i)) as Hs'. rewrite Er in Hs'.
    by apply IH.
  - cbn [fst snd] in *. subst r. right. by exists row.
Qed.

Lemma scan_hd unused start : unused <> [] -> exists s l, scan_order unused start = s :: l /\ In s unused.
Proof.
  intros Hne. assert (length unused <> 0)%nat as Hl by (by destruct unused). unfold scan_order, AUTO_NAME_MAX_DRAWS.
  destruct (Nat.min (length unused) 16) as [|k] eqn:Em; [lia|]. cbn [seq omap list_omap].
  assert (((start + 0) mod length unused < length unused)%nat) as Hlt by (apply Nat.mod_upper_bound; lia).
  destruct (lookup_lt_is_Some_2 unused _ Hlt) as [s Hs]. rewrite Hs. eexists s, _. split; [done|].
  apply list_elem_of_In. by eapply list_elem_of_lookup_2.
Qed.

(** Left alone, a registration without a name succeeds exactly while a name of
    the vocabulary is free: it inserts one active row, under the next id, with a
    name nobody held in any case, and changes nothing else.  It fails only when
    every name of the vocabulary is held, and then says so and changes nothing. *)
Theorem fresh_name_claimed_while_any_left first draw entropy db :
  registry_ok db -> vocabulary_name first -> (forall j, vocabulary_name (draw j)) ->
  let '(r, db') := claim_fresh_auto_named_agent micros_to_iso env project_id p first draw entropy db in
  match r with
  | inr row => inserted db row db'
  | inl e => e = AllNamesTaken /\ db' = db /\ forall s, vocabulary_name s -> get_agent db project_id s <> None
  end.
Proof.
  intros Hok Hf Hd. unfold claim_fresh_auto_named_agent.
  pose proof (draws_alone draw AUTO_NAME_MAX_DRAWS 0 ∅ first 0 db Hok Hd Hf) as H.
  destruct (claim_draws _ _ _ _ _ _ _ _ _ _ _) as [[r n] db1]. destruct H as [[-> ->]|(row & -> & H)]; [|done].
  destruct (unused_agent_names project_id db) as [|s0 l0] eqn:Eu.
  - split; [done|]. split; [done|]. intros s Hs Hg. assert (In s []) as []. rewrite <- Eu. by apply unused_spec.
  - rewrite <- Eu. destruct (scan_hd (unused_agent_names project_id db) (entropy mod length (unused_agent_names project_id db)))
      as (s & l & -> & Hs); [by rewrite Eu|]. apply unused_spec in Hs as [Hs Hg]. cbn [claim_scan].
    destruct (try_name micros_to_iso env project_id p n s db) as [r db1] eqn:Et.
    destruct (try_inserted _ _ _ _ Hok Hs Et) as [[Hne _]|(row & Hi & Hr)]; [done|]. cbn [fst snd] in *. by subst r.
Qed.
End alone.

(** ** A claim among others *)

Section crowd.
  Context (micros_to_iso : Z -> ustr) (env : ClaimEnv) (project_id : Z) (p : AgentProfile).
Local Notation apply := (apply_agent_op micros_to_iso).

(** Nobody else cleans the row of [id] up meanwhile. *)
Definition claim_spares (id : Z) : Prop :=
  forall n, spares (others env n) id /\ spares (am_between (after_commit env n)) id.

(** The ids the attempts of a claim insert, along the way it takes: what the
    commit of each adds to the registry it finds. *)
Definition try_inserts (n : nat) (candidate : ustr) (db : AgentDb) : gset Z :=
  if gate_accepts env candidate && negb (store_fails env n)
  then new_ids micros_to_iso (run apply db (others env n)) (OpCreate (clock env n) project_id candidate p) else ∅.
Fixpoint draws_inserts (draw : nat -> ustr) (draws n : nat) (tried : gset ustr) (candidate : ustr) (i : nat) (db : AgentDb) : gset Z :=
  match draws with
  | O => ∅
  | S draws =>
      try_inserts n candidate db ∪
      match try_name micros_to_iso env project_id p n candidate db with
      | (inr None, db) =>
          let tried := {[candidate]} ∪ tried in
          let '(candidate, i) := redraw draw 32 tried (draw i) (S i) in
          draws_inserts draw draws (S n) tried candidate i db
      | _ => ∅
      end
  end.
Fixpoint scan_inserts (n : nat) (candidates : list ustr) (db : AgentDb) : gset Z :=
  match candidates with
  | [] => ∅
  | candidate :: candidates =>
      try_inserts n candidate db ∪
      match try_name micros_to_iso env project_id p n candidate db with
      | (inr None, db) => scan_inserts (S n) candidates db
      | _ => ∅
      end
  end.
Definition claim_inserts (first_candidate : ustr) (draw : nat -> ustr) (entropy : nat) (db : AgentDb) : gset Z :=
  draws_inserts draw AUTO_NAME_MAX_DRAWS 0 ∅ first_candidate 0 db ∪
  match claim_draws micros_to_iso env project_id p draw AUTO_NAME_MAX_DRAWS 0 ∅ first_candidate 0 db with
  | (inr None, n, db) =>
      let unused := unused_agent_names project_id db in
      scan_inserts n (scan_order unused (entropy mod length unused)%nat) db
  | _ => ∅
  end.

(** What a stretch of a claim did: no row it found is lost by its own doing; a row
    it answers bears a name the gate let pass, is still there unless somebody else
    cleaned it up, and is one that an attempt inserted. *)
Definition claim_did (db : AgentDb) (inserts : gset Z) (result : option AgentRow) (db' : AgentDb) : Prop :=
  moves claim_spares db db' /\
  forall row, result = Some row ->
    (exists n, gate_accepts env n = true /\ same_name (ar_project row) project_id (ar_name row) n) /\
    (claim_spares (ar_id row) -> exists a, In a (agent_rows db') /\ identity a = identity row) /\
    ((forall id, id ∈ inserts -> claim_spares id) -> ar_id row ∈ inserts).

Lemma claim_did_moves db inserts r db' : claim_did db inserts r db' -> registry_ok db'.
Proof. by intros [[Hok _] _]. Qed.

Lemma claim_did_then db db1 db2 inserts inserts' r :
  claim_did db inserts None db1 -> claim_did db1 inserts' r db2 -> claim_did db (inserts ∪ inserts') r db2.
Proof.
  intros [H1 _] [H2 H]. split; [by eapply moves_trans|]. intros row Hrow. destruct (H row Hrow) as (Ha & Hb & Hc).
  split; [done|]. split; [done|]. intros Hs. apply elem_of_union_r, Hc. intros id Hid. apply Hs. by apply elem_of_union_r.
Qed.

Lemma claim_did_more db db' inserts r : claim_did db inserts r db' -> claim_did db (inserts ∪ ∅) r db'.
Proof. by rewrite (right_id_L ∅ (∪)). Qed.

Definition row_of (r : ClaimError + option AgentRow) : option AgentRow := match r with inr o => o | inl _ => None end.

Lemma try_did n s db :
  registry_ok db ->
  let '(r, db') := try_name micros_to_iso env project_id p n s db in claim_did db (try_inserts n s db) (row_of r) db'.
Proof.
  intros Hok. unfold try_name, try_inserts.
  assert (moves claim_spares db (run apply db (others env n))) as H0.
  { eapply moves_weaken; [|by apply run_moves]. intros id _ Hid. by apply Hid. }
  remember (run apply db (others env n)) as db0 eqn:E0. clear E0. pose proof (proj1 H0) as Hok0.
  destruct (gate_accepts env s) eqn:Eg; cbn [negb andb]; [|by split].
  destruct (store_fails env n); cbn [negb]; [by split|].
  pose proof (create_moves micros_to_iso db0 (clock env n) project_id s p (after_commit env n) Hok0) as Hm.
  destruct (create_agent micros_to_iso db0 (clock env n) project_id s p (after_commit env n)) as [[e|row] db'] eqn:Ec; cbn [snd] in Hm.
  all: assert (moves claim_spares db db') as H1
    by (eapply moves_trans; [exact H0|]; eapply moves_weaken; [|exact Hm]; intros id _ Hid; by apply Hid).
  - destruct e; by split.
  - split; [done|]. intros ? [= <-]. apply create_registered in Ec as (Hfree & Hn & Hin & Hid); [|done].
    split; [by exists s|]. split; [intros Hs; apply Hin, Hs|]. intros Hs. apply Hid; [done|]. intros id Hi. by apply Hs.
Qed.

Lemma draws_did draw draws : forall n tried s i db,
  registry_ok db ->
  let '(r, _, db') := claim_draws micros_to_iso env project_id p draw draws n tried s i db in
  claim_did db (draws_inserts draw draws n tried s i db) (row_of r) db'.
Proof.
  induction draws as [|draws IH]; intros n tried s i db Hok; [split; [by apply moves_refl|done]|]. cbn [claim_draws draws_inserts].
  pose proof (try_did n s db Hok) as Ht. destruct (try_name _ _ _ _ n s db) as [[e|[row|]] db1]; [by apply claim_did_more..|].
  destruct (redraw _ _ _ _ _) as [s' i'].
  pose proof (IH (S n) ({[s]} ∪ tried) s' i' db1 (claim_did_moves _ _ _ _ Ht)) as H.
  destruct (claim_draws _ _ _ _ _ _ _ _ _ _ _) as [[r m] db2]. by eapply claim_did_then.
Qed.

Lemma scan_did l : forall n db,
  registry_ok db ->
  let '(r, db') := claim_scan micros_to_iso env project_id p n l db in claim_did db (scan_inserts n l db) (row_of r) db'.
Proof.
  induction l as [|s l IH]; intros n db Hok; [split; [by apply moves_refl|done]|]. cbn [claim_scan scan_inserts].
  pose proof (try_did n s db Hok) as Ht. destruct (try_name _ _ _ _ n s db) as [[e|[row|]] db1]; [by apply claim_did_more..|].
  pose proof (IH (S n) db1 (claim_did_moves _ _ _ _ Ht)) as H.
  destruct (claim_scan _ _ _ _ _ _ _) as [r db2]. by eapply claim_did_then.
Qed.

(** Whatever other requests commit between its attempts, a registration
    without a name never merges with an agent: the row it answers is one that an
    attempt of its own inserted, under a name the gate let pass. *)
Lemma fresh_name_claim first draw entropy db :
  registry_ok db ->
  let '(r, db') := claim_fresh_auto_named_agent micros_to_iso env project_id p first draw entropy db in
  claim_did db (claim_inserts first draw entropy db) (match r with inr row => Some row | inl _ => None end) db'.
Proof.
  intros Hok. unfold claim_fresh_auto_named_agent, claim_inserts.
  pose proof (draws_did draw AUTO_NAME_MAX_DRAWS 0 ∅ first 0 db Hok) as H.
  destruct (claim_draws _ _ _ _ _ _ _ _ _ _ _) as [[[e|[row|]] n] db1]; cbn [row_of] in H; [by apply claim_did_more..|].
  cbv zeta. destruct (unused_agent_names project_id db1) as [|s0 l0]; [by apply claim_did_more|].
  pose proof (scan_did (scan_order (s0 :: l0) (entropy mod length (s0 :: l0))) n db1 (claim_did_moves _ _ _ _ H)) as H2.
  destruct (claim_scan _ _ _ _ _ _ _) as [[e|[row|]] db2]; cbn [row_of] in H2; by eapply claim_did_then.
Qed.
End crowd.

Definition witness_env : ClaimEnv := mkClaimEnv (fun _ => []) (fun n => Z.of_nat n) (fun _ => false) (fun _ => promptly) (fun _ => true).
Definition witness_claim : (ClaimError + AgentRow) * AgentDb :=
  claim_fresh_auto_named_agent witness_iso witness_env 7 witness_profile (u "BlueLake") (fun _ => u "RedStone") 0
    (history witness_iso witness_before).

Lemma vocabulary_check s a n :
  existsb (ustr_eqb a) VALID_ADJECTIVES = true -> existsb (ustr_eqb n) VALID_NOUNS = true ->
  s = pascal_case_agent_name a n -> vocabulary_name s.
Proof. intros Ha Hn ->. exists a, n. split; [by apply existsb_In|]. split; [by apply existsb_In|done]. Qed.

Lemma fresh_name_claimed_while_any_left_witness :
  match witness_claim with
  | (inr row, db') => inserted 7 (history witness_iso witness_before) row db'
  | (inl e, db') => e = AllNamesTaken /\ db' = history witness_iso witness_before /\
      forall s, vocabulary_name s -> get_agent (history witness_iso witness_before) 7 s <> None
  end.
Proof.
  assert (undisturbed witness_env) as He by (split; [reflexivity|split; [reflexivity|split; reflexivity]]).
  assert (plain_task witness_profile) as Ht by (vm_compute; reflexivity).
  assert (vocabulary_name (u "BlueLake")) as H1
    by (apply (vocabulary_check _ (u "blue") (u "lake")); vm_compute; reflexivity).
  assert (vocabulary_name (u "RedStone")) as H2
    by (apply (vocabulary_check _ (u "red") (u "stone")); vm_compute; reflexivity).
  exact (fresh_name_claimed_while_any_left witness_iso witness_env 7 witness_profile He Ht (u "BlueLake")
           (fun _ => u "RedStone") 0 (history witness_iso witness_before) (history_ok _ _) H1 (fun _ => H2)).
Defined.
