(* ===== verification/SessionActors.v ===== *)
(** * Acting as an agent ([tools/src/identity.rs], [tools/src/messaging.rs])

    Who may send as an agent, who may retire it, and which agents a registration
    binds to the session that asks for it.  The tools run on the registry and on
    the state of one session; other sessions are transactions on the registry in
    between.  Of a tool, the checks, the transactions and the bindings are here;
    the archive profile, the pane file and the JSON of the answer are not. *)

From S2P Require Import Prelude.
From S2P Require Import RustStr.
From S2P Require Import AgentNames.
From S2P Require Import AgentRegistry.
From S2P Require Import AgentClaims.
From S2P Require Import SessionIdentity.

(** ** Tokens *)

(** @src core/src/setup.rs:702-724 constant_time_eq, constant_time_str_eq *)
Definition constant_time_eq (a b : list N) : bool :=
  if negb (length a =? length b)%nat then false
  else (foldl (fun diff xy => N.lor diff (N.lxor xy.1 xy.2)) 0 (zip a b) =? 0)%N.
Definition constant_time_str_eq (a b : ustr) : bool := constant_time_eq (utf8 a) (utf8 b).

(** [filter(|token| !token.is_empty())]. *)
Definition nonempty_token (token : option ustr) : option ustr :=
  match token with Some t => if is_empty t then None else Some t | None => None end.

Inductive SenderError :=
  | SenderTokenRequired
  | SenderTokenUnavailable
  | SenderTokenMismatch
  | SenderRefused (e : AuthError).

(** @src tools/src/messaging.rs:2577-2636 verify_sender_identity *)
Definition verify_sender_identity (sender_token registration_token : option ustr) (require_verified_sender : bool) :
    SenderError + bool :=
  match nonempty_token sender_token with
  | None => if require_verified_sender then inl SenderTokenRequired else inr false
  | Some sender_token =>
      match registration_token with
      | None => if require_verified_sender then inl SenderTokenUnavailable else inr false
      | Some registration_token =>
          if constant_time_str_eq sender_token registration_token then inr true else inl SenderTokenMismatch
      end
  end.

(** @src tools/src/messaging.rs:2512-2527 SenderProof *)
Inductive SenderProof := Unverified | Token | Session.
Definition verified (p : SenderProof) : bool := match p with Unverified => false | _ => true end.

(** What the requests of a tool read of their context, in order. *)
Record ToolReads := mkToolReads { holds_reads : CtxReads; holds_live : bool; auth_live : bool; auth_reads : CtxReads; auth_live' : bool }.

Definition lift_auth (r : AuthError + unit) : SenderError + unit :=
  match r with inl e => inl (SenderRefused e) | inr tt => inr tt end.

(** @src tools/src/messaging.rs:2529-2557 verify_sender *)
Definition verify_sender (enabled : bool) (r : ToolReads) (sender : AgentRow) (sender_token : option ustr)
    (require_verified_sender : bool) : SenderError + SenderProof :=
  let token := nonempty_token sender_token in
  if match token with None => true | Some _ => false end &&
     holds enabled (holds_reads r) (holds_live r) (Some (ar_id sender)) then inr Session
  else
    verified ← verify_sender_identity token (ar_token sender) require_verified_sender;
    _ ← lift_auth (authorize_actor enabled (auth_live r) (auth_reads r) (auth_live' r) sender verified (u "send messages"));
    inr (if verified : bool then Token else Unverified).

(** ** Lifecycle *)

(** @src core/src/pane_identity.rs:247-257 CallTransport *)
Inductive CallTransport := Stdio | Http.

(** @src core/src/pane_identity.rs:272-284 CallTransport::parse *)
Definition parse_transport (raw : ustr) : option CallTransport :=
  let trimmed := trim raw in
  if eq_ignore_ascii_case trimmed (u "stdio") then Some Stdio
  else if eq_ignore_ascii_case trimmed (u "http") then Some Http
  else None.

(** @src tools/src/identity.rs:2192-2218 validated_call_transport
    -- [None]: the caller's error. *)
Definition validated_call_transport (raw : option ustr) : option CallTransport :=
  match raw with
  | Some raw => if is_empty (trim raw) then Some Stdio else parse_transport raw
  | None => Some Stdio
  end.

(** @src core/src/pane_identity.rs:318-340 LifecycleAuthPolicy, for_transport, accepts_bound_pane *)
Inductive LifecycleAuthPolicy := TokenOrBoundPane | TokenOnly.
Definition for_transport (t : CallTransport) : LifecycleAuthPolicy :=
  match t with Stdio => TokenOrBoundPane | Http => TokenOnly end.
Definition accepts_bound_pane (p : LifecycleAuthPolicy) : bool := match p with TokenOrBoundPane => true | TokenOnly => false end.

(** @src tools/src/identity.rs:2068-2077 LifecycleAuthRefusal *)
Inductive LifecycleAuthRefusal := TokenMismatch | NoBoundPane | TokenRequired.

(** @src tools/src/identity.rs:2089-2120 lifecycle_auth_decision *)
Definition lifecycle_auth_decision (policy : LifecycleAuthPolicy) (provided_token stored_token : option ustr)
    (pane_bound_to_agent : bool) : LifecycleAuthRefusal + unit :=
  match nonempty_token provided_token with
  | Some provided =>
      if match stored_token with Some stored => constant_time_str_eq provided stored | None => false end
      then inr tt else inl TokenMismatch
  | None =>
      if negb (accepts_bound_pane policy) then inl TokenRequired
      else if pane_bound_to_agent then inr tt else inl NoBoundPane
  end.

Inductive LifecycleError :=
  | InvalidTransport
  | AgentMissing
  | AuthenticationRequired (r : LifecycleAuthRefusal)
  | AgentIsDeregistered
  | LifecycleDb (e : AgentDbError).

(** @src tools/src/identity.rs:2122-2190 authenticate_lifecycle_agent
    -- [pane]: the agent its pane is bound to. *)
Definition authenticate_lifecycle_agent (agent : AgentRow) (registration_token pane : option ustr) (transport : CallTransport) :
    LifecycleError + unit :=
  match lifecycle_auth_decision (for_transport transport) registration_token (ar_token agent)
          (match pane with Some resolved => eq_ignore_ascii_case resolved (ar_name agent) | None => false end) with
  | inl r => inl (AuthenticationRequired r)
  | inr tt => inr tt
  end.

(** @src tools/src/identity.rs:2239-2269 reject_deregistered_lifecycle_transition *)
Definition reject_deregistered_lifecycle_transition (db : AgentDb) (agent : AgentRow) : LifecycleError + unit :=
  match get_agent_deregistered_at db (ar_id agent) with None => inr tt | Some _ => inl AgentIsDeregistered end.

(** ** One session on the registry *)

Record World := mkWorld { registry : AgentDb; own : SessionIdentityState }.

Definition db_result {A} (r : AgentDbError + A) : LifecycleError + A :=
  match r with inl e => inl (LifecycleDb e) | inr a => inr a end.

(** What a lifecycle call presents. *)
Record LifecycleCall := mkLifecycle {
  lc_project : Z; lc_name : ustr; lc_token : option ustr; lc_pane : option ustr; lc_transport : option ustr;
}.

(** The checks the lifecycle tools share. *)
Definition lifecycle_agent (w : World) (c : LifecycleCall) : LifecycleError + AgentRow :=
  match validated_call_transport (lc_transport c) with
  | None => inl InvalidTransport
  | Some transport =>
      match get_agent (registry w) (lc_project c) (lc_name c) with
      | None => inl AgentMissing
      | Some agent =>
          _ ← authenticate_lifecycle_agent agent (lc_token c) (lc_pane c) transport; inr agent
      end
  end.

Section tools.
  Context (micros_to_iso : Z -> ustr) (enabled : bool).

Definition bind (project_id agent_id : Z) (name : ustr) (now : Z) (s : SessionIdentityState) : SessionIdentityState :=
  if binds enabled true project_id agent_id name then bind_update project_id agent_id name now s else s.
Definition unbind (agent_id : Z) (s : SessionIdentityState) : SessionIdentityState :=
  if enabled then snd (unbind_update agent_id s) else s.

(** @src tools/src/identity.rs:3656-3730 retire_agent *)
Definition retire_tool (now : Z) (c : LifecycleCall) (w : World) : (LifecycleError + AgentRow) * World :=
  match agent ← lifecycle_agent w c; _ ← reject_deregistered_lifecycle_transition (registry w) agent; inr agent with
  | inl e => (inl e, w)
  | inr agent =>
      let '(r, db) := set_agent_retired_at (ar_id agent) (Some (default now (ar_retired_at agent))) (registry w) in
      match r with
      | inl e => (inl (LifecycleDb e), mkWorld db (own w))
      | inr updated => (inr updated, mkWorld db (unbind (ar_id agent) (own w)))
      end
  end.

(** @src tools/src/identity.rs:3732-3791 unretire_agent *)
Definition unretire_tool (c : LifecycleCall) (w : World) : (LifecycleError + AgentRow) * World :=
  match agent ← lifecycle_agent w c; _ ← reject_deregistered_lifecycle_transition (registry w) agent; inr agent with
  | inl e => (inl e, w)
  | inr agent =>
      let '(r, db) := set_agent_retired_at (ar_id agent) None (registry w) in (db_result r, mkWorld db (own w))
  end.

(** @src tools/src/identity.rs:3793-3866 deregister_agent *)
Definition deregister_tool (now : Z) (c : LifecycleCall) (w : World) : (LifecycleError + AgentRow) * World :=
  match lifecycle_agent w c with
  | inl e => (inl e, w)
  | inr agent =>
      let '(r, db) := deregister_agent micros_to_iso (ar_id agent) now (registry w) in
      match r with
      | inl e => (inl (LifecycleDb e), mkWorld db (own w))
      | inr updated => (inr updated, mkWorld db (unbind (ar_id agent) (own w)))
      end
  end.

(** @src tools/src/identity.rs:3559-3640 sweep_stale_agents
    -- [touched]: the throttle let the caller's activity be written; [owners]: the
    holders of leases in force. *)
Definition sweep_tool (now : Z) (touched : bool) (threshold_seconds : option Z) (require_no_active_reservations : option bool)
    (owners : gset Z) (c : LifecycleCall) (w : World) : (LifecycleError + list AgentRow) * World :=
  match actor ← lifecycle_agent w c; _ ← reject_deregistered_lifecycle_transition (registry w) actor; inr actor with
  | inl e => (inl e, w)
  | inr actor =>
      let db := if touched then touch_write now (ar_id actor) (registry w) else registry w in
      let effective_threshold := Z.max (default 86400 threshold_seconds) 60 in
      let cutoff := isat_sub now (iclamp (effective_threshold * 1000000)) in
      let '(retired, db) := sweep_stale_agents (lc_project c) (ar_id actor) cutoff now
            (if default true require_no_active_reservations then owners else ∅) db in
      (inr retired, mkWorld db (own w))
  end.

(** ** Registration *)

Inductive RegisterError :=
  | EmptyProgram | EmptyModel | EmptyAgentName | InvalidAgentName | InvalidAttachmentsPolicy
  | GateRefused
  | RegisterRefused (e : AuthError)
  | RegisterDb (e : AgentDbError)
  | ClaimFailed (e : ClaimError).

(** What a registration asks for. *)
Record RegisterCall := mkRegister {
  rg_project : Z; rg_program : ustr; rg_model : ustr; rg_name : option ustr; rg_task : option ustr;
  rg_attachments : option ustr; rg_reaper_exempt : option bool;
}.

(** What it meets: the clock, a lookup that fails, transactions of others between
    the lookup and the write, the liveness of the request at its checks, the new
    token (empty when none could be drawn) and whether it was stored, the proof
    gate, what follows the commit, and what a claim of a fresh name meets. *)
Record RegisterEnv := mkRegisterEnv {
  re_now : Z; re_lookup_fails : bool; re_between : list AgentOp; re_auth_live : bool; re_holds_live : bool;
  re_token : ustr; re_token_stored : bool; re_gate : ustr -> bool; re_after : Aftermath;
  re_claim : ClaimEnv; re_first : ustr; re_draw : nat -> ustr; re_entropy : nat;
}.

(** @src tools/src/identity.rs:3868-3874 is_valid_attachments_policy *)
Definition is_valid_attachments_policy (policy : ustr) : bool :=
  existsb (ustr_eqb policy) (map u ["auto"; "inline"; "file"; "none"]%string).

(** @src tools/src/identity.rs:2867-2916 register_agent_with_token_policy
    -- the explicit name, if there is one. *)
Definition explicit_name (name : option ustr) : RegisterError + option ustr :=
  match name with
  | None => inr None
  | Some n =>
      let n := trim n in
      if is_empty n then inl EmptyAgentName
      else match fst (normalize_agent_name n ∅) with
           | Some normalized => inr (Some normalized)
           | None => inl InvalidAgentName
           end
  end.

(** @src tools/src/identity.rs:2839-2933 register_agent_with_token_policy
    -- what is checked before the store is asked; [create_agent_identity] starts
    alike. *)
Definition register_checks (c : RegisterCall) : RegisterError + (option ustr * AgentProfile) :=
  let program := trim (rg_program c) in
  let model := trim (rg_model c) in
  if is_empty program then inl EmptyProgram
  else if is_empty model then inl EmptyModel
  else
    name ← explicit_name (rg_name c);
    let policy := to_ascii_lowercase (trim (default (u "auto") (rg_attachments c))) in
    if negb (is_valid_attachments_policy policy) then inl InvalidAttachmentsPolicy
    else inr (name, mkProfile program model (rg_task c) (Some policy) (rg_reaper_exempt c)).

(** [ensure_live] around a read of the session value. *)
Definition reads (live : bool) (s : SessionIdentityState) : CtxReads := mkReads live (Some s) live.

(** @src tools/src/identity.rs:2977-3024 register_agent_with_token_policy
    -- the row: an upsert under a given name, else a claim. *)
Definition register_row (c : RegisterCall) (e : RegisterEnv) (name : option ustr) (p : AgentProfile) (db : AgentDb) :
    (RegisterError + AgentRow) * AgentDb :=
  match name with
  | Some agent_name =>
      match register_agent micros_to_iso db (re_now e) (rg_project c) agent_name p (re_after e) with
      | (inl err, db) => (inl (RegisterDb err), db)
      | (inr row, db) => (inr row, db)
      end
  | None =>
      match claim_fresh_auto_named_agent micros_to_iso (re_claim e) (rg_project c) p (re_first e) (re_draw e) (re_entropy e) db with
      | (inl err, db) => (inl (ClaimFailed err), db)
      | (inr row, db) =>
          if bool_decide (rg_reaper_exempt c = Some true) then
            match register_agent micros_to_iso db (re_now e) (rg_project c) (ar_name row) p (re_after e) with
            | (inl err, db) => (inl (RegisterDb err), db)
            | (inr row, db) => (inr row, db)
            end
          else (inr row, db)
      end
  end.

(** @src tools/src/identity.rs:3027-3087 register_agent_with_token_policy
    -- a fresh token, unless an existing one is kept; one that was not stored is
    not told. *)
Definition issue_token (e : RegisterEnv) (keep_existing : bool) (row : AgentRow) (db : AgentDb) : AgentRow * AgentDb :=
  let kept := keep_existing && match nonempty_token (ar_token row) with Some _ => true | None => false end in
  if kept || is_empty (re_token e) || negb (re_token_stored e) then (row, db)
  else (set_token (re_token e) row, update_agent_registration_token (ar_id row) (re_token e) db).

(** @src tools/src/identity.rs:2819-3095 register_agent_with_token_policy
    -- [keep_existing]: the token policy. *)
Definition register_tool (keep_existing : bool) (c : RegisterCall) (e : RegisterEnv) (w : World) :
    (RegisterError + AgentRow) * World :=
  match register_checks c with
  | inl err => (inl err, w)
  | inr (name, p) =>
      if match name with Some n => negb (re_gate e n) | None => false end then (inl GateRefused, w)
      else
        let existing_before :=
          if enabled && negb (re_lookup_fails e)
          then n ← name; get_agent (registry w) (rg_project c) n else None in
        match (match existing_before with
               | Some existing => authorize_actor enabled (re_auth_live e) (reads (re_auth_live e) (own w)) (re_auth_live e)
                                    existing false (u "re-register")
               | None => inr tt
               end) with
        | inl err => (inl (RegisterRefused err), w)
        | inr _ =>
            let db := run (apply_agent_op micros_to_iso) (registry w) (re_between e) in
            match register_row c e name p db with
            | (inl err, db) => (inl err, mkWorld db (own w))
            | (inr row, db) =>
                let '(row, db) := issue_token e keep_existing row db in
                let s := if match existing_before with None => true | Some _ => false end ||
                            holds enabled (reads (re_holds_live e) (own w)) (re_holds_live e) (Some (ar_id row))
                         then bind (rg_project c) (ar_id row) (ar_name row) (re_now e) (own w) else own w in
                (inr row, mkWorld db s)
            end
        end
  end.

(** @src tools/src/identity.rs:3338-3402 create_agent_identity
    -- the row: an insert under a given name, else a claim. *)
Definition create_row (c : RegisterCall) (e : RegisterEnv) (name : option ustr) (p : AgentProfile) (db : AgentDb) :
    (RegisterError + AgentRow) * AgentDb :=
  match name with
  | Some agent_name =>
      if negb (re_gate e agent_name) then (inl GateRefused, db)
      else
        match create_agent micros_to_iso db (re_now e) (rg_project c) agent_name p (re_after e) with
        | (inl err, db) => (inl (RegisterDb err), db)
        | (inr row, db) => (inr row, db)
        end
  | None =>
      match claim_fresh_auto_named_agent micros_to_iso (re_claim e) (rg_project c) p (re_first e) (re_draw e) (re_entropy e) db with
      | (inl err, db) => (inl (ClaimFailed err), db)
      | (inr row, db) => (inr row, db)
      end
  end.

(** @src tools/src/identity.rs:3194-3463 create_agent_identity *)
Definition create_tool (c : RegisterCall) (e : RegisterEnv) (w : World) : (RegisterError + AgentRow) * World :=
  match register_checks c with
  | inl err => (inl err, w)
  | inr (name, p) =>
      match create_row c e name p (run (apply_agent_op micros_to_iso) (registry w) (re_between e)) with
      | (inl err, db) => (inl err, mkWorld db (own w))
      | (inr row, db) =>
          let '(row, db) := issue_token e false row db in
          (inr row, mkWorld db (bind (rg_project c) (ar_id row) (ar_name row) (re_now e) (own w)))
      end
  end.
End tools.
