(* ===== verification/SessionActorsProps.v ===== *)
(** * Who acts as whom

    Credentials are compared in full, refused calls change nothing, and over the
    life of a session the agents it is taken for are those it established
    itself. *)

From S2P Require Import Prelude.
From S2P Require Import RustStr.
From S2P Require Import AgentNames.
From S2P Require Import AgentRegistry.
From S2P Require Import AgentRegistryProps.
From S2P Require Import AgentClaims.
From S2P Require Import SessionIdentity.
From S2P Require Import SessionActors.

(** ** Tokens *)

Lemma fold_lor_zero l : forall d,
  foldl (fun diff xy => N.lor diff (N.lxor xy.1 xy.2)) d l = 0%N <-> d = 0%N /\ Forall (fun xy => xy.1 = xy.2) l.
Proof.
  induction l as [|[x y] l IH]; intros d; cbn [foldl fst snd].
  - split; [by intros ->|by intros [-> _]].
  - rewrite IH, N.lor_eq_0_iff, N.lxor_eq_0_iff, Forall_cons. cbn [fst snd]. tauto.
Qed.

Lemma constant_time_eq_spec a b : constant_time_eq a b = bool_decide (a = b).
Proof.
  unfold constant_time_eq. destruct (length a =? length b)%nat eqn:El; cbn [negb].
  - apply Nat.eqb_eq in El. apply eq_bool_prop_intro. rewrite bool_decide_spec, Is_true_true, N.eqb_eq, fold_lor_zero.
    split; [intros [_ H]|intros ->; split; [done|]].
    + revert b El H. induction a as [|x a IH]; intros [|y b] El H; try done. cbn [zip zip_with] in H.
      apply Forall_cons in H as [Hx H]. cbn [fst snd] in Hx. subst. f_equal. apply IH; [by injection El|done].
    + clear El. induction b as [|y b IH]; [apply Forall_nil_2|]. cbn [zip zip_with]. by apply Forall_cons.
  - apply Nat.eqb_neq in El. rewrite bool_decide_eq_false_2; [done|]. by intros ->.
Qed.

Lemma constant_time_str_eq_spec a b : constant_time_str_eq a b = ustr_eqb a b.
Proof.
  unfold constant_time_str_eq. rewrite constant_time_eq_spec. unfold ustr_eqb. apply bool_decide_ext.
  split; [apply utf8_inj|by intros ->].
Qed.

Definition presents (token stored : option ustr) : Prop :=
  exists t, nonempty_token token = Some t /\ stored = Some t.

Lemma token_matches t stored :
  match stored with Some s => constant_time_str_eq t s | None => false end = true <-> stored = Some t.
Proof. destruct stored as [s|]; [|done]. rewrite constant_time_str_eq_spec, ustr_eqb_eq. split; [by intros ->|by intros [= ->]]. Qed.

(** How a sender is proven, in full.  Without a token, the session must hold
    the sender's id while the request is live; with one, it must be the stored
    token, and the request live; otherwise nothing is proven, which is refused
    under the fail-closed profile and, elsewhere, when the session may not act as
    that agent. *)
Theorem sender_proof_exact enabled r sender token require proof :
  verify_sender enabled r sender token require = inr proof <->
  (proof = Session /\ nonempty_token token = None /\
     holds enabled (holds_reads r) (holds_live r) (Some (ar_id sender)) = true) \/
  (proof = Token /\ presents token (ar_token sender) /\ auth_live r = true) \/
  (proof = Unverified /\ require = false /\
     ((nonempty_token token = None /\ holds enabled (holds_reads r) (holds_live r) (Some (ar_id sender)) = false) \/
      (is_Some (nonempty_token token) /\ ar_token sender = None)) /\
     authorize_actor enabled (auth_live r) (auth_reads r) (auth_live' r) sender false (u "send messages") = inr tt).
Proof.
  unfold verify_sender, verify_sender_identity, presents. cbv zeta.
  assert (forall t, nonempty_token token = Some t -> nonempty_token (Some t) = Some t) as Hidem.
  { intros t Ht. destruct token as [t'|]; [|done]. cbn [nonempty_token] in *. destruct (is_empty t') eqn:E; [done|].
    injection Ht as <-. cbn [nonempty_token]. by rewrite E. }
  destruct (nonempty_token token) as [t|] eqn:Et.
  - cbn [andb]. rewrite (Hidem t eq_refl). destruct (ar_token sender) as [stored|] eqn:Es.
    + rewrite constant_time_str_eq_spec. destruct (ustr_eqb t stored) eqn:Ec; cbn [mbind result_bind].
      * apply ustr_eqb_eq in Ec as <-. unfold authorize_actor. destruct (auth_live r); cbn [negb lift_auth]; naive_solver.
      * apply ustr_eqb_neq in Ec. naive_solver.
    + destruct require; cbn [mbind result_bind]; [naive_solver|].
      destruct (authorize_actor _ _ _ _ _ _ _) as [err|[]] eqn:Ea; cbn [lift_auth]; naive_solver.
  - cbn [nonempty_token]. destruct (holds _ _ _ _) eqn:Eh; cbn [andb]; [naive_solver|].
    destruct require; cbn [mbind result_bind]; [naive_solver|].
    destruct (authorize_actor _ _ _ _ _ _ _) as [err|[]] eqn:Ea; cbn [lift_auth]; naive_solver.
Qed.

(** ** Lifecycle *)

Lemma lifecycle_decision_iff policy token stored pane :
  lifecycle_auth_decision policy token stored pane = inr tt <->
  presents token stored \/ (nonempty_token token = None /\ policy = TokenOrBoundPane /\ pane = true).
Proof.
  unfold lifecycle_auth_decision, presents. destruct (nonempty_token token) as [t|] eqn:Et.
  - pose proof (token_matches t stored) as Hm. destruct (match stored with Some s => _ | None => false end); naive_solver.
  - destruct policy, pane; cbn; naive_solver.
Qed.

(** The caller proved to be the agent: its token, or over stdio a pane bound to it. *)
Definition credentials (c : LifecycleCall) (agent : AgentRow) : Prop :=
  (validated_call_transport (lc_transport c) <> None /\ presents (lc_token c) (ar_token agent)) \/
  (nonempty_token (lc_token c) = None /\ validated_call_transport (lc_transport c) = Some Stdio /\
     exists resolved, lc_pane c = Some resolved /\ eq_ignore_ascii_case resolved (ar_name agent) = true).

Lemma lifecycle_agent_iff w c agent :
  lifecycle_agent w c = inr agent <->
  get_agent (registry w) (lc_project c) (lc_name c) = Some agent /\ credentials c agent.
Proof.
  unfold lifecycle_agent, credentials, authenticate_lifecycle_agent.
  destruct (validated_call_transport _) as [transport|]; [|split; [done|naive_solver]].
  destruct (get_agent _ _ _) as [a|]; [|naive_solver].
  remember (match lc_pane c with Some _ => _ | None => false end) as bound eqn:Eb.
  assert (bound = true <-> exists resolved, lc_pane c = Some resolved /\ eq_ignore_ascii_case resolved (ar_name a) = true) as Hb
    by (subst bound; destruct (lc_pane c); naive_solver).
  pose proof (lifecycle_decision_iff (for_transport transport) (lc_token c) (ar_token a) bound) as Hd.
  assert (for_transport transport = TokenOrBoundPane <-> transport = Stdio) as Ht by (by destruct transport).
  clear Eb. destruct (lifecycle_auth_decision _ _ _ _) as [e|[]]; cbn [mbind result_bind].
  - split; [done|]. intros [[= <-] [[_ Hp]|(Hn & [= ->] & Hr)]].
    + discriminate (proj2 Hd (or_introl Hp)).
    + discriminate (proj2 Hd). right. by rewrite Hb.
  - split.
    + intros [= <-]. split; [done|]. destruct (proj1 Hd eq_refl) as [Hp|(Hn & Hpol & Hbt)]; [by left|right].
      apply Ht in Hpol as ->. by rewrite <- Hb.
    + by intros [[= <-] _].
Qed.

Lemma unbind_gone id s : ~ In id (map sb_agent (held (snd (unbind_update id s)))).
Proof.
  intros (b & <- & [_ Hb]%filter_In)%in_map_iff. unfold is_agent in Hb. by rewrite Z.eqb_refl in Hb.
Qed.

(** No lifecycle call changes anything - the registry or the session - unless
    it proved to be the agent it names: with the agent's stored token, or, over
    stdio and presenting no token at all, from a pane bound to it.  Over HTTP only
    the token counts, a wrong token never falls back to the pane, an unknown
    transport is refused, and a deregistered agent's call to retire, unretire or
    sweep changes nothing.  An agent that was retired or deregistered is no longer
    held by the session that asked for it. *)
Theorem lifecycle_needs_credentials iso w c now touched threshold protect owners :
  let '(r1, w1) := retire_tool true now c w in
  let '(r2, w2) := unretire_tool c w in
  let '(r3, w3) := deregister_tool iso true now c w in
  let '(r4, w4) := sweep_tool now touched threshold protect owners c w in
  (w1 <> w \/ w2 <> w \/ w3 <> w \/ w4 <> w ->
     exists agent, get_agent (registry w) (lc_project c) (lc_name c) = Some agent /\ credentials c agent) /\
  (forall agent, get_agent (registry w) (lc_project c) (lc_name c) = Some agent ->
     is_Some (get_agent_deregistered_at (registry w) (ar_id agent)) -> w1 = w /\ w2 = w /\ w4 = w) /\
  (forall agent, get_agent (registry w) (lc_project c) (lc_name c) = Some agent ->
     (forall a, r1 = inr a -> ~ In (ar_id agent) (map sb_agent (held (own w1)))) /\
     (forall a, r3 = inr a -> ~ In (ar_id agent) (map sb_agent (held (own w3))))).
Proof.
  unfold retire_tool, unretire_tool, deregister_tool, sweep_tool.
  destruct (lifecycle_agent w c) as [e|agent] eqn:Ea; cbn [mbind result_bind].
  { split; [tauto|]. by split. }
  apply lifecycle_agent_iff in Ea as [Hg Hc]. unfold reject_deregistered_lifecycle_transition.
  destruct (deregister_agent iso (ar_id agent) now (registry w)) as [r3 db3].
  destruct (get_agent_deregistered_at (registry w) (ar_id agent)) as [ts|] eqn:Hd; cbn [mbind result_bind].
  - destruct r3 as [e3|a3]; (split; [eauto|]; split; [done|]); rewrite Hg; intros ? [= <-]; (split; [done|]); [done|].
    intros _ _. apply unbind_gone.
  - destruct (set_agent_retired_at (ar_id agent) _ (registry w)) as [r1 db1] eqn:E1.
    destruct (set_agent_retired_at (ar_id agent) None (registry w)) as [r2 db2].
    destruct (sweep_stale_agents _ _ _ _ _ _) as [r4 db4].
    destruct r1 as [e1|a1], r3 as [e3|a3]; (split; [eauto|]; split; [rewrite Hg; intros ? [= <-] [? ?]; congruence|]);
      rewrite Hg; intros ? [= <-]; split; try done; intros _ _; apply unbind_gone.
Qed.

(** ** The life of a session *)

Section life.
  Context (micros_to_iso : Z -> ustr) (enabled : bool).
Local Notation apply := (apply_agent_op micros_to_iso).

(** A call of this session, or a transaction of somebody else. *)
Inductive ToolCall :=
  | TRegister (keep_existing : bool) (c : RegisterCall) (e : RegisterEnv)
  | TCreate (c : RegisterCall) (e : RegisterEnv)
  | TRetire (now : Z) (c : LifecycleCall)
  | TUnretire (c : LifecycleCall)
  | TDeregister (now : Z) (c : LifecycleCall)
  | TSweep (now : Z) (touched : bool) (threshold : option Z) (protect : option bool) (owners : gset Z) (c : LifecycleCall)
  | TOther (o : AgentOp).

Definition apply_call (w : World) (t : ToolCall) : World :=
  match t with
  | TRegister k c e => snd (register_tool micros_to_iso enabled k c e w)
  | TCreate c e => snd (create_tool micros_to_iso enabled c e w)
  | TRetire now c => snd (retire_tool enabled now c w)
  | TUnretire c => snd (unretire_tool c w)
  | TDeregister now c => snd (deregister_tool micros_to_iso enabled now c w)
  | TSweep now touched threshold protect owners c => snd (sweep_tool now touched threshold protect owners c w)
  | TOther o => mkWorld (apply (registry w) o) (own w)
  end.

(** The registry a registration writes to. *)
Definition written (w : World) (e : RegisterEnv) : AgentDb := run apply (registry w) (re_between e).

(** The ids the commits of a registration insert, whatever it answers: under a
    name, what its one transaction adds to the registry it finds; without one,
    what its attempts add. *)
Definition attempts (w : World) (c : RegisterCall) (e : RegisterEnv) (commit : Z -> Z -> ustr -> AgentProfile -> AgentOp) : gset Z :=
  match register_checks c with
  | inl _ => ∅
  | inr (Some n, p) => new_ids micros_to_iso (written w e) (commit (re_now e) (rg_project c) n p)
  | inr (None, p) =>
      claim_inserts micros_to_iso (re_claim e) (rg_project c) p (re_first e) (re_draw e) (re_entropy e) (written w e)
  end.
Definition inserts (w : World) (t : ToolCall) : gset Z :=
  match t with
  | TRegister _ c e => attempts w c e OpRegister
  | TCreate c e => attempts w c e OpCreate
  | _ => ∅
  end.

(** The ids a call establishes: inserted by its own commits, and still there. *)
Definition establishes (w : World) (t : ToolCall) : gset Z := inserts w t ∩ ids (registry (apply_call w t)).

(** Nobody else cleans the row of [id] up during a call. *)
Definition call_spares (e : RegisterEnv) (id : Z) : Prop :=
  spares (re_between e) id /\ spares (am_between (re_after e)) id /\ claim_spares (re_claim e) id.
Definition others_spare (t : ToolCall) (id : Z) : Prop :=
  match t with
  | TRegister _ _ e | TCreate _ e => call_spares e id
  | TOther o => spares [o] id
  | _ => True
  end.

(** The lookup of a registration answers, nobody takes a name it found free before
    it writes, and nobody else cleans up a row this session inserted. *)
Definition faithful (w : World) (mine : gset Z) (t : ToolCall) : Prop :=
  (forall id, id ∈ mine ∪ inserts w t -> others_spare t id) /\
  match t with
  | TRegister _ c e =>
      forall n, explicit_name (rg_name c) = inr (Some n) ->
        re_lookup_fails e = false /\
        (get_agent (registry w) (rg_project c) n = None -> get_agent (written w e) (rg_project c) n = None)
  | _ => True
  end.

(** The worlds a session lives through, with the ids it established. *)
Inductive lives : World -> gset Z -> Prop :=
  | lives_start db : registry_ok db -> lives (mkWorld db empty_session) ∅
  | lives_call w mine t : lives w mine -> faithful w mine t -> lives (apply_call w t) (mine ∪ establishes w t).

(** A binding and the row it stands for. *)
Definition stands_for (b : SessionBinding) (a : AgentRow) : Prop :=
  ar_id a = sb_agent b /\ ar_project a = sb_project b /\ ar_name a = sb_name b.

Record world_inv (db : AgentDb) (s : SessionIdentityState) (mine : gset Z) : Prop := {
  wi_registry : registry_ok db;
  wi_length : (length (held s) <= MAX_SESSION_BINDINGS)%nat;
  wi_held : forall b, In b (held s) -> sb_agent b ∈ mine /\ exists a, In a (agent_rows db) /\ stands_for b a;
}.

Lemma world_inv_moves safe db db' s mine :
  moves safe db db' -> (forall id, id ∈ mine -> safe id) -> world_inv db s mine -> world_inv db' s mine.
Proof.
  intros (Hok & Hr & _) Hs [_ Hl Hh]. split; [done|done|]. intros b Hb. destruct (Hh b Hb) as [Hi (a & Ha & H1 & H2 & H3)].
  split; [done|]. destruct (Hr a Ha) as (a' & Ha' & [(Hid & Hp & Hn & _)%identity_eq _]); [rewrite H1; by apply Hs|].
  exists a'. split; [done|]. unfold stands_for. by rewrite Hid, Hp, Hn.
Qed.

Lemma world_inv_mono db s mine mine' : mine ⊆ mine' -> world_inv db s mine -> world_inv db s mine'.
Proof. intros Hm [H1 H2 H3]. split; [done|done|]. intros b Hb. destruct (H3 b Hb) as [Hi Ha]. split; [by apply Hm|done]. Qed.

Lemma world_inv_incl db s s' mine :
  (length (held s') <= MAX_SESSION_BINDINGS)%nat -> (forall b, In b (held s') -> In b (held s)) ->
  world_inv db s mine -> world_inv db s' mine.
Proof. intros Hl Hi [Hok _ Hh]. split; [done|done|]. intros b Hb. by apply Hh, Hi. Qed.

Lemma unbind_inv db id s mine : world_inv db s mine -> world_inv db (unbind enabled id s) mine.
Proof.
  intros H. unfold unbind. destruct enabled; [|done]. eapply world_inv_incl; [| |exact H].
  - cbn [unbind_update snd set_held held]. etransitivity; [apply filter_length_le|apply H].
  - intros b. cbn [unbind_update snd set_held held]. by intros [Hb _]%filter_In.
Qed.

(** A bind to a row of the registry. *)
Lemma bind_inv db p now row s mine :
  world_inv db s mine -> (exists a, In a (agent_rows db) /\ identity a = identity row) -> ar_project row = p ->
  ar_id row ∈ mine -> world_inv db (bind enabled p (ar_id row) (ar_name row) now s) mine.
Proof.
  intros H (a & Ha & (Hi & Hpa & Hn & _)%identity_eq) Hp Hm. unfold bind.
  destruct (binds enabled true p (ar_id row) (ar_name row)) eqn:Eb; [|done]. split; [apply H| |].
  - rewrite bind_held by apply H. apply trimmed_length, rebound_length, H.
  - intros b Hb. rewrite bind_held in Hb by apply H.
    apply trimmed_incl, in_app_or in Hb as [[Hb _]%filter_In|[<-|[]]]; [by apply H|]. split; [done|].
    exists a. split; [done|]. unfold stands_for. cbn [sb_agent sb_project sb_name]. by rewrite Hi, Hpa, Hn, Hp.
Qed.

(** ** Registrations *)

(** What a registration does: no row it finds is lost by its own doing, and the
    row it answers is of its project and in the registry unless somebody else
    cleaned it up. *)
Definition registers (e : RegisterEnv) (db : AgentDb) (p : Z) (row : AgentRow) (db' : AgentDb) : Prop :=
  moves (call_spares e) db db' /\ ar_project row = p /\
  (call_spares e (ar_id row) -> exists a, In a (agent_rows db') /\ identity a = identity row).

Lemma after_moves e db db' : moves (spares (am_between (re_after e))) db db' -> moves (call_spares e) db db'.
Proof. apply moves_weaken. by intros id _ (_ & H & _). Qed.

Lemma claim_moves e db db' : moves (claim_spares (re_claim e)) db db' -> moves (call_spares e) db db'.
Proof. apply moves_weaken. by intros id _ (_ & _ & H). Qed.

Lemma register_row_moves c e name p db :
  registry_ok db -> moves (call_spares e) db (snd (register_row micros_to_iso c e name p db)).
Proof.
  intros Hok. unfold register_row. destruct name as [n|].
  - pose proof (register_moves micros_to_iso db (re_now e) (rg_project c) n p (re_after e) Hok) as H%after_moves.
    by destruct (register_agent micros_to_iso db _ _ n p _) as [[err|row] db1].
  - pose proof (fresh_name_claim micros_to_iso (re_claim e) (rg_project c) p (re_first e) (re_draw e) (re_entropy e) db Hok) as H.
    destruct (claim_fresh_auto_named_agent _ _ _ _ _ _ _ db) as [[err|row] db1]; destruct H as [H%claim_moves _]; [done|].
    destruct (bool_decide _); [|done].
    pose proof (register_moves micros_to_iso db1 (re_now e) (rg_project c) (ar_name row) p (re_after e) (proj1 H)) as H2%after_moves.
    destruct (register_agent micros_to_iso db1 _ _ _ p _) as [[err|row2] db2]; by eapply moves_trans.
Qed.

(** Under a name it found free, or without one, the row is one it inserted. *)
Lemma register_row_did c e name p db row db' :
  registry_ok db -> register_row micros_to_iso c e name p db = (inr row, db') ->
  registers e db (rg_project c) row db' /\
  match name with
  | Some n =>
      get_agent db (rg_project c) n = None ->
      (forall id, id ∈ new_ids micros_to_iso db (OpRegister (re_now e) (rg_project c) n p) -> call_spares e id) ->
      ar_id row ∈ new_ids micros_to_iso db (OpRegister (re_now e) (rg_project c) n p)
  | None =>
      let claimed := claim_inserts micros_to_iso (re_claim e) (rg_project c) p (re_first e) (re_draw e) (re_entropy e) db in
      (forall id, id ∈ claimed -> call_spares e id) -> ar_id row ∈ claimed
  end.
Proof.
  intros Hok Hr. pose proof (register_row_moves c e name p db Hok) as Hm. rewrite Hr in Hm. cbn [snd] in Hm.
  revert Hr. unfold register_row. destruct name as [n|].
  - destruct (register_agent micros_to_iso db _ _ n p _) as [[err|row1] db1] eqn:Er; [done|]. intros [= -> ->].
    destruct (register_registered _ _ _ _ _ _ _ _ _ Hok Er) as ([Hp _] & Hin & Hnew & _). split.
    + split; [done|]. split; [done|]. intros (_ & Hs & _). by apply Hin.
    + intros Hfree Hs. apply Hnew; [done|]. intros id Hid. by apply (Hs id Hid).
  - pose proof (fresh_name_claim micros_to_iso (re_claim e) (rg_project c) p (re_first e) (re_draw e) (re_entropy e) db Hok) as H.
    destruct (claim_fresh_auto_named_agent _ _ _ _ _ _ _ db) as [[err|row1] db1]; [done|].
    destruct H as [Hc Hrow]. destruct (Hrow row1 eq_refl) as ((n & _ & Hp & Hn) & Hin & Hnew). cbv zeta.
    destruct (bool_decide _).
    + destruct (register_agent micros_to_iso db1 _ _ _ p _) as [[err|row2] db2] eqn:Er; [done|]. intros [= -> ->].
      destruct (register_registered _ _ _ _ _ _ _ _ _ (proj1 Hc) Er) as ([Hp2 _] & Hin2 & _ & Hheld). split.
      * split; [done|]. split; [done|]. intros (_ & Hs & _). by apply Hin2.
      * intros Hs.
        assert (ar_id row1 ∈ claim_inserts micros_to_iso (re_claim e) (rg_project c) p (re_first e) (re_draw e) (re_entropy e) db) as H1
          by (apply Hnew; intros id Hid; by apply (Hs id Hid)).
        destruct (Hs _ H1) as (_ & Hsp & Hsc). destruct (Hin Hsc) as (a & Ha & (Hia & Hpa & Hna & _)%identity_eq).
        rewrite (Hheld a), Hia; [done| |by rewrite Hia].
        apply get_agent_In; [apply Hc|done|]. rewrite Hpa, Hna. by split.
    + intros [= -> ->]. split.
      * split; [done|]. split; [done|]. intros (_ & _ & Hs). by apply Hin.
      * intros Hs. apply Hnew. intros id Hid. by apply (Hs id Hid).
Qed.

Lemma create_row_moves c e name p db :
  registry_ok db -> moves (call_spares e) db (snd (create_row micros_to_iso c e name p db)).
Proof.
  intros Hok. unfold create_row. destruct name as [n|].
  - destruct (negb _); [by apply moves_refl|].
    pose proof (create_moves micros_to_iso db (re_now e) (rg_project c) n p (re_after e) Hok) as H%after_moves.
    by destruct (create_agent micros_to_iso db _ _ n p _) as [[err|row] db1].
  - pose proof (fresh_name_claim micros_to_iso (re_claim e) (rg_project c) p (re_first e) (re_draw e) (re_entropy e) db Hok) as H.
    by destruct (claim_fresh_auto_named_agent _ _ _ _ _ _ _ db) as [[err|row] db1]; destruct H as [H%claim_moves _].
Qed.

(** A creation answers a row it inserted. *)
Lemma create_row_did c e name p db row db' :
  registry_ok db -> create_row micros_to_iso c e name p db = (inr row, db') ->
  registers e db (rg_project c) row db' /\
  let inserted := match name with
                  | Some n => new_ids micros_to_iso db (OpCreate (re_now e) (rg_project c) n p)
                  | None => claim_inserts micros_to_iso (re_claim e) (rg_project c) p (re_first e) (re_draw e) (re_entropy e) db
                  end in
  (forall id, id ∈ inserted -> call_spares e id) -> ar_id row ∈ inserted.
Proof.
  intros Hok Hr. pose proof (create_row_moves c e name p db Hok) as Hm. rewrite Hr in Hm. cbn [snd] in Hm.
  revert Hr. unfold create_row. cbv zeta. destruct name as [n|].
  - destruct (negb _); [done|]. destruct (create_agent micros_to_iso db _ _ n p _) as [[err|row1] db1] eqn:Er; [done|]. intros [= -> ->].
    destruct (create_registered _ _ _ _ _ _ _ _ _ Hok Er) as (Hfree & [Hp _] & Hin & Hnew & _). split.
    + split; [done|]. split; [done|]. intros (_ & Hs & _). by apply Hin.
    + intros Hs. apply Hnew; [done|]. intros id Hid. by apply (Hs id Hid).
  - pose proof (fresh_name_claim micros_to_iso (re_claim e) (rg_project c) p (re_first e) (re_draw e) (re_entropy e) db Hok) as H.
    destruct (claim_fresh_auto_named_agent _ _ _ _ _ _ _ db) as [[err|row1] db1]; [done|].
    destruct H as [_ Hrow]. intros [= -> ->]. destruct (Hrow row eq_refl) as ((n & _ & Hp & Hn) & Hin & Hnew). split.
    + split; [done|]. split; [done|]. intros (_ & _ & Hs). by apply Hin.
    + intros Hs. apply Hnew. intros id Hid. by apply (Hs id Hid).
Qed.

Lemma issue_token_registers e keep row db p db0 :
  registers e db0 p row db ->
  let '(row', db') := issue_token e keep row db in registers e db0 p row' db' /\ identity row' = identity row.
Proof.
  intros (Hm & Hp & Hin). unfold issue_token. destruct (_ || _); [done|]. split; [|done]. split.
  - eapply moves_trans; [exact Hm|]. apply (op_moves micros_to_iso _ _ (OpToken (ar_id row) (re_token e)) (proj1 Hm)). done.
  - split; [done|]. intros Hs. destruct (Hin Hs) as (a & Ha & Hi). exists (if ar_id a =? ar_id row then set_token (re_token e) a else a).
    split; [by apply in_map with (f := fun a => if ar_id a =? ar_id row then set_token (re_token e) a else a) in Ha|].
    destruct (ar_id a =? ar_id row); exact Hi.
Qed.

(** ** Every call keeps the session honest *)

Definition winv (w : World) (mine : gset Z) : Prop := world_inv (registry w) (own w) mine.

Lemma written_moves w e : registry_ok (registry w) -> moves (call_spares e) (registry w) (written w e).
Proof. intros Hok. eapply moves_weaken; [|by apply run_moves]. by intros id _ (H & _). Qed.

Lemma checks_name c name p : register_checks c = inr (name, p) -> explicit_name (rg_name c) = inr name.
Proof.
  unfold register_checks. destruct (is_empty (trim (rg_program c))); [done|].
  destruct (is_empty (trim (rg_model c))); [done|]. destruct (explicit_name (rg_name c)) as [|nm]; [done|].
  cbn [mbind result_bind]. destruct (negb _); [done|]. by intros [= -> _].
Qed.

(** A registration that answered, and whose row may be bound. *)
Lemma registered_inv e db s mine p row db' now b new :
  world_inv db s mine -> registers e db p row db' -> (forall id, id ∈ mine ∪ new -> call_spares e id) ->
  (b = true -> enabled = true -> ar_id row ∈ mine ∪ new) ->
  world_inv db' (if b then bind enabled p (ar_id row) (ar_name row) now s else s) (mine ∪ new ∩ ids db').
Proof.
  intros H (Hm & Hp & Hin) Hs Hb. assert (world_inv db' s (mine ∪ new ∩ ids db')) as H'.
  { apply (world_inv_mono _ _ mine); [apply union_subseteq_l|]. eapply world_inv_moves; [exact Hm| |exact H]. intros id Hid. by apply Hs, elem_of_union_l. }
  destruct b; [|done]. destruct (decide (enabled = true)) as [Hen|Hen].
  - specialize (Hb eq_refl Hen). destruct (Hin (Hs _ Hb)) as (a & Ha & Hi). apply bind_inv; [done|by exists a|done|].
    pose proof Hi as (Hid & _)%identity_eq. assert (ar_id row ∈ ids db') by (rewrite <- Hid; by apply ids_In, in_map).
    apply elem_of_union in Hb as [Hb|Hb]; [by apply elem_of_union_l|]. apply elem_of_union_r. by apply elem_of_intersection.
  - apply not_true_is_false in Hen. unfold bind, binds. rewrite Hen in *. exact H'.
Qed.

Lemma create_winv c e w mine :
  winv w mine -> faithful w mine (TCreate c e) -> winv (apply_call w (TCreate c e)) (mine ∪ establishes w (TCreate c e)).
Proof.
  intros Hw [Hs _]. unfold establishes in *. cbn [inserts others_spare apply_call] in *.
  pose proof (written_moves w e (wi_registry _ _ _ Hw)) as Hm0. unfold attempts in *. unfold create_tool in *.
  destruct (register_checks c) as [err|[name p]]; [apply (world_inv_mono _ _ mine); [apply union_subseteq_l|done]|].
  fold (written w e) in *.
  assert (forall id, id ∈ mine -> call_spares e id) as Hmine by (intros id Hid; by apply Hs, elem_of_union_l).
  pose proof (world_inv_moves _ _ _ _ _ Hm0 Hmine Hw) as Hw1.
  pose proof (create_row_moves c e name p (written w e) (proj1 Hm0)) as Hm.
  destruct (create_row micros_to_iso c e name p (written w e)) as [[err|row0] db0] eqn:Er; cbn [snd] in Hm.
  - apply (world_inv_mono _ _ mine); [apply union_subseteq_l|]. by eapply world_inv_moves.
  - destruct (create_row_did _ _ _ _ _ _ _ (proj1 Hm0) Er) as [Hr Hnew]. cbv zeta in Hnew.
    pose proof (issue_token_registers e false row0 db0 _ _ Hr) as Ht.
    destruct (issue_token e false row0 db0) as [row db'] eqn:Ei. destruct Ht as [Ht (Hid & _)%identity_eq]. cbn [snd registry].
    apply (registered_inv e (written w e) (own w) mine _ row db' _ true); [done|done| |].
    + destruct name; exact Hs.
    + intros _ _. rewrite Hid. apply elem_of_union_r. destruct name; (apply Hnew; intros id Hi; by apply Hs, elem_of_union_r).
Qed.

Lemma holds_mine db s mine live id :
  world_inv db s mine -> holds enabled (reads live s) live (Some id) = true -> id ∈ mine.
Proof.
  intros H. unfold holds, capture, reads. cbn [live_before live_after state_read]. destruct live; [|done]. cbn [negb].
  destruct enabled; [|done]. rewrite andb_true_r. unfold identity_state. cbn [default]. intros (b & Hb & Hi%Z.eqb_eq)%existsb_exists.
  rewrite <- Hi. by apply (wi_held _ _ _ H).
Qed.

Lemma register_winv k c e w mine :
  winv w mine -> faithful w mine (TRegister k c e) ->
  winv (apply_call w (TRegister k c e)) (mine ∪ establishes w (TRegister k c e)).
Proof.
  intros Hw [Hs Hf]. unfold establishes in *. cbn [inserts others_spare apply_call] in *.
  pose proof (written_moves w e (wi_registry _ _ _ Hw)) as Hm0. unfold attempts in *. unfold register_tool in *.
  assert (forall new, winv w (mine ∪ new)) as Hw0 by (intros new; apply (world_inv_mono _ _ mine); [apply union_subseteq_l|done]).
  destruct (register_checks c) as [err|[name p]] eqn:Ec; [apply Hw0|].
  destruct (match name with Some n => negb (re_gate e n) | None => false end); [apply Hw0|].
  remember (if enabled && negb (re_lookup_fails e) then _ else _) as before eqn:Eb.
  destruct (match before with Some existing => _ | None => inr tt end) as [err|[]]; [apply Hw0|]. clear Hw0.
  fold (written w e) in *.
  assert (forall id, id ∈ mine -> call_spares e id) as Hmine by (intros id Hid; by apply Hs, elem_of_union_l).
  pose proof (world_inv_moves _ _ _ _ _ Hm0 Hmine Hw) as Hw1.
  pose proof (register_row_moves c e name p (written w e) (proj1 Hm0)) as Hm.
  destruct (register_row micros_to_iso c e name p (written w e)) as [[err|row0] db0] eqn:Er; cbn [snd] in Hm.
  - apply (world_inv_mono _ _ mine); [apply union_subseteq_l|]. by eapply world_inv_moves.
  - destruct (register_row_did _ _ _ _ _ _ _ (proj1 Hm0) Er) as [Hr Hnew].
    pose proof (issue_token_registers e k row0 db0 _ _ Hr) as Ht.
    destruct (issue_token e k row0 db0) as [row db'] eqn:Ei. destruct Ht as [Ht (Hid & _)%identity_eq]. cbn [snd registry].
    remember (match before with None => true | Some _ => false end || _) as b eqn:Ebind.
    apply (registered_inv e (written w e) (own w) mine _ row db' _ b); [done|done|destruct name; exact Hs|].
    intros -> Hen. symmetry in Ebind. apply orb_true_iff in Ebind as [Hnone|Hholds].
    + apply elem_of_union_r. destruct before as [ex|]; [done|]. rewrite Hid. destruct name as [n|].
      * destruct (Hf n (checks_name _ _ _ Ec)) as [Hl Hn]. rewrite Hl, Hen in Eb. cbn [andb negb mbind option_bind] in Eb.
        apply Hnew; [by apply Hn|]. intros id Hi. by apply Hs, elem_of_union_r.
      * apply Hnew. intros id Hi. by apply Hs, elem_of_union_r.
    + apply elem_of_union_l. by eapply holds_mine.
Qed.

(** A transaction that is no clean-up. *)
Lemma op_inv db s mine o : (forall p id, o <> OpCleanup p id) -> world_inv db s mine -> world_inv (apply db o) s mine.
Proof. intros Ho H. by eapply world_inv_moves; [apply (op_moves _ (fun _ => True)); [apply H|done]| |]. Qed.

Lemma call_winv w t mine : winv w mine -> faithful w mine t -> winv (apply_call w t) (mine ∪ establishes w t).
Proof.
  intros Hw Hf. destruct t; [by apply register_winv|by apply create_winv|..].
  all: apply (world_inv_mono _ _ mine); [apply union_subseteq_l|]; cbn [apply_call].
  - unfold retire_tool. destruct (agent ← _; _) as [err|agent]; [done|].
    pose proof (op_inv _ _ _ (OpRetire (ar_id agent) (Some (default now (ar_retired_at agent)))) ltac:(done) Hw) as H. cbn [apply_agent_op] in H.
    destruct (set_agent_retired_at _ _ _) as [[err|row] db]; [done|]. by apply unbind_inv.
  - unfold unretire_tool. destruct (agent ← _; _) as [err|agent]; [done|].
    pose proof (op_inv _ _ _ (OpRetire (ar_id agent) None) ltac:(done) Hw) as H. cbn [apply_agent_op] in H.
    by destruct (set_agent_retired_at _ _ _) as [[err|row] db].
  - unfold deregister_tool. destruct (lifecycle_agent w c) as [err|agent]; [done|].
    pose proof (op_inv _ _ _ (OpDeregister (ar_id agent) now) ltac:(done) Hw) as H. cbn [apply_agent_op] in H.
    destruct (deregister_agent _ _ _ _) as [[err|row] db]; [done|]. by apply unbind_inv.
  - unfold sweep_tool. destruct (actor ← _; _) as [err|actor]; [done|].
    assert (world_inv (if touched then touch_write now (ar_id actor) (registry w) else registry w) (own w) mine) as Hw1
      by (destruct touched; [exact (op_inv _ _ _ (OpTouch now (ar_id actor)) ltac:(done) Hw)|exact Hw]).
    remember (if touched then _ else _) as db0 eqn:E0. clear E0.
    pose proof (fun x y z pr => op_inv _ _ _ (OpSweep (lc_project c) x y z pr) ltac:(done) Hw1) as H. cbn [apply_agent_op] in H.
    match goal with |- context[sweep_stale_agents ?a ?b ?d ?f ?g db0] =>
      specialize (H b d f g); destruct (sweep_stale_agents a b d f g db0) end. exact H.
  - destruct Hf as [Hs _]. eapply world_inv_moves; [exact (run_moves micros_to_iso [o] _ (wi_registry _ _ _ Hw))| |exact Hw].
    intros id Hid. by apply Hs, elem_of_union_l.
Qed.

Lemma lives_winv w mine : lives w mine -> winv w mine.
Proof.
  intros H. induction H as [db Hok|w mine t _ IH Hf].
  - split; [done|apply Nat.le_0_l|done].
  - by apply call_winv.
Qed.
End life.

(** C28: While the lookups of its registrations answer, nobody takes a free name
    between lookup and write, and no clean-up but that of the very registration
    that inserted it takes out a row of its, then whatever the calls of a session,
    of others, and their order: every identity it holds is a row of the registry
    with that id, project and spelling, under an id that the commit of a
    registration or creation of this very session inserted; and an agent it is
    taken for without a token - for which only the id is compared - is such a row.
    So naming an agent that exists, or drawing a name that is taken, never lends
    its identity. *)
Theorem session_acts_only_as_its_own iso enabled w mine :
  lives iso enabled w mine ->
  (forall b, In b (held (own w)) ->
     sb_agent b ∈ mine /\ exists a, get_agent_by_id (registry w) (sb_agent b) = Some a /\ stands_for b a) /\
  (forall sender r token require, In sender (agent_rows (registry w)) -> state_read (holds_reads r) = Some (own w) ->
     verify_sender enabled r sender token require = inr Session ->
     ar_id sender ∈ mine /\ exists b, In b (held (own w)) /\ stands_for b sender).
Proof.
  intros Hl. destruct (lives_winv iso enabled w mine Hl) as [Hok _ Hh]. split.
  - intros b Hb. destruct (Hh b Hb) as [Hm (a & Ha & Hs)]. split; [done|]. exists a. split; [|done].
    destruct Hs as [<- _]. by apply get_by_id_In.
  - intros sender r token require Hin Hread Hv. apply sender_proof_exact in Hv as [(_ & _ & Hv)|[[? _]|[? _]]]; [|done|done].
    unfold holds, capture in Hv. rewrite Hread in Hv. destruct (live_before (holds_reads r)); [|done]. cbn [negb] in Hv.
    destruct (live_after (holds_reads r)); [|done]. cbn [negb] in Hv. destruct enabled; [|done].
    apply andb_prop in Hv as [(b & Hb & Hi%Z.eqb_eq)%existsb_exists _]. cbn [identity_state default] in Hb.
    destruct (Hh b Hb) as [Hm (a & Ha & Hs)]. rewrite <- Hi. split; [done|]. exists b. split; [done|].
    assert (sender = a) as ->; [|done]. destruct Hs as [Hia _].
    pose proof (get_by_id_In _ _ Hok Ha) as G1. pose proof (get_by_id_In _ _ Hok Hin) as G2.
    rewrite Hia, Hi, G2 in G1. by injection G1 as ->.
Qed.

(** ** Where it stops *)

Definition quiet_env (fails : bool) : RegisterEnv :=
  mkRegisterEnv 50 fails [] true true (u "t9") true (fun _ => true) promptly witness_env (u "RedDog") (fun _ => u "RedDog") 0.
Definition call_as (n : ustr) : RegisterCall := mkRegister 7 (u "codex-cli") (u "gpt-5") (Some n) None None None.

(** The registry has BlueLake of another session; this one created RedDog. *)
Definition foreign_db : AgentDb :=
  history witness_iso [OpRegister 10 7 (u "BlueLake") witness_profile; OpToken 1 (u "t0")].
Definition session_world : World := apply_call witness_iso true (mkWorld foreign_db empty_session) (TCreate (call_as (u "RedDog")) (quiet_env false)).

Lemma quiet_spares fails id : call_spares (quiet_env fails) id.
Proof. split; [by intros p []|]. split; [by intros p []|]. intros n. split; by intros p []. Qed.

Lemma session_acts_only_as_its_own_witness :
  exists mine, lives witness_iso true session_world mine /\
    forall b, In b (held (own session_world)) -> sb_agent b ∈ mine.
Proof.
  assert (lives witness_iso true (mkWorld foreign_db empty_session) ∅) as H0 by (apply lives_start, history_ok).
  pose proof (lives_call witness_iso true _ _ (TCreate (call_as (u "RedDog")) (quiet_env false)) H0
                (conj (fun id _ => quiet_spares false id) I)) as H1.
  eexists. split; [exact H1|]. intros b Hb. exact (proj1 (proj1 (session_acts_only_as_its_own _ _ _ _ H1) b Hb)).
Defined.

(** A lookup that fails is taken for a free name: the session, refused when the
    lookup answers, is let through, rotates the token of the other session's
    agent and holds its identity from then on. *)
Lemma failed_lookup_lends_identity :
  let answered := register_tool witness_iso true false (call_as (u "bluelake")) (quiet_env false) session_world in
  let failed := register_tool witness_iso true false (call_as (u "bluelake")) (quiet_env true) session_world in
  (exists e, answered = (inl (RegisterRefused e), session_world)) /\
  (exists row, fst failed = inr row /\ ar_id row = 1 /\ ar_token <$> get_agent_by_id (registry (snd failed)) 1 = Some (Some (u "t9"))) /\
  In 1 (map sb_agent (held (own (snd failed)))).
Proof.
  cbv zeta. split; [|split].
  - eexists. vm_compute. reflexivity.
  - eexists. split; [vm_compute; reflexivity|]. split; vm_compute; reflexivity.
  - vm_compute. auto.
Qed.

(** After a recovery that gave the id of a held agent to another one of its
    project, sends as that one are verified by the session, which every other
    action as it refuses. *)
Lemma reused_id_verifies_sender :
  let s := session [SBind 10 1 (u "BlueLake") 5] in
  let reused := mkAgentRow 1 10 (u "RedStone") [] [] [] 0 0 [] [] 0 (Some (u "t1")) None in
  let r := mkReads true (Some s) true in
  verify_sender true (mkToolReads r true true r true) reused None true = inr Session /\
  authorize_actor true true r true reused false (u "read mail") = inl (BoundToOtherAgent [u "BlueLake"] (u "RedStone") (u "read mail")).
Proof. cbv zeta. split; vm_compute; reflexivity. Qed.
