(* ===== verification/SqlTable.v ===== *)
(** * Tables with a primary key

    A table is a finite map from its primary key.  [UPDATE .. WHERE],
    [DELETE .. WHERE], [INSERT .. ON CONFLICT DO NOTHING], [MAX] and
    [ORDER BY .. LIMIT] as functions of such maps, with the lemmas the components
    on [db/src/queries.rs] share. *)

From S2P Require Import Prelude.

Section tables.
  Context {K A : Type} `{Countable K}.

Definition update_where (p : K -> A -> bool) (f : A -> A) (t : gmap K A) : gmap K A :=
  map_imap (fun k a => Some (if p k a then f a else a)) t.

Definition delete_where (p : K -> A -> bool) (t : gmap K A) : gmap K A :=
  map_imap (fun k a => if p k a then None else Some a) t.

(** [INSERT .. ON CONFLICT DO NOTHING], with whether a row was inserted. *)
Definition insert_or_ignore (k : K) (a : A) (t : gmap K A) : bool * gmap K A :=
  match t !! k with Some _ => (false, t) | None => (true, <[k := a]> t) end.

Lemma lookup_update_where p f (t : gmap K A) k :
  update_where p f t !! k = (fun a => if p k a then f a else a) <$> t !! k.
Proof. unfold update_where. rewrite map_lookup_imap. by destruct (t !! k). Qed.

Lemma lookup_delete_where p (t : gmap K A) k :
  delete_where p t !! k = a ← t !! k; if p k a then None else Some a.
Proof. unfold delete_where. rewrite map_lookup_imap. by destruct (t !! k). Qed.

Lemma lookup_delete_where_Some p (t : gmap K A) k a :
  delete_where p t !! k = Some a <-> t !! k = Some a /\ p k a = false.
Proof.
  rewrite lookup_delete_where. destruct (t !! k) as [b|]; simpl; [|by split; [|intros []]].
  destruct (p k b) eqn:E; (split; [intros ?|intros [? ?]]); simplify_eq; congruence || done.
Qed.

Lemma delete_where_keep p (t : gmap K A) k :
  (forall a, t !! k = Some a -> p k a = false) -> delete_where p t !! k = t !! k.
Proof. intros Hp. rewrite lookup_delete_where. destruct (t !! k) as [a|] eqn:E; simpl; [by rewrite Hp|done]. Qed.

Lemma delete_where_nothing p (t : gmap K A) :
  (forall k a, t !! k = Some a -> p k a = false) -> delete_where p t = t.
Proof. intros Hp. apply map_eq. intros k. apply delete_where_keep. eauto. Qed.

(** [ORDER BY .. LIMIT]-free selection: the rows in some order. *)
Definition select_where (p : K -> A -> bool) (t : gmap K A) : list (K * A) :=
  List.filter (fun kv => p kv.1 kv.2) (map_to_list t).

Lemma elem_of_select_where p (t : gmap K A) k a :
  (k, a) ∈ select_where p t <-> t !! k = Some a /\ p k a = true.
Proof.
  unfold select_where. rewrite list_elem_of_In, filter_In, <- list_elem_of_In, elem_of_map_to_list. done.
Qed.

Lemma select_where_NoDup p (t : gmap K A) : NoDup (select_where p t).*1.
Proof.
  unfold select_where. pose proof (NoDup_fst_map_to_list t) as Hn. induction (map_to_list t) as [|[k a] l IH]; simpl; [done|].
  apply NoDup_cons in Hn as [Hk Hn]. destruct (p k a); simpl; [|by apply IH].
  apply NoDup_cons. split; [|by apply IH]. intros (y & -> & Hy)%list_elem_of_fmap. apply Hk.
  apply list_elem_of_fmap. exists y. split; [done|]. apply list_elem_of_In, filter_In in Hy as [? _].
  by apply list_elem_of_In.
Qed.
End tables.

(** Rows computed from rows keep their keys apart. *)
Lemma NoDup_omap_key {A B K} (f : A -> option B) (ka : A -> K) (kb : B -> K) (l : list A) :
  (forall a b, f a = Some b -> kb b = ka a) -> NoDup (ka <$> l) -> NoDup (kb <$> omap f l).
Proof.
  intros Hf. induction l as [|a l IH]; cbn; [done|]. intros [Ha Hn]%NoDup_cons.
  destruct (f a) as [b|] eqn:E; [|by apply IH]. cbn. apply NoDup_cons. split; [|by apply IH].
  rewrite (Hf a b E). intros (b' & Hb' & (a' & Ha' & Hfa)%list_elem_of_omap)%list_elem_of_fmap. apply Ha.
  rewrite Hb', (Hf a' b' Hfa). by apply list_elem_of_fmap_2.
Qed.

(** [MAX] over rows: no row, no value. *)
Fixpoint sql_max (l : list Z) : option Z :=
  match l with
  | [] => None
  | x :: l => Some (match sql_max l with Some y => Z.max x y | None => x end)
  end.

Fixpoint sql_min (l : list Z) : option Z :=
  match l with
  | [] => None
  | x :: l => Some (match sql_min l with Some y => Z.min x y | None => x end)
  end.

Lemma sql_max_None l : sql_max l = None <-> l = [].
Proof. by destruct l. Qed.

Lemma sql_max_ge l m x : sql_max l = Some m -> x ∈ l -> x <= m.
Proof.
  revert m. induction l as [|y l IH]; intros m; simpl; [done|]. intros [= <-] [->|Hx]%elem_of_cons.
  - destruct (sql_max l); lia.
  - destruct (sql_max l) as [z|] eqn:E; [specialize (IH z eq_refl Hx); lia|].
    apply sql_max_None in E as ->. by apply elem_of_nil in Hx.
Qed.

Lemma sql_max_elem l m : sql_max l = Some m -> m ∈ l.
Proof.
  revert m. induction l as [|y l IH]; intros m; simpl; [done|]. intros [= <-].
  destruct (sql_max l) as [z|]; [|by left]. destruct (Z.max_spec y z) as [[_ ->]|[_ ->]]; [right; by apply IH|by left].
Qed.

Lemma sql_max_default_ge l x : x ∈ l -> x <= default 0 (sql_max l).
Proof.
  intros Hx. destruct (sql_max l) as [m|] eqn:E; simpl; [by eapply sql_max_ge|].
  apply sql_max_None in E as ->. by apply elem_of_nil in Hx.
Qed.

#[export] Instance sql_max_Proper : Proper (Permutation ==> eq) sql_max.
Proof.
  intros l l' Hp. induction Hp as [|x l l' _ IH|x y l|l l1 l2 _ IH1 _ IH2]; simpl; [done|by rewrite IH| |congruence].
  destruct (sql_max l) as [z|]; f_equal; lia.
Qed.

Lemma sql_min_None l : sql_min l = None <-> l = [].
Proof. by destruct l. Qed.

Lemma sql_min_le l m x : sql_min l = Some m -> x ∈ l -> m <= x.
Proof.
  revert m. induction l as [|y l IH]; intros m; simpl; [done|]. intros [= <-] [->|Hx]%elem_of_cons.
  - destruct (sql_min l); lia.
  - destruct (sql_min l) as [z|] eqn:E; [specialize (IH z eq_refl Hx); lia|].
    apply sql_min_None in E as ->. by apply elem_of_nil in Hx.
Qed.

Lemma sql_min_elem l m : sql_min l = Some m -> m ∈ l.
Proof.
  revert m. induction l as [|y l IH]; intros m; simpl; [done|]. intros [= <-].
  destruct (sql_min l) as [z|]; [|by left]. destruct (Z.min_spec y z) as [[_ ->]|[_ ->]]; [by left|right; by apply IH].
Qed.

(** [COUNT] of the rows that satisfy a condition. *)
Definition count_where {A} (p : A -> bool) (l : list A) : Z := Z.of_nat (length (List.filter p l)).

#[export] Instance count_where_Proper {A} (p : A -> bool) : Proper (Permutation ==> eq) (count_where p).
Proof. intros l l' Hp. unfold count_where. by rewrite (bfilter_Permutation p l l' Hp). Qed.

Lemma count_where_cons {A} (p : A -> bool) x l : count_where p (x :: l) = (if p x then 1 else 0) + count_where p l.
Proof. unfold count_where. simpl. destruct (p x); simpl; lia. Qed.

(** ** The first rows of an order

    [ORDER BY .. LIMIT n]: the [n] first rows, for an order that tells the rows
    at hand apart. *)
Section top.
  Context {A : Type} (R : relation A) `{!RelDecision R, !Transitive R, !Total R}.

Definition top (n : nat) (l : list A) : list A := take n (merge_sort R l).

(** Rows the order does not confuse. *)
Definition told_apart (l : list A) : Prop := forall x y, x ∈ l -> y ∈ l -> R x y -> R y x -> x = y.

Lemma told_apart_sub l l' : (forall x, x ∈ l -> x ∈ l') -> told_apart l' -> told_apart l.
Proof. intros Hs H x y Hx Hy. apply H; by apply Hs. Qed.

Lemma sort_unique l s : told_apart l -> s ≡ₚ l -> StronglySorted R s -> merge_sort R l = s.
Proof.
  intros Ht Hp Hs. apply (StronglySorted_unique_strong R); [|by apply StronglySorted_merge_sort; apply _|done|].
  - intros x y Hx Hy. apply Ht; [by rewrite <- (merge_sort_Permutation R)|by rewrite <- Hp].
  - by rewrite merge_sort_Permutation, Hp.
Qed.

Lemma sorted_split (x : list A) y z :
  StronglySorted R (x ++ y :: z) -> Forall (fun w => R y w) z /\ Forall (fun w => R w y) x.
Proof.
  intros H. split.
  - induction x as [|w x IH]; cbn in H; apply StronglySorted_inv in H as [H1 H2]; [done|by apply IH].
  - induction x as [|w x IH]; [constructor|]. cbn in H. apply StronglySorted_inv in H as [H1 H2].
    constructor; [|by apply IH]. rewrite Forall_forall in H2. apply H2, elem_of_app. right. by left.
Qed.

Lemma sorted_app (l1 l2 : list A) :
  StronglySorted R l1 -> StronglySorted R l2 -> (forall x y, x ∈ l1 -> y ∈ l2 -> R x y) -> StronglySorted R (l1 ++ l2).
Proof.
  intros H1 H2 Hx. induction H1 as [|a l1 H1 IH Ha]; [done|]. cbn. constructor.
  - apply IH. intros x y Hx' Hy. apply Hx; [by right|done].
  - apply Forall_app. split; [done|]. apply Forall_forall. intros y Hy. apply Hx; [by left|done].
Qed.

Lemma sorted_take_drop n (l : list A) : StronglySorted R l ->
  StronglySorted R (take n l) /\ StronglySorted R (drop n l) /\ (forall x y, x ∈ take n l -> y ∈ drop n l -> R x y).
Proof.
  revert n. induction l as [|a l IH]; intros n Hs; [by rewrite take_nil, drop_nil; split_and!; [constructor..|by intros x y ?%elem_of_nil]|].
  apply StronglySorted_inv in Hs as Hs'. destruct Hs' as [Hl Ha]. rewrite Forall_forall in Ha. destruct n as [|n].
  - cbn. split_and!; [constructor|done|by intros x y ?%elem_of_nil].
  - cbn. destruct (IH n Hl) as (H1 & H2 & H3). split_and!; [|done|].
    + constructor; [done|]. apply Forall_forall. intros x Hx. apply Ha. by apply (subseteq_take n).
    + intros x y [->|Hx]%elem_of_cons Hy; [apply Ha; rewrite <- (take_drop n l); apply elem_of_app; by right|by apply H3].
Qed.

(** What lies behind [n] others of the list cannot enter its first [n] rows. *)
Lemma first_below n (l1 a : list A) x :
  (exists b, l1 ≡ₚ a ++ b) -> length a = n -> (forall y, y ∈ a -> R y x) -> forall y, y ∈ top n l1 -> R y x.
Proof.
  intros [b Hb] Hn Ha y Hy. destruct (decide (R y x)) as [|Hyx]; [done|]. exfalso.
  unfold top in Hy. set (s := merge_sort R l1) in *.
  assert (StronglySorted R s) as Hs by (apply StronglySorted_merge_sort; apply _).
  apply list_elem_of_lookup in Hy as [i Hi]. apply lookup_take_Some in Hi as [Hi Hin].
  apply list_elem_of_split_length in Hi as (x1 & x2 & Hsplit & Hlen).
  set (p := fun w => bool_decide (~ R y w)).
  assert (length (List.filter p s) <= i)%nat as Hle.
  { rewrite Hsplit, List.filter_app. rewrite Hsplit in Hs. apply sorted_split in Hs as [Hz _].
    rewrite (bfilter_all_false p (y :: x2)).
    - rewrite app_nil_r. etransitivity; [apply List.filter_length_le|lia].
    - intros w [<-|Hw]; unfold p; apply bool_decide_eq_false_2; intros Hn'; apply Hn'.
      + destruct (total R y y); done.
      + rewrite Forall_forall in Hz. by apply Hz, list_elem_of_In. }
  assert (n <= length (List.filter p s))%nat as Hge.
  { assert (s ≡ₚ a ++ b) as Hp by (unfold s; by rewrite merge_sort_Permutation).
    rewrite (bfilter_Permutation p _ _ Hp), List.filter_app, length_app.
    rewrite (bfilter_all_true p a); [lia|]. intros w Hw. unfold p. apply bool_decide_eq_true_2. intros Hyw.
    apply Hyx. transitivity w; [done|]. by apply Ha, list_elem_of_In. }
  lia.
Qed.

Lemma sort_perm l l' : told_apart l -> l ≡ₚ l' -> merge_sort R l = merge_sort R l'.
Proof.
  intros Ht Hp. apply sort_unique; [done| |apply StronglySorted_merge_sort; apply _].
  by rewrite merge_sort_Permutation, Hp.
Qed.

Lemma top_perm n l l' : told_apart l -> l ≡ₚ l' -> top n l = top n l'.
Proof. intros Ht Hp. unfold top. by rewrite (sort_perm l l'). Qed.

Lemma top_sub n l x : x ∈ top n l -> x ∈ l.
Proof. intros Hx. rewrite <- (merge_sort_Permutation R l). by apply (subseteq_take n). Qed.

(** The first rows of two lists together need only the first rows of one. *)
Lemma top_app_l n a b : told_apart (a ++ b) -> top n (top n a ++ b) = top n (a ++ b).
Proof.
  intros Ht. set (s := merge_sort R a).
  assert (StronglySorted R s) as Hs by (apply StronglySorted_merge_sort; apply _).
  assert (a ≡ₚ take n s ++ drop n s) as Ha by (rewrite take_drop; unfold s; by rewrite merge_sort_Permutation).
  unfold top at 2. fold s. destruct (decide (length s <= n)%nat) as [Hle|Hlt].
  { rewrite (take_ge s n) by done. symmetry. apply top_perm; [done|]. unfold s. by rewrite merge_sort_Permutation. }
  assert (length (take n s) = n) as Hn by (rewrite length_take; lia).
  set (l1 := take n s ++ b). set (s1 := merge_sort R l1).
  assert (StronglySorted R s1) as Hs1 by (apply StronglySorted_merge_sort; apply _).
  destruct (sorted_take_drop n s1 Hs1) as (T1 & T2 & T3).
  destruct (sorted_take_drop n s Hs) as (_ & _ & T4).
  assert (merge_sort R (a ++ b) = take n s1 ++ merge_sort R (drop n s1 ++ drop n s)) as Heq.
  { apply sort_unique; [done| |].
    - rewrite merge_sort_Permutation, app_assoc, take_drop. unfold s1. rewrite merge_sort_Permutation. unfold l1.
      rewrite Ha, <- !app_assoc. f_equiv. apply Permutation_app_comm.
    - apply sorted_app; [done|apply StronglySorted_merge_sort; apply _|]. intros x y Hx Hy.
      rewrite merge_sort_Permutation in Hy. apply elem_of_app in Hy as [Hy|Hy]; [by apply T3|].
      apply (first_below n l1 (take n s)); [by exists b|done| |done]. intros z Hz. by apply T4. }
  unfold top. rewrite Heq. fold s1. rewrite take_app_le.
  - by rewrite take_take, Nat.min_id.
  - rewrite length_take. unfold s1. rewrite merge_sort_Permutation. unfold l1. rewrite length_app. lia.
Qed.

Lemma top_app_r n a b : told_apart (a ++ b) -> top n (a ++ top n b) = top n (a ++ b).
Proof.
  intros Ht. rewrite (top_perm n (a ++ b) (b ++ a)); [|done|apply Permutation_app_comm].
  rewrite <- (top_app_l n b a).
  - apply top_perm; [|apply Permutation_app_comm]. eapply told_apart_sub, Ht. intros x. rewrite !elem_of_app.
    intros [?|Hx]; [by left|right]. by eapply top_sub.
  - eapply told_apart_sub, Ht. intros x. rewrite !elem_of_app. tauto.
Qed.

Lemma top_app n a b : told_apart (a ++ b) -> top n (top n a ++ top n b) = top n (a ++ b).
Proof.
  intros Ht. rewrite top_app_l; [by apply top_app_r|]. eapply told_apart_sub, Ht. intros x. rewrite !elem_of_app.
  intros [?|Hx]; [by left|right]. by eapply top_sub.
Qed.

Lemma take_sorted_top n l : told_apart l -> StronglySorted R l -> take n l = top n l.
Proof. intros Ht Hs. unfold top. by rewrite (sort_unique l l). Qed.

Lemma length_top n l : length (top n l) = Nat.min n (length l).
Proof. unfold top. by rewrite length_take, merge_sort_Permutation. Qed.

Lemma take_top n m l : (n <= m)%nat -> take n (top m l) = top n l.
Proof. intros Hnm. unfold top. rewrite take_take. by rewrite Nat.min_l. Qed.
End top.
