(* ===== verification/Messages.v ===== *)
(** * The message store ([db/src/queries.rs], [db/src/project_mailbox.rs], [db/src/schema.rs])

    The tables [messages], [message_recipients], [inbox_stats],
    [project_mailbox_deliveries], [project_mailbox_receipts] and
    [inbox_delivery_events], and the transactions that send, read and acknowledge.
    A transaction maps the tables it finds to those it commits; an error leaves
    them as they were.  Foreign keys are off in the source's connections; the
    triggers that are in the schema fire.  Parameters: the registry of agents and
    the slugs of projects. *)

From S2P Require Import Prelude.
From S2P Require Import SqlTable.
From S2P Require Import RustStr.
From S2P Require Import AgentNames.
From S2P Require Import Routing.
From S2P Require Import Idempotency.
From S2P Require Import Leases.
From S2P Require Import AgentRegistry.

(** ** The tables *)

(** @src db/src/queries.rs:9655-9659 create_message_with_recipients_tx
    -- [recipients_json], before it is serialised. *)
Record Envelope := mkEnvelope { env_to : list ustr; env_cc : list ustr; env_bcc : list ustr }.

(** @src db/src/schema.rs:75-90 messages
    -- the lineage column holds the reply parent. *)
Record MessageRow := mkMessage {
  mg_id : Z; mg_project : Z; mg_sender : Z; mg_thread : option ustr; mg_topic : option ustr; mg_reply_to : option Z;
  mg_subject : ustr; mg_body : ustr; mg_importance : ustr; mg_ack_required : Z; mg_created : Z;
  mg_recipients : Envelope; mg_attachments : ustr;
}.

(** @src db/src/schema.rs:103-110 message_recipients
    -- the key is the message and the agent. *)
Record RecipientRow := mkRecipient { rc_kind : ustr; rc_read : option Z; rc_ack : option Z }.

(** @src db/src/schema.rs:1120-1126 inbox_stats *)
Record InboxStats := mkStats { total_count : Z; unread_count : Z; ack_pending_count : Z; last_message_ts : option Z }.

(** @src db/src/schema.rs:122-127 project_mailbox_deliveries *)
Record SharedDelivery := mkShared { sd_project : Z; sd_kind : ustr; sd_delivered : Z }.

(** @src db/src/schema.rs:134-140 project_mailbox_receipts *)
Record Receipt := mkReceipt { pr_read : option Z; pr_ack : option Z }.

(** @src db/src/schema.rs:654-664 PROJECT_EVENT_SCOPE_STATEMENTS
    -- no agent: an event of the project's mailbox. *)
Record DeliveryEvent := mkEvent {
  ev_seq : Z; ev_project : Z; ev_agent : option Z; ev_message : Z; ev_kind : ustr; ev_delivered : Z;
}.

(** The tables, the sequences of [messages] (no row until the first election) and
    [inbox_delivery_events], and whether the trigger [trg_inbox_stats_insert] of
    older schemas is there. *)
Record MessageDb := mkMessageDb {
  messages : gmap Z MessageRow; recipients : gmap (Z * Z) RecipientRow; inbox_stats : gmap Z InboxStats;
  shared : gmap Z SharedDelivery; receipts : gmap (Z * Z) Receipt;
  events : list DeliveryEvent; event_seq : Z; message_seq : option Z; insert_trigger : bool;
}.
Definition empty_mail : MessageDb := mkMessageDb ∅ ∅ ∅ ∅ ∅ [] 0 None false.

Definition set_messages t db := mkMessageDb t (recipients db) (inbox_stats db) (shared db) (receipts db) (events db) (event_seq db) (message_seq db) (insert_trigger db).
Definition set_recipients t db := mkMessageDb (messages db) t (inbox_stats db) (shared db) (receipts db) (events db) (event_seq db) (message_seq db) (insert_trigger db).
Definition set_stats t db := mkMessageDb (messages db) (recipients db) t (shared db) (receipts db) (events db) (event_seq db) (message_seq db) (insert_trigger db).
Definition set_shared t db := mkMessageDb (messages db) (recipients db) (inbox_stats db) t (receipts db) (events db) (event_seq db) (message_seq db) (insert_trigger db).
Definition set_receipts t db := mkMessageDb (messages db) (recipients db) (inbox_stats db) (shared db) t (events db) (event_seq db) (message_seq db) (insert_trigger db).
Definition set_events t seq db := mkMessageDb (messages db) (recipients db) (inbox_stats db) (shared db) (receipts db) t seq (message_seq db) (insert_trigger db).
Definition set_message_seq s db := mkMessageDb (messages db) (recipients db) (inbox_stats db) (shared db) (receipts db) (events db) (event_seq db) s (insert_trigger db).
Definition set_trigger b db := mkMessageDb (messages db) (recipients db) (inbox_stats db) (shared db) (receipts db) (events db) (event_seq db) (message_seq db) b.

Inductive MessageError :=
  | BadMailboxKind
  | BadReply
  | SelfReply
  | Participants (e : LeaseError)
  | ProjectNotFound
  | IdsExhausted
  | IdTaken
  | AllocatorRetired
  | RecipientNotFound
  | MessageNotFound
  | ReceiptNotStored
  | GhostMessage
  | GhostRecipients.

(** ** Inbox counts *)

(** @src db/src/queries.rs:14579-14581 compute_agent_inbox_stats_in_tx
    -- The messages an agent received: [message_recipients] joined with [messages]. *)
Definition received (db : MessageDb) (agent : Z) : gmap Z (MessageRow * RecipientRow) :=
  map_imap (fun id m => pair m <$> recipients db !! (id, agent)) (messages db).

(** @src db/src/queries.rs:14575-14575 compute_agent_inbox_stats_in_tx *)
Definition unread (mr : MessageRow * RecipientRow) : bool := bool_decide (rc_read mr.2 = None).
(** @src db/src/queries.rs:14576-14577 compute_agent_inbox_stats_in_tx *)
Definition ack_pending (mr : MessageRow * RecipientRow) : bool :=
  bool_decide (rc_ack mr.2 = None) && (mg_ack_required mr.1 =? 1).

(** @src db/src/queries.rs:14573-14603 compute_agent_inbox_stats_in_tx
    -- the aggregates over the joined rows. *)
Definition aggregate (rows : list (MessageRow * RecipientRow)) : option InboxStats :=
  match rows with
  | [] => None
  | _ => Some (mkStats (Z.of_nat (length rows)) (count_where unread rows) (count_where ack_pending rows)
                 (sql_max (map (fun mr => mg_created mr.1) rows)))
  end.

(** @src db/src/queries.rs:14560-14604 compute_agent_inbox_stats_in_tx *)
Definition compute_agent_inbox_stats (db : MessageDb) (agent : Z) : option InboxStats :=
  aggregate (map_to_list (received db agent)).*2.

(** @src db/src/queries.rs:1098-1098 MAX_IN_CLAUSE_ITEMS *)
Definition MAX_IN_CLAUSE_ITEMS : nat := 500.

Definition in_ids (ids : list Z) (id : Z) : bool := existsb (Z.eqb id) ids.

(** @src db/src/queries.rs:14524-14545 rebuild_agents_inbox_stats_in_tx
    -- an agent that received nothing gets no row. *)
Definition recount_agents (db : MessageDb) (stats : gmap Z InboxStats) (agents : list Z) : gmap Z InboxStats :=
  foldl (fun stats agent => match compute_agent_inbox_stats db agent with
                            | Some s => <[agent := s]> stats
                            | None => stats
                            end) stats agents.

(** @src db/src/queries.rs:14511-14546 rebuild_agents_inbox_stats_in_tx
    -- one chunk: its rows are deleted, then computed anew. *)
Definition rebuild_chunk (db : MessageDb) (stats : gmap Z InboxStats) (chunk : list Z) : gmap Z InboxStats :=
  recount_agents db (delete_where (fun agent _ => in_ids chunk agent) stats) chunk.

(** @src db/src/queries.rs:14496-14550 rebuild_agents_inbox_stats_in_tx *)
Definition rebuild_agents_inbox_stats (agent_ids : list Z) (db : MessageDb) : MessageDb :=
  set_stats (foldl (rebuild_chunk db) (inbox_stats db)
               (chunks MAX_IN_CLAUSE_ITEMS (remove_dups (merge_sort Z.le agent_ids)))) db.

(** @src db/src/queries.rs:14634-14698 rebuild_all_inbox_stats
    -- [GROUP BY mr.agent_id]: a row for each agent that received something. *)
Definition rebuild_all_inbox_stats (db : MessageDb) : MessageDb :=
  let agents := remove_dups (map (fun kr => kr.1.2) (map_to_list (recipients db))) in
  set_stats (recount_agents db ∅ agents) db.

(** @src db/src/queries.rs:14394-14399 ADD_NEW_MESSAGE_TO_INBOX_STATS_SQL *)
Definition add_new_message (ack_required created_ts : Z) (s : InboxStats) : InboxStats :=
  mkStats (total_count s + 1) (unread_count s + 1) (ack_pending_count s + ack_required)
    (Some (Z.max (default 0 (last_message_ts s)) created_ts)).

(** @src db/src/queries.rs:14453-14492 add_new_message_to_inbox_stats_in_tx
    -- one delivered agent: counted in its row, or left for a recount. *)
Definition count_delivery (ack_required created_ts : Z) (acc : list Z * gmap Z InboxStats) (agent : Z) :
    list Z * gmap Z InboxStats :=
  let '(recount, stats) := acc in
  match stats !! agent with
  | None => (recount ++ [agent], stats)
  | Some s => (recount, <[agent := add_new_message ack_required created_ts s]> stats)
  end.

(** @src db/src/queries.rs:14401-14494 add_new_message_to_inbox_stats_in_tx *)
Definition add_new_message_to_inbox_stats (delivered recount : list Z) (ack_required : bool) (created_ts : Z)
    (db : MessageDb) : MessageDb :=
  match delivered with
  | [] => rebuild_agents_inbox_stats recount db
  | _ =>
      if insert_trigger db then rebuild_agents_inbox_stats (recount ++ delivered) db
      else
        let '(recount, stats) := foldl (count_delivery (bool_int ack_required) created_ts) (recount, inbox_stats db) delivered in
        rebuild_agents_inbox_stats recount (set_stats stats db)
  end.

(** ** Triggers *)

(** @src db/src/schema.rs:612-631 TRG_INBOX_STATS_INSERT_COMPAT_SQL *)
Definition trg_inbox_stats_insert (agent id : Z) (db : MessageDb) : MessageDb :=
  let created := mg_created <$> messages db !! id in
  let ack := from_option mg_ack_required 0 (messages db !! id) in
  let '(_, stats) := insert_or_ignore agent (mkStats 0 0 0 created) (inbox_stats db) in
  set_stats (alter (add_new_message ack (default 0 created)) agent stats) db.

Definition next_event (project : Z) (agent : option Z) (id : Z) (kind : ustr) (ts : Z) (db : MessageDb) : MessageDb :=
  set_events (events db ++ [mkEvent (event_seq db + 1) project agent id kind ts]) (event_seq db + 1) db.

(** @src db/src/schema.rs:662-663 inbox_delivery_events_v33
    -- the [CHECK] of the table on a row. *)
Definition event_check (agent : option Z) (kind : ustr) : bool :=
  match agent with None => ustr_eqb kind (u "project") | Some _ => negb (ustr_eqb kind (u "project")) end.

(** @src db/src/schema.rs:637-645 TRG_INBOX_DELIVERY_EVENTS_RECIPIENT_INSERT_SQL
    -- [OR IGNORE] skips a row that breaks [UNIQUE] or [CHECK]. *)
Definition trg_inbox_delivery_events (agent id : Z) (kind : ustr) (db : MessageDb) : MessageDb :=
  match messages db !! id with
  | Some m =>
      if negb (event_check (Some agent) kind) ||
         existsb (fun e => bool_decide (ev_agent e = Some agent) && (ev_message e =? id)) (events db) then db
      else next_event (mg_project m) (Some agent) id kind (mg_created m) db
  | None => db
  end.

(** @src db/src/queries.rs:9462-9464 INSERT_MESSAGE_RECIPIENT_SQL
    -- with the triggers that fire. *)
Definition insert_recipient (id agent : Z) (kind : ustr) (db : MessageDb) : bool * MessageDb :=
  let '(inserted, t) := insert_or_ignore (id, agent) (mkRecipient kind None None) (recipients db) in
  if inserted then
    let db := set_recipients t db in
    let db := if insert_trigger db then trg_inbox_stats_insert agent id db else db in
    (true, trg_inbox_delivery_events agent id kind db)
  else (false, db).

(** @src db/src/project_mailbox.rs:61-62 INSERT_PROJECT_MAILBOX_EVENT_SQL
    -- one event per project and message. *)
Definition insert_project_event (project id ts : Z) (db : MessageDb) : MessageDb :=
  if existsb (fun e => bool_decide (ev_agent e = None) && (ev_project e =? project) && (ev_message e =? id)) (events db)
  then db
  else next_event project None id (u "project") ts db.

(** ** Sending *)

(** What a send stores; the recipients with their slots, and the slot in which
    the project's mailbox was addressed. *)
Record NewMessage := mkNewMessage {
  nm_project : Z; nm_sender : Z; nm_subject : ustr; nm_body : ustr; nm_thread : option ustr; nm_topic : option ustr;
  nm_reply_to : option Z; nm_importance : ustr; nm_ack : bool; nm_attachments : ustr;
  nm_recipients : list (Z * ustr); nm_mailbox : option ustr;
}.

Definition max_message_id (db : MessageDb) : Z := default 0 (sql_max (map_to_list (messages db)).*1).

(** @src db/src/queries.rs:8640-8745 elect_message_id_in_tx
    -- [None]: the range of ids is exhausted. *)
Definition elect_message_id (archive_seed : Z) (db : MessageDb) : option (Z * MessageDb) :=
  let max_id := max_message_id db in
  let seed_floor := Z.max (Z.max max_id archive_seed) 0 in
  let durable_seq := default seed_floor (message_seq db) in
  let elected := Z.max (Z.max (Z.max durable_seq max_id) archive_seed) 0 + 1 in
  if i64_max <? elected then None else Some (elected, set_message_seq (Some elected) db).

(** @src db/src/queries.rs:9367-9385 ensure_message_participants_active_in_tx
    -- the sender, then each recipient once. *)
Definition participant_ids (sender : Z) (rs : list (Z * ustr)) : list Z :=
  foldl (fun ids r => if in_ids ids r.1 then ids else ids ++ [r.1]) [sender] rs.

(** @src db/src/queries.rs:9066-9085 create_message_with_recipients_impl
    -- the first occurrence of an agent wins. *)
Fixpoint dedup_recipients (seen : list Z) (rs : list (Z * ustr)) : list (Z * ustr) :=
  match rs with
  | [] => []
  | r :: rs => if in_ids seen r.1 then dedup_recipients seen rs else r :: dedup_recipients (r.1 :: seen) rs
  end.

(** @src db/src/queries.rs:9039-9054 create_message_with_recipients_impl *)
Definition check_new_message (q : NewMessage) : MessageError + unit :=
  if match nm_mailbox q with
     | Some kind => negb (ustr_eqb kind (u "to") || ustr_eqb kind (u "cc"))
     | None => false
     end then inl BadMailboxKind
  else if match nm_reply_to q with
          | Some parent => (parent <=? 0) || from_option is_empty true (nm_thread q)
          | None => false
          end then inl BadReply
  else mret tt.

Section send.
  Context (adb : AgentDb) (slug_of : Z -> option ustr).

(** @src db/src/queries.rs:9605-9613 create_message_with_recipients_tx *)
Definition slot (p : ustr -> bool) (rs : list (Z * ustr)) : list ustr :=
  omap (fun r => if p r.2 then ar_name <$> get_agent_by_id adb r.1 else None) rs.

(** @src db/src/queries.rs:9582-9661 create_message_with_recipients_tx
    -- the names by slot, and the mailbox in the slot it was addressed in. *)
Definition build_envelope (q : NewMessage) : MessageError + Envelope :=
  let rs := nm_recipients q in
  let named k s := ustr_eqb s (u k) in
  let e := mkEnvelope (slot (fun s => negb (named "cc"%string s) && negb (named "bcc"%string s)) rs)
             (slot (named "cc"%string) rs) (slot (named "bcc"%string) rs) in
  match nm_mailbox q with
  | None => inr e
  | Some kind =>
      match slug_of (nm_project q) with
      | None => inl ProjectNotFound
      | Some slug =>
          let address := project_mailbox_address slug in
          inr (if named "cc"%string kind then mkEnvelope (env_to e) (env_cc e ++ [address]) (env_bcc e)
               else mkEnvelope (env_to e ++ [address]) (env_cc e) (env_bcc e))
      end
  end.

(** @src db/src/queries.rs:9702-9716 create_message_with_recipients_tx
    -- the row, as inserted and as returned. *)
Definition new_row (q : NewMessage) (id now : Z) (e : Envelope) : MessageRow :=
  mkMessage id (nm_project q) (nm_sender q) (nm_thread q) (nm_topic q) (nm_reply_to q) (nm_subject q) (nm_body q)
    (nm_importance q) (bool_int (nm_ack q)) now e (nm_attachments q).

(** @src db/src/queries.rs:9729-9776 create_message_with_recipients_tx
    -- the rows inserted, and those that were there. *)
Definition insert_recipients (id : Z) (rs : list (Z * ustr)) (db : MessageDb) : list Z * list Z * MessageDb :=
  foldl (fun '(delivered, recount, db) r =>
           let '(inserted, db) := insert_recipient id r.1 r.2 db in
           if inserted then (delivered ++ [r.1], recount, db) else (delivered, recount ++ [r.1], db))
    ([], [], db) rs.

(** @src db/src/queries.rs:9778-9815 create_message_with_recipients_tx *)
Definition deliver_shared (q : NewMessage) (id now : Z) (db : MessageDb) : MessageDb :=
  match nm_mailbox q with
  | None => db
  | Some kind =>
      insert_project_event (nm_project q) id now
        (set_shared (<[id := mkShared (nm_project q) kind now]> (shared db)) db)
  end.

(** @src db/src/queries.rs:9539-9828 create_message_with_recipients_tx
    -- what lies between the check of the key and its record; [live]: the
    allocator is not retired after the election. *)
Definition create_message_tx (live : bool) (archive_seed : Z) (q : NewMessage) (now : Z) (db : MessageDb) :
    MessageError + (MessageRow * MessageDb) :=
  match ensure_agents_active (agent_states adb) (participant_ids (nm_sender q) (nm_recipients q)) None with
  | inl e => inl (Participants e)
  | inr _ =>
      match elect_message_id archive_seed db with
      | None => inl IdsExhausted
      | Some (id, db) =>
          if negb live then inl AllocatorRetired
          else if bool_decide (nm_reply_to q = Some id) then inl SelfReply
          else
            e ← build_envelope q;
            match messages db !! id with
            | Some _ => inl IdTaken
            | None =>
                let row := new_row q id now e in
                let db := set_messages (<[id := row]> (messages db)) db in
                let '(delivered, recount, db) := insert_recipients id (nm_recipients q) db in
                let db := deliver_shared q id now db in
                inr (row, add_new_message_to_inbox_stats delivered recount (nm_ack q) now db)
            end
      end
  end.

(** *** After the commit *)

(** @src db/src/queries.rs:4044-4132 cleanup_committed_message_after_consistency_failure
    -- with the triggers of the schema: deleting a message deletes its recipients,
    its shared delivery and receipts, and the project's event. *)
Definition cleanup_message (project_id id : Z) (recipient_ids : list Z) (db : MessageDb) : MessageDb :=
  let stored := map (fun kr => kr.1.2) (select_where (fun k _ => k.1 =? id) (recipients db)) in
  let affected := remove_dups (recipient_ids ++ stored) in
  let db := set_recipients (delete_where (fun k _ => k.1 =? id) (recipients db)) db in
  let db :=
    match messages db !! id with
    | Some m =>
        if mg_project m =? project_id then
          set_events (List.filter (fun e => negb ((ev_message e =? id) && bool_decide (ev_agent e = None))) (events db)) (event_seq db)
            (set_shared (delete id (shared db))
              (set_receipts (delete_where (fun k _ => k.1 =? id) (receipts db))
                (set_messages (delete id (messages db)) db)))
        else db
    | None => db
    end in
  rebuild_agents_inbox_stats affected db.

(** What a probe from a fresh handle can report. *)
Inductive ProbeVerdict := ProbeSeen | ProbeNoMessage | ProbeNoRecipients | ProbeFailed.

(** @src db/src/queries.rs:2387-2445 verify_message_recipients_visible_with_probe_mode
    -- the verdict of a probe that ran and saw these rows. *)
Definition probe_verdict (project_id id : Z) (expected : list (Z * ustr)) (seen : MessageDb) : ProbeVerdict :=
  if match messages seen !! id with Some m => mg_project m =? project_id | None => false end then
    let actual := list_to_set (map (fun kr => (kr.1.2, rc_kind kr.2)) (select_where (fun k _ => k.1 =? id) (recipients seen))) in
    if bool_decide (actual =@{gset (Z * ustr)} list_to_set expected) then ProbeSeen else ProbeNoRecipients
  else ProbeNoMessage.

(** @src db/src/queries.rs:2269-2273 WriterPostCommitCounts *)
Record WriterPostCommitCounts := mkCounts { message_count : option Z; recipient_count : option Z }.

(** @src db/src/queries.rs:2357-2368 writer_sample_refutes_probe_verdict *)
Definition writer_sample_refutes (verdict : ProbeVerdict) (c : WriterPostCommitCounts) (expected : Z) : bool :=
  let message_confirmed := bool_decide (message_count c = Some 1) in
  match verdict with
  | ProbeNoRecipients => message_confirmed && bool_decide (recipient_count c = Some expected)
  | _ => message_confirmed
  end.

(** @src db/src/queries.rs:3801-3830 is_hard_post_commit_probe_error, post_commit_probe_requires_cleanup *)
Definition post_commit_probe_requires_cleanup (verdict : ProbeVerdict) (writer_confirms_durable : bool) : bool :=
  match verdict with
  | ProbeNoMessage | ProbeNoRecipients => negb writer_confirms_durable
  | ProbeSeen | ProbeFailed => false
  end.

(** @src db/src/queries.rs:9223-9352 create_message_with_recipients_impl
    -- the sample of the writer and the probe decide whether a committed send
    stands; a probe that could not run is advisory. *)
Definition finish_send (q : NewMessage) (row : MessageRow) (verdict : ProbeVerdict) (c : WriterPostCommitCounts)
    (db : MessageDb) : (MessageError + MessageRow) * MessageDb :=
  let expected := Z.of_nat (length (remove_dups (nm_recipients q))) in
  if post_commit_probe_requires_cleanup verdict (writer_sample_refutes verdict c expected) then
    (inl (match verdict with ProbeNoRecipients => GhostRecipients | _ => GhostMessage end),
     cleanup_message (nm_project q) (mg_id row) (nm_recipients q).*1 db)
  else (inr row, db).
End send.

(** ** Threads *)

(** @src db/src/sync.rs:265-273 update_message_thread_id *)
Definition rethread (thread : option ustr) (m : MessageRow) : MessageRow :=
  mkMessage (mg_id m) (mg_project m) (mg_sender m) thread (mg_topic m) (mg_reply_to m) (mg_subject m) (mg_body m)
    (mg_importance m) (mg_ack_required m) (mg_created m) (mg_recipients m) (mg_attachments m).

(** @src db/src/sync.rs:235-277 update_message_thread_id
    -- whether the thread was changed. *)
Definition update_message_thread_id (id : Z) (target : ustr) (db : MessageDb) : MessageError + (bool * MessageDb) :=
  let target := trim target in
  if is_empty target then inr (false, db)
  else
    match messages db !! id with
    | None => inl MessageNotFound
    | Some m =>
        if bool_decide (mg_thread m = Some target) then inr (false, db)
        else inr (true, set_messages (alter (rethread (Some target)) id (messages db)) db)
    end.

(** ** Shared visibility *)

(** @src db/src/project_mailbox.rs:69-81 visible_to_viewer_sql *)
Definition visible_to_viewer (db : MessageDb) (id : Z) (d : SharedDelivery) (m : MessageRow) (viewer : AgentRow) : bool :=
  (sd_project d =? ar_project viewer) && (mg_project m =? sd_project d) && negb (mg_sender m =? ar_id viewer) &&
  bool_decide (ar_retired_at viewer = None) && (ar_inception viewer <=? mg_created m) &&
  negb (ustr_eqb (to_ascii_lowercase (ar_contact viewer)) (u "block_all")) &&
  bool_decide (recipients db !! (id, ar_id viewer) = None).

Section receipts.
  Context (adb : AgentDb).

(** @src db/src/project_mailbox.rs:791-803 visible_receipt_query
    -- a project delivery the agent can see: its message, with the agent's
    receipt. *)
Definition visible_receipt (db : MessageDb) (agent id : Z) : option (MessageRow * option Receipt) :=
  d ← shared db !! id; m ← messages db !! id; viewer ← get_agent_by_id adb agent;
  if visible_to_viewer db id d m viewer then Some (m, receipts db !! (id, agent)) else None.

(** @src db/src/project_mailbox.rs:735-740 ReceiptUpdate *)
Inductive ReceiptUpdate := Read | Acknowledge.

(** @src db/src/project_mailbox.rs:761-769 receipt_write_statements
    -- [COALESCE(column, now)]. *)
Definition coalesce (now : Z) (column : option Z) : option Z := Some (default now column).

(** @src db/src/project_mailbox.rs:760-781 receipt_write_statements *)
Definition touch_receipt (up : ReceiptUpdate) (now : Z) (r : Receipt) : Receipt :=
  mkReceipt (coalesce now (pr_read r)) (match up with Read => pr_ack r | Acknowledge => coalesce now (pr_ack r) end).
(** @src db/src/queries.rs:14026-14030 acknowledge_message_impl *)
Definition touch_recipient (up : ReceiptUpdate) (now : Z) (r : RecipientRow) : RecipientRow :=
  mkRecipient (rc_kind r) (coalesce now (rc_read r)) (match up with Read => rc_ack r | Acknowledge => coalesce now (rc_ack r) end).

(** @src db/src/project_mailbox.rs:748-783 receipt_write_statements
    -- the lazy row, then its timestamps. *)
Definition write_receipt (up : ReceiptUpdate) (id agent now : Z) (db : MessageDb) : MessageDb :=
  let t := (insert_or_ignore (id, agent) (mkReceipt None None) (receipts db)).2 in
  set_receipts (update_where (fun k _ => bool_decide (k = (id, agent))) (touch_receipt up now) t) db.

(** @src db/src/queries.rs:12859-12920 record_project_mailbox_receipt_in_tx
    -- [None]: not a delivery the agent can see. *)
Definition record_project_mailbox_receipt (agent id : Z) (up : ReceiptUpdate) (now : Z) (db : MessageDb) :
    MessageError + option (Receipt * MessageDb) :=
  match visible_receipt db agent id with
  | None => inr None
  | Some _ =>
      let db' := write_receipt up id agent now db in
      match receipts db' !! (id, agent) with
      | Some r => inr (Some (r, db'))
      | None => inl ReceiptNotStored
      end
  end.

(** @src db/src/queries.rs:14208-14226 acknowledge_messages_batch
    -- [UPDATE message_recipients SET .. WHERE agent_id = ? AND message_id IN (..)]. *)
Definition touch_recipients (up : ReceiptUpdate) (agent now : Z) (ids : list Z) (db : MessageDb) : MessageDb :=
  set_recipients (update_where (fun k _ => (k.2 =? agent) && in_ids ids k.1) (touch_recipient up now) (recipients db)) db.

(** @src db/src/queries.rs:12922-13040 mark_message_read *)
Definition mark_message_read (agent id now : Z) (db : MessageDb) : MessageError + (Z * MessageDb) :=
  let db := rebuild_agents_inbox_stats [agent] (touch_recipients Read agent now [id] db) in
  match recipients db !! (id, agent) with
  | None =>
      r ← record_project_mailbox_receipt agent id Read now db;
      match r with
      | Some (mkReceipt (Some read_ts) _, db) => inr (read_ts, db)
      | _ => inl RecipientNotFound
      end
  | Some row => match rc_read row with Some ts => inr (ts, db) | None => inl ReceiptNotStored end
  end.

(** @src db/src/queries.rs:13049-13108 mark_messages_read_batch *)
Definition mark_messages_read_batch (agent : Z) (ids : list Z) (now : Z) (db : MessageDb) : MessageDb :=
  match ids with
  | [] => db
  | _ =>
      rebuild_agents_inbox_stats [agent]
        (foldl (fun db chunk => touch_recipients Read agent now chunk db) db (chunks MAX_IN_CLAUSE_ITEMS ids))
  end.

(** @src db/src/queries.rs:14026-14118 acknowledge_message_impl *)
Definition acknowledge_message_tx (agent id now : Z) (db : MessageDb) : MessageError + (Z * Z * MessageDb) :=
  let db := rebuild_agents_inbox_stats [agent] (touch_recipients Acknowledge agent now [id] db) in
  match recipients db !! (id, agent) with
  | None =>
      r ← record_project_mailbox_receipt agent id Acknowledge now db;
      match r with
      | Some (mkReceipt (Some read_ts) (Some ack_ts), db) => inr (read_ts, ack_ts, db)
      | _ => inl RecipientNotFound
      end
  | Some row =>
      match rc_read row, rc_ack row with
      | Some read_ts, Some ack_ts => inr (read_ts, ack_ts, db)
      | _, _ => inl ReceiptNotStored
      end
  end.

(** @src db/src/queries.rs:14159-14164 BatchAcknowledgeResult *)
Record BatchAcknowledgeResult := mkAcked { ba_message : Z; ba_read : option Z; ba_ack : option Z; ba_found : bool }.

(** [HashSet::insert] in a loop: the first occurrences, in order. *)
Fixpoint first_seen (seen : list Z) (ids : list Z) : list Z :=
  match ids with
  | [] => []
  | id :: ids => if in_ids seen id then first_seen seen ids else id :: first_seen (id :: seen) ids
  end.

(** @src db/src/queries.rs:14177-14300 acknowledge_messages_batch *)
Definition acknowledge_messages_batch (agent : Z) (ids : list Z) (now : Z) (db : MessageDb) :
    list BatchAcknowledgeResult * MessageDb :=
  match ids with
  | [] => ([], db)
  | _ =>
      let unique := first_seen [] ids in
      let db := rebuild_agents_inbox_stats [agent]
                  (foldl (fun db chunk => touch_recipients Acknowledge agent now chunk db) db
                     (chunks MAX_IN_CLAUSE_ITEMS unique)) in
      (map (fun id => match recipients db !! (id, agent) with
                      | Some r => mkAcked id (rc_read r) (rc_ack r) true
                      | None => mkAcked id None None false
                      end) unique, db)
  end.

(** ** Reading in bulk *)

(** @src db/src/queries.rs:13136-13140 BulkReadReceipt *)
Record BulkReadReceipt := mkBulk { br_message : Z; br_ack : option Z; br_shared : bool }.
Definition bulk_le (a b : BulkReadReceipt) : Prop := br_message a <= br_message b.
#[export] Instance bulk_le_dec : RelDecision bulk_le.
Proof. intros a b. unfold bulk_le. apply _. Defined.

(** @src db/src/queries.rs:13176-13179 select_bulk_read_receipts_in_tx
    -- [m.created_ts <= ?], when a horizon is given. *)
Definition old_enough (older_than : option Z) (m : MessageRow) : bool :=
  match older_than with Some cutoff => mg_created m <=? cutoff | None => true end.

(** @src db/src/queries.rs:13171-13186 select_bulk_read_receipts_in_tx
    -- unread direct deliveries of a project, oldest id first. *)
Definition unread_direct (db : MessageDb) (project agent : Z) (older_than : option Z) : list BulkReadReceipt :=
  merge_sort bulk_le
    (omap (fun im => r ← recipients db !! (im.1, agent);
                     if bool_decide (rc_read r = None) && (mg_project im.2 =? project) && old_enough older_than im.2
                     then Some (mkBulk im.1 (rc_ack r) false) else None) (map_to_list (messages db))).

(** @src db/src/project_mailbox.rs:812-837 unread_visible_query *)
Definition unread_shared (db : MessageDb) (project agent : Z) (older_than : option Z) : list BulkReadReceipt :=
  merge_sort bulk_le
    (omap (fun id_d => '(m, r) ← visible_receipt db agent id_d.1;
                       if bool_decide ((r ≫= pr_read) = None) && (sd_project id_d.2 =? project) && old_enough older_than m
                       then Some (mkBulk id_d.1 (r ≫= pr_ack) true) else None) (map_to_list (shared db))).

(** @src db/src/queries.rs:13157-13224 select_bulk_read_receipts_in_tx
    -- each lane one more than the limit, then merged; [limit + 1] stands for the
    saturated bound of [i64]. *)
Definition select_bulk_read_receipts (db : MessageDb) (project agent : Z) (older_than : option Z) (limit : nat) :
    list BulkReadReceipt * bool :=
  let both := merge_sort bulk_le (take (S limit) (unread_direct db project agent older_than) ++
                                  take (S limit) (unread_shared db project agent older_than)) in
  (take limit both, (limit <? length both)%nat).

(** @src db/src/queries.rs:13242-13262 verify_bulk_read_receipts_in_tx
    -- The rows of an agent among some messages, by message. *)
Definition receipt_rows {R} (read ack : R -> option Z) (t : gmap (Z * Z) R) (agent : Z) (ids : list Z) : list (Z * option Z * option Z) :=
  omap (fun id => (fun r => (id, read r, ack r)) <$> t !! (id, agent)) (merge_sort Z.le (remove_dups ids)).

(** @src db/src/queries.rs:13238-13287 verify_bulk_read_receipts_in_tx
    -- one chunk of one table. *)
Definition verify_chunk (now : Z) (rows_of : list Z -> list (Z * option Z * option Z)) (chunk : list BulkReadReceipt) : bool :=
  let rows := rows_of (map br_message chunk) in
  (length rows =? length chunk)%nat &&
  forallb (fun re : (Z * option Z * option Z) * BulkReadReceipt =>
             bool_decide (re.1 = (br_message re.2, Some now, br_ack re.2))) (zip rows chunk).

(** @src db/src/queries.rs:13226-13290 verify_bulk_read_receipts_in_tx *)
Definition verify_bulk_read_receipts (agent now : Z) (selected : list BulkReadReceipt) (db : MessageDb) : bool :=
  let lane b := chunks MAX_IN_CLAUSE_ITEMS (List.filter (fun r => Bool.eqb (br_shared r) b) selected) in
  forallb (verify_chunk now (receipt_rows rc_read rc_ack (recipients db) agent)) (lane false) &&
  forallb (verify_chunk now (receipt_rows pr_read pr_ack (receipts db) agent)) (lane true).

(** @src db/src/queries.rs:13126-13134 BulkMarkReadOutcome *)
Record BulkMarkReadOutcome := mkBulkOutcome { bm_marked : Z; bm_more : bool }.

(** @src db/src/queries.rs:13353-13368 mark_messages_read_bulk
    -- [UPDATE .. SET read_ts = ? WHERE agent_id = ? AND read_ts IS NULL AND message_id IN (..)]. *)
Definition read_unread (agent now : Z) (db : MessageDb) (chunk : list Z) : MessageDb :=
  set_recipients (update_where (fun k r => (k.2 =? agent) && bool_decide (rc_read r = None) && in_ids chunk k.1)
                    (fun r => mkRecipient (rc_kind r) (Some now) (rc_ack r)) (recipients db)) db.

(** @src db/src/queries.rs:13309-13412 mark_messages_read_bulk *)
Definition mark_messages_read_bulk (project agent : Z) (older_than : option Z) (limit : nat) (now : Z) (db : MessageDb) :
    MessageError + (BulkMarkReadOutcome * MessageDb) :=
  match limit with
  | O => inr (mkBulkOutcome 0 false, db)
  | _ =>
      let '(selected, more) := select_bulk_read_receipts db project agent older_than limit in
      let direct_ids := map br_message (List.filter (fun r => negb (br_shared r)) selected) in
      let db := foldl (read_unread agent now) db (chunks MAX_IN_CLAUSE_ITEMS direct_ids) in
      let db := foldl (fun db r => write_receipt Read (br_message r) agent now db) db (List.filter br_shared selected) in
      let db := match direct_ids with [] => db | _ => rebuild_agents_inbox_stats [agent] db end in
      if verify_bulk_read_receipts agent now selected db
      then inr (mkBulkOutcome (Z.of_nat (length selected)) more, db)
      else inl ReceiptNotStored
  end.
End receipts.
