(* ===== verification/MessageRetention.v ===== *)
(** * Retention of messages, and histories of the store ([db/src/queries.rs], [db/src/sync.rs])

    Which messages are settled, what the archive has to prove about one before it
    may go, and the transaction that deletes.  Histories of the store close the
    file.  Parameters: the agents, the projects, and the bytes of the columns that
    hold JSON.  The ledger of signal receipts is left out. *)

From S2P Require Import Prelude.
From S2P Require Import SqlTable.
From S2P Require Import RustStr.
From S2P Require Import Routing.
From S2P Require Import Leases.
From S2P Require Import AgentRegistry.
From S2P Require Import Messages.

#[export] Instance Envelope_eq_dec : EqDecision Envelope.
Proof. solve_decision. Defined.
#[export] Instance MessageRow_eq_dec : EqDecision MessageRow.
Proof. solve_decision. Defined.

(** ** Settled messages *)

(** @src db/src/queries.rs:13423-13428 SETTLED_MESSAGE_PREDICATE
    -- Read, and acknowledged when that is required. *)
Definition done_with (m : MessageRow) (read ack : option Z) : bool :=
  negb (bool_decide (read = None) || (negb (mg_ack_required m =? 0) && bool_decide (ack = None))).

Section retention.
  Context (adb : AgentDb).

(** @src db/src/queries.rs:13423-13437 SETTLED_MESSAGE_PREDICATE
    -- every recipient is done, and so is every agent that sees a shared delivery. *)
Definition settled (db : MessageDb) (id : Z) (m : MessageRow) : bool :=
  forallb (fun kr => done_with m (rc_read kr.2) (rc_ack kr.2)) (select_where (fun k _ => k.1 =? id) (recipients db)) &&
  match shared db !! id with
  | None => true
  | Some d =>
      forallb (fun viewer => negb (visible_to_viewer db id d m viewer) ||
                 let r := receipts db !! (id, ar_id viewer) in done_with m (r ≫= pr_read) (r ≫= pr_ack))
        (agent_rows adb)
  end.

(** @src db/src/queries.rs:13551-13610 list_prunable_message_ids *)
Definition prunable (db : MessageDb) (older_than id : Z) (m : MessageRow) : bool :=
  (mg_created m <=? older_than) && settled db id m.

(** @src db/src/queries.rs:13440-13446 MESSAGE_ARCHIVE_MAX_PAYLOAD_BYTES, MESSAGE_ARCHIVE_MAX_RECIPIENTS, MESSAGE_ARCHIVE_MAX_RECIPIENT_NAME_BYTES, MESSAGE_PRUNE_MAX_CANDIDATES *)
Definition MESSAGE_ARCHIVE_MAX_PAYLOAD_BYTES : Z := 4 * 1024 * 1024.
Definition MESSAGE_ARCHIVE_MAX_RECIPIENTS : nat := 1024.
Definition MESSAGE_ARCHIVE_MAX_RECIPIENT_NAME_BYTES : Z := 1024.
Definition MESSAGE_PRUNE_MAX_CANDIDATES : nat := 32.

(** @src db/src/queries.rs:13545-13549 MessagePruneIdPage *)
Record MessagePruneIdPage := mkPage { page_ids : list Z; page_ceiling : Z; page_more : bool }.

(** @src db/src/queries.rs:13551-13610 list_prunable_message_ids *)
Definition list_prunable_message_ids (db : MessageDb) (older_than after_id : Z) (ceiling : option Z) (max_messages : nat) :
    MessagePruneIdPage :=
  match max_messages with
  | O => mkPage [] (default 0 ceiling) false
  | _ =>
      let limit := Nat.min max_messages MESSAGE_PRUNE_MAX_CANDIDATES in
      let ceiling := default (max_message_id db) ceiling in
      let eligible := merge_sort Z.le
        (select_where (fun id m => (Z.max after_id 0 <? id) && (id <=? ceiling) && prunable db older_than id m) (messages db)).*1 in
      let rows := take (S limit) eligible in
      mkPage (take limit rows) ceiling (limit <? length rows)%nat
  end.

(** @src db/src/queries.rs:13680-13705 count_prunable_messages *)
Definition count_prunable_messages (db : MessageDb) (older_than : Z) : nat :=
  length (select_where (prunable db older_than) (messages db)).

(** ** What the archive is checked against *)

Section sources.
  Context (project_of : Z -> option (ustr * ustr)) (json_bytes : Envelope -> Z) (metadata_bytes : option Z -> Z).

(** @src db/src/queries.rs:13458-13497 MESSAGE_ARCHIVE_SOURCE_SQL
    -- the rows of the projection: the message, its deliveries, its shared
    delivery; the slug and key of its project. *)
Inductive SourceRow :=
  | SrcMessage (m : MessageRow) (slug key sender_name : ustr) (sender_project : Z)
  | SrcRecipient (agent : Z) (project : option Z) (name kind : option ustr) (read ack : option Z)
  | SrcShared (project : Z) (address kind : option ustr).

#[export] Instance SourceRow_eq_dec : EqDecision SourceRow.
Proof. solve_decision. Defined.

Definition bytes (s : ustr) : Z := Z.of_nat (utf8_len s).
(** @src db/src/queries.rs:13458-13475 MESSAGE_ARCHIVE_SOURCE_SQL *)
Definition payload_bytes (m : MessageRow) (slug key sender : ustr) : Z :=
  bytes (mg_body m) + bytes (mg_subject m) + json_bytes (mg_recipients m) + bytes (mg_attachments m) + bytes (mg_importance m) +
  bytes slug + bytes key + bytes sender + from_option bytes 0 (mg_thread m) + from_option bytes 0 (mg_topic m) +
  metadata_bytes (mg_reply_to m).
Definition short (limit : Z) (s : ustr) : option ustr := if bytes s <=? limit then Some s else None.

(** @src db/src/queries.rs:13458-13475 MESSAGE_ARCHIVE_SOURCE_SQL *)
Definition source_message (db : MessageDb) (id : Z) : list SourceRow :=
  match (m ← messages db !! id; p ← project_of (mg_project m); a ← get_agent_by_id adb (mg_sender m); Some (m, p, a)) with
  | Some (m, (slug, key), a) =>
      if payload_bytes m slug key (ar_name a) <=? MESSAGE_ARCHIVE_MAX_PAYLOAD_BYTES
      then [SrcMessage m slug key (ar_name a) (ar_project a)] else []
  | None => []
  end.
(** @src db/src/queries.rs:13476-13487 MESSAGE_ARCHIVE_SOURCE_SQL *)
Definition source_recipient (agent : Z) (r : RecipientRow) : SourceRow :=
  let a := get_agent_by_id adb agent in
  SrcRecipient agent (ar_project <$> a) (a ≫= fun a => short MESSAGE_ARCHIVE_MAX_RECIPIENT_NAME_BYTES (ar_name a))
    (short 3 (rc_kind r)) (rc_read r) (rc_ack r).
(** @src db/src/queries.rs:13488-13496 MESSAGE_ARCHIVE_SOURCE_SQL *)
Definition source_shared (db : MessageDb) (id : Z) : list SourceRow :=
  match shared db !! id with
  | Some d =>
      [SrcShared (sd_project d)
         (match project_of (sd_project d) with
          | Some (slug, _) => if bytes slug <=? MESSAGE_ARCHIVE_MAX_RECIPIENT_NAME_BYTES then Some (project_mailbox_address slug) else None
          | None => None
          end) (short 3 (sd_kind d))]
  | None => []
  end.

(** @src db/src/queries.rs:13501-13508 message_archive_source_sql
    -- the recipients by their ids; two rows past the limit show an overflow. *)
Definition message_archive_source (db : MessageDb) (id : Z) : list SourceRow :=
  let agents := merge_sort Z.le (map (fun kr => kr.1.2) (select_where (fun k _ => k.1 =? id) (recipients db))) in
  take (MESSAGE_ARCHIVE_MAX_RECIPIENTS + 2)
    (source_message db id ++
     omap (fun a => source_recipient a <$> recipients db !! (id, a)) agents ++
     source_shared db id).

(** @src db/src/queries.rs:13524-13528 MessagePruneCandidate
    -- [pc_pool] is the identity of the pool it was read from. *)
Record MessagePruneCandidate := mkCandidate { pc_id : Z; pc_pool : ustr; pc_rows : list SourceRow }.

(** @src db/src/queries.rs:13614-13663 capture_message_prune_candidate *)
Definition capture_message_prune_candidate (pool : ustr) (db : MessageDb) (id : Z) : option MessagePruneCandidate :=
  if id <=? 0 then None
  else
    let rows := message_archive_source db id in
    if (length rows <=? MESSAGE_ARCHIVE_MAX_RECIPIENTS + 1)%nat &&
       match rows with SrcMessage m _ _ _ _ :: _ => mg_id m =? id | _ => false end
    then Some (mkCandidate id pool rows) else None.

(** ** Pruning *)

(** @src db/src/queries.rs:13709-13717 MessagePruneReport *)
Record MessagePruneReport := mkReport { deleted_messages : Z; deleted_recipients : Z; prune_more : bool }.

(** @src db/src/queries.rs:13789-13823 prune_verified_settled_messages
    -- checked again inside the transaction: age, receipts and every row. *)
Definition still_prunable (db : MessageDb) (older_than : Z) (c : MessagePruneCandidate) : bool :=
  match messages db !! pc_id c with
  | Some m => prunable db older_than (pc_id c) m
  | None => false
  end && bool_decide (pc_rows c = message_archive_source db (pc_id c)).

(** @src db/src/queries.rs:13848-13896 prune_verified_settled_messages
    -- children first, the messages last, then the counts of their recipients. *)
Definition delete_messages (ids : list Z) (db : MessageDb) : MessageDb :=
  let of_ids := fun (k : Z * Z) => in_ids ids k.1 in
  let agents := remove_dups (map (fun kr => kr.1.2) (select_where (fun k _ => of_ids k) (recipients db))) in
  let db' :=
    set_messages (delete_where (fun id _ => in_ids ids id) (messages db))
     (set_recipients (delete_where (fun k _ => of_ids k) (recipients db))
      (set_shared (delete_where (fun id _ => in_ids ids id) (shared db))
       (set_receipts (delete_where (fun k _ => of_ids k) (receipts db))
        (set_events (List.filter (fun e => negb (in_ids ids (ev_message e))) (events db)) (event_seq db) db)))) in
  match agents with [] => db' | _ => rebuild_agents_inbox_stats agents db' end.

(** @src db/src/queries.rs:13770-13901 prune_verified_settled_messages
    -- one batch: the messages and recipients deleted, and whether any
    candidate was left. *)
Definition prune_batch (older_than : Z) (chunk : list MessagePruneCandidate) (db : MessageDb) : (Z * Z * bool) * MessageDb :=
  let ids := map pc_id (List.filter (still_prunable db older_than) chunk) in
  let skipped := negb (length ids =? length chunk)%nat in
  match ids with
  | [] => ((0, 0, skipped), db)
  | _ => ((Z.of_nat (length (select_where (fun id _ => in_ids ids id) (messages db))),
           Z.of_nat (length (select_where (fun k _ => in_ids ids k.1) (recipients db))), skipped), delete_messages ids db)
  end.

(** @src db/src/queries.rs:13735-13927 prune_verified_settled_messages
    -- [None]: the candidates are refused.  [batch_size] is clamped. *)
Definition prune_verified_settled_messages (pool : ustr) (older_than : Z) (batch_size : nat)
    (candidates : list MessagePruneCandidate) (db : MessageDb) : option MessagePruneReport * MessageDb :=
  match candidates with
  | [] => (Some (mkReport 0 0 false), db)
  | _ =>
      if (MESSAGE_PRUNE_MAX_CANDIDATES <? length candidates)%nat then (None, db)
      else if existsb (fun c => negb (ustr_eqb (pc_pool c) pool)) candidates || negb (bool_decide (NoDup (map pc_id candidates)))
      then (None, db)
      else
        let batch := Nat.max 1 (Nat.min batch_size MESSAGE_PRUNE_MAX_CANDIDATES) in
        let '(r, db) :=
          foldl (fun '(r, db) chunk =>
                   let '((ms, rs, skipped), db) := prune_batch older_than chunk db in
                   (mkReport (usat_add (deleted_messages r) ms) (usat_add (deleted_recipients r) rs) (prune_more r || skipped), db))
            (mkReport 0 0 false, db) (chunks batch candidates) in
        (Some r, db)
  end.
End sources.
End retention.

(** ** Synchronous readers *)

(** @src db/src/sync.rs:973-978 MarkMessagesReadBatch *)
Record MarkMessagesReadBatch := mkReadBatch { rb_read_ts : Z; rb_message_ids : list Z }.

(** @src db/src/sync.rs:883-966 rebuild_agent_inbox_stats_sync, compute_agent_inbox_stats_sync, insert_agent_inbox_stats_sync *)
Definition rebuild_agent_inbox_stats_sync (agent : Z) (db : MessageDb) : MessageDb :=
  let stats := delete agent (inbox_stats db) in
  set_stats (match compute_agent_inbox_stats db agent with Some s => <[agent := s]> stats | None => stats end) db.

(** @src db/src/sync.rs:994-1096 mark_messages_read_batch_sync_conn
    -- the unread ones among the sorted ids; the rows are compared with what
    was expected before the commit. *)
Definition mark_messages_read_batch_sync (agent : Z) (ids : list Z) (read_ts : Z) (db : MessageDb) :
    MessageError + (option MarkMessagesReadBatch * MessageDb) :=
  match ids with
  | [] => inr (None, db)
  | _ =>
      let observe db := receipt_rows rc_read rc_ack (recipients db) agent ids in
      let expected := map (fun '(id, read, ack) => (id, Some (default read_ts read), ack)) (observe db) in
      let updated := omap (fun '(id, read, _) => match read with None => Some id | Some _ => None end) (observe db) in
      let db' := foldl (read_unread agent read_ts) db (chunks MAX_IN_CLAUSE_ITEMS updated) in
      let db' := match updated with [] => db' | _ => rebuild_agent_inbox_stats_sync agent db' end in
      if bool_decide (observe db' = expected)
      then inr (match updated with [] => None | _ => Some (mkReadBatch read_ts updated) end, db')
      else inl ReceiptNotStored
  end.

(** @src db/src/project_mailbox.rs:924-965 mark_project_mailbox_read_batch_sync_conn
    -- the visible, unread deliveries among the ids. *)
Definition mark_project_mailbox_read_batch_sync (adb : AgentDb) (agent : Z) (ids : list Z) (read_ts : Z) (db : MessageDb) :
    MessageError + (option MarkMessagesReadBatch * MessageDb) :=
  match ids with
  | [] => inr (None, db)
  | _ =>
      let unique := merge_sort Z.le (remove_dups ids) in
      let observe db := omap (fun id => (fun mr => (id, mr.2 ≫= pr_read, mr.2 ≫= pr_ack)) <$> visible_receipt adb db agent id) unique in
      let expected := map (fun '(id, read, ack) => (id, Some (default read_ts read), ack)) (observe db) in
      let updated := omap (fun '(id, read, _) => match read with None => Some id | Some _ => None end) (observe db) in
      let db' := foldl (fun db id => write_receipt Read id agent read_ts db) db updated in
      if match updated with [] => true | _ => false end || bool_decide (observe db' = expected)
      then inr (match updated with [] => None | _ => Some (mkReadBatch read_ts updated) end, db')
      else inl ReceiptNotStored
  end.

(** ** Histories *)

(** A committed transaction on the store, with the registry and projects it saw. *)
Inductive MailOp :=
  | OpSend (adb : AgentDb) (slug_of : Z -> option ustr) (live : bool) (archive_seed : Z) (q : NewMessage) (now : Z)
  | OpCleanup (project id : Z) (recipient_ids : list Z)
  | OpRead (adb : AgentDb) (agent id now : Z)
  | OpReadBatch (agent : Z) (ids : list Z) (now : Z)
  | OpReadBatchSync (agent : Z) (ids : list Z) (now : Z)
  | OpReadSharedSync (adb : AgentDb) (agent : Z) (ids : list Z) (now : Z)
  | OpReadBulk (adb : AgentDb) (project agent : Z) (older_than : option Z) (limit : nat) (now : Z)
  | OpAck (adb : AgentDb) (agent id now : Z)
  | OpAckBatch (agent : Z) (ids : list Z) (now : Z)
  | OpPrune (adb : AgentDb) (project_of : Z -> option (ustr * ustr)) (json_bytes : Envelope -> Z)
      (metadata_bytes : option Z -> Z) (older_than : Z) (chunk : list MessagePruneCandidate)
  | OpThread (id : Z) (target : ustr)
  | OpRebuildAll
  | OpTrigger (present : bool).

(** The tables an operation that may fail leaves. *)
Definition committed {E R} (r : E + (R * MessageDb)) (db : MessageDb) : MessageDb :=
  match r with inr (_, db) => db | inl _ => db end.

Definition apply_mail_op (db : MessageDb) (o : MailOp) : MessageDb :=
  match o with
  | OpSend adb slug_of live seed q now => committed (create_message_tx adb slug_of live seed q now db) db
  | OpCleanup project id ids => cleanup_message project id ids db
  | OpRead adb agent id now => committed (mark_message_read adb agent id now db) db
  | OpReadBatch agent ids now => mark_messages_read_batch agent ids now db
  | OpReadBatchSync agent ids now => committed (mark_messages_read_batch_sync agent ids now db) db
  | OpReadSharedSync adb agent ids now => committed (mark_project_mailbox_read_batch_sync adb agent ids now db) db
  | OpReadBulk adb p agent older limit now => committed (mark_messages_read_bulk adb p agent older limit now db) db
  | OpAck adb agent id now => committed (acknowledge_message_tx adb agent id now db) db
  | OpAckBatch agent ids now => (acknowledge_messages_batch agent ids now db).2
  | OpPrune adb project_of json meta older chunk => (prune_batch adb project_of json meta older chunk db).2
  | OpThread id target => committed (update_message_thread_id id target db) db
  | OpRebuildAll => rebuild_all_inbox_stats db
  | OpTrigger present => set_trigger present db
  end.

Definition run_mail (ops : list MailOp) (db : MessageDb) : MessageDb := foldl apply_mail_op db ops.
