(* ===== verification/MessageSend.v ===== *)
(** * Sending and acknowledging with a key ([db/src/queries.rs])

    [create_message_with_recipients_impl] around its transaction: the checks of
    the arguments, the first recipient of each agent, the key, the scan of the
    archive between two transactions when no seed is cached, and what the probe
    after the commit decides; [acknowledge_message_impl] with its key.  Parameters:
    the serialisation of results and what the probes see.  ([create_message] and
    [add_recipients] are reached from tests only and are left out.) *)

From S2P Require Import Prelude.
From S2P Require Import SqlTable.
From S2P Require Import RustStr.
From S2P Require Import Idempotency.
From S2P Require Import Leases.
From S2P Require Import AgentRegistry.
From S2P Require Import Messages.

(** The keys and the tables a transaction works on. *)
Notation MailStore := (KeyTable * MessageDb)%type.

(** A call that failed: refused for its arguments, rolled back, committed by a
    writer whose allocator was retired at that moment, or cleaned up. *)
Inductive SendFailure := Refused (e : MessageError) | RolledBack | Unconfirmed | CleanedUp (e : MessageError).

Definition set_recipient_list (rs : list (Z * ustr)) (q : NewMessage) : NewMessage :=
  mkNewMessage (nm_project q) (nm_sender q) (nm_subject q) (nm_body q) (nm_thread q) (nm_topic q) (nm_reply_to q)
    (nm_importance q) (nm_ack q) (nm_attachments q) rs (nm_mailbox q).

Definition ok_of {E R} (r : E + R) : option R := match r with inr x => Some x | inl _ => None end.

Section send.
  Context (adb : AgentDb) (slug_of : Z -> option ustr).
  Context (to_json : MessageRow -> option ustr) (from_json : ustr -> option MessageRow).

(** @src db/src/queries.rs:9086-9200 create_message_with_recipients_impl
    -- with a key and no cached seed the first transaction only looks the key up;
    the archive is scanned without it, and the second one, on the tables found
    then, looks again. *)
Definition insert_message (retention now : Z) (claim : option IdempotencyClaim) (live : bool) (cached : option Z) (scanned : Z)
    (q : NewMessage) (first second : MailStore) : option (IdempotentOutcome MessageRow) * MailStore :=
  let write seed := keyed_write to_json from_json retention now claim
                      (fun now db => ok_of (create_message_tx adb slug_of live seed q now db)) in
  match cached, claim with
  | None, Some c =>
      match (idempotency_check_in_tx c now first.1).1 with
      | Proceed => write scanned second
      | _ => write scanned first
      end
  | None, None => write scanned first
  | Some seed, _ => write seed first
  end.

(** @src db/src/queries.rs:9020-9352 create_message_with_recipients_impl
    -- [live], [live']: whether the allocator is not retired before the commit and
    after it (9863-9869); [second]: the tables after the scan; [verdict], [counts]: what the probe and
    the writer's sample saw; [later]: the tables the clean-up finds. *)
Definition create_message_with_recipients (retention now : Z) (claim : option IdempotencyClaim) (live live' : bool)
    (cached : option Z) (scanned : Z) (q : NewMessage) (verdict : ProbeVerdict) (counts : WriterPostCommitCounts)
    (second : MailStore -> MailStore) (later : MailStore -> MailStore) (st : MailStore) :
    (SendFailure + IdempotentOutcome MessageRow) * MailStore :=
  match check_new_message q with
  | inl e => (inl (Refused e), st)
  | inr _ =>
      let q := set_recipient_list (dedup_recipients [] (nm_recipients q)) q in
      match insert_message retention now claim live cached scanned q st (second st) with
      | (None, st) => (inl RolledBack, st)
      | (Some (Fresh row), st) =>
          if negb live' then (inl Unconfirmed, st)
          else
            let '(t, db) := later st in
            match finish_send q row verdict counts db with
            | (inl e, db) => (inl (CleanedUp e), (t, db))
            | (inr row, db) => (inr (Fresh row), (t, db))
            end
      | (Some out, st) => (inr out, st)
      end
  end.
End send.

Section acknowledge.
  Context (adb : AgentDb).
  Context (to_json : Z * Z -> option ustr) (from_json : ustr -> option (Z * Z)).

(** @src db/src/queries.rs:13970-14155 acknowledge_message_impl *)
Definition acknowledge_message (retention now : Z) (claim : option IdempotencyClaim) (agent id : Z) (st : MailStore) :
    option (IdempotentOutcome (Z * Z)) * MailStore :=
  keyed_write to_json from_json retention now claim
    (fun now db => ok_of (acknowledge_message_tx adb agent id now db)) st.
End acknowledge.
