(* ===== verification/DeliveryCursor.v ===== *)
(** * Delivery events by cursor ([db/src/sync.rs], [db/src/project_mailbox.rs])

    What a monitor polls: the events of an agent after its cursor, those of its
    own deliveries and those of the project's mailbox it can see, oldest first.
    Range, direct events and shared events are read in one snapshot.  The page of
    [position_now] of the command line closes the file.  The engine's failures,
    databases without the tables of the shared mailbox and the decoding of rows
    are left out. *)

From S2P Require Import Prelude.
From S2P Require Import SqlTable.
From S2P Require Import RustStr.
From S2P Require Import Leases.
From S2P Require Import AgentRegistry.
From S2P Require Import Messages.

(** @src db/src/sync.rs:22-31 InboxDeliveryEvent *)
Record InboxDeliveryEvent := mkDelivery {
  ie_seq : Z; ie_message : Z; ie_kind : ustr; ie_delivered : Z; ie_subject : ustr; ie_sender : ustr;
  ie_importance : ustr; ie_ack : bool;
}.

(** @src db/src/sync.rs:35-41 InboxDeliveryEventPage *)
Record InboxDeliveryEventPage := mkDeliveryPage {
  pg_events : list InboxDeliveryEvent; next_cursor : Z; has_more : bool; oldest_available_cursor : option Z; tail_cursor : Z;
}.

(** @src db/src/sync.rs:77-84 InboxDeliveryEventError *)
Inductive InboxDeliveryEventError :=
  | CursorExpired (after oldest_available : Z)
  | CursorAhead (after tail : Z)
  | InvalidLimit.

(** [ORDER BY e.seq]. *)
Definition event_le (a b : InboxDeliveryEvent) : Prop := ie_seq a <= ie_seq b.
#[export] Instance event_le_dec : RelDecision event_le.
Proof. intros a b. unfold event_le. apply _. Defined.

(** @src db/src/queries.rs:11909-11909 UNKNOWN_SENDER_DISPLAY *)
Definition UNKNOWN_SENDER_DISPLAY : ustr := u "[unknown sender]".

Section cursor.
  Context (adb : AgentDb).

(** @src db/src/sync.rs:718-721 inbox_delivery_events_in_snapshot
    -- An event with the columns of its message and its sender. *)
Definition delivery_of (m : MessageRow) (e : DeliveryEvent) : InboxDeliveryEvent :=
  mkDelivery (ev_seq e) (ev_message e) (ev_kind e) (ev_delivered e) (mg_subject m)
    (from_option ar_name UNKNOWN_SENDER_DISPLAY (get_agent_by_id adb (mg_sender m)))
    (mg_importance m) (negb (mg_ack_required m =? 0)).

(** @src db/src/sync.rs:651-660 inbox_delivery_events_in_snapshot
    -- the events in the cursor space of an agent. *)
Definition in_range (project agent : Z) (e : DeliveryEvent) : bool :=
  (ev_project e =? project) &&
  (bool_decide (ev_agent e = Some agent) || (bool_decide (ev_agent e = None) && ustr_eqb (ev_kind e) (u "project"))).
Definition range_seqs (db : MessageDb) (project agent : Z) : list Z := map ev_seq (List.filter (in_range project agent) (events db)).

(** @src db/src/sync.rs:718-734 inbox_delivery_events_in_snapshot
    -- an event whose message is gone is not joined. *)
Definition direct_event (db : MessageDb) (project agent cursor : Z) (e : DeliveryEvent) : option InboxDeliveryEvent :=
  m ← messages db !! ev_message e;
  if (ev_project e =? project) && bool_decide (ev_agent e = Some agent) && (cursor <? ev_seq e) then Some (delivery_of m e) else None.

(** @src db/src/project_mailbox.rs:588-604 visible_events_sql *)
Definition shared_event (db : MessageDb) (project agent cursor : Z) (e : DeliveryEvent) : option InboxDeliveryEvent :=
  d ← shared db !! ev_message e; m ← messages db !! ev_message e; viewer ← get_agent_by_id adb agent;
  if (ev_project e =? project) && bool_decide (ev_agent e = None) && ustr_eqb (ev_kind e) (u "project") &&
     (cursor <? ev_seq e) && visible_to_viewer db (ev_message e) d m viewer
  then Some (delivery_of m e) else None.

(** @src db/src/sync.rs:629-714 inbox_delivery_events_in_snapshot
    -- the checks of the cursor against the range. *)
Definition check_cursor (oldest : option Z) (tail : Z) (global_oldest : option Z) (after : option Z) : InboxDeliveryEventError + unit :=
  match after with
  | None => inr tt
  | Some after =>
      let pruned := from_option (fun g => 1 <? g) false global_oldest in
      match oldest with
      | Some oldest =>
          if pruned && (after <? isat_sub oldest 1) then inl (CursorExpired after oldest)
          else if tail <? after then inl (CursorAhead after tail) else inr tt
      | None => if tail <? after then inl (CursorAhead after tail) else inr tt
      end
  end.

(** @src db/src/sync.rs:629-811 inbox_delivery_events_in_snapshot
    -- both kinds one past the limit, merged by a stable sort; one is left out
    when there are more. *)
Definition inbox_delivery_events (db : MessageDb) (project agent : Z) (after : option Z) (limit : Z) :
    InboxDeliveryEventError + InboxDeliveryEventPage :=
  if (limit <=? 0) || (i64_max <? limit + 1) then inl InvalidLimit
  else
    let seqs := range_seqs db project agent in
    let oldest := sql_min seqs in
    let tail := default 0 (sql_max seqs) in
    _ ← check_cursor oldest tail (sql_min (map ev_seq (events db))) after;
    let cursor := default 0 after in
    let probe := Z.to_nat (limit + 1) in
    let rows := top event_le probe (omap (direct_event db project agent cursor) (events db)) ++
                top event_le probe (omap (shared_event db project agent cursor) (events db)) in
    let found := take probe (merge_sort event_le rows) in
    let more := (Z.to_nat limit <? length found)%nat in
    let page := if more then removelast found else found in
    inr (mkDeliveryPage page (from_option ie_seq cursor (last page)) more oldest tail).

(** @src cli/src/lib.rs:95003-95037 inbox_events_page_from_direct *)
Definition page_from_direct (page : InboxDeliveryEventPage) (position_now : bool) : InboxDeliveryEventPage :=
  mkDeliveryPage (if position_now then [] else pg_events page)
    (if position_now then tail_cursor page else next_cursor page)
    (negb position_now && has_more page) (oldest_available_cursor page) (tail_cursor page).

(** @src cli/src/lib.rs:95039-95079 inbox_events_direct
    -- a poll of an agent that was found. *)
Definition inbox_events_direct (db : MessageDb) (project agent : Z) (after : option Z) (limit : Z) (position_now : bool) :
    InboxDeliveryEventError + InboxDeliveryEventPage :=
  page ← inbox_delivery_events db project agent (if position_now then None else after) limit;
  inr (page_from_direct page position_now).
End cursor.
