(* ===== verification/MessagesProps.v ===== *)
(** * Properties of the message store

    The counts of [inbox_stats] are those of a recount from the message and
    recipient tables after every history of sends, reads, acknowledgements and
    clean-ups; ids are never given twice; the first read and the first
    acknowledgement stay; bulk reading drains an inbox oldest first. *)

From S2P Require Import Prelude.
From S2P Require Import SqlTable.
From S2P Require Import RustStr.
From S2P Require Import Idempotency.
From S2P Require Import Leases.
From S2P Require Import LeaseReleases.
From S2P Require Import AgentRegistry.
From S2P Require Import AgentRegistryProps.
From S2P Require Import Messages.
From S2P Require Import MessageRetention.

(** ** Recounts *)

Lemma in_ids_spec ids id : in_ids ids id = true <-> id ∈ ids.
Proof.
  unfold in_ids. rewrite existsb_exists. setoid_rewrite Z.eqb_eq. rewrite list_elem_of_In.
  split; [by intros (x & Hx & ->)|eauto].
Qed.
Lemma in_ids_false ids id : in_ids ids id = false <-> id ∉ ids.
Proof. rewrite <- not_true_iff_false, in_ids_spec. done. Qed.

Lemma lookup_received db a id :
  received db a !! id = m ← messages db !! id; pair m <$> recipients db !! (id, a).
Proof. unfold received. by rewrite map_lookup_imap. Qed.

Lemma received_ext db db' a :
  (forall id, messages db' !! id = messages db !! id) ->
  (forall id, recipients db' !! (id, a) = recipients db !! (id, a)) -> received db' a = received db a.
Proof. intros Hm Hr. apply map_eq. intros id. by rewrite !lookup_received, Hm, Hr. Qed.

#[export] Instance aggregate_Proper : Proper (Permutation ==> eq) aggregate.
Proof.
  intros l l' Hp. unfold aggregate.
  destruct l as [|x l]; [by apply Permutation_nil_l in Hp as <-|].
  destruct l' as [|x' l']; [by apply Permutation_nil_r in Hp|].
  by rewrite Hp.
Qed.

(** Counts see the time of a message and whether it asks for an acknowledgement. *)
Definition seen_by_counts (mr : MessageRow * RecipientRow) : Z * Z * option Z * option Z :=
  (mg_created mr.1, mg_ack_required mr.1, rc_read mr.2, rc_ack mr.2).

Lemma aggregate_seen rows rows' : map seen_by_counts rows = map seen_by_counts rows' -> aggregate rows = aggregate rows'.
Proof.
  intros H. assert (length rows = length rows' /\ count_where unread rows = count_where unread rows' /\
    count_where ack_pending rows = count_where ack_pending rows' /\
    map (fun mr => mg_created mr.1) rows = map (fun mr => mg_created mr.1) rows') as (E1 & E2 & E3 & E4).
  { revert rows' H. induction rows as [|[m r] rows IH]; intros [|[m' r'] rows'] H; try done. cbn [map] in H.
    injection H as H1 H2 H3 H4 H. cbn [fst snd] in *. destruct (IH rows' H) as (E1 & E2 & E3 & E4).
    rewrite !count_where_cons, E2, E3. cbn [length map fst snd]. rewrite E1, E4. unfold unread, ack_pending. cbn [fst snd].
    by rewrite H1, H2, H3, H4. }
  unfold aggregate. destruct rows as [|x rows], rows' as [|x' rows']; try done. by rewrite E1, E2, E3, E4.
Qed.

Lemma compute_seen db db' a : seen_by_counts <$> received db' a = seen_by_counts <$> received db a ->
  compute_agent_inbox_stats db' a = compute_agent_inbox_stats db a.
Proof.
  intros H. unfold compute_agent_inbox_stats.
  assert (forall t : gmap Z (MessageRow * RecipientRow), map seen_by_counts (map_to_list t).*2 ≡ₚ (map_to_list (seen_by_counts <$> t)).*2) as Hp.
  { intros t. rewrite map_to_list_fmap. rewrite <- !list_fmap_compose. done. }
  pose proof (Hp (received db a)) as H1. pose proof (Hp (received db' a)) as H2. rewrite H in H2. rewrite <- H1 in H2.
  symmetry in H2. apply Permutation_map_inv in H2 as (l & El & Hl). rewrite (aggregate_seen _ _ El). by rewrite Hl.
Qed.

Lemma compute_ext db db' a : received db' a = received db a -> compute_agent_inbox_stats db' a = compute_agent_inbox_stats db a.
Proof. unfold compute_agent_inbox_stats. by intros ->. Qed.

Lemma fold_recount db chunk : forall stats a,
  recount_agents db stats chunk !! a =
  if in_ids chunk a then match compute_agent_inbox_stats db a with Some s => Some s | None => stats !! a end else stats !! a.
Proof.
  induction chunk as [|b chunk IH]; intros stats a; [done|]. unfold recount_agents in *.
  cbn [foldl in_ids existsb]. rewrite IH. fold (in_ids chunk a). destruct (Z.eqb_spec a b) as [->|Hne]; simpl.
  - destruct (compute_agent_inbox_stats db b) as [s|] eqn:E; [|by destruct (in_ids chunk b)].
    by destruct (in_ids chunk b); rewrite ?lookup_insert_eq.
  - destruct (compute_agent_inbox_stats db b) as [s|]; [|done].
    rewrite lookup_insert_ne; [done|congruence].
Qed.

Lemma rebuild_chunk_lookup db stats chunk a :
  rebuild_chunk db stats chunk !! a = if in_ids chunk a then compute_agent_inbox_stats db a else stats !! a.
Proof.
  unfold rebuild_chunk. rewrite fold_recount, lookup_delete_where.
  destruct (in_ids chunk a), (compute_agent_inbox_stats db a), (stats !! a); done.
Qed.

Lemma fold_rebuild_chunk db cs : forall stats a,
  foldl (rebuild_chunk db) stats cs !! a = if in_ids (List.concat cs) a then compute_agent_inbox_stats db a else stats !! a.
Proof.
  induction cs as [|c cs IH]; intros stats a; [done|]. cbn [foldl List.concat]. rewrite IH, rebuild_chunk_lookup.
  unfold in_ids. rewrite existsb_app. destruct (existsb (Z.eqb a) c), (existsb (Z.eqb a) (List.concat cs)); done.
Qed.

Lemma chunks_fuel_concat {A} k fuel : forall l : list A, (0 < k)%nat -> (length l <= fuel)%nat -> List.concat (chunks_fuel fuel k l) = l.
Proof.
  induction fuel as [|fuel IH]; intros [|x l] Hk Hl; simpl in Hl; try done; [lia|]. cbn [chunks_fuel List.concat].
  rewrite IH; [by rewrite take_drop|done|]. rewrite length_drop. cbn [length]. lia.
Qed.
Lemma chunks_concat {A} k (l : list A) : (0 < k)%nat -> List.concat (chunks k l) = l.
Proof. intros Hk. by apply chunks_fuel_concat. Qed.

(** A rebuild recounts exactly the agents it is given. *)
Lemma rebuild_lookup ids db a :
  inbox_stats (rebuild_agents_inbox_stats ids db) !! a =
  if in_ids ids a then compute_agent_inbox_stats db a else inbox_stats db !! a.
Proof.
  unfold rebuild_agents_inbox_stats. cbn [inbox_stats set_stats]. rewrite fold_rebuild_chunk.
  rewrite chunks_concat by (unfold MAX_IN_CLAUSE_ITEMS; lia).
  assert (in_ids (remove_dups (merge_sort Z.le ids)) a = in_ids ids a) as ->; [|done].
  apply eq_true_iff_eq. rewrite !in_ids_spec, elem_of_remove_dups. by rewrite merge_sort_Permutation.
Qed.

Definition stats_exact (db : MessageDb) : Prop := forall a, inbox_stats db !! a = compute_agent_inbox_stats db a.

(** It is enough to rebuild the agents whose counts may be wrong. *)
Lemma rebuild_exact ids db :
  (forall a, a ∉ ids -> inbox_stats db !! a = compute_agent_inbox_stats db a) -> stats_exact (rebuild_agents_inbox_stats ids db).
Proof.
  intros Hrest a. rewrite rebuild_lookup. destruct (in_ids ids a) eqn:E; [done|].
  apply in_ids_false in E. by rewrite Hrest.
Qed.

Lemma compute_set_stats t db a : compute_agent_inbox_stats (set_stats t db) a = compute_agent_inbox_stats db a.
Proof. done. Qed.

Lemma received_nothing db a : (forall id, recipients db !! (id, a) = None) -> compute_agent_inbox_stats db a = None.
Proof.
  intros Hn. unfold compute_agent_inbox_stats. assert (received db a = ∅) as ->; [|by rewrite map_to_list_empty].
  apply map_eq. intros id. rewrite lookup_received, lookup_empty, Hn. by destruct (messages db !! id).
Qed.

Lemma rebuild_all_exact db : stats_exact (rebuild_all_inbox_stats db).
Proof.
  intros a. unfold rebuild_all_inbox_stats. rewrite compute_set_stats. cbn [inbox_stats set_stats]. rewrite fold_recount.
  destruct (in_ids _ a) eqn:E; [by destruct (compute_agent_inbox_stats db a)|].
  rewrite lookup_empty. symmetry. apply received_nothing. intros id. apply in_ids_false in E.
  destruct (recipients db !! (id, a)) as [r|] eqn:Er; [|done].
  destruct E. apply elem_of_remove_dups, list_elem_of_fmap. exists ((id, a), r).
  split; [done|]. by apply elem_of_map_to_list.
Qed.

(** One message more counts as one unread row more. *)
Lemma aggregate_add m r rows s :
  aggregate rows = Some s -> rc_read r = None -> rc_ack r = None -> mg_ack_required m = 0 \/ mg_ack_required m = 1 ->
  aggregate ((m, r) :: rows) = Some (add_new_message (mg_ack_required m) (mg_created m) s).
Proof.
  destruct rows as [|x rows]; [done|]. intros Hs Hr Ha Hm. injection Hs as <-. unfold aggregate, add_new_message.
  cbn [total_count unread_count ack_pending_count last_message_ts]. f_equal. f_equal.
  - simpl. lia.
  - rewrite count_where_cons. unfold unread at 1. cbn. rewrite bool_decide_eq_true_2 by done. lia.
  - rewrite count_where_cons. unfold ack_pending at 1. cbn. rewrite (bool_decide_eq_true_2 (rc_ack r = None)) by done.
    destruct Hm as [-> | ->]; simpl; lia.
  - cbn. f_equal. destruct (sql_max _); lia.
Qed.

Lemma received_insert db a id m r :
  messages db !! id = Some m -> recipients db !! (id, a) = None ->
  received (set_recipients (<[(id, a) := r]> (recipients db)) db) a = <[id := (m, r)]> (received db a) /\
  received db a !! id = None.
Proof.
  intros Hm Hr. split; [|rewrite lookup_received; by rewrite Hm, Hr].
  apply map_eq. intros id'. rewrite lookup_received. cbn.
  destruct (decide (id' = id)) as [->|Hne].
  - by rewrite Hm, !lookup_insert_eq.
  - rewrite (lookup_insert_ne (received db a)), lookup_received by done.
    rewrite (lookup_insert_ne (recipients db)) by congruence. done.
Qed.

(** ** A send *)

(** The tables a step on recipients leaves alone. *)
Definition same_mail (db db' : MessageDb) : Prop :=
  messages db' = messages db /\ shared db' = shared db /\ receipts db' = receipts db /\
  message_seq db' = message_seq db /\ insert_trigger db' = insert_trigger db.

Lemma same_mail_refl db : same_mail db db.
Proof. by unfold same_mail. Qed.

Lemma same_mail_trans a b c : same_mail a b -> same_mail b c -> same_mail a c.
Proof. unfold same_mail. intros (?&?&?&?&?) (?&?&?&?&?). repeat split; congruence. Qed.

Lemma trg_events_same a id kind db :
  same_mail db (trg_inbox_delivery_events a id kind db) /\
  recipients (trg_inbox_delivery_events a id kind db) = recipients db /\
  inbox_stats (trg_inbox_delivery_events a id kind db) = inbox_stats db.
Proof.
  unfold trg_inbox_delivery_events, next_event, same_mail.
  destruct (messages db !! id); [|done]. by destruct (_ || _).
Qed.

Lemma trg_stats_same a id db :
  same_mail db (trg_inbox_stats_insert a id db) /\
  recipients (trg_inbox_stats_insert a id db) = recipients db /\
  (forall b, b <> a -> inbox_stats (trg_inbox_stats_insert a id db) !! b = inbox_stats db !! b).
Proof.
  unfold trg_inbox_stats_insert, insert_or_ignore. destruct (inbox_stats db !! a); (split_and!; [done..|]);
    intros b Hb; cbn [inbox_stats set_stats]; rewrite lookup_alter_ne by congruence; [done|].
  by rewrite lookup_insert_ne by congruence.
Qed.

Lemma insert_recipient_spec id a kind db :
  let db' := (insert_recipient id a kind db).2 in
  let inserted := (insert_recipient id a kind db).1 in
  same_mail db db' /\ inserted = bool_decide (recipients db !! (id, a) = None) /\
  recipients db' = (if inserted then <[(id, a) := mkRecipient kind None None]> (recipients db) else recipients db) /\
  (forall b, b <> a \/ inserted = false \/ insert_trigger db = false -> inbox_stats db' !! b = inbox_stats db !! b).
Proof.
  unfold insert_recipient, insert_or_ignore. destruct (recipients db !! (id, a)) as [r|] eqn:Er; cbn [fst snd].
  { by split_and!. }
  set (db1 := set_recipients _ db). change (insert_trigger db) with (insert_trigger db1). destruct (insert_trigger db1) eqn:Et.
  - destruct (trg_stats_same a id db1) as (S1 & R1 & I1). destruct (trg_events_same a id kind (trg_inbox_stats_insert a id db1)) as (S2 & R2 & I2).
    split_and!; [eapply same_mail_trans; [exact S1|exact S2]|done|exact (eq_trans R2 R1)|].
    intros b Hb. rewrite I2, I1; [done|]. naive_solver.
  - destruct (trg_events_same a id kind db1) as (S2 & R2 & I2). split_and!; [exact S2|done|exact R2|]. intros b _. by rewrite I2.
Qed.

(** The slot an agent was first named in. *)
Definition first_kind (rs : list (Z * ustr)) (a : Z) : option ustr := snd <$> List.find (fun r => r.1 =? a) rs.

Lemma first_kind_app rs a b kind :
  first_kind (rs ++ [(a, kind)]) b =
  match first_kind rs b with Some k => Some k | None => if a =? b then Some kind else None end.
Proof. unfold first_kind. induction rs as [|[c k] rs IH]; simpl; [by destruct (a =? b)|]. by destruct (c =? b). Qed.

Lemma first_kind_None rs a : first_kind rs a = None <-> a ∉ rs.*1.
Proof.
  unfold first_kind. induction rs as [|[c k] rs IH]; simpl; [by split; [intros _ ?%elem_of_nil|]|].
  rewrite elem_of_cons. destruct (Z.eqb_spec c a) as [-> | Hne]; [by split; [|tauto]|]. rewrite IH. naive_solver.
Qed.

(** The loop over recipients, from [db0], after the first [rs]. *)
Record inserting (db0 : MessageDb) (id : Z) (rs : list (Z * ustr)) (st : list Z * list Z * MessageDb) : Prop := {
  in_same : same_mail db0 st.2;
  in_nodup : NoDup st.1.1;
  in_named a : a ∈ st.1.1 <-> a ∈ rs.*1;
  in_rows k : recipients st.2 !! k =
    match (if k.1 =? id then first_kind rs k.2 else None) with
    | Some kind => Some (mkRecipient kind None None)
    | None => recipients db0 !! k
    end;
  in_stats a : a ∉ st.1.1 \/ insert_trigger db0 = false -> inbox_stats st.2 !! a = inbox_stats db0 !! a;
}.

Lemma insert_step db0 id rs ds rc db a kind :
  (forall a, recipients db0 !! (id, a) = None) -> inserting db0 id rs (ds, rc, db) ->
  inserting db0 id (rs ++ [(a, kind)])
    (let '(b, db') := insert_recipient id a kind db in if b then (ds ++ [a], rc, db') else (ds, rc ++ [a], db')).
Proof.
  intros Hnew [Hs Hn Hin Hrow Hi]. cbn [fst snd] in *.
  destruct (insert_recipient_spec id a kind db) as (S1 & Hb & R1 & I1).
  destruct (insert_recipient id a kind db) as [b db']. cbn [fst snd] in *.
  assert (insert_trigger db = insert_trigger db0) as Ht by apply Hs.
  assert (recipients db !! (id, a) = (fun k => mkRecipient k None None) <$> first_kind rs a) as Ha.
  { rewrite Hrow. cbn. rewrite Z.eqb_refl. destruct (first_kind rs a); simpl; [done|apply Hnew]. }
  rewrite Ha in Hb. destruct (first_kind rs a) as [k0|] eqn:Ek; cbn in Hb; subst b; cbn in R1.
  - assert (a ∈ rs.*1) as Hra by (apply dec_stable; rewrite <- first_kind_None; congruence).
    split; cbn [fst snd]; rewrite ?R1; [by eapply same_mail_trans|done| | |].
    + intros x. rewrite Hin, fmap_app, elem_of_app. change ([(a, kind)].*1) with [a]. rewrite list_elem_of_singleton.
      split; [tauto|]. by intros [?| ->].
    + intros k. rewrite Hrow, first_kind_app. destruct (k.1 =? id); [|done].
      destruct (first_kind rs k.2) eqn:E; [done|]. destruct (Z.eqb_spec a k.2); [congruence|done].
    + intros x Hx. rewrite I1 by tauto. by apply Hi.
  - apply first_kind_None in Ek as Hra. split; cbn [fst snd]; rewrite ?R1.
    + by eapply same_mail_trans.
    + apply NoDup_app. split_and!; [done| |apply NoDup_singleton]. intros x Hx ->%list_elem_of_singleton. by apply Hra, Hin.
    + intros x. by rewrite fmap_app, !elem_of_app, Hin.
    + intros k. rewrite first_kind_app. destruct (decide (k = (id, a))) as [-> | Hne]; cbn.
      * by rewrite lookup_insert_eq, !Z.eqb_refl, Ek.
      * rewrite lookup_insert_ne, Hrow by congruence. destruct k as [x y]. cbn in *. destruct (Z.eqb_spec x id) as [-> | ]; [|done].
        destruct (first_kind rs y); [done|]. destruct (Z.eqb_spec a y); [congruence|done].
    + intros x Hx. rewrite elem_of_app, list_elem_of_singleton in Hx. rewrite I1 by (rewrite Ht; tauto). apply Hi. tauto.
Qed.

Lemma insert_recipients_spec db0 id rs :
  (forall a, recipients db0 !! (id, a) = None) -> inserting db0 id rs (insert_recipients id rs db0).
Proof.
  intros Hnew. unfold insert_recipients.
  assert (forall done_ st, inserting db0 id done_ st ->
    inserting db0 id (done_ ++ rs) (foldl (fun '(delivered, recount, db) r =>
           let '(inserted, db) := insert_recipient id r.1 r.2 db in
           if inserted then (delivered ++ [r.1], recount, db) else (delivered, recount ++ [r.1], db)) st rs)) as H.
  { induction rs as [|[a kind] rs IH]; intros done_ [[ds rc] db] Hst; [by rewrite app_nil_r|]. cbn [foldl fst snd].
    replace (done_ ++ (a, kind) :: rs) with ((done_ ++ [(a, kind)]) ++ rs) by (by rewrite <- app_assoc).
    apply IH. by apply insert_step. }
  apply (H [] ([], [], db0)). split; cbn; try done.
  - by apply NoDup_nil.
  - intros k. by destruct (k.1 =? id).
Qed.

Lemma count_delivery_fold ack ts ds : forall rc stats, NoDup ds ->
  let st := foldl (count_delivery ack ts) (rc, stats) ds in
  (forall a, a ∈ rc \/ (a ∈ ds /\ stats !! a = None) -> a ∈ st.1) /\
  (forall a, st.2 !! a = if in_ids ds a then add_new_message ack ts <$> stats !! a else stats !! a).
Proof.
  induction ds as [|d ds IH]; intros rc stats Hn; cbn [foldl].
  { split; [intros a [?|[?%elem_of_nil _]]; done|done]. }
  apply NoDup_cons in Hn as [Hd Hn]. unfold count_delivery at 2 4.
  destruct (stats !! d) as [s|] eqn:Es.
  - destruct (IH rc (<[d := add_new_message ack ts s]> stats) Hn) as [H1 H2]. split.
    + intros a [Ha|[Ha%elem_of_cons Hsa]]; apply H1; [by left|]. right.
      destruct Ha as [-> | Ha]; [congruence|]. split; [done|]. rewrite lookup_insert_ne; [done|congruence].
    + intros a. rewrite H2. cbn [in_ids existsb]. fold (in_ids ds a). destruct (Z.eqb_spec a d) as [-> | Hne]; simpl.
      * rewrite (proj2 (in_ids_false ds d) Hd), lookup_insert_eq, Es. done.
      * rewrite lookup_insert_ne by congruence. done.
  - destruct (IH (rc ++ [d]) stats Hn) as [H1 H2]. split.
    + intros a Ha. apply H1. rewrite elem_of_app, list_elem_of_singleton. rewrite elem_of_cons in Ha. tauto.
    + intros a. rewrite H2. cbn [in_ids existsb]. fold (in_ids ds a). destruct (Z.eqb_spec a d) as [-> | Hne]; simpl; [|done].
      rewrite Es. by destruct (in_ids ds d).
Qed.

(** After a delivery to [ds], counting equals recounting. *)
Lemma add_new_message_exact db0 db id ds rc (row : MessageRow) :
  (forall a, inbox_stats db0 !! a = compute_agent_inbox_stats db0 a) ->
  NoDup ds -> mg_ack_required row = 0 \/ mg_ack_required row = 1 ->
  (forall a, a ∈ ds -> exists kind, received db a = <[id := (row, mkRecipient kind None None)]> (received db0 a) /\ received db0 a !! id = None) ->
  (forall a, a ∉ ds -> received db a = received db0 a) ->
  (forall a, a ∉ ds \/ insert_trigger db = false -> inbox_stats db !! a = inbox_stats db0 !! a) ->
  forall ack ts, bool_int ack = mg_ack_required row -> ts = mg_created row ->
  stats_exact (add_new_message_to_inbox_stats ds rc ack ts db).
Proof.
  intros H0 Hn Hack Hds Hnot Hst ack ts Ha ->.
  assert (forall a, a ∉ ds -> inbox_stats db !! a = compute_agent_inbox_stats db a) as Hout.
  { intros a Hna. rewrite Hst by tauto. rewrite H0. symmetry. by apply compute_ext, Hnot. }
  destruct ds as [|d ds']; [by apply rebuild_exact; intros a _; apply Hout, not_elem_of_nil|].
  set (ds := d :: ds') in *. unfold add_new_message_to_inbox_stats. fold ds. cbn [ds]. fold ds.
  destruct (insert_trigger db) eqn:Et.
  { apply rebuild_exact. intros a Hna. apply Hout. rewrite elem_of_app in Hna. tauto. }
  destruct (count_delivery_fold (bool_int ack) (mg_created row) ds rc (inbox_stats db) Hn) as [H1 H2].
  destruct (foldl _ _ ds) as [rc' stats']. cbn [fst snd] in *.
  apply rebuild_exact. intros a Hna. rewrite compute_set_stats. cbn [inbox_stats set_stats]. rewrite H2.
  destruct (in_ids ds a) eqn:Ein; [|by apply Hout, in_ids_false].
  apply in_ids_spec in Ein. destruct (Hds a Ein) as (kind & Hr & Hfresh).
  assert (inbox_stats db !! a = compute_agent_inbox_stats db0 a) as Hs by (rewrite Hst by tauto; apply H0).
  destruct (inbox_stats db !! a) as [s|] eqn:Es; [|destruct Hna; apply H1; by right].
  simpl. unfold compute_agent_inbox_stats. rewrite Hr, map_to_list_insert by done. cbn [fmap list_fmap snd].
  rewrite Ha. symmetry. by apply aggregate_add.
Qed.

(** ** What every transaction keeps *)

(** An acknowledgement implies a read. *)
Definition ack_read (read ack : option Z) : Prop := is_Some ack -> is_Some read.

Record mail_ok (db : MessageDb) : Prop := {
  mo_stats : stats_exact db;
  mo_ids id m : messages db !! id = Some m -> mg_id m = id /\ exists s, message_seq db = Some s /\ id <= s;
  mo_known id a r : recipients db !! (id, a) = Some r -> is_Some (messages db !! id);
  mo_shared id d : shared db !! id = Some d -> is_Some (messages db !! id);
  mo_acked k r : recipients db !! k = Some r -> ack_read (rc_read r) (rc_ack r);
  mo_receipts k r : receipts db !! k = Some r -> ack_read (pr_read r) (pr_ack r) /\ is_Some (messages db !! k.1);
}.

Lemma empty_mail_ok : mail_ok empty_mail.
Proof. by split. Qed.

(** A transaction that changes counts only by recounting keeps the rest. *)
Lemma mail_ok_stats t db : mail_ok db -> stats_exact (set_stats t db) -> mail_ok (set_stats t db).
Proof. intros [? ? ? ? ? ?] H. by split. Qed.

Lemma rebuild_ok ids db : mail_ok (set_stats (inbox_stats (rebuild_agents_inbox_stats ids db)) db) ->
  mail_ok (rebuild_agents_inbox_stats ids db).
Proof. done. Qed.

Lemma max_id_ge db id m : messages db !! id = Some m -> id <= max_message_id db.
Proof.
  intros Hm. apply sql_max_default_ge, list_elem_of_fmap. exists (id, m). split; [done|]. by apply elem_of_map_to_list.
Qed.

(** An elected id is new, above everything that was ever elected. *)
Lemma elect_spec seed db id db' : elect_message_id seed db = Some (id, db') ->
  db' = set_message_seq (Some id) db /\ seed < id /\ 0 < id <= i64_max /\ max_message_id db < id /\
  (forall s, message_seq db = Some s -> s < id).
Proof.
  unfold elect_message_id. destruct (_ <? _) eqn:E; [done|]. intros [= <- <-]. breflect.
  split_and!; try done; try lia. intros s Hs. rewrite Hs. simpl. lia.
Qed.

Lemma deliver_shared_same q id now db :
  let db' := deliver_shared q id now db in
  messages db' = messages db /\ recipients db' = recipients db /\ inbox_stats db' = inbox_stats db /\
  receipts db' = receipts db /\ message_seq db' = message_seq db /\ insert_trigger db' = insert_trigger db /\
  (forall k, k <> id -> shared db' !! k = shared db !! k).
Proof.
  unfold deliver_shared, insert_project_event, next_event. destruct (nm_mailbox q); [|done].
  destruct (existsb _ _); cbn; (split_and!; [done..|]); intros k Hk; by rewrite lookup_insert_ne by done.
Qed.

(** What a committed send changed. *)
Record sent_as (seed now : Z) (q : NewMessage) (db : MessageDb) (row : MessageRow) (db' : MessageDb) : Prop := {
  st_row : exists e, row = new_row q (mg_id row) now e;
  st_new : seed < mg_id row /\ 0 < mg_id row <= i64_max /\ (forall s, message_seq db = Some s -> s < mg_id row);
  st_fresh : messages db !! mg_id row = None;
  st_seq : message_seq db' = Some (mg_id row);
  st_messages : messages db' = <[mg_id row := row]> (messages db);
  st_recipients k : recipients db' !! k =
    match (if k.1 =? mg_id row then first_kind (nm_recipients q) k.2 else None) with
    | Some kind => Some (mkRecipient kind None None)
    | None => recipients db !! k
    end;
  st_shared k : k <> mg_id row -> shared db' !! k = shared db !! k;
  st_receipts : receipts db' = receipts db;
  st_exact : stats_exact db';
}.

Lemma add_stats_same ds rc ack ts db :
  let db' := add_new_message_to_inbox_stats ds rc ack ts db in
  messages db' = messages db /\ recipients db' = recipients db /\ shared db' = shared db /\ receipts db' = receipts db /\
  message_seq db' = message_seq db /\ events db' = events db /\ event_seq db' = event_seq db.
Proof.
  unfold add_new_message_to_inbox_stats. destruct ds; [done|]. destruct (insert_trigger db); [done|].
  by destruct (foldl _ _ _).
Qed.

Lemma fresh_unknown db id : mail_ok db -> messages db !! id = None -> forall a, recipients db !! (id, a) = None.
Proof.
  intros Hok Hm a. destruct (recipients db !! (id, a)) as [r|] eqn:E; [|done].
  destruct (mo_known _ Hok id a r E) as [? ?]. congruence.
Qed.

(** Inserting a message nobody received yet changes no inbox. *)
Lemma received_new_message db a id m : (forall a, recipients db !! (id, a) = None) -> messages db !! id = None ->
  received (set_messages (<[id := m]> (messages db)) db) a = received db a.
Proof.
  intros Hr Hm. apply map_eq. intros k. rewrite !lookup_received. cbn.
  destruct (decide (k = id)) as [-> | Hne]; [by rewrite lookup_insert_eq, Hm, Hr|by rewrite lookup_insert_ne by done].
Qed.

Lemma create_message_sent adb slug_of live seed q now db row db' :
  mail_ok db -> create_message_tx adb slug_of live seed q now db = inr (row, db') -> sent_as seed now q db row db'.
Proof.
  intros Hok. unfold create_message_tx. destruct (ensure_agents_active _ _ _); [done|].
  destruct (elect_message_id seed db) as [[id db1]|] eqn:Ee; [|done].
  apply elect_spec in Ee as (-> & Hseed & Hid & Hmax & Hseq).
  destruct (negb live); [done|]. destruct (bool_decide _); [done|].
  destruct (build_envelope _ _ q) as [|e]; [done|]. cbn [mbind result_bind messages set_message_seq].
  destruct (messages db !! id) eqn:Em; [done|].
  set (row0 := new_row q id now e). set (dbe := set_message_seq (Some id) db).
  set (db2 := set_messages _ dbe).
  pose proof (fresh_unknown _ _ Hok Em) as Hnone.
  pose proof (insert_recipients_spec db2 id (nm_recipients q) Hnone) as [Hs Hn Hin Hrow Hst].
  destruct (insert_recipients id (nm_recipients q) db2) as [[ds rc] db3]. cbn [fst snd] in *.
  destruct (deliver_shared_same q id now db3) as (D1 & D2 & D3 & D4 & D5 & D6 & D7).
  set (db4 := deliver_shared q id now db3) in *.
  destruct (add_stats_same ds rc (nm_ack q) now db4) as (A1 & A2 & A3 & A4 & A5 & _).
  intros [= <- <-]. destruct Hs as (S1 & S2 & S3 & S4 & S5). cbn [mg_id row0 new_row].
  assert (messages db4 = <[id := row0]> (messages db)) as Hmsgs by (rewrite D1, S1; done).
  split; cbn [mg_id row0 new_row]; [by eexists|done|done|by rewrite A5, D5, S4|by rewrite A1| | | |].
  - intros k. rewrite A2, D2. apply Hrow.
  - intros k Hk. by rewrite A3, D7, S2 by done.
  - by rewrite A4, D4, S3.
  - apply (add_new_message_exact db2 db4 id ds rc row0); try done.
    + intros a. rewrite (compute_ext db db2); [apply (mo_stats _ Hok)|]. apply (received_new_message dbe); [apply Hnone|done].
    + cbn. unfold bool_int. destruct (nm_ack q); auto.
    + intros a Ha. apply Hin in Ha. destruct (first_kind (nm_recipients q) a) as [kind|] eqn:Ek; [|by apply first_kind_None in Ek].
      exists kind. split; [|rewrite lookup_received; cbn; by rewrite lookup_insert_eq, Hnone].
      apply map_eq. intros k. rewrite lookup_received, D2, Hrow, Hmsgs. cbn [fst snd].
      destruct (Z.eqb_spec k id) as [-> | Hne].
      * by rewrite Ek, !lookup_insert_eq.
      * rewrite (lookup_insert_ne (received db2 a)), lookup_received by done. done.
    + intros a Ha. apply received_ext; [by rewrite Hmsgs|]. intros k. rewrite D2, Hrow. cbn [fst snd].
      destruct (k =? id); [|done]. rewrite (proj2 (first_kind_None _ _)); [done|]. by rewrite <- Hin.
    + intros a Ha. rewrite D3. apply Hst. destruct Ha as [Ha|Ha]; [by left|right]. by rewrite <- S5, <- D6.
Qed.

Lemma sent_ok seed now q db row db' : mail_ok db -> sent_as seed now q db row db' -> mail_ok db'.
Proof.
  intros Hok [[e He] (_ & _ & Hseq) Hf Hs Hm Hr Hsh Hrc Hx].
  assert (forall k, is_Some (messages db !! k) -> is_Some (messages db' !! k)) as Hkeep.
  { intros k [m Hk]. rewrite Hm. destruct (decide (k = mg_id row)) as [-> | ?]; [by rewrite lookup_insert_eq|].
    rewrite lookup_insert_ne by done. eauto. }
  split; [done| | | | |].
  - intros id m. rewrite Hm, Hs. destruct (decide (id = mg_id row)) as [-> | Hne].
    + rewrite lookup_insert_eq. intros [= <-]. split; [done|]. exists (mg_id row). split; [done|lia].
    + rewrite lookup_insert_ne by done. intros Hid. destruct (mo_ids _ Hok id m Hid) as (? & s & Hs' & ?).
      split; [done|]. exists (mg_id row). split; [done|]. specialize (Hseq s Hs'). lia.
  - intros id a r. rewrite Hr. cbn. destruct (Z.eqb_spec id (mg_id row)) as [-> | Hne].
    + intros _. rewrite Hm, lookup_insert_eq. eauto.
    + intros H. by eapply Hkeep, mo_known.
  - intros id d Hd. destruct (decide (id = mg_id row)) as [-> | Hne]; [rewrite Hm, lookup_insert_eq; eauto|].
    rewrite Hsh in Hd by done. by eapply Hkeep, mo_shared.
  - intros k r. rewrite Hr. destruct (if k.1 =? mg_id row then _ else None); [|by apply mo_acked].
    intros [= <-]. by intros [? ?].
  - intros k r. rewrite Hrc. intros H. destruct (mo_receipts _ Hok k r H). split; [done|]. by apply Hkeep.
Qed.

(** *** Reading and acknowledging *)

Lemma touch_idem up now r : touch_recipient up now (touch_recipient up now r) = touch_recipient up now r.
Proof. by destruct r as [k [|] [|]], up. Qed.

Lemma touch_chunks up agent now cs : forall db,
  foldl (fun db c => touch_recipients up agent now c db) db cs = touch_recipients up agent now (List.concat cs) db.
Proof.
  induction cs as [|c cs IH]; intros db; cbn [foldl List.concat].
  - transitivity (set_recipients (recipients db) db); [by destruct db|]. unfold touch_recipients. f_equal. apply map_eq. intros k.
    rewrite lookup_update_where. destruct (recipients db !! k); cbn; [by rewrite andb_false_r|done].
  - rewrite IH. unfold touch_recipients, set_recipients. cbn. f_equal. apply map_eq. intros k.
    rewrite !lookup_update_where. destruct (recipients db !! k) as [r|]; [|done]. cbn. f_equal.
    unfold in_ids. rewrite existsb_app. destruct (k.2 =? agent); [|done]. cbn.
    destruct (existsb _ c), (existsb _ (List.concat cs)); cbn; rewrite ?touch_idem; done.
Qed.

Lemma read_unread_chunks agent now cs : forall db,
  foldl (read_unread agent now) db cs = read_unread agent now db (List.concat cs).
Proof.
  induction cs as [|c cs IH]; intros db; cbn [foldl List.concat].
  - transitivity (set_recipients (recipients db) db); [by destruct db|]. unfold read_unread. f_equal. apply map_eq. intros k.
    rewrite lookup_update_where. destruct (recipients db !! k); cbn; [by rewrite andb_false_r|done].
  - rewrite IH. unfold read_unread, set_recipients. cbn. f_equal. apply map_eq. intros k.
    rewrite !lookup_update_where. destruct (recipients db !! k) as [r|]; [|done]. cbn. f_equal.
    unfold in_ids. rewrite existsb_app. destruct (k.2 =? agent); [|done]. cbn.
    destruct r as [kind [|] ack]; cbn; [done|].
    by destruct (existsb _ c) eqn:?, (existsb _ (List.concat cs)) eqn:?.
Qed.

(** Receipts of one agent may change, if no acknowledgement is left unread. *)
Lemma touched_ok agent t db :
  mail_ok db -> (forall k, k.2 <> agent -> t !! k = recipients db !! k) ->
  (forall k r, t !! k = Some r -> ack_read (rc_read r) (rc_ack r) /\ is_Some (recipients db !! k)) ->
  mail_ok (rebuild_agents_inbox_stats [agent] (set_recipients t db)).
Proof.
  intros Hok Hother Hrow. split; cbn.
  - apply rebuild_exact. intros a Ha%not_elem_of_cons. cbn. rewrite (compute_ext db); [apply (mo_stats _ Hok)|].
    apply received_ext; [done|]. intros id. apply Hother. tauto.
  - apply (mo_ids _ Hok).
  - intros id a r Hr. destruct (Hrow _ _ Hr) as [_ [r' Hr']]. by eapply mo_known.
  - apply (mo_shared _ Hok).
  - intros k r Hr. exact (proj1 (Hrow k r Hr)).
  - apply (mo_receipts _ Hok).
Qed.

Lemma touch_acked up now r : ack_read (rc_read r) (rc_ack r) -> ack_read (rc_read (touch_recipient up now r)) (rc_ack (touch_recipient up now r)).
Proof. destruct up; cbn; unfold ack_read, coalesce; eauto. Qed.

Lemma touch_recipients_ok up agent now ids db :
  mail_ok db -> mail_ok (rebuild_agents_inbox_stats [agent] (touch_recipients up agent now ids db)).
Proof.
  intros Hok. unfold touch_recipients. apply touched_ok; [done| |].
  - intros k Hk. rewrite lookup_update_where. rewrite (proj2 (Z.eqb_neq _ _) Hk). by destruct (recipients db !! k).
  - intros k r. rewrite lookup_update_where. destruct (recipients db !! k) as [r0|] eqn:E; [|done]. intros [= <-].
    split; [|eauto]. pose proof (mo_acked _ Hok k r0 E). destruct (_ && _); [by apply touch_acked|done].
Qed.

Lemma read_unread_ok agent now ids db :
  mail_ok db -> mail_ok (rebuild_agents_inbox_stats [agent] (read_unread agent now db ids)).
Proof.
  intros Hok. unfold read_unread. apply touched_ok; [done| |].
  - intros k Hk. rewrite lookup_update_where. rewrite (proj2 (Z.eqb_neq _ _) Hk). by destruct (recipients db !! k).
  - intros k r. rewrite lookup_update_where. destruct (recipients db !! k) as [r0|] eqn:E; [|done]. intros [= <-].
    split; [|eauto]. pose proof (mo_acked _ Hok k r0 E). destruct (_ && _); [|done]. intros _. cbn. eauto.
Qed.

Lemma set_receipts_ok t db :
  mail_ok db -> (forall k r, t !! k = Some r -> ack_read (pr_read r) (pr_ack r) /\ is_Some (messages db !! k.1)) ->
  mail_ok (set_receipts t db).
Proof. intros [? ? ? ? ? ?] Ht. by split. Qed.

Lemma write_receipt_lookup up id agent now db k :
  receipts (write_receipt up id agent now db) !! k =
  if bool_decide (k = (id, agent))
  then Some (touch_receipt up now (default (mkReceipt None None) (receipts db !! (id, agent))))
  else receipts db !! k.
Proof.
  unfold write_receipt. cbn [receipts set_receipts]. rewrite lookup_update_where. unfold insert_or_ignore.
  case_bool_decide as Hk; [subst k|]; destruct (receipts db !! (id, agent)) as [r|] eqn:E; cbn; rewrite ?E, ?lookup_insert_eq; try done.
  - by destruct (receipts db !! k).
  - rewrite lookup_insert_ne by congruence. by destruct (receipts db !! k).
Qed.

Lemma write_receipt_ok up id agent now db : mail_ok db -> is_Some (messages db !! id) -> mail_ok (write_receipt up id agent now db).
Proof.
  intros Hok Hid. unfold write_receipt. apply set_receipts_ok; [done|]. intros k r Hr.
  pose proof (write_receipt_lookup up id agent now db k) as Hl. unfold write_receipt in Hl. cbn [receipts set_receipts] in Hl.
  rewrite Hl in Hr. case_bool_decide as Hk; [|by apply (mo_receipts _ Hok)]. subst k. injection Hr as <-. split; [|done].
  destruct (receipts db !! (id, agent)) as [r|] eqn:E; cbn.
  - destruct (mo_receipts _ Hok _ _ E) as [Ha _]. destruct up; cbn; unfold ack_read, coalesce; eauto.
  - destruct up; cbn; unfold ack_read, coalesce; eauto.
Qed.

Lemma visible_receipt_known adb db agent id mr : visible_receipt adb db agent id = Some mr -> is_Some (messages db !! id).
Proof.
  unfold visible_receipt. intros H. destruct (shared db !! id); [|done]. simpl in H. by destruct (messages db !! id).
Qed.

Lemma record_receipt_ok adb agent id up now db r db' : mail_ok db ->
  record_project_mailbox_receipt adb agent id up now db = inr (Some (r, db')) ->
  mail_ok db' /\ db' = write_receipt up id agent now db /\ is_Some (visible_receipt adb db agent id) /\
  r = touch_receipt up now (default (mkReceipt None None) (receipts db !! (id, agent))).
Proof.
  intros Hok. unfold record_project_mailbox_receipt. destruct (visible_receipt adb db agent id) as [mr|] eqn:Ev; [|done].
  rewrite write_receipt_lookup, bool_decide_eq_true_2 by done. intros [= <- <-].
  split_and!; try done. apply write_receipt_ok; [done|]. by eapply visible_receipt_known.
Qed.

(** Moving a message to a thread. *)
Lemma rethreaded_ok f id db : (forall m, mg_id (f m) = mg_id m /\ mg_created (f m) = mg_created m /\ mg_ack_required (f m) = mg_ack_required m) ->
  mail_ok db -> mail_ok (set_messages (alter f id (messages db)) db).
Proof.
  intros Hf [H1 H2 H3 H4 H5 H6]. assert (forall k, is_Some (messages db !! k) -> is_Some (alter f id (messages db) !! k)) as Hk.
  { intros k [m Hm]. destruct (decide (k = id)) as [->|Hne]; [rewrite lookup_alter_eq|rewrite lookup_alter_ne by congruence]; rewrite Hm; by eexists. }
  split; cbn; eauto.
  - intros a. cbn [inbox_stats set_messages]. rewrite H1. symmetry. apply compute_seen. apply map_eq. intros k.
    rewrite !lookup_fmap, !lookup_received. cbn. destruct (decide (k = id)) as [->|Hne];
      [rewrite lookup_alter_eq|rewrite lookup_alter_ne by congruence; done].
    destruct (messages db !! id) as [m|]; [|done]. cbn. destruct (recipients db !! (id, a)) as [r|]; [|done]. cbn.
    unfold seen_by_counts. cbn. destruct (Hf m) as (_ & -> & ->). done.
  - intros k m. destruct (decide (k = id)) as [->|Hne]; [rewrite lookup_alter_eq|rewrite lookup_alter_ne by congruence; apply H2].
    destruct (messages db !! id) as [m0|] eqn:E; [|done]. intros [= <-]. destruct (Hf m0) as (-> & _). by apply H2.
  - intros k r Hr. destruct (H6 k r Hr). split; [done|]. by apply Hk.
Qed.

Lemma thread_ok id target db : mail_ok db -> mail_ok (committed (update_message_thread_id id target db) db).
Proof.
  intros Hok. unfold update_message_thread_id. destruct (is_empty (trim target)); [done|]. destruct (messages db !! id); [|done].
  case_bool_decide; [done|]. by apply rethreaded_ok.
Qed.

Lemma mark_read_ok adb agent id now db : mail_ok db -> mail_ok (committed (mark_message_read adb agent id now db) db).
Proof.
  intros Hok. unfold mark_message_read. pose proof (touch_recipients_ok Read agent now [id] db Hok) as H1.
  set (db1 := rebuild_agents_inbox_stats _ _) in *. destruct (recipients db1 !! (id, agent)) as [r|]; [by destruct (rc_read r)|].
  destruct (record_project_mailbox_receipt _ _ _ _ _ _) as [|[[[[ts|] ack] db2]|]] eqn:E; cbn; try done.
  by apply record_receipt_ok in E as [? _].
Qed.

Lemma ack_ok adb agent id now db : mail_ok db -> mail_ok (committed (acknowledge_message_tx adb agent id now db) db).
Proof.
  intros Hok. unfold acknowledge_message_tx. pose proof (touch_recipients_ok Acknowledge agent now [id] db Hok) as H1.
  set (db1 := rebuild_agents_inbox_stats _ _) in *.
  destruct (recipients db1 !! (id, agent)) as [r|]; [by destruct (rc_read r), (rc_ack r)|].
  destruct (record_project_mailbox_receipt _ _ _ _ _ _) as [|[[[[ts|] [ack|]] db2]|]] eqn:E; cbn; try done.
  by apply record_receipt_ok in E as [? _].
Qed.

Lemma read_batch_ok agent ids now db : mail_ok db -> mail_ok (mark_messages_read_batch agent ids now db).
Proof.
  intros Hok. unfold mark_messages_read_batch. destruct ids; [done|]. rewrite touch_chunks. by apply touch_recipients_ok.
Qed.

Lemma ack_batch_ok agent ids now db : mail_ok db -> mail_ok (acknowledge_messages_batch agent ids now db).2.
Proof.
  intros Hok. unfold acknowledge_messages_batch. destruct ids; [done|]. rewrite touch_chunks. by apply touch_recipients_ok.
Qed.

Lemma write_receipts_ok (ids : list Z) agent now : forall db, mail_ok db -> (forall id, id ∈ ids -> is_Some (messages db !! id)) ->
  mail_ok (foldl (fun db id => write_receipt Read id agent now db) db ids).
Proof.
  induction ids as [|id ids IH]; intros db Hok Hids; cbn [foldl]; [done|].
  apply IH; [apply write_receipt_ok; [done|apply Hids; by left]|]. intros k Hk. apply Hids. by right.
Qed.

(** Reading nothing recounts nothing, and there is nothing to recount. *)
Lemma read_unread_nil agent now db : read_unread agent now db [] = db.
Proof.
  transitivity (set_recipients (recipients db) db); [|by destruct db]. unfold read_unread. f_equal. apply map_eq. intros k.
  rewrite lookup_update_where. destruct (recipients db !! k); cbn; [by rewrite andb_false_r|done].
Qed.

Lemma rebuild_sync agent db : rebuild_agent_inbox_stats_sync agent db = rebuild_agents_inbox_stats [agent] db.
Proof.
  assert (inbox_stats (rebuild_agent_inbox_stats_sync agent db) = inbox_stats (rebuild_agents_inbox_stats [agent] db)) as H.
  { apply map_eq. intros a. rewrite rebuild_lookup. unfold rebuild_agent_inbox_stats_sync, in_ids. cbn [inbox_stats set_stats existsb].
    rewrite orb_false_r. destruct (Z.eqb_spec a agent) as [->|Hne].
    - destruct (compute_agent_inbox_stats db agent); [apply lookup_insert_eq|apply lookup_delete_eq].
    - destruct (compute_agent_inbox_stats db agent); rewrite ?lookup_insert_ne, lookup_delete_ne by congruence; done. }
  unfold rebuild_agent_inbox_stats_sync, rebuild_agents_inbox_stats in *. cbn [inbox_stats set_stats] in H. by rewrite H.
Qed.

Lemma read_chunks_ok agent now ids db : mail_ok db ->
  let db' := foldl (read_unread agent now) db (chunks MAX_IN_CLAUSE_ITEMS ids) in
  mail_ok (match ids with [] => db' | _ => rebuild_agents_inbox_stats [agent] db' end).
Proof.
  intros Hok. cbn zeta. rewrite read_unread_chunks, chunks_concat by (unfold MAX_IN_CLAUSE_ITEMS; lia).
  destruct ids; [by rewrite read_unread_nil|by apply read_unread_ok].
Qed.

Lemma read_sync_ok agent ids now db : mail_ok db -> mail_ok (committed (mark_messages_read_batch_sync agent ids now db) db).
Proof.
  intros Hok. unfold mark_messages_read_batch_sync. destruct ids as [|i ids]; [done|].
  set (updated := omap _ _). pose proof (read_chunks_ok agent now updated db Hok) as H1. cbn zeta in H1.
  rewrite rebuild_sync. destruct updated; case_bool_decide; done.
Qed.

(** The unread rows among the visible ones are of known messages. *)
Lemma unread_visible_known adb agent (unique : list Z) db :
  let observed := omap (fun id => (fun mr : MessageRow * option Receipt => (id, mr.2 ≫= pr_read, mr.2 ≫= pr_ack)) <$> visible_receipt adb db agent id) unique in
  forall id, id ∈ omap (fun '(id, read, _) => match read with None => Some id | Some _ => None end) observed -> is_Some (messages db !! id).
Proof.
  intros observed id Hid. apply list_elem_of_omap in Hid as ([[id' read] ack] & Hin & Hid). destruct read; [done|]. injection Hid as ->.
  apply list_elem_of_omap in Hin as (k & _ & Hk). destruct (visible_receipt adb db agent k) as [mr|] eqn:Ev; [|done].
  injection Hk as -> _ _. by eapply visible_receipt_known.
Qed.

Lemma read_shared_sync_ok adb agent ids now db :
  mail_ok db -> mail_ok (committed (mark_project_mailbox_read_batch_sync adb agent ids now db) db).
Proof.
  intros Hok. unfold mark_project_mailbox_read_batch_sync. destruct ids as [|i ids]; [done|].
  set (observed := omap _ (merge_sort Z.le _)). set (updated := omap _ _).
  assert (mail_ok (foldl (fun db id => write_receipt Read id agent now db) db updated)) as H1.
  { apply write_receipts_ok; [done|]. exact (unread_visible_known adb agent _ db). }
  destruct (_ || _); done.
Qed.
