(* ===== verification/BulkReadProps.v ===== *)
(** * Reading in bulk

    [mark_messages_read_bulk] of [db/src/queries.rs]: with a limit it reads the
    oldest unread messages of both lanes, and says truly whether more remain. *)

From S2P Require Import Prelude.
From S2P Require Import SqlTable.
From S2P Require Import RustStr.
From S2P Require Import Leases.
From S2P Require Import AgentRegistry.
From S2P Require Import AgentRegistryProps.
From S2P Require Import Messages.
From S2P Require Import MessagesProps.

#[export] Instance bulk_le_trans : Transitive bulk_le.
Proof. intros x y z. unfold bulk_le. lia. Qed.
#[export] Instance bulk_le_total : Total bulk_le.
Proof. intros x y. unfold bulk_le. lia. Qed.

Section bulk.
  Context (adb : AgentDb) (project agent : Z) (older_than : option Z).

(** Unread mail of the agent, direct or shared. *)
Definition direct_unread (db : MessageDb) (br : BulkReadReceipt) : Prop :=
  exists m r, messages db !! br_message br = Some m /\ recipients db !! (br_message br, agent) = Some r /\
    rc_read r = None /\ mg_project m = project /\ old_enough older_than m = true /\ br = mkBulk (br_message br) (rc_ack r) false.
Definition shared_unread (db : MessageDb) (br : BulkReadReceipt) : Prop :=
  exists d m r, shared db !! br_message br = Some d /\ visible_receipt adb db agent (br_message br) = Some (m, r) /\
    r ≫= pr_read = None /\ sd_project d = project /\ old_enough older_than m = true /\ br = mkBulk (br_message br) (r ≫= pr_ack) true.

Lemma elem_of_unread_direct db br : br ∈ unread_direct db project agent older_than <-> direct_unread db br.
Proof.
  unfold unread_direct. rewrite merge_sort_Permutation, list_elem_of_omap. split.
  - intros ([id m] & Hin & H). apply elem_of_map_to_list in Hin. cbn in H.
    destruct (recipients db !! (id, agent)) as [r|] eqn:Er; [|done]. cbn in H. destruct (_ && _) eqn:E; [|done].
    injection H as <-. breflect. exists m, r. by split_and!.
  - intros (m & r & Hm & Hr & Hread & Hp & Ho & Hbr). exists (br_message br, m). rewrite elem_of_map_to_list. split; [done|].
    cbn. rewrite Hr. cbn. by rewrite bool_decide_eq_true_2, Hp, Z.eqb_refl, Ho, <- Hbr by done.
Qed.

Lemma elem_of_unread_shared db br : br ∈ unread_shared adb db project agent older_than <-> shared_unread db br.
Proof.
  unfold unread_shared. rewrite merge_sort_Permutation, list_elem_of_omap. split.
  - intros ([id d] & Hin & H). apply elem_of_map_to_list in Hin. cbn in H.
    destruct (visible_receipt adb db agent id) as [[m r]|] eqn:Er; [|done]. cbn in H. destruct (_ && _) eqn:E; [|done].
    injection H as <-. breflect. exists d, m, r. by split_and!.
  - intros (d & m & r & Hd & Hr & Hread & Hp & Ho & Hbr). exists (br_message br, d). rewrite elem_of_map_to_list. split; [done|].
    cbn. rewrite Hr. cbn. by rewrite bool_decide_eq_true_2, Hp, Z.eqb_refl, Ho, <- Hbr by done.
Qed.

(** A direct delivery takes the place of a shared one. *)
Lemma visible_not_direct db id mr : visible_receipt adb db agent id = Some mr -> recipients db !! (id, agent) = None.
Proof.
  unfold visible_receipt. destruct (shared db !! id) as [d|]; [|done]. cbn. destruct (messages db !! id) as [m|]; [|done]. cbn.
  destruct (get_agent_by_id adb agent) as [v|] eqn:Ev; [|done]. cbn. destruct (visible_to_viewer _ _ _ _ _) eqn:E; [|done].
  intros _. apply get_by_id_Some in Ev as [_ <-]. unfold visible_to_viewer in E. by breflect.
Qed.

(** The agent's unread mail, oldest first. *)
Definition eligible (db : MessageDb) : list BulkReadReceipt :=
  merge_sort bulk_le (unread_direct db project agent older_than ++ unread_shared adb db project agent older_than).

Lemma elem_of_eligible db br : br ∈ eligible db <-> direct_unread db br \/ shared_unread db br.
Proof. unfold eligible. by rewrite merge_sort_Permutation, elem_of_app, elem_of_unread_direct, elem_of_unread_shared. Qed.

(** A message is eligible in one way only. *)
Lemma eligible_unique db x y : x ∈ eligible db -> y ∈ eligible db -> br_message x = br_message y -> x = y.
Proof.
  destruct x as [i ax sx], y as [j ay sy]. cbn [br_message]. intros Hx Hy <-. revert Hx Hy. rewrite !elem_of_eligible.
  intros [(m & r & Hm & Hr & _ & _ & _ & Hx)|(d & m & r & Hd & Hv & _ & _ & _ & Hx)]
    [(m' & r' & Hm' & Hr' & _ & _ & _ & Hy)|(d' & m' & r' & Hd' & Hv' & _ & _ & _ & Hy)]; cbn in *; simplify_eq; try done.
  - apply visible_not_direct in Hv'. congruence.
  - apply visible_not_direct in Hv. congruence.
Qed.

Lemma lanes_told_apart db :
  told_apart bulk_le (unread_direct db project agent older_than ++ unread_shared adb db project agent older_than).
Proof.
  intros x y Hx Hy H1 H2. apply (eligible_unique db); [unfold eligible; by rewrite merge_sort_Permutation..|].
  unfold bulk_le in *. lia.
Qed.

(** The two lanes, cut one past the limit, give the first eligible ones. *)
Lemma select_spec db limit :
  select_bulk_read_receipts adb db project agent older_than limit =
  (take limit (eligible db), (limit <? length (eligible db))%nat).
Proof.
  unfold select_bulk_read_receipts, eligible. set (a := unread_direct _ _ _ _). set (b := unread_shared _ _ _ _ _).
  assert (told_apart bulk_le (a ++ b)) as Ht by apply lanes_told_apart.
  assert (take (S limit) a = top bulk_le (S limit) a) as Ea.
  { apply take_sorted_top; [apply _..| |apply StronglySorted_merge_sort; apply _].
    eapply told_apart_sub, Ht. intros x Hx. apply elem_of_app. by left. }
  assert (take (S limit) b = top bulk_le (S limit) b) as Eb.
  { apply take_sorted_top; [apply _..| |apply StronglySorted_merge_sort; apply _].
    eapply told_apart_sub, Ht. intros x Hx. apply elem_of_app. by right. }
  rewrite Ea, Eb. apply pair_equal_spec. split.
  - change (top bulk_le limit (top bulk_le (S limit) a ++ top bulk_le (S limit) b) = top bulk_le limit (a ++ b)).
    rewrite <- (take_top bulk_le limit (S limit)) by lia. rewrite (top_app bulk_le (S limit) a b Ht). apply take_top. lia.
  - rewrite !merge_sort_Permutation, !length_app, !length_top. apply eq_true_iff_eq. rewrite !Nat.ltb_lt. lia.
Qed.

(** *** The tables after a bulk read *)

Definition direct_ids (sel : list BulkReadReceipt) : list Z := map br_message (List.filter (fun r => negb (br_shared r)) sel).
Definition shared_ids (sel : list BulkReadReceipt) : list Z := map br_message (List.filter br_shared sel).

Lemma write_receipts_lookup ids now : forall db k,
  receipts (foldl (fun db id => write_receipt Read id agent now db) db ids) !! k =
  if (k.2 =? agent) && in_ids ids k.1
  then Some (touch_receipt Read now (default (mkReceipt None None) (receipts db !! k))) else receipts db !! k.
Proof.
  induction ids as [|id ids IH]; intros db [i a]; cbn [foldl]; [cbn; by rewrite andb_false_r|]. rewrite IH, write_receipt_lookup.
  cbn [in_ids existsb fst snd]. fold (in_ids ids i).
  destruct (Z.eqb_spec a agent) as [-> | Ha]; cbn; [|rewrite bool_decide_eq_false_2 by congruence; done].
  destruct (Z.eqb_spec i id) as [-> | Hi]; cbn.
  - rewrite bool_decide_eq_true_2 by done. cbn. destruct (in_ids ids id); [|done].
    by destruct (receipts db !! (id, agent)) as [[[|] ?]|].
  - rewrite bool_decide_eq_false_2 by congruence. done.
Qed.

Lemma write_receipts_same ids now : forall db,
  let db' := foldl (fun db id => write_receipt Read id agent now db) db ids in
  set_receipts (receipts db') db = db'.
Proof.
  induction ids as [|id ids IH]; intros db; cbn zeta; cbn [foldl]; [by destruct db|].
  rewrite <- (IH (write_receipt Read id agent now db)) at 2. done.
Qed.

(** Reads of [sel] at [now]. *)
Definition after_bulk (now : Z) (sel : list BulkReadReceipt) (db db' : MessageDb) : Prop :=
  messages db' = messages db /\ shared db' = shared db /\
  (forall k, recipients db' !! k =
     (fun r => if (k.2 =? agent) && bool_decide (rc_read r = None) && in_ids (direct_ids sel) k.1
               then mkRecipient (rc_kind r) (Some now) (rc_ack r) else r) <$> recipients db !! k) /\
  (forall k, receipts db' !! k =
     if (k.2 =? agent) && in_ids (shared_ids sel) k.1
     then Some (touch_receipt Read now (default (mkReceipt None None) (receipts db !! k))) else receipts db !! k).

Definition bulk_tables (now : Z) (sel : list BulkReadReceipt) (db : MessageDb) : MessageDb :=
  let db := foldl (read_unread agent now) db (chunks MAX_IN_CLAUSE_ITEMS (direct_ids sel)) in
  let db := foldl (fun db r => write_receipt Read (br_message r) agent now db) db (List.filter br_shared sel) in
  match direct_ids sel with [] => db | _ => rebuild_agents_inbox_stats [agent] db end.

Lemma foldl_map_ids (l : list BulkReadReceipt) now : forall db,
  foldl (fun db r => write_receipt Read (br_message r) agent now db) db l =
  foldl (fun db id => write_receipt Read id agent now db) db (map br_message l).
Proof. induction l as [|r l IH]; intros db; [done|]. cbn [foldl map]. apply IH. Qed.

Lemma bulk_tables_after now sel db : after_bulk now sel db (bulk_tables now sel db).
Proof.
  unfold bulk_tables. rewrite read_unread_chunks, chunks_concat by (unfold MAX_IN_CLAUSE_ITEMS; lia). rewrite foldl_map_ids.
  fold (shared_ids sel). set (db1 := read_unread agent now db (direct_ids sel)).
  pose proof (write_receipts_lookup (shared_ids sel) now db1) as Hl.
  pose proof (write_receipts_same (shared_ids sel) now db1) as Hs. cbn zeta in Hs.
  set (db2 := foldl _ db1 (shared_ids sel)) in *.
  assert (after_bulk now sel db db2) as H2.
  { rewrite <- Hs. split_and!; [done|done| |done]. intros k. apply lookup_update_where. }
  destruct (direct_ids sel); [done|]. destruct H2 as (?&?&?&?). by split_and!.
Qed.

Lemma bulk_tables_ok now sel db : mail_ok db -> (forall id, id ∈ shared_ids sel -> is_Some (messages db !! id)) ->
  mail_ok (bulk_tables now sel db).
Proof.
  intros Hok Hids. unfold bulk_tables. rewrite foldl_map_ids. fold (shared_ids sel).
  pose proof (read_chunks_ok agent now (direct_ids sel) db Hok) as H1. cbn zeta in H1.
  rewrite read_unread_chunks, chunks_concat in * by (unfold MAX_IN_CLAUSE_ITEMS; lia).
  set (db1 := read_unread agent now db (direct_ids sel)) in *.
  pose proof (write_receipts_same (shared_ids sel) now db1) as Hs. cbn zeta in Hs.
  destruct (direct_ids sel) as [|i ids].
  - by apply write_receipts_ok.
  - assert (mail_ok (foldl (fun db id => write_receipt Read id agent now db) (rebuild_agents_inbox_stats [agent] db1) (shared_ids sel))) as H2
      by (by apply write_receipts_ok).
    pose proof (write_receipts_same (shared_ids sel) now (rebuild_agents_inbox_stats [agent] db1)) as Hs'. cbn zeta in Hs'.
    rewrite <- Hs. rewrite <- Hs' in H2.
    assert (receipts (foldl (fun db id => write_receipt Read id agent now db) (rebuild_agents_inbox_stats [agent] db1) (shared_ids sel)) =
            receipts (foldl (fun db id => write_receipt Read id agent now db) db1 (shared_ids sel))) as Heq.
    { apply map_eq. intros k. by rewrite !write_receipts_lookup. }
    rewrite Heq in H2. exact H2.
Qed.

Lemma direct_ids_spec sel id : in_ids (direct_ids sel) id = true <-> exists br, br ∈ sel /\ br_shared br = false /\ br_message br = id.
Proof.
  unfold direct_ids. rewrite in_ids_spec, list_elem_of_fmap. split.
  - intros (br & -> & [Hin Hs]%list_elem_of_In%filter_In). apply list_elem_of_In in Hin. apply negb_true_iff in Hs. by exists br.
  - intros (br & Hin & Hs & <-). exists br. split; [done|]. apply list_elem_of_In, filter_In. rewrite <- list_elem_of_In. by rewrite Hs.
Qed.
Lemma shared_ids_spec sel id : in_ids (shared_ids sel) id = true <-> exists br, br ∈ sel /\ br_shared br = true /\ br_message br = id.
Proof.
  unfold shared_ids. rewrite in_ids_spec, list_elem_of_fmap. split.
  - intros (br & -> & [Hin Hs]%list_elem_of_In%filter_In). apply list_elem_of_In in Hin. by exists br.
  - intros (br & Hin & Hs & <-). exists br. split; [done|]. apply list_elem_of_In, filter_In. by rewrite <- list_elem_of_In.
Qed.

Lemma visible_after now sel db db' id : after_bulk now sel db db' ->
  visible_receipt adb db' agent id = (fun mr => (mr.1, receipts db' !! (id, agent))) <$> visible_receipt adb db agent id.
Proof.
  intros (Hm & Hs & Hr & _). unfold visible_receipt. rewrite Hm, Hs.
  destruct (shared db !! id) as [d|]; [|done]. cbn. destruct (messages db !! id) as [m|]; [|done]. cbn.
  destruct (get_agent_by_id adb agent) as [v|]; [|done]. cbn.
  assert (visible_to_viewer db' id d m v = visible_to_viewer db id d m v) as ->; [|by destruct (visible_to_viewer _ _ _ _ _)].
  unfold visible_to_viewer. rewrite Hr. f_equal. apply bool_decide_ext. by destruct (recipients db !! (id, ar_id v)).
Qed.

Lemma visible_receipt_value db id m r : visible_receipt adb db agent id = Some (m, r) -> r = receipts db !! (id, agent).
Proof.
  unfold visible_receipt. intros H. destruct (shared db !! id); [|done]. cbn in H. destruct (messages db !! id); [|done]. cbn in H.
  destruct (get_agent_by_id adb agent); [|done]. cbn in H. by destruct (visible_to_viewer _ _ _ _ _); simplify_eq.
Qed.

Lemma eligible_after now n db db' : after_bulk now (take n (eligible db)) db db' ->
  forall x, x ∈ eligible db' <-> x ∈ eligible db /\ x ∉ take n (eligible db).
Proof.
  set (sel := take n (eligible db)). intros Ha x. pose proof (visible_after now sel db db' (br_message x) Ha) as Hv.
  destruct Ha as (Hm & Hs & Hr & Hc).
  assert (forall y, y ∈ sel -> y ∈ eligible db) as Hsel by (intros y Hy; by apply (subseteq_take n)).
  assert (x ∈ eligible db -> forall y, y ∈ sel -> br_message y = br_message x -> x ∈ sel) as Huniq.
  { intros Hx y Hy Heq. by rewrite (eligible_unique db x y Hx (Hsel y Hy) (eq_sym Heq)). }
  rewrite !elem_of_eligible. split.
  - intros [(m & r & Hm' & Hr' & Hread & Hp & Ho & Hx)|(d & m & r & Hd & Hv' & Hread & Hp & Ho & Hx)].
    + rewrite Hm in Hm'. rewrite Hr in Hr'. destruct (recipients db !! _) as [r0|] eqn:Er; [|done]. injection Hr' as Hr'. cbn in Hr'.
      rewrite Z.eqb_refl in Hr'. destruct (bool_decide (rc_read r0 = None)) eqn:E1; cbn in Hr'; [|apply bool_decide_eq_false in E1; congruence].
      destruct (in_ids (direct_ids sel) (br_message x)) eqn:E2; [by rewrite <- Hr' in Hread; cbn in Hread|]. subst r0. split; [left; by exists m, r|].
      intros Hin. apply not_true_iff_false in E2. apply E2, direct_ids_spec. exists x. split_and!; [done|by rewrite Hx|done].
    + rewrite Hs in Hd. rewrite Hv in Hv'. destruct (visible_receipt adb db agent _) as [[m0 r0]|] eqn:Er; [|done]. injection Hv' as -> <-.
      rewrite Hc in *. cbn in *. rewrite Z.eqb_refl in *. cbn in *.
      pose proof (visible_receipt_value _ _ _ _ Er) as H0. subst r0.
      destruct (in_ids (shared_ids sel) (br_message x)) eqn:E2; [done|]. split; [right; by exists d, m, (receipts db !! (br_message x, agent))|].
      intros Hin. apply not_true_iff_false in E2. apply E2, shared_ids_spec. exists x. split_and!; [done|by rewrite Hx|done].
  - intros [Hx Hnot]. pose proof (Huniq (proj2 (elem_of_eligible db x) Hx)) as Hu. destruct Hx as [Hx|Hx].
    + left. destruct Hx as (m & r & Hm' & Hr' & Hread & Hp & Ho & Hx). exists m, r. rewrite Hm, Hr, Hr'. cbn.
      rewrite Z.eqb_refl, bool_decide_eq_true_2 by done. cbn.
      destruct (in_ids (direct_ids sel) (br_message x)) eqn:E2; [|by split_and!].
      apply direct_ids_spec in E2 as (y & Hy & _ & Heq). destruct Hnot. by apply (Hu y).
    + right. destruct Hx as (d & m & r & Hd & Hv' & Hread & Hp & Ho & Hx). exists d, m, (receipts db' !! (br_message x, agent)).
      rewrite Hs, Hv, Hv'. cbn.
      pose proof (visible_receipt_value _ _ _ _ Hv') as H0. subst r.
      rewrite Hc. cbn. rewrite Z.eqb_refl. cbn. destruct (in_ids (shared_ids sel) (br_message x)) eqn:E2; [|by split_and!].
      apply shared_ids_spec in E2 as (y & Hy & _ & Heq). destruct Hnot. by apply (Hu y).
Qed.

Lemma lane_NoDup_direct db : NoDup (br_message <$> unread_direct db project agent older_than).
Proof.
  unfold unread_direct. rewrite merge_sort_Permutation. apply (NoDup_omap_key _ fst).
  - intros [id m] b. cbn. destruct (recipients db !! (id, agent)); [|done]. cbn. destruct (_ && _); [|done]. by intros [= <-].
  - apply NoDup_fst_map_to_list.
Qed.
Lemma lane_NoDup_shared db : NoDup (br_message <$> unread_shared adb db project agent older_than).
Proof.
  unfold unread_shared. rewrite merge_sort_Permutation. apply (NoDup_omap_key _ fst).
  - intros [id d] b. cbn. destruct (visible_receipt adb db agent id) as [[m r]|]; [|done]. cbn. destruct (_ && _); [|done]. by intros [= <-].
  - apply NoDup_fst_map_to_list.
Qed.

Lemma eligible_NoDup db : NoDup (eligible db).
Proof.
  unfold eligible. rewrite merge_sort_Permutation. apply NoDup_app. split_and!.
  - apply (NoDup_fmap_1 br_message), lane_NoDup_direct.
  - intros x Hx Hy. apply elem_of_unread_direct in Hx as (m & r & _ & _ & _ & _ & _ & Hx).
    apply elem_of_unread_shared in Hy as (d & m' & r' & _ & _ & _ & _ & _ & Hy). rewrite Hx in Hy. done.
  - apply (NoDup_fmap_1 br_message), lane_NoDup_shared.
Qed.

Lemma eligible_sorted db : StronglySorted bulk_le (eligible db).
Proof. apply StronglySorted_merge_sort; apply _. Qed.

(** What is left is what came after the first [n]. *)
Lemma eligible_drop now n db db' : after_bulk now (take n (eligible db)) db db' -> eligible db' = drop n (eligible db).
Proof.
  intros Ha. pose proof (eligible_after now n db db' Ha) as Hin.
  apply (sort_unique bulk_le); [apply lanes_told_apart| |].
  - rewrite <- (merge_sort_Permutation bulk_le (unread_direct db' _ _ _ ++ _)). fold (eligible db').
    pose proof (eligible_NoDup db) as Hn. rewrite <- (take_drop n (eligible db)) in Hn. apply NoDup_app in Hn as (_ & Hd & Hn2).
    apply NoDup_Permutation; [done|apply eligible_NoDup|]. intros x. rewrite Hin.
    rewrite <- (take_drop n (eligible db)) at 2. rewrite elem_of_app. split; [|tauto].
    intros Hx. split; [by right|]. intros Ht. by apply (Hd x Ht).
  - by destruct (sorted_take_drop bulk_le n (eligible db) (eligible_sorted db)) as (_ & ? & _).
Qed.

(** *** The check before the commit always passes *)

Lemma receipt_rows_sorted {R} (read ack : R -> option Z) t ids :
  NoDup ids -> StronglySorted Z.le ids ->
  receipt_rows read ack t agent ids = omap (fun id => (fun r => (id, read r, ack r)) <$> t !! (id, agent)) ids.
Proof.
  intros Hn Hs. unfold receipt_rows. f_equal. apply sort_unique; try apply _; [|..].
  - intros x y _ _ ? ?. lia.
  - apply NoDup_Permutation; [done|apply NoDup_remove_dups|]. intros x. by rewrite elem_of_remove_dups.
  - done.
Qed.

Lemma verify_chunk_true {R} (read ack : R -> option Z) (t : gmap (Z * Z) R) now (c : list BulkReadReceipt) :
  NoDup (map br_message c) -> StronglySorted bulk_le c ->
  (forall br, br ∈ c -> exists r, t !! (br_message br, agent) = Some r /\ read r = Some now /\ ack r = br_ack br) ->
  verify_chunk now (receipt_rows read ack t agent) c = true.
Proof.
  intros Hn Hs Hrows. unfold verify_chunk. rewrite receipt_rows_sorted; [|done|].
  2: { clear -Hs. induction Hs as [|x l Hs IH Hx]; cbn; constructor; [done|]. apply Forall_map. exact Hx. }
  assert (omap (fun id => (fun r => (id, read r, ack r)) <$> t !! (id, agent)) (map br_message c) =
          map (fun br => (br_message br, Some now, br_ack br)) c) as ->.
  { clear Hn Hs. induction c as [|br c IH]; [done|]. cbn. destruct (Hrows br) as (r & Hr & Hread & Hack); [by left|].
    rewrite Hr. cbn. rewrite Hread, Hack. f_equal. apply IH. intros b Hb. apply Hrows. by right. }
  rewrite length_map, Nat.eqb_refl. cbn. clear. induction c as [|br c IH]; [done|]. cbn. by rewrite bool_decide_eq_true_2.
Qed.

Lemma chunks_sublist {A} k (l : list A) c : (0 < k)%nat -> In c (chunks k l) -> sublist c l.
Proof.
  intros Hk. unfold chunks. generalize (length l) as fuel. intros fuel. revert l. induction fuel as [|fuel IH]; intros [|x l]; cbn [chunks_fuel]; try done.
  intros [<-|Hc]; [apply sublist_take|]. etransitivity; [by apply IH|apply sublist_drop].
Qed.

Lemma StronglySorted_sublist {A} (R : relation A) (l l' : list A) : sublist l l' -> StronglySorted R l' -> StronglySorted R l.
Proof.
  induction 1 as [|x l l' Hs IH|x l l' Hs IH]; [done|..]; intros [H1 H2]%StronglySorted_inv; [|by apply IH].
  constructor; [by apply IH|]. rewrite Forall_forall in *. intros y Hy. apply H2. by eapply sublist_subseteq.
Qed.

Lemma eligible_ids_NoDup db : NoDup (map br_message (eligible db)).
Proof. apply NoDup_fmap_2_strong; [|apply eligible_NoDup]. intros x y Hx Hy. by apply (eligible_unique db). Qed.

Lemma lane_chunk n db b c :
  In c (chunks MAX_IN_CLAUSE_ITEMS (List.filter (fun r => Bool.eqb (br_shared r) b) (take n (eligible db)))) ->
  NoDup (map br_message c) /\ StronglySorted bulk_le c /\ (forall br, br ∈ c -> br ∈ take n (eligible db) /\ br_shared br = b).
Proof.
  intros Hc. apply chunks_sublist in Hc; [|unfold MAX_IN_CLAUSE_ITEMS; lia].
  assert (sublist c (eligible db)) as Hsub.
  { etransitivity; [done|]. etransitivity; [|apply (sublist_take _ n)].
    generalize (take n (eligible db)). intros l. induction l as [|x l IH]; cbn; [constructor|]. destruct (Bool.eqb _ _); by constructor. }
  split_and!.
  - eapply sublist_NoDup; [apply (eligible_ids_NoDup db)|]. clear -Hsub. induction Hsub; cbn; by constructor.
  - eapply StronglySorted_sublist; [done|apply eligible_sorted].
  - intros br Hbr. eapply sublist_subseteq, list_elem_of_In, filter_In in Hc as [H1 H2]; [|exact Hbr].
    apply list_elem_of_In in H1. by apply eqb_prop in H2.
Qed.

Lemma verify_passes now n db db' : after_bulk now (take n (eligible db)) db db' ->
  verify_bulk_read_receipts agent now (take n (eligible db)) db' = true.
Proof.
  intros (_ & _ & Hr & Hc). unfold verify_bulk_read_receipts. apply andb_true_iff.
  split; apply forallb_forall; intros c (Hn & Hs & Hin)%lane_chunk; (apply verify_chunk_true; [done..|]); intros br Hbr;
    destruct (Hin br Hbr) as [Hsel Hb]; pose proof (proj1 (elem_of_eligible db br) (subseteq_take _ _ _ Hsel)) as [He|He];
    destruct He as (m & r & H); [|destruct H as (r' & H)| |destruct H as (r' & H)].
  - destruct H as (_ & Hrow & Hread & _ & _ & Hx). rewrite Hr, Hrow. cbn. rewrite Z.eqb_refl, bool_decide_eq_true_2 by done.
    rewrite (proj2 (direct_ids_spec _ _)) by (exists br; done). cbn. eexists. split; [done|]. cbn. by rewrite Hx.
  - exfalso. destruct H as (_ & _ & _ & _ & _ & Hx). by rewrite Hx in Hb.
  - exfalso. destruct H as (_ & _ & _ & _ & _ & Hx). by rewrite Hx in Hb.
  - destruct H as (_ & Hv & Hread & _ & _ & Hx). rewrite Hc. cbn. rewrite Z.eqb_refl.
    rewrite (proj2 (shared_ids_spec _ _)) by (exists br; done). cbn. eexists. split; [done|].
    rewrite (visible_receipt_value _ _ _ _ Hv) in *. rewrite Hx. cbn.
    destruct (receipts db !! _) as [[rd ak]|]; cbn in *; [by subst rd|done].
Qed.

Lemma selected_known n db id : id ∈ shared_ids (take n (eligible db)) -> is_Some (messages db !! id).
Proof.
  intros Hid. apply in_ids_spec, shared_ids_spec in Hid as (br & Hbr & Hs & <-).
  apply subseteq_take, elem_of_eligible in Hbr as [(m & r & _ & _ & _ & _ & _ & Hx)|(d & m & r & _ & Hv & _)].
  - by rewrite Hx in Hs.
  - by eapply visible_receipt_known.
Qed.

Lemma mark_bulk_eq limit now db :
  mark_messages_read_bulk adb project agent older_than (S limit) now db =
  inr (mkBulkOutcome (Z.of_nat (Nat.min (S limit) (length (eligible db)))) (S limit <? length (eligible db))%nat,
       bulk_tables now (take (S limit) (eligible db)) db).
Proof.
  unfold mark_messages_read_bulk. rewrite select_spec. cbv beta zeta iota.
  fold (direct_ids (take (S limit) (eligible db))). fold (bulk_tables now (take (S limit) (eligible db)) db).
  rewrite verify_passes by apply bulk_tables_after. by rewrite length_take.
Qed.

Lemma mark_bulk_drops limit now db : (0 < limit)%nat -> exists db',
  mark_messages_read_bulk adb project agent older_than limit now db =
    inr (mkBulkOutcome (Z.of_nat (Nat.min limit (length (eligible db)))) (limit <? length (eligible db))%nat, db') /\
  eligible db' = drop limit (eligible db).
Proof.
  destruct limit as [|limit]; [lia|]. intros _. rewrite mark_bulk_eq. eexists. split; [done|]. by apply (eligible_drop now), bulk_tables_after.
Qed.

Lemma mark_bulk_ok limit now db : mail_ok db ->
  mail_ok (match mark_messages_read_bulk adb project agent older_than limit now db with inr (_, db') => db' | inl _ => db end).
Proof.
  intros Hok. destruct limit as [|limit]; [done|]. rewrite mark_bulk_eq. apply bulk_tables_ok; [done|]. apply selected_known.
Qed.
End bulk.

(** ** Properties *)

(** A bulk read with a limit marks exactly the oldest eligible messages up to the limit, direct and shared ones in one
    order of ids, reports their number and whether more remain, and passes its own check; afterwards exactly the later
    ones are still eligible, so calling again drains the backlog.  No acknowledgement changes, no earlier read time, and
    nothing of another agent. *)
Theorem bulk_read_drains_oldest adb project agent older_than limit now db :
  (0 < limit)%nat ->
  let backlog := eligible adb project agent older_than db in
  exists db',
    mark_messages_read_bulk adb project agent older_than limit now db =
      inr (mkBulkOutcome (Z.of_nat (Nat.min limit (length backlog))) (limit <? length backlog)%nat, db') /\
    eligible adb project agent older_than db' = drop limit backlog /\
    (forall k r, recipients db !! k = Some r -> exists r', recipients db' !! k = Some r' /\
       rc_kind r' = rc_kind r /\ rc_ack r' = rc_ack r /\ (rc_read r' = rc_read r \/ k.2 = agent /\ rc_read r = None)) /\
    (forall k r, receipts db !! k = Some r -> exists r', receipts db' !! k = Some r' /\
       pr_ack r' = pr_ack r /\ (pr_read r' = pr_read r \/ k.2 = agent /\ pr_read r = None)).
Proof.
  destruct limit as [|limit]; [lia|]. intros _ backlog. rewrite mark_bulk_eq. eexists. split; [done|].
  set (sel := take (S limit) _). pose proof (bulk_tables_after agent now sel db) as Ha.
  split; [by apply (eligible_drop adb project agent older_than now)|]. destruct Ha as (_ & _ & Hr & Hc). split; intros k r Hk.
  - rewrite Hr, Hk. cbn. eexists. split; [done|]. destruct (Z.eqb_spec k.2 agent); cbn; [|by auto].
    destruct (bool_decide (rc_read r = None)) eqn:E; cbn; [|by auto]. apply bool_decide_eq_true in E.
    destruct (in_ids _ _); cbn; auto.
  - rewrite Hc, Hk. cbn. destruct (Z.eqb_spec k.2 agent); cbn; [|by eauto]. destruct (in_ids _ _); [|by eauto].
    eexists. split; [done|]. cbn. destruct (pr_read r); cbn; auto.
Qed.

(** Calling until no more remain. *)
Fixpoint drain_backlog (fuel : nat) (adb : AgentDb) (project agent : Z) (older_than : option Z) (limit : nat) (now : Z)
    (db : MessageDb) : option (Z * MessageDb) :=
  match fuel with
  | O => None
  | S fuel =>
      match mark_messages_read_bulk adb project agent older_than limit now db with
      | inl _ => None
      | inr (o, db) =>
          if bm_more o then
            '(marked, db) ← drain_backlog fuel adb project agent older_than limit now db; Some (bm_marked o + marked, db)
          else Some (bm_marked o, db)
      end
  end.

(** A backlog of [n] messages is read in [n / limit + 1] calls. *)
Theorem backlog_drains adb project agent older_than limit now fuel : forall db,
  (0 < limit)%nat -> (length (eligible adb project agent older_than db) < fuel * limit)%nat ->
  exists db', drain_backlog fuel adb project agent older_than limit now db =
    Some (Z.of_nat (length (eligible adb project agent older_than db)), db') /\
    eligible adb project agent older_than db' = [].
Proof.
  induction fuel as [|fuel IH]; intros db Hl Hf; [lia|]. cbn [drain_backlog].
  destruct (mark_bulk_drops adb project agent older_than limit now db Hl) as (db1 & -> & He). cbn [bm_more bm_marked].
  set (backlog := eligible _ _ _ _ db) in *. destruct (Nat.ltb_spec limit (length backlog)) as [Hm|Hm].
  - destruct (IH db1 Hl) as (db2 & -> & H2); [rewrite He, length_drop; lia|]. exists db2. split; [|done].
    cbn. do 2 f_equal. rewrite He, length_drop. lia.
  - exists db1. split; [by rewrite Nat.min_r by lia|]. by rewrite He, drop_ge by lia.
Qed.

(** ** A small backlog *)

Definition bulk_agents : AgentDb :=
  mkAgentDb [mkAgentRow 2 7 (u "RedFox") [] [] [] 10 10 [] (u "open") 0 None None] ∅ 3.
Definition bulk_message (id ts : Z) : MessageRow :=
  mkMessage id 7 1 None None None (u "plan") [] (u "normal") 0 ts (mkEnvelope [] [] []) [].
(** Two direct messages to agent 2 and one to its project, between them. *)
Definition bulk_store : MessageDb :=
  mkMessageDb (list_to_map [(4, bulk_message 4 100); (5, bulk_message 5 101); (6, bulk_message 6 102)])
    (list_to_map [((4, 2), mkRecipient (u "to") None None); ((6, 2), mkRecipient (u "to") None None)])
    ∅ (list_to_map [(5, mkShared 7 (u "cc") 101)]) ∅ [] 0 (Some 6) false.

Lemma bulk_read_drains_oldest_witness :
  map br_message (eligible bulk_agents 7 2 None bulk_store) = [4; 5; 6] /\
  exists db', mark_messages_read_bulk bulk_agents 7 2 None 2 300 bulk_store = inr (mkBulkOutcome 2 true, db') /\
    map br_message (eligible bulk_agents 7 2 None db') = [6].
Proof.
  assert (0 < 2)%nat as Hl by lia.
  assert (map br_message (eligible bulk_agents 7 2 None bulk_store) = [4; 5; 6]) as E by (vm_compute; reflexivity).
  split; [exact E|]. destruct (bulk_read_drains_oldest bulk_agents 7 2 None 2 300 bulk_store Hl) as (db' & Hr & He & _).
  exists db'. assert (length (eligible bulk_agents 7 2 None bulk_store) = 3%nat) as El by (vm_compute; reflexivity). rewrite El in Hr.
  split; [exact Hr|]. rewrite He. vm_compute. reflexivity.
Defined.
