(* ===== verification/MailHistoryProps.v ===== *)
(** * Histories of the message store

    What holds after every sequence of transactions: the counts of every inbox
    are exact, an id is never given twice, times once stored stay, and only
    settled messages are pruned. *)

From S2P Require Import Prelude.
From S2P Require Import SqlTable.
From S2P Require Import RustStr.
From S2P Require Import Leases.
From S2P Require Import AgentRegistry.
From S2P Require Import Messages.
From S2P Require Import MessageRetention.
From S2P Require Import MessagesProps.
From S2P Require Import BulkReadProps.

(** ** Deletions *)

(** A transaction that only removes: what it recounts are the agents that lost
    a message. *)
Lemma removed_ok agents db db' :
  mail_ok db -> inbox_stats db' = inbox_stats db -> message_seq db' = message_seq db ->
  (forall id m, messages db' !! id = Some m -> messages db !! id = Some m) ->
  (forall k r, recipients db' !! k = Some r -> recipients db !! k = Some r /\ is_Some (messages db' !! k.1)) ->
  (forall id d, shared db' !! id = Some d -> is_Some (messages db' !! id)) ->
  (forall k r, receipts db' !! k = Some r -> receipts db !! k = Some r /\ is_Some (messages db' !! k.1)) ->
  (forall a, a ∉ agents -> received db' a = received db a) ->
  mail_ok (rebuild_agents_inbox_stats agents db').
Proof.
  intros Hok Hst Hseq Hm Hr Hs Hc Hrec. split; cbn.
  - apply rebuild_exact. intros a Ha. rewrite Hst, (compute_ext db); [apply (mo_stats _ Hok)|by apply Hrec].
  - intros id m Hid. rewrite Hseq. by apply (mo_ids _ Hok), Hm.
  - intros id a r H. exact (proj2 (Hr _ _ H)).
  - exact Hs.
  - intros k r H. exact (mo_acked _ Hok k r (proj1 (Hr _ _ H))).
  - intros k r H. destruct (Hc _ _ H) as [H1 H2]. split; [|done]. exact (proj1 (mo_receipts _ Hok k r H1)).
Qed.

Lemma elem_of_agents_of (p : Z -> bool) (t : gmap (Z * Z) RecipientRow) a :
  a ∈ map (fun kr => kr.1.2) (select_where (fun k _ => p k.1) t) <-> exists id, p id = true /\ is_Some (t !! (id, a)).
Proof.
  rewrite list_elem_of_fmap. split.
  - intros ([[id b] r] & -> & [H1 H2]%elem_of_select_where). exists id. split; [done|]. by exists r.
  - intros (id & Hp & [r Hr]). exists ((id, a), r). split; [done|]. by apply elem_of_select_where.
Qed.

(** Agents that did not receive a deleted message keep what they received. *)
Lemma received_without (p : Z -> bool) db db' a :
  (forall id, messages db' !! id = if p id then messages db' !! id else messages db !! id) ->
  (forall id, p id = true -> recipients db !! (id, a) = None /\ recipients db' !! (id, a) = None) ->
  (forall id, p id = false -> recipients db' !! (id, a) = recipients db !! (id, a)) ->
  received db' a = received db a.
Proof.
  intros Hm Hp Hr. apply map_eq. intros id. rewrite !lookup_received. destruct (p id) eqn:E.
  - destruct (Hp id E) as [-> ->]. by destruct (messages db' !! id), (messages db !! id).
  - rewrite Hr, Hm, E by done. done.
Qed.

Lemma cleanup_ok project id ids db : mail_ok db -> mail_ok (cleanup_message project id ids db).
Proof.
  intros Hok. unfold cleanup_message. set (affected := remove_dups _).
  set (db1 := set_recipients (delete_where (fun k _ => k.1 =? id) (recipients db)) db).
  assert (forall k r, recipients db1 !! k = Some r -> recipients db !! k = Some r /\ k.1 <> id) as Hrec.
  { intros k r Hk. apply lookup_delete_where_Some in Hk as [? ?]. breflect. done. }
  assert (forall a, a ∉ affected -> recipients db !! (id, a) = None) as Haff.
  { intros a Ha. destruct (recipients db !! (id, a)) eqn:E; [|done]. destruct Ha. unfold affected.
    apply elem_of_remove_dups, elem_of_app. right. apply (elem_of_agents_of (fun i => i =? id)). exists id.
    rewrite Z.eqb_refl, E. eauto. }
  set (db2 := match messages db1 !! id with Some _ => _ | None => _ end).
  assert (recipients db2 = recipients db1 /\ inbox_stats db2 = inbox_stats db /\ message_seq db2 = message_seq db) as (R2 & I2 & S2).
  { unfold db2. destruct (messages db1 !! id) as [m|]; [|done]. by destruct (mg_project m =? project). }
  assert (forall k, k <> id -> messages db2 !! k = messages db !! k /\ shared db2 !! k = shared db !! k) as Hother.
  { intros k Hk. unfold db2. destruct (messages db1 !! id) as [m|]; [|done]. destruct (mg_project m =? project); [|done].
    cbn. by rewrite !lookup_delete_ne by done. }
  assert (messages db2 = messages db /\ shared db2 = shared db /\ receipts db2 = receipts db \/
          messages db2 !! id = None /\ shared db2 !! id = None /\
          (forall k r, receipts db2 !! k = Some r -> receipts db !! k = Some r /\ k.1 <> id)) as Hid.
  { unfold db2. destruct (messages db1 !! id) as [m|]; [|by left]. destruct (mg_project m =? project); [right|by left].
    cbn. rewrite !lookup_delete_eq. split_and!; [done..|]. intros k r Hk. apply lookup_delete_where_Some in Hk as [? ?]. by breflect. }
  assert (forall k, k <> id -> is_Some (messages db !! k) -> is_Some (messages db2 !! k)) as Hkeep.
  { intros k Hk. by rewrite (proj1 (Hother k Hk)). }
  apply (removed_ok affected db db2); try done.
  - intros k m Hk. destruct (decide (k = id)) as [-> | Hne]; [|by rewrite <- (proj1 (Hother k Hne))].
    destruct Hid as [(Hm & _)|(Hn & _)]; [by rewrite <- Hm|congruence].
  - intros k r Hk. rewrite R2 in Hk. destruct (Hrec k r Hk) as [H1 H2]. split; [done|]. apply Hkeep; [done|].
    destruct k. by eapply mo_known.
  - intros k d Hk. destruct (decide (k = id)) as [-> | Hne].
    + destruct Hid as [(-> & Hs & _)|(_ & Hn & _)]; [rewrite Hs in Hk; by eapply mo_shared|congruence].
    + apply Hkeep; [done|]. rewrite (proj2 (Hother k Hne)) in Hk. by eapply mo_shared.
  - intros k r Hk. destruct Hid as [(Hm & _ & Hc)|(_ & _ & Hc)].
    + rewrite Hc in Hk. split; [done|]. rewrite Hm. exact (proj2 (mo_receipts _ Hok k r Hk)).
    + destruct (Hc k r Hk) as [H1 H2]. split; [done|]. apply Hkeep; [done|]. exact (proj2 (mo_receipts _ Hok k r H1)).
  - intros a Ha. apply (received_without (fun k => k =? id)).
    + intros k. destruct (Z.eqb_spec k id); [done|]. by apply Hother.
    + intros k Hk. apply Z.eqb_eq in Hk as ->. split; [by apply Haff|]. rewrite R2.
      unfold db1. cbn. rewrite lookup_delete_where, (Haff a Ha). done.
    + intros k Hk. rewrite R2. apply delete_where_keep. done.
Qed.

Lemma rebuild_nil db : rebuild_agents_inbox_stats [] db = db.
Proof. by destruct db. Qed.

Lemma delete_messages_ok ids db : mail_ok db -> mail_ok (delete_messages ids db).
Proof.
  intros Hok. unfold delete_messages. set (agents := remove_dups _). set (db' := set_messages _ _).
  assert (forall id a r, recipients db' !! (id, a) = Some r <-> recipients db !! (id, a) = Some r /\ in_ids ids id = false) as Hr
    by (intros id a r; exact (lookup_delete_where_Some (fun k _ => in_ids ids k.1) (recipients db) (id, a) r)).
  assert (forall id m, messages db' !! id = Some m <-> messages db !! id = Some m /\ in_ids ids id = false) as Hm
    by (intros id m; exact (lookup_delete_where_Some (fun k _ => in_ids ids k) (messages db) id m)).
  assert (forall id, in_ids ids id = false -> is_Some (messages db !! id) -> is_Some (messages db' !! id)) as Hkeep
    by (intros id Hid [m ?]; exists m; by apply Hm).
  assert (mail_ok (rebuild_agents_inbox_stats agents db')) as H.
  { apply (removed_ok agents db db'); try done.
    - intros id m H. by apply Hm in H as [? _].
    - intros [id a] r H. apply Hr in H as [H1 H2]. split; [done|]. apply Hkeep; [done|]. by eapply mo_known.
    - intros id d H. apply lookup_delete_where_Some in H as [H1 H2]. apply Hkeep; [done|]. by eapply mo_shared.
    - intros k r H. apply lookup_delete_where_Some in H as [H1 H2]. split; [done|]. apply Hkeep; [done|].
      exact (proj2 (mo_receipts _ Hok k r H1)).
    - intros a Ha. apply (received_without (in_ids ids)).
      + intros id. destruct (in_ids ids id) eqn:E; [done|]. by apply delete_where_keep.
      + intros id Hid. assert (recipients db !! (id, a) = None) as Hn.
        { destruct (recipients db !! (id, a)) eqn:E; [|done]. destruct Ha. unfold agents.
          apply elem_of_remove_dups, (elem_of_agents_of (in_ids ids)). exists id. rewrite E. eauto. }
        split; [done|]. unfold db'. cbn. by rewrite lookup_delete_where, Hn.
      + intros id Hid. by apply delete_where_keep. }
  clearbody db' agents. destruct agents; [|done]. by rewrite rebuild_nil in H.
Qed.

(** ** Every operation *)

Lemma op_mail_ok db o : mail_ok db -> mail_ok (apply_mail_op db o).
Proof.
  intros Hok. destruct o; cbn [apply_mail_op].
  - destruct (create_message_tx _ _ _ _ _ _ _) as [|[row db']] eqn:E; [done|]. by eapply sent_ok, create_message_sent.
  - by apply cleanup_ok.
  - by apply mark_read_ok.
  - by apply read_batch_ok.
  - by apply read_sync_ok.
  - by apply read_shared_sync_ok.
  - pose proof (mark_bulk_ok adb project agent older_than limit now db Hok) as H.
    by destruct (mark_messages_read_bulk _ _ _ _ _ _ _) as [|[? ?]].
  - by apply ack_ok.
  - by apply ack_batch_ok.
  - unfold prune_batch. destruct (map pc_id _); [done|]. by apply delete_messages_ok.
  - by apply thread_ok.
  - destruct Hok as [? ? ? ? ? ?]. split; try done. apply rebuild_all_exact.
  - destruct Hok as [? ? ? ? ? ?]. by split.
Qed.

Lemma run_mail_ok ops : forall db, mail_ok db -> mail_ok (run_mail ops db).
Proof. induction ops as [|o ops IH]; intros db Hok; [done|]. apply IH. by apply op_mail_ok. Qed.

(** ** What is stored stays *)

Definition times_kept (read ack read' ack' : option Z) : Prop :=
  (is_Some read -> read' = read) /\ (is_Some ack -> ack' = ack).

Lemma times_kept_refl read ack : times_kept read ack read ack.
Proof. done. Qed.
Lemma times_kept_trans a b a' b' a'' b'' : times_kept a b a' b' -> times_kept a' b' a'' b'' -> times_kept a b a'' b''.
Proof. intros [H1 H2] [H3 H4]. split; intros H; [rewrite H3; [by apply H1|by rewrite H1]|rewrite H4; [by apply H2|by rewrite H2]]. Qed.

(** An id above every id elected so far. *)
Definition newer (db : MessageDb) (id : Z) : Prop := forall s, message_seq db = Some s -> s < id.

Record mail_evolves (db db' : MessageDb) : Prop := {
  mv_seq s : message_seq db = Some s -> exists s', message_seq db' = Some s' /\ s <= s';
  mv_messages id m' : messages db' !! id = Some m' -> (exists m, messages db !! id = Some m /\ rethread None m' = rethread None m) \/ newer db id;
  mv_recipients k r' : recipients db' !! k = Some r' ->
    (exists r, recipients db !! k = Some r /\ rc_kind r' = rc_kind r /\ times_kept (rc_read r) (rc_ack r) (rc_read r') (rc_ack r')) \/ newer db k.1;
  mv_receipts k r r' : receipts db !! k = Some r -> receipts db' !! k = Some r' -> times_kept (pr_read r) (pr_ack r) (pr_read r') (pr_ack r');
  mv_lost k : is_Some (receipts db !! k) -> is_Some (receipts db' !! k) \/ messages db' !! k.1 = None;
}.

Lemma mail_evolves_refl db : mail_evolves db db.
Proof. split; [eauto using Z.le_refl|eauto|eauto 6 using times_kept_refl|intros k r r' H H'; by simplify_eq|eauto]. Qed.

Lemma newer_mono db db' id : mail_evolves db db' -> newer db' id -> newer db id.
Proof. intros He Hn s Hs. destruct (mv_seq _ _ He s Hs) as (s' & Hs' & ?). specialize (Hn s' Hs'). lia. Qed.

(** A known message is not newer. *)
Lemma known_old db id : mail_ok db -> is_Some (messages db !! id) -> ~ newer db id.
Proof. intros Hok [m Hm] Hn. destruct (mo_ids _ Hok id m Hm) as (_ & s & Hs & ?). specialize (Hn s Hs). lia. Qed.

Lemma mail_evolves_trans a b c : mail_ok a -> mail_ok b -> mail_ok c -> mail_evolves a b -> mail_evolves b c -> mail_evolves a c.
Proof.
  intros Ha Hb Hc H1 H2. split.
  - intros s Hs. destruct (mv_seq _ _ H1 s Hs) as (s1 & Hs1 & ?). destruct (mv_seq _ _ H2 s1 Hs1) as (s2 & ? & ?). exists s2. split; [done|lia].
  - intros id m Hm. destruct (mv_messages _ _ H2 id m Hm) as [(m1 & Hm1 & E1)|Hn]; [|right; by eapply newer_mono].
    destruct (mv_messages _ _ H1 id m1 Hm1) as [(m0 & ? & ?)|Hn]; [left; exists m0; split; congruence|by right].
  - intros k r2 Hr. destruct (mv_recipients _ _ H2 k r2 Hr) as [(r1 & Hr1 & Hk1 & K1)|Hn]; [|right; by eapply newer_mono].
    destruct (mv_recipients _ _ H1 k r1 Hr1) as [(r & Hr0 & Hk0 & K0)|Hn]; [left|by right].
    exists r. split_and!; [done|congruence|by eapply times_kept_trans].
  - intros k r r2 Hr Hr2. destruct (mv_lost _ _ H1 k) as [[r1 Hr1]|Hgone]; [by eexists| |].
    + exact (times_kept_trans _ _ _ _ _ _ (mv_receipts _ _ H1 k r r1 Hr Hr1) (mv_receipts _ _ H2 k r1 r2 Hr1 Hr2)).
    + destruct (mo_receipts _ Hc k r2 Hr2) as [_ [m Hm]]. exfalso.
      destruct (mv_messages _ _ H2 _ _ Hm) as [(? & ? & _)|Hn]; [congruence|]. apply (newer_mono _ _ _ H1) in Hn.
      eapply known_old; [exact Ha| |exact Hn]. exact (proj2 (mo_receipts _ Ha k r Hr)).
  - intros k [r Hr]. destruct (mv_lost _ _ H1 k) as [Hr1|Hgone]; [by eexists|by apply (mv_lost _ _ H2)|]. right.
    destruct (messages c !! k.1) as [m|] eqn:Hm; [|done]. exfalso.
    destruct (mv_messages _ _ H2 _ _ Hm) as [(? & ? & _)|Hn]; [congruence|]. apply (newer_mono _ _ _ H1) in Hn.
    eapply known_old; [exact Ha| |exact Hn]. exact (proj2 (mo_receipts _ Ha k r Hr)).
Qed.

(** Recipients and receipts that only gain times. *)
Lemma touched_evolves db db' :
  messages db' = messages db -> message_seq db' = message_seq db ->
  (forall k r', recipients db' !! k = Some r' -> exists r, recipients db !! k = Some r /\ rc_kind r' = rc_kind r /\
     times_kept (rc_read r) (rc_ack r) (rc_read r') (rc_ack r')) ->
  (forall k r, receipts db !! k = Some r -> exists r', receipts db' !! k = Some r' /\ times_kept (pr_read r) (pr_ack r) (pr_read r') (pr_ack r')) ->
  mail_evolves db db'.
Proof.
  intros Hm Hs Hr Hc. split.
  - intros s. rewrite Hs. eauto using Z.le_refl.
  - intros id m. rewrite Hm. eauto.
  - intros k r' H. left. by apply Hr.
  - intros k r r' H H'. destruct (Hc k r H) as (r1 & ? & ?). by simplify_eq.
  - intros k [r H]. destruct (Hc k r H) as (r1 & ? & ?). left. by eexists.
Qed.

Lemma touch_recipients_evolves up agent now ids db : mail_evolves db (rebuild_agents_inbox_stats [agent] (touch_recipients up agent now ids db)).
Proof.
  apply touched_evolves; [done|done| |intros k r H; exists r; split; [done|apply times_kept_refl]].
  intros k r'. unfold touch_recipients, rebuild_agents_inbox_stats. cbn. rewrite lookup_update_where.
  destruct (recipients db !! k) as [r|]; [|done]. intros [= <-]. exists r. split; [done|].
  destruct (_ && _); [|by split; [|apply times_kept_refl]]. destruct r as [kind [|] [|]], up; cbn; (split; [done|]); split; by intros [? [=]].
Qed.

Lemma write_receipt_evolves up id agent now db : mail_evolves db (write_receipt up id agent now db).
Proof.
  apply touched_evolves; [done|done|intros k r H; exists r; split_and!; done|].
  intros k r Hk. rewrite write_receipt_lookup. case_bool_decide as E; [subst k; rewrite Hk|exists r; by split].
  eexists. split; [done|]. cbn. destruct r as [[|] [|]], up; cbn; split; by intros [? [=]].
Qed.

Lemma bulk_tables_evolves agent now sel db : mail_evolves db (bulk_tables agent now sel db).
Proof.
  destruct (bulk_tables_after agent now sel db) as (Hm & _ & Hr & Hc). apply touched_evolves; [done| | |].
  - unfold bulk_tables. rewrite foldl_map_ids, read_unread_chunks.
    rewrite <- (write_receipts_same agent (map br_message (List.filter br_shared sel)) now). by destruct (direct_ids sel).
  - intros k r'. rewrite Hr. destruct (recipients db !! k) as [r|]; [|done]. intros [= <-]. exists r. split; [done|].
    destruct (bool_decide (rc_read r = None)) eqn:E; [|rewrite andb_false_r; by split].
    apply bool_decide_eq_true in E. destruct (_ && in_ids _ _); [|by split]. cbn. rewrite E. split; [done|]. split; [by intros [? [=]]|done].
  - intros k r Hk. rewrite Hc, Hk. destruct (_ && _); [|exists r; by split]. eexists. split; [done|]. cbn.
    destruct r as [[|] ak]; cbn; split; by intros [? [=]].
Qed.

Lemma removed_evolves db db' :
  message_seq db' = message_seq db ->
  (forall id m, messages db' !! id = Some m -> messages db !! id = Some m) ->
  (forall k r, recipients db' !! k = Some r -> recipients db !! k = Some r) ->
  (forall k r, receipts db' !! k = Some r -> receipts db !! k = Some r) ->
  (forall k r, receipts db !! k = Some r -> receipts db' !! k = Some r \/ messages db' !! k.1 = None) ->
  mail_evolves db db'.
Proof.
  intros Hs Hm Hr Hc Hl. split.
  - intros s. rewrite Hs. eauto using Z.le_refl.
  - intros id m H. left. exists m. split; [by apply Hm|done].
  - intros k r' H. left. exists r'. split_and!; [by apply Hr|done|apply times_kept_refl].
  - intros k r r' H H'. apply Hc in H'. simplify_eq. apply times_kept_refl.
  - intros k [r H]. destruct (Hl k r H) as [?|?]; [left; by eexists|by right].
Qed.

Lemma cleanup_evolves project id ids db : mail_evolves db (cleanup_message project id ids db).
Proof.
  unfold cleanup_message. set (db1 := set_recipients _ db).
  assert (forall k r, recipients db1 !! k = Some r -> recipients db !! k = Some r) as Hr.
  { intros k r Hk. by apply (lookup_delete_where_Some (fun k _ => k.1 =? id)) in Hk as [? _]. }
  destruct (messages db1 !! id) as [m|] eqn:Em; [|by apply removed_evolves; auto].
  destruct (mg_project m =? project); [|by apply removed_evolves; auto].
  apply removed_evolves; cbn; [done| |done| |].
  - intros k m' Hk. by apply lookup_delete_Some in Hk as [_ ?].
  - intros k r Hk. by apply lookup_delete_where_Some in Hk as [? _].
  - intros k r Hk. destruct (Z.eqb_spec k.1 id) as [-> | Hne]; [right; apply lookup_delete_eq|left].
    apply lookup_delete_where_Some. split; [done|]. by apply Z.eqb_neq.
Qed.

Lemma delete_messages_evolves ids db : mail_evolves db (delete_messages ids db).
Proof.
  unfold delete_messages. set (agents := remove_dups _). set (db' := set_messages _ _).
  assert (mail_evolves db db') as H.
  { apply removed_evolves; cbn; [done| | | |].
    - intros k m Hk. by apply lookup_delete_where_Some in Hk as [? _].
    - intros k r Hk. by apply lookup_delete_where_Some in Hk as [? _].
    - intros k r Hk. by apply lookup_delete_where_Some in Hk as [? _].
    - intros k r Hk. destruct (in_ids ids k.1) eqn:E; [right|left].
      + rewrite lookup_delete_where. destruct (messages db !! k.1); [|done]. cbn. by rewrite E.
      + by apply lookup_delete_where_Some. }
  clearbody db' agents. destruct agents; [done|]. by destruct H.
Qed.

Lemma sent_evolves seed now q db row db' : sent_as seed now q db row db' -> mail_evolves db db'.
Proof.
  intros [_ (_ & _ & Hseq) Hf Hs Hm Hr _ Hrc _]. split.
  - intros s H. exists (mg_id row). split; [done|]. specialize (Hseq s H). lia.
  - intros id m. rewrite Hm. destruct (decide (id = mg_id row)) as [-> | Hne]; [by right|]. rewrite lookup_insert_ne by done. eauto.
  - intros k r'. rewrite Hr. destruct (Z.eqb_spec k.1 (mg_id row)) as [-> | Hne]; [by right|]. intros H. left. exists r'.
    by split_and!.
  - intros k r r' H. rewrite Hrc. intros H'. by simplify_eq.
  - intros k. rewrite Hrc. by left.
Qed.

Lemma record_evolves adb agent id up now db x : record_project_mailbox_receipt adb agent id up now db = inr (Some x) -> mail_evolves db x.2.
Proof.
  unfold record_project_mailbox_receipt. destruct (visible_receipt adb db agent id); [|done].
  destruct (receipts _ !! _); [|done]. intros [= <-]. apply write_receipt_evolves.
Qed.

Lemma write_fold_evolves agent now ids : forall db, mail_ok db -> (forall id, id ∈ ids -> is_Some (messages db !! id)) ->
  mail_evolves db (foldl (fun db id => write_receipt Read id agent now db) db ids).
Proof.
  induction ids as [|id ids IH]; intros db Hok Hids; cbn [foldl]; [apply mail_evolves_refl|].
  assert (mail_ok (write_receipt Read id agent now db)) as H1 by (apply write_receipt_ok; [done|apply Hids; by left]).
  assert (forall i, i ∈ ids -> is_Some (messages (write_receipt Read id agent now db) !! i)) as H2 by (intros i Hi; apply Hids; by right).
  eapply mail_evolves_trans; [done|exact H1|by apply write_receipts_ok|apply write_receipt_evolves|by apply IH].
Qed.

Lemma read_unread_evolves agent now ids db : mail_evolves db (read_unread agent now db ids).
Proof.
  apply touched_evolves; [done|done| |intros k r H; exists r; split; [done|apply times_kept_refl]].
  intros k r'. unfold read_unread. cbn. rewrite lookup_update_where.
  destruct (recipients db !! k) as [r|]; [|done]. intros [= <-]. exists r. split; [done|].
  destruct (bool_decide (rc_read r = None)) eqn:E; [|rewrite andb_false_r; by split].
  apply bool_decide_eq_true in E. destruct (_ && in_ids _ _); [|by split]. cbn. rewrite E. split; [done|]. split; [by intros [? [=]]|done].
Qed.

Lemma committed_evolves {X R} (r : X + (R * MessageDb)) db : (forall y db', r = inr (y, db') -> mail_evolves db db') -> mail_evolves db (committed r db).
Proof. intros H. destruct r as [|[y db']]; [apply mail_evolves_refl|by eapply H]. Qed.

(** A receipt on the agent's row, else on a shared delivery. *)
Lemma touch_then_record adb up agent id now db x : mail_ok db ->
  let db1 := rebuild_agents_inbox_stats [agent] (touch_recipients up agent now [id] db) in
  record_project_mailbox_receipt adb agent id up now db1 = inr (Some x) -> mail_evolves db x.2.
Proof.
  intros Hok db1 Hx. assert (mail_ok db1) as H1 by (by apply touch_recipients_ok).
  apply (mail_evolves_trans db db1); [done|done| |apply touch_recipients_evolves|by eapply record_evolves].
  destruct x as [r db2]. by apply record_receipt_ok in Hx as [? _].
Qed.

Lemma mark_read_evolves adb agent id now db : mail_ok db -> mail_evolves db (committed (mark_message_read adb agent id now db) db).
Proof.
  intros Hok. apply committed_evolves. intros y db'. unfold mark_message_read.
  pose proof (touch_recipients_evolves Read agent now [id] db) as H1. pose proof (touch_then_record adb Read agent id now db) as H2.
  cbn zeta in H2. set (db1 := rebuild_agents_inbox_stats _ _) in *.
  destruct (recipients db1 !! (id, agent)) as [r|]; [destruct (rc_read r); by intros [= <- <-]|].
  destruct (record_project_mailbox_receipt _ _ _ _ _ _) as [|[[[[ts|] ack] db2]|]]; try done. intros [= <- <-]. exact (H2 _ Hok eq_refl).
Qed.

Lemma ack_evolves adb agent id now db : mail_ok db -> mail_evolves db (committed (acknowledge_message_tx adb agent id now db) db).
Proof.
  intros Hok. apply committed_evolves. intros y db'. unfold acknowledge_message_tx.
  pose proof (touch_recipients_evolves Acknowledge agent now [id] db) as H1. pose proof (touch_then_record adb Acknowledge agent id now db) as H2.
  cbn zeta in H2. set (db1 := rebuild_agents_inbox_stats _ _) in *.
  destruct (recipients db1 !! (id, agent)) as [r|]; [destruct (rc_read r), (rc_ack r); by intros [= <- <-]|].
  destruct (record_project_mailbox_receipt _ _ _ _ _ _) as [|[[[[ts|] [ack|]] db2]|]]; try done. intros [= <- <-]. exact (H2 _ Hok eq_refl).
Qed.

Lemma read_sync_evolves agent ids now db : mail_evolves db (committed (mark_messages_read_batch_sync agent ids now db) db).
Proof.
  apply committed_evolves. intros y db'. unfold mark_messages_read_batch_sync. destruct ids as [|i ids]; [by intros [= <- <-]; apply mail_evolves_refl|].
  set (updated := omap _ _). rewrite rebuild_sync, read_unread_chunks.
  pose proof (read_unread_evolves agent now (List.concat (chunks MAX_IN_CLAUSE_ITEMS updated)) db) as H1.
  set (db1 := read_unread _ _ _ _) in *. destruct updated; case_bool_decide; try done; intros [= <- <-]; by destruct H1.
Qed.

Lemma read_shared_sync_evolves adb agent ids now db : mail_ok db ->
  mail_evolves db (committed (mark_project_mailbox_read_batch_sync adb agent ids now db) db).
Proof.
  intros Hok. apply committed_evolves. intros y db'. unfold mark_project_mailbox_read_batch_sync.
  destruct ids as [|i ids]; [by intros [= <- <-]; apply mail_evolves_refl|].
  set (observed := omap _ (merge_sort Z.le _)). set (updated := omap _ _).
  assert (mail_evolves db (foldl (fun db id => write_receipt Read id agent now db) db updated)) as H1.
  { apply write_fold_evolves; [done|]. exact (unread_visible_known adb agent _ db). }
  destruct (_ || _); [by intros [= <- <-]|done].
Qed.

Lemma thread_evolves id target db : mail_evolves db (committed (update_message_thread_id id target db) db).
Proof.
  apply committed_evolves. intros y db'. unfold update_message_thread_id.
  destruct (is_empty _); [intros [= <- <-]; apply mail_evolves_refl|]. destruct (messages db !! id) as [m0|] eqn:Em; [|done].
  case_bool_decide; intros [= <- <-]; [apply mail_evolves_refl|]. set (db' := set_messages _ db).
  assert (forall k m', messages db' !! k = Some m' -> exists m, messages db !! k = Some m /\ rethread None m' = rethread None m) as Hm.
  { intros k m'. cbn. destruct (decide (k = id)) as [-> | Hne].
    - rewrite lookup_alter_eq, Em. intros [= <-]. by exists m0.
    - rewrite lookup_alter_ne by congruence. eauto. }
  split; cbn; [eauto using Z.le_refl|by eauto|by eauto 6 using times_kept_refl|intros k r r' H1 H2; simplify_eq; apply times_kept_refl|by left].
Qed.

(** Whatever an operation does, it mail_evolves the store. *)
Lemma mail_op_evolves db o : mail_ok db -> mail_evolves db (apply_mail_op db o).
Proof.
  intros Hok. destruct o; cbn [apply_mail_op].
  - apply committed_evolves. intros row db' E. by eapply sent_evolves, create_message_sent.
  - apply cleanup_evolves.
  - by apply mark_read_evolves.
  - unfold mark_messages_read_batch. destruct ids; [apply mail_evolves_refl|]. rewrite touch_chunks. apply touch_recipients_evolves.
  - apply read_sync_evolves.
  - by apply read_shared_sync_evolves.
  - destruct limit as [|limit]; [apply mail_evolves_refl|]. rewrite mark_bulk_eq. apply bulk_tables_evolves.
  - by apply ack_evolves.
  - unfold acknowledge_messages_batch. destruct ids; [apply mail_evolves_refl|]. rewrite touch_chunks. apply touch_recipients_evolves.
  - unfold prune_batch. destruct (map pc_id _); [apply mail_evolves_refl|]. apply delete_messages_evolves.
  - apply thread_evolves.
  - destruct (mail_evolves_refl db). by split.
  - destruct (mail_evolves_refl db). by split.
Qed.

Lemma run_mail_evolves ops : forall db, mail_ok db -> mail_evolves db (run_mail ops db).
Proof.
  induction ops as [|o ops IH]; intros db Hok; cbn; [apply mail_evolves_refl|].
  pose proof (op_mail_ok db o Hok) as H1. eapply mail_evolves_trans; [done|exact H1|by apply run_mail_ok|by apply mail_op_evolves|by apply IH].
Qed.

(** ** What a count says *)

Lemma count_where_map (p : MessageRow * RecipientRow -> bool) (t : gmap Z (MessageRow * RecipientRow)) :
  count_where p (map_to_list t).*2 = Z.of_nat (size (filter (fun kv => p kv.2 = true) t)).
Proof.
  induction t as [|k x t Hk IH] using map_ind.
  - rewrite map_to_list_empty, map_filter_empty, map_size_empty. done.
  - rewrite map_to_list_insert by done. cbn [fmap list_fmap snd]. rewrite count_where_cons, IH. destruct (p x) eqn:E.
    + rewrite map_filter_insert_True, map_size_insert_None; [lia| |done]. apply map_lookup_filter_None. left. done.
    + rewrite map_filter_insert_False by (simpl; congruence). rewrite delete_id by done. lia.
Qed.

Lemma aggregate_Some rows s : aggregate rows = Some s ->
  total_count s = Z.of_nat (length rows) /\ unread_count s = count_where unread rows /\
  ack_pending_count s = count_where ack_pending rows /\ last_message_ts s = sql_max (map (fun mr => mg_created mr.1) rows) /\ rows <> [].
Proof. by destruct rows; [|intros [= <-]]. Qed.

Lemma elem_of_received db a id m r :
  received db a !! id = Some (m, r) <-> messages db !! id = Some m /\ recipients db !! (id, a) = Some r.
Proof.
  rewrite lookup_received. destruct (messages db !! id) as [m'|]; cbn; [|naive_solver].
  destruct (recipients db !! (id, a)); cbn; naive_solver.
Qed.

Lemma compute_None db a : compute_agent_inbox_stats db a = None <->
  (forall id m, messages db !! id = Some m -> recipients db !! (id, a) = None).
Proof.
  unfold compute_agent_inbox_stats. split.
  - intros H id m Hm. destruct (recipients db !! (id, a)) as [r|] eqn:Er; [|done].
    assert (received db a !! id = Some (m, r)) as Hin by (by apply elem_of_received).
    apply elem_of_map_to_list in Hin. by destruct (map_to_list (received db a)); [apply elem_of_nil in Hin|].
  - intros H. destruct (map_to_list (received db a)) as [|[id [m r]] l] eqn:E; [done|].
    assert ((id, (m, r)) ∈ map_to_list (received db a)) as Hin by (rewrite E; by left).
    apply elem_of_map_to_list, elem_of_received in Hin as [Hm Hr]. specialize (H id m Hm). congruence.
Qed.

Lemma compute_Some db a s : compute_agent_inbox_stats db a = Some s ->
  total_count s = Z.of_nat (size (received db a)) /\
  unread_count s = Z.of_nat (size (filter (fun im => rc_read im.2.2 = None) (received db a))) /\
  ack_pending_count s = Z.of_nat (size (filter (fun im => rc_ack im.2.2 = None /\ mg_ack_required im.2.1 = 1) (received db a))) /\
  (exists id m r, received db a !! id = Some (m, r) /\ last_message_ts s = Some (mg_created m)) /\
  (forall id m r, received db a !! id = Some (m, r) -> mg_created m <= default 0 (last_message_ts s)).
Proof.
  intros H. apply aggregate_Some in H as (-> & -> & -> & -> & Hne). split_and!.
  - by rewrite length_fmap, length_map_to_list.
  - rewrite count_where_map. do 2 f_equal. apply map_filter_ext. intros i x _. cbn. unfold unread. by rewrite bool_decide_eq_true.
  - rewrite count_where_map. do 2 f_equal. apply map_filter_ext. intros i x _. cbn. unfold ack_pending.
    rewrite andb_true_iff, bool_decide_eq_true, Z.eqb_eq. done.
  - destruct (sql_max _) as [t|] eqn:E; [|apply sql_max_None in E; by apply map_eq_nil in E].
    apply sql_max_elem, list_elem_of_fmap in E as ([m r] & -> & Hin).
    apply list_elem_of_fmap in Hin as ([id mr] & Heq & Hin). cbn in Heq. subst mr. apply elem_of_map_to_list in Hin. by exists id, m, r.
  - intros id m r Hin. apply sql_max_default_ge, list_elem_of_fmap. exists (m, r). split; [done|].
    apply list_elem_of_fmap. exists (id, (m, r)). split; [done|]. by apply elem_of_map_to_list.
Qed.

(** ** Settled messages *)

(** Nobody who can see the message has it still to read or to acknowledge. *)
Definition nobody_waits (adb : AgentDb) (db : MessageDb) (id : Z) (m : MessageRow) : Prop :=
  (forall a r, recipients db !! (id, a) = Some r -> is_Some (rc_read r) /\ (mg_ack_required m <> 0 -> is_Some (rc_ack r))) /\
  (forall d v, shared db !! id = Some d -> In v (agent_rows adb) -> visible_to_viewer db id d m v = true ->
     exists r, receipts db !! (id, ar_id v) = Some r /\ is_Some (pr_read r) /\ (mg_ack_required m <> 0 -> is_Some (pr_ack r))).

Lemma done_with_spec m read ack :
  done_with m read ack = true <-> is_Some read /\ (mg_ack_required m <> 0 -> is_Some ack).
Proof.
  unfold done_with. destruct (Z.eqb_spec (mg_ack_required m) 0) as [E|E]; destruct read, ack; cbn; unfold is_Some; naive_solver.
Qed.

Lemma settled_spec adb db id m : settled adb db id m = true <-> nobody_waits adb db id m.
Proof.
  unfold settled, nobody_waits. rewrite andb_true_iff, forallb_forall. apply ZifyClasses.and_morph.
  - setoid_rewrite done_with_spec. split.
    + intros H a r Hr. apply (H ((id, a), r)), list_elem_of_In, elem_of_select_where. split; [done|]. apply Z.eqb_refl.
    + intros H [[i a] r] [Hr E%Z.eqb_eq]%list_elem_of_In%elem_of_select_where. cbn in E. subst i. by apply (H a).
  - destruct (shared db !! id) as [d|]; [|naive_solver]. rewrite forallb_forall. split.
    + intros H d' v [= <-] Hv Hvis. specialize (H v Hv). rewrite Hvis in H. apply done_with_spec in H as [H1 H2].
      destruct (receipts db !! (id, ar_id v)) as [r|]; [|by destruct H1]. by exists r.
    + intros H v Hv. destruct (visible_to_viewer db id d m v) eqn:E; [|done]. destruct (H d v eq_refl Hv E) as (r & Hr & H1 & H2).
      rewrite Hr. by apply done_with_spec.
Qed.

Lemma delete_messages_nil db : delete_messages [] db = db.
Proof.
  unfold delete_messages, in_ids. cbn [existsb negb]. rewrite !delete_where_nothing by done.
  assert (select_where (fun (_ : Z * Z) (_ : RecipientRow) => false) (recipients db) = []) as ->.
  { unfold select_where. by induction (map_to_list (recipients db)). }
  cbn. rewrite bfilter_all_true by done. by destruct db.
Qed.

Lemma delete_messages_tables ids db :
  let db' := delete_messages ids db in
  (forall id, messages db' !! id = if in_ids ids id then None else messages db !! id) /\
  (forall k, recipients db' !! k = if in_ids ids k.1 then None else recipients db !! k) /\
  (forall id, shared db' !! id = if in_ids ids id then None else shared db !! id) /\
  (forall k, receipts db' !! k = if in_ids ids k.1 then None else receipts db !! k) /\
  events db' = List.filter (fun e => negb (in_ids ids (ev_message e))) (events db).
Proof.
  unfold delete_messages. set (agents := remove_dups _). set (db1 := set_messages _ _).
  assert (forall K A (HE : EqDecision K) (HC : Countable K) (p : K -> bool) (t : gmap K A) k,
    delete_where (fun k _ => p k) t !! k = if p k then None else t !! k) as H.
  { intros. rewrite lookup_delete_where. destruct (t !! k); cbn; by destruct (p k). }
  destruct agents; cbn; (split_and!; [intros k; exact (H _ _ _ _ _ _ k)..|done]).
Qed.

(** The candidates of a batch that may go. *)
Lemma prune_ids adb project_of json meta older chunk db id :
  in_ids (map pc_id (List.filter (still_prunable adb project_of json meta db older) chunk)) id = true <->
  exists c m, In c chunk /\ pc_id c = id /\ messages db !! id = Some m /\ mg_created m <= older /\
    pc_rows c = message_archive_source adb project_of json meta db id /\ nobody_waits adb db id m.
Proof.
  rewrite in_ids_spec, list_elem_of_fmap. setoid_rewrite list_elem_of_In. setoid_rewrite filter_In.
  unfold still_prunable, prunable. split.
  - intros (c & -> & Hc & Hp). apply andb_true_iff in Hp as [Hp Hrows]. apply bool_decide_eq_true in Hrows.
    destruct (messages db !! pc_id c) as [m|] eqn:Em; [|done]. apply andb_true_iff in Hp as [Ho%Z.leb_le Hs%settled_spec].
    exists c, m. done.
  - intros (c & m & Hc & <- & Hm & Ho & Hrows & Hn). exists c. split; [done|]. split; [done|]. rewrite Hm.
    rewrite (proj2 (Z.leb_le _ _) Ho), (proj2 (settled_spec adb db (pc_id c) m) Hn). by apply bool_decide_eq_true.
Qed.

(** ** Properties *)

Section histories.
  Context (ops : list MailOp).
Notation store := (run_mail ops empty_mail).

Lemma store_ok : mail_ok store.
Proof. apply run_mail_ok, empty_mail_ok. Qed.

(** C2: the counts of every inbox are exact: after every sequence of sends, clean-ups of sends, reads, acknowledgements,
    bulk and batch reads, prunes and rebuilds, with and without the trigger that older schemas carry, the row of an agent
    in [inbox_stats] is what counting its messages gives, and an agent that received nothing has no row.  In particular
    the total, unread and pending counts and the last time of the row are those of the messages it received. *)
Theorem inbox_counts_exact agent :
  inbox_stats store !! agent = compute_agent_inbox_stats store agent /\
  (inbox_stats store !! agent = None <-> forall id m, messages store !! id = Some m -> recipients store !! (id, agent) = None) /\
  (forall s, inbox_stats store !! agent = Some s ->
     total_count s = Z.of_nat (size (received store agent)) /\
     unread_count s = Z.of_nat (size (filter (fun im => rc_read im.2.2 = None) (received store agent))) /\
     ack_pending_count s = Z.of_nat (size (filter (fun im => rc_ack im.2.2 = None /\ mg_ack_required im.2.1 = 1) (received store agent))) /\
     (exists id m r, received store agent !! id = Some (m, r) /\ last_message_ts s = Some (mg_created m)) /\
     (forall id m r, received store agent !! id = Some (m, r) -> mg_created m <= default 0 (last_message_ts s))).
Proof.
  pose proof (mo_stats _ store_ok agent) as Hs. split; [exact Hs|]. rewrite Hs. split; [apply compute_None|]. apply compute_Some.
Qed.

(** Ids of messages are never given twice.  A send elects an id above every id given before it, above the highest
    id found in the archive, and within 64 bits; after whatever else happens, pruning and clean-ups of that very message
    included, a later send elects a higher one. *)
Theorem message_ids_never_reused more adb slug_of live seed q now row db adb' slug_of' live' seed' q' now' row' db' :
  create_message_tx adb slug_of live seed q now store = inr (row, db) ->
  create_message_tx adb' slug_of' live' seed' q' now' (run_mail more db) = inr (row', db') ->
  (forall id, is_Some (messages store !! id) -> id < mg_id row) /\ seed < mg_id row /\ seed' < mg_id row' /\
  0 < mg_id row < mg_id row' /\ mg_id row' <= i64_max /\ messages (run_mail more db) !! mg_id row' = None.
Proof.
  intros H1 H2. pose proof store_ok as H0. apply create_message_sent in H1; [|done].
  pose proof (sent_ok _ _ _ _ _ _ H0 H1) as Hdb. pose proof (run_mail_evolves more db Hdb) as He.
  apply create_message_sent in H2; [|by apply run_mail_ok].
  destruct (st_new _ _ _ _ _ _ H1) as (? & ? & Hold). destruct (st_new _ _ _ _ _ _ H2) as (? & ? & Hnew).
  destruct (mv_seq _ _ He _ (st_seq _ _ _ _ _ _ H1)) as (s & Hs & ?). specialize (Hnew s Hs).
  split_and!; try lia; [|apply (st_fresh _ _ _ _ _ _ H2)].
  intros id [m Hm]. destruct (mo_ids _ H0 id m Hm) as (_ & s0 & Hs0 & ?). specialize (Hold s0 Hs0). lia.
Qed.

(** C11: what was stored about a message stays.  A message never changes, but for the thread it is moved to, and never comes
    back once it is gone; a delivery
    keeps its slot; and the first time a message was read and the first time it was acknowledged stay, on direct and on
    shared deliveries, through every later history.  An acknowledged message is always a read one. *)
Theorem stored_times_final more :
  let later := run_mail more store in
  (forall id m m', messages store !! id = Some m -> messages later !! id = Some m' -> rethread None m' = rethread None m) /\
  (forall id a r r', recipients store !! (id, a) = Some r -> recipients later !! (id, a) = Some r' ->
     rc_kind r' = rc_kind r /\ times_kept (rc_read r) (rc_ack r) (rc_read r') (rc_ack r')) /\
  (forall id a r r', receipts store !! (id, a) = Some r -> receipts later !! (id, a) = Some r' ->
     times_kept (pr_read r) (pr_ack r) (pr_read r') (pr_ack r')) /\
  (forall id a r, recipients later !! (id, a) = Some r -> ack_read (rc_read r) (rc_ack r)) /\
  (forall id a r, receipts later !! (id, a) = Some r -> ack_read (pr_read r) (pr_ack r)) /\
  (forall id s, message_seq store = Some s -> id <= s -> is_Some (messages later !! id) -> is_Some (messages store !! id)).
Proof.
  pose proof store_ok as H0. intros later. pose proof (run_mail_evolves more store H0) as He. fold later in He.
  assert (mail_ok later) as Hl by (by apply run_mail_ok).
  assert (forall id, is_Some (messages store !! id) -> ~ newer store id) as Hknown by (intros id; by apply known_old).
  split_and!.
  - intros id m m' Hm E. destruct (mv_messages _ _ He id m' E) as [(? & ? & ?)|Hn]; [congruence|]. exfalso.
    eapply Hknown; [|done]. by exists m.
  - intros id a r r' Hr Hr'. destruct (mv_recipients _ _ He _ _ Hr') as [(r0 & Hr0 & Hk & Ht)|Hn]; [by simplify_eq|].
    exfalso. eapply Hknown; [|exact Hn]. by eapply mo_known.
  - intros id a r r'. apply (mv_receipts _ _ He).
  - intros id a r. apply (mo_acked _ Hl).
  - intros id a r Hr. exact (proj1 (mo_receipts _ Hl _ _ Hr)).
  - intros id s Hs Hid [m Hm]. destruct (mv_messages _ _ He id m Hm) as [(m0 & Hm0 & _)|Hn]; [by eexists|]. specialize (Hn s Hs). lia.
Qed.

(** C12: pruning takes only settled mail.  A message is deleted by a batch exactly when it was a candidate of the batch,
    is old enough, its rows are those that were captured when the archive was checked, and nobody who can see it, by name
    or through the project's mailbox, has it still to read or, where that is required, to acknowledge.  Then nothing of it
    is left; of every other message everything stays, and the inbox counts are exact again. *)
Theorem prune_only_settled adb project_of json_bytes metadata_bytes older_than chunk :
  let '((deleted, deleted_rows, skipped), db') := prune_batch adb project_of json_bytes metadata_bytes older_than chunk store in
  let may_go id := exists c m, In c chunk /\ pc_id c = id /\ messages store !! id = Some m /\ mg_created m <= older_than /\
    pc_rows c = message_archive_source adb project_of json_bytes metadata_bytes store id /\ nobody_waits adb store id m in
  (forall id, may_go id ->
     messages db' !! id = None /\ shared db' !! id = None /\ (forall a, recipients db' !! (id, a) = None /\ receipts db' !! (id, a) = None) /\
     Forall (fun e => ev_message e <> id) (events db')) /\
  (forall id, ~ may_go id ->
     messages db' !! id = messages store !! id /\ shared db' !! id = shared store !! id /\
     (forall a, recipients db' !! (id, a) = recipients store !! (id, a) /\ receipts db' !! (id, a) = receipts store !! (id, a)) /\
     (forall e, ev_message e = id -> e ∈ events db' <-> e ∈ events store)) /\
  stats_exact db'.
Proof.
  pose proof store_ok as H0. destruct (prune_batch _ _ _ _ _ _ _) as [[[n r] skipped] db'] eqn:E. intros may_go.
  set (ids := map pc_id (List.filter (still_prunable adb project_of json_bytes metadata_bytes store older_than) chunk)).
  assert (forall id, in_ids ids id = true <-> may_go id) as Hids by (intros id; apply prune_ids).
  assert (db' = delete_messages ids store) as ->.
  { unfold prune_batch in E. fold ids in E. destruct ids; [|by injection E]. injection E as _ _ _ <-. by rewrite delete_messages_nil. }
  destruct (delete_messages_tables ids store) as (Hm & Hr & Hs & Hc & He).
  split_and!; [| |apply (mo_stats _ (delete_messages_ok ids store H0))].
  - intros id Hid%Hids. rewrite Hm, Hs, He. setoid_rewrite Hr. setoid_rewrite Hc. cbn [fst]. rewrite Hid. split_and!; [done..|].
    apply Forall_forall. intros e [_ Hk]%list_elem_of_In%filter_In Heq. by rewrite Heq, Hid in Hk.
  - intros id Hid. rewrite <- Hids in Hid. apply not_true_is_false in Hid. rewrite Hm, Hs, He. setoid_rewrite Hr. setoid_rewrite Hc.
    cbn [fst]. rewrite Hid. split_and!; [done..|]. intros e <-. rewrite list_elem_of_In, filter_In, Hid, <- list_elem_of_In. tauto.
Qed.
End histories.

(** ** A small mailbox *)

Definition ex_agent (id : Z) (name : ustr) : AgentRow :=
  mkAgentRow id 7 name (u "codex-cli") (u "gpt-5") [] 10 10 (u "auto") (u "open") 0 None None.
Definition ex_agents : AgentDb := mkAgentDb [ex_agent 1 (u "BlueLake"); ex_agent 2 (u "RedFox"); ex_agent 3 (u "JadeOwl")] ∅ 4.
Definition ex_slug (p : Z) : option ustr := if p =? 7 then Some (u "backend") else None.

(** BlueLake writes to the others, to each once, or to the project. *)
Definition ex_new (rs : list (Z * ustr)) (mailbox : option ustr) : NewMessage :=
  mkNewMessage 7 1 (u "plan") (u "text") None None None (u "normal") true [] rs mailbox.
Definition ex_send (rs : list (Z * ustr)) (mailbox : option ustr) (now : Z) : MailOp :=
  OpSend ex_agents ex_slug true 40 (ex_new rs mailbox) now.
Definition ex_first_send : MailOp := ex_send [(2, u "to"); (3, u "cc")] None 100.
Definition ex_history : list MailOp :=
  [ex_first_send; ex_send [(2, u "to")] (Some (u "cc")) 110; OpRead ex_agents 2 41 120; OpRead ex_agents 3 42 121;
   OpAck ex_agents 2 41 130; OpAck ex_agents 3 41 131].

(** The first message is settled; the second is not. *)
Definition ex_projects (p : Z) : option (ustr * ustr) := (fun s => (s, s)) <$> ex_slug p.
Definition ex_zero {A} (_ : A) : Z := 0.
Definition ex_candidates (db : MessageDb) : list MessagePruneCandidate :=
  omap (capture_message_prune_candidate ex_agents ex_projects ex_zero ex_zero (u "pool") db) [41; 42].
Definition ex_prune (db : MessageDb) : MailOp := OpPrune ex_agents ex_projects ex_zero ex_zero 200 (ex_candidates db).

Lemma ex_history_run :
  let db := run_mail ex_history empty_mail in
  inbox_stats db !! 2 = Some (mkStats 2 1 1 (Some 110)) /\ inbox_stats db !! 3 = Some (mkStats 1 0 0 (Some 100)) /\
  receipts db !! (42, 3) = Some (mkReceipt (Some 121) None) /\ recipients db !! (41, 2) = Some (mkRecipient (u "to") (Some 120) (Some 130)).
Proof. vm_compute. done. Qed.

Lemma ex_prune_run :
  let db := run_mail ex_history empty_mail in
  let db' := run_mail [ex_prune db] db in
  messages db' !! 41 = None /\ is_Some (messages db' !! 42) /\ inbox_stats db' !! 2 = Some (mkStats 1 1 1 (Some 110)) /\ inbox_stats db' !! 3 = None.
Proof. vm_compute. split_and!; try done. by eexists. Qed.

(** What a send commits, as a pair. *)
Definition sent (r : MessageError + (MessageRow * MessageDb)) : MessageRow * MessageDb :=
  match r with inr x => x | inl _ => (new_row (ex_new [] None) 0 0 (mkEnvelope [] [] []), empty_mail) end.

Lemma message_ids_never_reused_witness :
  let first := sent (create_message_tx ex_agents ex_slug true 40 (ex_new [(2, u "to"); (3, u "cc")] None) 100 empty_mail) in
  let later := run_mail [OpCleanup 7 41 [2; 3]] first.2 in
  let next := sent (create_message_tx ex_agents ex_slug true 0 (ex_new [(2, u "to")] None) 300 later) in
  messages later !! 41 = None /\ mg_id first.1 = 41 /\ 41 < mg_id next.1 /\ messages later !! mg_id next.1 = None.
Proof.
  pose proof (message_ids_never_reused [] [OpCleanup 7 41 [2; 3]] ex_agents ex_slug true 40 (ex_new [(2, u "to"); (3, u "cc")] None) 100
    (sent (create_message_tx ex_agents ex_slug true 40 (ex_new [(2, u "to"); (3, u "cc")] None) 100 empty_mail)).1
    (sent (create_message_tx ex_agents ex_slug true 40 (ex_new [(2, u "to"); (3, u "cc")] None) 100 empty_mail)).2
    ex_agents ex_slug true 0 (ex_new [(2, u "to")] None) 300) as H.
  set (first := sent _) in *. set (later := run_mail [OpCleanup 7 41 [2; 3]] first.2).
  specialize (H (sent (create_message_tx ex_agents ex_slug true 0 (ex_new [(2, u "to")] None) 300 later)).1
                (sent (create_message_tx ex_agents ex_slug true 0 (ex_new [(2, u "to")] None) 300 later)).2).
  assert (mg_id first.1 = 41) as E by (vm_compute; reflexivity).
  destruct H as (_ & _ & _ & [_ Hlt] & _ & Hnone); [vm_compute; reflexivity|vm_compute; reflexivity|].
  cbn zeta. rewrite E in Hlt. split; [vm_compute; reflexivity|]. split; [done|]. split; [exact Hlt|exact Hnone].
Defined.
