(* ===== verification/DeliveryEventsProps.v ===== *)
(** * The ledger of delivery events

    A send appends one event for each recipient and one for the project's
    mailbox; nothing else adds events; the sequence only grows. *)

From S2P Require Import Prelude.
From S2P Require Import SqlTable.
From S2P Require Import RustStr.
From S2P Require Import Leases.
From S2P Require Import AgentRegistry.
From S2P Require Import Messages.
From S2P Require Import MessageRetention.
From S2P Require Import MessagesProps.
From S2P Require Import BulkReadProps.
From S2P Require Import MailHistoryProps.

(** ** What a send appends *)

(** The events of deliveries, numbered from [seq]. *)
Fixpoint new_events (project id ts seq : Z) (rs : list (option Z * ustr)) : list DeliveryEvent :=
  match rs with
  | [] => []
  | (a, kind) :: rs => mkEvent (seq + 1) project a id kind ts :: new_events project id ts (seq + 1) rs
  end.

Lemma new_events_app project id ts rs rs' : forall seq,
  new_events project id ts seq (rs ++ rs') =
  new_events project id ts seq rs ++ new_events project id ts (seq + Z.of_nat (length rs)) rs'.
Proof.
  induction rs as [|[a k] rs IH]; intros seq; cbn; [by rewrite Z.add_0_r|]. rewrite IH. do 3 f_equal. lia.
Qed.

Lemma new_events_elem project id ts rs : forall seq e, e ∈ new_events project id ts seq rs ->
  ev_message e = id /\ seq < ev_seq e <= seq + Z.of_nat (length rs) /\ (exists k, (ev_agent e, k) ∈ rs).
Proof.
  induction rs as [|[a k] rs IH]; intros seq e; cbn; [by intros ?%elem_of_nil|]. intros [->|He]%elem_of_cons.
  - cbn. split_and!; [done|lia|lia|]. exists k. by left.
  - destruct (IH _ _ He) as (? & ? & k' & ?). split_and!; [done|lia|lia|]. exists k'. by right.
Qed.

Lemma new_events_sorted project id ts rs : forall seq, StronglySorted (fun a b => ev_seq a < ev_seq b) (new_events project id ts seq rs).
Proof.
  induction rs as [|[a k] rs IH]; intros seq; cbn; constructor; [done|]. apply Forall_forall. intros e He.
  apply new_events_elem in He as (_ & ? & _). cbn. lia.
Qed.

Lemma insert_recipient_events id a kind db m :
  messages db !! id = Some m -> recipients db !! (id, a) = None ->
  (forall e, e ∈ events db -> ev_message e = id -> ev_agent e <> Some a) ->
  let db' := (insert_recipient id a kind db).2 in
  if event_check (Some a) kind then
    events db' = events db ++ [mkEvent (event_seq db + 1) (mg_project m) (Some a) id kind (mg_created m)] /\
    event_seq db' = event_seq db + 1
  else events db' = events db /\ event_seq db' = event_seq db.
Proof.
  intros Hm Hr He. unfold insert_recipient, insert_or_ignore. rewrite Hr. cbn [snd].
  set (db1 := set_recipients _ db). set (db2 := if insert_trigger db1 then trg_inbox_stats_insert a id db1 else db1).
  assert (messages db2 = messages db /\ events db2 = events db /\ event_seq db2 = event_seq db) as (E1 & E2 & E3).
  { unfold db2, db1, trg_inbox_stats_insert, insert_or_ignore. cbn. destruct (insert_trigger db); [|done]. by destruct (inbox_stats db !! a). }
  unfold trg_inbox_delivery_events. rewrite E1, Hm, E2. destruct (event_check (Some a) kind); cbn [negb orb]; [|done].
  assert (existsb (fun e => bool_decide (ev_agent e = Some a) && (ev_message e =? id)) (events db) = false) as ->.
  { apply not_true_iff_false. intros (e & Hin & H)%existsb_exists. breflect. eapply He; [by apply list_elem_of_In|done|done]. }
  unfold next_event. cbn. by rewrite E2, E3.
Qed.

Lemma insert_recipient_again id a kind db : is_Some (recipients db !! (id, a)) -> insert_recipient id a kind db = (false, db).
Proof. intros [r Hr]. unfold insert_recipient, insert_or_ignore. by rewrite Hr. Qed.

(** The events of direct deliveries: a slot that names itself [project] has none. *)
Definition direct_events (rs : list (Z * ustr)) : list (option Z * ustr) :=
  map (fun r => (Some r.1, r.2)) (List.filter (fun r => event_check (Some r.1) r.2) rs).

(** The loop over recipients, after those of [seen]. *)
Lemma insert_recipients_fold id m rs : forall seen ds rc db,
  messages db !! id = Some m -> (forall a, is_Some (recipients db !! (id, a)) <-> a ∈ seen) ->
  (forall e a, e ∈ events db -> ev_message e = id -> ev_agent e = Some a -> a ∈ seen) ->
  let db' := (foldl (fun '(delivered, recount, db) r =>
           let '(inserted, db) := insert_recipient id r.1 r.2 db in
           if inserted then (delivered ++ [r.1], recount, db) else (delivered, recount ++ [r.1], db)) (ds, rc, db) rs).2 in
  let rs' := direct_events (dedup_recipients seen rs) in
  events db' = events db ++ new_events (mg_project m) id (mg_created m) (event_seq db) rs' /\
  event_seq db' = event_seq db + Z.of_nat (length rs').
Proof.
  induction rs as [|[a kind] rs IH]; intros seen ds rc db Hm Hseen Hev; cbn [foldl dedup_recipients].
  { cbn. by rewrite app_nil_r, Z.add_0_r. }
  cbn [fst snd]. destruct (insert_recipient_spec id a kind db) as (Hs & Hb & Hr & _).
  pose proof (insert_recipient_events id a kind db m Hm) as He. pose proof (insert_recipient_again id a kind db) as Hagain.
  destruct (insert_recipient id a kind db) as [b db1]. cbn [fst snd] in *.
  assert (messages db1 !! id = Some m) as Hm1 by (destruct Hs as (-> & _); done).
  destruct (in_ids seen a) eqn:Ein.
  - apply in_ids_spec in Ein. apply Hseen in Ein as Er. injection (Hagain Er) as -> ->.
    by apply IH.
  - apply in_ids_false in Ein. assert (recipients db !! (id, a) = None) as Er.
    { destruct (recipients db !! (id, a)) eqn:E; [|done]. destruct Ein. apply Hseen. by rewrite E. }
    rewrite Er in Hb. rewrite bool_decide_eq_true_2 in Hb by done. subst b. cbn in Hr.
    specialize (He Er ltac:(intros e Hin Hid Ha; by apply Ein, (Hev e))).
    destruct (IH (a :: seen) (ds ++ [a]) rc db1) as [H1 H2]; [done| | |].
    + intros x. rewrite Hr, elem_of_cons. destruct (decide (x = a)) as [->|Hne]; [rewrite lookup_insert_eq; naive_solver|].
      rewrite lookup_insert_ne by congruence. rewrite Hseen. naive_solver.
    + intros e x. rewrite elem_of_cons. destruct (event_check (Some a) kind); destruct He as [-> _]; [|intros; right; by apply (Hev e)].
      rewrite elem_of_app, list_elem_of_singleton. intros [Hin| ->] Hid Hx; [right; by apply (Hev e)|left; by injection Hx].
    + rewrite H1, H2. unfold direct_events. cbn [List.filter fst snd].
      destruct (event_check (Some a) kind); destruct He as [-> ->]; [|done].
      rewrite <- app_assoc. cbn. split; [done|lia].
Qed.

(** ** The ledger after every history *)

Definition event_lt (a b : DeliveryEvent) : Prop := ev_seq a < ev_seq b.

Record events_ok (db : MessageDb) : Prop := {
  eo_sorted : StronglySorted event_lt (events db);
  eo_seq e : e ∈ events db -> 0 < ev_seq e <= event_seq db;
  eo_pos : 0 <= event_seq db;
  eo_known e : e ∈ events db -> exists s, message_seq db = Some s /\ ev_message e <= s;
}.

Lemma empty_events_ok : events_ok empty_mail.
Proof. split; cbn; [constructor|by intros e ?%elem_of_nil|done|by intros e ?%elem_of_nil]. Qed.

(** What a send adds: an event for each direct delivery, one for the project's mailbox. *)
Definition send_events (q : NewMessage) : list (option Z * ustr) :=
  direct_events (dedup_recipients [] (nm_recipients q)) ++
  match nm_mailbox q with Some _ => [(None, u "project")] | None => [] end.

Lemma deliver_shared_events q id now db :
  (nm_mailbox q <> None -> forall e, e ∈ events db -> ev_message e = id -> ev_agent e <> None) ->
  let db' := deliver_shared q id now db in
  let rs := match nm_mailbox q with Some _ => [(None, u "project")] | None => [] end in
  events db' = events db ++ new_events (nm_project q) id now (event_seq db) rs /\
  event_seq db' = event_seq db + Z.of_nat (length rs) /\
  shared db' = match nm_mailbox q with Some kind => <[id := mkShared (nm_project q) kind now]> (shared db) | None => shared db end.
Proof.
  unfold deliver_shared. destruct (nm_mailbox q) as [kind|]; cbn zeta; [|intros _; cbn; by rewrite app_nil_r, Z.add_0_r].
  intros He. specialize (He ltac:(done)). unfold insert_project_event. cbn [events set_shared event_seq].
  assert (existsb (fun e => bool_decide (ev_agent e = None) && (ev_project e =? nm_project q) && (ev_message e =? id)) (events db) = false) as ->; [|done].
  apply not_true_iff_false. intros (e & Hin & H)%existsb_exists. breflect. eapply He; [by apply list_elem_of_In|done|done].
Qed.

Lemma create_message_events adb slug_of live seed q now db row db' :
  mail_ok db -> events_ok db -> create_message_tx adb slug_of live seed q now db = inr (row, db') ->
  events db' = events db ++ new_events (nm_project q) (mg_id row) now (event_seq db) (send_events q) /\
  event_seq db' = event_seq db + Z.of_nat (length (send_events q)) /\
  shared db' = match nm_mailbox q with
               | Some kind => <[mg_id row := mkShared (nm_project q) kind now]> (shared db)
               | None => shared db
               end.
Proof.
  intros Hok Hev. unfold create_message_tx. destruct (ensure_agents_active _ _ _); [done|].
  destruct (elect_message_id seed db) as [[id db1]|] eqn:Ee; [|done].
  apply elect_spec in Ee as (-> & _ & _ & _ & Hseq). destruct (negb live); [done|]. destruct (bool_decide _); [done|].
  destruct (build_envelope _ _ q) as [|e]; [done|]. cbn [mbind result_bind messages set_message_seq].
  destruct (messages db !! id) eqn:Em; [done|].
  set (row0 := new_row q id now e). set (db2 := set_messages (<[id := row0]> (messages db)) (set_message_seq (Some id) db)).
  pose proof (fresh_unknown _ _ Hok Em) as Hnone.
  assert (forall e, e ∈ events db -> ev_message e <> id) as Hold.
  { intros x Hx E. destruct (eo_known _ Hev x Hx) as (s & Hs & ?). specialize (Hseq s Hs). lia. }
  pose proof (insert_recipients_fold id row0 (nm_recipients q) [] [] [] db2) as Hf. cbn zeta in Hf. fold (insert_recipients id (nm_recipients q) db2) in Hf.
  pose proof (insert_recipients_spec db2 id (nm_recipients q) Hnone) as Hin.
  destruct (insert_recipients id (nm_recipients q) db2) as [[ds rc] db3]. cbn [snd] in Hf.
  destruct Hf as [H1 H2]; [by cbn; rewrite lookup_insert_eq| | |].
  { intros a. cbn. rewrite Hnone. split; [by intros [? ?]|by intros ?%elem_of_nil]. }
  { intros x a Hx Hid. by destruct (Hold x Hx). }
  destruct (deliver_shared_events q id now db3) as (D1 & D2 & D3).
  { intros _ x. rewrite H1, elem_of_app. intros [Hx|Hx] Hid; [by destruct (Hold x Hx)|].
    apply new_events_elem in Hx as (_ & _ & k & Hk). apply list_elem_of_fmap in Hk as ([a k'] & Hk & _). by injection Hk as -> _. }
  destruct (add_stats_same ds rc (nm_ack q) now (deliver_shared q id now db3)) as (_ & _ & A3 & _ & _ & A6 & A7).
  assert (shared db3 = shared db) as Hs3 by (exact (proj1 (proj2 (in_same _ _ _ _ Hin)))).
  intros [= <- <-]. cbn [mg_id row0 new_row]. rewrite A6, A7, A3, D1, D2, D3, H1, H2, Hs3. unfold send_events.
  rewrite new_events_app, <- app_assoc, length_app. cbn [mg_project mg_created row0 new_row event_seq db2 set_messages set_message_seq events].
  split_and!; [done|lia|done].
Qed.

Lemma sent_events_ok adb slug_of live seed q now db row db' :
  mail_ok db -> events_ok db -> create_message_tx adb slug_of live seed q now db = inr (row, db') -> events_ok db'.
Proof.
  intros Hok Hev H. destruct (create_message_events _ _ _ _ _ _ _ _ _ Hok Hev H) as (He & Hn & _).
  apply create_message_sent in H; [|done]. destruct (st_new _ _ _ _ _ _ H) as (_ & _ & Hseq). destruct Hev as [Hs Hq Hp Hk]. split.
  - rewrite He. apply (sorted_app event_lt); [done|apply new_events_sorted|]. intros x y Hx Hy.
    apply new_events_elem in Hy as (_ & ? & _). apply Hq in Hx. unfold event_lt. lia.
  - intros e. rewrite He, Hn, elem_of_app. intros [Hx|Hx]; [apply Hq in Hx; lia|]. apply new_events_elem in Hx as (_ & ? & _). lia.
  - lia.
  - intros e. rewrite He, elem_of_app, (st_seq _ _ _ _ _ _ H). intros [Hx|Hx].
    + destruct (Hk e Hx) as (s & Hs' & ?). exists (mg_id row). split; [done|]. specialize (Hseq s Hs'). lia.
    + apply new_events_elem in Hx as (-> & _). exists (mg_id row). split; [done|lia].
Qed.

(** Operations that add no event: some of them remove. *)
Definition events_kept (db db' : MessageDb) : Prop :=
  event_seq db' = event_seq db /\ message_seq db' = message_seq db /\ exists p, events db' = List.filter p (events db).

Lemma kept_events_ok db db' : events_ok db -> events_kept db db' -> events_ok db'.
Proof.
  intros [Hs Hq Hp Hk] (E1 & E2 & p & E3). assert (forall e, e ∈ events db' -> e ∈ events db) as Hsub.
  { intros e. rewrite E3, !list_elem_of_In, filter_In. tauto. }
  split; rewrite ?E1, ?E2; auto. rewrite E3. clear -Hs. induction Hs as [|x l Hs IH Hx]; cbn; [constructor|].
  destruct (p x); [|done]. constructor; [done|]. rewrite Forall_forall in *. intros y [Hy _]%list_elem_of_In%filter_In.
  by apply Hx, list_elem_of_In.
Qed.

Definition same_ledger (db db' : MessageDb) : Prop :=
  event_seq db' = event_seq db /\ message_seq db' = message_seq db /\ events db' = events db /\
  (forall id, is_Some (messages db !! id) -> is_Some (messages db' !! id)).

Lemma same_ledger_refl db : same_ledger db db.
Proof. done. Qed.
Lemma same_ledger_kept db db' : same_ledger db db' -> events_kept db db'.
Proof. intros (?&?&?&?). split_and!; [done..|]. exists (fun _ => true). by rewrite bfilter_all_true. Qed.

Lemma same_ledger_committed {X R} (r : X + (R * MessageDb)) db :
  (forall y db', r = inr (y, db') -> same_ledger db db') -> same_ledger db (committed r db).
Proof. intros H. destruct r as [|[y db']]; [done|by eapply H]. Qed.

Lemma record_ledger adb agent id up now db x : record_project_mailbox_receipt adb agent id up now db = inr (Some x) -> same_ledger db x.2.
Proof.
  unfold record_project_mailbox_receipt. destruct (visible_receipt adb db agent id); [|done].
  by destruct (receipts _ !! _); [|done]; intros [= <-].
Qed.

Lemma mark_read_ledger adb agent id now db : same_ledger db (committed (mark_message_read adb agent id now db) db).
Proof.
  apply same_ledger_committed. intros y db'. unfold mark_message_read. set (db1 := rebuild_agents_inbox_stats _ _).
  destruct (recipients db1 !! (id, agent)) as [r|]; [destruct (rc_read r); by intros [= <- <-]|].
  destruct (record_project_mailbox_receipt _ _ _ _ _ _) as [|[[[[ts|] ack] db2]|]] eqn:E; try done. intros [= <- <-]. exact (record_ledger _ _ _ _ _ _ _ E).
Qed.

Lemma ack_ledger adb agent id now db : same_ledger db (committed (acknowledge_message_tx adb agent id now db) db).
Proof.
  apply same_ledger_committed. intros y db'. unfold acknowledge_message_tx. set (db1 := rebuild_agents_inbox_stats _ _).
  destruct (recipients db1 !! (id, agent)) as [r|]; [destruct (rc_read r), (rc_ack r); by intros [= <- <-]|].
  destruct (record_project_mailbox_receipt _ _ _ _ _ _) as [|[[[[ts|] [ack|]] db2]|]] eqn:E; try done. intros [= <- <-]. exact (record_ledger _ _ _ _ _ _ _ E).
Qed.

Lemma read_sync_ledger agent ids now db : same_ledger db (committed (mark_messages_read_batch_sync agent ids now db) db).
Proof.
  apply same_ledger_committed. intros y db'. unfold mark_messages_read_batch_sync. destruct ids as [|i ids]; [by intros [= <- <-]|].
  set (updated := omap _ _). rewrite rebuild_sync, read_unread_chunks.
  destruct updated; case_bool_decide; try done; by intros [= <- <-].
Qed.

Lemma write_receipts_ledger agent now ids db : same_ledger db (foldl (fun db id => write_receipt Read id agent now db) db ids).
Proof. by rewrite <- (write_receipts_same agent ids now db). Qed.

Lemma read_shared_sync_ledger adb agent ids now db :
  same_ledger db (committed (mark_project_mailbox_read_batch_sync adb agent ids now db) db).
Proof.
  apply same_ledger_committed. intros y db'. unfold mark_project_mailbox_read_batch_sync. destruct ids as [|i ids]; [by intros [= <- <-]|].
  set (observed := omap _ (merge_sort Z.le _)). set (updated := omap _ _). pose proof (write_receipts_ledger agent now updated db).
  destruct (_ || _); [by intros [= <- <-]|done].
Qed.

Lemma bulk_tables_ledger agent now sel db : same_ledger db (bulk_tables agent now sel db).
Proof.
  unfold bulk_tables. rewrite foldl_map_ids, read_unread_chunks.
  rewrite <- (write_receipts_same agent (map br_message (List.filter br_shared sel)) now). by destruct (direct_ids sel).
Qed.

(** Deletions only. *)
Definition deletes (o : MailOp) : bool :=
  match o with OpCleanup _ _ _ | OpPrune _ _ _ _ _ _ => true | _ => false end.
Definition sends (o : MailOp) : bool := match o with OpSend _ _ _ _ _ _ => true | _ => false end.

Lemma other_op_ledger db o : deletes o = false -> sends o = false -> same_ledger db (apply_mail_op db o).
Proof.
  destruct o; try done; intros _ _; cbn [apply_mail_op].
  - apply mark_read_ledger.
  - unfold mark_messages_read_batch. destruct ids; [done|]. by rewrite touch_chunks.
  - apply read_sync_ledger.
  - apply read_shared_sync_ledger.
  - destruct limit as [|limit]; [done|]. rewrite mark_bulk_eq. apply bulk_tables_ledger.
  - apply ack_ledger.
  - unfold acknowledge_messages_batch. destruct ids; [done|]. by rewrite touch_chunks.
  - apply same_ledger_committed. intros y db'. unfold update_message_thread_id. destruct (is_empty _); [by intros [= <- <-]|].
    destruct (messages db !! id) as [m|] eqn:Em; [|done]. case_bool_decide; intros [= <- <-]; [done|]. split_and!; [done..|].
    intros k Hk. cbn. destruct (decide (k = id)) as [->|]; [rewrite lookup_alter_eq, Em|rewrite lookup_alter_ne by congruence]; eauto.
Qed.

Lemma delete_op_ledger db o : deletes o = true -> events_kept db (apply_mail_op db o).
Proof.
  destruct o; try done; intros _; cbn [apply_mail_op].
  - unfold cleanup_message. set (db1 := set_recipients _ db).
    destruct (messages db1 !! id) as [m|]; [|by apply same_ledger_kept]. destruct (mg_project m =? project); [|by apply same_ledger_kept].
    split_and!; [done..|]. by eexists.
  - unfold prune_batch. destruct (map pc_id _) as [|i ids] eqn:E; [by apply same_ledger_kept|]. rewrite <- E.
    destruct (delete_messages_tables (map pc_id (List.filter (still_prunable adb project_of json_bytes metadata_bytes db older_than) chunk)) db) as (_&_&_&_&He).
    cbn [snd]. split_and!; [| |by eexists]; unfold delete_messages; by destruct (remove_dups _).
Qed.

Lemma op_events_ok db o : mail_ok db -> events_ok db -> events_ok (apply_mail_op db o).
Proof.
  intros Hok Hev. destruct (deletes o) eqn:Hd; [by eapply kept_events_ok, delete_op_ledger|].
  destruct (sends o) eqn:Hs; [|by eapply kept_events_ok, same_ledger_kept, other_op_ledger].
  destruct o; try done. cbn [apply_mail_op]. destruct (create_message_tx _ _ _ _ _ _ _) as [|[row db']] eqn:E; [done|].
  by eapply sent_events_ok.
Qed.

Lemma run_events_ok ops : forall db, mail_ok db -> events_ok db -> events_ok (run_mail ops db).
Proof. induction ops as [|o ops IH]; intros db Hok Hev; [done|]. apply IH; [by apply op_mail_ok|by apply op_events_ok]. Qed.

(** Without deletions the ledger is append-only, past its sequence. *)
Definition appended (db db' : MessageDb) : Prop :=
  exists l, events db' = events db ++ l /\ event_seq db <= event_seq db' /\ (forall e, e ∈ l -> event_seq db < ev_seq e <= event_seq db') /\
    (event_seq db = 0 -> 0 < event_seq db' -> exists e, e ∈ l /\ ev_seq e = 1) /\
    (forall id, is_Some (messages db !! id) -> is_Some (messages db' !! id)).

Lemma appended_refl db db' : events db' = events db -> event_seq db' = event_seq db ->
  (forall id, is_Some (messages db !! id) -> is_Some (messages db' !! id)) -> appended db db'.
Proof.
  intros E1 E2 E3. exists []. rewrite app_nil_r, E1, E2. split_and!; try done; [by intros e ?%elem_of_nil|lia].
Qed.

Lemma op_appended db o : mail_ok db -> events_ok db -> deletes o = false -> appended db (apply_mail_op db o).
Proof.
  intros Hok Hev Ho. destruct (sends o) eqn:Hs.
  2: { destruct (other_op_ledger db o Ho Hs) as (E1 & _ & E2 & E3). by apply appended_refl. }
  destruct o; try done. cbn [apply_mail_op]. destruct (create_message_tx _ _ _ _ _ _ _) as [|[row db']] eqn:E; cbn [committed]; [by apply appended_refl|].
  destruct (create_message_events _ _ _ _ _ _ _ _ _ Hok Hev E) as (He & Hn & _). eexists. split_and!; [exact He|lia| | |].
  - intros e (_ & ? & _)%new_events_elem. lia.
  - intros H0 Hpos. rewrite H0 in *. destruct (send_events q) as [|[a k] rs]; [cbn in Hn; lia|]. eexists. split; [by left|done].
  - intros id Hm. apply create_message_sent in E; [|done]. rewrite (st_messages _ _ _ _ _ _ E).
    destruct (decide (mg_id row = id)) as [<-|]; [rewrite lookup_insert_eq|rewrite lookup_insert_ne by done]; eauto.
Qed.

Lemma appended_trans a b c : events_ok a -> events_ok b -> appended a b -> appended b c -> appended a c.
Proof.
  intros Ha Hb (l0 & Hl0 & Hle0 & Hin0 & Hone0 & Hm0) (l & Hl & Hle & Hin & Hone & Hm).
  exists (l0 ++ l). rewrite Hl, Hl0, app_assoc. split_and!; [done|lia| | |eauto].
  - intros e [He|He]%elem_of_app; [apply Hin0 in He|apply Hin in He]; lia.
  - intros H0 Hpos. pose proof (eo_pos _ Hb). destruct (decide (event_seq b = 0)) as [E|E].
    + destruct (Hone E Hpos) as (e & ? & ?). exists e. rewrite elem_of_app. auto.
    + destruct Hone0 as (e & ? & ?); [done|lia|]. exists e. rewrite elem_of_app. auto.
Qed.

Lemma run_appended ops : forall db, mail_ok db -> events_ok db -> Forall (fun o => deletes o = false) ops -> appended db (run_mail ops db).
Proof.
  induction ops as [|o ops IH]; intros db Hok Hev Hops; [by apply appended_refl|]. cbn [run_mail foldl].
  apply Forall_cons in Hops as [Ho Hops]. pose proof (op_events_ok db o Hok Hev) as Hev1.
  eapply appended_trans; [done|exact Hev1|by apply op_appended|]. apply IH; [by apply op_mail_ok|done|done].
Qed.
