(* ===== verification/DeliveryCursorProps.v ===== *)
(** * Properties of the delivery cursor

    One page is the next events of the agent's feed; a monitor that stores the
    cursor of each page sees every delivery once, in order, while nothing is
    pruned; and what pruning does to cursors. *)

From S2P Require Import Prelude.
From S2P Require Import SqlTable.
From S2P Require Import RustStr.
From S2P Require Import Leases.
From S2P Require Import AgentRegistry.
From S2P Require Import Messages.
From S2P Require Import MessageRetention.
From S2P Require Import MessagesProps.
From S2P Require Import BulkReadProps.
From S2P Require Import MailHistoryProps.
From S2P Require Import DeliveryCursor.
From S2P Require Import DeliveryEventsProps.

#[export] Instance event_le_trans : Transitive event_le.
Proof. intros x y z. unfold event_le. lia. Qed.
#[export] Instance event_le_total : Total event_le.
Proof. intros x y. unfold event_le. lia. Qed.

Definition seq_lt (a b : InboxDeliveryEvent) : Prop := ie_seq a < ie_seq b.

(** ** The feed of an agent *)

Section feed.
  Context (adb : AgentDb) (project agent : Z).

(** What a poll from the start can see, of its own and shared. *)
Definition feed_event (db : MessageDb) (e : DeliveryEvent) : option InboxDeliveryEvent :=
  match direct_event adb db project agent 0 e with
  | Some x => Some x
  | None => shared_event adb db project agent 0 e
  end.
Definition feed (db : MessageDb) : list InboxDeliveryEvent := omap (feed_event db) (events db).
Definition pending (db : MessageDb) (cursor : Z) : list InboxDeliveryEvent := List.filter (fun x => cursor <? ie_seq x) (feed db).

Lemma direct_event_spec db c e x : direct_event adb db project agent c e = Some x <->
  exists m, messages db !! ev_message e = Some m /\ ev_project e = project /\ ev_agent e = Some agent /\ c < ev_seq e /\ x = delivery_of adb m e.
Proof.
  unfold direct_event. destruct (messages db !! ev_message e) as [m|]; cbn; [|naive_solver]. destruct (_ && _) eqn:E.
  - breflect. split; [intros [= <-]; by exists m|]. by intros (m' & [= <-] & _ & _ & _ & ->).
  - split; [done|]. intros (m' & [= <-] & Hp & Ha & Hc & _). rewrite Hp, Ha, Z.eqb_refl, bool_decide_eq_true_2 in E by done. cbn in E. lia.
Qed.

Lemma shared_event_spec db c e x : shared_event adb db project agent c e = Some x <->
  exists d m v, shared db !! ev_message e = Some d /\ messages db !! ev_message e = Some m /\ get_agent_by_id adb agent = Some v /\
    ev_project e = project /\ ev_agent e = None /\ ev_kind e = u "project" /\ c < ev_seq e /\
    visible_to_viewer db (ev_message e) d m v = true /\ x = delivery_of adb m e.
Proof.
  unfold shared_event. destruct (shared db !! ev_message e) as [d|]; cbn [mbind option_bind]; [|naive_solver].
  destruct (messages db !! ev_message e) as [m|]; cbn [mbind option_bind]; [|naive_solver]. destruct (get_agent_by_id adb agent) as [v|]; cbn [mbind option_bind]; [|naive_solver].
  destruct (_ && _) eqn:E.
  - breflect. apply ustr_eqb_eq in H2 as Hk. split; [intros [= <-]; exists d, m, v; by split_and!|]. intros (? & ? & ? & [= <-] & [= <-] & [= <-] & _ & _ & _ & _ & _ & ->). done.
  - split; [done|]. intros (d' & m' & v' & [= <-] & [= <-] & [= <-] & Hp & Ha & Hk & Hc & Hv & _).
    rewrite Hp, Ha, Hk, Hv, Z.eqb_refl, ustr_eqb_refl, bool_decide_eq_true_2 in E by done. cbn in E. lia.
Qed.

(** A row of either kind belongs to one event. *)
Lemma feed_event_spec db e x : feed_event db e = Some x <->
  direct_event adb db project agent 0 e = Some x \/ shared_event adb db project agent 0 e = Some x.
Proof.
  unfold feed_event. destruct (direct_event adb db project agent 0 e) as [y|] eqn:Ed; [|naive_solver].
  split; [intros [= <-]; by left|]. intros [?|Hs]; [done|]. apply direct_event_spec in Ed as (m & _ & _ & Ha & _).
  apply shared_event_spec in Hs as (d & m' & v & _ & _ & _ & _ & Ha' & _). congruence.
Qed.

Lemma feed_event_seq db e x : feed_event db e = Some x -> ie_seq x = ev_seq e /\ ie_message x = ev_message e.
Proof.
  intros [(m & _ & _ & _ & _ & ->)%direct_event_spec|(d & m & v & _ & _ & _ & _ & _ & _ & _ & _ & ->)%shared_event_spec]%feed_event_spec; done.
Qed.

Lemma feed_sorted db : events_ok db -> StronglySorted seq_lt (feed db).
Proof.
  intros Hev. unfold feed. pose proof (eo_sorted _ Hev) as Hs. induction Hs as [|e l Hs IH He]; cbn; [constructor|].
  destruct (feed_event db e) as [x|] eqn:Ex; [|done]. constructor; [done|]. apply Forall_forall.
  intros y (e' & Hin & Hy)%list_elem_of_omap. rewrite Forall_forall in He. specialize (He e' Hin).
  apply feed_event_seq in Ex as [Ex _], Hy as [Hy _]. unfold seq_lt, event_lt in *. lia.
Qed.

Lemma feed_positive db x : events_ok db -> x ∈ feed db -> 0 < ie_seq x.
Proof. intros Hev (e & Hin & [-> _]%feed_event_seq)%list_elem_of_omap. by apply (eo_seq _ Hev). Qed.

Lemma sorted_le (l : list InboxDeliveryEvent) : StronglySorted seq_lt l -> StronglySorted event_le l.
Proof. induction 1 as [|x l Hs IH Hx]; constructor; [done|]. eapply Forall_impl; [done|]. unfold seq_lt, event_le. cbn. lia. Qed.

Lemma sorted_apart (l : list InboxDeliveryEvent) : StronglySorted seq_lt l -> told_apart event_le l.
Proof.
  induction 1 as [|a l Hs IH Ha]; intros x y Hx Hy H1 H2; [by apply elem_of_nil in Hx|].
  rewrite Forall_forall in Ha. unfold seq_lt, event_le in *.
  apply elem_of_cons in Hx as [->|Hx], Hy as [->|Hy]; [done|specialize (Ha y Hy)|specialize (Ha x Hx)|by apply IH]; lia.
Qed.

Lemma filter_sorted (p : InboxDeliveryEvent -> bool) (l : list InboxDeliveryEvent) : StronglySorted seq_lt l -> StronglySorted seq_lt (List.filter p l).
Proof.
  induction 1 as [|a l Hs IH Ha]; cbn; [constructor|]. destruct (p a); [|done]. constructor; [done|].
  rewrite Forall_forall in *. intros y [Hy _]%list_elem_of_In%filter_In. by apply Ha, list_elem_of_In.
Qed.

(** The two queries together return what is pending, in some order. *)
Lemma queries_pending db c : events_ok db ->
  omap (direct_event adb db project agent c) (events db) ++ omap (shared_event adb db project agent c) (events db) ≡ₚ pending db c.
Proof.
  intros Hev. unfold pending, feed. assert (forall e, e ∈ events db -> 0 < ev_seq e) as Hpos by (intros e He; by apply (eo_seq _ Hev)).
  induction (events db) as [|e l IH]; [done|]. cbn [omap list_omap].
  assert (forall e, e ∈ l -> 0 < ev_seq e) as Hl by (intros x Hx; apply Hpos; by right). specialize (IH Hl).
  specialize (Hpos e (list_elem_of_here _ _)).
  destruct (feed_event db e) as [x|] eqn:Ex.
  - apply feed_event_seq in Ex as Hseq. destruct Hseq as [Hseq _]. cbn [List.filter]. rewrite Hseq. apply feed_event_spec in Ex as [Hd|Hs].
    + apply direct_event_spec in Hd as (m & Hm & Hp & Ha & _ & ->).
      assert (shared_event adb db project agent c e = None) as ->.
      { destruct (shared_event _ _ _ _ _ _) eqn:Es; [|done]. apply shared_event_spec in Es as (d & m' & v & _ & _ & _ & _ & Ha' & _). congruence. }
      destruct (Z.ltb_spec c (ev_seq e)) as [Hc|Hc].
      * assert (direct_event adb db project agent c e = Some (delivery_of adb m e)) as -> by (apply direct_event_spec; by exists m).
        cbn. by f_equiv.
      * assert (direct_event adb db project agent c e = None) as ->; [|done].
        destruct (direct_event _ _ _ _ _ _) eqn:Ed; [|done]. apply direct_event_spec in Ed as (m' & _ & _ & _ & ? & _). lia.
    + apply shared_event_spec in Hs as (d & m & v & Hd & Hm & Hv & Hp & Ha & Hk & _ & Hvis & ->).
      assert (direct_event adb db project agent c e = None) as ->.
      { destruct (direct_event _ _ _ _ _ _) eqn:Ed; [|done]. apply direct_event_spec in Ed as (m' & _ & _ & Ha' & _). congruence. }
      destruct (Z.ltb_spec c (ev_seq e)) as [Hc|Hc].
      * assert (shared_event adb db project agent c e = Some (delivery_of adb m e)) as -> by (apply shared_event_spec; exists d, m, v; by split_and!).
        rewrite <- Permutation_middle. by f_equiv.
      * assert (shared_event adb db project agent c e = None) as ->; [|done].
        destruct (shared_event _ _ _ _ _ _) eqn:Ed; [|done]. apply shared_event_spec in Ed as (?&?&?&_&_&_&_&_&_&?&_). lia.
  - assert (direct_event adb db project agent c e = None) as ->.
    { destruct (direct_event adb db project agent c e) as [x|] eqn:Ed; [|done]. apply direct_event_spec in Ed as (m & Hm & Hp & Ha & _ & ->).
      assert (feed_event db e = Some (delivery_of adb m e)); [|congruence]. apply feed_event_spec. left. apply direct_event_spec. by exists m. }
    assert (shared_event adb db project agent c e = None) as ->; [|done].
    destruct (shared_event adb db project agent c e) as [x|] eqn:Ed; [|done].
    apply shared_event_spec in Ed as (d & m & v & Hd & Hm & Hv & Hp & Ha & Hk & _ & Hvis & ->).
    assert (feed_event db e = Some (delivery_of adb m e)); [|congruence]. apply feed_event_spec. right. apply shared_event_spec.
    exists d, m, v. by split_and!.
Qed.

Lemma pending_sorted db c : events_ok db -> StronglySorted seq_lt (pending db c).
Proof. intros Hev. by apply filter_sorted, feed_sorted. Qed.

Lemma first_pending db c n : events_ok db ->
  take n (merge_sort event_le (top event_le n (omap (direct_event adb db project agent c) (events db)) ++
                               top event_le n (omap (shared_event adb db project agent c) (events db)))) = take n (pending db c).
Proof.
  intros Hev. pose proof (queries_pending db c Hev) as Hp. pose proof (pending_sorted db c Hev) as Hs.
  assert (told_apart event_le (omap (direct_event adb db project agent c) (events db) ++ omap (shared_event adb db project agent c) (events db))) as Ht.
  { eapply told_apart_sub, sorted_apart, Hs. intros x. by rewrite Hp. }
  fold (top event_le n (top event_le n (omap (direct_event adb db project agent c) (events db)) ++
                        top event_le n (omap (shared_event adb db project agent c) (events db)))).
  rewrite (top_app event_le n _ _ Ht), (top_perm event_le n _ (pending db c) Ht Hp).
  symmetry. apply take_sorted_top; [apply _..|by apply sorted_apart|by apply sorted_le].
Qed.

Lemma removelast_take {A} n (l : list A) : (n < length l)%nat -> removelast (take (S n) l) = take n l.
Proof.
  revert l. induction n as [|n IH]; intros [|x l] Hn; cbn in Hn; try lia; [by destruct l|].
  cbn [take]. change (removelast (x :: take (S n) l) = x :: take n l). rewrite <- IH by lia.
  destruct l as [|y l]; [cbn in Hn; lia|done].
Qed.

Definition oldest_in (db : MessageDb) : option Z := sql_min (range_seqs db project agent).
Definition tail_in (db : MessageDb) : Z := default 0 (sql_max (range_seqs db project agent)).
Definition accepts (db : MessageDb) (after : option Z) : InboxDeliveryEventError + unit :=
  check_cursor (oldest_in db) (tail_in db) (sql_min (map ev_seq (events db))) after.

(** The page after a cursor: the first pending deliveries. *)
Definition page_after (db : MessageDb) (cursor : Z) (n : nat) : InboxDeliveryEventPage :=
  let page := take n (pending db cursor) in
  mkDeliveryPage page (from_option ie_seq cursor (last page)) (n <? length (pending db cursor))%nat (oldest_in db) (tail_in db).

Lemma poll_eq db after limit : events_ok db ->
  inbox_delivery_events adb db project agent after limit =
  if (limit <=? 0) || (i64_max <? limit + 1) then inl InvalidLimit
  else _ ← accepts db after; inr (page_after db (default 0 after) (Z.to_nat limit)).
Proof.
  intros Hev. unfold inbox_delivery_events. destruct (_ || _) eqn:El; [done|]. apply orb_false_iff in El as [Hl%Z.leb_gt _].
  fold (oldest_in db) (tail_in db) (accepts db after). destruct (accepts db after) as [|[]]; [done|]. cbn [mbind result_bind].
  rewrite (first_pending db (default 0 after)) by done. unfold page_after.
  replace (Z.to_nat (limit + 1)) with (S (Z.to_nat limit)) by lia. set (n := Z.to_nat limit). set (rest := pending db (default 0 after)).
  rewrite length_take. destruct (Nat.ltb_spec n (length rest)) as [Hn|Hn].
  - rewrite (proj2 (Nat.ltb_lt _ _)) by lia. by rewrite removelast_take by done.
  - rewrite (proj2 (Nat.ltb_ge _ _)) by lia. by rewrite !take_ge by lia.
Qed.

(** What is pending after a page: the rest. *)
Lemma pending_after db c n : events_ok db -> let page := take n (pending db c) in
  pending db (from_option ie_seq c (last page)) = drop n (pending db c).
Proof.
  intros Hev page. destruct (last page) as [x|] eqn:El; cbn [from_option].
  - apply last_Some in El as [l' El]. pose proof (pending_sorted db c Hev) as Hs.
    assert (pending db c = l' ++ x :: drop n (pending db c)) as Hsplit.
    { rewrite <- (take_drop n (pending db c)) at 1. fold page. rewrite El, <- app_assoc. done. }
    assert (x ∈ pending db c) as Hx by (rewrite Hsplit, elem_of_app; right; by left).
    assert (c < ie_seq x) as Hc by (unfold pending in Hx; apply list_elem_of_In, filter_In in Hx as [_ ?]; lia).
    assert (pending db (ie_seq x) = List.filter (fun y => ie_seq x <? ie_seq y) (pending db c)) as ->.
    { unfold pending. generalize (feed db). intros l. induction l as [|y l IH]; cbn; [done|].
      destruct (Z.ltb_spec c (ie_seq y)); cbn; destruct (Z.ltb_spec (ie_seq x) (ie_seq y)); rewrite IH; done || lia. }
    rewrite Hsplit in Hs. rewrite Hsplit at 1. generalize (drop n (pending db c)) Hs. clear. intros r Hs.
    rewrite List.filter_app, bfilter_all_false, app_nil_l; cbn.
    + rewrite Z.ltb_irrefl. apply bfilter_all_true. intros y Hy. apply list_elem_of_In in Hy.
      induction l' as [|z l' IH]; cbn in Hs; apply StronglySorted_inv in Hs as [H1 H2]; [|by apply IH].
      rewrite Forall_forall in H2. specialize (H2 y Hy). unfold seq_lt in H2. lia.
    + intros y Hy. apply list_elem_of_In in Hy. induction Hy as [y l|y z l Hy IH]; cbn in Hs; apply StronglySorted_inv in Hs as [H1 H2]; [|by apply IH].
      rewrite Forall_forall in H2. specialize (H2 x ltac:(rewrite elem_of_app; right; by left)). unfold seq_lt in H2. lia.
  - apply last_None in El. unfold page in El. destruct n as [|n]; [done|]. by destruct (pending db c).
Qed.

Lemma page_bounds db c n x : events_ok db -> let next := from_option ie_seq c (last (take n (pending db c))) in
  x ∈ pending db c -> (ie_seq x <= next <-> x ∈ take n (pending db c)).
Proof.
  intros Hev next Hx. pose proof (pending_after db c n Hev) as Hd. cbn zeta in Hd. fold next in Hd.
  assert (forall y, y ∈ drop n (pending db c) -> next < ie_seq y) as Hdrop.
  { intros y. rewrite <- Hd. unfold pending. intros [_ ?]%list_elem_of_In%filter_In. lia. }
  split.
  - intros Hle. rewrite <- (take_drop n (pending db c)), elem_of_app in Hx. destruct Hx as [?|Hx]; [done|]. specialize (Hdrop x Hx). lia.
  - intros Ht. unfold next. destruct (take n (pending db c)) as [|y l _] eqn:E using rev_ind; [by apply elem_of_nil in Ht|].
    rewrite last_snoc. cbn. apply elem_of_app in Ht as [Ht|Ht%list_elem_of_singleton]; [|subst; done].
    pose proof (pending_sorted db c Hev) as Hs. rewrite <- (take_drop n (pending db c)), E, <- app_assoc in Hs.
    clear -Hs Ht. induction Ht as [a l|a z l Ht IH]; cbn in Hs; apply StronglySorted_inv in Hs as [H1 H2]; [|by apply IH].
    rewrite Forall_forall in H2. specialize (H2 y ltac:(rewrite elem_of_app; right; by left)). unfold seq_lt in H2. lia.
Qed.

Lemma pending_event db c x : x ∈ pending db c -> exists e, e ∈ events db /\ in_range project agent e = true /\
  ie_seq x = ev_seq e /\ ie_message x = ev_message e /\ c < ie_seq x.
Proof.
  unfold pending, feed. intros [(e & He & Hx)%list_elem_of_In%list_elem_of_omap Hc]%list_elem_of_In%filter_In.
  destruct (feed_event_seq _ _ _ Hx) as [Hs Hm]. exists e. split_and!; try done; [|lia]. unfold in_range.
  apply feed_event_spec in Hx as [(m & _ & -> & -> & _)%direct_event_spec|(d & m & v & _ & _ & _ & -> & -> & -> & _)%shared_event_spec].
  - by rewrite Z.eqb_refl, bool_decide_eq_true_2 by done.
  - rewrite Z.eqb_refl, ustr_eqb_refl, (bool_decide_eq_true_2 (None = None)) by done. by rewrite orb_true_r.
Qed.

Lemma direct_pending db c e : events_ok db -> e ∈ events db -> ev_project e = project -> ev_agent e = Some agent ->
  is_Some (messages db !! ev_message e) -> c < ev_seq e ->
  exists x, x ∈ pending db c /\ ie_seq x = ev_seq e /\ ie_message x = ev_message e.
Proof.
  intros Hev He Hp Ha [m Hm] Hc. exists (delivery_of adb m e). split; [|done]. apply list_elem_of_In, filter_In.
  rewrite <- list_elem_of_In. split; [|cbn; lia]. apply list_elem_of_omap. exists e. split; [done|].
  apply feed_event_spec. left. apply direct_event_spec. exists m. split_and!; try done. by apply (eo_seq _ Hev).
Qed.

(** *** Cursors the server gave *)

(** The ledger still begins with its first event. *)
Definition unpruned (db : MessageDb) : Prop := 0 < event_seq db -> exists e, e ∈ events db /\ ev_seq e = 1.
Definition cursor_ok (db : MessageDb) (cursor : Z) : Prop :=
  cursor = 0 \/ exists e, e ∈ events db /\ in_range project agent e = true /\ ev_seq e = cursor.

Lemma accepts_ok db after : events_ok db -> unpruned db -> cursor_ok db (default 0 after) -> accepts db after = inr tt.
Proof.
  intros Hev Hun Hc. unfold accepts, check_cursor. destruct after as [c|]; [|done]. cbn in Hc.
  assert (from_option (fun g => 1 <? g) false (sql_min (map ev_seq (events db))) = false) as ->.
  { destruct (sql_min _) as [g|] eqn:Eg; [|done]. cbn. apply Z.ltb_ge.
    apply sql_min_elem in Eg as Hin. apply list_elem_of_fmap in Hin as (e & _ & He).
    destruct (Hun) as (e1 & Hin1 & H1); [pose proof (eo_seq _ Hev e He); lia|].
    rewrite <- H1. eapply sql_min_le; [exact Eg|]. apply list_elem_of_fmap. by exists e1. }
  assert (c <= tail_in db) as Hle.
  { unfold tail_in. destruct Hc as [->|(e & He & Hr & <-)].
    - destruct (sql_max _) as [t|] eqn:Et; [|done]. apply sql_max_elem, list_elem_of_fmap in Et as (e & -> & Hin).
      apply list_elem_of_In, filter_In in Hin as [Hin _]. apply list_elem_of_In in Hin. pose proof (eo_seq _ Hev e Hin). cbn. lia.
    - apply sql_max_default_ge. unfold range_seqs. apply list_elem_of_fmap. exists e. split; [done|].
      apply list_elem_of_In, filter_In. rewrite <- list_elem_of_In. done. }
  rewrite (proj2 (Z.ltb_ge _ _) Hle). by destruct (oldest_in db).
Qed.

Lemma cursor_appended db db' c : appended db db' -> cursor_ok db c -> cursor_ok db' c.
Proof.
  intros (l & El & _) [->|(e & He & Hr & Hs)]; [by left|right]. exists e. rewrite El, elem_of_app. auto.
Qed.
Lemma unpruned_appended db db' : events_ok db -> appended db db' -> unpruned db -> unpruned db'.
Proof.
  intros Hev (l & El & _ & _ & Hone & _) Hun Hpos. rewrite El. setoid_rewrite elem_of_app.
  pose proof (eo_pos _ Hev). destruct (decide (event_seq db = 0)) as [E|E].
  - destruct (Hone E Hpos) as (e & ? & ?). eauto.
  - destruct Hun as (e & ? & ?); [lia|]. eauto.
Qed.
End feed.

(** ** Monitors *)

(** A monitor polls again and again with the cursor it was given, while others
    work on the store; the registry may change too. *)
Fixpoint watch (project agent : Z) (cursor : option Z) (more : bool) (rounds : list (AgentDb * list MailOp * Z)) (db : MessageDb) :
    option (list InboxDeliveryEvent * Z * bool * MessageDb) :=
  match rounds with
  | [] => Some ([], default 0 cursor, more, db)
  | (adb, ops, limit) :: rounds =>
      let db := run_mail ops db in
      match inbox_delivery_events adb db project agent cursor limit with
      | inl _ => None
      | inr page =>
          '(seen, c, more, db) ← watch project agent (Some (next_cursor page)) (has_more page) rounds db;
          Some (pg_events page ++ seen, c, more, db)
      end
  end.

Definition round_ok (r : AgentDb * list MailOp * Z) : Prop :=
  Forall (fun o => deletes o = false) r.1.2 /\ 0 < r.2 /\ r.2 + 1 <= i64_max.

(** A delivery to the agent by name, of a message that is there. *)
Definition direct_delivery (db : MessageDb) (project agent : Z) (e : DeliveryEvent) : Prop :=
  e ∈ events db /\ ev_project e = project /\ ev_agent e = Some agent /\ is_Some (messages db !! ev_message e).

(** What a watch saw between two cursors. *)
Record watched (project agent cursor : Z) (seen : list InboxDeliveryEvent) (c : Z) (db' : MessageDb) : Prop := {
  wa_sorted : StronglySorted seq_lt seen;
  wa_from : cursor <= c;
  wa_range x : x ∈ seen -> cursor < ie_seq x <= c;
  wa_direct e : direct_delivery db' project agent e -> cursor < ev_seq e <= c ->
    exists x, x ∈ seen /\ ie_seq x = ev_seq e /\ ie_message x = ev_message e;
  wa_real x : x ∈ seen -> exists e, e ∈ events db' /\ in_range project agent e = true /\ ie_seq x = ev_seq e /\ ie_message x = ev_message e;
}.

(** A direct delivery after a page was there before the later rounds, or is new. *)
Lemma direct_before project agent db db' e : mail_ok db -> events_ok db -> mail_evolves db db' -> appended db db' ->
  direct_delivery db' project agent e -> direct_delivery db project agent e \/ event_seq db < ev_seq e.
Proof.
  intros Hok Hev Hmv (l & El & _ & Hl & _) (He & Hp & Ha & [m Hm]). rewrite El in He. apply elem_of_app in He as [He|He].
  - left. split_and!; try done. destruct (mv_messages _ _ Hmv _ _ Hm) as [(? & ? & _)|Hn]; [by eexists|].
    destruct (eo_known _ Hev e He) as (s & Hs & ?). specialize (Hn s Hs). lia.
  - right. apply (Hl e He).
Qed.

(** Everything that was there is behind the cursor. *)
Definition caught_up (project agent cursor : Z) (db : MessageDb) : Prop :=
  forall e, direct_delivery db project agent e -> ev_seq e <= cursor.

(** One poll of a store that nobody pruned. *)
Lemma poll_watched adb project agent cursor limit db :
  mail_ok db -> events_ok db -> unpruned db -> cursor_ok project agent db (default 0 cursor) -> 0 < limit -> limit + 1 <= i64_max ->
  exists page, inbox_delivery_events adb db project agent cursor limit = inr page /\
    watched project agent (default 0 cursor) (pg_events page) (next_cursor page) db /\
    cursor_ok project agent db (next_cursor page) /\
    (has_more page = false -> caught_up project agent (next_cursor page) db).
Proof.
  intros Hok Hev Hun Hc Hl Hmax. rewrite poll_eq by done. rewrite (proj2 (Z.leb_gt _ _) Hl), (proj2 (Z.ltb_ge _ _) Hmax). cbn [orb].
  rewrite (accepts_ok project agent db cursor) by done. cbn [mbind result_bind]. eexists. split; [done|].
  set (c0 := default 0 cursor) in *. set (n := Z.to_nat limit). set (rest := pending adb project agent db c0).
  cbn [next_cursor has_more pg_events page_after]. fold rest. set (next := from_option ie_seq c0 (last (take n rest))).
  assert (forall x, x ∈ rest -> ie_seq x <= next <-> x ∈ take n rest) as Hpage by (intros x; by apply page_bounds).
  assert (forall x, x ∈ take n rest -> exists e, e ∈ events db /\ in_range project agent e = true /\ ie_seq x = ev_seq e /\ ie_message x = ev_message e /\ c0 < ie_seq x) as Hreal
    by (intros x Hx; apply (pending_event adb project agent db c0), (subseteq_take n), Hx).
  assert (c0 <= next /\ cursor_ok project agent db next) as [Hle Hnext].
  { unfold next. destruct (last (take n rest)) as [x|] eqn:El; cbn [from_option]; [|done].
    apply last_Some in El as [l' El]. destruct (Hreal x) as (e & He & Hin & Hs & _ & ?); [rewrite El, elem_of_app; right; by left|].
    split; [lia|]. right. by exists e. }
  assert (forall e, direct_delivery db project agent e -> c0 < ev_seq e ->
    exists x, x ∈ rest /\ ie_seq x = ev_seq e /\ ie_message x = ev_message e) as Hdp
    by (intros e (He & Hp & Ha & Hm) Hlt; by apply direct_pending).
  split_and!; [split|done|]; try done.
  - destruct (sorted_take_drop seq_lt n rest (pending_sorted adb project agent db c0 Hev)) as (? & _); done.
  - intros x Hx. destruct (Hreal x Hx) as (e & _ & _ & _ & _ & ?). split; [done|]. apply Hpage; [by apply (subseteq_take n)|done].
  - intros e He [H1 H2]. destruct (Hdp e He H1) as (x & Hx & Hs & Hm). exists x. split_and!; [|done|done]. apply Hpage; [done|lia].
  - intros x Hx. destruct (Hreal x Hx) as (e & ? & ? & ? & ? & _). by exists e.
  - intros Hmore%Nat.ltb_ge e He. destruct (decide (ev_seq e <= c0)) as [|Hgt]; [lia|].
    destruct (Hdp e He) as (x & Hx & Hs & _); [lia|]. rewrite <- Hs. apply Hpage; [done|]. by rewrite take_ge by lia.
Qed.

Lemma watch_spec project agent rounds : forall cursor more0 db,
  mail_ok db -> events_ok db -> unpruned db -> cursor_ok project agent db (default 0 cursor) -> Forall round_ok rounds ->
  exists seen c more db', watch project agent cursor more0 rounds db = Some (seen, c, more, db') /\
    watched project agent (default 0 cursor) seen c db' /\
    ((rounds = [] -> more0 = false -> caught_up project agent (default 0 cursor) db) -> more = false -> caught_up project agent c db') /\
    mail_ok db' /\ mail_evolves db db' /\ appended db db'.
Proof.
  induction rounds as [|[[adb ops] limit] rounds IH]; intros cursor more0 db Hok Hev Hun Hc Hr.
  { exists [], (default 0 cursor), more0, db. cbn. split_and!; [done| |auto|done|apply mail_evolves_refl|by apply appended_refl].
    split; [constructor|done|by intros x ?%elem_of_nil|intros e _; lia|by intros x ?%elem_of_nil]. }
  apply Forall_cons in Hr as [(Hops & Hl & Hmax) Hr]. cbn [fst snd] in *. cbn [watch]. set (db1 := run_mail ops db).
  assert (mail_ok db1) as Hok1 by (by apply run_mail_ok). assert (events_ok db1) as Hev1 by (by apply run_events_ok).
  assert (appended db db1) as Happ by (by apply run_appended). pose proof (run_mail_evolves ops db Hok) as Hmv.
  assert (unpruned db1) as Hun1 by (by apply (unpruned_appended db db1)).
  assert (cursor_ok project agent db1 (default 0 cursor)) as Hc1 by (by apply (cursor_appended project agent db db1)).
  destruct (poll_watched adb project agent cursor limit db1) as (page & -> & [P1 P2 P3 P4 P5] & Hnext & Hmore); try done.
  destruct (IH (Some (next_cursor page)) (has_more page) db1 Hok1 Hev1 Hun1 Hnext Hr) as (seen & c & more & db' & -> & Hw & Hall & Hok' & Hmv' & Happ').
  destruct Hw as [W1 W2 W3 W4 W5]. cbn [default from_option id] in *. cbn [mbind option_bind]. eexists _, c, more, db'. split; [done|].
  split_and!; [split| |done|by apply (mail_evolves_trans db db1 db')|by apply (appended_trans db db1)].
  - apply (sorted_app seq_lt); [done|done|]. intros x y Hx%P3 Hy%W3. unfold seq_lt. lia.
  - lia.
  - intros x [Hx%P3|Hx%W3]%elem_of_app; lia.
  - intros e He [H1 H2]. setoid_rewrite elem_of_app. destruct (decide (ev_seq e <= next_cursor page)) as [Hle|Hgt].
    + destruct (direct_before project agent db1 db' e Hok1 Hev1 Hmv' Happ' He) as [He1|Hnew].
      * destruct (P4 e He1) as (x & ? & ? & ?); [done|]. exists x. auto.
      * destruct Hnext as [Hz|(e' & He' & _ & Hs)]; [pose proof (eo_pos _ Hev1); lia|]. pose proof (eo_seq _ Hev1 e' He'). lia.
    + destruct (W4 e He) as (x & ? & ? & ?); [lia|]. exists x. auto.
  - intros x [Hx|Hx]%elem_of_app; [|by apply W5]. destruct (P5 x Hx) as (e & He & ? & ? & ?). exists e. split_and!; try done.
    destruct Happ' as (l & -> & _). rewrite elem_of_app. by left.
  - intros _. apply Hall. intros _. exact Hmore.
Qed.

(** C8: a monitor misses nothing and sees nothing twice.  In a store from which
    neither pruning nor the clean-up of a failed send has ever deleted anything, nor
    does between the polls, a monitor that polls with the cursor of the page before,
    with limits of at least 1 and below i64::MAX, while any sends, reads,
    acknowledgements and changes of the registry go on in between, is never refused;
    what it sees is in the order of the events and strictly after the cursor before;
    every delivery to the agent by name that the cursor has passed was seen, exactly
    once, with its message; and when the last page says that there is no more, every
    such delivery was seen.  (After a deletion a cursor can lie ahead of the store
    and be refused: lemma [pruning_confuses_cursors].) *)
Theorem monitor_misses_nothing ops project agent rounds :
  Forall (fun o => deletes o = false) ops -> Forall round_ok rounds -> rounds <> [] ->
  exists seen c more db',
    watch project agent None true rounds (run_mail ops empty_mail) = Some (seen, c, more, db') /\
    StronglySorted seq_lt seen /\
    (forall e, direct_delivery db' project agent e -> ev_seq e <= c \/ more = false ->
       exists x, x ∈ seen /\ ie_seq x = ev_seq e /\ ie_message x = ev_message e) /\
    (forall x, x ∈ seen -> ie_seq x <= c /\
       exists e, e ∈ events db' /\ in_range project agent e = true /\ ie_seq x = ev_seq e /\ ie_message x = ev_message e).
Proof.
  intros Hops Hr Hne. pose proof empty_mail_ok as H0. pose proof empty_events_ok as H1.
  assert (unpruned (run_mail ops empty_mail)) as Hun.
  { eapply unpruned_appended; [exact H1|by apply run_appended|]. unfold unpruned. cbn. lia. }
  destruct (watch_spec project agent rounds None true (run_mail ops empty_mail)) as (seen & c & more & db' & Hw & [W1 W2 W3 W4 W5] & Hall & Hok & Hmv & Happ);
    [by apply run_mail_ok|by apply run_events_ok|done|by left|done|].
  exists seen, c, more, db'. split_and!; [done|done| |].
  - intros e He Hc. apply W4; [done|]. cbn. split.
    + assert (events_ok (run_mail ops empty_mail)) as Hev by (by apply run_events_ok). destruct He as (Hin & _).
      destruct Happ as (l & El & _ & Hl & _). rewrite El in Hin. apply elem_of_app in Hin as [Hin|Hin]; [by apply (eo_seq _ Hev)|].
      specialize (Hl e Hin). pose proof (eo_pos _ Hev). lia.
    + destruct Hc as [?|Hm]; [done|]. apply Hall; [by intros ->|done|done].
  - intros x Hx. split; [by apply W3|by apply W5].
Qed.

(** ** Pruning and cursors *)

(** The candidates a prune finds among some ids, and the prune itself. *)
Definition ex_prune_ids (ids : list Z) (db : MessageDb) : MailOp :=
  OpPrune ex_agents ex_projects ex_zero ex_zero 1000 (omap (capture_message_prune_candidate ex_agents ex_projects ex_zero ex_zero (u "pool") db) ids).
Definition ex_settle (agent id : Z) : list MailOp := [OpAck ex_agents agent id 500].
Definition ex_poll (db : MessageDb) (agent : Z) (after : option Z) := inbox_delivery_events ex_agents db 7 agent after 10.

(** One delivery to JadeOwl, polled and settled, then pruned. *)
Definition ex_polled : MessageDb := run_mail [ex_send [(3, u "to")] None 100] empty_mail.
Definition ex_pruned : MessageDb :=
  let db := run_mail (ex_settle 3 41) ex_polled in run_mail [ex_prune_ids [41] db] db.

(** Two deliveries; the monitor saw the first one; the second one is settled and pruned before its next poll. *)
Definition ex_two : MessageDb := run_mail [ex_send [(3, u "to")] None 100; ex_send [(3, u "to")] None 110] empty_mail.
Definition ex_middle_pruned : MessageDb :=
  let db := run_mail (ex_settle 3 42) ex_two in run_mail [ex_prune_ids [42] db] db.

(** Pruning and cursors.  The cursor a poll returned is refused as being ahead of the server once retention removed the
    newest deliveries of the agent; a delivery pruned between two polls is not reported while older events remain: the
    poll answers with a valid page that lacks it; and an agent whose first poll found nothing is told that its cursor
    expired when its first delivery arrives after retention removed the first event of anybody. *)
Theorem pruning_confuses_cursors :
  (exists page, ex_poll ex_polled 3 None = inr page /\ next_cursor page = 1 /\ ex_poll ex_pruned 3 (Some 1) = inl (CursorAhead 1 0)) /\
  (exists page page', inbox_delivery_events ex_agents ex_two 7 3 None 1 = inr page /\ next_cursor page = 1 /\ has_more page = true /\
     ex_poll ex_middle_pruned 3 (Some 1) = inr page' /\ pg_events page' = [] /\ has_more page' = false) /\
  (exists page, ex_poll ex_pruned 2 None = inr page /\ next_cursor page = 0 /\
     ex_poll (run_mail [ex_send [(2, u "to")] None 600] ex_pruned) 2 (Some 0) = inl (CursorExpired 0 2)).
Proof.
  split_and!.
  - eexists. split_and!; vm_compute; reflexivity.
  - eexists _, _. split_and!; vm_compute; reflexivity.
  - eexists. split_and!; vm_compute; reflexivity.
Qed.

(** ** A monitor at work *)

Definition ex_rounds : list (AgentDb * list MailOp * Z) :=
  [(ex_agents, [ex_first_send], 1); (ex_agents, [ex_send [(3, u "to")] (Some (u "cc")) 110; OpRead ex_agents 3 41 120], 5)].

Definition ex_seen : option (list Z * bool) :=
  (fun r => (map ie_seq r.1.1.1, r.1.2)) <$> watch 7 3 None true ex_rounds (run_mail [] empty_mail).
Lemma ex_seen_run : ex_seen = Some ([2; 3], false).
Proof. vm_compute. reflexivity. Qed.

Lemma monitor_misses_nothing_witness :
  exists seen c more db',
    watch 7 3 None true ex_rounds (run_mail [] empty_mail) = Some (seen, c, more, db') /\
    map ie_seq seen = [2; 3] /\ more = false /\
    forall e, direct_delivery db' 7 3 e -> exists x, x ∈ seen /\ ie_seq x = ev_seq e.
Proof.
  destruct (monitor_misses_nothing [] 7 3 ex_rounds) as (seen & c & more & db' & Hw & _ & Hall & _).
  - constructor.
  - repeat (apply Forall_cons; split; [split; [repeat constructor|split; vm_compute; [reflexivity|discriminate]]|]). constructor.
  - discriminate.
  - exists seen, c, more, db'. split; [exact Hw|].
    pose proof ex_seen_run as E. unfold ex_seen in E. rewrite Hw in E. cbn [fmap option_fmap option_map fst snd] in E. injection E as E1 E2.
    split; [exact E1|]. split; [exact E2|]. intros e He. destruct (Hall e He) as (x & Hx & Hs & _); [right; exact E2|]. exists x. split; [exact Hx|exact Hs].
Defined.
