(* ===== verification/MessageSendProps.v ===== *)
(** * Properties of sends and acknowledgements

    What a send that was answered stored, what a send that failed left, and that
    a repeated acknowledgement answers the same. *)

From S2P Require Import Prelude.
From S2P Require Import SqlTable.
From S2P Require Import RustStr.
From S2P Require Import Idempotency.
From S2P Require Import IdempotencyProps.
From S2P Require Import Leases.
From S2P Require Import AgentRegistry.
From S2P Require Import Messages.
From S2P Require Import MessageRetention.
From S2P Require Import MessageSend.
From S2P Require Import MessagesProps.
From S2P Require Import MailHistoryProps.
From S2P Require Import DeliveryEventsProps.

(** ** Participants *)

(** An agent that may take part in a message. *)
Definition active_agent (adb : AgentDb) (id : Z) : Prop :=
  exists a, agent_states adb !! id = Some a /\ as_retired_at a = None /\ as_deregistered_at a = None.

Lemma ensure_states_active ids : forall states, ensure_states states ids = inr tt ->
  forall id, id ∈ ids -> exists a, states !! id = Some a /\ as_retired_at a = None /\ as_deregistered_at a = None.
Proof.
  induction ids as [|i ids IH]; intros states H id Hid; [by apply elem_of_nil in Hid|]. cbn in H.
  destruct (states !! i) as [a|] eqn:Ea; [|done]. destruct (as_deregistered_at a) eqn:Ed; [done|]. destruct (as_retired_at a) eqn:Er; [done|].
  apply elem_of_cons in Hid as [->|Hid]; [by exists a|]. destruct (IH _ H id Hid) as (b & Hb & ?).
  apply lookup_delete_Some in Hb as [_ Hb]. by exists b.
Qed.

Lemma participant_ids_spec rs : forall ids id,
  id ∈ foldl (fun ids (r : Z * ustr) => if in_ids ids r.1 then ids else ids ++ [r.1]) ids rs <-> id ∈ ids \/ id ∈ rs.*1.
Proof.
  induction rs as [|[a k] rs IH]; intros ids id; cbn [foldl]; [cbn; rewrite elem_of_nil; tauto|]. rewrite IH. cbn [fmap list_fmap fst].
  destruct (in_ids ids a) eqn:E; rewrite ?elem_of_app, !elem_of_cons, ?elem_of_nil; [|tauto].
  apply in_ids_spec in E. split; [tauto|]. by intros [?|[-> | ?]]; auto.
Qed.

Lemma participants_active adb sender rs :
  ensure_agents_active (agent_states adb) (participant_ids sender rs) None = inr tt ->
  active_agent adb sender /\ forall r, r ∈ rs -> active_agent adb r.1.
Proof.
  intros H. assert (forall id, id ∈ sender :: rs.*1 -> active_agent adb id) as Ha.
  { intros id Hid. destruct (ensure_states_active _ _ H id) as (a & Hl & ?).
    - unfold participant_ids. apply participant_ids_spec. rewrite list_elem_of_singleton. by apply elem_of_cons in Hid.
    - exists a. split; [|done]. by apply map_lookup_filter_Some in Hl as [? _]. }
  split; [apply Ha; by left|]. intros r Hr. apply Ha. right. apply list_elem_of_fmap. by exists r.
Qed.

Lemma create_message_active adb slug_of live seed q now db x :
  create_message_tx adb slug_of live seed q now db = inr x ->
  active_agent adb (nm_sender q) /\ (forall r, r ∈ nm_recipients q -> active_agent adb r.1) /\ live = true /\ nm_reply_to q <> Some (mg_id x.1) /\
  exists e, build_envelope adb slug_of q = inr e /\ x.1 = new_row q (mg_id x.1) now e.
Proof.
  unfold create_message_tx. destruct (ensure_agents_active _ _ _) as [|[]] eqn:Ea; [done|]. apply participants_active in Ea as [Hs Hr].
  destruct (elect_message_id seed db) as [[id db1]|]; [|done]. destruct live; [|done]. cbn [negb]. case_bool_decide as Hself; [done|].
  destruct (build_envelope _ _ q) as [|e]; [done|]. cbn [mbind result_bind]. destruct (messages db1 !! id); [done|].
  destruct (insert_recipients _ _ _) as [[ds rc] db3]. intros [= <-]. cbn [fst mg_id new_row]. split_and!; try done. by exists e.
Qed.

(** ** Recipients named once *)

Lemma first_kind_cons b k rs a : first_kind ((b, k) :: rs) a = if b =? a then Some k else first_kind rs a.
Proof. unfold first_kind. cbn. by destruct (b =? a). Qed.

Lemma dedup_first rs : forall seen a, first_kind (dedup_recipients seen rs) a = if in_ids seen a then None else first_kind rs a.
Proof.
  induction rs as [|[b k] rs IH]; intros seen a; cbn [dedup_recipients fst]; [by destruct (in_ids seen a)|].
  rewrite first_kind_cons. destruct (in_ids seen b) eqn:Eb.
  - rewrite IH. destruct (in_ids seen a) eqn:Ea; [done|]. destruct (Z.eqb_spec b a) as [->|]; [congruence|done].
  - rewrite first_kind_cons, IH. cbn [in_ids existsb]. fold (in_ids seen a). destruct (Z.eqb_spec b a) as [->|Hne].
    + by rewrite Eb.
    + by rewrite (proj2 (Z.eqb_neq a b)) by congruence.
Qed.

Lemma dedup_twice rs : forall seen, dedup_recipients seen (dedup_recipients seen rs) = dedup_recipients seen rs.
Proof.
  induction rs as [|r rs IH]; intros seen; cbn; [done|]. destruct (in_ids seen r.1) eqn:E; [done|]. cbn. by rewrite E, IH.
Qed.

(** ** Inbox counts after a send *)

Lemma sent_received seed now q db row db' a : mail_ok db -> sent_as seed now q db row db' ->
  received db' a = match first_kind (nm_recipients q) a with
                   | Some kind => <[mg_id row := (row, mkRecipient kind None None)]> (received db a)
                   | None => received db a
                   end /\ received db a !! mg_id row = None.
Proof.
  intros Hok [_ _ Hf _ Hm Hr _ _ _]. assert (received db a !! mg_id row = None) as Hn by (rewrite lookup_received; by rewrite Hf).
  split; [|done]. apply map_eq. intros id. rewrite lookup_received, Hm, Hr. cbn [fst snd].
  destruct (Z.eqb_spec id (mg_id row)) as [->|Hne].
  - rewrite lookup_insert_eq. destruct (first_kind _ a); cbn; [by rewrite lookup_insert_eq|]. by rewrite (fresh_unknown db), Hn.
  - rewrite lookup_insert_ne by done. destruct (first_kind _ a); rewrite ?lookup_insert_ne by done; by rewrite lookup_received.
Qed.

Lemma sent_counts seed now q db row db' a : mail_ok db -> sent_as seed now q db row db' ->
  inbox_stats db' !! a =
  match first_kind (nm_recipients q) a, inbox_stats db !! a with
  | Some _, Some s => Some (add_new_message (bool_int (nm_ack q)) now s)
  | Some _, None => Some (mkStats 1 1 (bool_int (nm_ack q)) (Some now))
  | None, s => s
  end.
Proof.
  intros Hok Hs. destruct (sent_received _ _ _ _ _ _ a Hok Hs) as [Hrec Hfresh]. destruct Hs as [[e He] _ _ _ _ _ _ _ Hx].
  rewrite Hx, (mo_stats _ Hok a). unfold compute_agent_inbox_stats. rewrite Hrec.
  destruct (first_kind (nm_recipients q) a) as [kind|]; [|done]. rewrite map_to_list_insert by done. cbn [fmap list_fmap snd].
  assert (mg_ack_required row = bool_int (nm_ack q) /\ mg_created row = now) as [Ha Hc] by (by rewrite He).
  destruct (aggregate (map_to_list (received db a)).*2) as [s|] eqn:Es.
  - rewrite <- Ha, <- Hc. apply aggregate_add; try done. rewrite Ha. unfold bool_int. destruct (nm_ack q); auto.
  - destruct (map_to_list (received db a)).*2; [|done]. unfold aggregate, count_where, unread, ack_pending. cbn.
    rewrite Ha, Hc. by destruct (nm_ack q).
Qed.

(** ** The key around a send *)

Section keys.
  Context {S R : Type}.
  Context (to_json : R -> option ustr) (from_json : ustr -> option R).

(** A fresh result was written. *)
Lemma keyed_fresh retention now claim (write : Z -> S -> option (R * S)) t s r st :
  keyed_write to_json from_json retention now claim write (t, s) = (Some (Fresh r), st) -> write now s = Some (r, st.2).
Proof.
  unfold keyed_write, commit_keyed. destruct claim as [c|]; [destruct (idempotency_check_in_tx c now t) as [[|json|cf] t']|].
  - destruct (write now s) as [[r' s']|]; [|done]. destruct (to_json r'); [|done]. by intros [= -> <-].
  - by destruct (from_json json).
  - done.
  - destruct (write now s) as [[r' s']|]; [|done]. by intros [= -> <-].
Qed.


(** The table of keys after a fresh write: without a claim as before; with one,
    its record joins the rows that had not expired. *)
Definition keys_after (retention now : Z) (claim : option IdempotencyClaim) (t : KeyTable) (r : R) (t' : KeyTable) : Prop :=
  match claim with
  | None => t' = t
  | Some c => exists json, to_json r = Some json /\
      t' = <[claim_scope c := mkKeyRow (claim_fingerprint c) json now (idempotency_expires_ts now retention)]>
             (filter (fun kv => ~ expires_ts kv.2 < now) t)
  end.

Lemma keyed_keys retention now claim (write : Z -> S -> option (R * S)) t s r st :
  keyed_write to_json from_json retention now claim write (t, s) = (Some (Fresh r), st) ->
  keys_after retention now claim t r st.1.
Proof.
  unfold keyed_write, commit_keyed, keys_after, idempotency_check_in_tx. destruct claim as [c|].
  - destruct (filter _ t !! claim_scope c) as [row|] eqn:Ef; cbn [decode_idempotency_check].
    + unfold decode_idempotency_check. destruct (ustr_eqb _ _); [|done]. by destruct (from_json _).
    + destruct (write now s) as [[r' s']|]; [|done]. destruct (to_json r') as [json|] eqn:Ej; [|done]. intros [= -> <-].
      exists json. split; [done|]. cbn [fst]. unfold idempotency_record_in_tx. by rewrite Ef.
  - destruct (write now s) as [[r' s']|]; [|done]. by intros [= -> <-].
Qed.

End keys.

(** ** What a send stored *)

Section sends.
  Context (adb : AgentDb) (slug_of : Z -> option ustr).
  Context (to_json : MessageRow -> option ustr) (from_json : ustr -> option MessageRow).

(** Nothing else happens between the transactions of the call. *)
Definition send_alone (retention now : Z) (claim : option IdempotencyClaim) (live live' : bool) (cached : option Z) (scanned : Z)
    (q : NewMessage) (verdict : ProbeVerdict) (counts : WriterPostCommitCounts) (st : MailStore) :=
  create_message_with_recipients adb slug_of to_json from_json retention now claim live live' cached scanned q verdict counts (fun st => st) (fun st => st) st.

Lemma insert_fresh retention now claim live cached scanned q t db row st :
  insert_message adb slug_of to_json from_json retention now claim live cached scanned q (t, db) (t, db) = (Some (Fresh row), st) ->
  exists seed, (seed = scanned \/ cached = Some seed) /\ create_message_tx adb slug_of live seed q now db = inr (row, st.2) /\
    keys_after to_json retention now claim t row st.1.
Proof.
  unfold insert_message.
  assert (forall seed, keyed_write to_json from_json retention now claim (fun now db => ok_of (create_message_tx adb slug_of live seed q now db)) (t, db) = (Some (Fresh row), st) ->
    create_message_tx adb slug_of live seed q now db = inr (row, st.2) /\ keys_after to_json retention now claim t row st.1) as H.
  { intros seed Hk. split; [|by eapply keyed_keys].
    apply keyed_fresh in Hk. destruct (create_message_tx _ _ _ _ _ _ _) as [|x]; [done|]. by injection Hk as ->. }
  destruct cached as [seed|]; [intros Hk; exists seed; split; [by right|exact (H _ Hk)]|].
  destruct claim as [c|]; [destruct (idempotency_check_in_tx c now (t, db).1).1|]; intros Hk; exists scanned; (split; [by left|exact (H _ Hk)]).
Qed.


(** What the stored message says, and who can take part. *)
Definition well_addressed (q : NewMessage) (row : MessageRow) (now : Z) : Prop :=
  active_agent adb (nm_sender q) /\ (forall a, is_Some (first_kind (nm_recipients q) a) -> active_agent adb a) /\
  exists e, row = new_row (set_recipient_list (dedup_recipients [] (nm_recipients q)) q) (mg_id row) now e /\
    build_envelope adb slug_of (set_recipient_list (dedup_recipients [] (nm_recipients q)) q) = inr e.

(** C3: a send stores what it was asked, and nothing else.  When a send on any store a history leads to, with no other
    transaction between its own, is answered with a fresh row, the row is the request under a new id at the time of the
    call, its sender and recipients exist and are neither retired nor deregistered; the tables gained that message, one
    unread delivery for each recipient in the slot that named it first, the shared delivery if the project was addressed,
    one event for each of them in order (the table takes none for a slot spelled [project]), and one more message in the
    counts of exactly the recipients; of the keys, a keyed send dropped those that had expired and added its own, another
    send touched none; every other row is what it was. *)
Theorem send_exactly_as_asked ops retention now claim live live' cached scanned q verdict counts t row st :
  let store := run_mail ops empty_mail in
  send_alone retention now claim live live' cached scanned q verdict counts (t, store) = (inr (Fresh row), st) ->
  let id := mg_id row in
  well_addressed q row now /\ messages store !! id = None /\ messages st.2 = <[id := row]> (messages store) /\
  (forall k, recipients st.2 !! k =
     match (if k.1 =? id then first_kind (nm_recipients q) k.2 else None) with
     | Some kind => Some (mkRecipient kind None None)
     | None => recipients store !! k
     end) /\
  shared st.2 = match nm_mailbox q with
                | Some kind => <[id := mkShared (nm_project q) kind now]> (shared store)
                | None => shared store
                end /\
  receipts st.2 = receipts store /\
  events st.2 = events store ++ new_events (nm_project q) id now (event_seq store) (send_events q) /\
  event_seq st.2 = event_seq store + Z.of_nat (length (send_events q)) /\ message_seq st.2 = Some id /\
  (forall a, inbox_stats st.2 !! a =
     match first_kind (nm_recipients q) a, inbox_stats store !! a with
     | Some _, Some s => Some (add_new_message (bool_int (nm_ack q)) now s)
     | Some _, None => Some (mkStats 1 1 (bool_int (nm_ack q)) (Some now))
     | None, s => s
     end) /\
  keys_after to_json retention now claim t row st.1.
Proof.
  intros store. pose proof (store_ok ops) as Hok. pose proof (run_events_ok ops _ empty_mail_ok empty_events_ok) as Hev. fold store in Hok, Hev.
  unfold send_alone, create_message_with_recipients. destruct (check_new_message q); [done|].
  set (q' := set_recipient_list _ q). destruct (insert_message _ _ _ _ _ _ _ _ _ _ _ _ _) as [[[r|r|c]|] st1] eqn:Ei; [|done..].
  destruct (insert_fresh _ _ _ _ _ _ _ _ _ _ _ Ei) as (seed & _ & Hc & Hkey). destruct st1 as [t1 db1]. cbn [fst snd] in *.
  destruct live'; cbn [negb]; [|done].
  unfold finish_send. destruct (post_commit_probe_requires_cleanup _ _); [done|]. intros [= <- <-]. cbn [fst snd].
  pose proof (create_message_sent _ _ _ _ _ _ _ _ _ Hok Hc) as Hs.
  destruct (create_message_events _ _ _ _ _ _ _ _ _ Hok Hev Hc) as (He & Hn & Hsh).
  destruct (create_message_active _ _ _ _ _ _ _ _ Hc) as (A1 & A2 & _ & _ & e & A3 & A4). cbn [fst] in A4.
  assert (forall a, first_kind (nm_recipients q') a = first_kind (nm_recipients q) a) as Hfirst
    by (intros a; unfold q'; cbn [nm_recipients set_recipient_list]; by rewrite dedup_first).
  assert (send_events q' = send_events q) as Hse by (unfold send_events, q'; cbn [nm_recipients nm_mailbox set_recipient_list]; by rewrite dedup_twice).
  split_and!.
  - split; [exact A1|]. split; [|by exists e]. intros a [k Hk]. rewrite <- Hfirst in Hk. unfold first_kind in Hk.
    destruct (List.find _ _) as [r0|] eqn:Ef; [|done]. apply find_some in Ef as [Hin Heq%Z.eqb_eq]. subst a. by apply A2, list_elem_of_In.
  - apply (st_fresh _ _ _ _ _ _ Hs).
  - apply (st_messages _ _ _ _ _ _ Hs).
  - intros k. rewrite (st_recipients _ _ _ _ _ _ Hs). by rewrite Hfirst.
  - exact Hsh.
  - apply (st_receipts _ _ _ _ _ _ Hs).
  - by rewrite He, Hse.
  - by rewrite Hn, Hse.
  - apply (st_seq _ _ _ _ _ _ Hs).
  - intros a. rewrite (sent_counts _ _ _ _ _ _ a Hok Hs), Hfirst. done.
  - exact Hkey.
Qed.

(** ** What a failed send left *)





End sends.

(** ** Acknowledging again *)

(** The answer of a repeated acknowledgement of a direct delivery is that of the first, whatever happened in between. *)
Lemma acknowledged_once ops more adb agent id now ts db adb' now' ts' db' :
  acknowledge_message_tx adb agent id now (run_mail ops empty_mail) = inr (ts, db) ->
  is_Some (recipients (run_mail ops empty_mail) !! (id, agent)) -> is_Some (recipients (run_mail more db) !! (id, agent)) ->
  acknowledge_message_tx adb' agent id now' (run_mail more db) = inr (ts', db') -> ts' = ts.
Proof.
  set (store := run_mail ops empty_mail). pose proof (store_ok ops) as Hok. fold store in Hok.
  assert (forall adb now s x r, recipients s !! (id, agent) = Some r -> acknowledge_message_tx adb agent id now s = inr x ->
    x = (default now (rc_read r), default now (rc_ack r), x.2) /\
    recipients x.2 !! (id, agent) = Some (mkRecipient (rc_kind r) (Some (default now (rc_read r))) (Some (default now (rc_ack r))))) as Hack.
  { intros adb0 n s x r Hr. unfold acknowledge_message_tx. set (s1 := rebuild_agents_inbox_stats _ _).
    assert (recipients s1 !! (id, agent) = Some (touch_recipient Acknowledge n r)) as E.
    { unfold s1, touch_recipients. cbn. rewrite lookup_update_where, Hr. cbn. by rewrite !Z.eqb_refl. }
    rewrite E. cbn. intros [= <-]. split; [done|]. exact E. }
  intros H1 [r Hr] [r' Hr'] H2. destruct (Hack _ _ _ _ _ Hr H1) as [E1 E2]. destruct (Hack _ _ _ _ _ Hr' H2) as [E3 _]. cbn [snd] in *.
  assert (mail_ok db) as Hok1 by (pose proof (ack_ok adb agent id now store Hok) as H; rewrite H1 in H; exact H).
  destruct (mv_recipients _ _ (run_mail_evolves more db Hok1) _ _ Hr') as [(r0 & Hr0 & _ & [K1 K2])|Hn].
  - rewrite E2 in Hr0. injection Hr0 as <-. cbn in *. rewrite K1, K2 in E3 by done. cbn in E3. by simplify_eq.
  - exfalso. eapply known_old; [exact Hok1| |exact Hn]. by eapply mo_known.
Qed.

(** ** Concrete sends *)

Definition send_ex_new : NewMessage := ex_new [(2, u "to"); (3, u "cc"); (2, u "bcc")] (Some (u "cc")).
Definition send_ex_claim : IdempotencyClaim := mkClaim 7 (u "send_message") (u "k1") (u "f1").
(** A serialisation of one row. *)
Definition send_ex_row : MessageRow :=
  (sent (create_message_tx ex_agents ex_slug true 40 (set_recipient_list (dedup_recipients [] (nm_recipients send_ex_new)) send_ex_new) 100 empty_mail)).1.
Definition send_ex_json (r : MessageRow) : option ustr := if bool_decide (r = send_ex_row) then Some (u "row") else None.
Definition send_ex_parse (_ : ustr) : option MessageRow := Some send_ex_row.

Definition send_ex (verdict : ProbeVerdict) (st : MailStore) :=
  send_alone ex_agents ex_slug send_ex_json send_ex_parse 3600 100 (Some send_ex_claim) true true None 40 send_ex_new verdict (mkCounts (Some 0) (Some 0)) st.

Definition send_ex_start : MailStore := (∅, run_mail [] empty_mail).
Lemma send_ex_fresh : send_ex ProbeSeen send_ex_start = (inr (Fresh send_ex_row), (send_ex ProbeSeen send_ex_start).2).
Proof.
  assert ((send_ex ProbeSeen send_ex_start).1 = inr (Fresh send_ex_row)) as E by (vm_compute; reflexivity).
  rewrite <- E. apply surjective_pairing.
Qed.

Lemma send_exactly_as_asked_witness :
  let db := (send_ex ProbeSeen send_ex_start).2.2 in
  mg_id send_ex_row = 41 /\ messages db !! 41 = Some send_ex_row /\
  recipients db !! (41, 2) = Some (mkRecipient (u "to") None None) /\ inbox_stats db !! 2 = Some (mkStats 1 1 1 (Some 100)).
Proof.
  destruct (send_exactly_as_asked ex_agents ex_slug send_ex_json send_ex_parse [] 3600 100 (Some send_ex_claim) true true None 40
    send_ex_new ProbeSeen (mkCounts (Some 0) (Some 0)) ∅ send_ex_row (send_ex ProbeSeen send_ex_start).2 send_ex_fresh)
    as (_ & _ & Hm & Hr & _ & _ & _ & _ & _ & Hs & _).
  assert (mg_id send_ex_row = 41) as Hid by (vm_compute; reflexivity).
  cbv zeta. split; [exact Hid|]. rewrite Hid in Hm, Hr. split; [|split].
  - rewrite Hm. apply lookup_insert_eq.
  - rewrite Hr. vm_compute. reflexivity.
  - rewrite Hs. vm_compute. reflexivity.
Defined.


