(* ===== verification/Inbox.v ===== *)
(** * The inbox ([db/src/sync/inbox.rs], [db/src/sync.rs], [db/src/project_mailbox.rs])

    The newest messages of an agent: those delivered to it by name, found either by
    walking the headers of the project from the newest or by paging through the
    receipts of the agent, and those delivered to the project that it can see; the
    two are merged.  A read runs in one snapshot of the tables of [Messages].

    What the source leaves open is the class [InboxEngine]: in which order the
    database returns the rows of a statement without [ORDER BY], which of the
    messages of one time come first in the index by time, and in which order a hash
    map is iterated.  Failing statements, undecodable columns and databases without
    the tables of the shared mailbox or of the counts are left out. *)

From S2P Require Import Prelude.
From S2P Require Import SqlTable.
From S2P Require Import RustStr.
From S2P Require Import Leases.
From S2P Require Import AgentRegistry.
From S2P Require Import Messages.
From S2P Require Import DeliveryCursor.

(** ** What the database leaves open *)

(** @src db/src/sync/inbox.rs:23-35 RECIPIENT_PAGE_SQL
    -- the statements whose rows come in no particular order, with their parameters. *)
Inductive Statement :=
  | RecipientPage (agent : Z) (after : option Z)
  | RecipientRange (agent low high : Z)
  | RecipientKeys (agent : Z) (ids : list Z)
  | DeliveryKeys (ids : list Z)
  | ReceiptKeys (agent : Z) (ids : list Z)
  | MessageKeys (ids : list Z)
  | AgentKeys (ids : list Z).

(** [ORDER BY created_ts DESC]. *)
Definition created_desc (a b : MessageRow) : Prop := mg_created b <= mg_created a.
#[export] Instance created_desc_dec : RelDecision created_desc.
Proof. intros a b. unfold created_desc. apply _. Defined.

(** The index by time is one run over the messages of a project: pages of one
    snapshot are windows of it. *)
Class InboxEngine := {
  scan {A} : Statement -> list A -> list A;
  scan_rows {A} s (l : list A) : scan s l ≡ₚ l;
  iterate {V} : gmap Z V -> list (Z * V);
  iterate_rows {V} (m : gmap Z V) : iterate m ≡ₚ map_to_list m;
  index_run : list MessageRow -> list MessageRow;
  index_run_rows l : index_run l ≡ₚ l;
  index_run_sorted l : StronglySorted created_desc (index_run l);
}.

(** ** Data *)

(** @src db/src/sync/inbox.rs:87-91 Receipt *)
Record InboxReceipt := mkInboxReceipt { in_kind : ustr; in_read : option Z; in_ack : option Z }.

(** @src db/src/sync.rs:391-394 InboxBodyPolicy *)
Inductive InboxBodyPolicy := Full | MetadataOnly.

(** @src db/src/sync.rs:397-405 InboxFetchOptions *)
Record InboxFetchOptions := mkOptions {
  urgent_only : bool; unread_only : bool; ack_required_only : bool; ack_overdue_before : option Z; topic : option ustr;
  body_policy : InboxBodyPolicy;
}.

(** @src db/src/queries.rs:11003-11009 InboxRow *)
Record InboxRow := mkInboxRow {
  ib_message : MessageRow; ib_kind : ustr; ib_sender_name : ustr; ib_read : option Z; ib_ack : option Z;
}.

Inductive InboxError :=
  | LimitTooLarge
  | NeedsReceiptScan
  | PageExceededBound
  | NotDescending
  | OffsetOverflow
  | ForeignHeader
  | DuplicateCandidate
  | DuplicateReceiptKeys
  | UnrequestedRow
  | CursorDidNotAdvance
  | SourceChanged
  | MessageDisappeared
  | OutOfFuel.

(** @src db/src/sync/inbox.rs:18-18 PAGE_SIZE *)
Definition PAGE_SIZE : nat := 256.
(** @src db/src/sync/inbox.rs:597-597 SHARED_PAGE_SIZE *)
Definition SHARED_PAGE_SIZE : nat := 128.
(** @src db/src/sync/inbox.rs:127-127 NEWEST_FIRST_MIN_INBOX *)
Definition NEWEST_FIRST_MIN_INBOX : Z := 256.
(** @src db/src/sync/inbox.rs:175-175 RECIPIENT_RANGE_LIMIT *)
Definition RECIPIENT_RANGE_LIMIT : nat := 2 * SHARED_PAGE_SIZE.

(** ** The newest window

    [BTreeMap<(i64, i64), Receipt>]: its entries in the order of their keys,
    the time of a message and its id. *)

Definition key_lt (a b : Z * Z) : bool := (a.1 <? b.1) || ((a.1 =? b.1) && (a.2 <? b.2)).

(** @src db/src/sync/inbox.rs:94-94 NewestWindow *)
Definition NewestWindow : Type := list (Z * Z * InboxReceipt).

Fixpoint window_insert (k : Z * Z) (r : InboxReceipt) (w : NewestWindow) : NewestWindow :=
  match w with
  | [] => [(k, r)]
  | e :: w =>
      if key_lt k e.1 then (k, r) :: e :: w
      else if key_lt e.1 k then e :: window_insert k r w
      else (k, r) :: w
  end.

(** @src db/src/sync/inbox.rs:501-507 admit_headers
    -- also at lines 313-319 and 823-838: insert, and drop the oldest entry past the limit. *)
Definition keep_newest (limit : nat) (k : Z * Z) (r : InboxReceipt) (w : NewestWindow) : NewestWindow :=
  if (length w <? limit)%nat || match w with e :: _ => key_lt e.1 k | [] => false end then
    let w := window_insert k r w in
    if (limit <? length w)%nat then tail w else w
  else w.

(** ** Filters *)

(** @src db/src/sync/inbox.rs:295-305 newest_first_window
    -- the filters on headers alone. *)
Definition header_filtered (o : InboxFetchOptions) (m : MessageRow) : bool :=
  (urgent_only o && negb (ustr_eqb (mg_importance m) (u "high") || ustr_eqb (mg_importance m) (u "urgent"))) ||
  match topic o with
  | Some wanted => negb (from_option (fun actual => eq_ignore_ascii_case actual wanted) false (mg_topic m))
  | None => false
  end.

(** @src db/src/sync/inbox.rs:487-491 admit_headers *)
Definition ack_filtered (o : InboxFetchOptions) (m : MessageRow) : bool :=
  (ack_required_only o && negb (mg_ack_required m =? 1)) ||
  match ack_overdue_before o with
  | Some ts => negb (mg_ack_required m =? 1) || (ts <=? mg_created m)
  | None => false
  end.

(** @src db/src/sync/inbox.rs:423-428 receipt_window *)
Definition state_filtered (o : InboxFetchOptions) (r : InboxReceipt) : bool :=
  (unread_only o && bool_decide (is_Some (in_read r))) ||
  ((ack_required_only o || bool_decide (is_Some (ack_overdue_before o))) && bool_decide (is_Some (in_ack r))).

(** @src db/src/sync/inbox.rs:286-286 newest_first_window *)
Definition not_since (since_ts : option Z) (created : Z) : bool := from_option (fun ts => created <=? ts) false since_ts.

(** [for .. in] with [?]: the fold of a fallible step. *)
Fixpoint try_fold {E St A} (f : St -> A -> E + St) (s : St) (l : list A) : E + St :=
  match l with
  | [] => inr s
  | a :: l => s' ← f s a; try_fold f s' l
  end.

(** ** Pages of headers *)

(** A row with the id it is looked up by. *)
Definition by_id {A} (a b : Z * A) : Prop := a.1 <= b.1.
#[export] Instance by_id_dec {A} : RelDecision (@by_id A).
Proof. intros a b. unfold by_id. apply _. Defined.

(** @src db/src/sync/inbox.rs:266-269 newest_first_window
    -- also lines 718-721 of [fetch_shared]: the state of the loop over a page. *)
Record PageState := mkPage { ps_last : option Z; ps_trailing : Z; ps_candidates : gmap Z Z; ps_below : bool }.

(** @src db/src/sync/inbox.rs:270-309 newest_first_window
    -- also lines 722-769 of [fetch_shared]: one header of a page; [below]: past the
    lower bound of the times; [filtered]: the filters of the caller. *)
Definition visit_header (project_id : Z) (below filtered : MessageRow -> bool) (st : PageState) (m : MessageRow) :
    InboxError + PageState :=
  let created := mg_created m in
  if from_option (fun previous => previous <? created) false (ps_last st) then inl NotDescending
  else
    cursor ← (if bool_decide (ps_last st = Some created) then
                if i64_max <? ps_trailing st + 1 then inl OffsetOverflow else inr (ps_last st, ps_trailing st + 1)
              else inr (Some created, 1) : InboxError + (option Z * Z));
    let '(last_ts, trailing) := cursor in
    if below m then inr (mkPage last_ts trailing (ps_candidates st) true)
    else if negb (mg_project m =? project_id) then inl ForeignHeader
    else if filtered m then inr (mkPage last_ts trailing (ps_candidates st) (ps_below st))
    else
      match ps_candidates st !! mg_id m with
      | Some _ => inl DuplicateCandidate
      | None => inr (mkPage last_ts trailing (<[mg_id m := created]> (ps_candidates st)) (ps_below st))
      end.

(** @src db/src/sync/inbox.rs:321-326 newest_first_window
    -- also lines 843-848 of [fetch_shared]. *)
Definition window_complete (limit : nat) (last_ts : option Z) (newest : NewestWindow) : bool :=
  bool_decide (length newest = limit) &&
  match newest, last_ts with
  | e :: _, Some last => last <? e.1.1
  | _, _ => false
  end.

Section inbox.
  Context `{!InboxEngine} (adb : AgentDb) (db : MessageDb).

Definition project_messages (project_id : Z) : list MessageRow :=
  (select_where (fun _ m => mg_project m =? project_id) (messages db)).*2.

(** @src db/src/sync/inbox.rs:605-619 shared_page_query
    -- [WHERE project_id = ? AND created_ts <= ? ORDER BY created_ts DESC LIMIT 128 OFFSET ?]. *)
Definition shared_page_query (project_id : Z) (ceiling : option Z) (skip_at_ceiling : Z) : list MessageRow :=
  take SHARED_PAGE_SIZE (drop (Z.to_nat skip_at_ceiling)
    (List.filter (fun m => from_option (fun ts => mg_created m <=? ts) true ceiling) (index_run (project_messages project_id)))).

(** The rows of an agent whose message ids satisfy a condition. *)
Definition agent_rows_where {A} (t : gmap (Z * Z) A) (agent : Z) (p : Z -> bool) : list (Z * A) :=
  map (fun kr => (kr.1.1, kr.2)) (select_where (fun k _ => (k.2 =? agent) && p k.1) t).

(** @src db/src/sync/inbox.rs:643-668 shared_receipt_rows
    -- batches of eight keys; [statement] names the table. *)
Definition shared_receipt_rows {A} (statement : list Z -> Statement) (t : gmap (Z * Z) A) (ids : list Z) (agent : Z) :
    InboxError + list (Z * A) :=
  try_fold (fun out chunk =>
      let rows := scan (statement chunk) (agent_rows_where t agent (in_ids chunk)) in
      if (length chunk <? length rows)%nat then inl DuplicateReceiptKeys else inr (out ++ rows))
    [] (chunks 8 ids).

(** @src db/src/sync/inbox.rs:75-84 lookup_query
    -- [SELECT .. FROM messages WHERE id IN (..)]. *)
Definition messages_by_id (ids : list Z) : list MessageRow :=
  scan (MessageKeys ids) (select_where (fun id _ => in_ids ids id) (messages db)).*2.

Definition receipt_of (r : RecipientRow) : InboxReceipt := mkInboxReceipt (rc_kind r) (rc_read r) (rc_ack r).

(** ** The plan *)

(** @src db/src/sync/inbox.rs:139-164 newest_first_budget *)
Definition newest_first_budget (agent_id : Z) (limit : nat) (o : InboxFetchOptions) : option Z :=
  if unread_only o || ack_required_only o || bool_decide (is_Some (ack_overdue_before o)) then None
  else
    match inbox_stats db !! agent_id with
    | None => None
    | Some s =>
        let total := total_count s in
        if (total <? NEWEST_FIRST_MIN_INBOX) || (total <? iclamp (Z.of_nat limit * 4)) then None
        else Some (Z.quot total 4)
    end.

(** ** Newest first *)

(** @src db/src/sync/inbox.rs:180-228 page_receipts
    -- the receipts of a page's candidates, and the rows read for them. *)
Definition page_receipts (agent_id : Z) (candidates : gmap Z Z) : InboxError + (list (Z * InboxReceipt) * Z) :=
  let keys := (iterate candidates).*1 in
  match sql_min keys, sql_max keys with
  | Some low, Some high =>
      let rows := take RECIPIENT_RANGE_LIMIT (scan (RecipientRange agent_id low high)
                    (agent_rows_where (recipients db) agent_id (fun id => (low <=? id) && (id <=? high)))) in
      rows ← (if (RECIPIENT_RANGE_LIMIT <=? length rows)%nat
              then shared_receipt_rows (RecipientKeys agent_id) (recipients db) keys agent_id
              else inr rows);
      inr (map (fun ir => (ir.1, receipt_of ir.2)) (List.filter (fun ir => bool_decide (is_Some (candidates !! ir.1))) rows),
           Z.of_nat (length rows))
  | _, _ => inr ([], 0)
  end.

(** @src db/src/sync/inbox.rs:312-320 newest_first_window
    -- the receipts found enter the window. *)
Definition keep_receipts (limit : nat) (candidates : gmap Z Z) (receipts : list (Z * InboxReceipt)) (newest : NewestWindow) :
    NewestWindow :=
  foldl (fun w ir => keep_newest limit (default 0 (candidates !! ir.1), ir.1) ir.2 w) newest receipts.

(** @src db/src/sync/inbox.rs:250-336 newest_first_window
    -- the loop; [None]: the budget is spent. *)
Fixpoint walk_headers (fuel : nat) (project_id agent_id : Z) (since_ts : option Z) (limit : nat) (o : InboxFetchOptions)
    (budget : Z) (ceiling : option Z) (skip_at_ceiling work pages : Z) (newest : NewestWindow) :
    InboxError + option NewestWindow :=
  match fuel with
  | O => inl OutOfFuel
  | S fuel =>
      let rows := shared_page_query project_id ceiling skip_at_ceiling in
      if (SHARED_PAGE_SIZE <? length rows)%nat then inl PageExceededBound
      else
        let finished := (length rows <? SHARED_PAGE_SIZE)%nat in
        let pages := pages + 1 in
        let work := usat_add work (usat_mul pages (Z.of_nat SHARED_PAGE_SIZE)) in
        st ← try_fold (visit_header project_id (fun m => not_since since_ts (mg_created m)) (header_filtered o))
               (mkPage ceiling skip_at_ceiling ∅ false) rows;
        found ← page_receipts agent_id (ps_candidates st);
        let '(receipts, read) := found in
        let work := usat_add work read in
        let newest := keep_receipts limit (ps_candidates st) receipts newest in
        if finished || ps_below st || window_complete limit (ps_last st) newest then inr (Some newest)
        else if budget <=? work then inr None
        else walk_headers fuel project_id agent_id since_ts limit o budget (ps_last st) (ps_trailing st) work pages newest
  end.

(** @src db/src/sync/inbox.rs:236-255 newest_first_window
    -- more fuel than there are pages. *)
Definition newest_first_window (project_id agent_id : Z) (since_ts : option Z) (limit : nat) (o : InboxFetchOptions)
    (budget : Z) : InboxError + option NewestWindow :=
  if unread_only o || ack_required_only o || bool_decide (is_Some (ack_overdue_before o)) then inl NeedsReceiptScan
  else walk_headers (S (length (project_messages project_id))) project_id agent_id since_ts limit o budget None 0 0 0 [].

(** ** By receipts *)

(** @src db/src/sync/inbox.rs:379-391 keyed_by_message_id *)
Definition keyed_by_message_id {A} (rows : list (Z * A)) : InboxError + list (Z * A) :=
  if (PAGE_SIZE <? length rows)%nat then inl PageExceededBound else inr (merge_sort by_id rows).

(** @src db/src/sync/inbox.rs:343-377 receipt_page
    -- the lowest receipts after an id: a full page is counted, and read again in
    order when it is not the lowest one. *)
Definition receipt_page (agent_id : Z) (after : option Z) : InboxError + list (Z * RecipientRow) :=
  let rest := agent_rows_where (recipients db) agent_id (fun id => from_option (fun a => a <? id) true after) in
  page ← keyed_by_message_id (take PAGE_SIZE (scan (RecipientPage agent_id after) rest));
  match last page with
  | Some (max, _) =>
      if negb (bool_decide (length page = PAGE_SIZE)) then inr page
      else if count_where (fun ir => ir.1 <=? max) rest =? Z.of_nat (length page) then inr page
      else keyed_by_message_id (take PAGE_SIZE (merge_sort by_id rest))
  | None => inr page
  end.

(** @src db/src/sync/inbox.rs:475-508 admit_headers
    -- one header of the pending receipts. *)
Definition admit_header (project_id : Z) (since_ts : option Z) (limit : nat) (o : InboxFetchOptions)
    (acc : gmap Z InboxReceipt * NewestWindow) (m : MessageRow) : InboxError + (gmap Z InboxReceipt * NewestWindow) :=
  let '(pending, newest) := acc in
  match pending !! mg_id m with
  | None => inl UnrequestedRow
  | Some receipt =>
      let pending := delete (mg_id m) pending in
      if negb (mg_project m =? project_id) || header_filtered o m || ack_filtered o m || not_since since_ts (mg_created m)
      then inr (pending, newest)
      else inr (pending, keep_newest limit (mg_created m, mg_id m) receipt newest)
  end.

(** @src db/src/sync/inbox.rs:461-511 admit_headers
    -- the pending receipts are cleared. *)
Definition admit_headers (project_id : Z) (since_ts : option Z) (limit : nat) (o : InboxFetchOptions)
    (pending : gmap Z InboxReceipt) (newest : NewestWindow) : InboxError + NewestWindow :=
  if bool_decide (pending = ∅) then inr newest
  else
    let ids := (iterate pending).*1 in
    acc ← try_fold (admit_header project_id since_ts limit o) (pending, newest) (messages_by_id ids);
    inr acc.2.

(** @src db/src/sync/inbox.rs:402-407 receipt_window *)
Record ScanState := mkScan { sc_after : option Z; sc_pending : gmap Z InboxReceipt; sc_newest : NewestWindow }.

(** @src db/src/sync/inbox.rs:411-441 receipt_window
    -- one receipt of a page. *)
Definition scan_receipt (project_id : Z) (since_ts : option Z) (limit : nat) (o : InboxFetchOptions)
    (st : ScanState) (ir : Z * RecipientRow) : InboxError + ScanState :=
  let '(id, row) := ir in
  if from_option (fun previous => id <=? previous) false (sc_after st) then inl CursorDidNotAdvance
  else
    let receipt := receipt_of row in
    if state_filtered o receipt then inr (mkScan (Some id) (sc_pending st) (sc_newest st))
    else
      let pending := <[id := receipt]> (sc_pending st) in
      if bool_decide (size pending = PAGE_SIZE) then
        newest ← admit_headers project_id since_ts limit o pending (sc_newest st);
        inr (mkScan (Some id) ∅ newest)
      else inr (mkScan (Some id) pending (sc_newest st)).

(** @src db/src/sync/inbox.rs:408-445 receipt_window
    -- the loop over the pages. *)
Fixpoint scan_receipts (fuel : nat) (project_id agent_id : Z) (since_ts : option Z) (limit : nat) (o : InboxFetchOptions)
    (st : ScanState) : InboxError + ScanState :=
  match fuel with
  | O => inl OutOfFuel
  | S fuel =>
      rows ← receipt_page agent_id (sc_after st);
      st ← try_fold (scan_receipt project_id since_ts limit o) st rows;
      if (length rows <? PAGE_SIZE)%nat then inr st
      else scan_receipts fuel project_id agent_id since_ts limit o st
  end.

(** @src db/src/sync/inbox.rs:394-456 receipt_window *)
Definition receipt_window (project_id agent_id : Z) (since_ts : option Z) (limit : nat) (o : InboxFetchOptions) :
    InboxError + NewestWindow :=
  st ← scan_receipts (S (size (recipients db))) project_id agent_id since_ts limit o (mkScan None ∅ []);
  admit_headers project_id since_ts limit o (sc_pending st) (sc_newest st).

(** ** The rows of the window *)

(** @src db/src/sync/inbox.rs:525-532 hydrate
    -- the body is left out of metadata. *)
Definition with_body (p : InboxBodyPolicy) (m : MessageRow) : MessageRow :=
  match p with
  | Full => m
  | MetadataOnly =>
      mkMessage (mg_id m) (mg_project m) (mg_sender m) (mg_thread m) (mg_topic m) (mg_reply_to m) (mg_subject m) []
        (mg_importance m) (mg_ack_required m) (mg_created m) (mg_recipients m) (mg_attachments m)
  end.

(** @src db/src/sync/inbox.rs:536-568 hydrate
    -- one message of the window. *)
Definition hydrate_row (project_id : Z) (p : InboxBodyPolicy) (acc : gmap Z (Z * InboxReceipt) * list InboxRow) (m : MessageRow) :
    InboxError + (gmap Z (Z * InboxReceipt) * list InboxRow) :=
  let '(selected, out) := acc in
  match selected !! mg_id m with
  | None => inl UnrequestedRow
  | Some (created, receipt) =>
      if negb (mg_project m =? project_id) || negb (mg_created m =? created) then inl SourceChanged
      else inr (delete (mg_id m) selected,
                out ++ [mkInboxRow (with_body p m) (in_kind receipt) UNKNOWN_SENDER_DISPLAY (in_read receipt) (in_ack receipt)])
  end.

(** @src db/src/sync/inbox.rs:575-592 hydrate
    -- the names of the senders. *)
Definition sender_names (senders : list Z) : gmap Z ustr :=
  foldl (fun names a => <[ar_id a := ar_name a]> names) ∅
    (List.concat (map (fun chunk => scan (AgentKeys chunk) (List.filter (fun a => in_ids chunk (ar_id a)) (agent_rows adb)))
                   (chunks PAGE_SIZE senders))).

(** [sort_unstable_by_key(Reverse((created_ts, id)))]; the order of [merge_inbox_rows]. *)
Definition newer_first (a b : InboxRow) : Prop :=
  let ka := (mg_created (ib_message a), mg_id (ib_message a)) in
  let kb := (mg_created (ib_message b), mg_id (ib_message b)) in
  key_lt ka kb = false.
#[export] Instance newer_first_dec : RelDecision newer_first.
Proof. intros a b. unfold newer_first. apply _. Defined.

(** @src db/src/sync/inbox.rs:513-595 hydrate *)
Definition hydrate (project_id : Z) (newest : NewestWindow) (p : InboxBodyPolicy) : InboxError + list InboxRow :=
  let ids := rev (map (fun e => e.1.2) newest) in
  let selected := foldl (fun s e => <[e.1.2 := (e.1.1, e.2)]> s) (∅ : gmap Z (Z * InboxReceipt)) newest in
  acc ← try_fold (fun acc chunk => try_fold (hydrate_row project_id p) acc (messages_by_id chunk)) (selected, []) (chunks PAGE_SIZE ids);
  let out := acc.2 in
  if negb (bool_decide (length out = length newest)) then inl MessageDisappeared
  else
    let names := sender_names (remove_dups (merge_sort Z.le (map (fun row => mg_sender (ib_message row)) out))) in
    let named row := match names !! mg_sender (ib_message row) with
                     | Some name => mkInboxRow (ib_message row) (ib_kind row) name (ib_read row) (ib_ack row)
                     | None => row
                     end in
    inr (merge_sort newer_first (map named out)).

(** @src db/src/sync/inbox.rs:100-123 fetch_direct *)
Definition fetch_direct (project_id agent_id : Z) (since_ts : option Z) (limit : nat) (o : InboxFetchOptions) :
    InboxError + list InboxRow :=
  if i64_max <? Z.of_nat limit then inl LimitTooLarge
  else if (limit =? 0)%nat then inr []
  else
    walked ← match newest_first_budget agent_id limit o with
             | Some budget => newest_first_window project_id agent_id since_ts limit o budget
             | None => inr None
             end;
    newest ← match walked with
             | Some newest => inr newest
             | None => receipt_window project_id agent_id since_ts limit o
             end;
    hydrate project_id newest (body_policy o).

(** ** Mail to the project *)

(** @src db/src/sync/inbox.rs:771-787 fetch_shared
    -- the candidates delivered to the project. *)
Definition shared_deliveries (project_id : Z) (headers : gmap Z Z) : InboxError + gmap Z Z :=
  let ids := (iterate headers).*1 in
  try_fold (fun deliveries idd =>
      match headers !! idd.1 with
      | None => inl UnrequestedRow
      | Some created =>
          inr (if sd_project idd.2 =? project_id then <[idd.1 := created]> deliveries else deliveries)
      end)
    (∅ : gmap Z Z) (scan (DeliveryKeys ids) (select_where (fun id _ => in_ids ids id) (shared db))).

(** @src db/src/sync/inbox.rs:796-814 fetch_shared
    -- the receipts of the agent for them. *)
Definition shared_receipts (agent_id : Z) (deliveries : gmap Z Z) : InboxError + gmap Z (option Z * option Z) :=
  rows ← shared_receipt_rows (ReceiptKeys agent_id) (receipts db) (iterate deliveries).*1 agent_id;
  try_fold (fun (found : gmap Z (option Z * option Z)) ir =>
      match deliveries !! ir.1 with
      | None => inl UnrequestedRow
      | Some _ => inr (<[ir.1 := (pr_read ir.2, pr_ack ir.2)]> found)
      end) ∅ rows.

(** @src db/src/sync/inbox.rs:815-839 fetch_shared
    -- the deliveries enter the window. *)
Definition keep_shared (limit : nat) (o : InboxFetchOptions) (found : gmap Z (option Z * option Z)) (w : NewestWindow)
    (ic : Z * Z) : NewestWindow :=
  let '(read_ts, ack_ts) := default (None, None) (found !! ic.1) in
  let receipt := mkInboxReceipt (u "project") read_ts ack_ts in
  if state_filtered o receipt then w else keep_newest limit (ic.2, ic.1) receipt w.

(** @src db/src/sync/inbox.rs:770-843 fetch_shared
    -- the candidates of a page, less those delivered to the agent by name. *)
Definition shared_page (project_id agent_id : Z) (limit : nat) (o : InboxFetchOptions) (headers : gmap Z Z) (newest : NewestWindow) :
    InboxError + NewestWindow :=
  if bool_decide (headers = ∅) then inr newest
  else
    deliveries ← shared_deliveries project_id headers;
    if bool_decide (deliveries = ∅) then inr newest
    else
      direct ← shared_receipt_rows (RecipientKeys agent_id) (recipients db) (iterate deliveries).*1 agent_id;
      let deliveries := foldl (fun d ir => delete ir.1 d) deliveries direct in
      if bool_decide (deliveries = ∅) then inr newest
      else
        found ← shared_receipts agent_id deliveries;
        inr (foldl (keep_shared limit o found) newest (iterate deliveries)).

(** @src db/src/sync/inbox.rs:747-765 fetch_shared *)
Definition shared_filtered (agent_id : Z) (o : InboxFetchOptions) (m : MessageRow) : bool :=
  (mg_sender m =? agent_id) || header_filtered o m || ack_filtered o m.

(** @src db/src/sync/inbox.rs:706-855 fetch_shared
    -- the loop over the pages. *)
Fixpoint shared_pages (fuel : nat) (project_id agent_id inception : Z) (since_ts : option Z) (limit : nat) (o : InboxFetchOptions)
    (ceiling : option Z) (skip_at_ceiling : Z) (newest : NewestWindow) : InboxError + NewestWindow :=
  match fuel with
  | O => inl OutOfFuel
  | S fuel =>
      let rows := shared_page_query project_id ceiling skip_at_ceiling in
      if (SHARED_PAGE_SIZE <? length rows)%nat then inl PageExceededBound
      else
        let finished := (length rows <? SHARED_PAGE_SIZE)%nat in
        st ← try_fold (visit_header project_id (fun m => (mg_created m <? inception) || not_since since_ts (mg_created m))
                         (shared_filtered agent_id o)) (mkPage ceiling skip_at_ceiling ∅ false) rows;
        newest ← shared_page project_id agent_id limit o (ps_candidates st) newest;
        if finished || ps_below st || window_complete limit (ps_last st) newest then inr newest
        else shared_pages fuel project_id agent_id inception since_ts limit o (ps_last st) (ps_trailing st) newest
  end.

(** @src db/src/sync/inbox.rs:674-856 fetch_shared *)
Definition fetch_shared (project_id agent_id : Z) (since_ts : option Z) (limit : nat) (o : InboxFetchOptions) :
    InboxError + list InboxRow :=
  if (limit =? 0)%nat then inr []
  else
    match get_agent_by_id adb agent_id with
    | None => inr []
    | Some viewer =>
        if negb (ar_project viewer =? project_id) || bool_decide (is_Some (ar_retired_at viewer)) ||
           eq_ignore_ascii_case (ar_contact viewer) (u "block_all") then inr []
        else
          newest ← shared_pages (S (length (project_messages project_id))) project_id agent_id (ar_inception viewer) since_ts
                     limit o None 0 [];
          hydrate project_id newest (body_policy o)
    end.

(** @src db/src/project_mailbox.rs:184-208 has_project_deliveries *)
Definition has_project_deliveries (project_id : Z) : bool :=
  negb (bool_decide (select_where (fun _ d => sd_project d =? project_id) (shared db) = [])).

(** @src db/src/project_mailbox.rs:403-424 fetch_project_mailbox_rows_from_conn *)
Definition fetch_project_mailbox_rows (project_id agent_id : Z) (since_ts : option Z) (limit : nat) (o : InboxFetchOptions) :
    InboxError + list InboxRow :=
  if i64_max <? Z.of_nat limit then inl LimitTooLarge
  else if negb (has_project_deliveries project_id) then inr []
  else fetch_shared project_id agent_id since_ts limit o.

(** @src db/src/project_mailbox.rs:651-669 merge_inbox_rows *)
Definition merge_inbox_rows (direct shared : list InboxRow) (limit : nat) : list InboxRow :=
  match shared with
  | [] => direct
  | _ => take limit (merge_sort newer_first (direct ++ shared))
  end.

(** @src db/src/sync.rs:418-436 fetch_inbox_rows_from_conn_impl *)
Definition fetch_inbox_rows (project_id agent_id : Z) (since_ts : option Z) (limit : nat) (o : InboxFetchOptions) :
    InboxError + list InboxRow :=
  direct ← fetch_direct project_id agent_id since_ts limit o;
  shared ← fetch_project_mailbox_rows project_id agent_id since_ts limit o;
  inr (merge_inbox_rows direct shared limit).
End inbox.
