(* ===== verification/InboxWindow.v ===== *)
(** * The newest window and the pages of headers ([db/src/sync/inbox.rs])

    The window kept while reading holds the newest entries seen so far, in
    whatever order they came, and the cursor of a page, a time with the number of
    messages of that time already visited, stands for a position in the index. *)

From S2P Require Import Prelude.
From S2P Require Import SqlTable.
From S2P Require Import Messages.
From S2P Require Import Inbox.

(** ** Keys *)

Lemma key_lt_true a b : key_lt a b = true <-> a.1 < b.1 \/ (a.1 = b.1 /\ a.2 < b.2).
Proof. unfold key_lt. rewrite orb_true_iff, andb_true_iff, !Z.ltb_lt, Z.eqb_eq. done. Qed.
Lemma key_lt_false a b : key_lt a b = false <-> b.1 < a.1 \/ (a.1 = b.1 /\ b.2 <= a.2).
Proof. rewrite <- not_true_iff_false, key_lt_true. lia. Qed.

Abbreviation entry := (Z * Z * InboxReceipt)%type.
Definition entry_newer (a b : entry) : Prop := key_lt a.1 b.1 = false.
#[export] Instance entry_newer_dec : RelDecision entry_newer.
Proof. intros a b. unfold entry_newer. apply _. Defined.
#[export] Instance entry_newer_trans : Transitive entry_newer.
Proof. intros a b c. unfold entry_newer. rewrite !key_lt_false. lia. Qed.
#[export] Instance entry_newer_total : Total entry_newer.
Proof. intros a b. unfold entry_newer. rewrite !key_lt_false. lia. Qed.

Lemma entries_apart (l : list entry) : NoDup l.*1 -> told_apart entry_newer l.
Proof.
  intros Hn x y [i Hi]%list_elem_of_lookup [j Hj]%list_elem_of_lookup Hxy Hyx. unfold entry_newer in *.
  rewrite key_lt_false in *. assert (x.1 = y.1) as E by (apply injective_projections; lia).
  assert (l.*1 !! i = Some y.1) as Hi' by (rewrite list_lookup_fmap, Hi; cbn; by rewrite E).
  assert (l.*1 !! j = Some y.1) as Hj' by (by rewrite list_lookup_fmap, Hj).
  rewrite (NoDup_lookup _ _ _ _ Hn Hi' Hj') in Hi. congruence.
Qed.

(** ** The window *)

Definition window (limit : nat) (seen : list entry) : NewestWindow := rev (top entry_newer limit seen).

Lemma window_nil limit : window limit [] = [].
Proof. by destruct limit. Qed.

Lemma window_perm limit (l l' : list entry) : NoDup l.*1 -> l ≡ₚ l' -> window limit l = window limit l'.
Proof. intros Hn Hp. unfold window. by rewrite (top_perm entry_newer limit l l' (entries_apart l Hn) Hp). Qed.

Lemma sorted_rev {A} (R : relation A) (l : list A) : StronglySorted R l -> StronglySorted (fun x y => R y x) (rev l).
Proof.
  induction 1 as [|a l Hs IH Ha]; [constructor|]. cbn.
  assert (forall x, x ∈ rev l -> R a x) as Hx.
  { intros x Hin. rewrite Forall_forall in Ha. apply Ha. by rewrite <- (Permutation_rev l) in Hin. }
  clear Ha Hs. induction IH as [|b l' IHs IHl Hb]; cbn; [repeat constructor|]. constructor.
  - apply IHl. intros x Hin. apply Hx. by right.
  - apply Forall_app. split; [done|]. constructor; [|constructor]. apply Hx. by left.
Qed.

Lemma insert_perm k r (w : NewestWindow) : k ∉ w.*1 -> window_insert k r w ≡ₚ (k, r) :: w.
Proof.
  induction w as [|e w IH]; cbn; [done|]. intros [Hk Hw]%not_elem_of_cons.
  destruct (key_lt k e.1) eqn:E1; [done|]. destruct (key_lt e.1 k) eqn:E2; [rewrite IH by done; by constructor|].
  exfalso. rewrite key_lt_false in *. apply Hk, injective_projections; lia.
Qed.

Lemma insert_sorted k r (w : NewestWindow) : k ∉ w.*1 -> StronglySorted (fun x y => entry_newer y x) w ->
  StronglySorted (fun x y => entry_newer y x) (window_insert k r w).
Proof.
  intros Hk Hs. induction Hs as [|e w Hs IH He]; [repeat constructor|]. apply not_elem_of_cons in Hk as [Hne Hk]. cbn.
  destruct (key_lt k e.1) eqn:E1; [|destruct (key_lt e.1 k) eqn:E2].
  - assert (entry_newer e (k, r)) as Hek by (unfold entry_newer; rewrite key_lt_true, key_lt_false in *; cbn in *; lia).
    constructor; [by constructor|]. constructor; [done|]. eapply Forall_impl; [exact He|]. intros x Hx. by transitivity e.
  - constructor; [by apply IH|]. rewrite insert_perm by done. constructor; [|done].
    unfold entry_newer. rewrite key_lt_true, key_lt_false in *. cbn. lia.
  - exfalso. rewrite key_lt_false in *. apply Hne, injective_projections; lia.
Qed.

(** Inserting into the reverse of an ordered list inserts into the list. *)
Lemma insert_rev k r (t : list entry) : StronglySorted entry_newer t -> NoDup ((k, r) :: t).*1 ->
  window_insert k r (rev t) = rev (merge_sort entry_newer (t ++ [(k, r)])).
Proof.
  intros Hs Hn. apply NoDup_cons in Hn as Hn'. destruct Hn' as [Hk _]. cbn [fst] in Hk.
  assert (k ∉ (rev t).*1) as Hk' by (by rewrite <- (Permutation_rev t)).
  rewrite <- (rev_involutive (window_insert k r (rev t))). f_equal. symmetry. apply sort_unique; [apply _..| | |].
  - apply entries_apart. rewrite (Permutation_app_comm t). done.
  - rewrite <- (Permutation_rev (window_insert k r (rev t))), insert_perm by done. rewrite <- (Permutation_rev t). by rewrite (Permutation_app_comm t).
  - apply sorted_rev in Hs. pose proof (sorted_rev _ _ (insert_sorted k r _ Hk' Hs)) as H. exact H.
Qed.

Lemma tail_rev {A} (l : list A) n : length l = S n -> tail (rev l) = rev (take n l).
Proof.
  intros Hl. destruct (exists_last (l := l)) as (l' & x & ->); [by intros ->|]. rewrite length_app in Hl. cbn in Hl.
  rewrite rev_app_distr. cbn. rewrite take_app_length'; [done|lia].
Qed.

Lemma head_rev_last {A} (l : list A) : head (rev l) = last l.
Proof. induction l as [|x l] using rev_ind; [done|]. rewrite rev_app_distr, last_snoc. done. Qed.

Lemma length_window limit seen : length (window limit seen) = Nat.min limit (length seen).
Proof. unfold window. rewrite length_rev. apply length_top. Qed.

Lemma top_sorted limit seen : StronglySorted entry_newer (top entry_newer limit seen).
Proof.
  unfold top. destruct (sorted_take_drop entry_newer limit (merge_sort entry_newer seen)) as [H _]; [|done].
  apply StronglySorted_merge_sort; apply _.
Qed.

Lemma top_keys limit seen k : k ∈ (top entry_newer limit seen).*1 -> k ∈ seen.*1.
Proof. intros (e & -> & He)%list_elem_of_fmap. apply list_elem_of_fmap. exists e. split; [done|]. by apply top_sub in He. Qed.

Lemma NoDup_top_keys limit seen : NoDup seen.*1 -> NoDup (top entry_newer limit seen).*1.
Proof.
  intros Hn. unfold top. assert (NoDup (merge_sort entry_newer seen).*1) as H by (by rewrite merge_sort_Permutation).
  rewrite <- (take_drop limit (merge_sort entry_newer seen)), fmap_app in H. by apply NoDup_app in H as [? _].
Qed.

(** The rest cannot enter a full window whose oldest entry is not older. *)
Lemma top_full limit seen rest : NoDup (seen ++ rest).*1 -> length (top entry_newer limit seen) = limit ->
  (forall x y, x ∈ top entry_newer limit seen -> y ∈ rest -> entry_newer x y) ->
  top entry_newer limit (seen ++ rest) = top entry_newer limit seen.
Proof.
  intros Hn Hl Hr. apply entries_apart in Hn as Ht. rewrite <- (top_app_l entry_newer limit seen rest) by done.
  set (t := top entry_newer limit seen) in *.
  assert (merge_sort entry_newer (t ++ rest) = t ++ merge_sort entry_newer rest) as E.
  { apply sort_unique; [apply _..| | |].
    - eapply told_apart_sub, Ht. intros x. rewrite !elem_of_app. intros [Hx|?]; [left|by right]. by apply top_sub in Hx.
    - by rewrite merge_sort_Permutation.
    - apply sorted_app; [apply top_sorted|apply StronglySorted_merge_sort; apply _|]. intros x y Hx. rewrite merge_sort_Permutation. by apply Hr. }
  unfold top at 1. rewrite E. apply take_app_length'. done.
Qed.

Lemma keep_window limit k r seen : (0 < limit)%nat -> NoDup (seen ++ [(k, r)]).*1 ->
  keep_newest limit k r (window limit seen) = window limit (seen ++ [(k, r)]).
Proof.
  intros Hlim Hn. unfold window. set (t := top entry_newer limit seen).
  assert (NoDup seen.*1 /\ k ∉ seen.*1) as [Hn1 Hk].
  { rewrite fmap_app in Hn. apply NoDup_app in Hn as (? & Hd & _). split; [done|]. intros Hin. apply (Hd k Hin). by left. }
  assert (NoDup ((k, r) :: t).*1) as Hnt.
  { apply NoDup_cons. split; [|by apply NoDup_top_keys]. intros Hin. by apply Hk, (top_keys limit). }
  assert (length t <= limit)%nat as Hlt by (unfold t; rewrite length_top; lia).
  rewrite <- (top_app_l entry_newer limit seen) by (by apply entries_apart). fold t. unfold top at 1.
  set (s := merge_sort entry_newer (t ++ [(k, r)])).
  assert (length s = S (length t)) as Hs by (unfold s; rewrite merge_sort_Permutation, length_app; cbn; lia).
  unfold keep_newest. rewrite length_rev. destruct (Nat.ltb_spec (length t) limit) as [Hless|Hge].
  { cbn [orb]. rewrite insert_rev by (apply top_sorted || done). fold s. rewrite length_rev, Hs.
    rewrite (proj2 (Nat.ltb_ge _ _)) by lia. rewrite take_ge by lia. done. }
  assert (length t = limit) as Hfull by lia. cbn [orb].
  destruct (rev t) as [|e w] eqn:Et; [apply (f_equal length) in Et; rewrite length_rev in Et; cbn in Et; lia|].
  destruct (key_lt e.1 k) eqn:Ek.
  - rewrite <- Et, insert_rev by (apply top_sorted || done). fold s. rewrite length_rev, Hs.
    rewrite (proj2 (Nat.ltb_lt _ _)) by lia. apply tail_rev. lia.
  - rewrite <- Et. f_equal. unfold s.
    assert (merge_sort entry_newer (t ++ [(k, r)]) = t ++ [(k, r)]) as ->; [|symmetry; apply take_app_length'; lia].
    apply sort_unique; [apply _..| |done|].
    + apply entries_apart. rewrite (Permutation_app_comm t). done.
    + apply sorted_app; [apply top_sorted|repeat constructor|]. intros x y Hx ->%list_elem_of_singleton.
      apply (transitivity (y := e)); [|done]. pose proof (sorted_rev _ _ (top_sorted limit seen)) as Hr. fold t in Hr.
      rewrite Et in Hr. apply StronglySorted_inv in Hr as [_ Hr]. rewrite Forall_forall in Hr.
      rewrite (Permutation_rev t), Et in Hx. apply elem_of_cons in Hx as [->|Hx]; [|by apply Hr].
      destruct (entry_newer_total e e); done.
Qed.

Lemma keep_all limit (es : list entry) : (0 < limit)%nat -> forall seen, NoDup (seen ++ es).*1 ->
  foldl (fun w e => keep_newest limit e.1 e.2 w) (window limit seen) es = window limit (seen ++ es).
Proof.
  intros Hlim. induction es as [|[k r] es IH]; intros seen Hn; cbn [foldl]; [by rewrite app_nil_r|].
  rewrite cons_middle, app_assoc in Hn |- *. rewrite keep_window; [by apply IH|done|].
  rewrite fmap_app in Hn. by apply NoDup_app in Hn as [? _].
Qed.

(** Times older than the oldest of a complete window need not be read. *)
Lemma window_complete_done limit last seen rest : NoDup (seen ++ rest).*1 ->
  window_complete limit last (window limit seen) = true ->
  (forall y ts, last = Some ts -> y ∈ rest -> y.1.1 <= ts) -> window limit (seen ++ rest) = window limit seen.
Proof.
  intros Hn [Hl Hw]%andb_true_iff Hr. apply bool_decide_eq_true in Hl. unfold window in Hl, Hw. rewrite length_rev in Hl.
  unfold window. f_equal. apply top_full; [done|done|]. intros x y Hx Hy.
  pose proof (sorted_rev _ _ (top_sorted limit seen)) as Hs.
  destruct (rev _) as [|e w] eqn:E; [done|]. destruct last as [ts|]; [|done]. apply Z.ltb_lt in Hw. specialize (Hr y ts eq_refl Hy).
  apply (transitivity (y := e)); [|unfold entry_newer; apply key_lt_false; left; lia].
  rewrite (Permutation_rev (top _ _ _)), E in Hx. apply StronglySorted_inv in Hs as [_ Hs]. rewrite Forall_forall in Hs.
  apply elem_of_cons in Hx as [->|Hx]; [|by apply Hs]. destruct (entry_newer_total e e); done.
Qed.

(** ** Positions in the index *)

Lemma take_length_take {A} n (l : list A) : take (length (take n l)) l = take n l.
Proof. revert n. induction l as [|x l IH]; intros [|n]; cbn; [done..|]. by rewrite IH. Qed.

Section pages.
  Context (run : list MessageRow) (project : Z) (below filtered : MessageRow -> bool).
  Hypothesis Hsorted : StronglySorted created_desc run.
  Hypothesis Hids : NoDup (mg_id <$> run).
  Hypothesis Hproject : Forall (fun m => mg_project m = project) run.
  Hypothesis Hsize : Z.of_nat (length run) <= i64_max.
  Hypothesis Hbelow : forall a b, created_desc a b -> below a = true -> below b = true.

(** A cursor stands for a position: the time of the last message visited, with
    the number of messages of that time among those visited. *)
Definition cursor_at (n : nat) (last : option Z) (trailing : Z) : Prop :=
  match n with
  | O => last = None /\ trailing = 0
  | S i => exists m, run !! i = Some m /\ last = Some (mg_created m) /\
             trailing = count_where (fun x => mg_created x =? mg_created m) (take n run)
  end.

Lemma around i m : run !! i = Some m ->
  (forall x, x ∈ take (S i) run -> created_desc x m) /\ (forall x, x ∈ drop (S i) run -> created_desc m x).
Proof.
  intros Hi. pose proof (take_drop_middle run i m Hi) as E. pose proof Hsorted as Hs. rewrite <- E in Hs.
  apply sorted_split in Hs as [Ha Hb]. rewrite Forall_forall in Ha, Hb. split; [|done]. intros x. rewrite (take_S_r _ _ _ Hi).
  intros [Hx| ->%list_elem_of_singleton]%elem_of_app; [by apply Hb|unfold created_desc; lia].
Qed.

Lemma cursor_page n last trailing : cursor_at n last trailing ->
  drop (Z.to_nat trailing) (List.filter (fun m => from_option (fun ts => mg_created m <=? ts) true last) run) = drop n run.
Proof.
  destruct n as [|i]; cbn [cursor_at].
  - intros [-> ->]. cbn. by rewrite bfilter_all_true.
  - intros (m & Hi & -> & ->). cbn [from_option]. destruct (around i m Hi) as [Hb Ha]. rewrite <- (take_drop (S i) run) at 2.
    rewrite List.filter_app, (bfilter_all_true _ (drop (S i) run)).
    2: { intros x Hx%list_elem_of_In%Ha. by apply Z.leb_le. }
    rewrite (bfilter_ext_in (fun x => mg_created x <=? mg_created m) (fun x => mg_created x =? mg_created m) (take (S i) run)).
    2: { intros x Hx%list_elem_of_In%Hb. unfold created_desc in Hx. apply eq_true_iff_eq. rewrite Z.leb_le, Z.eqb_eq. lia. }
    unfold count_where. rewrite Nat2Z.id. apply drop_app_length'. done.
Qed.

(** The next message moves the cursor by one. *)
Lemma cursor_next n last trailing m : cursor_at n last trailing -> run !! n = Some m ->
  from_option (fun previous => previous <? mg_created m) false last = false /\
  (if bool_decide (last = Some (mg_created m)) then
     if i64_max <? trailing + 1 then inl OffsetOverflow else inr (last, trailing + 1)
   else inr (Some (mg_created m), 1) : InboxError + (option Z * Z)) =
  inr (Some (mg_created m), count_where (fun x => mg_created x =? mg_created m) (take (S n) run)).
Proof.
  intros Hc Hm. rewrite (take_S_r _ _ _ Hm). unfold count_where at 1. rewrite List.filter_app, length_app, Nat2Z.inj_add.
  cbn [List.filter]. rewrite Z.eqb_refl. cbn [length]. fold (count_where (fun x => mg_created x =? mg_created m) (take n run)).
  assert (count_where (fun x => mg_created x =? mg_created m) (take n run) + 1 <= i64_max) as Hmax.
  { apply lookup_lt_Some in Hm. unfold count_where.
    pose proof (List.filter_length_le (fun x => mg_created x =? mg_created m) (take n run)) as Hf. rewrite length_take in Hf. lia. }
  destruct n as [|i]; cbn [cursor_at] in Hc.
  - destruct Hc as [-> ->]. split; [done|]. rewrite bool_decide_eq_false_2 by done. done.
  - destruct Hc as (m0 & Hi & -> & ->). destruct (around i m0 Hi) as [Hb Ha].
    assert (m ∈ drop (S i) run) as Hin by (apply list_elem_of_lookup; exists 0%nat; by rewrite lookup_drop, Nat.add_0_r).
    specialize (Ha m Hin). unfold created_desc in Ha. split; [by apply Z.ltb_ge|]. case_bool_decide as E.
    + injection E as E. rewrite E, (proj2 (Z.ltb_ge _ _)) by done. done.
    + assert (mg_created m0 <> mg_created m) as E' by congruence.
      assert (count_where (fun x => mg_created x =? mg_created m) (take (S i) run) = 0) as ->; [|done].
      unfold count_where. rewrite bfilter_all_false; [done|]. intros x Hx%list_elem_of_In%Hb. unfold created_desc in Hx.
      apply Z.eqb_neq. lia.
Qed.

Definition wanted (m : MessageRow) : bool := negb (below m) && negb (filtered m).
Definition add_candidate (c : gmap Z Z) (m : MessageRow) : gmap Z Z := if wanted m then <[mg_id m := mg_created m]> c else c.

Lemma visit_next n last trailing cands b m : cursor_at n last trailing -> run !! n = Some m -> cands !! mg_id m = None ->
  exists last' trailing', cursor_at (S n) last' trailing' /\
    visit_header project below filtered (mkPage last trailing cands b) m = inr (mkPage last' trailing' (add_candidate cands m) (b || below m)).
Proof.
  intros Hc Hm Hn. destruct (cursor_next n last trailing m Hc Hm) as [H1 H2].
  exists (Some (mg_created m)), (count_where (fun x => mg_created x =? mg_created m) (take (S n) run)). split; [by exists m|].
  unfold visit_header. cbn [ps_last ps_trailing ps_candidates ps_below]. rewrite H1, H2. cbn [mbind result_bind].
  assert (mg_project m = project) as Hp by (rewrite Forall_forall in Hproject; by apply Hproject, list_elem_of_lookup_2 with n).
  unfold add_candidate, wanted. destruct (below m); [by rewrite orb_true_r|]. rewrite Hp, Z.eqb_refl, orb_false_r. cbn [negb andb].
  destruct (filtered m); [done|]. by rewrite Hn.
Qed.

Lemma visit_page rows : forall n last trailing cands b, cursor_at n last trailing -> rows `prefix_of` drop n run ->
  (forall m, m ∈ rows -> cands !! mg_id m = None) ->
  exists last' trailing', cursor_at (n + length rows) last' trailing' /\
    try_fold (visit_header project below filtered) (mkPage last trailing cands b) rows =
    inr (mkPage last' trailing' (foldl add_candidate cands rows) (b || existsb below rows)).
Proof.
  induction rows as [|m rows IH]; intros n last trailing cands b Hc [post Hp] Hn.
  { exists last, trailing. rewrite Nat.add_0_r. cbn. by rewrite orb_false_r. }
  assert (run !! n = Some m) as Hm.
  { rewrite <- (Nat.add_0_r n), <- lookup_drop, Hp. done. }
  destruct (visit_next n last trailing cands b m Hc Hm) as (last1 & trailing1 & Hc1 & E1); [apply Hn; by left|].
  pose proof Hp as Hp'. rewrite (drop_S _ _ _ Hm) in Hp'. cbn in Hp'. injection Hp' as Hp'.
  destruct (IH (S n) last1 trailing1 (add_candidate cands m) (b || below m) Hc1) as (last2 & trailing2 & Hc2 & E2).
  - by exists post.
  - intros m' Hm'. unfold add_candidate. destruct (wanted m); [|apply Hn; by right]. rewrite lookup_insert_ne; [apply Hn; by right|].
    intros E. assert (NoDup (mg_id <$> m :: rows)) as Hnd.
    { pose proof Hids as H. rewrite <- (take_drop n run), Hp, fmap_app, fmap_app in H. apply NoDup_app in H as (_ & _ & H).
      by apply NoDup_app in H as [? _]. }
    cbn in Hnd. apply NoDup_cons in Hnd as [Hnd _]. apply Hnd. rewrite E. by apply list_elem_of_fmap_2.
  - exists last2, trailing2. cbn [length]. rewrite Nat.add_succ_r. split; [done|]. cbn [try_fold existsb foldl]. rewrite E1.
    cbn [mbind result_bind]. by rewrite E2, orb_assoc.
Qed.

Lemma candidates_spec rows id ts : NoDup (mg_id <$> rows) -> foldl add_candidate ∅ rows !! id = Some ts <->
  exists m, m ∈ rows /\ wanted m = true /\ mg_id m = id /\ mg_created m = ts.
Proof.
  induction rows as [|m rows IH] using rev_ind; [intros _; cbn; split; [done|by intros (? & ?%elem_of_nil & _)]|].
  rewrite fmap_app. intros (Hn & Hd & _)%NoDup_app. rewrite foldl_snoc. unfold add_candidate at 1.
  destruct (wanted m) eqn:Ew; [destruct (decide (id = mg_id m)) as [-> | Hne]|].
  - rewrite lookup_insert_eq. split.
    + intros [= <-]. exists m. split_and!; try done. apply elem_of_app. right. by left.
    + intros (m' & [Hin|Hin]%elem_of_app & _ & E & <-); [|by apply list_elem_of_singleton in Hin as ->].
      exfalso. apply (Hd (mg_id m')); [by apply list_elem_of_fmap_2|]. rewrite E. by left.
  - rewrite lookup_insert_ne by done. rewrite IH by done. split; intros (m' & Hin & ? & E & ?); exists m'; (split; [|done]).
    + apply elem_of_app. by left.
    + apply elem_of_app in Hin as [?|Hin]; [done|]. apply list_elem_of_singleton in Hin as ->. congruence.
  - rewrite IH by done. split; intros (m' & Hin & ? & E & ?); exists m'; (split; [|done]).
    + apply elem_of_app. by left.
    + apply elem_of_app in Hin as [?|Hin]; [done|]. apply list_elem_of_singleton in Hin as ->. congruence.
Qed.

(** *** When reading may stop *)

  Context (f : MessageRow -> option entry).
  Hypothesis Hkey : forall m e, f m = Some e -> e.1 = (mg_created m, mg_id m).
  Hypothesis Hnone : forall m, below m = true -> f m = None.

Lemma entries_keys : NoDup (omap f run).*1.
Proof.
  apply (NoDup_omap_key f (fun m => (mg_created m, mg_id m)) fst); [done|]. apply (NoDup_fmap_1 snd). rewrite <- list_fmap_compose. done.
Qed.

Lemma stop_exact n limit last trailing rows : cursor_at (n + length rows) last trailing -> rows = take SHARED_PAGE_SIZE (drop n run) ->
  (length rows <? SHARED_PAGE_SIZE)%nat || existsb below rows || window_complete limit last (window limit (omap f (take (n + length rows) run))) = true ->
  window limit (omap f (take (n + length rows) run)) = window limit (omap f run).
Proof.
  intros Hc Hr Hs. set (k := (n + length rows)%nat) in *.
  assert (Hall : omap f run = omap f (take k run) ++ omap f (drop k run)) by (by rewrite <- omap_app, take_drop).
  apply orb_true_iff in Hs as [[Hs|Hs]%orb_true_iff|Hs].
  - apply Nat.ltb_lt in Hs. assert (length run <= k)%nat as Hk.
    { rewrite Hr, length_take, length_drop in Hs. subst k. rewrite Hr, length_take, length_drop. lia. }
    by rewrite take_ge.
  - apply existsb_exists in Hs as (m & Hm%list_elem_of_In & Hb).
    assert (omap f (drop k run) = []) as E; [|by rewrite Hall, E, app_nil_r].
    assert (m ∈ take k run) as Hmk.
    { subst k. rewrite <- take_take_drop, elem_of_app. right.
      rewrite Hr in Hm |- *. by rewrite take_length_take. }
    destruct (sorted_take_drop created_desc k run Hsorted) as (_ & _ & Hcross).
    apply elem_of_nil_inv. intros e (x & Hx & Hf)%list_elem_of_omap. rewrite Hnone in Hf; [done|]. by apply (Hbelow m); [apply Hcross|].
  - rewrite Hall. symmetry. eapply window_complete_done; [rewrite <- Hall; apply entries_keys|exact Hs|].
    intros y ts -> (x & Hx & Hf)%list_elem_of_omap. destruct k as [|i]; cbn in Hc; [by destruct Hc|]. destruct Hc as (m & Hi & [= ->] & _).
    destruct (around i m Hi) as [_ Ha]. specialize (Ha x Hx). unfold created_desc in Ha. by rewrite (Hkey x y Hf).
Qed.
End pages.
