(* ===== verification/InboxReads.v ===== *)
(** * The reads of the inbox ([db/src/sync/inbox.rs])

    What each batched read returns, whatever the order of the rows: lists of rows
    by key, described by their members. *)

From S2P Require Import Prelude.
From S2P Require Import SqlTable.
From S2P Require Import RustStr.
From S2P Require Import Leases.
From S2P Require Import AgentRegistry.
From S2P Require Import Messages.
From S2P Require Import MessagesProps.
From S2P Require Import DeliveryCursor.
From S2P Require Import Inbox.
From S2P Require Import InboxWindow.

(** ** Folds that may fail *)

Lemma try_fold_app {E St A} (f : St -> A -> E + St) l : forall s l', try_fold f s (l ++ l') = s' ← try_fold f s l; try_fold f s' l'.
Proof. induction l as [|a l IH]; intros s l'; cbn; [done|]. destruct (f s a); cbn; [done|apply IH]. Qed.

Lemma try_fold_concat {E St A B} (f : St -> A -> E + St) (g : B -> list A) cs : forall s,
  try_fold (fun s c => try_fold f s (g c)) s cs = try_fold f s (List.concat (map g cs)).
Proof.
  induction cs as [|c cs IH]; intros s; cbn; [done|]. rewrite try_fold_app. destruct (try_fold f s (g c)); cbn; [done|apply IH].
Qed.

(** ** Rows by key *)

(** The rows with distinct ids that satisfy a condition. *)
Definition lists {A} (l : list (Z * A)) (P : Z -> A -> Prop) : Prop := NoDup l.*1 /\ forall id a, (id, a) ∈ l <-> P id a.

Lemma lists_perm {A} (l l' : list (Z * A)) P : l ≡ₚ l' -> lists l P -> lists l' P.
Proof. intros Hp [Hn H]. split; [by rewrite <- Hp|]. intros id a. by rewrite <- Hp. Qed.

Lemma lists_unique {A} (l l' : list (Z * A)) P : lists l P -> lists l' P -> l ≡ₚ l'.
Proof. intros [Hn H] [Hn' H']. apply NoDup_Permutation; [by eapply NoDup_fmap_1..|]. intros [id a]. by rewrite H, H'. Qed.

Lemma select_lists {A} p (t : gmap Z A) : lists (select_where p t) (fun id a => t !! id = Some a /\ p id a = true).
Proof. split; [apply select_where_NoDup|]. intros id a. apply elem_of_select_where. Qed.

Lemma NoDup_by {A B C} (h : A -> B) (g : A -> C) l : NoDup (h <$> l) ->
  (forall x y, x ∈ l -> y ∈ l -> g x = g y -> h x = h y) -> NoDup (g <$> l).
Proof.
  induction l as [|x l IH]; cbn; [constructor|]. intros [Hx Hn]%NoDup_cons Hg. apply NoDup_cons. split.
  - intros (y & E & Hy)%list_elem_of_fmap. apply Hx, list_elem_of_fmap. exists y. split; [|done]. apply Hg; [by left|by right|done].
  - apply IH; [done|]. intros y z Hy Hz. apply Hg; by right.
Qed.

Lemma agent_lists {A} (t : gmap (Z * Z) A) agent p :
  lists (agent_rows_where t agent p) (fun id a => t !! (id, agent) = Some a /\ p id = true).
Proof.
  unfold agent_rows_where. assert (forall k a, (k, a) ∈ select_where (fun k _ => (k.2 =? agent) && p k.1) t <->
    t !! k = Some a /\ k.2 = agent /\ p k.1 = true) as Hin.
  { intros k a. by rewrite elem_of_select_where, andb_true_iff, Z.eqb_eq. }
  split.
  - rewrite <- list_fmap_compose. apply (NoDup_by fst); [apply select_where_NoDup|].
    intros [[i b] x] [[j c] y] (_ & Eb & _)%Hin (_ & Ec & _)%Hin E. cbn in *. congruence.
  - intros id a. rewrite list_elem_of_fmap. split.
    + intros ([[i b] a'] & [= -> ->] & (H & Hb & Hp)%Hin). cbn in *. by subst b.
    + intros [H Hp]. exists ((id, agent), a). split; [done|]. by apply Hin.
Qed.

Lemma lists_concat {A B} (g : list B -> list (Z * A)) (key : B -> Z) (Q : Z -> A -> Prop) cs :
  (forall c, c ∈ cs -> lists (g c) (fun id a => Q id a /\ id ∈ key <$> c)) -> NoDup (key <$> List.concat cs) ->
  lists (List.concat (map g cs)) (fun id a => Q id a /\ id ∈ key <$> List.concat cs).
Proof.
  induction cs as [|c cs IH]; intros Hg Hn; cbn in *.
  { split; [constructor|]. intros id a. split; [by intros ?%elem_of_nil|by intros [_ ?%elem_of_nil]]. }
  rewrite fmap_app in Hn. apply NoDup_app in Hn as (_ & Hd & Hn). destruct (Hg c) as [H1 H2]; [by left|].
  destruct IH as [H3 H4]; [intros c' Hc'; apply Hg; by right|done|]. split.
  - rewrite fmap_app. apply NoDup_app. split_and!; [done| |done].
    intros id ([i a] & -> & [_ Hi]%H2)%list_elem_of_fmap ([j b] & E & [_ Hj]%H4)%list_elem_of_fmap. cbn in *. subst j. by eapply Hd.
  - intros id a. rewrite elem_of_app, H2, H4, fmap_app, elem_of_app. tauto.
Qed.

Lemma chunks_key {B} (key : B -> Z) k (l : list B) : (0 < k)%nat -> NoDup (key <$> l) -> NoDup (key <$> List.concat (chunks k l)).
Proof. intros Hk. by rewrite chunks_concat. Qed.

Lemma lists_length {A} (l : list (Z * A)) P ids : lists l P -> (forall id a, P id a -> id ∈ ids) -> (length l <= length ids)%nat.
Proof.
  intros [Hn H] Hi. rewrite <- (length_fmap fst l). apply submseteq_length, NoDup_submseteq; [done|].
  intros id ([i a] & -> & Hia)%list_elem_of_fmap. eapply Hi. by apply H.
Qed.

Section reads.
  Context `{eng : !InboxEngine} (adb : AgentDb) (db : MessageDb).
  Hypothesis Hids : forall id m, messages db !! id = Some m -> mg_id m = id.
  Hypothesis Hagents : NoDup (ar_id <$> agent_rows adb).

Lemma shared_receipt_rows_ok {A} (statement : list Z -> Statement) (t : gmap (Z * Z) A) ids agent : NoDup ids ->
  exists rows, shared_receipt_rows statement t ids agent = inr rows /\ lists rows (fun id a => t !! (id, agent) = Some a /\ id ∈ ids).
Proof.
  intros Hn. unfold shared_receipt_rows. set (g := fun chunk => scan (statement chunk) (agent_rows_where t agent (in_ids chunk))).
  assert (forall c, lists (g c) (fun i a => t !! (i, agent) = Some a /\ i ∈ id <$> c)) as Hg.
  { intros c. eapply lists_perm; [symmetry; apply scan_rows|]. destruct (agent_lists t agent (in_ids c)) as [H1 H2]. split; [done|].
    intros id a. by rewrite H2, in_ids_spec, list_fmap_id. }
  exists (List.concat (map g (chunks 8 ids))). split.
  - change (inr (List.concat (map g (chunks 8 ids)))) with (inr ([] ++ List.concat (map g (chunks 8 ids))) : InboxError + list (Z * A)).
    generalize (@nil (Z * A)). induction (chunks 8 ids) as [|c cs IH]; intros out; cbn [try_fold map List.concat]; [by rewrite app_nil_r|].
    fold (g c). assert (length (g c) <= length c)%nat as Hl.
    { eapply lists_length; [apply Hg|]. intros id a [_ Hi]. by rewrite list_fmap_id in Hi. }
    rewrite (proj2 (Nat.ltb_ge _ _)) by done. cbn [mbind result_bind]. by rewrite IH, app_assoc.
  - pose proof (lists_concat g id (fun i a => t !! (i, agent) = Some a) (chunks 8 ids) (fun c _ => Hg c)) as Hc.
    rewrite !chunks_concat in Hc by lia. rewrite list_fmap_id in Hc. by apply Hc.
Qed.

(** A message with its id. *)
Definition keyed (m : MessageRow) : Z * MessageRow := (mg_id m, m).

Lemma messages_by_id_ok ids : lists (map keyed (messages_by_id db ids)) (fun id m => messages db !! id = Some m /\ id ∈ ids).
Proof.
  unfold messages_by_id. eapply lists_perm; [apply Permutation_map; symmetry; apply scan_rows|].
  destruct (select_lists (fun id _ => in_ids ids id) (messages db)) as [Hn H].
  assert (map keyed (select_where (fun id _ => in_ids ids id) (messages db)).*2 = select_where (fun id _ => in_ids ids id) (messages db)) as ->.
  { assert (Forall (fun im => mg_id im.2 = im.1) (select_where (fun id _ => in_ids ids id) (messages db))) as Hf.
    { apply Forall_forall. intros [id m] [Hm _]%H. by apply Hids. }
    clear Hn H. induction Hf as [|[id m] l E Hf IH]; cbn in *; [done|]. f_equal; [by unfold keyed; rewrite <- E|done]. }
  split; [done|]. intros id m. by rewrite H, in_ids_spec.
Qed.

Lemma keyed_inv (l : list MessageRow) m : keyed m ∈ map keyed l <-> m ∈ l.
Proof. change (map keyed l) with (keyed <$> l). rewrite list_elem_of_fmap. split; [intros (m' & E & ?); unfold keyed in E; congruence|eauto]. Qed.

Lemma keyed_ids (l : list MessageRow) : (map keyed l).*1 = mg_id <$> l.
Proof. change (map keyed l) with (keyed <$> l). by rewrite <- list_fmap_compose. Qed.

(** ** The receipts of an agent, page by page *)

#[export] Instance by_id_trans {A} : Transitive (@by_id A).
Proof. intros a b c. unfold by_id. lia. Qed.
#[export] Instance by_id_total {A} : Total (@by_id A).
Proof. intros a b. unfold by_id. lia. Qed.

Lemma by_id_apart {A} (l : list (Z * A)) : NoDup l.*1 -> told_apart by_id l.
Proof.
  intros Hn x y Hx Hy Hxy Hyx. unfold by_id in *. assert (x.1 = y.1) as E by lia.
  apply list_elem_of_lookup in Hx as [i Hi], Hy as [j Hj].
  assert (l.*1 !! i = Some y.1) as Hi' by (rewrite list_lookup_fmap, Hi; cbn; by rewrite E).
  assert (l.*1 !! j = Some y.1) as Hj' by (by rewrite list_lookup_fmap, Hj).
  rewrite (NoDup_lookup _ _ _ _ Hn Hi' Hj') in Hi. congruence.
Qed.

Lemma bfilter_partition {A} (p : A -> bool) l : List.filter p l ++ List.filter (fun x => negb (p x)) l ≡ₚ l.
Proof.
  induction l as [|x l IH]; cbn; [done|]. destruct (p x); cbn; [by rewrite IH|]. rewrite <- Permutation_middle. by rewrite IH.
Qed.

Lemma keyed_by_message_id_ok {A} (rows : list (Z * A)) : keyed_by_message_id (take PAGE_SIZE rows) = inr (merge_sort by_id (take PAGE_SIZE rows)).
Proof. unfold keyed_by_message_id. rewrite length_take, (proj2 (Nat.ltb_ge _ _)) by lia. done. Qed.

Lemma sorted_by_id {A} (l : list (Z * A)) : StronglySorted by_id (merge_sort by_id l).
Proof. apply StronglySorted_merge_sort; apply _. Qed.

Lemma receipt_page_ok agent after :
  receipt_page db agent after =
  inr (take PAGE_SIZE (merge_sort by_id (agent_rows_where (recipients db) agent (fun id => from_option (fun a => a <? id) true after)))).
Proof.
  unfold receipt_page. set (rest := agent_rows_where _ _ _). set (found := scan _ rest). rewrite !keyed_by_message_id_ok. cbn [mbind result_bind].
  assert (found ≡ₚ rest) as Hp by apply scan_rows. assert (NoDup rest.*1) as Hn by apply agent_lists.
  set (page := merge_sort by_id (take PAGE_SIZE found)).
  assert (page ≡ₚ take PAGE_SIZE found) as Hpage by apply merge_sort_Permutation.
  assert ((length found <= PAGE_SIZE)%nat -> page = take PAGE_SIZE (merge_sort by_id rest)) as Hall.
  { intros Hl. unfold page. rewrite take_ge by done. rewrite (sort_perm by_id found rest); [|apply by_id_apart; by rewrite Hp|done].
    rewrite take_ge; [done|]. by rewrite merge_sort_Permutation, <- Hp. }
  assert (length page = Nat.min PAGE_SIZE (length found)) as Hlen by (rewrite Hpage; apply length_take).
  destruct (last page) as [[top row]|] eqn:El.
  - case_bool_decide as Efull; cbn [negb]; [|f_equal; apply Hall; lia].
    destruct (Z.eqb_spec (count_where (fun ir => ir.1 <=? top) rest) (Z.of_nat (length page))) as [Ec|Ec].
    + f_equal. set (low := fun ir : Z * RecipientRow => ir.1 <=? top) in *.
      assert (forall x, x ∈ page -> x.1 <= top) as Hle.
      { apply last_Some in El as [l' El]. intros x Hx. pose proof (sorted_by_id (take PAGE_SIZE found)) as Hs. fold page in Hs.
        rewrite El in Hs, Hx. apply sorted_split in Hs as [_ Hs]. rewrite Forall_forall in Hs.
        apply elem_of_app in Hx as [Hx| ->%list_elem_of_singleton]; [by apply (Hs x)|done]. }
      assert (page ≡ₚ List.filter low rest) as Hlow.
      { apply submseteq_length_Permutation; [|unfold count_where in Ec; lia]. apply NoDup_submseteq.
        - rewrite Hpage. apply (NoDup_fmap_1 fst). rewrite <- Hp, <- (take_drop PAGE_SIZE found), fmap_app in Hn. by apply NoDup_app in Hn as [? _].
        - intros x Hx. rewrite list_elem_of_In, filter_In, <- list_elem_of_In. split; [|by apply Z.leb_le, Hle].
          rewrite Hpage in Hx. rewrite <- Hp. by apply (subseteq_take PAGE_SIZE). }
      assert (merge_sort by_id rest = page ++ merge_sort by_id (List.filter (fun x => negb (low x)) rest)) as ->.
      { apply sort_unique; [apply _..|by apply by_id_apart| |].
        - rewrite merge_sort_Permutation, Hlow. apply bfilter_partition.
        - apply sorted_app; [apply sorted_by_id..|]. intros x y Hx%Hle Hy. rewrite merge_sort_Permutation in Hy.
          apply list_elem_of_In, filter_In in Hy as [_ Hy]. unfold low in Hy. breflect. unfold by_id. lia. }
      symmetry. by apply take_app_length'.
    + f_equal. destruct (sorted_take_drop by_id PAGE_SIZE _ (sorted_by_id rest)) as [Hs _]. apply sort_unique; [apply _..| |done|done].
      apply by_id_apart. pose proof Hn as Hr. rewrite <- (merge_sort_Permutation by_id rest) in Hr.
      rewrite <- (take_drop PAGE_SIZE (merge_sort by_id rest)), fmap_app in Hr. by apply NoDup_app in Hr as [? _].
  - apply last_None in El. f_equal. apply Hall. rewrite El in Hlen. cbn [length] in Hlen. unfold PAGE_SIZE in *. lia.
Qed.

(** ** The receipts of a page of headers *)

Lemma iterate_lists {V} (c : gmap Z V) : lists (iterate c) (fun id v => c !! id = Some v).
Proof.
  eapply lists_perm; [symmetry; apply iterate_rows|]. split; [apply NoDup_fst_map_to_list|]. intros id v. apply elem_of_map_to_list.
Qed.

Lemma iterate_keys {V} (c : gmap Z V) : NoDup (iterate c).*1 /\ forall id, id ∈ (iterate c).*1 <-> is_Some (c !! id).
Proof.
  destruct (iterate_lists c) as [Hn H]. split; [done|]. intros id. rewrite list_elem_of_fmap. split.
  - intros ([i v] & -> & Hv%H). by eexists.
  - intros [v Hv%H]. by exists (id, v).
Qed.

Lemma lists_filter {A} (l : list (Z * A)) P (p : Z -> bool) : lists l P ->
  lists (List.filter (fun ir => p ir.1) l) (fun id a => P id a /\ p id = true).
Proof.
  intros [Hn H]. split; [|intros id a; by rewrite list_elem_of_In, filter_In, <- list_elem_of_In, H].
  clear H. induction l as [|[id a] l IH]; cbn in *; [constructor|]. apply NoDup_cons in Hn as [Hi Hn]. destruct (p id); [|by apply IH].
  cbn. apply NoDup_cons. split; [|by apply IH]. intros (ir & -> & Hir)%list_elem_of_fmap. apply Hi, list_elem_of_fmap. exists ir.
  apply list_elem_of_In, filter_In in Hir as [? _]. split; [done|by apply list_elem_of_In].
Qed.

Lemma lists_map {A B} (f : A -> B) (l : list (Z * A)) P : lists l P ->
  lists (map (fun ia => (ia.1, f ia.2)) l) (fun id b => exists a, P id a /\ b = f a).
Proof.
  intros [Hn H]. split; [change (map ?g l) with (g <$> l); rewrite <- list_fmap_compose; exact Hn|].
  intros id b. change (map ?g l) with (g <$> l). rewrite list_elem_of_fmap. split.
  - intros ([i a] & [= -> ->] & Ha). exists a. by rewrite <- H.
  - intros (a & Ha & ->). exists (id, a). split; [done|]. by apply H.
Qed.

Lemma lists_iff {A} (l : list (Z * A)) P Q : (forall id a, P id a <-> Q id a) -> lists l P -> lists l Q.
Proof. intros HPQ [Hn H]. split; [done|]. intros id a. by rewrite H. Qed.

Lemma page_receipts_ok agent (c : gmap Z Z) : exists rs read, page_receipts db agent c = inr (rs, read) /\
  lists rs (fun id r => is_Some (c !! id) /\ receipt_of <$> recipients db !! (id, agent) = Some r).
Proof.
  unfold page_receipts. destruct (iterate_keys c) as [Hn Hk].
  destruct (sql_min (iterate c).*1) as [low|] eqn:El; [destruct (sql_max (iterate c).*1) as [high|] eqn:Eh|].
  2: { apply sql_max_None in Eh. apply sql_min_elem in El. rewrite Eh in El. by apply elem_of_nil in El. }
  2: { apply sql_min_None in El. rewrite El in *. exists [], 0. split; [done|]. split; [constructor|]. intros id r.
       split; [by intros ?%elem_of_nil|intros [Hs _]; apply Hk in Hs; by apply elem_of_nil in Hs]. }
  set (range := agent_rows_where _ _ _). set (rows := take _ _).
  assert (exists out, (if (RECIPIENT_RANGE_LIMIT <=? length rows)%nat
                       then shared_receipt_rows (RecipientKeys agent) (recipients db) (iterate c).*1 agent else inr rows) = inr out /\
    lists (List.filter (fun ir => bool_decide (is_Some (c !! ir.1))) out)
      (fun id r => is_Some (c !! id) /\ recipients db !! (id, agent) = Some r)) as (out & -> & Hout).
  { destruct (Nat.leb_spec RECIPIENT_RANGE_LIMIT (length rows)) as [Hge|Hlt].
    - destruct (shared_receipt_rows_ok (RecipientKeys agent) (recipients db) (iterate c).*1 agent Hn) as (out & E & Hl).
      exists out. split; [done|]. apply (lists_filter _ _ (fun id => bool_decide (is_Some (c !! id)))) in Hl.
      eapply lists_iff, Hl. intros id r. cbn. rewrite bool_decide_eq_true, Hk. tauto.
    - exists rows. split; [done|]. assert (rows ≡ₚ range) as Hp.
      { unfold rows in *. rewrite length_take in Hlt. rewrite take_ge by lia. apply scan_rows. }
      pose proof (agent_lists (recipients db) agent (fun id => (low <=? id) && (id <=? high))) as Hl. fold range in Hl.
      apply (lists_perm _ rows) in Hl; [|done]. apply (lists_filter _ _ (fun id => bool_decide (is_Some (c !! id)))) in Hl.
      eapply lists_iff, Hl. intros id r. cbn. rewrite bool_decide_eq_true. split; [tauto|]. intros [Hs Hr]. split_and!; try done.
      apply Hk in Hs. apply andb_true_iff. rewrite !Z.leb_le. split; [by eapply sql_min_le|by eapply sql_max_ge]. }
  cbn [mbind result_bind]. eexists _, _. split; [done|]. apply (lists_map receipt_of) in Hout. eapply lists_iff, Hout.
  intros id r. cbn. rewrite fmap_Some. firstorder.
Qed.

(** ** Senders *)

Lemma sender_names_ok senders s : NoDup senders -> s ∈ senders ->
  sender_names adb senders !! s = ar_name <$> get_agent_by_id adb s.
Proof.
  intros Hn Hs. unfold sender_names. set (l := List.concat _).
  assert (forall a, a ∈ l <-> a ∈ agent_rows adb /\ ar_id a ∈ senders) as Hl.
  { intros a. unfold l. rewrite list_elem_of_In, in_concat. split.
    - intros (rows & (c & <- & Hc)%in_map_iff & Ha). apply list_elem_of_In in Ha. rewrite scan_rows in Ha.
      apply list_elem_of_In, filter_In in Ha as [Ha Hin%in_ids_spec]. split; [by apply list_elem_of_In|].
      rewrite <- (chunks_concat PAGE_SIZE senders) by (unfold PAGE_SIZE; lia). apply list_elem_of_In, in_concat. exists c. split; [done|].
      by apply list_elem_of_In.
    - intros [Ha Hin]. rewrite <- (chunks_concat PAGE_SIZE senders) in Hin by (unfold PAGE_SIZE; lia).
      apply list_elem_of_In, in_concat in Hin as (c & Hc & Hin). eexists. split; [apply in_map_iff; by exists c|].
      apply list_elem_of_In. rewrite scan_rows. apply list_elem_of_In, filter_In. split; [by apply list_elem_of_In|]. apply in_ids_spec. by apply list_elem_of_In. }
  assert (forall a b, a ∈ agent_rows adb -> b ∈ agent_rows adb -> ar_id a = ar_id b -> a = b) as Hinj.
  { intros a b [i Hi]%list_elem_of_lookup [j Hj]%list_elem_of_lookup E.
    assert ((ar_id <$> agent_rows adb) !! i = Some (ar_id b)) as Hi' by (rewrite list_lookup_fmap, Hi; cbn; by rewrite E).
    assert ((ar_id <$> agent_rows adb) !! j = Some (ar_id b)) as Hj' by (by rewrite list_lookup_fmap, Hj).
    rewrite (NoDup_lookup _ _ _ _ Hagents Hi' Hj') in Hi. congruence. }
  assert (forall a, get_agent_by_id adb s = Some a <-> a ∈ l /\ ar_id a = s) as Hfind.
  { intros a. unfold get_agent_by_id. split.
    - intros [Ha E]%find_some. apply Z.eqb_eq in E. split; [|done]. apply Hl. split; [by apply list_elem_of_In|by rewrite E].
    - intros [[Ha _]%Hl E]. destruct (List.find _ (agent_rows adb)) as [b|] eqn:Ef.
      + apply find_some in Ef as [Hb Eb]. apply Z.eqb_eq in Eb. f_equal. apply Hinj; [by apply list_elem_of_In|done|congruence].
      + apply list_elem_of_In in Ha. pose proof (find_none _ _ Ef a Ha) as Hne. cbn in Hne. apply Z.eqb_neq in Hne. done. }
  clearbody l. clear Hn Hs. destruct (get_agent_by_id adb s) as [a|] eqn:Ea; cbn.
  - destruct (proj1 (Hfind a) eq_refl) as [Ha Es].
    assert (forall b, b ∈ l -> ar_id b = s -> ar_name b = ar_name a) as Huniq.
    { intros b Hb E. assert (Some a = Some b) as [= ->]; [|done]. apply Hfind. done. }
    clear Hfind Hl. induction l as [|b l IH] using rev_ind; [by apply elem_of_nil in Ha|]. rewrite foldl_snoc.
    destruct (decide (ar_id b = s)) as [E|E].
    + rewrite E, lookup_insert_eq. f_equal. apply Huniq; [apply elem_of_app; right; by left|done].
    + rewrite lookup_insert_ne by done. apply IH; [|intros b' Hb'; apply Huniq, elem_of_app; by left].
      apply elem_of_app in Ha as [Ha| ->%list_elem_of_singleton]; done.
  - assert (forall b, b ∈ l -> ar_id b <> s) as Hno by (intros b Hb E; assert (None = Some b) by (by apply Hfind); done).
    clear Hfind Hl. induction l as [|b l IH] using rev_ind; [done|]. rewrite foldl_snoc.
    rewrite lookup_insert_ne by (apply Hno, elem_of_app; right; by left). apply IH. intros b' Hb'. apply Hno, elem_of_app. by left.
Qed.
End reads.
