(* ===== verification/InboxDirect.v ===== *)
(** * Mail by name in the inbox ([db/src/sync/inbox.rs])

    [inbox_reference] is the inbox as one would ask the database for it: the
    message deliveries of the agent and the shared ones it can see joined with
    their messages, filtered, ordered and cut.  Both plans for the mail delivered by
    name find its first rows, whatever order the database and the hash maps
    choose. *)

From S2P Require Import Prelude.
From S2P Require Import SqlTable.
From S2P Require Import RustStr.
From S2P Require Import Leases.
From S2P Require Import AgentRegistry.
From S2P Require Import AgentRegistryProps.
From S2P Require Import Messages.
From S2P Require Import MessagesProps.
From S2P Require Import DeliveryCursor.
From S2P Require Import Inbox.
From S2P Require Import InboxWindow.
From S2P Require Import InboxReads.

(** ** The reference *)

(** The conditions of the query, with the receipt of the agent. *)
Definition sql_matches (since_ts : option Z) (o : InboxFetchOptions) (m : MessageRow) (r : InboxReceipt) : bool :=
  implb (urgent_only o) (ustr_eqb (mg_importance m) (u "high") || ustr_eqb (mg_importance m) (u "urgent")) &&
  implb (unread_only o) (bool_decide (in_read r = None)) &&
  implb (ack_required_only o) ((mg_ack_required m =? 1) && bool_decide (in_ack r = None)) &&
  from_option (fun ts => (mg_ack_required m =? 1) && bool_decide (in_ack r = None) && (mg_created m <? ts)) true (ack_overdue_before o) &&
  from_option (fun ts => ts <? mg_created m) true since_ts &&
  from_option (fun wanted => from_option (fun actual => eq_ignore_ascii_case actual wanted) false (mg_topic m)) true (topic o).

Abbreviation found := (MessageRow * InboxReceipt)%type.

Section reference.
  Context (adb : AgentDb) (db : MessageDb) (project agent : Z) (since_ts : option Z) (o : InboxFetchOptions).

Definition direct_found : list found :=
  omap (fun imr : Z * (MessageRow * RecipientRow) =>
          if (mg_project imr.2.1 =? project) && sql_matches since_ts o imr.2.1 (receipt_of imr.2.2)
          then Some (imr.2.1, receipt_of imr.2.2) else None)
    (map_to_list (received db agent)).

(** The receipt of a shared message: that of the agent, or none yet. *)
Definition shared_receipt (id : Z) : InboxReceipt :=
  let r := default (mkReceipt None None) (receipts db !! (id, agent)) in mkInboxReceipt (u "project") (pr_read r) (pr_ack r).

Definition shared_found : list found :=
  omap (fun idd : Z * SharedDelivery =>
          m ← messages db !! idd.1; viewer ← get_agent_by_id adb agent;
          if (sd_project idd.2 =? project) && visible_to_viewer db idd.1 idd.2 m viewer && sql_matches since_ts o m (shared_receipt idd.1)
          then Some (m, shared_receipt idd.1) else None)
    (map_to_list (shared db)).

Definition found_row (x : found) : InboxRow :=
  mkInboxRow (with_body (body_policy o) x.1) (in_kind x.2)
    (from_option ar_name UNKNOWN_SENDER_DISPLAY (get_agent_by_id adb (mg_sender x.1))) (in_read x.2) (in_ack x.2).

Definition inbox_reference (limit : nat) : list InboxRow :=
  take limit (merge_sort newer_first (map found_row (direct_found ++ shared_found))).
End reference.

(** The conditions are those of the filters. *)
Lemma matches_filters since_ts o m r :
  sql_matches since_ts o m r =
  negb (not_since since_ts (mg_created m)) && negb (header_filtered o m) && negb (ack_filtered o m) && negb (state_filtered o r).
Proof.
  unfold sql_matches, not_since, header_filtered, ack_filtered, state_filtered.
  assert (bool_decide (in_read r = None) = negb (bool_decide (is_Some (in_read r)))) as -> by (by destruct (in_read r)).
  assert (bool_decide (in_ack r = None) = negb (bool_decide (is_Some (in_ack r)))) as -> by (by destruct (in_ack r)).
  destruct (_ || _) as []; destruct (topic o) as [wanted|]; cbn; try destruct (from_option _ false (mg_topic m));
    destruct since_ts as [since|], (ack_overdue_before o) as [ts|]; cbn; rewrite ?Z.ltb_antisym;
    repeat match goal with
    | |- context [?a <=? ?b] => destruct (a <=? b)
    | |- context [mg_ack_required m =? 1] => destruct (mg_ack_required m =? 1)
    end;
    destruct (urgent_only o), (unread_only o), (ack_required_only o), (bool_decide (is_Some (in_read r))), (bool_decide (is_Some (in_ack r))); done.
Qed.

(** ** The rows of a window *)

Definition found_entry (x : found) : entry := (mg_created x.1, mg_id x.1, x.2).

#[export] Instance newer_first_trans : Transitive newer_first.
Proof. intros a b c. unfold newer_first. rewrite !key_lt_false. cbn. lia. Qed.
#[export] Instance newer_first_total : Total newer_first.
Proof. intros a b. unfold newer_first. rewrite !key_lt_false. cbn. lia. Qed.

Definition row_id (x : InboxRow) : Z := mg_id (ib_message x).

Lemma rows_apart (l : list InboxRow) : NoDup (row_id <$> l) -> told_apart newer_first l.
Proof.
  intros Hn x y [i Hi]%list_elem_of_lookup [j Hj]%list_elem_of_lookup Hxy Hyx. unfold newer_first in *.
  rewrite key_lt_false in *. cbn in *. assert (row_id x = row_id y) as E by (unfold row_id; lia).
  assert ((row_id <$> l) !! i = Some (row_id y)) as Hi' by (rewrite list_lookup_fmap, Hi; cbn; by rewrite E).
  assert ((row_id <$> l) !! j = Some (row_id y)) as Hj' by (by rewrite list_lookup_fmap, Hj).
  rewrite (NoDup_lookup _ _ _ _ Hn Hi' Hj') in Hi. congruence.
Qed.

(** The order of the entries is that of the rows. *)
Lemma found_row_key adb o x : (mg_created (ib_message (found_row adb o x)), row_id (found_row adb o x)) = (found_entry x).1.
Proof. unfold found_row, row_id. by destruct (body_policy o). Qed.

Lemma found_row_ids adb o l : row_id <$> map (found_row adb o) l = (fun x => mg_id x.1) <$> l.
Proof.
  change (map ?f l) with (f <$> l). rewrite <- list_fmap_compose. apply list_fmap_ext. intros i x _. cbn. unfold row_id, found_row.
  by destruct (body_policy o).
Qed.

Lemma newer_first_entry adb o x y : newer_first (found_row adb o x) (found_row adb o y) <-> entry_newer (found_entry x) (found_entry y).
Proof. unfold newer_first, entry_newer. cbn zeta. by rewrite <- (found_row_key adb o x), <- (found_row_key adb o y). Qed.

(** The first rows by key are the rows of the first entries. *)
Lemma top_map {A B} (R : relation A) (R' : relation B) `{!RelDecision R, !Transitive R, !Total R, !RelDecision R', !Transitive R', !Total R'}
    (g : A -> B) n l : (forall x y, R x y <-> R' (g x) (g y)) -> told_apart R' (map g l) -> top R' n (map g l) = map g (top R n l).
Proof.
  intros Hg Ht. unfold top. change (map g (take n ?l)) with (g <$> take n l). rewrite fmap_take. f_equal.
  apply sort_unique; [apply _..|done| |].
  - apply (fmap_Permutation g). apply merge_sort_Permutation.
  - assert (StronglySorted R (merge_sort R l)) as Hs by (apply StronglySorted_merge_sort; apply _).
    induction Hs as [|x s Hs IH Hx]; [constructor|]. cbn. constructor; [done|]. apply Forall_fmap. eapply Forall_impl; [exact Hx|].
    intros y. apply Hg.
Qed.

Section hydrate.
  Context `{eng : !InboxEngine} (adb : AgentDb) (db : MessageDb) (project : Z) (o : InboxFetchOptions).
  Hypothesis Hids : forall id m, messages db !! id = Some m -> mg_id m = id.
  Hypothesis Hagents : NoDup (ar_id <$> agent_rows adb).

(** A row before the name of its sender is known. *)
Definition unnamed_row (x : found) : InboxRow :=
  mkInboxRow (with_body (body_policy o) x.1) (in_kind x.2) UNKNOWN_SENDER_DISPLAY (in_read x.2) (in_ack x.2).

Lemma hydrate_rows ms : forall selected (rc : MessageRow -> InboxReceipt) out, NoDup (mg_id <$> ms) ->
  (forall m, m ∈ ms -> mg_project m = project /\ selected !! mg_id m = Some (mg_created m, rc m)) ->
  exists selected', try_fold (hydrate_row project (body_policy o)) (selected, out) ms =
    inr (selected', out ++ map (fun m => unnamed_row (m, rc m)) ms).
Proof.
  induction ms as [|m ms IH]; intros selected rc out Hn Hm; cbn [try_fold map]; [exists selected; by rewrite app_nil_r|].
  cbn in Hn. apply NoDup_cons in Hn as [Hx Hn]. destruct (Hm m) as [Hp Hs]; [by left|].
  assert (hydrate_row project (body_policy o) (selected, out) m = inr (delete (mg_id m) selected, out ++ [unnamed_row (m, rc m)])) as ->.
  { unfold hydrate_row. by rewrite Hs, Hp, !Z.eqb_refl. }
  cbn [mbind result_bind]. destruct (IH (delete (mg_id m) selected) rc
    (out ++ [unnamed_row (m, rc m)]) Hn) as [s' E].
  - intros m' Hm'. destruct (Hm m') as [? E]; [by right|]. split; [done|]. rewrite lookup_delete_ne; [done|].
    intros Eid. apply Hx. rewrite Eid. by apply list_elem_of_fmap_2.
  - exists s'. rewrite E, <- app_assoc. done.
Qed.

Lemma selected_lookup (t : list found) : NoDup ((fun x => mg_id x.1) <$> t) -> forall x, x ∈ t ->
  foldl (fun s e => <[e.1.2 := (e.1.1, e.2)]> s) (∅ : gmap Z (Z * InboxReceipt)) (map found_entry t) !! mg_id x.1 = Some (mg_created x.1, x.2).
Proof.
  induction t as [|y t IH] using rev_ind; [by intros _ x ?%elem_of_nil|]. rewrite fmap_app, map_app, foldl_app. intros (Hn & Hd & _)%NoDup_app x Hx.
  cbn [map foldl]. destruct (decide (mg_id y.1 = mg_id x.1)) as [E|E].
  - apply elem_of_app in Hx as [Hx| ->%list_elem_of_singleton]; [|apply lookup_insert_eq].
    exfalso. apply (Hd (mg_id x.1)); [by apply (list_elem_of_fmap_2 (fun x : found => mg_id x.1))|]. rewrite <- E. by left.
  - rewrite lookup_insert_ne by done. apply IH; [done|]. apply elem_of_app in Hx as [?| ->%list_elem_of_singleton]; done.
Qed.

Lemma hydrate_ok (t : list found) : NoDup ((fun x => mg_id x.1) <$> t) ->
  (forall x, x ∈ t -> messages db !! mg_id x.1 = Some x.1 /\ mg_project x.1 = project) ->
  hydrate adb db project (map found_entry t) (body_policy o) = inr (merge_sort newer_first (map (found_row adb o) t)).
Proof.
  intros Hn Ht. unfold hydrate. set (ids := rev _). set (selected := foldl _ _ _). rewrite try_fold_concat.
  set (ms := List.concat _).
  assert (ids ≡ₚ (fun x => mg_id x.1) <$> t) as Hpids.
  { unfold ids. rewrite <- Permutation_rev, map_map. done. }
  assert (NoDup ids) as Hnids by (by rewrite Hpids).
  assert (lists (map keyed ms) (fun id m => messages db !! id = Some m /\ id ∈ ids)) as Hms.
  { pose proof (lists_concat (fun c => map keyed (messages_by_id db c)) (fun x => x) (fun id m => messages db !! id = Some m)
      (chunks PAGE_SIZE ids)) as H. rewrite !chunks_concat in H by (unfold PAGE_SIZE; lia). rewrite list_fmap_id in H.
    unfold ms. rewrite concat_map, map_map. apply H; [|done]. intros c _. rewrite list_fmap_id. by apply messages_by_id_ok. }
  assert (map keyed ms ≡ₚ map (fun x => (mg_id x.1, x.1)) t) as Hp.
  { eapply lists_unique; [exact Hms|]. split; [change (map ?g t) with (g <$> t); by rewrite <- list_fmap_compose|].
    intros id m. change (map ?g t) with (g <$> t). rewrite Hpids, !list_elem_of_fmap. split.
    - intros (x & [= -> ->] & Hx). split; [by apply Ht|]. by exists x.
    - intros [Hm (x & -> & Hx)]. exists x. split; [|done]. destruct (Ht x Hx) as [Hm' _]. congruence. }
  assert (ms ≡ₚ map fst t) as Hpm.
  { apply (Permutation_map snd) in Hp. rewrite !map_map in Hp. unfold keyed in Hp. cbn in Hp. by rewrite map_id in Hp. }
  set (rc := fun m : MessageRow => from_option snd (mkInboxReceipt [] None None) (selected !! mg_id m)).
  assert (forall x, x ∈ t -> selected !! mg_id x.1 = Some (mg_created x.1, x.2)) as Hsel by (by apply selected_lookup).
  destruct (hydrate_rows ms selected rc []) as [s' E].
  { rewrite Hpm. change (map fst t) with (fst <$> t). by rewrite <- list_fmap_compose. }
  { intros m Hm. rewrite Hpm in Hm. apply list_elem_of_fmap in Hm as (x & -> & Hx). split; [by apply Ht|]. unfold rc. by rewrite (Hsel x Hx). }
  rewrite E. cbn [mbind result_bind]. cbv beta iota zeta. cbn [snd]. rewrite app_nil_l. set (out := map _ ms).
  assert (out ≡ₚ map unnamed_row t) as Hout.
  { unfold out. rewrite Hpm, map_map. assert (map (fun x : found => unnamed_row (x.1, rc x.1)) t = map unnamed_row t) as ->; [|done].
    apply map_ext_in. intros [m r] Hx%list_elem_of_In. f_equal. unfold rc. by rewrite (Hsel _ Hx). }
  rewrite length_map, bool_decide_eq_true_2 by (rewrite Hout; apply length_map). cbn [negb]. f_equal.
  set (senders := remove_dups _).
  assert (forall x, x ∈ t -> mg_sender x.1 ∈ senders) as Hsend.
  { intros x Hx. unfold senders. rewrite elem_of_remove_dups, merge_sort_Permutation, Hout, map_map. apply list_elem_of_fmap. exists x.
    split; [|done]. cbn. by destruct (body_policy o). }
  set (named := fun row => _).
  assert (map named out ≡ₚ map (found_row adb o) t) as Hnamed.
  { rewrite Hout, map_map. assert (map (fun x => named (unnamed_row x)) t = map (found_row adb o) t) as ->; [|done].
    apply map_ext_in. intros x Hx%list_elem_of_In. unfold named.
    assert (mg_sender (ib_message (unnamed_row x)) = mg_sender x.1) as -> by (unfold unnamed_row; by destruct (body_policy o)).
    rewrite sender_names_ok; [|done|apply NoDup_remove_dups|by apply Hsend]. unfold found_row. by destruct (get_agent_by_id adb (mg_sender x.1)). }
  apply sort_perm; [apply _..| |done]. apply rows_apart. rewrite Hnamed, found_row_ids. done.
Qed.
End hydrate.

(** ** Mail by name *)

Section direct.
  Context `{eng : !InboxEngine} (adb : AgentDb) (db : MessageDb) (project agent : Z) (since_ts : option Z) (limit : nat) (o : InboxFetchOptions).
  Hypothesis Hids : forall id m, messages db !! id = Some m -> mg_id m = id.
  Hypothesis Hagents : NoDup (ar_id <$> agent_rows adb).
  Hypothesis Hsize : Z.of_nat (size (messages db)) <= i64_max.
  Hypothesis Hlimit : (0 < limit)%nat.

Definition run : list MessageRow := index_run (project_messages db project).

Lemma elem_of_run m : m ∈ run <-> messages db !! mg_id m = Some m /\ mg_project m = project.
Proof.
  unfold run. rewrite index_run_rows. unfold project_messages. rewrite list_elem_of_fmap. split.
  - intros ([id m'] & -> & [Hm Hp]%elem_of_select_where). cbn. apply Z.eqb_eq in Hp. by rewrite (Hids _ _ Hm).
  - intros [Hm Hp]. exists (mg_id m, m). split; [done|]. apply elem_of_select_where. split; [done|]. by apply Z.eqb_eq.
Qed.

Lemma run_ids : NoDup (mg_id <$> run).
Proof.
  unfold run. rewrite index_run_rows. unfold project_messages. rewrite <- list_fmap_compose.
  pose proof (select_where_NoDup (fun _ m => mg_project m =? project) (messages db)) as Hn.
  assert (forall im, im ∈ select_where (fun _ m => mg_project m =? project) (messages db) -> mg_id im.2 = im.1) as Hi.
  { intros [id m] [Hm _]%elem_of_select_where. by apply Hids. }
  apply (NoDup_by fst); [done|]. intros x y Hx Hy E. cbn in E. by rewrite (Hi x Hx), (Hi y Hy) in E.
Qed.

Lemma run_size : Z.of_nat (length run) <= i64_max.
Proof.
  clear Hlimit. unfold run. rewrite index_run_rows. unfold project_messages. rewrite length_fmap. unfold select_where.
  pose proof (List.filter_length_le (fun kv : Z * MessageRow => mg_project kv.2 =? project) (map_to_list (messages db))) as H.
  rewrite length_map_to_list in H. lia.
Qed.

Lemma run_project : Forall (fun m => mg_project m = project) run.
Proof. apply Forall_forall. by intros m [_ ?]%elem_of_run. Qed.

(** The entries of the reference, in no order. *)
Definition direct_in (e : entry) : Prop := exists m r, messages db !! mg_id m = Some m /\ mg_project m = project /\
  recipients db !! (mg_id m, agent) = Some r /\ sql_matches since_ts o m (receipt_of r) = true /\
  e = (mg_created m, mg_id m, receipt_of r).

Lemma direct_found_in e : e ∈ map found_entry (direct_found db project agent since_ts o) <-> direct_in e.
Proof.
  change (map found_entry ?l) with (found_entry <$> l). rewrite list_elem_of_fmap. unfold direct_found, direct_in. split.
  - intros (x & -> & ([id [m r]] & Hr & Hx)%list_elem_of_omap). cbn in Hx. destruct (mg_project m =? project) eqn:Hp; [|done].
    destruct (sql_matches _ _ _ _) eqn:Hs; [|done]. injection Hx as <-. apply elem_of_map_to_list in Hr. rewrite lookup_received in Hr.
    destruct (messages db !! id) as [m'|] eqn:Em; [|done]. cbn in Hr. destruct (recipients db !! (id, agent)) as [r'|] eqn:Er; [|done].
    injection Hr as -> ->. pose proof (Hids _ _ Em) as <-. exists m, r. apply Z.eqb_eq in Hp. done.
  - intros (m & r & Hm & Hp & Hr & Hs & ->). exists (m, receipt_of r). split; [done|]. apply list_elem_of_omap. exists (mg_id m, (m, r)). split.
    + apply elem_of_map_to_list. rewrite lookup_received, Hm. cbn. by rewrite Hr.
    + cbn. by rewrite Hp, Z.eqb_refl, Hs.
Qed.

Lemma direct_found_ids : NoDup ((fun x : found => mg_id x.1) <$> direct_found db project agent since_ts o).
Proof.
  unfold direct_found. apply (NoDup_omap_key _ (fun imr : Z * (MessageRow * RecipientRow) => mg_id imr.2.1)).
  - intros imr x. destruct (_ && _); by intros [= <-].
  - apply (NoDup_by fst); [apply NoDup_fst_map_to_list|].
    assert (forall x, x ∈ map_to_list (received db agent) -> mg_id x.2.1 = x.1) as H.
    { intros [id [m r]] Hr%elem_of_map_to_list. rewrite lookup_received in Hr. destruct (messages db !! id) as [m'|] eqn:Em; [|done].
      cbn in Hr. destruct (recipients db !! (id, agent)); [|done]. injection Hr as -> _. by apply Hids. }
    intros x y Hx Hy. by rewrite (H x Hx), (H y Hy).
Qed.

Lemma direct_found_keys : NoDup (map found_entry (direct_found db project agent since_ts o)).*1.
Proof.
  apply (NoDup_fmap_1 snd). change (map ?f ?l) with (f <$> l). rewrite <- !list_fmap_compose. exact direct_found_ids.
Qed.

(** Two lists of entries with the same members. *)
Lemma entries_perm (l l' : list entry) : NoDup l.*1 -> NoDup l'.*1 -> (forall e, e ∈ l <-> e ∈ l') -> l ≡ₚ l'.
Proof. intros Hn Hn' H. apply NoDup_Permutation; [by apply (NoDup_fmap_1 fst)..|done]. Qed.

(** *** Newest first *)

Definition direct_entry (m : MessageRow) : option entry :=
  r ← recipients db !! (mg_id m, agent);
  if (mg_project m =? project) && sql_matches since_ts o m (receipt_of r) then Some (mg_created m, mg_id m, receipt_of r) else None.

Lemma direct_entry_key m e : direct_entry m = Some e -> e.1 = (mg_created m, mg_id m).
Proof. unfold direct_entry. destruct (recipients db !! _) as [r|]; [|done]. cbn. destruct (_ && _); [by intros [= <-]|done]. Qed.

Lemma direct_entry_below m : not_since since_ts (mg_created m) = true -> direct_entry m = None.
Proof.
  unfold direct_entry. intros Hb. destruct (recipients db !! _) as [r|]; [|done]. cbn. by rewrite matches_filters, Hb, andb_false_r.
Qed.

Lemma direct_run : omap direct_entry run ≡ₚ map found_entry (direct_found db project agent since_ts o).
Proof.
  apply entries_perm; [|exact direct_found_keys|].
  - apply (entries_keys run run_ids direct_entry direct_entry_key).
  - intros e. rewrite direct_found_in, list_elem_of_omap. unfold direct_entry, direct_in. split.
    + intros (m & [Hm Hp]%elem_of_run & He). destruct (recipients db !! (mg_id m, agent)) as [r|] eqn:Er; [|done]. cbn in He.
      rewrite Hp, Z.eqb_refl in He. cbn in He. destruct (sql_matches _ _ _ _) eqn:Es; [|done]. injection He as <-. by exists m, r.
    + intros (m & r & Hm & Hp & Hr & Hs & ->). exists m. split; [by apply elem_of_run|]. rewrite Hr. cbn. by rewrite Hp, Z.eqb_refl, Hs.
Qed.

  Hypothesis Hplain : unread_only o || ack_required_only o || bool_decide (is_Some (ack_overdue_before o)) = false.

Lemma matches_plain m r : sql_matches since_ts o m r = wanted (fun m => not_since since_ts (mg_created m)) (header_filtered o) m.
Proof.
  rewrite matches_filters. unfold wanted, ack_filtered, state_filtered. breflect. rewrite H, H1. cbn.
  destruct (ack_overdue_before o); [by destruct H0; eexists|]. cbn. by rewrite !andb_true_r.
Qed.

Lemma page_entries seen rows rs : NoDup (mg_id <$> rows) -> (forall m, m ∈ rows -> m ∈ run) ->
  let c := foldl (add_candidate (fun m => not_since since_ts (mg_created m)) (header_filtered o)) ∅ rows in
  lists rs (fun id r => is_Some (c !! id) /\ receipt_of <$> recipients db !! (id, agent) = Some r) ->
  NoDup (seen ++ omap direct_entry rows).*1 ->
  keep_receipts limit c rs (window limit seen) = window limit (seen ++ omap direct_entry rows).
Proof.
  intros Hn Hin c [Hrs Hr] Hseen. set (h := fun ir : Z * InboxReceipt => (default 0 (c !! ir.1), ir.1, ir.2)).
  assert (map h rs ≡ₚ omap direct_entry rows) as Hp.
  { apply entries_perm.
    - apply (NoDup_fmap_1 snd). change (map h rs) with (h <$> rs). rewrite <- !list_fmap_compose. exact Hrs.
    - rewrite fmap_app in Hseen. by apply NoDup_app in Hseen as (_ & _ & ?).
    - intros e. change (map h rs) with (h <$> rs). rewrite list_elem_of_fmap, list_elem_of_omap. unfold direct_entry. split.
      + intros ([id r] & -> & [[ts Hc] Hrc]%Hr). pose proof Hc as Hc'. apply candidates_spec in Hc' as (m & Hm & Hw & <- & <-); [|done].
        exists m. split; [done|]. apply fmap_Some in Hrc as (rr & Hrr & ->). rewrite Hrr. cbn. rewrite matches_plain, Hw.
        apply Hin, elem_of_run in Hm as [_ ->]. rewrite Z.eqb_refl. unfold h. cbn [fst snd]. by rewrite Hc.
      + intros (m & Hm & He). destruct (recipients db !! (mg_id m, agent)) as [rr|] eqn:Err; [|done]. cbn in He.
        rewrite matches_plain in He. destruct (mg_project m =? project); [|done]. cbn [andb] in He. destruct (wanted _ _ m) eqn:Hw; [|done].
        injection He as <-. assert (c !! mg_id m = Some (mg_created m)) as Hc by (apply candidates_spec; [done|by exists m]).
        exists (mg_id m, receipt_of rr). unfold h. cbn [fst snd]. rewrite Hc. split; [done|]. apply Hr. rewrite Hc, Err. split; [by eexists|done]. }
  assert (NoDup (seen ++ map h rs).*1) as Hseen' by (by rewrite Hp).
  rewrite <- (window_perm limit (seen ++ map h rs) (seen ++ omap direct_entry rows)); [|done|by rewrite Hp]. rewrite <- keep_all by done. unfold keep_receipts.
  generalize (window limit seen). clear. induction rs as [|ir rs IH]; intros w; cbn; [done|]. apply IH.
Qed.

Lemma page_prefix n : take SHARED_PAGE_SIZE (drop n run) `prefix_of` drop n run.
Proof. exists (drop SHARED_PAGE_SIZE (drop n run)). by rewrite take_drop. Qed.

Lemma prefix_ids n rows : rows `prefix_of` drop n run -> NoDup (mg_id <$> rows) /\ (forall m, m ∈ rows -> m ∈ run).
Proof.
  intros [post Hp]. split.
  - pose proof run_ids as H. rewrite <- (take_drop n run), Hp, !fmap_app in H. apply NoDup_app in H as (_ & _ & H). by apply NoDup_app in H as [? _].
  - intros m Hm. rewrite <- (take_drop n run), Hp, !elem_of_app. tauto.
Qed.

(** What an entry of the run is read from is read once. *)
Lemma taken_keys (f : MessageRow -> option entry) n : (forall m e, f m = Some e -> e.1 = (mg_created m, mg_id m)) -> NoDup (omap f (take n run)).*1.
Proof.
  intros Hf. pose proof (entries_keys run run_ids f Hf) as H. rewrite <- (take_drop n run), omap_app, fmap_app in H. by apply NoDup_app in H as [? _].
Qed.

Lemma page_query n ceiling skip : cursor_at run n ceiling skip ->
  shared_page_query db project ceiling skip = take SHARED_PAGE_SIZE (drop n run).
Proof. intros Hc. unfold shared_page_query. fold run. by rewrite (cursor_page run (index_run_sorted _) n). Qed.

Lemma created_below a b : created_desc a b -> not_since since_ts (mg_created a) = true -> not_since since_ts (mg_created b) = true.
Proof. unfold created_desc, not_since. destruct since_ts; cbn; [|done]. rewrite !Z.leb_le. lia. Qed.

Lemma walk_ok budget fuel : forall n ceiling skip work pages newest, cursor_at run n ceiling skip ->
  (length run - n < fuel)%nat -> newest = window limit (omap direct_entry (take n run)) ->
  exists r, walk_headers db fuel project agent since_ts limit o budget ceiling skip work pages newest = inr r /\
    (r = None \/ r = Some (window limit (omap direct_entry run))).
Proof.
  induction fuel as [|fuel IH]; intros n ceiling skip work pages newest Hc Hf Hw; [lia|]. cbn [walk_headers].
  rewrite (page_query n _ _ Hc). set (rows := take SHARED_PAGE_SIZE (drop n run)).
  assert (length rows <= SHARED_PAGE_SIZE)%nat as Hrows by (unfold rows; rewrite length_take; lia).
  rewrite (proj2 (Nat.ltb_ge _ _)) by done. destruct (prefix_ids n rows (page_prefix n)) as [Hnd Hin].
  destruct (visit_page run project (fun m => not_since since_ts (mg_created m)) (header_filtered o) (index_run_sorted _) run_ids run_project
    run_size rows n ceiling skip ∅ false Hc (page_prefix n)) as (last & trailing & Hc' & ->); [done|].
  cbn [mbind result_bind ps_candidates ps_below ps_last ps_trailing]. set (c := foldl _ ∅ rows).
  destruct (page_receipts_ok db agent c) as (rs & read & -> & Hrs). cbn [mbind result_bind]. cbv beta iota zeta.
  assert (omap direct_entry (take (n + length rows) run) = omap direct_entry (take n run) ++ omap direct_entry rows) as Ht.
  { rewrite <- take_take_drop, omap_app. unfold rows. by rewrite take_length_take. }
  rewrite Hw, (page_entries _ rows rs Hnd Hin Hrs); [|rewrite <- Ht; apply taken_keys, direct_entry_key]. rewrite <- Ht. cbn [orb].
  destruct (_ || existsb _ rows || _) eqn:Hstop.
  - rewrite (stop_exact run (fun m => not_since since_ts (mg_created m)) (index_run_sorted _) run_ids created_below direct_entry
      direct_entry_key direct_entry_below n limit last trailing rows Hc' eq_refl Hstop). eauto.
  - destruct (budget <=? _); [eexists; split; [done|by left]|]. eapply IH; [exact Hc'| |done].
    apply orb_false_iff in Hstop as [Hstop _]. apply orb_false_iff in Hstop as [Hfull _]. apply Nat.ltb_ge in Hfull.
    unfold rows in *. rewrite length_take, length_drop in *. unfold SHARED_PAGE_SIZE in *. lia.
Qed.

Lemma newest_first_ok budget : exists r, newest_first_window db project agent since_ts limit o budget = inr r /\
  (r = None \/ r = Some (window limit (map found_entry (direct_found db project agent since_ts o)))).
Proof.
  unfold newest_first_window. rewrite Hplain. destruct (walk_ok budget (S (length (project_messages db project))) 0 None 0 0 0 []) as (r & E & Hr).
  - done.
  - unfold run. rewrite index_run_rows. lia.
  - by rewrite take_0, window_nil.
  - exists r. split; [done|]. destruct Hr as [->|Hr]; [by left|right]. rewrite Hr. f_equal. apply window_perm; [|apply direct_run].
    apply (entries_keys run run_ids direct_entry direct_entry_key).
Qed.
End direct.

(** *** By receipts *)

Section scanned.
  Context `{eng : !InboxEngine} (db : MessageDb) (project agent : Z) (since_ts : option Z) (limit : nat) (o : InboxFetchOptions).
  Hypothesis Hids : forall id m, messages db !! id = Some m -> mg_id m = id.
  Hypothesis Hlimit : (0 < limit)%nat.

(** The headers a receipt that was kept is joined with. *)
Definition header_ok (m : MessageRow) : bool :=
  negb (negb (mg_project m =? project) || header_filtered o m || ack_filtered o m || not_since since_ts (mg_created m)).

Lemma header_match m r : header_ok m && negb (state_filtered o r) = (mg_project m =? project) && sql_matches since_ts o m r.
Proof.
  rewrite matches_filters. unfold header_ok.
  destruct (mg_project m =? project), (header_filtered o m), (ack_filtered o m), (not_since since_ts (mg_created m)), (state_filtered o r); done.
Qed.

Definition receipt_entry (ir : Z * InboxReceipt) : option entry :=
  m ← messages db !! ir.1; if header_ok m then Some (mg_created m, mg_id m, ir.2) else None.

Lemma receipt_entry_key ir e : receipt_entry ir = Some e -> e.1.2 = ir.1.
Proof.
  unfold receipt_entry. destruct (messages db !! ir.1) as [m|] eqn:Em; [|done]. cbn. destruct (header_ok m); [|done]. intros [= <-].
  cbn. by apply Hids.
Qed.

Lemma receipt_entries_keys l : NoDup l.*1 -> NoDup (omap receipt_entry l).*1.
Proof.
  intros Hn. apply (NoDup_fmap_1 snd). rewrite <- list_fmap_compose. apply (NoDup_omap_key receipt_entry fst); [|done].
  intros ir e He. cbn. by apply receipt_entry_key.
Qed.

Definition header_entry (rc : MessageRow -> InboxReceipt) (m : MessageRow) : option entry :=
  if header_ok m then Some (mg_created m, mg_id m, rc m) else None.

Lemma admit_rows ms : forall pending seen (rc : MessageRow -> InboxReceipt), NoDup (mg_id <$> ms) ->
  (forall m, m ∈ ms -> pending !! mg_id m = Some (rc m)) -> NoDup (seen ++ omap (header_entry rc) ms).*1 ->
  exists pending', try_fold (admit_header project since_ts limit o) (pending, window limit seen) ms =
    inr (pending', window limit (seen ++ omap (header_entry rc) ms)).
Proof.
  induction ms as [|m ms IH]; intros pending seen rc Hn Hm Hs; cbn [try_fold]; [exists pending; by rewrite app_nil_r|].
  apply NoDup_cons in Hn as [Hx Hn].
  assert (admit_header project since_ts limit o (pending, window limit seen) m =
          inr (delete (mg_id m) pending, window limit (seen ++ option_list (header_entry rc m)))) as ->.
  { unfold admit_header. rewrite (Hm m) by (by left). unfold header_entry, header_ok in *.
    destruct (_ || not_since since_ts (mg_created m)) eqn:Ef; cbn [negb option_list]; [by rewrite app_nil_r|].
    rewrite keep_window; [done|done|]. cbn [omap list_omap] in Hs. rewrite Ef in Hs. cbn [negb] in Hs. rewrite cons_middle, app_assoc, fmap_app in Hs.
    by apply NoDup_app in Hs as [? _]. }
  cbn [mbind result_bind]. assert (omap (header_entry rc) (m :: ms) = option_list (header_entry rc m) ++ omap (header_entry rc) ms) as E.
  { cbn. by destruct (header_entry rc m). }
  rewrite E, app_assoc in *. apply IH; [done| |done]. intros m' Hm'. rewrite lookup_delete_ne; [apply Hm; by right|].
  intros Eid. apply Hx. rewrite Eid. by apply list_elem_of_fmap_2.
Qed.

Lemma admit_headers_ok pending (un : list (Z * InboxReceipt)) seen : lists un (fun id r => pending !! id = Some r) ->
  NoDup (seen ++ omap receipt_entry un).*1 ->
  admit_headers db project since_ts limit o pending (window limit seen) = inr (window limit (seen ++ omap receipt_entry un)).
Proof.
  intros Hun Hs. unfold admit_headers. case_bool_decide as Ep.
  { destruct un as [|[id r] un]; [by rewrite app_nil_r|]. destruct Hun as [_ H]. assert (pending !! id = Some r) as Hl by (apply H; by left).
    by rewrite Ep in Hl. }
  set (ids := (iterate pending).*1). destruct (iterate_keys pending) as [_ Hk]. fold ids in Hk.
  pose proof (messages_by_id_ok db Hids ids) as [Hnm Hm]. set (ms := messages_by_id db ids) in *. rewrite keyed_ids in Hnm.
  set (rc := fun m : MessageRow => default (mkInboxReceipt [] None None) (pending !! mg_id m)).
  assert (forall m, m ∈ ms <-> messages db !! mg_id m = Some m /\ is_Some (pending !! mg_id m)) as Hms.
  { intros m. rewrite <- (Hk (mg_id m)), <- (Hm (mg_id m) m). symmetry. apply (keyed_inv ms m). }
  assert (omap (header_entry rc) ms ≡ₚ omap receipt_entry un) as Hp.
  { apply entries_perm.
    - apply (NoDup_omap_key _ (fun m => (mg_created m, mg_id m))); [unfold header_entry; intros m e; destruct (header_ok m); by intros [= <-]|].
      apply (NoDup_fmap_1 snd). rewrite <- list_fmap_compose. done.
    - rewrite fmap_app in Hs. by apply NoDup_app in Hs as (_ & _ & ?).
    - intros e. rewrite !list_elem_of_omap. unfold header_entry, receipt_entry. destruct Hun as [_ Hun]. split.
      + intros (m & [Hdb [r Hr]]%Hms & He). exists (mg_id m, r). split; [by apply Hun|]. cbn. rewrite Hdb. cbn.
        unfold rc in He. by rewrite Hr in He.
      + intros ([id r] & Hr%Hun & He). cbn in He. destruct (messages db !! id) as [m|] eqn:Em; [|done]. cbn in He. pose proof (Hids _ _ Em) as <-.
        exists m. split; [apply Hms; split; [done|by eexists]|]. unfold rc. by rewrite Hr. }
  destruct (admit_rows ms pending seen rc Hnm) as [p' ->].
  - intros m [_ [r Hr]]%Hms. unfold rc. by rewrite Hr.
  - by rewrite Hp.
  - cbn. f_equal. apply window_perm; [by rewrite Hp|]. by rewrite Hp.
Qed.

(** The receipts of the agent, lowest id first. *)
Definition all_receipts : list (Z * RecipientRow) := merge_sort by_id (agent_rows_where (recipients db) agent (fun _ => true)).

Lemma all_receipts_lists : lists all_receipts (fun id r => recipients db !! (id, agent) = Some r).
Proof.
  unfold all_receipts. eapply lists_perm; [symmetry; apply merge_sort_Permutation|].
  eapply lists_iff; [|apply agent_lists]. intros id r. cbn. tauto.
Qed.

(** The receipts after a number of them. *)
Definition after_at (n : nat) (after : option Z) : Prop :=
  match n with O => after = None | S i => exists r, all_receipts !! i = Some r /\ after = Some r.1 end.

Lemma receipts_around i ir : all_receipts !! i = Some ir ->
  (forall x, x ∈ take (S i) all_receipts -> x.1 <= ir.1) /\ (forall x, x ∈ drop (S i) all_receipts -> ir.1 < x.1).
Proof.
  intros Hi. pose proof (take_drop_middle all_receipts i ir Hi) as E. pose proof (sorted_by_id (agent_rows_where (recipients db) agent (fun _ => true))) as Hs.
  fold all_receipts in Hs. pose proof all_receipts_lists as [Hn _]. rewrite <- E in Hs, Hn. apply sorted_split in Hs as [Ha Hb].
  rewrite Forall_forall in Ha, Hb. rewrite fmap_app in Hn. apply NoDup_app in Hn as (_ & _ & Hn). cbn in Hn. apply NoDup_cons in Hn as [Hn _]. split.
  - intros x. rewrite (take_S_r _ _ _ Hi). intros [Hx| ->%list_elem_of_singleton]%elem_of_app; [by apply (Hb x)|lia].
  - intros x Hx. pose proof (Ha x Hx) as Hle. unfold by_id in Hle. assert (x.1 <> ir.1); [|lia]. intros Ex. apply Hn. rewrite <- Ex.
    by apply list_elem_of_fmap_2.
Qed.

Lemma receipt_page_at n after : after_at n after -> receipt_page db agent after = inr (take PAGE_SIZE (drop n all_receipts)).
Proof.
  intros Ha. rewrite receipt_page_ok. f_equal. f_equal. pose proof all_receipts_lists as Hl.
  destruct (sorted_take_drop by_id n all_receipts (sorted_by_id _)) as (_ & Hs & _).
  assert (NoDup (drop n all_receipts).*1) as Hnd.
  { destruct Hl as [Hn _]. rewrite <- (take_drop n all_receipts), fmap_app in Hn. by apply NoDup_app in Hn as (_ & _ & ?). }
  assert (agent_rows_where (recipients db) agent (fun id => from_option (fun a => a <? id) true after) ≡ₚ drop n all_receipts) as Hp.
  { eapply lists_unique; [apply agent_lists|]. split; [done|]. intros id r. destruct Hl as [Hn H]. rewrite <- (H id r). destruct n as [|i]; cbn in Ha.
    - subst after. cbn. rewrite drop_0. tauto.
    - destruct Ha as (ir & Hi & ->). destruct (receipts_around i ir Hi) as [Hb Hd]. cbn. rewrite <- (take_drop (S i) all_receipts) at 2.
      rewrite elem_of_app, Z.ltb_lt. split; [intros Hx; split; [by right|by apply (Hd (id, r))]|]. intros [[Hx|?] Hlt]; [|done].
      specialize (Hb _ Hx). cbn in Hb. lia. }
  apply sort_unique; [apply _..| | |done]; [apply by_id_apart; by rewrite Hp|done].
Qed.

(** The receipts that pass the filters on their state. *)
Definition kept (l : list (Z * RecipientRow)) : list (Z * InboxReceipt) :=
  omap (fun ir => if state_filtered o (receipt_of ir.2) then None else Some (ir.1, receipt_of ir.2)) l.

Lemma kept_keys l : NoDup l.*1 -> NoDup (kept l).*1.
Proof. apply NoDup_omap_key. intros ir x. destruct (state_filtered _ _); by intros [= <-]. Qed.

(** The state after a number of receipts: some have been looked up, the rest is pending. *)
Definition scanned_at (n : nat) (st : ScanState) : Prop :=
  after_at n (sc_after st) /\
  exists looked un, kept (take n all_receipts) = looked ++ un /\ lists un (fun id r => sc_pending st !! id = Some r) /\
    (length un < PAGE_SIZE)%nat /\ sc_newest st = window limit (omap receipt_entry looked).

Lemma taken_receipts n : NoDup (take n all_receipts).*1.
Proof. pose proof all_receipts_lists as [Hn _]. rewrite <- (take_drop n all_receipts), fmap_app in Hn. by apply NoDup_app in Hn as [? _]. Qed.

Lemma scan_next n st ir : scanned_at n st -> all_receipts !! n = Some ir ->
  exists st', scan_receipt db project since_ts limit o st ir = inr st' /\ scanned_at (S n) st'.
Proof.
  destruct ir as [id row]. intros (Ha & looked & un & Hk & Hun & Hlen & Hw) Hi.
  assert (from_option (fun previous => id <=? previous) false (sc_after st) = false) as Hafter.
  { destruct n as [|i]; cbn in Ha; [by rewrite Ha|]. destruct Ha as (r & Hr & ->). cbn. apply Z.leb_gt.
    destruct (receipts_around i r Hr) as [_ Hd]. apply (Hd (id, row)). apply list_elem_of_lookup. exists 0%nat. by rewrite lookup_drop, Nat.add_0_r. }
  unfold scan_receipt. rewrite Hafter. pose proof (taken_receipts (S n)) as Hnt. apply kept_keys in Hnt as Hnk.
  assert (after_at (S n) (Some id)) as Ha' by (by exists (id, row)).
  rewrite (take_S_r _ _ _ Hi) in Hnk. unfold kept in Hnk. rewrite omap_app in Hnk. fold (kept (take n all_receipts)) in Hnk. cbn in Hnk.
  assert (kept (take (S n) all_receipts) = kept (take n all_receipts) ++
    (if state_filtered o (receipt_of row) then [] else [(id, receipt_of row)])) as Hk'.
  { rewrite (take_S_r _ _ _ Hi). unfold kept. rewrite omap_app. f_equal. cbn. by destruct (state_filtered o (receipt_of row)). }
  destruct (state_filtered o (receipt_of row)) eqn:Hf.
  { eexists. split; [done|]. split; [done|]. exists looked, un. cbn. rewrite Hk', app_nil_r. done. }
  rewrite Hk in Hnk. rewrite <- app_assoc, fmap_app in Hnk. apply NoDup_app in Hnk as (Hnl & Hd & Hnu).
  assert (lists (un ++ [(id, receipt_of row)]) (fun i r => <[id := receipt_of row]> (sc_pending st) !! i = Some r)) as Hun'.
  { split; [done|]. destruct Hun as [_ Hun]. intros i r. rewrite elem_of_app, list_elem_of_singleton, Hun.
    rewrite fmap_app in Hnu. apply NoDup_app in Hnu as (_ & Hdu & _).
    destruct (decide (i = id)) as [-> | Hne].
    - rewrite lookup_insert_eq. split; [|intros [= <-]; by right]. intros [Hp|[= <-]]; [|done]. exfalso. apply (Hdu id); [|by left].
      apply Hun in Hp. by apply (list_elem_of_fmap_2 fst _ (id, r)).
    - rewrite lookup_insert_ne by done. split; [intros [?|?]; [done|congruence]|by left]. }
  assert (size (<[id := receipt_of row]> (sc_pending st)) = length (un ++ [(id, receipt_of row)])) as Hsize.
  { rewrite <- length_map_to_list. apply Permutation_length. eapply lists_unique; [|exact Hun']. split; [apply NoDup_fst_map_to_list|].
    intros i r. apply elem_of_map_to_list. }
  rewrite Hsize. case_bool_decide as Efull.
  - rewrite Hw, (admit_headers_ok _ _ _ Hun'); [|rewrite <- omap_app; apply receipt_entries_keys; rewrite app_assoc, <- Hk, <- Hk'; by apply kept_keys].
    cbn [mbind result_bind]. eexists. split; [done|]. split; [done|]. exists (looked ++ un ++ [(id, receipt_of row)]), []. cbn [sc_pending sc_newest].
    split_and!; [by rewrite Hk', Hk, app_nil_r, app_assoc| |unfold PAGE_SIZE; cbn; lia|by rewrite (omap_app _ looked)].
    split; [constructor|]. intros i r. split; [by intros ?%elem_of_nil|done].
  - eexists. split; [done|]. split; [done|]. exists looked, (un ++ [(id, receipt_of row)]). cbn [sc_pending sc_newest].
    split_and!; [by rewrite Hk', Hk, app_assoc|done| |done]. rewrite length_app in *. cbn [length] in *. lia.
Qed.

Lemma scan_page rows : forall n st, scanned_at n st -> rows `prefix_of` drop n all_receipts ->
  exists st', try_fold (scan_receipt db project since_ts limit o) st rows = inr st' /\ scanned_at (n + length rows) st'.
Proof.
  induction rows as [|ir rows IH]; intros n st Hst [post Hp]; [exists st; by rewrite Nat.add_0_r|].
  assert (all_receipts !! n = Some ir) as Hi by (rewrite <- (Nat.add_0_r n), <- lookup_drop, Hp; done).
  destruct (scan_next n st ir Hst Hi) as (st' & E & Hst'). rewrite (drop_S _ _ _ Hi) in Hp. cbn in Hp. injection Hp as Hp.
  destruct (IH (S n) st' Hst') as (st'' & E' & Hst''); [by exists post|]. exists st''. cbn [try_fold length]. rewrite E. cbn [mbind result_bind].
  split; [done|]. by rewrite Nat.add_succ_r.
Qed.

Lemma scan_ok fuel : forall n st, scanned_at n st -> (length all_receipts - n < fuel)%nat -> (n <= length all_receipts)%nat ->
  exists st', scan_receipts db fuel project agent since_ts limit o st = inr st' /\ scanned_at (length all_receipts) st'.
Proof.
  induction fuel as [|fuel IH]; intros n st Hst Hf Hn; [lia|]. cbn [scan_receipts]. rewrite (receipt_page_at n) by apply Hst. cbn [mbind result_bind].
  set (rows := take PAGE_SIZE (drop n all_receipts)).
  assert (length rows = Nat.min PAGE_SIZE (length all_receipts - n)) as Hlen by (unfold rows; by rewrite length_take, length_drop).
  destruct (scan_page rows n st Hst) as (st' & -> & Hst'); [exists (drop PAGE_SIZE (drop n all_receipts)); unfold rows; by rewrite take_drop|].
  cbn [mbind result_bind]. unfold PAGE_SIZE in *. destruct (Nat.ltb_spec (length rows) 256) as [Hlt|Hge].
  - exists st'. split; [done|]. assert (n + length rows = length all_receipts)%nat as <- by lia. done.
  - apply (IH (n + length rows)%nat st' Hst'); lia.
Qed.

Lemma receipt_window_ok : receipt_window db project agent since_ts limit o =
  inr (window limit (map found_entry (direct_found db project agent since_ts o))).
Proof.
  unfold receipt_window. destruct (scan_ok (S (size (recipients db))) 0 (mkScan None ∅ [])) as (st & -> & Ha & looked & un & Hk & Hun & _ & Hw).
  - split; [done|]. exists [], []. split_and!; [done| |unfold PAGE_SIZE; cbn; lia|by rewrite window_nil].
    split; [constructor|]. intros i r. split; [by intros ?%elem_of_nil|done].
  - assert (length all_receipts <= size (recipients db))%nat; [|lia]. unfold all_receipts. rewrite merge_sort_Permutation. unfold agent_rows_where.
    rewrite length_map. unfold select_where. etransitivity; [apply List.filter_length_le|]. by rewrite length_map_to_list.
  - lia.
  - cbn [mbind result_bind]. rewrite firstn_all in Hk.
    assert (NoDup (omap receipt_entry (looked ++ un)).*1) as Hn.
    { apply receipt_entries_keys. rewrite <- Hk. apply kept_keys, all_receipts_lists. }
    rewrite Hw, (admit_headers_ok _ _ _ Hun), <- omap_app by (by rewrite <- omap_app). f_equal. apply window_perm; [done|].
    apply entries_perm; [done|by apply direct_found_keys|]. intros e. rewrite direct_found_in by done. rewrite list_elem_of_omap. rewrite <- Hk.
    unfold receipt_entry, kept, direct_in. split.
    + intros ([id r] & ([i row] & Hrow & Hr)%list_elem_of_omap & He). cbn in *. destruct (state_filtered _ _) eqn:Hf; [done|]. injection Hr as -> <-.
      apply all_receipts_lists in Hrow. destruct (messages db !! id) as [m|] eqn:Em; [|done]. cbn in He. pose proof (Hids _ _ Em) as <-.
      destruct (header_ok m) eqn:Eh; [|done]. injection He as <-. exists m, row. pose proof (header_match m (receipt_of row)) as Hm.
      rewrite Eh, Hf in Hm. symmetry in Hm. apply andb_true_iff in Hm as [Hp%Z.eqb_eq Hs]. done.
    + intros (m & row & Hm & Hp & Hr & Hs & ->). exists (mg_id m, receipt_of row). pose proof (header_match m (receipt_of row)) as Hh.
      rewrite Hp, Z.eqb_refl, Hs in Hh. apply andb_true_iff in Hh as [Hh Hf%negb_true_iff]. split.
      * apply list_elem_of_omap. exists (mg_id m, row). split; [by apply all_receipts_lists|]. cbn. by rewrite Hf.
      * cbn. rewrite Hm. cbn. by rewrite Hh.
Qed.
End scanned.

(** *** The window as rows *)

Definition found_newer (x y : found) : Prop := entry_newer (found_entry x) (found_entry y).
#[export] Instance found_newer_dec : RelDecision found_newer.
Proof. intros a b. unfold found_newer. apply _. Defined.
#[export] Instance found_newer_trans : Transitive found_newer.
Proof. intros a b c. apply entry_newer_trans. Qed.
#[export] Instance found_newer_total : Total found_newer.
Proof. intros a b. apply entry_newer_total. Qed.

Section fetched.
  Context `{eng : !InboxEngine} (adb : AgentDb) (db : MessageDb) (project agent : Z) (since_ts : option Z) (limit : nat) (o : InboxFetchOptions).
  Hypothesis Hids : forall id m, messages db !! id = Some m -> mg_id m = id.
  Hypothesis Hagents : NoDup (ar_id <$> agent_rows adb).
  Hypothesis Hsize : Z.of_nat (size (messages db)) <= i64_max.
  Hypothesis Hlimit : (0 < limit)%nat.

Lemma hydrated (l : list found) : NoDup ((fun x => mg_id x.1) <$> l) ->
  (forall x, x ∈ l -> messages db !! mg_id x.1 = Some x.1 /\ mg_project x.1 = project) ->
  hydrate adb db project (window limit (map found_entry l)) (body_policy o) = inr (top newer_first limit (map (found_row adb o) l)).
Proof.
  intros Hn Hl. assert (NoDup (map found_entry l).*1) as Hk.
  { apply (NoDup_fmap_1 snd). change (map found_entry l) with (found_entry <$> l). rewrite <- !list_fmap_compose. exact Hn. }
  assert (told_apart newer_first (map (found_row adb o) l)) as Ht by (apply rows_apart; by rewrite found_row_ids).
  set (t := top found_newer limit l).
  assert (window limit (map found_entry l) = map found_entry (rev t)) as ->.
  { unfold window. rewrite (top_map found_newer entry_newer found_entry limit l); [by rewrite map_rev|done|by apply entries_apart]. }
  assert (top newer_first limit (map (found_row adb o) l) = map (found_row adb o) t) as Htop.
  { apply (top_map found_newer newer_first); [|done]. intros x y. by rewrite newer_first_entry. }
  assert (forall x, x ∈ t -> x ∈ l) as Hsub by (intros x; apply top_sub).
  assert (NoDup ((fun x : found => mg_id x.1) <$> t)) as Hnt.
  { unfold t, top. assert (NoDup ((fun x : found => mg_id x.1) <$> merge_sort found_newer l)) as Hms by (by rewrite merge_sort_Permutation).
    rewrite <- (take_drop limit (merge_sort found_newer l)), fmap_app in Hms. by apply NoDup_app in Hms as [? _]. }
  rewrite hydrate_ok; [|done|done| |].
  - f_equal. apply sort_unique; [apply _..| | |].
    + apply rows_apart. by rewrite found_row_ids, <- Permutation_rev.
    + rewrite Htop, <- Permutation_rev. done.
    + apply (sorted_take_drop newer_first limit (merge_sort newer_first (map (found_row adb o) l))). apply StronglySorted_merge_sort; apply _.
  - by rewrite <- Permutation_rev.
  - intros x Hx. rewrite <- Permutation_rev in Hx. by apply Hl, Hsub.
Qed.

Lemma direct_found_known x : x ∈ direct_found db project agent since_ts o -> messages db !! mg_id x.1 = Some x.1 /\ mg_project x.1 = project.
Proof.
  intros Hx. assert (found_entry x ∈ map found_entry (direct_found db project agent since_ts o)) as He by (by apply list_elem_of_fmap_2).
  unfold direct_found in Hx. apply list_elem_of_omap in Hx as ([id [m r]] & Hr & Hx). cbn in Hx.
  destruct (Z.eqb_spec (mg_project m) project) as [Hp|]; [|done]. destruct (sql_matches _ _ _ _); [|done]. injection Hx as <-.
  apply elem_of_map_to_list in Hr. rewrite lookup_received in Hr. destruct (messages db !! id) as [m'|] eqn:Em; [|done]. cbn in Hr.
  destruct (recipients db !! (id, agent)); [|done]. injection Hr as -> _. cbn. by rewrite (Hids _ _ Em).
Qed.

Lemma fetch_direct_ok : Z.of_nat limit <= i64_max ->
  fetch_direct adb db project agent since_ts limit o = inr (top newer_first limit (map (found_row adb o) (direct_found db project agent since_ts o))).
Proof.
  intros Hmax. unfold fetch_direct. rewrite (proj2 (Z.ltb_ge _ _)) by done. rewrite (proj2 (Nat.eqb_neq _ _)) by lia.
  assert (exists r, match newest_first_budget db agent limit o with
                    | Some budget => newest_first_window db project agent since_ts limit o budget
                    | None => inr None
                    end = inr r /\ (r = None \/ r = Some (window limit (map found_entry (direct_found db project agent since_ts o))))) as (r & -> & Hr).
  { destruct (newest_first_budget db agent limit o) as [budget|] eqn:Eb; [|exists None; split; [done|by left]].
    apply newest_first_ok; [done|done|done|]. unfold newest_first_budget in Eb. by destruct (_ || _ || _). }
  cbn [mbind result_bind].
  assert (match r with Some newest => inr newest | None => receipt_window db project agent since_ts limit o end =
          inr (window limit (map found_entry (direct_found db project agent since_ts o)))) as ->.
  { destruct Hr as [-> | ->]; [by apply receipt_window_ok|done]. }
  cbn [mbind result_bind]. apply hydrated; [by apply direct_found_ids|apply direct_found_known].
Qed.
End fetched.
