(* ===== verification/InboxProps.v ===== *)
(** * The inbox is the newest mail of both kinds ([db/src/sync/inbox.rs])

    Mail to the project, the merge, and what reading a message does to the inbox
    it was listed in. *)

From S2P Require Import Prelude.
From S2P Require Import SqlTable.
From S2P Require Import RustStr.
From S2P Require Import Leases.
From S2P Require Import AgentRegistry.
From S2P Require Import AgentRegistryProps.
From S2P Require Import Messages.
From S2P Require Import MessagesProps.
From S2P Require Import DeliveryCursor.
From S2P Require Import Inbox.
From S2P Require Import InboxWindow.
From S2P Require Import InboxReads.
From S2P Require Import InboxDirect.
From S2P Require Import MessageRetention.
From S2P Require Import MailHistoryProps.

(** ** Mail to the project *)

Lemma try_fold_total {E St A} (f : St -> A -> E + St) (g : St -> A -> St) l : forall s,
  (forall s a, a ∈ l -> f s a = inr (g s a)) -> try_fold f s l = inr (foldl g s l).
Proof.
  induction l as [|a l IH]; intros s Hf; cbn; [done|]. rewrite Hf by (by left). cbn. apply IH. intros s' b Hb. apply Hf. by right.
Qed.

Lemma foldl_delete_lookup {A B} (l : list (Z * B)) : forall (m : gmap Z A) id,
  foldl (fun d ir => delete ir.1 d) m l !! id = if bool_decide (id ∈ l.*1) then None else m !! id.
Proof.
  induction l as [|[i b] l IH]; intros m id; cbn; [done|]. rewrite IH. cbn.
  destruct (decide (id = i)) as [-> | Hne].
  - rewrite lookup_delete_eq, (bool_decide_eq_true_2 (i ∈ i :: l.*1)) by (by left). by destruct (bool_decide _).
  - rewrite lookup_delete_ne by done. assert (bool_decide (id ∈ i :: l.*1) = bool_decide (id ∈ l.*1)) as ->; [|done].
    apply bool_decide_ext. rewrite elem_of_cons. tauto.
Qed.

Lemma foldl_insert_lookup {A B} (f : Z -> A -> option B) (l : list (Z * A)) : NoDup l.*1 -> forall id b,
  foldl (fun m ia => match f ia.1 ia.2 with Some b => <[ia.1 := b]> m | None => m end) (∅ : gmap Z B) l !! id = Some b <->
  exists a, (id, a) ∈ l /\ f id a = Some b.
Proof.
  induction l as [|[i a] l IH] using rev_ind; [intros _ id b; cbn; split; [done|by intros (? & ?%elem_of_nil & _)]|].
  rewrite fmap_app. intros (Hn & Hd & _)%NoDup_app id b. rewrite foldl_snoc. cbn [fst snd].
  assert (forall a', (id, a') ∈ l ++ [(i, a)] <-> (id, a') ∈ l \/ (id = i /\ a' = a)) as Hsplit.
  { intros a'. rewrite elem_of_app, list_elem_of_singleton. split; (intros [?|E]; [by left|right]); [by injection E as -> ->|by destruct E as [-> ->]]. }
  assert (id = i -> forall a', (id, a') ∉ l) as Hno.
  { intros -> a' Ha'. apply (Hd i); [|by left]. by apply (list_elem_of_fmap_2 fst _ (i, a')). }
  assert (f i a = None \/ id <> i -> foldl (fun m ia => match f ia.1 ia.2 with Some b => <[ia.1 := b]> m | None => m end) (∅ : gmap Z B) l !! id = Some b <->
    exists a', (id, a') ∈ l ++ [(i, a)] /\ f id a' = Some b) as Hskip.
  { intros Hs. rewrite (IH Hn). split; intros (a' & Ha' & Hf); exists a'; (split; [|done]); [apply Hsplit; by left|].
    apply Hsplit in Ha' as [?|[-> ->]]; [done|]. exfalso. destruct Hs; congruence. }
  destruct (f i a) as [b'|] eqn:Ef; [|by apply Hskip; left]. destruct (decide (id = i)) as [-> | Hne].
  - rewrite lookup_insert_eq. split; [intros [= <-]; exists a; split; [apply Hsplit; by right|done]|].
    intros (a' & [Ha'|[_ ->]]%Hsplit & Hf); [by apply Hno in Ha'|congruence].
  - rewrite lookup_insert_ne by done. apply Hskip. by right.
Qed.

Section shared.
  Context `{eng : !InboxEngine} (adb : AgentDb) (db : MessageDb) (project agent : Z) (since_ts : option Z) (limit : nat) (o : InboxFetchOptions)
    (viewer : AgentRow).
  Hypothesis Hids : forall id m, messages db !! id = Some m -> mg_id m = id.
  Hypothesis Hagents : NoDup (ar_id <$> agent_rows adb).
  Hypothesis Hsize : Z.of_nat (size (messages db)) <= i64_max.
  Hypothesis Hlimit : (0 < limit)%nat.
  Hypothesis Hviewer : get_agent_by_id adb agent = Some viewer.
  Hypothesis Hproject : ar_project viewer = project.
  Hypothesis Hretired : ar_retired_at viewer = None.
  Hypothesis Hpolicy : eq_ignore_ascii_case (ar_contact viewer) (u "block_all") = false.

Local Abbreviation receipt_for := (shared_receipt db agent).

Definition below_shared (m : MessageRow) : bool := (mg_created m <? ar_inception viewer) || not_since since_ts (mg_created m).

(** A message of the project that the viewer sees, with its receipt. *)
Definition shared_entry (m : MessageRow) : option entry :=
  d ← shared db !! mg_id m;
  if (sd_project d =? project) && visible_to_viewer db (mg_id m) d m viewer && sql_matches since_ts o m (receipt_for (mg_id m))
  then Some (mg_created m, mg_id m, receipt_for (mg_id m)) else None.

Lemma shared_visible d m : mg_project m = project -> sd_project d = project ->
  visible_to_viewer db (mg_id m) d m viewer && sql_matches since_ts o m (receipt_for (mg_id m)) =
  wanted below_shared (shared_filtered agent o) m && bool_decide (recipients db !! (mg_id m, agent) = None) &&
  negb (state_filtered o (receipt_for (mg_id m))).
Proof.
  intros Hm Hd. pose proof Hviewer as Hv. apply find_some in Hv as [_ Hid%Z.eqb_eq].
  unfold visible_to_viewer. rewrite Hm, Hd, Hproject, Hid, Hretired, matches_filters, Z.eqb_refl. change (ustr_eqb (to_ascii_lowercase (ar_contact viewer)) (u "block_all"))
    with (eq_ignore_ascii_case (ar_contact viewer) (u "block_all")). rewrite Hpolicy. unfold wanted, below_shared, shared_filtered.
  rewrite Z.ltb_antisym. rewrite bool_decide_eq_true_2 by done.
  destruct (ar_inception viewer <=? mg_created m), (mg_sender m =? agent), (header_filtered o m), (ack_filtered o m),
    (not_since since_ts (mg_created m)), (state_filtered o _), (bool_decide _); done.
Qed.

Lemma shared_entry_key m e : shared_entry m = Some e -> e.1 = (mg_created m, mg_id m).
Proof. unfold shared_entry. destruct (shared db !! _) as [d|]; [|done]. cbn. destruct (_ && _); [by intros [= <-]|done]. Qed.

Lemma shared_entry_below m : below_shared m = true -> shared_entry m = None.
Proof.
  unfold shared_entry, below_shared. intros Hb. destruct (shared db !! _) as [d|]; [|done]. cbn.
  destruct (visible_to_viewer _ _ _ _ _) eqn:Ev; [|by rewrite andb_false_r]. rewrite matches_filters.
  unfold visible_to_viewer in Ev. destruct (not_since _ _); [by rewrite andb_false_r|]. rewrite orb_false_r in Hb. breflect. lia.
Qed.

(** *** A page *)

(** The deliveries of a page that are left to the project. *)
Definition left_to (c D : gmap Z Z) : Prop := forall id ts, D !! id = Some ts <->
  c !! id = Some ts /\ (exists d, shared db !! id = Some d /\ sd_project d = project) /\ recipients db !! (id, agent) = None.

Lemma page_shared rows c D : NoDup (mg_id <$> rows) -> (forall m, m ∈ rows -> m ∈ run db project) ->
  c = foldl (add_candidate below_shared (shared_filtered agent o)) ∅ rows -> left_to c D ->
  forall e, e ∈ omap shared_entry rows <-> exists id ts, D !! id = Some ts /\ state_filtered o (receipt_for id) = false /\ e = (ts, id, receipt_for id).
Proof.
  intros Hn Hin -> HD e. rewrite list_elem_of_omap. unfold shared_entry. split.
  - intros (m & Hm & He). destruct (shared db !! mg_id m) as [d|] eqn:Ed; [|done]. cbn in He. apply Hin in Hm as Hr. apply elem_of_run in Hr as [_ Hp]; [|done].
    destruct (Z.eqb_spec (sd_project d) project) as [Hd|]; [|done]. cbn [andb] in He. rewrite (shared_visible d m Hp Hd) in He.
    destruct (wanted _ _ m) eqn:Hw; [|done]. destruct (bool_decide _) eqn:Hr; [|done]. apply bool_decide_eq_true in Hr.
    destruct (state_filtered _ _) eqn:Hs; [done|]. injection He as <-. exists (mg_id m), (mg_created m). split; [|done].
    apply HD. split_and!; [|by exists d|done]. apply candidates_spec; [done|]. by exists m.
  - intros (id & ts & (Hc & (d & Ed & Hd) & Hr)%HD & Hs & ->). apply candidates_spec in Hc as (m & Hm & Hw & <- & <-); [|done]. exists m. split; [done|].
    rewrite Ed. cbn. apply Hin in Hm as Hrun. apply elem_of_run in Hrun as [_ Hp]; [|done]. rewrite Hd, Z.eqb_refl. cbn [andb].
    rewrite (shared_visible d m Hp Hd), Hw, Hs, bool_decide_eq_true_2 by done. done.
Qed.

Lemma shared_deliveries_ok c : exists D, shared_deliveries db project c = inr D /\
  forall id ts, D !! id = Some ts <-> c !! id = Some ts /\ exists d, shared db !! id = Some d /\ sd_project d = project.
Proof.
  unfold shared_deliveries. destruct (iterate_keys c) as [_ Hk]. set (ids := (iterate c).*1) in *. set (rows := scan _ _).
  assert (lists rows (fun id d => shared db !! id = Some d /\ in_ids ids id = true)) as [Hn Hr] by (eapply lists_perm; [symmetry; apply scan_rows|apply select_lists]).
  set (f := fun id (d : SharedDelivery) => if sd_project d =? project then Some (default 0 (c !! id)) else None).
  eexists. split.
  - apply (try_fold_total _ (fun D idd => match f idd.1 idd.2 with Some ts => <[idd.1 := ts]> D | None => D end)). intros D [id d] [_ Hi%in_ids_spec]%Hr.
    apply Hk in Hi as [ts Hts]. unfold f. cbn [fst snd]. rewrite Hts. by destruct (sd_project d =? project).
  - intros id ts. rewrite (foldl_insert_lookup f rows Hn). unfold f. split.
    + intros (d & [Hd Hi%in_ids_spec%Hk]%Hr & Hf). destruct (Z.eqb_spec (sd_project d) project); [|done]. destruct Hi as [ts' Hts]. rewrite Hts in *.
      cbn in Hf. eauto.
    + intros (Hts & d & Hd & Hp). exists d. split; [apply Hr; split; [done|]; apply in_ids_spec, Hk; by eexists|]. by rewrite Hp, Z.eqb_refl, Hts.
Qed.

(** The receipts read for the deliveries left. *)
Lemma shared_receipts_ok D : exists F, shared_receipts db agent D = inr F /\
  forall id, is_Some (D !! id) -> F !! id = (fun r => (pr_read r, pr_ack r)) <$> receipts db !! (id, agent).
Proof.
  unfold shared_receipts. destruct (iterate_keys D) as [Hn Hk].
  destruct (shared_receipt_rows_ok (ReceiptKeys agent) (receipts db) (iterate D).*1 agent Hn) as (rows & -> & Hnr & Hr). cbn [mbind result_bind].
  set (f := fun (_ : Z) (r : Receipt) => Some (pr_read r, pr_ack r)). eexists. split.
  - apply (try_fold_total _ (fun F ir => match f ir.1 ir.2 with Some x => <[ir.1 := x]> F | None => F end)). intros F [id r] [_ Hi%Hk]%Hr.
    destruct Hi as [ts Hts]. cbn [fst snd]. by rewrite Hts.
  - intros id Hid%Hk. apply option_eq. intros x. rewrite (foldl_insert_lookup f rows Hnr), fmap_Some. unfold f. split.
    + intros (r & [? _]%Hr & [= <-]). by exists r.
    + intros (r & ? & ->). exists r. split; [by apply Hr|done].
Qed.

Definition delivery_entry (idts : Z * Z) : option entry :=
  if state_filtered o (receipt_for idts.1) then None else Some (idts.2, idts.1, receipt_for idts.1).

Lemma keep_deliveries (D : gmap Z Z) (F : gmap Z (option Z * option Z)) l : forall seen, (forall id ts, (id, ts) ∈ l -> is_Some (D !! id)) ->
  (forall id, is_Some (D !! id) -> F !! id = (fun r => (pr_read r, pr_ack r)) <$> receipts db !! (id, agent)) ->
  NoDup (seen ++ omap delivery_entry l).*1 ->
  foldl (keep_shared limit o F) (window limit seen) l = window limit (seen ++ omap delivery_entry l).
Proof.
  induction l as [|[id ts] l IH]; intros seen Hl HF Hs; cbn [foldl]; [by rewrite app_nil_r|].
  assert (omap delivery_entry ((id, ts) :: l) = option_list (delivery_entry (id, ts)) ++ omap delivery_entry l) as E.
  { cbn. by destruct (delivery_entry (id, ts)). }
  rewrite E, app_assoc in *.
  assert (keep_shared limit o F (window limit seen) (id, ts) = window limit (seen ++ option_list (delivery_entry (id, ts)))) as ->.
  { unfold keep_shared. cbn [fst snd]. rewrite (HF id) by (eapply Hl; by left).
    assert (default (None, None) ((fun r => (pr_read r, pr_ack r)) <$> receipts db !! (id, agent)) = (in_read (receipt_for id), in_ack (receipt_for id))) as ->.
    { unfold shared_receipt. by destruct (receipts db !! (id, agent)). }
    change (mkInboxReceipt (u "project") (in_read (receipt_for id)) (in_ack (receipt_for id))) with (receipt_for id).
    unfold delivery_entry in *. cbn [fst snd] in *. destruct (state_filtered o (receipt_for id)); cbn [option_list] in *; [by rewrite app_nil_r|].
    apply keep_window; [done|]. rewrite fmap_app in Hs. by apply NoDup_app in Hs as [? _]. }
  apply IH; [|done|done]. intros i t Hi. eapply Hl. by right.
Qed.

Lemma shared_page_ok rows c seen : NoDup (mg_id <$> rows) -> (forall m, m ∈ rows -> m ∈ run db project) ->
  c = foldl (add_candidate below_shared (shared_filtered agent o)) ∅ rows -> NoDup (seen ++ omap shared_entry rows).*1 ->
  shared_page db project agent limit o c (window limit seen) = inr (window limit (seen ++ omap shared_entry rows)).
Proof.
  intros Hn Hin Hc Hs. destruct (shared_deliveries_ok c) as (D0 & ED & HD0).
  destruct (shared_receipt_rows_ok (RecipientKeys agent) (recipients db) (iterate D0).*1 agent) as (direct & Edir & Hnd & Hdir); [apply iterate_keys|].
  set (D := foldl (fun d ir => delete ir.1 d) D0 direct).
  assert (left_to c D) as HD.
  { intros id ts. unfold D. rewrite foldl_delete_lookup. case_bool_decide as Ei.
    - split; [done|]. intros (_ & _ & Hno). apply list_elem_of_fmap in Ei as ([i r] & -> & [Hr _]%Hdir). cbn in *. congruence.
    - rewrite HD0. split; [|intros (? & ? & _); done]. intros [Hts Hd]. split_and!; [done|done|].
      destruct (recipients db !! (id, agent)) as [r|] eqn:Er; [|done]. exfalso. apply Ei, list_elem_of_fmap. exists (id, r). split; [done|].
      apply Hdir. split; [done|]. apply iterate_keys. exists ts. by apply HD0. }
  pose proof (page_shared rows c D Hn Hin Hc HD) as Hpage.
  assert ((forall id ts, D !! id = Some ts -> False) -> window limit seen = window limit (seen ++ omap shared_entry rows)) as Hempty.
  { intros Hno. assert (omap shared_entry rows = []) as ->; [|by rewrite app_nil_r]. apply elem_of_nil_inv.
    intros e (id & ts & Hts & _)%Hpage. by eapply Hno. }
  unfold shared_page. case_bool_decide as E1.
  { rewrite Hempty; [done|]. intros id ts (Hts & _)%HD. by rewrite E1 in Hts. }
  rewrite ED. cbn [mbind result_bind]. case_bool_decide as E2.
  { rewrite Hempty; [done|]. intros id ts (Hts & Hd & _)%HD. assert (D0 !! id = Some ts) as H by (by apply HD0). by rewrite E2 in H. }
  rewrite Edir. cbn [mbind result_bind]. fold D. case_bool_decide as E3.
  { rewrite Hempty; [done|]. intros id ts. by rewrite E3. }
  destruct (shared_receipts_ok D) as (F & -> & HF). cbn [mbind result_bind]. f_equal.
  assert (omap delivery_entry (iterate D) ≡ₚ omap shared_entry rows) as Hp.
  { destruct (iterate_lists D) as [Hni Hi]. apply entries_perm.
    - apply (NoDup_fmap_1 snd). rewrite <- list_fmap_compose. apply (NoDup_omap_key delivery_entry fst); [|done].
      unfold delivery_entry. intros idts e. destruct (state_filtered _ _); by intros [= <-].
    - rewrite fmap_app in Hs. by apply NoDup_app in Hs as (_ & _ & ?).
    - intros e. rewrite Hpage, list_elem_of_omap. unfold delivery_entry. split.
      + intros ([id ts] & Hts%Hi & He). cbn in He. destruct (state_filtered _ _) eqn:Hf; [done|]. injection He as <-. by exists id, ts.
      + intros (id & ts & Hts & Hf & ->). exists (id, ts). split; [by apply Hi|]. cbn. by rewrite Hf. }
  rewrite keep_deliveries with (D := D); [|intros id ts Hts; eexists; by apply (iterate_lists D)|done|by rewrite Hp].
  apply window_perm; by rewrite Hp.
Qed.

Lemma created_below_shared a b : created_desc a b -> below_shared a = true -> below_shared b = true.
Proof.
  unfold created_desc, below_shared, not_since. intros Hd. rewrite !orb_true_iff, !Z.ltb_lt. intros [?|H]; [left; lia|right].
  destruct since_ts; cbn in *; [|done]. rewrite Z.leb_le in *. lia.
Qed.

Lemma shared_pages_ok fuel : forall n ceiling skip newest, cursor_at (run db project) n ceiling skip ->
  (length (run db project) - n < fuel)%nat -> newest = window limit (omap shared_entry (take n (run db project))) ->
  shared_pages db fuel project agent (ar_inception viewer) since_ts limit o ceiling skip newest =
  inr (window limit (omap shared_entry (run db project))).
Proof.
  induction fuel as [|fuel IH]; intros n ceiling skip newest Hc Hf Hw; [lia|]. cbn [shared_pages].
  rewrite (page_query db project n _ _ Hc). set (rows := take SHARED_PAGE_SIZE (drop n (run db project))).
  assert (length rows <= SHARED_PAGE_SIZE)%nat as Hrows by (unfold rows; rewrite length_take; lia).
  rewrite (proj2 (Nat.ltb_ge _ _)) by done.
  destruct (prefix_ids db project Hids n rows (page_prefix db project n)) as [Hnd Hin].
  fold below_shared. assert (Z.of_nat (length (run db project)) <= i64_max) as Hrun by (by apply run_size).
  destruct (visit_page (run db project) project below_shared (shared_filtered agent o) (index_run_sorted _) (run_ids db project Hids)
    (run_project db project Hids) Hrun rows n ceiling skip ∅ false Hc (page_prefix db project n))
    as (last & trailing & Hc' & ->); [done|].
  cbn [mbind result_bind ps_candidates ps_below ps_last ps_trailing].
  assert (omap shared_entry (take (n + length rows) (run db project)) = omap shared_entry (take n (run db project)) ++ omap shared_entry rows) as Ht.
  { rewrite <- take_take_drop, omap_app. unfold rows. by rewrite take_length_take. }
  rewrite Hw, (shared_page_ok rows _ _ Hnd Hin eq_refl); [|rewrite <- Ht; by apply taken_keys, shared_entry_key].
  cbn [mbind result_bind]. rewrite <- Ht. cbn [orb]. destruct (_ || existsb _ rows || _) eqn:Hstop.
  - f_equal. exact (stop_exact (run db project) below_shared (index_run_sorted _) (run_ids db project Hids) created_below_shared shared_entry
      shared_entry_key shared_entry_below n limit last trailing rows Hc' eq_refl Hstop).
  - eapply IH; [exact Hc'| |done]. apply orb_false_iff in Hstop as [Hstop _]. apply orb_false_iff in Hstop as [Hfull _].
    apply Nat.ltb_ge in Hfull. unfold rows in *. rewrite length_take, length_drop in *. unfold SHARED_PAGE_SIZE in *. lia.
Qed.

Lemma shared_found_in e : e ∈ map found_entry (shared_found adb db project agent since_ts o) <-> e ∈ omap shared_entry (run db project).
Proof.
  change (map found_entry ?l) with (found_entry <$> l). rewrite list_elem_of_fmap, list_elem_of_omap. unfold shared_found, shared_entry. split.
  - intros (x & -> & ([id d] & Hd & Hx)%list_elem_of_omap). apply elem_of_map_to_list in Hd. cbn in Hx.
    destruct (messages db !! id) as [m|] eqn:Em; [|done]. cbn in Hx. rewrite Hviewer in Hx. cbn in Hx. pose proof (Hids _ _ Em) as <-.
    destruct (_ && _) eqn:E; [|done]. injection Hx as <-. exists m. split.
    + apply elem_of_run; [done|]. split; [done|]. unfold visible_to_viewer in E. breflect. congruence.
    + rewrite Hd. cbn. by rewrite E.
  - intros (m & [Em Hp]%elem_of_run & He); [|done]. destruct (shared db !! mg_id m) as [d|] eqn:Ed; [|done]. cbn in He.
    destruct (_ && _) eqn:E; [|done]. injection He as <-. exists (m, receipt_for (mg_id m)). split; [done|]. apply list_elem_of_omap.
    exists (mg_id m, d). split; [by apply elem_of_map_to_list|]. cbn. rewrite Em. cbn. rewrite Hviewer. cbn. by rewrite E.
Qed.
End shared.

Lemma shared_found_known adb db project agent since_ts o x : (forall id m, messages db !! id = Some m -> mg_id m = id) ->
  x ∈ shared_found adb db project agent since_ts o -> messages db !! mg_id x.1 = Some x.1 /\ mg_project x.1 = project.
Proof.
  intros Hids ([id d] & Hd & Hx)%list_elem_of_omap. cbn in Hx. destruct (messages db !! id) as [m|] eqn:Em; [|done]. cbn in Hx.
  destruct (get_agent_by_id adb agent) as [viewer|]; [|done]. cbn in Hx. destruct (_ && _) eqn:E; [|done]. injection Hx as <-. cbn.
  rewrite (Hids _ _ Em). split; [done|]. unfold visible_to_viewer in E. breflect. congruence.
Qed.

Lemma shared_found_ids adb db project agent since_ts o : (forall id m, messages db !! id = Some m -> mg_id m = id) ->
  NoDup ((fun x : found => mg_id x.1) <$> shared_found adb db project agent since_ts o).
Proof.
  intros Hids. apply (NoDup_omap_key _ (fun idd : Z * SharedDelivery => idd.1)); [|apply NoDup_fst_map_to_list].
  intros [id d] x. cbn. destruct (messages db !! id) as [m|] eqn:Em; [|done]. cbn. destruct (get_agent_by_id adb agent) as [viewer|]; [|done]. cbn.
  destruct (_ && _); [|done]. intros [= <-]. cbn. by apply Hids.
Qed.

(** ** Both kinds together *)

Section both.
  Context `{eng : !InboxEngine} (adb : AgentDb) (db : MessageDb) (project agent : Z) (since_ts : option Z) (limit : nat) (o : InboxFetchOptions).
  Hypothesis Hids : forall id m, messages db !! id = Some m -> mg_id m = id.
  Hypothesis Hagents : NoDup (ar_id <$> agent_rows adb).
  Hypothesis Hsize : Z.of_nat (size (messages db)) <= i64_max.
  Hypothesis Hlimit : (0 < limit)%nat.
  Hypothesis Hmax : Z.of_nat limit <= i64_max.

(** A viewer that sees no shared mail. *)
Lemma shared_found_nothing : (forall viewer id d m, get_agent_by_id adb agent = Some viewer -> sd_project d = project ->
    shared db !! id = Some d -> visible_to_viewer db id d m viewer = false) ->
  shared_found adb db project agent since_ts o = [].
Proof.
  intros H. apply elem_of_nil_inv. intros x ([id d] & Hd%elem_of_map_to_list & Hx)%list_elem_of_omap. cbn in Hx.
  destruct (messages db !! id) as [m|]; [|done]. cbn in Hx. destruct (get_agent_by_id adb agent) as [viewer|]; [|done]. cbn in Hx.
  destruct (Z.eqb_spec (sd_project d) project) as [Hp|]; [|done]. cbn [andb] in Hx. by rewrite (H viewer id d m eq_refl Hp Hd) in Hx.
Qed.

Lemma fetch_shared_ok : fetch_project_mailbox_rows adb db project agent since_ts limit o =
  inr (top newer_first limit (map (found_row adb o) (shared_found adb db project agent since_ts o))).
Proof.
  unfold fetch_project_mailbox_rows. rewrite (proj2 (Z.ltb_ge _ _)) by done.
  assert (shared_found adb db project agent since_ts o = [] ->
    inr [] = inr (top newer_first limit (map (found_row adb o) (shared_found adb db project agent since_ts o))) :> InboxError + list InboxRow) as Hnil.
  { intros ->. unfold top. by destruct limit. }
  destruct (has_project_deliveries db project) eqn:Ehas; cbn [negb].
  2: { apply Hnil, shared_found_nothing. intros viewer id d m _ Hp Hd. unfold has_project_deliveries in Ehas. apply negb_false_iff, bool_decide_eq_true in Ehas.
       assert ((id, d) ∈ select_where (fun _ d => sd_project d =? project) (shared db)) as Hin by (apply elem_of_select_where; split; [done|by apply Z.eqb_eq]).
       rewrite Ehas in Hin. by apply elem_of_nil in Hin. }
  unfold fetch_shared. rewrite (proj2 (Nat.eqb_neq _ _)) by lia. destruct (get_agent_by_id adb agent) as [viewer|] eqn:Ev.
  2: { apply Hnil, shared_found_nothing. intros viewer id d m E. congruence. }
  destruct (_ || _ || _) eqn:Eout.
  - apply Hnil, shared_found_nothing. intros v id d m Ev2 Hp _. rewrite Ev in Ev2. injection Ev2 as <-. unfold visible_to_viewer.
    change (ustr_eqb (to_ascii_lowercase (ar_contact viewer)) (u "block_all")) with (eq_ignore_ascii_case (ar_contact viewer) (u "block_all")).
    rewrite Hp. destruct (eq_ignore_ascii_case _ _); [by rewrite !andb_false_r|]. rewrite orb_false_r in Eout.
    destruct (ar_retired_at viewer); [by rewrite bool_decide_eq_false_2, !andb_false_r by done|]. rewrite orb_false_r, negb_true_iff, Z.eqb_sym in Eout.
    by rewrite Eout.
  - apply orb_false_iff in Eout as [[Eproject%negb_false_iff%Z.eqb_eq Eretired]%orb_false_iff Epolicy].
    assert (ar_retired_at viewer = None) as Hr by (apply bool_decide_eq_false in Eretired; destruct (ar_retired_at viewer); [by destruct Eretired; eexists|done]).
    rewrite (shared_pages_ok adb db project agent since_ts limit o viewer Hids Hsize Hlimit Ev Eproject Hr Epolicy _ 0 None 0 []).
    + cbn [mbind result_bind].
      assert (window limit (omap (shared_entry db project agent since_ts o viewer) (run db project)) =
        window limit (map found_entry (shared_found adb db project agent since_ts o))) as ->.
      { apply window_perm; [apply (entries_keys _ (run_ids db project Hids)), shared_entry_key|]. apply entries_perm.
        - apply (entries_keys _ (run_ids db project Hids)), shared_entry_key.
        - apply (NoDup_fmap_1 snd). change (map found_entry ?l) with (found_entry <$> l). rewrite <- !list_fmap_compose. by apply shared_found_ids.
        - intros e. symmetry. by apply shared_found_in. }
      apply hydrated; try done; [by apply shared_found_ids|intros x; by apply shared_found_known].
    + done.
    + unfold run. rewrite index_run_rows. lia.
    + by rewrite take_0, window_nil.
Qed.

(** Direct and shared mail of an agent have no message in common. *)
Lemma found_apart : NoDup ((fun x : found => mg_id x.1) <$>
  direct_found db project agent since_ts o ++ shared_found adb db project agent since_ts o).
Proof.
  rewrite fmap_app. apply NoDup_app. split_and!; [by apply direct_found_ids| |by apply shared_found_ids].
  intros id (x & -> & Hx)%list_elem_of_fmap (y & Ey & Hy)%list_elem_of_fmap.
  apply list_elem_of_omap in Hx as ([i [m r]] & Hr%elem_of_map_to_list & Hx). rewrite lookup_received in Hr.
  destruct (messages db !! i) as [m'|] eqn:Em; [|done]. cbn in Hr. destruct (recipients db !! (i, agent)) as [r'|] eqn:Er; [|done].
  cbn in Hx. destruct (_ && _); [|done]. injection Hx as <-. injection Hr as -> _. cbn [fst] in Ey. rewrite (Hids _ _ Em) in Ey.
  apply list_elem_of_omap in Hy as ([j d] & _ & Hy). cbn in Hy. destruct (messages db !! j) as [mj|] eqn:Ej; [|done]. cbn in Hy.
  destruct (get_agent_by_id adb agent) as [viewer|] eqn:Ev; [|done]. cbn in Hy. destruct (_ && _) eqn:E; [|done]. injection Hy as <-. cbn in Ey.
  rewrite (Hids _ _ Ej) in Ey. subst j. apply find_some in Ev as [_ Hv%Z.eqb_eq]. unfold visible_to_viewer in E. breflect. congruence.
Qed.

Lemma inbox_rows_ok : fetch_inbox_rows adb db project agent since_ts limit o = inr (inbox_reference adb db project agent since_ts o limit).
Proof.
  unfold fetch_inbox_rows. rewrite fetch_direct_ok, fetch_shared_ok by done. cbn [mbind result_bind]. f_equal.
  unfold inbox_reference. fold (top newer_first limit (map (found_row adb o) (direct_found db project agent since_ts o ++ shared_found adb db project agent since_ts o))).
  rewrite map_app. set (ds := map _ (direct_found _ _ _ _ _)). set (ss := map _ (shared_found _ _ _ _ _ _)).
  assert (told_apart newer_first (ds ++ ss)) as Ht.
  { unfold ds, ss. rewrite <- map_app. apply rows_apart. rewrite found_row_ids. exact found_apart. }
  rewrite <- (top_app newer_first limit ds ss Ht). unfold merge_inbox_rows. destruct (top newer_first limit ss) as [|s l] eqn:E; [|done].
  rewrite app_nil_r. symmetry. unfold top at 1. rewrite (sort_unique newer_first (top newer_first limit ds) (top newer_first limit ds)); [| |done|].
  - unfold top. by rewrite take_take, Nat.min_id.
  - eapply told_apart_sub, Ht. intros x Hx%top_sub. apply elem_of_app. by left.
  - apply (sorted_take_drop newer_first limit (merge_sort newer_first ds)). apply StronglySorted_merge_sort; apply _.
Qed.
End both.

(** ** Reading what is listed *)

Lemma bfilter_sorted {A} (R : relation A) p (l : list A) : StronglySorted R l -> StronglySorted R (List.filter p l).
Proof.
  induction 1 as [|x l Hs IH Hx]; [constructor|]. cbn [List.filter]. destruct (p x); [|done]. constructor; [done|].
  apply Forall_forall. intros y Hy. rewrite Forall_forall in Hx. apply Hx. by apply list_elem_of_In, filter_In in Hy as [?%list_elem_of_In _].
Qed.

Section reading.
  Context (adb : AgentDb) (db : MessageDb) (project agent : Z) (since_ts : option Z) (o : InboxFetchOptions).
  Hypothesis Hids : forall id m, messages db !! id = Some m -> mg_id m = id.

Lemma direct_member x : x ∈ direct_found db project agent since_ts o <->
  messages db !! mg_id x.1 = Some x.1 /\ mg_project x.1 = project /\ sql_matches since_ts o x.1 x.2 = true /\
  (exists r, recipients db !! (mg_id x.1, agent) = Some r /\ x.2 = receipt_of r).
Proof.
  destruct x as [m r]. cbn [fst snd]. unfold direct_found. rewrite list_elem_of_omap. split.
  - intros ([id [m' r']] & Hr%elem_of_map_to_list & Hx). cbn in Hx. rewrite lookup_received in Hr.
    destruct (Z.eqb_spec (mg_project m') project); [|done]. destruct (sql_matches _ _ _ _) eqn:Hs; [|done]. injection Hx as <- <-.
    destruct (messages db !! id) as [m''|] eqn:Em; [|done]. cbn in Hr. destruct (recipients db !! (id, agent)) as [r''|] eqn:Er; [|done].
    injection Hr as -> ->. pose proof (Hids _ _ Em) as <-. eauto 6.
  - intros (Hm & Hp & Hs & r' & Hr & ->). exists (mg_id m, (m, r')). split; [|cbn; by rewrite Hp, Z.eqb_refl, Hs].
    apply elem_of_map_to_list. rewrite lookup_received, Hm. cbn. by rewrite Hr.
Qed.

Lemma shared_member x : x ∈ shared_found adb db project agent since_ts o <->
  messages db !! mg_id x.1 = Some x.1 /\ sql_matches since_ts o x.1 x.2 = true /\ x.2 = shared_receipt db agent (mg_id x.1) /\
  (exists d viewer, shared db !! mg_id x.1 = Some d /\ get_agent_by_id adb agent = Some viewer /\ sd_project d = project /\
    visible_to_viewer db (mg_id x.1) d x.1 viewer = true).
Proof.
  destruct x as [m r]. cbn [fst snd]. unfold shared_found. rewrite list_elem_of_omap. split.
  - intros ([id d] & Hd%elem_of_map_to_list & Hx). cbn in Hx. destruct (messages db !! id) as [m'|] eqn:Em; [|done]. cbn in Hx.
    destruct (get_agent_by_id adb agent) as [viewer|]; [|done]. cbn in Hx. pose proof (Hids _ _ Em) as <-.
    destruct (Z.eqb_spec (sd_project d) project); [|done]. destruct (visible_to_viewer _ _ _ _ _) eqn:Ev; [|done].
    destruct (sql_matches _ _ _ _) eqn:Hs; [|done]. injection Hx as <- <-. split_and!; try done. by exists d, viewer.
  - intros (Hm & Hs & -> & d & viewer & Hd & Hv & Hp & Hvis). exists (mg_id m, d). split; [by apply elem_of_map_to_list|].
    cbn. rewrite Hm. cbn. rewrite Hv. cbn. by rewrite Hp, Z.eqb_refl, Hvis, Hs.
Qed.

(** One message read by the agent, and nothing else. *)
Record read_by (id : Z) (db' : MessageDb) : Prop := {
  rb_messages : messages db' = messages db;
  rb_shared : shared db' = shared db;
  rb_recipients k : k <> (id, agent) -> recipients db' !! k = recipients db !! k;
  rb_receipts k : k <> (id, agent) -> receipts db' !! k = receipts db !! k;
  rb_read : match recipients db !! (id, agent) with
            | Some _ => exists r, recipients db' !! (id, agent) = Some r /\ is_Some (rc_read r)
            | None => recipients db' !! (id, agent) = None /\ exists r, receipts db' !! (id, agent) = Some r /\ is_Some (pr_read r)
            end;
}.

Lemma listed_is_read x now : x ∈ direct_found db project agent since_ts o ++ shared_found adb db project agent since_ts o ->
  exists ts db', mark_message_read adb agent (mg_id x.1) now db = inr (ts, db') /\ read_by (mg_id x.1) db'.
Proof.
  intros Hx. set (id := mg_id x.1) in *. unfold mark_message_read.
  set (touched := touch_recipients Read agent now [id] db). set (db1 := rebuild_agents_inbox_stats [agent] touched).
  assert (forall k, recipients db1 !! k =
    (fun r => if (k.2 =? agent) && in_ids [id] k.1 then touch_recipient Read now r else r) <$> recipients db !! k) as Hrec.
  { intros k. unfold db1, touched, rebuild_agents_inbox_stats, touch_recipients. cbn [recipients set_stats set_recipients]. apply lookup_update_where. }
  assert (forall k, k <> (id, agent) -> recipients db1 !! k = recipients db !! k) as Hother.
  { intros [i a] Hk. rewrite Hrec. cbn. rewrite orb_false_r. destruct (Z.eqb_spec a agent) as [->|]; [|by destruct (recipients db !! _)].
    destruct (Z.eqb_spec i id) as [->|]; [done|]. by destruct (recipients db !! _). }
  assert (recipients db1 !! (id, agent) = touch_recipient Read now <$> recipients db !! (id, agent)) as Hself.
  { rewrite Hrec. cbn. by rewrite !Z.eqb_refl. }
  rewrite Hself. destruct (recipients db !! (id, agent)) as [r|] eqn:Er; cbn [fmap option_fmap option_map].
  - eexists _, db1. split; [done|]. split; [done..|]. rewrite Er, Hself. by eexists.
  - apply elem_of_app in Hx as [Hx|Hx].
    { apply direct_member in Hx as (_ & _ & _ & r & Hr & _). fold id in Hr. congruence. }
    apply shared_member in Hx as (Hm & _ & _ & d & viewer & Hd & Hv & Hp & Hvis). fold id in Hm, Hd, Hvis.
    unfold record_project_mailbox_receipt, visible_receipt. change (shared db1) with (shared db). change (messages db1) with (messages db).
    rewrite Hd. cbn [mbind option_bind]. rewrite Hm. cbn [mbind option_bind]. rewrite Hv. cbn [mbind option_bind].
    assert (visible_to_viewer db1 id d x.1 viewer = true) as ->.
    { pose proof Hv as Hv'. apply find_some in Hv' as [_ Hv'%Z.eqb_eq]. rewrite <- Hvis. unfold visible_to_viewer. by rewrite Hv', Hself, Er. }
    rewrite write_receipt_lookup, bool_decide_eq_true_2 by done. eexists _, (write_receipt Read id agent now db1). split; [done|].
    split; [done|done| | |].
    + intros k Hk. by apply Hother.
    + intros k Hk. by rewrite write_receipt_lookup, bool_decide_eq_false_2.
    + rewrite Er. split; [done|]. rewrite write_receipt_lookup, bool_decide_eq_true_2 by done. eexists. split; [done|]. cbn. by eexists.
Qed.

  Hypothesis Hunread : unread_only o = true.

Lemma unread_matches m r : sql_matches since_ts o m r = true -> in_read r = None.
Proof. unfold sql_matches. rewrite Hunread. cbn [implb]. intros H. by breflect. Qed.
End reading.

Section read.
  Context (adb : AgentDb) (db : MessageDb) (project agent : Z) (since_ts : option Z) (o : InboxFetchOptions) (id : Z) (db' : MessageDb).
  Hypothesis Hids : forall id m, messages db !! id = Some m -> mg_id m = id.
  Hypothesis Hunread : unread_only o = true.
  Hypothesis Hread : read_by db agent id db'.

Lemma read_ids k m : messages db' !! k = Some m -> mg_id m = k.
Proof. rewrite (rb_messages _ _ _ _ Hread). apply Hids. Qed.

Lemma shared_receipt_other i : i <> id -> shared_receipt db' agent i = shared_receipt db agent i.
Proof. intros Hi. unfold shared_receipt. by rewrite (rb_receipts _ _ _ _ Hread) by congruence. Qed.

Lemma visible_other i d m viewer : get_agent_by_id adb agent = Some viewer -> i <> id ->
  visible_to_viewer db' i d m viewer = visible_to_viewer db i d m viewer.
Proof.
  intros [_ Hv%Z.eqb_eq]%find_some Hi. unfold visible_to_viewer. rewrite Hv. by rewrite (rb_recipients _ _ _ _ Hread) by congruence.
Qed.

Lemma direct_after x : x ∈ direct_found db' project agent since_ts o <-> x ∈ direct_found db project agent since_ts o /\ mg_id x.1 <> id.
Proof.
  rewrite !direct_member, (rb_messages _ _ _ _ Hread) by (exact Hids || exact read_ids).
  destruct (decide (mg_id x.1 = id)) as [E|Hne]; [|rewrite (rb_recipients _ _ _ _ Hread) by congruence; tauto].
  split; [|by intros [_ ?]]. intros (_ & _ & Hs & r & Hr & Hx). exfalso. rewrite E in Hr. pose proof (rb_read _ _ _ _ Hread) as Hrb.
  apply unread_matches in Hs; [|done]. rewrite Hx in Hs. cbn in Hs.
  destruct (recipients db !! (id, agent)); [destruct Hrb as (r' & Hr' & [? ?])|destruct Hrb as (Hr' & _)]; congruence.
Qed.

Lemma shared_after x : x ∈ shared_found adb db' project agent since_ts o <-> x ∈ shared_found adb db project agent since_ts o /\ mg_id x.1 <> id.
Proof.
  rewrite !shared_member, (rb_messages _ _ _ _ Hread), (rb_shared _ _ _ _ Hread) by (exact Hids || exact read_ids).
  destruct (decide (mg_id x.1 = id)) as [E|Hne].
  - split; [|by intros [_ ?]]. intros (_ & Hs & Hx & d & viewer & _ & Hv & _ & Hvis). exfalso. rewrite E in *. pose proof (rb_read _ _ _ _ Hread) as Hrb.
    apply unread_matches in Hs; [|done]. rewrite Hx in Hs. unfold shared_receipt in Hs. cbn in Hs. unfold visible_to_viewer in Hvis.
    apply find_some in Hv as [_ Hv%Z.eqb_eq]. rewrite Hv in Hvis. breflect.
    destruct (recipients db !! (id, agent)); [destruct Hrb as (r' & Hr' & _)|destruct Hrb as (_ & r' & Hr' & [? ?]); rewrite Hr' in Hs; cbn in Hs]; congruence.
  - rewrite shared_receipt_other by done.
    assert (forall d viewer, get_agent_by_id adb agent = Some viewer -> visible_to_viewer db' (mg_id x.1) d x.1 viewer = visible_to_viewer db (mg_id x.1) d x.1 viewer) as Hv.
    { intros d viewer Hv. by apply visible_other. }
    split; [intros (? & ? & ? & d & viewer & ? & Hg & ? & ?); split; [split_and!; try done; exists d, viewer; by rewrite <- Hv|done]|].
    intros ((? & ? & ? & d & viewer & ? & Hg & ? & ?) & _). split_and!; try done. exists d, viewer. by rewrite Hv.
Qed.

(** What is left of a complete unread inbox. *)
Lemma reference_after limit : (length (inbox_reference adb db project agent since_ts o limit) < limit)%nat ->
  inbox_reference adb db' project agent since_ts o limit =
  List.filter (fun row => negb (row_id row =? id)) (inbox_reference adb db project agent since_ts o limit).
Proof.
  unfold inbox_reference. set (l := direct_found db project agent since_ts o ++ shared_found adb db project agent since_ts o).
  set (l' := direct_found db' project agent since_ts o ++ shared_found adb db' project agent since_ts o). intros Hlen.
  assert (length l < limit)%nat as Hl.
  { rewrite length_take, merge_sort_Permutation, length_map in Hlen. lia. }
  assert (NoDup ((fun x : found => mg_id x.1) <$> l)) as Hn by (by apply found_apart).
  assert (NoDup ((fun x : found => mg_id x.1) <$> l')) as Hn' by (apply found_apart; exact read_ids).
  assert (l' ≡ₚ List.filter (fun x => negb (mg_id x.1 =? id)) l) as Hp.
  { apply NoDup_Permutation; [by eapply NoDup_fmap_1|apply NoDup_ListNoDup, List.NoDup_filter, NoDup_ListNoDup; by eapply NoDup_fmap_1|].
    intros x. rewrite (list_elem_of_In (List.filter _ _)), filter_In, <- list_elem_of_In. unfold l', l.
    rewrite !elem_of_app, direct_after, shared_after, negb_true_iff, Z.eqb_neq. tauto. }
  assert (map (found_row adb o) l' ≡ₚ List.filter (fun row => negb (row_id row =? id)) (map (found_row adb o) l)) as Hrows.
  { rewrite Hp. clear. induction l as [|x l IH]; [done|]. cbn [List.filter map].
    assert (row_id (found_row adb o x) = mg_id x.1) as -> by (unfold row_id, found_row; by destruct (body_policy o)).
    destruct (negb _); cbn [map]; by rewrite IH. }
  rewrite !take_ge by (rewrite merge_sort_Permutation, length_map; first [lia|rewrite Hp; eapply Nat.le_lt_trans in Hl; [apply Nat.lt_le_incl, Hl|apply List.filter_length_le]]).
  apply sort_unique; [apply _..| | |].
  - apply rows_apart. by rewrite found_row_ids.
  - rewrite Hrows. apply bfilter_Permutation. by rewrite merge_sort_Permutation.
  - apply bfilter_sorted, StronglySorted_merge_sort; apply _.
Qed.
End read.

(** ** The claims *)

(** C4: the inbox of an agent is the newest mail of both kinds, and is always answered.  On every consistent store
    of any size the machine can hold, for every filter, lower bound and limit, reading the inbox fails in no way, ends
    within its bound on pages, and returns the first [limit] rows, newest first, of the deliveries made to the agent by
    name together with those made to its project that it can see.  That holds of whichever plan is chosen, also when the
    count the choice rests on is stale, and of every order in which the database returns unordered rows, breaks ties in
    time and in which the hash maps are iterated. *)
Theorem inbox_newest `{!InboxEngine} adb db project agent since_ts limit o :
  mail_ok db -> registry_ok adb -> Z.of_nat (size (messages db)) <= i64_max -> Z.of_nat limit <= i64_max ->
  fetch_inbox_rows adb db project agent since_ts limit o = inr (inbox_reference adb db project agent since_ts o limit).
Proof.
  intros Hok Hreg Hsize Hmax. assert (forall id m, messages db !! id = Some m -> mg_id m = id) as Hids by (intros id m Hm; by apply (mo_ids _ Hok)).
  destruct (decide (limit = 0%nat)) as [-> | Hne]; [|apply inbox_rows_ok; try done; [apply (rok_ids _ Hreg)|lia]].
  unfold fetch_inbox_rows, fetch_direct, fetch_project_mailbox_rows, fetch_shared. rewrite (proj2 (Z.ltb_ge _ _)) by done.
  cbn [Nat.eqb mbind result_bind]. by destruct (has_project_deliveries db project).
Qed.

(** C34: what an agent sees in its inbox it can mark read, and that empties the inbox of exactly that message.  If
    the unread inbox was read completely, then each of its rows, delivered by name or to the project, can be marked read,
    and the unread inbox read afterwards is the same list without that row. *)
Theorem reading_empties_inbox `{!InboxEngine} adb db project agent since_ts limit o now rows row :
  mail_ok db -> registry_ok adb -> Z.of_nat (size (messages db)) <= i64_max -> Z.of_nat limit <= i64_max -> unread_only o = true ->
  fetch_inbox_rows adb db project agent since_ts limit o = inr rows -> (length rows < limit)%nat -> row ∈ rows ->
  exists ts db', mark_message_read adb agent (mg_id (ib_message row)) now db = inr (ts, db') /\
    fetch_inbox_rows adb db' project agent since_ts limit o =
    inr (List.filter (fun r => negb (mg_id (ib_message r) =? mg_id (ib_message row))) rows).
Proof.
  intros Hok Hreg Hsize Hmax Hunread Hrows Hlen Hrow.
  assert (forall id m, messages db !! id = Some m -> mg_id m = id) as Hids by (intros id m Hm; by apply (mo_ids _ Hok)).
  assert (rows = inbox_reference adb db project agent since_ts o limit) as ->.
  { rewrite inbox_rows_ok in Hrows; [congruence|done|apply (rok_ids _ Hreg)|done|lia|done]. }
  assert (exists x, x ∈ direct_found db project agent since_ts o ++ shared_found adb db project agent since_ts o /\ mg_id (ib_message row) = mg_id x.1)
    as (x & Hx & ->).
  { apply (subseteq_take limit) in Hrow. rewrite merge_sort_Permutation in Hrow. apply list_elem_of_fmap in Hrow as (x & -> & Hx). exists x.
    split; [done|]. unfold found_row. by destruct (body_policy o). }
  destruct (listed_is_read adb db project agent since_ts o Hids x now Hx) as (ts & db' & Hm & Hread). exists ts, db'. split; [done|].
  assert (mail_ok db') as Hok'.
  { pose proof (op_mail_ok db (OpRead adb agent (mg_id x.1) now) Hok) as Hr. cbn [apply_mail_op] in Hr. by rewrite Hm in Hr. }
  rewrite inbox_rows_ok.
  - f_equal. exact (reference_after adb db project agent since_ts o (mg_id x.1) db' Hids Hunread Hread limit Hlen).
  - intros id m Hm'. by apply (mo_ids _ Hok').
  - apply (rok_ids _ Hreg).
  - by rewrite (rb_messages _ _ _ _ Hread).
  - lia.
  - done.
Qed.

(** ** A small mailbox, read backwards *)

#[export] Instance created_desc_trans : Transitive created_desc.
Proof. intros a b c. unfold created_desc. lia. Qed.
#[export] Instance created_desc_total : Total created_desc.
Proof. intros a b. unfold created_desc. lia. Qed.

(** A database that returns rows last key first, and puts the later of two messages of one time first. *)
Definition backward_engine : InboxEngine.
Proof.
  refine {| scan _ _ l := rev l; iterate _ m := rev (map_to_list m); index_run l := merge_sort created_desc (rev l) |}.
  - intros A _ l. symmetry. apply Permutation_rev.
  - intros V m. symmetry. apply Permutation_rev.
  - intros l. rewrite merge_sort_Permutation. symmetry. apply Permutation_rev.
  - intros l. apply StronglySorted_merge_sort; apply _.
Defined.

Definition no_filter : InboxFetchOptions := mkOptions false false false None None Full.
Definition unread_filter : InboxFetchOptions := mkOptions false true false None None MetadataOnly.

Lemma ex_agents_ok : registry_ok ex_agents.
Proof.
  split.
  - cbn. apply NoDup_ListNoDup. repeat constructor; cbn; lia.
  - intros a [<-|[<-|[<-|[]]]]; cbn; lia.
  - intros a b [<-|[<-|[<-|[]]]] [<-|[<-|[<-|[]]]] [_ E]; try done; exfalso; vm_compute in E; discriminate.
  - intros id ts Hts. change (deregistrations ex_agents) with (∅ : gmap Z Z) in Hts. by rewrite lookup_empty in Hts.
Qed.

Lemma inbox_newest_witness :
  let db := run_mail ex_history empty_mail in
  let reads := @fetch_inbox_rows backward_engine ex_agents db 7 2 None 10 no_filter in
  reads = inr (inbox_reference ex_agents db 7 2 None no_filter 10) /\
  (row_id <$> match reads with inr rows => rows | inl _ => [] end) = [42; 41].
Proof.
  cbv zeta. set (db := run_mail ex_history empty_mail).
  assert (mail_ok db) as Hok by (exact (run_mail_ok ex_history empty_mail empty_mail_ok)).
  assert (Z.of_nat (size (messages db)) <= i64_max) as Hsize by (vm_compute; discriminate).
  assert (Z.of_nat 10 <= i64_max) as Hmax by (vm_compute; discriminate).
  split; [exact (@inbox_newest backward_engine ex_agents db 7 2 None 10 no_filter Hok ex_agents_ok Hsize Hmax)|].
  vm_compute. reflexivity.
Defined.

(** The message to the project is read by JadeOwl, who has one by name too. *)
Lemma reading_empties_inbox_witness :
  let db := run_mail [ex_first_send; ex_send [(2, u "to")] (Some (u "cc")) 110] empty_mail in
  exists rows, @fetch_inbox_rows backward_engine ex_agents db 7 3 None 10 unread_filter = inr rows /\ row_id <$> rows = [42; 41] /\
  exists ts db', mark_message_read ex_agents 3 42 200 db = inr (ts, db') /\
    @fetch_inbox_rows backward_engine ex_agents db' 7 3 None 10 unread_filter = inr (List.filter (fun r => negb (row_id r =? 42)) rows).
Proof.
  cbv zeta. set (ops := [ex_first_send; ex_send [(2, u "to")] (Some (u "cc")) 110]). set (db := run_mail ops empty_mail).
  assert (mail_ok db) as Hok by (exact (run_mail_ok ops empty_mail empty_mail_ok)).
  assert (Z.of_nat (size (messages db)) <= i64_max) as Hsize by (vm_compute; discriminate).
  assert (Z.of_nat 10 <= i64_max) as Hmax by (vm_compute; discriminate).
  set (rows := match @fetch_inbox_rows backward_engine ex_agents db 7 3 None 10 unread_filter with inr rows => rows | inl _ => [] end).
  assert (@fetch_inbox_rows backward_engine ex_agents db 7 3 None 10 unread_filter = inr rows) as Hrows by (vm_compute; reflexivity).
  assert (row_id <$> rows = [42; 41]) as Hids by (vm_compute; reflexivity).
  exists rows. split; [exact Hrows|]. split; [exact Hids|]. destruct rows as [|row rest]; [discriminate|].
  assert (mg_id (ib_message row) = 42) as Hid by (injection Hids as Hid _; exact Hid).
  assert (length (row :: rest) < 10)%nat as Hlen.
  { apply (f_equal length) in Hids. rewrite length_fmap in Hids. cbn [length] in Hids |- *. lia. }
  destruct (@reading_empties_inbox backward_engine ex_agents db 7 3 None 10 unread_filter 200 (row :: rest) row Hok ex_agents_ok Hsize Hmax eq_refl
    Hrows Hlen (list_elem_of_here row rest)) as (ts & db' & H1 & H2).
  exists ts, db'. rewrite Hid in H1, H2. split; [exact H1|exact H2].
Defined.
