(* ===== verification/ProofGate.v ===== *)
(** * The registration proof gate ([tools/src/proof_gate.rs], [db/src/queries.rs])

    When the gate is on, a registration carries a bundle of claims signed by a
    trusted key, and a nonce that the database records.  The JSON of a bundle,
    base64 and Ed25519 are those of libraries: [SigningLib] is what the gate asks
    of them.  A requester of contacts that is registered on the way carries no
    proof ([tools/src/contacts.rs]); its path is here as well, that of an unknown
    recipient in [Recipients]. *)

From S2P Require Import Prelude.
From S2P Require Import RustStr.
From S2P Require Import RustText.
From S2P Require Import AgentNames.
From S2P Require Import Clock.
From S2P Require Import Routing.
From S2P Require Import Recipients.
From S2P Require Import AgentRegistry.
From S2P Require Import SessionIdentity.
From S2P Require Import SessionActors.

(** @src tools/src/proof_gate.rs:99-115 ProofClaims *)
Record ProofClaims := mkClaims {
  pc_identity : ustr; pc_project_key : ustr; pc_program : ustr; pc_model : ustr; pc_capabilities : list ustr;
  pc_issued_at : Z; pc_expires_at : Z; pc_nonce : ustr;
}.

(** @src tools/src/proof_gate.rs:117-123 ProofBundle *)
Record ProofBundle := mkBundle { pb_claims : ProofClaims; pb_public_key : ustr; pb_signature : ustr }.

(** @src core/src/config.rs:270-303 ProofGateConfig *)
Record ProofGateConfig := mkGate {
  pg_enabled : bool; pg_trusted_keys : list ustr; pg_max_lifetime_seconds : Z; pg_clock_skew_seconds : Z;
  pg_require_nonce : bool;
}.
Definition default_gate : ProofGateConfig := mkGate false [] 300 60 true.

(** @src tools/src/proof_gate.rs:78-97 RegistrationRequest *)
Record RegistrationRequest := mkRequest {
  rq_agent_name : ustr; rq_project_key : ustr; rq_program : ustr; rq_model : ustr;
  rq_granted_capabilities : list ustr; rq_proof : option ustr;
}.

(** @src tools/src/identity.rs:2030-2037 DEFAULT_AGENT_CAPABILITIES *)
Definition DEFAULT_AGENT_CAPABILITIES : list ustr :=
  map u ["send_message"; "fetch_inbox"; "file_reservation_paths"; "acknowledge_message"]%string.

(** What the gate asks of the libraries: [serde_json::from_str], the decoder and
    encoder of base64, [VerifyingKey::from_bytes] and [verify_strict]. *)
Class SigningLib := {
  VerifyingKey : Type;
  parse_bundle : ustr -> option ProofBundle;
  b64_decode : ustr -> option (list N);
  b64_encode : list N -> ustr;
  key_from_bytes : list N -> option VerifyingKey;
  verify_strict : VerifyingKey -> list N -> list N -> bool;
}.

(** ** The signed bytes *)

(** @src tools/src/proof_gate.rs:74-76 PROOF_DOMAIN *)
Definition PROOF_DOMAIN : ustr := u "agent-mail-registration-proof:v2".

Definition LF : N := 10.

(** @src tools/src/proof_gate.rs:610-617 append_signed_field *)
Definition append_signed_field (message label value : ustr) : ustr :=
  message ++ label ++ [ch "="] ++ dec (Z.of_nat (utf8_len value)) ++ [ch ":"] ++ value ++ [LF].

(** [Vec::dedup]: runs of equal neighbours. *)
Fixpoint dedup (l : list ustr) : list ustr :=
  match l with
  | [] => []
  | a :: l => match l with
              | b :: _ => if ustr_eqb a b then dedup l else a :: dedup l
              | [] => [a]
              end
  end.

(** @src tools/src/proof_gate.rs:578-585 canonical_message
    -- the capabilities that are signed. *)
Definition signed_capabilities (claims : ProofClaims) : list ustr :=
  dedup (merge_sort str_le
    (List.filter (fun capability => negb (is_empty capability)) (map trim (pc_capabilities claims)))).

(** @src tools/src/proof_gate.rs:577-608 canonical_message *)
Definition canonical_message (claims : ProofClaims) : ustr :=
  let caps := signed_capabilities claims in
  let message := PROOF_DOMAIN ++ [LF] in
  let message := foldl (fun m lv => append_signed_field m lv.1 lv.2) message
    [(u "identity", pc_identity claims); (u "project_key", pc_project_key claims);
     (u "program", pc_program claims); (u "model", pc_model claims)] in
  let message := message ++ u "capabilities=" ++ dec (Z.of_nat (length caps)) ++ [LF] in
  let message := foldl (fun m capability => append_signed_field m (u "capability") capability) message caps in
  let message := message ++ u "issued_at=" ++ dec (pc_issued_at claims) ++ [LF]
                         ++ u "expires_at=" ++ dec (pc_expires_at claims) ++ [LF] in
  append_signed_field message (u "nonce") (pc_nonce claims).

(** ** The verifier *)

Inductive MalformedStage := AtParse | AtPublicKey | AtSignature | AtVerifyingKey | AtWindow | AtNonce.

(** The refusals, with the facts they report. *)
Inductive GateError :=
  | ProofRequired
  | Malformed (stage : MalformedStage)
  | UntrustedKey (public_key : ustr)
  | BadSignature (public_key : ustr)
  | LifetimeTooLong (lifetime max_lifetime : Z)
  | NotYetValid (issued_at now skew : Z)
  | Expired (expires_at now skew : Z)
  | IdentityMismatch (proof_identity requested_identity : ustr)
  | ProjectMismatch (proof_project_key requested_project_key : ustr)
  | BindingMismatch (proof_program proof_model requested_program requested_model : ustr)
  | ScopeMismatch (missing proof_capabilities : list ustr)
  | ReplayedNonce (nonce : ustr)
  | NonceStoreUnavailable (nonce : ustr).

(** @src tools/src/proof_gate.rs:130-141 NonceConsume *)
Record NonceConsume := mkConsume { nc_issuer_key : ustr; nc_nonce : ustr; nc_retain_until : Z }.

(** The early [return deny(..)] of the source. *)
Definition deny_if (b : bool) (e : GateError) : GateError + unit := if b then inl e else inr tt.
Definition or_deny {A} (o : option A) (e : GateError) : GateError + A :=
  match o with Some a => inr a | None => inl e end.

(** The table [proof_gate_consumed_nonces] ([db/src/schema.rs]): by issuer and
    nonce, until when it is kept and when it was consumed. *)
Abbreviation NonceTable := (gmap (ustr * ustr) (Z * Z)).

Section gate.
  Context `{lib : !SigningLib}.

(** @src tools/src/proof_gate.rs:619-631 b64_decode_fixed *)
Definition b64_decode_fixed (n : nat) (input : ustr) : option (list N) :=
  bytes ← b64_decode (trim input);
  if negb (length bytes =? n)%nat then None else Some bytes.

(** @src tools/src/proof_gate.rs:216-222 Ed25519TrustAnchorVerifier::verify *)
Definition trusted (cfg : ProofGateConfig) (pk_bytes : list N) : bool :=
  existsb (fun anchor => bool_decide (anchor = pk_bytes)) (omap (b64_decode_fixed 32) (pg_trusted_keys cfg)).

(** [i64::try_from(u64).unwrap_or(i64::MAX)]. *)
Definition i64_or_max (n : Z) : Z := if n <=? i64_max then n else i64_max.

(** @src tools/src/proof_gate.rs:188-252 Ed25519TrustAnchorVerifier::verify
    -- who signed the claims: the bundle's claims and the bytes of the key. *)
Definition authenticate (cfg : ProofGateConfig) (bundle_json : ustr) : GateError + (ProofClaims * list N) :=
  bundle ← or_deny (parse_bundle bundle_json) (Malformed AtParse);
  pk_bytes ← or_deny (b64_decode_fixed 32 (pb_public_key bundle)) (Malformed AtPublicKey);
  sig_bytes ← or_deny (b64_decode_fixed 64 (pb_signature bundle)) (Malformed AtSignature);
  _ ← deny_if (negb (trusted cfg pk_bytes)) (UntrustedKey (pb_public_key bundle));
  verifying_key ← or_deny (key_from_bytes pk_bytes) (Malformed AtVerifyingKey);
  _ ← deny_if (negb (verify_strict verifying_key (utf8 (canonical_message (pb_claims bundle))) sig_bytes))
        (BadSignature (pb_public_key bundle));
  inr (pb_claims bundle, pk_bytes).

(** @src tools/src/proof_gate.rs:254-289 Ed25519TrustAnchorVerifier::verify
    -- the window; [expires_at - issued_at] wraps in a release build. *)
Definition check_window (cfg : ProofGateConfig) (claims : ProofClaims) (now_unix : Z) : GateError + unit :=
  let max_lifetime := i64_or_max (pg_max_lifetime_seconds cfg) in
  let lifetime := i64_wrap (pc_expires_at claims - pc_issued_at claims) in
  let skew := i64_or_max (pg_clock_skew_seconds cfg) in
  _ ← deny_if (pc_expires_at claims <=? pc_issued_at claims) (Malformed AtWindow);
  _ ← deny_if (max_lifetime <? lifetime) (LifetimeTooLong lifetime max_lifetime);
  _ ← deny_if (now_unix <? isat_sub (pc_issued_at claims) skew) (NotYetValid (pc_issued_at claims) now_unix skew);
  deny_if (isat_add (pc_expires_at claims) skew <? now_unix) (Expired (pc_expires_at claims) now_unix skew).

(** @src tools/src/proof_gate.rs:291-334 Ed25519TrustAnchorVerifier::verify *)
Definition check_binding (claims : ProofClaims) (request : RegistrationRequest) : GateError + unit :=
  _ ← deny_if (negb (eq_ignore_ascii_case (trim (pc_identity claims)) (trim (rq_agent_name request))))
        (IdentityMismatch (pc_identity claims) (rq_agent_name request));
  _ ← deny_if (negb (ustr_eqb (trim (pc_project_key claims)) (trim (rq_project_key request))))
        (ProjectMismatch (pc_project_key claims) (rq_project_key request));
  deny_if (negb (ustr_eqb (trim (pc_program claims)) (trim (rq_program request))) ||
           negb (ustr_eqb (trim (pc_model claims)) (trim (rq_model request))))
    (BindingMismatch (pc_program claims) (pc_model claims) (rq_program request) (rq_model request)).

(** @src tools/src/proof_gate.rs:336-361 Ed25519TrustAnchorVerifier::verify *)
Definition missing_capabilities (claims : ProofClaims) (request : RegistrationRequest) : list ustr :=
  List.filter (fun granted => negb (existsb (fun authorized => ustr_eqb (trim authorized) granted) (pc_capabilities claims)))
    (rq_granted_capabilities request).
Definition check_scope (claims : ProofClaims) (request : RegistrationRequest) : GateError + unit :=
  let missing := missing_capabilities claims request in
  deny_if (negb (match missing with [] => true | _ => false end)) (ScopeMismatch missing (pc_capabilities claims)).

(** @src tools/src/proof_gate.rs:363-387 Ed25519TrustAnchorVerifier::verify *)
Definition nonce_to_consume (cfg : ProofGateConfig) (claims : ProofClaims) (pk_bytes : list N) :
    GateError + option NonceConsume :=
  if pg_require_nonce cfg then
    _ ← deny_if (is_empty (trim (pc_nonce claims))) (Malformed AtNonce);
    inr (Some (mkConsume (b64_encode pk_bytes) (trim (pc_nonce claims))
                 (isat_add (pc_expires_at claims) (i64_or_max (pg_clock_skew_seconds cfg)))))
  else inr None.

(** @src tools/src/proof_gate.rs:178-391 Ed25519TrustAnchorVerifier::verify
    -- [Verdict::Allow] is [inr], [Verdict::Deny] is [inl]. *)
Definition verify (cfg : ProofGateConfig) (bundle_json : ustr) (request : RegistrationRequest) (now_unix : Z) :
    GateError + option NonceConsume :=
  '(claims, pk_bytes) ← authenticate cfg bundle_json;
  _ ← check_window cfg claims now_unix;
  _ ← check_binding claims request;
  _ ← check_scope claims request;
  nonce_to_consume cfg claims pk_bytes.

(** @src tools/src/proof_gate.rs:465-495 enforce_with_config *)
Definition enforce_with_config (cfg : ProofGateConfig) (request : RegistrationRequest) (now_unix : Z) :
    GateError + option NonceConsume :=
  if negb (pg_enabled cfg) then inr None
  else
    match trim <$> rq_proof request with
    | Some raw => if is_empty raw then inl ProofRequired else verify cfg raw request now_unix
    | None => inl ProofRequired
    end.

(** ** The record of nonces *)

(** @src db/src/queries.rs:7148-7155 NonceOutcome *)
Inductive NonceOutcome := NonceFresh | NonceReplayed.

(** @src db/src/queries.rs:7178-7258 consume_proof_nonce
    -- [DELETE WHERE retain_until < now], then [INSERT ON CONFLICT DO NOTHING];
    a transaction that does not commit ([commits = false]) leaves the table. *)
Definition consume_proof_nonce (issuer_key nonce : ustr) (retain_until now : Z) (commits : bool) (t : NonceTable) :
    option NonceOutcome * NonceTable :=
  if negb commits then (None, t)
  else
    let t := filter (fun kv => ~ kv.2.1 < now) t in
    match t !! (issuer_key, nonce) with
    | Some _ => (Some NonceReplayed, t)
    | None => (Some NonceFresh, <[(issuer_key, nonce) := (retain_until, now)]> t)
    end.

(** @src tools/src/proof_gate.rs:428-459 consume_nonce_durably *)
Definition consume_nonce_durably (nc : NonceConsume) (now : Z) (commits : bool) (t : NonceTable) :
    (GateError + unit) * NonceTable :=
  match consume_proof_nonce (nc_issuer_key nc) (nc_nonce nc) (nc_retain_until nc) now commits t with
  | (Some NonceFresh, t) => (inr tt, t)
  | (Some NonceReplayed, t) => (inl (ReplayedNonce (nc_nonce nc)), t)
  | (None, t) => (inl (NonceStoreUnavailable (nc_nonce nc)), t)
  end.

(** What a call of the gate meets: the clock at the verification and at the
    consumption, and whether the transaction commits. *)
Record GateCall := mkCall { gc_config : ProofGateConfig; gc_request : RegistrationRequest; gc_verified_at : Z;
                            gc_consumed_at : Z; gc_commits : bool }.

(** @src tools/src/proof_gate.rs:412-423 enforce *)
Definition enforce (c : GateCall) (t : NonceTable) : (GateError + unit) * NonceTable :=
  match enforce_with_config (gc_config c) (gc_request c) (gc_verified_at c) with
  | inl e => (inl e, t)
  | inr None => (inr tt, t)
  | inr (Some nc) => consume_nonce_durably nc (gc_consumed_at c) (gc_commits c) t
  end.

(** Calls of any number of processes on the shared database. *)
Fixpoint run_gate (calls : list GateCall) (t : NonceTable) : list (GateError + unit) * NonceTable :=
  match calls with
  | [] => ([], t)
  | c :: calls => let '(r, t) := enforce c t in let '(rs, t) := run_gate calls t in (r :: rs, t)
  end.
End gate.

(** @src tools/src/identity.rs:2944-2958 register_agent_with_token_policy
    -- what the tools ask the gate about a name; [create_agent_identity] and
    [try_name] ask the same. *)
Definition registration_request (c : RegisterCall) (project_key : ustr) (proof : option ustr) (agent_name : ustr) :
    RegistrationRequest :=
  mkRequest agent_name project_key (trim (rg_program c)) (trim (rg_model c)) DEFAULT_AGENT_CAPABILITIES proof.

(** ** Registration on the way *)

(** @src tools/src/lib.rs:1912-1920 AGENT_PLACEHOLDER_PATTERNS *)
Definition AGENT_PLACEHOLDER_PATTERNS : list ustr :=
  map u ["YOUR_AGENT"; "YOUR_AGENT_NAME"; "AGENT_NAME"; "PLACEHOLDER"; "<AGENT>"; "{AGENT}"; "$AGENT"]%string.

Inductive RequesterError :=
  | EmptyRequester
  | PlaceholderName
  | LookupFailed
  | NameMistake (kind : ustr)
  | RequesterNotFound
  | RequesterRefused (e : AuthError)
  | RequesterProofRequired
  | MissingField (field : ustr)
  | RequesterDb (e : AgentDbError).

(** @src tools/src/lib.rs:1964-2130 resolve_agent
    -- [fails]: the query does; the suggestions of the message are left out. *)
Definition resolve_agent (db : AgentDb) (fails : bool) (project_id : Z) (agent_name : ustr) : RequesterError + AgentRow :=
  if is_empty agent_name || is_empty (trim agent_name) then inl EmptyRequester
  else
    let name := normalize_agent_name_or_original (trim agent_name) in
    if existsb (fun pattern => contains pattern (map ascii_upper name)) AGENT_PLACEHOLDER_PATTERNS then inl PlaceholderName
    else if fails then inl LookupFailed
    else
      match get_agent db project_id name with
      | Some agent => inr agent
      | None => inl match detect_agent_name_mistake name with Some kind => NameMistake kind | None => RequesterNotFound end
      end.

(** What a request for contacts says of its requester, and what it meets: the
    clock, lookups that fail, the liveness of the request, transactions of others
    before the write and after it, and the gate. *)
Record RequesterCall := mkRequester {
  rc_project : Z; rc_from : ustr; rc_register_if_missing : bool; rc_program : option ustr; rc_model : option ustr;
  rc_task : option ustr;
}.
Record RequesterEnv := mkRequesterEnv {
  qe_now : Z; qe_lookup_fails : bool; qe_live : bool; qe_gate : bool; qe_between : list AgentOp; qe_after : Aftermath;
  qe_second_lookup_fails : bool;
}.

Section requester.
  Context (micros_to_iso : Z -> ustr) (enabled : bool).

Definition authorize_requester (e : RequesterEnv) (s : SessionIdentityState) (agent : AgentRow) (action : ustr) :
    RequesterError + AgentRow :=
  match authorize_actor enabled (qe_live e) (reads (qe_live e) s) (qe_live e) agent false action with
  | inl err => inl (RequesterRefused err)
  | inr _ => inr agent
  end.

(** @src tools/src/contacts.rs:117-135 authorize_requester_creation
    -- the row that is not there yet has no id: [0] matches no binding. *)
Definition unregistered (project_id : Z) (name : ustr) : AgentRow :=
  mkAgentRow 0 project_id name [] [] [] 0 0 [] [] 0 None None.
Definition authorize_requester_creation (e : RequesterEnv) (s : SessionIdentityState) (project_id : Z) (name : ustr) :
    RequesterError + AgentRow :=
  authorize_requester e s (unregistered project_id name) (u "auto-register a contact requester").

(** @src tools/src/contacts.rs:166-195 resolve_or_register_sender
    -- what is checked before the insert: the profile it is to have. *)
Definition requester_profile (c : RequesterCall) (e : RequesterEnv) (s : SessionIdentityState) (name : ustr) :
    RequesterError + AgentProfile :=
  _ ← authorize_requester_creation e s (rc_project c) name;
  _ ← reject_auto_registration_with_gate RequesterProofRequired (qe_gate e);
  program ← match rc_program c with Some p => inr p | None => inl (MissingField (u "program")) end;
  model ← match rc_model c with Some m => inr m | None => inl (MissingField (u "model")) end;
  inr (mkProfile program model (rc_task c) (Some (u "auto")) None).

(** @src tools/src/contacts.rs:137-245 resolve_or_register_sender
    -- the archive profile and the search index are left out. *)
Definition resolve_or_register_sender (c : RequesterCall) (e : RequesterEnv) (w : World) : (RequesterError + AgentRow) * World :=
  let from_agent := normalize_agent_name_or_original (trim (rc_from c)) in
  match resolve_agent (registry w) (qe_lookup_fails e) (rc_project c) from_agent with
  | inr a => (authorize_requester e (own w) a (u "request contacts"), w)
  | inl RequesterNotFound =>
      if negb (rc_register_if_missing c) then (inl RequesterNotFound, w)
      else
        match requester_profile c e (own w) from_agent with
        | inl err => (inl err, w)
        | inr p =>
            let db := run (apply_agent_op micros_to_iso) (registry w) (qe_between e) in
            match create_agent micros_to_iso db (qe_now e) (rc_project c) from_agent p (qe_after e) with
            | (inl (Duplicate _), db) =>
                (existing ← resolve_agent db (qe_second_lookup_fails e) (rc_project c) from_agent;
                 authorize_requester e (own w) existing (u "request contacts"), mkWorld db (own w))
            | (inl err, db) => (inl (RequesterDb err), mkWorld db (own w))
            | (inr row, db) => (inr row, mkWorld db (own w))
            end
        end
  | inl err => (inl err, w)
  end.
End requester.
