(* ===== verification/ProofGateProps.v ===== *)
(** * Properties of the registration proof gate

    What a signature covers, what the gate lets through, and how often a nonce
    is accepted. *)

From S2P Require Import Prelude.
From S2P Require Import RustStr.
From S2P Require Import RustText.
From S2P Require Import AgentNames.
From S2P Require Import Clock.
From S2P Require Import Recipients.
From S2P Require Import AgentRegistry.
From S2P Require Import AgentRegistryProps.
From S2P Require Import AgentClaims.
From S2P Require Import SessionIdentity.
From S2P Require Import SessionActors.
From S2P Require Import SessionActorsProps.
From S2P Require Import ProofGate.

(** ** The signed bytes *)

(** One field of the message, as it is appended. *)
Definition signed_field (label value : ustr) : ustr :=
  label ++ ch "=" :: dec (Z.of_nat (utf8_len value)) ++ ch ":" :: value ++ [LF].

Lemma append_signed_field_app m label value : append_signed_field m label value = m ++ signed_field label value.
Proof. done. Qed.

Lemma dec_no z c : is_ascii_digit c = false -> c <> ch "-" -> ~ In c (dec z).
Proof. intros Hd Hm Hin. apply dec_chars in Hin as [->|Hin]; [done|congruence]. Qed.

(** A text of known byte length, followed by anything. *)
Lemma utf8_len_app_inj v v' x x' : utf8_len v = utf8_len v' -> v ++ x = v' ++ x' -> v = v' /\ x = x'.
Proof.
  intros Hl E. pose proof (f_equal utf8 E) as Eu. rewrite !utf8_app in Eu.
  apply app_inj_1 in Eu as [Ev Ex]; [|exact Hl]. split; by apply utf8_inj.
Qed.

Lemma signed_field_inj label v v' x x' :
  signed_field label v ++ x = signed_field label v' ++ x' -> v = v' /\ x = x'.
Proof.
  unfold signed_field. rewrite <- !app_assoc, <- !app_comm_cons, <- !app_assoc, <- !app_comm_cons. intros E.
  apply app_inv_head in E. injection E as E. apply terminated_inj in E as [El E]; [|by apply dec_no..].
  apply (inj dec) in El. rewrite <- !app_assoc in E. apply utf8_len_app_inj in E as [-> E]; [|lia]. by injection E.
Qed.

Lemma line_inj z z' x x' : dec z ++ LF :: x = dec z' ++ LF :: x' -> z = z' /\ x = x'.
Proof. intros E. apply terminated_inj in E as [E ->]; [|by apply dec_no..]. by apply (inj dec) in E. Qed.

Lemma fields_inj label l l' x x' : length l = length l' ->
  flat_map (signed_field label) l ++ x = flat_map (signed_field label) l' ++ x' -> l = l' /\ x = x'.
Proof.
  revert l'. induction l as [|v l IH]; intros [|v' l'] Hl E; try done. cbn [flat_map] in E.
  rewrite <- !app_assoc in E. apply signed_field_inj in E as [-> E]. injection Hl as Hl.
  by destruct (IH l' Hl E) as [-> ->].
Qed.

(** The message as one concatenation. *)
Lemma canonical_message_eq c :
  canonical_message c =
  (PROOF_DOMAIN ++ [LF]) ++
  signed_field (u "identity") (pc_identity c) ++ signed_field (u "project_key") (pc_project_key c) ++
  signed_field (u "program") (pc_program c) ++ signed_field (u "model") (pc_model c) ++
  u "capabilities=" ++ dec (Z.of_nat (length (signed_capabilities c))) ++ LF ::
  flat_map (signed_field (u "capability")) (signed_capabilities c) ++
  u "issued_at=" ++ dec (pc_issued_at c) ++ LF :: u "expires_at=" ++ dec (pc_expires_at c) ++ LF ::
  signed_field (u "nonce") (pc_nonce c) ++ [].
Proof.
  assert (forall l m, foldl (fun m v => append_signed_field m (u "capability") v) m l =
                      m ++ flat_map (signed_field (u "capability")) l) as Hf.
  { intros l. induction l as [|v l IH]; intros m; cbn [foldl flat_map]; [by rewrite app_nil_r|].
    by rewrite IH, append_signed_field_app, <- app_assoc. }
  unfold canonical_message. cbv zeta. rewrite Hf. cbn [foldl fst snd]. rewrite !append_signed_field_app, app_nil_r.
  rewrite <- !app_assoc. cbn [app]. rewrite <- ?app_assoc. done.
Qed.

Lemma dedup_In a l : In a (dedup l) <-> In a l.
Proof.
  induction l as [|b l IH]; [done|]. cbn [dedup]. destruct l as [|c l]; [done|].
  destruct (ustr_eqb b c) eqn:E; [|cbn [In]; rewrite IH; done].
  apply ustr_eqb_eq in E as ->. rewrite IH. cbn [In]. tauto.
Qed.

Lemma dedup_sorted l : StronglySorted str_le l -> StronglySorted str_le (dedup l) /\ NoDup (dedup l).
Proof.
  induction 1 as [|a l Hs [IHs IHn] Ha]; [split; constructor|].
  cbn [dedup]. destruct l as [|b l].
  { split; [repeat constructor|apply NoDup_singleton]. }
 
  destruct (ustr_eqb a b) eqn:E; [done|]. split.
  - constructor; [done|]. apply Forall_forall. intros x Hx. rewrite Forall_forall in Ha. apply Ha.
    apply list_elem_of_In, dedup_In. by apply list_elem_of_In.
  - constructor; [|done]. rewrite list_elem_of_In, dedup_In. intros Hin.
    assert (a = b) as ->; [|by rewrite (proj2 (ustr_eqb_eq b b) eq_refl) in E].
    apply Forall_cons in Ha as [Hab _]. destruct Hin as [->|Hin]; [done|].
    apply StronglySorted_inv in Hs as [_ Hb]. rewrite Forall_forall in Hb.
    apply (anti_symm str_le); [done|]. apply Hb. by apply list_elem_of_In.
Qed.

Lemma signed_capabilities_In c cap :
  In cap (signed_capabilities c) <-> cap <> [] /\ In cap (map trim (pc_capabilities c)).
Proof.
  unfold signed_capabilities. rewrite dedup_In, <- list_elem_of_In, merge_sort_Permutation, list_elem_of_In, filter_In.
  destruct cap; simpl; intuition congruence.
Qed.

Lemma signed_capabilities_eq c c' :
  signed_capabilities c = signed_capabilities c' <->
  forall cap, cap <> [] -> In cap (map trim (pc_capabilities c)) <-> In cap (map trim (pc_capabilities c')).
Proof.
  split.
  - intros E cap Hne. pose proof (signed_capabilities_In c cap) as H1. rewrite E, signed_capabilities_In in H1. tauto.
  - intros H.
    destruct (dedup_sorted (merge_sort str_le (List.filter (fun x => negb (is_empty x)) (map trim (pc_capabilities c)))))
      as [Hs Hn]; [apply StronglySorted_merge_sort; apply _|].
    destruct (dedup_sorted (merge_sort str_le (List.filter (fun x => negb (is_empty x)) (map trim (pc_capabilities c')))))
      as [Hs' Hn']; [apply StronglySorted_merge_sort; apply _|].
    apply (StronglySorted_unique str_le); [done..|]. apply NoDup_Permutation; [done..|]. intros cap.
    rewrite !list_elem_of_In. change (In cap (signed_capabilities c) <-> In cap (signed_capabilities c')).
    rewrite !signed_capabilities_In. specialize (H cap). tauto.
Qed.

(** a signature covers every claim.  The signed bytes of two sets of claims
    are the same exactly when they agree on the identity, the project, the
    program, the model, both times and the nonce, character by character, and
    authorize the same capabilities up to blanks, order and repetition. *)
Theorem canonical_message_binds c c' :
  utf8 (canonical_message c) = utf8 (canonical_message c') <->
  pc_identity c = pc_identity c' /\ pc_project_key c = pc_project_key c' /\ pc_program c = pc_program c' /\
  pc_model c = pc_model c' /\ pc_issued_at c = pc_issued_at c' /\ pc_expires_at c = pc_expires_at c' /\
  pc_nonce c = pc_nonce c' /\
  (forall cap, cap <> [] -> In cap (map trim (pc_capabilities c)) <-> In cap (map trim (pc_capabilities c'))).
Proof.
  rewrite <- signed_capabilities_eq. split.
  - intros E%utf8_inj. rewrite !canonical_message_eq in E. apply app_inv_head in E.
    do 4 (apply signed_field_inj in E as [? E]).
    apply app_inv_head, line_inj in E as [El E]. apply fields_inj in E as [? E]; [|lia].
    apply app_inv_head, line_inj in E as [? E]. apply app_inv_head, line_inj in E as [? E].
    apply signed_field_inj in E as [? _]. done.
  - intros (E1 & E2 & E3 & E4 & E5 & E6 & E7 & E8). by rewrite !canonical_message_eq, E1, E2, E3, E4, E5, E6, E7, E8.
Qed.

(** ** What the gate lets through *)

Lemma deny_if_inr b e r : deny_if b e = inr r <-> b = false.
Proof. destruct b, r; simpl; split; congruence. Qed.

Lemma or_deny_inr {A} (o : option A) e a : or_deny o e = inr a <-> o = Some a.
Proof. destruct o; simpl; split; congruence. Qed.

Section gate.
  Context `{lib : !SigningLib}.

Lemma b64_decode_fixed_Some n s b : b64_decode_fixed n s = Some b <-> b64_decode (trim s) = Some b /\ length b = n.
Proof.
  unfold b64_decode_fixed. destruct (b64_decode (trim s)) as [d|]; simpl; [|split; [done|by intros []]].
  destruct (length d =? n)%nat eqn:E; simpl.
  - apply Nat.eqb_eq in E. split; [by intros [= <-]|by intros [[= <-] _]].
  - apply Nat.eqb_neq in E. split; [done|by intros [[= <-] ?]].
Qed.

(** Who signed: a trusted key, over the bytes of the claims. *)
Definition signed_by (cfg : ProofGateConfig) (raw : ustr) (claims : ProofClaims) (pk : list N) : Prop :=
  exists bundle sig key,
    parse_bundle raw = Some bundle /\ pb_claims bundle = claims /\
    b64_decode (trim (pb_public_key bundle)) = Some pk /\ length pk = 32%nat /\
    b64_decode (trim (pb_signature bundle)) = Some sig /\ length sig = 64%nat /\
    (exists k, In k (pg_trusted_keys cfg) /\ b64_decode (trim k) = Some pk) /\
    key_from_bytes pk = Some key /\ verify_strict key (utf8 (canonical_message claims)) sig = true.

Lemma trusted_spec cfg pk : length pk = 32%nat ->
  trusted cfg pk = true <-> exists k, In k (pg_trusted_keys cfg) /\ b64_decode (trim k) = Some pk.
Proof.
  intros Hl. unfold trusted. rewrite existsb_exists. split.
  - intros (a & Ha & He). apply bool_decide_eq_true in He as ->. apply list_elem_of_In, list_elem_of_omap in Ha as (k & Hk & Hd).
    apply b64_decode_fixed_Some in Hd as [Hd _]. exists k. split; [by apply list_elem_of_In|done].
  - intros (k & Hk & Hd). exists pk. split; [|by apply bool_decide_eq_true]. apply list_elem_of_In, list_elem_of_omap.
    exists k. split; [by apply list_elem_of_In|by apply b64_decode_fixed_Some].
Qed.

Lemma authenticate_spec cfg raw claims pk : authenticate cfg raw = inr (claims, pk) <-> signed_by cfg raw claims pk.
Proof.
  unfold authenticate, signed_by. split.
  - intros (bundle & Hb & H)%result_bind_inr. apply or_deny_inr in Hb.
    apply result_bind_inr in H as (pk' & Hpk & H). apply or_deny_inr, b64_decode_fixed_Some in Hpk as [Hpk Hlpk].
    apply result_bind_inr in H as (sig & Hsig & H). apply or_deny_inr, b64_decode_fixed_Some in Hsig as [Hsig Hlsig].
    apply result_bind_inr in H as ([] & Ht%deny_if_inr%negb_false_iff & H). apply (trusted_spec _ _ Hlpk) in Ht.
    apply result_bind_inr in H as (key & Hkey & H). apply or_deny_inr in Hkey.
    apply result_bind_inr in H as ([] & Hv%deny_if_inr%negb_false_iff & H).
    injection H as <- <-. exists bundle, sig, key. done.
  - intros (bundle & sig & key & Hb & <- & Hpk & Hlpk & Hsig & Hlsig & Ht & Hkey & Hv).
    rewrite Hb. simpl. rewrite (proj2 (b64_decode_fixed_Some _ _ _) (conj Hpk Hlpk)). simpl.
    rewrite (proj2 (b64_decode_fixed_Some _ _ _) (conj Hsig Hlsig)). simpl.
    rewrite (proj2 (trusted_spec _ _ Hlpk) Ht). simpl. rewrite Hkey. simpl. by rewrite Hv.
Qed.

(** The window, as the source computes it. *)
Definition in_window (cfg : ProofGateConfig) (claims : ProofClaims) (now : Z) : Prop :=
  let skew := i64_or_max (pg_clock_skew_seconds cfg) in
  pc_issued_at claims < pc_expires_at claims /\
  i64_wrap (pc_expires_at claims - pc_issued_at claims) <= i64_or_max (pg_max_lifetime_seconds cfg) /\
  isat_sub (pc_issued_at claims) skew <= now <= isat_add (pc_expires_at claims) skew.

Lemma check_window_spec cfg claims now : check_window cfg claims now = inr tt <-> in_window cfg claims now.
Proof.
  unfold check_window, in_window, deny_if. cbv zeta.
  repeat match goal with |- context [if ?b then _ else _] => destruct b eqn:?; simpl end; breflect; split; intros; try done; try lia.
Qed.

(** The registration the claims are for. *)
Definition claims_bind (claims : ProofClaims) (request : RegistrationRequest) : Prop :=
  eq_ignore_ascii_case (trim (pc_identity claims)) (trim (rq_agent_name request)) = true /\
  trim (pc_project_key claims) = trim (rq_project_key request) /\
  trim (pc_program claims) = trim (rq_program request) /\ trim (pc_model claims) = trim (rq_model request).

Lemma check_binding_spec claims request : check_binding claims request = inr tt <-> claims_bind claims request.
Proof.
  unfold check_binding, claims_bind, deny_if.
  destruct (eq_ignore_ascii_case _ _); simpl; [|split; [done|by intros [? _]]].
  rewrite <- !ustr_eqb_eq. destruct (ustr_eqb (trim (pc_project_key claims)) _); simpl; [|naive_solver].
  destruct (ustr_eqb (trim (pc_program claims)) _), (ustr_eqb (trim (pc_model claims)) _); simpl; naive_solver.
Qed.

Definition scope_covers (claims : ProofClaims) (request : RegistrationRequest) : Prop :=
  forall cap, In cap (rq_granted_capabilities request) -> In cap (map trim (pc_capabilities claims)).

Lemma check_scope_spec claims request : check_scope claims request = inr tt <-> scope_covers claims request.
Proof.
  unfold check_scope, scope_covers. cbv zeta. rewrite deny_if_inr, negb_false_iff.
  assert (missing_capabilities claims request = [] <->
          forall cap, In cap (rq_granted_capabilities request) -> In cap (map trim (pc_capabilities claims))) as <-;
    [|destruct (missing_capabilities claims request); split; done].
  assert (forall cap, existsb (fun a => ustr_eqb (trim a) cap) (pc_capabilities claims) = true <->
                      In cap (map trim (pc_capabilities claims))) as He.
  { intros cap. rewrite existsb_exists, in_map_iff.
    split; intros (a & H1 & H2); exists a; [apply ustr_eqb_eq in H2|split; [|apply ustr_eqb_eq]]; done. }
  unfold missing_capabilities. split.
  - intros Hm cap Hin. apply He. apply not_false_iff_true. intros Hf.
    assert (In cap []) as []. rewrite <- Hm. apply filter_In. by rewrite Hf.
  - intros H. destruct (List.filter _ _) as [|cap l] eqn:El; [done|exfalso].
    assert (In cap (cap :: l)) as Hin by by left. rewrite <- El in Hin. apply filter_In in Hin as [Hin Hf].
    apply H, He in Hin. by rewrite Hin in Hf.
Qed.

(** Everything the gate asks of a proof but its nonce. *)
Definition valid_proof (cfg : ProofGateConfig) (request : RegistrationRequest) (now : Z) (claims : ProofClaims) (pk : list N) : Prop :=
  exists raw, rq_proof request = Some raw /\ trim raw <> [] /\ signed_by cfg (trim raw) claims pk /\
    in_window cfg claims now /\ claims_bind claims request /\ scope_covers claims request.

(** The record a proof leaves, when nonces are required. *)
Definition proof_record (cfg : ProofGateConfig) (claims : ProofClaims) (pk : list N) : NonceConsume :=
  mkConsume (b64_encode pk) (trim (pc_nonce claims)) (isat_add (pc_expires_at claims) (i64_or_max (pg_clock_skew_seconds cfg))).

Lemma nonce_to_consume_spec cfg claims pk nc :
  nonce_to_consume cfg claims pk = inr nc <->
  (pg_require_nonce cfg = false /\ nc = None) \/
  (pg_require_nonce cfg = true /\ trim (pc_nonce claims) <> [] /\ nc = Some (proof_record cfg claims pk)).
Proof.
  unfold nonce_to_consume, proof_record. destruct (pg_require_nonce cfg); [|naive_solver].
  destruct (trim (pc_nonce claims)) as [|x s]; simpl; naive_solver.
Qed.

Lemma enforce_with_config_spec cfg request now nc :
  enforce_with_config cfg request now = inr nc <->
  (pg_enabled cfg = false /\ nc = None) \/
  (pg_enabled cfg = true /\ exists claims pk, valid_proof cfg request now claims pk /\
     nonce_to_consume cfg claims pk = inr nc).
Proof.
  unfold enforce_with_config, valid_proof. destruct (pg_enabled cfg); simpl; [|naive_solver].
  destruct (rq_proof request) as [raw|]; simpl; [|naive_solver].
  destruct (trim raw) as [|x s] eqn:Er; simpl; [naive_solver|]. rewrite <- Er. unfold verify. split.
  - intros ([claims pk] & Ha & H)%result_bind_inr. apply result_bind_inr in H as ([] & Hw & H).
    apply result_bind_inr in H as ([] & Hb & H). apply result_bind_inr in H as ([] & Hs & H).
    apply authenticate_spec in Ha. apply check_window_spec in Hw. apply check_binding_spec in Hb. apply check_scope_spec in Hs.
    right. split; [done|]. exists claims, pk. split; [|done]. exists raw. rewrite Er. split_and!; try done. by rewrite <- Er.
  - intros [[? _]|(_ & claims & pk & (raw' & [= <-] & _ & Ha & Hw & Hb & Hs) & Hn)]; [done|].
    rewrite (proj2 (authenticate_spec _ _ _ _) Ha). simpl. rewrite (proj2 (check_window_spec _ _ _) Hw). simpl.
    rewrite (proj2 (check_binding_spec _ _) Hb). simpl. by rewrite (proj2 (check_scope_spec _ _) Hs).
Qed.

(** The consumption of one nonce. *)
Lemma consume_nonce_durably_spec (nc : NonceConsume) (now : Z) (commits : bool) (t : NonceTable) :
  let '(r, t') := consume_nonce_durably nc now commits t in
  let k := (nc_issuer_key nc, nc_nonce nc) in
  match r with
  | inr _ => commits = true /\ (forall retain at_, t !! k = Some (retain, at_) -> retain < now) /\
             t' = <[k := (nc_retain_until nc, now)]> (filter (fun kv => ~ kv.2.1 < now) t)
  | inl e => (commits = false /\ e = NonceStoreUnavailable (nc_nonce nc) /\ t' = t) \/
             (commits = true /\ e = ReplayedNonce (nc_nonce nc) /\ t' = filter (fun kv => ~ kv.2.1 < now) t /\
              exists retain at_, t !! k = Some (retain, at_) /\ now <= retain)
  end.
Proof.
  unfold consume_nonce_durably, consume_proof_nonce. destruct commits; simpl; [|by left].
  destruct (filter _ t !! _) as [[retain at_]|] eqn:E.
  - right. split_and!; try done. apply map_lookup_filter_Some in E as [E Hle]. simpl in Hle. exists retain, at_.
    split; [done|lia].
  - split_and!; try done. intros retain at_ Hk. apply map_lookup_filter_None in E as [E|E]; [by pose proof (eq_trans (eq_sym E) Hk)|].
    specialize (E _ Hk). simpl in E. lia.
Qed.

(** Acceptance and the table, call by call. *)
Lemma enforce_accepts c t :
  (enforce c t).1 = inr tt <->
  exists o, enforce_with_config (gc_config c) (gc_request c) (gc_verified_at c) = inr o /\
    forall nc, o = Some nc -> gc_commits c = true /\
      forall retain at_, t !! (nc_issuer_key nc, nc_nonce nc) = Some (retain, at_) -> retain < gc_consumed_at c.
Proof.
  unfold enforce. destruct (enforce_with_config _ _ _) as [e|[nc|]]; [naive_solver| |naive_solver].
  pose proof (consume_nonce_durably_spec nc (gc_consumed_at c) (gc_commits c) t) as Hc.
  destruct (consume_nonce_durably _ _ _ _) as [[e|[]] t']; cbn [fst].
  - split; [done|]. intros (o & [= <-] & H). destruct (H nc eq_refl) as [Hcm Hold].
    destruct Hc as [(Hf & _)|(_ & _ & _ & retain & at_ & Hl & Hle)]; [congruence|]. apply Hold in Hl. lia.
  - destruct Hc as (Hcm & Hold & _). split; [|done]. intros _. exists (Some nc). split; [done|]. by intros ? [= <-].
Qed.

(** No check but the table's answers a replay. *)
Lemma no_early_replay cfg request now n : enforce_with_config cfg request now <> inl (ReplayedNonce n).
Proof.
  unfold enforce_with_config, verify, authenticate, check_window, check_binding, check_scope, nonce_to_consume, or_deny, deny_if.
  cbv zeta. repeat first [done | case_match | simpl; case_match].
Qed.

(** The records that have not run out. *)
Definition unexpired (now : Z) (t : NonceTable) : NonceTable := filter (fun kv => ~ kv.2.1 < now) t.

Lemma enforce_records c t :
  let cfg := gc_config c in
  match enforce c t with
  | (inr _, t') =>
      if pg_enabled cfg && pg_require_nonce cfg then
        exists claims pk, valid_proof cfg (gc_request c) (gc_verified_at c) claims pk /\
          t' = <[(b64_encode pk, trim (pc_nonce claims)) := (nc_retain_until (proof_record cfg claims pk), gc_consumed_at c)]>
                 (unexpired (gc_consumed_at c) t)
      else t' = t
  | (inl (ReplayedNonce _), t') => t' = unexpired (gc_consumed_at c) t
  | (inl _, t') => t' = t
  end.
Proof.
  intros cfg. unfold enforce. destruct (enforce_with_config _ _ _) as [e|o] eqn:Eo.
  { destruct e; try done. exfalso. by eapply no_early_replay. }
  apply enforce_with_config_spec in Eo. fold cfg in Eo. destruct o as [nc|].
  - destruct Eo as [[_ ?]|(Hon & claims & pk & Hv & Hn)]; [done|].
    apply nonce_to_consume_spec in Hn as [[_ ?]|(Hreq & _ & [= ->])]; [done|].
    pose proof (consume_nonce_durably_spec (proof_record cfg claims pk) (gc_consumed_at c) (gc_commits c) t) as Hc.
    destruct (consume_nonce_durably _ _ _ _) as [[e|[]] t'].
    + destruct Hc as [(_ & -> & ->)|(_ & -> & -> & _)]; done.
    + destruct Hc as (_ & _ & ->). rewrite Hon, Hreq. by exists claims, pk.
  - destruct Eo as [[-> _]|(_ & claims & pk & _ & Hn)]; [done|].
    apply nonce_to_consume_spec in Hn as [[-> _]|(_ & _ & ?)]; [by rewrite andb_false_r|done].
Qed.

(** C26: the gate lets a registration through exactly when it is off, or when the
    bundle parses, carries a 32-byte key that is an anchor and a signature of 64
    bytes that verifies over the signed bytes of its claims, the verification is
    within the (skewed) window and the lifetime - a 64-bit difference that wraps
    around, a finding - is not above the maximum, the claims are for this name,
    project, program and model, every granted capability is among the claimed ones,
    and - when nonces are required - the nonce is not blank, its transaction
    commits and no unexpired record holds it.  When it is on and nonces are
    required, it then has put the nonce of such a proof into the table until the
    skewed expiry and dropped the records that had run out; otherwise it leaves the
    table.  A refusal records nothing: it leaves the table, or, for a replay, what
    has not run out. *)
Theorem gate_accepts_exactly c t :
  let cfg := gc_config c in
  ((enforce c t).1 = inr tt <->
     pg_enabled cfg = false \/
     pg_enabled cfg = true /\
     exists claims pk, valid_proof cfg (gc_request c) (gc_verified_at c) claims pk /\
       (pg_require_nonce cfg = true -> trim (pc_nonce claims) <> [] /\ gc_commits c = true /\
          forall retain at_, t !! (b64_encode pk, trim (pc_nonce claims)) = Some (retain, at_) -> retain < gc_consumed_at c)) /\
  match enforce c t with
  | (inr _, t') =>
      if pg_enabled cfg && pg_require_nonce cfg then
        exists claims pk, valid_proof cfg (gc_request c) (gc_verified_at c) claims pk /\
          t' = <[(b64_encode pk, trim (pc_nonce claims)) := (nc_retain_until (proof_record cfg claims pk), gc_consumed_at c)]>
                 (unexpired (gc_consumed_at c) t)
      else t' = t
  | (inl (ReplayedNonce _), t') => t' = unexpired (gc_consumed_at c) t
  | (inl _, t') => t' = t
  end.
Proof.
  intros cfg. split; [|apply enforce_records]. rewrite enforce_accepts. fold cfg. split.
  - intros (o & [[Hoff ->]|(Hon & claims & pk & Hv & Hn)]%enforce_with_config_spec & Ho); [by left|right].
    split; [done|]. exists claims, pk. split; [done|]. intros Er.
    apply nonce_to_consume_spec in Hn as [[? _]|(_ & Hne & ->)]; [congruence|].
    destruct (Ho _ eq_refl) as [Hcm Hold]. done.
  - intros [Hoff|(Hon & claims & pk & Hv & Hn)].
    + exists None. split; [|done]. apply enforce_with_config_spec. by left.
    + exists (if pg_require_nonce cfg then Some (proof_record cfg claims pk) else None). split.
      * apply enforce_with_config_spec. right. split; [done|]. exists claims, pk. split; [done|].
        apply nonce_to_consume_spec. destruct (pg_require_nonce cfg); naive_solver.
      * destruct (pg_require_nonce cfg); [|done]. intros nc [= <-]. by destruct (Hn eq_refl) as (_ & ? & ?).
Qed.

(** ** How often a nonce is accepted *)

Lemma consume_keeps (nc : NonceConsume) (now : Z) (commits : bool) (t : NonceTable) (k : ustr * ustr) (retain at_ : Z) :
  t !! k = Some (retain, at_) -> now <= retain ->
  (consume_nonce_durably nc now commits t).2 !! k = Some (retain, at_).
Proof.
  intros Hk Hle. assert (filter (fun kv => ~ kv.2.1 < now) t !! k = Some (retain, at_)) as Hf.
  { apply map_lookup_filter_Some. split; [done|]. simpl. lia. }
  unfold consume_nonce_durably, consume_proof_nonce. destruct commits; [|done]. simpl.
  destruct (filter _ t !! (nc_issuer_key nc, nc_nonce nc)) eqn:E; [done|]. cbn [snd].
  rewrite lookup_insert_ne; [done|]. intros <-. by rewrite Hf in E.
Qed.

Lemma enforce_keeps c t k retain at_ :
  t !! k = Some (retain, at_) -> gc_consumed_at c <= retain -> (enforce c t).2 !! k = Some (retain, at_).
Proof. unfold enforce. destruct (enforce_with_config _ _ _) as [e|[nc|]]; [done|apply consume_keeps|done]. Qed.

Lemma run_gate_keeps calls : forall t k retain at_,
  t !! k = Some (retain, at_) -> Forall (fun c => gc_consumed_at c <= retain) calls ->
  (run_gate calls t).2 !! k = Some (retain, at_).
Proof.
  induction calls as [|c calls IH]; intros t k retain at_ Hk; [done|]. intros [Hc Hall]%Forall_cons. cbn [run_gate].
  pose proof (enforce_keeps c t k retain at_ Hk Hc) as H1. destruct (enforce c t) as [r t1]. cbn [snd] in H1.
  specialize (IH t1 k retain at_ H1 Hall). by destruct (run_gate calls t1).
Qed.

(** What one proof records does not depend on when or for whom it is verified. *)
Lemma same_proof_same_record cfg request request' now now' nc nc' :
  enforce_with_config cfg request now = inr (Some nc) -> enforce_with_config cfg request' now' = inr (Some nc') ->
  rq_proof request' = rq_proof request -> nc' = nc.
Proof.
  intros [[_ ?]|(_ & claims & pk & (raw & Hr & _ & Hs & _) & Hn)]%enforce_with_config_spec; [done|].
  intros [[_ ?]|(_ & claims' & pk' & (raw' & Hr' & _ & Hs' & _) & Hn')]%enforce_with_config_spec; [done|]. intros Ep.
  rewrite Hr, Hr' in Ep. injection Ep as ->. apply authenticate_spec in Hs, Hs'. rewrite Hs in Hs'.
  injection Hs' as <- <-. rewrite Hn in Hn'. by injection Hn'.
Qed.

Lemma verified_before_retention cfg request now nc :
  enforce_with_config cfg request now = inr (Some nc) -> now <= nc_retain_until nc.
Proof.
  intros [[_ ?]|(_ & claims & pk & (raw & _ & _ & _ & (_ & _ & _ & Hle) & _) & Hn)]%enforce_with_config_spec; [done|].
  apply nonce_to_consume_spec in Hn as [[_ ?]|(_ & _ & [= ->])]; done.
Qed.

(** C27: a nonce is accepted at most once while its record is kept.  After an
    accepted registration, whatever calls of whatever processes follow: as long as
    no clock read at a consumption has passed the skewed expiry of the accepted
    proof, a verified proof of the same issuer with the same nonce is refused as
    a replay, or for want of the database; and if it is accepted, a consumption
    has read a time after that expiry.  The same proof under the same settings is
    in every case verified before that expiry. *)
Theorem nonce_accepted_once c t t1 nc calls c' nc' :
  enforce_with_config (gc_config c) (gc_request c) (gc_verified_at c) = inr (Some nc) ->
  enforce c t = (inr tt, t1) ->
  enforce_with_config (gc_config c') (gc_request c') (gc_verified_at c') = inr (Some nc') ->
  nc_issuer_key nc' = nc_issuer_key nc -> nc_nonce nc' = nc_nonce nc ->
  let retain := nc_retain_until nc in
  let t2 := (run_gate calls t1).2 in
  (Forall (fun k => gc_consumed_at k <= retain) (c' :: calls) ->
     (enforce c' t2).1 = inl (if gc_commits c' then ReplayedNonce (nc_nonce nc) else NonceStoreUnavailable (nc_nonce nc))) /\
  ((enforce c' t2).1 = inr tt -> exists k, In k (c' :: calls) /\ retain < gc_consumed_at k) /\
  (gc_config c' = gc_config c -> rq_proof (gc_request c') = rq_proof (gc_request c) -> gc_verified_at c' <= retain).
Proof.
  intros Hv He Hv' Hk Hn retain t2.
  assert (Forall (fun k => gc_consumed_at k <= retain) (c' :: calls) ->
     (enforce c' t2).1 = inl (if gc_commits c' then ReplayedNonce (nc_nonce nc) else NonceStoreUnavailable (nc_nonce nc))) as Hrep.
  { intros [Hc' Hall]%Forall_cons.
    assert (t2 !! (nc_issuer_key nc, nc_nonce nc) = Some (retain, gc_consumed_at c)) as Hl.
    { apply run_gate_keeps; [|done]. unfold enforce in He. rewrite Hv in He. pose proof (consume_nonce_durably_spec nc (gc_consumed_at c) (gc_commits c) t) as Hc.
      rewrite He in Hc. destruct Hc as (_ & _ & ->). apply lookup_insert_eq. }
    unfold enforce. rewrite Hv'.
    pose proof (consume_nonce_durably_spec nc' (gc_consumed_at c') (gc_commits c') t2) as Hc. rewrite Hk, Hn in Hc.
    destruct (consume_nonce_durably _ _ _ _) as [[e|[]] t3]; cbn [fst].
    - by destruct Hc as [(-> & -> & _)|(-> & -> & _)].
    - destruct Hc as (_ & Hold & _). apply Hold in Hl. lia. }
  split; [done|split].
  - intros Hacc. destruct (decide (Forall (fun k => gc_consumed_at k <= retain) (c' :: calls))) as [Hall|Hex].
    + by rewrite (Hrep Hall) in Hacc.
    + apply not_Forall_Exists, Exists_exists in Hex as (k & Hin & Hlt); [|apply _].
      exists k. split; [by apply list_elem_of_In|]. simpl in Hlt. lia.
  - intros Ec Ep. rewrite Ec in Hv'. rewrite (same_proof_same_record _ _ _ _ _ _ _ Hv Hv' Ep) in Hv'.
    exact (verified_before_retention _ _ _ _ Hv').
Qed.
End gate.

(** ** The gate in front of the tools *)

Section registration.
  Context `{lib : !SigningLib} (micros_to_iso : Z -> ustr) (enabled : bool).

(** The gate of a tool call: whatever name it lets pass, it passed a call of
    [enforce] for that name. *)
Definition gated (cfg : ProofGateConfig) (project_key : ustr) (proof : option ustr) (c : RegisterCall) (e : RegisterEnv) : Prop :=
  forall n, re_gate e n = true \/ gate_accepts (re_claim e) n = true ->
    exists call t, gc_config call = cfg /\ gc_request call = registration_request c project_key proof n /\
      (enforce call t).1 = inr tt.

(** The row a tool answers bears a name the gate let pass. *)
Definition passed (e : RegisterEnv) (row : AgentRow) : Prop :=
  exists n, (re_gate e n = true \/ gate_accepts (re_claim e) n = true) /\ eq_ignore_ascii_case n (ar_name row) = true.

Lemma same_passed e row p n :
  re_gate e n = true \/ gate_accepts (re_claim e) n = true -> same_name (ar_project row) p (ar_name row) n -> passed e row.
Proof. intros Hp [_ Hn]. exists n. split; [done|]. by apply ustr_eqb_eq. Qed.

Lemma register_row_passed c e name prof db row db' : registry_ok db ->
  match name with Some n => re_gate e n = true | None => True end ->
  register_row micros_to_iso c e name prof db = (inr row, db') -> passed e row.
Proof.
  intros Hok Hg. unfold register_row. destruct name as [n|].
  - destruct (register_agent micros_to_iso db _ _ n prof _) as [[err|row1] db1] eqn:Er; [done|]. intros [= -> _].
    apply register_registered in Er as [Hn _]; [|done]. eapply same_passed; [by left|exact Hn].
  - pose proof (fresh_name_claim micros_to_iso (re_claim e) (rg_project c) prof (re_first e) (re_draw e) (re_entropy e) db Hok) as H.
    destruct (claim_fresh_auto_named_agent _ _ _ _ _ _ _ db) as [[err|row1] db1]; [done|].
    destruct H as [[Hok1 _] Hrow]. destruct (Hrow row1 eq_refl) as ((n & Hgn & Hp & Hn) & _). destruct (bool_decide _).
    + destruct (register_agent micros_to_iso db1 _ _ _ prof _) as [[err|row2] db2] eqn:Er; [done|]. intros [= -> _].
      apply register_registered in Er as [[Hp2 Hn2] _]; [|done].
      apply (same_passed e row (rg_project c) n); [by right|]. split; [done|congruence].
    + intros [= -> _]. eapply same_passed; [by right|by split].
Qed.

Lemma create_row_passed c e name prof db row db' : registry_ok db ->
  create_row micros_to_iso c e name prof db = (inr row, db') -> passed e row.
Proof.
  intros Hok. unfold create_row. destruct name as [n|].
  - destruct (re_gate e n) eqn:Eg; [|done]. cbn [negb].
    destruct (create_agent micros_to_iso db _ _ n prof _) as [[err|row1] db1] eqn:Er; [done|]. intros [= -> _].
    apply create_registered in Er as (_ & Hn & _); [|done]. eapply same_passed; [by left|exact Hn].
  - pose proof (fresh_name_claim micros_to_iso (re_claim e) (rg_project c) prof (re_first e) (re_draw e) (re_entropy e) db Hok) as H.
    destruct (claim_fresh_auto_named_agent _ _ _ _ _ _ _ db) as [[err|row1] db1]; [done|]. intros [= -> _].
    destruct H as [_ Hrow]. destruct (Hrow row eq_refl) as ((n & Hgn & Hn) & _). eapply same_passed; [by right|exact Hn].
Qed.

Lemma issue_token_name e keep row db : ar_name (issue_token e keep row db).1 = ar_name row.
Proof. unfold issue_token. by destruct (_ || _). Qed.

Lemma tools_passed keep c e w row w' : registry_ok (registry w) ->
  register_tool micros_to_iso enabled keep c e w = (inr row, w') \/ create_tool micros_to_iso enabled c e w = (inr row, w') ->
  passed e row.
Proof.
  intros Hok. pose proof (run_ok micros_to_iso (re_between e) (registry w) Hok) as Hok0.
  assert (forall keep row db, passed e row -> passed e (issue_token e keep row db).1) as Hi.
  { intros k r db (n & H1 & H2). exists n. by rewrite issue_token_name. }
  unfold register_tool, create_tool. destruct (register_checks c) as [err|[name prof]]; [by intros [?|?]|]. intros [H|H].
  - destruct (match name with Some n => negb (re_gate e n) | None => false end) eqn:Eg; [done|].
    destruct (match (if enabled && _ then _ else _) with Some existing => _ | None => inr tt end) as [err|[]]; [done|].
    destruct (register_row _ _ _ _ _ _) as [[err|row0] db0] eqn:Er; [done|].
    assert (passed e row0) as Hp.
    { eapply register_row_passed; [exact Hok0| |exact Er]. destruct name; [by apply negb_false_iff|done]. }
    specialize (Hi keep row0 db0 Hp). destruct (issue_token e keep row0 db0) as [row1 db1]. by injection H as <- _.
  - destruct (create_row _ _ _ _ _ _) as [[err|row0] db0] eqn:Er; [done|].
    apply create_row_passed in Er; [|exact Hok0].
    specialize (Hi false row0 db0 Er). destruct (issue_token e false row0 db0) as [row1 db1]. by injection H as <- _.
Qed.

(** With the gate on, a requester of contacts is looked up, never registered. *)
Lemma gated_requester c e w : qe_gate e = true -> snd (resolve_or_register_sender micros_to_iso enabled c e w) = w.
Proof.
  intros Hg. unfold resolve_or_register_sender. cbv zeta. destruct (resolve_agent _ _ _ _) as [err|a]; [|done].
  destruct err; try done. destruct (negb _); [done|]. unfold requester_profile.
  destruct (authorize_requester_creation _ _ _ _ _); [done|]. cbn [mbind result_bind]. by rewrite Hg.
Qed.

(** C29: with the gate on, no tool registers an agent without a proof (the agents
    that the server's ACK worker and the terminal interface insert for themselves
    do not come through a tool).  Whatever row
    [register_agent] or [create_agent_identity] answers, by a given name, by a
    claimed one, fresh or held, the proof of the call was valid for a name that is
    the row's up to the case of its letters: signed by an anchor, within its window,
    for this project, program and model and covering the capabilities every agent
    is granted.  The two paths that register on behalf of others, and carry no
    proof, register nobody: resolving the requester of contacts changes neither
    the registry nor the session, and resolving the recipients of a send does not
    call the registration of its store, whatever the store. *)
Theorem gated_registration cfg project_key proof keep c e w row w' :
  pg_enabled cfg = true -> gated cfg project_key proof c e -> registry_ok (registry w) ->
  register_tool micros_to_iso enabled keep c e w = (inr row, w') \/ create_tool micros_to_iso enabled c e w = (inr row, w') ->
  (exists n now claims pk,
     eq_ignore_ascii_case n (ar_name row) = true /\
     valid_proof cfg (registration_request c project_key proof n) now claims pk) /\
  (forall c e w, qe_gate e = pg_enabled cfg -> snd (resolve_or_register_sender micros_to_iso enabled c e w) = w) /\
  (forall St (store : AgentStore St) to_lowercase send s project_id sender_id now routed,
     proof_gate_enabled send = pg_enabled cfg ->
     fst (resolve_recipients to_lowercase send s project_id sender_id now routed) = s).
Proof.
  intros Hon Hg Hok Ht. rewrite Hon. split; [|split; [intros; by apply gated_requester|intros; by apply gated_recipients]].
  destruct (tools_passed _ _ _ _ _ _ Hok Ht) as (n & Hpass & Hn).
  destruct (Hg n Hpass) as (call & t & <- & Hr & (o & [[Hoff _]|(_ & claims & pk & Hv & _)]%enforce_with_config_spec & _)%enforce_accepts);
    [congruence|]. rewrite Hr in Hv. by exists n, (gc_verified_at call), claims, pk.
Qed.
End registration.

(** ** Concrete runs *)

(** The cross-language vector of the repository's tests. *)
Definition vector_claims : ProofClaims :=
  mkClaims (u "BlueLake") (u "/" ++ [233%N]) (u "agent" ++ LF :: u "x") [] (map u ["b"; "a"; "a"]%string) 1000 1120
    [110; 0; 120]%N.

Lemma canonical_vector :
  canonical_message vector_claims =
  join [LF] (map u ["agent-mail-registration-proof:v2"; "identity=8:BlueLake"]%string ++ [u "project_key=3:/" ++ [233%N]] ++
    map u ["program=7:agent"; "x"; "model=0:"; "capabilities=2"; "capability=1:a"; "capability=1:b"; "issued_at=1000";
           "expires_at=1120"]%string ++ [u "nonce=3:n" ++ [0%N] ++ u "x"; []]).
Proof. vm_compute. reflexivity. Qed.

(** Libraries for the runs: base64 and keys are plain bytes, and a signature
    repeats the first bytes of what it signs. *)
Definition run_claims : ProofClaims :=
  mkClaims (u "BlueLake") (u "/p") (u "codex-cli") (u "gpt-5") DEFAULT_AGENT_CAPABILITIES 1000 1120 (u "n-1").
Definition run_key : ustr := u "0123456789abcdef0123456789abcdef".
Definition run_bundle : ProofBundle := mkBundle run_claims run_key (firstn 64 (canonical_message run_claims)).
#[local] Instance run_lib : SigningLib := {|
  VerifyingKey := list N;
  parse_bundle s := if ustr_eqb s (u "proof") then Some run_bundle else None;
  b64_decode := Some;
  b64_encode b := b;
  key_from_bytes := Some;
  verify_strict key message signature := bool_decide (signature = firstn 64 message);
|}.
Definition run_gate_config : ProofGateConfig := mkGate true [run_key] 300 60 true.
Definition run_call (n : ustr) (verified consumed : Z) : GateCall :=
  mkCall run_gate_config (registration_request (call_as n) (u "/p") (Some (u " proof ")) n) verified consumed true.
Definition run_record : NonceConsume := mkConsume run_key (u "n-1") 1180.

Lemma accepted_pair `{lib : !SigningLib} c t : (enforce c t).1 = inr tt -> enforce c t = (inr tt, (enforce c t).2).
Proof. intros <-. by destruct (enforce c t). Qed.

Lemma run_accepted : (enforce (run_call (u "BlueLake") 1050 1051) ∅).1 = inr tt.
Proof. vm_compute. reflexivity. Qed.

Lemma nonce_accepted_once_witness :
  let t1 := (enforce (run_call (u "BlueLake") 1050 1051) ∅).2 in
  enforce (run_call (u "BlueLake") 1050 1051) ∅ = (inr tt, t1) /\
  (enforce (run_call (u "bluelake") 1170 1171) (run_gate [run_call (u "RedDog") 1100 1101] t1).2).1 = inl (ReplayedNonce (u "n-1")).
Proof.
  cbv zeta. pose proof (accepted_pair (run_call (u "BlueLake") 1050 1051) ∅ run_accepted) as He. split; [exact He|].
  refine (proj1 (nonce_accepted_once (run_call (u "BlueLake") 1050 1051) ∅ _ run_record
    [run_call (u "RedDog") 1100 1101] (run_call (u "bluelake") 1170 1171) run_record _ He _ eq_refl eq_refl) _).
  - vm_compute. reflexivity.
  - vm_compute. reflexivity.
  - repeat constructor; vm_compute; discriminate.
Defined.

(** A replay across the expiry: the second presentation is verified in the last
    second of the window and consumed in the next, when the record of the first
    is pruned; the clock never goes back. *)
Lemma replay_accepted_across_expiry :
  (run_gate [run_call (u "BlueLake") 1180 1180; run_call (u "BlueLake") 1180 1181] ∅).1 = [inr tt; inr tt].
Proof. vm_compute. reflexivity. Qed.

(** A lifetime beyond [i64] wraps below the maximum: the claims of all time pass
    the window of the default settings at every time. *)
Lemma unbounded_lifetime_passes now :
  in_i64 now ->
  check_window default_gate (mkClaims [] [] [] [] [] i64_min i64_max []) now = inr tt.
Proof.
  intros [H1 H2]. apply check_window_spec. unfold in_window. cbn [pc_issued_at pc_expires_at]. split_and!; [done|done| |].
  - by change (i64_min <= now).
  - by change (now <= i64_max).
Qed.

Definition gated_env : RegisterEnv :=
  let answers n := match (enforce (run_call n 1050 1051) ∅).1 with inr _ => true | inl _ => false end in
  mkRegisterEnv 50 false [] true true (u "t9") true answers promptly
    (mkClaimEnv (fun _ => []) (fun n => Z.of_nat n) (fun _ => false) (fun _ => promptly) answers) (u "RedDog") (fun _ => u "RedDog") 0.
Definition gated_run : (RegisterError + AgentRow) * World :=
  create_tool witness_iso true (call_as (u "BlueLake")) gated_env (mkWorld empty_registry empty_session).

(** The same request of an unknown requester, with the gate off and on. *)
Definition requester_run (gate : bool) : (RequesterError + AgentRow) * World :=
  resolve_or_register_sender witness_iso true
    (mkRequester 7 (u "bluelake") true (Some (u "codex-cli")) (Some (u "gpt-5")) None)
    (mkRequesterEnv 50 false true gate [] promptly false) (mkWorld empty_registry empty_session).

Lemma requester_needs_the_gate_off :
  map ar_name (agent_rows (registry (snd (requester_run false)))) = [u "BlueLake"] /\
  requester_run true = (inl RequesterProofRequired, mkWorld empty_registry empty_session).
Proof. split; vm_compute; reflexivity. Qed.

Lemma gated_registration_witness :
  exists row w', gated_run = (inr row, w') /\
    exists n now claims pk, eq_ignore_ascii_case n (ar_name row) = true /\
      valid_proof run_gate_config (registration_request (call_as (u "BlueLake")) (u "/p") (Some (u " proof ")) n) now claims pk.
Proof.
  destruct gated_run as [[err|row] w'] eqn:E; [vm_compute in E; discriminate|]. exists row, w'. split; [done|].
  refine (proj1 (gated_registration witness_iso true run_gate_config (u "/p") (Some (u " proof ")) true (call_as (u "BlueLake"))
    gated_env (mkWorld empty_registry empty_session) row w' eq_refl _ empty_registry_ok (or_intror E))).
  intros n Hn. exists (run_call n 1050 1051), ∅. split; [reflexivity|split; [reflexivity|]].
  cbn [gated_env re_gate re_claim gate_accepts] in Hn.
  destruct (enforce (run_call n 1050 1051) ∅).1 as [|[]]; [destruct Hn as [Hn|Hn]; discriminate Hn|reflexivity].
Defined.
