(* ===== verification/ArchiveBacklog.v ===== *)
(** * The archive retry backlog ([storage/src/lib.rs])

    Archive writes that the write-behind queue did not take are journaled in a
    directory and queued for a background thread, which writes them, retries them
    and in the end sets them aside.  The functions are the critical sections of
    the source; [System] interleaves them: processes that push, drain, crash and
    recover on one directory.  JSON is that of a library. *)

From S2P Require Import Prelude.
From S2P Require Import RustStr.
From S2P Require Import AgentNames.

(** ** Archive writes *)

(** @src storage/src/lib.rs:127-133 NotificationMessage *)
Record NotificationMessage := mkNotification {
  nt_id : option Z; nt_from : option ustr; nt_subject : option ustr; nt_importance : option ustr;
}.

Section ops.
  Context {Config Json : Type}.

(** @src storage/src/lib.rs:163-198 WriteOp *)
Inductive WriteOp :=
  | MessageBundle (project_slug : ustr) (config : Config) (message_json : Json) (body_md sender : ustr)
      (recipients extra_paths : list ustr)
  | AgentProfile (project_slug : ustr) (config : Config) (agent_json : Json)
  | FileReservation (project_slug : ustr) (config : Config) (reservations : list Json)
  | NotificationSignal (config : Config) (project_slug agent_name : ustr) (metadata : option NotificationMessage)
  | ClearSignal (config : Config) (project_slug agent_name : ustr).

(** @src storage/src/lib.rs:1858-1886 PersistedWriteOp
    -- a write without its configuration. *)
Inductive PersistedWriteOp :=
  | PMessageBundle (project_slug : ustr) (message_json : Json) (body_md sender : ustr) (recipients extra_paths : list ustr)
  | PAgentProfile (project_slug : ustr) (agent_json : Json)
  | PFileReservation (project_slug : ustr) (reservations : list Json)
  | PNotificationSignal (project_slug agent_name : ustr) (metadata : option NotificationMessage)
  | PClearSignal (project_slug agent_name : ustr).

(** @src storage/src/lib.rs:1889-1942 PersistedWriteOp::from_op *)
Definition from_op (op : WriteOp) : PersistedWriteOp :=
  match op with
  | MessageBundle slug _ json body sender recipients extra => PMessageBundle slug json body sender recipients extra
  | AgentProfile slug _ json => PAgentProfile slug json
  | FileReservation slug _ reservations => PFileReservation slug reservations
  | NotificationSignal _ slug agent metadata => PNotificationSignal slug agent metadata
  | ClearSignal _ slug agent => PClearSignal slug agent
  end.

(** @src storage/src/lib.rs:1944-1998 PersistedWriteOp::into_op *)
Definition into_op (p : PersistedWriteOp) (config : Config) : WriteOp :=
  match p with
  | PMessageBundle slug json body sender recipients extra => MessageBundle slug config json body sender recipients extra
  | PAgentProfile slug json => AgentProfile slug config json
  | PFileReservation slug reservations => FileReservation slug config reservations
  | PNotificationSignal slug agent metadata => NotificationSignal config slug agent metadata
  | PClearSignal slug agent => ClearSignal config slug agent
  end.
End ops.
Arguments WriteOp : clear implicits.
Arguments PersistedWriteOp : clear implicits.

(** ** The journal directory *)

(** The top level of the directory, which recovery reads, and the two places
    files are moved to; [.json.tmp] and [.corrupt] files are never read again. *)
Record JournalDir := mkJournal { pending : gmap ustr (list N); resolved : gmap ustr (list N); failed : gmap ustr (list N) }.

(** What the library does: [serde_json::to_vec] and [from_slice]. *)
Class OpJson (Json : Type) := {
  to_vec : PersistedWriteOp Json -> option (list N);
  from_slice : list N -> option (PersistedWriteOp Json);
}.
Class OpJsonLaws (Json : Type) `{!OpJson Json} :=
  from_to_vec p bytes : to_vec p = Some bytes -> from_slice bytes = Some p.

Definition zero_pad (width : nat) (s : ustr) : ustr := replicate (width - length s) (ch "0") ++ s.

(** How far a write to the journal gets. *)
Inductive JournalFate := DirFails | TmpFails | RenameFails | Lands.

Section journal.
  Context {Config Json : Type} `{!OpJson Json}.
#[local] Abbreviation Op := (WriteOp Config Json).

(** @src storage/src/lib.rs:2399-2404 archive_backlog_journal_write
    -- the name of the file. *)
Definition journal_name (now_micros pid seq : Z) : ustr :=
  zero_pad 20 (dec now_micros) ++ u "-p" ++ dec pid ++ u "-" ++ zero_pad 10 (dec seq) ++ u ".json".

(** @src storage/src/lib.rs:2381-2418 archive_backlog_journal_write
    -- the file gets its name once it is written and synced; [None]: the write
    lives in memory only. *)
Definition archive_backlog_journal_write (fate : JournalFate) (name : ustr) (op : Op) (d : JournalDir) :
    option ustr * JournalDir :=
  match fate with
  | DirFails => (None, d)
  | _ =>
      match to_vec (from_op op) with
      | None => (None, d)
      | Some bytes =>
          match fate with
          | Lands => (Some name, mkJournal (<[name := bytes]> (pending d)) (resolved d) (failed d))
          | _ => (None, d)
          end
      end
  end.

(** @src storage/src/lib.rs:1799-1803 ARCHIVE_BACKLOG_DEAD_LETTER_MAX_BYTES *)
Definition ARCHIVE_BACKLOG_DEAD_LETTER_MAX_BYTES : Z := 10 * 1024 * 1024.

(** @src storage/src/lib.rs:2268-2339 archive_backlog_dead_letter_append
    -- the ledger is a list of attempts and serialised writes; [existing_len] its
    length in bytes, [dir_ok] and [io_ok] what the file system allows. *)
Definition archive_backlog_dead_letter_append (dir_ok io_ok : bool) (existing_len : Z) (op : Op) (attempts : Z)
    (ledger : list (Z * list N)) : list (Z * list N) :=
  if negb dir_ok then ledger
  else if ARCHIVE_BACKLOG_DEAD_LETTER_MAX_BYTES <=? existing_len then ledger
  else match to_vec (from_op op) with
       | None => ledger
       | Some op_value => if io_ok then ledger ++ [(attempts, op_value)] else ledger
       end.

Inductive Subdir := SubResolved | SubFailed.

(** @src storage/src/lib.rs:2430-2464 archive_backlog_quarantine_file, archive_backlog_journal_resolve
    -- [moves]: the directory could be made and the file renamed. *)
Definition archive_backlog_quarantine_file (name : ustr) (subdir : Subdir) (moves : bool) (d : JournalDir) : JournalDir :=
  match pending d !! name with
  | Some bytes =>
      if moves then
        match subdir with
        | SubResolved => mkJournal (delete name (pending d)) (<[name := bytes]> (resolved d)) (failed d)
        | SubFailed => mkJournal (delete name (pending d)) (resolved d) (<[name := bytes]> (failed d))
        end
      else d
  | None => d
  end.

(** ** The queue in memory *)

(** @src storage/src/lib.rs:2000-2009 ArchiveBacklogEntry
    -- without the instant that ages are taken from. *)
Record ArchiveBacklogEntry := mkEntry { e_op : Op; e_journal : option ustr; e_attempts : Z }.

(** @src storage/src/lib.rs:2011-2033 ArchiveRetryBacklog *)
Record ArchiveRetryBacklog := mkBacklog {
  queue : list ArchiveBacklogEntry; depth : Z; reserved : Z;
  enqueued_total : Z; drained_total : Z; dropped_total : Z; dead_lettered_total : Z; ephemeral_total : Z;
}.

(** @src storage/src/lib.rs:2049-2062 ArchiveRetryBacklog::new *)
Definition new_backlog : ArchiveRetryBacklog := mkBacklog [] 0 0 0 0 0 0 0.

(** @src storage/src/lib.rs:1836-1853 ArchiveBacklogPush *)
Inductive ArchiveBacklogPush := Queued | QueuedEphemeral | Dropped.

(** @src storage/src/lib.rs:1790-1798 ARCHIVE_BACKLOG_MAX_ATTEMPTS *)
Definition ARCHIVE_BACKLOG_MAX_ATTEMPTS : Z := 8.

(** [AtomicU64::fetch_add] and [fetch_sub] by one. *)
Definition inc (n : Z) : Z := u64_wrap (n + 1).
Definition dec1 (n : Z) : Z := u64_wrap (n - 1).

(** @src storage/src/lib.rs:2064-2069 ArchiveRetryBacklog::store_depth
    -- with the queue it mirrors. *)
Definition store_queue (q : list ArchiveBacklogEntry) (b : ArchiveRetryBacklog) : ArchiveRetryBacklog :=
  mkBacklog q (Z.of_nat (length q)) (reserved b) (enqueued_total b) (drained_total b) (dropped_total b)
    (dead_lettered_total b) (ephemeral_total b).

(** @src storage/src/lib.rs:2080-2104 ArchiveRetryBacklog::push
    -- the first critical section: whether a slot was reserved. *)
Definition reserve_slot (cap : Z) (b : ArchiveRetryBacklog) : bool * ArchiveRetryBacklog :=
  let occupied := usat_add (Z.of_nat (length (queue b))) (reserved b) in
  if cap <=? occupied then
    (false, mkBacklog (queue b) (depth b) (reserved b) (enqueued_total b) (drained_total b) (inc (dropped_total b))
              (dead_lettered_total b) (ephemeral_total b))
  else
    (true, mkBacklog (queue b) (depth b) (inc (reserved b)) (enqueued_total b) (drained_total b) (dropped_total b)
             (dead_lettered_total b) (ephemeral_total b)).

(** @src storage/src/lib.rs:2107-2138 ArchiveRetryBacklog::push
    -- the second critical section and the answer. *)
Definition enqueue_reserved (op : Op) (journal_path : option ustr) (b : ArchiveRetryBacklog) :
    ArchiveBacklogPush * ArchiveRetryBacklog :=
  let b := store_queue (queue b ++ [mkEntry op journal_path 0]) b in
  let durable := match journal_path with Some _ => true | None => false end in
  (if durable then Queued else QueuedEphemeral,
   mkBacklog (queue b) (depth b) (dec1 (reserved b)) (inc (enqueued_total b)) (drained_total b) (dropped_total b)
     (dead_lettered_total b) (if durable then ephemeral_total b else inc (ephemeral_total b))).

(** @src storage/src/lib.rs:2080-2138 ArchiveRetryBacklog::push
    -- by itself. *)
Definition push (op : Op) (cap : Z) (fate : JournalFate) (name : ustr) (b : ArchiveRetryBacklog) (d : JournalDir) :
    ArchiveBacklogPush * ArchiveRetryBacklog * JournalDir :=
  match reserve_slot cap b with
  | (false, b) => (Dropped, b, d)
  | (true, b) =>
      let '(journal_path, d) := archive_backlog_journal_write fate name op d in
      (enqueue_reserved op journal_path b, d)
  end.

(** @src storage/src/lib.rs:2141-2155 ArchiveRetryBacklog::push_recovered *)
Definition push_recovered (op : Op) (journal_path : ustr) (b : ArchiveRetryBacklog) : ArchiveRetryBacklog :=
  let b := store_queue (queue b ++ [mkEntry op (Some journal_path) 0]) b in
  mkBacklog (queue b) (depth b) (reserved b) (inc (enqueued_total b)) (drained_total b) (dropped_total b)
    (dead_lettered_total b) (ephemeral_total b).

(** ** Draining *)

(** @src storage/src/lib.rs:2189-2197 ArchiveRetryBacklog::drain_step
    -- the front was written. *)
Definition pop_materialized (b : ArchiveRetryBacklog) : ArchiveRetryBacklog :=
  let b := store_queue (tail (queue b)) b in
  mkBacklog (queue b) (depth b) (reserved b) (enqueued_total b) (inc (drained_total b)) (dropped_total b)
    (dead_lettered_total b) (ephemeral_total b).

(** @src storage/src/lib.rs:2219-2228 ArchiveRetryBacklog::drain_step
    -- the front stays for another attempt. *)
Definition keep_front (attempts : Z) (b : ArchiveRetryBacklog) : ArchiveRetryBacklog :=
  mkBacklog (match queue b with e :: q => mkEntry (e_op e) (e_journal e) attempts :: q | [] => [] end)
    (depth b) (reserved b) (enqueued_total b) (drained_total b) (dropped_total b) (dead_lettered_total b) (ephemeral_total b).

(** @src storage/src/lib.rs:2244-2260 ArchiveRetryBacklog::dead_letter_front
    -- the critical section: the journal of the entry it removes. *)
Definition pop_dead (b : ArchiveRetryBacklog) : option ustr * ArchiveRetryBacklog :=
  let journal := match queue b with e :: _ => e_journal e | [] => None end in
  let b := store_queue (tail (queue b)) b in
  (journal, mkBacklog (queue b) (depth b) (reserved b) (enqueued_total b) (drained_total b) (dropped_total b)
              (inc (dead_lettered_total b)) (ephemeral_total b)).

(** @src storage/src/lib.rs:2037-2046 ArchiveBacklogDrainStep *)
Inductive ArchiveBacklogDrainStep := Empty | Materialized | RetryLater (attempts : Z) | DeadLettered.

Definition retire (journal : option ustr) (subdir : Subdir) (moves : bool) (d : JournalDir) : JournalDir :=
  match journal with Some name => archive_backlog_quarantine_file name subdir moves d | None => d end.

(** @src storage/src/lib.rs:2175-2260 ArchiveRetryBacklog::drain_step, dead_letter_front
    -- by itself, when the write succeeds or not ([writes]) and the journal file
    can be moved or not. *)
Definition drain_step (writes moves : bool) (b : ArchiveRetryBacklog) (d : JournalDir) :
    ArchiveBacklogDrainStep * ArchiveRetryBacklog * JournalDir :=
  match queue b with
  | [] => (Empty, b, d)
  | e :: _ =>
      if writes then (Materialized, pop_materialized b, retire (e_journal e) SubResolved moves d)
      else
        let next_attempts := e_attempts e + 1 in
        if ARCHIVE_BACKLOG_MAX_ATTEMPTS <=? next_attempts then
          let '(journal, b) := pop_dead b in (DeadLettered, b, retire journal SubFailed moves d)
        else (RetryLater next_attempts, keep_front next_attempts b, d)
  end.

(** @src storage/src/lib.rs:2503-2521 archive_backlog_drain_loop
    -- [n] rounds; [writes i] is the outcome of the write of round [i], and the
    answers are listed. *)
Fixpoint drain_rounds (n : nat) (writes moves : nat -> bool) (i : nat) (b : ArchiveRetryBacklog) (d : JournalDir) :
    list (option ArchiveBacklogEntry * ArchiveBacklogDrainStep) * ArchiveRetryBacklog * JournalDir :=
  match n with
  | O => ([], b, d)
  | S n =>
      let '(s, b', d') := drain_step (writes i) (moves i) b d in
      let '(ss, b'', d'') := drain_rounds n writes moves (S i) b' d' in
      ((head (queue b), s) :: ss, b'', d'')
  end.

(** ** Recovery *)

(** @src storage/src/lib.rs:2568-2592 archive_backlog_recover
    -- one file of the listing [d]; one that does not parse is renamed out of the
    way when it can be. *)
Definition recover_file (config : Config) (readable renames : ustr -> bool) (d : JournalDir)
    (bd : ArchiveRetryBacklog * JournalDir) (name : ustr) : ArchiveRetryBacklog * JournalDir :=
  match pending d !! name with
  | Some bytes =>
      if readable name then
        match from_slice bytes with
        | Some p => (push_recovered (into_op p config) name bd.1, bd.2)
        | None => (bd.1, if renames name then mkJournal (delete name (pending bd.2)) (resolved bd.2) (failed bd.2) else bd.2)
        end
      else bd
  | None => bd
  end.

(** @src storage/src/lib.rs:2548-2602 archive_backlog_recover
    -- [readable]: whose bytes can be read. *)
Definition archive_backlog_recover (config : Config) (readable renames : ustr -> bool) (b : ArchiveRetryBacklog)
    (d : JournalDir) : ArchiveRetryBacklog * JournalDir :=
  foldl (recover_file config readable renames d) (b, d) (merge_sort str_le (elements (dom (pending d)))).

(** ** Processes on one directory *)

(** A push between its critical sections. *)
Inductive Pusher := Reserved (op : Op) | Journaled (op : Op) (journal_path : option ustr).

(** The drain thread between the critical sections of [drain_step]: the write is
    under way, succeeded or failed; the ledger was written; a journal file is
    about to be moved. *)
Inductive Drainer :=
  | Idle
  | Writing (e : ArchiveBacklogEntry)
  | Wrote (e : ArchiveBacklogEntry)
  | Refused (e : ArchiveBacklogEntry)
  | Ledgered (e : ArchiveBacklogEntry)
  | Retiring (journal : option ustr) (subdir : Subdir).

(** [recovered]: how many entries recovery queued. *)
Record Process := mkProcess {
  backlog : ArchiveRetryBacklog; pushers : list Pusher; drainer : Drainer; recovered : Z;
}.
Definition fresh_process : Process := mkProcess new_backlog [] Idle 0.

(** The processes by id, the directory and the ledger; then what happened: every
    name a file ever had, what was journaled under which name, the writes that
    reached the archive, those that failed for the last time, and the pushes that
    were answered [Queued]. *)
Record System := mkSystem {
  procs : gmap Z Process; dir : JournalDir; ledger : list (Z * list N);
  names : gset ustr; journaled : gmap ustr (PersistedWriteOp Json);
  archive : list (PersistedWriteOp Json); given_up : list (PersistedWriteOp Json);
  acknowledged : list (ustr * PersistedWriteOp Json);
}.

Definition with_proc (pid : Z) (p : Process) (s : System) : System :=
  mkSystem (<[pid := p]> (procs s)) (dir s) (ledger s) (names s) (journaled s) (archive s) (given_up s) (acknowledged s).
Definition with_dir (d : JournalDir) (s : System) : System :=
  mkSystem (procs s) d (ledger s) (names s) (journaled s) (archive s) (given_up s) (acknowledged s).
Definition with_backlog (b : ArchiveRetryBacklog) (p : Process) : Process := mkProcess b (pushers p) (drainer p) (recovered p).
Definition with_drainer (dr : Drainer) (p : Process) : Process := mkProcess (backlog p) (pushers p) dr (recovered p).

Inductive Event :=
  | EStart (pid : Z) | ECrash (pid : Z) | ERecover (pid : Z) | EForeign (name : ustr)
  | EReserve (pid : Z) | EDrop (pid : Z) | EJournal (pid : Z) | EEnqueue (pid : Z)
  | EPeek (pid : Z) | EWrite (pid : Z) | EFinish (pid : Z) | EGiveUp (pid : Z) | ERetire (pid : Z) | EThreadDies (pid : Z).

(** One critical section, write or move of some process, or a crash.  A journal
    file gets a name no file ever had: it holds the microsecond, the process and
    its sequence number. *)
Inductive system_step (config : Config) (cap : Z) : System -> Event -> System -> Prop :=
  | step_start s pid : procs s !! pid = None ->
      system_step config cap s (EStart pid) (with_proc pid fresh_process s)
  | step_crash s pid p : procs s !! pid = Some p ->
      system_step config cap s (ECrash pid)
        (mkSystem (delete pid (procs s)) (dir s) (ledger s) (names s) (journaled s) (archive s) (given_up s) (acknowledged s))
  | step_recover s pid p readable renames b d : procs s !! pid = Some p ->
      archive_backlog_recover config readable renames (backlog p) (dir s) = (b, d) ->
      system_step config cap s (ERecover pid)
        (with_dir d (with_proc pid (mkProcess b (pushers p) (drainer p)
           (recovered p + Z.of_nat (length (queue b)) - Z.of_nat (length (queue (backlog p))))) s))
  | step_foreign s name bytes : journaled s !! name = None ->
      system_step config cap s (EForeign name)
        (mkSystem (procs s) (mkJournal (<[name := bytes]> (pending (dir s))) (resolved (dir s)) (failed (dir s))) (ledger s)
           ({[name]} ∪ names s) (journaled s) (archive s) (given_up s) (acknowledged s))
  | step_reserve s pid p op b : procs s !! pid = Some p -> reserve_slot cap (backlog p) = (true, b) ->
      system_step config cap s (EReserve pid)
        (with_proc pid (mkProcess b (pushers p ++ [Reserved op]) (drainer p) (recovered p)) s)
  | step_drop s pid p b : procs s !! pid = Some p -> reserve_slot cap (backlog p) = (false, b) ->
      system_step config cap s (EDrop pid) (with_proc pid (with_backlog b p) s)
  | step_journal s pid p i op fate name path d : procs s !! pid = Some p -> pushers p !! i = Some (Reserved op) ->
      name ∉ names s ->
      archive_backlog_journal_write fate name op (dir s) = (path, d) ->
      system_step config cap s (EJournal pid)
        (mkSystem (<[pid := mkProcess (backlog p) (<[i := Journaled op path]> (pushers p)) (drainer p) (recovered p)]> (procs s))
           d (ledger s) ({[name]} ∪ names s) (match path with Some n => <[n := from_op op]> (journaled s) | None => journaled s end)
           (archive s) (given_up s) (acknowledged s))
  | step_enqueue s pid p i op path answer b : procs s !! pid = Some p -> pushers p !! i = Some (Journaled op path) ->
      enqueue_reserved op path (backlog p) = (answer, b) ->
      system_step config cap s (EEnqueue pid)
        (mkSystem (<[pid := mkProcess b (delete i (pushers p)) (drainer p) (recovered p)]> (procs s)) (dir s) (ledger s) (names s) (journaled s)
           (archive s) (given_up s)
           (match answer, path with Queued, Some n => acknowledged s ++ [(n, from_op op)] | _, _ => acknowledged s end))
  | step_peek s pid p e : procs s !! pid = Some p -> drainer p = Idle -> head (queue (backlog p)) = Some e ->
      system_step config cap s (EPeek pid) (with_proc pid (with_drainer (Writing e) p) s)
  | step_write s pid p e (ok : bool) : procs s !! pid = Some p -> drainer p = Writing e ->
      system_step config cap s (EWrite pid)
        (mkSystem (<[pid := with_drainer (if ok then Wrote e else Refused e) p]> (procs s)) (dir s) (ledger s) (names s) (journaled s)
           (if ok then archive s ++ [from_op (e_op e)] else archive s) (given_up s) (acknowledged s))
  | step_materialized s pid p e : procs s !! pid = Some p -> drainer p = Wrote e ->
      system_step config cap s (EFinish pid)
        (with_proc pid (mkProcess (pop_materialized (backlog p)) (pushers p) (Retiring (e_journal e) SubResolved) (recovered p)) s)
  | step_retry s pid p e : procs s !! pid = Some p -> drainer p = Refused e ->
      e_attempts e + 1 < ARCHIVE_BACKLOG_MAX_ATTEMPTS ->
      system_step config cap s (EFinish pid)
        (with_proc pid (mkProcess (keep_front (e_attempts e + 1) (backlog p)) (pushers p) Idle (recovered p)) s)
  | step_give_up s pid p e dir_ok io_ok existing_len : procs s !! pid = Some p -> drainer p = Refused e ->
      ARCHIVE_BACKLOG_MAX_ATTEMPTS <= e_attempts e + 1 ->
      system_step config cap s (EGiveUp pid)
        (mkSystem (<[pid := with_drainer (Ledgered e) p]> (procs s)) (dir s)
           (archive_backlog_dead_letter_append dir_ok io_ok existing_len (e_op e) (e_attempts e + 1) (ledger s))
           (names s) (journaled s) (archive s) (given_up s ++ [from_op (e_op e)]) (acknowledged s))
  | step_dead s pid p e journal b : procs s !! pid = Some p -> drainer p = Ledgered e -> pop_dead (backlog p) = (journal, b) ->
      system_step config cap s (EFinish pid)
        (with_proc pid (mkProcess b (pushers p) (Retiring journal SubFailed) (recovered p)) s)
  | step_retire s pid p journal subdir moves : procs s !! pid = Some p -> drainer p = Retiring journal subdir ->
      system_step config cap s (ERetire pid)
        (with_dir (retire journal subdir moves (dir s)) (with_proc pid (with_drainer Idle p) s))
  | step_thread_dies s pid p : procs s !! pid = Some p ->
      system_step config cap s (EThreadDies pid) (with_proc pid (with_drainer Idle p) s).
End journal.
Arguments ArchiveBacklogEntry : clear implicits.
Arguments ArchiveRetryBacklog : clear implicits.
Arguments Process : clear implicits.
Arguments System : clear implicits.

(** The processes start on a directory of whatever files. *)
#[export] Instance archive_lts {Config Json} `{!OpJson Json} (config : Config) (cap : Z) : LTS (System Config Json) Event := {
  lts_init s := procs s = ∅ /\ dom (pending (dir s)) ∪ dom (failed (dir s)) ⊆ names s /\ journaled s = ∅ /\ archive s = [] /\ given_up s = [] /\ acknowledged s = [];
  lts_step := system_step config cap;
}.
