(* ===== verification/ArchiveBacklogProps.v ===== *)
(** * Properties of the archive retry backlog

    What was answered as queued survives every crash; the queue is bounded; a
    poisoned write does not hold up the others; recovery finds what is left. *)

From S2P Require Import Prelude.
From S2P Require Import RustStr.
From S2P Require Import AgentNames.
From S2P Require Import ArchiveBacklog.

Section backlog.
  Context {Config Json : Type} `{!OpJson Json}.
#[local] Abbreviation Op := (WriteOp Config Json).
#[local] Abbreviation Entry := (ArchiveBacklogEntry Config Json).
#[local] Abbreviation Backlog := (ArchiveRetryBacklog Config Json).
#[local] Abbreviation Sys := (System Config Json).

Lemma from_into (p : PersistedWriteOp Json) (config : Config) : from_op (into_op p config) = p.
Proof. by destruct p. Qed.

(** ** Recovery *)

(** The entry recovery makes of a file. *)
Definition entry_of (config : Config) (d : JournalDir) (name : ustr) : option Entry :=
  bytes ← pending d !! name; p ← from_slice bytes; Some (mkEntry (into_op p config) (Some name) 0).

Lemma recover_spec config readable renames (b : Backlog) d :
  let '(b', d') := archive_backlog_recover config readable renames b d in
  queue b' = queue b ++ omap (fun n => if readable n : bool then entry_of config d n else None)
                          (merge_sort str_le (elements (dom (pending d)))) /\
  reserved b' = reserved b /\ resolved d' = resolved d /\ failed d' = failed d /\ pending d' ⊆ pending d /\
  (forall n bytes p, pending d !! n = Some bytes -> from_slice bytes = Some p -> pending d' !! n = Some bytes).
Proof.
  unfold archive_backlog_recover. generalize (merge_sort str_le (elements (dom (pending d)))). intros l.
  assert (forall (bd : Backlog * JournalDir),
    resolved bd.2 = resolved d /\ failed bd.2 = failed d /\ pending bd.2 ⊆ pending d /\
    (forall n bytes p, pending d !! n = Some bytes -> from_slice bytes = Some p -> pending bd.2 !! n = Some bytes) ->
    let '(b', d') := foldl (recover_file config readable renames d) bd l in
    queue b' = queue bd.1 ++ omap (fun n => if readable n : bool then entry_of config d n else None) l /\
    reserved b' = reserved bd.1 /\ resolved d' = resolved d /\ failed d' = failed d /\ pending d' ⊆ pending d /\
    (forall n bytes p, pending d !! n = Some bytes -> from_slice bytes = Some p -> pending d' !! n = Some bytes)) as H;
    [|apply (H (b, d)); by split_and!].
  induction l as [|n l IH]; intros [b1 d1] Hd; cbn [foldl omap list_omap]; [by rewrite app_nil_r|].
  remember (recover_file config readable renames d (b1, d1) n) as bd1 eqn:E1. unfold recover_file in E1. cbn [fst snd] in E1.
  destruct (if readable n then entry_of config d n else None) as [e|] eqn:Eg; unfold entry_of in Eg.
  - destruct (readable n); [|done]. destruct (pending d !! n) as [bytes|]; [|done]. cbn [mbind option_bind] in Eg.
    destruct (from_slice bytes) as [p|]; [|done]. injection Eg as <-.
    subst bd1. specialize (IH (push_recovered (into_op p config) n b1, d1) Hd). cbn [fst snd] in IH.
    destruct (foldl _ _ l) as [b' d']. destruct IH as (Hq & Hr & IH). split; [|done].
    rewrite Hq. cbn [push_recovered store_queue queue]. by rewrite <- app_assoc.
  - destruct (pending d !! n) as [bytes|] eqn:En; [|subst bd1; exact (IH (b1, d1) Hd)].
    destruct (readable n); [|subst bd1; exact (IH (b1, d1) Hd)]. cbn [mbind option_bind] in Eg.
    destruct (from_slice bytes) as [p|] eqn:Ep; [done|].
    destruct (renames n); [|subst bd1; exact (IH (b1, d1) Hd)]. subst bd1.
    refine (IH (b1, mkJournal (delete n (pending d1)) (resolved d1) (failed d1)) _). cbn [fst snd resolved failed pending] in *. destruct Hd as (H1 & H2 & H3 & H4).
    split_and!; [done|done|etrans; [apply delete_subseteq|done]|].
    intros m bs q Hm Hq. destruct (decide (m = n)) as [->|Hne]; [rewrite En in Hm; injection Hm as <-; congruence|].
    rewrite lookup_delete_ne by done. by eapply H4.
Qed.

(** ** What every state satisfies *)

(** A write under a journal name is the one that was journaled there. *)
Definition named_ok (s : Sys) (op : Op) (path : option ustr) : Prop :=
  forall n, path = Some n -> n ∈ names s /\ forall p, journaled s !! n = Some p -> p = from_op op.

Definition pusher_ok (s : Sys) (x : Pusher (Config := Config) (Json := Json)) : Prop :=
  match x with
  | Journaled op (Some n) => journaled s !! n = Some (from_op op)
  | _ => True
  end.

Definition drainer_entry (dr : Drainer (Config := Config) (Json := Json)) : option Entry :=
  match dr with Writing e | Wrote e | Refused e | Ledgered e => Some e | Idle | Retiring _ _ => None end.

(** What the drain thread knows of the write in its hands. *)
Definition drainer_ok (s : Sys) (dr : Drainer (Config := Config) (Json := Json)) : Prop :=
  match dr with
  | Wrote e => In (from_op (e_op e)) (archive s)
  | Ledgered e => In (from_op (e_op e)) (given_up s)
  | Retiring (Some n) subdir =>
      n ∈ names s /\ forall p, journaled s !! n = Some p ->
        match subdir with SubResolved => In p (archive s) | SubFailed => In p (given_up s) end
  | _ => True
  end.

Record proc_ok (cap : Z) (s : Sys) (p : Process Config Json) : Prop := {
  po_queue : Forall (fun e => named_ok s (e_op e) (e_journal e)) (queue (backlog p));
  po_pushers : Forall (pusher_ok s) (pushers p);
  po_drainer : drainer_ok s (drainer p);
  po_front : forall e, drainer_entry (drainer p) = Some e -> head (queue (backlog p)) = Some e;
  po_reserved : reserved (backlog p) = Z.of_nat (length (pushers p));
  po_recovered : 0 <= recovered p;
  po_slots : Z.of_nat (length (pushers p)) <= Z.max cap 0;
  po_bound : Z.of_nat (length (queue (backlog p))) + Z.of_nat (length (pushers p)) <= Z.max cap 0 + recovered p;
}.

(** Where a journaled write is. *)
Definition kept_somewhere (s : Sys) (n : ustr) (p : PersistedWriteOp Json) : Prop :=
  is_Some (pending (dir s) !! n) \/ In p (archive s) \/ (is_Some (failed (dir s) !! n) /\ In p (given_up s)).

Record disk_ok (s : Sys) : Prop := {
  do_names : forall n, is_Some (pending (dir s) !! n) \/ is_Some (failed (dir s) !! n) \/ is_Some (journaled s !! n) -> n ∈ names s;
  do_bytes : forall n p bytes, journaled s !! n = Some p ->
    pending (dir s) !! n = Some bytes \/ failed (dir s) !! n = Some bytes -> from_slice bytes = Some p;
  do_kept : forall n p, journaled s !! n = Some p -> kept_somewhere s n p;
  do_acknowledged : forall n p, In (n, p) (acknowledged s) -> journaled s !! n = Some p;
}.

Definition sys_ok (cap : Z) (s : Sys) : Prop := disk_ok s /\ map_Forall (fun _ p => proc_ok cap s p) (procs s).

(** Nothing that happened is undone, and used names keep their meaning. *)
Definition grows (s s' : Sys) : Prop :=
  names s ⊆ names s' /\ (forall n, n ∈ names s -> journaled s' !! n = journaled s !! n) /\
  (forall p, In p (archive s) -> In p (archive s')) /\ (forall p, In p (given_up s) -> In p (given_up s')).

Lemma proc_ok_grows cap s s' p : disk_ok s -> grows s s' -> proc_ok cap s p -> proc_ok cap s' p.
Proof.
  intros Hd (Hn & Hj & Ha & Hg) [H1 H2 H3 H4 H5 H6 Hl H7]. split; try done.
  - eapply Forall_impl; [exact H1|]. intros e He n En. destruct (He n En) as [Hin Hp].
    split; [by apply Hn|]. intros q. rewrite Hj by done. apply Hp.
  - eapply Forall_impl; [exact H2|]. intros [op|op [n|]]; [done| |done]. cbn [pusher_ok]. intros Hx.
    rewrite Hj; [done|]. apply (do_names _ Hd). right. right. by eexists.
  - destruct (drainer p) as [|e|e|e|e|[n|] subdir]; try done; [by apply Ha|by apply Hg|].
    destruct H3 as [Hin Hp]. split; [by apply Hn|]. intros q. rewrite Hj by done. intros Hq.
    destruct subdir; [by apply Ha, Hp|by apply Hg, Hp].
Qed.

(** A step of one process that is all right in the new state, and leaves a
    directory that is. *)
Lemma sys_ok_step cap s s' pid p' :
  sys_ok cap s -> grows s s' -> disk_ok s' -> procs s' = <[pid := p']> (procs s) -> proc_ok cap s' p' -> sys_ok cap s'.
Proof.
  intros [Hd Hp] Hg Hd' Ep Hp'. split; [done|]. rewrite Ep. apply map_Forall_insert_2; [done|].
  intros q x Hq. apply (proc_ok_grows _ s); [done|done|]. by apply (Hp q).
Qed.

Lemma grows_refl s s' : names s' = names s -> journaled s' = journaled s -> archive s' = archive s -> given_up s' = given_up s ->
  grows s s'.
Proof. intros E1 E2 E3 E4. unfold grows. rewrite E1, E2, E3, E4. by split_and!. Qed.

Lemma disk_ok_same s s' : dir s' = dir s -> names s' = names s -> journaled s' = journaled s -> archive s' = archive s ->
  given_up s' = given_up s -> acknowledged s' = acknowledged s -> disk_ok s -> disk_ok s'.
Proof. intros E1 E2 E3 E4 E5 E6 [H1 H2 H3 H4]. split; unfold kept_somewhere; rewrite ?E1, ?E2, ?E3, ?E4, ?E5, ?E6; done. Qed.

(** Steps that touch one process only. *)
Lemma sys_ok_local cap s pid p' : sys_ok cap s -> proc_ok cap s p' -> sys_ok cap (with_proc pid p' s).
Proof.
  intros Hs Hp'. assert (grows s (with_proc pid p' s)) as Hg by by apply grows_refl.
  eapply sys_ok_step; [exact Hs|exact Hg| |reflexivity|].
  - by apply (disk_ok_same s); [..|apply Hs].
  - apply (proc_ok_grows _ s); [apply Hs|done|done].
Qed.

(** Queues that lose their front, or get a new one for it. *)
Lemma proc_ok_queue cap s p q dr :
  proc_ok cap s p -> Forall (fun e => named_ok s (e_op e) (e_journal e)) q ->
  (length q <= length (queue (backlog p)))%nat -> drainer_ok s dr ->
  (forall e, drainer_entry dr = Some e -> head q = Some e) ->
  forall b, queue b = q -> reserved b = reserved (backlog p) -> proc_ok cap s (mkProcess b (pushers p) dr (recovered p)).
Proof.
  intros [H1 H2 H3 H4 H5 H6 H6' H7] Hq Hl Hdr Hf b Eq Er. split; cbn [backlog pushers drainer recovered]; rewrite ?Eq, ?Er; try done. lia.
Qed.

Lemma proc_ok_drainer cap s p dr :
  proc_ok cap s p -> drainer_ok s dr -> (forall e, drainer_entry dr = Some e -> head (queue (backlog p)) = Some e) ->
  proc_ok cap s (with_drainer dr p).
Proof. intros [H1 H2 H3 H4 H5 H6 H6' H7] Hdr Hf. by split. Qed.

Lemma front_tail cap s p e :
  proc_ok cap s p -> drainer_entry (drainer p) = Some e ->
  queue (backlog p) = e :: tail (queue (backlog p)) /\ named_ok s (e_op e) (e_journal e) /\
  Forall (fun e => named_ok s (e_op e) (e_journal e)) (tail (queue (backlog p))).
Proof.
  intros Hp He. pose proof (po_front _ _ _ Hp e He) as Hh. pose proof (po_queue _ _ _ Hp) as Hq.
  destruct (queue (backlog p)) as [|e' q]; [done|]. injection Hh as ->. by apply Forall_cons in Hq.
Qed.

Lemma retiring_ok s op journal subdir :
  named_ok s op journal -> In (from_op op) (match subdir with SubResolved => archive s | SubFailed => given_up s end) ->
  drainer_ok s (Retiring journal subdir).
Proof.
  intros Hn Hin. destruct journal as [n|]; [|done]. destruct (Hn n eq_refl) as [Hnm Hj]. split; [done|].
  intros p ->%Hj. by destruct subdir.
Qed.

(** The directory after a file was journaled, moved, or found. *)
Lemma journaled_disk_ok `{!OpJsonLaws Json} s fate name (op : Op) path d :
  disk_ok s -> name ∉ names s -> archive_backlog_journal_write fate name op (dir s) = (path, d) ->
  forall s', dir s' = d -> names s' = {[name]} ∪ names s ->
    journaled s' = match path with Some n => <[n := from_op op]> (journaled s) | None => journaled s end ->
    archive s' = archive s -> given_up s' = given_up s -> acknowledged s' = acknowledged s ->
  disk_ok s' /\ grows s s' /\ (forall n, path = Some n -> n = name).
Proof.
  intros [H1 H2 H3 H4] Hnew Hw s' E1 E2 E3 E4 E5 E6.
  assert ((path = None /\ d = dir s) \/ (path = Some name /\ exists bytes, to_vec (from_op op) = Some bytes /\
            d = mkJournal (<[name := bytes]> (pending (dir s))) (resolved (dir s)) (failed (dir s)))) as Hc.
  { unfold archive_backlog_journal_write in Hw. destruct fate; [by injection Hw as <- <-; left| | |];
      (destruct (to_vec (from_op op)) as [bytes|]; [|by injection Hw as <- <-; left]);
      try (by injection Hw as <- <-; left). injection Hw as <- <-. right. split; [done|]. by exists bytes. }
  destruct Hc as [[-> ->]|(-> & bytes & Hv & ->)].
  - split; [|split].
    + split; unfold kept_somewhere; rewrite ?E1, ?E2, ?E3, ?E4, ?E5, ?E6; try done.
      intros n Hn. apply elem_of_union_r. by apply H1.
    + unfold grows. rewrite E2, E3, E4, E5. split_and!; try done. set_solver.
    + done.
  - assert (journaled s !! name = None) as Hj.
    { destruct (journaled s !! name) eqn:E; [|done]. destruct Hnew. apply H1. right. right. by eexists. }
    split; [|split].
    + split; unfold kept_somewhere; rewrite ?E1, ?E2, ?E3, ?E4, ?E5, ?E6; cbn [pending failed resolved].
      * intros n Hn. destruct (decide (n = name)) as [->|Hne]; [set_solver|]. rewrite !lookup_insert_ne in Hn by done.
        apply elem_of_union_r. by apply H1.
      * intros n p bs. destruct (decide (n = name)) as [->|Hne].
        -- rewrite !lookup_insert_eq. intros [= <-] [[= <-]|Hf]; [by apply from_to_vec|].
           destruct Hnew. apply H1. right. left. by eexists.
        -- rewrite !lookup_insert_ne by done. apply H2.
      * intros n p. destruct (decide (n = name)) as [->|Hne].
        -- rewrite !lookup_insert_eq. intros _. left. by eexists.
        -- rewrite !lookup_insert_ne by done. apply H3.
      * intros n p Hin. apply H4 in Hin. rewrite lookup_insert_ne; [done|]. intros ->. by rewrite Hj in Hin.
    + unfold grows. rewrite E2, E3, E4, E5. split_and!; try done; [set_solver|]. intros n Hn. rewrite lookup_insert_ne; [done|].
      by intros ->.
    + by intros n [= <-].
Qed.

Lemma retired_disk_ok s journal subdir moves :
  disk_ok s -> drainer_ok s (Retiring journal subdir) ->
  disk_ok (with_dir (retire journal subdir moves (dir s)) s).
Proof.
  intros [H1 H2 H3 H4] Hdr. destruct journal as [n|]; [|by split]. cbn [retire]. unfold archive_backlog_quarantine_file.
  destruct Hdr as [Hn Hp]. destruct (pending (dir s) !! n) as [bytes|] eqn:En; [|by split]. destruct moves; [|by split].
  assert (forall m, is_Some (delete n (pending (dir s)) !! m) -> is_Some (pending (dir s) !! m)) as Hdel.
  { intros m [x Hx]. apply lookup_delete_Some in Hx as [_ Hx]. by eexists. }
  assert (forall m x, delete n (pending (dir s)) !! m = Some x -> pending (dir s) !! m = Some x) as Hdel'.
  { intros m x Hx. by apply lookup_delete_Some in Hx as [_ Hx]. }
  assert (forall m q, journaled s !! m = Some q -> m <> n -> is_Some (pending (dir s) !! m) -> is_Some (delete n (pending (dir s)) !! m)) as Hst
    by (intros m q _ Hne Hx; by rewrite lookup_delete_ne).
  destruct subdir; split; cbn [with_dir dir names journaled archive given_up acknowledged pending failed]; try done.
  - intros m [Hm|Hm]; apply H1; [left; by apply Hdel|by right].
  - intros m q x Hm [Hx|Hx]; eapply H2; try done; [left; by apply Hdel'|by right].
  - intros m q Hm. destruct (decide (m = n)) as [->|Hne]; [right; left; by apply Hp|].
    destruct (H3 m q Hm) as [Hx|Hx]; [left; by eapply Hst|by right].
  - intros m [Hm|[Hm|Hm]]; [apply H1; left; by apply Hdel| |apply H1; right; by right].
    destruct (decide (m = n)) as [->|Hne]; [done|]. rewrite lookup_insert_ne in Hm by done. apply H1. right. by left.
  - intros m q x Hm Hx. destruct (decide (m = n)) as [->|Hne].
    + eapply H2; [done|]. left. destruct Hx as [Hx|Hx]; [by rewrite lookup_delete_eq in Hx|]. rewrite lookup_insert_eq in Hx. congruence.
    + rewrite lookup_delete_ne, lookup_insert_ne in Hx by done. by eapply H2.
  - intros m q Hm. destruct (decide (m = n)) as [->|Hne].
    + right. right. cbn [with_dir dir failed]. rewrite lookup_insert_eq. split; [by eexists|by apply Hp].
    + destruct (H3 m q Hm) as [Hx|[Hx|[Hx Hg]]]; [left; by eapply Hst|right; by left|]. right. right.
      cbn [with_dir dir failed]. by rewrite lookup_insert_ne.
Qed.

Lemma recover_step_ok config cap s pid p readable renames b d :
  sys_ok cap s -> proc_ok cap s p -> archive_backlog_recover config readable renames (backlog p) (dir s) = (b, d) ->
  sys_ok cap (with_dir d (with_proc pid (mkProcess b (pushers p) (drainer p)
    (recovered p + Z.of_nat (length (queue b)) - Z.of_nat (length (queue (backlog p))))) s)).
Proof.
  intros Hs Hp Hr. pose proof (recover_spec config readable renames (backlog p) (dir s)) as Hspec. rewrite Hr in Hspec.
  destruct Hspec as (Hq & Hres & _ & Hfail & Hsub & Hkeep). destruct Hs as [[H1 H2 H3 H4] Hps] eqn:Es. clear Es.
  eapply (sys_ok_step cap s); [split; [by split|done]|by apply grows_refl| |reflexivity|].
  - split; unfold kept_somewhere; cbn [with_dir with_proc dir names journaled archive given_up acknowledged]; rewrite ?Hfail; try done.
    + intros n [[x Hx]|Hn]; apply H1; [left; eexists; by eapply lookup_weaken|by right].
    + intros n q x Hn [Hx|Hx]; eapply H2; try done; [left; by eapply lookup_weaken|by right].
    + intros n q Hn. destruct (H3 n q Hn) as [[x Hx]|Hk]; [left|by right]. exists x. eapply Hkeep; [done|]. eapply H2; [done|by left].
  - apply (proc_ok_grows cap s); [by split|by apply grows_refl|]. destruct Hp as [P1 P2 P3 P4 P5 P6 P6' P7].
    split; cbn [backlog pushers drainer recovered]; rewrite ?Hq, ?Hres; try done.
    + apply Forall_app. split; [done|]. apply Forall_forall. intros e (n & _ & He)%list_elem_of_omap.
      destruct (readable n); [|done]. unfold entry_of in He. destruct (pending (dir s) !! n) as [bytes|] eqn:En; [|done].
      cbn [mbind option_bind] in He. destruct (from_slice bytes) as [q|] eqn:Eq; [|done]. injection He as <-. cbn [e_op e_journal].
      intros m [= <-]. split; [apply H1; left; by eexists|]. intros q' Hq'. rewrite from_into.
      pose proof (H2 n q' bytes Hq' (or_introl En)). congruence.
    + intros e He. apply P4 in He. by destruct (queue (backlog p)).
    + rewrite length_app. lia.
    + rewrite length_app. lia.
Qed.

Lemma reserve_slot_spec cap (b : Backlog) ok b' : reserve_slot cap b = (ok, b') ->
  queue b' = queue b /\
  if ok then Z.of_nat (length (queue b)) + reserved b < cap \/ u64_max < cap else reserved b' = reserved b.
Proof.
  unfold reserve_slot. destruct (cap <=? _) eqn:E; intros [= <- <-]; (split; [done|]); [done|].
  apply Z.leb_gt in E. unfold usat_add in E. lia.
Qed.

Lemma reserve_step_ok cap s pid p op b :
  in_u64 cap -> sys_ok cap s -> proc_ok cap s p -> reserve_slot cap (backlog p) = (true, b) ->
  sys_ok cap (with_proc pid (mkProcess b (pushers p ++ [Reserved op]) (drainer p) (recovered p)) s).
Proof.
  intros Hcap Hs [P1 P2 P3 P4 P5 P6 P6' P7] Hr. apply sys_ok_local; [done|].
  destruct (reserve_slot_spec _ _ _ _ Hr) as [Hq Hlt]. unfold in_u64 in Hcap.
  assert (reserved b = reserved (backlog p) + 1) as Hb.
  { unfold reserve_slot in Hr. destruct (cap <=? _); [done|]. injection Hr as <-. cbn [reserved]. unfold inc, u64_wrap.
    apply Z.mod_small. unfold u64_max in *. lia. }
  split; cbn [backlog pushers drainer recovered]; rewrite ?Hq, ?Hb, ?length_app; try done; cbn [length]; try lia.
  apply Forall_app. split; [done|by apply Forall_singleton].
Qed.

Lemma journal_step_ok `{!OpJsonLaws Json} cap s pid p i op fate name path d :
  sys_ok cap s -> proc_ok cap s p -> pushers p !! i = Some (Reserved op) -> name ∉ names s ->
  archive_backlog_journal_write fate name op (dir s) = (path, d) ->
  sys_ok cap (mkSystem (<[pid := mkProcess (backlog p) (<[i := Journaled op path]> (pushers p)) (drainer p) (recovered p)]> (procs s))
    d (ledger s) ({[name]} ∪ names s) (match path with Some n => <[n := from_op op]> (journaled s) | None => journaled s end)
    (archive s) (given_up s) (acknowledged s)).
Proof.
  intros Hs Hp Hi Hnew Hw. set (s' := mkSystem _ _ _ _ _ _ _ _).
  destruct (journaled_disk_ok s fate name op path d (proj1 Hs) Hnew Hw s') as (Hd & Hg & Hpath); try reflexivity.
  eapply sys_ok_step; [exact Hs|exact Hg|exact Hd|reflexivity|].
  destruct (proc_ok_grows cap s s' p (proj1 Hs) Hg Hp) as [P1 P2 P3 P4 P5 P6 P6' P7].
  split; cbn [backlog pushers drainer recovered]; rewrite ?length_insert; try done.
  apply Forall_insert; [done|]. destruct path as [n|]; [|done]. cbn [pusher_ok s' journaled]. apply lookup_insert_eq.
Qed.

Lemma enqueue_step_ok cap s pid p i (op : Op) path answer b :
  in_u64 cap -> sys_ok cap s -> proc_ok cap s p -> pushers p !! i = Some (Journaled op path) ->
  enqueue_reserved op path (backlog p) = (answer, b) ->
  sys_ok cap (mkSystem (<[pid := mkProcess b (delete i (pushers p)) (drainer p) (recovered p)]> (procs s)) (dir s) (ledger s)
    (names s) (journaled s) (archive s) (given_up s)
    (match answer, path with Queued, Some n => acknowledged s ++ [(n, from_op op)] | _, _ => acknowledged s end)).
Proof.
  intros Hcap Hs Hp Hi He. set (s' := mkSystem _ _ _ _ _ _ _ _).
  assert (pusher_ok s (Journaled op path)) as Hj by (eapply Forall_lookup_1; [apply Hp|done]).
  assert (grows s s') as Hg by by apply grows_refl. pose proof (proj1 Hs) as [H1 H2 H3 H4].
  pose proof (length_delete (pushers p) i (ltac:(by eexists))) as Hdel. pose proof (lookup_lt_Some _ _ _ Hi) as Hlt.
  eapply sys_ok_step; [exact Hs|exact Hg| |reflexivity|].
  - split; try done. subst s'. cbn [acknowledged journaled]. intros n q Hin.
    assert (In (n, q) (acknowledged s) \/ (path = Some n /\ q = from_op op)) as [Ha|[-> ->]]; [|by apply H4|done].
    destruct answer, path as [m|]; try (by left). apply in_app_or in Hin as [Hin|[Hin|[]]]; [by left|right]. by injection Hin as <- <-.
  - destruct (proc_ok_grows cap s s' p (proj1 Hs) Hg Hp) as [P1 P2 P3 P4 P5 P6 P6' P7]. injection He as _ <-. unfold in_u64 in Hcap.
    split; cbn [backlog pushers drainer recovered queue store_queue reserved]; try done.
    + apply Forall_app. split; [done|]. apply Forall_singleton. cbn [e_op e_journal]. intros n ->. cbn [pusher_ok] in Hj.
      cbn [s' names journaled]. split; [apply H1; right; right; by eexists|congruence].
    + by apply Forall_delete.
    + intros e Hh. apply P4 in Hh. by destruct (queue (backlog p)).
    + rewrite P5. unfold dec1, u64_wrap. rewrite Z.mod_small; [lia|]. unfold u64_max in *. lia.
    + lia.
    + rewrite length_app. cbn [length]. lia.
Qed.

(** Steps that grow the archive or the list of the given up. *)
Lemma grown_ok cap s pid p' s' :
  sys_ok cap s -> procs s' = <[pid := p']> (procs s) -> dir s' = dir s -> names s' = names s -> journaled s' = journaled s ->
  acknowledged s' = acknowledged s -> (forall p, In p (archive s) -> In p (archive s')) ->
  (forall p, In p (given_up s) -> In p (given_up s')) -> (grows s s' -> proc_ok cap s' p') -> sys_ok cap s'.
Proof.
  intros Hs E1 E2 E3 E4 E5 Ha Hg Hp'.
  assert (grows s s') as Hgr by (unfold grows; rewrite E3, E4; by split_and!).
  eapply sys_ok_step; [exact Hs|exact Hgr| |exact E1|by apply Hp']. pose proof (proj1 Hs) as [H1 H2 H3 H4].
  split; unfold kept_somewhere; rewrite ?E2, ?E3, ?E4, ?E5; try done.
  intros n p Hn. destruct (H3 n p Hn) as [?|[?|[? ?]]]; [by left|right; left; by apply Ha|right; right; split; [done|by apply Hg]].
Qed.

Lemma step_ok `{!OpJsonLaws Json} config cap s ev s' :
  in_u64 cap -> sys_ok cap s -> system_step config cap s ev s' -> sys_ok cap s'.
Proof.
  intros Hcap Hs Hstep. pose proof (proj2 Hs) as Hps.
  destruct Hstep; try (match goal with H : procs s !! ?q = Some ?p |- _ => pose proof (Hps _ _ H) as Hp end).
  - apply sys_ok_local; [done|]. split; cbn; try done; lia.
  - destruct Hs as [Hd Hq]. split; [by apply (disk_ok_same s)|]. cbn [procs]. apply map_Forall_delete.
    intros q x Hx. apply (proc_ok_grows _ s); [done|by apply grows_refl|by apply (Hps q)].
  - by apply (recover_step_ok config cap s pid p readable renames).
  - destruct Hs as [[H1 H2 H3 H4] _]. set (s' := mkSystem _ _ _ _ _ _ _ _).
    assert (grows s s') as Hg by (split_and!; [set_solver|done..]). split.
    + split; subst s'; unfold kept_somewhere; cbn [dir names journaled archive given_up acknowledged pending failed]; try done.
      * intros n Hn. destruct (decide (n = name)) as [->|Hne]; [set_solver|]. rewrite lookup_insert_ne in Hn by done.
        apply elem_of_union_r. by apply H1.
      * intros n q x Hn. rewrite lookup_insert_ne by (intros ->; congruence). by apply H2.
      * intros n q Hn. rewrite lookup_insert_ne by (intros ->; congruence). by apply H3.
    + intros q x Hx. apply (proc_ok_grows _ s); [by split|done|by apply (Hps q)].
  - by apply reserve_step_ok.
  - apply sys_ok_local; [done|]. destruct (reserve_slot_spec _ _ _ _ H0) as [Hq Hr].
    destruct Hp as [P1 P2 P3 P4 P5 P6 P6' P7]. by split; cbn; rewrite ?Hq, ?Hr.
  - by eapply journal_step_ok.
  - by apply enqueue_step_ok.
  - apply sys_ok_local; [done|]. apply proc_ok_drainer; [done|done|]. by intros e' [= <-].
  - pose proof (po_front _ _ _ Hp e) as Hf. rewrite H0 in Hf. specialize (Hf eq_refl).
    apply (grown_ok cap s pid (with_drainer (if ok then Wrote e else Refused e) p)); try done.
    + cbn [archive]. intros q Hq. destruct ok; [apply in_or_app; by left|done].
    + intros Hg. apply proc_ok_drainer; [by apply (proc_ok_grows _ s); [apply Hs|..]| |].
      * destruct ok; [|done]. cbn. apply in_or_app. right. by left.
      * destruct ok; by intros e' [= <-].
  - destruct (front_tail cap s p e Hp) as (Hq & Hn & Ht); [by rewrite H0|]. apply sys_ok_local; [done|].
    apply (proc_ok_queue cap s p (tail (queue (backlog p)))); try done; [rewrite Hq; simpl; lia|].
    apply (retiring_ok s (e_op e)); [done|]. pose proof (po_drainer _ _ _ Hp) as Hd. by rewrite H0 in Hd.
  - destruct (front_tail cap s p e Hp) as (Hq & Hn & Ht); [by rewrite H0|]. apply sys_ok_local; [done|].
    apply (proc_ok_queue cap s p (queue (keep_front (e_attempts e + 1) (backlog p)))); try done; unfold keep_front; cbn [queue]; rewrite Hq.
    + by apply Forall_cons.
    + done.
  - pose proof (po_front _ _ _ Hp e) as Hf. rewrite H0 in Hf. specialize (Hf eq_refl).
    apply (grown_ok cap s pid (with_drainer (Ledgered e) p)); try done.
    + cbn [given_up]. intros q Hq. apply in_or_app. by left.
    + intros Hg. apply proc_ok_drainer; [by apply (proc_ok_grows _ s); [apply Hs|..]| |by intros e' [= <-]].
      cbn. apply in_or_app. right. by left.
  - destruct (front_tail cap s p e Hp) as (Hq & Hn & Ht); [by rewrite H0|]. apply sys_ok_local; [done|].
    unfold pop_dead in H1. rewrite Hq in H1. injection H1 as <- <-.
    apply (proc_ok_queue cap s p (tail (queue (backlog p)))); try done; [rewrite Hq; simpl; lia|].
    apply (retiring_ok s (e_op e)); [done|]. pose proof (po_drainer _ _ _ Hp) as Hd. by rewrite H0 in Hd.
  - assert (sys_ok cap (with_proc pid (with_drainer Idle p) s)) as [Hd' Hps'].
    { apply sys_ok_local; [done|]. by apply proc_ok_drainer. }
    split; [|intros q x Hx; apply (proc_ok_grows _ (with_proc pid (with_drainer Idle p) s)); [done|by apply grows_refl|by apply (Hps' q)]].
    apply (retired_disk_ok (with_proc pid (with_drainer Idle p) s)); [done|].
    pose proof (po_drainer _ _ _ Hp) as Hd. rewrite H0 in Hd. exact Hd.
  - apply sys_ok_local; [done|]. by apply proc_ok_drainer.
Qed.

Lemma reachable_ok `{!OpJsonLaws Json} config cap s :
  in_u64 cap -> reachable (LTS0 := archive_lts config cap) s -> sys_ok cap s.
Proof.
  intros Hcap. apply invariant_reachable. split.
  - intros s0 (E1 & E2 & E3 & E4 & E5 & E6). split; [|rewrite E1; apply map_Forall_empty]. split; rewrite ?E3, ?E6; try done.
    intros n [Hn|[Hn|[? Hn]]]; [| |done]; apply E2, elem_of_union; [left|right]; by apply elem_of_dom.
  - intros s0 ev s1 Hs. by apply step_ok.
Qed.

(** C5: what a push answered as queued is never lost.  Whatever processes push,
    drain, die, crash and recover on a directory, in whatever interleaving: a
    write that was answered [Queued] is in the archive, or still has the bytes it
    was journaled with under its name - and a process that starts then queues it
    again, if it can read the file -, or failed its last attempt and is kept with
    those that failed.  What a drain thread holds is the front of the queue, and
    no process holds more than the cap, slots of unfinished pushes included,
    beyond what recovery queued. *)
Theorem queued_write_survives `{!OpJsonLaws Json} config cap s :
  in_u64 cap -> reachable (LTS0 := archive_lts config cap) s ->
  (forall n p, In (n, p) (acknowledged s) ->
     (exists bytes, pending (dir s) !! n = Some bytes /\ from_slice bytes = Some p /\
        forall (config' : Config) readable renames, readable n = true ->
          In (mkEntry (into_op p config') (Some n) 0)
            (queue (archive_backlog_recover config' readable renames new_backlog (dir s)).1)) \/
     In p (archive s) \/
     (In p (given_up s) /\ exists bytes, failed (dir s) !! n = Some bytes /\ from_slice bytes = Some p)) /\
  (forall pid proc, procs s !! pid = Some proc ->
     (forall e, drainer_entry (drainer proc) = Some e -> head (queue (backlog proc)) = Some e) /\
     Z.of_nat (length (queue (backlog proc))) + Z.of_nat (length (pushers proc)) <= Z.max cap 0 + recovered proc).
Proof.
  intros Hcap Hr. destruct (reachable_ok config cap s Hcap Hr) as [[H1 H2 H3 H4] Hps]. split.
  - intros n p Hin%H4. destruct (H3 n p Hin) as [[bytes Hb]|[Ha|[[bytes Hb] Hg]]]; [left|by right; left|right; right].
    + exists bytes. pose proof (H2 n p bytes Hin (or_introl Hb)) as Hp. split_and!; [done..|].
      intros config' readable renames Hread. pose proof (recover_spec config' readable renames new_backlog (dir s)) as Hs.
      destruct (archive_backlog_recover _ _ _ _ _) as [b d]. cbn [fst]. destruct Hs as (-> & _). apply in_or_app. right.
      apply list_elem_of_In, list_elem_of_omap. exists n. rewrite merge_sort_Permutation, elem_of_elements, elem_of_dom, Hread.
      split; [by eexists|]. unfold entry_of. by rewrite Hb; cbn [mbind option_bind]; rewrite Hp.
    + split; [done|]. exists bytes. split; [done|]. eapply H2; [done|by right].
  - intros pid proc Hp%Hps. split; apply Hp.
Qed.

(** ** Draining *)

(** Rounds that settle an entry, and which. *)
Definition settled_by (x : option Entry * ArchiveBacklogDrainStep) : option Op :=
  match x with (Some e, (Materialized | DeadLettered)) => Some (e_op e) | _ => None end.

(** A round answers by the outcome of its write and the attempts before it. *)
Definition round_ok (writes : nat -> bool) (k : nat) (x : option Entry * ArchiveBacklogDrainStep) : Prop :=
  match x with
  | (Some e, Materialized) => writes k = true
  | (Some e, RetryLater a) => writes k = false /\ a = e_attempts e + 1 /\ a < ARCHIVE_BACKLOG_MAX_ATTEMPTS
  | (Some e, DeadLettered) => writes k = false /\ e_attempts e + 1 = ARCHIVE_BACKLOG_MAX_ATTEMPTS
  | _ => False
  end.

Definition attempts_left (q : list Entry) : nat :=
  sum_list (map (fun e => Z.to_nat (ARCHIVE_BACKLOG_MAX_ATTEMPTS - e_attempts e)) q).

Lemma attempts_left_cons e q :
  attempts_left (e :: q) = (Z.to_nat (ARCHIVE_BACKLOG_MAX_ATTEMPTS - e_attempts e) + attempts_left q)%nat.
Proof. done. Qed.

Lemma retire_pending journal subdir moves d : pending (retire journal subdir moves d) ⊆ pending d.
Proof.
  destruct journal as [n|]; [|done]. cbn [retire]. unfold archive_backlog_quarantine_file.
  destruct (pending d !! n); [|done]. destruct moves; [|done]. destruct subdir; apply delete_subseteq.
Qed.

Lemma retire_moved n subdir d : pending (retire (Some n) subdir true d) !! n = None.
Proof.
  cbn [retire]. unfold archive_backlog_quarantine_file. destruct (pending d !! n) eqn:E; [|done].
  destruct subdir; apply lookup_delete_eq.
Qed.

(** What one round does to a queue that is not empty. *)
Lemma drain_step_spec writes moves (b : Backlog) d e q :
  queue b = e :: q -> 0 <= e_attempts e < ARCHIVE_BACKLOG_MAX_ATTEMPTS ->
  let '(s, b', d') := drain_step writes moves b d in
  round_ok (fun _ => writes) 0 (Some e, s) /\ pending d' ⊆ pending d /\
  match settled_by (Some e, s) with
  | Some op => op = e_op e /\ queue b' = q /\ (moves = true -> forall n, e_journal e = Some n -> pending d' !! n = None)
  | None => d' = d /\ queue b' = mkEntry (e_op e) (e_journal e) (e_attempts e + 1) :: q /\ e_attempts e + 1 < ARCHIVE_BACKLOG_MAX_ATTEMPTS
  end.
Proof.
  intros Hq Ha. unfold drain_step. rewrite Hq. destruct writes; [|destruct (ARCHIVE_BACKLOG_MAX_ATTEMPTS <=? e_attempts e + 1) eqn:E].
  - cbn. split_and!; try done; try apply retire_pending; [by rewrite Hq|]. intros -> n ->. apply retire_moved.
  - apply Z.leb_le in E. unfold pop_dead. rewrite Hq. cbn.
    split_and!; try done; try lia; try apply retire_pending. intros -> n ->. apply retire_moved.
  - apply Z.leb_gt in E. cbn. by rewrite Hq.
Qed.

Lemma drain_rounds_settle writes moves m : forall i (b : Backlog) d,
  (attempts_left (queue b) <= m)%nat -> Forall (fun e => 0 <= e_attempts e < ARCHIVE_BACKLOG_MAX_ATTEMPTS) (queue b) ->
  exists n, (n <= attempts_left (queue b))%nat /\
  let '(log, b', d') := drain_rounds n writes moves i b d in
  queue b' = [] /\ omap settled_by log = map e_op (queue b) /\ pending d' ⊆ pending d /\
  (forall k x, log !! k = Some x -> round_ok writes (i + k) x) /\
  ((forall k, moves k = true) -> forall e j, In e (queue b) -> e_journal e = Some j -> pending d' !! j = None).
Proof.
  induction m as [m IH] using lt_wf_ind. intros i b d Hm Hall. destruct (queue b) as [|e q] eqn:Eq.
  { exists O. split; [cbn; lia|]. cbn. split_and!; try done. }
  apply Forall_cons in Hall as [He Hall]. pose proof (drain_step_spec (writes i) (moves i) b d e q Eq He) as Hs.
  destruct (drain_step (writes i) (moves i) b d) as [[s b1] d1] eqn:Ed. destruct Hs as (Hround & Hsub & Hs).
  assert (round_ok writes (i + 0) (Some e, s)) as Hr0 by (rewrite Nat.add_0_r; destruct s; done).
  assert ((attempts_left (queue b1) < attempts_left (e :: q))%nat /\
    Forall (fun e => 0 <= e_attempts e < ARCHIVE_BACKLOG_MAX_ATTEMPTS) (queue b1)) as [Hlt Hall1].
  { rewrite attempts_left_cons. destruct (settled_by (Some e, s)); [destruct Hs as (_ & -> & _)|destruct Hs as (_ & -> & Hlt)].
    - split; [unfold ARCHIVE_BACKLOG_MAX_ATTEMPTS in *; lia|done].
    - rewrite attempts_left_cons. cbn [e_attempts]. split; [unfold ARCHIVE_BACKLOG_MAX_ATTEMPTS in *; lia|].
      apply Forall_cons. cbn [e_attempts]. split; [lia|done]. }
  destruct (IH (attempts_left (queue b1)) ltac:(lia) (S i) b1 d1 (le_n _) Hall1) as (n & Hn & H).
  exists (S n). split; [lia|]. cbn [drain_rounds]. rewrite Ed, Eq.
  destruct (drain_rounds n writes moves (S i) b1 d1) as [[log b2] d2]. destruct H as (H1 & H2 & H3 & H4 & H5).
  cbn [head]. split_and!; [done| |by etrans| |].
  - cbn [omap list_omap]. rewrite H2. destruct (settled_by (Some e, s)); destruct Hs as (Hx & -> & _); [by rewrite Hx|done].
  - intros [|k] x Hk; [by injection Hk as <-|]. rewrite <- Nat.add_succ_comm. by apply H4.
  - intros Hmv e' j Hin Hj.
    destruct (settled_by (Some e, s)); [destruct Hs as (_ & Hq1 & Hjr)|destruct Hs as (_ & Hq1 & _)]; rewrite Hq1 in H5.
    + destruct Hin as [<-|Hin]; [|by apply (H5 Hmv e')]. eapply lookup_weaken_None; [|exact H3]. by apply Hjr; [apply Hmv|].
    + destruct Hin as [<-|Hin]; [|by apply (H5 Hmv e'); [right|]]. by apply (H5 Hmv _ j (or_introl eq_refl)).
Qed.

(** C16: a write that always fails does not hold up the others.  Whatever fails,
    the drain thread empties the queue within eight rounds per write: it settles
    the writes in their order, each by a success or by its eighth failure, and when
    journal files can be moved, none of the settled writes is left for a
    recovery. *)
Theorem poisoned_writes_pass writes moves i (b : Backlog) d :
  Forall (fun e => 0 <= e_attempts e < ARCHIVE_BACKLOG_MAX_ATTEMPTS) (queue b) ->
  exists n, (n <= 8 * length (queue b))%nat /\
  let '(log, b', d') := drain_rounds n writes moves i b d in
  queue b' = [] /\ omap settled_by log = map e_op (queue b) /\
  (forall k x, log !! k = Some x -> round_ok writes (i + k) x) /\
  ((forall k, moves k = true) -> forall e j, In e (queue b) -> e_journal e = Some j -> pending d' !! j = None).
Proof.
  intros Hall. destruct (drain_rounds_settle writes moves _ i b d (le_n _) Hall) as (n & Hn & H). exists n. split.
  - etrans; [exact Hn|]. clear n Hn H. induction Hall as [|e q He _ IH]; [done|].
    rewrite attempts_left_cons.
    unfold ARCHIVE_BACKLOG_MAX_ATTEMPTS in *. cbn [length]. lia.
  - destruct (drain_rounds n writes moves i b d) as [[log b'] d']. destruct H as (? & ? & _ & ? & ?). done.
Qed.
End backlog.

(** ** Concrete runs *)

#[local] Instance run_json : OpJson unit := {|
  to_vec p := match p with PClearSignal slug [] => Some slug | _ => None end;
  from_slice bytes := Some (PClearSignal bytes []);
|}.
#[local] Instance run_json_laws : OpJsonLaws unit.
Proof. intros [] bytes; try done. destruct agent_name; [|done]. by intros [= <-]. Qed.

Definition run_write : WriteOp unit unit := ClearSignal tt (u "backend") [].
Definition run_name : ustr := journal_name 1720000000000000 7 0.

(** Process 7 pushes a write and is killed before it drains. *)
Definition crashed : System unit unit :=
  mkSystem ∅ (mkJournal {[run_name := u "backend"]} ∅ ∅) [] {[run_name]} {[run_name := from_op run_write]} [] []
    [(run_name, from_op run_write)].

Lemma crashed_reachable : reachable (LTS0 := archive_lts tt 2) crashed.
Proof.
  pose (s0 := mkSystem (Config := unit) (Json := unit) ∅ (mkJournal ∅ ∅ ∅) [] ∅ ∅ [] [] []).
  assert (reachable (LTS0 := archive_lts tt 2) s0) as H0 by (apply reach_init; by split_and!).
  eapply reach_step in H0; [|apply (step_start tt 2 s0 7); reflexivity].
  eapply reach_step in H0; [|eapply (step_reserve tt 2 _ 7 _ run_write); reflexivity].
  eapply reach_step in H0; [|eapply (step_journal tt 2 _ 7 _ 0 run_write Lands run_name); [reflexivity|reflexivity|set_solver|reflexivity]].
  eapply reach_step in H0; [|eapply (step_enqueue tt 2 _ 7 _ 0 run_write (Some run_name)); reflexivity].
  eapply reach_step in H0; [|eapply (step_crash tt 2 _ 7); reflexivity].
  exact H0.
Qed.

Lemma queued_write_survives_witness :
  reachable (LTS0 := archive_lts tt 2) crashed /\
  exists bytes, pending (dir crashed) !! run_name = Some bytes /\ from_slice bytes = Some (from_op run_write).
Proof.
  split; [exact crashed_reachable|].
  destruct (proj1 (queued_write_survives tt 2 crashed ltac:(vm_compute; split; discriminate) crashed_reachable)
              run_name (from_op run_write) (or_introl eq_refl)) as [(bytes & Hb & Hp & _)|[[]|[[] _]]].
  exists bytes. exact (conj Hb Hp).
Defined.

Lemma poisoned_writes_pass_witness :
  let b : ArchiveRetryBacklog unit unit := mkBacklog [mkEntry run_write (Some run_name) 0; mkEntry run_write None 3] 2 0 2 0 0 0 0 in
  exists n, (n <= 16)%nat /\
    let '(log, b', d') := drain_rounds n (fun i => (8 <=? i)%nat) (fun _ => true) 0 b (dir crashed) in
    queue b' = [] /\ omap settled_by log = [run_write; run_write].
Proof.
  intros b.
  destruct (poisoned_writes_pass (fun i => (8 <=? i)%nat) (fun _ => true) 0 b (dir crashed)) as (n & Hn & H).
  { repeat constructor; discriminate. }
  exists n. split; [exact Hn|]. destruct (drain_rounds _ _ _ _ _ _) as [[log b'] d']. destruct H as (H1 & H2 & _). by split.
Defined.
