(* ===== verification/ArchiveQueue.v ===== *)
(** * The write-behind queue of the archive ([storage/src/lib.rs])

    Archive writes are taken off the path of a request by a bounded channel and a
    drain thread, which batches, retries and reports.  The operations of the
    source are functions here; [wbq_step] interleaves the producers, the drain
    threads, restarts and shutdowns, one critical section or message at a time. *)

From S2P Require Import Prelude.
From S2P Require Import RustStr.
From S2P Require Import ArchiveBacklog.

(** ** One write, and groups of them *)

(** @src storage/src/lib.rs:47-76 StorageError *)
Inductive StorageError :=
  | Io | Git | Json | LockContention | GitIndexLock (attempts : Z) | LockTimeout | InvalidPath
  | ReservationPublicationConflict (id : Z) | NotInitialized.

(** @src storage/src/lib.rs:3892-3897 wbq_execute_op
    -- errors that are worth another attempt. *)
Definition retryable (e : StorageError) : bool :=
  match e with Io | LockContention | GitIndexLock _ | LockTimeout => true | _ => false end.

(** @src storage/src/lib.rs:3859-3910 wbq_execute_op
    -- [attempt i] is the outcome of attempt [i]; batches are executed alike.
    The second component counts the attempts. *)
Fixpoint execute_loop (fuel : nat) (attempt : nat -> StorageError + unit) (attempts : nat) : (StorageError + unit) * nat :=
  match attempt attempts with
  | inr tt => (inr tt, S attempts)
  | inl e =>
      if (3 <=? S attempts)%nat then (inl e, S attempts)
      else if retryable e then
        match fuel with O => (inl e, S attempts) | S fuel => execute_loop fuel attempt (S attempts) end
      else (inl e, S attempts)
  end.
Definition wbq_execute_op (attempt : nat -> StorageError + unit) : (StorageError + unit) * nat := execute_loop 3 attempt 0.

Section groups.
  Context {Config Json : Type} (storage_root git_author_name git_author_email : Config -> ustr).
#[local] Abbreviation Op := (WriteOp Config Json).

(** @src storage/src/lib.rs:3721-3735 message_bundle_batch_group_key *)
Definition message_bundle_batch_group_key (op : Op) : option (ustr * ustr * ustr * ustr) :=
  match op with
  | MessageBundle slug config _ _ _ _ _ => Some (slug, storage_root config, git_author_name config, git_author_email config)
  | _ => None
  end.

(** @src storage/src/lib.rs:3737-3750 wbq_message_bundle_batch_end
    -- how many writes after the first go with it. *)
Fixpoint same_group (key : ustr * ustr * ustr * ustr) (batch : list Op) : nat :=
  match batch with
  | op :: batch => if bool_decide (message_bundle_batch_group_key op = Some key) then S (same_group key batch) else O
  | [] => O
  end.
Definition wbq_message_bundle_batch_end (batch : list Op) : nat :=
  match batch with
  | [] => O
  | op :: batch => match message_bundle_batch_group_key op with Some key => S (same_group key batch) | None => 1 end
  end.

(** @src storage/src/lib.rs:3571-3575 wbq_drain_loop
    -- the groups of a batch, each executed as one write. *)
Fixpoint batch_groups (fuel : nat) (batch : list Op) : list (list Op) :=
  match fuel, batch with
  | S fuel, _ :: _ =>
      let n := wbq_message_bundle_batch_end batch in take n batch :: batch_groups fuel (drop n batch)
  | _, _ => []
  end.
End groups.

(** ** The circuit breaker of an archive *)

(** @src storage/src/lib.rs:3093-3099 ArchiveFailureState *)
Record ArchiveFailureState := mkFailures { consecutive_failures : Z; last_trip_micros : Z; trips_total : Z }.
Definition no_failures : ArchiveFailureState := mkFailures 0 0 0.
#[export] Instance ArchiveFailureState_eq_dec : EqDecision ArchiveFailureState.
Proof. solve_decision. Defined.

(** @src storage/src/lib.rs:3084-3091 WBQ_CIRCUIT_BREAKER_FAILURE_THRESHOLD, WBQ_CIRCUIT_BREAKER_COOLDOWN_MICROS *)
Definition WBQ_CIRCUIT_BREAKER_FAILURE_THRESHOLD : Z := 5.
Definition WBQ_CIRCUIT_BREAKER_COOLDOWN_MICROS : Z := 60000000.

(** @src storage/src/lib.rs:3101-3142 circuit_breaker_decide *)
Definition circuit_breaker_decide (prev : ArchiveFailureState) (failed : bool) (threshold now_micros cooldown_micros : Z) :
    ArchiveFailureState * bool :=
  if negb failed then (mkFailures 0 (last_trip_micros prev) (trips_total prev), false)
  else
    let consecutive := usat_add (consecutive_failures prev) 1 in
    let cooled_down := (last_trip_micros prev =? 0) ||
                       (cooldown_micros <=? isat_sub now_micros (last_trip_micros prev)) in
    let trip := (threshold <=? consecutive) && cooled_down in
    (mkFailures consecutive (if trip then now_micros else last_trip_micros prev)
       (if trip then usat_add (trips_total prev) 1 else trips_total prev), trip).

(** @src storage/src/lib.rs:3155-3177 WbqCircuitBreaker::record_with *)
Definition record_with (archive_key : ustr) (failed : bool) (threshold now_micros cooldown_micros : Z)
    (map : gmap ustr ArchiveFailureState) : bool * ArchiveFailureState * gmap ustr ArchiveFailureState :=
  let prev := default no_failures (map !! archive_key) in
  let '(next, trip) := circuit_breaker_decide prev failed threshold now_micros cooldown_micros in
  (trip, next, if bool_decide (next = no_failures) then delete archive_key map else <[archive_key := next]> map).

(** ** The channel *)

Section queue.
  Context {Op : Type}.

(** @src storage/src/lib.rs:443-449 WbqMsg
    -- a flush by the number of its waiter. *)
Inductive WbqMsg := MOp (op : Op) | MFlush (waiter : nat) | MShutdown.

Definition ops_of (msgs : list WbqMsg) : list Op := omap (fun m => match m with MOp op => Some op | _ => None end) msgs.

(** What a receiving pass collects. *)
Record Pass := mkPass { p_batch : list Op; p_waiters : list nat; p_shutdown : bool }.
Definition collect (p : Pass) (m : WbqMsg) : Pass :=
  match m with
  | MOp op => mkPass (p_batch p ++ [op]) (p_waiters p) (p_shutdown p)
  | MFlush w => mkPass (p_batch p) (p_waiters p ++ [w]) (p_shutdown p)
  | MShutdown => mkPass (p_batch p) (p_waiters p) true
  end.

(** @src storage/src/lib.rs:3514-3522 wbq_drain_loop
    -- the messages already there, while the batch is below its cap. *)
Fixpoint collect_more (cap : nat) (p : Pass) (chan : list WbqMsg) : Pass * list WbqMsg :=
  match chan with
  | m :: chan' => if (length (p_batch p) <? cap)%nat then collect_more cap (collect p m) chan' else (p, chan)
  | [] => (p, [])
  end.

(** @src storage/src/lib.rs:3507-3524 wbq_drain_loop
    -- a pass over a channel that is not empty, by a thread with what it holds. *)
Definition receive_pass (cap : nat) (waiters : list nat) (shutting_down : bool) (chan : list WbqMsg) : Pass * list WbqMsg :=
  match chan with
  | m :: chan => collect_more cap (collect (mkPass [] waiters shutting_down) m) chan
  | [] => (mkPass [] waiters shutting_down, [])
  end.

(** @src storage/src/lib.rs:1247-1261 wbq_start_inner
    -- what a restart carries over: everything but shutdowns, as far as the new
    channel takes it. *)
Definition salvage (capacity : nat) (chan : list WbqMsg) : list WbqMsg :=
  take capacity (List.filter (fun m => match m with MShutdown => false | _ => true end) chan).

(** ** The threads *)

(** How the write of an operation ended: it is in the archive; it failed, which
    is recorded against the durability of the archive; or the thread died with
    it in its hands. *)
Inductive Outcome := Persisted | Failed | Lost.

Inductive Phase :=
  | Receiving
  | Counting (batch : list Op)
  | Executing (rest : list Op)
  | Finishing
  | FinishCounting (op : Op)
  | FinishExecuting (op : Op)
  | Exited.

(** @src storage/src/lib.rs:3485-3494 wbq_drain_loop
    -- [owed]: received operations that [op_depth] still counts. *)
Record DrainThread := mkThread { phase : Phase; flush_waiters : list nat; shutting_down : bool; owed : Z }.

(** The operations a thread has received and not yet settled. *)
Definition in_hand (t : DrainThread) : list Op :=
  match phase t with
  | Counting ops | Executing ops => ops
  | FinishCounting op | FinishExecuting op => [op]
  | Receiving | Finishing | Exited => []
  end.

(** @src storage/src/lib.rs:457-467 WriteBehindQueue
    -- the stored sender and the receiver by the generation of their channel, the
    channel, the drain threads by number; who holds [lifecycle]: a producer
    between its reservation and its send ([admission]), or a shutdown.  Then what
    happened: the operations that were accepted, in order, with their outcomes;
    how many had been accepted when a flush was; and the flushes that were
    acknowledged. *)
Record Wbq := mkWbq {
  sender : option nat; generation : nat; chan : list WbqMsg; op_depth : Z;
  threads : gmap nat DrainThread; drain_handle : option nat; next_thread : nat;
  admission : option (nat * Op); stopping : bool;
  accepted : list Op; settled : list (Op * Outcome); flushes : gmap nat nat; acknowledged_flushes : gset nat;
}.

Definition new_write_behind_queue : Wbq := mkWbq None 0 [] 0 ∅ None 0 None false [] [] ∅ ∅.

(** [AtomicU64::try_update] with [saturating_sub]. *)
Definition count_down (n : nat) (depth : Z) : Z := usat_sub depth (Z.of_nat n).

Definition set_thread (t : nat) (th : DrainThread) (s : Wbq) : Wbq :=
  mkWbq (sender s) (generation s) (chan s) (op_depth s) (<[t := th]> (threads s)) (drain_handle s) (next_thread s)
    (admission s) (stopping s) (accepted s) (settled s) (flushes s) (acknowledged_flushes s).
Definition set_chan (c : list WbqMsg) (s : Wbq) : Wbq :=
  mkWbq (sender s) (generation s) c (op_depth s) (threads s) (drain_handle s) (next_thread s)
    (admission s) (stopping s) (accepted s) (settled s) (flushes s) (acknowledged_flushes s).
Definition set_depth (d : Z) (s : Wbq) : Wbq :=
  mkWbq (sender s) (generation s) (chan s) d (threads s) (drain_handle s) (next_thread s)
    (admission s) (stopping s) (accepted s) (settled s) (flushes s) (acknowledged_flushes s).
Definition set_admission (a : option (nat * Op)) (s : Wbq) : Wbq :=
  mkWbq (sender s) (generation s) (chan s) (op_depth s) (threads s) (drain_handle s) (next_thread s)
    a (stopping s) (accepted s) (settled s) (flushes s) (acknowledged_flushes s).
Definition settle (ops : list Op) (o : Outcome) (s : Wbq) : Wbq :=
  mkWbq (sender s) (generation s) (chan s) (op_depth s) (threads s) (drain_handle s) (next_thread s)
    (admission s) (stopping s) (accepted s) (settled s ++ map (fun op => (op, o)) ops) (flushes s) (acknowledged_flushes s).
Definition accept (op : Op) (s : Wbq) : Wbq :=
  mkWbq (sender s) (generation s) (chan s ++ [MOp op]) (op_depth s) (threads s) (drain_handle s) (next_thread s)
    (admission s) (stopping s) (accepted s ++ [op]) (settled s) (flushes s) (acknowledged_flushes s).
Definition acknowledge (ws : list nat) (s : Wbq) : Wbq :=
  mkWbq (sender s) (generation s) (chan s) (op_depth s) (threads s) (drain_handle s) (next_thread s)
    (admission s) (stopping s) (accepted s) (settled s) (flushes s) (list_to_set ws ∪ acknowledged_flushes s).

(** The mutex [lifecycle] is free. *)
Definition lifecycle_free (s : Wbq) : Prop := admission s = None /\ stopping s = false.

(** A message can be sent to the channel of generation [g]. *)
Definition has_room (capacity : nat) (g : nat) (s : Wbq) : Prop := g = generation s /\ (length (chan s) < capacity)%nat.

(** @src storage/src/lib.rs:1204-1320 wbq_start_inner
    -- when there is no drain thread, or it is finished. *)
Definition wbq_start_inner (capacity : nat) (s : Wbq) : Wbq :=
  let kept := salvage capacity (chan s) in
  let g := S (generation s) in
  mkWbq (Some g) g kept (Z.of_nat (length (ops_of kept)))
    (<[next_thread s := mkThread Receiving [] false 0]> (match drain_handle s with Some t => delete t (threads s) | None => threads s end))
    (Some (next_thread s)) (S (next_thread s)) None false (accepted s) (settled s) (flushes s) (acknowledged_flushes s).

(** @src storage/src/lib.rs:1404-1462 wbq_try_send_counted
    -- an attempt holds [lifecycle] while it reserves its place in [op_depth] and
    sends; what the channel did not take is not counted. *)
Definition reserve_enqueue (g : nat) (op : Op) (s : Wbq) : Wbq := set_admission (Some (g, op)) (set_depth (op_depth s + 1) s).
Definition send_taken (op : Op) (s : Wbq) : Wbq := accept op (set_admission None s).
Definition send_refused (s : Wbq) : Wbq := set_admission None (set_depth (count_down 1 (op_depth s)) s).

(** @src storage/src/lib.rs:2895-2918 wbq_flush_status
    -- the flush is in the channel. *)
Definition flush_taken (w : nat) (s : Wbq) : Wbq :=
  mkWbq (sender s) (generation s) (chan s ++ [MFlush w]) (op_depth s) (threads s) (drain_handle s) (next_thread s)
    (admission s) (stopping s) (accepted s) (settled s) (<[w := length (accepted s)]> (flushes s)) (acknowledged_flushes s).

(** @src storage/src/lib.rs:2945-2950 wbq_shutdown
    -- from here [lifecycle] is held. *)
Definition shutdown_started (s : Wbq) : Wbq :=
  mkWbq (sender s) (generation s) (chan s) (op_depth s) (threads s) (drain_handle s) (next_thread s)
    (admission s) true (accepted s) (settled s) (flushes s) (acknowledged_flushes s).

(** @src storage/src/lib.rs:3000-3021 wbq_shutdown
    -- the end: the sender and the handle are dropped; a thread that was joined is
    gone, one that is detached goes on. *)
Definition stop (joined : bool) (s : Wbq) : Wbq :=
  mkWbq None (generation s) (chan s) (op_depth s)
    (if joined then match drain_handle s with Some t => delete t (threads s) | None => threads s end else threads s)
    None (next_thread s) None false (accepted s) (settled s) (flushes s) (acknowledged_flushes s).
End queue.
Arguments WbqMsg : clear implicits.
Arguments Pass : clear implicits.
Arguments Phase : clear implicits.
Arguments DrainThread : clear implicits.
Arguments Wbq : clear implicits.

Inductive WbqLabel :=
  | LStart | LReserve | LSend | LSendFails | LFlush (waiter : nat) | LReceive | LTick | LCount | LExecute | LAcknowledge
  | LDisconnected | LFinish | LDies | LStop | LStopSends | LJoined | LDetached.

(** ** Interleavings *)

Section steps.
  Context {Op : Type} (capacity batch_cap : nat) (group : list Op -> nat) (detaches : bool).
#[local] Abbreviation Q := (Wbq Op).
#[local] Abbreviation Thread := (DrainThread Op).

(** A thread moves on, keeping what it holds. *)
Definition at_phase (ph : Phase Op) (th : Thread) : Thread := mkThread ph (flush_waiters th) (shutting_down th) (owed th).

(** @src storage/src/lib.rs:3484-3718 wbq_drain_loop
    -- the steps of a thread, among those of the producers and of the lifecycle.
    [group]: how many of the first operations go together.  [detaches]: whether
    a shutdown may give up on its thread.  Times are not modelled: what waits for
    a deadline may be given up at any moment. *)
Inductive wbq_step : Q -> WbqLabel -> Q -> Prop :=
  | ws_start s : lifecycle_free s ->
      match drain_handle s with Some t => phase <$> threads s !! t = Some Exited | None => True end ->
      wbq_step s LStart (wbq_start_inner capacity s)
  | ws_reserve s g op : lifecycle_free s -> (g <= generation s)%nat ->
      wbq_step s LReserve (reserve_enqueue g op s)
  | ws_send s g op : admission s = Some (g, op) -> has_room capacity g s ->
      wbq_step s LSend (send_taken op s)
  | ws_send_fails s g op : admission s = Some (g, op) -> ~ has_room capacity g s ->
      wbq_step s LSendFails (send_refused s)
  | ws_flush s g w : has_room capacity g s -> flushes s !! w = None ->
      wbq_step s (LFlush w) (flush_taken w s)
  | ws_receive s t th p c : threads s !! t = Some th -> phase th = Receiving -> chan s <> [] ->
      receive_pass batch_cap (flush_waiters th) (shutting_down th) (chan s) = (p, c) ->
      wbq_step s LReceive
        (set_chan c (set_thread t (mkThread (Counting (p_batch p)) (p_waiters p) (p_shutdown p) (Z.of_nat (length (p_batch p)))) s))
  | ws_tick s t th : threads s !! t = Some th -> phase th = Receiving -> chan s = [] ->
      wbq_step s LTick (acknowledge (flush_waiters th) (set_thread t (mkThread Receiving [] (shutting_down th) (owed th)) s))
  | ws_count s t th batch : threads s !! t = Some th -> phase th = Counting batch ->
      wbq_step s LCount
        (set_depth (count_down (length batch) (op_depth s))
           (set_thread t (mkThread (Executing batch) (flush_waiters th) (shutting_down th) 0) s))
  | ws_execute s t th rest (ok : bool) : threads s !! t = Some th -> phase th = Executing rest -> rest <> [] ->
      wbq_step s LExecute
        (settle (take (group rest) rest) (if ok then Persisted else Failed)
           (set_thread t (at_phase (Executing (drop (group rest) rest)) th) s))
  | ws_acknowledge s t th : threads s !! t = Some th -> phase th = Executing [] ->
      wbq_step s LAcknowledge
        (acknowledge (flush_waiters th)
           (set_thread t (mkThread (if shutting_down th then Finishing else Receiving) [] (shutting_down th) (owed th)) s))
  | ws_disconnected s t th : threads s !! t = Some th -> phase th = Receiving -> chan s = [] -> sender s = None ->
      wbq_step s LDisconnected (set_thread t (mkThread Finishing [] (shutting_down th) (owed th)) s)
  | ws_finish_op s t th op c : threads s !! t = Some th -> phase th = Finishing -> chan s = MOp op :: c ->
      wbq_step s LFinish (set_chan c (set_thread t (mkThread (FinishCounting op) (flush_waiters th) (shutting_down th) 1) s))
  | ws_finish_count s t th op : threads s !! t = Some th -> phase th = FinishCounting op ->
      wbq_step s LFinish
        (set_depth (count_down 1 (op_depth s)) (set_thread t (mkThread (FinishExecuting op) (flush_waiters th) (shutting_down th) 0) s))
  | ws_finish_execute s t th op (ok : bool) : threads s !! t = Some th -> phase th = FinishExecuting op ->
      wbq_step s LFinish (settle [op] (if ok then Persisted else Failed) (set_thread t (at_phase Finishing th) s))
  | ws_finish_flush s t th w c : threads s !! t = Some th -> phase th = Finishing -> chan s = MFlush w :: c ->
      wbq_step s LFinish (acknowledge [w] (set_chan c s))
  | ws_finish_shutdown s t th c : threads s !! t = Some th -> phase th = Finishing -> chan s = MShutdown :: c ->
      wbq_step s LFinish (set_chan c s)
  | ws_finished s t th : threads s !! t = Some th -> phase th = Finishing -> chan s = [] ->
      wbq_step s LFinish (set_thread t (at_phase Exited th) s)
  | ws_dies s t th : threads s !! t = Some th -> phase th <> Exited ->
      wbq_step s LDies (settle (in_hand th) Lost (set_thread t (mkThread Exited [] (shutting_down th) (owed th)) s))
  | ws_stop s : lifecycle_free s ->
      wbq_step s LStop (shutdown_started s)
  | ws_stop_sends s : stopping s = true -> has_room capacity (generation s) s -> sender s <> None ->
      wbq_step s LStopSends (set_chan (chan s ++ [MShutdown]) s)
  | ws_joined s : stopping s = true ->
      match drain_handle s with Some t => phase <$> threads s !! t = Some Exited | None => True end ->
      wbq_step s LJoined (stop true s)
  | ws_detached s t : stopping s = true -> drain_handle s = Some t -> detaches = true ->
      wbq_step s LDetached (stop false s).
End steps.

#[export] Instance wbq_lts {Op} (capacity batch_cap : nat) (group : list Op -> nat) (detaches : bool) : LTS (Wbq Op) WbqLabel := {
  lts_init s := s = new_write_behind_queue;
  lts_step := wbq_step capacity batch_cap group detaches;
}.
