(* ===== verification/ArchiveQueueProps.v ===== *)
(** * Properties of the write-behind queue

    While no shutdown gives up on its thread, the queue is one: what was accepted
    is settled in its order, nothing twice, and a flush is acknowledged only when
    everything before it is settled.  Where a thread was given up on, it is not. *)

From S2P Require Import Prelude.
From S2P Require Import RustStr.
From S2P Require Import ArchiveBacklog.
From S2P Require Import ArchiveQueue.

Section queue.
  Context {Op : Type} (capacity batch_cap : nat) (group : list Op -> nat).
#[local] Abbreviation Q := (Wbq Op).
#[local] Abbreviation Thread := (DrainThread Op).

Lemma ops_of_app (c c' : list (WbqMsg Op)) : ops_of (c ++ c') = ops_of c ++ ops_of c'.
Proof. apply omap_app. Qed.

(** Every flush in the channel stands behind as many operations as were accepted
    before it; [base] of them are ahead of the channel. *)
Fixpoint flush_places (fl : gmap nat nat) (base : nat) (c : list (WbqMsg Op)) : Prop :=
  match c with
  | [] => True
  | MOp _ :: c => flush_places fl (S base) c
  | MFlush w :: c => fl !! w = Some base /\ flush_places fl base c
  | MShutdown :: c => flush_places fl base c
  end.

Lemma flush_places_app fl c : forall base c',
  flush_places fl base (c ++ c') <-> flush_places fl base c /\ flush_places fl (base + length (ops_of c)) c'.
Proof.
  induction c as [|[op|w|] c IH]; intros base c'; cbn [app flush_places ops_of omap list_omap length].
  - rewrite Nat.add_0_r. tauto.
  - rewrite IH. rewrite <- Nat.add_succ_comm. done.
  - rewrite IH. tauto.
  - apply IH.
Qed.

Lemma flush_places_fresh fl w n c : fl !! w = None -> forall base, flush_places fl base c -> flush_places (<[w := n]> fl) base c.
Proof.
  intros Hw. induction c as [|[op|v|] c IH]; intros base; cbn [flush_places]; [done|apply IH| |apply IH].
  intros [Hv Hc]. split; [|by apply IH]. rewrite lookup_insert_ne; [done|]. intros ->. by rewrite Hv in Hw.
Qed.

Definition not_shutdown (m : WbqMsg Op) : bool := match m with MShutdown => false | _ => true end.

Lemma ops_of_kept c : ops_of (List.filter not_shutdown c) = ops_of c.
Proof. unfold ops_of. induction c as [|[op|w|] c IH]; cbn; [done|by f_equal|done|done]. Qed.

Lemma flush_places_kept fl c : forall base, flush_places fl base c -> flush_places fl base (List.filter not_shutdown c).
Proof. induction c as [|[op|w|] c IH]; intros base; cbn; [done|apply IH| |apply IH]. intros [Hw Hc]. split; [done|by apply IH]. Qed.

Lemma salvage_all c : (length c <= capacity)%nat -> salvage capacity c = List.filter not_shutdown c.
Proof. intros Hl. unfold salvage. apply take_ge. etrans; [|exact Hl]. apply filter_length_le. Qed.

(** ** Receiving *)

Lemma collect_more_spec c : forall p,
  let '(p', c') := collect_more batch_cap p c in
  exists c1, c = c1 ++ c' /\ p_batch p' = p_batch p ++ ops_of c1 /\
    (forall w, In w (p_waiters p') <-> In w (p_waiters p) \/ In (MFlush (Op := Op) w) c1).
Proof.
  induction c as [|m c IH]; intros p; cbn [collect_more].
  - exists []. cbn. rewrite app_nil_r. split_and!; try done. tauto.
  - destruct (length (p_batch p) <? batch_cap)%nat.
    + specialize (IH (collect p m)). destruct (collect_more batch_cap (collect p m) c) as [p' c'].
      destruct IH as (c1 & -> & Hb & Hw). exists (m :: c1). split; [done|].
      destruct m as [op|w0|]; cbn [collect p_batch p_waiters] in Hb, Hw; cbn [ops_of omap list_omap].
      * split; [by rewrite Hb, <- app_assoc|]. intros w. rewrite Hw. cbn. intuition discriminate.
      * split; [done|]. intros w. rewrite Hw, in_app_iff. cbn. intuition congruence.
      * split; [done|]. intros w. rewrite Hw. cbn. intuition discriminate.
    + exists []. cbn. rewrite app_nil_r. split_and!; try done. tauto.
Qed.

Lemma receive_pass_spec ws sd c p c' :
  receive_pass batch_cap ws sd c = (p, c') ->
  exists c1, c = c1 ++ c' /\ p_batch p = ops_of c1 /\ (forall w, In w (p_waiters p) <-> In w ws \/ In (MFlush (Op := Op) w) c1).
Proof.
  destruct c as [|m c]; cbn [receive_pass].
  - intros [= <- <-]. exists []. cbn. split_and!; try done. tauto.
  - intros Hr. pose proof (collect_more_spec c (collect (mkPass [] ws sd) m)) as H. rewrite Hr in H.
    destruct H as (c1 & -> & Hb & Hw). exists (m :: c1). split; [done|].
    destruct m as [op|w0|]; cbn [collect p_batch p_waiters app] in Hb, Hw; cbn [ops_of omap list_omap]; (split; [done|]).
    + intros w. rewrite Hw. cbn. intuition discriminate.
    + intros w. rewrite Hw, in_app_iff. cbn. intuition congruence.
    + intros w. rewrite Hw. cbn. intuition discriminate.
Qed.

Lemma flush_places_In fl c w : forall base, flush_places fl base c -> In (MFlush (Op := Op) w) c ->
  exists n, fl !! w = Some n /\ (n <= base + length (ops_of c))%nat.
Proof.
  induction c as [|[op|v|] c IH]; intros base; cbn [flush_places In ops_of omap list_omap length]; [done| | |].
  - intros H [?|Hin]; [done|]. destruct (IH _ H Hin) as (n & Hn & Hle). exists n. split; [done|]. unfold ops_of in Hle. lia.
  - intros [Hv H] [[= <-]|Hin]; [exists base; split; [done|lia]|]. by apply IH.
  - intros H [?|Hin]; [done|]. by apply IH.
Qed.

(** ** The invariant *)

Definition held (o : option Thread) : list Op := match o with Some th => in_hand th | None => [] end.

(** What a thread has received but not counted, by where it stands. *)
Definition owes (th : Thread) : Prop :=
  match phase th with
  | Counting batch => owed th = Z.of_nat (length batch)
  | FinishCounting _ => owed th = 1
  | Exited => 0 <= owed th
  | Receiving | Executing _ | Finishing | FinishExecuting _ => owed th = 0
  end.

Definition reserved_slot (s : Q) : Z := match admission s with Some _ => 1 | None => 0 end.

Record queue_ok (s : Q) (o : option Thread) : Prop := {
  qo_order : accepted s = map fst (settled s) ++ held o ++ ops_of (chan s);
  qo_room : (length (chan s) <= capacity)%nat;
  qo_depth : match o with
             | Some th => op_depth s = Z.of_nat (length (ops_of (chan s))) + owed th + reserved_slot s /\ owes th
             | None => Z.of_nat (length (ops_of (chan s))) + reserved_slot s <= op_depth s
             end;
  qo_places : flush_places (flushes s) (length (settled s) + length (held o)) (chan s);
  qo_waiters : forall th w, o = Some th -> In w (flush_waiters th) ->
    exists n, flushes s !! w = Some n /\ (n <= length (settled s) + length (in_hand th))%nat;
  qo_flushed : forall w, w ∈ acknowledged_flushes s -> exists n, flushes s !! w = Some n /\ (n <= length (settled s))%nat;
}.

(** At most one thread, the one of the handle. *)
Definition sole (s : Q) (o : option (nat * Thread)) : Prop :=
  drain_handle s = fst <$> o /\ threads s = match o with Some (t, th) => {[t := th]} | None => ∅ end.

Definition wbq_ok (s : Q) : Prop := exists o, sole s o /\ queue_ok s (snd <$> o).

Lemma sole_lookup s o t th : sole s o -> threads s !! t = Some th -> o = Some (t, th).
Proof. intros [_ E]. rewrite E. destruct o as [[t' th']|]; [|done]. by intros [<- <-]%lookup_singleton_Some. Qed.

Lemma sole_set s t th th' : sole s (Some (t, th)) -> sole (set_thread t th' s) (Some (t, th')).
Proof. intros [E1 E2]. split; [done|]. cbn. rewrite E2. apply insert_singleton_eq. Qed.

Lemma settle_app s (ops : list Op) o : map fst (settled (settle ops o s)) = map fst (settled s) ++ ops.
Proof. cbn. rewrite map_app, map_map. cbn. by rewrite map_id. Qed.

(** A thread moves on with what it has. *)
Lemma moved_ok s t th th' :
  queue_ok s (Some th) -> in_hand th' = in_hand th -> owed th' = owed th -> owes th' ->
  (forall w, In w (flush_waiters th') -> In w (flush_waiters th)) ->
  queue_ok (set_thread t th' s) (Some th').
Proof.
  intros [H1 H2 [H3 H3'] H4 H5 H6] Eh Eo Hw Hws. split; cbn [held] in *; rewrite ?Eh, ?Eo; try done.
  intros th0 w [= <-] Hin. rewrite Eh. apply (H5 th); [done|by apply Hws].
Qed.

(** Acknowledging flushes with nothing before them. *)
Lemma acknowledged_ok s (o : option Thread) ws :
  queue_ok s o -> (forall w, In w ws -> exists n, flushes s !! w = Some n /\ (n <= length (settled s))%nat) ->
  queue_ok (acknowledge ws s) o.
Proof.
  intros [H1 H2 H3 H4 H5 H6] Hws. split; try done. cbn [acknowledge acknowledged_flushes].
  intros w [Hin%elem_of_list_to_set|Hin]%elem_of_union; [|by apply H6].
  apply Hws. by apply list_elem_of_In.
Qed.

(** The thread settles what comes first of what it holds. *)
Lemma settled_ok s t th th' ops o :
  queue_ok s (Some th) -> in_hand th = ops ++ in_hand th' -> owed th' = owed th -> owes th' ->
  (forall w, In w (flush_waiters th') -> In w (flush_waiters th)) ->
  queue_ok (settle ops o (set_thread t th' s)) (Some th').
Proof.
  intros [H1 H2 [H3 H3'] H4 H5 H6] Eh Eo Hw Hws. cbn [held] in *.
  assert (length (settled (settle ops o (set_thread t th' s))) + length (in_hand th') = length (settled s) + length (in_hand th))%nat as El.
  { cbn. rewrite Eh, !length_app, length_map. lia. }
  split; cbn [held].
  - rewrite settle_app, <- app_assoc, (app_assoc ops), <- Eh. exact H1.
  - done.
  - by rewrite Eo.
  - rewrite El. exact H4.
  - intros th0 w [= <-] Hin. rewrite El. apply (H5 th); [done|by apply Hws].
  - intros w Hin. destruct (H6 w Hin) as (n & Hn & Hle). exists n. split; [done|]. cbn. rewrite length_app. lia.
Qed.

(** A restart, when the thread is gone. *)
Lemma started_ok s : wbq_ok s ->
  match drain_handle s with Some t => phase <$> threads s !! t = Some Exited | None => True end ->
  wbq_ok (wbq_start_inner capacity s).
Proof.
  intros (o & Hs & [H1 H2 H3 H4 H5 H6]) Hex. destruct Hs as [Eh Et].
  assert (held (snd <$> o) = []) as Hheld.
  { destruct o as [[t th]|]; [|done]. cbn in *. rewrite Eh, Et, lookup_singleton_eq in Hex. cbn in Hex. injection Hex as Hex.
    unfold in_hand. by rewrite Hex. }
  rewrite Hheld in *. cbn [length app] in *. rewrite Nat.add_0_r in H4.
  exists (Some (next_thread s, mkThread Receiving [] false 0)). split.
  - split; [done|]. cbn. destruct (drain_handle s) as [t|] eqn:Ed.
    + destruct o as [[t' th]|]; [|done]. cbn in Eh. injection Eh as ->. rewrite Et, delete_singleton_eq. done.
    + destruct o; [done|]. by rewrite Et.
  - unfold wbq_start_inner. rewrite (salvage_all _ H2), ops_of_kept. cbn zeta.
    split; cbn [accepted settled chan op_depth flushes acknowledged_flushes snd fmap option_fmap option_map held in_hand phase length app];
      rewrite ?ops_of_kept; try done.
    + etrans; [apply filter_length_le|done].
    + split; [|done]. unfold reserved_slot. cbn. lia.
    + rewrite Nat.add_0_r. by apply flush_places_kept.
    + by intros th w [= <-].
Qed.

(** Producers. *)
Lemma reserved_ok s o g op : queue_ok s o -> lifecycle_free s ->
  queue_ok (reserve_enqueue g op s) o.
Proof.
  intros [H1 H2 H3 H4 H5 H6] [Ha _]. split; try done. unfold reserved_slot in *. rewrite Ha in H3.
  cbn [admission reserve_enqueue set_admission set_depth op_depth chan]. destruct o; [split; [lia|apply H3]|lia].
Qed.

Lemma op_taken_ok s o g op : queue_ok s o -> admission s = Some (g, op) -> has_room capacity g s ->
  queue_ok (send_taken op s) o.
Proof.
  intros [H1 H2 H3 H4 H5 H6] Ha [_ Hr]. unfold reserved_slot in *. rewrite Ha in H3.
  split; cbn [send_taken accept set_admission accepted settled chan op_depth flushes acknowledged_flushes]; try done.
  - rewrite ops_of_app, H1, <- !app_assoc. done.
  - rewrite length_app. cbn [length]. lia.
  - rewrite ops_of_app, length_app. unfold reserved_slot. cbn [admission send_taken set_admission accept ops_of omap list_omap length op_depth].
    destruct o; [split; [lia|apply H3]|lia].
  - apply flush_places_app. split; [done|]. done.
Qed.

Lemma unsent_ok s o g op : queue_ok s o -> admission s = Some (g, op) ->
  queue_ok (send_refused s) o.
Proof.
  intros [H1 H2 H3 H4 H5 H6] Ha. split; try done. unfold reserved_slot, send_refused, count_down, usat_sub in *. rewrite Ha in H3.
  cbn [admission send_refused set_admission set_depth op_depth chan]. destruct o as [th|]; [|lia]. destruct H3 as [H3 Hw]. split; [|done].
  assert (0 <= owed th); [|lia]. unfold owes in Hw. destruct (phase th); lia.
Qed.

Lemma flush_sent_ok s o g w : queue_ok s o -> has_room capacity g s -> flushes s !! w = None ->
  queue_ok (flush_taken w s) o.
Proof.
  intros [H1 H2 H3 H4 H5 H6] [_ Hr] Hw.
  split; cbn [flush_taken accepted settled chan op_depth flushes acknowledged_flushes]; try done.
  - by rewrite ops_of_app, app_nil_r.
  - rewrite length_app. cbn [length]. lia.
  - by rewrite ops_of_app, app_nil_r.
  - apply flush_places_app. split; [by apply flush_places_fresh|]. cbn [flush_places]. split; [|done].
    rewrite lookup_insert_eq, H1, !length_app, length_map. f_equal. lia.
  - intros th v Ho Hin. destruct (H5 th v Ho Hin) as (n & Hn & Hle). exists n. split; [|done].
    rewrite lookup_insert_ne; [done|]. intros ->. by rewrite Hn in Hw.
  - intros v Hin. destruct (H6 v Hin) as (n & Hn & Hle). exists n. split; [|done].
    rewrite lookup_insert_ne; [done|]. intros ->. by rewrite Hn in Hw.
Qed.

(** The thread takes messages out of the channel. *)
Lemma received_ok s t th th' c1 c :
  queue_ok s (Some th) -> in_hand th = [] -> owed th = 0 -> chan s = c1 ++ c ->
  in_hand th' = ops_of c1 -> owed th' = Z.of_nat (length (ops_of c1)) -> owes th' ->
  (forall w, In w (flush_waiters th') -> In w (flush_waiters th) \/ In (MFlush (Op := Op) w) c1) ->
  queue_ok (set_chan c (set_thread t th' s)) (Some th').
Proof.
  intros [H1 H2 H3 H4 H5 H6] Eh Eo Ec Eh' Eo' Hw Hws. cbn [held] in *. rewrite Eh in *. rewrite Ec in *.
  cbn [length app] in *. rewrite Nat.add_0_r in *. apply flush_places_app in H4 as [Hp1 Hp2]. rewrite ops_of_app in *.
  split; cbn [set_chan set_thread accepted settled chan op_depth flushes acknowledged_flushes held]; rewrite ?Eh'; try done.
  - rewrite length_app in H2. lia.
  - rewrite length_app in H3. unfold reserved_slot in *. cbn [admission set_chan set_thread]. rewrite Eo'. split; [lia|done].
  - intros th0 w [= <-] Hin. rewrite Eh'. destruct (Hws w Hin) as [Hin'|Hin'].
    + destruct (H5 th w eq_refl Hin') as (n & Hn & Hle). rewrite Eh in Hle. exists n. split; [done|]. cbn [length] in Hle. lia.
    + by apply (flush_places_In _ c1).
Qed.

Lemma popped_ok s th m c :
  queue_ok s (Some th) -> in_hand th = [] -> owed th = 0 -> chan s = m :: c -> ops_of [m] = [] ->
  queue_ok (set_chan c s) (Some th).
Proof.
  intros Hq Eh Eo Ec Em. assert (queue_ok (set_chan c (set_thread 0%nat th s)) (Some th)) as [H1 H2 H3 H4 H5 H6]; [|by split].
  apply (received_ok s 0 th th [m] c); rewrite ?Em; try done; [apply (qo_depth _ _ Hq)|]. intros w Hin. by left.
Qed.

(** The thread counts what it received. *)
Lemma counted_ok s t th th' n :
  queue_ok s (Some th) -> in_hand th' = in_hand th -> owed th = Z.of_nat n -> owed th' = 0 -> owes th' ->
  flush_waiters th' = flush_waiters th ->
  queue_ok (set_depth (count_down n (op_depth s)) (set_thread t th' s)) (Some th').
Proof.
  intros [H1 H2 [H3 H3'] H4 H5 H6] Eh Eo Eo' Hw Ews. cbn [held] in *.
  split; cbn [set_depth set_thread accepted settled chan op_depth flushes acknowledged_flushes held]; rewrite ?Eh; try done.
  - split; [|done]. unfold count_down, usat_sub, reserved_slot in *. cbn [admission set_depth set_thread]. rewrite Eo'.
    destruct (admission s); lia.
  - intros th0 w [= <-] Hin. rewrite Eh. apply (H5 th); [done|]. by rewrite <- Ews.
Qed.

(** The thread goes. *)
Lemma gone_ok s s' th :
  queue_ok s (Some th) -> in_hand th = [] -> accepted s' = accepted s -> settled s' = settled s -> chan s' = chan s ->
  op_depth s' = op_depth s -> flushes s' = flushes s -> acknowledged_flushes s' = acknowledged_flushes s -> admission s' = None ->
  0 <= owed th -> queue_ok s' None.
Proof.
  intros [H1 H2 [H3 H3'] H4 H5 H6] Eh E1 E2 E3 E4 E5 E6 E7 Ho. cbn [held] in *. rewrite Eh in *.
  split; cbn [held]; rewrite ?E1, ?E2, ?E3, ?E4, ?E5, ?E6; try done.
  unfold reserved_slot in *. rewrite E7. destruct (admission s); lia.
Qed.
(** ** Every step keeps it *)

#[local] Abbreviation step := (wbq_step capacity batch_cap group false).

Lemma sole_has s t th : wbq_ok s -> threads s !! t = Some th -> sole s (Some (t, th)) /\ queue_ok s (Some th).
Proof. intros (o & Hs & Hq) Ht. pose proof (sole_lookup _ _ _ _ Hs Ht) as ->. done. Qed.

Lemma same_thread_ok s t th : wbq_ok (set_thread t th s) -> threads s !! t = Some th -> wbq_ok s.
Proof.
  intros (o & [Hh Ht] & [H1 H2 H3 H4 H5 H6]) El. exists o. split; [|by split]. split; [done|].
  cbn in Ht. by rewrite insert_id in Ht.
Qed.

(** Steps of a thread. *)
Lemma thread_step_ok s t th th' s' :
  wbq_ok s -> threads s !! t = Some th -> (queue_ok s (Some th) -> queue_ok s' (Some th')) ->
  drain_handle s' = drain_handle s -> threads s' = <[t := th']> (threads s) -> wbq_ok s'.
Proof.
  intros Hok Ht Hq Eh Et. destruct (sole_has s t th Hok Ht) as [[Hs1 Hs2] Hqs].
  exists (Some (t, th')). split; [|by apply Hq]. split; [by rewrite Eh|]. rewrite Et, Hs2. apply insert_singleton_eq.
Qed.

Lemma waiters_done s th : queue_ok s (Some th) -> in_hand th = [] ->
  forall w, In w (flush_waiters th) -> exists n, flushes s !! w = Some n /\ (n <= length (settled s))%nat.
Proof.
  intros Hq Eh w Hin. destruct (qo_waiters _ _ Hq th w eq_refl Hin) as (n & Hn & Hle). rewrite Eh in Hle. exists n. split; [done|].
  cbn [length] in Hle. lia.
Qed.

Lemma owed_nothing s th : queue_ok s (Some th) ->
  match phase th with Receiving | Executing _ | Finishing | FinishExecuting _ => owed th = 0 | _ => 0 <= owed th end.
Proof. intros Hq. pose proof (proj2 (qo_depth _ _ Hq)) as Hw. unfold owes in Hw. destruct (phase th); lia. Qed.

Lemma shutdown_sent_ok s o : queue_ok s o -> (length (chan s) < capacity)%nat -> queue_ok (set_chan (chan s ++ [MShutdown]) s) o.
Proof.
  intros [H1 H2 H3 H4 H5 H6] Hr. split; cbn [set_chan accepted settled chan op_depth flushes acknowledged_flushes]; try done.
  - by rewrite ops_of_app, app_nil_r.
  - rewrite length_app. cbn [length]. lia.
  - by rewrite ops_of_app, app_nil_r.
  - by apply flush_places_app.
Qed.

Lemma stopped_ok s : wbq_ok s -> admission s = None ->
  match drain_handle s with Some t => phase <$> threads s !! t = Some Exited | None => True end -> wbq_ok (stop true s).
Proof.
  intros (o & [Eh Et] & Hq) Ha Hex. exists None. rewrite Eh, Et in Hex. destruct o as [[t th]|]; cbn [fst snd fmap option_fmap option_map] in *.
  - split; [split; [done|]; unfold stop; rewrite Eh, Et; apply delete_singleton_eq|].
    rewrite lookup_singleton_eq in Hex. cbn in Hex. injection Hex as Hex.
    apply (gone_ok s _ th); [done|unfold in_hand; by rewrite Hex|done..|]. pose proof (owed_nothing s th Hq) as Hn. by rewrite Hex in Hn.
  - split; [split; [done|]; unfold stop; by rewrite Eh, Et|]. destruct Hq as [H1 H2 H3 H4 H5 H6]. split; try done.
    unfold reserved_slot in *. rewrite Ha in H3. exact H3.
Qed.

(** A step of the thread [th], of which [Hph] says the phase. *)
Ltac thread_moves s t th Hph :=
  eapply (thread_step_ok s t th); [done..| |done|done]; let Hq := fresh "Hq" in intros Hq;
  let Hn := fresh "Hn" in pose proof (owed_nothing s th Hq) as Hn; rewrite Hph in Hn.
Ltac nothing_in_hand Hph := unfold in_hand; by rewrite Hph.

(** The other steps: the thread's are steps of the sole thread. *)
Lemma queue_step_ok s l s' : step s l s' -> wbq_ok s -> (stopping s = true -> admission s = None) -> wbq_ok s'.
Proof.
  intros Hstep Hok Hlife. destruct Hstep.
  - by apply started_ok.
  - destruct Hok as (o & Hs & Hq). exists o. split; [done|]. by apply reserved_ok.
  - destruct Hok as (o & Hs & Hq). exists o. split; [done|]. by apply (op_taken_ok _ _ g).
  - destruct Hok as (o & Hs & Hq). exists o. split; [done|]. by apply (unsent_ok _ _ g op).
  - destruct Hok as (o & Hs & Hq). exists o. split; [done|]. by apply (flush_sent_ok _ _ g).
  - destruct (receive_pass_spec _ _ _ _ _ H2) as (c1 & Ec & Eb & Hw).
    thread_moves s t th H0.
    apply (received_ok s t th _ c1); cbn [in_hand phase owed owes flush_waiters]; rewrite ?Eb; try done.
    + nothing_in_hand H0.
    + intros w. apply Hw.
  - thread_moves s t th H0.
    apply acknowledged_ok.
    + apply (moved_ok s t th); try done. nothing_in_hand H0.
    + apply (waiters_done s th Hq). nothing_in_hand H0.
  - eapply (thread_step_ok s t th); [done..| |done|done]. intros Hq. pose proof (proj2 (qo_depth _ _ Hq)) as Hn. unfold owes in Hn. rewrite H0 in Hn.
    apply (counted_ok s t th); try done. nothing_in_hand H0.
  - thread_moves s t th H0.
    apply (settled_ok s t th); try done.
    unfold in_hand at 1. rewrite H0. cbn [in_hand phase at_phase]. by rewrite take_drop.
  - thread_moves s t th H0.
    apply acknowledged_ok.
    + apply (moved_ok s t th); try done; [unfold in_hand; rewrite H0; by destruct (shutting_down th)|].
      unfold owes. cbn. by destruct (shutting_down th).
    + apply (waiters_done s th Hq). nothing_in_hand H0.
  - thread_moves s t th H0.
    apply (moved_ok s t th); try done. nothing_in_hand H0.
  - thread_moves s t th H0.
    apply (received_ok s t th _ [MOp op]); try done; [nothing_in_hand H0|]. by left.
  - eapply (thread_step_ok s t th); [done..| |done|done]. intros Hq. pose proof (proj2 (qo_depth _ _ Hq)) as Hn. unfold owes in Hn. rewrite H0 in Hn.
    apply (counted_ok s t th); try done. nothing_in_hand H0.
  - thread_moves s t th H0.
    apply (settled_ok s t th); try done. unfold in_hand at 1. by rewrite H0.
  - destruct (sole_has s t th Hok H) as [Hs Hq]. exists (Some (t, th)). split; [done|].
    pose proof (owed_nothing s th Hq) as Hn. rewrite H0 in Hn. assert (in_hand th = []) as Eh by (nothing_in_hand H0).
    apply acknowledged_ok; [by apply (popped_ok s th (MFlush w))|]. intros w' [<-|[]]. pose proof (qo_places _ _ Hq) as Hp. rewrite H1 in Hp.
    cbn [held flush_places] in Hp. rewrite Eh in Hp. exists (length (settled s)). split; [|done].
    cbn [set_chan flushes]. rewrite (proj1 Hp). f_equal. cbn [length]. lia.
  - destruct (sole_has s t th Hok H) as [Hs Hq]. exists (Some (t, th)). split; [done|].
    pose proof (owed_nothing s th Hq) as Hn. rewrite H0 in Hn. assert (in_hand th = []) as Eh by (nothing_in_hand H0).
    by apply (popped_ok s th MShutdown).
  - thread_moves s t th H0.
    apply (moved_ok s t th); try done; [nothing_in_hand H0|]. unfold owes. cbn. lia.
  - eapply (thread_step_ok s t th); [done..| |done|done]. intros Hq.
    apply (settled_ok s t th); try done; [by rewrite app_nil_r|]. unfold owes. cbn.
    pose proof (owed_nothing s th Hq) as Hn. destruct (phase th); lia.
  - destruct Hok as (o & Hs & Hq). exists o. split; [done|]. destruct Hq as [? ? ? ? ? ?]. by split.
  - destruct Hok as (o & Hs & Hq). exists o. split; [done|]. apply shutdown_sent_ok; [done|]. apply H0.
  - apply stopped_ok; [done|by apply Hlife|done].
  - done.
Qed.

(** ** Reachable states *)

#[local] Abbreviation reached := (@reachable _ _ (wbq_lts capacity batch_cap group false)).

Lemma lifecycle_ok s : reached s -> stopping s = true -> admission s = None.
Proof.
  intros Hr. induction Hr as [s ->|s l s' Hr IH Hstep]; [done|].
  destruct Hstep; cbn; try done; try exact IH; intros Hs; try (by apply IH).
  - destruct H as [_ Hf]. cbn in Hs. by rewrite Hf in Hs.
  - by destruct H.
Qed.

Lemma queue_reachable_ok s : reached s -> wbq_ok s.
Proof.
  intros Hr. induction Hr as [s ->|s l s' Hr IH Hstep].
  - exists None. split; [by split|]. split; cbn; try done; try lia.
  - apply (queue_step_ok s l); [exact Hstep|done|]. by apply lifecycle_ok.
Qed.

(** What the drain threads have in their hands. *)
Definition all_in_hand (s : Q) : list Op := concat (map (fun kv => in_hand (snd kv)) (map_to_list (threads s))).

Lemma sole_in_hand s o : sole s o -> all_in_hand s = held (snd <$> o).
Proof.
  intros [_ E]. unfold all_in_hand. rewrite E. destruct o as [[t th]|]; [|done].
  rewrite map_to_list_singleton. cbn. apply app_nil_r.
Qed.

Lemma prefix_settled s n : accepted s = map fst (settled s) ++ all_in_hand s ++ ops_of (chan s) -> (n <= length (settled s))%nat ->
  take n (accepted s) = map fst (take n (settled s)).
Proof. intros -> Hn. rewrite take_app_le by (rewrite length_map; done). by rewrite firstn_map. Qed.

(** ** A thread left alone *)

Definition thread_label (l : WbqLabel) : Prop :=
  match l with LReceive | LCount | LExecute | LAcknowledge | LDisconnected | LFinish => True | _ => False end.

(** What a thread still has to do. *)
Definition work (c : list (WbqMsg Op)) (th : Thread) : nat :=
  match phase th with
  | Exited => 0
  | Finishing => 4 * length c + 1
  | Receiving | FinishExecuting _ => 4 * length c + 2
  | Executing rest => 4 * length c + length rest + 3
  | FinishCounting _ => 4 * length c + 3
  | Counting batch => 4 * length c + length batch + 4
  end.

Definition work_left (s : Q) (n : nat) : Prop := exists t th, sole s (Some (t, th)) /\ n = work (chan s) th.

Lemma ops_of_length (c : list (WbqMsg Op)) : (length (ops_of c) <= length c)%nat.
Proof. unfold ops_of. induction c as [|[]]; cbn; lia. Qed.

Lemma receive_pass_shrinks ws sd (c : list (WbqMsg Op)) p c' : c <> [] -> receive_pass batch_cap ws sd c = (p, c') -> (length c' < length c)%nat.
Proof.
  destruct c as [|m c]; [done|]. intros _ Hr. cbn [receive_pass] in Hr.
  pose proof (collect_more_spec c (collect (mkPass [] ws sd) m)) as H. rewrite Hr in H. destruct H as (c1 & -> & _).
  cbn [length]. rewrite length_app. lia.
Qed.

Lemma received_work ws sd (c : list (WbqMsg Op)) p c' (th : Thread) : c <> [] -> receive_pass batch_cap ws sd c = (p, c') ->
  phase th = Receiving -> (work c' (mkThread (Counting (p_batch p)) (p_waiters p) (p_shutdown p) (Z.of_nat (length (p_batch p)))) < work c th)%nat.
Proof.
  intros Hc Hr Hp. pose proof (receive_pass_shrinks _ _ _ _ _ Hc Hr). destruct (receive_pass_spec _ _ _ _ _ Hr) as (c1 & -> & Eb & _).
  unfold work. rewrite Hp. cbn [phase]. rewrite Eb. pose proof (ops_of_length c1). rewrite length_app in *. lia.
Qed.

(** A step of the thread [th0], which goes on as the thread of the result. *)
Lemma step_works s l s' t0 th0 : (forall ops, ops <> [] -> (0 < group ops)%nat) -> step s l s' -> thread_label l ->
  sole s (Some (t0, th0)) -> drain_handle s' = drain_handle s /\
  exists th', threads s' = <[t0 := th']> (threads s) /\ (phase th' = Exited -> chan s' = []) /\
              (work (chan s') th' < work (chan s) th0)%nat.
Proof.
  intros Hg Hstep Hl Hs.
  assert (forall t th, threads s !! t = Some th -> t = t0 /\ th = th0) as Hsole.
  { intros t th Ht. pose proof (sole_lookup _ _ _ _ Hs Ht) as [= -> ->]. done. }
  destruct Hstep; try done; destruct (Hsole _ _ H) as [-> ->]; (split; [done|]);
    try (eexists; split; [done|]; cbn [chan set_chan set_thread set_depth settle acknowledge phase at_phase];
         split; [try done|]; unfold work; rewrite ?H0, ?H1; cbn [phase at_phase length]; rewrite ?length_drop; try lia).
  - pose proof (received_work _ _ _ _ _ _ H1 H2 H0) as Hw. unfold work in Hw. by rewrite H0 in Hw.
  - pose proof (Hg _ H1). destruct rest; [done|]. cbn [length]. lia.
  - by destruct (shutting_down th0).
  - destruct (shutting_down th0); lia.
  - exists th0. split; [cbn; by rewrite insert_id|]. split; [by rewrite H0|]. unfold work. rewrite H0, H1. cbn. lia.
  - exists th0. split; [cbn; by rewrite insert_id|]. split; [by rewrite H0|]. unfold work. rewrite H0, H1. cbn. lia.
Qed.

Lemma works s ls s' : (forall ops, ops <> [] -> (0 < group ops)%nat) ->
  @steps _ _ (wbq_lts capacity batch_cap group false) s ls s' -> Forall thread_label ls ->
  forall t th, sole s (Some (t, th)) -> (phase th = Exited -> chan s = []) ->
  exists th', sole s' (Some (t, th')) /\ (phase th' = Exited -> chan s' = []) /\
              (length ls + work (chan s') th' <= work (chan s) th)%nat.
Proof.
  intros Hg Hst. induction Hst as [s|s l s1 ls s2 Hstep Hst IH]; intros Hls t th Hs Hx; [exists th; split; [done|split; [done|cbn; lia]]|].
  apply Forall_cons in Hls as [Hl Hls]. destruct (step_works _ _ _ _ _ Hg Hstep Hl Hs) as (Eh & th1 & Et & Hx1 & Hlt).
  destruct (IH Hls t th1) as (th' & Hs' & Hx' & Hle); [|done|].
  - destruct Hs as [Hs1 Hs2]. split; [by rewrite Eh|]. rewrite Et, Hs2. apply insert_singleton_eq.
  - exists th'. split; [done|]. split; [done|]. cbn [length]. lia.
Qed.

(** A thread that cannot move has nothing left. *)
Lemma stuck_idle s t th : sole s (Some (t, th)) -> phase th <> Exited ->
  (forall l s', thread_label l -> ~ step s l s') -> phase th = Receiving /\ chan s = [].
Proof.
  intros Hs Hex Hst. assert (threads s !! t = Some th) as Ht by (destruct Hs as [_ ->]; apply lookup_singleton_eq).
  destruct (phase th) as [|batch|[|op rest]| |op|op|] eqn:Ep; try done; [|exfalso..].
  - split; [done|]. destruct (chan s) as [|m c] eqn:Ec; [done|]. exfalso.
    destruct (receive_pass batch_cap (flush_waiters th) (shutting_down th) (chan s)) as [p c'] eqn:Er.
    eapply (Hst LReceive); [done|]. eapply ws_receive; [exact Ht|done|by rewrite Ec|exact Er].
  - eapply (Hst LCount); [done|]. by eapply ws_count.
  - eapply (Hst LAcknowledge); [done|]. by eapply ws_acknowledge.
  - eapply (Hst LExecute); [done|]. by eapply (ws_execute _ _ _ _ _ _ _ _ true).
  - destruct (chan s) as [|[op|w|] c] eqn:Ec; (eapply (Hst LFinish); [done|]).
    + by eapply ws_finished.
    + by eapply ws_finish_op.
    + by eapply ws_finish_flush.
    + by eapply ws_finish_shutdown.
  - eapply (Hst LFinish); [done|]. by eapply ws_finish_count.
  - eapply (Hst LFinish); [done|]. by eapply (ws_finish_execute _ _ _ _ _ _ _ _ true).
Qed.

(** C6: while no shutdown gives up on its drain thread, the write-behind queue
    settles what it accepted in the order it accepted it, nothing twice and
    nothing passed over, however producers, drain threads, deaths of threads,
    restarts and shutdowns interleave; and an acknowledged flush is a barrier:
    every operation accepted before the flush has an outcome. *)
Theorem flush_is_barrier s : reached s ->
  accepted s = map fst (settled s) ++ all_in_hand s ++ ops_of (chan s) /\
  forall w, w ∈ acknowledged_flushes s -> exists n, flushes s !! w = Some n /\ take n (accepted s) = map fst (take n (settled s)) /\
    (n <= length (settled s))%nat.
Proof.
  intros Hr. destruct (queue_reachable_ok s Hr) as (o & Hs & Hq).
  assert (accepted s = map fst (settled s) ++ all_in_hand s ++ ops_of (chan s)) as Ha
    by (rewrite (sole_in_hand _ _ Hs); apply Hq).
  split; [done|]. intros w Hin. destruct (qo_flushed _ _ Hq w Hin) as (n & Hn & Hle). exists n. split; [done|]. split; [|done].
  by apply prefix_settled.
Qed.

(** C18: a drain thread left alone empties the queue: from any state that is
    reached without a shutdown having given up on a thread, it has only so many
    steps, and when it has none left, whether it waits or has exited, every accepted
    operation is settled (as long as a non-empty batch has a first group, which
    [wbq_message_bundle_batch_end] gives it).  (A thread a shutdown gave up on may hold operations for
    as long as it likes.) *)
Theorem queue_drains s t th ls s' :
  (forall ops, ops <> [] -> (0 < group ops)%nat) -> reached s -> threads s !! t = Some th -> phase th <> Exited ->
  @steps _ _ (wbq_lts capacity batch_cap group false) s ls s' -> Forall thread_label ls ->
  (length ls <= 4 * length (chan s) + length (in_hand th) + 4)%nat /\
  ((forall l s'', thread_label l -> ~ step s' l s'') -> accepted s' = map fst (settled s')).
Proof.
  intros Hg Hr Ht Hx Hst Hls. destruct (sole_has s t th (queue_reachable_ok s Hr) Ht) as [Hs _].
  destruct (works _ _ _ Hg Hst Hls t th Hs) as (th' & Hs' & Hx' & Hle); [done|]. split.
  - assert (work (chan s) th <= 4 * length (chan s) + length (in_hand th) + 4)%nat; [|lia].
    unfold work, in_hand. destruct (phase th); cbn [length]; lia.
  - intros Hstuck. destruct (queue_reachable_ok s' (reachable_steps _ _ _ Hr Hst)) as (o & Ho & Hq).
    assert (o = Some (t, th')) as -> by (apply (sole_lookup s'); [done|]; destruct Hs' as [_ ->]; apply lookup_singleton_eq).
    rewrite (qo_order _ _ Hq). cbn [held snd fmap option_fmap option_map].
    assert (in_hand th' = [] /\ chan s' = []) as [-> ->]; [|by rewrite app_nil_r].
    assert (phase th' = Exited \/ phase th' <> Exited) as [Ex|Ex] by (destruct (phase th'); [right..|left]; done).
    + split; [|by apply Hx']. unfold in_hand. by rewrite Ex.
    + destruct (stuck_idle s' t th' Hs' Ex Hstuck) as [Ep Ec]. split; [|done]. unfold in_hand. by rewrite Ep.
Qed.
End queue.

(** ** Groups, retries and the circuit breaker *)

Section groups.
  Context {Config Json : Type} (storage_root git_author_name git_author_email : Config -> ustr).
#[local] Abbreviation group_end := (wbq_message_bundle_batch_end (Json := Json) storage_root git_author_name git_author_email).
#[local] Abbreviation group_key := (message_bundle_batch_group_key (Json := Json) storage_root git_author_name git_author_email).
#[local] Abbreviation groups_of := (batch_groups (Json := Json) storage_root git_author_name git_author_email).

Lemma group_end_pos ops : ops <> [] -> (0 < group_end ops)%nat.
Proof. destruct ops as [|op ops]; [done|]. intros _. cbn. destruct (group_key op); lia. Qed.

(** The groups are the batch, and only bundles of one archive and author share one. *)
Lemma batch_groups_concat fuel : forall batch, (length batch <= fuel)%nat ->
  concat (groups_of fuel batch) = batch.
Proof.
  induction fuel as [|fuel IH]; intros [|op batch] Hl; [done|cbn in Hl; lia|done|].
  cbn [batch_groups concat]. rewrite IH, take_drop; [done|].
  pose proof (group_end_pos (op :: batch) ltac:(done)). rewrite length_drop. cbn [length] in *. lia.
Qed.

Lemma same_group_keys key batch : Forall (fun op => group_key op = Some key)
  (take (same_group storage_root git_author_name git_author_email key batch) batch).
Proof. induction batch as [|op batch IH]; cbn; [constructor|]. case_bool_decide; cbn; by constructor. Qed.

Lemma batch_groups_uniform fuel : forall batch,
  Forall (fun ops => exists op rest, ops = op :: rest /\ (rest = [] \/ exists key, Forall (fun o => group_key o = Some key) ops))
    (groups_of fuel batch).
Proof.
  induction fuel as [|fuel IH]; intros [|op batch]; [constructor..|]. cbn [batch_groups]. constructor; [|apply IH].
  cbn [wbq_message_bundle_batch_end]. destruct (group_key op) as [key|] eqn:Ek; cbn [take].
  - eexists _, _. split; [done|]. right. exists key. constructor; [done|]. apply same_group_keys.
  - exists op, []. split; [done|]. by left.
Qed.
End groups.

(** At most three attempts; all but the last failed in a way worth another, and
    the last is the result. *)
Lemma wbq_execute_op_attempts attempt : let '(r, n) := wbq_execute_op attempt in
  (1 <= n <= 3)%nat /\ r = attempt (n - 1)%nat /\
  (forall i, (i < n - 1)%nat -> exists e, attempt i = inl e /\ retryable e = true) /\
  ((n < 3)%nat -> r = inr tt \/ exists e, r = inl e /\ retryable e = false).
Proof.
  assert (forall i, (i < 0)%nat -> exists e, attempt i = inl e /\ retryable e = true) as H0 by lia.
  unfold wbq_execute_op. cbn [execute_loop Nat.leb].
  destruct (attempt 0%nat) as [e0|[]] eqn:E0; [|split_and!; auto; lia].
  destruct (retryable e0) eqn:R0; [|split_and!; eauto; lia].
  assert (forall i, (i < 1)%nat -> exists e, attempt i = inl e /\ retryable e = true) as H1
    by (intros i Hi; assert (i = 0)%nat as -> by lia; eauto).
  destruct (attempt 1%nat) as [e1|[]] eqn:E1; [|split_and!; auto; lia].
  destruct (retryable e1) eqn:R1; [|split_and!; eauto; lia].
  assert (forall i, (i < 2)%nat -> exists e, attempt i = inl e /\ retryable e = true) as H2
    by (intros i Hi; destruct (decide (i = 1)%nat) as [->|]; [eauto|apply H1; lia]).
  destruct (attempt 2%nat) as [e2|[]] eqn:E2; split_and!; auto; lia.
Qed.

(** The breaker over a run of outcomes at their times: the trips. *)
Fixpoint breaker_run (threshold cooldown : Z) (st : ArchiveFailureState) (run : list (bool * Z)) : list Z :=
  match run with
  | [] => []
  | (failed, now) :: run =>
      let '(st, trip) := circuit_breaker_decide st failed threshold now cooldown in
      (if trip then [now] else []) ++ breaker_run threshold cooldown st run
  end.

(** Trips of an archive are a cooldown apart. *)
Lemma trips_spaced threshold cooldown run : forall st,
  0 <= last_trip_micros st -> in_i64 (last_trip_micros st) -> Forall (fun o => 0 < snd o <= i64_max) run ->
  let trips := breaker_run threshold cooldown st run in
  Sorted (fun t t' => t + cooldown <= t') (if last_trip_micros st =? 0 then trips else last_trip_micros st :: trips).
Proof.
  induction run as [|[failed now] run IH]; intros st Hl Hi Hr; cbn zeta; cbn [breaker_run].
  { destruct (last_trip_micros st =? 0); repeat constructor. }
  apply Forall_cons in Hr as [Hn Hr]. cbn [snd] in Hn. unfold circuit_breaker_decide.
  destruct failed; cbn [negb]; [|by apply (IH (mkFailures 0 _ _))].
  destruct ((threshold <=? usat_add (consecutive_failures st) 1) &&
            ((last_trip_micros st =? 0) || (cooldown <=? isat_sub now (last_trip_micros st)))) eqn:Et; [|by apply (IH (mkFailures _ _ _))].
  apply andb_true_iff in Et as [_ Ec]. unfold in_i64, i64_min, i64_max in *.
  specialize (IH (mkFailures (usat_add (consecutive_failures st) 1) now (usat_add (trips_total st) 1)) ltac:(cbn; lia)
                 ltac:(cbn; lia) Hr).
  cbn [last_trip_micros] in IH. rewrite (proj2 (Z.eqb_neq now 0)) in IH by lia. cbn [app].
  destruct (last_trip_micros st =? 0) eqn:E0; [exact IH|]. constructor; [exact IH|]. constructor. cbn [orb] in Ec.
  rewrite isat_sub_exact in Ec by (unfold in_i64, i64_min, i64_max; lia). lia.
Qed.

(** While an archive keeps failing, the breaker trips again at every cooldown. *)
Lemma trips_again : breaker_run 5 60 no_failures (map (fun n => (true, Z.of_nat n * 30)) (seq 1 9)) = [150; 210; 270].
Proof. reflexivity. Qed.

(** ** Concrete runs *)

#[local] Abbreviation run_group := (wbq_message_bundle_batch_end (Json := unit) (Config := unit) (fun _ => []) (fun _ => []) (fun _ => [])).
#[local] Abbreviation RunOp := (WriteOp unit unit).
Definition run_op : RunOp := ClearSignal tt (u "backend") (u "BlueLake").
#[local] Abbreviation run_reached detaches := (@reachable _ _ (wbq_lts 8 4 run_group detaches)).

(** A producer sends to the running queue. *)
Definition produced (op : RunOp) (s : Wbq RunOp) : Wbq RunOp :=
  send_taken op (reserve_enqueue (generation s) op s).

Lemma produced_reached b op s : run_reached b s -> lifecycle_free s -> (length (chan s) < 8)%nat -> run_reached b (produced op s).
Proof.
  intros Hr Hl Hc. eapply reach_step; [eapply reach_step; [exact Hr|]|].
  - by apply (ws_reserve 8 4 run_group b s (generation s) op).
  - by eapply ws_send.
Qed.

Lemma flush_reached b w s : run_reached b s -> (length (chan s) < 8)%nat -> flushes s !! w = None -> run_reached b (flush_taken w s).
Proof. intros Hr Hc Hw. eapply reach_step; [exact Hr|]. by apply (ws_flush 8 4 run_group b s (generation s) w). Qed.

(** Two writes, a flush between them, and the thread has received all three. *)
Definition run_started : Wbq RunOp := wbq_start_inner 8 new_write_behind_queue.
Definition run_sent : Wbq RunOp := produced run_op (flush_taken 0 (produced run_op run_started)).
Definition run_received : Wbq RunOp := set_chan [] (set_thread 0 (mkThread (Counting [run_op; run_op]) [0%nat] false 2) run_sent).
Definition run_counted : Wbq RunOp := set_depth 0 (set_thread 0 (mkThread (Executing [run_op; run_op]) [0%nat] false 0) run_received).
Definition run_executed : Wbq RunOp :=
  settle [run_op] Persisted (set_thread 0 (mkThread (Executing []) [0%nat] false 0)
    (settle [run_op] Failed (set_thread 0 (mkThread (Executing [run_op]) [0%nat] false 0) run_counted))).
Definition run_flushed : Wbq RunOp := acknowledge [0%nat] (set_thread 0 (mkThread Receiving [] false 0) run_executed).

Lemma run_sent_reached b : run_reached b run_sent.
Proof.
  apply produced_reached; [|done|cbn; lia]. apply flush_reached; [|cbn; lia|done].
  apply produced_reached; [|done|cbn; lia]. eapply reach_step; [by apply reach_init|]. by apply ws_start.
Qed.

Lemma run_received_steps : @steps _ _ (wbq_lts 8 4 run_group false) run_sent
  [LReceive; LCount; LExecute; LExecute; LAcknowledge] run_flushed.
Proof.
  eapply steps_cons; [by eapply (ws_receive _ _ _ _ run_sent 0)|].
  eapply steps_cons; [by eapply (ws_count _ _ _ _ run_received 0)|].
  eapply steps_cons; [by eapply (ws_execute _ _ _ _ run_counted 0 _ _ false)|].
  eapply steps_cons; [by eapply (ws_execute _ _ _ _ _ 0 _ _ true)|].
  eapply steps_cons; [by eapply (ws_acknowledge _ _ _ _ run_executed 0)|].
  apply steps_nil.
Qed.

Lemma flush_is_barrier_witness : run_reached false run_flushed /\ 0%nat ∈ acknowledged_flushes run_flushed /\
  exists n, flushes run_flushed !! 0%nat = Some n /\ take n (accepted run_flushed) = map fst (take n (settled run_flushed)).
Proof.
  assert (run_reached false run_flushed) as Hr by exact (reachable_steps _ _ _ (run_sent_reached false) run_received_steps).
  assert (0%nat ∈ acknowledged_flushes run_flushed) as Hin by (vm_compute; reflexivity).
  split; [exact Hr|]. split; [exact Hin|].
  destruct (proj2 (flush_is_barrier 8 4 run_group run_flushed Hr) 0%nat Hin) as (n & Hn & Ht & _). exists n. exact (conj Hn Ht).
Defined.

(** The flush is acknowledged although the write before it failed. *)
Lemma flush_acknowledges_failures :
  run_reached false run_flushed /\ 0%nat ∈ acknowledged_flushes run_flushed /\ flushes run_flushed !! 0%nat = Some 1%nat /\
  take 1 (settled run_flushed) = [(run_op, Failed)].
Proof. split; [exact (reachable_steps _ _ _ (run_sent_reached false) run_received_steps)|]. by vm_compute. Qed.

Lemma run_flushed_idle l s : thread_label l -> ~ wbq_step 8 4 run_group false run_flushed l s.
Proof.
  assert (forall t th, threads run_flushed !! t = Some th -> th = mkThread Receiving [] false 0) as Hth.
  { intros t th. cbn. intros [[<- <-]|[Hne Ht]]%lookup_insert_Some; [done|].
    rewrite !lookup_insert_ne, lookup_empty in Ht by done. done. }
  intros Hl Hs. inversion Hs; subst; try done; match goal with H : _ !! _ = Some _ |- _ => apply Hth in H; subst; done end.
Qed.

Lemma queue_drains_witness : run_reached false run_sent /\ (5 <= 16)%nat /\ accepted run_flushed = map fst (settled run_flushed).
Proof.
  split; [exact (run_sent_reached false)|].
  destruct (queue_drains 8 4 run_group run_sent 0 (mkThread Receiving [] false 0) _ run_flushed (group_end_pos _ _ _)
              (run_sent_reached false) ltac:(reflexivity) ltac:(discriminate) run_received_steps) as [H1 H2].
  { repeat constructor. }
  split; [exact H1|]. apply H2. exact run_flushed_idle.
Defined.

(** A shutdown that gave up on its thread, then a restart: the old thread still
    has a write in its hands when the new one acknowledges a later flush. *)
Definition took_one : Wbq RunOp := set_chan [] (set_thread 0 (mkThread (Counting [run_op]) [] false 1) (produced run_op run_started)).
Definition wedged : Wbq RunOp := set_depth 0 (set_thread 0 (mkThread (Executing [run_op]) [] false 0) took_one).
Definition shutting : Wbq RunOp := shutdown_started wedged.
Definition detached : Wbq RunOp := stop false (flush_taken 0 shutting).
Definition restarted : Wbq RunOp := flush_taken 1 (wbq_start_inner 8 detached).
Definition took_flushes : Wbq RunOp := set_chan [] (set_thread 1 (mkThread (Counting []) [0%nat; 1%nat] false 0) restarted).
Definition counted_flushes : Wbq RunOp := set_depth 0 (set_thread 1 (mkThread (Executing []) [0%nat; 1%nat] false 0) took_flushes).
Definition barrier_broken : Wbq RunOp := acknowledge [0%nat; 1%nat] (set_thread 1 (mkThread Receiving [] false 0) counted_flushes).

Lemma wedged_reached b : run_reached b wedged.
Proof.
  assert (run_reached b (produced run_op run_started)) as Hp.
  { apply produced_reached; [|done|cbn; lia]. eapply reach_step; [by apply reach_init|]. by apply ws_start. }
  assert (run_reached b took_one) as Ht by (eapply reach_step; [exact Hp|]; by apply (ws_receive 8 4 run_group b (produced run_op run_started) 0 (mkThread Receiving [] false 0) (mkPass [run_op] [] false) [])).
  eapply reach_step; [exact Ht|]. by apply (ws_count 8 4 run_group b took_one 0 (mkThread (Counting [run_op]) [] false 1) [run_op]).
Qed.

Lemma barrier_broken_reached : run_reached true barrier_broken.
Proof.
  assert (run_reached true restarted) as Hr.
  { apply flush_reached; [|vm_compute; lia|done].
    assert (run_reached true shutting) as Hs by (eapply reach_step; [apply wedged_reached|by apply ws_stop]).
    assert (run_reached true detached) as Hd.
    { eapply reach_step; [apply (flush_reached true 0 shutting Hs); [vm_compute; lia|done]|]. by apply (ws_detached _ _ _ _ _ 0). }
    eapply reach_step; [exact Hd|]. by apply ws_start. }
  assert (run_reached true took_flushes) as Ht.
  { eapply reach_step; [exact Hr|].
    by apply (ws_receive 8 4 run_group true restarted 1 (mkThread Receiving [] false 0) (mkPass [] [0%nat; 1%nat] false) []). }
  eapply reach_step; [eapply reach_step; [exact Ht|]|].
  - by apply (ws_count 8 4 run_group true took_flushes 1 (mkThread (Counting []) [0%nat; 1%nat] false 0) []).
  - by apply (ws_acknowledge 8 4 run_group true counted_flushes 1 (mkThread (Executing []) [0%nat; 1%nat] false 0)).
Qed.

Lemma detached_thread_breaks_the_barrier :
  run_reached true barrier_broken /\ 1%nat ∈ acknowledged_flushes barrier_broken /\
  flushes barrier_broken !! 1%nat = Some 1%nat /\ accepted barrier_broken = [run_op] /\ settled barrier_broken = [].
Proof. split; [exact barrier_broken_reached|]. by vm_compute. Qed.
