(* ===== verification/GuardScan.v ===== *)
(** * The paths a commit or a push touches ([guard/src/lib.rs])

    The output of git as bytes, its two parsers (of a whole text, and of a stream
    with a cap), the bounds of the scan and the scan of a push.  Git is third-party
    code: what its processes did is an argument. *)

From S2P Require Import Prelude.
From S2P Require Import RustStr.
From S2P Require Import RustText.
From S2P Require Import AgentNames.

(** ** Bytes as text *)

Section lossy.
#[local] Open Scope N_scope.

Definition REPLACEMENT_CHARACTER : N := 65533.
Definition byte_in (lo hi b : N) : bool := (lo <=? b) && (b <=? hi).
Definition is_continuation (b : N) : bool := byte_in 128 191 b.

(** The second byte of a sequence of three and of four. *)
Definition second_of_three (b : N) : N -> bool :=
  if b =? 224 then byte_in 160 191 else if b =? 237 then byte_in 128 159 else is_continuation.
Definition second_of_four (b : N) : N -> bool :=
  if b =? 240 then byte_in 144 191 else if b =? 244 then byte_in 128 143 else is_continuation.

(** [String::from_utf8_lossy]: the longest beginning of a sequence that cannot go
    on is one replacement character. *)
Fixpoint from_utf8_lossy (bytes : list N) : ustr :=
  match bytes with
  | [] => []
  | b :: r =>
      if b <? 128 then b :: from_utf8_lossy r
      else if byte_in 194 223 b then
        match r with
        | b2 :: r2 =>
            if is_continuation b2 then ((b - 192) * 64 + (b2 - 128)) :: from_utf8_lossy r2
            else REPLACEMENT_CHARACTER :: from_utf8_lossy r
        | [] => [REPLACEMENT_CHARACTER]
        end
      else if byte_in 224 239 b then
        match r with
        | b2 :: r2 =>
            if second_of_three b b2 then
              match r2 with
              | b3 :: r3 =>
                  if is_continuation b3 then ((b - 224) * 4096 + (b2 - 128) * 64 + (b3 - 128)) :: from_utf8_lossy r3
                  else REPLACEMENT_CHARACTER :: from_utf8_lossy r2
              | [] => [REPLACEMENT_CHARACTER]
              end
            else REPLACEMENT_CHARACTER :: from_utf8_lossy r
        | [] => [REPLACEMENT_CHARACTER]
        end
      else if byte_in 240 244 b then
        match r with
        | b2 :: r2 =>
            if second_of_four b b2 then
              match r2 with
              | b3 :: r3 =>
                  if is_continuation b3 then
                    match r3 with
                    | b4 :: r4 =>
                        if is_continuation b4 then
                          ((b - 240) * 262144 + (b2 - 128) * 4096 + (b3 - 128) * 64 + (b4 - 128)) :: from_utf8_lossy r4
                        else REPLACEMENT_CHARACTER :: from_utf8_lossy r3
                    | [] => [REPLACEMENT_CHARACTER]
                    end
                  else REPLACEMENT_CHARACTER :: from_utf8_lossy r2
              | [] => [REPLACEMENT_CHARACTER]
              end
            else REPLACEMENT_CHARACTER :: from_utf8_lossy r
        | [] => [REPLACEMENT_CHARACTER]
        end
      else REPLACEMENT_CHARACTER :: from_utf8_lossy r
  end.
End lossy.

(** ** Errors *)

(** @src guard/src/lib.rs:17-46 GuardError
    -- those of the checks; [Io] stands for what the system or a git process
    reported. *)
Inductive GuardError :=
  | MissingAgentName | InvalidReservationPattern (pattern error : ustr) | PushScanTruncated (parts : nat) | IoError.

(** ** The parser of a whole output *)

Definition two_paths (status : ustr) : bool :=
  match status with c :: _ => (c =? ch "R")%N || (c =? ch "C")%N | [] => false end.
Definition nonempty_path (p : ustr) : list ustr := if is_empty p then [] else [p].

(** @src guard/src/lib.rs:3397-3435 parse_name_status_z
    -- the loop over the parts. *)
Fixpoint parse_parts (parts : list ustr) : list ustr :=
  match parts with
  | [] => []
  | part :: rest =>
      let status := trim part in
      if is_empty status then parse_parts rest
      else if two_paths status then
        match rest with
        | old_p :: new_p :: rest => nonempty_path old_p ++ nonempty_path new_p ++ parse_parts rest
        | [old_p] => nonempty_path old_p
        | [] => []
        end
      else match rest with p :: rest => nonempty_path p ++ parse_parts rest | [] => [] end
  end.

(** @src guard/src/lib.rs:3390-3438 parse_name_status_z *)
Definition parse_name_status_z (raw : list N) : list ustr := parse_parts (split_on (N.eqb 0) (from_utf8_lossy raw)).

(** ** The parser of a stream *)

(** @src guard/src/lib.rs:3049-3055 NameStatusStream *)
Record NameStatusStream := mkStream { tail : list N; paths_left : nat; records : Z; capped : bool; paths : list ustr }.
Definition default_stream : NameStatusStream := mkStream [] 0 0 false [].

(** @src guard/src/lib.rs:3078-3098 NameStatusStream::push_token *)
Definition push_token (token : list N) (max_records : option Z) (st : NameStatusStream) : bool * NameStatusStream :=
  let token := from_utf8_lossy token in
  match paths_left st with
  | O =>
      let status := trim token in
      if is_empty status then (true, st)
      else if match max_records with Some cap => cap <=? records st | None => false end then (false, st)
      else (true, mkStream (tail st) (if two_paths status then 2 else 1) (records st + 1) (capped st) (paths st))
  | S more => (true, mkStream (tail st) more (records st) (capped st) (paths st ++ nonempty_path token))
  end.

Definition set_tail (t : list N) (st : NameStatusStream) : NameStatusStream :=
  mkStream t (paths_left st) (records st) (capped st) (paths st).

(** @src guard/src/lib.rs:3065-3074 NameStatusStream::feed
    -- the loop over the tokens of [tail], [token] being read. *)
Fixpoint feed_tokens (token rest : list N) (max_records : option Z) (st : NameStatusStream) : NameStatusStream :=
  match rest with
  | [] => set_tail token st
  | b :: rest =>
      if (b =? 0)%N then
        let '(keep_going, st) := push_token token max_records st in
        if keep_going then feed_tokens [] rest max_records st
        else mkStream rest (paths_left st) (records st) true (paths st)
      else feed_tokens (token ++ [b]) rest max_records st
  end.

(** @src guard/src/lib.rs:3059-3076 NameStatusStream::feed *)
Definition feed (chunk : list N) (max_records : option Z) (st : NameStatusStream) : bool * NameStatusStream :=
  if capped st then (false, st)
  else let st := feed_tokens [] (tail st ++ chunk) max_records st in (negb (capped st), st).

(** ** Bounds *)

(** @src guard/src/lib.rs:2788-2795 PushScanLimits
    -- the wall clock is in what the processes did. *)
Record PushScanLimits := mkLimits { max_commits : option Z; max_paths : option Z; timeout : option Z }.

(** @src guard/src/lib.rs:2797-2812 PushScanLimits::DEFAULT_MAX_COMMITS, DEFAULT_MAX_PATHS, DEFAULT_TIMEOUT_SECS, UNBOUNDED *)
Definition DEFAULT_MAX_COMMITS : Z := 2000.
Definition DEFAULT_MAX_PATHS : Z := 100000.
Definition DEFAULT_TIMEOUT_SECS : Z := 120.
Definition UNBOUNDED : PushScanLimits := mkLimits None None None.

(** @src guard/src/lib.rs:2838-2861 parse_push_bound *)
Definition parse_push_bound (raw : option ustr) (default_ : Z) : option Z :=
  let raw := default [] (trim <$> raw) in
  if is_empty raw then Some default_
  else match parse_i64 raw with
       | Some value => if 0 <? value then Some value else None
       | None => Some default_
       end.

(** @src guard/src/lib.rs:2814-2826 PushScanLimits::from_env *)
Definition limits_from_env (commits paths_ timeout_ : option ustr) : PushScanLimits :=
  mkLimits (parse_push_bound commits DEFAULT_MAX_COMMITS) (parse_push_bound paths_ DEFAULT_MAX_PATHS)
    (parse_push_bound timeout_ DEFAULT_TIMEOUT_SECS).

(** ** Processes *)

(** How a process ended: well, and, if not, in the shape of a crash. *)
Record ExitStatus := mkStatus { success : bool; segfault : bool }.

(** @src guard/src/lib.rs:2704 SEGFAULT_BACKOFFS_MS *)
Definition SEGFAULT_RETRIES : nat := 3.

(** One attempt at a command that is killed at the deadline. *)
Inductive ChildRun := SpawnFails | PastDeadline | Exited (status : ExitStatus) (stdout : list N).

(** @src guard/src/lib.rs:3312-3374 run_git_until
    -- [retries]: attempts left after [attempt]; a run past the deadline is [None]. *)
Fixpoint run_git_until (retries : nat) (run : nat -> ChildRun) (attempt : nat) : GuardError + option (ExitStatus * list N) :=
  match run attempt with
  | SpawnFails => inl IoError
  | PastDeadline => inr None
  | Exited status stdout =>
      match retries with
      | S retries => if segfault status then run_git_until retries run (S attempt) else inr (Some (status, stdout))
      | O => inr (Some (status, stdout))
      end
  end.

(** @src guard/src/lib.rs:2672-2701 guard_run_git_with_retry
    -- [None]: the command cannot be run. *)
Fixpoint guard_run_git_with_retry (retries : nat) (run : nat -> option (ExitStatus * list N)) (attempt : nat) :
    option (ExitStatus * list N) :=
  match run attempt with
  | None => None
  | Some (status, stdout) =>
      if negb (segfault status) then Some (status, stdout)
      else match retries with
           | S retries => guard_run_git_with_retry retries run (S attempt)
           | O => Some (status, stdout)
           end
  end.

(** @src guard/src/lib.rs:2743-2762 get_staged_paths *)
Definition get_staged_paths (run : nat -> option (ExitStatus * list N)) : GuardError + list ustr :=
  match guard_run_git_with_retry SEGFAULT_RETRIES run 0 with
  | None => inl IoError
  | Some (status, stdout) => if negb (success status) then inl IoError else inr (parse_name_status_z stdout)
  end.

(** One attempt at the pipeline: the chunks that were read, whether the reader
    then met the end of the output or an error, whether the deadline passed, and
    how the two processes ended. *)
Inductive PipeRun :=
  | PipeFails
  | PipePastDeadline
  | Piped (chunks : list (list N)) (read_to_end timed_out : bool) (rev_list diff_tree : ExitStatus).

(** @src guard/src/lib.rs:3254-3268 drive_pipeline
    -- the reader: it stops at the cap. *)
Fixpoint read_chunks (chunks : list (list N)) (max_records : option Z) (st : NameStatusStream) : NameStatusStream :=
  match chunks with
  | [] => st
  | chunk :: chunks =>
      let '(keep_going, st) := feed chunk max_records st in if keep_going then read_chunks chunks max_records st else st
  end.

(** @src guard/src/lib.rs:3026-3040 ScanStop, StreamOutcome *)
Inductive ScanStop := Complete | Capped | TimedOut.
Record StreamOutcome := mkOutcome { so_paths : list ustr; so_records : Z; so_stop : ScanStop }.

(** @src guard/src/lib.rs:3106-3223 stream_push_commit_paths *)
Fixpoint stream_push_commit_paths (retries : nat) (run : nat -> PipeRun) (max_records : option Z) (attempt : nat) :
    GuardError + StreamOutcome :=
  match run attempt with
  | PipeFails => inl IoError
  | PipePastDeadline => inr (mkOutcome [] 0 TimedOut)
  | Piped chunks _ timed_out rev_list diff_tree =>
      let parser := read_chunks chunks max_records default_stream in
      if capped parser then inr (mkOutcome (paths parser) (records parser) Capped)
      else if success rev_list && success diff_tree then inr (mkOutcome (paths parser) (records parser) Complete)
      else if timed_out then inr (mkOutcome (paths parser) (records parser) TimedOut)
      else match retries with
           | S retries =>
               if segfault rev_list || segfault diff_tree then stream_push_commit_paths retries run max_records (S attempt)
               else inl IoError
           | O => inl IoError
           end
  end.

(** ** The scan of a push *)

(** What of a push was not inspected, by the revisions of the ref. *)
Inductive Unchecked :=
  | CountTimedOut (revs : list ustr) | OverCap (revs : list ustr) (cap : Z)
  | RecordsCapped (revs : list ustr) (records : Z) | PathsTimedOut (revs : list ustr) (records : Z).

(** @src guard/src/lib.rs:2863-2871 PushScan *)
Record PushScan := mkScan { scan_paths : gset ustr; unchecked : list Unchecked }.

(** @src guard/src/lib.rs:2873-2879 PushScan::is_complete *)
Definition is_complete (scan : PushScan) : bool := match unchecked scan with [] => true | _ => false end.

Definition all_zeros (sha : ustr) : bool := forallb (N.eqb (ch "0")) sha.

(** @src guard/src/lib.rs:2916-2944 scan_push_paths
    -- the revisions a ref line asks for, [None] when there is nothing to inspect. *)
Definition ref_revs (line : ustr) : option (list ustr) :=
  match split_whitespace line with
  | _ :: local_sha :: _ :: remote_sha :: _ =>
      if all_zeros local_sha then None
      else if all_zeros remote_sha then Some [local_sha; u "--not"; u "--remotes"]
      else Some [remote_sha ++ u ".." ++ local_sha]
  | _ => None
  end.

Section scan.
  (** What git did for the ref of a line: [rev-list --count] with its [-n], and the
      pipeline for so many commits. *)
  Context (git_count : nat -> list ustr -> option Z -> nat -> ChildRun) (git_paths : nat -> list ustr -> Z -> nat -> PipeRun).

(** @src guard/src/lib.rs:2916-3013 scan_push_paths
    -- one ref that is to be inspected; the flag: the deadline passed, and the refs
    after it are not looked at. *)
Definition scan_ref (limits : PushScanLimits) (i : nat) (rev_args : list ustr) (acc : PushScan) :
    GuardError + (bool * PushScan) :=
  let count_arg := (fun cap => usat_add cap 1) <$> max_commits limits in
  match run_git_until SEGFAULT_RETRIES (git_count i rev_args count_arg) 0 with
  | inl e => inl e
  | inr None => inr (true, mkScan (scan_paths acc) (unchecked acc ++ [CountTimedOut rev_args]))
  | inr (Some (status, stdout)) =>
      if negb (success status) then inl IoError
      else match parse_u64 (trim (from_utf8_lossy stdout)) with
           | None => inl IoError
           | Some count =>
               if count =? 0 then inr (false, acc)
               else
                 let '(inspect, acc) :=
                   match max_commits limits with
                   | Some cap => if cap <? count then (cap, mkScan (scan_paths acc) (unchecked acc ++ [OverCap rev_args cap])) else (count, acc)
                   | None => (count, acc)
                   end in
                 match stream_push_commit_paths SEGFAULT_RETRIES (git_paths i rev_args inspect) (max_paths limits) 0 with
                 | inl e => inl e
                 | inr outcome =>
                     let paths_ := list_to_set (so_paths outcome) ∪ scan_paths acc in
                     match so_stop outcome with
                     | Complete => inr (false, mkScan paths_ (unchecked acc))
                     | Capped => inr (false, mkScan paths_ (unchecked acc ++ [RecordsCapped rev_args (so_records outcome)]))
                     | TimedOut => inr (true, mkScan paths_ (unchecked acc ++ [PathsTimedOut rev_args (so_records outcome)]))
                     end
                 end
           end
  end.

(** @src guard/src/lib.rs:2907-3019 scan_push_paths
    -- the loop over the lines. *)
Fixpoint scan_lines (limits : PushScanLimits) (i : nat) (lines : list ustr) (acc : PushScan) : GuardError + PushScan :=
  match lines with
  | [] => inr acc
  | line :: lines =>
      match ref_revs line with
      | None => scan_lines limits (S i) lines acc
      | Some rev_args =>
          match scan_ref limits i rev_args acc with
          | inl e => inl e
          | inr (true, acc) => inr acc
          | inr (false, acc) => scan_lines limits (S i) lines acc
          end
      end
  end.

(** @src guard/src/lib.rs:2907-3019 scan_push_paths
    -- a carriage return before a line feed is white space of the line. *)
Definition scan_push_paths (stdin_lines : ustr) (limits : PushScanLimits) : GuardError + PushScan :=
  scan_lines limits 0 (split_on (N.eqb 10) stdin_lines) (mkScan ∅ []).

(** @src guard/src/lib.rs:2889-2898 get_push_paths *)
Definition get_push_paths (stdin_lines : ustr) (limits : PushScanLimits) : GuardError + list ustr :=
  match scan_push_paths stdin_lines limits with
  | inl e => inl e
  | inr scan =>
      if is_complete scan then inr (merge_sort str_le (elements (scan_paths scan)))
      else inl (PushScanTruncated (length (unchecked scan)))
  end.
End scan.
