(* ===== verification/Guard.v ===== *)
(** * The pre-commit guard ([guard/src/lib.rs])

    What of the archive counts as an active reservation, and which of the paths of
    a commit are in the way of one. *)

From S2P Require Import Prelude.
From S2P Require Import RustStr.
From S2P Require Import RustText.
From S2P Require Import Pattern.
From S2P Require Import GuardScan.

(** ** Settings *)

(** @src guard/src/lib.rs:50-70 GuardMode *)
Inductive GuardMode := Block | Warn.

(** @src guard/src/lib.rs:56-69 GuardMode::from_env *)
Definition mode_from_env (var : option ustr) : GuardMode :=
  if ustr_eqb (to_ascii_lowercase (trim (default (u "block") var))) (u "warn") then Warn else Block.

(** @src guard/src/lib.rs:2055-2062 is_truthy_value *)
Definition is_truthy_value (value : option ustr) : bool :=
  match value with
  | Some v => existsb (ustr_eqb (to_ascii_lowercase (trim v))) [u "1"; u "true"; u "t"; u "yes"; u "y"]
  | None => false
  end.

(** @src guard/src/lib.rs:2064-2084 is_guard_gated_from_values *)
Definition is_guard_gated_from_values (enforcement_enabled worktrees_enabled git_identity_enabled : option ustr) : bool :=
  match enforcement_enabled with
  | Some val => negb (existsb (ustr_eqb (to_ascii_lowercase (trim val))) [u "0"; u "false"; u "f"; u "no"; u "n"])
  | None => true
  end.

(** ** Paths *)

(** @src guard/src/lib.rs:12-15 DEFAULT_EXEMPT_PATH_PREFIXES *)
Definition DEFAULT_EXEMPT_PATH_PREFIXES : list ustr := [u ".beads"].

Section paths.
  (** [str::to_lowercase]. *)
  Context (to_lowercase : ustr -> ustr).

(** @src guard/src/lib.rs:2403-2432 normalize_path
    -- the loop over the components is that of [normalize_pattern]. *)
Definition normalize_path (path : ustr) (ignorecase : bool) : ustr :=
  let normalized := join [slash] (foldl push_component [] (split_on is_separator path)) in
  if ignorecase then to_lowercase normalized else normalized.

(** @src guard/src/lib.rs:2447-2455 is_default_exempt_path *)
Definition is_default_exempt_path (path : ustr) (ignorecase : bool) : bool :=
  let normalized := normalize_path path ignorecase in
  existsb (fun prefix => ustr_eqb normalized prefix ||
             match strip_prefix prefix normalized with Some suffix => starts_with [slash] suffix | None => false end)
    DEFAULT_EXEMPT_PATH_PREFIXES.
End paths.

(** @src guard/src/lib.rs:2442-2445 contains_glob *)
Definition contains_glob (s : ustr) : bool :=
  contains_char (ch "*") s || contains_char (ch "?") s || contains_char (ch "[") s || contains_char (ch "{") s.

(** @src guard/src/lib.rs:2238-2263 project_relative_paths
    -- roots by the components of their canonical paths; [project]: what
    [archive_project_root] found. *)
Definition project_relative_paths (project : option (list ustr)) (repo : list ustr) (paths : list ustr) (ignorecase : bool) : list ustr :=
  let as_slashes ws := replace_char backslash [slash] (join [slash] ws) in
  match project with
  | None => paths
  | Some project =>
      if bool_decide (repo `prefix_of` project) then
        let inner := as_slashes (drop (length repo) project) in
        if is_empty inner then paths
        else
          let prefix := inner ++ [slash] in
          omap (fun path =>
            let head := take (length prefix) path in
            let inside := if ignorecase then eq_ignore_ascii_case head prefix else ustr_eqb head prefix in
            if inside then Some (drop (length prefix) path) else None) paths
      else if bool_decide (project `prefix_of` repo) then
        let outer := as_slashes (drop (length project) repo) in
        map (fun path => outer ++ [slash] ++ path) paths
      else paths
  end.

(** ** Artefacts *)

(** A field of a JSON object, absent fields being [Null]; of a number, what
    [as_i64] gives and whether [as_f64] is positive. *)
Inductive Value := Null | VBool (b : bool) | Number (as_i64 : option Z) (positive : bool) | VString (s : ustr) | Composite.
Definition as_str (v : Value) : option ustr := match v with VString s => Some s | _ => None end.
Definition as_i64 (v : Value) : option Z := match v with Number i _ => i | _ => None end.
Definition as_bool (v : Value) : option bool := match v with VBool b => Some b | _ => None end.

(** [str::parse::<f64>] of a text of digits, points and signs, and the sign of
    the result: half the least positive double is rounded to zero. *)
Definition positive_decimal (s : ustr) : bool :=
  let '(neg, r) :=
    match s with
    | c :: r => if (c =? ch "-")%N then (true, r) else if (c =? ch "+")%N then (false, r) else (false, s)
    | [] => (false, [])
    end in
  let '(whole, frac) := match split_once (ch ".") r with Some p => p | None => (r, []) end in
  forallb is_ascii_digit (whole ++ frac) && negb (is_empty (whole ++ frac)) && negb neg &&
  (10 ^ Z.of_nat (length frac) <? digits_value (whole ++ frac) * 2 ^ 1075).

(** @src guard/src/lib.rs:2605-2633 released_ts_marks_record_released *)
Definition released_ts_marks_record_released (value : Value) : bool :=
  match value with
  | Number _ positive => positive
  | VString text =>
      let trimmed := trim text in
      if is_empty trimmed || eq_ignore_ascii_case trimmed (u "null") || eq_ignore_ascii_case trimmed (u "none")
         || ustr_eqb trimmed (u "0") then false
      else if forallb (fun c => is_ascii_digit c || (c =? ch ".")%N || (c =? ch "+")%N || (c =? ch "-")%N) trimmed then
        positive_decimal trimmed
      else true
  | _ => false
  end.

(** Dates by [chrono], as nanoseconds: RFC 3339, and without a zone with and
    without fractions; and the text of seconds and nanoseconds. *)
Class Chrono := {
  parse_rfc3339 : ustr -> option Z;
  parse_naive_frac : ustr -> option Z;
  parse_naive : ustr -> option Z;
  to_rfc3339 : Z -> Z -> option ustr;
}.

(** @src guard/src/lib.rs:2636-2661 is_expired
    -- [now] in nanoseconds. *)
Definition is_expired `{!Chrono} (ts_str : ustr) (now : Z) : bool :=
  match parse_rfc3339 ts_str with
  | Some dt => dt <=? now
  | None =>
      match parse_naive_frac ts_str with
      | Some utc => utc <=? now
      | None =>
          match parse_naive ts_str with
          | Some utc => utc <=? now
          | None => match parse_i64 ts_str with Some num => num <=? now / 1000 | None => false end
          end
      end
  end.

(** An entry of the directory of reservations: its name, the kind when it is
    known, its size when it is known, the text when it can be read. *)
Record DirEntry := mkEntry { de_name : ustr; de_kind : option (bool * bool); de_len : option Z; de_text : option ustr }.

(** [Path::extension] of a file name. *)
Definition extension (name : ustr) : option ustr :=
  match rsplit_once (ch ".") name with Some (stem, ext) => if is_empty stem then None else Some ext | None => None end.

Section reservations.
  (** [serde_json::from_str] and indexing. *)
  Context (from_str : ustr -> option (ustr -> Value)).

(** @src guard/src/lib.rs:2475-2517 scan_reservation_artifacts
    -- one entry; the kind is whether it is a file, and whether a link. *)
Definition scan_entry (entry : DirEntry) : option (ustr -> Value) :=
  match de_kind entry with
  | None => None
  | Some (is_file, is_symlink) =>
      if negb is_file || is_symlink || negb (bool_decide (extension (de_name entry) = Some (u "json"))) then None
      else if match de_len entry with Some len => 1024 * 1024 <? len | None => false end then None
      else content ← de_text entry;
           val ← from_str content;
           if released_ts_marks_record_released (val (u "released_ts")) then None else Some val
  end.

(** @src guard/src/lib.rs:2470-2520 scan_reservation_artifacts
    -- [None]: the listing breaks off. *)
Definition scan_reservation_artifacts (entries : list (option DirEntry)) : GuardError + list (ustr -> Value) :=
  match mapM id entries with None => inl IoError | Some entries => inr (omap scan_entry entries) end.

(** @src guard/src/lib.rs:88-101 FileReservationRecord
    -- without [released_ts], which is always [None]. *)
Record FileReservationRecord := mkRecord {
  path_pattern : ustr; agent_name : ustr; exclusive : bool; expires_ts : ustr; normalized_pattern : ustr; has_glob : bool;
}.

Context `{!Chrono} (to_lowercase : ustr -> ustr).

(** @src guard/src/lib.rs:2539-2567 read_active_reservations_from_archive
    -- the expiry as a text, [None] when there is none or it has passed. *)
Definition expiry_text (value : Value) (now : Z) : option ustr :=
  match as_str value with
  | Some s => Some s
  | None =>
      match as_i64 value with
      | Some num =>
          if num <=? now / 1000 then None
          else
            let n := Z.rem num 1000000 * 1000 in
            to_rfc3339 (Z.quot num 1000000) (if (0 <=? n) && (n <=? u32_max) then n else 0)
      | None => None
      end
  end.

(** @src guard/src/lib.rs:2539-2600 read_active_reservations_from_archive
    -- one artefact. *)
Definition read_record (val : ustr -> Value) (now : Z) (ignorecase : bool) : option FileReservationRecord :=
  expires_str ← expiry_text (val (u "expires_ts")) now;
  if is_expired expires_str now then None
  else
    let text a b := match as_str (val (u a)) with Some s => trim s | None => default [] (trim <$> as_str (val (u b))) end in
    let pattern := text "path_pattern"%string "path"%string in
    if is_empty pattern then None
    else
      exclusive ← as_bool (val (u "exclusive"));
      let agent := text "agent_name"%string "agent"%string in
      if is_empty agent then None
      else Some (mkRecord pattern agent exclusive expires_str (normalize_path to_lowercase pattern ignorecase) (contains_glob pattern)).

(** @src guard/src/lib.rs:2522-2603 read_active_reservations_from_archive
    -- [None]: there is no such directory. *)
Definition read_active_reservations_from_archive (dir : option (list (option DirEntry))) (now : Z) (ignorecase : bool) :
    GuardError + list FileReservationRecord :=
  match dir with
  | None => inr []
  | Some entries =>
      match scan_reservation_artifacts entries with
      | inl e => inl e
      | inr vals => inr (omap (fun val => read_record val now ignorecase) vals)
      end
  end.

(** ** Conflicts *)

(** @src guard/src/lib.rs:80-86 GuardConflict *)
Record GuardConflict := mkConflict { gc_path : ustr; gc_pattern : ustr; gc_holder : ustr; gc_expires_ts : ustr }.

(** The glob engine with and without regard to case, and the error of building a
    set of globs, when there is one. *)
Context (engine : bool -> GlobEngine) (glob_set_error : list ustr -> option ustr).

(** @src guard/src/lib.rs:2291-2314 check_path_conflicts
    -- the reservations of others with their globs; one whose pattern is not a
    glob is left out. *)
Definition active_globs (reservations : list FileReservationRecord) (self_agent : ustr) (ignorecase : bool) :
    list (FileReservationRecord * @GlobMatcher (engine ignorecase)) :=
  omap (fun res =>
    if exclusive res && negb (eq_ignore_ascii_case (agent_name res) self_agent) then
      (fun glob => (res, glob)) <$> @glob_compile (engine ignorecase) (normalized_pattern res)
    else None) reservations.

(** @src guard/src/lib.rs:2347-2393 check_path_conflicts
    -- the tests on one reservation when no glob matched. *)
Definition prefix_conflict (res : FileReservationRecord) (normalized : ustr) (ignorecase : bool) : bool :=
  let res_pattern := if ignorecase then to_lowercase (normalized_pattern res) else normalized_pattern res in
  is_directory_prefix normalized res_pattern || ustr_eqb normalized res_pattern || is_directory_prefix res_pattern normalized.

(** @src guard/src/lib.rs:2332-2396 check_path_conflicts
    -- the reservation a path is reported against: the first whose glob matches
    (a set lists its matches in order), else the first that passes the tests. *)
Definition conflicting {ignorecase : bool} (active : list (FileReservationRecord * @GlobMatcher (engine ignorecase)))
    (normalized : ustr) : option FileReservationRecord :=
  match List.find (fun rg => @is_match (engine ignorecase) (snd rg) normalized) active with
  | Some (res, _) => Some res
  | None => fst <$> List.find (fun rg => prefix_conflict (fst rg) normalized ignorecase) active
  end.

(** @src guard/src/lib.rs:2278-2401 check_path_conflicts *)
Definition check_path_conflicts (paths : list ustr) (reservations : list FileReservationRecord) (self_agent : ustr) (ignorecase : bool) :
    GuardError + list GuardConflict :=
  let active := active_globs reservations self_agent ignorecase in
  match glob_set_error (map (fun rg => normalized_pattern (fst rg)) active) with
  | Some error => inl (InvalidReservationPattern (u "<globset>") error)
  | None =>
      inr (omap (fun path =>
        if is_default_exempt_path to_lowercase path ignorecase then None
        else (fun res => mkConflict path (path_pattern res) (agent_name res) (expires_ts res)) <$>
               conflicting active (normalize_path to_lowercase path ignorecase)) paths)
  end.

(** @src guard/src/lib.rs:2184-2199 conflicts_for_identity *)
Definition conflicts_for_identity (paths : list ustr) (reservations : list FileReservationRecord) (agent : option ustr) (ignorecase : bool) :
    GuardError + list GuardConflict :=
  match agent with
  | Some agent => check_path_conflicts paths reservations agent ignorecase
  | None =>
      match check_path_conflicts paths reservations [] ignorecase with
      | inl e => inl e
      | inr [] => inr []
      | inr _ => inl MissingAgentName
      end
  end.

(** @src guard/src/lib.rs:2116-2128 resolve_guard_agent_name
    -- [pane]: the identity of the current pane. *)
Definition resolve_guard_agent_name (agent_name_var pane : option ustr) : option ustr :=
  match agent_name_var with
  | Some explicit => if is_empty (trim explicit) then pane else Some (trim explicit)
  | None => pane
  end.

(** What a run finds: the variables, the identity of the pane, the archive and
    the roots, the setting of git, and the time. *)
Record Surroundings := mkSurroundings {
  var_mode : option ustr; var_bypass : option ustr; var_enforcement : option ustr; var_worktrees : option ustr;
  var_git_identity : option ustr; var_agent_name : option ustr; pane : option ustr;
  archive : option (list (option DirEntry)); project_root : option (list ustr); repo_root : list ustr;
  ignorecase : bool; now : Z;
}.

(** @src guard/src/lib.rs:2205-2219 guard_check *)
Definition guard_check (sur : Surroundings) (paths : list ustr) : GuardError + list GuardConflict :=
  match read_active_reservations_from_archive (archive sur) (now sur) (ignorecase sur) with
  | inl e => inl e
  | inr reservations =>
      conflicts_for_identity (project_relative_paths (project_root sur) (repo_root sur) paths (ignorecase sur)) reservations
        (resolve_guard_agent_name (var_agent_name sur) (pane sur)) (ignorecase sur)
  end.

(** @src guard/src/lib.rs:103-109 GuardCheckResult *)
Record GuardCheckResult := mkResult { conflicts : list GuardConflict; mode : GuardMode; bypassed : bool; gated : bool }.

(** @src guard/src/lib.rs:2136-2177 guard_check_full *)
Definition guard_check_full (sur : Surroundings) (paths : list ustr) : GuardError + GuardCheckResult :=
  let mode := mode_from_env (var_mode sur) in
  if is_truthy_value (var_bypass sur) then inr (mkResult [] mode true false)
  else if negb (is_guard_gated_from_values (var_enforcement sur) (var_worktrees sur) (var_git_identity sur)) then
    inr (mkResult [] mode false true)
  else
    match read_active_reservations_from_archive (archive sur) (now sur) (ignorecase sur) with
    | inl e => inl e
    | inr reservations =>
        match conflicts_for_identity (project_relative_paths (project_root sur) (repo_root sur) paths (ignorecase sur)) reservations
                (resolve_guard_agent_name (var_agent_name sur) (pane sur)) (ignorecase sur) with
        | inl e => inl e
        | inr conflicts => inr (mkResult conflicts mode false false)
        end
    end.

(** ** The command *)

(** [str::lines], of which the empty ones are not used. *)
Definition strip_cr (line : ustr) : ustr := match rev line with c :: r => if (c =? 13)%N then rev r else line | [] => [] end.
Definition str_lines (s : ustr) : list ustr :=
  let pieces := split_on (N.eqb 10) s in map strip_cr (removelast pieces) ++ (match last pieces with Some p => [p] | None => [] end).

(** @src cli/src/lib.rs:11623-11644 GuardCommand::Check *)
Definition stdin_paths (stdin_nul : bool) (input : list N) : list ustr :=
  let input := from_utf8_lossy input in
  List.filter (fun s => negb (is_empty s)) (if stdin_nul then split_on (N.eqb 0) input else str_lines input).

(** How the command ends. *)
Inductive GuardExit := Allows | Denies | Errs (e : GuardError).

(** @src cli/src/lib.rs:11614-11701 GuardCommand::Check
    -- [archive_found]: whether the repository has an archive. *)
Definition guard_check_command (archive_found stdin_nul advisory : bool) (input : list N) (sur : Surroundings) : GuardExit :=
  if negb archive_found then Allows
  else
    match guard_check_full sur (stdin_paths stdin_nul input) with
    | inl MissingAgentName => match mode_from_env (var_mode sur) with Warn => Allows | Block => Errs MissingAgentName end
    | inl e => Errs e
    | inr result =>
        if bypassed result then Allows
        else if gated result then Allows
        else match conflicts result with
             | [] => Allows
             | _ => match mode result with Warn => Allows | Block => if advisory then Allows else Denies end
             end
    end.
End reservations.
