(* ===== verification/GuardProps.v ===== *)
(** * Properties of the guard

    The two parsers of git's output agree however the output arrives; a push is
    accepted as scanned only when all of it was; and the check lets a commit
    through exactly when none of its paths is in the way of a reservation. *)

From S2P Require Import Prelude.
From S2P Require Import RustStr.
From S2P Require Import RustText.
From S2P Require Import AgentNames.
From S2P Require Import SeqOverlap.
From S2P Require Import Pattern.
From S2P Require Import PatternTheory.
From S2P Require Import PatternProps.
From S2P Require Import GlobSimple.
From S2P Require Import GuardScan.
From S2P Require Import Guard.

(** ** Bytes as text *)

(** The first character and the bytes after it. *)
Definition next_char (bytes : list N) : option (N * list N) :=
  match bytes with
  | [] => None
  | b :: r =>
      Some (if (b <? 128)%N then (b, r)
      else if byte_in 194 223 b then
        match r with
        | b2 :: r2 => if is_continuation b2 then (((b - 192) * 64 + (b2 - 128))%N, r2) else (REPLACEMENT_CHARACTER, r)
        | [] => (REPLACEMENT_CHARACTER, r)
        end
      else if byte_in 224 239 b then
        match r with
        | b2 :: r2 =>
            if second_of_three b b2 then
              match r2 with
              | b3 :: r3 => if is_continuation b3 then (((b - 224) * 4096 + (b2 - 128) * 64 + (b3 - 128))%N, r3) else (REPLACEMENT_CHARACTER, r2)
              | [] => (REPLACEMENT_CHARACTER, r2)
              end
            else (REPLACEMENT_CHARACTER, r)
        | [] => (REPLACEMENT_CHARACTER, r)
        end
      else if byte_in 240 244 b then
        match r with
        | b2 :: r2 =>
            if second_of_four b b2 then
              match r2 with
              | b3 :: r3 =>
                  if is_continuation b3 then
                    match r3 with
                    | b4 :: r4 =>
                        if is_continuation b4 then (((b - 240) * 262144 + (b2 - 128) * 4096 + (b3 - 128) * 64 + (b4 - 128))%N, r4)
                        else (REPLACEMENT_CHARACTER, r3)
                    | [] => (REPLACEMENT_CHARACTER, r3)
                    end
                  else (REPLACEMENT_CHARACTER, r2)
              | [] => (REPLACEMENT_CHARACTER, r2)
              end
            else (REPLACEMENT_CHARACTER, r)
        | [] => (REPLACEMENT_CHARACTER, r)
        end
      else (REPLACEMENT_CHARACTER, r))
  end.

Lemma lossy_next bytes :
  from_utf8_lossy bytes = match next_char bytes with Some (c, r) => c :: from_utf8_lossy r | None => [] end.
Proof. destruct bytes as [|b r]; [done|]. cbn [from_utf8_lossy next_char]. repeat case_match; simplify_eq; done. Qed.

Lemma next_shorter bytes c r : next_char bytes = Some (c, r) -> (length r < length bytes)%nat.
Proof. destruct bytes as [|b bytes]; [done|]. unfold next_char. intros [= H]. repeat case_match; simplify_eq; cbn [length]; lia. Qed.

Lemma continuation_0 : is_continuation 0 = false. Proof. done. Qed.
Lemma three_0 b : second_of_three b 0 = false. Proof. unfold second_of_three. by repeat case_match. Qed.
Lemma four_0 b : second_of_four b 0 = false. Proof. unfold second_of_four. by repeat case_match. Qed.

Lemma next_app a b : next_char (a ++ 0%N :: b) = Some match next_char a with Some (c, r) => (c, r ++ 0%N :: b) | None => (0%N, b) end.
Proof.
  destruct a as [|b1 [|b2 [|b3 [|b4 r]]]]; cbn [app next_char]; rewrite ?three_0, ?four_0, ?continuation_0; f_equal;
    repeat (case_match; try done).
Qed.

(** No sequence goes across a zero byte. *)
Lemma lossy_nul a b : from_utf8_lossy (a ++ 0%N :: b) = from_utf8_lossy a ++ 0%N :: from_utf8_lossy b.
Proof.
  induction a as [a IH] using (induction_ltof1 _ (@length N)). unfold ltof in IH.
  rewrite (lossy_next (a ++ _)), next_app, (lossy_next a). destruct (next_char a) as [[c r]|] eqn:E; [|done].
  cbn [app]. f_equal. apply IH. by eapply next_shorter.
Qed.

Lemma byte_in_true lo hi b : byte_in lo hi b = true -> (lo <= b <= hi)%N.
Proof. unfold byte_in. rewrite andb_true_iff, !N.leb_le. done. Qed.
Lemma byte_in_false lo hi b : byte_in lo hi b = false -> (b < lo \/ hi < b)%N.
Proof. unfold byte_in. rewrite andb_false_iff, !N.leb_gt. lia. Qed.
Lemma continuation_true b : is_continuation b = true -> (128 <= b <= 191)%N.
Proof. apply byte_in_true. Qed.
Lemma continuation_false b : is_continuation b = false -> (b < 128 \/ 191 < b)%N.
Proof. apply byte_in_false. Qed.
Lemma three_true b b2 : second_of_three b b2 = true -> (128 <= b2 <= 191)%N /\ (b = 224 -> 160 <= b2)%N.
Proof. unfold second_of_three. repeat case_match; intros Hb%byte_in_true; rewrite ?N.eqb_eq, ?N.eqb_neq in *; lia. Qed.
Lemma four_true b b2 : second_of_four b b2 = true -> (128 <= b2 <= 191)%N /\ (b = 240 -> 144 <= b2)%N.
Proof. unfold second_of_four. repeat case_match; intros Hb%byte_in_true; rewrite ?N.eqb_eq, ?N.eqb_neq in *; lia. Qed.

Ltac bytes_lia :=
  repeat match goal with
  | H : byte_in _ _ _ = true |- _ => apply byte_in_true in H
  | H : byte_in _ _ _ = false |- _ => apply byte_in_false in H
  | H : is_continuation _ = true |- _ => apply continuation_true in H
  | H : is_continuation _ = false |- _ => apply continuation_false in H
  | H : second_of_three _ _ = true |- _ => apply three_true in H as [? ?]
  | H : second_of_four _ _ = true |- _ => apply four_true in H as [? ?]
  end; rewrite ?N.ltb_lt, ?N.ltb_ge in *; lia.

(** A zero character is a zero byte. *)
Lemma next_zero bytes r : next_char bytes = Some (0%N, r) -> bytes = 0%N :: r.
Proof.
  destruct bytes as [|b bytes]; [done|]. unfold next_char. intros [= H].
  repeat case_match; simplify_eq; try done; exfalso; bytes_lia.
Qed.

Lemma next_suffix bytes c r : next_char bytes = Some (c, r) -> exists p, bytes = p ++ r.
Proof.
  destruct bytes as [|b bytes]; [done|]. unfold next_char. intros [= H].
  repeat case_match; simplify_eq; first [by eexists [_] | by eexists [_; _] | by eexists [_; _; _] | by eexists [_; _; _; _]].
Qed.

Lemma lossy_no_zero bytes : Forall (fun b => b <> 0%N) bytes -> Forall (fun c => c <> 0%N) (from_utf8_lossy bytes).
Proof.
  induction bytes as [bytes IH] using (induction_ltof1 _ (@length N)). unfold ltof in IH. intros Hb.
  rewrite lossy_next. destruct (next_char bytes) as [[c r]|] eqn:E; [|constructor]. constructor.
  - intros ->. apply next_zero in E as ->. by inversion Hb.
  - apply IH; [by eapply next_shorter|]. destruct (next_suffix _ _ _ E) as [p ->]. by apply Forall_app in Hb as [_ ?].
Qed.

(** Scalar values. *)
Definition scalar (c : N) : Prop := (c < 55296 \/ 57344 <= c < 1114112)%N.

Lemma byte_in_yes lo hi b : (lo <= b <= hi)%N -> byte_in lo hi b = true.
Proof. unfold byte_in. rewrite andb_true_iff, !N.leb_le. done. Qed.
Lemma byte_in_no lo hi b : (b < lo \/ hi < b)%N -> byte_in lo hi b = false.
Proof. unfold byte_in. rewrite andb_false_iff, !N.leb_gt. lia. Qed.
Lemma not_ascii b : (128 <= b)%N -> (b <? 128)%N = false.
Proof. apply N.ltb_ge. Qed.
Lemma three_yes b b2 : (128 <= b2 <= 191)%N -> (b = 224 -> 160 <= b2)%N -> (b = 237 -> b2 <= 159)%N -> second_of_three b b2 = true.
Proof. intros. unfold second_of_three. repeat case_match; apply byte_in_yes; rewrite ?N.eqb_eq, ?N.eqb_neq in *; lia. Qed.
Lemma four_yes b b2 : (128 <= b2 <= 191)%N -> (b = 240 -> 144 <= b2)%N -> (b = 244 -> b2 <= 143)%N -> second_of_four b b2 = true.
Proof. intros. unfold second_of_four. repeat case_match; apply byte_in_yes; rewrite ?N.eqb_eq, ?N.eqb_neq in *; lia. Qed.

Lemma next_utf8 c x : scalar c -> next_char (utf8_char c ++ x) = Some (c, x).
Proof.
  intros Hc. unfold utf8_char, scalar in *.
  destruct (N.ltb_spec c 128); [cbn; by rewrite (proj2 (N.ltb_lt c 128))|].
  destruct (N.ltb_spec c 2048); [|destruct (N.ltb_spec c 65536)]; cbn [app next_char]; rewrite not_ascii by utf8_lia.
  - rewrite byte_in_yes by utf8_lia. unfold is_continuation. rewrite byte_in_yes by utf8_lia. do 2 f_equal. utf8_lia.
  - rewrite byte_in_no, byte_in_yes by utf8_lia. rewrite three_yes by utf8_lia. unfold is_continuation.
    rewrite byte_in_yes by utf8_lia. do 2 f_equal. utf8_lia.
  - rewrite byte_in_no, byte_in_no, byte_in_yes by utf8_lia. rewrite four_yes by utf8_lia. unfold is_continuation.
    rewrite !byte_in_yes by utf8_lia. do 2 f_equal. utf8_lia.
Qed.

(** Well-formed text is read as it is. *)
Lemma lossy_utf8 s : Forall scalar s -> from_utf8_lossy (utf8 s) = s.
Proof.
  induction 1 as [|c s Hc Hs IH]; [done|]. rewrite utf8_cons, lossy_next, next_utf8 by done. by rewrite IH.
Qed.

(** ** The stream *)

Definition same_result (st st' : NameStatusStream) : Prop :=
  paths_left st = paths_left st' /\ records st = records st' /\ capped st = capped st' /\ paths st = paths st'.

Lemma push_token_tail token m t st : push_token token m (set_tail t st) =
  let '(go, st') := push_token token m st in (go, set_tail t st').
Proof. unfold push_token. cbn. repeat case_match; done. Qed.

Lemma push_token_capped token m st : capped (push_token token m st).2 = capped st.
Proof. unfold push_token. repeat case_match; done. Qed.

Lemma set_tail_twice t t' st : set_tail t (set_tail t' st) = set_tail t st.
Proof. done. Qed.

Lemma feed_tokens_tail rest m : forall token t st, feed_tokens token rest m (set_tail t st) = feed_tokens token rest m st.
Proof.
  induction rest as [|b rest IH]; intros token t st; cbn [feed_tokens]; [done|].
  destruct (b =? 0)%N; [|apply IH]. rewrite push_token_tail. destruct (push_token token m st) as [[] st']; [apply IH|done].
Qed.

Lemma feed_tokens_partial p rest m : Forall (fun b => b <> 0%N) p -> forall token st,
  feed_tokens token (p ++ rest) m st = feed_tokens (token ++ p) rest m st.
Proof.
  induction 1 as [|b p Hb Hp IH]; intros token st; cbn [app feed_tokens]; [by rewrite app_nil_r|].
  rewrite (proj2 (N.eqb_neq b 0) Hb), IH, <- app_assoc. done.
Qed.

(** Up to the cap the tail is the token being read. *)
Lemma feed_tokens_partial_tail rest m : forall token st, Forall (fun b => b <> 0%N) token -> capped st = false ->
  capped (feed_tokens token rest m st) = false -> Forall (fun b => b <> 0%N) (tail (feed_tokens token rest m st)).
Proof.
  induction rest as [|b rest IH]; intros token st Ht Hc; cbn [feed_tokens]; [done|].
  destruct (N.eqb_spec b 0) as [->|Hb].
  - destruct (push_token token m st) as [[] st'] eqn:E; [|done]. apply IH; [constructor|].
    pose proof (push_token_capped token m st) as Hp. rewrite E in Hp. cbn in Hp. congruence.
  - apply IH; [|done]. apply Forall_app. split; [done|]. by repeat constructor.
Qed.

Lemma feed_tokens_app rest2 m rest : forall token st, capped st = false ->
  let st1 := feed_tokens token rest m st in
  same_result (feed_tokens token (rest ++ rest2) m st) (if capped st1 then st1 else feed_tokens (tail st1) rest2 m st1).
Proof.
  induction rest as [|b rest IH]; intros token st Hc; cbn [app feed_tokens].
  - cbn zeta. cbn [capped set_tail]. rewrite Hc. cbn [tail set_tail]. by rewrite feed_tokens_tail.
  - destruct (b =? 0)%N; [|by apply IH]. destruct (push_token token m st) as [[] st'] eqn:E; [|done]. apply IH.
    pose proof (push_token_capped token m st) as Hp. rewrite E in Hp. cbn in Hp. congruence.
Qed.

(** However the bytes are cut into chunks. *)
Lemma read_chunks_concat m chunks : forall st, capped st = false -> Forall (fun b => b <> 0%N) (tail st) ->
  same_result (read_chunks chunks m st) (feed_tokens (tail st) (concat chunks) m st).
Proof.
  induction chunks as [|chunk chunks IH]; intros st Hc Ht; cbn [read_chunks concat]; [by cbn|].
  unfold feed. rewrite Hc, feed_tokens_partial by done. cbn [app].
  pose proof (feed_tokens_app (concat chunks) m chunk (tail st) st Hc) as Happ. cbn zeta in Happ.
  destruct (capped (feed_tokens (tail st) chunk m st)) eqn:Ec; cbn [negb].
  - destruct Happ as (H1 & H2 & H3 & H4). by split_and!.
  - destruct (IH (feed_tokens (tail st) chunk m st) Ec) as (I1 & I2 & I3 & I4); [by apply feed_tokens_partial_tail|].
    destruct Happ as (H1 & H2 & H3 & H4). split_and!; congruence.
Qed.

(** ** Tokens *)

Fixpoint run_tokens (tokens : list (list N)) (m : option Z) (st : NameStatusStream) : NameStatusStream :=
  match tokens with
  | [] => st
  | token :: tokens =>
      let '(go, st) := push_token token m st in
      if go then run_tokens tokens m st else mkStream (tail st) (paths_left st) (records st) true (paths st)
  end.

Definition terminated (tokens : list (list N)) : list N := concat (map (fun t => t ++ [0%N]) tokens).
Definition token_ok (token : list N) : Prop := Forall (fun b => b <> 0%N) token.

Lemma feed_terminated m tokens : Forall token_ok tokens -> forall st,
  same_result (feed_tokens [] (terminated tokens) m st) (run_tokens tokens m st).
Proof.
  induction 1 as [|token tokens Ht Hts IH]; intros st; [done|]. unfold terminated. cbn [map concat run_tokens].
  rewrite <- app_assoc, feed_tokens_partial by done. cbn [app feed_tokens N.eqb].
  destruct (push_token token m st) as [[] st']; [apply IH|done].
Qed.

(** The parts after so many paths that are due. *)
Fixpoint parse_due (due : nat) (parts : list ustr) : list ustr :=
  match parts with
  | [] => []
  | p :: parts =>
      match due with
      | S due => nonempty_path p ++ parse_due due parts
      | O => if is_empty (trim p) then parse_due 0 parts else parse_due (if two_paths (trim p) then 2 else 1) parts
      end
  end.

Lemma parse_parts_due parts : parse_parts parts = parse_due 0 parts.
Proof.
  induction parts as [parts IH] using (induction_ltof1 _ (@length ustr)). unfold ltof in IH.
  destruct parts as [|p parts]; [done|]. cbn [parse_parts parse_due].
  destruct (is_empty (trim p)); [apply IH; cbn; lia|]. destruct (two_paths (trim p)).
  - destruct parts as [|p1 [|p2 parts]]; cbn [parse_due]; [done|by rewrite app_nil_r|]. rewrite IH by (cbn; lia). done.
  - destruct parts as [|p1 parts]; cbn [parse_due]; [done|]. rewrite IH by (cbn; lia). done.
Qed.

Lemma parse_due_end parts : forall due, parse_due due (parts ++ [[]]) = parse_due due parts.
Proof.
  induction parts as [|p parts IH]; intros due; cbn [app parse_due].
  - by destruct due.
  - destruct due; [|by rewrite IH]. by rewrite !IH.
Qed.

Lemma lossy_split tokens : Forall token_ok tokens ->
  split_on (N.eqb 0) (from_utf8_lossy (terminated tokens)) = map from_utf8_lossy tokens ++ [[]].
Proof.
  induction 1 as [|token tokens Ht Hts IH]; [done|]. unfold terminated in *. cbn [map concat app].
  rewrite <- app_assoc. cbn [app]. rewrite lossy_nul, split_on_app_sep; [by rewrite IH|done|].
  apply forallb_forall. intros c Hc. pose proof (proj1 (Forall_forall _ _) (lossy_no_zero token Ht) c) as Hz.
  apply negb_true_iff, N.eqb_neq. intros <-. apply Hz; [|done]. by apply list_elem_of_In.
Qed.

Lemma parse_terminated tokens : Forall token_ok tokens ->
  parse_name_status_z (terminated tokens) = parse_due 0 (map from_utf8_lossy tokens).
Proof. intros Ht. unfold parse_name_status_z. by rewrite lossy_split, parse_parts_due, parse_due_end. Qed.

Lemma run_tokens_spec m tokens : forall st, capped st = false ->
  let st' := run_tokens tokens m st in
  exists new rest, paths st' = paths st ++ new /\
    parse_due (paths_left st) (map from_utf8_lossy tokens) = new ++ rest /\ (capped st' = false -> rest = []).
Proof.
  induction tokens as [|token tokens IH]; intros st Hc; cbn zeta; cbn [run_tokens map parse_due].
  { exists [], []. by rewrite app_nil_r. }
  unfold push_token. destruct (paths_left st) as [|due] eqn:Ed.
  - destruct (is_empty (trim (from_utf8_lossy token))); [by rewrite <- Ed; apply IH|].
    destruct (match m with Some cap => cap <=? records st | None => false end); [|by apply (IH (mkStream _ _ _ _ _))].
    exists []. eexists. split; [by rewrite app_nil_r|]. done.
  - destruct (IH (mkStream (tail st) due (records st) (capped st) (paths st ++ nonempty_path (from_utf8_lossy token))) Hc)
      as (new & rest & H1 & H2 & H3). cbn [paths paths_left] in *.
    exists (nonempty_path (from_utf8_lossy token) ++ new), rest. rewrite H1, H2, !app_assoc. done.
Qed.

Lemma run_tokens_more tokens : forall st, records st <= records (run_tokens tokens None st).
Proof.
  induction tokens as [|token tokens IH]; intros st; cbn [run_tokens]; [lia|]. unfold push_token.
  destruct (paths_left st); [destruct (is_empty _); [apply IH|]|]; (etrans; [|apply IH]); cbn; lia.
Qed.

Lemma run_tokens_cap c tokens : forall st, capped st = false -> records st <= c ->
  (capped (run_tokens tokens (Some c) st) = true <-> c < records (run_tokens tokens None st)).
Proof.
  induction tokens as [|token tokens IH]; intros st Hc Hr; cbn [run_tokens]; [rewrite Hc; split; [done|lia]|].
  unfold push_token. destruct (paths_left st) as [|due]; [|by apply IH].
  destruct (is_empty (trim (from_utf8_lossy token))); [by apply IH|]. destruct (Z.leb_spec c (records st)).
  - split; [intros _|done]. eapply Z.lt_le_trans; [|apply run_tokens_more]. cbn. lia.
  - apply IH; [done|cbn; lia].
Qed.

Lemma stream_as_tokens chunks tokens m : Forall token_ok tokens -> concat chunks = terminated tokens ->
  same_result (read_chunks chunks m default_stream) (run_tokens tokens m default_stream).
Proof.
  intros Ht Hc. destruct (read_chunks_concat m chunks default_stream eq_refl (Forall_nil_2 _)) as (H1 & H2 & H3 & H4).
  rewrite Hc in *. destruct (feed_terminated m tokens Ht default_stream) as (I1 & I2 & I3 & I4).
  cbn [tail default_stream] in *. split_and!; congruence.
Qed.

(** C19: the parser of a stream is the parser of the whole.  However the output of
    git - tokens of whatever bytes, each ended by a zero - is cut into chunks, the
    stream yields the paths the whole output yields, or, once it has met its cap,
    the first of them; it meets its cap exactly when the output has more records
    than that, and never without a cap. *)
Theorem stream_reads_as_whole chunks tokens cap :
  Forall token_ok tokens -> concat chunks = terminated tokens -> (forall c, cap = Some c -> 0 <= c) ->
  let st := read_chunks chunks cap default_stream in
  let whole := read_chunks [concat chunks] None default_stream in
  (exists rest, parse_name_status_z (concat chunks) = paths st ++ rest /\ (capped st = false -> rest = [])) /\
  (capped st = true <-> exists c, cap = Some c /\ c < records whole).
Proof.
  intros Ht Hc Hcap. cbn zeta. destruct (stream_as_tokens chunks tokens cap Ht Hc) as (_ & _ & H3 & H4).
  assert (concat [concat chunks] = terminated tokens) as Hc' by (cbn; by rewrite app_nil_r).
  destruct (stream_as_tokens [concat chunks] tokens None Ht Hc') as (_ & I2 & _ & _).
  rewrite H3, H4, I2, Hc, parse_terminated by done. split.
  - destruct (run_tokens_spec cap tokens default_stream eq_refl) as (new & rest & -> & E & Hr). exists rest. by split.
  - destruct cap as [c|].
    + rewrite run_tokens_cap by (done || cbn; by apply Hcap). split; [by exists c|by intros (c' & [= <-] & ?)].
    + assert (forall st, capped st = false -> capped (run_tokens tokens None st) = false) as Hn.
      { clear. induction tokens as [|token tokens IH]; intros st Hst; cbn [run_tokens]; [done|]. unfold push_token.
        destruct (paths_left st); [destruct (is_empty _)|]; by apply IH. }
      rewrite Hn by done. split; [done|]. by intros (? & ? & _).
Qed.

(** ** The scan of a push *)

Section scan.
  Context (git_count : nat -> list ustr -> option Z -> nat -> ChildRun) (git_paths : nat -> list ustr -> Z -> nat -> PipeRun).

(** The ref of line [i] was inspected, with these paths: those of the output of a
    pipeline whose processes ended well, as far as it was read - a read that fails
    counts as the end of the output. *)
Definition ref_inspected (limits : PushScanLimits) (i : nat) (revs : list ustr) (ps : list ustr) : Prop :=
  exists status stdout count,
    run_git_until SEGFAULT_RETRIES (git_count i revs ((fun cap => usat_add cap 1) <$> max_commits limits)) 0 = inr (Some (status, stdout)) /\
    success status = true /\ parse_u64 (trim (from_utf8_lossy stdout)) = Some count /\
    ((count = 0 /\ ps = []) \/
     (count <> 0 /\ (forall cap, max_commits limits = Some cap -> count <= cap) /\
      exists attempt chunks to_end late rev_list diff_tree,
        (attempt <= SEGFAULT_RETRIES)%nat /\ git_paths i revs count attempt = Piped chunks to_end late rev_list diff_tree /\
        success rev_list = true /\ success diff_tree = true /\
        capped (read_chunks chunks (max_paths limits) default_stream) = false /\
        ps = paths (read_chunks chunks (max_paths limits) default_stream))).

Lemma stream_complete m run retries : forall attempt o,
  stream_push_commit_paths retries run m attempt = inr o -> so_stop o = Complete ->
  exists n chunks to_end late rev_list diff_tree, (n <= attempt + retries)%nat /\
    run n = Piped chunks to_end late rev_list diff_tree /\ success rev_list = true /\ success diff_tree = true /\
    capped (read_chunks chunks m default_stream) = false /\ so_paths o = paths (read_chunks chunks m default_stream).
Proof.
  induction retries as [|retries IH]; intros attempt o; cbn [stream_push_commit_paths];
    (destruct (run attempt) as [| |chunks to_end late rev_list diff_tree] eqn:Er; [done|by intros [= <-]|]);
    destruct (capped _) eqn:Ec; try (by intros [= <-]);
    (destruct (success rev_list && success diff_tree) eqn:Es;
      [apply andb_true_iff in Es as [? ?]; intros [= <-] _; exists attempt; do 5 eexists; split; [lia|]; by split_and!|]);
    (destruct late; [by intros [= <-]|]); try done.
  destruct (segfault rev_list || segfault diff_tree); [|done]. intros Ho Hs.
  destruct (IH (S attempt) o Ho Hs) as (n & H). exists n. destruct H as (? & ? & ? & ? & ? & Hn & H).
  do 5 eexists. split; [lia|exact H].
Qed.

Lemma scan_ref_inspected limits i revs acc stop acc' :
  scan_ref git_count git_paths limits i revs acc = inr (stop, acc') -> unchecked acc' = [] ->
  stop = false /\ unchecked acc = [] /\ exists ps, ref_inspected limits i revs ps /\ scan_paths acc' = list_to_set ps ∪ scan_paths acc.
Proof.
  unfold scan_ref. destruct (run_git_until _ _ 0) as [e|[[status stdout]|]] eqn:Ec; [done| |].
  2:{ intros [= <- <-] H. cbn in H. by apply app_eq_nil in H as [_ ?]. }
  destruct (success status) eqn:Es; [|done]. cbn [negb]. destruct (parse_u64 _) as [count|] eqn:Ep; [|done].
  destruct (Z.eqb_spec count 0) as [->|Hne].
  { intros [= <- <-] Hu. split_and!; [done..|]. exists []. split; [|apply set_eq; set_solver].
    exists status, stdout, 0. split_and!; [done..|]. by left. }
  destruct (match max_commits limits with
            | Some cap => if cap <? count then (cap, mkScan (scan_paths acc) (unchecked acc ++ [OverCap revs cap])) else (count, acc)
            | None => (count, acc) end) as [inspect acc1] eqn:Ei.
  destruct (stream_push_commit_paths _ _ _ _) as [e|o] eqn:Eo; [done|]. cbn zeta.
  destruct (so_stop o) eqn:Est; intros [= <- <-] Hu; cbn [unchecked scan_paths] in *;
    try (by apply app_eq_nil in Hu as [_ ?]).
  assert (inspect = count /\ acc1 = acc /\ forall cap, max_commits limits = Some cap -> count <= cap) as (-> & -> & Hcap).
  { destruct (max_commits limits) as [cap|]; [|injection Ei as <- <-; by split_and!].
    destruct (Z.ltb_spec cap count); injection Ei as <- <-; [cbn in Hu; by apply app_eq_nil in Hu as [_ ?]|].
    split_and!; [done..|]. intros ? [= <-]. done. }
  split_and!; [done..|]. exists (so_paths o). split; [|done]. exists status, stdout, count. split_and!; [done..|]. right.
  split_and!; [done..|]. destruct (stream_complete _ _ _ _ _ Eo Est) as (n & chunks & te & late & rl & dt & Hn & H).
  exists n, chunks, te, late, rl, dt. split; [exact Hn|exact H].
Qed.

Lemma scan_lines_inspected limits lines : forall i acc scan,
  scan_lines git_count git_paths limits i lines acc = inr scan -> unchecked scan = [] ->
  unchecked acc = [] /\ scan_paths acc ⊆ scan_paths scan /\
  (forall j line revs, lines !! j = Some line -> ref_revs line = Some revs ->
     exists ps, ref_inspected limits (i + j) revs ps /\ list_to_set ps ⊆ scan_paths scan) /\
  (forall p, p ∈ scan_paths scan -> p ∈ scan_paths acc \/
     exists j line revs ps, lines !! j = Some line /\ ref_revs line = Some revs /\ ref_inspected limits (i + j) revs ps /\ p ∈ ps).
Proof.
  induction lines as [|line lines IH]; intros i acc scan; cbn [scan_lines].
  { intros [= <-] Hu. split_and!; [done..|by left]. }
  destruct (ref_revs line) as [revs|] eqn:El.
  - destruct (scan_ref _ _ limits i revs acc) as [e|[[] acc1]] eqn:Er; [done| |].
    + intros [= <-] Hu. by destruct (scan_ref_inspected _ _ _ _ _ _ Er Hu).
    + intros Hs Hu. destruct (IH (S i) acc1 scan Hs Hu) as (Hu1 & Hsub & Hl & Hp).
      destruct (scan_ref_inspected _ _ _ _ _ _ Er Hu1) as (_ & Hua & ps & Hi & Es). rewrite Es in *.
      split_and!; [done|set_solver| |].
      * intros [|j] l rv; cbn [lookup list_lookup]; [intros [= <-]; rewrite El; intros [= <-]; exists ps; rewrite Nat.add_0_r; split; [done|set_solver]|].
        intros Hlk Hrv. rewrite Nat.add_succ_r, <- Nat.add_succ_l. by apply (Hl j l rv).
      * intros p [Hin|(j & l & rv & ps' & H1 & H2 & H3 & H4)]%Hp.
        -- apply elem_of_union in Hin as [Hin%elem_of_list_to_set|Hin]; [right|by left].
           exists 0%nat, line, revs, ps. rewrite Nat.add_0_r. by split_and!.
        -- right. exists (S j), l, rv, ps'. rewrite Nat.add_succ_r, <- Nat.add_succ_l. by split_and!.
  - intros Hs Hu. destruct (IH (S i) acc scan Hs Hu) as (Hu1 & Hsub & Hl & Hp). split_and!; [done..| |].
    + intros [|j] l rv; cbn [lookup list_lookup]; [intros [= <-]; by rewrite El|].
      intros Hlk Hrv. rewrite Nat.add_succ_r, <- Nat.add_succ_l. by apply (Hl j l rv).
    + intros p [Hin|(j & l & rv & ps' & H1 & H2 & H3 & H4)]%Hp; [by left|right].
      exists (S j), l, rv, ps'. rewrite Nat.add_succ_r, <- Nat.add_succ_l. by split_and!.
Qed.

(** C17: what the answer to a push was made from.  When the paths of a push are
    answered at all, every ref it updates was counted, within the bound on commits,
    and has no commit or was listed by a pipeline whose two processes ended well,
    without meeting the bound on paths; and the answer is the sorted paths of all
    these listings, once each, and no others.  A listing is parsed as far as it was
    read: a read that fails is taken for the end of the output (a finding), so only
    a listing read to its end is known to be whole.  A bound that is met, a
    deadline that passes or a process that fails is an error. *)
Theorem push_answer_inspected stdin_lines limits ps :
  get_push_paths git_count git_paths stdin_lines limits = inr ps ->
  (forall i line revs, split_on (N.eqb 10) stdin_lines !! i = Some line -> ref_revs line = Some revs ->
     exists psi, ref_inspected limits i revs psi /\ psi ⊆ ps) /\
  (forall p, p ∈ ps -> exists i line revs psi, split_on (N.eqb 10) stdin_lines !! i = Some line /\ ref_revs line = Some revs /\
     ref_inspected limits i revs psi /\ p ∈ psi) /\
  Sorted str_le ps /\ NoDup ps.
Proof.
  unfold get_push_paths, scan_push_paths. destruct (scan_lines _ _ _ _ _ _) as [e|scan] eqn:Es; [done|].
  destruct (is_complete scan) eqn:Ec; [|done]. intros [= <-].
  assert (unchecked scan = []) as Hu by (unfold is_complete in Ec; by destruct (unchecked scan)).
  destruct (scan_lines_inspected _ _ _ _ _ Es Hu) as (_ & _ & Hl & Hp).
  assert (forall p, p ∈ merge_sort str_le (elements (scan_paths scan)) <-> p ∈ scan_paths scan) as Hin.
  { intros p. by rewrite merge_sort_Permutation, elem_of_elements. }
  split_and!.
  - intros i line revs H1 H2. destruct (Hl i line revs H1 H2) as (psi & Hi & Hsub). exists psi. split; [done|].
    intros p Hpi. apply Hin, Hsub. by apply elem_of_list_to_set.
  - intros p Hpi. destruct (Hp p (proj1 (Hin p) Hpi)) as [Hin'|H]; [by apply not_elem_of_empty in Hin'|exact H].
  - apply (Sorted_merge_sort str_le).
  - rewrite merge_sort_Permutation. apply NoDup_elements.
Qed.
End scan.

(** ** The check *)

Section check.
  Context (from_str : ustr -> option (ustr -> Value)) {chrono : Chrono} (to_lowercase : ustr -> ustr)
    (engine : bool -> GlobEngine) (glob_set_error : list ustr -> option ustr).

(** A path, normalised, is in the way of a reservation. *)
Definition stands_in_the_way (res : FileReservationRecord) (normalized : ustr) (ignorecase : bool) : Prop :=
  exists glob, @glob_compile (engine ignorecase) (normalized_pattern res) = Some glob /\
    (@is_match (engine ignorecase) glob normalized = true \/ prefix_conflict to_lowercase res normalized ignorecase = true).

(** A reservation held by another than [agent]; without an identity, by anybody. *)
Definition held_by_other (agent : option ustr) (res : FileReservationRecord) : Prop :=
  match agent with Some me => eq_ignore_ascii_case (agent_name res) me = false | None => True end.

Lemma find_none {A} (f : A -> bool) l : List.find f l = None <-> forall x, In x l -> f x = false.
Proof.
  split; [apply List.find_none|]. intros Hn. destruct (List.find f l) as [x|] eqn:E; [|done].
  apply List.find_some in E as [Hin Hf]. rewrite Hn in Hf; done.
Qed.

Lemma conflicting_spec ignorecase (active : list (FileReservationRecord * @GlobMatcher (engine ignorecase))) n :
  match conflicting to_lowercase engine active n with
  | Some res => exists g, In (res, g) active /\ (@is_match (engine ignorecase) g n = true \/ prefix_conflict to_lowercase res n ignorecase = true)
  | None => forall res g, In (res, g) active -> @is_match (engine ignorecase) g n = false /\ prefix_conflict to_lowercase res n ignorecase = false
  end.
Proof.
  unfold conflicting. destruct (List.find (fun rg => is_match (snd rg) n) active) as [[res g]|] eqn:E1.
  - apply List.find_some in E1 as [Hin Hm]. exists g. split; [done|by left].
  - destruct (List.find (fun rg => prefix_conflict to_lowercase (fst rg) n ignorecase) active) as [[res g]|] eqn:E2; cbn.
    + apply List.find_some in E2 as [Hin Hm]. exists g. split; [done|by right].
    + rewrite find_none in E1, E2. intros res g Hin. split; [apply (E1 (res, g) Hin)|apply (E2 (res, g) Hin)].
Qed.

Lemma active_globs_In reservations me ignorecase res g :
  In (res, g) (active_globs engine reservations me ignorecase) <->
  In res reservations /\ exclusive res = true /\ eq_ignore_ascii_case (agent_name res) me = false /\
  @glob_compile (engine ignorecase) (normalized_pattern res) = Some g.
Proof.
  unfold active_globs. rewrite <- list_elem_of_In, list_elem_of_omap. split.
  - intros (r & Hin & Hr). destruct (exclusive r && negb (eq_ignore_ascii_case (agent_name r) me)) eqn:E; [|done].
    apply andb_true_iff in E as [E1 E2%negb_true_iff]. destruct (glob_compile (normalized_pattern r)) as [g'|] eqn:Eg; [|done].
    injection Hr as <- <-. apply list_elem_of_In in Hin. by split_and!.
  - intros (Hin & E1 & E2 & Eg). exists res. apply list_elem_of_In in Hin. split; [done|]. rewrite E1, E2. cbn. by rewrite Eg.
Qed.

Lemma omap_none {A B} (f : A -> option B) l : omap f l = [] <-> forall x, In x l -> f x = None.
Proof.
  induction l as [|x l IH]; cbn; [split; [by intros _ x []|done]|]. destruct (f x) eqn:E; cbn.
  - split; [done|]. intros Hn. specialize (Hn x (or_introl eq_refl)). congruence.
  - rewrite IH. split; [intros Hn y [<-|Hy]; auto|auto].
Qed.

(** Nothing is reported exactly when no path is in the way. *)
Definition clear (paths : list ustr) (reservations : list FileReservationRecord) (agent : option ustr) (ignorecase : bool) : Prop :=
  forall path res, In path paths -> is_default_exempt_path to_lowercase path ignorecase = false ->
    In res reservations -> exclusive res = true -> held_by_other agent res ->
    ~ stands_in_the_way res (normalize_path to_lowercase path ignorecase) ignorecase.

Definition hit (paths : list ustr) (reservations : list FileReservationRecord) (agent : option ustr) (ignorecase : bool) : Prop :=
  exists path res, In path paths /\ is_default_exempt_path to_lowercase path ignorecase = false /\
    In res reservations /\ exclusive res = true /\ held_by_other agent res /\
    stands_in_the_way res (normalize_path to_lowercase path ignorecase) ignorecase.

Lemma guard_check_spec paths reservations me ignorecase :
  match check_path_conflicts to_lowercase engine glob_set_error paths reservations me ignorecase with
  | inl e => exists patterns error, glob_set_error patterns = Some error /\ e = InvalidReservationPattern (u "<globset>") error
  | inr [] => clear paths reservations (Some me) ignorecase
  | inr _ => hit paths reservations (Some me) ignorecase
  end.
Proof.
  unfold check_path_conflicts. destruct (glob_set_error _) as [error|] eqn:Eg; [by eexists _, error|].
  set (report := fun path => _). destruct (omap report paths) as [|c cs] eqn:Eo.
  - pose proof (proj1 (omap_none _ _) Eo) as Hn. intros path res Hp Hx Hr He Ho (g & Hg & Hway).
    specialize (Hn path Hp). unfold report in Hn. rewrite Hx in Hn.
    pose proof (conflicting_spec ignorecase (active_globs engine reservations me ignorecase) (normalize_path to_lowercase path ignorecase)) as Hc.
    destruct (conflicting _ _ _ _); [done|].
    destruct (Hc res g) as [H1 H2]; [apply active_globs_In; by split_and!|]. destruct Hway; congruence.
  - assert (c ∈ omap report paths) as Hin by (rewrite Eo; by left). apply list_elem_of_omap in Hin as (path & Hp%list_elem_of_In & Hc).
    unfold report in Hc. destruct (is_default_exempt_path _ _ _) eqn:Hx; [done|].
    pose proof (conflicting_spec ignorecase (active_globs engine reservations me ignorecase) (normalize_path to_lowercase path ignorecase)) as Hs.
    destruct (conflicting _ _ _ _) as [res|]; [|done]. destruct Hs as (g & (H1 & H2 & H3 & H4)%active_globs_In & H5).
    exists path, res. split_and!; try done. exists g. by split.
Qed.

Lemma conflicts_for_identity_spec paths reservations agent ignorecase :
  Forall (fun res => agent_name res <> []) reservations ->
  match conflicts_for_identity to_lowercase engine glob_set_error paths reservations agent ignorecase with
  | inl MissingAgentName => agent = None /\ hit paths reservations agent ignorecase
  | inl e => exists patterns error, glob_set_error patterns = Some error /\ e = InvalidReservationPattern (u "<globset>") error
  | inr [] => clear paths reservations agent ignorecase
  | inr _ => agent <> None /\ hit paths reservations agent ignorecase
  end.
Proof.
  intros Hne. unfold conflicts_for_identity. destruct agent as [me|].
  - pose proof (guard_check_spec paths reservations me ignorecase) as H.
    destruct (check_path_conflicts _ _ _ _ _ _ _) as [e|[|c cs]]; [|done|done].
    destruct H as (patterns & error & Hg & ->). by exists patterns, error.
  - pose proof (guard_check_spec paths reservations [] ignorecase) as H.
    destruct (check_path_conflicts _ _ _ _ _ _ _) as [e|[|c cs]].
    + destruct H as (patterns & error & Hg & ->). by exists patterns, error.
    + intros path res Hp Hx Hr He _. apply H; try done. apply ustr_eqb_neq.
      pose proof (proj1 (Forall_forall _ _) Hne res (proj2 (list_elem_of_In _ _) Hr)) as Hn.
      cbn beta in Hn. intros E. destruct (agent_name res); [by apply Hn|discriminate E].
    + split; [done|]. destruct H as (path & res & H1 & H2 & H3 & H4 & _ & H6). by exists path, res.
Qed.

Lemma read_record_agent now ignorecase val r : read_record to_lowercase val now ignorecase = Some r -> agent_name r <> [].
Proof.
  unfold read_record. destruct (expiry_text _ _) as [t|]; [|done]. cbn [mbind option_bind]. destruct (is_expired t now); [done|]. cbn zeta.
  destruct (is_empty _); [done|]. destruct (as_bool _); [|done]. cbn [mbind option_bind].
  match goal with |- context [is_empty ?agent] => destruct agent eqn:E end; [done|]. by intros [= <-].
Qed.

(** An active record of the archive. *)
Definition stored (sur : Surroundings) (res : FileReservationRecord) : Prop :=
  exists entries entry val, archive sur = Some entries /\ In (Some entry) entries /\ scan_entry from_str entry = Some val /\
    read_record to_lowercase val (now sur) (ignorecase sur) = Some res.

Lemma mapM_id {A} (l : list (option A)) : forall l', mapM id l = Some l' -> l = map Some l'.
Proof.
  induction l as [|[x|] l IH]; intros l'; cbn; [by intros [= <-]| |done].
  unfold mbind, option_bind. destruct (mapM id l) as [l1|]; [|done]. intros [= <-]. cbn. by rewrite <- (IH l1).
Qed.

Lemma read_active_spec sur :
  match read_active_reservations_from_archive from_str to_lowercase (archive sur) (now sur) (ignorecase sur) with
  | inl e => e = IoError /\ exists entries, archive sur = Some entries /\ In None entries
  | inr rs => Forall (fun res => agent_name res <> []) rs /\ forall res, In res rs <-> stored sur res
  end.
Proof.
  unfold read_active_reservations_from_archive, scan_reservation_artifacts, stored.
  destruct (archive sur) as [entries|].
  2:{ split; [constructor|]. intros res. split; [done|]. by intros (? & ? & ? & ? & _). }
  destruct (mapM id entries) as [es|] eqn:Em.
  - apply mapM_id in Em as ->. split.
    + apply Forall_forall. intros res (val & _ & Hr)%list_elem_of_omap. by eapply read_record_agent.
    + intros res. rewrite <- list_elem_of_In, list_elem_of_omap. split.
      * intros (val & (entry & Hin & Hv)%list_elem_of_omap & Hr). exists (map Some es), entry, val. split_and!; try done.
        apply in_map. by apply list_elem_of_In.
      * intros (? & entry & val & [= <-] & Hin & Hv & Hr). exists val. split; [|done]. apply list_elem_of_omap. exists entry. split; [|done].
        apply in_map_iff in Hin as (? & [= ->] & Hin). by apply list_elem_of_In.
  - split; [done|]. exists entries. split; [done|]. revert Em. clear. induction entries as [|[e|] entries IH]; cbn; [done| |by left].
    unfold mbind, option_bind. destruct (mapM id entries); [done|]. intros _. right. by apply IH.
Qed.
(** C7: what the guard lets through.  When the command enforces (an archive is
    found, nothing bypasses, disables or mutes the guard), it allows the commit
    exactly when none of its paths, made relative to the project and outside the
    exempt directories, is in the way of an active exclusive reservation of
    another agent stored in the archive - of any agent, when the committer has no
    identity; it denies it when one is; and it fails only when the archive cannot
    be listed, the globs cannot be built, or a path is in the way and there is no
    identity.  Reservations whose pattern is not a glob are not looked at. *)
Theorem guard_lets_through_exactly stdin_nul input sur :
  mode_from_env (var_mode sur) = Block -> is_truthy_value (var_bypass sur) = false ->
  is_guard_gated_from_values (var_enforcement sur) (var_worktrees sur) (var_git_identity sur) = true ->
  let paths := project_relative_paths (project_root sur) (repo_root sur) (stdin_paths stdin_nul input) (ignorecase sur) in
  let agent := resolve_guard_agent_name (var_agent_name sur) (pane sur) in
  let in_way path res := In path paths /\ is_default_exempt_path to_lowercase path (ignorecase sur) = false /\
    stored sur res /\ exclusive res = true /\ held_by_other agent res /\
    stands_in_the_way res (normalize_path to_lowercase path (ignorecase sur)) (ignorecase sur) in
  match guard_check_command from_str to_lowercase engine glob_set_error true stdin_nul false input sur with
  | Allows => forall path res, ~ in_way path res
  | Denies => agent <> None /\ exists path res, in_way path res
  | Errs MissingAgentName => agent = None /\ exists path res, in_way path res
  | Errs e => (e = IoError /\ exists entries, archive sur = Some entries /\ In None entries) \/
              (exists patterns error, glob_set_error patterns = Some error /\ e = InvalidReservationPattern (u "<globset>") error)
  end.
Proof.
  intros Hm Hb Hg paths agent in_way. unfold guard_check_command, guard_check_full. cbn [negb]. rewrite Hm, Hb, Hg. cbn [negb].
  pose proof (read_active_spec sur) as Hr. destruct (read_active_reservations_from_archive _ _ _ _ _) as [e|rs].
  { destruct Hr as [-> Hr]. by left. }
  destruct Hr as [Hne Hst]. pose proof (conflicts_for_identity_spec paths rs agent (ignorecase sur) Hne) as Hc.
  fold paths agent. assert (hit paths rs agent (ignorecase sur) -> exists path res, in_way path res) as Hhit.
  { intros (path & res & H1 & H2 & H3 & H4). exists path, res. split_and!; try done; [by apply Hst|apply H4..]. }
  destruct (conflicts_for_identity _ _ _ _ _ _ _) as [e|[|c cs]]; cbn [bypassed gated conflicts mode].
  - destruct e; [destruct Hc as [Ha Hh]; split; [done|by apply Hhit]|by right..].
  - intros path res (H1 & H2 & H3 & H4 & H5 & H6). apply (Hc path res); try done. by apply Hst.
  - destruct Hc as [Ha Hh]. split; [done|by apply Hhit].
Qed.

(** ** The guard and the reservations *)

Lemma stored_normalized sur res : stored sur res -> ignorecase sur = false ->
  normalized_pattern res = normalize_pattern (path_pattern res).
Proof.
  intros (entries & entry & val & _ & _ & _ & Hr) Hi. rewrite Hi in Hr. unfold read_record in Hr.
  destruct (expiry_text _ _) as [t|]; [|done]. cbn [mbind option_bind] in Hr. destruct (is_expired t (now sur)); [done|]. cbn zeta in Hr.
  match type of Hr with context [normalize_path _ ?p _] => set (pat := p) in Hr; assert (trim pat = pat) as Ht end.
  { unfold pat. destruct (as_str _); [apply trim_idem|]. destruct (as_str _); [apply trim_idem|done]. }
  destruct (is_empty pat); [done|]. destruct (as_bool _); [|done]. cbn [mbind option_bind] in Hr.
  destruct (is_empty _); [done|]. injection Hr as <-. cbn [normalized_pattern path_pattern].
  unfold normalize_path, normalize_pattern, normalize_parts. by rewrite Ht.
Qed.

(** A pattern without metacharacters matches, segment by segment, only itself. *)
Lemma literal_match ws : forall xs,
  Forall (fun w => seg_is_repeat w = false /\ forall x, seg_accepts w x = true -> x = w) ws ->
  matchesb seg_is_repeat seg_accepts ws xs = true -> xs = ws.
Proof.
  induction ws as [|w ws IH]; intros [|x xs] Hws; try done.
  - inversion Hws as [|? ? [Hr _] _]; subst. cbn. by rewrite Hr.
  - inversion Hws as [|? ? [Hr Ha] Hws']; subst. rewrite matchesb_item by done. intros [Hx Hm]%andb_true_iff.
    by rewrite (Ha x Hx), (IH xs).
Qed.

Lemma literal_simple_match p path : simple p = true -> has_glob_meta p = false -> simple_match p path = true -> path = p.
Proof.
  intros Hs Hm Hmatch. apply segs_inj. unfold simple_match in Hmatch. apply literal_match in Hmatch; [done|].
  apply Forall_forall. intros w Hw%list_elem_of_In.
  assert (has_glob_meta w = false) as Hw'.
  { apply not_true_iff_false. rewrite has_glob_meta_scalars, existsb_exists. intros (c & Hc & Hcm).
    apply not_true_iff_false in Hm. apply Hm. rewrite has_glob_meta_scalars, existsb_exists. exists c. split; [|done].
    revert Hw Hc. clear. unfold segs. revert w. induction p as [|d p IH]; intros w; cbn; [by intros [<-|[]]|].
    destruct (is_slash d); cbn; [intros [<-|Hw] Hc; [done|right; by eapply IH]|].
    destruct (split_on is_slash p) as [|v vs]; cbn in *; [intros [<-|[]] [->|[]]; by left|].
    intros [<-|Hw]; [intros [->|Hc]; [by left|right; eapply IH; [by left|done]]|intros Hc; right; eapply IH; [by right|done]]. }
  split.
  - apply ustr_eqb_neq. by intros ->.
  - intros x. apply seg_accepts_literal; [by eapply segs_simple|done].
Qed.

#[local] Instance case_sensitive : GlobEngine := engine false.

Lemma way_overlaps `{!GlobLaws} pat norm path :
  norm = normalize_pattern path -> has_glob_meta norm = false -> ascii_path norm -> simple (normalize_pattern pat) = true ->
  (exists glob, glob_compile (normalize_pattern pat) = Some glob /\ is_match glob norm = true) \/
  is_directory_prefix norm (normalize_pattern pat) = true \/ norm = normalize_pattern pat \/
  is_directory_prefix (normalize_pattern pat) norm = true ->
  overlaps (compiled_new path) (compiled_new pat) = true.
Proof.
  intros -> Hm Ha Hs Hway. rewrite overlaps_spec. unfold matcher_covers. cbn [cp_norm cp_is_glob cp_matcher compiled_new]. rewrite Hm.
  cbn [negb orb andb]. destruct Hway as [(glob & Hg & Hmatch)|[->|[->|Hp]]].
  - destruct (has_glob_meta (normalize_pattern pat)) eqn:Ep; [rewrite Hg, Hmatch, !orb_true_r; done|].
    assert (normalize_pattern path = normalize_pattern pat) as ->; [|by rewrite ustr_eqb_refl].
    apply literal_simple_match; [done|done|]. by eapply glob_simple_sound.
  - by rewrite orb_true_r.
  - by rewrite ustr_eqb_refl.
  - assert (has_glob_meta (normalize_pattern pat) = false) as ->; [|rewrite Hp; cbn; by rewrite !orb_true_r].
    apply is_directory_prefix_spec in Hp as [->|(rest & E)]; [done|]. rewrite E, has_glob_meta_app in Hm.
    by apply orb_false_iff in Hm as [? _].
Qed.

(** C15: the guard and the reservations agree, in a repository whose
    core.ignorecase is off - with it on, the guard compares without case and the
    server with it, and they differ.  For a reservation of the archive whose
    pattern is a simple glob that compiles, an engine that matches as globset
    documents, and an ASCII path without metacharacters and outer white space: a
    path that the guard finds in the way overlaps the pattern, so no agent could
    have been granted both; and a path that the pattern covers, or that lies below
    the directory it names, is in the way. *)
Theorem guard_agrees_with_reservations `{!GlobLaws} sur res path :
  stored sur res -> ignorecase sur = false -> trim path = path ->
  has_glob_meta (normalize_pattern path) = false -> ascii_path (normalize_pattern path) ->
  simple (normalize_pattern (path_pattern res)) = true -> is_Some (glob_compile (normalize_pattern (path_pattern res))) ->
  let n := normalize_path to_lowercase path false in
  let pattern := compiled_new (path_pattern res) in
  (stands_in_the_way res n false -> overlaps (compiled_new path) pattern = true) /\
  (covers pattern n \/ (cp_is_glob pattern = false /\ is_directory_prefix (cp_norm pattern) n = true) -> stands_in_the_way res n false).
Proof.
  intros Hst Hi Ht Hm Ha Hs [glob Hg] n pattern. pose proof (stored_normalized sur res Hst Hi) as En.
  assert (n = normalize_pattern path) as Hn by (unfold n, normalize_path, normalize_pattern, normalize_parts; by rewrite Ht).
  unfold stands_in_the_way, prefix_conflict. rewrite En. split.
  - intros (g & Hgc & Hway). apply (way_overlaps _ n); try done; [by rewrite Hn|by rewrite Hn|].
    destruct Hway as [Hmatch|Hp]; [left; by exists g|right].
    rewrite !orb_true_iff, ustr_eqb_eq in Hp. tauto.
  - intros Hc. exists glob. split; [done|]. rewrite !orb_true_iff, ustr_eqb_eq.
    destruct Hc as [Hc|[_ Hp]]; [|by right; right]. destruct (cp_is_glob pattern) eqn:Eg.
    + left. destruct (covers_glob _ _ Hc Eg) as (m & Em & Hmatch). cbn in Em, Eg. rewrite Eg in Em.
      assert (Some glob = Some m) as [= ->] by (etransitivity; [symmetry; exact Hg|exact Em]). exact Hmatch.
    + right. left. right. symmetry. by apply covers_exact.
Qed.
End check.

(** In a monorepo the paths inside the project's folder are the project's. *)
Lemma reanchored_inside repo inner paths q : inner <> [] -> forallb (fun w => negb (contains_char backslash w)) inner = true ->
  join [slash] inner <> [] ->
  (q ∈ project_relative_paths (Some (repo ++ inner)) repo paths false <-> join [slash] inner ++ slash :: q ∈ paths).
Proof.
  intros Hi Hb Hj. unfold project_relative_paths. rewrite bool_decide_true by (by exists inner). rewrite drop_app_length.
  assert (replace_char backslash [slash] (join [slash] inner) = join [slash] inner) as ->.
  { assert (forallb (fun c => negb (c =? backslash)%N) (join [slash] inner) = true) as Hc.
    { revert Hb. clear. induction inner as [|w ws IH]; [done|]. cbn [forallb]. intros [Hw Hws]%andb_true_iff. specialize (IH Hws).
      assert (forallb (fun c => negb (c =? backslash)%N) w = true) as Hw'.
      { revert Hw. unfold contains_char. clear. induction w as [|c w IH]; [done|]. cbn [existsb forallb]. rewrite negb_orb, N.eqb_sym.
        intros [-> Hw]%andb_true_iff. by apply IH. }
      destruct ws as [|v vs]; [done|]. rewrite join_cons by done. by rewrite !forallb_app, Hw', IH. }
    revert Hc. generalize (join [slash] inner). clear. intros s. unfold replace_char. induction s as [|c s IH]; [done|]. cbn [forallb flat_map].
    intros [Hc%negb_true_iff Hs]%andb_true_iff. by rewrite Hc, (IH Hs). }
  destruct (is_empty (join [slash] inner)) eqn:E; [by destruct (join [slash] inner)|].
  rewrite list_elem_of_omap. split.
  - intros (p & Hp & Hq). destruct (ustr_eqb _ _) eqn:Eh; [|done]. apply ustr_eqb_eq in Eh. injection Hq as <-.
    assert (p = (join [slash] inner ++ [slash]) ++ drop (length (join [slash] inner ++ [slash])) p) as Ep by (rewrite <- Eh at 1; by rewrite take_drop).
    rewrite <- app_assoc in Ep. cbn [app] in Ep. by rewrite <- Ep.
  - intros Hp. eexists. split; [exact Hp|]. change (slash :: q) with ([slash] ++ q). rewrite app_assoc, take_app_length, ustr_eqb_refl.
    by rewrite drop_app_length.
Qed.

(** ** Concrete runs *)

#[local] Existing Instance simple_engine.
#[local] Existing Instance simple_laws.

(** No date is written out; an artefact is its pattern, held by BlueLake. *)
#[local] Instance run_chrono : Chrono := {|
  parse_rfc3339 _ := None; parse_naive_frac _ := None; parse_naive _ := None; to_rfc3339 _ _ := None;
|}.
Definition run_from_str (text : ustr) : option (ustr -> Value) :=
  Some (fun field =>
    if ustr_eqb field (u "path_pattern") then VString text
    else if ustr_eqb field (u "agent_name") then VString (u "BlueLake")
    else if ustr_eqb field (u "exclusive") then VBool true
    else if ustr_eqb field (u "expires_ts") then VString (u "9999") else Null).
Definition run_entry (pattern : ustr) : DirEntry := mkEntry (u "id-1.json") (Some (true, false)) (Some 100) (Some pattern).
Definition run_sur (pattern : ustr) : Surroundings :=
  mkSurroundings None None None None None (Some (u "RedStone")) None (Some [Some (run_entry pattern)])
    (Some [u "work"; u "app"]) [u "work"; u "app"] false 1000.
#[local] Abbreviation run_check pattern input :=
  (guard_check_command run_from_str (fun s => s) (fun _ => simple_engine) (fun _ => None) true false false (utf8 (u input)) (run_sur (u pattern))).

Lemma guard_lets_through_exactly_witness :
  run_check "src/*.rs" "src/main.rs" = Denies /\ run_check "src/*.rs" "docs/a.md" = Allows /\
  exists res, stored run_from_str (fun s => s) (run_sur (u "src/*.rs")) res /\ exclusive res = true.
Proof.
  split; [vm_compute; reflexivity|]. split; [vm_compute; reflexivity|].
  pose proof (guard_lets_through_exactly run_from_str (fun s => s) (fun _ => simple_engine) (fun _ => None) false (utf8 (u "src/main.rs"))
                (run_sur (u "src/*.rs")) ltac:(vm_compute; reflexivity) ltac:(vm_compute; reflexivity) ltac:(vm_compute; reflexivity)) as H.
  cbn zeta in H. change (run_check "src/*.rs" "src/main.rs") with Denies in H. destruct H as (_ & path & res & _ & _ & Hs & He & _).
  exists res. exact (conj Hs He).
Defined.

Definition run_record (pattern : ustr) : FileReservationRecord :=
  mkRecord pattern (u "BlueLake") true (u "9999") (normalize_pattern pattern) (contains_glob pattern).

Lemma run_stored : stored run_from_str (fun s => s) (run_sur (u "src/*.rs")) (run_record (u "src/*.rs")).
Proof. exists [Some (run_entry (u "src/*.rs"))], (run_entry (u "src/*.rs")). eexists. split_and!; [done|by left|done|vm_compute; reflexivity]. Qed.

Lemma guard_agrees_with_reservations_witness :
  stands_in_the_way (fun s => s) (fun _ => simple_engine) (run_record (u "src/*.rs")) (u "src/main.rs") false /\
  overlaps (compiled_new (u "src/main.rs")) (compiled_new (u "src/*.rs")) = true.
Proof.
  assert (ascii_path (u "src/main.rs")) as Ha by (unfold ascii_path; repeat constructor).
  destruct (guard_agrees_with_reservations run_from_str (fun s => s) (fun _ => simple_engine) (run_sur (u "src/*.rs"))
              (run_record (u "src/*.rs")) (u "src/main.rs") run_stored eq_refl eq_refl eq_refl Ha eq_refl
              ltac:(eexists; vm_compute; reflexivity)) as [H1 H2].
  assert (stands_in_the_way (fun s => s) (fun _ => simple_engine) (run_record (u "src/*.rs")) (u "src/main.rs") false) as Hw
    by (apply H2; left; vm_compute; reflexivity).
  split; [exact Hw|]. exact (H1 Hw).
Defined.

(** A reservation whose file name is not a glob: the server grants it as the file
    it names, the guard does not look at it. *)
Lemma unbalanced_brace_unguarded :
  run_check "docs/a}.md" "docs/a}.md" = Allows /\
  overlaps (compiled_new (u "docs/a}.md")) (compiled_new (u "docs/a}.md")) = true /\
  is_matchable (compiled_new (u "docs/a}.md")) = true.
Proof. by vm_compute. Qed.

(** A push of one commit that renames one file and changes another. *)
Definition run_tokens_out : list (list N) := map utf8 [u "R100"; u "src/old.rs"; u "src/new.rs"; u "M"; u "docs/a.md"].
Definition run_chunks : list (list N) := [take 7 (terminated run_tokens_out); drop 7 (terminated run_tokens_out)].
Definition well : ExitStatus := mkStatus true false.
Definition run_count (count : string) (i : nat) (revs : list ustr) (cap : option Z) (attempt : nat) : ChildRun := Exited well (utf8 (u count)).
Definition run_pipe (chunks : list (list N)) (to_end : bool) (i : nat) (revs : list ustr) (inspect : Z) (attempt : nat) : PipeRun :=
  if (attempt =? 0)%nat then Piped [] true false (mkStatus false true) (mkStatus false true) else Piped chunks to_end false well well.
Definition run_push : ustr := u "refs/heads/main 1111 refs/heads/main 2222".

Lemma stream_reads_as_whole_witness :
  let st := read_chunks run_chunks (Some 1) default_stream in
  capped st = true /\ paths st = [u "src/old.rs"; u "src/new.rs"] /\
  exists rest, parse_name_status_z (concat run_chunks) = paths st ++ rest.
Proof.
  cbn zeta. split; [vm_compute; reflexivity|]. split; [vm_compute; reflexivity|].
  assert (Forall token_ok run_tokens_out) as Ht by (vm_compute; repeat (constructor; try discriminate)).
  assert (concat run_chunks = terminated run_tokens_out) as Hc by (vm_compute; reflexivity).
  destruct (stream_reads_as_whole run_chunks run_tokens_out (Some 1) Ht Hc) as [(rest & Hr & _) _].
  - intros c [= <-]. discriminate.
  - exists rest. exact Hr.
Defined.

Lemma push_answer_inspected_witness :
  get_push_paths (run_count "1") (run_pipe run_chunks true) run_push (mkLimits (Some 2) (Some 5) None) =
    inr [u "docs/a.md"; u "src/new.rs"; u "src/old.rs"] /\
  exists psi, ref_inspected (run_count "1") (run_pipe run_chunks true) (mkLimits (Some 2) (Some 5) None) 0 [u "2222..1111"] psi.
Proof.
  assert (get_push_paths (run_count "1") (run_pipe run_chunks true) run_push (mkLimits (Some 2) (Some 5) None) =
    inr [u "docs/a.md"; u "src/new.rs"; u "src/old.rs"]) as E by (vm_compute; reflexivity).
  split; [exact E|]. destruct (push_answer_inspected _ _ _ _ _ E) as [H _].
  destruct (H 0%nat run_push [u "2222..1111"]) as (psi & Hi & _); [vm_compute; reflexivity|vm_compute; reflexivity|].
  exists psi. exact Hi.
Defined.

(** The bounds are met: the push is refused. *)
Lemma push_over_the_cap :
  get_push_paths (run_count "3") (run_pipe run_chunks true) run_push (mkLimits (Some 2) None None) = inl (PushScanTruncated 1) /\
  get_push_paths (run_count "1") (run_pipe run_chunks true) run_push (mkLimits (Some 2) (Some 1) None) = inl (PushScanTruncated 1).
Proof. by vm_compute. Qed.

(** A read that fails is taken for the end of the output. *)
Lemma read_error_is_an_end :
  get_push_paths (run_count "1") (run_pipe [] false) run_push (mkLimits (Some 2) None None) = inr [].
Proof. by vm_compute. Qed.
