(* ===== verification/ReservationArtifact.v ===== *)
(** * The files of reservations in the archive ([core/src/reservation_artifact.rs])

    Their names, and finding the file of a reservation of a generation of the
    database, one at a time or many in one pass over the directory.  A name that
    is written is read back; the pass finds what the single lookups find. *)

From S2P Require Import Prelude.
From S2P Require Import RustStr.
From S2P Require Import RustText.

(** ** Names *)

(** @src core/src/reservation_artifact.rs:35-44 ParsedReservationArtifact *)
Record ParsedReservationArtifact := mkParsed { pa_id : Z; pa_generation : option ustr }.

(** @src core/src/reservation_artifact.rs:51-57 reservation_artifact_filename *)
Definition reservation_artifact_filename (generation : option ustr) (id : Z) : ustr :=
  match generation with
  | Some g => if negb (is_empty g) then u "id-" ++ dec id ++ u "-g" ++ g ++ u ".json" else u "id-" ++ dec id ++ u ".json"
  | None => u "id-" ++ dec id ++ u ".json"
  end.

(** [strip_suffix]. *)
Definition strip_suffix (s t : ustr) : option ustr := (@rev N) <$> strip_prefix (rev s) (rev t).

Definition is_ascii_hexdigit (c : N) : bool := ((48 <=? c) && (c <=? 57) || (65 <=? c) && (c <=? 70) || (97 <=? c) && (c <=? 102))%N.

(** @src core/src/reservation_artifact.rs:93-96 is_hex_token *)
Definition is_hex_token (s : ustr) : bool := negb (is_empty s) && forallb is_ascii_hexdigit s.

(** @src core/src/reservation_artifact.rs:67-91 parse_reservation_artifact_filename *)
Definition parse_reservation_artifact_filename (name : ustr) : option ParsedReservationArtifact :=
  rest ← strip_prefix (u "id-") name;
  stem ← strip_suffix (u ".json") rest;
  match split_once_str (u "-g") stem with
  | Some (id_part, generation) =>
      id ← parse_i64 id_part;
      if (id <=? 0) || is_empty generation || negb (is_hex_token generation) then None
      else Some (mkParsed id (Some generation))
  | None => id ← parse_i64 stem; if id <=? 0 then None else Some (mkParsed id None)
  end.

(** ** Lookups *)

(** An entry of the listing: its name and, when the kind is known, whether it is
    a file and whether a link. *)
Record ArtifactEntry := mkArtifact { ae_name : ustr; ae_kind : option (bool * bool) }.

(** The directory: which names are regular files, and its listing, in any order,
    [None] when it cannot be read. *)
Record ReservationsDir := mkDir { regular_file : ustr -> bool; listing : option (list ArtifactEntry) }.

(** @src core/src/reservation_artifact.rs:371-384 for_each_artifact
    -- what is visited, by name: paths in one directory compare by name. *)
Definition visited (entry : ArtifactEntry) : option (ustr * ParsedReservationArtifact) :=
  match ae_kind entry with
  | Some (true, false) => (fun parsed => (ae_name entry, parsed)) <$> parse_reservation_artifact_filename (ae_name entry)
  | _ => None
  end.

(** @src core/src/reservation_artifact.rs:364-386 for_each_artifact *)
Definition for_each_artifact {A} (dir : ReservationsDir) (visit : A -> ustr * ParsedReservationArtifact -> A) (init : A) : option A :=
  entries ← listing dir; Some (foldl visit init (omap visited entries)).

(** @src core/src/reservation_artifact.rs:352-362 for_each_artifact_of_id *)
Definition for_each_artifact_of_id {A} (dir : ReservationsDir) (id : Z) (visit : A -> ustr * ParsedReservationArtifact -> A) (init : A) : option A :=
  for_each_artifact dir (fun a e => if pa_id (snd e) =? id then visit a e else a) init.

Definition or_else {A} (a b : option A) : option A := match a with Some _ => a | None => b end.

(** @src core/src/reservation_artifact.rs:107-125 find_reservation_artifact
    -- the state: the stamped and the legacy file. *)
Definition find_reservation_artifact (dir : ReservationsDir) (id : Z) : option ustr :=
  st ← for_each_artifact_of_id dir id (fun (st : option ustr * option ustr) e =>
    let '(stamped, legacy) := st in
    match pa_generation (snd e) with
    | Some _ =>
        (match stamped with
         | Some existing => if negb (str_ltb (fst e) existing) then stamped else Some (fst e)
         | None => Some (fst e)
         end, legacy)
    | None => (stamped, or_else legacy (Some (fst e)))
    end) (None, None);
  or_else (fst st) (snd st).

Definition nonempty (generation : option ustr) : option ustr := g ← generation; if is_empty g then None else Some g.

(** @src core/src/reservation_artifact.rs:169-185 exact_reservation_artifact_for_generation *)
Definition exact_reservation_artifact_for_generation (dir : ReservationsDir) (id : Z) (current_generation : option ustr) : option ustr :=
  if 0 <? id then
    g ← current_generation;
    if is_hex_token g then
      let path := reservation_artifact_filename (Some g) id in
      if regular_file dir path then Some path else None
    else None
  else None.

(** @src core/src/reservation_artifact.rs:311-347 scan_reservation_artifact_for_generation
    -- the state: the legacy and the current file, and the stamped ones when the
    generation is not known. *)
Definition scan_reservation_artifact_for_generation (dir : ReservationsDir) (id : Z) (current_generation : option ustr) : option ustr :=
  st ← for_each_artifact_of_id dir id (fun (st : option ustr * option ustr * list ustr) e =>
    let '(legacy, current, unattributed) := st in
    match current_generation, pa_generation (snd e) with
    | _, None => (or_else legacy (Some (fst e)), current, unattributed)
    | Some live, Some stamped =>
        (legacy, if ustr_eqb stamped live then or_else current (Some (fst e)) else current, unattributed)
    | None, Some _ => (legacy, current, unattributed ++ [fst e])
    end) (None, None, []);
  let '(legacy, current, unattributed) := st in
  match current_generation with
  | Some _ => or_else current legacy
  | None => match unattributed with [] => legacy | [path] => Some path | _ => None end
  end.

(** @src core/src/reservation_artifact.rs:157-167 find_reservation_artifact_for_generation *)
Definition find_reservation_artifact_for_generation (dir : ReservationsDir) (id : Z) (current_generation : option ustr) : option ustr :=
  let current_generation := nonempty current_generation in
  or_else (exact_reservation_artifact_for_generation dir id current_generation)
    (scan_reservation_artifact_for_generation dir id current_generation).

(** ** Many at once *)

(** @src core/src/reservation_artifact.rs:192-201 ReservationArtifactResolution *)
Record ReservationArtifactResolution := mkResolution { matching_generation : option ustr; unattributed_fallback : option ustr }.

(** @src core/src/reservation_artifact.rs:203-208 ReservationArtifactCandidates *)
Record ReservationArtifactCandidates := mkCandidates {
  c_legacy : option ustr; c_current : option ustr; c_smallest_stamped : option ustr; c_stamped_count : Z;
}.
Definition no_candidates : ReservationArtifactCandidates := mkCandidates None None None 0.

(** @src core/src/reservation_artifact.rs:211-233 ReservationArtifactCandidates::observe *)
Definition observe (path : ustr) (generation current_generation : option ustr) (c : ReservationArtifactCandidates) :
    ReservationArtifactCandidates :=
  match generation with
  | Some g =>
      mkCandidates (c_legacy c)
        (if bool_decide (current_generation = Some g) && negb (bool_decide (is_Some (c_current c))) then Some path else c_current c)
        (if match c_smallest_stamped c with Some existing => str_ltb path existing | None => true end then Some path
         else c_smallest_stamped c)
        (usat_add (c_stamped_count c) 1)
  | None =>
      mkCandidates (or_else (c_legacy c) (Some path)) (c_current c) (c_smallest_stamped c) (c_stamped_count c)
  end.

(** @src core/src/reservation_artifact.rs:235-254 ReservationArtifactCandidates::resolve *)
Definition resolve (current_generation : option ustr) (c : ReservationArtifactCandidates) : ReservationArtifactResolution :=
  let matching :=
    match current_generation with
    | Some _ => or_else (c_current c) (c_legacy c)
    | None => if c_stamped_count c =? 0 then c_legacy c else if c_stamped_count c =? 1 then c_smallest_stamped c else None
    end in
  mkResolution matching (match matching with None => or_else (c_smallest_stamped c) (c_legacy c) | Some _ => None end).

(** @src core/src/reservation_artifact.rs:277-292 find_reservation_artifacts_for_generation
    -- the direct lookup of one id: what is resolved, and what is left to the pass. *)
Definition lookup_exact (dir : ReservationsDir) (current_generation : option ustr)
    (st : gmap Z ReservationArtifactResolution * gmap Z ReservationArtifactCandidates) (id : Z) :
    gmap Z ReservationArtifactResolution * gmap Z ReservationArtifactCandidates :=
  if (id <=? 0) || bool_decide (is_Some (fst st !! id)) then st
  else
    let matching := exact_reservation_artifact_for_generation dir id current_generation in
    (<[id := mkResolution matching None]> (fst st),
     match matching with None => <[id := no_candidates]> (snd st) | Some _ => snd st end).

(** @src core/src/reservation_artifact.rs:269-308 find_reservation_artifacts_for_generation *)
Definition find_reservation_artifacts_for_generation (dir : ReservationsDir) (ids : list Z) (current_generation : option ustr) :
    gmap Z ReservationArtifactResolution :=
  let current_generation := nonempty current_generation in
  let '(resolved, unresolved) := foldl (lookup_exact dir current_generation) (∅, ∅) ids in
  let unresolved :=
    default unresolved (for_each_artifact dir (fun (m : gmap Z ReservationArtifactCandidates) e =>
      alter (observe (fst e) (pa_generation (snd e)) current_generation) (pa_id (snd e)) m) unresolved) in
  (resolve current_generation <$> unresolved) ∪ resolved.

(** ** A name that is written is read back *)

Lemma strip_suffix_app s t : strip_suffix s (t ++ s) = Some t.
Proof.
  unfold strip_suffix. rewrite rev_app_distr. assert (strip_prefix (rev s) (rev s ++ rev t) = Some (rev t)) as -> by (by apply strip_prefix_Some).
  cbn. by rewrite rev_involutive.
Qed.

Lemma dec_positive z : 0 < z -> forallb is_ascii_digit (dec z) = true /\ is_empty (dec z) = false.
Proof. destruct z as [|p|p]; [lia| |lia]. intros _. destruct (pretty_N_spec (Npos p)) as [[Hd _] He]. by split. Qed.

Lemma no_dash s : forallb is_ascii_digit s = true -> Forall (fun c => c <> ch "-") s.
Proof.
  rewrite forallb_forall. intros Hs. apply Forall_forall. intros c Hc%list_elem_of_In ->. specialize (Hs _ Hc). done.
Qed.

Lemma split_once_str_none p pat s : Forall (fun c => c <> p) s -> split_once_str (p :: pat) s = None.
Proof.
  induction 1 as [|c s Hc Hs IH]; rewrite split_once_str_step; [done|].
  destruct (strip_prefix _ _) eqn:E; [apply strip_prefix_Some in E; by injection E|]. by rewrite IH.
Qed.

Lemma parse_name rest : parse_reservation_artifact_filename (u "id-" ++ rest ++ u ".json") =
  match split_once_str (u "-g") rest with
  | Some (id_part, generation) =>
      id ← parse_i64 id_part;
      if (id <=? 0) || is_empty generation || negb (is_hex_token generation) then None else Some (mkParsed id (Some generation))
  | None => id ← parse_i64 rest; if id <=? 0 then None else Some (mkParsed id None)
  end.
Proof.
  unfold parse_reservation_artifact_filename.
  assert (strip_prefix (u "id-") (u "id-" ++ rest ++ u ".json") = Some (rest ++ u ".json")) as -> by (by apply strip_prefix_Some).
  cbn [mbind option_bind]. by rewrite strip_suffix_app.
Qed.

(** The name of a reservation's file is read back to its id and the generation
    of the database that wrote it, so two reservations, or the same id in two
    generations, never share a name. *)
Theorem artifact_name_roundtrip generation id :
  0 < id -> in_i64 id -> (forall g, generation = Some g -> g = [] \/ is_hex_token g = true) ->
  parse_reservation_artifact_filename (reservation_artifact_filename generation id) = Some (mkParsed id (nonempty generation)).
Proof.
  intros Hid Hr Hg. destruct (dec_positive id Hid) as [Hd He]. pose proof (no_dash _ Hd) as Hn.
  assert (parse_reservation_artifact_filename (u "id-" ++ dec id ++ u ".json") = Some (mkParsed id None)) as Hlegacy.
  { rewrite parse_name. change (u "-g") with (ch "-" :: [ch "g"]). rewrite split_once_str_none by done. rewrite parse_dec by done.
    cbn [mbind option_bind]. by rewrite (proj2 (Z.leb_gt id 0) Hid). }
  destruct generation as [g|]; [|done]. cbn [reservation_artifact_filename nonempty mbind option_bind].
  destruct (is_empty g) eqn:Eg; cbn [negb]; [done|].
  assert (is_hex_token g = true) as Hh by (destruct (Hg g eq_refl) as [->|]; done).
  replace (u "id-" ++ dec id ++ u "-g" ++ g ++ u ".json") with (u "id-" ++ (dec id ++ u "-g" ++ g) ++ u ".json") by (by rewrite <- !app_assoc).
  rewrite parse_name. change (u "-g") with (ch "-" :: [ch "g"]) at 1. change (u "-g") with (ch "-" :: [ch "g"]). rewrite split_once_str_app by done.
  rewrite parse_dec by done. cbn [mbind option_bind]. by rewrite (proj2 (Z.leb_gt id 0) Hid), Eg, Hh.
Qed.

Lemma artifact_name_roundtrip_witness :
  reservation_artifact_filename (Some (u "0af3")) 17 = u "id-17-g0af3.json" /\
  parse_reservation_artifact_filename (reservation_artifact_filename (Some (u "0af3")) 17) = Some (mkParsed 17 (Some (u "0af3"))).
Proof.
  split; [vm_compute; reflexivity|]. apply (artifact_name_roundtrip (Some (u "0af3")) 17); [lia|split; vm_compute; discriminate|].
  intros g [= <-]. right. vm_compute. reflexivity.
Defined.

(** ** The pass finds what the lookups find *)

(** One id in the direct lookups. *)
Definition resolve_one (dir : ReservationsDir) (g : option ustr) (id : Z)
    (v : option ReservationArtifactResolution * option ReservationArtifactCandidates) :
    option ReservationArtifactResolution * option ReservationArtifactCandidates :=
  if (id <=? 0) || bool_decide (is_Some (fst v)) then v
  else
    let matching := exact_reservation_artifact_for_generation dir id g in
    (Some (mkResolution matching None), match matching with None => Some no_candidates | Some _ => snd v end).

Lemma lookup_exact_one dir g st i id :
  (fst (lookup_exact dir g st i) !! id, snd (lookup_exact dir g st i) !! id) =
  if bool_decide (i = id) then resolve_one dir g id (fst st !! id, snd st !! id) else (fst st !! id, snd st !! id).
Proof.
  unfold lookup_exact, resolve_one. cbn [fst snd]. destruct (decide (i = id)) as [->|Hi]; [rewrite (bool_decide_true (id = id)) by done|rewrite (bool_decide_false (i = id)) by done].
  - destruct ((id <=? 0) || bool_decide (is_Some (fst st !! id))); [done|]. cbn zeta. cbn [fst snd]. rewrite lookup_insert_eq.
    by destruct (exact_reservation_artifact_for_generation dir id g); rewrite ?lookup_insert_eq.
  - destruct ((i <=? 0) || _); [done|]. cbn zeta. cbn [fst snd]. rewrite lookup_insert_ne by done.
    by destruct (exact_reservation_artifact_for_generation dir i g); rewrite ?lookup_insert_ne by done.
Qed.

Lemma resolve_one_twice dir g id v : resolve_one dir g id (resolve_one dir g id v) = resolve_one dir g id v.
Proof.
  unfold resolve_one at 2 3. destruct ((id <=? 0) || bool_decide (is_Some (fst v))) eqn:E.
  - unfold resolve_one. by rewrite E.
  - unfold resolve_one. cbn [fst]. rewrite (bool_decide_true (is_Some (Some _))) by (by eexists). by rewrite orb_true_r.
Qed.

Lemma lookup_exact_fold dir g id ids : forall st,
  (fst (foldl (lookup_exact dir g) st ids) !! id, snd (foldl (lookup_exact dir g) st ids) !! id) =
  if bool_decide (id ∈ ids) then resolve_one dir g id (fst st !! id, snd st !! id) else (fst st !! id, snd st !! id).
Proof.
  induction ids as [|i ids IH]; intros st; cbn [foldl]; [done|]. rewrite IH, lookup_exact_one.
  destruct (decide (i = id)) as [->|Hne].
  - rewrite (bool_decide_true (id = id)), (bool_decide_true (id ∈ id :: ids)) by (done || by left). rewrite resolve_one_twice.
    by destruct (bool_decide _).
  - rewrite (bool_decide_false (i = id)) by done. by rewrite (bool_decide_ext (id ∈ i :: ids) (id ∈ ids)) by set_solver.
Qed.

(** One id in the pass over the directory. *)
Lemma observe_fold g id es : forall m : gmap Z ReservationArtifactCandidates,
  foldl (fun m e => alter (observe (fst e) (pa_generation (snd e)) g) (pa_id (snd e)) m) m es !! id =
  (fun c => foldl (fun c (e : ustr * ParsedReservationArtifact) => if pa_id (snd e) =? id then observe (fst e) (pa_generation (snd e)) g c else c) c es) <$> m !! id.
Proof.
  induction es as [|e es IH]; intros m; cbn [foldl]; [by destruct (m !! id)|]. rewrite IH.
  destruct (Z.eqb_spec (pa_id (snd e)) id) as [<-|Hne].
  - rewrite lookup_alter_eq. by destruct (m !! _).
  - by rewrite lookup_alter_ne.
Qed.

(** The candidates of the pass against the states of the two lookups. *)
Definition same_candidates (g : option ustr) (c : ReservationArtifactCandidates) (find : option ustr * option ustr)
    (scan : option ustr * option ustr * list ustr) : Prop :=
  c_legacy c = snd find /\ c_smallest_stamped c = fst find /\ scan.1.1 = c_legacy c /\ scan.1.2 = c_current c /\
  (g = None -> c_stamped_count c = Z.min (Z.of_nat (length scan.2)) u64_max /\ forall p, scan.2 = [p] -> c_smallest_stamped c = Some p) /\
  (g = None -> scan.2 = [] -> c_smallest_stamped c = None).

Definition find_step (st : option ustr * option ustr) (e : ustr * ParsedReservationArtifact) : option ustr * option ustr :=
  let '(stamped, legacy) := st in
  match pa_generation (snd e) with
  | Some _ =>
      (match stamped with
       | Some existing => if negb (str_ltb (fst e) existing) then stamped else Some (fst e)
       | None => Some (fst e)
       end, legacy)
  | None => (stamped, or_else legacy (Some (fst e)))
  end.
Definition scan_step (g : option ustr) (st : option ustr * option ustr * list ustr) (e : ustr * ParsedReservationArtifact) :
    option ustr * option ustr * list ustr :=
  let '(legacy, current, unattributed) := st in
  match g, pa_generation (snd e) with
  | _, None => (or_else legacy (Some (fst e)), current, unattributed)
  | Some live, Some stamped => (legacy, if ustr_eqb stamped live then or_else current (Some (fst e)) else current, unattributed)
  | None, Some _ => (legacy, current, unattributed ++ [fst e])
  end.

Lemma observe_same g c find scan e : same_candidates g c find scan ->
  same_candidates g (observe (fst e) (pa_generation (snd e)) g c) (find_step find e) (scan_step g scan e).
Proof.
  destruct find as [stamped legacy], scan as [[slegacy current] un], c as [cl cc cs cn]. unfold same_candidates. cbn [fst snd].
  intros (E1 & E2 & E3 & E4 & E5 & E6). cbn in E1, E2, E3, E4. subst. unfold observe, find_step, scan_step. cbn [fst snd].
  destruct (pa_generation (snd e)) as [st|], g as [live|]; cbn [fst snd c_legacy c_current c_smallest_stamped c_stamped_count] in *;
    split_and!; try done; try (by destruct stamped; [destruct (str_ltb _ _)|]).
  - rewrite (bool_decide_ext (Some live = Some st) (st = live)) by naive_solver. unfold ustr_eqb. case_bool_decide; [|done].
    by destruct cc.
  - intros _. destruct (E5 eq_refl) as [-> H5]. rewrite length_app. cbn [length]. split; [unfold usat_add, u64_max; lia|].
    intros p Hp. destruct un as [|q un]; [|by destruct un]. injection Hp as ->. by rewrite (E6 eq_refl eq_refl).
  - by destruct un.
Qed.

Lemma resolve_same g c find scan : same_candidates g c find scan ->
  let m := match g with Some _ => or_else scan.1.2 scan.1.1 | None => match scan.2 with [] => scan.1.1 | [path] => Some path | _ => None end end in
  resolve g c = mkResolution m (match m with None => or_else (fst find) (snd find) | Some _ => None end).
Proof.
  intros (E1 & E2 & E3 & E4 & E5 & E6). cbn zeta. rewrite <- E1, <- E2, E3, E4. unfold resolve. destruct g as [live|]; [done|].
  destruct (E5 eq_refl) as [-> H5]. destruct (scan.2) as [|p [|q un]]; cbn [length]; [done| |].
  - by rewrite (H5 p eq_refl).
  - rewrite (proj2 (Z.eqb_neq _ 0)), (proj2 (Z.eqb_neq _ 1)) by (unfold u64_max; lia). done.
Qed.

Lemma pass_resolves dir g id :
  let c := default no_candidates
    (for_each_artifact dir (fun c e => if pa_id (snd e) =? id then observe (fst e) (pa_generation (snd e)) g c else c) no_candidates) in
  let m := scan_reservation_artifact_for_generation dir id g in
  resolve g c = mkResolution m (match m with None => find_reservation_artifact dir id | Some _ => None end).
Proof.
  cbn zeta. unfold scan_reservation_artifact_for_generation, find_reservation_artifact, for_each_artifact_of_id, for_each_artifact.
  destruct (listing dir) as [entries|]; cbn [mbind option_bind default]; cbv [Datatypes.id]; [|by destruct g].
  assert (forall es c find scan, same_candidates g c find scan ->
    same_candidates g (foldl (fun c e => if pa_id (snd e) =? id then observe (fst e) (pa_generation (snd e)) g c else c) c es)
      (foldl (fun st e => if pa_id (snd e) =? id then find_step st e else st) find es)
      (foldl (fun st e => if pa_id (snd e) =? id then scan_step g st e else st) scan es)) as Hfold.
  { induction es as [|e es IH]; intros c find scan Hsame; [done|]. cbn [foldl]. apply IH.
    destruct (pa_id (snd e) =? id); [by apply observe_same|done]. }
  assert (same_candidates g no_candidates (None, None) (None, None, [])) as H0 by (split_and!; try done; by split).
  pose proof (resolve_same g _ _ _ (Hfold (omap visited entries) _ _ _ H0)) as Hres. cbn zeta in Hres.
  change (foldl _ (None, None, []) (omap visited entries)) with
    (foldl (fun st e => if pa_id (snd e) =? id then scan_step g st e else st) (None, None, []) (omap visited entries)).
  change (foldl _ (None, None) (omap visited entries)) with
    (foldl (fun st e => if pa_id (snd e) =? id then find_step st e else st) (None, None) (omap visited entries)).
  rewrite Hres. by destruct (foldl (fun st e => if pa_id (snd e) =? id then scan_step g st e else st) _ _) as [[legacy current] un].
Qed.

(** finding the files of many reservations in one pass over the directory is
    finding each of them by itself: for the positive ids that were asked for, the
    file of the current generation is the one the single lookup finds, and the
    fallback, only where there is none, the one the lookup without a generation
    finds - in whatever order the directory lists its entries, or if it cannot be
    read. *)
Theorem batch_matches_lookups dir ids generation id :
  find_reservation_artifacts_for_generation dir ids generation !! id =
  if bool_decide (id ∈ ids) && (0 <? id) then
    let m := find_reservation_artifact_for_generation dir id generation in
    Some (mkResolution m (match m with None => find_reservation_artifact dir id | Some _ => None end))
  else None.
Proof.
  unfold find_reservation_artifacts_for_generation, find_reservation_artifact_for_generation. set (g := nonempty generation).
  pose proof (lookup_exact_fold dir g id ids (∅, ∅)) as Hone. cbn [fst snd] in Hone. rewrite !lookup_empty in Hone.
  destruct (foldl (lookup_exact dir g) (∅, ∅) ids) as [resolved unresolved]. cbn [fst snd] in Hone.
  assert (forall m : gmap Z ReservationArtifactCandidates,
    default m (for_each_artifact dir (fun (m : gmap Z ReservationArtifactCandidates) e => alter (observe (fst e) (pa_generation (snd e)) g) (pa_id (snd e)) m) m) !! id =
    (fun c => default c (for_each_artifact dir (fun c e => if pa_id (snd e) =? id then observe (fst e) (pa_generation (snd e)) g c else c) c)) <$> m !! id) as Hpass.
  { intros m. unfold for_each_artifact. destruct (listing dir); cbn [mbind option_bind default]; cbv [Datatypes.id]; [apply observe_fold|by destruct (m !! id)]. }
  rewrite lookup_union, lookup_fmap, Hpass. unfold resolve_one in Hone. cbn [fst] in Hone.
  rewrite (bool_decide_false (is_Some None)) in Hone by (by intros [? ?]). rewrite orb_false_r in Hone.
  rewrite Z.ltb_antisym. destruct (bool_decide (id ∈ ids)); cbn [andb]; [|by injection Hone as -> ->].
  destruct (id <=? 0) eqn:Ei; cbn [negb]; [by injection Hone as -> ->|]. injection Hone as -> ->.
  destruct (exact_reservation_artifact_for_generation dir id g) as [path|]; [done|]. cbn [or_else fmap option_fmap option_map].
  by rewrite pass_resolves.
Qed.

(** A file of another generation is never taken for the current one. *)
Lemma scan_own_generation dir id live path : scan_reservation_artifact_for_generation dir id (Some live) = Some path ->
  exists parsed, parse_reservation_artifact_filename path = Some parsed /\ pa_id parsed = id /\
    (pa_generation parsed = Some live \/ pa_generation parsed = None).
Proof.
  unfold scan_reservation_artifact_for_generation, for_each_artifact_of_id, for_each_artifact.
  destruct (listing dir) as [entries|]; [|done]. cbn [mbind option_bind].
  set (own := fun p => exists parsed, parse_reservation_artifact_filename p = Some parsed /\ pa_id parsed = id /\
    (pa_generation parsed = Some live \/ pa_generation parsed = None)).
  assert (forall es st, (forall e, e ∈ es -> parse_reservation_artifact_filename (fst e) = Some (snd e)) ->
    (forall p, st.1.1 = Some p \/ st.1.2 = Some p -> own p) ->
    let st' := foldl (fun st e => if pa_id (snd e) =? id then scan_step (Some live) st e else st) st es in
    forall p, st'.1.1 = Some p \/ st'.1.2 = Some p -> own p) as Hfold.
  { induction es as [|e es IH]; intros st Hes Hst; [done|]. cbn zeta. cbn [foldl]. apply IH; [intros; apply Hes; by right|].
    destruct (Z.eqb_spec (pa_id (snd e)) id) as [Hid|]; [|done]. destruct st as [[legacy current] un]. cbn [scan_step fst snd] in *.
    pose proof (Hes e (list_elem_of_here _ _)) as Hp.
    destruct (pa_generation (snd e)) as [s|] eqn:Eg; cbn [fst snd].
    - destruct (ustr_eqb s live) eqn:Es; [apply ustr_eqb_eq in Es as ->|exact Hst].
      intros p [H|H]; [by apply Hst; left|]. destruct current as [q|]; cbn in H; [apply Hst; by right|]. injection H as <-.
      exists (snd e). split_and!; try done. by left.
    - intros p [H|H]; [|by apply Hst; right]. destruct legacy as [q|]; cbn in H; [apply Hst; by left|]. injection H as <-.
      exists (snd e). split_and!; try done. by right. }
  specialize (Hfold (omap visited entries) (None, None, [])). cbn zeta in Hfold.
  change (foldl _ (None, None, []) (omap visited entries)) with
    (foldl (fun st e => if pa_id (snd e) =? id then scan_step (Some live) st e else st) (None, None, []) (omap visited entries)).
  destruct (foldl (fun st e => if pa_id (snd e) =? id then scan_step (Some live) st e else st) _ _) as [[legacy current] un] eqn:Est.
  cbn [fst snd] in Hfold. intros Hp. apply Hfold.
  - intros e (entry & _ & He)%list_elem_of_omap. unfold visited in He. destruct (ae_kind entry) as [[[] []]|]; try done.
    destruct (parse_reservation_artifact_filename (ae_name entry)) as [parsed|] eqn:E; [|done]. injection He as <-. done.
  - by intros p [?|?].
  - destruct current as [q|]; cbn in Hp; [right|left]; congruence.
Qed.
