(* ===== verification/ContactLinks.v ===== *)
(** * Contact links ([db/src/queries.rs], [tools/src/contacts.rs], [tools/src/macros.rs])

    The table [agent_links]: who asked whom for contact, and what the asked
    answered.  One function per transaction; the tools over them, with the
    session that authorises each; and the handshake, which asks and answers in
    two transactions.  What the links permit is decided in [Contacts].  A failing
    statement rolls its transaction back and is left out; [updated] counts are
    those of an update by id. *)

From S2P Require Import Prelude.
From S2P Require Import RustStr.
From S2P Require Import RustText.
From S2P Require Import Leases.
From S2P Require Import LeaseReleases.
From S2P Require Import Contacts.
From S2P Require Import ContactsProps.
From S2P Require Import AgentRegistry.
From S2P Require Import SessionIdentity.

(** ** The table *)

(** @src db/src/models.rs:422-445 AgentLinkRow
    -- a row of the table has its id. *)
Record AgentLinkRow := mkLinkRow {
  al_id : Z; al_link : AgentLink; al_reason : ustr; al_created : Z; al_updated : Z;
}.

(** An end of a link: a project and an agent of it. *)
Definition Party : Type := Z * Z.
Definition from_party (l : AgentLink) : Party := (a_project_id l, a_agent_id l).
Definition to_party (l : AgentLink) : Party := (b_project_id l, b_agent_id l).

(** @src db/src/schema.rs:168-180 agent_links
    -- the rows in the order of their ids, and the next id. *)
Record LinkDb := mkLinkDb { link_rows : list AgentLinkRow; next_link : Z }.
Definition no_links : LinkDb := mkLinkDb [] 1.

(** [a_project_id = ? AND a_agent_id = ? AND b_project_id = ? AND b_agent_id = ?]. *)
Definition links (from to : Party) (r : AgentLinkRow) : bool :=
  bool_decide (from_party (al_link r) = from) && bool_decide (to_party (al_link r) = to).

Definition find_link (from to : Party) (db : LinkDb) : option AgentLinkRow := List.find (links from to) (link_rows db).

(** [UPDATE agent_links SET .. WHERE ..]: the number of rows, and the table. *)
Definition update_links (p : AgentLinkRow -> bool) (f : AgentLinkRow -> AgentLinkRow) (db : LinkDb) : LinkDb :=
  mkLinkDb (map (fun r => if p r then f r else r) (link_rows db)) (next_link db).

Definition set_status (status : ustr) (expires : option Z) (l : AgentLink) : AgentLink :=
  mkLink (a_project_id l) (a_agent_id l) (b_project_id l) (b_agent_id l) status expires.

(** ** The transactions *)

Inductive LinkError := LinkNotFound.

(** @src db/src/queries.rs:17079-17083 request_contact
    -- also of an accepting answer, 17220-17224. *)
Definition link_expiry (now ttl_seconds : Z) : option Z :=
  if 0 <? ttl_seconds then Some (isat_add now (iclamp (ttl_seconds * 1000000))) else None.

(** @src db/src/queries.rs:17099-17114 request_contact
    -- the insert; [None] is the violation of [UNIQUE]. *)
Definition insert_link (now : Z) (from to : Party) (reason : ustr) (expires : option Z) (db : LinkDb) : option LinkDb :=
  match find_link from to db with
  | Some _ => None
  | None =>
      Some (mkLinkDb
        (link_rows db ++
           [mkLinkRow (next_link db) (mkLink from.1 from.2 to.1 to.2 (u "pending") expires) reason now now])
        (next_link db + 1))
  end.

(** @src db/src/queries.rs:17134-17138 request_contact
    -- the rows the refresh takes: not a block, not an approval in force. *)
Definition refreshes (now : Z) (l : AgentLink) : bool :=
  negb (ustr_eqb (link_status l) (u "blocked")) &&
  (negb (ustr_eqb (link_status l) (u "approved")) ||
   match link_expires l with None => false | Some expires => expires <=? now end).

(** @src db/src/queries.rs:17129-17157 request_contact *)
Definition refresh_link (now : Z) (from to : Party) (reason : ustr) (expires : option Z) (db : LinkDb) : LinkDb :=
  update_links (fun r => links from to r && refreshes now (al_link r))
    (fun r => mkLinkRow (al_id r) (set_status (u "pending") expires (al_link r)) reason (al_created r) now) db.

(** @src db/src/queries.rs:17068-17204 request_contact *)
Definition request_contact (now : Z) (from to : Party) (reason : ustr) (ttl_seconds : Z) (db : LinkDb) :
    (LinkError + AgentLinkRow) * LinkDb :=
  let expires := link_expiry now ttl_seconds in
  let db' :=
    match insert_link now from to reason expires db with
    | Some db' => db'
    | None => refresh_link now from to reason expires db
    end in
  match find_link from to db' with
  | None => (inl LinkNotFound, db)
  | Some row => (inr row, db')
  end.

(** @src db/src/queries.rs:17208-17304 respond_contact
    -- one row has the id. *)
Definition respond_contact (now : Z) (from to : Party) (accept : bool) (ttl_seconds : Z) (db : LinkDb) :
    (LinkError + AgentLinkRow) * LinkDb :=
  let status := if accept then u "approved" else u "blocked" in
  let expires := if accept then link_expiry now ttl_seconds else None in
  match find_link from to db with
  | None => (inl LinkNotFound, db)
  | Some row =>
      let answer r := mkLinkRow (al_id r) (set_status status expires (al_link r)) (al_reason r) (al_created r) now in
      (inr (answer row), update_links (fun r => al_id r =? al_id row) answer db)
  end.

(** @src db/src/queries.rs:17309-17379 list_contacts *)
Definition list_contacts (who : Party) (db : LinkDb) : list AgentLink * list AgentLink :=
  let rows := map al_link (link_rows db) in
  (List.filter (fun l => bool_decide (from_party l = who)) rows,
   List.filter (fun l => bool_decide (to_party l = who)) rows).

(** @src db/src/queries.rs:1134-1141 build_approved_contact_sql_with_placeholders
    -- the condition of the query on a row. *)
Definition approved_in_force (now : Z) (l : AgentLink) : bool :=
  ustr_eqb (link_status l) (u "approved") &&
  match link_expires l with None => true | Some expires => now <? expires end.

Definition approved_rows (now project_id sender_id : Z) (chunk : list Z) (db : LinkDb) : list Z :=
  map b_agent_id
    (List.filter (fun l =>
       bool_decide (from_party l = (project_id, sender_id)) && (b_project_id l =? project_id) &&
       approved_in_force now l && existsb (Z.eqb (b_agent_id l)) chunk) (map al_link (link_rows db))).

Fixpoint query_chunks (clock : nat -> Z) (project_id sender_id : Z) (chs : list (list Z)) (db : LinkDb) : list Z :=
  match chs with
  | [] => []
  | chunk :: chs =>
      approved_rows (clock O) project_id sender_id chunk db ++
      query_chunks (fun i => clock (S i)) project_id sender_id chs db
  end.

(** @src db/src/queries.rs:1098-1098 MAX_IN_CLAUSE_ITEMS *)
Definition MAX_IN_CLAUSE_ITEMS : nat := 500.

(** [Vec::dedup]: of equal neighbours the first stays. *)
Fixpoint dedup (l : list Z) : list Z :=
  match l with
  | x :: (y :: _) as l' => if x =? y then dedup l' else x :: dedup l'
  | _ => l
  end.

(** @src db/src/queries.rs:17382-17434 list_approved_contact_ids
    -- each chunk reads the clock for itself. *)
Definition list_approved_contact_ids (clock : nat -> Z) (project_id sender_id : Z) (candidate_ids : list Z)
    (db : LinkDb) : list Z :=
  dedup (merge_sort Z.le (query_chunks clock project_id sender_id (chunks MAX_IN_CLAUSE_ITEMS candidate_ids) db)).

(** [status = 'approved' LIMIT 1] between two, and still valid. *)
Definition approved_link (now : Z) (from to : Party) (db : LinkDb) : bool :=
  match List.find (fun r => links from to r && ustr_eqb (link_status (al_link r)) (u "approved")) (link_rows db) with
  | None => false
  | Some r => match link_expires (al_link r) with None => true | Some expires => now <? expires end
  end.

(** @src db/src/queries.rs:17500-17605 is_contact_allowed
    -- [policy]: the text in the column of the target, if there is one. *)
Definition is_contact_allowed (now : Z) (from to : Party) (policy : option ustr) (db : LinkDb) : bool :=
  approved_link now from to db || approved_link now to from db ||
  (ustr_eqb (default [] policy) (u "auto") || ustr_eqb (default [] policy) (u "open")).

(** ** The tools *)

(** @src tools/src/contacts.rs:92-92 VALID_CONTACT_POLICIES *)
Definition VALID_CONTACT_POLICIES : list ustr := [u "open"; u "auto"; u "contacts_only"; u "block_all"].

(** @src tools/src/contacts.rs:98-100 normalize_contact_policy *)
Definition normalize_contact_policy (raw : ustr) : ustr := to_ascii_lowercase (trim (replace_char 0%N [] raw)).

(** @src tools/src/contacts.rs:102-115 parse_contact_policy *)
Definition parse_contact_policy (raw : ustr) : ustr :=
  let norm := normalize_contact_policy raw in
  if existsb (ustr_eqb norm) VALID_CONTACT_POLICIES then norm else u "auto".

(** @src tools/src/contacts.rs:248-253 ContactTargetResolution *)
Record ContactTargetResolution := mkTarget { ct_project : ustr; ct_agent : ustr; ct_explicit : bool }.

(** @src tools/src/contacts.rs:262-274 resolve_contact_target
    -- [project:<slug>#<Name>]. *)
Definition target_shorthand (to_agent : ustr) : option (ustr * ustr) :=
  if starts_with (u "project:") to_agent && contains_char (ch "#") to_agent then
    '(_, rest) ← split_once (ch ":") to_agent;
    '(slug, agent) ← split_once (ch "#") rest;
    let slug := trim slug in
    let agent := trim agent in
    if is_empty slug || is_empty agent then None else Some (slug, agent)
  else None.

(** @src tools/src/contacts.rs:257-289 resolve_contact_target *)
Definition resolve_contact_target (to_agent : ustr) (to_project : option ustr) (default_project : ustr) :
    ContactTargetResolution :=
  let '(actual_project, actual_agent, shorthand_project) :=
    match target_shorthand to_agent with
    | Some (slug, agent) => (slug, agent, true)
    | None => (default_project, to_agent, false)
    end in
  let explicit_project := shorthand_project || match to_project with Some _ => true | None => false end in
  mkTarget (default actual_project to_project) actual_agent explicit_project.

(** @src tools/src/contacts.rs:434-444 request_contact_with_intro
    -- and of an answer, 713-723, with its own default. *)
Definition clamp_link_ttl (default_seconds : Z) (ttl_seconds : option Z) : Z :=
  match ttl_seconds with
  | Some t => if 0 <? t then Z.max 60 (Z.min t 31536000) else default_seconds
  | None => default_seconds
  end.

(** @src tools/src/contacts.rs:343-353 ContactIntro *)
Inductive ContactIntro := PendingRequest | Deferred.

(** @src tools/src/contacts.rs:468-474 request_contact_with_intro *)
Definition should_send_intro (intro : ContactIntro) (to_policy : ustr) (row : AgentLinkRow) : bool :=
  match intro with PendingRequest => true | Deferred => false end &&
  negb (ustr_eqb to_policy (u "block_all")) && ustr_eqb (link_status (al_link row)) (u "pending").

(** What a call knows of its session: the feature, the liveness of the request
    and its reads. *)
Record Session := mkSessionCtx { se_enabled : bool; se_live : bool; se_reads : CtxReads; se_live' : bool }.
Definition authorized (s : Session) (agent : AgentRegistry.AgentRow) (action : ustr) : AuthError + unit :=
  authorize_actor (se_enabled s) (se_live s) (se_reads s) (se_live' s) agent false action.

Definition party (a : AgentRegistry.AgentRow) : Party := (ar_project a, ar_id a).

Inductive ContactToolError := ContactRefused (e : AuthError) | ContactDbError (e : LinkError).

Definition lift_link (r : (LinkError + AgentLinkRow) * LinkDb) : (ContactToolError + AgentLinkRow) * LinkDb :=
  (match r.1 with inl e => inl (ContactDbError e) | inr row => inr row end, r.2).

(** @src tools/src/contacts.rs:445-466 request_contact_with_intro
    -- for an agent and a target that were found; the requester that is
    registered on the way is in [SessionActors]. *)
Definition request_tool (s : Session) (now : Z) (from to : AgentRegistry.AgentRow) (reason : option ustr)
    (ttl_seconds : option Z) (db : LinkDb) : (ContactToolError + AgentLinkRow) * LinkDb :=
  match authorized s from (u "request contacts") with
  | inl e => (inl (ContactRefused e), db)
  | inr _ => lift_link (request_contact now (party from) (party to) (default [] reason)
                          (clamp_link_ttl 604800 ttl_seconds) db)
  end.

(** @src tools/src/contacts.rs:690-734 respond_contact
    -- for agents that were found. *)
Definition respond_tool (s : Session) (now : Z) (to from : AgentRegistry.AgentRow) (accept : bool)
    (ttl_seconds : option Z) (db : LinkDb) : (ContactToolError + AgentLinkRow) * LinkDb :=
  match authorized s to (u "respond to contact requests") with
  | inl e => (inl (ContactRefused e), db)
  | inr _ => lift_link (respond_contact now (party from) (party to) accept (clamp_link_ttl 2592000 ttl_seconds) db)
  end.

(** The calls that change links. *)
Inductive ContactCall :=
  | CallRequest (s : Session) (now : Z) (from to : AgentRegistry.AgentRow) (reason : option ustr) (ttl : option Z)
  | CallRespond (s : Session) (now : Z) (to from : AgentRegistry.AgentRow) (accept : bool) (ttl : option Z).
Definition apply_call (db : LinkDb) (c : ContactCall) : LinkDb :=
  match c with
  | CallRequest s now from to reason ttl => (request_tool s now from to reason ttl db).2
  | CallRespond s now to from accept ttl => (respond_tool s now to from accept ttl db).2
  end.

(** @src tools/src/macros.rs:821-824 macro_contact_handshake *)
Definition handshake_ttl (ttl_seconds : option Z) : Z := clamp_link_ttl 604800 ttl_seconds.

(** @src tools/src/macros.rs:839-869 macro_contact_handshake
    -- from the request to the answer; [between]: what others call in between. *)
Definition contact_handshake (s s' : Session) (now now' : Z) (from to : AgentRegistry.AgentRow)
    (reason : option ustr) (auto_accept : bool) (ttl_seconds : option Z) (between : list ContactCall) (db : LinkDb) :
    (ContactToolError + bool) * LinkDb :=
  let ttl := handshake_ttl ttl_seconds in
  match request_tool s now from to reason (Some ttl) db with
  | (inl e, db) => (inl e, db)
  | (inr row, db) =>
      let link_blocked := eq_ignore_ascii_case (link_status (al_link row)) (u "blocked") in
      let db := run apply_call db between in
      if auto_accept && negb link_blocked then
        match respond_tool s' now' to from true (Some ttl) db with
        | (inl e, db) => (inl e, db)
        | (inr _, db) => (inr true, db)
        end
      else (inr false, db)
  end.

(** ** The reference: what one agent lets another do *)

Inductive Consent := Asked | Granted (until : option Z) | Refused.
#[export] Instance Consent_eq_dec : EqDecision Consent.
Proof. solve_decision. Defined.

Inductive PairStep := Ask (now : Z) | Grant (until : option Z) | Refuse.

(** A refusal and a grant in force outlive requests; an answer needs a request. *)
Definition consent_step (c : option Consent) (o : PairStep) : option Consent :=
  match o, c with
  | Ask _, None => Some Asked
  | Ask now, Some (Granted (Some expires)) => if expires <=? now then Some Asked else c
  | Ask _, Some _ => c
  | Grant _, None | Refuse, None => None
  | Grant until, Some _ => Some (Granted until)
  | Refuse, Some _ => Some Refused
  end.

Definition ok {E A} (r : E + A) : bool := match r with inl _ => false | inr _ => true end.

(** What a call is for the link between two agents; a call without authority is
    nothing. *)
Definition step_of (from to : Party) (c : ContactCall) : option PairStep :=
  match c with
  | CallRequest s now f t _ _ =>
      if bool_decide (party f = from) && bool_decide (party t = to) && ok (authorized s f (u "request contacts"))
      then Some (Ask now) else None
  | CallRespond s now t f accept ttl =>
      if bool_decide (party f = from) && bool_decide (party t = to) &&
         ok (authorized s t (u "respond to contact requests"))
      then Some (if accept then Grant (link_expiry now (clamp_link_ttl 2592000 ttl)) else Refuse) else None
  end.

Definition agreement (calls : list ContactCall) (from to : Party) : option Consent :=
  foldl consent_step None (omap (step_of from to) calls).

Definition permits (now : Z) (c : option Consent) : bool :=
  match c with
  | Some (Granted None) => true
  | Some (Granted (Some expires)) => now <? expires
  | _ => false
  end.

(** What a row stands for. *)
Definition link_consent (l : AgentLink) : Consent :=
  if ustr_eqb (link_status l) (u "blocked") then Refused
  else if ustr_eqb (link_status l) (u "approved") then Granted (link_expires l) else Asked.
Definition consent_of (db : LinkDb) (from to : Party) : option Consent :=
  (fun r => link_consent (al_link r)) <$> find_link from to db.

(** ** Well-formed tables *)

#[local] Opaque u.

Definition pair_of (r : AgentLinkRow) : Party * Party := (from_party (al_link r), to_party (al_link r)).

Record links_wf (db : LinkDb) : Prop := {
  wf_ids : NoDup (al_id <$> link_rows db);
  wf_next : forall r, r ∈ link_rows db -> al_id r < next_link db;
  wf_pairs : NoDup (pair_of <$> link_rows db);
  wf_status : forall r, r ∈ link_rows db ->
    link_status (al_link r) ∈ [u "pending"; u "approved"; u "blocked"];
}.

Lemma links_true from to r : links from to r = true <-> pair_of r = (from, to).
Proof. unfold links, pair_of. rewrite andb_true_iff, !bool_decide_eq_true. naive_solver. Qed.

Lemma NoDup_key_inj {A K} (key : A -> K) (l : list A) x y :
  NoDup (key <$> l) -> x ∈ l -> y ∈ l -> key x = key y -> x = y.
Proof.
  induction l as [|z l IH]; cbn; [by intros _ ?%elem_of_nil|]. intros [Hz Hn]%NoDup_cons Hx Hy Hk.
  apply elem_of_cons in Hx as [->|Hx]; apply elem_of_cons in Hy as [->|Hy]; [done| | |by apply IH].
  - exfalso. apply Hz. rewrite Hk. by apply list_elem_of_fmap_2.
  - exfalso. apply Hz. rewrite <- Hk. by apply list_elem_of_fmap_2.
Qed.

Lemma find_link_Some db from to r : links_wf db ->
  find_link from to db = Some r <-> r ∈ link_rows db /\ pair_of r = (from, to).
Proof.
  intros Hwf. unfold find_link. split.
  - intros [Hin Hl]%find_some. rewrite list_elem_of_In. by rewrite links_true in Hl.
  - intros [Hin Hp]. destruct (List.find _ _) as [r'|] eqn:E.
    + apply find_some in E as [Hin' Hl]. apply links_true in Hl. f_equal.
      apply (NoDup_key_inj pair_of (link_rows db)); [apply Hwf|by apply list_elem_of_In|done|congruence].
    + apply list_elem_of_In in Hin. pose proof (find_none _ _ E _ Hin) as Hl. apply links_true in Hp. congruence.
Qed.

Lemma find_map {A} (q : A -> bool) (g : A -> A) l :
  (forall x, q (g x) = q x) -> List.find q (map g l) = g <$> List.find q l.
Proof. intros Hq. induction l as [|x l IH]; cbn; [done|]. rewrite Hq. by destruct (q x). Qed.

Lemma find_app {A} (q : A -> bool) l l' :
  List.find q (l ++ l') = match List.find q l with Some x => Some x | None => List.find q l' end.
Proof. induction l as [|x l IH]; cbn; [done|]. by destruct (q x). Qed.

(** Rows change without changing whose they are. *)
Definition keeps (f : AgentLinkRow -> AgentLinkRow) : Prop := forall r, al_id (f r) = al_id r /\ pair_of (f r) = pair_of r.

Lemma find_update_links p f db from to : keeps f ->
  find_link from to (update_links p f db) = (fun r => if p r then f r else r) <$> find_link from to db.
Proof.
  intros Hf. unfold find_link, update_links. cbn [link_rows]. apply find_map. intros r. apply eq_true_iff_eq.
  rewrite !links_true. destruct (p r); [|done]. by rewrite (proj2 (Hf r)).
Qed.

Lemma fmap_update_key {K} (key : AgentLinkRow -> K) (p : AgentLinkRow -> bool) f (l : list AgentLinkRow) :
  (forall r, key (f r) = key r) -> key <$> map (fun r => if p r then f r else r) l = key <$> l.
Proof. intros Hk. induction l as [|r l IH]; cbn; [done|]. by case_match; rewrite ?Hk, IH. Qed.

Lemma update_links_wf p f db : keeps f ->
  (forall r, link_status (al_link (f r)) ∈ [u "pending"; u "approved"; u "blocked"]) ->
  links_wf db -> links_wf (update_links p f db).
Proof.
  intros Hf Hst [Hi Hn Hp Hs].
  assert (forall r', r' ∈ link_rows (update_links p f db) -> exists r, r ∈ link_rows db /\ r' = if p r then f r else r) as Hin.
  { unfold update_links. cbn [link_rows]. intros r' (r & -> & Hr)%list_elem_of_fmap. eauto. }
  split; cbn [next_link].
  - cbn. rewrite fmap_update_key; [done|apply Hf].
  - intros r' (r & Hr & ->)%Hin. destruct (p r); [rewrite (proj1 (Hf r))|]; by apply Hn.
  - cbn. rewrite fmap_update_key; [done|apply Hf].
  - intros r' (r & Hr & ->)%Hin. destruct (p r); [apply Hst|by apply Hs].
Qed.

(** ** Each transaction is a step of the reference *)

Definition same_pair (from to f t : Party) : bool := bool_decide (f = from) && bool_decide (t = to).

Lemma find_link_snoc from to db r n :
  find_link from to (mkLinkDb (link_rows db ++ [r]) n) =
  match find_link from to db with Some r' => Some r' | None => if links from to r then Some r else None end.
Proof. unfold find_link. cbn [link_rows]. by rewrite find_app. Qed.

Lemma insert_link_Some now f t reason expires db db' : links_wf db ->
  insert_link now f t reason expires db = Some db' ->
  find_link f t db = None /\ links_wf db' /\
  forall from to, consent_of db' from to = if same_pair from to f t then Some Asked else consent_of db from to.
Proof.
  intros Hwf. unfold insert_link. destruct (find_link f t db) eqn:E; [done|]. intros [= <-]. split; [done|].
  assert (forall r, r ∈ link_rows db -> pair_of r <> (f, t)) as Hnew.
  { intros r Hr Hp. pose proof (proj2 (find_link_Some db f t r Hwf) (conj Hr Hp)). congruence. }
  destruct f as [fp fa], t as [tp ta], Hwf as [Hi Hn Hp Hs]. split.
  - split; cbn [link_rows next_link].
    + rewrite fmap_app. apply NoDup_app. split; [done|]. split; [|apply NoDup_singleton].
      intros i (r & -> & Hr)%list_elem_of_fmap Hl%list_elem_of_singleton. cbn in Hl. specialize (Hn r Hr). lia.
    + intros r [Hr| ->%list_elem_of_singleton]%elem_of_app; [specialize (Hn r Hr); lia|cbn; lia].
    + rewrite fmap_app. apply NoDup_app. split; [done|]. split; [|apply NoDup_singleton].
      intros i (r & -> & Hr)%list_elem_of_fmap Hl%list_elem_of_singleton. by apply (Hnew r).
    + intros r [Hr| ->%list_elem_of_singleton]%elem_of_app; [by apply Hs|by left].
  - intros from to. unfold consent_of. rewrite find_link_snoc. unfold links, from_party, to_party. cbn.
    fold (same_pair from to (fp, fa) (tp, ta)). destruct (same_pair _ _ _ _) eqn:Es.
    + unfold same_pair in Es. breflect. subst. by rewrite E.
    + by destruct (find_link from to db).
Qed.

(** A refresh takes a row unless the reference keeps what it says. *)
Lemma refreshes_step now l :
  (if refreshes now l then Some Asked else Some (link_consent l)) = consent_step (Some (link_consent l)) (Ask now).
Proof.
  unfold refreshes, link_consent. destruct (ustr_eqb (link_status l) (u "blocked")); cbn; [done|].
  destruct (ustr_eqb (link_status l) (u "approved")); cbn; [|done].
  destruct (link_expires l) as [e|]; [|done]. by destruct (e <=? now).
Qed.

Lemma refresh_consent now f t reason expires db : links_wf db ->
  links_wf (refresh_link now f t reason expires db) /\
  forall from to, consent_of (refresh_link now f t reason expires db) from to =
    if same_pair from to f t then c ← consent_of db from to; consent_step (Some c) (Ask now) else consent_of db from to.
Proof.
  intros Hwf. unfold refresh_link. set (g := fun r => mkLinkRow _ _ _ _ _).
  assert (keeps g) as Hg by done. split; [apply update_links_wf; [done|by left|done]|].
  intros from to. unfold consent_of. rewrite find_update_links by done.
  destruct (find_link from to db) as [r|] eqn:E; cbn; [|by case_match].
  apply find_link_Some in E as [_ Hp]; [|done]. unfold same_pair, links. injection Hp as Hf Ht. rewrite Hf, Ht.
  rewrite !(bool_decide_ext (_ = f) (f = _)), !(bool_decide_ext (_ = t) (t = _)) by done.
  destruct (bool_decide (f = from) && bool_decide (t = to)); cbn [andb]; [|done].
  etransitivity; [|apply refreshes_step]. by destruct (refreshes now (al_link r)).
Qed.

Lemma request_contact_step now f t reason ttl db : links_wf db ->
  ok (request_contact now f t reason ttl db).1 = true /\
  links_wf (request_contact now f t reason ttl db).2 /\
  forall from to, consent_of (request_contact now f t reason ttl db).2 from to =
    if same_pair from to f t then consent_step (consent_of db from to) (Ask now) else consent_of db from to.
Proof.
  intros Hwf. unfold request_contact.
  set (db' := match insert_link _ _ _ _ _ _ with Some d => d | None => _ end).
  assert (links_wf db' /\ forall from to, consent_of db' from to =
    if same_pair from to f t then consent_step (consent_of db from to) (Ask now) else consent_of db from to)
    as (Hwf' & Hc).
  { subst db'. destruct (insert_link _ _ _ _ _ _) as [d|] eqn:E.
    - apply insert_link_Some in E as (En & Hd & Hc); [|done]. split; [done|]. intros from to. rewrite Hc.
      destruct (same_pair from to f t) eqn:Es; [|done]. unfold same_pair in Es. breflect. subst.
      unfold consent_of. by rewrite En.
    - destruct (refresh_consent now f t reason (link_expiry now ttl) db Hwf) as [Hd Hc]. split; [done|].
      intros from to. rewrite Hc. destruct (same_pair from to f t) eqn:Es; [|done].
      unfold same_pair in Es. breflect. subst.
      unfold insert_link in E. unfold consent_of. by destruct (find_link from to db). }
  pose proof (Hc f t) as Hft. unfold same_pair in Hft. rewrite !bool_decide_true in Hft by done. cbn [andb] in Hft.
  destruct (find_link f t db') as [row|] eqn:Ef; [done|exfalso].
  unfold consent_of in Hft at 1. rewrite Ef in Hft. unfold consent_of in Hft.
  destruct (find_link f t db) as [r|]; cbn in Hft; [|done]. by repeat case_match.
Qed.

Lemma respond_contact_step now f t accept ttl db : links_wf db ->
  ok (respond_contact now f t accept ttl db).1 = ok (match consent_of db f t with None => inl tt | Some c => inr c end) /\
  links_wf (respond_contact now f t accept ttl db).2 /\
  forall from to, consent_of (respond_contact now f t accept ttl db).2 from to =
    if same_pair from to f t
    then consent_step (consent_of db from to) (if accept then Grant (link_expiry now ttl) else Refuse)
    else consent_of db from to.
Proof.
  intros Hwf. unfold respond_contact. unfold consent_of at 1.
  destruct (find_link f t db) as [row|] eqn:Ef; cbn -[update_links].
  2: { split; [done|]. split; [done|]. intros from to. destruct (same_pair from to f t) eqn:Es; [|done].
       unfold same_pair in Es. breflect. subst. unfold consent_of. rewrite Ef. by destruct accept. }
  set (g := fun r => mkLinkRow _ _ _ _ _). assert (keeps g) as Hg by done. split; [done|]. split.
  { apply update_links_wf; [done| |done]. intros r. unfold g. cbn. destruct accept; set_solver. }
  apply find_link_Some in Ef as [Hrow Hp]; [|done].
  intros from to. unfold consent_of. rewrite find_update_links by done.
  destruct (find_link from to db) as [r|] eqn:E; [|by destruct (same_pair _ _ _ _), accept].
  apply find_link_Some in E as [Hr Hp']; [|done]. unfold same_pair. cbn.
  destruct (al_id r =? al_id row) eqn:Ei.
  - apply Z.eqb_eq in Ei.
    assert (r = row) as -> by (apply (NoDup_key_inj al_id (link_rows db)); [apply Hwf|done..]).
    rewrite Hp in Hp'. injection Hp' as <- <-. rewrite !bool_decide_true by done.
    unfold g, link_consent. destruct accept; reflexivity.
  - destruct (bool_decide (f = from) && bool_decide (t = to)) eqn:Es; [exfalso|done].
    breflect. subst. assert (r = row) as -> by (apply (NoDup_key_inj pair_of (link_rows db)); [apply Hwf|done|done|congruence]).
    done.
Qed.

(** ** Histories *)

Lemma no_links_wf : links_wf no_links.
Proof. split; cbn; [apply NoDup_nil_2|by intros r ?%elem_of_nil|apply NoDup_nil_2|by intros r ?%elem_of_nil]. Qed.

Lemma apply_call_step db c : links_wf db ->
  links_wf (apply_call db c) /\
  forall from to, consent_of (apply_call db c) from to =
    match step_of from to c with None => consent_of db from to | Some o => consent_step (consent_of db from to) o end.
Proof.
  intros Hwf. destruct c as [s now f t reason ttl|s now t f accept ttl]; cbn [apply_call step_of];
    unfold request_tool, respond_tool; fold (same_pair (party f)); destruct (authorized s _ _) as [e|[]]; cbn [ok fst snd lift_link].
  - split; [done|]. intros from to. by rewrite andb_false_r.
  - destruct (request_contact_step now (party f) (party t) (default [] reason) (clamp_link_ttl 604800 ttl) db Hwf)
      as (_ & Hd & Hc). split; [done|]. intros from to. rewrite Hc, andb_true_r. fold (same_pair from to (party f) (party t)).
    by destruct (same_pair _ _ _ _).
  - split; [done|]. intros from to. by rewrite andb_false_r.
  - destruct (respond_contact_step now (party f) (party t) accept (clamp_link_ttl 2592000 ttl) db Hwf)
      as (_ & Hd & Hc). split; [done|]. intros from to. rewrite Hc, andb_true_r. fold (same_pair from to (party f) (party t)).
    by destruct (same_pair _ _ _ _).
Qed.

Lemma agreement_snoc calls c from to :
  agreement (calls ++ [c]) from to =
  match step_of from to c with None => agreement calls from to | Some o => consent_step (agreement calls from to) o end.
Proof.
  unfold agreement. rewrite omap_app, foldl_app. cbn. by destruct (step_of from to c).
Qed.

Lemma run_snoc calls c : run apply_call no_links (calls ++ [c]) = apply_call (run apply_call no_links calls) c.
Proof. by rewrite run_app. Qed.

Lemma links_follow_agreement calls :
  links_wf (run apply_call no_links calls) /\
  forall from to, consent_of (run apply_call no_links calls) from to = agreement calls from to.
Proof.
  induction calls as [|c calls [IHwf IH]] using rev_ind; [by split; [apply no_links_wf|]|].
  rewrite run_snoc. destruct (apply_call_step _ c IHwf) as [Hwf Hc]. split; [done|].
  intros from to. by rewrite Hc, agreement_snoc, IH.
Qed.

(** What an agreement says about a row. *)
Lemma link_consent_flags l : link_status l ∈ [u "pending"; u "approved"; u "blocked"] ->
  link_blocked l = bool_decide (link_consent l = Refused) /\
  forall now, link_approved now l = permits now (Some (link_consent l)) /\
              approved_in_force now l = permits now (Some (link_consent l)).
Proof.
  unfold link_blocked, link_approved, approved_in_force, link_consent.
  intros [->|[->|[->|[]%elem_of_nil]%elem_of_cons]%elem_of_cons]%elem_of_cons;
    (split; [reflexivity|]; intros now; split; vm_compute; by destruct (link_expires l)).
Qed.

(** ** What the links permit *)

Lemma links_with_contacts who op oa (p : AgentLink -> bool) db : links_wf db ->
  existsb p (links_with (list_contacts who db).1 (list_contacts who db).2 op oa) = true <->
  (exists r, find_link who (op, oa) db = Some r /\ p (al_link r) = true) \/
  (exists r, find_link (op, oa) who db = Some r /\ p (al_link r) = true).
Proof.
  intros Hwf. setoid_rewrite (find_link_Some db _ _ _ Hwf). rewrite existsb_exists.
  unfold links_with, list_contacts. cbn [fst snd].
  setoid_rewrite in_app_iff. setoid_rewrite filter_In. setoid_rewrite filter_In. setoid_rewrite in_map_iff.
  setoid_rewrite <- list_elem_of_In. setoid_rewrite bool_decide_eq_true. setoid_rewrite andb_true_iff.
  setoid_rewrite Z.eqb_eq. unfold pair_of, from_party, to_party. split.
  - intros (l & [[[(r & <- & Hr) Hw] [? ?]]|[[(r & <- & Hr) Hw] [? ?]]] & Hp); [left|right]; exists r; by subst.
  - intros [(r & [Hr [= <- <- <-]] & Hp)|(r & [Hr [= <- <- <-]] & Hp)]; exists (al_link r); (split; [|done]);
      [left|right]; repeat split; eauto.
Qed.

Lemma consent_flag db from to (p : AgentLink -> bool) (q : Consent -> bool) : links_wf db ->
  (forall l, link_status l ∈ [u "pending"; u "approved"; u "blocked"] -> p l = q (link_consent l)) ->
  (exists r, find_link from to db = Some r /\ p (al_link r) = true) <->
  (exists c, consent_of db from to = Some c /\ q c = true).
Proof.
  intros Hwf Hpq. unfold consent_of. split.
  - intros (r & Hr & Hp). exists (link_consent (al_link r)). rewrite Hr. split; [done|].
    apply find_link_Some in Hr as [Hr _]; [|done]. rewrite <- Hpq; [done|by apply Hwf].
  - destruct (find_link from to db) as [r|] eqn:Hr; intros (c & [= <-] & Hc). exists r. split; [done|].
    apply find_link_Some in Hr as [Hr _]; [|done]. rewrite Hpq; [done|by apply Hwf].
Qed.

Lemma permits_Some now c : permits now c = true <-> exists x, c = Some x /\ permits now (Some x) = true.
Proof. destruct c; naive_solver. Qed.

Lemma approved_rows_spec now p s chunk db id : links_wf db ->
  id ∈ approved_rows now p s chunk db <-> id ∈ chunk /\ permits now (consent_of db (p, s) (p, id)) = true.
Proof.
  intros Hwf. rewrite permits_Some.
  rewrite <- (consent_flag db _ _ (approved_in_force now) (fun c => permits now (Some c)) Hwf)
    by (intros l Hl; apply (link_consent_flags l Hl)).
  setoid_rewrite (find_link_Some db _ _ _ Hwf). unfold approved_rows.
  rewrite list_elem_of_In, in_map_iff. setoid_rewrite filter_In. setoid_rewrite in_map_iff.
  setoid_rewrite <- list_elem_of_In. setoid_rewrite andb_true_iff. setoid_rewrite andb_true_iff.
  setoid_rewrite andb_true_iff. setoid_rewrite existsb_exists. setoid_rewrite <- list_elem_of_In.
  setoid_rewrite bool_decide_eq_true. setoid_rewrite Z.eqb_eq. unfold pair_of, from_party, to_party. split.
  - intros (l & <- & (r & <- & Hr) & ([Hf Hb] & Hl) & x & Hx & <-). split; [done|]. exists r. split; [split; [done|]; congruence|done].
  - intros (Hid & r & [Hr [= Hp Hs Hp' Hi]] & Hl). exists (al_link r). rewrite Hp, Hs, Hp', Hi. split; [done|]. split; [by exists r|].
    destruct Hl. repeat split; try done. by exists id.
Qed.

Lemma dedup_spec l : Sorted Z.le l -> Sorted Z.lt (dedup l) /\ (forall x, x ∈ dedup l <-> x ∈ l) /\
  head (dedup l) = head l.
Proof.
  induction l as [|x [|y l] IH]; intros Hs; [by split; [constructor|]|by split; [repeat constructor|]|].
  inversion Hs as [|? ? Hs' Hh]; subst. inversion Hh as [|? ? Hxy]; subst. destruct (IH Hs') as (Hd & Hin & Hhd).
  change (dedup (x :: y :: l)) with (if x =? y then dedup (y :: l) else x :: dedup (y :: l)).
  destruct (x =? y) eqn:E.
  - apply Z.eqb_eq in E as ->. split; [done|]. split; [|by rewrite Hhd]. intros z. rewrite Hin, !elem_of_cons. tauto.
  - apply Z.eqb_neq in E. split; [|split; [|done]].
    + constructor; [done|]. destruct (dedup (y :: l)) as [|z d]; constructor. injection Hhd as ->. lia.
    + intros z. rewrite !elem_of_cons, Hin, elem_of_cons. tauto.
Qed.

Lemma query_chunks_spec p s db chs : forall clock id,
  id ∈ query_chunks clock p s chs db <-> exists i chunk, chs !! i = Some chunk /\ id ∈ approved_rows (clock i) p s chunk db.
Proof.
  induction chs as [|chunk chs IH]; intros clock id; cbn [query_chunks].
  - split; [by intros ?%elem_of_nil|intros (i & chunk & Hi & _); by rewrite lookup_nil in Hi].
  - rewrite elem_of_app, IH. split.
    + intros [H|(i & c & Hi & H)]; [by exists O, chunk|by exists (S i), c].
    + intros ([|i] & c & Hi & H); [left; by injection Hi as ->|right; eauto].
Qed.

(** An accepted answer lasts between a minute and a year. *)
Lemma answer_expiry now ttl : 0 <= now <= 2 ^ 62 ->
  exists expires, link_expiry now (clamp_link_ttl 2592000 ttl) = Some expires /\
    now + 60 * 1000000 <= expires <= now + 31536000 * 1000000.
Proof.
  intros Hn. unfold link_expiry.
  assert (60 <= clamp_link_ttl 2592000 ttl <= 31536000) as Hc
    by (unfold clamp_link_ttl; destruct ttl as [t|]; [destruct (0 <? t)|]; lia).
  rewrite (proj2 (Z.ltb_lt _ _)) by lia. eexists. split; [done|].
  unfold isat_add, iclamp, i64_min, i64_max. lia.
Qed.

(** The steps of a history for a pair are requests only, and none of them finds
    the grant expired. *)
Definition only_asks (c : Consent) (os : list PairStep) : Prop :=
  forall o, o ∈ os -> exists now, o = Ask now /\ match c with Granted _ => permits now (Some c) = true | _ => True end.

Lemma asks_keep c os : c <> Asked -> only_asks c os -> foldl consent_step (Some c) os = Some c.
Proof.
  intros Hc. induction os as [|o os IH]; intros Ho; [done|]. cbn [foldl].
  destruct (Ho o) as (now & -> & Hn); [by left|].
  assert (consent_step (Some c) (Ask now) = Some c) as ->.
  { destruct c as [|[e|]|]; try done. cbn in *. breflect. by rewrite (proj2 (Z.leb_gt _ _)) by lia. }
  apply IH. intros o' Ho'. apply Ho. by right.
Qed.

Lemma granted_by_answer calls from to until : agreement calls from to = Some (Granted until) ->
  exists pre c post, calls = pre ++ c :: post /\ step_of from to c = Some (Grant until) /\
    agreement pre from to <> None /\ only_asks (Granted until) (omap (step_of from to) post).
Proof.
  induction calls as [|c calls IH] using rev_ind; [done|]. rewrite agreement_snoc.
  assert (agreement calls from to = Some (Granted until) ->
    (forall o, step_of from to c = Some o ->
       exists now, o = Ask now /\ permits now (Some (Granted until)) = true) ->
    exists pre c' post, calls ++ [c] = pre ++ c' :: post /\ step_of from to c' = Some (Grant until) /\
      agreement pre from to <> None /\ only_asks (Granted until) (omap (step_of from to) post)) as Hkeep.
  { intros (pre & c' & post & -> & Hs & Hn & Ho)%IH Hc. exists pre, c', (post ++ [c]).
    rewrite <- app_assoc. split; [done|]. split; [done|]. split; [done|].
    intros o. rewrite omap_app, elem_of_app. intros [?|Hin]; [by apply Ho|]. cbn in Hin.
    destruct (step_of from to c) as [o'|]; [|by apply elem_of_nil in Hin].
    apply list_elem_of_singleton in Hin as ->. by apply Hc. }
  destruct (step_of from to c) as [[now|e|]|] eqn:Es; cbn [consent_step].
  - destruct (agreement calls from to) as [[|[e|]|]|] eqn:Ea; try done.
    + destruct (e <=? now) eqn:El; [done|]. intros [= <-]. apply Hkeep; [done|].
      intros o [= <-]. exists now. split; [done|]. cbn. breflect. by apply Z.ltb_lt.
    + intros [= <-]. apply Hkeep; [done|]. intros o [= <-]. by exists now.
  - destruct (agreement calls from to) eqn:Ea; [|done]. intros [= <-]. exists calls, c, [].
    split; [done|]. split; [done|]. split; [congruence|]. by intros o ?%elem_of_nil.
  - by destruct (agreement calls from to).
  - intros Ha. by apply Hkeep.
Qed.

(** C21: Consent is the recipient's.  Whatever calls come in whatever order, a
    link is approved only by an accepting answer that a session with the
    authority of its recipient gave to a request that was made; the expiry is that
    answer's, a minute to a year ahead, and since then nobody answered otherwise.
    And as long as nobody answers, requests of any number leave a refusal a
    refusal, and a grant as it is until it expires. *)
Theorem consent_is_the_recipients calls from to :
  (forall until, consent_of (run apply_call no_links calls) from to = Some (Granted until) ->
     exists pre s now t f ttl post,
       calls = pre ++ CallRespond s now t f true ttl :: post /\ party t = to /\ party f = from /\
       authorized s t (u "respond to contact requests") = inr tt /\
       consent_of (run apply_call no_links pre) from to <> None /\
       until = link_expiry now (clamp_link_ttl 2592000 ttl) /\
       (0 <= now <= 2 ^ 62 -> exists expires, until = Some expires /\
          now + 60 * 1000000 <= expires <= now + 31536000 * 1000000) /\
       only_asks (Granted until) (omap (step_of from to) post)) /\
  (forall c more, consent_of (run apply_call no_links calls) from to = Some c -> c <> Asked ->
     only_asks c (omap (step_of from to) more) ->
     consent_of (run apply_call no_links (calls ++ more)) from to = Some c).
Proof.
  setoid_rewrite (proj2 (links_follow_agreement _)). split.
  - intros e (pre & c & post & -> & Hs & Hn & Ho)%granted_by_answer.
    destruct c as [s now f t r ttl|s now t f accept ttl]; cbn in Hs; [by case_match|].
    destruct (bool_decide _ && _ && _) eqn:E; [|done]. destruct accept; [|done]. injection Hs as <-.
    destruct (authorized s t _) as [|[]] eqn:Ea; [by rewrite andb_false_r in E|]. breflect.
    exists pre, s, now, t, f, ttl, post. repeat (split; [done|]). split; [apply answer_expiry|done].
  - intros c more Hc Hne Ho. unfold agreement in *. rewrite omap_app, foldl_app, Hc. by apply asks_keep.
Qed.

Lemma blocks_by_agreement calls who project a :
  let db := run apply_call no_links calls in
  let other := (project, default 0 (ag_id a)) in
  cross_blocks (list_contacts who db).1 (list_contacts who db).2 project a = true <->
  eq_ignore_ascii_case (ag_policy a) (u "block_all") = true \/
  agreement calls who other = Some Refused \/ agreement calls other who = Some Refused.
Proof.
  intros db other. destruct (links_follow_agreement calls) as [Hwf Hag]. rewrite <- !Hag. fold db in Hwf |- *.
  unfold cross_blocks. rewrite orb_true_iff, (links_with_contacts who project _ link_blocked db Hwf).
  rewrite !(consent_flag db _ _ link_blocked (fun c => bool_decide (c = Refused)) Hwf)
    by (intros l Hl; apply (link_consent_flags l Hl)).
  setoid_rewrite bool_decide_eq_true. naive_solver.
Qed.

Lemma approved_by_agreement calls now who project a :
  let db := run apply_call no_links calls in
  let other := (project, default 0 (ag_id a)) in
  cross_approved now (list_contacts who db).1 (list_contacts who db).2 project a = true <->
  permits now (agreement calls who other) = true \/ permits now (agreement calls other who) = true.
Proof.
  intros db other. destruct (links_follow_agreement calls) as [Hwf Hag]. rewrite <- !Hag. fold db in Hwf |- *.
  unfold cross_approved. rewrite (links_with_contacts who project _ (link_approved now) db Hwf), !(permits_Some now (consent_of _ _ _)).
  by rewrite !(consent_flag db _ _ (link_approved now) (fun c => permits now (Some c)) Hwf)
    by (intros l Hl; apply (link_consent_flags l Hl)).
Qed.

(** C22: Agreements govern delivery.  After every history of calls, a message to
    another project passes exactly when, for each recipient, its policy does not
    block everybody, neither of the two refused the other, and one of them granted
    the other contact, in either direction, and the grant has not expired.  Within
    a project the approved contacts of a sender are exactly the candidates that
    granted it contact and whose grant is in force when their chunk is read: in
    this direction only, each once, in ascending order. *)
Theorem agreements_govern_delivery calls :
  let db := run apply_call no_links calls in
  (forall now sender project recipients,
     enforce_cross_project_contacts now (list_contacts sender db).1 (list_contacts sender db).2 project recipients = inr tt <->
     forall a, In a recipients ->
       let other := (project, default 0 (ag_id a)) in
       eq_ignore_ascii_case (ag_policy a) (u "block_all") = false /\
       agreement calls sender other <> Some Refused /\ agreement calls other sender <> Some Refused /\
       (permits now (agreement calls sender other) = true \/ permits now (agreement calls other sender) = true)) /\
  (forall clock project sender_id candidate_ids,
     let approved := list_approved_contact_ids clock project sender_id candidate_ids db in
     Sorted Z.lt approved /\
     forall id, id ∈ approved <->
       exists i chunk, chunks MAX_IN_CLAUSE_ITEMS candidate_ids !! i = Some chunk /\ id ∈ chunk /\
         permits (clock i) (agreement calls (project, sender_id) (project, id)) = true).
Proof.
  intros db. destruct (links_follow_agreement calls) as [Hwf Hag]. fold db in Hwf, Hag. split.
  - intros now sender project recipients.
    rewrite (proj1 (cross_project_needs_links now _ _ project recipients)). apply forall_proper. intros a.
    apply forall_proper. intros _. pose proof (approved_by_agreement calls now sender project a) as Ha.
    pose proof (blocks_by_agreement calls sender project a) as Hb. cbn zeta in *. fold db in Ha, Hb.
    rewrite Ha, <- not_true_iff_false, Hb. rewrite <- (not_true_iff_false (eq_ignore_ascii_case _ _)). tauto.
  - intros clock project sender_id candidate_ids approved. subst approved. unfold list_approved_contact_ids.
    destruct (dedup_spec (merge_sort Z.le (query_chunks clock project sender_id
      (chunks MAX_IN_CLAUSE_ITEMS candidate_ids) db)) (Sorted_merge_sort _ _)) as (Hs & Hin & _).
    split; [done|]. intros id. rewrite Hin, (merge_sort_Permutation Z.le), query_chunks_spec.
    setoid_rewrite (approved_rows_spec _ _ _ _ _ _ Hwf). setoid_rewrite Hag. naive_solver.
Qed.

(** What a policy is set to is one of the four, and spelled as a send reads it. *)
Lemma parse_contact_policy_valid raw : parse_contact_policy raw ∈ VALID_CONTACT_POLICIES.
Proof.
  unfold parse_contact_policy. destruct (existsb _ _) eqn:E; [|right; by left].
  apply existsb_exists in E as (x & Hx & ->%ustr_eqb_eq). by apply list_elem_of_In.
Qed.

(** The fallback query: either direction, or an open policy. *)
Lemma is_contact_allowed_spec calls now from to policy :
  is_contact_allowed now from to policy (run apply_call no_links calls) = true <->
  permits now (agreement calls from to) = true \/ permits now (agreement calls to from) = true \/
  policy = Some (u "auto") \/ policy = Some (u "open").
Proof.
  destruct (links_follow_agreement calls) as [Hwf Hag]. set (db := run _ _ _) in *.
  assert (forall f t, approved_link now f t db = true <-> permits now (agreement calls f t) = true) as Hal.
  { intros f t. rewrite <- Hag, permits_Some.
    rewrite <- (consent_flag db _ _ (approved_in_force now) (fun c => permits now (Some c)) Hwf)
      by (intros l Hl; apply (link_consent_flags l Hl)).
    unfold approved_link, approved_in_force. destruct (List.find _ _) as [r|] eqn:E.
    - apply find_some in E as [Hr [Hl%links_true Hst]%andb_true_iff]. apply list_elem_of_In in Hr.
      assert (find_link f t db = Some r) as Hf by by apply find_link_Some. rewrite Hf. split; [exists r|].
      + by rewrite Hst.
      + intros (r' & [= <-] & Hr'). by rewrite Hst in Hr'.
    - split; [done|]. intros (r & Hf & Hr). apply find_link_Some in Hf as [Hin Hp]; [|done].
      pose proof (find_none _ _ E r (proj1 (list_elem_of_In _ _) Hin)) as Hn. cbn beta in Hn.
      apply links_true in Hp. rewrite Hp in Hn. apply andb_true_iff in Hr as [Hr _]. cbn in Hn. congruence. }
  unfold is_contact_allowed. rewrite !orb_true_iff, !Hal, !ustr_eqb_eq.
  destruct policy as [s|]; cbn; [|split; [intros [[?|?]|[?|?]]|intros [?|[?|[?|?]]]]; try done; tauto].
  split; [intros [[?|?]|[ -> | -> ]]; tauto|].
  intros [?|[?|[Hp|Hp]]]; [tauto|tauto|injection Hp as ->; tauto..].
Qed.

Lemma request_tool_row s now from to reason ttl db row db' :
  request_tool s now from to reason ttl db = (inr row, db') -> find_link (party from) (party to) db' = Some row.
Proof.
  unfold request_tool, lift_link, request_contact. destruct (authorized _ _ _); [done|]. cbv zeta.
  destruct (find_link _ _ (match insert_link _ _ _ _ _ _ with Some d => d | None => _ end)) eqn:E; cbn; [|done].
  by intros [= <- <-].
Qed.

(** A handshake that finds a refusal leaves it, whatever else is asked meanwhile,
    and answers nothing. *)
Lemma handshake_respects_blocks calls s s' now now' from to reason auto_accept ttl between :
  let shake := contact_handshake s s' now now' from to reason auto_accept ttl between (run apply_call no_links calls) in
  agreement calls (party from) (party to) = Some Refused ->
  only_asks Refused (omap (step_of (party from) (party to)) between) ->
  consent_of shake.2 (party from) (party to) = Some Refused /\ shake.1 <> inr true.
Proof.
  intros shake Hr Ho. subst shake. unfold contact_handshake.
  set (c := CallRequest s now from to reason (Some (handshake_ttl ttl))).
  assert (agreement (calls ++ [c]) (party from) (party to) = Some Refused) as Hc.
  { rewrite agreement_snoc, Hr. cbn [step_of c]. by destruct (_ && _ && _). }
  destruct (links_follow_agreement (calls ++ [c])) as [Hwf Hag]. rewrite run_snoc in Hwf, Hag.
  change (apply_call _ c) with (request_tool s now from to reason (Some (handshake_ttl ttl)) (run apply_call no_links calls)).2 in *.
  specialize (Hag (party from) (party to)). rewrite Hc in Hag.
  destruct (request_tool _ _ _ _ _ _ _) as [[e|row] d] eqn:E; [done|]. cbn [snd] in Hwf, Hag.
  assert (d = run apply_call no_links (calls ++ [c])) as Hd
    by (rewrite run_snoc; cbn [apply_call c]; by rewrite E).
  apply request_tool_row in E as Ef.
  assert (eq_ignore_ascii_case (link_status (al_link row)) (u "blocked") = true) as ->.
  { unfold consent_of in Hag. rewrite Ef in Hag. apply find_link_Some in Ef as [Hrow _]; [|done].
    destruct (link_consent_flags _ (wf_status _ Hwf row Hrow)) as [Hb _]. unfold link_blocked in Hb. rewrite Hb.
    apply bool_decide_true. by injection Hag. }
  rewrite andb_false_r. split; [|done]. cbn [snd]. rewrite Hd, <- run_app, (proj2 (links_follow_agreement _)).
  unfold agreement in *. rewrite omap_app, foldl_app, Hc. by apply asks_keep.
Qed.

(** ** Examples *)

(** Sessions of a request that is live, without the feature. *)
Definition open_session : Session := mkSessionCtx false true (mkReads true None true) true.
Definition example_agent (project id : Z) (name : string) : AgentRegistry.AgentRow :=
  mkAgentRow id project (u name) [] [] [] 0 0 (u "auto") (u "contacts_only") 0 None None.
Definition blue : AgentRegistry.AgentRow := example_agent 1 7 "BlueLake".
Definition green : AgentRegistry.AgentRow := example_agent 2 9 "GreenCastle".
Definition example_calls : list ContactCall :=
  [CallRequest open_session 1000 blue green None None; CallRespond open_session 2000 green blue true (Some 60);
   CallRequest open_session 3000 blue green None None].

(** The recipient refuses between the request of a handshake and its answer: the
    answer makes the refusal an approval. *)
Example handshake_overrides_racing_block :
  let deny := CallRespond open_session 1500 green blue false None in
  let shake := contact_handshake open_session open_session 1000 2000 blue green None true (Some 3600) [deny] no_links in
  step_of (party blue) (party green) deny = Some Refuse /\ shake.1 = inr true /\
  consent_of shake.2 (party blue) (party green) = Some (Granted (Some 3600002000)).
Proof. vm_compute. by repeat split. Qed.

Lemma consent_is_the_recipients_witness :
  consent_of (run apply_call no_links example_calls) (party blue) (party green) = Some (Granted (Some 60002000)) /\
  exists pre s now t f ttl post,
    example_calls = pre ++ CallRespond s now t f true ttl :: post /\ party t = party green /\ party f = party blue /\
    authorized s t (u "respond to contact requests") = inr tt.
Proof.
  split; [vm_compute; reflexivity|].
  destruct (proj1 (consent_is_the_recipients example_calls (party blue) (party green)) (Some 60002000))
    as (pre & s & now & t & f & ttl & post & H1 & H2 & H3 & H4 & _); [vm_compute; reflexivity|].
  exists pre, s, now, t, f, ttl, post. split; [exact H1|]. split; [exact H2|]. split; [exact H3|exact H4].
Defined.

(** An agent in the columns a send reads. *)
Definition green_recipient : Contacts.AgentRow := mkAgent (Some 9) (u "GreenCastle") (u "contacts_only") None.

Lemma agreements_govern_delivery_witness :
  let db := run apply_call no_links example_calls in
  enforce_cross_project_contacts 60001999 (list_contacts (party blue) db).1 (list_contacts (party blue) db).2 2
    [green_recipient] = inr tt.
Proof.
  cbv zeta. apply (proj1 (agreements_govern_delivery example_calls)). intros a [<-|[]].
  split; [vm_compute; reflexivity|]. split; [vm_compute; discriminate|]. split; [vm_compute; discriminate|].
  left. vm_compute. reflexivity.
Defined.

(** An instant later the grant has expired, and the other direction never was. *)
Example grant_expires :
  let db := run apply_call no_links example_calls in
  enforce_cross_project_contacts 60002000 (list_contacts (party blue) db).1 (list_contacts (party blue) db).2 2
    [green_recipient] = inl (ContactRequired [u "GreenCastle"] []) /\
  permits 60001999 (agreement example_calls (party green) (party blue)) = false.
Proof. vm_compute. by split. Qed.

Example shorthand_target :
  resolve_contact_target (u "project: backend # GreenCastle") None (u "frontend") = mkTarget (u "backend") (u "GreenCastle") true /\
  resolve_contact_target (u "project:#GreenCastle") None (u "frontend") = mkTarget (u "frontend") (u "project:#GreenCastle") false.
Proof. vm_compute. by split. Qed.
